(* ===== verification/_CoqProject ===== *)
-Q . S2P
Prelude.v
St.v
StRep.v
StSpec.v
StOps.v
StIter.v
StThm.v
RArray.v
RArrayRep.v
RArrayOps.v
RArrayMethods.v
RArrayThm.v
Util.v
Big.v
BigVal.v
BigAdd.v
BigMul.v
BigDiv.v
BigBits.v
BigPow.v
BigStr.v
BigThm.v
Numeric.v
NumericSpec.v
NumericOps.v
NumericThm.v
IntMethods.v
Rational.v
RationalSpec.v
RationalThm.v
Random.v
RandomThm.v
Marshal.v
MarshalRep.v
MarshalSim.v
MarshalTerm.v
MarshalThm.v
Dir.v
DirSpec.v
DirOps.v
DirGlob.v
DirThm.v
Pack.v
Unpack.v
PackSpec.v
PackField.v
PackInt.v
PackUtf8.v
PackStr.v
PackText.v
PackDecode.v
PackSafe.v
PackThm.v
Value.v
Hash.v
HashSpec.v
HashOps.v
HashThm.v
RubySet.v
RubySetThm.v
Qsort.v
QsortElem.v
QsortSpec.v
QsortMem.v
QsortThm.v
Time.v
TimeSearch.v
TimeOps.v
TimeThm.v
CFString.v
Str.v
StrSet.v
StrSpec.v
StrSetSpec.v
StrParse.v
StrSetOps.v
StrOps.v
StrText.v
StrThm.v
