(* ===== verification/Prelude.v ===== *)
(** * A verification library for the core of MacRuby

    MacRuby is an implementation of Ruby in C.  The library models the data
    structures and the arithmetic of its runtime and proves what they promise:
    the hash tables of st.c, the arrays of array.c, the integers of bignum.c and
    numeric.c, the rationals of rational.c, the number scanners and the quicksort of util.c, the
    random numbers of random.c, the serialization of marshal.c, the matching of
    file names of dir.c, the binary templates of pack.c, the hashes of hash.c, the sets of set.c, the
    points in time of time.c and the strings of string.c.

    ** How C is modelled

    A machine word is a [Z]; [u64] and [s64] (and [u32]) reduce a result to its
    width where the code computes in that type.  The configuration is the one the
    repository is built for, 64-bit Mac OS X: [long] and pointers have 64 bits,
    [int] has 32, a digit of a bignum is a [uint64_t] and its double a
    [__uint128_t], and a fixnum has two tag bits, hence 62 bits of value
    ([FIXNUM_MAX] is 2^61 - 1).  A function of the code is a function into [res]:
    [Ok] of its result, or [Err] of a Ruby exception ([Raise]), of a behaviour
    that C leaves undefined (a bad pointer, an index out of bounds, a shift too
    wide, a failed assertion), of a branch left out ([Unmodelled]) or of a loop
    bound of the model exhausted ([NoFuel]).  A theorem that an operation returns
    [Ok] therefore says that it terminates, raises nothing and is memory safe.
    This file has [res] with its monad and notation, the C loops
    ([for_range], [for_down], [iter]), arrays with bounds checks ([aload], [astore]), and the
    tactics and lemmas that the components share.

    ** Parts, files and correspondence

    - st.c (the tables behind hashes, symbols and instance variables): St.v has
      the heap of entries, [st_table] and every function of the file ([st_insert],
      [st_add_direct], [st_delete], [st_foreach], [st_copy], [rehash], ...), over an
      allocator ([Allocator]) and a hash type.  StRep.v says when a heap holds the
      ring, the chains or the packed form of a list of bindings; StSpec.v has the
      contract as an association list and the laws of a hash type
      ([HashTypeLaws]); StOps.v and StIter.v prove the operations; StThm.v
      states the theorems: any sequence of operations refines the association
      list ([st_trace_refines]), tables do not disturb each other, copies and
      iterations with callbacks that delete, and the operations that fault.
    - array.c (and the index ranges of range.c): RArray.v has [rb_ary_t] as a
      window of a block of words, the primitives [rary_*] and the methods
      [rb_ary_*], over the calls into the interpreter ([Runtime]: equality,
      comparison, blocks, random numbers).  RArrayRep.v relates an array to its
      list; RArrayOps.v and RArrayMethods.v prove the primitives and the methods;
      RArrayThm.v has the refinement of lists by sequences of operations, the
      bounds of the reallocation, where it falls short, and the methods whose
      outcome needs a case analysis.
    - util.c: Util.v has [ruby_strtoul], [ruby_scan_oct], [ruby_scan_hex] on
      NUL-terminated strings, with their theorem.  Qsort.v has the quicksort [ruby_qsort] on the bytes of memory,
      with pointers that are addresses and its exchange of elements by words or bytes ([mmswap_], [mmrot3_]).  QsortElem.v has
      the same sort on a list of elements, which stands for no code: QsortSpec.v treats rearrangements of a region, the laws
      of a comparison and the two ways of splitting a region for it, QsortMem.v shows that the exchange of blocks moves
      whole elements under the conditions of [array_ok], so that every step of the sort in memory simulates one
      on elements, and QsortThm.v has the main loop and the theorems.
    - bignum.c: Big.v has the digit arrays and the operations on them, over what
      fresh memory holds ([Junk]); BigVal.v the value of an array, and BigAdd.v,
      BigMul.v, BigDiv.v, BigBits.v, BigPow.v, BigStr.v the correctness of the
      algorithms (schoolbook multiplication, Knuth's division, two's complement,
      squaring by halves, numerals); BigThm.v collects the statements on [Z] that
      the other files use, and the reading of numerals.
    - numeric.c, with the relational methods of compar.c: Numeric.v has the
      methods of Fixnum and Integer and their dispatch by class ([int_plus] is
      [Integer#+] of a fixnum or a bignum); NumericSpec.v and NumericOps.v
      prove that they compute on [Z]; NumericThm.v has the theorems
      on arithmetic, division, bits, powers, rounding, text, conversions to
      machine integers and iterators.
    - IntMethods.v is the interface between the integers and their clients: the
      class [IntegerMethods] of the methods called by name, the class
      [IntegerLaws] of what a client may rely on, and the instance by numeric.c and
      bignum.c.
    - rational.c: Rational.v has the operations over [IntegerMethods];
      RationalSpec.v proves them from [IntegerLaws]; RationalThm.v
      compares them with [Q] of the standard library: values, lowest terms,
      comparison, rounding, powers.
    - random.c: Random.v has the generator, its seeding and the bounded numbers;
      RandomThm.v relates the in-place regeneration to the linear recurrence of
      the Mersenne Twister, seeds to states, and shows [limited_rand] in range.
    - marshal.c: Marshal.v has a heap of objects, the writer ([w_object]) and the
      reader ([r_object0]) with their tables; MarshalRep.v and
      MarshalSim.v show that the reader rebuilds the graph the writer visited;
      MarshalTerm.v that both terminate; MarshalThm.v has the theorems.
    - dir.c: Dir.v has [fnmatch] with [bracket] and [fnmatch_helper], [has_magic],
      [remove_backslashes] and [ruby_brace_expand].  DirSpec.v reads a pattern into
      tokens and matches by trying every position; DirOps.v shows that
      the code, which comes back to the last star and the last [**/] only, agrees;
      DirGlob.v treats plain names and braces; DirThm.v has the theorems.
    - pack.c: Pack.v has [Array#pack] ([pack_pack]) with the reader of templates, its
      directives and the encoders of text, over an interface to CFMutableData; Unpack.v
      has [String#unpack] ([pack_unpack]) with its decoders, over the byte that follows the
      string in memory ([Beyond]).  PackSpec.v has the laws of the interface and the order of bytes;
      PackField.v reduces a round trip of templates to one of fields; PackInt.v,
      PackUtf8.v (with compressed integers) and PackStr.v (with bit strings) prove the fields, PackText.v the
      encoders of text, PackDecode.v the decoders on what the
      encoders wrote, PackSafe.v the decoders on any bytes; PackThm.v has the theorems.
    - hash.c: Value.v has the values of Ruby, their equality as keys ([CFKeys]), and commands on a world of
      objects, which keep their effects when they raise.  Hash.v has the methods of Hash over an interface to
      CFMutableDictionary and one to the interpreter ([HashRuntime]); HashSpec.v the laws of
      the interface through the finite map of a dictionary, HashOps.v the loops that fill and thin out
      hashes; HashThm.v the theorems, with an instance of the laws by association lists.
    - set.c: RubySet.v has the methods of Set over an interface to CFMutableSet, RubySetThm.v its
      laws and theorems.
    - time.c: Time.v has the objects, their normalisation, the search for a [time_t] with given fields
      ([search_time_t]), construction, readers, arithmetic and the marshalled form, over interfaces to the calendar
      of the C library ([CTime]), its doubles ([CDouble]) and the methods of other objects.  TimeSearch.v counts
      the days of the Gregorian calendar and treats the search, TimeOps.v construction, arithmetic and
      the marshalled form; TimeThm.v has a calendar that keeps the promises of the interface, and the theorems.
    - string.c: CFString.v has the interface to the strings of CoreFoundation ([CFStrings]), what is documented of
      them through the list of their characters ([CFStringLaws]), and lists as an instance.  Str.v has the
      objects, parts and searching, successors, case, ends and padding, lines and fields,
      StrSet.v the sets of characters ([str_charset_find], over [CFCharacterSets]) with [count], [delete], [squeeze]
      and [tr].  StrSpec.v treats parts and searching; StrSetSpec.v the pass over the runs of a set and the functions
      on lists that it computes, StrParse.v the language of sets, StrSetOps.v the methods; StrOps.v
      numerals and counting, fields and lines, copies, padding and trimming, StrText.v searching, case, line ends and
      checksums; StrThm.v has the theorems.

    ** What the theorems show

    Refinement: st.c and array.c implement association lists and lists, hash.c and set.c finite maps
    with a default and finite sets, for every
    sequence of operations; the random stream implements its recurrence.
    Functional correctness and equivalence: integer and rational arithmetic
    implement [Z] and [Q], bit operations those of infinite two's complement, the quicksort sorts,
    [fnmatch] the exhaustive matcher, brace expansion its grammar, [Time.utc] the Gregorian calendar, arithmetic
    on times that of nanoseconds, and the methods of strings functions on lists of characters ([tr] a table).
    Types and invariants: integers stay canonical, rationals in lowest terms with
    a positive denominator, the state of the generator is one of its sequence; iteration over a
    hash sees what was there when it began.
    Round trips: integers through their text, graphs of objects through marshal,
    fields of every kind through a template, strings through their text encodings, times through eight
    bytes, strings through [split] and [slice!].
    Termination: marshalling of cyclic graphs, loading of any input, the
    iterators, the search for a time.  Liveness: [String#upto] reaches every string up to its end.  Bounds and errors: reallocation, products of fixnums, conversions,
    division by zero, and the inputs on which the code faults or answers wrongly;
    each of these is stated as it behaves, with
    the condition in the statement: an array that was shifted may be written outside its block by an insertion beyond
    its end, an array whose element size is no multiple of the word is not sorted, dumping a time may read beyond a
    buffer, [tr] may write a NUL.

    ** Bounds and fuel

    Loops of the code that are not structural run on fuel that is shown to be
    enough: a chain of a table is no longer than the heap ([chain_fuel]); a
    quotient digit is corrected at most twice ([max_corrections]); squaring by
    halves recurses at most once per digit ([sqr_fuel]); the carry of a
    numeral fills at most one more digit ([parse_fuel]); a power takes two
    turns for each of the 64 bits of the exponent ([int_pow_fuel]); Euclid's
    algorithm on [long]s ends within twice 63 turns ([gcd_fuel]) and on bignums
    within twice the number of bits ([f_gcd_fuel]); [rb_fix2str] writes at most 62
    digits and has 64 turns; an iterator needs one turn more than there are
    integers to visit.  The writer of marshal.c needs a level for each object of
    the heap and two more, the reader one for each byte of the input and one more;
    [fnmatch] has the product of the lengths of its arguments ([fnmatch_fuel]), brace
    expansion the length of the string; [limited_rand] draws again until the number is in range, so its theorem is on
    the turns a stream needs.  A template is read in as many turns as it has characters;
    compression of an integer takes at most ten bytes per digit ([ber_big]); the decoders
    of text have a turn for each byte.  Each turn of the quicksort takes at least one element out of the regions that are
    left to sort, so it has as many turns as elements.  The interval of [search_time_t] shrinks in each turn and
    has at most 2^64 seconds, for which [iter_pow] has the turns without a number of that size.  The loops of
    string.c have a turn for each character, and the loop that starts again after a change one for each character that
    is left; [upto] needs a turn for each string it visits.

    Sizes are limited as on the machine: a table has at most [st_max_entries]
    entries (its sizes are [int]s); an array fewer than [max_len] elements in at
    most [max_cap] words; numbers are [small], of at most 2^35 bits, where the
    code would otherwise wrap in the length of its buffers, and shifts have a
    bound on the digits for the same reason.

    ** Not modelled

    Float and Complex numbers and the branches on them, dtoa (vendored), coercion
    of operands of other classes; the CoreFoundation and Objective-C branches
    of array.c, and what it hands to the C library (sorting); the recursive [to_s]
    of long bignums; reading marshalled data from a port, user-defined dump
    methods and singleton classes; the seeding of random.c from the operating
    system; the directives of floats and pointers in pack.c; inspection of hashes and the ENV object; the clock and
    the text of times; regular expressions, byte strings, inspection and encodings of strings.  The compiler and virtual machine emit LLVM code and send Objective-C
    messages, encodings are those of CoreFoundation, io.c, file.c,
    process.c and the like are system calls, as is the walk over directories of
    glob_helper, the parser is generated, and
    Oniguruma and most extensions are vendored: their meaning is in code that is
    not in the repository or not its own.

    ** Further work

    The walk of [glob_helper]
    over an abstract file system, range.c, complex.c over the
    interface of the integers, the digests and the file format of ext/sdbm. *)

From stdpp Require Export base numbers list gmap.
From Stdlib Require Export ZArith Lia.

#[global] Open Scope Z_scope.
#[global] Set Default Goal Selector "!".

(** ** Outcomes of C code

    A C function either returns, raises a Ruby exception (a [longjmp] out of
    the C frames), or does something the C language leaves undefined.  The
    undefined behaviours that the modelled code can run into are told apart,
    and exhausting a loop bound of the model is a value of its own, so that a
    theorem that an operation returns [Ok] says at once that it terminates,
    raises nothing and is memory safe. *)

Inductive exc : Type :=
  | ArgumentError
  | IndexError
  | RangeError
  | TypeError
  | RuntimeError
  | SecurityError
  | RegexpError
  | KeyError
  | ZeroDivisionError
  | NoMemoryError.

Inductive fault : Type :=
  | BadPointer      (* dereference of NULL or of an address that is not live *)
  | OutOfBounds     (* index outside the object *)
  | Uninitialised   (* read of a cell that was never written *)
  | DivByZero
  | BadShift        (* shift of an int by its width or more *)
  | AssertFailed
  | NoFuel          (* loop bound of the model exhausted *)
  | Unmodelled      (* a branch of the code that the model leaves out *)
  | Raise (e : exc).

Inductive res (A : Type) : Type :=
  | Ok (a : A)
  | Err (f : fault).
Arguments Ok {A} a.
Arguments Err {A} f.

#[global] Instance exc_eq_dec : EqDecision exc.
Proof. solve_decision. Defined.
#[global] Instance fault_eq_dec : EqDecision fault.
Proof. solve_decision. Defined.
#[global] Instance res_eq_dec `{EqDecision A} : EqDecision (res A).
Proof. solve_decision. Defined.

#[global] Instance res_ret : MRet res := @Ok.
#[global] Instance res_bind : MBind res := λ A B f m,
  match m with Ok a => f a | Err e => Err e end.
#[global] Instance res_fmap : FMap res := λ A B f m,
  match m with Ok a => Ok (f a) | Err e => Err e end.

(** [check b f] is a guard of the code: it continues when [b] holds and
    fails with [f] otherwise. *)
Definition check (b : bool) (f : fault) : res unit :=
  if b then Ok () else Err f.

Definition of_option {A} (f : fault) (o : option A) : res A :=
  match o with Some a => Ok a | None => Err f end.

(** ** Total correctness of an outcome

    [returns m Q]: the code returns a value, and the value satisfies [Q]. *)

Definition returns {A} (m : res A) (Q : A → Prop) : Prop :=
  ∃ a, m = Ok a ∧ Q a.

Section returns_rules.
Context {A B : Type}.

Lemma returns_ret (a : A) (Q : A → Prop) : Q a → returns (Ok a) Q.
Proof. intros H. by exists a. Qed.

Lemma returns_mono (m : res A) (P Q : A → Prop) :
  returns m P → (∀ a, P a → Q a) → returns m Q.
Proof. intros (a & -> & Ha) H. exists a. auto. Qed.

Lemma returns_bind (m : res A) (k : A → res B) (Q : B → Prop) :
  returns m (λ a, returns (k a) Q) → returns (m ≫= k) Q.
Proof. intros (a & -> & H). exact H. Qed.

Lemma returns_bind_mono (m : res A) (k : A → res B) P (Q : B → Prop) :
  returns m P → (∀ a, P a → returns (k a) Q) → returns (m ≫= k) Q.
Proof. intros H1 H2. apply returns_bind. by eapply returns_mono. Qed.

Lemma returns_ok (m : res A) a (Q : A → Prop) :
  m = Ok a → Q a → returns m Q.
Proof. intros -> H. by exists a. Qed.

Lemma returns_eq (m : res A) a : returns m (λ a', a' = a) ↔ m = Ok a.
Proof. split; [by intros (? & -> & ->)|intros ->; by exists a]. Qed.

Lemma bind_ok (m : res A) (k : A → res B) b :
  m ≫= k = Ok b ↔ ∃ a, m = Ok a ∧ k a = Ok b.
Proof. destruct m; simpl; naive_solver. Qed.

Lemma bind_assoc {C} (m : res A) (k : A → res B) (k' : B → res C) :
  (m ≫= k) ≫= k' = m ≫= (λ a, k a ≫= k').
Proof. by destruct m. Qed.

Lemma fmap_ok (m : res A) (g : A → B) b :
  g <$> m = Ok b ↔ ∃ a, m = Ok a ∧ g a = b.
Proof. destruct m; simpl; unfold fmap, res_fmap; naive_solver. Qed.
End returns_rules.

Lemma check_ok b f : check b f = Ok () ↔ b = true.
Proof. destruct b; simpl; naive_solver. Qed.

Lemma returns_check b f (Q : unit → Prop) :
  b = true → Q () → returns (check b f) Q.
Proof. intros -> H. by exists (). Qed.

Lemma of_option_ok {A} f (o : option A) a : of_option f o = Ok a ↔ o = Some a.
Proof. destruct o; simpl; naive_solver. Qed.

(** ** Machine integers

    An unsigned [w]-bit integer is a [Z] in [0 .. 2^w); arithmetic that may
    leave the range is followed by the reduction below.  Signed types are read
    in two's complement. *)

Definition u32 (x : Z) : Z := x mod 2 ^ 32.
Definition u64 (x : Z) : Z := x mod 2 ^ 64.
Definition u128 (x : Z) : Z := x mod 2 ^ 128.
Definition s128 (x : Z) : Z := (x + 2 ^ 127) mod 2 ^ 128 - 2 ^ 127.
Definition s32 (x : Z) : Z := (x + 2 ^ 31) mod 2 ^ 32 - 2 ^ 31.
Definition s64 (x : Z) : Z := (x + 2 ^ 63) mod 2 ^ 64 - 2 ^ 63.

Definition LONG_MAX : Z := 2 ^ 63 - 1.
Definition LONG_MIN : Z := - 2 ^ 63.

(** C's unsigned division and remainder. *)
Definition cdiv (a b : Z) : res Z := if b =? 0 then Err DivByZero else Ok (a / b).
Definition cmod (a b : Z) : res Z := if b =? 0 then Err DivByZero else Ok (a mod b).

Lemma u32_range x : 0 ≤ u32 x < 2 ^ 32.
Proof. apply Z.mod_pos_bound. lia. Qed.
Lemma u64_range x : 0 ≤ u64 x < 2 ^ 64.
Proof. apply Z.mod_pos_bound. lia. Qed.
Lemma s32_range x : - 2 ^ 31 ≤ s32 x < 2 ^ 31.
Proof. unfold s32. pose proof (Z.mod_pos_bound (x + 2 ^ 31) (2 ^ 32)). lia. Qed.
Lemma s64_range x : - 2 ^ 63 ≤ s64 x < 2 ^ 63.
Proof. unfold s64. pose proof (Z.mod_pos_bound (x + 2 ^ 63) (2 ^ 64)). lia. Qed.

Lemma u32_small x : 0 ≤ x < 2 ^ 32 → u32 x = x.
Proof. apply Z.mod_small. Qed.
Lemma u64_small x : 0 ≤ x < 2 ^ 64 → u64 x = x.
Proof. apply Z.mod_small. Qed.
Lemma u128_small x : 0 ≤ x < 2 ^ 128 → u128 x = x.
Proof. apply Z.mod_small. Qed.
Lemma s128_small x : - 2 ^ 127 ≤ x < 2 ^ 127 → s128 x = x.
Proof. intros. unfold s128. rewrite Z.mod_small; lia. Qed.
Lemma s32_small x : - 2 ^ 31 ≤ x < 2 ^ 31 → s32 x = x.
Proof. intros. unfold s32. rewrite Z.mod_small; lia. Qed.
Lemma s64_small x : - 2 ^ 63 ≤ x < 2 ^ 63 → s64 x = x.
Proof. intros. unfold s64. rewrite Z.mod_small; lia. Qed.

(** [p << n | q] puts [q] below [p]. *)
Lemma lor_add p q n : 0 ≤ n → 0 ≤ q < 2 ^ n → Z.lor (p * 2 ^ n) q = p * 2 ^ n + q.
Proof.
  intros Hn Hq. rewrite <- Z.shiftl_mul_pow2 by lia.
  assert (Z.land (Z.shiftl p n) q = 0) as Hl.
  { apply Z.bits_inj'. intros i Hi. rewrite Z.land_spec, Z.bits_0.
    destruct (decide (i < n)); [by rewrite Z.shiftl_spec_low by lia|].
    rewrite (Z.testbit_eqb q) by lia. rewrite Z.div_small; [apply andb_false_r|].
    split; [lia|]. eapply Z.lt_le_trans; [apply Hq|]. apply Z.pow_le_mono_r; lia. }
  rewrite <- Z.lxor_lor by done. symmetry. by apply Z.add_nocarry_lxor.
Qed.

Lemma cmod_ok a b : b ≠ 0 → cmod a b = Ok (a mod b).
Proof. intros. unfold cmod. by rewrite (proj2 (Z.eqb_neq _ _)). Qed.
Lemma cdiv_ok a b : b ≠ 0 → cdiv a b = Ok (a / b).
Proof. intros. unfold cdiv. by rewrite (proj2 (Z.eqb_neq _ _)). Qed.

(** ** Arrays: lists indexed by [Z] *)

Definition zlookup {A} (l : list A) (i : Z) : option A :=
  if 0 <=? i then l !! Z.to_nat i else None.

Definition zlen {A} (l : list A) : Z := Z.of_nat (length l).

(** Read and write of a C array, undefined outside of it. *)
Definition aload {A} (l : list A) (i : Z) : res A :=
  of_option OutOfBounds (zlookup l i).

Definition astore {A} (l : list A) (i : Z) (x : A) : res (list A) :=
  if (0 <=? i) && (i <? zlen l) then Ok (<[Z.to_nat i := x]> l) else Err OutOfBounds.

Section arrays.
Context {A : Type}.
Implicit Types (l : list A) (i j : Z) (x : A).

Lemma zlen_nonneg l : 0 ≤ zlen l.
Proof. unfold zlen. lia. Qed.
Lemma to_nat_zlen l : Z.to_nat (zlen l) = length l.
Proof. apply Nat2Z.id. Qed.
Lemma zlen_nil : zlen (@nil A) = 0.
Proof. done. Qed.
Lemma zlen_cons x l : zlen (x :: l) = 1 + zlen l.
Proof. unfold zlen. simpl. lia. Qed.
Lemma zlen_app l1 l2 : zlen (l1 ++ l2) = zlen l1 + zlen l2.
Proof. unfold zlen. rewrite length_app. lia. Qed.
Lemma zlen_insert l (n : nat) x : zlen (<[n := x]> l) = zlen l.
Proof. unfold zlen. by rewrite length_insert. Qed.
Lemma zlen_replicate n x : zlen (replicate n x) = Z.of_nat n.
Proof. unfold zlen. by rewrite length_replicate. Qed.

Lemma zlookup_nat l (n : nat) : zlookup l (Z.of_nat n) = l !! n.
Proof. unfold zlookup. rewrite Nat2Z.id. by destruct (Z.leb_spec 0 (Z.of_nat n)); [|lia]. Qed.
Lemma zlookup_nonneg l i : 0 ≤ i → zlookup l i = l !! Z.to_nat i.
Proof. intros. unfold zlookup. by rewrite (proj2 (Z.leb_le _ _)). Qed.
Lemma zlookup_Some_range l i x : zlookup l i = Some x → 0 ≤ i < zlen l.
Proof.
  unfold zlookup, zlen. destruct (Z.leb_spec 0 i); [|done].
  intros Hl%lookup_lt_Some. lia.
Qed.
Lemma zlookup_is_Some l i : 0 ≤ i < zlen l → ∃ x, zlookup l i = Some x.
Proof.
  unfold zlen. intros. rewrite zlookup_nonneg by lia. apply lookup_lt_is_Some_2. lia.
Qed.
Lemma zlookup_None l i : zlookup l i = None ↔ ¬ (0 ≤ i < zlen l).
Proof.
  split.
  - intros Hn Hr. destruct (zlookup_is_Some l i Hr) as [? ?]. congruence.
  - destruct (zlookup l i) eqn:E; [|done]. apply zlookup_Some_range in E. tauto.
Qed.
Lemma zlookup_app_l l1 l2 i : i < zlen l1 → zlookup (l1 ++ l2) i = zlookup l1 i.
Proof.
  unfold zlookup, zlen. destruct (Z.leb_spec 0 i); [|done]. intros.
  apply lookup_app_l. lia.
Qed.
Lemma zlookup_app_r l1 l2 i :
  zlen l1 ≤ i → zlookup (l1 ++ l2) i = zlookup l2 (i - zlen l1).
Proof.
  unfold zlookup, zlen. intros. destruct (Z.leb_spec 0 i); [|lia].
  destruct (Z.leb_spec 0 (i - Z.of_nat (length l1))); [|lia].
  rewrite lookup_app_r by lia. f_equal. lia.
Qed.
Lemma zlookup_insert l i j x :
  0 ≤ i < zlen l →
  zlookup (<[Z.to_nat i := x]> l) j = if decide (i = j) then Some x else zlookup l j.
Proof.
  unfold zlookup, zlen. intros. destruct (Z.leb_spec 0 j).
  - case_decide; subst.
    + apply list_lookup_insert_eq. lia.
    + apply list_lookup_insert_ne. lia.
  - case_decide; [lia|done].
Qed.
Lemma zlist_eq l1 l2 :
  zlen l1 = zlen l2 → (∀ i, 0 ≤ i < zlen l1 → zlookup l1 i = zlookup l2 i) → l1 = l2.
Proof.
  unfold zlen. intros Hlen H. apply list_eq_same_length with (length l1); [lia|done|].
  intros i x y Hi Hx Hy. specialize (H (Z.of_nat i)). rewrite !zlookup_nat in H.
  rewrite H in Hx by lia. congruence.
Qed.

Lemma zlookup_take l n i : i < n → zlookup (take (Z.to_nat n) l) i = zlookup l i.
Proof.
  intros. unfold zlookup. destruct (Z.leb_spec 0 i); [|done]. apply lookup_take_lt. lia.
Qed.
Lemma zlookup_drop l n i : 0 ≤ n → 0 ≤ i → zlookup (drop (Z.to_nat n) l) i = zlookup l (n + i).
Proof.
  intros. rewrite !zlookup_nonneg by lia. rewrite lookup_drop. f_equal. lia.
Qed.
Lemma zlookup_replicate n x i : 0 ≤ i < n → zlookup (replicate (Z.to_nat n) x) i = Some x.
Proof. intros. rewrite zlookup_nonneg by lia. apply lookup_replicate_2. lia. Qed.
Lemma zlen_take l n : zlen (take (Z.to_nat n) l) = Z.max 0 (Z.min n (zlen l)).
Proof. unfold zlen. rewrite length_take. lia. Qed.
Lemma zlen_drop l n : 0 ≤ n → zlen (drop (Z.to_nat n) l) = Z.max 0 (zlen l - n).
Proof. unfold zlen. rewrite length_drop. lia. Qed.
Lemma zlen_reverse l : zlen (reverse l) = zlen l.
Proof. unfold zlen. by rewrite length_reverse. Qed.
Lemma zlookup_reverse l i : 0 ≤ i < zlen l → zlookup (reverse l) i = zlookup l (zlen l - 1 - i).
Proof.
  unfold zlen. intros. rewrite !zlookup_nonneg by lia. rewrite reverse_lookup by lia. f_equal. lia.
Qed.

(** Piecewise forms, for reasoning cell by cell. *)
Lemma zlookup_neg l i : i < 0 → zlookup l i = None.
Proof. intros. unfold zlookup. by rewrite (proj2 (Z.leb_gt _ _)). Qed.
Lemma zlookup_app l1 l2 i :
  zlookup (l1 ++ l2) i = if decide (i < zlen l1) then zlookup l1 i else zlookup l2 (i - zlen l1).
Proof. case_decide; [by apply zlookup_app_l|apply zlookup_app_r; lia]. Qed.
Lemma zlookup_cons x l i :
  zlookup (x :: l) i = if decide (i = 0) then Some x else zlookup l (i - 1).
Proof.
  case_decide; subst; [done|]. destruct (decide (i < 0)); [by rewrite !zlookup_neg by lia|].
  rewrite !zlookup_nonneg by lia. by replace (Z.to_nat i) with (S (Z.to_nat (i - 1))) by lia.
Qed.
Lemma zlookup_snoc l x i :
  zlookup (l ++ [x]) i = if decide (i = zlen l) then Some x else zlookup l i.
Proof.
  rewrite zlookup_app, zlookup_cons. pose proof (zlen_nonneg l).
  repeat case_decide; try lia; try done.
  rewrite (proj2 (zlookup_None l i)) by lia. by apply zlookup_None; rewrite ?zlen_nil; lia.
Qed.
Lemma zlookup_insert_at l n x i :
  0 ≤ n ≤ zlen l →
  zlookup (take (Z.to_nat n) l ++ x :: drop (Z.to_nat n) l) i =
  if decide (i < n) then zlookup l i else
  if decide (i = n) then Some x else zlookup l (i - 1).
Proof.
  intros Hn. rewrite zlookup_app, zlen_take, zlookup_cons.
  replace (Z.max 0 (Z.min n (zlen l))) with n by lia.
  case_decide; [by apply zlookup_take|]. repeat case_decide; try lia; try done.
  rewrite zlookup_drop by lia. f_equal. lia.
Qed.
Lemma zlookup_delete_at l n m i :
  0 ≤ n ≤ zlen l → 0 ≤ m →
  zlookup (take (Z.to_nat n) l ++ drop (Z.to_nat (n + m)) l) i =
  if decide (i < n) then zlookup l i else zlookup l (i + m).
Proof.
  intros Hn Hm. rewrite zlookup_app, zlen_take.
  replace (Z.max 0 (Z.min n (zlen l))) with n by lia.
  case_decide; [by apply zlookup_take|]. rewrite zlookup_drop by lia. f_equal. lia.
Qed.

Lemma aload_ok l i x : aload l i = Ok x ↔ zlookup l i = Some x.
Proof. apply of_option_ok. Qed.
Lemma astore_ok l i x :
  0 ≤ i < zlen l → astore l i x = Ok (<[Z.to_nat i := x]> l).
Proof.
  intros. unfold astore.
  by rewrite (proj2 (Z.leb_le _ _)), (proj2 (Z.ltb_lt _ _)) by lia.
Qed.
Lemma astore_inv l i x l' :
  astore l i x = Ok l' → 0 ≤ i < zlen l ∧ l' = <[Z.to_nat i := x]> l.
Proof.
  unfold astore. destruct (Z.leb_spec 0 i), (Z.ltb_spec i (zlen l)); simpl; naive_solver.
Qed.
Lemma aload_returns l i : 0 ≤ i < zlen l → ∃ x, aload l i = Ok x ∧ zlookup l i = Some x.
Proof. intros (x & Hx)%zlookup_is_Some. exists x. by rewrite aload_ok. Qed.
End arrays.
Arguments zlen_nil : clear implicits.

(** ** Loops *)

(** [for (i = a; i < b; i++)] with bounds the body does not change. *)
Fixpoint for_up {S} (n : nat) (i : Z) (body : Z → S → res S) (s : S) : res S :=
  match n with
  | O => Ok s
  | Datatypes.S n' => s' ← body i s; for_up n' (i + 1) body s'
  end.

Definition for_range {S} (a b : Z) (body : Z → S → res S) (s : S) : res S :=
  for_up (Z.to_nat (b - a)) a body s.

(** [for (i = a; i >= b; i--)] and [for (i = a; i > b - 1; i--)]. *)
Fixpoint for_down_n {S} (n : nat) (i : Z) (body : Z → S → res S) (s : S) : res S :=
  match n with
  | O => Ok s
  | Datatypes.S n' => s' ← body i s; for_down_n n' (i - 1) body s'
  end.

Definition for_down {S} (a b : Z) (body : Z → S → res S) (s : S) : res S :=
  for_down_n (Z.to_nat (a - b + 1)) a body s.

(** A loop with a state and several exits: [step] continues with [inl] and
    leaves the loop with [inr]. *)
Fixpoint iter {S A} (fuel : nat) (step : S → res (S + A)) (s : S) : res A :=
  match fuel with
  | O => Err NoFuel
  | Datatypes.S fuel' =>
      r ← step s;
      match r with
      | inl s' => iter fuel' step s'
      | inr a => Ok a
      end
  end.

Section loops.
Context {S : Type}.

Lemma for_up_inv (P : Z → S → Prop) n i body s :
  P i s →
  (∀ j s, i ≤ j < i + Z.of_nat n → P j s → returns (body j s) (P (j + 1))) →
  returns (for_up n i body s) (P (i + Z.of_nat n)).
Proof.
  revert i s. induction n as [|n IH]; intros i s H0 Hstep; cbn [for_up].
  - rewrite Z.add_0_r. by apply returns_ret.
  - apply returns_bind_mono with (P (i + 1)); [apply Hstep; auto; lia|].
    intros s' Hs'. replace (i + Z.of_nat (Datatypes.S n)) with (i + 1 + Z.of_nat n) by lia.
    apply IH; [done|]. intros j s2 Hj. apply Hstep. lia.
Qed.

(** The invariant rule of a counting loop. *)
Lemma for_range_inv (P : Z → S → Prop) a b body s :
  a ≤ b → P a s →
  (∀ j s, a ≤ j < b → P j s → returns (body j s) (P (j + 1))) →
  returns (for_range a b body s) (P b).
Proof.
  intros Hab H0 Hstep. unfold for_range.
  replace b with (a + Z.of_nat (Z.to_nat (b - a))) at 2 by lia.
  apply for_up_inv; [done|]. intros j s' Hj. apply Hstep. lia.
Qed.

Lemma for_range_empty a b body (s : S) : b ≤ a → for_range a b body s = Ok s.
Proof. intros. unfold for_range. by replace (Z.to_nat (b - a)) with O by lia. Qed.

Lemma for_range_step a b body (s : S) :
  a < b → for_range a b body s = body a s ≫= for_range (a + 1) b body.
Proof.
  intros. unfold for_range.
  replace (Z.to_nat (b - a)) with (Datatypes.S (Z.to_nat (b - (a + 1)))) by lia. done.
Qed.

Lemma for_down_n_inv (P : Z → S → Prop) n i body s :
  P i s →
  (∀ j s, i - Z.of_nat n < j ≤ i → P j s → returns (body j s) (P (j - 1))) →
  returns (for_down_n n i body s) (P (i - Z.of_nat n)).
Proof.
  revert i s. induction n as [|n IH]; intros i s H0 Hstep; cbn [for_down_n].
  - rewrite Z.sub_0_r. by apply returns_ret.
  - apply returns_bind_mono with (P (i - 1)); [apply Hstep; auto; lia|].
    intros s' Hs'. replace (i - Z.of_nat (Datatypes.S n)) with (i - 1 - Z.of_nat n) by lia.
    apply IH; [done|]. intros j s2 Hj. apply Hstep. lia.
Qed.

Lemma for_down_inv (P : Z → S → Prop) a b body s :
  b - 1 ≤ a → P a s →
  (∀ j s, b ≤ j ≤ a → P j s → returns (body j s) (P (j - 1))) →
  returns (for_down a b body s) (P (b - 1)).
Proof.
  intros Hab H0 Hstep. unfold for_down.
  replace (b - 1) with (a - Z.of_nat (Z.to_nat (a - b + 1))) by lia.
  apply for_down_n_inv; [done|]. intros j s' Hj. apply Hstep. lia.
Qed.

(** The rule of a general loop: an invariant and a measure. *)
Lemma iter_inv {A} (P : S → Prop) (m : S → nat) (Q : A → Prop) fuel step s :
  P s → (m s < fuel)%nat →
  (∀ s, P s → returns (step s) (λ r,
     match r with inl s' => P s' ∧ (m s' < m s)%nat | inr a => Q a end)) →
  returns (iter fuel step s) Q.
Proof.
  revert s. induction fuel as [|fuel IH]; intros s HP Hm Hstep; [lia|]. cbn [iter].
  eapply returns_bind_mono; [by apply Hstep|].
  intros [s'|a] Hr; [|by apply returns_ret].
  destruct Hr. apply IH; [done|lia|done].
Qed.
End loops.

(** ** Automation *)

(** Opens existentials and conjunctions of the context, keeping names. *)
Ltac deex :=
  repeat match goal with
  | H : ∃ x, _ |- _ => let y := fresh x in destruct H as [y H]
  | H : _ ∧ _ |- _ => let H' := fresh H in destruct H as [H H']
  end.

(** Turns the boolean comparisons of the code into propositions. *)
Ltac cmp_spec :=
  repeat match goal with
  | |- context [?a <? ?b] => destruct (Z.ltb_spec a b)
  | |- context [?a <=? ?b] => destruct (Z.leb_spec a b)
  | |- context [?a =? ?b] => destruct (Z.eqb_spec a b)
  end.

(** One step of a computation whose outcome is already known: rewrites the
    first command of a bind. *)
Ltac step_with H := rewrite H; cbn [mbind res_bind].

Create HintDb mruby.
Create Rewrite HintDb zlen.
#[export] Hint Resolve zlen_nonneg : mruby.
#[export] Hint Rewrite @zlen_app @zlen_cons @zlen_nil @zlen_insert @zlen_replicate
  @zlen_take @zlen_reverse : zlen.
