(* ===== verification/St.v ===== *)
(** * The hash table of st.c: data and operations

    A table is a record over a heap of entries.  Every entry is linked three
    times: singly from its bin ([next]), and doubly, in insertion order, from
    its neighbours ([fore], [back]); small tables with integer keys are
    "packed": the bin array itself holds keys and values in turn.  Words are
    [Z], so that a bin can hold an entry pointer or, in a packed table, raw
    data, as the casts of the source do.  An address that is not in the heap
    cannot be dereferenced: the model then returns [Err BadPointer]. *)

From S2P Require Import Prelude.

(** ** Data *)

Record st_table_entry := mkEntry {
  hash : Z;       (* unsigned int *)
  key : Z;        (* st_data_t *)
  record : Z;     (* st_data_t *)
  next : Z;       (* st_table_entry * *)
  fore : Z;
  back : Z;
}.

Abbreviation heap := (gmap Z st_table_entry).

(** Field assignments [ptr->f = v]. *)
Definition set_record (v : Z) (e : st_table_entry) : st_table_entry :=
  mkEntry (hash e) (key e) v (next e) (fore e) (back e).
Definition set_next (v : Z) (e : st_table_entry) : st_table_entry :=
  mkEntry (hash e) (key e) (record e) v (fore e) (back e).
Definition set_fore (v : Z) (e : st_table_entry) : st_table_entry :=
  mkEntry (hash e) (key e) (record e) (next e) v (back e).
Definition set_back (v : Z) (e : st_table_entry) : st_table_entry :=
  mkEntry (hash e) (key e) (record e) (next e) (fore e) v.
Definition set_key_record (k v : Z) (e : st_table_entry) : st_table_entry :=
  mkEntry (hash e) k v (next e) (fore e) (back e).

(** The hash type of a table: one of the three built-in ones, recognised by
    address in the source, or one supplied by the caller.  The string types
    take keys that are [char *]: [mem] gives the bytes before the NUL. *)
Inductive st_hash_type : Type :=
  | type_numhash
  | type_strhash (mem : Z → list Z)
  | type_strcasehash (mem : Z → list Z)
  | type_custom (compare : Z → Z → Z) (hashf : Z → Z).

Record st_table := mkTable {
  type : st_hash_type;
  num_bins : Z;             (* st_index_t *)
  entries_packed : bool;
  num_entries : Z;          (* 63-bit field *)
  bins : list Z;
  head : Z;
}.

Definition set_num_entries (n : Z) (t : st_table) : st_table :=
  mkTable (type t) (num_bins t) (entries_packed t) n (bins t) (head t).
Definition set_bins (b : list Z) (t : st_table) : st_table :=
  mkTable (type t) (num_bins t) (entries_packed t) (num_entries t) b (head t).
Definition set_head (p : Z) (t : st_table) : st_table :=
  mkTable (type t) (num_bins t) (entries_packed t) (num_entries t) (bins t) p.

Inductive st_retval := ST_CONTINUE | ST_STOP | ST_DELETE | ST_CHECK.

(** ** String and number hashing *)

Definition FNV1_32A_INIT : Z := 0x811c9dc5.
Definition FNV_32_PRIME : Z := 0x01000193.

(** A byte of a [const char *]: [char] is signed, and the conversion to
    [unsigned int] sign-extends. *)
Definition char_to_uint (c : Z) : Z := u32 (if c <? 128 then c else c - 256).

Definition strhash (s : list Z) : Z :=
  foldl (λ hval c, u32 (Z.lxor hval (char_to_uint c) * FNV_32_PRIME)) FNV1_32A_INIT s.

Definition rb_hash_string (s : list Z) : Z := strhash s.

(** [if ((unsigned int)(c - 'A') <= ('Z' - 'A')) c += 'a' - 'A'] *)
Definition ascii_downcase (c : Z) : Z := if u32 (c - 65) <=? 25 then c + 32 else c.

Definition strcasehash (s : list Z) : Z :=
  foldl (λ hval c, u32 (Z.lxor hval (ascii_downcase c) * FNV_32_PRIME)) FNV1_32A_INIT s.

(** The strings are given without their terminating NUL. *)
Fixpoint st_strcasecmp (s1 s2 : list Z) : Z :=
  match s1, s2 with
  | [], [] => 0
  | _ :: _, [] => 1
  | [], _ :: _ => -1
  | a :: s1', b :: s2' =>
      let c1 := ascii_downcase a in
      let c2 := ascii_downcase b in
      if c1 =? c2 then st_strcasecmp s1' s2' else if c2 <? c1 then 1 else -1
  end.

Fixpoint st_strncasecmp (s1 s2 : list Z) (n : nat) : Z :=
  match n with
  | O => 0
  | S n' =>
      match s1, s2 with
      | [], [] => 0
      | _ :: _, [] => 1
      | [], _ :: _ => -1
      | a :: s1', b :: s2' =>
          let c1 := ascii_downcase a in
          let c2 := ascii_downcase b in
          if c1 =? c2 then st_strncasecmp s1' s2' n' else if c2 <? c1 then 1 else -1
      end
  end.

(** [strcmp] of the C library, used by [type_strhash]. *)
Fixpoint strcmp (s1 s2 : list Z) : Z :=
  match s1, s2 with
  | [], [] => 0
  | _ :: _, [] => 1
  | [], _ :: _ => -1
  | a :: s1', b :: s2' => if a =? b then strcmp s1' s2' else if b <? a then 1 else -1
  end.

Definition st_numcmp (x y : Z) : Z := if x =? y then 0 else 1.
Definition st_numhash (n : Z) : Z := s32 n.

Definition type_compare (ty : st_hash_type) : Z → Z → Z :=
  match ty with
  | type_numhash => st_numcmp
  | type_strhash mem => λ x y, strcmp (mem x) (mem y)
  | type_strcasehash mem => λ x y, st_strcasecmp (mem x) (mem y)
  | type_custom c _ => c
  end.

Definition type_hash (ty : st_hash_type) : Z → Z :=
  match ty with
  | type_numhash => st_numhash
  | type_strhash mem => λ x, s32 (strhash (mem x))
  | type_strcasehash mem => λ x, s32 (strcasehash (mem x))
  | type_custom _ h => h
  end.

Definition is_numhash (ty : st_hash_type) : bool :=
  match ty with type_numhash => true | _ => false end.

(** [EQUAL(table,x,y)] and [do_hash(key,table)] *)
Definition EQUAL (ty : st_hash_type) (x y : Z) : bool :=
  (x =? y) || (type_compare ty x y =? 0).
Definition do_hash (ty : st_hash_type) (k : Z) : Z := u32 (type_hash ty k).

(** ** Sizes *)

Definition ST_DEFAULT_MAX_DENSITY : Z := 5.
Definition MINSIZE : Z := 8.
Definition MAX_PACKED_NUMHASH : Z := 5.

Definition primes : list Z :=
  [8 + 3; 16 + 3; 32 + 5; 64 + 3; 128 + 3; 256 + 27; 512 + 9; 1024 + 9; 2048 + 5;
   4096 + 3; 8192 + 27; 16384 + 43; 32768 + 3; 65536 + 45; 131072 + 29; 262144 + 3;
   524288 + 21; 1048576 + 7; 2097152 + 17; 4194304 + 15; 8388608 + 9; 16777216 + 43;
   33554432 + 35; 67108864 + 15; 134217728 + 29; 268435456 + 3; 536870912 + 11;
   1073741824 + 85; 0].

Fixpoint new_size_loop (ps : list Z) (newsize size : Z) : Z :=
  match ps with
  | [] => -1
  | p :: ps' =>
      if size <? newsize then p else new_size_loop ps' (s32 (Z.shiftl newsize 1)) size
  end.

Definition new_size (size : Z) : Z := new_size_loop primes MINSIZE size.

#[global] Arguments new_size : simpl never.

(** ** Memory primitives *)

(** The allocator: gc.c's [ruby_xmalloc] never returns NULL (it raises
    NoMemoryError), and the block it returns is not one that is live. *)
Class Allocator := {
  malloc : heap → Z;
  malloc_fresh : ∀ h, h !! malloc h = None;
  malloc_nonnull : ∀ h, malloc h ≠ 0;
}.

Definition deref (h : heap) (p : Z) : res st_table_entry :=
  if p =? 0 then Err BadPointer else of_option BadPointer (h !! p).

Definition modify (h : heap) (p : Z) (f : st_table_entry → st_table_entry) : res heap :=
  e ← deref h p; Ok (<[p := f e]> h).

Definition free (h : heap) (p : Z) : res heap :=
  _ ← deref h p; Ok (delete p h).

(** A [st_table_entry **] that walks a chain: the address of a bin or of an
    entry's [next] field. *)
Inductive slot := SBin (i : Z) | SNext (p : Z).

Definition read_slot (h : heap) (t : st_table) (s : slot) : res Z :=
  match s with
  | SBin i => aload (bins t) i
  | SNext p => next <$> deref h p
  end.

Definition write_slot (h : heap) (t : st_table) (s : slot) (v : Z) : res (heap * st_table) :=
  match s with
  | SBin i => b ← astore (bins t) i v; Ok (h, set_bins b t)
  | SNext p => h' ← modify h p (set_next v); Ok (h', t)
  end.

(** gc.c, [ruby_xmalloc2]: the size computation wraps, and the wrap is
    detected by dividing back. *)
Definition ruby_xmalloc2 (n size : Z) : res Z :=
  let len := u64 (size * n) in
  if negb (n =? 0) && negb (size =? len / n) then Err (Raise ArgumentError) else Ok len.

(** [Calloc(n, sizeof(st_table_entry* ))], [n] converted to [size_t]. *)
Definition Calloc (n : Z) : res (list Z) :=
  _ ← ruby_xmalloc2 (u64 n) 8; Ok (replicate (Z.to_nat n) 0).

Definition u63 (x : Z) : Z := x mod 2 ^ 63.

(** Loop bound for a walk along a chain: no chain of distinct live entries is
    longer than the heap. *)
Definition chain_fuel (h : heap) : nat := S (size h).

(** ** Creation *)

Definition st_init_table_with_size (ty : st_hash_type) (size : Z) : res st_table :=
  let size := new_size size in
  b ← Calloc size;
  Ok (mkTable ty (u64 size) (is_numhash ty && (Z.quot size 2 <=? MAX_PACKED_NUMHASH)) 0 b 0).

Definition st_init_table (ty : st_hash_type) : res st_table := st_init_table_with_size ty 0.
Definition st_init_numtable : res st_table := st_init_table type_numhash.
Definition st_init_numtable_with_size (size : Z) : res st_table :=
  st_init_table_with_size type_numhash size.
Definition st_init_strtable (mem : Z → list Z) : res st_table := st_init_table (type_strhash mem).
Definition st_init_strtable_with_size (mem : Z → list Z) (size : Z) : res st_table :=
  st_init_table_with_size (type_strhash mem) size.
Definition st_init_strcasetable (mem : Z → list Z) : res st_table :=
  st_init_table (type_strcasehash mem).
Definition st_init_strcasetable_with_size (mem : Z → list Z) (size : Z) : res st_table :=
  st_init_table_with_size (type_strcasehash mem) size.

(** ** Search *)

(** The scan of a packed table: the first index [i < num_entries] with
    [bins[i*2] == key]. *)
Fixpoint packed_find (b : list Z) (k : Z) (i : Z) (n : nat) : res (option Z) :=
  match n with
  | O => Ok None
  | S n' =>
      x ← aload b (i * 2);
      if x =? k then Ok (Some i) else packed_find b k (i + 1) n'
  end.

Definition find_packed (t : st_table) (k : Z) : res (option Z) :=
  packed_find (bins t) k 0 (Z.to_nat (num_entries t)).

Definition PTR_NOT_EQUAL (h : heap) (ty : st_hash_type) (ptr hash_val k : Z) : res bool :=
  if ptr =? 0 then Ok false else
  e ← deref h ptr;
  Ok (negb (hash e =? hash_val) || negb (EQUAL ty k (key e))).

(** [while (PTR_NOT_EQUAL(table, ptr->next, hash_val, key)) ptr = ptr->next;
     ptr = ptr->next;] *)
Fixpoint find_in_chain (fuel : nat) (h : heap) (ty : st_hash_type) (ptr hash_val k : Z) : res Z :=
  match fuel with
  | O => Err NoFuel
  | S fuel' =>
      e ← deref h ptr;
      ne ← PTR_NOT_EQUAL h ty (next e) hash_val k;
      if ne : bool then find_in_chain fuel' h ty (next e) hash_val k else Ok (next e)
  end.

(** Returns the entry found, or NULL, and [bin_pos]. *)
Definition FIND_ENTRY (h : heap) (t : st_table) (hash_val k : Z) : res (Z * Z) :=
  bin_pos ← cmod hash_val (num_bins t);
  ptr ← aload (bins t) bin_pos;
  ne ← PTR_NOT_EQUAL h (type t) ptr hash_val k;
  if ne : bool then
    ptr' ← find_in_chain (chain_fuel h) h (type t) ptr hash_val k;
    Ok (ptr', bin_pos)
  else Ok (ptr, bin_pos).

(** The [int] result and the word stored through [value], if any. *)
Definition st_lookup (h : heap) (t : st_table) (k : Z) : res (option Z) :=
  if entries_packed t then
    oi ← find_packed t k;
    match oi with
    | Some i => v ← aload (bins t) (i * 2 + 1); Ok (Some v)
    | None => Ok None
    end
  else
    '(ptr, _) ← FIND_ENTRY h t (do_hash (type t) k) k;
    if ptr =? 0 then Ok None else e ← deref h ptr; Ok (Some (record e)).

Definition st_get_key (h : heap) (t : st_table) (k : Z) : res (option Z) :=
  if entries_packed t then
    oi ← find_packed t k;
    match oi with
    | Some i => v ← aload (bins t) (i * 2); Ok (Some v)
    | None => Ok None
    end
  else
    '(ptr, _) ← FIND_ENTRY h t (do_hash (type t) k) k;
    if ptr =? 0 then Ok None else e ← deref h ptr; Ok (Some (key e)).

(** ** Insertion *)

(** The [do .. while] of [rehash]: re-links every entry of the ring into the
    new bins, from [ptr] until the walk is back at [head]. *)
Fixpoint rehash_ring (fuel : nat) (h : heap) (b : list Z) (nb ptr hd : Z) : res (heap * list Z) :=
  match fuel with
  | O => Err NoFuel
  | S fuel' =>
      e ← deref h ptr;
      hash_val ← cmod (hash e) nb;
      old ← aload b hash_val;
      h ← modify h ptr (set_next old);
      b ← astore b hash_val ptr;
      if fore e =? hd then Ok (h, b) else rehash_ring fuel' h b nb (fore e) hd
  end.

Definition rehash (h : heap) (t : st_table) : res (heap * st_table) :=
  let new_num_bins := new_size (s32 (num_bins t + 1)) in
  _ ← check (0 <=? new_num_bins) (Raise NoMemoryError);
  let b := replicate (Z.to_nat new_num_bins) 0 in
  if head t =? 0 then
    Ok (h, mkTable (type t) new_num_bins (entries_packed t) (num_entries t) b (head t))
  else
    '(h, b) ← rehash_ring (chain_fuel h) h b new_num_bins (head t) (head t);
    Ok (h, mkTable (type t) new_num_bins (entries_packed t) (num_entries t) b (head t)).

Section operations.
Context `{Alloc : Allocator}.

(** The new entry, with its data and [next] set, becomes the last one of the
    ring. *)
Definition link_entry (h : heap) (t : st_table) (entry hash_val k v nxt : Z)
    : res (heap * st_table) :=
  if head t =? 0 then
    Ok (<[entry := mkEntry hash_val k v nxt entry entry]> h, set_head entry t)
  else
    eh ← deref h (head t);
    let h := <[entry := mkEntry hash_val k v nxt (head t) (back eh)]> h in
    h ← modify h (back eh) (set_fore entry);
    h ← modify h (head t) (set_back entry);
    Ok (h, t).

(** The second half of [ADD_DIRECT]: allocates the entry and links it in. *)
Definition add_entry (h : heap) (t : st_table) (k v hash_val bin_pos : Z)
    : res (heap * st_table) :=
  old ← aload (bins t) bin_pos;
  let entry := malloc h in
  '(h, t) ← link_entry h t entry hash_val k v old;
  b ← astore (bins t) bin_pos entry;
  Ok (h, set_num_entries (u63 (num_entries t + 1)) (set_bins b t)).

Definition ADD_DIRECT (h : heap) (t : st_table) (k v hash_val bin_pos : Z)
    : res (heap * st_table) :=
  density ← cdiv (num_entries t) (num_bins t);
  if ST_DEFAULT_MAX_DENSITY <? density then
    '(h, t) ← rehash h t;
    bin_pos ← cmod hash_val (num_bins t);
    add_entry h t k v hash_val bin_pos
  else add_entry h t k v hash_val bin_pos.

(** The part of [st_insert] after the packed case. *)
Definition insert_unpacked (h : heap) (t : st_table) (k v : Z) : res (bool * heap * st_table) :=
  let hash_val := do_hash (type t) k in
  '(ptr, bin_pos) ← FIND_ENTRY h t hash_val k;
  if ptr =? 0 then
    '(h, t) ← ADD_DIRECT h t k v hash_val bin_pos; Ok (false, h, t)
  else
    h ← modify h ptr (set_record v); Ok (true, h, t).

(** [st_insert] with the function to call on a packed table that is full.
    [unpack_entries] and [st_insert] call each other in the source; the nested
    calls see [entries_packed = 0], so one level of the knot is enough. *)
Definition st_insert_with (unpack : heap → st_table → res (heap * st_table))
    (h : heap) (t : st_table) (k v : Z) : res (bool * heap * st_table) :=
  if entries_packed t then
    oi ← find_packed t k;
    match oi with
    | Some i => b ← astore (bins t) (i * 2 + 1) v; Ok (true, h, set_bins b t)
    | None =>
        if ((num_entries t + 1) * 2 <=? num_bins t)
           && (num_entries t + 1 <=? MAX_PACKED_NUMHASH) then
          let i := num_entries t in
          b ← astore (bins t) (i * 2) k;
          b ← astore b (i * 2 + 1) v;
          Ok (false, h, set_num_entries (u63 (i + 1)) (set_bins b t))
        else
          '(h, t) ← unpack h t; insert_unpacked h t k v
    end
  else insert_unpacked h t k v.

(** [packed] is the copy of the packed words, taken two by two. *)
Fixpoint unpack_loop (h : heap) (t : st_table) (packed : list Z) : res (heap * st_table) :=
  match packed with
  | k :: v :: packed' =>
      '(_, h, t) ← st_insert_with (λ _ _, Err NoFuel) h t k v;
      unpack_loop h t packed'
  | _ => Ok (h, t)
  end.

(** [packed_bins] has [MAX_PACKED_NUMHASH*2] words: copying more than that, or
    more than the bins hold, is out of bounds. *)
Definition unpack_entries (h : heap) (t : st_table) : res (heap * st_table) :=
  let n := num_entries t in
  _ ← check ((n * 2 <=? MAX_PACKED_NUMHASH * 2) && (n * 2 <=? zlen (bins t))) OutOfBounds;
  let packed_bins := take (Z.to_nat (n * 2)) (bins t) in
  _ ← check (num_bins t <=? zlen (bins t)) OutOfBounds;
  let zeroed := replicate (Z.to_nat (num_bins t)) 0 ++ drop (Z.to_nat (num_bins t)) (bins t) in
  unpack_loop h (mkTable (type t) (num_bins t) false 0 zeroed (head t)) packed_bins.

Definition st_insert : heap → st_table → Z → Z → res (bool * heap * st_table) :=
  st_insert_with unpack_entries.

(** The part of [st_add_direct] after the packed case. *)
Definition add_direct_unpacked (h : heap) (t : st_table) (k v : Z) : res (heap * st_table) :=
  let hash_val := do_hash (type t) k in
  bin_pos ← cmod hash_val (num_bins t);
  ADD_DIRECT h t k v hash_val bin_pos.

Definition st_add_direct (h : heap) (t : st_table) (k v : Z) : res (heap * st_table) :=
  if entries_packed t then
    if ((num_entries t + 1) * 2 <=? num_bins t)
       && (num_entries t + 1 <=? MAX_PACKED_NUMHASH) then
      let i := num_entries t in
      b ← astore (bins t) (i * 2) k;
      b ← astore b (i * 2 + 1) v;
      Ok (h, set_num_entries (u63 (i + 1)) (set_bins b t))
    else
      '(h, t) ← unpack_entries h t; add_direct_unpacked h t k v
  else add_direct_unpacked h t k v.

(** ** Copy *)

(** A [st_table_entry **] of [st_copy]: the new table's [head] or an entry's
    [fore]. *)
Inductive tailptr := THead | TFore (p : Z).

Definition write_tail (h : heap) (t : st_table) (tl : tailptr) (v : Z) : res (heap * st_table) :=
  match tl with
  | THead => Ok (h, set_head v t)
  | TFore p => h' ← modify h p (set_fore v); Ok (h', t)
  end.

(** The [do .. while] of [st_copy]; the state is the heap, the new table, the
    entry to copy, [prev] and [tail].  Allocation does not fail here (the
    allocator raises instead), so the clean-up branch is dead. *)
Fixpoint copy_loop (fuel : nat) (h : heap) (nt : st_table) (ptr hd prev : Z) (tl : tailptr)
    : res (heap * st_table * Z * tailptr) :=
  match fuel with
  | O => Err NoFuel
  | S fuel' =>
      e ← deref h ptr;
      let entry := malloc h in
      hash_val ← cmod (hash e) (num_bins nt);
      old ← aload (bins nt) hash_val;
      let h := <[entry := mkEntry (hash e) (key e) (record e) old (fore e) prev]> h in
      b ← astore (bins nt) hash_val entry;
      '(h, nt) ← write_tail h (set_bins b nt) tl entry;
      if fore e =? hd then Ok (h, nt, entry, TFore entry)
      else copy_loop fuel' h nt (fore e) hd entry (TFore entry)
  end.

Definition st_copy (h : heap) (old_table : st_table) : res (heap * st_table) :=
  b ← Calloc (num_bins old_table);
  if entries_packed old_table then
    _ ← check (num_bins old_table <=? zlen (bins old_table)) OutOfBounds;
    Ok (h, set_bins (take (Z.to_nat (num_bins old_table)) (bins old_table)) old_table)
  else
    let nt := set_bins b old_table in
    if head old_table =? 0 then Ok (h, nt) else
    '(h, nt, prev, tl) ←
      copy_loop (chain_fuel h) h nt (head old_table) (head old_table) 0 THead;
    let entry := head nt in
    h ← modify h entry (set_back prev);
    write_tail h nt tl entry.

(** ** Deletion *)

Definition REMOVE_ENTRY (h : heap) (t : st_table) (ptr : Z) : res (heap * st_table) :=
  e ← deref h ptr;
  '(h, t) ←
    (if ptr =? fore e then Ok (h, set_head 0 t)
     else
       h ← modify h (fore e) (set_back (back e));
       h ← modify h (back e) (set_fore (fore e));
       Ok (h, if ptr =? head t then set_head (fore e) t else t));
  Ok (h, set_num_entries (u63 (num_entries t - 1)) t).

(** [memmove(&bins[i*2], &bins[(i+1)*2], 2*(num_entries-i) words)] after
    [num_entries--]. *)
Definition packed_remove (t : st_table) (i : Z) : res st_table :=
  let n := u63 (num_entries t - 1) in
  let cnt := 2 * (n - i) in
  _ ← check ((0 <=? cnt) && ((i + 1) * 2 + cnt <=? zlen (bins t))) OutOfBounds;
  let b := bins t in
  let moved := take (Z.to_nat cnt) (drop (Z.to_nat ((i + 1) * 2)) b) in
  let b := take (Z.to_nat (i * 2)) b ++ moved ++ drop (Z.to_nat (i * 2 + cnt)) b in
  Ok (set_num_entries n (set_bins b t)).

(** The chain walk of [st_delete]. *)
Fixpoint delete_walk (fuel : nat) (h : heap) (t : st_table) (prev : slot) (k : Z)
    : res (option (Z * Z) * heap * st_table) :=
  match fuel with
  | O => Err NoFuel
  | S fuel' =>
      ptr ← read_slot h t prev;
      if ptr =? 0 then Ok (None, h, t) else
      e ← deref h ptr;
      if EQUAL (type t) k (key e) then
        '(h, t) ← write_slot h t prev (next e);
        '(h, t) ← REMOVE_ENTRY h t ptr;
        e ← deref h ptr;
        h ← free h ptr;
        Ok (Some (key e, record e), h, t)
      else delete_walk fuel' h t (SNext ptr) k
  end.

(** Returns the key and value removed, which the source stores through [key]
    and [value]; [None] is the result 0. *)
Definition st_delete (h : heap) (t : st_table) (k : Z)
    : res (option (Z * Z) * heap * st_table) :=
  if entries_packed t then
    oi ← find_packed t k;
    match oi with
    | Some i =>
        v ← aload (bins t) (i * 2 + 1);
        t ← packed_remove t i;
        Ok (Some (k, v), h, t)
    | None => Ok (None, h, t)
    end
  else
    hash_val ← cmod (do_hash (type t) k) (num_bins t);
    delete_walk (chain_fuel h) h t (SBin hash_val) k.

Fixpoint delete_safe_walk (fuel : nat) (h : heap) (t : st_table) (ptr k never : Z)
    : res (option (Z * Z) * heap * st_table) :=
  match fuel with
  | O => Err NoFuel
  | S fuel' =>
      if ptr =? 0 then Ok (None, h, t) else
      e ← deref h ptr;
      if negb (key e =? never) && EQUAL (type t) (key e) k then
        '(h, t) ← REMOVE_ENTRY h t ptr;
        h ← modify h ptr (set_key_record never never);
        Ok (Some (key e, record e), h, t)
      else delete_safe_walk fuel' h t (next e) k never
  end.

Definition st_delete_safe (h : heap) (t : st_table) (k never : Z)
    : res (option (Z * Z) * heap * st_table) :=
  hash_val ← cmod (do_hash (type t) k) (num_bins t);
  ptr ← aload (bins t) hash_val;
  delete_safe_walk (chain_fuel h) h t ptr k never.

Fixpoint cleanup_walk (fuel : nat) (h : heap) (t : st_table) (last : slot) (never : Z)
    : res (heap * st_table) :=
  match fuel with
  | O => Err NoFuel
  | S fuel' =>
      ptr ← read_slot h t last;
      if ptr =? 0 then Ok (h, t) else
      e ← deref h ptr;
      if key e =? never then
        '(h, t) ← write_slot h t last (next e);
        h ← free h ptr;
        cleanup_walk fuel' h t last never
      else cleanup_walk fuel' h t (SNext ptr) never
  end.

Definition st_cleanup_safe (h : heap) (t : st_table) (never : Z) : res (heap * st_table) :=
  for_range 0 (num_bins t)
    (λ i '(h, t), cleanup_walk (chain_fuel h) h t (SBin i) never) (h, t).

(** ** Clearing *)

Fixpoint free_chain (fuel : nat) (h : heap) (ptr : Z) : res heap :=
  match fuel with
  | O => Err NoFuel
  | S fuel' =>
      if ptr =? 0 then Ok h else
      e ← deref h ptr;
      h ← free h ptr;
      free_chain fuel' h (next e)
  end.

Definition st_clear (h : heap) (t : st_table) : res (heap * st_table) :=
  if entries_packed t then Ok (h, set_num_entries 0 t) else
  '(h, b) ← for_range 0 (num_bins t)
     (λ i '(h, b),
        ptr ← aload b i;
        b ← astore b i 0;
        h ← free_chain (chain_fuel h) h ptr;
        Ok (h, b)) (h, bins t);
  Ok (h, set_head 0 (set_num_entries 0 (set_bins b t))).

(** The table and its bins are freed: what is left is the heap of entries. *)
Definition st_free_table (h : heap) (t : st_table) : res heap := fst <$> st_clear h t.

(** ** Iteration

    The callback may do anything to the heap and to the table, and has a state
    of its own.  Its last argument is the error notice of [ST_CHECK]. *)

Section foreach.
Context {U : Type} (func : Z → Z → Z → bool → U * heap * st_table
                           → res (st_retval * (U * heap * st_table))) (arg : Z).

(** What the body of a loop of [st_foreach] does next. *)
Inductive flow := Continue | Return (r : Z).

(** [for (j = 0; j < num_entries; j++) if (bins[j*2] == key) break;] and the
    error notice when the key is gone. *)
Definition packed_check (k : Z) (st : U * heap * st_table) : res (flow * (U * heap * st_table)) :=
  oj ← find_packed st.2 k;
  match oj with
  | Some _ => Ok (Continue, st)
  | None => '(_, st) ← func 0 0 arg true st; Ok (Return 1, st)
  end.

Fixpoint foreach_packed (fuel : nat) (i : Z) (st : U * heap * st_table)
    : res (Z * (U * heap * st_table)) :=
  match fuel with
  | O => Err NoFuel
  | S fuel' =>
      if i <? num_entries st.2 then
        k ← aload (bins st.2) (i * 2);
        v ← aload (bins st.2) (i * 2 + 1);
        '(retval, st) ← func k v arg false st;
        match retval with
        | ST_CHECK =>
            '(fl, st) ← packed_check k st;
            match fl with
            | Continue => foreach_packed fuel' (i + 1) st
            | Return r => Ok (r, st)
            end
        | ST_CONTINUE => foreach_packed fuel' (i + 1) st
        | ST_STOP => Ok (0, st)
        | ST_DELETE =>
            t ← packed_remove st.2 i;
            foreach_packed fuel' i (st.1, t)
        end
      else Ok (0, st)
  end.

Fixpoint reverse_foreach_packed (n : nat) (st : U * heap * st_table)
    : res (Z * (U * heap * st_table)) :=
  match n with
  | O => Ok (0, st)
  | S n' =>
      let i := Z.of_nat n' in
      k ← aload (bins st.2) (i * 2);
      v ← aload (bins st.2) (i * 2 + 1);
      '(retval, st) ← func k v arg false st;
      match retval with
      | ST_CHECK =>
          '(fl, st) ← packed_check k st;
          match fl with
          | Continue => reverse_foreach_packed n' st
          | Return r => Ok (r, st)
          end
      | ST_CONTINUE => reverse_foreach_packed n' st
      | ST_STOP => Ok (0, st)
      | ST_DELETE =>
          t ← packed_remove st.2 i;
          reverse_foreach_packed n' (st.1, t)
      end
  end.

(** [for (tmp = bins[i]; tmp != ptr; tmp = tmp->next) if (!tmp) ...]: is [ptr]
    still on its chain? *)
Fixpoint on_chain (fuel : nat) (h : heap) (tmp ptr : Z) : res bool :=
  match fuel with
  | O => Err NoFuel
  | S fuel' =>
      if tmp =? ptr then Ok true else
      if tmp =? 0 then Ok false else
      e ← deref h tmp; on_chain fuel' h (next e) ptr
  end.

(** The slot of the chain that holds [ptr], if any. *)
Fixpoint find_slot (fuel : nat) (h : heap) (t : st_table) (last : slot) (ptr : Z)
    : res (option slot) :=
  match fuel with
  | O => Err NoFuel
  | S fuel' =>
      tmp ← read_slot h t last;
      if tmp =? 0 then Ok None else
      if ptr =? tmp then Ok (Some last) else find_slot fuel' h t (SNext tmp) ptr
  end.

Definition chained_check (ptr : Z) (st : U * heap * st_table)
    : res (flow * (U * heap * st_table)) :=
  let '(u, h, t) := st in
  e ← deref h ptr;
  i ← cmod (hash e) (num_bins t);
  b ← aload (bins t) i;
  found ← on_chain (chain_fuel h) h b ptr;
  if found : bool then Ok (Continue, st)
  else '(_, st) ← func 0 0 arg true st; Ok (Return 1, st).

(** One iteration of the loop over the ring in [st_foreach]: the next pointer,
    or the value to return. *)
Definition foreach_step (ptr : Z) (st : U * heap * st_table)
    : res ((Z * (U * heap * st_table)) + (Z * (U * heap * st_table))) :=
  let '(u, h, t) := st in
  e ← deref h ptr;
  let fin := fore e =? head t in
  '(retval, st) ← func (key e) (record e) arg false st;
  let '(u, h, t) := st in
  let continue p (st : U * heap * st_table) :=
    if negb fin && negb (head st.2 =? 0) then Ok (inl (p, st)) else Ok (inr (0, st)) in
  let advance (st : U * heap * st_table) := e ← deref st.1.2 ptr; continue (fore e) st in
  match retval with
  | ST_CHECK =>
      '(fl, st) ← chained_check ptr st;
      match fl with
      | Continue => advance st
      | Return r => Ok (inr (r, st))
      end
  | ST_CONTINUE => advance st
  | ST_STOP => Ok (inr (0, st))
  | ST_DELETE =>
      e ← deref h ptr;
      i ← cmod (hash e) (num_bins t);
      os ← find_slot (chain_fuel h) h t (SBin i) ptr;
      match os with
      | Some last =>
          let tmp := fore e in
          '(h, t) ← write_slot h t last (next e);
          '(h, t) ← REMOVE_ENTRY h t ptr;
          h ← free h ptr;
          if ptr =? tmp then Ok (inr (0, (u, h, t))) else continue tmp (u, h, t)
      | None => continue ptr st
      end
  end.

Definition st_foreach (fuel : nat) (h : heap) (t : st_table) (u : U)
    : res (Z * (U * heap * st_table)) :=
  if entries_packed t then foreach_packed fuel 0 (u, h, t)
  else if head t =? 0 then Ok (0, (u, h, t))
  else iter fuel (λ '(ptr, st), foreach_step ptr st) (head t, (u, h, t)).

(** One iteration of [st_reverse_foreach].  After the unlinking, the source
    goes on with [ptr = ptr->next; free(tmp); table->num_entries--;], where
    [tmp] is the entry before the deleted one when the entry was found on its
    chain and NULL otherwise. *)
Definition reverse_foreach_step (ptr : Z) (st : U * heap * st_table)
    : res ((Z * (U * heap * st_table)) + (Z * (U * heap * st_table))) :=
  let '(u, h, t) := st in
  e ← deref h ptr;
  let fin := ptr =? head t in
  '(retval, st) ← func (key e) (record e) arg false st;
  let '(u, h, t) := st in
  let continue p (st : U * heap * st_table) :=
    if negb fin && negb (head st.2 =? 0) then Ok (inl (p, st)) else Ok (inr (0, st)) in
  let advance (st : U * heap * st_table) := e ← deref st.1.2 ptr; continue (back e) st in
  match retval with
  | ST_CHECK =>
      '(fl, st) ← chained_check ptr st;
      match fl with
      | Continue => advance st
      | Return r => Ok (inr (r, st))
      end
  | ST_CONTINUE => advance st
  | ST_STOP => Ok (inr (0, st))
  | ST_DELETE =>
      e ← deref h ptr;
      i ← cmod (hash e) (num_bins t);
      os ← find_slot (chain_fuel h) h t (SBin i) ptr;
      '(h, t, ptr, tmp) ←
        match os with
        | Some last =>
            let tmp := back e in
            '(h, t) ← write_slot h t last (next e);
            '(h, t) ← REMOVE_ENTRY h t ptr;
            h ← free h ptr;
            Ok (h, t, tmp, tmp)
        | None => Ok (h, t, ptr, 0)
        end;
      e ← deref h ptr;
      h ← (if tmp =? 0 then Ok h else free h tmp);
      continue (next e) (u, h, set_num_entries (u63 (num_entries t - 1)) t)
  end.

Definition st_reverse_foreach (fuel : nat) (h : heap) (t : st_table) (u : U)
    : res (Z * (U * heap * st_table)) :=
  if entries_packed t then reverse_foreach_packed (Z.to_nat (num_entries t)) (u, h, t)
  else if head t =? 0 then Ok (0, (u, h, t))
  else
    e ← deref h (head t);
    iter fuel (λ '(ptr, st), reverse_foreach_step ptr st) (back e, (u, h, t)).
End foreach.
End operations.
