(* ===== verification/StRep.v ===== *)
(** * The hash table of st.c: representation

    What it means for a heap and a table to represent an ordered association
    list: the ring of [fore]/[back] links, the chains of the bins, and the
    packed form.  The lemmas of this file are the ones the operations need:
    each says what one pointer update does to one of the structures. *)

From S2P Require Import Prelude St.

(** ** Fields of live entries *)

Definition null_entry : st_table_entry := mkEntry 0 0 0 0 0 0.
Definition ent (h : heap) (p : Z) : st_table_entry := default null_entry (h !! p).
Definition live (h : heap) (p : Z) : Prop := p ≠ 0 ∧ ∃ e, h !! p = Some e.

Lemma deref_live h p : live h p → deref h p = Ok (ent h p).
Proof.
  intros [Hp [e He]]. unfold deref, ent. rewrite He.
  by rewrite (proj2 (Z.eqb_neq _ _)).
Qed.
Lemma deref_ok h p e : deref h p = Ok e ↔ p ≠ 0 ∧ h !! p = Some e.
Proof.
  unfold deref. destruct (Z.eqb_spec p 0); [naive_solver|]. rewrite of_option_ok. naive_solver.
Qed.
Lemma modify_live h p f : live h p → modify h p f = Ok (<[p := f (ent h p)]> h).
Proof. intros H. unfold modify. by rewrite deref_live. Qed.
Lemma free_live h p : live h p → free h p = Ok (delete p h).
Proof. intros H. unfold free. by rewrite deref_live. Qed.

Lemma ent_insert_eq h p e : ent (<[p := e]> h) p = e.
Proof. unfold ent. by rewrite lookup_insert_eq. Qed.
Lemma ent_insert_ne h p q e : p ≠ q → ent (<[p := e]> h) q = ent h q.
Proof. intros. unfold ent. by rewrite lookup_insert_ne. Qed.
Lemma ent_delete_ne h p q : p ≠ q → ent (delete p h) q = ent h q.
Proof. intros. unfold ent. by rewrite lookup_delete_ne. Qed.
Lemma live_insert h p q e : live h p → live (<[q := e]> h) p.
Proof.
  intros [Hp [e' He]]. split; [done|]. destruct (decide (q = p)) as [->|].
  - rewrite lookup_insert_eq. eauto.
  - rewrite lookup_insert_ne by done. eauto.
Qed.
Lemma live_insert_eq h p e : p ≠ 0 → live (<[p := e]> h) p.
Proof. intros. split; [done|]. rewrite lookup_insert_eq. eauto. Qed.
Lemma live_delete h p q : p ≠ q → live h p → live (delete q h) p.
Proof. intros ? [? [e ?]]. split; [done|]. exists e. by rewrite lookup_delete_ne. Qed.
Lemma live_malloc `{Allocator} h p : live h p → p ≠ malloc h.
Proof. intros [_ [e He]] ->. by rewrite malloc_fresh in He. Qed.

#[export] Hint Resolve live_insert live_delete live_insert_eq : mruby.

(** ** Chains: the [next] links *)

Fixpoint chain (h : heap) (p : Z) (c : list Z) : Prop :=
  match c with
  | [] => p = 0
  | q :: c' => p = q ∧ live h q ∧ chain h (next (ent h q)) c'
  end.

Lemma chain_live h p c q : chain h p c → q ∈ c → live h q.
Proof.
  revert p. induction c as [|x c IH]; intros p; simpl; [by intros _ ?%not_elem_of_nil|].
  intros (-> & Hl & Hc) [->|Hq]%elem_of_cons; eauto.
Qed.

Lemma chain_frame h h' p c :
  (∀ q, q ∈ c → live h' q ∧ next (ent h' q) = next (ent h q)) →
  chain h p c → chain h' p c.
Proof.
  revert p. induction c as [|x c IH]; intros p Hf; [done|].
  intros (-> & Hl & Hc). destruct (Hf x) as [Hl' Hn]; [by left|]. cbn [chain].
  rewrite Hn. repeat split; [by apply Hl'|by apply Hl'|]. apply IH; [|done]. intros q Hq. apply Hf. by right.
Qed.

(** A chain is determined by its first pointer, so it has no repetition. *)
Lemma chain_det h p c1 c2 : chain h p c1 → chain h p c2 → c1 = c2.
Proof.
  revert p c2. induction c1 as [|x c1 IH]; intros p [|y c2]; simpl; try done.
  - intros -> (<- & [? _] & _). done.
  - intros (-> & [? _] & _) ->. done.
  - intros (-> & _ & H1) (-> & _ & H2). f_equal. eauto.
Qed.

Lemma chain_suffix h p c1 q c2 : chain h p (c1 ++ q :: c2) → chain h q (q :: c2).
Proof.
  revert p. induction c1 as [|x c1 IH]; intros p; simpl.
  - intros (-> & ? & ?). by split_and!.
  - intros (_ & _ & H). exact (IH _ H).
Qed.

Lemma chain_NoDup h p c : chain h p c → NoDup c.
Proof.
  revert p. induction c as [|x c IH]; intros p Hc; [constructor|].
  assert (Hx := Hc). destruct Hc as (-> & Hl & Hc). constructor; [|eauto].
  intros (c1 & c2 & ->)%list_elem_of_split.
  pose proof (chain_suffix h x (x :: c1) x c2 Hx) as H2.
  pose proof (chain_det _ _ _ _ Hx H2) as E. apply (f_equal length) in E.
  simpl in E. rewrite length_app in E. simpl in E. lia.
Qed.

(** Distinct live entries are no more than the heap has. *)
Lemma live_length h ps : NoDup ps → (∀ p, p ∈ ps → live h p) → (length ps ≤ size h)%nat.
Proof.
  intros Hnd Hl. rewrite <- size_dom, <- (size_list_to_set (C:=gset Z) ps) by done.
  apply subseteq_size. intros q Hq%elem_of_list_to_set.
  destruct (Hl q Hq) as [_ [e He]]. by apply elem_of_dom.
Qed.

Lemma chain_length h p c : chain h p c → (length c ≤ size h)%nat.
Proof.
  intros Hc. apply live_length; [by eapply chain_NoDup|]. intros q. by eapply chain_live.
Qed.

(** ** The ring: the [fore] and [back] links *)

(** [dseg h prev ps nxt]: the entries [ps] are linked in this order in both
    directions; the first one points back to [prev], the last one forward to
    [nxt]. *)
Fixpoint dseg (h : heap) (prev : Z) (ps : list Z) (nxt : Z) : Prop :=
  match ps with
  | [] => True
  | p :: ps' =>
      live h p ∧ back (ent h p) = prev ∧ fore (ent h p) = hd nxt ps' ∧ dseg h p ps' nxt
  end.

(** A closed ring through a non-empty list of entries. *)
Definition cyc (h : heap) (ps : list Z) : Prop := dseg h (List.last ps 0) ps (hd 0 ps).

Definition ring (h : heap) (first : Z) (ps : list Z) : Prop :=
  match ps with
  | [] => first = 0
  | p :: _ => first = p ∧ cyc h ps
  end.

Lemma dseg_live h prev ps nxt q : dseg h prev ps nxt → q ∈ ps → live h q.
Proof.
  revert prev. induction ps as [|x ps IH]; intros prev; simpl; [by intros _ ?%not_elem_of_nil|].
  intros (Hl & _ & _ & Hd) [->|Hq]%elem_of_cons; eauto.
Qed.

Lemma dseg_frame h h' prev ps nxt :
  (∀ q, q ∈ ps → live h' q ∧ fore (ent h' q) = fore (ent h q) ∧ back (ent h' q) = back (ent h q)) →
  dseg h prev ps nxt → dseg h' prev ps nxt.
Proof.
  revert prev. induction ps as [|x ps IH]; intros prev Hf; [done|].
  intros (Hl & Hb & Hfo & Hd). destruct (Hf x) as (? & E1 & E2); [by left|]. cbn [dseg].
  rewrite E1, E2. split_and!; [done..|]. apply IH; [|done]. intros q Hq. apply Hf. by right.
Qed.

(** The fields that are not ring links. *)
Definition data (e : st_table_entry) : Z * Z * Z * Z := (hash e, key e, record e, next e).

Lemma data_set_fore h q v y : data (ent (<[q := set_fore v (ent h q)]> h) y) = data (ent h y).
Proof.
  destruct (decide (q = y)) as [->|]; [by rewrite ent_insert_eq|by rewrite ent_insert_ne].
Qed.
Lemma data_set_back h q v y : data (ent (<[q := set_back v (ent h q)]> h) y) = data (ent h y).
Proof.
  destruct (decide (q = y)) as [->|]; [by rewrite ent_insert_eq|by rewrite ent_insert_ne].
Qed.

Lemma last_cons_default {A} (d : A) p ps : List.last (p :: ps) d = List.last ps p.
Proof.
  revert d p. induction ps as [|x ps IH]; intros d p; [done|].
  transitivity (List.last (x :: ps) d); [done|]. by rewrite (IH d), (IH p).
Qed.

Lemma hd_app_default {A} (d : A) l1 l2 : hd d (l1 ++ l2) = hd (hd d l2) l1.
Proof. by destruct l1. Qed.

Lemma dseg_app h prev ps1 ps2 nxt :
  dseg h prev (ps1 ++ ps2) nxt ↔
  dseg h prev ps1 (hd nxt ps2) ∧ dseg h (List.last ps1 prev) ps2 nxt.
Proof.
  revert prev. induction ps1 as [|p ps1 IH]; intros prev; [simpl; tauto|].
  cbn [app dseg]. rewrite IH, hd_app_default, last_cons_default. tauto.
Qed.

Lemma last_snoc_default {A} (d : A) l x : List.last (l ++ [x]) d = x.
Proof. revert d. induction l as [|y l IH]; intros d; [done|]. cbn [app]. rewrite last_cons_default. apply IH. Qed.

Lemma last_app_default {A} (d : A) l1 l2 : List.last (l1 ++ l2) d = List.last l2 (List.last l1 d).
Proof.
  revert d. induction l1 as [|y l1 IH]; intros d; [done|]. cbn [app].
  rewrite !last_cons_default. apply IH.
Qed.

(** A ring can be cut anywhere. *)
Lemma cyc_rotate h ps1 ps2 : cyc h (ps1 ++ ps2) → cyc h (ps2 ++ ps1).
Proof.
  destruct ps1 as [|p1 ps1], ps2 as [|p2 ps2]; rewrite ?app_nil_r; [done..|].
  unfold cyc. rewrite !dseg_app, !last_app_default, !hd_app_default. simpl hd.
  rewrite !(last_cons_default _ p1), !(last_cons_default _ p2). tauto.
Qed.

(** Redirecting the [fore] link of the last entry, or the [back] link of the
    first one, changes that end of the segment only. *)
Lemma dseg_set_last_fore h prev ps p nxt x :
  NoDup (ps ++ [p]) → dseg h prev (ps ++ [p]) nxt →
  dseg (<[p := set_fore x (ent h p)]> h) prev (ps ++ [p]) x.
Proof.
  intros [_ [Hnd _]]%NoDup_app. rewrite !dseg_app. intros [H1 (Hl & Hb & Hf & _)]. split.
  - eapply dseg_frame; [|exact H1]. intros q Hq.
    assert (p ≠ q) by (intros ->; by apply (Hnd q Hq); left).
    rewrite ent_insert_ne by done. split; [|done]. apply live_insert. by eapply dseg_live.
  - cbn [dseg]. rewrite ent_insert_eq. split_and!; [by apply live_insert|done..].
Qed.

Lemma dseg_set_first_back h prev ps p nxt x :
  NoDup (p :: ps) → dseg h prev (p :: ps) nxt →
  dseg (<[p := set_back x (ent h p)]> h) x (p :: ps) nxt.
Proof.
  intros [Hnd _]%NoDup_cons (Hl & Hb & Hf & Hd). cbn [dseg]. rewrite ent_insert_eq.
  split_and!; [by apply live_insert|done..|].
  eapply dseg_frame; [|exact Hd]. intros q Hq.
  assert (p ≠ q) by (by intros ->). rewrite ent_insert_ne by done.
  split; [|done]. apply live_insert. by eapply dseg_live.
Qed.

(** Linking a new entry [x] between the last and the first entry of a ring. *)
Lemma cyc_push h ps x e :
  ps ≠ [] → NoDup ps → x ∉ ps → x ≠ 0 → cyc h ps →
  fore e = hd 0 ps → back e = List.last ps 0 →
  let h1 := <[x := e]> h in
  let h2 := <[List.last ps 0 := set_fore x (ent h1 (List.last ps 0))]> h1 in
  let h3 := <[hd 0 ps := set_back x (ent h2 (hd 0 ps))]> h2 in
  cyc h3 (ps ++ [x]).
Proof.
  intros Hne Hnd Hx Hx0 Hc Ef Eb h1 h2 h3.
  assert (dseg h1 (List.last ps 0) ps (hd 0 ps)) as H1.
  { eapply dseg_frame; [|exact Hc]. intros q Hq. unfold h1.
    assert (x ≠ q) by (by intros ->). rewrite ent_insert_ne by done.
    split; [|done]. apply live_insert. by eapply dseg_live. }
  assert (dseg h2 (List.last ps 0) ps x) as H2.
  { destruct (exists_last Hne) as (ps' & p & ->). unfold h2.
    rewrite !last_snoc_default. rewrite last_snoc_default in H1.
    by eapply dseg_set_last_fore. }
  assert (dseg h3 x ps x) as H3.
  { destruct ps as [|p ps]; [done|]. unfold h3. simpl hd.
    by eapply dseg_set_first_back. }
  unfold cyc. rewrite last_snoc_default, hd_app_default.
  replace (hd (hd 0 [x]) ps) with (hd 0 ps) by (by destruct ps).
  apply dseg_app. simpl hd. split; [done|]. cbn [dseg].
  destruct ps as [|p ps]; [done|]. rewrite last_cons_default in *. simpl hd in *.
  assert (x ≠ p) by (intros ->; apply Hx; by left).
  assert (x ≠ List.last ps p) as Hxl.
  { intros ->. apply Hx. destruct ps as [|q ps] using rev_ind; [by left|].
    rewrite last_snoc_default. right. apply elem_of_app. right. by left. }
  assert (ent h3 x = e) as ->.
  { unfold h3. rewrite ent_insert_ne by done. unfold h2. rewrite last_cons_default, ent_insert_ne by done.
    apply ent_insert_eq. }
  split_and!; [|done..]. unfold h3, h2, h1. auto 10 with mruby.
Qed.

Lemma last_elem_of (p : Z) ps : List.last ps p ∈ p :: ps.
Proof.
  destruct ps as [|q ps _] using rev_ind; [by left|].
  rewrite last_snoc_default. right. apply elem_of_app. right. by left.
Qed.

(** Unlinking the first entry of a ring. *)
Lemma cyc_pop h p ps :
  ps ≠ [] → NoDup (p :: ps) → cyc h (p :: ps) →
  let f := fore (ent h p) in
  let b := back (ent h p) in
  let h1 := <[f := set_back b (ent h f)]> h in
  let h2 := <[b := set_fore f (ent h1 b)]> h1 in
  f = hd 0 ps ∧ b = List.last ps 0 ∧ cyc h2 ps.
Proof.
  intros Hne Hnd Hc f b h1 h2. unfold cyc in Hc. rewrite last_cons_default in Hc.
  destruct Hc as (Hl & Hb & Hf & Hd). destruct ps as [|q ps]; [done|].
  apply NoDup_cons in Hnd as [_ Hnd].
  rewrite last_cons_default in *. simpl hd in *. fold f in Hf. fold b in Hb.
  split_and!; [done..|].
  assert (dseg h1 b (q :: ps) p) as H1.
  { unfold h1. rewrite Hf. by eapply dseg_set_first_back. }
  enough (dseg h2 b (q :: ps) f) as G.
  { unfold cyc. rewrite last_cons_default, <- Hb. by rewrite Hf in G. }
  destruct (exists_last Hne) as (ps' & l & E). rewrite E in *.
  assert (b = l) as Eb.
  { rewrite Hb, <- (last_cons_default 0), E. apply last_snoc_default. }
  unfold h2. rewrite <- Eb in *. by eapply dseg_set_last_fore.
Qed.

(** ** Bins *)

(** Bin [i] is the head of a chain of exactly the entries that hash to [i]. *)
Definition bins_ok (h : heap) (b : list Z) (nb : Z) (ps : list Z) : Prop :=
  zlen b = nb ∧
  ∀ i, 0 ≤ i < nb → ∃ x c, zlookup b i = Some x ∧ chain h x c ∧
    ∀ p, p ∈ c ↔ p ∈ ps ∧ hash (ent h p) mod nb = i.

Lemma bins_ok_live h b nb ps p : bins_ok h b nb ps → 0 < nb → p ∈ ps → live h p.
Proof.
  intros [_ Hb] Hnb Hp. destruct (Hb (hash (ent h p) mod nb)) as (x & c & _ & Hc & Hm).
  { by apply Z.mod_pos_bound. }
  eapply chain_live; [done|]. by apply Hm.
Qed.

Lemma bins_ok_frame h h' b nb ps :
  (∀ q, q ∈ ps → live h' q ∧ next (ent h' q) = next (ent h q) ∧ hash (ent h' q) = hash (ent h q)) →
  bins_ok h b nb ps → bins_ok h' b nb ps.
Proof.
  intros Hf [Hl Hb]. split; [done|]. intros i Hi.
  destruct (Hb i Hi) as (x & c & Hx & Hc & Hm). exists x, c. split_and!; [done| |].
  - eapply chain_frame; [|done]. intros q [Hq _]%Hm. by destruct (Hf q Hq) as (? & ? & ?).
  - intros p. rewrite Hm. split; intros [Hp E]; (split; [done|]);
      destruct (Hf p Hp) as (_ & _ & Eh); congruence.
Qed.

Lemma bins_ok_nil h nb : 0 ≤ nb → bins_ok h (replicate (Z.to_nat nb) 0) nb [].
Proof.
  intros. split; [rewrite zlen_replicate; lia|]. intros i Hi. exists 0, []. split_and!; [|done|].
  - rewrite zlookup_nonneg by lia. apply lookup_replicate_2. lia.
  - intros p. split; [by intros ?%not_elem_of_nil|by intros [?%not_elem_of_nil _]].
Qed.

(** Pushing an entry in front of its bin. *)
Lemma bins_ok_push h h' b nb ps p i old :
  bins_ok h b nb ps → p ∉ ps → zlookup b i = Some old →
  live h' p → next (ent h' p) = old → hash (ent h' p) mod nb = i →
  (∀ q, q ∈ ps → live h' q ∧ next (ent h' q) = next (ent h q) ∧ hash (ent h' q) = hash (ent h q)) →
  bins_ok h' (<[Z.to_nat i := p]> b) nb (ps ++ [p]).
Proof.
  intros Hb Hp Hi Hl Hn Hh Hf. pose proof (bins_ok_frame _ _ _ _ _ Hf Hb) as [Hlen Hb'].
  pose proof (zlookup_Some_range _ _ _ Hi) as Hr.
  split; [by rewrite zlen_insert|]. intros j Hj.
  destruct (Hb' j Hj) as (x & c & Hx & Hc & Hm). rewrite zlookup_insert by lia.
  setoid_rewrite elem_of_app. setoid_rewrite list_elem_of_singleton. case_decide as Hij.
  - subst j. assert (x = old) as -> by congruence.
    exists p, (p :: c). split_and!; [done|cbn [chain]; by rewrite Hn|]. intros q. rewrite elem_of_cons, Hm. naive_solver.
  - exists x, c. split_and!; [done..|]. intros q. rewrite Hm. naive_solver.
Qed.

(** The slot from which the entry after [c1] in bin [i] is reached. *)
Definition slot_after (i : Z) (c1 : list Z) : slot :=
  match last c1 with None => SBin i | Some p => SNext p end.

(** Two entries that differ in the chain link at most. *)
Definition same_but_next (e e' : st_table_entry) : Prop := set_next 0 e' = set_next 0 e.

Lemma same_but_next_fields e e' :
  same_but_next e e' →
  hash e' = hash e ∧ key e' = key e ∧ record e' = record e ∧ fore e' = fore e ∧ back e' = back e.
Proof. unfold same_but_next, set_next. intros [= ? ? ? ? ?]. auto. Qed.

(** [h'] is [h] with some [next] links of the entries in [ps] changed. *)
Definition relinked (h h' : heap) (ps : list Z) : Prop :=
  (∀ y, live h y → live h' y) ∧
  (∀ y, same_but_next (ent h y) (ent h' y)) ∧
  (∀ y, y ∉ ps → h' !! y = h !! y).

Lemma relinked_refl h ps : relinked h h ps.
Proof. split_and!; done. Qed.

Lemma relinked_trans h1 h2 h3 ps : relinked h1 h2 ps → relinked h2 h3 ps → relinked h1 h3 ps.
Proof.
  intros (A1 & A2 & A3) (B1 & B2 & B3). split_and!; [by auto| |].
  - intros y. specialize (A2 y). specialize (B2 y). unfold same_but_next in *. congruence.
  - intros y Hy. rewrite B3, A3; done.
Qed.

Lemma relinked_mono h h' ps ps' : (∀ y, y ∈ ps → y ∈ ps') → relinked h h' ps → relinked h h' ps'.
Proof. intros Hs (A1 & A2 & A3). split_and!; [done..|]. naive_solver. Qed.

Lemma relinked_set_next h q v ps :
  live h q → q ∈ ps → relinked h (<[q := set_next v (ent h q)]> h) ps.
Proof.
  intros Hl Hq. split_and!; [by auto with mruby| |].
  - intros y. destruct (decide (q = y)) as [->|].
    + by rewrite ent_insert_eq.
    + by rewrite ent_insert_ne.
  - intros y Hy. apply lookup_insert_ne. by intros ->.
Qed.

Lemma relinked_dseg h h' ps prev qs nxt :
  relinked h h' ps → dseg h prev qs nxt → dseg h' prev qs nxt.
Proof.
  intros (A1 & A2 & _) Hd. eapply dseg_frame; [|exact Hd]. intros q Hq.
  destruct (same_but_next_fields _ _ (A2 q)) as (? & ? & ? & ? & ?).
  split_and!; [|done..]. apply A1. by eapply dseg_live.
Qed.

Lemma relinked_ring h h' ps first qs : relinked h h' ps → ring h first qs → ring h' first qs.
Proof.
  intros Hr. destruct qs as [|p qs]; [done|]. intros [-> Hc]. split; [done|].
  by eapply relinked_dseg.
Qed.

(** Cutting [p] out of a chain by redirecting the link that leads to it. *)
Lemma chain_unlink h x c1 q p c2 :
  chain h x ((c1 ++ [q]) ++ p :: c2) →
  chain (<[q := set_next (next (ent h p)) (ent h q)]> h) x ((c1 ++ [q]) ++ c2).
Proof.
  intros Hc. pose proof (chain_NoDup _ _ _ Hc) as Hnd.
  revert x Hc. induction c1 as [|y c1 IH]; cbn [app] in *; intros x.
  - intros (-> & Hl & (E & Hl' & Hc)). cbn [chain]. rewrite ent_insert_eq.
    split_and!; [done|by apply live_insert|]. eapply chain_frame; [|exact Hc].
    intros z Hz. assert (q ≠ z).
    { intros ->. apply NoDup_cons in Hnd as [Hq _]. apply Hq. by right. }
    rewrite ent_insert_ne by done. split; [|done]. apply live_insert. by eapply chain_live.
  - intros (-> & Hl & Hc). apply NoDup_cons in Hnd as [Hy Hnd]. cbn [chain].
    assert (q ≠ y) by (intros ->; apply Hy; set_solver).
    rewrite ent_insert_ne by done. split_and!; [done|by apply live_insert|]. by apply IH.
Qed.

Lemma elem_of_remove_middle (l1 l2 : list Z) p q :
  NoDup (l1 ++ p :: l2) → q ∈ l1 ++ l2 ↔ q ∈ l1 ++ p :: l2 ∧ q ≠ p.
Proof.
  intros Hnd. rewrite NoDup_app, NoDup_cons in Hnd. destruct Hnd as (_ & H12 & Hp & _).
  rewrite !elem_of_app, elem_of_cons. split.
  - intros [Hq|Hq]; (split; [tauto|]); intros ->; [|done]. apply (H12 p Hq). by left.
  - tauto.
Qed.

Lemma unlink_spec h t l1 p l2 x c1 c2 :
  let nb := num_bins t in
  let i := hash (ent h p) mod nb in
  bins_ok h (bins t) nb (l1 ++ p :: l2) → NoDup (l1 ++ p :: l2) → 0 < nb →
  zlookup (bins t) i = Some x → chain h x (c1 ++ p :: c2) →
  ∃ h' b', write_slot h t (slot_after i c1) (next (ent h p)) = Ok (h', set_bins b' t) ∧
    bins_ok h' b' nb (l1 ++ l2) ∧ relinked h h' (l1 ++ l2).
Proof.
  intros nb i Hb Hnd Hnb Hx Hc.
  assert (Hr : 0 ≤ i < nb) by (by apply Z.mod_pos_bound).
  assert (Hlen : zlen (bins t) = nb) by apply Hb.
  destruct (proj2 Hb i Hr) as (x' & c & Hx' & Hc' & Hm).
  assert (x' = x) as -> by congruence.
  assert (c = c1 ++ p :: c2) as -> by (by eapply chain_det). clear Hc'.
  pose proof (chain_NoDup _ _ _ Hc) as Hcnd.
  (* what remains to be shown of the new heap and bins *)
  enough (∃ h' b', write_slot h t (slot_after i c1) (next (ent h p)) = Ok (h', set_bins b' t) ∧
    relinked h h' (l1 ++ l2) ∧ zlen b' = nb ∧
    (∃ x', zlookup b' i = Some x' ∧ chain h' x' (c1 ++ c2)) ∧
    (∀ j, j ≠ i → zlookup b' j = zlookup (bins t) j) ∧
    (∀ z, z ∉ c1 → next (ent h' z) = next (ent h z))) as
    (h' & b' & Hw & Hrel & Hlen' & (xi & Hxi & Hci) & Hj & Hn).
  { exists h', b'. split_and!; [done| |done]. destruct Hrel as (R1 & R2 & R3).
    split; [done|]. intros j Hjr. destruct (decide (j = i)) as [->|Hji].
    - exists xi, (c1 ++ c2). split_and!; [done..|]. intros q.
      destruct (same_but_next_fields _ _ (R2 q)) as (-> & _).
      rewrite (elem_of_remove_middle c1 c2 p q Hcnd), Hm.
      rewrite (elem_of_remove_middle l1 l2 p q Hnd). tauto.
    - destruct (proj2 Hb j Hjr) as (xj & cj & Hxj & Hcj & Hmj).
      exists xj, cj. rewrite Hj by done. split_and!; [done| |].
      + eapply chain_frame; [|exact Hcj]. intros z Hz. split; [apply R1; by eapply chain_live|].
        apply Hn. intros Hz1. apply Hmj in Hz as [_ E]. apply Hji. rewrite <- E.
        apply Hm. set_solver.
      + intros q. destruct (same_but_next_fields _ _ (R2 q)) as (-> & _). rewrite Hmj.
        rewrite (elem_of_remove_middle l1 l2 p q Hnd). split; [|tauto].
        intros [? E]. split_and!; [done| |done]. intros ->. by apply Hji. }
  destruct c1 as [|q c1 _] using rev_ind.
  - exists h, (<[Z.to_nat i := next (ent h p)]> (bins t)). simpl.
    rewrite astore_ok by lia. destruct Hc as (-> & _ & Hc2). split_and!; [done|..].
    + apply relinked_refl.
    + by rewrite zlen_insert.
    + exists (next (ent h p)). rewrite zlookup_insert by lia. by rewrite decide_True.
    + intros j Hj. rewrite zlookup_insert by lia. by rewrite decide_False.
    + done.
  - assert (q ∈ l1 ++ l2) as Hq.
    { apply (elem_of_remove_middle _ _ _ _ Hnd). split.
      - apply (Hm q). set_solver.
      - intros ->. apply NoDup_app in Hcnd as (_ & Hd & _). apply (Hd p); set_solver. }
    assert (live h q) as Hlq by (eapply chain_live; [done|set_solver]).
    exists (<[q := set_next (next (ent h p)) (ent h q)]> h), (bins t).
    unfold slot_after. rewrite last_snoc. cbn [write_slot]. rewrite modify_live by done.
    split_and!; [by destruct t|by apply relinked_set_next|done| |done|].
    + exists x. split; [done|]. by apply chain_unlink.
    + intros z Hz. rewrite ent_insert_ne by set_solver. done.
Qed.
