(* ===== verification/StSpec.v ===== *)
(** * The hash table of st.c: specification

    The contract of the table is that of an association list in insertion
    order, up to the table's notion of equal keys.  This file states the
    contract, the laws a hash type has to satisfy, and the relation between a
    table in memory and the list it stands for. *)

From S2P Require Import Prelude St StRep.

(** ** Laws of a hash type

    [EQUAL] is an equivalence (it is reflexive by its pointer comparison), and
    equal keys have equal hash values. *)
Class HashTypeLaws (ty : st_hash_type) : Prop := {
  equal_sym : ∀ x y, EQUAL ty x y = true → EQUAL ty y x = true;
  equal_trans : ∀ x y z, EQUAL ty x y = true → EQUAL ty y z = true → EQUAL ty x z = true;
  equal_hash : ∀ x y, EQUAL ty x y = true → do_hash ty x = do_hash ty y;
}.

Lemma equal_refl ty x : EQUAL ty x x = true.
Proof. unfold EQUAL. by rewrite Z.eqb_refl. Qed.

Lemma EQUAL_spec ty x y : EQUAL ty x y = true ↔ x = y ∨ type_compare ty x y = 0.
Proof. unfold EQUAL. by rewrite orb_true_iff, !Z.eqb_eq. Qed.

Lemma strcmp_zero s1 s2 : strcmp s1 s2 = 0 ↔ s1 = s2.
Proof.
  revert s2. induction s1 as [|a s1 IH]; intros [|b s2]; simpl; [done..|].
  destruct (Z.eqb_spec a b); [rewrite IH; split; congruence|].
  destruct (b <? a); split; congruence.
Qed.

Lemma st_strcasecmp_zero s1 s2 :
  st_strcasecmp s1 s2 = 0 ↔ map ascii_downcase s1 = map ascii_downcase s2.
Proof.
  revert s2. induction s1 as [|a s1 IH]; intros [|b s2]; simpl; [done..|].
  destruct (Z.eqb_spec (ascii_downcase a) (ascii_downcase b)); [rewrite IH; split; congruence|].
  destruct (_ <? _); split; congruence.
Qed.

Lemma strcasehash_downcase s1 s2 :
  map ascii_downcase s1 = map ascii_downcase s2 → strcasehash s1 = strcasehash s2.
Proof.
  unfold strcasehash. generalize FNV1_32A_INIT. revert s2.
  induction s1 as [|a s1 IH]; intros [|b s2] acc; try done.
  cbn [map foldl]. intros [= -> E]. by apply IH.
Qed.

#[export] Instance type_numhash_laws : HashTypeLaws type_numhash.
Proof.
  assert (∀ x y, EQUAL type_numhash x y = true ↔ x = y) as E.
  { intros. rewrite EQUAL_spec. simpl. unfold st_numcmp. cmp_spec; naive_solver. }
  split; intros *; rewrite !E; congruence.
Qed.

#[export] Instance type_strhash_laws mem : HashTypeLaws (type_strhash mem).
Proof.
  assert (∀ x y, EQUAL (type_strhash mem) x y = true ↔ mem x = mem y) as E.
  { intros. rewrite EQUAL_spec. simpl. rewrite strcmp_zero. naive_solver. }
  split; intros *; rewrite !E; try congruence. unfold do_hash. simpl. congruence.
Qed.

#[export] Instance type_strcasehash_laws mem : HashTypeLaws (type_strcasehash mem).
Proof.
  assert (∀ x y, EQUAL (type_strcasehash mem) x y = true ↔
                 map ascii_downcase (mem x) = map ascii_downcase (mem y)) as E.
  { intros. rewrite EQUAL_spec. simpl. rewrite st_strcasecmp_zero. naive_solver. }
  split; intros *; rewrite !E; try congruence. unfold do_hash. simpl.
  intros ->%strcasehash_downcase. done.
Qed.

(** ** Association lists *)

Fixpoint a_find (ty : st_hash_type) (k : Z) (l : list (Z * Z)) : option (Z * Z) :=
  match l with
  | [] => None
  | kv :: l' => if EQUAL ty k kv.1 then Some kv else a_find ty k l'
  end.

(** The value is replaced in place and the old key is kept; a new key goes to
    the end. *)
Fixpoint a_insert (ty : st_hash_type) (k v : Z) (l : list (Z * Z)) : list (Z * Z) :=
  match l with
  | [] => [(k, v)]
  | kv :: l' => if EQUAL ty k kv.1 then (kv.1, v) :: l' else kv :: a_insert ty k v l'
  end.

Fixpoint a_delete (ty : st_hash_type) (k : Z) (l : list (Z * Z)) : list (Z * Z) :=
  match l with
  | [] => []
  | kv :: l' => if EQUAL ty k kv.1 then l' else kv :: a_delete ty k l'
  end.

(** No two bindings have equal keys. *)
Fixpoint distinct (ty : st_hash_type) (l : list (Z * Z)) : Prop :=
  match l with
  | [] => True
  | kv :: l' => a_find ty kv.1 l' = None ∧ distinct ty l'
  end.

Section assoc.
Context (ty : st_hash_type) `{!HashTypeLaws ty}.
Implicit Types (l : list (Z * Z)).

Lemma a_find_None k l : a_find ty k l = None ↔ ∀ kv, kv ∈ l → EQUAL ty k kv.1 = false.
Proof.
  induction l as [|kv l IH]; simpl.
  - split; [|done]. by intros _ kv ?%not_elem_of_nil.
  - setoid_rewrite elem_of_cons. destruct (EQUAL ty k kv.1) eqn:E; [|rewrite IH; naive_solver].
    split; [done|]. intros H. specialize (H kv (or_introl eq_refl)). congruence.
Qed.

Lemma equal_false_trans x y z : EQUAL ty x y = true → EQUAL ty x z = false → EQUAL ty y z = false.
Proof.
  intros H1 H2. destruct (EQUAL ty y z) eqn:E; [|done].
  rewrite (equal_trans x y z) in H2; done.
Qed.

Lemma a_find_equal k k' l : EQUAL ty k k' = true → a_find ty k l = a_find ty k' l.
Proof.
  intros H. induction l as [|kv l IH]; simpl; [done|]. rewrite IH.
  destruct (EQUAL ty k kv.1) eqn:E1, (EQUAL ty k' kv.1) eqn:E2; try done.
  - rewrite (equal_trans k' k) in E2; [done|by apply equal_sym|done].
  - rewrite (equal_trans k k') in E1; done.
Qed.

Lemma a_find_app k l1 l2 :
  a_find ty k (l1 ++ l2) = match a_find ty k l1 with Some kv => Some kv | None => a_find ty k l2 end.
Proof. induction l1 as [|kv l1 IH]; simpl; [done|]. by destruct (EQUAL ty k kv.1). Qed.

Lemma distinct_app l1 l2 :
  distinct ty (l1 ++ l2) ↔ distinct ty l1 ∧ distinct ty l2 ∧ ∀ kv, kv ∈ l1 → a_find ty kv.1 l2 = None.
Proof.
  induction l1 as [|kv l1 IH]; simpl.
  - split; [|tauto]. intros. split_and!; [done..|]. by intros ? ?%not_elem_of_nil.
  - rewrite IH, a_find_app. setoid_rewrite elem_of_cons.
    destruct (a_find ty kv.1 l1); naive_solver.
Qed.

(** A binding whose key matches is the one that is found. *)
Lemma a_find_middle k l1 kv l2 :
  distinct ty (l1 ++ kv :: l2) → EQUAL ty k kv.1 = true →
  a_find ty k (l1 ++ kv :: l2) = Some kv ∧
  a_insert ty k kv.2 (l1 ++ kv :: l2) = l1 ++ kv :: l2 ∧
  (∀ v, a_insert ty k v (l1 ++ kv :: l2) = l1 ++ (kv.1, v) :: l2) ∧
  a_delete ty k (l1 ++ kv :: l2) = l1 ++ l2.
Proof.
  intros Hd He. induction l1 as [|x l1 IH]; simpl.
  - rewrite He. split_and!; [done| |done|done]. by destruct kv.
  - destruct Hd as [Hx Hd]. destruct (IH Hd) as (-> & -> & H & ->).
    assert (EQUAL ty k x.1 = false) as ->.
    { apply not_true_is_false. intros Hk. rewrite a_find_None in Hx.
      assert (EQUAL ty x.1 kv.1 = false) as Hf by (apply Hx; set_solver).
      rewrite (equal_trans x.1 k kv.1) in Hf; [done|by apply equal_sym|done]. }
    split_and!; [done..| |done]. intros v. by rewrite H.
Qed.

Lemma a_insert_None k v l : a_find ty k l = None → a_insert ty k v l = l ++ [(k, v)].
Proof.
  induction l as [|kv l IH]; simpl; [done|]. destruct (EQUAL ty k kv.1); [done|].
  intros. by rewrite IH.
Qed.

Lemma a_delete_None k l : a_find ty k l = None → a_delete ty k l = l.
Proof.
  induction l as [|kv l IH]; simpl; [done|]. destruct (EQUAL ty k kv.1); [done|].
  intros. by rewrite IH.
Qed.

Lemma distinct_snoc k v l : distinct ty l → a_find ty k l = None → distinct ty (l ++ [(k, v)]).
Proof.
  intros Hd Hf. apply distinct_app. split_and!; [done|by simpl|]. intros kv Hkv. simpl.
  rewrite a_find_None in Hf. specialize (Hf kv Hkv).
  destruct (EQUAL ty kv.1 k) eqn:E; [|done]. apply equal_sym in E. congruence.
Qed.

Lemma a_find_value k l1 k' v v' l2 :
  a_find ty k (l1 ++ (k', v) :: l2) = None → a_find ty k (l1 ++ (k', v') :: l2) = None.
Proof. rewrite !a_find_app. simpl. by destruct (a_find ty k l1), (EQUAL ty k k'). Qed.

Lemma distinct_value l1 k v v' l2 :
  distinct ty (l1 ++ (k, v) :: l2) → distinct ty (l1 ++ (k, v') :: l2).
Proof.
  rewrite !distinct_app. simpl. intros (Hd1 & [Hd2 Hd3] & Hk). split_and!; [done..|]. intros kv Hkv.
  exact (a_find_value kv.1 [] k v v' l2 (Hk kv Hkv)).
Qed.

Lemma distinct_remove l1 kv l2 : distinct ty (l1 ++ kv :: l2) → distinct ty (l1 ++ l2).
Proof.
  rewrite !distinct_app. simpl. intros (Hd1 & [_ Hd2] & Hk). split_and!; [done..|]. intros kv' Hkv.
  specialize (Hk kv' Hkv). by destruct (EQUAL ty kv'.1 kv.1).
Qed.
End assoc.

(** ** Representation *)

(** The sizes of [primes] end at [2^30 + 85]: up to this many bindings, the
    table can grow when it is dense. *)
Definition st_max_entries : Z := 6 * (2 ^ 30 - 1).

(** An unpacked table whose entries are [ps], in insertion order. *)
Record chained (h : heap) (t : st_table) (ps : list Z) : Prop := {
  ch_packed : entries_packed t = false;
  ch_nb : 0 < num_bins t < 2 ^ 31;
  ch_count : num_entries t = zlen ps ∧ zlen ps ≤ st_max_entries;
  ch_nodup : NoDup ps;
  ch_ring : ring h (head t) ps;
  ch_bins : bins_ok h (bins t) (num_bins t) ps;
  ch_hash : ∀ p, p ∈ ps → hash (ent h p) = do_hash (type t) (key (ent h p));
}.

Lemma ch_num h t ps : chained h t ps → num_entries t = zlen ps.
Proof. intros Hc. apply (ch_count _ _ _ Hc). Qed.
Lemma ch_max h t ps : chained h t ps → zlen ps ≤ st_max_entries.
Proof. intros Hc. apply (ch_count _ _ _ Hc). Qed.

(** The keys and values of a list of entries. *)
Definition content (h : heap) (ps : list Z) : list (Z * Z) :=
  map (λ p, (key (ent h p), record (ent h p))) ps.

(** A packed table: the bindings are laid out in the bins themselves. *)
Definition flat (l : list (Z * Z)) : list Z := concat (map (λ kv, [kv.1; kv.2]) l).

Record packed (t : st_table) (l : list (Z * Z)) : Prop := {
  pk_packed : entries_packed t = true;
  pk_type : type t = type_numhash;
  pk_nb : 0 < num_bins t < 2 ^ 31;
  pk_num : num_entries t = zlen l;
  pk_max : zlen l ≤ MAX_PACKED_NUMHASH;
  pk_len : zlen (bins t) = num_bins t;
  pk_fit : 2 * zlen l ≤ num_bins t;
  pk_bins : ∃ rest, bins t = flat l ++ rest;
  pk_head : head t = 0;
}.

(** Heap [h] and table [t] stand for the bindings [l]; the entries the table
    owns are [ps]. *)
Definition st_rep (h : heap) (t : st_table) (ps : list Z) (l : list (Z * Z)) : Prop :=
  distinct (type t) l ∧
  (packed t l ∧ ps = [] ∨ chained h t ps ∧ content h ps = l).

(** What an operation may touch: entries of its own table, and memory that
    was not allocated before. *)
Definition framed (h : heap) (ps : list Z) (h' : heap) (ps' : list Z) : Prop :=
  (∀ y e, y ∉ ps → h !! y = Some e → h' !! y = Some e) ∧
  (∀ p, p ∈ ps' → p ∈ ps ∨ h !! p = None).

Lemma content_length h ps : zlen (content h ps) = zlen ps.
Proof. unfold zlen, content. by rewrite length_map. Qed.

Lemma content_app h ps1 ps2 : content h (ps1 ++ ps2) = content h ps1 ++ content h ps2.
Proof. apply map_app. Qed.

Lemma content_frame h h' ps :
  (∀ p, p ∈ ps → key (ent h' p) = key (ent h p) ∧ record (ent h' p) = record (ent h p)) →
  content h' ps = content h ps.
Proof.
  induction ps as [|p ps IH]; intros Hf; [done|]. simpl. f_equal.
  - destruct (Hf p) as [-> ->]; [by left|done].
  - apply IH. intros q Hq. apply Hf. by right.
Qed.

Lemma content_relinked h h' qs ps : relinked h h' qs → content h' ps = content h ps.
Proof.
  intros (_ & R & _). apply content_frame. intros p _.
  by destruct (same_but_next_fields _ _ (R p)) as (_ & -> & -> & _).
Qed.

Lemma chained_live h t ps p : chained h t ps → p ∈ ps → live h p.
Proof. intros Hc Hp. eapply bins_ok_live; [apply Hc|apply Hc|done]. Qed.

Lemma framed_refl h ps : framed h ps h ps.
Proof. split; auto. Qed.

Lemma framed_trans h1 ps1 h2 ps2 h3 ps3 :
  framed h1 ps1 h2 ps2 → framed h2 ps2 h3 ps3 → framed h1 ps1 h3 ps3.
Proof.
  intros [A1 A2] [B1 B2]. split.
  - intros y e Hy He. apply B1; [|by apply A1]. intros Hy2.
    destruct (A2 y Hy2); [done|congruence].
  - intros p Hp. destruct (B2 p Hp) as [H|H]; [by apply A2|].
    destruct (decide (p ∈ ps1)); [by left|right].
    destruct (h1 !! p) eqn:E; [|done]. rewrite (A1 p s) in H; done.
Qed.

(** The entries of another table are left alone. *)
Lemma st_rep_framed h ps h' ps' t2 ps2 l2 :
  framed h ps h' ps' → (∀ p, p ∈ ps2 → p ∉ ps) → st_rep h t2 ps2 l2 → st_rep h' t2 ps2 l2.
Proof.
  intros [Hf _] Hdisj (Hd & [Hp|[Hc Hcont]]); [by split; auto|].
  assert (∀ p, p ∈ ps2 → live h' p ∧ ent h' p = ent h p) as Hsame.
  { intros p Hp. destruct (chained_live _ _ _ _ Hc Hp) as [Hp0 [e He]].
    pose proof (Hf p e (Hdisj p Hp) He) as He'. unfold ent. rewrite He, He'.
    split; [split; eauto|done]. }
  split; [done|]. right. split.
  - destruct Hc as [? ? ? ? Hring Hbins Hhash]. split; [done..| | |].
    + destruct ps2 as [|p ps2]; [done|]. destruct Hring as [-> Hcyc]. split; [done|].
      eapply dseg_frame; [|exact Hcyc]. intros q Hq. by destruct (Hsame q Hq) as [? ->].
    + eapply bins_ok_frame; [|exact Hbins]. intros q Hq. by destruct (Hsame q Hq) as [? ->].
    + intros p Hp. destruct (Hsame p Hp) as [_ ->]. by apply Hhash.
  - rewrite <- Hcont. apply content_frame. intros p Hp. by destruct (Hsame p Hp) as [_ ->].
Qed.
