(* ===== verification/StOps.v ===== *)
(** * The hash table of st.c: correctness of the operations *)

From S2P Require Import Prelude St StRep StSpec.

(** ** Search in a chained table *)

Section search.
Context (h : heap) (t : st_table) (ps : list Z) (k : Z).
Context `{!HashTypeLaws (type t)}.
Hypothesis Hc : chained h t ps.
Let hv := do_hash (type t) k.

(** The test of [FIND_ENTRY] on an entry. *)
Definition matches (q : Z) : bool := (hash (ent h q) =? hv) && EQUAL (type t) k (key (ent h q)).

Lemma matches_equal q : q ∈ ps → matches q = EQUAL (type t) k (key (ent h q)).
Proof.
  intros Hq. unfold matches. destruct (EQUAL _ _ _) eqn:E; [|by rewrite andb_false_r].
  rewrite (ch_hash _ _ _ Hc q Hq), <- (equal_hash _ _ E). by rewrite Z.eqb_refl.
Qed.

Lemma PTR_NOT_EQUAL_live q :
  live h q → PTR_NOT_EQUAL h (type t) q hv k = Ok (negb (matches q)).
Proof.
  intros Hl. unfold PTR_NOT_EQUAL. rewrite (proj2 (Z.eqb_neq _ _)) by apply Hl.
  rewrite deref_live by done. cbn. f_equal. unfold matches. by rewrite negb_andb.
Qed.

Lemma find_in_chain_spec fuel q c :
  chain h q (q :: c) → (length c < fuel)%nat →
  ∃ r, find_in_chain fuel h (type t) q hv k = Ok r ∧
    (r = 0 ∧ (∀ x, x ∈ c → matches x = false) ∨ r ∈ c ∧ matches r = true).
Proof.
  revert q c. induction fuel as [|fuel IH]; intros q c Hch Hf; [lia|]. cbn [find_in_chain].
  destruct Hch as (_ & Hl & Hch). rewrite deref_live by done. cbn [mbind res_bind].
  destruct c as [|x c].
  - simpl in Hch. rewrite Hch. cbn. exists 0. split; [done|]. left. split; [done|].
    by intros ? ?%not_elem_of_nil.
  - pose proof Hch as Hch'. destruct Hch' as (-> & Hlx & Hcx).
    rewrite PTR_NOT_EQUAL_live by done. cbn [mbind res_bind].
    destruct (matches x) eqn:Ex; cbn [negb].
    + exists x. split; [done|]. right. split; [by left|done].
    + destruct (IH x c) as (r & Hr & Hres); [done|simpl in Hf; lia|].
      exists r. split; [done|]. destruct Hres as [[-> Hn]|[Hin Hm]].
      * left. split; [done|]. intros y [->|Hy]%elem_of_cons; auto.
      * right. split; [by right|done].
Qed.

(** [FIND_ENTRY] finds the entry with an equal key, if there is one. *)
Lemma FIND_ENTRY_spec :
  ∃ r, FIND_ENTRY h t hv k = Ok (r, hv mod num_bins t) ∧
    (r = 0 ∧ (∀ x, x ∈ ps → EQUAL (type t) k (key (ent h x)) = false) ∨
     r ∈ ps ∧ EQUAL (type t) k (key (ent h r)) = true).
Proof.
  pose proof (ch_nb _ _ _ Hc) as Hnb. unfold FIND_ENTRY.
  rewrite cmod_ok by lia. cbn [mbind res_bind].
  destruct (proj2 (ch_bins _ _ _ Hc) (hv mod num_bins t)) as (x & c & Hx & Hch & Hm).
  { apply Z.mod_pos_bound. lia. }
  assert (∀ q, q ∈ ps → matches q = true → q ∈ c) as Hin.
  { intros q Hq Hmq. apply Hm. split; [done|]. unfold matches in Hmq.
    apply andb_true_iff in Hmq as [->%Z.eqb_eq _]. done. }
  assert (∀ q, q ∈ c → matches q = EQUAL (type t) k (key (ent h q))) as Hme.
  { intros q [Hq _]%Hm. by apply matches_equal. }
  assert ((∀ y, y ∈ c → matches y = false) →
          ∀ y, y ∈ ps → EQUAL (type t) k (key (ent h y)) = false) as Hnone.
  { intros Hno y Hy. rewrite <- matches_equal by done.
    destruct (matches y) eqn:E; [|done]. rewrite Hno in E; [done|]. by apply Hin. }
  rewrite (proj2 (aload_ok _ _ _) Hx). cbn [mbind res_bind].
  destruct c as [|y c].
  - simpl in Hch. subst x. cbn. exists 0. split; [done|]. left. split; [done|].
    apply Hnone. by intros ? ?%not_elem_of_nil.
  - pose proof Hch as (-> & Hl & _). rewrite PTR_NOT_EQUAL_live by done. cbn [mbind res_bind].
    destruct (matches y) eqn:Ey; cbn [negb].
    + exists y. split; [done|]. right. split; [apply Hm; by left|]. rewrite <- Hme; [done|by left].
    + destruct (find_in_chain_spec (chain_fuel h) y c) as (r & -> & Hres); [done| |].
      { apply chain_length in Hch. simpl in Hch. unfold chain_fuel. lia. }
      cbn [mbind res_bind]. exists r. split; [done|]. destruct Hres as [[-> Hn]|[Hr Hmr]].
      * left. split; [done|]. apply Hnone. intros z [->|Hz]%elem_of_cons; auto.
      * right. split; [apply Hm; by right|]. rewrite <- Hme; [done|by right].
Qed.
End search.

(** ** Search in a packed table *)

Lemma numhash_equal x y : EQUAL type_numhash x y = (y =? x).
Proof. unfold EQUAL. simpl. unfold st_numcmp. cmp_spec; simpl; try done; lia. Qed.

Lemma flat_length l : zlen (flat l) = 2 * zlen l.
Proof.
  unfold flat. induction l as [|kv l IH]; [done|]. cbn [map concat app].
  rewrite !zlen_cons, IH. lia.
Qed.

Lemma flat_app l1 l2 : flat (l1 ++ l2) = flat l1 ++ flat l2.
Proof. unfold flat. by rewrite map_app, concat_app. Qed.

Lemma flat_lookup l1 kv l2 rest :
  zlookup (flat (l1 ++ kv :: l2) ++ rest) (zlen l1 * 2) = Some kv.1 ∧
  zlookup (flat (l1 ++ kv :: l2) ++ rest) (zlen l1 * 2 + 1) = Some kv.2.
Proof.
  rewrite flat_app, <- app_assoc. pose proof (flat_length l1).
  rewrite !(zlookup_app_r (flat l1)) by lia.
  replace (zlen l1 * 2 - zlen (flat l1)) with 0 by lia.
  replace (zlen l1 * 2 + 1 - zlen (flat l1)) with 1 by lia. split; reflexivity.
Qed.

Lemma packed_find_spec rest k l1 l2 :
  match packed_find (flat (l1 ++ l2) ++ rest) k (zlen l1) (length l2) with
  | Ok None => a_find type_numhash k l2 = None
  | Ok (Some i) => ∃ la v lb, l2 = la ++ (k, v) :: lb ∧ i = zlen l1 + zlen la
                              ∧ a_find type_numhash k la = None
  | Err _ => False
  end.
Proof.
  revert l1. induction l2 as [|kv l2 IH]; intros l1; [done|]. cbn [length packed_find a_find].
  destruct (flat_lookup l1 kv l2 rest) as [Hk _].
  rewrite (proj2 (aload_ok _ _ _) Hk). cbn [mbind res_bind]. rewrite numhash_equal.
  destruct (Z.eqb_spec kv.1 k) as [<-|Hne].
  - exists [], kv.2, l2. rewrite zlen_nil. destruct kv. split_and!; [done|lia|done].
  - specialize (IH (l1 ++ [kv])). rewrite <- app_assoc in IH. cbn [app] in IH.
    replace (zlen (l1 ++ [kv])) with (zlen l1 + 1) in IH by (rewrite zlen_app; done).
    destruct (packed_find _ _ _ _) as [[i|]|]; [|done..].
    destruct IH as (la & v & lb & -> & -> & Hn). exists (kv :: la), v, lb.
    rewrite zlen_cons. split_and!; [done|lia|]. cbn [a_find]. rewrite numhash_equal.
    by rewrite (proj2 (Z.eqb_neq _ _)).
Qed.

Lemma find_packed_spec t l k :
  packed t l →
  (find_packed t k = Ok None ∧ a_find (type t) k l = None) ∨
  (∃ l1 v l2, l = l1 ++ (k, v) :: l2 ∧ find_packed t k = Ok (Some (zlen l1)) ∧
              a_find (type t) k l1 = None).
Proof.
  intros Hp. destruct (pk_bins _ _ Hp) as [rest Hr]. rewrite (pk_type _ _ Hp).
  unfold find_packed. rewrite Hr, (pk_num _ _ Hp), !to_nat_zlen.
  pose proof (packed_find_spec rest k [] l) as H. rewrite zlen_nil in H. cbn [app] in H.
  destruct (packed_find _ _ _ _) as [[i|]|]; [|by left|done].
  destruct H as (la & v & lb & -> & -> & Hn). right. exists la, v, lb.
  done.
Qed.

Lemma packed_bins_load t l1 kv l2 :
  packed t (l1 ++ kv :: l2) →
  aload (bins t) (zlen l1 * 2) = Ok kv.1 ∧ aload (bins t) (zlen l1 * 2 + 1) = Ok kv.2.
Proof.
  intros Hp. destruct (pk_bins _ _ Hp) as [rest ->].
  destruct (flat_lookup l1 kv l2 rest) as [H1 H2]. by rewrite !aload_ok.
Qed.

(** ** Lookup *)

Lemma elem_of_content h ps p :
  p ∈ ps → ∃ ps1 ps2, ps = ps1 ++ p :: ps2 ∧
    content h ps = content h ps1 ++ (key (ent h p), record (ent h p)) :: content h ps2.
Proof.
  intros (ps1 & ps2 & ->)%list_elem_of_split. exists ps1, ps2. by rewrite content_app.
Qed.

Lemma chained_lookup h t ps k `{!HashTypeLaws (type t)} :
  chained h t ps → distinct (type t) (content h ps) →
  ∃ r, FIND_ENTRY h t (do_hash (type t) k) k = Ok (r, do_hash (type t) k mod num_bins t) ∧
    match a_find (type t) k (content h ps) with
    | None => r = 0
    | Some kv => live h r ∧ r ∈ ps ∧ kv = (key (ent h r), record (ent h r))
                 ∧ EQUAL (type t) k (key (ent h r)) = true
    end.
Proof.
  intros Hc Hd. destruct (FIND_ENTRY_spec h t ps k Hc) as (r & -> & [[-> Hn]|[Hr He]]).
  - exists 0. split; [done|]. destruct (a_find _ _ _) as [kv|] eqn:E; [|done].
    assert (a_find (type t) k (content h ps) = None) as E'; [|congruence].
    apply a_find_None. intros kv' (p & -> & Hp)%list_elem_of_fmap. by apply Hn.
  - exists r. split; [done|]. destruct (elem_of_content h ps r Hr) as (ps1 & ps2 & -> & Econt).
    rewrite Econt in *.
    destruct (a_find_middle (type t) k _ _ _ Hd He) as (-> & _).
    split_and!; [by eapply chained_live|done..].
Qed.

Lemma st_lookup_correct h t ps l k `{!HashTypeLaws (type t)} :
  st_rep h t ps l → st_lookup h t k = Ok (snd <$> a_find (type t) k l).
Proof.
  intros (Hd & [[Hp _]|[Hc Hcont]]); unfold st_lookup.
  - rewrite (pk_packed _ _ Hp).
    destruct (find_packed_spec t l k Hp) as [[-> ->]|(l1 & v & l2 & -> & -> & Hn)]; [done|].
    cbn [mbind res_bind]. destruct (packed_bins_load _ _ _ _ Hp) as [_ ->].
    destruct (a_find_middle (type t) k l1 (k, v) l2 Hd (equal_refl _ _)) as (-> & _). done.
  - subst l. rewrite (ch_packed _ _ _ Hc).
    destruct (chained_lookup h t ps k Hc Hd) as (r & -> & Hr). cbn [mbind res_bind].
    destruct (a_find _ _ _) as [kv|].
    + destruct Hr as (Hlr & _ & -> & _). rewrite (proj2 (Z.eqb_neq _ _)) by apply Hlr.
      by rewrite deref_live.
    + subst r. done.
Qed.

Lemma st_get_key_correct h t ps l k `{!HashTypeLaws (type t)} :
  st_rep h t ps l → st_get_key h t k = Ok (fst <$> a_find (type t) k l).
Proof.
  intros (Hd & [[Hp _]|[Hc Hcont]]); unfold st_get_key.
  - rewrite (pk_packed _ _ Hp).
    destruct (find_packed_spec t l k Hp) as [[-> ->]|(l1 & v & l2 & -> & -> & Hn)]; [done|].
    cbn [mbind res_bind]. destruct (packed_bins_load _ _ _ _ Hp) as [-> _].
    destruct (a_find_middle (type t) k l1 (k, v) l2 Hd (equal_refl _ _)) as (-> & _). done.
  - subst l. rewrite (ch_packed _ _ _ Hc).
    destruct (chained_lookup h t ps k Hc Hd) as (r & -> & Hr). cbn [mbind res_bind].
    destruct (a_find _ _ _) as [kv|].
    + destruct Hr as (Hlr & _ & -> & _). rewrite (proj2 (Z.eqb_neq _ _)) by apply Hlr.
      by rewrite deref_live.
    + subst r. done.
Qed.

Lemma chained_length h t ps : chained h t ps → (length ps ≤ size h)%nat.
Proof. intros Hc. apply live_length; [apply Hc|]. intros p. by apply chained_live with t. Qed.

(** ** Growing the table *)

(** Below [2^30] the table of sizes has an entry above [s]. *)
Lemma new_size_bounds s : 0 ≤ s < 2 ^ 30 → s < new_size s < 2 ^ 31.
Proof.
  intros Hs. unfold new_size, MINSIZE, primes.
  repeat (cbn [new_size_loop];
    match goal with
    | |- context [s <? ?n] =>
        let v := eval vm_compute in n in change n with v;
        destruct (Z.ltb_spec s v); [lia|]
    end).
  lia.
Qed.

Lemma rehash_ring_spec fuel h b nb l1 ptr l2 prev first :
  0 < nb → NoDup (l1 ++ ptr :: l2) → bins_ok h b nb l1 →
  dseg h prev (ptr :: l2) first → first ∉ l2 → (length l2 < fuel)%nat →
  ∃ h' b', rehash_ring fuel h b nb ptr first = Ok (h', b') ∧
    relinked h h' (l1 ++ ptr :: l2) ∧ bins_ok h' b' nb (l1 ++ ptr :: l2).
Proof.
  intros Hnb. revert h b l1 ptr l2 prev. induction fuel as [|fuel IH];
    intros h b l1 ptr l2 prev Hnd Hb Hseg Hhd Hf; [lia|]. cbn [rehash_ring].
  assert (ptr ∉ l1) as Hp1.
  { apply NoDup_app in Hnd as (_ & Hd & _). intros Hp. apply (Hd ptr Hp). by left. }
  pose proof Hseg as (Hl & _ & Hfo & Hseg').
  assert (Hr : 0 ≤ hash (ent h ptr) mod nb < nb) by (by apply Z.mod_pos_bound).
  rewrite deref_live by done. cbn [mbind res_bind]. rewrite cmod_ok by lia. cbn [mbind res_bind].
  destruct (aload_returns b (hash (ent h ptr) mod nb)) as (old & Hal & Hold).
  { by rewrite (proj1 Hb). }
  rewrite Hal. cbn [mbind res_bind]. rewrite modify_live by done. cbn [mbind res_bind].
  rewrite astore_ok by (by rewrite (proj1 Hb)). cbn [mbind res_bind].
  set (h1 := <[ptr := set_next old (ent h ptr)]> h).
  set (b1 := <[Z.to_nat (hash (ent h ptr) mod nb) := ptr]> b).
  assert (relinked h h1 (l1 ++ ptr :: l2)) as Hrel.
  { apply relinked_set_next; [done|]. apply elem_of_app. right. by left. }
  assert (bins_ok h1 b1 nb (l1 ++ [ptr])) as Hb1.
  { eapply bins_ok_push; [exact Hb|done|exact Hold|by apply live_insert|..];
      unfold h1; rewrite ?ent_insert_eq; [done..|].
    intros q Hq. assert (ptr ≠ q) by (by intros ->). rewrite ent_insert_ne by done.
    split; [|done]. apply live_insert. by eapply bins_ok_live. }
  rewrite Hfo. destruct l2 as [|y l2].
  - cbn [hd]. rewrite Z.eqb_refl. eauto 6.
  - cbn [hd]. assert (y ≠ first) by (intros ->; apply Hhd; by left).
    rewrite (proj2 (Z.eqb_neq _ _)) by done.
    destruct (IH h1 b1 (l1 ++ [ptr]) y l2 ptr) as (h' & b' & He & Hrel' & Hb').
    + by rewrite <- app_assoc.
    + done.
    + by eapply relinked_dseg.
    + intros Hin. apply Hhd. by right.
    + simpl in Hf. lia.
    + rewrite <- app_assoc in Hrel', Hb'. exists h', b'. split_and!; [done| |done].
      by eapply relinked_trans.
Qed.

(** [rehash] keeps the entries and their order, and re-links every one of them
    into the chain of its new bin. *)
Lemma rehash_spec h t ps :
  chained h t ps → num_bins t + 1 < 2 ^ 30 →
  ∃ h' t', rehash h t = Ok (h', t') ∧ chained h' t' ps ∧ relinked h h' ps ∧
    type t' = type t ∧ head t' = head t ∧ num_bins t < num_bins t'.
Proof.
  intros Hc Hlt. pose proof (ch_nb _ _ _ Hc) as Hnb. unfold rehash.
  rewrite s32_small by lia.
  pose proof (new_size_bounds (num_bins t + 1)) as Hns.
  set (n := new_size (num_bins t + 1)) in *.
  rewrite (proj2 (Z.leb_le 0 n)) by lia. cbn [check mbind res_bind].
  assert (∀ h' b', relinked h h' ps → bins_ok h' b' n ps →
    chained h' (mkTable (type t) n (entries_packed t) (num_entries t) b' (head t)) ps) as Hch.
  { intros h' b' Hrel Hb'. destruct Hc as [? ? ? ? Hring ? Hhash]. split; simpl; [done|lia|done..| | |].
    - by eapply relinked_ring.
    - done.
    - intros p Hp. destruct Hrel as (_ & R & _).
      destruct (same_but_next_fields _ _ (R p)) as (-> & -> & _). by apply Hhash. }
  pose proof (ch_ring _ _ _ Hc) as Hring. destruct ps as [|p ps].
  - rewrite (proj2 (Z.eqb_eq _ _) Hring). eexists _, _. split; [done|].
    assert (relinked h h []) as Hrel by apply relinked_refl.
    split_and!; [|done..|simpl; lia]. apply Hch; [done|].
    apply bins_ok_nil. lia.
  - destruct Hring as [<- Hcyc]. set (p := head t) in *.
    assert (live h p) as Hlp by (eapply chained_live; [done|by left]).
    rewrite (proj2 (Z.eqb_neq _ _)) by apply Hlp.
    pose proof (ch_nodup _ _ _ Hc) as [Hp _]%NoDup_cons.
    destruct (rehash_ring_spec (chain_fuel h) h (replicate (Z.to_nat n) 0) n [] p ps
      (List.last (p :: ps) 0) p) as (h' & b' & -> & Hrel & Hb').
    + lia.
    + apply Hc.
    + apply bins_ok_nil. lia.
    + exact Hcyc.
    + done.
    + pose proof (chained_length _ _ _ Hc) as Hlen. simpl in Hlen. unfold chain_fuel. lia.
    + cbn [mbind res_bind]. eexists _, _. split; [done|].
      split_and!; [by apply Hch|done..|simpl; lia].
Qed.

(** ** Insertion *)

Section insertion.
Context `{Alloc : Allocator}.

(** The new entry is the last of the ring; the other entries keep their data. *)
Lemma link_entry_spec h t ps x hv k v nxt :
  ring h (head t) ps → NoDup ps → (∀ p, p ∈ ps → live h p) → x ∉ ps → x ≠ 0 →
  ∃ h' hd', link_entry h t x hv k v nxt = Ok (h', set_head hd' t) ∧ ring h' hd' (ps ++ [x]) ∧
    (∀ y, live h y → live h' y) ∧ live h' x ∧ data (ent h' x) = (hv, k, v, nxt) ∧
    (∀ y, y ∈ ps → data (ent h' y) = data (ent h y)) ∧
    (∀ y, y ∉ ps → y ≠ x → h' !! y = h !! y).
Proof.
  intros Hring Hnd Hlive Hx Hx0. unfold link_entry. destruct ps as [|p ps].
  - rewrite (proj2 (Z.eqb_eq _ _) Hring). eexists _, x. split; [done|].
    rewrite ent_insert_eq. split_and!; [|by auto with mruby..|done| |].
    + unfold ring, cyc. cbn. rewrite ent_insert_eq. by split_and!; auto with mruby.
    + by intros y ?%not_elem_of_nil.
    + intros y _ Hy. by rewrite lookup_insert_ne.
  - destruct Hring as [Ehd Hcyc]. assert (Hlp : live h p) by (apply Hlive; by left).
    rewrite Ehd, (proj2 (Z.eqb_neq _ _)), deref_live by (done || apply Hlp). cbn [mbind res_bind].
    pose proof Hcyc as (_ & Eb & _). set (lst := List.last (p :: ps) 0) in *.
    assert (Hlst : lst ∈ p :: ps) by (unfold lst; rewrite last_cons_default; apply last_elem_of).
    set (e := mkEntry _ _ _ _ _ _). rewrite Eb.
    rewrite modify_live by auto with mruby. cbn [mbind res_bind].
    rewrite modify_live by auto with mruby. cbn [mbind res_bind].
    assert (Hxy : ∀ y, y ∈ p :: ps → x ≠ y) by (intros y Hy ->; done).
    assert (Et : t = set_head p t) by (by rewrite <- Ehd; destruct t).
    eexists _, p. split; [exact (f_equal (λ t', Ok (_, t')) Et)|]. split_and!.
    + split; [done|]. by apply cyc_push.
    + auto 10 with mruby.
    + auto 10 with mruby.
    + rewrite data_set_back, data_set_fore, ent_insert_eq. done.
    + intros y Hy. by rewrite data_set_back, data_set_fore, ent_insert_ne by auto.
    + intros y Hy Hyx. assert (∀ q, q ∈ p :: ps → q ≠ y) by (intros q Hq ->; done).
      rewrite !lookup_insert_ne; [done|done|auto|apply H; by left].
Qed.

(** The new entry goes to the end of the ring and to the front of its bin. *)
Lemma add_entry_spec h t ps k v :
  chained h t ps → zlen ps < st_max_entries →
  let hv := do_hash (type t) k in
  ∃ h' t' p, add_entry h t k v hv (hv mod num_bins t) = Ok (h', t') ∧
    chained h' t' (ps ++ [p]) ∧ content h' (ps ++ [p]) = content h ps ++ [(k, v)] ∧
    type t' = type t ∧ framed h ps h' (ps ++ [p]).
Proof.
  intros Hc Hmax hv. pose proof (ch_nb _ _ _ Hc) as Hnb. unfold add_entry.
  assert (Hr : 0 ≤ hv mod num_bins t < num_bins t) by (apply Z.mod_pos_bound; lia).
  assert (Hlen : zlen (bins t) = num_bins t) by apply Hc.
  destruct (aload_returns (bins t) (hv mod num_bins t)) as (old & -> & Hold); [lia|].
  cbn [mbind res_bind]. set (x := malloc h).
  assert (Hxp : x ∉ ps).
  { intros Hin. apply (live_malloc h x); [by eapply chained_live|done]. }
  destruct (link_entry_spec h t ps x hv k v old) as
    (h' & hd' & -> & Hring & Hlive & Hlx & Ex & Ey & Hfr);
    [apply Hc|apply Hc|intros; by eapply chained_live|done|apply malloc_nonnull|].
  unfold data in *. injection Ex as Exh Exk Exv Exn.
  cbn [mbind res_bind bins set_head]. rewrite astore_ok by lia.
  eexists _, _, x. split; [done|].
  assert (Hb' : bins_ok h' (<[Z.to_nat (hv mod num_bins t) := x]> (bins t)) (num_bins t) (ps ++ [x])).
  { eapply bins_ok_push; [apply Hc|done|exact Hold|done|done|by rewrite Exh|].
    intros q Hq. specialize (Ey q Hq). injection Ey as ? ? ? ?. split_and!; [|done..].
    apply Hlive. by eapply chained_live. }
  split_and!; [| |done|split].
  - split; simpl; [apply Hc|lia| | |done..|].
    + rewrite (ch_num _ _ _ Hc), zlen_app, zlen_cons, zlen_nil. unfold u63, st_max_entries in *.
      pose proof (zlen_nonneg ps). rewrite Z.mod_small by lia. lia.
    + apply NoDup_app. split_and!; [apply Hc| |apply NoDup_singleton].
      intros y Hy ->%list_elem_of_singleton. done.
    + intros p [Hp| ->%list_elem_of_singleton]%elem_of_app; [|by rewrite Exh, Exk].
      specialize (Ey p Hp). injection Ey as Eh' Ek' _ _. rewrite Eh', Ek'.
      by apply (ch_hash _ _ _ Hc).
  - rewrite content_app. f_equal; [|simpl; by rewrite Exk, Exv]. apply content_frame. intros p Hp.
    specialize (Ey p Hp). by injection Ey as ? ? ? ?.
  - intros y e Hy He. rewrite Hfr; [done|done|]. intros ->. unfold x in He. by rewrite malloc_fresh in He.
  - intros p [Hp| ->%list_elem_of_singleton]%elem_of_app; [by left|right]. apply malloc_fresh.
Qed.

Lemma ADD_DIRECT_spec h t ps k v :
  chained h t ps → zlen ps < st_max_entries →
  let hv := do_hash (type t) k in
  ∃ h' t' p, ADD_DIRECT h t k v hv (hv mod num_bins t) = Ok (h', t') ∧
    chained h' t' (ps ++ [p]) ∧ content h' (ps ++ [p]) = content h ps ++ [(k, v)] ∧
    type t' = type t ∧ framed h ps h' (ps ++ [p]).
Proof.
  intros Hc Hmax hv. pose proof (ch_nb _ _ _ Hc) as Hnb. unfold ADD_DIRECT.
  rewrite cdiv_ok by lia. cbn [mbind res_bind].
  destruct (Z.ltb_spec ST_DEFAULT_MAX_DENSITY (num_entries t / num_bins t)) as [Hdense|_];
    [|by apply add_entry_spec].
  assert (num_bins t + 1 < 2 ^ 30) as Hgrow.
  { unfold ST_DEFAULT_MAX_DENSITY, st_max_entries in *. rewrite (ch_num _ _ _ Hc) in Hdense.
    assert (6 * num_bins t ≤ zlen ps); [|lia].
    pose proof (Z.mul_div_le (zlen ps) (num_bins t)). nia. }
  destruct (rehash_spec h t ps Hc Hgrow) as (h1 & t1 & -> & Hc1 & Hrel & Ety & _).
  cbn [mbind res_bind]. pose proof (ch_nb _ _ _ Hc1). rewrite cmod_ok by lia. cbn [mbind res_bind].
  unfold hv. rewrite <- Ety.
  destruct (add_entry_spec h1 t1 ps k v Hc1 Hmax) as (h' & t' & p & -> & Hc' & Econt & Ety' & Hfr).
  exists h', t', p. split_and!; [done|done| |done|].
  - rewrite Econt. by rewrite (content_relinked _ _ _ _ Hrel).
  - eapply framed_trans; [|exact Hfr]. destruct Hrel as (_ & _ & R). split; [|by auto].
    intros y e Hy He. by rewrite R.
Qed.
(** Overwriting the value of an entry. *)
Lemma chained_set_record h t ps1 p ps2 v :
  chained h t (ps1 ++ p :: ps2) →
  let h' := <[p := set_record v (ent h p)]> h in
  chained h' t (ps1 ++ p :: ps2) ∧
  content h' (ps1 ++ p :: ps2) = content h ps1 ++ (key (ent h p), v) :: content h ps2.
Proof.
  intros Hc h'. pose proof (ch_nodup _ _ _ Hc) as Hnd.
  assert (∀ q, q ∈ ps1 ++ p :: ps2 → live h' q) as Hlive.
  { intros q Hq. apply live_insert. by eapply chained_live. }
  assert (∀ q, fore (ent h' q) = fore (ent h q) ∧ back (ent h' q) = back (ent h q) ∧
    next (ent h' q) = next (ent h q) ∧ hash (ent h' q) = hash (ent h q) ∧
    key (ent h' q) = key (ent h q)) as Hsame.
  { intros q. unfold h'. destruct (decide (p = q)) as [->|];
      [by rewrite ent_insert_eq|by rewrite ent_insert_ne]. }
  split.
  - destruct Hc as [? ? ? ? Hring Hbins Hhash]. split; [done..| | |].
    + destruct (ps1 ++ p :: ps2) as [|q ps]; [done|]. destruct Hring as [-> Hcyc]. split; [done|].
      eapply dseg_frame; [|exact Hcyc]. intros y Hy. destruct (Hsame y) as (-> & -> & _). auto.
    + eapply bins_ok_frame; [|exact Hbins]. intros y Hy. destruct (Hsame y) as (_ & _ & -> & -> & _). auto.
    + intros y Hy. destruct (Hsame y) as (_ & _ & _ & -> & ->). auto.
  - rewrite content_app. apply NoDup_app in Hnd as (_ & Hd & [Hp _]%NoDup_cons).
    cbn [content map]. unfold h' at 2 3. rewrite ent_insert_eq. f_equal; [|f_equal];
      apply content_frame; intros q Hq; unfold h'; rewrite ent_insert_ne; [done| |done|];
      intros ->; [by apply (Hd q Hq); left|done].
Qed.

Lemma insert_unpacked_spec h t ps k v `{!HashTypeLaws (type t)} :
  chained h t ps → distinct (type t) (content h ps) → zlen ps < st_max_entries →
  ∃ h' t' ps', insert_unpacked h t k v =
      Ok (bool_decide (is_Some (a_find (type t) k (content h ps))), h', t') ∧
    chained h' t' ps' ∧ content h' ps' = a_insert (type t) k v (content h ps) ∧
    type t' = type t ∧ framed h ps h' ps'.
Proof.
  intros Hc Hd Hmax. unfold insert_unpacked.
  destruct (chained_lookup h t ps k Hc Hd) as (r & -> & Hr). cbn [mbind res_bind].
  destruct (a_find (type t) k (content h ps)) as [kv|] eqn:Ef.
  - destruct Hr as (Hlr & Hin & -> & Heq).
    rewrite (proj2 (Z.eqb_neq _ _)), modify_live by (done || apply Hlr). cbn [mbind res_bind].
    destruct (elem_of_content h ps r Hin) as (ps1 & ps2 & -> & Econt). rewrite Econt in *.
    destruct (chained_set_record h t ps1 r ps2 v Hc) as [Hc' Hcont'].
    destruct (a_find_middle (type t) k _ _ _ Hd Heq) as (_ & _ & -> & _).
    eexists _, _, _. split_and!; [by rewrite bool_decide_true by eauto|exact Hc'|done|done|].
    split; [|by auto]. intros y e Hy He. rewrite lookup_insert_ne; [done|].
    intros ->. apply Hy. apply elem_of_app. right. by left.
  - subst r. cbn [Z.eqb].
    destruct (ADD_DIRECT_spec h t ps k v Hc Hmax) as (h' & t' & p & -> & Hc' & Hcont' & Hty & Hfr).
    cbn [mbind res_bind]. exists h', t', (ps ++ [p]).
    split_and!; [by rewrite bool_decide_false by (intros [? ?]; done)|done| |done|done].
    by rewrite a_insert_None.
Qed.

(** The nested [st_insert] calls of [unpack_entries]. *)
Lemma unpack_loop_spec h t ps l :
  type t = type_numhash → chained h t ps → distinct (type t) (content h ps ++ l) →
  zlen ps + zlen l ≤ st_max_entries →
  ∃ h' t' ps', unpack_loop h t (flat l) = Ok (h', t') ∧ chained h' t' ps' ∧
    content h' ps' = content h ps ++ l ∧ type t' = type t ∧ framed h ps h' ps'.
Proof.
  revert h t ps. induction l as [|[k v] l IH]; intros h t ps Hty Hc Hd Hmax; cbn [flat map concat app].
  - exists h, t, ps. rewrite app_nil_r. split_and!; [done..|apply framed_refl].
  - cbn [unpack_loop fst snd]. unfold st_insert_with. rewrite (ch_packed _ _ _ Hc).
    assert (HashTypeLaws (type t)) by (rewrite Hty; apply _).
    rewrite zlen_cons in Hmax. pose proof (zlen_nonneg l).
    assert (a_find (type t) k (content h ps) = None) as Hf.
    { rewrite distinct_app in Hd. destruct Hd as (_ & _ & Hd). apply a_find_None. intros kv Hkv.
      specialize (Hd kv Hkv). simpl in Hd.
      destruct (EQUAL (type t) k kv.1) eqn:E; [|done]. apply equal_sym in E. by rewrite E in Hd. }
    destruct (insert_unpacked_spec h t ps k v Hc) as (h1 & t1 & ps1 & -> & Hc1 & Econt & Ety & Hfr).
    { apply distinct_app in Hd. tauto. }
    { lia. }
    cbn [mbind res_bind]. rewrite a_insert_None in Econt by done.
    destruct (IH h1 t1 ps1) as (h' & t' & ps' & He & Hc' & Econt' & Ety' & Hfr').
    + congruence.
    + done.
    + by rewrite Ety, Econt, <- app_assoc.
    + rewrite <- (content_length h1), Econt, zlen_app, content_length, zlen_cons, zlen_nil. lia.
    + exists h', t', ps'. rewrite Econt, <- app_assoc in Econt'.
      split_and!; [exact He|done|done|congruence|by eapply framed_trans].
Qed.

Lemma unpack_entries_spec h t l :
  packed t l → distinct (type t) l →
  ∃ h' t' ps', unpack_entries h t = Ok (h', t') ∧ chained h' t' ps' ∧
    content h' ps' = l ∧ type t' = type t ∧ framed h [] h' ps'.
Proof.
  intros Hp Hd. unfold unpack_entries. destruct Hp as [Epk Ety Hnb Enum Hm Hlen Hfit [rest Er] Ehd].
  rewrite Enum. unfold MAX_PACKED_NUMHASH in *.
  rewrite (proj2 (Z.leb_le _ _)), (proj2 (Z.leb_le _ _)) by lia. cbn [andb check mbind res_bind].
  rewrite (proj2 (Z.leb_le _ _)) by lia. cbn [check mbind res_bind].
  replace (drop (Z.to_nat (num_bins t)) (bins t)) with (@nil Z)
    by (symmetry; apply drop_ge; unfold zlen in Hlen; lia).
  rewrite app_nil_r, Er, take_app_length' by (pose proof (flat_length l); unfold zlen in *; lia).
  match goal with |- context [unpack_loop h ?t0 _] => set (t0' := t0) end.
  assert (chained h t0' []) as Hc0.
  { split; simpl; [done|done|done|constructor|done| |by intros ? ?%not_elem_of_nil].
    apply bins_ok_nil. lia. }
  destruct (unpack_loop_spec h t0' [] l) as (h' & t' & ps' & -> & Hc' & Econt & Ety' & Hfr);
    [done|done|done| |by eauto 10].
  rewrite zlen_nil. unfold st_max_entries. lia.
Qed.

(** *** Packed tables *)

Lemma packed_set_value t l1 k v v' l2 :
  packed t (l1 ++ (k, v) :: l2) →
  ∃ b, astore (bins t) (zlen l1 * 2 + 1) v' = Ok b ∧ packed (set_bins b t) (l1 ++ (k, v') :: l2).
Proof.
  intros Hp. pose proof (packed_bins_load _ _ _ _ Hp) as [_ Hload].
  apply aload_ok, zlookup_Some_range in Hload. rewrite astore_ok by done.
  eexists. split; [done|]. destruct Hp as [? ? ? Hn ? ? ? [rest Er] ?].
  rewrite zlen_app, zlen_cons in *. split; cbn; try done;
    rewrite ?zlen_insert, ?zlen_app, ?zlen_cons; try lia.
  exists rest. rewrite Er, !flat_app. cbn [flat map concat app fst snd].
  pose proof (flat_length l1) as Hl. rewrite <- !app_assoc.
  rewrite insert_app_r_alt by (unfold zlen in *; lia).
  replace (Z.to_nat (zlen l1 * 2 + 1) - length (flat l1))%nat with 1%nat
    by (unfold zlen in *; lia). done.
Qed.

Lemma packed_push t l k v :
  packed t l → (zlen l + 1) * 2 ≤ num_bins t → zlen l + 1 ≤ MAX_PACKED_NUMHASH →
  ∃ b1 b2, astore (bins t) (num_entries t * 2) k = Ok b1 ∧
    astore b1 (num_entries t * 2 + 1) v = Ok b2 ∧
    packed (set_num_entries (u63 (num_entries t + 1)) (set_bins b2 t)) (l ++ [(k, v)]).
Proof.
  intros [? ? ? Hn Hm Hlen ? [rest Er] ?] Hfit Hmax. pose proof (zlen_nonneg l).
  pose proof (flat_length l) as Hl. rewrite Hn.
  rewrite astore_ok by lia. eexists _, _. split; [done|].
  rewrite astore_ok by (rewrite zlen_insert; lia). split; [done|].
  assert (∃ x y rest', rest = x :: y :: rest') as (x & y & rest' & ->).
  { rewrite Er, zlen_app in Hlen. destruct rest as [|x [|y rest']]; [..|by eauto];
      unfold zlen in *; simpl in *; lia. }
  split; cbn; try done; rewrite ?zlen_insert, ?zlen_app, ?zlen_cons, ?zlen_nil; try lia.
  - unfold u63, MAX_PACKED_NUMHASH in *. rewrite Z.mod_small; lia.
  - exists rest'. rewrite Er, flat_app, <- app_assoc. cbn [flat map concat app fst snd].
    rewrite (insert_app_r_alt _ _ (Z.to_nat (zlen l * 2))) by (unfold zlen in *; lia).
    rewrite insert_app_r_alt by (unfold zlen in *; lia).
    replace (Z.to_nat (zlen l * 2) - length (flat l))%nat with 0%nat by (unfold zlen in *; lia).
    by replace (Z.to_nat (zlen l * 2 + 1) - length (flat l))%nat with 1%nat by (unfold zlen in *; lia).
Qed.

Lemma st_rep_packed h t l : packed t l → distinct (type t) l → st_rep h t [] l.
Proof. intros. split; [done|]. by left. Qed.

Lemma st_rep_chained h t ps l :
  chained h t ps → content h ps = l → distinct (type t) l → st_rep h t ps l.
Proof. intros. split; [done|]. by right. Qed.

Lemma a_insert_distinct ty `{!HashTypeLaws ty} k v l :
  distinct ty l → distinct ty (a_insert ty k v l).
Proof.
  intros Hd. destruct (a_find ty k l) as [kv|] eqn:E.
  - assert (∃ l1 l2, l = l1 ++ kv :: l2 ∧ EQUAL ty k kv.1 = true) as (l1 & l2 & -> & He).
    { clear Hd. induction l as [|x l IH]; [done|]. simpl in E. destruct (EQUAL ty k x.1) eqn:Ex.
      - injection E as ->. by exists [], l.
      - destruct (IH E) as (l1 & l2 & -> & ?). by exists (x :: l1), l2. }
    destruct (a_find_middle ty k l1 kv l2 Hd He) as (_ & _ & -> & _).
    destruct kv. by eapply distinct_value.
  - rewrite a_insert_None by done. by apply distinct_snoc.
Qed.

(** ** [st_insert] and [st_add_direct] refine insertion in the list *)

Lemma st_insert_spec h t ps l k v `{!HashTypeLaws (type t)} :
  st_rep h t ps l → zlen l < st_max_entries →
  ∃ h' t' ps', st_insert h t k v = Ok (bool_decide (is_Some (a_find (type t) k l)), h', t') ∧
    st_rep h' t' ps' (a_insert (type t) k v l) ∧ type t' = type t ∧ framed h ps h' ps'.
Proof.
  intros (Hd & [[Hp ->]|[Hc Hcont]]) Hmax; unfold st_insert, st_insert_with.
  - rewrite (pk_packed _ _ Hp).
    destruct (find_packed_spec t l k Hp) as [[-> Hf]|(l1 & v0 & l2 & -> & -> & Hn)];
      cbn [mbind res_bind].
    + rewrite Hf. destruct (_ && _) eqn:Hroom.
      * apply andb_true_iff in Hroom as [H1%Z.leb_le H2%Z.leb_le].
        rewrite (pk_num _ _ Hp) in H1, H2.
        destruct (packed_push t l k v Hp) as (b1 & b2 & -> & Hb2 & Hp'); [lia..|].
        cbn [mbind res_bind]. rewrite Hb2. eexists _, _, []. split; [done|].
        rewrite a_insert_None by done. split_and!; [|done|apply framed_refl].
        apply st_rep_packed; [done|]. by apply distinct_snoc.
      * destruct (unpack_entries_spec h t l Hp Hd) as (h1 & t1 & ps1 & -> & Hc1 & Ec1 & Ety & Hfr).
        cbn [mbind res_bind]. rewrite <- Ety in *.
        destruct (insert_unpacked_spec h1 t1 ps1 k v Hc1) as (h' & t' & ps' & -> & Hc' & Ec' & Ety' & Hfr').
        { by rewrite Ec1. }
        { by rewrite <- (content_length h1), Ec1. }
        rewrite Ec1 in *. rewrite Hf in *. exists h', t', ps'.
        split_and!; [done| |congruence|by eapply framed_trans].
        eapply st_rep_chained; [done|done|]. rewrite Ety'. by apply a_insert_distinct.
    + destruct (packed_set_value t l1 k v0 v l2 Hp) as (b & -> & Hp'). cbn [mbind res_bind].
      destruct (a_find_middle (type t) k l1 (k, v0) l2 Hd (equal_refl _ _)) as (-> & _ & -> & _).
      rewrite bool_decide_true by eauto. eexists _, _, []. split; [done|].
      split_and!; [|done|apply framed_refl]. apply st_rep_packed; [done|]. by eapply distinct_value.
  - subst l. rewrite (ch_packed _ _ _ Hc).
    destruct (insert_unpacked_spec h t ps k v Hc Hd) as (h' & t' & ps' & -> & Hc' & Ec' & Ety & Hfr).
    { by rewrite <- (content_length h). }
    exists h', t', ps'. split_and!; [done| |done|done].
    eapply st_rep_chained; [done|done|]. rewrite Ety. by apply a_insert_distinct.
Qed.

(** [st_add_direct] does not search: the caller promises that the key is new. *)
Lemma st_add_direct_spec h t ps l k v `{!HashTypeLaws (type t)} :
  st_rep h t ps l → zlen l < st_max_entries → a_find (type t) k l = None →
  ∃ h' t' ps', st_add_direct h t k v = Ok (h', t') ∧
    st_rep h' t' ps' (l ++ [(k, v)]) ∧ type t' = type t ∧ framed h ps h' ps'.
Proof.
  intros (Hd & [[Hp ->]|[Hc Hcont]]) Hmax Hf; unfold st_add_direct, add_direct_unpacked.
  - rewrite (pk_packed _ _ Hp). destruct (_ && _) eqn:Hroom.
    + apply andb_true_iff in Hroom as [H1%Z.leb_le H2%Z.leb_le].
      rewrite (pk_num _ _ Hp) in H1, H2.
      destruct (packed_push t l k v Hp) as (b1 & b2 & -> & Hb2 & Hp'); [lia..|].
      cbn [mbind res_bind]. rewrite Hb2. eexists _, _, []. split; [done|].
      split_and!; [|done|apply framed_refl].
      apply st_rep_packed; [done|]. by apply distinct_snoc.
    + destruct (unpack_entries_spec h t l Hp Hd) as (h1 & t1 & ps1 & -> & Hc1 & Ec1 & Ety & Hfr).
      cbn [mbind res_bind]. rewrite <- Ety in *. pose proof (ch_nb _ _ _ Hc1).
      rewrite cmod_ok by lia. cbn [mbind res_bind].
      destruct (ADD_DIRECT_spec h1 t1 ps1 k v Hc1) as (h' & t' & p & -> & Hc' & Ec' & Ety' & Hfr').
      { by rewrite <- (content_length h1), Ec1. }
      exists h', t', (ps1 ++ [p]). split_and!; [done| |congruence|by eapply framed_trans].
      eapply st_rep_chained; [done|congruence|]. rewrite Ety'. by apply distinct_snoc.
  - subst l. rewrite (ch_packed _ _ _ Hc). pose proof (ch_nb _ _ _ Hc).
    rewrite cmod_ok by lia. cbn [mbind res_bind].
    destruct (ADD_DIRECT_spec h t ps k v Hc) as (h' & t' & p & -> & Hc' & Ec' & Ety' & Hfr').
    { by rewrite <- (content_length h). }
    exists h', t', (ps ++ [p]). split_and!; [done| |done|done].
    eapply st_rep_chained; [done|done|]. rewrite Ety'. by apply distinct_snoc.
Qed.
End insertion.

(** ** Deletion *)

(** [REMOVE_ENTRY] takes one entry out of the ring and touches its neighbours'
    links only. *)
Lemma REMOVE_ENTRY_spec h t l1 p l2 :
  ring h (head t) (l1 ++ p :: l2) → NoDup (l1 ++ p :: l2) →
  ∃ h' hd', REMOVE_ENTRY h t p =
      Ok (h', set_num_entries (u63 (num_entries t - 1)) (set_head hd' t)) ∧
    ring h' hd' (l1 ++ l2) ∧ (∀ y, live h y → live h' y) ∧
    (∀ y, data (ent h' y) = data (ent h y)) ∧ (∀ y, y ∉ l1 ++ l2 → h' !! y = h !! y).
Proof.
  intros Hring Hnd.
  assert (head t = hd 0 (l1 ++ p :: l2) ∧ cyc h (l1 ++ p :: l2)) as [Ehd Hcyc].
  { destruct l1; by destruct Hring. }
  apply cyc_rotate in Hcyc. cbn [app] in Hcyc.
  assert (Hl : live h p) by apply Hcyc.
  assert (Hnd' : NoDup (p :: l2 ++ l1)).
  { assert (p :: l2 ++ l1 ≡ₚ l1 ++ p :: l2) as -> by (by rewrite (Permutation_app_comm l1)). done. }
  unfold REMOVE_ENTRY. rewrite deref_live by done. cbn [mbind res_bind].
  destruct (decide (l2 ++ l1 = [])) as [E|Hne].
  - apply app_eq_nil in E as [-> ->]. destruct Hcyc as (_ & _ & -> & _). cbn [hd].
    rewrite Z.eqb_refl. exists h, 0. split_and!; done.
  - destruct (cyc_pop h p (l2 ++ l1) Hne Hnd' Hcyc) as (Ef & Eb & Hcyc').
    set (f := fore (ent h p)) in *. set (b := back (ent h p)) in *.
    apply NoDup_cons in Hnd' as [Hp _].
    assert (Hin : ∀ q, q ∈ l2 ++ l1 ↔ q ∈ l1 ++ l2) by set_solver.
    assert (Hff : f ∈ l2 ++ l1) by (rewrite Ef; destruct (l2 ++ l1); [done|by left]).
    assert (Hbb : b ∈ l2 ++ l1).
    { rewrite Eb. destruct (l2 ++ l1); [done|]. rewrite last_cons_default. apply last_elem_of. }
    assert (Hlq : ∀ q, q ∈ l2 ++ l1 → live h q).
    { intros q Hq. eapply dseg_live; [exact Hcyc|]. by right. }
    rewrite (proj2 (Z.eqb_neq p f)) by (intros E; apply Hp; by rewrite E).
    rewrite modify_live by auto. cbn [mbind res_bind].
    rewrite modify_live by auto with mruby. cbn [mbind res_bind].
    assert ((if p =? head t then set_head f t else t) = set_head (hd 0 (l1 ++ l2)) t) as ->.
    { rewrite Ehd. destruct l1 as [|q l1]; cbn [app hd].
      - rewrite Z.eqb_refl. by rewrite Ef, app_nil_r.
      - assert (p ≠ q) by (intros ->; apply Hp; set_solver).
        rewrite (proj2 (Z.eqb_neq p q)) by done. cbn [app hd] in Ehd. rewrite <- Ehd. by destruct t. }
    eexists _, (hd 0 (l1 ++ l2)). split; [done|].
    split_and!.
    + apply cyc_rotate in Hcyc'. by destruct l1, l2.
    + auto 10 with mruby.
    + intros y. by rewrite data_set_fore, data_set_back.
    + intros y Hy. rewrite <- Hin in Hy. rewrite !lookup_insert_ne; [done|..]; by intros <-.
Qed.

(** Unlinking an entry from its chain and from the ring, and freeing it. *)
Lemma chained_remove h t l1 p l2 x c1 c2 :
  let i := hash (ent h p) mod num_bins t in
  chained h t (l1 ++ p :: l2) →
  zlookup (bins t) i = Some x → chain h x (c1 ++ p :: c2) →
  ∃ h1 t1 h2 t2, write_slot h t (slot_after i c1) (next (ent h p)) = Ok (h1, t1) ∧
    REMOVE_ENTRY h1 t1 p = Ok (h2, t2) ∧ live h2 p ∧ data (ent h2 p) = data (ent h p) ∧
    chained (delete p h2) t2 (l1 ++ l2) ∧ content (delete p h2) (l1 ++ l2) = content h (l1 ++ l2) ∧
    type t2 = type t ∧ framed h (l1 ++ p :: l2) (delete p h2) (l1 ++ l2) ∧
    head t2 = hd 0 (l1 ++ l2).
Proof.
  intros i Hc Hx Hch. pose proof (ch_nodup _ _ _ Hc) as Hnd. pose proof (ch_nb _ _ _ Hc) as Hnb.
  assert (Hlp : live h p) by (eapply chained_live; [done|set_solver]).
  destruct (unlink_spec h t l1 p l2 x c1 c2) as (h1 & b1 & Hw & Hb1 & Hrel);
    [apply Hc|done|lia|done|done|].
  destruct (REMOVE_ENTRY_spec h1 (set_bins b1 t) l1 p l2) as
    (h2 & hd' & Hrm & Hring & Hlive & Hdata & Hfr);
    [eapply relinked_ring; [done|apply Hc]|done|].
  pose proof Hrel as (R1 & R2 & R3).
  assert (Hp12 : p ∉ l1 ++ l2).
  { intros Hin. by apply (elem_of_remove_middle _ _ _ _ Hnd) in Hin as [_ ?]. }
  assert (Hlq : ∀ q, q ∈ l1 ++ l2 → live (delete p h2) q ∧ ent (delete p h2) q = ent h2 q).
  { intros q Hq. assert (p ≠ q) by (by intros ->). rewrite ent_delete_ne by done. split; [|done].
    apply live_delete; [done|]. apply Hlive, R1. eapply chained_live; [done|].
    apply (elem_of_remove_middle _ _ _ _ Hnd) in Hq. tauto. }
  assert (Hd2 : ∀ y, hash (ent h2 y) = hash (ent h y) ∧ key (ent h2 y) = key (ent h y) ∧
     record (ent h2 y) = record (ent h y) ∧ next (ent h2 y) = next (ent h1 y)).
  { intros y. specialize (Hdata y). unfold data in Hdata. injection Hdata as -> -> -> ->.
    by destruct (same_but_next_fields _ _ (R2 y)) as (-> & -> & -> & _). }
  eexists h1, (set_bins b1 t), h2, _. split_and!; [done|exact Hrm|by apply Hlive, R1| | | |done| |].
  - unfold data. destruct (Hd2 p) as (-> & -> & -> & ->).
    assert (ent h1 p = ent h p) as -> by (unfold ent; by rewrite R3). done.
  - split; simpl; [apply Hc|lia| | | | |].
    + rewrite (ch_num _ _ _ Hc), !zlen_app, zlen_cons.
      pose proof (zlen_nonneg l1). pose proof (zlen_nonneg l2).
      pose proof (ch_max _ _ _ Hc) as Hmax. rewrite zlen_app, zlen_cons in Hmax.
      unfold u63, st_max_entries in *. rewrite Z.mod_small; lia.
    + apply NoDup_app in Hnd as (? & Hdis & [_ ?]%NoDup_cons). apply NoDup_app.
      split_and!; [done| |done]. intros q Hq1 Hq2. apply (Hdis q Hq1). by right.
    + destruct (l1 ++ l2) as [|q qs] eqn:E; [done|]. destruct Hring as [-> Hcyc]. split; [done|].
      eapply dseg_frame; [|exact Hcyc]. intros y Hy. by destruct (Hlq y Hy) as [? ->].
    + eapply bins_ok_frame; [|exact Hb1]. intros y Hy. destruct (Hlq y Hy) as [? ->].
      destruct (Hd2 y) as (-> & _ & _ & ->).
      by destruct (same_but_next_fields _ _ (R2 y)) as (-> & _).
    + intros y Hy. destruct (Hlq y Hy) as [_ ->]. destruct (Hd2 y) as (-> & -> & _).
      apply Hc. apply (elem_of_remove_middle _ _ _ _ Hnd) in Hy. tauto.
  - apply content_frame. intros y Hy. destruct (Hlq y Hy) as [_ ->].
    destruct (Hd2 y) as (_ & -> & -> & _). done.
  - split.
    + intros y e Hy He. assert (y ∉ l1 ++ l2) by set_solver.
      rewrite lookup_delete_ne by set_solver. by rewrite Hfr, R3.
    + intros q Hq. left. set_solver.
  - simpl. by destruct (l1 ++ l2); [|destruct Hring].
Qed.

Lemma read_slot_after h t i x c1 c2 :
  zlookup (bins t) i = Some x → chain h x (c1 ++ c2) →
  read_slot h t (slot_after i c1) = Ok (hd 0 c2).
Proof.
  intros Hx Hch. unfold slot_after. destruct c1 as [|q c1 _] using rev_ind; simpl.
  - apply aload_ok. rewrite Hx. simpl in Hch. destruct c2; simpl in *; [by subst|by destruct Hch as [-> _]].
  - rewrite last_snoc. simpl.
    assert (live h q ∧ next (ent h q) = hd 0 c2) as [Hl E].
    { clear Hx. revert x Hch. induction c1 as [|y c1 IH]; intros x; cbn [app chain].
      - intros (-> & Hl & Hch). split; [done|]. destruct c2; simpl in *; tauto.
      - intros (_ & _ & Hch). by eapply IH. }
    by rewrite deref_live, <- E.
Qed.

(** The walk of [st_delete] from the slot after [c1]. *)
Lemma delete_walk_spec fuel h t ps k x c1 c2 `{!HashTypeLaws (type t)} :
  let i := do_hash (type t) k mod num_bins t in
  chained h t ps → distinct (type t) (content h ps) →
  zlookup (bins t) i = Some x → chain h x (c1 ++ c2) →
  (∀ p, p ∈ c1 ++ c2 → p ∈ ps) → (length c2 < fuel)%nat →
  (∃ p, p ∈ c2 ∧ EQUAL (type t) k (key (ent h p)) = true ∧
     ∃ h' t' l1 l2, ps = l1 ++ p :: l2 ∧
       delete_walk fuel h t (slot_after i c1) k =
         Ok (Some (key (ent h p), record (ent h p)), h', t') ∧
       chained h' t' (l1 ++ l2) ∧ content h' (l1 ++ l2) = content h (l1 ++ l2) ∧
       type t' = type t ∧ framed h ps h' (l1 ++ l2)) ∨
  ((∀ p, p ∈ c2 → EQUAL (type t) k (key (ent h p)) = false) ∧
   delete_walk fuel h t (slot_after i c1) k = Ok (None, h, t)).
Proof.
  intros i Hc Hd Hx. revert c1 c2. induction fuel as [|fuel IH]; intros c1 c2 Hch Hin Hf; [lia|].
  cbn [delete_walk]. rewrite (read_slot_after _ _ _ _ _ _ Hx Hch). cbn [mbind res_bind].
  destruct c2 as [|p c2]; cbn [hd].
  - right. split; [by intros ? ?%not_elem_of_nil|]. done.
  - assert (Hp : p ∈ ps) by (apply Hin; set_solver).
    assert (Hlp : live h p) by (by eapply chained_live).
    rewrite (proj2 (Z.eqb_neq p 0)) by apply Hlp. rewrite deref_live by done. cbn [mbind res_bind].
    destruct (EQUAL (type t) k (key (ent h p))) eqn:Ek.
    + left. exists p. split; [by left|]. split; [done|].
      pose proof Hp as (l1 & l2 & Eps)%list_elem_of_split.
      assert (Ei : hash (ent h p) mod num_bins t = i).
      { rewrite (ch_hash _ _ _ Hc p Hp), <- (equal_hash _ _ Ek). done. }
      rewrite Eps in Hc.
      destruct (chained_remove h t l1 p l2 x c1 c2) as
        (h1 & t1 & h2 & t2 & Hw & Hrm & Hl2 & Hdata & Hc' & Ec & Ety & Hfr & _);
        [done|by rewrite Ei|done|].
      rewrite Ei in Hw. rewrite Hw. cbn [mbind res_bind]. rewrite Hrm. cbn [mbind res_bind].
      rewrite deref_live by done. cbn [mbind res_bind]. rewrite free_live by done. cbn [mbind res_bind].
      unfold data in Hdata. injection Hdata as _ -> -> _.
      exists (delete p h2), t2, l1, l2. rewrite <- Eps in Hfr. by split_and!.
    + destruct (IH (c1 ++ [p]) c2) as [(q & Hq & Hres)|[Hno Hres]].
      * by rewrite <- app_assoc.
      * by rewrite <- app_assoc.
      * simpl in Hf. lia.
      * left. exists q. split; [by right|]. unfold slot_after in Hres. rewrite last_snoc in Hres. done.
      * right. split; [intros q [->|Hq]%elem_of_cons; auto|].
        unfold slot_after in Hres. rewrite last_snoc in Hres. done.
Qed.

Lemma flat_take_drop l1 kv l2 rest :
  take (Z.to_nat (zlen l1 * 2)) (flat (l1 ++ kv :: l2) ++ rest) = flat l1 ∧
  drop (Z.to_nat ((zlen l1 + 1) * 2)) (flat (l1 ++ kv :: l2) ++ rest) = flat l2 ++ rest.
Proof.
  pose proof (flat_length l1) as Hl. split.
  - rewrite flat_app, <- app_assoc. apply take_app_length'. unfold zlen in *. lia.
  - replace (flat (l1 ++ kv :: l2) ++ rest) with (flat (l1 ++ [kv]) ++ flat l2 ++ rest)
      by (by rewrite !flat_app, <- !app_assoc).
    apply drop_app_length'. pose proof (flat_length (l1 ++ [kv])) as Hl'.
    rewrite zlen_app, zlen_cons, zlen_nil in Hl'. unfold zlen in *. lia.
Qed.

(** The [memmove] of the packed deletions closes the gap. *)
Lemma packed_remove_spec t l1 kv l2 :
  packed t (l1 ++ kv :: l2) →
  ∃ t', packed_remove t (zlen l1) = Ok t' ∧ packed t' (l1 ++ l2) ∧ type t' = type t.
Proof.
  intros [? ? ? Hn Hm Hlen Hfit [rest Er] ?]. unfold packed_remove. rewrite Hn.
  rewrite zlen_app, zlen_cons in *. pose proof (zlen_nonneg l1). pose proof (zlen_nonneg l2).
  unfold MAX_PACKED_NUMHASH in *. unfold u63. rewrite Z.mod_small by lia.
  rewrite (proj2 (Z.leb_le _ _)), (proj2 (Z.leb_le _ _)) by lia. cbn [andb check mbind res_bind].
  eexists. split; [done|]. split; [|done]. rewrite Er.
  destruct (flat_take_drop l1 kv l2 rest) as [-> ->].
  pose proof (flat_length l2) as Hl2. pose proof (flat_length l1) as Hl1.
  rewrite take_app_length' by (unfold zlen in *; lia).
  split; cbn; try done; rewrite ?zlen_app; try (unfold MAX_PACKED_NUMHASH; lia).
  - rewrite <- Hlen, Er. unfold zlen in *.
    rewrite length_drop, !length_app. pose proof (flat_length (l1 ++ kv :: l2)) as Hl.
    unfold zlen in Hl. rewrite length_app in Hl. simpl in Hl. rewrite Er, length_app in Hlen. lia.
  - eexists. by rewrite (flat_app l1 l2), <- app_assoc.
Qed.

(** ** [st_delete] refines removal from the list *)

Lemma st_delete_spec h t ps l k `{!HashTypeLaws (type t)} :
  st_rep h t ps l →
  ∃ h' t' ps', st_delete h t k = Ok (a_find (type t) k l, h', t') ∧
    st_rep h' t' ps' (a_delete (type t) k l) ∧ type t' = type t ∧ framed h ps h' ps'.
Proof.
  intros (Hd & [[Hp ->]|[Hc Hcont]]); unfold st_delete.
  - rewrite (pk_packed _ _ Hp).
    destruct (find_packed_spec t l k Hp) as [[-> Hf]|(l1 & v0 & l2 & -> & -> & Hn)];
      cbn [mbind res_bind].
    + rewrite Hf, a_delete_None by done. exists h, t, [].
      split_and!; [done|by apply st_rep_packed|done|apply framed_refl].
    + destruct (packed_bins_load _ _ _ _ Hp) as [_ ->]. cbn [mbind res_bind].
      destruct (packed_remove_spec t l1 (k, v0) l2 Hp) as (t' & -> & Hp' & Ety). cbn [mbind res_bind].
      destruct (a_find_middle (type t) k l1 (k, v0) l2 Hd (equal_refl _ _)) as (-> & _ & _ & ->).
      exists h, t', []. split_and!; [done| |done|apply framed_refl].
      apply st_rep_packed; [done|]. rewrite Ety. by eapply distinct_remove.
  - subst l. rewrite (ch_packed _ _ _ Hc). pose proof (ch_nb _ _ _ Hc) as Hnb.
    rewrite cmod_ok by lia. cbn [mbind res_bind].
    set (i := do_hash (type t) k mod num_bins t).
    destruct (proj2 (ch_bins _ _ _ Hc) i) as (x & c & Hx & Hch & Hm); [apply Z.mod_pos_bound; lia|].
    destruct (delete_walk_spec (chain_fuel h) h t ps k x [] c Hc Hd Hx Hch) as
      [(p & Hp & Ek & h' & t' & l1 & l2 & -> & He & Hc' & Ec' & Ety & Hfr)|[Hno He]].
    + intros p Hp. by apply Hm.
    + apply chain_length in Hch. unfold chain_fuel. lia.
    + exists h', t', (l1 ++ l2). rewrite content_app in Hd |- *. cbn [content map] in Hd |- *.
      destruct (a_find_middle (type t) k _ (key (ent h p), record (ent h p)) _ Hd Ek) as (-> & _ & _ & ->).
      split_and!; [exact He| |done|done].
      apply st_rep_chained; [done|by rewrite Ec', content_app|].
      rewrite Ety. by eapply distinct_remove.
    + assert (a_find (type t) k (content h ps) = None) as Hf.
      { apply a_find_None. intros kv (p & -> & Hp)%list_elem_of_fmap. cbn [fst].
        destruct (EQUAL (type t) k (key (ent h p))) eqn:Ek; [|done].
        rewrite <- Ek. symmetry. rewrite Hno in Ek; [done|]. apply Hm. split; [done|].
        rewrite (ch_hash _ _ _ Hc p Hp), <- (equal_hash _ _ Ek). done. }
      rewrite Hf, a_delete_None by done. exists h, t, ps.
      split_and!; [exact He|by apply st_rep_chained|done|apply framed_refl].
Qed.
