(* ===== verification/StIter.v ===== *)
(** Iterations and copies of tables: creation, clearing, iteration with callbacks, then copies and what they share. *)

(** * The hash table of st.c: creation, clearing and iteration *)

From S2P Require Import Prelude St StRep StSpec StOps.

(** ** Creation *)

Lemma Calloc_ok n : 0 ≤ n < 2 ^ 31 → Calloc n = Ok (replicate (Z.to_nat n) 0).
Proof.
  intros Hn. unfold Calloc, ruby_xmalloc2. rewrite (u64_small n), u64_small by lia.
  destruct (Z.eqb_spec n 0); [done|]. cbn [negb andb].
  by rewrite Z.div_mul, Z.eqb_refl by done.
Qed.

Lemma st_init_spec h ty size :
  0 ≤ size < 2 ^ 30 →
  ∃ t, st_init_table_with_size ty size = Ok t ∧ type t = ty ∧ st_rep h t [] [].
Proof.
  intros Hs. unfold st_init_table_with_size. pose proof (new_size_bounds size Hs).
  rewrite Calloc_ok by lia. cbn [mbind res_bind]. eexists. split_and!; [done|done|].
  rewrite u64_small by lia. split; [done|].
  destruct (is_numhash ty && _) eqn:E; [left|right].
  - apply andb_true_iff in E as [E _]. split; [|done].
    split; cbn [entries_packed type num_bins num_entries bins head];
      rewrite ?zlen_replicate, ?zlen_nil; unfold MAX_PACKED_NUMHASH; [..|by eexists|done]; try lia.
    by destruct ty.
  - split; [|done]. split; cbn; [done|lia|by split|constructor|done| |by intros ? ?%not_elem_of_nil].
    apply bins_ok_nil. lia.
Qed.

(** ** Clearing *)

Lemma free_chain_spec fuel h x c :
  chain h x c → (length c < fuel)%nat →
  ∃ h', free_chain fuel h x = Ok h' ∧ ∀ y, h' !! y = if decide (y ∈ c) then None else h !! y.
Proof.
  revert h x c. induction fuel as [|fuel IH]; intros h x c Hch Hf; [lia|]. cbn [free_chain].
  destruct c as [|p c].
  - simpl in Hch. subst x. exists h. split; [done|]. intros y.
    rewrite decide_False by (by apply not_elem_of_nil). done.
  - pose proof (chain_NoDup _ _ _ Hch) as [Hp Hnd]%NoDup_cons. destruct Hch as (-> & Hl & Hch).
    rewrite (proj2 (Z.eqb_neq p 0)) by apply Hl. rewrite deref_live by done. cbn [mbind res_bind].
    rewrite free_live by done. cbn [mbind res_bind].
    destruct (IH (delete p h) (next (ent h p)) c) as (h' & -> & Hh').
    + eapply chain_frame; [|exact Hch]. intros q Hq. assert (p ≠ q) by (by intros ->).
      rewrite ent_delete_ne by done. split; [|done]. apply live_delete; [done|].
      by eapply chain_live.
    + simpl in Hf. lia.
    + exists h'. split; [done|]. intros y. rewrite Hh'. destruct (decide (y = p)) as [->|].
      * rewrite lookup_delete_eq. rewrite (decide_True (P:=p ∈ p :: c)) by (by left).
        by case_decide.
      * rewrite lookup_delete_ne by done. apply decide_ext. rewrite elem_of_cons. tauto.
Qed.

(** State of the clearing loop before bin [i]: the entries of the bins below
    are freed, all others are as they were. *)
Definition clear_inv (h0 : heap) (t : st_table) (ps : list Z) (i : Z) (s : heap * list Z) : Prop :=
  zlen s.2 = num_bins t ∧
  (∀ j, 0 ≤ j < num_bins t → zlookup s.2 j = if j <? i then Some 0 else zlookup (bins t) j) ∧
  (∀ y, s.1 !! y = if decide (y ∈ ps ∧ hash (ent h0 y) mod num_bins t < i) then None else h0 !! y).

Lemma clear_step h t ps i s :
  chained h t ps → 0 ≤ i < num_bins t → clear_inv h t ps i s →
  returns (let '(h, b) := s in
           ptr ← aload b i; b ← astore b i 0;
           h ← free_chain (chain_fuel h) h ptr; Ok (h, b)) (clear_inv h t ps (i + 1)).
Proof.
  intros Hc Hi (Hlen & Hb & Hh). destruct s as [h1 b]. cbn [fst snd] in *.
  destruct (proj2 (ch_bins _ _ _ Hc) i Hi) as (x & c & Hx & Hch & Hm).
  assert (zlookup b i = Some x) as Hbx.
  { rewrite Hb by done. by destruct (Z.ltb_spec i i); [lia|]. }
  rewrite (proj2 (aload_ok _ _ _) Hbx). cbn [mbind res_bind]. rewrite astore_ok by lia.
  cbn [mbind res_bind].
  assert (Hsame : ∀ q, q ∈ c → h1 !! q = h !! q).
  { intros q [Hq E]%Hm. rewrite Hh. rewrite decide_False; [done|]. lia. }
  assert (Hch1 : chain h1 x c).
  { eapply chain_frame; [|exact Hch]. intros q Hq. unfold live, ent. rewrite Hsame by done.
    split; [|done]. by eapply chain_live. }
  destruct (free_chain_spec (chain_fuel h1) h1 x c Hch1) as (h' & -> & Hh').
  { apply chain_length in Hch1. unfold chain_fuel. lia. }
  apply returns_ret. unfold clear_inv. cbn [fst snd]. split_and!.
  - by rewrite zlen_insert.
  - intros j Hj. rewrite zlookup_insert by lia. rewrite Hb by done.
    case_decide as Hij.
    + subst j. destruct (Z.ltb_spec i (i + 1)); done || lia.
    + destruct (Z.ltb_spec j i), (Z.ltb_spec j (i + 1)); done || lia.
  - intros y. rewrite Hh', Hh. destruct (decide (y ∈ c)) as [Hy|Hy].
    + apply Hm in Hy as [Hyp E]. rewrite decide_True; [done|]. split; [done|lia].
    + apply decide_ext. split; intros [Hyp E]; (split; [done|lia || idtac]).
      assert (hash (ent h y) mod num_bins t ≠ i) by (intros E'; apply Hy, Hm; done). lia.
Qed.

Lemma st_clear_spec h t ps l :
  st_rep h t ps l →
  ∃ h' t', st_clear h t = Ok (h', t') ∧ st_rep h' t' [] [] ∧ type t' = type t ∧
    (∀ p, p ∈ ps → h' !! p = None) ∧ (∀ y, y ∉ ps → h' !! y = h !! y).
Proof.
  intros (Hd & [[Hp ->]|[Hc Hcont]]); unfold st_clear.
  - rewrite (pk_packed _ _ Hp). eexists _, _. split; [done|].
    split_and!; [|done|by intros ? ?%not_elem_of_nil|done].
    apply st_rep_packed; [|done].
    destruct Hp as [? ? ? ? ? ? ? [rest Er] ?]. split; cbn; rewrite ?zlen_nil; try done; try lia.
    by exists (bins t).
  - rewrite (ch_packed _ _ _ Hc). pose proof (ch_nb _ _ _ Hc) as Hnb.
    destruct (for_range_inv (clear_inv h t ps) 0 (num_bins t)
      (λ i '(h, b), ptr ← aload b i; b ← astore b i 0;
         h ← free_chain (chain_fuel h) h ptr; Ok (h, b)) (h, bins t)) as ([h' b'] & -> & Hlen & Hb & Hh).
    + lia.
    + split_and!; cbn [fst snd]; [apply Hc|..].
      * intros j Hj. by destruct (Z.ltb_spec j 0); [lia|].
      * intros y. rewrite decide_False; [done|]. intros [_ ?].
        pose proof (Z.mod_pos_bound (hash (ent h y)) (num_bins t)). lia.
    + intros i s Hi Hs. by apply clear_step.
    + cbn [mbind res_bind]. eexists _, _. split; [done|]. cbn [fst snd] in *.
      assert (∀ y, h' !! y = if decide (y ∈ ps) then None else h !! y) as Hh2.
      { intros y. rewrite Hh. apply decide_ext. split; [tauto|]. intros. split; [done|].
        apply Z.mod_pos_bound. lia. }
      assert (b' = replicate (Z.to_nat (num_bins t)) 0) as ->.
      { apply zlist_eq; [rewrite zlen_replicate; lia|]. intros j Hj. rewrite Hb by lia.
        destruct (Z.ltb_spec j (num_bins t)); [|lia].
        rewrite zlookup_nonneg by lia. symmetry. apply lookup_replicate_2. lia. }
      split_and!; [|done|intros p Hp; rewrite Hh2; by rewrite decide_True
                      |intros y Hy; rewrite Hh2; by rewrite decide_False].
      apply st_rep_chained with (l := []); [|done|done].
      split; cbn; [apply Hc|lia|by split|constructor|done| |by intros ? ?%not_elem_of_nil].
      apply bins_ok_nil. lia.
Qed.

(** ** Finding an entry on its chain and on the ring *)

Lemma on_chain_spec fuel h x c1 p c2 :
  chain h x (c1 ++ p :: c2) → (length c1 < fuel)%nat → on_chain fuel h x p = Ok true.
Proof.
  revert x c1. induction fuel as [|fuel IH]; intros x c1 Hch Hf; [lia|]. cbn [on_chain].
  destruct c1 as [|y c1]; cbn [app] in Hch.
  - destruct Hch as [-> _]. by rewrite Z.eqb_refl.
  - pose proof (chain_NoDup _ _ _ Hch) as [Hy _]%NoDup_cons. destruct Hch as (-> & Hl & Hch).
    rewrite (proj2 (Z.eqb_neq y p)) by set_solver. rewrite (proj2 (Z.eqb_neq y 0)) by apply Hl.
    rewrite deref_live by done. cbn [mbind res_bind]. apply IH with (c1 := c1); [done|].
    simpl in Hf. lia.
Qed.

Lemma find_slot_spec fuel h t i x c0 c1 p c2 :
  zlookup (bins t) i = Some x → chain h x (c0 ++ c1 ++ p :: c2) → (length c1 < fuel)%nat →
  find_slot fuel h t (slot_after i c0) p = Ok (Some (slot_after i (c0 ++ c1))).
Proof.
  intros Hx. revert c0 c1. induction fuel as [|fuel IH]; intros c0 c1 Hch Hf; [lia|].
  cbn [find_slot]. rewrite (read_slot_after _ _ _ _ _ _ Hx Hch). cbn [mbind res_bind].
  destruct c1 as [|y c1]; cbn [app hd].
  - assert (live h p) as Hl by (eapply chain_live; [exact Hch|set_solver]).
    rewrite (proj2 (Z.eqb_neq p 0)) by apply Hl. by rewrite Z.eqb_refl, app_nil_r.
  - assert (live h y) as Hl by (eapply chain_live; [exact Hch|set_solver]).
    rewrite (proj2 (Z.eqb_neq y 0)) by apply Hl.
    assert (p ≠ y).
    { apply chain_NoDup in Hch. apply NoDup_app in Hch as (_ & _ & [Hy _]%NoDup_cons). set_solver. }
    rewrite (proj2 (Z.eqb_neq p y)) by done.
    specialize (IH (c0 ++ [y]) c1). rewrite <- !app_assoc in IH. cbn [app] in IH.
    unfold slot_after in IH at 1. rewrite last_snoc in IH. apply IH; [done|]. simpl in Hf. lia.
Qed.

(** Where an entry of the table sits in its chain. *)
Lemma chained_locate h t ps p :
  chained h t ps → p ∈ ps →
  ∃ x c1 c2, zlookup (bins t) (hash (ent h p) mod num_bins t) = Some x ∧
    chain h x (c1 ++ p :: c2) ∧ (length c1 < chain_fuel h)%nat.
Proof.
  intros Hc Hp. pose proof (ch_nb _ _ _ Hc).
  destruct (proj2 (ch_bins _ _ _ Hc) (hash (ent h p) mod num_bins t)) as (x & c & Hx & Hch & Hm).
  { apply Z.mod_pos_bound. lia. }
  assert (p ∈ c) as (c1 & c2 & ->)%list_elem_of_split by (by apply Hm).
  exists x, c1, c2. split_and!; [done..|]. apply chain_length in Hch.
  rewrite length_app in Hch. unfold chain_fuel. simpl in Hch. lia.
Qed.

Lemma chained_fore h t l1 p l2 :
  chained h t (l1 ++ p :: l2) →
  head t ≠ 0 ∧ head t = hd p l1 ∧ fore (ent h p) = hd (head t) l2 ∧
  (fore (ent h p) =? head t) = match l2 with [] => true | _ => false end.
Proof.
  intros Hc. pose proof (ch_nodup _ _ _ Hc) as Hnd.
  assert (head t = hd 0 (l1 ++ p :: l2) ∧ cyc h (l1 ++ p :: l2)) as [Ehd Hcyc].
  { pose proof (ch_ring _ _ _ Hc) as Hring. destruct l1; by destruct Hring. }
  assert (Hin : head t ∈ l1 ++ [p]) by (rewrite Ehd; destruct l1; by left).
  assert (Ehd' : head t = hd p l1) by (rewrite Ehd; by destruct l1).
  assert (head t ≠ 0).
  { assert (live h (head t)) as [? _]; [|done]. eapply chained_live; [done|set_solver]. }
  unfold cyc in Hcyc. rewrite <- Ehd, dseg_app in Hcyc. destruct Hcyc as [_ (_ & _ & Ef & _)].
  split_and!; [done|done|done|]. rewrite Ef. destruct l2 as [|y l2]; cbn [hd]; [apply Z.eqb_refl|].
  apply Z.eqb_neq. intros ->. replace (l1 ++ p :: head t :: l2) with ((l1 ++ [p]) ++ head t :: l2) in Hnd
    by (by rewrite <- app_assoc).
  apply NoDup_app in Hnd as (_ & Hdis & _). apply (Hdis _ Hin). by left.
Qed.

(** ** Iteration with a callback that leaves the table alone

    The callback may keep a state of its own and chooses what happens to the
    binding by its return value. *)

Section foreach.
Context {U : Type}.
Context (func : Z → Z → Z → bool → U * heap * st_table → res (st_retval * (U * heap * st_table))).
Context (arg : Z) (ret : Z → Z → U → st_retval) (upd : Z → Z → U → U).
Hypothesis func_pure : ∀ k v u h t,
  func k v arg false (u, h, t) = Ok (ret k v u, (upd k v u, h, t)).

(** What iteration does to the list: visits the bindings in order until the
    callback stops it, and drops the ones it asks to delete. *)
Fixpoint a_foreach (u : U) (l : list (Z * Z)) : U * list (Z * Z) :=
  match l with
  | [] => (u, [])
  | (k, v) :: l' =>
      let u' := upd k v u in
      match ret k v u with
      | ST_STOP => (u', (k, v) :: l')
      | ST_DELETE => a_foreach u' l'
      | ST_CONTINUE | ST_CHECK => let '(u'', l'') := a_foreach u' l' in (u'', (k, v) :: l'')
      end
  end.

Lemma chained_check_spec u h t ps p :
  chained h t ps → p ∈ ps → chained_check func arg p (u, h, t) = Ok (Continue, (u, h, t)).
Proof.
  intros Hc Hp. pose proof (ch_nb _ _ _ Hc). unfold chained_check.
  rewrite deref_live by (by eapply chained_live). cbn [mbind res_bind].
  rewrite cmod_ok by lia. cbn [mbind res_bind].
  destruct (chained_locate h t ps p Hc Hp) as (x & c1 & c2 & Hx & Hch & Hlen).
  rewrite (proj2 (aload_ok _ _ _) Hx). cbn [mbind res_bind].
  by rewrite (on_chain_spec _ _ _ _ _ _ Hch Hlen).
Qed.

(** The loop over the ring, at the entry after [l1]. *)
Lemma foreach_ring_spec fuel u h t l1 p l2 :
  chained h t (l1 ++ p :: l2) → (length l2 < fuel)%nat →
  let '(u', rest) := a_foreach u (content h (p :: l2)) in
  ∃ h' t' ps', iter fuel (λ '(ptr, st), foreach_step func arg ptr st) (p, (u, h, t)) =
      Ok (0, (u', h', t')) ∧
    chained h' t' ps' ∧ content h' ps' = content h l1 ++ rest ∧ type t' = type t ∧
    framed h (l1 ++ p :: l2) h' ps'.
Proof.
  revert u h t l1 p l2. induction fuel as [|fuel IH]; intros u h t l1 p l2 Hc Hf; [lia|].
  assert (Hp : p ∈ l1 ++ p :: l2) by set_solver.
  assert (Hl : live h p) by (by eapply chained_live).
  destruct (chained_fore h t l1 p l2 Hc) as (Hh0 & Ehd & Ef & Efin).
  pose proof (ch_nb _ _ _ Hc) as Hnb.
  set (stp := λ '(ptr, st), foreach_step func arg ptr st) in *.
  cbn [iter a_foreach content map]. fold (content h l2).
  change (stp (p, (u, h, t))) with (foreach_step func arg p (u, h, t)). unfold foreach_step.
  rewrite deref_live by done. cbn [mbind res_bind]. rewrite func_pure. cbn [mbind res_bind].
  rewrite Efin. set (kv := (key (ent h p), record (ent h p))). set (u1 := upd _ _ u).
  (* the two ways to go on with the next entry *)
  assert (Hadvance :
    let '(u', rest) := a_foreach u1 (content h l2) in
    ∃ h' t' ps',
      (r ← (e ← deref h p;
         if negb (match l2 with [] => true | _ => false end) && negb (head t =? 0)
         then Ok (inl (fore e, (u1, h, t))) else Ok (inr (0, (u1, h, t))));
       match r with
       | inl s' => iter fuel stp s'
       | inr a => Ok a
       end) = Ok (0, (u', h', t')) ∧
      chained h' t' ps' ∧ content h' ps' = content h l1 ++ kv :: rest ∧ type t' = type t ∧
      framed h (l1 ++ p :: l2) h' ps').
  { rewrite deref_live by done. cbn [mbind res_bind]. destruct l2 as [|q l2].
    - cbn. exists h, t, (l1 ++ [p]). split_and!; [done|done| |done|apply framed_refl].
      by rewrite content_app.
    - rewrite (proj2 (Z.eqb_neq (head t) 0)) by done. cbn [negb andb mbind res_bind].
      rewrite Ef. cbn [hd]. specialize (IH u1 h t (l1 ++ [p]) q l2). rewrite <- app_assoc in IH.
      destruct (a_foreach u1 (content h (q :: l2))) as [u' rest]. cbn [app] in IH.
      destruct IH as (h' & t' & ps' & E & Hc' & Ec & Ety & Hfr); [done|simpl in Hf; lia|].
      exists h', t', ps'. rewrite content_app, <- app_assoc in Ec. by split_and!. }
  destruct (ret _ _ u) eqn:Eret.
  - destruct (a_foreach u1 (content h l2)) as [u' rest]. exact Hadvance.
  - exists h, t, (l1 ++ p :: l2). split_and!; [done|done| |done|apply framed_refl].
    by rewrite content_app.
  - rewrite deref_live by done. cbn [mbind res_bind]. rewrite cmod_ok by lia. cbn [mbind res_bind].
    destruct (chained_locate h t _ p Hc Hp) as (x & c1 & c2 & Hx & Hch & Hlen).
    pose proof (find_slot_spec (chain_fuel h) h t _ x [] c1 p c2 Hx Hch Hlen) as Hfs.
    cbn [slot_after last app] in Hfs. rewrite Hfs. cbn [mbind res_bind].
    destruct (chained_remove h t l1 p l2 x c1 c2 Hc Hx Hch) as
      (h1 & t1 & h2 & t2 & -> & Hrm & Hl2 & _ & Hc2 & Ec2 & Ety & Hfr & Ehd2).
    cbn [mbind res_bind]. rewrite Hrm. cbn [mbind res_bind]. rewrite free_live by done.
    cbn [mbind res_bind]. destruct l2 as [|q l2].
    + rewrite app_nil_r in *. cbn [a_foreach content map]. rewrite app_nil_r.
      exists (delete p h2), t2, l1. split_and!; [|done..]. by destruct (p =? _).
    + assert (p ≠ q).
      { intros ->. pose proof (ch_nodup _ _ _ Hc) as Hnd.
        apply NoDup_app in Hnd as (_ & _ & [Hq _]%NoDup_cons). apply Hq. by left. }
      rewrite Ef. cbn [hd]. rewrite (proj2 (Z.eqb_neq p q)) by done. cbn [snd].
      assert (head t2 ≠ 0).
      { rewrite Ehd2. assert (live (delete p h2) (hd 0 (l1 ++ q :: l2))) as [? _]; [|done].
        eapply chained_live; [done|]. destruct l1; by left. }
      rewrite (proj2 (Z.eqb_neq (head t2) 0)) by done. cbn [negb andb mbind res_bind].
      specialize (IH u1 (delete p h2) t2 l1 q l2 Hc2).
      rewrite !content_app in Ec2. apply app_inj_1 in Ec2 as [Ec2a Ec2b];
        [|unfold content; by rewrite !length_map].
      rewrite Ec2b in IH. destruct (a_foreach u1 _) as [u' rest].
      destruct IH as (h' & t' & ps' & E & Hc' & Ec & Ety' & Hfr'); [simpl in Hf; lia|].
      exists h', t', ps'. rewrite Ec2a in Ec.
      split_and!; [done|done|done|congruence|by eapply framed_trans].
  - rewrite (chained_check_spec u1 h t _ p Hc Hp). cbn [mbind res_bind].
    destruct (a_foreach u1 (content h l2)) as [u' rest]. exact Hadvance.
Qed.

Lemma foreach_packed_spec fuel u h t l1 l2 :
  packed t (l1 ++ l2) → distinct (type t) (l1 ++ l2) → (length l2 < fuel)%nat →
  let '(u', rest) := a_foreach u l2 in
  ∃ t', foreach_packed func arg fuel (zlen l1) (u, h, t) = Ok (0, (u', h, t')) ∧
    packed t' (l1 ++ rest) ∧ distinct (type t') (l1 ++ rest) ∧ type t' = type t.
Proof.
  revert u t l1 l2. induction fuel as [|fuel IH]; intros u t l1 l2 Hp Hd Hf; [lia|].
  cbn [foreach_packed snd]. rewrite (pk_num _ _ Hp), zlen_app.
  destruct l2 as [|[k v] l2]; cbn [a_foreach].
  { rewrite zlen_nil, Z.add_0_r, Z.ltb_irrefl. exists t. by split_and!. }
  rewrite zlen_cons. pose proof (zlen_nonneg l2).
  rewrite (proj2 (Z.ltb_lt _ _)) by lia.
  destruct (packed_bins_load t l1 (k, v) l2 Hp) as [-> Hv]. cbn [mbind res_bind fst snd].
  rewrite Hv. cbn [mbind res_bind fst snd]. rewrite func_pure. cbn [mbind res_bind].
  set (u1 := upd k v u).
  assert (Hadvance :
    let '(u', rest) := a_foreach u1 l2 in
    ∃ t', foreach_packed func arg fuel (zlen l1 + 1) (u1, h, t) = Ok (0, (u', h, t')) ∧
      packed t' (l1 ++ (k, v) :: rest) ∧ distinct (type t') (l1 ++ (k, v) :: rest) ∧ type t' = type t).
  { specialize (IH u1 t (l1 ++ [(k, v)]) l2). rewrite <- app_assoc in IH. cbn [app] in IH.
    rewrite zlen_app, zlen_cons, zlen_nil, Z.add_0_r in IH.
    destruct (a_foreach u1 l2) as [u' rest]. rewrite <- app_assoc in IH.
    apply IH; [done..|]. simpl in Hf. lia. }
  destruct (ret k v u).
  - by destruct (a_foreach u1 l2).
  - exists t. by split_and!.
  - cbn [snd]. destruct (packed_remove_spec t l1 (k, v) l2 Hp) as (t1 & -> & Hp1 & Ety).
    cbn [mbind res_bind fst]. specialize (IH u1 t1 l1 l2 Hp1).
    destruct (a_foreach u1 l2) as [u' rest].
    destruct IH as (t' & E & Hp' & Hd' & Ety'); [rewrite Ety; by eapply distinct_remove|simpl in Hf; lia|].
    exists t'. split_and!; [done..|congruence].
  - unfold packed_check. cbn [snd].
    destruct (find_packed_spec t _ k Hp) as [[_ Hn]|(la & v' & lb & _ & -> & _)].
    { assert (HashTypeLaws (type t)) by (rewrite (pk_type _ _ Hp); apply _).
      destruct (a_find_middle (type t) k l1 (k, v) l2 Hd (equal_refl _ _)) as (E & _). congruence. }
    cbn [mbind res_bind]. by destruct (a_foreach u1 l2).
Qed.

Lemma st_foreach_spec fuel u h t ps l :
  st_rep h t ps l → (length l < fuel)%nat →
  let '(u', l') := a_foreach u l in
  ∃ h' t' ps', st_foreach func arg fuel h t u = Ok (0, (u', h', t')) ∧
    (packed t' l' ∧ ps' = [] ∨ chained h' t' ps' ∧ content h' ps' = l') ∧
    type t' = type t ∧ framed h ps h' ps'.
Proof.
  intros (Hd & [[Hp ->]|[Hc Hcont]]) Hf; unfold st_foreach.
  - rewrite (pk_packed _ _ Hp). pose proof (foreach_packed_spec fuel u h t [] l Hp Hd Hf) as H.
    rewrite zlen_nil in H. destruct (a_foreach u l) as [u' l'].
    destruct H as (t' & E & Hp' & Hd' & Ety). exists h, t', [].
    split_and!; [done|by left|done|apply framed_refl].
  - subst l. rewrite (ch_packed _ _ _ Hc). destruct ps as [|p ps].
    + pose proof (ch_ring _ _ _ Hc) as Hring. rewrite (proj2 (Z.eqb_eq _ _) Hring).
      cbn. exists h, t, []. split_and!; [done|by right|done|apply framed_refl].
    + destruct (chained_fore h t [] p ps Hc) as (Hh0 & Ehd & _). cbn [hd] in Ehd.
      rewrite (proj2 (Z.eqb_neq _ _)) by done. rewrite Ehd.
      assert (length ps < fuel)%nat as Hf' by (unfold content in Hf; rewrite length_map in Hf; simpl in Hf; lia).
      pose proof (foreach_ring_spec fuel u h t [] p ps Hc Hf') as H.
      destruct (a_foreach u _) as [u' l']. destruct H as (h' & t' & ps' & E & Hc' & Ec & Ety & Hfr).
      exists h', t', ps'. split_and!; [done|by right|done|done].
Qed.

(** Deleting during iteration keeps the keys distinct. *)
Lemma a_foreach_distinct ty u l : distinct ty l → distinct ty (a_foreach u l).2.
Proof.
  assert (∀ k u l, a_find ty k l = None → a_find ty k (a_foreach u l).2 = None) as Hfind.
  { clear. intros k u l. revert u. induction l as [|[k' v'] l IH]; intros u; [done|].
    cbn [a_find a_foreach fst]. destruct (EQUAL ty k k') eqn:E; [done|]. intros Hn.
    specialize (IH (upd k' v' u) Hn). destruct (ret k' v' u); try done;
      (destruct (a_foreach _ _); simpl in *; rewrite ?E; done). }
  revert u. induction l as [|[k v] l IH]; intros u; [done|]. intros [Hk Hd]. cbn [a_foreach].
  specialize (IH (upd k v u) Hd). specialize (Hfind k (upd k v u) l Hk).
  destruct (ret k v u); try done; destruct (a_foreach (upd k v u) l); simpl in *; try done.
Qed.
End foreach.

(** * The hash table of st.c: copying *)

Section copy.
Context `{Alloc : Allocator}.

(** State of the copying loop: [qs] are the copies made so far of the entries
    [l1] of the old table, linked among themselves; the last one still has the
    [fore] link [f] it was created with. *)
Record copying (h0 : heap) (t0 : st_table) (l1 : list Z) (h : heap) (nt : st_table) (qs : list Z)
    (f : Z) (tl : tailptr) : Prop := {
  cp_old : ∀ y e, h0 !! y = Some e → h !! y = Some e;
  cp_new : ∀ q, q ∈ qs → h0 !! q = None;
  cp_nt : nt = set_head (hd (head t0) qs) (set_bins (bins nt) t0);
  cp_bins : bins_ok h (bins nt) (num_bins t0) qs;
  cp_nodup : NoDup qs;
  cp_seg : dseg h 0 qs f;
  cp_tail : tl = match last qs with None => THead | Some q => TFore q end;
  cp_cont : content h qs = content h0 l1;
  cp_hash : ∀ p, p ∈ qs → hash (ent h p) = do_hash (type t0) (key (ent h p));
}.

Lemma last_default_last {A} (d : A) (l : list A) :
  List.last l d = match last l with None => d | Some q => q end.
Proof. destruct l as [|x l _] using rev_ind; [done|]. by rewrite last_snoc, last_snoc_default. Qed.

(** One iteration: the entry [p] is copied behind the copies made before. *)
Lemma copy_step h0 t0 l1 h nt qs f tl p :
  let e := ent h p in
  let x := malloc h in
  let i := hash e mod num_bins t0 in
  copying h0 t0 l1 h nt qs f tl → 0 < num_bins t0 → live h0 p →
  hash (ent h0 p) = do_hash (type t0) (key (ent h0 p)) →
  ∃ old, zlookup (bins nt) i = Some old ∧
  let h1 := <[x := mkEntry (hash e) (key e) (record e) old (fore e) (List.last qs 0)]> h in
  ∃ h' nt', write_tail h1 (set_bins (<[Z.to_nat i := x]> (bins nt)) nt) tl x = Ok (h', nt') ∧
    copying h0 t0 (l1 ++ [p]) h' nt' (qs ++ [x]) (fore e) (TFore x) ∧ e = ent h0 p.
Proof.
  intros e x i [Hold Hnew Hnt Hbins Hnd Hseg Htl Hcont Hhash] Hnb Hlp Hhp.
  assert (He0 : e = ent h0 p).
  { destruct Hlp as [_ [e0 E]]. unfold e, ent. by rewrite E, (Hold _ _ E). }
  assert (Hr : 0 ≤ i < num_bins t0) by (by apply Z.mod_pos_bound).
  destruct (zlookup_is_Some (bins nt) i) as [old Ho]; [rewrite (proj1 Hbins); done|].
  exists old. split; [done|]. set (ex := mkEntry _ _ _ _ _ _). intros h1.
  assert (Hx0 : x ≠ 0) by apply malloc_nonnull.
  assert (Hxf : h !! x = None) by apply malloc_fresh.
  assert (Hlq : ∀ q, q ∈ qs → live h q) by (intros q Hq; by eapply dseg_live).
  assert (Hxq : ∀ q, q ∈ qs → x ≠ q) by (intros q Hq; by apply not_eq_sym, live_malloc, Hlq).
  assert (Hxn : x ∉ qs) by (intros Hin; by apply (Hxq x Hin)).
  assert (Hseg1 : dseg h1 0 qs f).
  { eapply dseg_frame; [|exact Hseg]. intros q Hq. unfold h1. rewrite ent_insert_ne by auto.
    split; [|done]. apply live_insert. auto. }
  (* the heap after the [fore] link of the previous copy is set *)
  enough (∃ h', write_tail h1 (set_bins (<[Z.to_nat i := x]> (bins nt)) nt) tl x =
      Ok (h', set_head (hd (head t0) (qs ++ [x])) (set_bins (<[Z.to_nat i := x]> (bins nt)) t0)) ∧
      dseg h' 0 qs x ∧ (∀ y, live h1 y → live h' y) ∧ (∀ y, data (ent h' y) = data (ent h1 y)) ∧
      (∀ y, y ∉ qs → h' !! y = h1 !! y)) as (h' & Hw & Hseg' & Hlive & Hdata & Hfr).
  { eexists h', _. split; [exact Hw|]. split; [|done].
    assert (Hx' : h' !! x = Some ex) by (rewrite Hfr by done; apply lookup_insert_eq).
    assert (Ex : ent h' x = ex) by (unfold ent; by rewrite Hx').
    assert (Eq : ∀ q, q ∈ qs → data (ent h' q) = data (ent h q)).
    { intros q Hq. rewrite Hdata. unfold h1. by rewrite ent_insert_ne by auto. }
    assert (Hlx : live h' x) by (split; eauto).
    assert (Hlq' : ∀ q, q ∈ qs → live h' q) by (intros q Hq; apply Hlive, live_insert; auto).
    split.
    - intros y ey Hy. rewrite Hfr; [|intros Hin; by rewrite Hnew in Hy].
      unfold h1. rewrite lookup_insert_ne; [by apply Hold|]. intros <-.
      apply Hold in Hy. congruence.
    - intros q [Hq| ->%list_elem_of_singleton]%elem_of_app; [auto|].
      destruct (h0 !! x) eqn:E; [|done]. apply Hold in E. congruence.
    - done.
    - cbn [bins set_head set_bins]. eapply bins_ok_push; [exact Hbins|done|exact Ho|done|..];
        rewrite ?Ex; [done..|]. intros q Hq. specialize (Eq q Hq). unfold data in Eq.
      injection Eq as ? ? ? ?. split_and!; auto.
    - apply NoDup_app. split_and!; [done| |apply NoDup_singleton].
      intros q Hq ->%list_elem_of_singleton. done.
    - apply dseg_app. split; [done|]. cbn [dseg hd]. rewrite Ex. split_and!; [done|done|done|done].
    - by rewrite last_snoc.
    - rewrite !content_app. f_equal.
      + rewrite <- Hcont. apply content_frame. intros q Hq. specialize (Eq q Hq).
        unfold data in Eq. by injection Eq as ? ? ? ?.
      + cbn [content map]. rewrite Ex. unfold ex. cbn [key record]. by rewrite He0.
    - intros q [Hq| ->%list_elem_of_singleton]%elem_of_app.
      + specialize (Eq q Hq). unfold data in Eq. injection Eq as -> -> _ _. auto.
      + rewrite Ex. unfold ex. cbn [hash key]. by rewrite He0. }
  destruct qs as [|q qs _] using rev_ind.
  - subst tl. cbn [last]. exists h1. rewrite Hnt. by split_and!.
  - rewrite Htl, last_snoc. cbn [write_tail].
    assert (live h1 q) as Hlq1 by (apply live_insert, Hlq; set_solver).
    rewrite modify_live by done. cbn [mbind res_bind]. eexists.
    split; [|split_and!].
    + rewrite Hnt. cbn [bins set_head set_bins]. rewrite hd_app_default.
      by replace (hd (head t0) ((qs ++ [q]) ++ [x])) with (hd q qs) by (by destruct qs).
    + by eapply dseg_set_last_fore.
    + auto with mruby.
    + intros y. apply data_set_fore.
    + intros y Hy. apply lookup_insert_ne. intros ->. set_solver.
Qed.

Lemma copy_loop_spec fuel h0 t0 l1 p l2 prev0 first h nt qs f tl :
  copying h0 t0 l1 h nt qs f tl → 0 < num_bins t0 →
  dseg h0 prev0 (p :: l2) first → first ∉ l2 →
  (∀ q, q ∈ p :: l2 → hash (ent h0 q) = do_hash (type t0) (key (ent h0 q))) →
  (length l2 < fuel)%nat →
  ∃ h' nt' qs' f' x, copy_loop fuel h nt p first (List.last qs 0) tl = Ok (h', nt', x, TFore x) ∧
    copying h0 t0 (l1 ++ p :: l2) h' nt' qs' f' (TFore x) ∧ last qs' = Some x.
Proof.
  intros Hcp Hnb. revert l1 p l2 prev0 h nt qs f tl Hcp.
  induction fuel as [|fuel IH]; intros l1 p l2 prev0 h nt qs f tl Hcp Hseg Hfirst Hhash Hf; [lia|].
  cbn [copy_loop]. pose proof Hseg as (Hl & _ & Hfo & Hseg').
  destruct (copy_step _ _ _ _ _ _ _ _ p Hcp Hnb Hl) as (old & Ho & h' & nt' & Hw & Hcp' & He).
  { apply Hhash. by left. }
  assert (live h p) as Hlh.
  { destruct Hl as [? [e0 E]]. split; [done|]. exists e0. by apply (cp_old _ _ _ _ _ _ _ _ Hcp). }
  assert (Enb : num_bins nt = num_bins t0) by (by rewrite (cp_nt _ _ _ _ _ _ _ _ Hcp)).
  rewrite deref_live by done. cbn [mbind res_bind]. rewrite Enb, cmod_ok by lia. cbn [mbind res_bind].
  rewrite (proj2 (aload_ok _ _ _) Ho). cbn [mbind res_bind].
  rewrite astore_ok by (by eapply zlookup_Some_range). cbn [mbind res_bind]. rewrite Hw.
  cbn [mbind res_bind]. rewrite He, Hfo. destruct l2 as [|y l2]; cbn [hd].
  - rewrite Z.eqb_refl. eexists _, _, _, _, _. split_and!; [done|exact Hcp'|apply last_snoc].
  - rewrite (proj2 (Z.eqb_neq y first)) by (intros ->; apply Hfirst; by left).
    destruct (IH (l1 ++ [p]) y l2 p h' nt' _ _ _ Hcp' Hseg') as (h2 & nt2 & qs2 & f2 & x & E & Hcp2 & Hlast).
    + intros Hin. apply Hfirst. by right.
    + intros q Hq. apply Hhash. by right.
    + simpl in Hf. lia.
    + rewrite last_snoc_default in E. rewrite <- app_assoc in Hcp2. eauto 10.
Qed.

(** The last two assignments of [st_copy] close the ring of the copies. *)
Lemma copy_close h0 t0 ps h nt qs f x :
  chained h0 t0 ps → copying h0 t0 ps h nt qs f (TFore x) → last qs = Some x →
  ∃ h2 h3, modify h (head nt) (set_back x) = Ok h2 ∧
    write_tail h2 nt (TFore x) (head nt) = Ok (h3, nt) ∧
    (chained h3 nt qs ∧ content h3 qs = content h0 ps ∧ type nt = type t0) ∧
    (∀ y e, h0 !! y = Some e → h3 !! y = Some e) ∧ (∀ q, q ∈ qs → h0 !! q = None).
Proof.
  intros Hc [Hold Hnew Hnt Hbins Hnd Hseg Htl Hcont Hhash] Hlast.
  destruct qs as [|q qs]; [done|].
  assert (Ehd : head nt = q) by (by rewrite Hnt).
  assert (Hl : ∀ y, y ∈ q :: qs → live h y) by (intros y Hy; by eapply dseg_live).
  assert (Hx : x ∈ q :: qs) by (apply last_Some in Hlast as [l' ->]; set_solver).
  rewrite Ehd. rewrite modify_live by (apply Hl; by left).
  eexists _, _. split; [done|]. cbn [write_tail].
  rewrite modify_live by auto with mruby. cbn [mbind res_bind]. split; [done|].
  set (h2 := <[q := set_back x (ent h q)]> h). set (h3 := <[x := set_fore q (ent h2 x)]> h2).
  assert (Hd3 : ∀ y, data (ent h3 y) = data (ent h y)).
  { intros y. unfold h3, h2. by rewrite data_set_fore, data_set_back. }
  assert (Hl3 : ∀ y, y ∈ q :: qs → live h3 y) by (intros y Hy; unfold h3, h2; auto with mruby).
  assert (Hcyc : cyc h3 (q :: qs)).
  { assert (dseg h2 x (q :: qs) f) as H2 by (by eapply dseg_set_first_back).
    unfold cyc. rewrite last_default_last, Hlast. cbn [hd].
    apply last_Some in Hlast as [l' E]. rewrite E in *. by eapply dseg_set_last_fore. }
  assert (Hlen : zlen (q :: qs) = zlen ps).
  { by rewrite <- (content_length h), Hcont, content_length. }
  split_and!.
  - rewrite Hnt. destruct Hc as [? ? Hcount ? ? ? ?]. rewrite <- Hlen in Hcount.
    split; cbn [entries_packed num_bins num_entries head bins type set_head set_bins]; [done..| | |].
    + split; [done|exact Hcyc].
    + eapply bins_ok_frame; [|exact Hbins]. intros y Hy. specialize (Hd3 y). unfold data in Hd3.
      injection Hd3 as ? ? ? ?. auto.
    + intros y Hy. specialize (Hd3 y). unfold data in Hd3. injection Hd3 as -> -> _ _. auto.
  - rewrite <- Hcont. apply content_frame. intros y _. specialize (Hd3 y). unfold data in Hd3.
    by injection Hd3 as ? ? ? ?.
  - by rewrite Hnt.
  - intros y e Hy. pose proof Hy as Hy2. apply Hold in Hy2. unfold h3, h2.
    assert (∀ z, z ∈ q :: qs → z ≠ y) as Hne by (intros z Hz ->; rewrite Hnew in Hy; done).
    rewrite !lookup_insert_ne; [done|apply Hne; by left|by apply Hne].
  - done.
Qed.

(** The copy has the same bindings in the same order, in entries of its own;
    the old table is left as it was. *)
Lemma st_copy_spec h t ps l :
  st_rep h t ps l →
  ∃ h' t' ps', st_copy h t = Ok (h', t') ∧ st_rep h' t' ps' l ∧ type t' = type t ∧
    (∀ y e, h !! y = Some e → h' !! y = Some e) ∧ (∀ q, q ∈ ps' → h !! q = None).
Proof.
  intros (Hd & [[Hp ->]|[Hc Hcont]]); unfold st_copy.
  - pose proof (pk_nb _ _ Hp). rewrite Calloc_ok by lia. cbn [mbind res_bind].
    rewrite (pk_packed _ _ Hp), (proj2 (Z.leb_le _ _)) by (rewrite (pk_len _ _ Hp); lia).
    cbn [check mbind res_bind].
    rewrite take_ge by (pose proof (pk_len _ _ Hp); unfold zlen in *; lia).
    exists h, t, []. split_and!; [by destruct t|by apply st_rep_packed|done|done|].
    by intros ? ?%not_elem_of_nil.
  - subst l. pose proof (ch_nb _ _ _ Hc) as Hnb. rewrite Calloc_ok by lia. cbn [mbind res_bind].
    rewrite (ch_packed _ _ _ Hc). pose proof (ch_ring _ _ _ Hc) as Hring.
    set (nt0 := set_bins (replicate (Z.to_nat (num_bins t)) 0) t).
    destruct ps as [|p ps].
    + rewrite (proj2 (Z.eqb_eq _ _) Hring). exists h, nt0, [].
      split_and!; [done| |done|done|by intros ? ?%not_elem_of_nil].
      apply st_rep_chained; [|done|done]. destruct Hc. split; cbn; try done. apply bins_ok_nil. lia.
    + destruct Hring as [Ehd Hcyc].
      assert (Hlp : live h p) by (eapply chained_live; [done|by left]).
      rewrite Ehd, (proj2 (Z.eqb_neq p 0)) by apply Hlp.
      pose proof (ch_nodup _ _ _ Hc) as [Hpps _]%NoDup_cons.
      destruct (copy_loop_spec (chain_fuel h) h t [] p ps (List.last (p :: ps) 0) p h nt0 [] 0 THead)
        as (h1 & nt1 & qs & f & x & E & Hcp & Hlast).
      { split; try done.
        - by intros ? ?%not_elem_of_nil.
        - apply bins_ok_nil. lia.
        - constructor.
        - by intros ? ?%not_elem_of_nil. }
      { lia. }
      { exact Hcyc. }
      { done. }
      { apply Hc. }
      { pose proof (chained_length _ _ _ Hc) as Hlen. simpl in Hlen. unfold chain_fuel. lia. }
      cbn [List.last] in E. rewrite E. cbn [mbind res_bind]. cbn [app] in Hcp.
      destruct (copy_close _ _ _ _ _ _ _ _ Hc Hcp Hlast) as (h2 & h3 & -> & E2 & (Hc' & Ec & Ety) & Hold & Hnew).
      cbn [mbind res_bind]. exists h3, nt1, qs. split_and!; [done| |done..].
      apply st_rep_chained; [done|done|]. by rewrite Ety.
Qed.
End copy.
