(* ===== verification/StThm.v ===== *)
(** * The hash table of st.c: the contract

    The theorems of the table, stated for any allocator and any hash type that
    satisfies the laws, with their instances on concrete tables. *)

From S2P Require Import Prelude St StRep StSpec StOps StIter.
From Stdlib Require Import Znumtheory.

(** ** An allocator *)

(** The address after the highest live one. *)
Definition bump_malloc (h : heap) : Z := 1 + foldr Z.max 0 (map fst (map_to_list h)).

Lemma foldr_max_bound (l : list Z) x : x ∈ l → x ≤ foldr Z.max 0 l.
Proof. induction l as [|y l IH]; [by intros ?%not_elem_of_nil|]. intros [->|H]%elem_of_cons; simpl; [lia|]. specialize (IH H). lia. Qed.

Lemma foldr_max_nonneg (l : list Z) : 0 ≤ foldr Z.max 0 l.
Proof. induction l; simpl; lia. Qed.

#[export] Program Instance bump_allocator : Allocator := {| malloc := bump_malloc |}.
Next Obligation.
  intros h. destruct (h !! bump_malloc h) as [e|] eqn:E; [|done].
  assert (bump_malloc h ≤ foldr Z.max 0 (map fst (map_to_list h))) as H.
  { apply foldr_max_bound, list_elem_of_fmap. exists (bump_malloc h, e). split; [done|].
    by apply elem_of_map_to_list. }
  unfold bump_malloc in H. lia.
Qed.
Next Obligation.
  intros h. unfold bump_malloc. pose proof (foldr_max_nonneg (map fst (map_to_list h))). lia.
Qed.

(** ** Sequences of operations *)

Inductive st_op :=
  | OpInsert (k v : Z)
  | OpDelete (k : Z)
  | OpLookup (k : Z)
  | OpGetKey (k : Z)
  | OpClear.

Inductive st_out :=
  | OutFlag (b : bool)
  | OutPair (o : option (Z * Z))
  | OutWord (o : option Z)
  | OutNone.

Definition run_op `{Allocator} (h : heap) (t : st_table) (op : st_op) : res (st_out * heap * st_table) :=
  match op with
  | OpInsert k v => '(b, h, t) ← st_insert h t k v; Ok (OutFlag b, h, t)
  | OpDelete k => '(o, h, t) ← st_delete h t k; Ok (OutPair o, h, t)
  | OpLookup k => o ← st_lookup h t k; Ok (OutWord o, h, t)
  | OpGetKey k => o ← st_get_key h t k; Ok (OutWord o, h, t)
  | OpClear => '(h, t) ← st_clear h t; Ok (OutNone, h, t)
  end.

Definition a_op (ty : st_hash_type) (l : list (Z * Z)) (op : st_op) : st_out * list (Z * Z) :=
  match op with
  | OpInsert k v => (OutFlag (bool_decide (is_Some (a_find ty k l))), a_insert ty k v l)
  | OpDelete k => (OutPair (a_find ty k l), a_delete ty k l)
  | OpLookup k => (OutWord (snd <$> a_find ty k l), l)
  | OpGetKey k => (OutWord (fst <$> a_find ty k l), l)
  | OpClear => (OutNone, [])
  end.

Fixpoint run_ops `{Allocator} (h : heap) (t : st_table) (ops : list st_op)
    : res (list st_out * heap * st_table) :=
  match ops with
  | [] => Ok ([], h, t)
  | op :: ops' =>
      '(o, h, t) ← run_op h t op;
      '(os, h, t) ← run_ops h t ops';
      Ok (o :: os, h, t)
  end.

Fixpoint a_ops (ty : st_hash_type) (l : list (Z * Z)) (ops : list st_op)
    : list st_out * list (Z * Z) :=
  match ops with
  | [] => ([], l)
  | op :: ops' =>
      let '(o, l1) := a_op ty l op in
      let '(os, l2) := a_ops ty l1 ops' in
      (o :: os, l2)
  end.

Section contract.
Context `{Alloc : Allocator}.

Lemma a_op_length ty l op : zlen (a_op ty l op).2 ≤ zlen l + 1.
Proof.
  destruct op as [k v|k|k|k|]; simpl; try lia.
  - induction l as [|kv l IH]; simpl; [done|]. destruct (EQUAL ty k kv.1); rewrite !zlen_cons; lia.
  - induction l as [|kv l IH]; simpl; [lia|]. destruct (EQUAL ty k kv.1); rewrite ?zlen_cons; lia.
  - pose proof (zlen_nonneg l). rewrite zlen_nil. lia.
Qed.

Lemma run_op_spec h t ps l op `{!HashTypeLaws (type t)} :
  st_rep h t ps l → zlen l < st_max_entries →
  ∃ h' t' ps', run_op h t op = Ok ((a_op (type t) l op).1, h', t') ∧
    st_rep h' t' ps' (a_op (type t) l op).2 ∧ type t' = type t.
Proof.
  intros Hrep Hmax. destruct op as [k v|k|k|k|]; simpl.
  - destruct (st_insert_spec h t ps l k v Hrep Hmax) as (h' & t' & ps' & -> & ? & ? & _). eauto 10.
  - destruct (st_delete_spec h t ps l k Hrep) as (h' & t' & ps' & -> & ? & ? & _). eauto 10.
  - rewrite (st_lookup_correct h t ps l k Hrep). eauto 10.
  - rewrite (st_get_key_correct h t ps l k Hrep). eauto 10.
  - destruct (st_clear_spec h t ps l Hrep) as (h' & t' & -> & ? & ? & _). eauto 10.
Qed.

Lemma run_ops_spec h t ps l ops `{!HashTypeLaws (type t)} :
  st_rep h t ps l → zlen l + zlen ops ≤ st_max_entries →
  ∃ h' t' ps', run_ops h t ops = Ok ((a_ops (type t) l ops).1, h', t') ∧
    st_rep h' t' ps' (a_ops (type t) l ops).2.
Proof.
  revert h t ps l HashTypeLaws0. induction ops as [|op ops IH]; intros h t ps l Hlaws Hrep Hmax; simpl.
  - eauto 10.
  - rewrite zlen_cons in Hmax. pose proof (zlen_nonneg ops).
    destruct (run_op_spec h t ps l op Hrep) as (h1 & t1 & ps1 & -> & Hrep1 & Ety); [lia|].
    pose proof (a_op_length (type t) l op). destruct (a_op (type t) l op) as [o l1]. simpl in *.
    assert (HashTypeLaws (type t1)) by (by rewrite Ety).
    destruct (IH h1 t1 ps1 l1 _ Hrep1) as (h' & t' & ps' & -> & Hrep'); [lia|]. rewrite Ety in *.
    destruct (a_ops (type t) l1 ops) as [os l2]. simpl. eauto 10.
Qed.

(** ** The theorems *)

(** C1: st.c refines an association list.  Any sequence of insertions,
    deletions, lookups and clearings on a new table returns, memory safely and
    without running out of the model's loop bounds, exactly the results that
    the same sequence has on an association list in insertion order; the final
    table represents the final list.  This covers packed tables, their
    unpacking, and the growth of the bins. *)
Theorem st_trace_refines h ty size ops `{!HashTypeLaws ty} :
  0 ≤ size < 2 ^ 30 → zlen ops ≤ st_max_entries →
  ∃ t h' t' ps', st_init_table_with_size ty size = Ok t ∧
    run_ops h t ops = Ok ((a_ops ty [] ops).1, h', t') ∧
    st_rep h' t' ps' (a_ops ty [] ops).2.
Proof.
  intros Hs Hmax. destruct (st_init_spec h ty size Hs) as (t & Et & <- & Hrep).
  destruct (run_ops_spec h t [] [] ops Hrep) as (h' & t' & ps' & E & Hrep'); [by rewrite zlen_nil|].
  exists t, h', t', ps'. by split_and!.
Qed.

(** [st_insert] on any represented table returns whether the key was
    there, and the new table represents the list with the value replaced in
    place (the old key kept) or the binding appended; entries of other tables
    are not touched and new entries come from free memory. *)
Theorem st_insert_refines h t ps l k v `{!HashTypeLaws (type t)} :
  st_rep h t ps l → zlen l < st_max_entries →
  ∃ h' t' ps', st_insert h t k v = Ok (bool_decide (is_Some (a_find (type t) k l)), h', t') ∧
    st_rep h' t' ps' (a_insert (type t) k v l) ∧ framed h ps h' ps'.
Proof.
  intros Hrep Hmax. destruct (st_insert_spec h t ps l k v Hrep Hmax) as (h' & t' & ps' & ? & ? & _ & ?).
  eauto 10.
Qed.

(** [st_delete] returns the stored key and value of the binding with an
    equal key, or nothing; the binding is gone from the new table, the order of
    the others is kept, and only entries of this table are touched. *)
Theorem st_delete_refines h t ps l k `{!HashTypeLaws (type t)} :
  st_rep h t ps l →
  ∃ h' t' ps', st_delete h t k = Ok (a_find (type t) k l, h', t') ∧
    st_rep h' t' ps' (a_delete (type t) k l) ∧ framed h ps h' ps'.
Proof.
  intros Hrep. destruct (st_delete_spec h t ps l k Hrep) as (h' & t' & ps' & ? & ? & _ & ?). eauto 10.
Qed.

(** Two tables in the same heap do not interfere: after an insertion into
    one of them, the other one still represents the same list. *)
Theorem st_insert_independent h t1 ps1 l1 t2 ps2 l2 k v `{!HashTypeLaws (type t1)} :
  st_rep h t1 ps1 l1 → st_rep h t2 ps2 l2 → (∀ p, p ∈ ps2 → p ∉ ps1) →
  zlen l1 < st_max_entries →
  ∃ b h' t1' ps1', st_insert h t1 k v = Ok (b, h', t1') ∧
    st_rep h' t1' ps1' (a_insert (type t1) k v l1) ∧ st_rep h' t2 ps2 l2.
Proof.
  intros H1 H2 Hdisj Hmax.
  destruct (st_insert_spec h t1 ps1 l1 k v H1 Hmax) as (h' & t' & ps' & E & Hrep & _ & Hfr).
  exists (bool_decide (is_Some (a_find (type t1) k l1))), h', t', ps'.
  split_and!; [done..|]. by eapply st_rep_framed.
Qed.

(** [st_copy] yields a table with the same bindings in the same order that
    shares no entry with the original, and leaves the heap of the original as
    it was. *)
Theorem st_copy_refines h t ps l :
  st_rep h t ps l →
  ∃ h' t' ps', st_copy h t = Ok (h', t') ∧ st_rep h' t' ps' l ∧ st_rep h' t ps l ∧
    (∀ q, q ∈ ps' → q ∉ ps).
Proof.
  intros Hrep. destruct (st_copy_spec h t ps l Hrep) as (h' & t' & ps' & E & Hrep' & Ety & Hold & Hnew).
  assert (∀ q, q ∈ ps' → q ∉ ps) as Hdisj.
  { intros q Hq Hin. destruct Hrep as (_ & [[_ ->]|[Hc _]]); [by apply not_elem_of_nil in Hin|].
    destruct (chained_live _ _ _ _ Hc Hin) as [_ [e He]]. by rewrite Hnew in He. }
  exists h', t', ps'. split_and!; [done..| |done].
  apply (st_rep_framed h [] h' []); [|by intros ? _ ?%not_elem_of_nil|done].
  split; [by eauto|]. by intros ? ?%not_elem_of_nil.
Qed.
End contract.

(** C2: [st_foreach] with a callback that does not touch the table visits the
    bindings in insertion order until the callback stops it; the bindings for
    which it returns [ST_DELETE] are removed, also the first, the last and the
    only one, and the result is again a well-formed table. *)
Theorem st_foreach_refines {U} func arg (ret : Z → Z → U → st_retval) upd fuel u h t ps l :
  (∀ k v u h t, func k v arg false (u, h, t) = Ok (ret k v u, (upd k v u, h, t))) →
  st_rep h t ps l → (length l < fuel)%nat →
  ∃ h' t' ps', st_foreach func arg fuel h t u = Ok (0, ((a_foreach ret upd u l).1, h', t')) ∧
    st_rep h' t' ps' (a_foreach ret upd u l).2 ∧ framed h ps h' ps'.
Proof.
  intros Hfunc Hrep Hf.
  pose proof (st_foreach_spec func arg ret upd Hfunc fuel u h t ps l Hrep Hf) as H.
  pose proof (a_foreach_distinct ret upd (type t) u l (proj1 Hrep)) as Hd.
  destruct (a_foreach ret upd u l) as [u' l']. destruct H as (h' & t' & ps' & E & Hr & Ety & Hfr).
  exists h', t', ps'. split_and!; [done| |done]. split; [by rewrite Ety|done].
Qed.

(** ** Sizes *)

(** Trial division: no divisor of [n] between [d] and [sqrt n]. *)
Fixpoint no_divisor (fuel : nat) (d n : Z) : bool :=
  match fuel with
  | O => false
  | S fuel' => if n <? d * d then true
               else if n mod d =? 0 then false else no_divisor fuel' (d + 1) n
  end.

Lemma no_divisor_sound fuel d n :
  1 < d → no_divisor fuel d n = true → (∀ m, 1 < m < d → ¬ (m | n)) →
  ∀ m, 1 < m → m * m ≤ n → ¬ (m | n).
Proof.
  revert d. induction fuel as [|fuel IH]; intros d Hd H Hlow m Hm Hmm; [done|]. simpl in H.
  destruct (Z.ltb_spec n (d * d)).
  - apply Hlow. nia.
  - destruct (Z.eqb_spec (n mod d) 0) as [|Hnz]; [done|].
    apply (IH (d + 1)); [lia|done| |done|done].
    intros m' Hm'. destruct (decide (m' = d)) as [->|]; [|apply Hlow; lia].
    intros Hdiv. apply Hnz. by apply Z.mod_divide; [lia|].
Qed.

Lemma prime_trial n : 1 < n → no_divisor (Z.to_nat 33000) 2 n = true → prime n.
Proof.
  intros Hn H. apply prime_alt. split; [done|]. intros m Hm [q Hq].
  pose proof (no_divisor_sound _ 2 n ltac:(lia) H ltac:(intros; lia)) as Hno.
  assert (1 < q) by nia.
  destruct (Z.le_gt_cases m q).
  - apply (Hno m); [lia|nia|]. by exists q.
  - apply (Hno q); [lia|nia|]. exists m. lia.
Qed.

(** The comment on the table of sizes is true: every entry but the
    terminating zero is prime; and for any number of bins below [2^30] the size
    chosen is one of these primes, above the requested size and below
    [INT_MAX]. *)
Lemma new_size_prime s :
  0 ≤ s < 2 ^ 30 → prime (new_size s) ∧ s < new_size s < 2 ^ 31.
Proof.
  intros Hs. split; [|by apply new_size_bounds].
  assert (Forall prime (take 28 primes)) as Hall.
  { assert (forallb (λ n, (1 <? n) && no_divisor (Z.to_nat 33000) 2 n) (take 28 primes) = true) as H
      by (vm_compute; reflexivity).
    apply Forall_forall. intros n Hn%list_elem_of_In.
    rewrite forallb_forall in H. apply H, andb_true_iff in Hn as [Hn1%Z.ltb_lt Hn2].
    by apply prime_trial. }
  assert (new_size s ∈ take 28 primes) as Hin; [|by eapply (proj1 (Forall_forall _ _) Hall)].
  unfold new_size, MINSIZE, primes in *.
  repeat (cbn [new_size_loop take];
    match goal with
    | |- context [s <? ?n] =>
        let v := eval vm_compute in n in change n with v;
        destruct (Z.ltb_spec s v); [solve [repeat constructor | exfalso; lia]|]
    end).
  lia.
Qed.

(** ** Where the code departs from its contract *)

(** The entries of a ring, from the last. *)
Lemma chained_last h t l p : chained h t (l ++ [p]) → live h p ∧ back (ent h p) = List.last l p ∧ back (ent h (head t)) = p ∧ live h (head t).
Proof.
  intros Hc. assert (head t = hd 0 (l ++ [p]) ∧ cyc h (l ++ [p])) as [Ehd Hcyc].
  { pose proof (ch_ring _ _ _ Hc) as Hring. destruct l; by destruct Hring. }
  assert (live h (head t)) as Hl by (eapply chained_live; [done|]; rewrite Ehd; destruct l; by left).
  assert (live h p) as Hp by (eapply chained_live; [done|set_solver]). split_and!; [done| | |done].
  - unfold cyc in Hcyc. rewrite dseg_app, last_snoc_default in Hcyc. by destruct Hcyc as [_ (_ & -> & _)].
  - rewrite Ehd. destruct l as [|x l]; destruct Hcyc as (_ & Hb & _); cbn [app hd]; rewrite Hb; [done|].
    change (x :: l ++ [p]) with ((x :: l) ++ [p]). apply last_snoc_default.
Qed.

(** The search for the slot of [r] on the chain at bin [i], where the entry [q] before it has been freed. *)
Lemma find_slot_freed h t i x c1 q c2 r : zlookup (bins t) i = Some x → chain h x (c1 ++ q :: c2) → r ∈ c2 →
  find_slot (chain_fuel (delete q h)) (delete q h) t (SBin i) r = Err BadPointer.
Proof.
  intros Hx Hch Hr. pose proof (chain_NoDup _ _ _ Hch) as Hnd. pose proof (chain_live _ _ _ q Hch ltac:(set_solver)) as Hq.
  assert (S (length c1) < chain_fuel (delete q h))%nat as Hf.
  { apply chain_length in Hch. rewrite length_app in Hch. cbn [length] in Hch. unfold chain_fuel.
    destruct Hq as [_ [e He]]. rewrite map_size_delete_Some by eauto. destruct c2; [set_solver|]. cbn [length] in Hch. lia. }
  assert (∀ fuel c0 cr, c0 ++ cr = c1 → (S (length cr) < fuel)%nat → find_slot fuel (delete q h) t (slot_after i c0) r = Err BadPointer) as G.
  { intros fuel c0 cr. revert fuel c0. induction cr as [|y cr IH]; intros fuel c0 <- Hfu; (destruct fuel as [|fuel]; [lia|]); cbn [find_slot].
    - rewrite app_nil_r in Hch. assert (read_slot (delete q h) t (slot_after i c0) = Ok q) as ->.
      { rewrite app_nil_r in Hnd. destruct c0 as [|z c0 _] using rev_ind; cbn in Hch |- *.
        - destruct Hch as [-> _]. by apply aload_ok.
        - unfold slot_after. rewrite last_snoc. assert (z ≠ q) by (intros ->; apply NoDup_app in Hnd as (_ & Hd & _); apply (Hd q); set_solver).
          rewrite <- app_assoc in Hch. cbn [app] in Hch. pose proof (chain_live _ _ _ z Hch ltac:(set_solver)) as Hz. apply chain_suffix in Hch as (_ & _ & Hn & _).
          cbn [read_slot]. rewrite deref_live by (by apply live_delete). cbn. by rewrite ent_delete_ne, Hn by done. }
      cbn [mbind res_bind]. rewrite (proj2 (Z.eqb_neq q 0)) by apply Hq. assert (r ≠ q).
      { intros ->. rewrite app_nil_r in Hnd. apply NoDup_app in Hnd as (_ & _ & [Hn _]%NoDup_cons). done. }
      rewrite (proj2 (Z.eqb_neq r q)) by done. destruct fuel as [|fuel]; [cbn in Hfu; lia|]. cbn [find_slot read_slot].
      unfold deref. rewrite (proj2 (Z.eqb_neq q 0)) by apply Hq. by rewrite lookup_delete_eq.
    - assert (y ≠ q ∧ r ≠ y) as [Hyq Hry].
      { rewrite <- app_assoc in Hnd. cbn [app] in Hnd. apply NoDup_app in Hnd as (_ & _ & [Hn _]%NoDup_cons). split; intros ->; set_solver. }
      assert (read_slot (delete q h) t (slot_after i c0) = Ok y) as ->.
      { rewrite <- app_assoc in Hch, Hnd. cbn [app] in Hch, Hnd. pose proof (read_slot_after h t i x c0 (y :: cr ++ q :: c2) Hx Hch) as E. cbn [hd] in E. rewrite <- E.
        destruct c0 as [|z c0 _] using rev_ind; [done|]. unfold slot_after. rewrite last_snoc. cbn [read_slot].
        assert (z ≠ q) by (intros ->; apply NoDup_app in Hnd as (_ & Hd & _); apply (Hd q); set_solver).
        rewrite !deref_live, ent_delete_ne; [done|done|eapply chain_live; [exact Hch|set_solver]|apply live_delete; [done|]; eapply chain_live; [exact Hch|set_solver]]. }
      cbn [mbind res_bind]. assert (y ≠ 0) by (eapply chain_live; [exact Hch|set_solver]).
      rewrite (proj2 (Z.eqb_neq y 0)), (proj2 (Z.eqb_neq r y)) by done.
      change (SNext y) with (slot_after i (c0 ++ [y])) || (assert (SNext y = slot_after i (c0 ++ [y])) as -> by (unfold slot_after; by rewrite last_snoc)).
      apply IH; [by rewrite <- app_assoc|cbn in Hfu; lia]. }
  exact (G _ [] c1 eq_refl Hf).
Qed.

(** A deletion by [st_reverse_foreach]: the entry is unlinked and freed; then the entry before it, which is still linked, is read and
    freed, and the iteration goes on with the next entry of that one's chain. *)
Lemma reverse_delete_step {U} func arg (upd : Z → Z → U → U) u h t l q p :
  (∀ k v u h t, func k v arg false (u, h, t) = Ok (ST_DELETE, (upd k v u, h, t))) → chained h t (l ++ [q; p]) →
  ∃ h2 t2 u2 n, chained (delete p h2) t2 (l ++ [q]) ∧
    reverse_foreach_step func arg p (u, h, t) =
      Ok (inl (next (ent (delete p h2) q), (u2, delete q (delete p h2), set_num_entries n t2))).
Proof.
  intros Hfunc Hc. pose proof (ch_nb _ _ _ Hc) as Hnb.
  assert (chained h t ((l ++ [q]) ++ [p])) as Hc' by (by rewrite <- app_assoc).
  destruct (chained_last h t (l ++ [q]) p Hc') as (Hl & Eb & Ehb & Hhl). rewrite last_snoc_default in Eb.
  destruct (chained_locate h t ((l ++ [q]) ++ [p]) p Hc') as (x & c1 & c2 & Hx & Hch & Hlen); [set_solver|].
  pose proof (find_slot_spec (chain_fuel h) h t _ x [] c1 p c2 Hx Hch Hlen) as Hfs. cbn [slot_after last app] in Hfs.
  destruct (chained_remove h t (l ++ [q]) p [] x c1 c2 Hc' Hx Hch) as (h1 & t1 & h2 & t2 & Hw & Hrm & Hl2 & _ & Hc2 & _ & _ & _ & Hhd).
  rewrite app_nil_r in *. assert (live (delete p h2) q) as Hq by (eapply chained_live; [exact Hc2|set_solver]).
  exists h2, t2, (upd (key (ent h p)) (record (ent h p)) u), (u63 (num_entries t2 - 1)). split; [done|].
  unfold reverse_foreach_step. rewrite deref_live by done. cbn [mbind res_bind]. rewrite Hfunc. cbn [mbind res_bind]. rewrite deref_live by done.
  cbn [mbind res_bind]. rewrite cmod_ok by lia. cbn [mbind res_bind]. rewrite Hfs. cbn [mbind res_bind]. rewrite Hw. cbn [mbind res_bind].
  rewrite Hrm. cbn [mbind res_bind]. rewrite free_live by done. cbn [mbind res_bind]. rewrite Eb.
  rewrite deref_live by done. cbn [mbind res_bind]. rewrite (proj2 (Z.eqb_neq q 0)) by apply Hq. rewrite free_live by done. cbn [mbind res_bind snd].
  assert (p ≠ head t) as Hne.
  { pose proof (ch_nodup _ _ _ Hc) as Hnd. assert (head t = hd 0 (l ++ [q; p])) as -> by (pose proof (ch_ring _ _ _ Hc) as Hr; destruct l; by destruct Hr).
    apply NoDup_app in Hnd as (_ & Hd & Hnd2). destruct l as [|y l]; cbn.
    - intros ->. apply NoDup_cons in Hnd2 as [Hn _]. set_solver.
    - intros ->. apply (Hd y); set_solver. }
  rewrite (proj2 (Z.eqb_neq p (head t))) by done. cbn [negb andb]. 
  assert (head t2 ≠ 0) as Hh2 by (rewrite Hhd; assert (live (delete p h2) (hd 0 (l ++ [q]))) as [? _]; [|done]; eapply chained_live; [exact Hc2|]; destruct l; cbn; set_solver).
  change (head (set_num_entries (u63 (num_entries t2 - 1)) t2)) with (head t2). by rewrite (proj2 (Z.eqb_neq (head t2) 0)).
Qed.

(** [st_reverse_foreach] uses freed memory when its callback answers [ST_DELETE]: with one entry it reads that entry after it was freed; with
    more it frees the entry before and meets it again, or NULL, at the next deletion. *)
Lemma st_reverse_foreach_delete_faults {U} func arg (upd : Z → Z → U → U) fuel u h t ps :
  (∀ k v u h t, func k v arg false (u, h, t) = Ok (ST_DELETE, (upd k v u, h, t))) →
  chained h t ps → ps ≠ [] → (1 < fuel)%nat →
  st_reverse_foreach func arg fuel h t u = Err BadPointer.
Proof.
  intros Hfunc Hc Hps Hf. pose proof (ch_nb _ _ _ Hc) as Hnb. destruct ps as [|p ps _] using rev_ind; [done|]. clear Hps.
  destruct (chained_last h t ps p Hc) as (Hl & Eb & Ehb & Hhl). unfold st_reverse_foreach. rewrite (ch_packed _ _ _ Hc).
  rewrite (proj2 (Z.eqb_neq (head t) 0)) by apply Hhl. rewrite (deref_live _ (head t)) by done. cbn [mbind res_bind]. rewrite Ehb.
  destruct fuel as [|[|fuel]]; [lia..|]. cbn [iter]. destruct ps as [|q ps _] using rev_ind.
  - cbn in Eb. assert (reverse_foreach_step func arg p (u, h, t) = Err BadPointer) as ->; [|done].
    unfold reverse_foreach_step. rewrite deref_live by done. cbn [mbind res_bind].
    rewrite Hfunc. cbn [mbind res_bind]. rewrite deref_live by done. cbn [mbind res_bind].
    rewrite cmod_ok by lia. cbn [mbind res_bind].
    destruct (chained_locate h t [p] p Hc) as (x & c1 & c2 & Hx & Hch & Hlen); [by left|].
    pose proof (find_slot_spec (chain_fuel h) h t _ x [] c1 p c2 Hx Hch Hlen) as Hfs.
    cbn [slot_after last app] in Hfs. rewrite Hfs. cbn [mbind res_bind].
    destruct (chained_remove h t [] p [] x c1 c2 Hc Hx Hch) as
      (h1 & t1 & h2 & t2 & -> & Hrm & Hl2 & _).
    cbn [mbind res_bind]. rewrite Hrm. cbn [mbind res_bind]. rewrite free_live by done.
    cbn [mbind res_bind]. rewrite Eb. unfold deref.
    rewrite (proj2 (Z.eqb_neq p 0)) by apply Hl. by rewrite lookup_delete_eq.
  - rewrite <- app_assoc in Hc. destruct (reverse_delete_step func arg upd u h t ps q p Hfunc Hc) as (h2 & t2 & u2 & n & Hc2 & ->). cbn [mbind res_bind].
    set (h3 := delete p h2) in *. pose proof (ch_nb _ _ _ Hc2) as Hnb2.
    destruct (chained_locate h3 t2 (ps ++ [q]) q Hc2) as (x & c1 & c2 & Hx & Hch & _); [set_solver|].
    assert (live h3 q) as Hq by (eapply chain_live; [exact Hch|set_solver]).
    assert (next (ent h3 q) = hd 0 c2) as En by (pose proof (chain_suffix _ _ _ _ _ Hch) as (_ & _ & Hn); destruct c2; [done|by destruct Hn as [-> _]]).
    assert (∀ st, reverse_foreach_step func arg (next (ent h3 q)) (u2, delete q h3, st) = Err BadPointer ∨ c2 ≠ []) as Hnil.
    { intros st. destruct c2; [left|by right]. by rewrite En. }
    assert (reverse_foreach_step func arg (next (ent h3 q)) (u2, delete q h3, set_num_entries n t2) = Err BadPointer) as ->; [|done].
    destruct (Hnil (set_num_entries n t2)) as [|Hc2ne]; [done|]. clear Hnil. destruct c2 as [|r c2]; [done|]. cbn [hd] in En. rewrite En.
    assert (r ≠ q) as Hrq by (apply chain_NoDup in Hch; apply NoDup_app in Hch as (_ & _ & [Hn _]%NoDup_cons); set_solver).
    assert (live h3 r) as Hr by (eapply chain_live; [exact Hch|set_solver]).
    assert (hash (ent h3 r) mod num_bins t2 = hash (ent h3 q) mod num_bins t2) as Eh.
    { destruct (proj2 (ch_bins _ _ _ Hc2) (hash (ent h3 q) mod num_bins t2)) as (x' & c & Hx' & Hch' & Hm); [apply Z.mod_pos_bound; lia|].
      rewrite Hx in Hx'. injection Hx' as <-. rewrite (chain_det _ _ _ _ Hch' Hch) in Hm. apply Hm. set_solver. }
    unfold reverse_foreach_step. rewrite deref_live by (by apply live_delete). cbn [mbind res_bind]. rewrite Hfunc. cbn [mbind res_bind].
    rewrite deref_live by (by apply live_delete). cbn [mbind res_bind set_num_entries num_bins]. rewrite cmod_ok by (cbn; lia). cbn [mbind res_bind].
    rewrite ent_delete_ne by done. change (num_bins (set_num_entries n t2)) with (num_bins t2). rewrite Eh.
    change (find_slot (chain_fuel (delete q h3)) (delete q h3) (set_num_entries n t2)) with (find_slot (chain_fuel (delete q h3)) (delete q h3) (set_num_entries n t2)).
    by rewrite (find_slot_freed h3 (set_num_entries n t2) _ x c1 q (r :: c2) r) by (done || set_solver).
Qed.

(** [st_delete_safe] has no case for packed tables: it takes the word in the bin of the hash, a key or a value or what was left there, for the address of an
    entry. *)
Lemma st_delete_safe_packed h t l k never :
  packed t l →
  ∃ w, zlookup (bins t) (do_hash (type t) k mod num_bins t) = Some w ∧
    (w = 0 → st_delete_safe h t k never = Ok (None, h, t)) ∧
    (w ≠ 0 → h !! w = None → st_delete_safe h t k never = Err BadPointer).
Proof.
  intros Hp. pose proof (pk_nb _ _ Hp). pose proof (pk_len _ _ Hp). set (i := do_hash (type t) k mod num_bins t).
  destruct (zlookup_is_Some (bins t) i) as [w Hw]; [pose proof (Z.mod_pos_bound (do_hash (type t) k) (num_bins t)); unfold i; lia|].
  exists w. split; [done|]. assert (st_delete_safe h t k never = delete_safe_walk (chain_fuel h) h t w k never) as ->.
  { unfold st_delete_safe. rewrite cmod_ok by lia. cbn [mbind res_bind]. fold i. by rewrite (proj2 (aload_ok _ _ _) Hw). }
  unfold chain_fuel. cbn [delete_safe_walk]. split.
  - by intros ->.
  - intros Hw0 Hh. rewrite (proj2 (Z.eqb_neq w 0)) by done. unfold deref. rewrite (proj2 (Z.eqb_neq w 0)) by done. by rewrite Hh.
Qed.

(** C3: two operations dereference what is not an entry.  [st_reverse_foreach] on a chained table with any entries, whose callback answers [ST_DELETE],
    reads an entry it has freed, or NULL, at the first deletion if there is one entry and at the second if there are more.  [st_delete_safe] on a packed table
    takes the word in the bin of the hash for the address of an entry: it finds nothing if the word is 0, whatever the table holds, and
    faults if the word is not the address of an entry. *)
Theorem st_faulting_operations {U} func arg (upd : Z → Z → U → U) fuel u h t ps t' l k never :
  (∀ k v u h t, func k v arg false (u, h, t) = Ok (ST_DELETE, (upd k v u, h, t))) → chained h t ps → ps ≠ [] → (1 < fuel)%nat →
  packed t' l →
  st_reverse_foreach func arg fuel h t u = Err BadPointer ∧
  ∃ w, zlookup (bins t') (do_hash (type t') k mod num_bins t') = Some w ∧
    (w = 0 → st_delete_safe h t' k never = Ok (None, h, t')) ∧
    (w ≠ 0 → h !! w = None → st_delete_safe h t' k never = Err BadPointer).
Proof.
  intros Hf Hc Hps Hfu Hp. split; [by eapply st_reverse_foreach_delete_faults|by eapply st_delete_safe_packed].
Qed.

(** ** Witnesses: the theorems at concrete tables *)

(** A chained table with one binding, [1] to [2], in an entry at address 100. *)
Definition ex_heap : heap := {[100 := mkEntry 1 1 2 0 100 100]}.
Definition ex_bins : list Z := 0 :: 100 :: replicate 17 0.
Definition ex_table : st_table := mkTable type_numhash 19 false 1 ex_bins 100.

Lemma ex_live : live ex_heap 100.
Proof. split; [done|]. eexists. apply lookup_singleton_eq. Defined.

Lemma ex_chained : chained ex_heap ex_table [100].
Proof.
  assert (E : ent ex_heap 100 = mkEntry 1 1 2 0 100 100) by reflexivity.
  split; cbn [entries_packed num_bins num_entries head bins type ex_table]; [done|lia|done| | | |].
  - apply NoDup_singleton.
  - cbn. rewrite E. split_and!; [done|apply ex_live|done..].
  - split; [done|]. intros i Hi. destruct (decide (i = 1)) as [->|Hne].
    + exists 100, [100]. split_and!; [done|cbn; rewrite E; split_and!; [done|apply ex_live|done]|].
      intros p. rewrite list_elem_of_singleton. split; [intros ->; rewrite E; done|tauto].
    + exists 0, []. split_and!; [|done|].
      * rewrite zlookup_nonneg by lia.
        assert (∃ n, Z.to_nat i = n ∧ (n < 19)%nat ∧ n ≠ 1%nat) as (n & -> & Hn & Hn1)
          by (exists (Z.to_nat i); lia).
        do 19 (destruct n as [|n]; [done|]). lia.
      * intros p. rewrite list_elem_of_singleton. split; [by intros ?%not_elem_of_nil|].
        intros [-> Ei]. rewrite E in Ei. exfalso. apply Hne. by rewrite <- Ei.
  - intros p ->%list_elem_of_singleton. by rewrite E.
Defined.

Lemma ex_rep : st_rep ex_heap ex_table [100] [(1, 2)].
Proof. split; [done|]. right. split; [apply ex_chained|done]. Defined.

(** A packed table with the binding [11] to [7]. *)
Definition ex_packed : st_table := mkTable type_numhash 11 true 1 (11 :: 7 :: replicate 9 0) 0.

Lemma ex_packed_ok : packed ex_packed [(11, 7)].
Proof. split; try done. by eexists. Defined.

Lemma ex_packed_rep : st_rep ex_heap ex_packed [] [(11, 7)].
Proof. split; [done|]. left. split; [apply ex_packed_ok|done]. Defined.

Definition ex_ops : list st_op :=
  [OpInsert 1 10; OpInsert 2 20; OpInsert 3 30; OpInsert 4 40; OpInsert 5 50; OpInsert 6 60;
   OpDelete 2; OpInsert 1 11; OpLookup 1; OpLookup 2].

Lemma st_trace_refines_witness :
  ∃ t h' t' ps', st_init_table_with_size type_numhash 0 = Ok t ∧
    run_ops ∅ t ex_ops = Ok ((a_ops type_numhash [] ex_ops).1, h', t') ∧
    st_rep h' t' ps' (a_ops type_numhash [] ex_ops).2.
Proof. apply (st_trace_refines ∅ type_numhash 0 ex_ops); [lia|done]. Defined.

Lemma st_insert_refines_witness :
  ∃ h' t' ps', st_insert ex_heap ex_table 1 9 = Ok (true, h', t') ∧
    st_rep h' t' ps' [(1, 9)] ∧ framed ex_heap [100] h' ps'.
Proof. exact (st_insert_refines ex_heap ex_table [100] [(1, 2)] 1 9 ex_rep eq_refl). Defined.

Lemma st_delete_refines_witness :
  ∃ h' t' ps', st_delete ex_heap ex_table 1 = Ok (Some (1, 2), h', t') ∧
    st_rep h' t' ps' [] ∧ framed ex_heap [100] h' ps'.
Proof. exact (st_delete_refines ex_heap ex_table [100] [(1, 2)] 1 ex_rep). Defined.

Lemma st_insert_independent_witness :
  ∃ b h' t1' ps1', st_insert ex_heap ex_packed 5 6 = Ok (b, h', t1') ∧
    st_rep h' t1' ps1' [(11, 7); (5, 6)] ∧ st_rep h' ex_table [100] [(1, 2)].
Proof.
  refine (st_insert_independent ex_heap ex_packed [] [(11, 7)] ex_table [100] [(1, 2)] 5 6
    ex_packed_rep ex_rep _ eq_refl). intros p _ H. by apply not_elem_of_nil in H.
Defined.

Lemma st_copy_refines_witness :
  ∃ h' t' ps', st_copy ex_heap ex_table = Ok (h', t') ∧ st_rep h' t' ps' [(1, 2)] ∧
    st_rep h' ex_table [100] [(1, 2)] ∧ (∀ q, q ∈ ps' → q ∉ [100]).
Proof. exact (st_copy_refines ex_heap ex_table [100] [(1, 2)] ex_rep). Defined.

(** A callback that counts the bindings and deletes those with an even value. *)
Definition ex_func (k v arg : Z) (err : bool) (st : Z * heap * st_table)
    : res (st_retval * (Z * heap * st_table)) :=
  let '(u, h, t) := st in
  Ok (if Z.even v then ST_DELETE else ST_CONTINUE, (u + 1, h, t)).

Lemma st_foreach_refines_witness :
  ∃ h' t' ps', st_foreach ex_func 0 5 ex_heap ex_table 0 = Ok (0, (1, h', t')) ∧
    st_rep h' t' ps' [] ∧ framed ex_heap [100] h' ps'.
Proof.
  exact (st_foreach_refines ex_func 0 (λ _ v _, if Z.even v then ST_DELETE else ST_CONTINUE)
    (λ _ _ u, u + 1) 5 0 ex_heap ex_table [100] [(1, 2)]
    (λ k v u h t, eq_refl) ex_rep (le_S _ _ (le_S _ _ (le_S _ _ (le_n 2))))).
Defined.

Lemma new_size_prime_witness : prime (new_size 100) ∧ 100 < new_size 100 < 2 ^ 31.
Proof. apply (new_size_prime 100). lia. Defined.

(** Seven bindings, which make a table with chains; the callback deletes the even values. *)
Example reverse_delete_computed :
  st_reverse_foreach ex_func 0 5 ex_heap ex_table 0 = Err BadPointer ∧
  match (t ← st_init_table_with_size type_numhash 0; run_ops ∅ t ((λ k, OpInsert k (2 * k)) <$> [1; 2; 3; 4; 5; 6; 12])) with
  | Ok (_, h, t) => entries_packed t = false ∧ num_entries t = 7 ∧ st_reverse_foreach ex_func 0 9 h t 0 = Err BadPointer
  | Err _ => False
  end.
Proof. by vm_compute. Qed.

Lemma st_faulting_operations_witness :
  st_reverse_foreach (λ _ _ _ _ st, Ok (ST_DELETE, st)) 0 5 ex_heap ex_table () = Err BadPointer ∧
  st_delete_safe ex_heap ex_packed 22 0 = Err BadPointer.
Proof.
  destruct (st_faulting_operations (λ _ _ _ _ st, Ok (ST_DELETE, st)) 0 (λ _ _ u, u) 5 () ex_heap ex_table [100] ex_packed [(11, 7)] 22 0)
    as (H1 & w & Hw & _ & H2); [done|apply ex_chained|done|lia|apply ex_packed_ok|].
  split; [exact H1|]. vm_compute in Hw. injection Hw as <-. by apply H2.
Defined.
