(* ===== verification/RArray.v ===== *)
(** * array.c: the Ruby array

    An array ([rb_ary_t]) is a window of [len] elements that starts at index
    [beg] of a block of [cap] words; taking elements off the front only moves
    [beg].  The first part models the primitives ([rary_*]), which compute with
    [size_t] and index the block directly; the second part the operations of
    class [Array] built on them ([rb_ary_*]), which compute with [long] and
    check their arguments.

    The receiver and the arguments are Ruby arrays ([IS_RARY]); the branches
    for CoreFoundation arrays only call that library.  A word of the block that
    was never written is [None].  Method dispatch that leaves array.c, [rb_equal]
    on two objects, is a parameter, and so is the [$SAFE] level. *)

From S2P Require Import Prelude.

(** ** Values

    A [VALUE] is a 64-bit word; the low two bits tag fixnums and fixfloats. *)

Definition Qfalse : Z := 0.
Definition Qtrue : Z := 2.
Definition Qnil : Z := 4.
Definition Qundef : Z := 6.
Definition IMMEDIATE_MASK : Z := 3.
Definition FIXNUM_FLAG : Z := 1.
Definition FIXFLOAT_FLAG : Z := 3.

Definition IMMEDIATE_P (x : Z) : bool := negb (Z.land x IMMEDIATE_MASK =? 0).
Definition FIXNUM_P (x : Z) : bool := Z.land x IMMEDIATE_MASK =? FIXNUM_FLAG.
Definition FIXFLOAT_P (x : Z) : bool := Z.land x IMMEDIATE_MASK =? FIXFLOAT_FLAG.
(** [((VALUE)(v) & ~Qnil) != 0] *)
Definition RTEST (x : Z) : bool := negb (Z.land x (2 ^ 64 - 1 - Qnil) =? 0).
Definition SPECIAL_CONST_P (x : Z) : bool := IMMEDIATE_P x || negb (RTEST x).

(** [((VALUE)(((SIGNED_VALUE)(i))<<2 | FIXNUM_FLAG))]; indices are far below
    [FIXNUM_MAX], so [LONG2NUM] is [INT2FIX] on them. *)
Definition INT2FIX (i : Z) : Z := u64 (Z.lor (Z.shiftl i 2) FIXNUM_FLAG).

Inductive ruby_value_type :=
  | T_NONE | T_FLOAT | T_STRING | T_ARRAY | T_HASH | T_BIGNUM | T_OBJECT
  | T_NIL | T_TRUE | T_FALSE | T_SYMBOL | T_FIXNUM | T_UNDEF.

#[global] Instance ruby_value_type_eq_dec : EqDecision ruby_value_type.
Proof. solve_decision. Defined.

(** [rb_type]; the type of a heap object is in the object. *)
Definition rb_type (heap_type : Z → ruby_value_type) (obj : Z) : ruby_value_type :=
  if IMMEDIATE_P obj then
    if FIXNUM_P obj then T_FIXNUM else
    if FIXFLOAT_P obj then T_FLOAT else
    if obj =? Qtrue then T_TRUE else
    if obj =? Qundef then T_UNDEF else heap_type obj
  else if negb (RTEST obj) then
    if obj =? Qnil then T_NIL else
    if obj =? Qfalse then T_FALSE else heap_type obj
  else heap_type obj.

(** ** The representation *)

Record rb_ary_t := mkAry {
  flags : Z;
  beg : Z;
  len : Z;
  cap : Z;
  elements : list (option Z)
}.

Definition set_beg (b : Z) (a : rb_ary_t) : rb_ary_t :=
  mkAry (flags a) b (len a) (cap a) (elements a).
Definition set_len (n : Z) (a : rb_ary_t) : rb_ary_t :=
  mkAry (flags a) (beg a) n (cap a) (elements a).
Definition set_elements (e : list (option Z)) (a : rb_ary_t) : rb_ary_t :=
  mkAry (flags a) (beg a) (len a) (cap a) e.
Definition set_flags (f : Z) (a : rb_ary_t) : rb_ary_t :=
  mkAry f (beg a) (len a) (cap a) (elements a).

(** ** Primitives *)

Definition rary_elt (a : rb_ary_t) (idx : Z) : res Z :=
  o ← aload (elements a) (u64 (beg a + idx)); of_option Uninitialised o.

Definition rary_replace (a : rb_ary_t) (idx item : Z) : res rb_ary_t :=
  e ← astore (elements a) (u64 (beg a + idx)) (Some item); Ok (set_elements e a).

(** [xrealloc(elements, sizeof(VALUE) * n)]: the old words are kept, the new
    ones are not initialised. *)
Definition realloc_words (e : list (option Z)) (n : Z) : list (option Z) :=
  resize (Z.to_nat (u64 (8 * n) / 8)) None e.

(** The copy of the window to the start of the block. *)
Definition rary_compact (a : rb_ary_t) : res rb_ary_t :=
  e ← for_range 0 (len a) (λ i e, v ← aload e (u64 (beg a + i)); astore e i v) (elements a);
  Ok (set_beg 0 (set_elements e a)).

Definition rary_reserve (a : rb_ary_t) (newlen : Z) : res rb_ary_t :=
  if cap a <? u64 (beg a + newlen) then
    '(newlen, a) ←
      (if 0 <? beg a then
         let newlen := if newlen <? beg a then 0 else newlen - beg a in
         a ← rary_compact a; Ok (newlen, a)
       else Ok (newlen, a));
    if cap a <? newlen then
      let newlen := if 0 <? cap a then u64 (newlen * 2) else newlen in
      Ok (mkAry (flags a) (beg a) (len a) newlen (realloc_words (elements a) newlen))
    else Ok a
  else Ok a.

Definition rary_append (a : rb_ary_t) (item : Z) : res rb_ary_t :=
  a ← rary_reserve a (u64 (len a + 1));
  a ← rary_replace a (len a) item;
  Ok (set_len (u64 (len a + 1)) a).

Definition rary_insert (a : rb_ary_t) (idx item : Z) : res rb_ary_t :=
  _ ← check (idx <=? len a) AssertFailed;
  if idx <? len a then
    a ← rary_reserve a (u64 (len a + 1));
    a ← for_down (len a) (idx + 1)
          (λ i a, v ← rary_elt a (i - 1); rary_replace a i v) a;
    a ← rary_replace a idx item;
    Ok (set_len (u64 (len a + 1)) a)
  else rary_append a item.

Definition rary_erase (a : rb_ary_t) (idx n : Z) : res (Z * rb_ary_t) :=
  _ ← check (u64 (idx + n) <=? len a) AssertFailed;
  item ← rary_elt a idx;
  a ← (if idx =? 0 then
         a ← for_range 0 n (λ i a, rary_replace a i Qnil) a;
         Ok (if n <? len a then set_beg (u64 (beg a + n)) a else set_beg 0 a)
       else
         a ← for_range idx (u64 (len a - n))
               (λ i a, v ← rary_elt a (u64 (i + n)); rary_replace a i v) a;
         for_range 0 n (λ i a, rary_replace a (u64 (len a - i - 1)) Qnil) a);
  Ok (item, set_len (u64 (len a - n)) a).

Definition rary_store (a : rb_ary_t) (idx item : Z) : res rb_ary_t :=
  a ← (if len a <=? idx then
         a ← rary_reserve a (u64 (idx + 1));
         a ← for_range (len a) (u64 (idx + 1)) (λ i a, rary_replace a i Qnil) a;
         Ok (set_len (u64 (idx + 1)) a)
       else Ok a);
  rary_replace a idx item.

Definition rary_resize (a : rb_ary_t) (newlen : Z) : res rb_ary_t :=
  a ← (if cap a <? newlen then rary_reserve a newlen else Ok a);
  a ← for_range (len a) newlen (λ i a, rary_replace a i Qnil) a;
  Ok (set_len newlen a).

(** [rary_concat], where [other] is another array than [ary]. *)
Definition rary_concat (a other : rb_ary_t) (b n : Z) : res rb_ary_t :=
  a ← rary_reserve a (u64 (len a + n));
  a ← for_range 0 n
        (λ i a, v ← rary_elt other (u64 (b + i)); rary_replace a (u64 (i + len a)) v) a;
  Ok (set_len (u64 (len a + n)) a).

(** [rary_concat(ary, ary, beg, len)]: every read sees the writes before it. *)
Definition rary_concat_self (a : rb_ary_t) (b n : Z) : res rb_ary_t :=
  a ← rary_reserve a (u64 (len a + n));
  a ← for_range 0 n
        (λ i a, v ← rary_elt a (u64 (b + i)); rary_replace a (u64 (i + len a)) v) a;
  Ok (set_len (u64 (len a + n)) a).

Definition rary_reverse (a : rb_ary_t) : res rb_ary_t :=
  if 1 <? len a then
    for_range 0 (len a / 2)
      (λ i a, let j := len a - i - 1 in
              elem ← rary_elt a i;
              v ← rary_elt a j;
              a ← rary_replace a i v;
              rary_replace a j elem) a
  else Ok a.

Definition rary_clear (a : rb_ary_t) : res rb_ary_t :=
  e ← for_range 0 (len a) (λ i e, astore e i (Some 0)) (elements a);
  Ok (set_len 0 (set_elements e a)).

(** ** Flags and guards *)

Definition FL_TAINT : Z := Z.shiftl 1 8.
Definition FL_UNTRUSTED : Z := Z.shiftl 1 9.
Definition FL_FREEZE : Z := Z.shiftl 1 11.

Definition FL_TEST (a : rb_ary_t) (f : Z) : bool := negb (Z.land (flags a) f =? 0).
Definition FL_SET (a : rb_ary_t) (f : Z) : rb_ary_t := set_flags (Z.lor (flags a) f) a.

Definition rb_ary_modify (safe_level : Z) (a : rb_ary_t) : res unit :=
  if flags a =? 0 then Ok () else
  if Z.land (flags a) FL_FREEZE =? FL_FREEZE then Err (Raise RuntimeError) else
  if (Z.land (flags a) FL_TAINT =? FL_TAINT) && (4 <=? safe_level)
  then Err (Raise SecurityError) else Ok ().

(** ** Creation *)

Definition ary_alloc : rb_ary_t := mkAry 0 0 0 0 [].

Definition assert_ary_len (n : Z) : res unit :=
  if n <? 0 then Err (Raise ArgumentError) else
  if LONG_MAX / 8 <? n then Err (Raise ArgumentError) else Ok ().

Definition ary_new (n : Z) : res rb_ary_t :=
  _ ← assert_ary_len n; rary_reserve ary_alloc n.

Definition ARY_DEFAULT_SIZE : Z := 16.
Definition rb_ary_new2 (n : Z) : res rb_ary_t := ary_new n.
Definition rb_ary_new : res rb_ary_t := rb_ary_new2 ARY_DEFAULT_SIZE.

Fixpoint append_all (a : rb_ary_t) (l : list Z) : res rb_ary_t :=
  match l with
  | [] => Ok a
  | x :: l' => a ← rary_append a x; append_all a l'
  end.

Definition rb_ary_new_fast (argv : list Z) : res rb_ary_t :=
  if 0 <? zlen argv then
    a ← rary_reserve ary_alloc (zlen argv); append_all a argv
  else Ok ary_alloc.

Definition rb_ary_new3 (elts : list Z) : res rb_ary_t :=
  a ← rb_ary_new2 (zlen elts);
  if 0 <? zlen elts then
    a ← rary_reserve a (zlen elts); append_all a elts
  else Ok a.

Definition rb_ary_new4 (elts : list Z) : res rb_ary_t :=
  a ← rb_ary_new2 (zlen elts); append_all a elts.

Definition rb_assoc_new (car cdr : Z) : res rb_ary_t := rb_ary_new3 [car; cdr].

(** ** Access *)

Definition rb_ary_len (a : rb_ary_t) : Z := s64 (len a).

Definition rb_ary_elt (a : rb_ary_t) (offset : Z) : res Z :=
  if u64 offset <? len a then rary_elt a (u64 offset) else Ok Qnil.

Definition rb_ary_entry (a : rb_ary_t) (offset : Z) : res Z :=
  let n := rb_ary_len a in
  if n =? 0 then Ok Qnil else
  let offset := if offset <? 0 then offset + n else offset in
  if (offset <? 0) || (n <=? offset) then Ok Qnil else rb_ary_elt a offset.

(** The result is a new array or [nil]. *)
Definition rb_ary_subseq (a : rb_ary_t) (b n : Z) : res (option rb_ary_t) :=
  if (b <? 0) || (n <? 0) then Ok None else
  let alen := rb_ary_len a in
  if alen <? b then Ok None else
  let n := if (alen <? n) || (alen <? s64 (b + n)) then alen - b else n in
  if 0 <? n then c ← rary_concat ary_alloc a b n; Ok (Some c) else Ok (Some ary_alloc).

(** range.c, [rb_range_beg_len], for a range whose ends are integers: the
    outcome is [Some (beg, len)] or [None] for [nil]. *)
Definition rb_range_beg_len (b e : Z) (excl : bool) (n err : Z) : res (option (Z * Z)) :=
  let out_of_range := if err =? 0 then Ok None else Err (Raise RangeError) in
  let b := if b <? 0 then b + n else b in
  if b <? 0 then out_of_range else
  let clamp := (err =? 0) || (err =? 2) in
  if clamp && (n <? b) then out_of_range else
  let e := if clamp && (n <? e) then n else e in
  let e := if e <? 0 then e + n else e in
  let e := if excl then e else s64 (e + 1) in
  let l := s64 (e - b) in
  Ok (Some (b, if l <? 0 then 0 else l)).

(** An index argument: an integer, an offset and a length, or a range. *)
Inductive selector :=
  | SIndex (i : Z)
  | SSlice (b n : Z)
  | SRange (b e : Z) (excl : bool).

(** What [Array#[]] and [Array#slice!] return. *)
Inductive selected := Elt (v : Z) | Sub (a : option rb_ary_t).

Definition rb_ary_aref (a : rb_ary_t) (s : selector) : res selected :=
  match s with
  | SSlice b n =>
      let b := if b <? 0 then b + rb_ary_len a else b in
      Sub <$> rb_ary_subseq a b n
  | SIndex i => Elt <$> rb_ary_entry a i
  | SRange b e excl =>
      o ← rb_range_beg_len b e excl (rb_ary_len a) 0;
      match o with
      | None => Ok (Elt Qnil)
      | Some (b, n) => Sub <$> rb_ary_subseq a b n
      end
  end.

Definition rb_ary_at (a : rb_ary_t) (pos : Z) : res Z := rb_ary_entry a pos.

(** ** Operations that dispatch to the rest of the interpreter

    What the operations below use of it: the [$SAFE] level, the type tag of an
    object, and [==] between two objects that are not both special constants,
    which does not change the arrays at hand. *)

Class Runtime := {
  rb_safe_level : Z;
  heap_type : Z → ruby_value_type;
  rb_equal : Z → Z → bool
}.

Section operations.
Context `{RT : Runtime}.

Definition ary_modify (a : rb_ary_t) : res unit := rb_ary_modify rb_safe_level a.

Definition rb_equal_fast (x y : Z) : bool :=
  if x =? y then true else
  if SPECIAL_CONST_P x && SPECIAL_CONST_P y &&
     bool_decide (rb_type heap_type x = rb_type heap_type y) then false else
  if bool_decide (rb_type heap_type x = T_SYMBOL) then x =? y else
  rb_equal x y.

Definition NOT_FOUND : Z := LONG_MAX.

Fixpoint index_from (n : nat) (i : Z) (a : rb_ary_t) (item : Z) : res Z :=
  match n with
  | O => Ok NOT_FOUND
  | S n' =>
      item2 ← rary_elt a i;
      if rb_equal_fast item item2 then Ok i else index_from n' (i + 1) a item
  end.

Definition rary_index_of_item (a : rb_ary_t) (origin item : Z) : res Z :=
  _ ← check (origin <? len a) AssertFailed;
  index_from (Z.to_nat (len a - origin)) origin a item.

(** *** Adding and removing *)

Definition rb_ary_erase (a : rb_ary_t) (offset : Z) : res (Z * rb_ary_t) :=
  rary_erase a (u64 offset) 1.

Definition rb_ary_push (a : rb_ary_t) (item : Z) : res rb_ary_t :=
  _ ← ary_modify a; rary_append a item.

Definition rb_ary_append (a : rb_ary_t) (argv : list Z) : res rb_ary_t :=
  _ ← ary_modify a;
  a ← rary_reserve a (zlen argv);
  append_all a argv.

Definition rb_ary_s_create (argv : list Z) : res rb_ary_t := rb_ary_append ary_alloc argv.

Definition rb_ary_resize (a : rb_ary_t) (new_len : Z) : res rb_ary_t :=
  rary_resize a (u64 new_len).

Definition rb_ary_insert (a : rb_ary_t) (idx val : Z) : res rb_ary_t :=
  idx ← (if idx <? 0 then
           let idx := idx + rb_ary_len a in
           if idx <? 0 then Err (Raise IndexError) else Ok idx
         else Ok idx);
  if len a <? idx then
    a ← rary_resize a (idx + 1); rary_store a idx val
  else rary_insert a idx val.

Definition rb_ary_store (a : rb_ary_t) (idx val : Z) : res rb_ary_t :=
  idx ← (if idx <? 0 then
           let idx := idx + rb_ary_len a in
           if idx <? 0 then Err (Raise IndexError) else Ok idx
         else Ok idx);
  rary_store a idx val.

(** [first(n)], [last(n)], [shift(n)] and [pop(n)]. *)
Definition ary_shared_first (a : rb_ary_t) (n : Z) (last remove : bool)
    : res (rb_ary_t * rb_ary_t) :=
  let ary_len := rb_ary_len a in
  n ← (if ary_len <? n then Ok ary_len else
       if n <? 0 then Err (Raise ArgumentError) else Ok n);
  let offset := if last then ary_len - n else 0 in
  result ← rb_ary_new;
  result ← for_range 0 n
    (λ i r, item ← rb_ary_elt a (i + offset); rary_append r item) result;
  a ← (if remove then for_range 0 n (λ _ a, snd <$> rb_ary_erase a offset) a else Ok a);
  Ok (result, a).

Fixpoint rb_ary_push_m (a : rb_ary_t) (argv : list Z) : res rb_ary_t :=
  match argv with
  | [] => _ ← ary_modify a; Ok a
  | [item] => rb_ary_push a item
  | item :: argv' => a ← rb_ary_push a item; rb_ary_push_m a argv'
  end.

Definition rb_ary_pop (a : rb_ary_t) : res (Z * rb_ary_t) :=
  _ ← ary_modify a;
  let n := rb_ary_len a in
  if n =? 0 then Ok (Qnil, a) else rb_ary_erase a (n - 1).

Definition rb_ary_pop_n (a : rb_ary_t) (n : Z) : res (rb_ary_t * rb_ary_t) :=
  _ ← ary_modify a; ary_shared_first a n true true.

Definition rb_ary_shift (a : rb_ary_t) : res (Z * rb_ary_t) :=
  _ ← ary_modify a;
  if rb_ary_len a =? 0 then Ok (Qnil, a) else rb_ary_erase a 0.

Definition rb_ary_shift_n (a : rb_ary_t) (n : Z) : res (rb_ary_t * rb_ary_t) :=
  _ ← ary_modify a; ary_shared_first a n false true.

Fixpoint unshift_loop (a : rb_ary_t) (rev_argv : list Z) : res rb_ary_t :=
  match rev_argv with
  | [] => Ok a
  | x :: l => a ← rb_ary_insert a 0 x; unshift_loop a l
  end.

(** [for (int i = argc - 1; i >= 0; i--)] *)
Definition rb_ary_unshift_m (a : rb_ary_t) (argv : list Z) : res rb_ary_t :=
  _ ← ary_modify a; unshift_loop a (reverse argv).

Definition rb_ary_unshift (a : rb_ary_t) (item : Z) : res rb_ary_t := rb_ary_unshift_m a [item].

Definition rb_ary_first (a : rb_ary_t) : res Z :=
  if rb_ary_len a =? 0 then Ok Qnil else rb_ary_elt a 0.
Definition rb_ary_first_n (a : rb_ary_t) (n : Z) : res rb_ary_t :=
  fst <$> ary_shared_first a n false false.
Definition rb_ary_last (a : rb_ary_t) : res Z :=
  let n := rb_ary_len a in if n =? 0 then Ok Qnil else rb_ary_elt a (n - 1).
Definition rb_ary_last_n (a : rb_ary_t) (n : Z) : res rb_ary_t :=
  fst <$> ary_shared_first a n true false.

Definition rb_ary_delete_at (a : rb_ary_t) (pos : Z) : res (Z * rb_ary_t) :=
  let n := rb_ary_len a in
  if n <=? pos then Ok (Qnil, a) else
  let pos := if pos <? 0 then pos + n else pos in
  if pos <? 0 then Ok (Qnil, a) else
  _ ← ary_modify a;
  rary_erase a pos 1.

(** *** Whole-array operations *)

Definition rb_ary_dup (a : rb_ary_t) : res rb_ary_t :=
  dup ← rb_ary_new;
  dup ← rary_concat dup a 0 (len a);
  let dup := if FL_TEST a FL_TAINT then FL_SET dup FL_TAINT else dup in
  Ok (if FL_TEST a FL_UNTRUSTED then FL_SET dup FL_UNTRUSTED else dup).

Definition rb_ary_clone (a : rb_ary_t) : res rb_ary_t :=
  c ← rb_ary_dup a;
  let c := if FL_TEST a FL_FREEZE then FL_SET c FL_FREEZE else c in
  Ok (if FL_TEST a FL_UNTRUSTED then FL_SET c FL_UNTRUSTED else c).

Definition rb_ary_concat (x y : rb_ary_t) : res rb_ary_t := rary_concat x y 0 (len y).

Definition rb_ary_concat_imp (x y : rb_ary_t) : res rb_ary_t :=
  _ ← ary_modify x; rb_ary_concat x y.

(** [x.concat(x)] *)
Definition rb_ary_concat_self (x : rb_ary_t) : res rb_ary_t :=
  _ ← ary_modify x; rary_concat_self x 0 (len x).

Definition rb_ary_plus (x y : rb_ary_t) : res rb_ary_t :=
  z ← rb_ary_new2 0;
  z ← rary_reserve z (u64 (rb_ary_len x + rb_ary_len y));
  z ← rb_ary_concat z x;
  rb_ary_concat z y.

(** [Array#*] with an integer. *)
Definition rb_ary_times (a : rb_ary_t) (times : Z) : res rb_ary_t :=
  if times <? 0 then Err (Raise ArgumentError) else
  ary2 ← ary_new 0;
  ary2 ← (if 0 <? times then
            if LONG_MAX / times <? rb_ary_len a then Err (Raise ArgumentError) else
            for_range 0 times (λ _ z, rb_ary_concat z a) ary2
          else Ok ary2);
  let ary2 := if FL_TEST a FL_TAINT then FL_SET ary2 FL_TAINT else ary2 in
  Ok (if FL_TEST a FL_UNTRUSTED then FL_SET ary2 FL_UNTRUSTED else ary2).

(** [copy] and [orig] are two arrays. *)
Definition rb_ary_replace (copy orig : rb_ary_t) : res rb_ary_t :=
  _ ← ary_modify copy;
  c ← rary_clear copy;
  rary_concat c orig 0 (len orig).

Definition rb_ary_clear (a : rb_ary_t) : res rb_ary_t := _ ← ary_modify a; rary_clear a.

Definition rb_ary_reverse (a : rb_ary_t) : res rb_ary_t := _ ← ary_modify a; rary_reverse a.

Definition rb_ary_reverse_m (a : rb_ary_t) : res rb_ary_t :=
  d ← rb_ary_dup a; rb_ary_reverse d.

(** [Array.new(size, val)] on a fresh receiver. *)
Definition rb_ary_initialize (a : rb_ary_t) (n val : Z) : res rb_ary_t :=
  _ ← assert_ary_len n;
  _ ← ary_modify a;
  a ← rb_ary_resize a n;
  for_range 0 n (λ i a, rb_ary_store a i val) a.

(** [rb_ary_splice]: [rpl] is [None] for [Qundef], otherwise the replacement
    after [rb_ary_to_ary] and, if it was the receiver, [rb_ary_dup]. *)
Definition rb_ary_splice (a : rb_ary_t) (b n : Z) (rpl : option rb_ary_t) : res rb_ary_t :=
  let alen := rb_ary_len a in
  if n <? 0 then Err (Raise IndexError) else
  b ← (if b <? 0 then
         let b := b + alen in if b <? 0 then Err (Raise IndexError) else Ok b
       else Ok b);
  let n := if (alen <? n) || (alen <? s64 (b + n)) then alen - b else n in
  let rlen := match rpl with Some r => rb_ary_len r | None => 0 end in
  let r := default ary_alloc rpl in
  _ ← ary_modify a;
  if alen <=? b then
    a ← for_range alen b (λ _ a, rary_append a Qnil) a;
    if 0 <? rlen then rary_concat a r 0 rlen else Ok a
  else if n =? rlen then
    for_range 0 n (λ i a, v ← rary_elt r i; rary_replace a (b + i) v) a
  else
    '(_, a) ← rary_erase a b n;
    for_range 0 rlen (λ i a, v ← rary_elt r i; rary_insert a (b + i) v) a.

(** [Array#[]=]; the value is an array for the last two forms. *)
Definition rb_ary_aset_slice (a : rb_ary_t) (b n : Z) (v : rb_ary_t) : res rb_ary_t :=
  rb_ary_splice a b n (Some v).
Definition rb_ary_aset_range (a : rb_ary_t) (b e : Z) (excl : bool) (v : rb_ary_t) : res rb_ary_t :=
  o ← rb_range_beg_len b e excl (rb_ary_len a) 1;
  match o with
  | Some (b, n) => rb_ary_splice a b n (Some v)
  | None => Ok a
  end.
Definition rb_ary_aset_index (a : rb_ary_t) (i v : Z) : res rb_ary_t := rb_ary_store a i v.

Definition rb_ary_insert_m (a : rb_ary_t) (pos : Z) (args : list Z) : res rb_ary_t :=
  match args with
  | [] => _ ← ary_modify a; Ok a
  | _ =>
      let pos := if pos =? -1 then rb_ary_len a else pos in
      let pos := if pos <? 0 then pos + 1 else pos in
      _ ← ary_modify a;
      match args with
      | [v] => rb_ary_insert a pos v
      | _ => r ← rb_ary_new4 args; rb_ary_splice a pos 0 (Some r)
      end
  end.

Definition rb_ary_slice_bang (a : rb_ary_t) (s : selector) : res (selected * rb_ary_t) :=
  _ ← ary_modify a;
  let alen := rb_ary_len a in
  let delete_pos_len pos n :=
    let pos := if pos <? 0 then alen + pos else pos in
    if pos <? 0 then Ok (Sub None, a) else
    let n := if (alen <? n) || (alen <? s64 (pos + n)) then alen - pos else n in
    arg2 ← rb_ary_subseq a pos n;
    a ← rb_ary_splice a pos n None;
    Ok (Sub arg2, a) in
  match s with
  | SSlice pos n => delete_pos_len pos n
  | SRange b e excl =>
      o ← rb_range_beg_len b e excl alen 0;
      match o with
      | Some (pos, n) => delete_pos_len pos n
      | None => Ok (Sub None, a)
      end
  | SIndex i => '(v, a) ← rb_ary_delete_at a i; Ok (Elt v, a)
  end.

(** *** Search and removal by equality *)

(** [while (pos < len && (pos = rary_index_of_item(ary, pos, item)) != NOT_FOUND)
    rary_erase(ary, pos, 1)]; each iteration removes an element. *)
Fixpoint delete_loop (fuel : nat) (a : rb_ary_t) (pos item : Z) (changed : bool)
    : res (bool * rb_ary_t) :=
  match fuel with
  | O => Err NoFuel
  | S fuel' =>
      if pos <? len a then
        pos ← rary_index_of_item a pos item;
        if pos =? NOT_FOUND then Ok (changed, a) else
        '(_, a) ← rary_erase a pos 1;
        delete_loop fuel' a pos item true
      else Ok (changed, a)
  end.

(** [Array#delete] without a block. *)
Definition rb_ary_delete (a : rb_ary_t) (item : Z) : res (Z * rb_ary_t) :=
  _ ← ary_modify a;
  '(changed, a) ← delete_loop (S (Z.to_nat (len a))) a 0 item false;
  Ok (if changed : bool then item else Qnil, a).

Fixpoint uniq_inner (fuel : nat) (a : rb_ary_t) (n pos item : Z) (changed : bool)
    : res (bool * Z * rb_ary_t) :=
  match fuel with
  | O => Err NoFuel
  | S fuel' =>
      if pos <? n then
        pos ← rary_index_of_item a pos item;
        if pos =? NOT_FOUND then Ok (changed, n, a) else
        '(_, a) ← rary_erase a pos 1;
        uniq_inner fuel' a (n - 1) pos item true
      else Ok (changed, n, a)
  end.

Fixpoint uniq_outer (fuel : nat) (a : rb_ary_t) (n i : Z) (changed : bool)
    : res (bool * rb_ary_t) :=
  match fuel with
  | O => Err NoFuel
  | S fuel' =>
      if i <? n then
        item ← rary_elt a i;
        '(changed, n, a) ← uniq_inner (S (Z.to_nat n)) a n (i + 1) item changed;
        uniq_outer fuel' a n (i + 1) changed
      else Ok (changed, a)
  end.

(** The first component of the result tells whether the array changed; the
    method returns [nil] if it did not. *)
Definition rb_ary_uniq_bang (a : rb_ary_t) : res (bool * rb_ary_t) :=
  _ ← ary_modify a;
  let n := rb_ary_len a in
  uniq_outer (S (Z.to_nat n)) a n 0 false.

Definition rb_ary_uniq (a : rb_ary_t) : res rb_ary_t :=
  d ← rb_ary_dup a; snd <$> rb_ary_uniq_bang d.

Definition rb_ary_compact_bang (a : rb_ary_t) : res (bool * rb_ary_t) :=
  let n := rb_ary_len a in
  '(_, a) ← rb_ary_delete a Qnil;
  Ok (negb (rb_ary_len a =? n), a).

Definition rb_ary_compact (a : rb_ary_t) : res rb_ary_t :=
  d ← rb_ary_dup a; snd <$> rb_ary_compact_bang d.

Definition rb_ary_includes (a : rb_ary_t) (item : Z) : res bool :=
  if len a =? 0 then Ok false else
  i ← rary_index_of_item a 0 item; Ok (negb (i =? NOT_FOUND)).

(** [Array#index(obj)]: the index or [nil]. *)
Definition rb_ary_index (a : rb_ary_t) (item : Z) : res (option Z) :=
  if 0 <? rb_ary_len a then
    pos ← rary_index_of_item a 0 item;
    Ok (if pos =? NOT_FOUND then None else Some pos)
  else Ok None.

Fixpoint count_loop (fuel : nat) (a : rb_ary_t) (count pos obj n : Z) : res Z :=
  match fuel with
  | O => Err NoFuel
  | S fuel' =>
      pos ← rary_index_of_item a pos obj;
      if pos =? NOT_FOUND then Ok n else
      let n := n + 1 in
      let pos := pos + 1 in
      if pos =? count then Ok n else count_loop fuel' a count pos obj n
  end.

(** [Array#count(obj)] *)
Definition rb_ary_count (a : rb_ary_t) (obj : Z) : res Z :=
  let count := rb_ary_len a in
  count_loop (S (Z.to_nat count)) a count 0 obj 0.

(** [Array#-], the branch for operands of fewer than 100 elements (larger ones
    go through a hash). *)
Definition rb_ary_diff (ary1 ary2 : rb_ary_t) : res rb_ary_t :=
  ary3 ← rb_ary_new;
  if rb_ary_len ary2 =? 0 then rb_ary_concat ary3 ary1 else
  ary3 ← rary_reserve ary3 (u64 (rb_ary_len ary1));
  for_range 0 (rb_ary_len ary1)
    (λ i ary3, elem ← rary_elt ary1 i;
               j ← rary_index_of_item ary2 0 elem;
               if j =? NOT_FOUND then rary_append ary3 elem else Ok ary3) ary3.

Fixpoint equal_loop (n : nat) (i : Z) (isnan : Z → bool) (ary1 ary2 : rb_ary_t) : res bool :=
  match n with
  | O => Ok true
  | S n' =>
      item1 ← rary_elt ary1 i;
      item2 ← rary_elt ary2 i;
      if (FIXFLOAT_P item1 && isnan item1) || (FIXFLOAT_P item2 && isnan item2) then Ok false else
      if rb_equal_fast item1 item2 then equal_loop n' (i + 1) isnan ary1 ary2 else Ok false
  end.

(** [rb_ary_equal]; [isnan] is the test of C on the number a fixfloat holds. *)
Definition rb_ary_equal (isnan : Z → bool) (ary1 ary2 : rb_ary_t) : res bool :=
  if negb (len ary1 =? len ary2) then Ok false else
  equal_loop (Z.to_nat (len ary1)) 0 isnan ary1 ary2.

Fixpoint recursive_cmp (n : nat) (i : Z) (objs_cmp : Z → Z → Z) (ary1 ary2 : rb_ary_t)
    : res (option Z) :=
  match n with
  | O => Ok None
  | S n' =>
      x ← rb_ary_elt ary1 i;
      y ← rb_ary_elt ary2 i;
      let v := objs_cmp x y in
      if v =? INT2FIX 0 then recursive_cmp n' (i + 1) objs_cmp ary1 ary2 else Ok (Some v)
  end.

(** [Array#<=>] between two arrays; [objs_cmp] is [<=>] on elements, and
    [None] above stands for [Qundef]. *)
Definition rb_ary_cmp (objs_cmp : Z → Z → Z) (ary1 ary2 : rb_ary_t) : res Z :=
  let n := rb_ary_len ary1 in
  let n := if rb_ary_len ary2 <? n then rb_ary_len ary2 else n in
  v ← recursive_cmp (Z.to_nat n) 0 objs_cmp ary1 ary2;
  match v with
  | Some v => Ok v
  | None =>
      let d := rb_ary_len ary1 - rb_ary_len ary2 in
      Ok (if d =? 0 then INT2FIX 0 else if 0 <? d then INT2FIX 1 else INT2FIX (-1))
  end.

Definition rb_ary_fetch (a : rb_ary_t) (idx : Z) (ifnone : option Z) : res Z :=
  let idx := if idx <? 0 then idx + rb_ary_len a else idx in
  if (idx <? 0) || (rb_ary_len a <=? idx) then
    match ifnone with Some v => Ok v | None => Err (Raise IndexError) end
  else rb_ary_elt a idx.

Definition rb_ary_take (a : rb_ary_t) (n : Z) : res (option rb_ary_t) :=
  if n <? 0 then Err (Raise ArgumentError) else rb_ary_subseq a 0 n.

Definition rb_ary_drop (a : rb_ary_t) (pos : Z) : res rb_ary_t :=
  if pos <? 0 then Err (Raise ArgumentError) else
  r ← rb_ary_subseq a pos (rb_ary_len a);
  match r with Some r => Ok r | None => rb_ary_new end.

(** The selection of [Array#fill]: a start and a length, each optional, or a
    range. *)
Inductive fill_args := FillSlice (arg1 arg2 : option Z) | FillRange (b e : Z) (excl : bool).

Definition fill_bounds (alen : Z) (args : fill_args) : res (Z * Z) :=
  match args with
  | FillRange b e excl =>
      o ← rb_range_beg_len b e excl alen 1;
      Ok (default (0, 0) o)
  | FillSlice arg1 arg2 =>
      let b := default 0 arg1 in
      let b := if b <? 0 then alen + b else b in
      let b := if b <? 0 then 0 else b in
      Ok (b, match arg2 with Some n => n | None => alen - b end)
  end.

(** [Array#fill] with an item. *)
Definition rb_ary_fill (a : rb_ary_t) (item : Z) (args : fill_args) : res rb_ary_t :=
  '(b, n) ← fill_bounds (rb_ary_len a) args;
  _ ← ary_modify a;
  if n <? 0 then Ok a else
  let e := s64 (b + n) in
  if e <? 0 then Err (Raise ArgumentError) else
  for_range b e (λ i a, rb_ary_store a i item) a.

(** *** Operations with a block

    A block receives a value, may change its own state and the receiver, and
    either returns a value or leaves the method with [break]. *)

Inductive yielded := Yield (v : Z) | Broken (v : Z).

Section blocks.
Context {U : Type} (block : Z → U * rb_ary_t → res (yielded * (U * rb_ary_t))).

(** What a method returns: the receiver, a new array, [nil] (or another
    value), or the value of a [break]. *)
Inductive outcome := Self | New (a : rb_ary_t) | Value (v : Z) | Break (v : Z).

Definition rb_ary_each (fuel : nat) (s : U * rb_ary_t) : res (outcome * (U * rb_ary_t)) :=
  iter fuel (λ '(i, s),
    if i <? rb_ary_len s.2 then
      x ← rb_ary_elt s.2 i;
      '(y, s) ← block x s;
      match y with
      | Broken v => Ok (inr (Break v, s))
      | Yield _ => Ok (inl (i + 1, s))
      end
    else Ok (inr (Self, s))) (0, s).

(** [while (len--) { ...; if (n < len) len = n; }] *)
Definition rb_ary_reverse_each (fuel : nat) (s : U * rb_ary_t) : res (outcome * (U * rb_ary_t)) :=
  iter fuel (λ '(l, s),
    if l =? 0 then Ok (inr (Self, s)) else
    let l := l - 1 in
    x ← rb_ary_elt s.2 l;
    '(y, s) ← block x s;
    match y with
    | Broken v => Ok (inr (Break v, s))
    | Yield _ => let n := rb_ary_len s.2 in Ok (inl (if n <? l then n else l, s))
    end) (rb_ary_len s.2, s).

Definition rb_ary_collect (fuel : nat) (s : U * rb_ary_t) : res (outcome * (U * rb_ary_t)) :=
  c ← rb_ary_new;
  c ← (if rb_ary_len c <? rb_ary_len s.2 then rary_reserve c (u64 (rb_ary_len s.2)) else Ok c);
  iter fuel (λ '(i, c, s),
    if i <? rb_ary_len s.2 then
      x ← rb_ary_elt s.2 i;
      '(y, s) ← block x s;
      match y with
      | Broken v => Ok (inr (Break v, s))
      | Yield v => c ← rb_ary_push c v; Ok (inl (i + 1, c, s))
      end
    else Ok (inr (New c, s))) (0, c, s).

Definition rb_ary_collect_bang (fuel : nat) (s : U * rb_ary_t) : res (outcome * (U * rb_ary_t)) :=
  _ ← ary_modify s.2;
  iter fuel (λ '(i, s),
    if i <? rb_ary_len s.2 then
      x ← rb_ary_elt s.2 i;
      '(y, s) ← block x s;
      match y with
      | Broken v => Ok (inr (Break v, s))
      | Yield v => a ← rb_ary_store s.2 i v; Ok (inl (i + 1, (s.1, a)))
      end
    else Ok (inr (Self, s))) (0, s).

(** [Array.new(n) { |i| ... }] *)
Definition rb_ary_initialize_block (n : Z) (s : U * rb_ary_t) : res (outcome * (U * rb_ary_t)) :=
  _ ← assert_ary_len n;
  _ ← ary_modify s.2;
  a ← rb_ary_clear s.2;
  iter (S (Z.to_nat n)) (λ '(i, s),
    if i <? n then
      '(y, s) ← block (INT2FIX i) s;
      match y with
      | Broken v => Ok (inr (Break v, s))
      | Yield v => a ← rb_ary_push s.2 v; Ok (inl (i + 1, (s.1, a)))
      end
    else Ok (inr (Self, s))) (0, (s.1, a)).

(** [Array#fill] with a block. *)
Definition rb_ary_fill_block (args : fill_args) (s : U * rb_ary_t) : res (outcome * (U * rb_ary_t)) :=
  '(b, n) ← fill_bounds (rb_ary_len s.2) args;
  _ ← ary_modify s.2;
  if n <? 0 then Ok (Self, s) else
  let e := s64 (b + n) in
  if e <? 0 then Err (Raise ArgumentError) else
  iter (S (Z.to_nat (e - b))) (λ '(i, s),
    if i <? e then
      '(y, s) ← block (INT2FIX i) s;
      match y with
      | Broken v => Ok (inr (Break v, s))
      | Yield v => a ← rb_ary_store s.2 i v; Ok (inl (i + 1, (s.1, a)))
      end
    else Ok (inr (Self, s))) (b, s).

Definition rb_ary_each_index (s : U * rb_ary_t) : res (outcome * (U * rb_ary_t)) :=
  let n := rb_ary_len s.2 in
  iter (S (Z.to_nat n)) (λ '(i, s),
    if i <? n then
      '(y, s) ← block (INT2FIX i) s;
      match y with
      | Broken v => Ok (inr (Break v, s))
      | Yield _ => Ok (inl (i + 1, s))
      end
    else Ok (inr (Self, s))) (0, s).

(** [Array#index { ... }] *)
Definition rb_ary_index_block (s : U * rb_ary_t) : res (outcome * (U * rb_ary_t)) :=
  let n := rb_ary_len s.2 in
  iter (S (Z.to_nat n)) (λ '(i, s),
    if i <? n then
      x ← rb_ary_elt s.2 i;
      '(y, s) ← block x s;
      match y with
      | Broken v => Ok (inr (Break v, s))
      | Yield v => if RTEST v then Ok (inr (Value (INT2FIX i), s)) else Ok (inl (i + 1, s))
      end
    else Ok (inr (Value Qnil, s))) (0, s).

(** [Array#count { ... }] *)
Definition rb_ary_count_block (s : U * rb_ary_t) : res (outcome * (U * rb_ary_t)) :=
  let count := rb_ary_len s.2 in
  iter (S (Z.to_nat count)) (λ '(i, n, s),
    if i <? count then
      x ← rb_ary_elt s.2 i;
      '(y, s) ← block x s;
      match y with
      | Broken v => Ok (inr (Break v, s))
      | Yield v => Ok (inl (i + 1, if RTEST v then n + 1 else n, s))
      end
    else Ok (inr (Value (INT2FIX n), s))) (0, 0, s).

Definition rb_ary_select (s : U * rb_ary_t) : res (outcome * (U * rb_ary_t)) :=
  let n := rb_ary_len s.2 in
  r ← rb_ary_new2 n;
  iter (S (Z.to_nat n)) (λ '(i, r, s),
    if i <? n then
      v ← rb_ary_elt s.2 i;
      '(y, s) ← block v s;
      match y with
      | Broken v => Ok (inr (Break v, s))
      | Yield v2 =>
          r ← (if RTEST v2 then rb_ary_push r v else Ok r);
          Ok (inl (i + 1, r, s))
      end
    else Ok (inr (New r, s))) (0, r, s).

Definition rb_ary_reject_bang (s : U * rb_ary_t) : res (outcome * (U * rb_ary_t)) :=
  _ ← ary_modify s.2;
  let orign := rb_ary_len s.2 in
  iter (S (Z.to_nat orign)) (λ '(i1, n, s),
    if i1 <? n then
      v ← rb_ary_elt s.2 i1;
      '(y, s) ← block v s;
      match y with
      | Broken v => Ok (inr (Break v, s))
      | Yield v2 =>
          if RTEST v2 then
            '(_, a) ← rb_ary_erase s.2 i1;
            Ok (inl (i1, n - 1, (s.1, a)))
          else Ok (inl (i1 + 1, n, s))
      end
    else Ok (inr (if n =? orign then Value Qnil else Self, s))) (0, orign, s).

(** The loop of [take_while] and [drop_while]: the index of the first element
    for which the block is false. *)
Definition while_index (fuel : nat) (s : U * rb_ary_t) : res ((Z + Z) * (U * rb_ary_t)) :=
  iter fuel (λ '(i, s),
    if i <? rb_ary_len s.2 then
      x ← rb_ary_elt s.2 i;
      '(y, s) ← block x s;
      match y with
      | Broken v => Ok (inr (inr v, s))
      | Yield v => if RTEST v then Ok (inl (i + 1, s)) else Ok (inr (inl i, s))
      end
    else Ok (inr (inl i, s))) (0, s).

Definition rb_ary_take_while (fuel : nat) (s : U * rb_ary_t) : res (outcome * (U * rb_ary_t)) :=
  '(r, s) ← while_index fuel s;
  match r with
  | inr v => Ok (Break v, s)
  | inl i => o ← rb_ary_take s.2 i;
             Ok (match o with Some r => New r | None => Value Qnil end, s)
  end.

Definition rb_ary_drop_while (fuel : nat) (s : U * rb_ary_t) : res (outcome * (U * rb_ary_t)) :=
  '(r, s) ← while_index fuel s;
  match r with
  | inr v => Ok (Break v, s)
  | inl i => r ← rb_ary_drop s.2 i; Ok (New r, s)
  end.
End blocks.

(** *** Shuffling and counting combinations *)

(** [rb_ary_shuffle_bang]; [rand i] is the index [rb_genrand_real() * i]. *)
Definition rb_ary_shuffle_bang (a : rb_ary_t) (rand : Z → Z) : res rb_ary_t :=
  _ ← ary_modify a;
  for_down (rb_ary_len a) 1 (λ i a,
    let j := rand i in
    let i := i - 1 in
    elem ← rb_ary_elt a i;
    v ← rb_ary_elt a j;
    a ← rb_ary_store a i v;
    rb_ary_store a j elem) a.
End operations.

(** [combi_len], with [long] arithmetic. *)
Definition combi_step (i : Z) (s : Z * Z) : res (Z * Z) :=
  let '(val, n) := s in
  let m := val in
  let val := s64 (val * n) in
  if val <? m then Err (Raise RangeError) else Ok (val / i, n - 1).

Definition combi_len (n k : Z) : res Z :=
  let k := if n <? s64 (k * 2) then n - k else k in
  if k =? 0 then Ok 1 else
  if k <? 0 then Ok 0 else
  '(val, _) ← for_range 1 (k + 1) combi_step (1, n);
  Ok val.
