(* ===== verification/RArrayRep.v ===== *)
(** * array.c: the contents of an array

    [rep a l]: the window of [a] holds the list [l].  The loops of the
    primitives are reasoned about through the cells of the window, of which
    each iteration writes one. *)

From S2P Require Import Prelude RArray.

(** Blocks of more than [2^60] words do not exist; the bound keeps [size_t]
    computations from wrapping. *)
Definition max_cap : Z := 2 ^ 60.
Definition max_len : Z := 2 ^ 59.

Record wf (a : rb_ary_t) : Prop := {
  wf_beg : 0 ≤ beg a;
  wf_len : 0 ≤ len a;
  wf_cap : beg a + len a ≤ cap a;
  wf_els : zlen (elements a) = cap a;
  wf_max : cap a ≤ max_cap
}.

(** The word at index [i] of the window: [Some None] if not initialised, [None]
    if outside the block. *)
Definition cell (a : rb_ary_t) (i : Z) : option (option Z) := zlookup (elements a) (beg a + i).

Record rep (a : rb_ary_t) (l : list Z) : Prop := {
  rep_wf :> wf a;
  rep_len : len a = zlen l;
  rep_cell : ∀ i, 0 ≤ i < zlen l → cell a i = Some (zlookup l i)
}.

(** Same window over a block of the same size. *)
Record shape (a b : rb_ary_t) : Prop := {
  sh_flags : flags b = flags a;
  sh_beg : beg b = beg a;
  sh_len : len b = len a;
  sh_cap : cap b = cap a;
  sh_els : zlen (elements b) = zlen (elements a)
}.

Lemma shape_refl a : shape a a.
Proof. by split. Qed.

Lemma shape_trans a b c : shape a b → shape b c → shape a c.
Proof. intros [] []. split; congruence. Qed.

Lemma shape_wf a b : shape a b → wf a → wf b.
Proof. intros [] []. split; lia. Qed.

#[export] Hint Resolve shape_refl : mruby.

Ltac acbn := cbn [flags beg len cap elements set_beg set_len set_elements set_flags].
Ltac unfold_max := unfold max_cap, max_len in *.

Lemma rep_length_bound a l : rep a l → 0 ≤ zlen l ≤ max_cap.
Proof. intros [[] ? _]. pose proof (zlen_nonneg l). lia. Qed.

Lemma cell_lookup a i : 0 ≤ beg a + i → zlookup (elements a) (beg a + i) = cell a i.
Proof. done. Qed.

Lemma rary_elt_spec a i v :
  wf a → 0 ≤ i → cell a i = Some (Some v) → rary_elt a i = Ok v.
Proof.
  intros [] Hi Hc. unfold rary_elt. pose proof (zlookup_Some_range _ _ _ Hc).
  rewrite u64_small by (unfold_max; lia). unfold aload. rewrite cell_lookup by lia.
  by rewrite Hc.
Qed.

Lemma rary_replace_spec a i v :
  wf a → 0 ≤ beg a + i < cap a →
  ∃ a', rary_replace a i v = Ok a' ∧ shape a a' ∧
    ∀ j, cell a' j = if decide (j = i) then Some (Some v) else cell a j.
Proof.
  intros [] Hi. unfold rary_replace. rewrite u64_small by (unfold_max; lia).
  rewrite astore_ok by lia. eexists. split; [done|]. split.
  - split; cbn; [done..|by rewrite zlen_insert].
  - intros j. unfold cell. cbn. rewrite zlookup_insert by lia.
    repeat case_decide; auto; lia.
Qed.

(** A loop each iteration of which writes one cell.  [F k] gives the cells
    after [k] iterations. *)
Definition writes (a : rb_ary_t) (m : res rb_ary_t) (s : rb_ary_t) (F F' : Z → option (option Z)) :=
  ∃ i v, m = rary_replace s i v ∧ 0 ≤ beg a + i < cap a ∧
    ∀ j, F' j = if decide (j = i) then Some (Some v) else F j.

Section write_loops.
Context (a : rb_ary_t) (F : Z → Z → option (option Z)).
Hypothesis Ha : wf a.

Let P (k : Z) (s : rb_ary_t) : Prop := shape a s ∧ ∀ j, cell s j = F k j.

Lemma writes_returns k k' s m :
  P k s → writes a m s (F k) (F k') → returns m (P k').
Proof.
  intros [Hs Hc] (i & v & -> & Hi & HF). pose proof (shape_wf _ _ Hs Ha) as Hw.
  destruct (rary_replace_spec s i v Hw) as (s' & E & Hs' & Hc').
  { rewrite (sh_beg _ _ Hs), (sh_cap _ _ Hs). done. }
  apply returns_ok with s'; [done|]. split; [by eapply shape_trans|].
  intros j. rewrite Hc', HF, Hc. done.
Qed.

Lemma write_loop_up lo hi g :
  lo ≤ hi → (∀ j, cell a j = F lo j) →
  (∀ k s, lo ≤ k < hi → shape a s → (∀ j, cell s j = F k j) → writes a (g k s) s (F k) (F (k + 1))) →
  ∃ s, for_range lo hi g a = Ok s ∧ shape a s ∧ ∀ j, cell s j = F hi j.
Proof using All.
  intros Hle H0 Hstep.
  destruct (for_range_inv P lo hi g a Hle) as (s & E & Hs & Hc); [by split; auto with mruby| |eauto].
  intros k s Hk [Hs Hc]. eapply writes_returns; [by split|]. by apply Hstep.
Qed.

Lemma write_loop_down hi lo g :
  lo - 1 ≤ hi → (∀ j, cell a j = F hi j) →
  (∀ k s, lo ≤ k ≤ hi → shape a s → (∀ j, cell s j = F k j) → writes a (g k s) s (F k) (F (k - 1))) →
  ∃ s, for_down hi lo g a = Ok s ∧ shape a s ∧ ∀ j, cell s j = F (lo - 1) j.
Proof using All.
  intros Hle H0 Hstep.
  destruct (for_down_inv P hi lo g a Hle) as (s & E & Hs & Hc); [by split; auto with mruby| |eauto].
  intros k s Hk [Hs Hc]. eapply writes_returns; [by split|]. by apply Hstep.
Qed.
End write_loops.

(** Filling with a constant, the loop of [rary_store], [rary_resize] and
    [rary_erase]. *)
Lemma fill_loop a lo hi v :
  wf a → 0 ≤ lo ≤ hi → beg a + hi ≤ cap a →
  ∃ s, for_range lo hi (λ i a, rary_replace a i v) a = Ok s ∧ shape a s ∧
    ∀ j, cell s j = if decide (lo ≤ j < hi) then Some (Some v) else cell a j.
Proof.
  intros Ha Hlo Hcap. pose proof (wf_beg _ Ha).
  set (F := λ k j : Z, if decide (lo ≤ j < k) then Some (Some v) else cell a j).
  apply (write_loop_up a F); [done|lia|unfold F..].
  - intros j. case_decide; [lia|done].
  - intros k s Hk Hs _. exists k, v. split_and!; [done|lia..|].
    intros j. repeat case_decide; auto; lia.
Qed.

Lemma rep_elt a l i v : rep a l → zlookup l i = Some v → rary_elt a i = Ok v.
Proof.
  intros Hr Hl. pose proof (zlookup_Some_range _ _ _ Hl).
  apply rary_elt_spec; [apply Hr|lia|]. rewrite (rep_cell _ _ Hr) by done. by rewrite Hl.
Qed.

Lemma rep_intro a l :
  wf a → len a = zlen l → (∀ i, 0 ≤ i < zlen l → cell a i = Some (zlookup l i)) → rep a l.
Proof. by split. Qed.

(** ** Reserving room

    [rary_reserve] makes room for [n] elements in all cases but one: when the
    window does not start at the beginning of the block and [n] is above the
    capacity by at most [beg], the block is only compacted. *)

Definition reserve_ok (a : rb_ary_t) (n : Z) : Prop :=
  beg a = 0 ∨ n ≤ cap a ∨ cap a + beg a < n.

#[global] Instance reserve_ok_dec a n : Decision (reserve_ok a n).
Proof. unfold reserve_ok. apply _. Defined.

Lemma rary_compact_spec a l :
  rep a l → ∃ a', rary_compact a = Ok a' ∧ rep a' l ∧
    flags a' = flags a ∧ beg a' = 0 ∧ len a' = len a ∧ cap a' = cap a.
Proof.
  intros [[] Hlen Hcell]. unfold rary_compact, cell in *.
  destruct (for_range_inv (λ k e, zlen e = cap a ∧ ∀ j, zlookup e j =
      if decide (0 ≤ j < k) then zlookup (elements a) (beg a + j) else zlookup (elements a) j)
    0 (len a) (λ i e, v ← aload e (u64 (beg a + i)); astore e i v) (elements a))
    as (e & -> & He & Hj); [lia| | |].
  { split; [done|]. intros j. by case_decide; [lia|]. }
  { intros k e Hk [He Hj]. rewrite u64_small by (unfold_max; lia).
    destruct (aload_returns e (beg a + k)) as (v & -> & Hv); [lia|]. cbn [mbind res_bind].
    rewrite astore_ok by lia. apply returns_ret. split; [by rewrite zlen_insert|].
    intros j. rewrite zlookup_insert by lia. rewrite Hj in Hv.
    destruct (decide (k = j)) as [<-|].
    - rewrite decide_True by lia. by rewrite decide_False in Hv by lia.
    - rewrite Hj. repeat case_decide; auto; lia. }
  cbn [mbind res_bind]. eexists. split; [done|]. split_and!; [|done..].
  split; [split; acbn; lia|done|]. intros i Hi. unfold cell. acbn.
  rewrite Hj. case_decide; [|lia]. apply Hcell. lia.
Qed.

Lemma rary_grow_spec a l n :
  rep a l → cap a ≤ n ≤ max_cap →
  rep (mkAry (flags a) (beg a) (len a) n (realloc_words (elements a) n)) l.
Proof.
  intros [[] Hlen Hcell] Hn.
  assert (Hw : Z.to_nat (u64 (8 * n) / 8) = Z.to_nat n).
  { rewrite u64_small by (unfold_max; lia). rewrite Z.mul_comm, Z.div_mul by lia. done. }
  assert (∀ j, 0 ≤ j < cap a → zlookup (realloc_words (elements a) n) j = zlookup (elements a) j) as Hlk.
  { intros j Hj. unfold realloc_words. rewrite Hw, !zlookup_nonneg by lia.
    rewrite lookup_resize by (unfold zlen in *; lia). done. }
  split; [split; acbn; try done|done|].
  - lia.
  - unfold realloc_words, zlen. rewrite Hw, length_resize. lia.
  - lia.
  - intros i Hi. unfold cell. acbn. rewrite Hlk by lia. by apply Hcell.
Qed.

Lemma rary_reserve_spec a l n :
  rep a l → 0 ≤ n ≤ max_len →
  ∃ a', rary_reserve a n = Ok a' ∧ rep a' l ∧ flags a' = flags a ∧ len a' = len a ∧
    (reserve_ok a n → beg a' + n ≤ cap a') ∧
    (¬ reserve_ok a n → beg a' = 0 ∧ cap a' = cap a) ∧
    (beg a = 0 → beg a' = 0) ∧ cap a ≤ cap a'.
Proof.
  intros Hr Hn. pose proof (rep_wf _ _ Hr) as [Hb Hl Hc He Hm].
  unfold rary_reserve, reserve_ok. rewrite u64_small by (unfold_max; lia).
  destruct (Z.ltb_spec (cap a) (beg a + n)); [|exists a; split_and!; auto; lia].
  destruct (Z.ltb_spec 0 (beg a)).
  - destruct (rary_compact_spec a l Hr) as (b & -> & Hrb & Ef & Eb & El & Ec). cbn [mbind res_bind].
    set (m := if n <? beg a then 0 else n - beg a).
    assert (Em : m = Z.max 0 (n - beg a)) by (unfold m; cmp_spec; lia). clearbody m.
    rewrite Ec. destruct (Z.ltb_spec (cap a) m); [|exists b; split_and!; auto; lia].
    rewrite (proj2 (Z.ltb_lt 0 (cap a))) by lia. rewrite u64_small by (unfold_max; lia).
    eexists. split; [done|]. acbn. split_and!; [|done|done|lia..].
    apply rary_grow_spec; [done|unfold_max; lia].
  - cbn [mbind res_bind]. destruct (Z.ltb_spec (cap a) n); [|exists a; split_and!; auto; lia].
    eexists. split; [done|]. acbn.
    assert (∃ m, (if 0 <? cap a then u64 (n * 2) else n) = m ∧ n ≤ m ≤ max_cap) as (m & -> & Hm').
    { destruct (0 <? cap a); [|exists n; unfold_max; lia].
      rewrite u64_small by (unfold_max; lia). exists (n * 2). unfold_max. lia. }
    split_and!; [|done|done|lia..]. apply rary_grow_spec; [done|lia].
Qed.
