(* ===== verification/RArrayOps.v ===== *)
(** * array.c: what the primitives do to the contents *)

From S2P Require Import Prelude RArray RArrayRep.

(** After [rary_reserve] for one more element, there is room for it. *)
Lemma reserve_one a l :
  rep a l → zlen l < max_len →
  ∃ a', rary_reserve a (u64 (len a + 1)) = Ok a' ∧ rep a' l ∧ flags a' = flags a ∧
    len a' = len a ∧ beg a' + zlen l < cap a' ∧ (beg a = 0 → beg a' = 0).
Proof.
  intros Hr Hl. pose proof (rep_wf _ _ Hr) as [Hb Hl' Hc He Hm]. pose proof (rep_len _ _ Hr).
  rewrite u64_small by (unfold_max; lia).
  destruct (rary_reserve_spec a l (len a + 1) Hr) as (a' & E & Hr' & Ef & El & Hok & _ & Hb0 & _); [lia|].
  exists a'. split_and!; auto. unfold reserve_ok in Hok. lia.
Qed.

Lemma rary_append_spec a l v :
  rep a l → zlen l < max_len →
  ∃ a', rary_append a v = Ok a' ∧ rep a' (l ++ [v]) ∧ flags a' = flags a ∧
    (beg a = 0 → beg a' = 0).
Proof.
  intros Hr Hl. unfold rary_append.
  destruct (reserve_one a l Hr Hl) as (b & -> & Hrb & Ef & El & Hroom & Hb0). cbn [mbind res_bind].
  pose proof (rep_wf _ _ Hrb) as Hw. pose proof (wf_beg _ Hw). pose proof (rep_len _ _ Hrb) as Hlen.
  pose proof (zlen_nonneg l). rewrite Hlen.
  destruct (rary_replace_spec b (zlen l) v Hw) as (c & -> & Hs & Hc); [lia|].
  cbn [mbind res_bind]. eexists. split; [done|].
  split; [|acbn; rewrite (sh_flags _ _ Hs), (sh_beg _ _ Hs); auto].
  rewrite (sh_len _ _ Hs), Hlen, u64_small by (unfold_max; lia).
  destruct (shape_wf _ _ Hs Hw). destruct Hs. split; [split; acbn; lia|by acbn; rewrite zlen_app, zlen_cons, zlen_nil|].
  intros i Hi. change (cell (set_len (zlen l + 1) c) i) with (cell c i).
  rewrite Hc, zlookup_snoc. autorewrite with zlen in Hi. case_decide; [done|].
  apply (rep_cell _ _ Hrb). lia.
Qed.

Lemma append_all_spec a l vs :
  rep a l → zlen l + zlen vs ≤ max_len →
  ∃ a', append_all a vs = Ok a' ∧ rep a' (l ++ vs) ∧ flags a' = flags a ∧ (beg a = 0 → beg a' = 0).
Proof.
  revert a l. induction vs as [|v vs IH]; intros a l Hr Hl; cbn [append_all].
  - exists a. by rewrite app_nil_r.
  - rewrite zlen_cons in Hl. pose proof (zlen_nonneg vs).
    destruct (rary_append_spec a l v Hr) as (b & -> & Hrb & Ef & Eb); [lia|]. cbn [mbind res_bind].
    destruct (IH b (l ++ [v]) Hrb) as (c & -> & Hrc & Ef' & Eb'); [autorewrite with zlen; lia|].
    exists c. rewrite <- app_assoc in Hrc. split_and!; auto. congruence.
Qed.

(** [l] with [v] before index [i]. *)
Definition insert_at (i v : Z) (l : list Z) : list Z :=
  take (Z.to_nat i) l ++ v :: drop (Z.to_nat i) l.

Lemma zlen_insert_at i v l : 0 ≤ i ≤ zlen l → zlen (insert_at i v l) = zlen l + 1.
Proof. intros. unfold insert_at. autorewrite with zlen. rewrite zlen_drop by lia. lia. Qed.

Lemma rary_insert_spec a l i v :
  rep a l → 0 ≤ i ≤ zlen l → zlen l < max_len →
  ∃ a', rary_insert a i v = Ok a' ∧ rep a' (insert_at i v l) ∧ flags a' = flags a.
Proof.
  intros Hr Hi Hl. unfold rary_insert. rewrite (rep_len _ _ Hr).
  rewrite (proj2 (Z.leb_le i (zlen l))) by lia. cbn [check mbind res_bind].
  destruct (Z.ltb_spec i (zlen l)).
  2: { destruct (rary_append_spec a l v Hr Hl) as (a' & -> & Hr' & ? & _). exists a'. split_and!; auto.
       replace (insert_at i v l) with (l ++ [v]); [done|].
       unfold insert_at, zlen in *. by rewrite take_ge, drop_ge by lia. }
  rewrite <- (rep_len _ _ Hr).
  destruct (reserve_one a l Hr Hl) as (b & -> & Hrb & Ef & El & Hroom & _). cbn [mbind res_bind].
  pose proof (rep_wf _ _ Hrb) as Hw. pose proof (wf_beg _ Hw). pose proof (rep_len _ _ Hrb) as Hlen.
  rewrite Hlen.
  set (F := λ k j : Z, if decide (k < j ≤ zlen l) then cell b (j - 1) else cell b j).
  destruct (write_loop_down b F Hw (zlen l) (i + 1)
    (λ i a, v ← rary_elt a (i - 1); rary_replace a i v)) as (c & Ec & Hs & Hc).
  { lia. }
  { intros j. unfold F. case_decide; [lia|done]. }
  { intros k s Hk Hs Hc. destruct (zlookup_is_Some l (k - 1)) as (x & Hx); [lia|].
    exists k, x. split_and!; [|lia..|].
    - rewrite (rary_elt_spec s (k - 1) x); [done|by eapply shape_wf|lia|].
      rewrite Hc. unfold F. case_decide; [lia|]. rewrite (rep_cell _ _ Hrb) by lia. by rewrite Hx.
    - intros j. unfold F. repeat case_decide; try lia; try done. subst j.
      rewrite (rep_cell _ _ Hrb) by lia. by rewrite Hx. }
  rewrite Ec. cbn [mbind res_bind]. pose proof (shape_wf _ _ Hs Hw) as Hwc.
  destruct (rary_replace_spec c i v Hwc) as (d & -> & Hsd & Hd).
  { destruct Hs. lia. }
  cbn [mbind res_bind]. eexists. split; [done|].
  pose proof (shape_trans _ _ _ Hs Hsd) as Hsd'. pose proof (shape_wf _ _ Hsd' Hw) as Hwd.
  split; [|acbn; by rewrite (sh_flags _ _ Hsd')].
  rewrite (sh_len _ _ Hsd'), Hlen, u64_small by (unfold_max; lia).
  destruct Hwd. destruct Hsd'. split; [split; acbn; lia|by acbn; rewrite zlen_insert_at by lia|].
  rewrite zlen_insert_at by lia. intros j Hj.
  change (cell (set_len (zlen l + 1) d) j) with (cell d j).
  rewrite Hd, Hc. unfold F, insert_at. rewrite zlookup_insert_at by lia.
  repeat case_decide; try lia; try done; apply (rep_cell _ _ Hrb); lia.
Qed.

(** [l] without its [n] elements from index [i]. *)
Definition remove_at (i n : Z) (l : list Z) : list Z :=
  take (Z.to_nat i) l ++ drop (Z.to_nat (i + n)) l.

Lemma zlen_remove_at i n l : 0 ≤ i → 0 ≤ n → i + n ≤ zlen l → zlen (remove_at i n l) = zlen l - n.
Proof. intros. unfold remove_at. autorewrite with zlen. rewrite zlen_drop by lia. lia. Qed.

Lemma erase_front a l n :
  rep a l → 0 ≤ n ≤ zlen l →
  ∃ a', (a' ← for_range 0 n (λ i a, rary_replace a i Qnil) a;
         Ok (if n <? len a' then set_beg (u64 (beg a' + n)) a' else set_beg 0 a')) = Ok a' ∧
    rep (set_len (u64 (len a' - n)) a') (remove_at 0 n l) ∧ flags a' = flags a.
Proof.
  intros Hr Hn. pose proof (rep_wf _ _ Hr) as Hw. pose proof (wf_cap _ Hw). pose proof (rep_len _ _ Hr).
  destruct (fill_loop a 0 n Qnil) as (b & -> & Hs & Hc); [done|lia..|]. cbn [mbind res_bind].
  destruct (shape_wf _ _ Hs Hw). pose proof Hs as []. eexists. split; [done|].
  assert (Hlen : zlen (remove_at 0 n l) = zlen l - n) by (rewrite zlen_remove_at; lia).
  destruct (Z.ltb_spec n (len b)).
  - rewrite !u64_small by (acbn; unfold_max; lia). split; [|done].
    split; [split; acbn; lia|by acbn; lia|]. rewrite Hlen. intros j Hj. unfold remove_at.
    rewrite zlookup_delete_at by lia. rewrite decide_False by lia.
    assert (cell (set_len (len (set_beg (beg b + n) b) - n) (set_beg (beg b + n) b)) j = cell b (j + n)) as ->.
    { unfold cell. acbn. f_equal. lia. }
    rewrite Hc. rewrite decide_False by lia. apply (rep_cell _ _ Hr). lia.
  - acbn. rewrite u64_small by (unfold_max; lia). split; [|done].
    split; [split; acbn; lia|by acbn; lia|]. rewrite Hlen. lia.
Qed.

Lemma erase_middle a l i n :
  rep a l → 0 < i → 0 ≤ n → i + n ≤ zlen l →
  ∃ a', (a' ← for_range i (u64 (len a - n)) (λ i a, v ← rary_elt a (u64 (i + n)); rary_replace a i v) a;
         for_range 0 n (λ i a, rary_replace a (u64 (len a - i - 1)) Qnil) a') = Ok a' ∧
    rep (set_len (u64 (len a' - n)) a') (remove_at i n l) ∧ flags a' = flags a.
Proof.
  intros Hr Hi Hn Hin. pose proof (rep_wf _ _ Hr) as Hw. pose proof (wf_cap _ Hw). pose proof (wf_beg _ Hw).
  pose proof (wf_max _ Hw). pose proof (rep_len _ _ Hr).
  rewrite u64_small by (unfold_max; lia).
  set (F := λ k j : Z, if decide (i ≤ j < k) then cell a (j + n) else cell a j).
  destruct (write_loop_up a F Hw i (len a - n)
    (λ i a, v ← rary_elt a (u64 (i + n)); rary_replace a i v)) as (b & -> & Hs & Hb).
  { lia. }
  { intros j. unfold F. case_decide; [lia|done]. }
  { intros k s Hk Hs Hc. destruct (zlookup_is_Some l (k + n)) as (x & Hx); [lia|].
    exists k, x. split_and!; [|lia..|].
    - rewrite u64_small by (unfold_max; lia).
      rewrite (rary_elt_spec s (k + n) x); [done|by eapply shape_wf|lia|].
      rewrite Hc. unfold F. case_decide; [lia|]. rewrite (rep_cell _ _ Hr) by lia. by rewrite Hx.
    - intros j. unfold F. repeat case_decide; try lia; try done. subst j.
      rewrite (rep_cell _ _ Hr) by lia. by rewrite Hx. }
  cbn [mbind res_bind]. pose proof (shape_wf _ _ Hs Hw) as Hwb.
  pose proof (sh_beg _ _ Hs). pose proof (sh_cap _ _ Hs). pose proof (sh_len _ _ Hs).
  set (G := λ k j : Z, if decide (len a - k ≤ j < len a) then Some (Some Qnil) else cell b j).
  destruct (write_loop_up b G Hwb 0 n (λ i a, rary_replace a (u64 (len a - i - 1)) Qnil))
    as (c & -> & Hsc & Hc).
  { lia. }
  { intros j. unfold G. case_decide; [lia|done]. }
  { intros k s Hk Hss _. exists (len a - k - 1), Qnil. pose proof (sh_len _ _ Hss).
    split_and!; [f_equal; rewrite u64_small; unfold_max; lia|lia..|].
    intros j. unfold G. repeat case_decide; try lia; done. }
  eexists. split; [done|]. pose proof (shape_trans _ _ _ Hs Hsc) as Hac.
  pose proof (sh_flags _ _ Hac). split; [|done].
  rewrite (sh_len _ _ Hac), u64_small by (unfold_max; lia). destruct (shape_wf _ _ Hac Hw). destruct Hac.
  split; [split; acbn; lia|by acbn; rewrite zlen_remove_at by lia; lia|].
  rewrite zlen_remove_at by lia. intros j Hj.
  change (cell (set_len (len a - n) c) j) with (cell c j).
  rewrite Hc. unfold G. rewrite decide_False by lia. rewrite Hb. unfold F, remove_at.
  rewrite zlookup_delete_at by lia. repeat case_decide; try lia; apply (rep_cell _ _ Hr); lia.
Qed.

Lemma rary_erase_spec a l i n x :
  rep a l → 0 ≤ n → i + n ≤ zlen l → zlookup l i = Some x →
  ∃ a', rary_erase a i n = Ok (x, a') ∧ rep a' (remove_at i n l) ∧ flags a' = flags a.
Proof.
  intros Hr Hn Hin Hx. pose proof (zlookup_Some_range _ _ _ Hx). pose proof (rep_length_bound _ _ Hr).
  unfold rary_erase. rewrite (u64_small (i + n)) by (unfold_max; lia).
  rewrite (proj2 (Z.leb_le (i + n) (len a))) by (rewrite (rep_len _ _ Hr); lia). cbn [check mbind res_bind].
  rewrite (rep_elt _ _ _ _ Hr Hx). cbn [mbind res_bind]. destruct (Z.eqb_spec i 0) as [->|].
  - destruct (erase_front a l n Hr) as (a' & -> & Hr' & Ef); [lia|]. cbn [mbind res_bind]. eauto.
  - destruct (erase_middle a l i n Hr) as (a' & -> & Hr' & Ef); [lia..|]. cbn [mbind res_bind]. eauto.
Qed.

(** ** Growing by several elements

    These rest on [rary_reserve] for more than one element, and need its
    proviso. *)

Lemma room_wf a n : wf a → 0 ≤ n → beg a + n ≤ cap a → wf (set_len n a).
Proof. intros [] ? ?. split; acbn; lia. Qed.

Lemma rary_concat_spec a l other lo b n :
  rep a l → rep other lo → 0 ≤ b → 0 ≤ n → b + n ≤ zlen lo → zlen l + n ≤ max_len →
  reserve_ok a (zlen l + n) →
  ∃ a', rary_concat a other b n = Ok a' ∧
    rep a' (l ++ take (Z.to_nat n) (drop (Z.to_nat b) lo)) ∧ flags a' = flags a ∧
    (beg a = 0 → beg a' = 0).
Proof.
  intros Hr Ho Hb Hn Hbn Hmax Hok. unfold rary_concat. pose proof (rep_len _ _ Hr) as Hl.
  pose proof (zlen_nonneg l). pose proof (rep_length_bound _ _ Ho).
  rewrite Hl, u64_small by (unfold_max; lia).
  destruct (rary_reserve_spec a l (zlen l + n) Hr) as (c & -> & Hrc & Ef & El & Hroom & _ & Hb0 & _); [lia|].
  specialize (Hroom Hok). cbn [mbind res_bind]. pose proof (rep_wf _ _ Hrc) as Hw. pose proof (wf_beg _ Hw).
  set (F := λ k j : Z, if decide (zlen l ≤ j < zlen l + k) then Some (zlookup lo (b + (j - zlen l))) else cell c j).
  destruct (write_loop_up c F Hw 0 n
    (λ i a, v ← rary_elt other (u64 (b + i)); rary_replace a (u64 (i + len a)) v)) as (d & -> & Hs & Hd).
  { lia. }
  { intros j. unfold F. case_decide; [lia|done]. }
  { intros k s Hk Hs Hc. destruct (zlookup_is_Some lo (b + k)) as (x & Hx); [lia|].
    exists (zlen l + k), x. split_and!; [|lia..|].
    - rewrite !u64_small by (destruct Hs; unfold_max; lia).
      rewrite (rep_elt _ _ _ _ Ho Hx). cbn [mbind res_bind]. f_equal. destruct Hs. lia.
    - intros j. unfold F. repeat case_decide; try lia; try done. subst j.
      rewrite <- Hx. do 2 f_equal. lia. }
  cbn [mbind res_bind]. eexists. split; [done|]. pose proof (shape_wf _ _ Hs Hw) as Hwd.
  split; [|acbn; rewrite (sh_flags _ _ Hs), (sh_beg _ _ Hs); auto].
  rewrite (sh_len _ _ Hs), El, Hl, u64_small by (unfold_max; lia).
  assert (Hlen : zlen (l ++ take (Z.to_nat n) (drop (Z.to_nat b) lo)) = zlen l + n).
  { autorewrite with zlen. rewrite zlen_drop by lia. lia. }
  split; [apply room_wf; [done|lia|destruct Hs; lia]|by rewrite Hlen|].
  rewrite Hlen. intros j Hj. change (cell (set_len (zlen l + n) d) j) with (cell d j).
  rewrite Hd. unfold F. rewrite zlookup_app. repeat case_decide; try lia.
  - rewrite zlookup_take, zlookup_drop by lia. done.
  - apply (rep_cell _ _ Hrc). lia.
Qed.

(** The one case in which there is no room: the loop runs off the block. *)
Lemma write_loop_overflow a lo hi k g :
  wf a → lo ≤ k < hi →
  (∀ i s, lo ≤ i ≤ k → shape a s → ∃ p v, g i s = rary_replace s p v ∧ 0 ≤ beg a + p ≤ max_cap ∧
    (i < k → beg a + p < cap a) ∧ (i = k → cap a ≤ beg a + p)) →
  for_range lo hi g a = Err OutOfBounds.
Proof.
  intros Hw Hk Hg. remember (Z.to_nat (k - lo)) as m eqn:Em.
  assert (∀ s, shape a s → for_range lo hi g s = Err OutOfBounds) as H; [|apply H; auto with mruby].
  revert lo Hk Em Hg. induction m as [|m IH]; intros lo Hk Em Hg s Hs.
  - rewrite for_range_step by lia. destruct (Hg lo s) as (p & v & -> & Hp & _ & Hge); [lia|done|].
    pose proof (shape_wf _ _ Hs Hw) as []. unfold rary_replace.
    rewrite (sh_beg _ _ Hs), u64_small by (unfold_max; lia). unfold astore.
    rewrite (proj2 (Z.ltb_ge (beg a + p) (zlen (elements s)))) by (destruct Hs; lia). by rewrite andb_false_r.
  - rewrite for_range_step by lia. destruct (Hg lo s) as (p & v & -> & Hp & Hlt & _); [lia|done|].
    destruct (rary_replace_spec s p v) as (s' & -> & Hs' & _); [by eapply shape_wf|destruct Hs; lia|].
    cbn [mbind res_bind]. apply (IH (lo + 1)); [lia|lia| |by eapply shape_trans].
    intros i s2 Hi. apply Hg. lia.
Qed.

Lemma rary_concat_overflow a l other lo b n :
  rep a l → rep other lo → 0 ≤ b → b + n ≤ zlen lo → zlen l + n ≤ max_len →
  ¬ reserve_ok a (zlen l + n) → rary_concat a other b n = Err OutOfBounds.
Proof.
  intros Hr Ho Hb Hbn Hmax Hok. unfold rary_concat. pose proof (rep_len _ _ Hr) as Hl.
  pose proof (zlen_nonneg l). pose proof (rep_length_bound _ _ Ho). pose proof (rep_wf _ _ Hr) as [].
  assert (0 < n) by (unfold reserve_ok in Hok; lia).
  rewrite Hl, u64_small by (unfold_max; lia).
  destruct (rary_reserve_spec a l (zlen l + n) Hr) as (c & -> & Hrc & Ef & El & _ & Hno & _); [lia|].
  destruct (Hno Hok) as [Eb Ec]. unfold reserve_ok in Hok. cbn [mbind res_bind].
  rewrite (write_loop_overflow c 0 n (cap a - zlen l)); [done|apply Hrc|lia|].
  intros i s Hi Hs. destruct (zlookup_is_Some lo (b + i)) as (x & Hx); [lia|].
  exists (zlen l + i), x. split_and!; try (unfold_max; lia).
  rewrite !u64_small by (destruct Hs; unfold_max; lia).
  rewrite (rep_elt _ _ _ _ Ho Hx). cbn [mbind res_bind]. f_equal. destruct Hs. lia.
Qed.

(** Extending the window by [Qnil] cells. *)
Lemma extend_nil a l n :
  rep a l → zlen l ≤ n ≤ max_len → beg a + n ≤ cap a →
  ∃ a', for_range (len a) n (λ i a, rary_replace a i Qnil) a = Ok a' ∧
    rep (set_len n a') (l ++ replicate (Z.to_nat (n - zlen l)) Qnil) ∧ shape a a'.
Proof.
  intros Hr Hn Hcap. pose proof (rep_len _ _ Hr) as Hl. pose proof (rep_wf _ _ Hr) as Hw.
  pose proof (zlen_nonneg l). destruct (fill_loop a (len a) n Qnil) as (b & E & Hs & Hc); [done|lia..|].
  exists b. split_and!; [done| |done]. pose proof (shape_wf _ _ Hs Hw).
  assert (Hlen : zlen (l ++ replicate (Z.to_nat (n - zlen l)) Qnil) = n) by (autorewrite with zlen; lia).
  split; [apply room_wf; [done|lia|destruct Hs; lia]|by rewrite Hlen|].
  rewrite Hlen. intros j Hj. change (cell (set_len n b) j) with (cell b j). rewrite Hc, zlookup_app.
  repeat case_decide; try lia.
  - by rewrite zlookup_replicate by lia.
  - apply (rep_cell _ _ Hr). lia.
Qed.

Lemma rary_replace_rep a l i v :
  rep a l → 0 ≤ i < zlen l →
  ∃ a', rary_replace a i v = Ok a' ∧ rep a' (<[Z.to_nat i := v]> l) ∧ shape a a'.
Proof.
  intros Hr Hi. pose proof (rep_wf _ _ Hr) as Hw. pose proof (rep_len _ _ Hr).
  destruct (rary_replace_spec a i v Hw) as (b & E & Hs & Hc); [destruct Hw; lia|].
  exists b. split_and!; [done| |done].
  split; [by eapply shape_wf|by rewrite zlen_insert, (sh_len _ _ Hs)|].
  rewrite zlen_insert. intros j Hj. rewrite Hc, zlookup_insert by lia.
  repeat case_decide; try lia; [done|]. by apply (rep_cell _ _ Hr).
Qed.

(** What [a[i] = v] does to a list, [i] at any distance. *)
Definition store_at (i v : Z) (l : list Z) : list Z :=
  if decide (i < zlen l) then <[Z.to_nat i := v]> l
  else l ++ replicate (Z.to_nat (i - zlen l)) Qnil ++ [v].

Lemma rary_store_spec a l i v :
  rep a l → 0 ≤ i < max_len → reserve_ok a (i + 1) →
  ∃ a', rary_store a i v = Ok a' ∧ rep a' (store_at i v l) ∧ flags a' = flags a.
Proof.
  intros Hr Hi Hok. unfold rary_store, store_at. rewrite (rep_len _ _ Hr). pose proof (zlen_nonneg l).
  destruct (Z.leb_spec (zlen l) i).
  - rewrite u64_small by (unfold_max; lia). rewrite decide_False by lia.
    destruct (rary_reserve_spec a l (i + 1) Hr) as (b & -> & Hrb & Ef & El & Hroom & _); [lia|].
    specialize (Hroom Hok). cbn [mbind res_bind].
    destruct (extend_nil b l (i + 1) Hrb) as (c & -> & Hrc & Hs); [lia..|]. cbn [mbind res_bind].
    destruct (rary_replace_rep _ _ i v Hrc) as (d & -> & Hrd & Hsd); [autorewrite with zlen; lia|].
    exists d. split_and!; [done| |rewrite (sh_flags _ _ Hsd); acbn; rewrite (sh_flags _ _ Hs); done].
    replace (l ++ replicate (Z.to_nat (i - zlen l)) Qnil ++ [v])
      with (<[Z.to_nat i:=v]> (l ++ replicate (Z.to_nat (i + 1 - zlen l)) Qnil)); [done|].
    apply zlist_eq; [autorewrite with zlen; lia|]. autorewrite with zlen. intros j Hj.
    rewrite zlookup_insert by (autorewrite with zlen; lia). rewrite app_assoc, zlookup_snoc.
    autorewrite with zlen. rewrite !zlookup_app. repeat case_decide; try lia; [done..|].
    by rewrite !zlookup_replicate by lia.
  - cbn [mbind res_bind]. rewrite decide_True by lia.
    destruct (rary_replace_rep _ _ i v Hr) as (d & -> & Hrd & Hsd); [lia|].
    exists d. split_and!; auto. apply (sh_flags _ _ Hsd).
Qed.

Lemma rary_store_overflow a l i v :
  rep a l → zlen l ≤ i < max_len → ¬ reserve_ok a (i + 1) → rary_store a i v = Err OutOfBounds.
Proof.
  intros Hr Hi Hok. unfold rary_store. pose proof (rep_len _ _ Hr) as Hl. pose proof (zlen_nonneg l).
  pose proof (rep_wf _ _ Hr) as [].
  rewrite (proj2 (Z.leb_le (len a) i)) by lia. rewrite u64_small by (unfold_max; lia).
  destruct (rary_reserve_spec a l (i + 1) Hr) as (b & -> & Hrb & Ef & El & _ & Hno & _); [lia|].
  destruct (Hno Hok) as [Eb Ec]. unfold reserve_ok in Hok. cbn [mbind res_bind].
  rewrite (write_loop_overflow b (len b) (i + 1) (cap a)); [done|apply Hrb|lia|].
  intros k s Hk Hs. exists k, Qnil. split_and!; [done|unfold_max; lia..].
Qed.

Lemma rary_resize_spec a l n :
  rep a l → zlen l ≤ n ≤ max_len → beg a = 0 →
  ∃ a', rary_resize a n = Ok a' ∧ rep a' (l ++ replicate (Z.to_nat (n - zlen l)) Qnil) ∧
    flags a' = flags a ∧ beg a' = 0.
Proof.
  intros Hr Hn Hb. unfold rary_resize. pose proof (zlen_nonneg l).
  assert (∃ b, (if cap a <? n then rary_reserve a n else Ok a) = Ok b ∧ rep b l ∧ flags b = flags a ∧
    beg b = 0 ∧ n ≤ cap b) as (b & -> & Hrb & Ef & Eb & Hcap).
  { destruct (Z.ltb_spec (cap a) n); [|exists a; split_and!; auto; lia].
    destruct (rary_reserve_spec a l n Hr) as (b & -> & Hrb & Ef & El & Hroom & _ & Hb0 & _); [lia|].
    exists b. split_and!; auto. rewrite Hb0 in Hroom by done. apply Hroom. by left. }
  cbn [mbind res_bind]. destruct (extend_nil b l n Hrb) as (c & -> & Hrc & Hs); [lia..|].
  cbn [mbind res_bind]. eexists. split; [done|]. split_and!; [done| |].
  - acbn. by rewrite (sh_flags _ _ Hs).
  - acbn. by rewrite (sh_beg _ _ Hs).
Qed.

(** Extending to [n] elements pads with [nil] or writes past the block. *)
Lemma rary_resize_cases a l n :
  rep a l → zlen l < n → n ≤ max_len →
  (∃ a', rary_resize a n = Ok a' ∧ rep a' (l ++ replicate (Z.to_nat (n - zlen l)) Qnil) ∧ flags a' = flags a) ∨
  rary_resize a n = Err OutOfBounds.
Proof.
  intros Hr Hn Hmax. unfold rary_resize. pose proof (zlen_nonneg l). pose proof (rep_wf _ _ Hr) as Hw.
  assert (∃ b, (if cap a <? n then rary_reserve a n else Ok a) = Ok b ∧ rep b l ∧ flags b = flags a ∧ len b = len a) as (b & -> & Hrb & Ef & El).
  { destruct (Z.ltb_spec (cap a) n); [|by exists a].
    destruct (rary_reserve_spec a l n Hr) as (b & -> & Hrb & Ef & El & _); [lia|]. by exists b. }
  cbn [mbind res_bind]. pose proof (rep_wf _ _ Hrb) as Hwb. pose proof (rep_len _ _ Hrb) as Hlb. destruct (decide (beg b + n ≤ cap b)) as [Hroom|Hroom].
  - left. destruct (extend_nil b l n Hrb) as (c & -> & Hrc & Hs); [lia..|].
    cbn [mbind res_bind]. eexists. split; [done|]. split; [done|]. acbn. by rewrite (sh_flags _ _ Hs).
  - right. rewrite (write_loop_overflow b (len b) n (cap b - beg b)); [done|done|destruct Hwb; lia|].
    intros i s Hi Hs. exists i, Qnil. split_and!; [done|destruct Hwb; unfold_max; lia..].
Qed.

Lemma rary_clear_spec a l :
  rep a l → ∃ a', rary_clear a = Ok a' ∧ rep a' [] ∧ flags a' = flags a ∧ beg a' = beg a ∧ cap a' = cap a.
Proof.
  intros [[] Hl _]. unfold rary_clear.
  destruct (for_range_inv (λ _ e, zlen e = cap a) 0 (len a) (λ i e, astore e i (Some 0)) (elements a))
    as (e & -> & He); [lia|done| |].
  { intros k e Hk He. rewrite astore_ok by lia. apply returns_ret. by rewrite zlen_insert. }
  cbn [mbind res_bind]. eexists. split; [done|]. split_and!; [|done..].
  split; [split; acbn; lia|done|]. rewrite zlen_nil. lia.
Qed.

Lemma rary_reverse_spec a l :
  rep a l → ∃ a', rary_reverse a = Ok a' ∧ rep a' (reverse l) ∧ flags a' = flags a.
Proof.
  intros Hr. pose proof (rep_len _ _ Hr) as Hl. unfold rary_reverse. pose proof (zlen_nonneg l).
  destruct (Z.ltb_spec 1 (len a)).
  2: { exists a. split_and!; [done| |done]. destruct l as [|x [|y l]]; [done..|].
       rewrite Hl, !zlen_cons in *. pose proof (zlen_nonneg l). lia. }
  destruct (for_range_inv (λ k s, shape a s ∧ ∃ l', rep s l' ∧ zlen l' = zlen l ∧
      ∀ j, 0 ≤ j < zlen l → zlookup l' j =
        if decide (j < k ∨ zlen l - k ≤ j) then zlookup l (zlen l - 1 - j) else zlookup l j)
    0 (len a / 2) (λ i a, let j := len a - i - 1 in
              elem ← rary_elt a i; v ← rary_elt a j; a ← rary_replace a i v; rary_replace a j elem) a)
    as (b & E & Hs & l' & Hr' & Hl' & Hj).
  { apply Z.div_pos; lia. }
  { split; [auto with mruby|]. exists l. split_and!; [done..|]. intros j Hj. case_decide; [lia|done]. }
  { intros k s Hk (Hs & l' & Hr' & Hl' & Hj). pose proof (Z.div_mod (len a) 2 ltac:(lia)).
    pose proof (Z.mod_pos_bound (len a) 2 ltac:(lia)).
    assert (len s = zlen l) as Es by (destruct Hs; lia). rewrite Es. cbv zeta.
    destruct (zlookup_is_Some l' k) as (x & Hx); [lia|].
    destruct (zlookup_is_Some l' (zlen l - k - 1)) as (y & Hy); [lia|].
    rewrite (rep_elt _ _ _ _ Hr' Hx), (rep_elt _ _ _ _ Hr' Hy). cbn [mbind res_bind].
    destruct (rary_replace_rep s l' k y Hr') as (s1 & -> & Hr1 & Hs1); [lia|]. cbn [mbind res_bind].
    destruct (rary_replace_rep s1 _ (zlen l - k - 1) x Hr1) as (s2 & -> & Hr2 & Hs2);
      [rewrite zlen_insert; lia|]. apply returns_ret. split; [eauto using shape_trans|].
    eexists. split; [done|]. split; [by rewrite !zlen_insert|].
    intros j Hj'. rewrite !zlookup_insert by (rewrite ?zlen_insert; lia).
    rewrite Hj in Hx by lia. rewrite Hj in Hy by lia.
    rewrite decide_False in Hx by lia. rewrite decide_False in Hy by lia. rewrite Hj by lia.
    repeat case_decide; try lia; try done; subst;
      first [rewrite <- Hx; f_equal; lia | rewrite <- Hy; f_equal; lia]. }
  exists b. split_and!; [done| |apply (sh_flags _ _ Hs)].
  replace (reverse l) with l'; [done|]. apply zlist_eq; [by rewrite zlen_reverse|].
  rewrite Hl'. intros j Hj'. rewrite Hj, zlookup_reverse by lia.
  pose proof (Z.div_mod (len a) 2 ltac:(lia)). pose proof (Z.mod_pos_bound (len a) 2 ltac:(lia)).
  case_decide; [done|]. f_equal. lia.
Qed.
