(* ===== verification/RArrayMethods.v ===== *)
(** * array.c: what the methods of [Array] do to the contents *)

From S2P Require Import Prelude RArray RArrayRep RArrayOps.

Section methods.
Context `{RT : Runtime}.

(** The guard of every modifying method only looks at the flags. *)
Lemma ary_modify_flags a b : flags a = flags b → ary_modify a = ary_modify b.
Proof. unfold ary_modify, rb_ary_modify. by intros ->. Qed.

Lemma rb_ary_len_rep a l : rep a l → rb_ary_len a = zlen l.
Proof.
  intros Hr. pose proof (rep_length_bound _ _ Hr). unfold rb_ary_len.
  rewrite (rep_len _ _ Hr), s64_small; unfold_max; lia.
Qed.

Lemma rb_ary_elt_rep a l i :
  rep a l → 0 ≤ i < 2 ^ 63 → rb_ary_elt a i = Ok (default Qnil (zlookup l i)).
Proof.
  intros Hr Hi. unfold rb_ary_elt. rewrite u64_small by lia. rewrite (rep_len _ _ Hr).
  destruct (Z.ltb_spec i (zlen l)).
  - destruct (zlookup_is_Some l i) as (x & Hx); [lia|]. by rewrite (rep_elt _ _ _ _ Hr Hx), Hx.
  - by rewrite (proj2 (zlookup_None l i)) by lia.
Qed.

Lemma rep_alloc : rep ary_alloc [].
Proof. split; [by split|done|]. rewrite zlen_nil. lia. Qed.

Lemma ary_new_spec n :
  0 ≤ n ≤ max_len → ∃ a, ary_new n = Ok a ∧ rep a [] ∧ flags a = 0 ∧ beg a = 0.
Proof.
  intros Hn. unfold ary_new, assert_ary_len.
  assert (LONG_MAX / 8 = 2 ^ 60 - 1) as -> by done.
  rewrite (proj2 (Z.ltb_ge n 0)), (proj2 (Z.ltb_ge (2 ^ 60 - 1) n)) by (unfold_max; lia).
  cbn [mbind res_bind].
  destruct (rary_reserve_spec _ _ n rep_alloc Hn) as (a & -> & Hr & Ef & _ & _ & _ & Hb & _).
  exists a. split_and!; auto.
Qed.

Lemma rb_ary_new_spec : ∃ a, rb_ary_new = Ok a ∧ rep a [] ∧ flags a = 0 ∧ beg a = 0.
Proof. apply ary_new_spec. unfold ARY_DEFAULT_SIZE. unfold_max. lia. Qed.

(** The index a method works on, after a negative one is taken from the end. *)
Definition norm (i : Z) (l : list Z) : Z := if i <? 0 then i + zlen l else i.

Lemma rb_ary_entry_spec a l i :
  rep a l → LONG_MIN ≤ i ≤ LONG_MAX → rb_ary_entry a i = Ok (default Qnil (zlookup l (norm i l))).
Proof.
  intros Hr Hi. pose proof (rep_length_bound _ _ Hr). unfold LONG_MIN, LONG_MAX in *.
  unfold rb_ary_entry. rewrite (rb_ary_len_rep _ _ Hr). fold (norm i l).
  destruct (Z.eqb_spec (zlen l) 0).
  { by rewrite (proj2 (zlookup_None l (norm i l))) by lia. }
  destruct (Z.ltb_spec (norm i l) 0); [by rewrite (proj2 (zlookup_None l (norm i l))) by lia|].
  destruct (Z.leb_spec (zlen l) (norm i l)); cbn [orb].
  - by rewrite (proj2 (zlookup_None l (norm i l))) by lia.
  - apply rb_ary_elt_rep; [done|unfold_max; lia].
Qed.

(** The elements [b .. b + n - 1] that exist. *)
Definition sub (b n : Z) (l : list Z) : list Z := take (Z.to_nat n) (drop (Z.to_nat b) l).

Lemma rb_ary_subseq_spec a l b n :
  rep a l → b ≤ LONG_MAX → n ≤ LONG_MAX → zlen l ≤ max_len →
  if decide (0 ≤ b ≤ zlen l ∧ 0 ≤ n)
  then ∃ a', rb_ary_subseq a b n = Ok (Some a') ∧ rep a' (sub b n l) ∧ flags a' = 0
  else rb_ary_subseq a b n = Ok None.
Proof.
  intros Hr Hb Hn Hmax. pose proof (zlen_nonneg l). unfold rb_ary_subseq. rewrite (rb_ary_len_rep _ _ Hr).
  case_decide as Hd.
  2: { destruct (Z.ltb_spec b 0); [done|]. destruct (Z.ltb_spec n 0); [done|]. cbn [orb].
       by rewrite (proj2 (Z.ltb_lt (zlen l) b)) by lia. }
  destruct Hd as [Hb0 Hn0].
  rewrite (proj2 (Z.ltb_ge b 0)), (proj2 (Z.ltb_ge n 0)), (proj2 (Z.ltb_ge (zlen l) b)) by lia. cbn [orb].
  set (m := if (zlen l <? n) || (zlen l <? s64 (b + n)) then zlen l - b else n).
  assert (m = Z.min n (zlen l - b)) as Em.
  { unfold m. destruct (Z.ltb_spec (zlen l) n); cbn [orb]; [lia|].
    rewrite s64_small by (unfold_max; lia). destruct (Z.ltb_spec (zlen l) (b + n)); lia. }
  assert (sub b n l = take (Z.to_nat m) (drop (Z.to_nat b) l)) as Hsub.
  { unfold sub. subst m. destruct (decide (n ≤ zlen l - b)).
    - f_equal. lia.
    - unfold zlen in *. rewrite !take_ge; [done|rewrite length_drop; lia..]. }
  clearbody m. rewrite Hsub.
  destruct (Z.ltb_spec 0 m).
  - destruct (rary_concat_spec ary_alloc [] a l b m rep_alloc Hr) as (c & -> & Hrc & Ef & _);
      try lia; [rewrite zlen_nil; lia|by left|]. cbn [mbind res_bind]. eauto.
  - exists ary_alloc. split_and!; [done| |done].
    replace (Z.to_nat m) with O by lia. apply rep_alloc.
Qed.

(** A fresh array takes any contents. *)
Lemma fresh_concat a l other lo :
  rep a l → beg a = 0 → rep other lo → zlen l + zlen lo ≤ max_len →
  ∃ a', rary_concat a other 0 (len other) = Ok a' ∧ rep a' (l ++ lo) ∧ flags a' = flags a ∧ beg a' = 0.
Proof.
  intros Hr Hb Ho Hmax. pose proof (zlen_nonneg lo). rewrite (rep_len _ _ Ho).
  destruct (rary_concat_spec a l other lo 0 (zlen lo) Hr Ho) as (c & -> & Hrc & Ef & Eb); try lia; [by left|].
  exists c. split_and!; auto. by rewrite drop_0, to_nat_zlen, firstn_all in Hrc.
Qed.

Lemma rb_ary_dup_spec a l :
  rep a l → zlen l ≤ max_len → ∃ d, rb_ary_dup a = Ok d ∧ rep d l ∧ beg d = 0 ∧
    (flags a = 0 → flags d = 0).
Proof.
  intros Hr Hmax. unfold rb_ary_dup. destruct rb_ary_new_spec as (n & -> & Hn & Ef & Eb).
  cbn [mbind res_bind]. destruct (fresh_concat n [] a l Hn Eb Hr) as (c & -> & Hc & Efc & Ebc);
    [rewrite zlen_nil; lia|]. cbn [mbind res_bind].
  assert (∀ b f, rep b l → rep (FL_SET b f) l) as Hfl by (intros b f [[] ? ?]; split; [by split|done..]).
  eexists. split; [done|]. split_and!.
  - repeat case_match; auto.
  - by repeat case_match.
  - intros E. unfold FL_TEST. rewrite E, !Z.land_0_l. cbn. congruence.
Qed.

Lemma rb_ary_plus_spec a l b m :
  rep a l → rep b m → zlen l + zlen m ≤ max_len → ∃ c, rb_ary_plus a b = Ok c ∧ rep c (l ++ m) ∧ flags c = 0.
Proof.
  intros Ha Hb Hmax. pose proof (zlen_nonneg l). pose proof (zlen_nonneg m). unfold rb_ary_plus, rb_ary_new2.
  destruct (ary_new_spec 0) as (z & -> & Hz & Ef & Eb); [unfold_max; lia|]. cbn [mbind res_bind].
  rewrite (rb_ary_len_rep _ _ Ha), (rb_ary_len_rep _ _ Hb), u64_small by (unfold_max; lia).
  destruct (rary_reserve_spec z [] (zlen l + zlen m) Hz) as (y & -> & Hy & Efy & _ & _ & _ & Eby & _); [lia|].
  cbn [mbind res_bind]. unfold rb_ary_concat.
  destruct (fresh_concat y [] a l Hy (Eby Eb) Ha) as (x & -> & Hx & Efx & Ebx); [rewrite zlen_nil; lia|].
  cbn [mbind res_bind app] in *.
  destruct (fresh_concat x l b m Hx Ebx Hb) as (w & -> & Hw & Efw & _); [lia|].
  exists w. split_and!; auto. congruence.
Qed.

(** ** Adding and removing single elements *)

Lemma rb_ary_push_spec a l v :
  rep a l → ary_modify a = Ok () → zlen l < max_len →
  ∃ a', rb_ary_push a v = Ok a' ∧ rep a' (l ++ [v]) ∧ flags a' = flags a.
Proof.
  intros Hr Hm Hl. unfold rb_ary_push. rewrite Hm. cbn [mbind res_bind].
  destruct (rary_append_spec a l v Hr Hl) as (a' & -> & ? & ? & _). eauto.
Qed.

Lemma rb_ary_insert_spec a l i v :
  rep a l → LONG_MIN ≤ i → norm i l ≤ zlen l → zlen l < max_len →
  if decide (norm i l < 0) then rb_ary_insert a i v = Err (Raise IndexError)
  else ∃ a', rb_ary_insert a i v = Ok a' ∧ rep a' (insert_at (norm i l) v l) ∧ flags a' = flags a.
Proof.
  intros Hr Hi Hn Hl. unfold rb_ary_insert. rewrite (rb_ary_len_rep _ _ Hr). unfold norm in *.
  destruct (Z.ltb_spec i 0); case_decide.
  - by rewrite (proj2 (Z.ltb_lt (i + zlen l) 0)) by lia.
  - rewrite (proj2 (Z.ltb_ge (i + zlen l) 0)) by lia. cbn [mbind res_bind].
    rewrite (proj2 (Z.ltb_ge (len a) _)) by (rewrite (rep_len _ _ Hr); lia). by apply rary_insert_spec; [|lia|].
  - lia.
  - cbn [mbind res_bind]. rewrite (proj2 (Z.ltb_ge (len a) _)) by (rewrite (rep_len _ _ Hr); lia).
    by apply rary_insert_spec; [|lia|].
Qed.

Lemma rb_ary_erase_spec a l i x :
  rep a l → zlookup l i = Some x →
  ∃ a', rb_ary_erase a i = Ok (x, a') ∧ rep a' (remove_at i 1 l) ∧ flags a' = flags a.
Proof.
  intros Hr Hx. pose proof (zlookup_Some_range _ _ _ Hx). pose proof (rep_length_bound _ _ Hr).
  unfold rb_ary_erase. rewrite u64_small by (unfold_max; lia). apply rary_erase_spec; [done|lia|lia|done].
Qed.

Lemma remove_at_last l x : remove_at (zlen l) 1 (l ++ [x]) = l.
Proof.
  unfold remove_at. rewrite to_nat_zlen, take_app_length, drop_ge, app_nil_r; [done|].
  rewrite length_app. unfold zlen. simpl. lia.
Qed.

Lemma rb_ary_pop_spec a l :
  rep a l → ary_modify a = Ok () →
  match last l with
  | None => rb_ary_pop a = Ok (Qnil, a)
  | Some x => ∃ a', rb_ary_pop a = Ok (x, a') ∧ rep a' (removelast l) ∧ flags a' = flags a
  end.
Proof.
  intros Hr Hm. unfold rb_ary_pop. rewrite Hm, (rb_ary_len_rep _ _ Hr). cbn [mbind res_bind].
  destruct l as [|x l _] using rev_ind; [done|]. rewrite last_snoc.
  pose proof (zlen_nonneg l). rewrite zlen_app, zlen_cons, zlen_nil.
  rewrite (proj2 (Z.eqb_neq _ 0)) by lia. replace (zlen l + (1 + 0) - 1) with (zlen l) by lia.
  destruct (rb_ary_erase_spec a (l ++ [x]) (zlen l) x Hr) as (a' & -> & Hr' & Ef).
  { rewrite zlookup_snoc. by rewrite decide_True. }
  exists a'. split_and!; [done| |done]. by rewrite removelast_last, remove_at_last in *.
Qed.

Lemma rb_ary_shift_spec a l :
  rep a l → ary_modify a = Ok () →
  match l with
  | [] => rb_ary_shift a = Ok (Qnil, a)
  | x :: l' => ∃ a', rb_ary_shift a = Ok (x, a') ∧ rep a' l' ∧ flags a' = flags a
  end.
Proof.
  intros Hr Hm. unfold rb_ary_shift. rewrite Hm, (rb_ary_len_rep _ _ Hr). cbn [mbind res_bind].
  destruct l as [|x l]; [done|]. pose proof (zlen_nonneg l). rewrite zlen_cons.
  rewrite (proj2 (Z.eqb_neq _ 0)) by lia.
  destruct (rb_ary_erase_spec a (x :: l) 0 x Hr) as (a' & -> & Hr' & Ef); [done|]. eauto.
Qed.

Lemma rb_ary_unshift_spec a l v :
  rep a l → ary_modify a = Ok () → zlen l < max_len →
  ∃ a', rb_ary_unshift a v = Ok a' ∧ rep a' (v :: l) ∧ flags a' = flags a.
Proof.
  intros Hr Hm Hl. unfold rb_ary_unshift, rb_ary_unshift_m. rewrite Hm. cbn.
  pose proof (rb_ary_insert_spec a l 0 v Hr) as H. unfold norm in H. cbn in H.
  destruct H as (a' & -> & Hr' & Ef); [unfold LONG_MIN; lia|apply zlen_nonneg|done|]. eauto.
Qed.

Lemma rb_ary_delete_at_spec a l i :
  rep a l → ary_modify a = Ok () → LONG_MIN ≤ i →
  match zlookup l (norm i l) with
  | None => rb_ary_delete_at a i = Ok (Qnil, a)
  | Some x => ∃ a', rb_ary_delete_at a i = Ok (x, a') ∧ rep a' (remove_at (norm i l) 1 l) ∧ flags a' = flags a
  end.
Proof.
  intros Hr Hm Hi. unfold rb_ary_delete_at. rewrite (rb_ary_len_rep _ _ Hr). fold (norm i l).
  destruct (zlookup l (norm i l)) as [x|] eqn:Hx.
  - pose proof (zlookup_Some_range _ _ _ Hx) as Hrg.
    rewrite (proj2 (Z.leb_gt (zlen l) i)) by (unfold norm in *; destruct (Z.ltb_spec i 0); lia).
    rewrite (proj2 (Z.ltb_ge (norm i l) 0)) by lia. rewrite Hm. cbn [mbind res_bind].
    destruct (rary_erase_spec a l (norm i l) 1 x Hr) as (a' & -> & ? & ?); [lia..|done|]. eauto.
  - apply zlookup_None in Hx. destruct (Z.leb_spec (zlen l) i); [done|].
    rewrite (proj2 (Z.ltb_lt (norm i l) 0)); [done|]. unfold norm in *.
    pose proof (zlen_nonneg l). destruct (Z.ltb_spec i 0); lia.
Qed.

Lemma rb_ary_store_spec a l i v :
  rep a l → LONG_MIN ≤ i → norm i l < max_len →
  if decide (norm i l < 0) then rb_ary_store a i v = Err (Raise IndexError)
  else (norm i l < zlen l ∨ reserve_ok a (norm i l + 1)) →
    ∃ a', rb_ary_store a i v = Ok a' ∧ rep a' (store_at (norm i l) v l) ∧ flags a' = flags a.
Proof.
  intros Hr Hi Hn.
  assert (rb_ary_store a i v = if norm i l <? 0 then Err (Raise IndexError) else rary_store a (norm i l) v) as ->.
  { unfold rb_ary_store. rewrite (rb_ary_len_rep _ _ Hr). unfold norm.
    destruct (Z.ltb_spec i 0); [by destruct (i + zlen l <? 0)|].
    by rewrite (proj2 (Z.ltb_ge i 0)) by lia. }
  case_decide; [by rewrite (proj2 (Z.ltb_lt (norm i l) 0))|].
  rewrite (proj2 (Z.ltb_ge (norm i l) 0)) by lia. intros [Hlt|Hok].
  - destruct (rary_replace_rep a l (norm i l) v Hr) as (d & E & Hrd & Hsd); [lia|].
    exists d. unfold rary_store, store_at. rewrite (rep_len _ _ Hr).
    rewrite (proj2 (Z.leb_gt (zlen l) (norm i l))) by lia. cbn [mbind res_bind].
    rewrite decide_True by lia. split_and!; auto. apply (sh_flags _ _ Hsd).
  - by apply rary_store_spec; [|lia|].
Qed.

(** Insertion and assignment beyond the end pad with [nil] or write past the block. *)
Lemma rb_ary_insert_beyond a l i v :
  rep a l → zlen l < norm i l < max_len →
  (∃ a', rb_ary_insert a i v = Ok a' ∧ rep a' (store_at (norm i l) v l) ∧ flags a' = flags a) ∨
  rb_ary_insert a i v = Err OutOfBounds.
Proof.
  intros Hr Hi. pose proof (zlen_nonneg l). assert (norm i l = i ∧ 0 ≤ i) as [Ei Hi0] by (unfold norm in *; destruct (Z.ltb_spec i 0); lia).
  rewrite Ei in *. unfold rb_ary_insert. rewrite (proj2 (Z.ltb_ge i 0)) by lia. cbn [mbind res_bind].
  rewrite (proj2 (Z.ltb_lt (len a) i)) by (rewrite (rep_len _ _ Hr); lia).
  destruct (rary_resize_cases a l (i + 1) Hr) as [(b & -> & Hb & Ef)| ->]; [lia..| |by right]. cbn [mbind res_bind]. left.
  assert (zlen (l ++ replicate (Z.to_nat (i + 1 - zlen l)) Qnil) = i + 1) as Hz by (rewrite zlen_app, zlen_replicate; lia).
  destruct (rary_replace_rep b _ i v Hb) as (d & E & Hd & Hs); [lia|]. exists d. unfold rary_store. rewrite (rep_len _ _ Hb), Hz.
  rewrite (proj2 (Z.leb_gt (i + 1) i)) by lia. cbn [mbind res_bind]. split_and!; [done| |rewrite (sh_flags _ _ Hs); done].
  unfold store_at. rewrite decide_False by lia.
  replace (l ++ replicate (Z.to_nat (i - zlen l)) Qnil ++ [v]) with (<[Z.to_nat i:=v]> (l ++ replicate (Z.to_nat (i + 1 - zlen l)) Qnil)); [done|].
  replace (Z.to_nat (i + 1 - zlen l)) with (Z.to_nat (i - zlen l) + 1)%nat by lia. rewrite replicate_add, app_assoc.
  replace (Z.to_nat i) with (length (l ++ replicate (Z.to_nat (i - zlen l)) Qnil) + 0)%nat
    by (rewrite length_app, length_replicate; unfold zlen in *; lia).
  by rewrite insert_app_r, <- app_assoc.
Qed.

Lemma rb_ary_store_beyond a l i v :
  rep a l → zlen l ≤ norm i l < max_len →
  (∃ a', rb_ary_store a i v = Ok a' ∧ rep a' (store_at (norm i l) v l) ∧ flags a' = flags a) ∨
  rb_ary_store a i v = Err OutOfBounds.
Proof.
  intros Hr Hi. pose proof (zlen_nonneg l). assert (norm i l = i ∧ 0 ≤ i) as [Ei Hi0] by (unfold norm in *; destruct (Z.ltb_spec i 0); lia).
  rewrite Ei in *. unfold rb_ary_store. rewrite (proj2 (Z.ltb_ge i 0)) by lia. cbn [mbind res_bind].
  destruct (decide (reserve_ok a (i + 1))); [left; by apply rary_store_spec; [|lia|]|right; by apply (rary_store_overflow a l)].
Qed.

(** ** Search by equality *)

Lemma index_from_spec a l item l1 l2 :
  rep a l → l = l1 ++ l2 →
  (index_from (length l2) (zlen l1) a item = Ok NOT_FOUND ∧ forallb (λ x, negb (rb_equal_fast item x)) l2 = true) ∨
  (∃ m1 x m2, l2 = m1 ++ x :: m2 ∧ forallb (λ x, negb (rb_equal_fast item x)) m1 = true ∧
     rb_equal_fast item x = true ∧ index_from (length l2) (zlen l1) a item = Ok (zlen (l1 ++ m1))).
Proof.
  intros Hr ->. revert l1 Hr. induction l2 as [|y l2 IH]; intros l1 Hr; cbn [length index_from]; [by left|].
  assert (zlookup (l1 ++ y :: l2) (zlen l1) = Some y) as Hy.
  { rewrite zlookup_app_r by lia. by rewrite Z.sub_diag. }
  rewrite (rep_elt _ _ _ _ Hr Hy). cbn [mbind res_bind]. destruct (rb_equal_fast item y) eqn:E.
  - right. exists [], y, l2. by rewrite app_nil_r.
  - specialize (IH (l1 ++ [y])). rewrite <- app_assoc in IH. rewrite zlen_app, zlen_cons, zlen_nil in IH.
    replace (zlen l1 + (1 + 0)) with (zlen l1 + 1) in IH by lia.
    destruct (IH Hr) as [[-> ?]|(m1 & x & m2 & -> & ? & ? & ->)]; [left|right].
    + split; [done|]. cbn. by rewrite E.
    + exists (y :: m1), x, m2. split_and!; [done|cbn; by rewrite E|done|]. by rewrite <- app_assoc.
Qed.

Lemma rary_index_of_item_spec a l item l1 y l2 :
  rep a l → l = l1 ++ y :: l2 →
  (rary_index_of_item a (zlen l1) item = Ok NOT_FOUND ∧
     forallb (λ x, negb (rb_equal_fast item x)) (y :: l2) = true) ∨
  (∃ m1 x m2, y :: l2 = m1 ++ x :: m2 ∧ forallb (λ x, negb (rb_equal_fast item x)) m1 = true ∧
     rb_equal_fast item x = true ∧ rary_index_of_item a (zlen l1) item = Ok (zlen (l1 ++ m1))).
Proof.
  intros Hr ->. unfold rary_index_of_item. rewrite (rep_len _ _ Hr), zlen_app, zlen_cons.
  pose proof (zlen_nonneg l2). rewrite (proj2 (Z.ltb_lt (zlen l1) _)) by lia. cbn [check mbind res_bind].
  replace (Z.to_nat (zlen l1 + (1 + zlen l2) - zlen l1)) with (length (y :: l2))
    by (unfold zlen; simpl; lia).
  by apply (index_from_spec a (l1 ++ y :: l2)).
Qed.

Lemma not_found_bound a l1 l2 : rep a (l1 ++ l2) → (zlen l1 =? NOT_FOUND) = false.
Proof.
  intros Hr. pose proof (rep_length_bound _ _ Hr). rewrite zlen_app in *. pose proof (zlen_nonneg l2).
  apply Z.eqb_neq. unfold NOT_FOUND, LONG_MAX. unfold_max. lia.
Qed.

Lemma remove_at_middle (l1 : list Z) x l2 : remove_at (zlen l1) 1 (l1 ++ x :: l2) = l1 ++ l2.
Proof.
  unfold remove_at. rewrite to_nat_zlen, take_app_length.
  replace (Z.to_nat (zlen l1 + 1)) with (length l1 + 1)%nat by (unfold zlen; lia).
  by rewrite drop_app_add.
Qed.

(** What is left of a list when the elements [==] to [item] go. *)
Definition without (item : Z) (l : list Z) : list Z :=
  List.filter (λ x, negb (rb_equal_fast item x)) l.

Lemma without_none item l :
  forallb (λ x, negb (rb_equal_fast item x)) l = true → without item l = l.
Proof.
  induction l as [|x l IH]; [done|]. cbn. intros [Hx Hl]%andb_true_iff. rewrite Hx. f_equal. by apply IH.
Qed.

Lemma without_app item l1 l2 : without item (l1 ++ l2) = without item l1 ++ without item l2.
Proof. apply List.filter_app. Qed.

Lemma without_cons_eq item x l : rb_equal_fast item x = true → without item (x :: l) = without item l.
Proof. intros E. unfold without. cbn. by rewrite E. Qed.

Lemma erase_middle_one a l1 x l2 :
  rep a (l1 ++ x :: l2) →
  ∃ a', rary_erase a (zlen l1) 1 = Ok (x, a') ∧ rep a' (l1 ++ l2) ∧ flags a' = flags a.
Proof.
  intros Hr. destruct (rary_erase_spec a _ (zlen l1) 1 x Hr) as (a' & -> & Hr' & Ef).
  - lia.
  - rewrite zlen_app, zlen_cons. pose proof (zlen_nonneg l2). lia.
  - rewrite zlookup_app_r by lia. by rewrite Z.sub_diag.
  - rewrite remove_at_middle in Hr'. eauto.
Qed.

Lemma delete_loop_spec fuel a l1 l2 item ch :
  rep a (l1 ++ l2) → (length l2 < fuel)%nat →
  ∃ a', delete_loop fuel a (zlen l1) item ch =
      Ok (ch || negb (forallb (λ x, negb (rb_equal_fast item x)) l2), a') ∧
    rep a' (l1 ++ without item l2) ∧ flags a' = flags a.
Proof.
  revert a l1 l2 ch. induction fuel as [|fuel IH]; intros a l1 l2 ch Hr Hf; [lia|]. cbn [delete_loop].
  rewrite (rep_len _ _ Hr), zlen_app. pose proof (zlen_nonneg l2). destruct l2 as [|y l2].
  { rewrite zlen_nil, (proj2 (Z.ltb_ge _ _)) by lia. exists a. by rewrite orb_false_r. }
  pose proof (zlen_nonneg l2). rewrite zlen_cons in *. rewrite (proj2 (Z.ltb_lt _ _)) by lia.
  destruct (rary_index_of_item_spec a _ item l1 y l2 Hr eq_refl) as [[-> Hn]|(m1 & x & m2 & E & Hm & Hx & ->)];
    cbn [mbind res_bind].
  - rewrite Z.eqb_refl. exists a. rewrite Hn, orb_false_r, without_none by done. done.
  - rewrite E, app_assoc in Hr. rewrite (not_found_bound _ _ _ Hr).
    destruct (erase_middle_one a _ _ _ Hr) as (b & -> & Hrb & Efb). cbn [mbind res_bind].
    rewrite <- app_assoc in Hrb.
    destruct (IH b (l1 ++ m1) m2 true) as (c & -> & Hc & Efc); [by rewrite <- app_assoc| |].
    { apply (f_equal length) in E. rewrite length_app in E. simpl in *. lia. }
    exists c. rewrite E, forallb_app, Hm. cbn. rewrite Hx. cbn. rewrite orb_true_r.
    split_and!; [done| |congruence].
    rewrite without_app, without_none, without_cons_eq by done. by rewrite <- app_assoc in Hc.
Qed.

Lemma rb_ary_delete_spec a l item :
  rep a l → ary_modify a = Ok () →
  ∃ a', rb_ary_delete a item =
      Ok (if forallb (λ x, negb (rb_equal_fast item x)) l then Qnil else item, a') ∧
    rep a' (without item l) ∧ flags a' = flags a.
Proof.
  intros Hr Hm. unfold rb_ary_delete. rewrite Hm. cbn [mbind res_bind].
  destruct (delete_loop_spec (S (Z.to_nat (len a))) a [] l item false Hr) as (b & E & Hb & Ef).
  { rewrite (rep_len _ _ Hr), to_nat_zlen. lia. }
  rewrite zlen_nil in E. rewrite E. cbn [mbind res_bind]. exists b. cbn in Hb.
  split_and!; [|done..]. by destruct (forallb _ l).
Qed.

Lemma uniq_inner_spec fuel a l1 l2 item ch :
  rep a (l1 ++ l2) → (length l2 < fuel)%nat →
  ∃ a' ch', uniq_inner fuel a (zlen (l1 ++ l2)) (zlen l1) item ch =
      Ok (ch', zlen (l1 ++ without item l2), a') ∧
    rep a' (l1 ++ without item l2) ∧ flags a' = flags a ∧
    ch' = ch || negb (forallb (λ x, negb (rb_equal_fast item x)) l2).
Proof.
  revert a l1 l2 ch. induction fuel as [|fuel IH]; intros a l1 l2 ch Hr Hf; [lia|]. cbn [uniq_inner].
  rewrite zlen_app. pose proof (zlen_nonneg l2). destruct l2 as [|y l2].
  { rewrite zlen_nil, (proj2 (Z.ltb_ge _ _)) by lia. exists a, ch.
    by rewrite orb_false_r, zlen_app, zlen_nil. }
  pose proof (zlen_nonneg l2). rewrite zlen_cons in *. rewrite (proj2 (Z.ltb_lt _ _)) by lia.
  destruct (rary_index_of_item_spec a _ item l1 y l2 Hr eq_refl) as [[-> Hn]|(m1 & x & m2 & E & Hm & Hx & ->)];
    cbn [mbind res_bind].
  - rewrite Z.eqb_refl. exists a, ch. rewrite Hn, orb_false_r, without_none by done.
    by rewrite zlen_app, zlen_cons.
  - rewrite E, app_assoc in Hr. rewrite (not_found_bound _ _ _ Hr).
    destruct (erase_middle_one a _ _ _ Hr) as (b & -> & Hrb & Efb). cbn [mbind res_bind].
    assert (zlen l1 + (1 + zlen l2) - 1 = zlen ((l1 ++ m1) ++ m2)) as ->.
    { apply (f_equal zlen) in E. rewrite zlen_app, !zlen_cons in E. rewrite !zlen_app. lia. }
    destruct (IH b (l1 ++ m1) m2 true Hrb) as (c & ch' & -> & Hc & Efc & Ech).
    { apply (f_equal length) in E. rewrite length_app in E. simpl in *. lia. }
    exists c, ch'. rewrite E, forallb_app, Hm, without_app, (without_none _ m1), without_cons_eq by done.
    rewrite <- app_assoc in Hc |- *. split_and!; [done|done|congruence|].
    cbn. rewrite Hx. cbn. rewrite orb_true_r. by rewrite Ech.
Qed.

(** The first of each group of [==] elements. *)
Inductive Uniq : list Z → list Z → Prop :=
  | Uniq_nil : Uniq [] []
  | Uniq_cons x l l' : Uniq (without x l) l' → Uniq (x :: l) (x :: l').

Lemma without_length item l : (length (without item l) ≤ length l)%nat.
Proof. induction l as [|x l IH]; cbn; [lia|]. unfold without in *. destruct (rb_equal_fast item x); cbn; lia. Qed.

Lemma uniq_outer_spec fuel a l1 l2 ch :
  rep a (l1 ++ l2) → (length l2 < fuel)%nat →
  ∃ a' ch' l', uniq_outer fuel a (zlen (l1 ++ l2)) (zlen l1) ch = Ok (ch', a') ∧
    Uniq l2 l' ∧ rep a' (l1 ++ l') ∧ flags a' = flags a.
Proof.
  revert a l1 l2 ch. induction fuel as [|fuel IH]; intros a l1 l2 ch Hr Hf; [lia|]. cbn [uniq_outer].
  destruct l2 as [|x l2].
  { rewrite app_nil_r, Z.ltb_irrefl in *. exists a, ch, []. rewrite app_nil_r.
    split_and!; [done|constructor|done|done]. }
  pose proof (zlen_nonneg l2).
  rewrite (proj2 (Z.ltb_lt (zlen l1) (zlen (l1 ++ x :: l2)))) by (rewrite zlen_app, zlen_cons; lia).
  assert (zlookup (l1 ++ x :: l2) (zlen l1) = Some x) as Hx.
  { rewrite zlookup_app_r by lia. by rewrite Z.sub_diag. }
  rewrite (rep_elt _ _ _ _ Hr Hx). cbn [mbind res_bind].
  assert (l1 ++ x :: l2 = (l1 ++ [x]) ++ l2) as E by (by rewrite <- app_assoc).
  assert (zlen l1 + 1 = zlen (l1 ++ [x])) as E1 by (rewrite zlen_app, zlen_cons, zlen_nil; lia).
  rewrite E in Hr. rewrite E, E1.
  destruct (uniq_inner_spec (S (Z.to_nat (zlen ((l1 ++ [x]) ++ l2)))) a (l1 ++ [x]) l2 x ch Hr)
    as (b & c & -> & Hb & Efb & _).
  { rewrite to_nat_zlen, length_app. lia. }
  cbn [mbind res_bind].
  destruct (IH b (l1 ++ [x]) (without x l2) c Hb) as (d & ch' & l' & -> & Hu & Hd & Efd).
  { pose proof (without_length x l2). simpl in Hf. lia. }
  exists d, ch', (x :: l'). rewrite <- app_assoc in Hd. split_and!; [done|by constructor|done|congruence].
Qed.

Lemma rb_ary_uniq_bang_spec a l :
  rep a l → ary_modify a = Ok () →
  ∃ a' ch l', rb_ary_uniq_bang a = Ok (ch, a') ∧ Uniq l l' ∧ rep a' l' ∧ flags a' = flags a.
Proof.
  intros Hr Hm. unfold rb_ary_uniq_bang. rewrite Hm, (rb_ary_len_rep _ _ Hr). cbn [mbind res_bind].
  destruct (uniq_outer_spec (S (Z.to_nat (zlen l))) a [] l false Hr) as (b & ch & l' & E & ? & ? & ?).
  { rewrite to_nat_zlen. lia. }
  rewrite zlen_nil in E. cbn [app] in E. rewrite E. eauto 10.
Qed.

Lemma without_elem item l x : x ∈ without item l ↔ x ∈ l ∧ rb_equal_fast item x = false.
Proof.
  unfold without. rewrite !list_elem_of_In, filter_In. by rewrite negb_true_iff.
Qed.

Lemma without_sublist item l : without item l `sublist_of` l.
Proof.
  induction l as [|x l IH]; cbn; [done|]. unfold without in *.
  destruct (rb_equal_fast item x); cbn; by constructor.
Qed.

Lemma Uniq_sublist l l' : Uniq l l' → l' `sublist_of` l.
Proof.
  induction 1 as [|x l l' _ IH]; [done|]. constructor. etrans; [exact IH|apply without_sublist].
Qed.

Lemma Uniq_covers l l' x : Uniq l l' → x ∈ l → ∃ y, y ∈ l' ∧ (y = x ∨ rb_equal_fast y x = true).
Proof.
  induction 1 as [|y l l' _ IH]; [by intros ?%not_elem_of_nil|].
  intros [->|Hx]%elem_of_cons; [exists y; split; [by left|by left]|].
  destruct (rb_equal_fast y x) eqn:E; [exists y; split; [by left|by right]|].
  destruct IH as (z & Hz & ?); [by apply without_elem|]. exists z. split; [by right|done].
Qed.

Lemma Uniq_distinct l l' : Uniq l l' →
  ∀ i j x y, (i < j)%nat → l' !! i = Some x → l' !! j = Some y → rb_equal_fast x y = false.
Proof.
  induction 1 as [|z l l' Hu IH]; [done|]. intros i j x y Hij Hx Hy.
  destruct j as [|j]; [lia|]. cbn in Hy. destruct i as [|i]; cbn in Hx.
  - injection Hx as <-. apply list_elem_of_lookup_2 in Hy.
    eapply elem_of_sublist in Hy; [|by apply Uniq_sublist]. by apply without_elem in Hy as [_ ?].
  - by eapply (IH i j); [lia|..].
Qed.

(** ** Splicing *)

(** [l] with [r] in place of its [n] elements from [b], padded with [nil] up to
    [b]. *)
Definition splice_at (b n : Z) (r l : list Z) : list Z :=
  if decide (b < zlen l) then take (Z.to_nat b) l ++ r ++ drop (Z.to_nat (b + n)) l
  else l ++ replicate (Z.to_nat (b - zlen l)) Qnil ++ r.

Lemma insert_at_middle v (p q : list Z) : insert_at (zlen p) v (p ++ q) = p ++ v :: q.
Proof. unfold insert_at. by rewrite to_nat_zlen, take_app_length, drop_app_length. Qed.

Lemma take_S_lookup (r : list Z) i v : zlookup r i = Some v →
  take (Z.to_nat (i + 1)) r = take (Z.to_nat i) r ++ [v].
Proof.
  intros Hv. pose proof (zlookup_Some_range _ _ _ Hv). rewrite zlookup_nonneg in Hv by lia.
  replace (Z.to_nat (i + 1)) with (S (Z.to_nat i)) by lia. by apply take_S_r.
Qed.

Lemma insert_loop a p q r lr :
  rep a (p ++ q) → rep r lr → zlen p + zlen q + zlen lr ≤ max_len →
  ∃ a', for_range 0 (zlen lr) (λ i a, v ← rary_elt r i; rary_insert a (zlen p + i) v) a = Ok a' ∧
    rep a' (p ++ lr ++ q) ∧ flags a' = flags a.
Proof.
  intros Ha Hr Hmax. pose proof (zlen_nonneg lr). pose proof (zlen_nonneg q). pose proof (zlen_nonneg p).
  destruct (for_range_inv (λ k s, rep s (p ++ take (Z.to_nat k) lr ++ q) ∧ flags s = flags a) 0 (zlen lr)
    (λ i a, v ← rary_elt r i; rary_insert a (zlen p + i) v) a) as (b & -> & Hb & Ef).
  - lia.
  - done.
  - intros k s Hk [Hs Ef]. destruct (zlookup_is_Some lr k) as (v & Hv); [lia|].
    rewrite (rep_elt _ _ _ _ Hr Hv). cbn [mbind res_bind].
    assert (zlen (take (Z.to_nat k) lr) = k) as Ek by (rewrite zlen_take; lia).
    assert (zlen p + k = zlen (p ++ take (Z.to_nat k) lr)) as -> by (rewrite zlen_app; lia).
    rewrite app_assoc in Hs.
    destruct (rary_insert_spec s _ (zlen (p ++ take (Z.to_nat k) lr)) v Hs) as (s' & -> & Hs' & Ef').
    + rewrite !zlen_app. lia.
    + rewrite !zlen_app. lia.
    + apply returns_ret. split; [|congruence]. rewrite insert_at_middle in Hs'.
      by rewrite (take_S_lookup _ _ _ Hv), <- !app_assoc in *.
  - exists b. split_and!; [done| |done]. by rewrite to_nat_zlen, firstn_all in Hb.
Qed.

Lemma overwrite_loop a l b r lr :
  rep a l → rep r lr → 0 ≤ b → b + zlen lr ≤ zlen l →
  ∃ a', for_range 0 (zlen lr) (λ i a, v ← rary_elt r i; rary_replace a (b + i) v) a = Ok a' ∧
    rep a' (take (Z.to_nat b) l ++ lr ++ drop (Z.to_nat (b + zlen lr)) l) ∧ flags a' = flags a.
Proof.
  intros Ha Hr Hb Hl. pose proof (zlen_nonneg lr).
  set (G := λ k, take (Z.to_nat b) l ++ take (Z.to_nat k) lr ++ drop (Z.to_nat (b + k)) l).
  assert (∀ k, 0 ≤ k ≤ zlen lr → zlen (G k) = zlen l) as HG.
  { intros k Hk. unfold G. rewrite !zlen_app, !zlen_take, zlen_drop by lia. lia. }
  destruct (for_range_inv (λ k s, rep s (G k) ∧ flags s = flags a) 0 (zlen lr)
    (λ i a, v ← rary_elt r i; rary_replace a (b + i) v) a) as (c & -> & Hc & Ef).
  - lia.
  - unfold G. by rewrite Z.add_0_r, take_0, app_nil_l, take_drop.
  - intros k s Hk [Hs Ef]. destruct (zlookup_is_Some lr k) as (v & Hv); [lia|].
    rewrite (rep_elt _ _ _ _ Hr Hv). cbn [mbind res_bind].
    destruct (rary_replace_rep s _ (b + k) v Hs) as (s' & -> & Hs' & Hsh); [rewrite HG by lia; lia|].
    apply returns_ret. split; [|rewrite (sh_flags _ _ Hsh); done].
    replace (G (k + 1)) with (<[Z.to_nat (b + k):=v]> (G k)); [done|].
    apply zlist_eq; [rewrite zlen_insert, !HG; lia|]. rewrite zlen_insert, HG by lia.
    intros j Hj. rewrite zlookup_insert by (rewrite HG; lia). unfold G.
    rewrite (take_S_lookup _ _ _ Hv). rewrite !zlookup_app, !zlen_app, zlen_cons, zlen_nil, !zlen_take.
    rewrite !zlookup_cons. repeat case_decide; try lia; try done.
    rewrite !zlookup_drop by lia. f_equal. lia.
  - exists c. split_and!; [done| |done]. unfold G in Hc. by rewrite to_nat_zlen, firstn_all in Hc.
Qed.

Lemma pad_loop a l b :
  rep a l → zlen l ≤ b ≤ max_len →
  ∃ a', for_range (zlen l) b (λ _ a, rary_append a Qnil) a = Ok a' ∧
    rep a' (l ++ replicate (Z.to_nat (b - zlen l)) Qnil) ∧ flags a' = flags a ∧ (beg a = 0 → beg a' = 0).
Proof.
  intros Ha Hb.
  destruct (for_range_inv (λ k s, rep s (l ++ replicate (Z.to_nat (k - zlen l)) Qnil) ∧ flags s = flags a ∧
      (beg a = 0 → beg s = 0)) (zlen l) b (λ _ a, rary_append a Qnil) a) as (c & -> & Hc & Ef & Eb).
  - lia.
  - rewrite Z.sub_diag. cbn. by rewrite app_nil_r.
  - intros k s Hk (Hs & Ef & Eb).
    destruct (rary_append_spec s _ Qnil Hs) as (s' & -> & Hs' & Ef' & Eb').
    { rewrite zlen_app, zlen_replicate. lia. }
    apply returns_ret. split_and!; [|congruence|auto].
    replace (Z.to_nat (k + 1 - zlen l)) with (S (Z.to_nat (k - zlen l))) by lia.
    by rewrite replicate_S_end, app_assoc.
  - eauto 10.
Qed.

Lemma splice_clip (n b l : Z) :
  0 ≤ b ≤ max_len → 0 ≤ n → 0 ≤ l ≤ max_cap →
  (if (l <? n) || (l <? s64 (b + n)) then l - b else n) = Z.min n (l - b).
Proof.
  intros Hb Hn Hl. destruct (Z.ltb_spec l n); cbn [orb]; [lia|].
  rewrite s64_small by (unfold_max; lia). destruct (Z.ltb_spec l (b + n)); lia.
Qed.

Lemma splice_at_clip b n lr l :
  0 ≤ b < zlen l → splice_at b n lr l = take (Z.to_nat b) l ++ lr ++ drop (Z.to_nat (b + Z.min n (zlen l - b))) l.
Proof.
  intros Hb. unfold splice_at. rewrite decide_True by lia. do 2 f_equal.
  destruct (decide (n ≤ zlen l - b)); [f_equal; lia|]. unfold zlen in *. rewrite !drop_ge by lia. done.
Qed.

Lemma rb_ary_splice_spec a l b n rpl lr :
  rep a l → match rpl with Some r => rep r lr | None => lr = [] end → ary_modify a = Ok () →
  0 ≤ n → 0 ≤ norm b l ≤ max_len → Z.max (norm b l) (zlen l) + zlen lr ≤ max_len →
  (norm b l < zlen l ∨ beg a = 0) →
  ∃ a', rb_ary_splice a b n rpl = Ok a' ∧ rep a' (splice_at (norm b l) n lr l) ∧ flags a' = flags a.
Proof.
  intros Ha Hrpl Hm Hn Hb Hmax Hor. pose proof (zlen_nonneg l). pose proof (zlen_nonneg lr).
  unfold rb_ary_splice. rewrite (rb_ary_len_rep _ _ Ha).
  rewrite (proj2 (Z.ltb_ge n 0)) by lia.
  assert ((if b <? 0 then if b + zlen l <? 0 then Err (Raise IndexError) else Ok (b + zlen l) else Ok b)
    = Ok (norm b l)) as ->.
  { unfold norm in *. destruct (Z.ltb_spec b 0); [|done]. by rewrite (proj2 (Z.ltb_ge _ 0)) by lia. }
  cbn [mbind res_bind]. generalize dependent (norm b l). clear b. intros b Hb Hmax Hor.
  rewrite splice_clip by (unfold_max; lia).
  assert (rep (default ary_alloc rpl) lr) as Hr.
  { destruct rpl; [done|]. subst lr. apply rep_alloc. }
  assert (match rpl with Some r => rb_ary_len r | None => 0 end = zlen lr) as ->.
  { destruct rpl; [by apply rb_ary_len_rep|by subst lr]. }
  rewrite Hm. cbn [mbind res_bind]. destruct (Z.leb_spec (zlen l) b).
  - destruct Hor as [|Hb0]; [lia|]. unfold splice_at. rewrite decide_False by lia.
    destruct (pad_loop a l b Ha) as (c & -> & Hc & Ef & Eb); [lia|]. cbn [mbind res_bind].
    destruct (Z.ltb_spec 0 (zlen lr)).
    + destruct (rary_concat_spec c _ _ lr 0 (zlen lr) Hc Hr) as (d & -> & Hd & Efd & _); try lia.
      { rewrite zlen_app, zlen_replicate. lia. }
      { left. auto. }
      exists d. rewrite drop_0, to_nat_zlen, firstn_all, <- app_assoc in Hd. split_and!; [done|done|congruence].
    + assert (lr = []) as -> by (destruct lr; [done|rewrite zlen_cons in *; pose proof (zlen_nonneg lr); lia]).
      exists c. by rewrite app_nil_r.
  - rewrite splice_at_clip by lia. set (m := Z.min n (zlen l - b)). assert (0 ≤ m ≤ zlen l - b) by lia.
    destruct (Z.eqb_spec m (zlen lr)) as [Em|].
    + rewrite Em. apply overwrite_loop; [done..|lia|lia].
    + destruct (zlookup_is_Some l b) as (x & Hx); [lia|].
      destruct (rary_erase_spec a l b m x Ha) as (c & -> & Hc & Ef); [lia..|done|]. cbn [mbind res_bind].
      assert (Et : zlen (take (Z.to_nat b) l) = b) by (rewrite zlen_take; lia).
      destruct (insert_loop c (take (Z.to_nat b) l) (drop (Z.to_nat (b + m)) l) _ lr Hc Hr) as (d & E & Hd & Efd).
      { rewrite Et, zlen_drop by lia. lia. }
      rewrite Et in E. exists d. split_and!; [done..|congruence].
Qed.

(** A replacement beyond the end of an array that was shifted may write past the block. *)
Lemma rb_ary_splice_beyond a l b n rpl lr :
  rep a l → match rpl with Some r => rep r lr | None => lr = [] end → ary_modify a = Ok () →
  0 ≤ n → zlen l ≤ norm b l ≤ max_len → norm b l + zlen lr ≤ max_len →
  (∃ a', rb_ary_splice a b n rpl = Ok a' ∧ rep a' (splice_at (norm b l) n lr l)) ∨ rb_ary_splice a b n rpl = Err OutOfBounds.
Proof.
  intros Ha Hrpl Hm Hn Hb Hmax. pose proof (zlen_nonneg l). pose proof (zlen_nonneg lr).
  assert (norm b l = b ∧ 0 ≤ b) as [Eb Hb0] by (unfold norm in *; destruct (Z.ltb_spec b 0); lia). rewrite Eb in *.
  unfold rb_ary_splice. rewrite (rb_ary_len_rep _ _ Ha), (proj2 (Z.ltb_ge n 0)), (proj2 (Z.ltb_ge b 0)) by lia. cbn [mbind res_bind].
  assert (rep (default ary_alloc rpl) lr) as Hr by (destruct rpl; [done|subst lr; apply rep_alloc]).
  assert (match rpl with Some r => rb_ary_len r | None => 0 end = zlen lr) as -> by (destruct rpl; [by apply rb_ary_len_rep|by subst lr]).
  rewrite Hm. cbn [mbind res_bind]. rewrite (proj2 (Z.leb_le (zlen l) b)) by lia. unfold splice_at. rewrite decide_False by lia.
  destruct (pad_loop a l b Ha) as (c & -> & Hc & _); [lia|]. cbn [mbind res_bind]. set (lc := l ++ _) in *.
  assert (zlen lc = b) as Hz by (unfold lc; rewrite zlen_app, zlen_replicate; lia). destruct (Z.ltb_spec 0 (zlen lr)).
  - destruct (decide (reserve_ok c (zlen lc + zlen lr))) as [Hok|Hok].
    + left. destruct (rary_concat_spec c lc _ lr 0 (zlen lr) Hc Hr) as (d & -> & Hd & _); [lia..|done|]. exists d.
      rewrite drop_0, to_nat_zlen, firstn_all in Hd. unfold lc in Hd. by rewrite <- app_assoc in Hd.
    + right. apply (rary_concat_overflow c lc _ lr); [done|done|lia|lia|lia|done].
  - left. assert (lr = []) as -> by (destruct lr; [done|rewrite zlen_cons in *; pose proof (zlen_nonneg lr); lia]).
    exists c. by rewrite app_nil_r.
Qed.

(** ** Blocks that leave the receiver alone *)

Section blocks.
Context {U : Type} (block : Z → U * rb_ary_t → res (yielded * (U * rb_ary_t))).
Context (f : Z → U → Z) (upd : Z → U → U).
Hypothesis block_pure : ∀ x u a, block x (u, a) = Ok (Yield (f x u), (upd x u, a)).

(** The state the block leaves, and the elements for which it is true. *)
Fixpoint run_block (u : U) (l : list Z) : U :=
  match l with [] => u | x :: l' => run_block (upd x u) l' end.

Fixpoint selects (want : bool) (u : U) (l : list Z) : list Z :=
  match l with
  | [] => []
  | x :: l' =>
      let rest := selects want (upd x u) l' in
      if Bool.eqb (RTEST (f x u)) want then x :: rest else rest
  end.

Fixpoint maps (u : U) (l : list Z) : list Z :=
  match l with [] => [] | x :: l' => f x u :: maps (upd x u) l' end.

Lemma selects_length want u l : (length (selects want u l) ≤ length l)%nat.
Proof.
  revert u. induction l as [|x l IH]; intros u; cbn; [lia|]. specialize (IH (upd x u)).
  destruct (Bool.eqb _ _); cbn; lia.
Qed.

Lemma elt_middle a l1 x l2 : rep a (l1 ++ x :: l2) → rb_ary_elt a (zlen l1) = Ok x.
Proof.
  intros Hr. pose proof (rep_length_bound _ _ Hr). rewrite zlen_app, zlen_cons in *.
  pose proof (zlen_nonneg l1). pose proof (zlen_nonneg l2).
  rewrite (rb_ary_elt_rep _ _ _ Hr) by (unfold_max; lia).
  rewrite zlookup_app_r by lia. by rewrite Z.sub_diag.
Qed.

Lemma reject_loop_spec fuel orign a l1 l2 u :
  rep a (l1 ++ l2) → (length l2 < fuel)%nat →
  ∃ a', iter fuel (λ '(i1, n, s),
    if i1 <? n then
      v ← rb_ary_elt s.2 i1;
      '(y, s) ← block v s;
      match y with
      | Broken v => Ok (inr (Break v, s))
      | Yield v2 =>
          if RTEST v2 then
            '(_, a) ← rb_ary_erase s.2 i1;
            Ok (inl (i1, n - 1, (s.1, a)))
          else Ok (inl (i1 + 1, n, s))
      end
    else Ok (inr (if n =? orign then Value Qnil else Self, s))) (zlen l1, zlen (l1 ++ l2), (u, a))
    = Ok (if zlen (l1 ++ selects false u l2) =? orign then Value Qnil else Self, (run_block u l2, a')) ∧
    rep a' (l1 ++ selects false u l2) ∧ flags a' = flags a.
Proof using block_pure.
  set (stp := λ x : Z * Z * (U * rb_ary_t), _). revert a l1 l2 u.
  induction fuel as [|fuel IH]; intros a l1 l2 u Hr Hf; [lia|]. cbn [iter]. unfold stp at 2. cbn [snd fst].
  destruct l2 as [|x l2]; cbn [run_block selects].
  { rewrite app_nil_r in Hr |- *. rewrite Z.ltb_irrefl. cbn [mbind res_bind]. by exists a. }
  pose proof (zlen_nonneg l2).
  rewrite (proj2 (Z.ltb_lt (zlen l1) (zlen (l1 ++ x :: l2)))) by (rewrite zlen_app, zlen_cons; lia).
  rewrite (elt_middle _ _ _ _ Hr). cbn [mbind res_bind]. rewrite block_pure. cbn [mbind res_bind snd fst].
  destruct (RTEST (f x u)); cbn [Bool.eqb].
  - destruct (rb_ary_erase_spec a _ (zlen l1) x Hr) as (b & -> & Hb & Efb).
    { rewrite zlookup_app_r by lia. by rewrite Z.sub_diag. }
    cbn [mbind res_bind fst snd]. rewrite remove_at_middle in Hb.
    replace (zlen (l1 ++ x :: l2) - 1) with (zlen (l1 ++ l2)) by (rewrite !zlen_app, zlen_cons; lia).
    destruct (IH b l1 l2 (upd x u) Hb) as (c & -> & Hc & Efc); [simpl in Hf; lia|].
    exists c. split_and!; [done|done|congruence].
  - cbn [mbind res_bind]. assert (∀ m : list Z, l1 ++ x :: m = (l1 ++ [x]) ++ m) as E by (intros; by rewrite <- app_assoc).
    rewrite E in Hr |- *. rewrite (E (selects _ _ _)).
    replace (zlen l1 + 1) with (zlen (l1 ++ [x])) by (rewrite zlen_app, zlen_cons, zlen_nil; lia).
    apply IH; [done|simpl in Hf; lia].
Qed.

Lemma rb_ary_reject_bang_spec u a l :
  rep a l → ary_modify a = Ok () →
  ∃ a', rb_ary_reject_bang block (u, a) =
      Ok (if zlen (selects false u l) =? zlen l then Value Qnil else Self, (run_block u l, a')) ∧
    rep a' (selects false u l) ∧ flags a' = flags a.
Proof using block_pure.
  intros Hr Hm. unfold rb_ary_reject_bang. cbn [snd]. rewrite Hm, (rb_ary_len_rep _ _ Hr). cbn [mbind res_bind].
  destruct (reject_loop_spec (S (Z.to_nat (zlen l))) (zlen l) a [] l u Hr) as (b & E & Hb & Ef).
  { rewrite to_nat_zlen. lia. }
  exists b. split_and!; [exact E|done|done].
Qed.
End blocks.
End methods.
