(* ===== verification/RArrayThm.v ===== *)
(** * array.c: theorems

    What class [Array] promises, stated on the lists the arrays hold, and where
    the code falls short of it. *)

From S2P Require Import Prelude RArray RArrayRep RArrayOps RArrayMethods.

Section theorems.
Context `{RT : Runtime}.

(** ** Sequences of operations *)

Inductive ary_op :=
  | APush (v : Z) | APop | AShift | AUnshift (v : Z) | AInsert (i v : Z)
  | ADeleteAt (i : Z) | ADelete (v : Z) | AGet (i : Z) | ASet (i v : Z) | AReverse | AClear.

Definition run_ary_op (a : rb_ary_t) (op : ary_op) : res (Z * rb_ary_t) :=
  match op with
  | APush v => a ← rb_ary_push a v; Ok (Qnil, a)
  | APop => rb_ary_pop a
  | AShift => rb_ary_shift a
  | AUnshift v => a ← rb_ary_unshift a v; Ok (Qnil, a)
  | AInsert i v => a ← rb_ary_insert a i v; Ok (Qnil, a)
  | ADeleteAt i => rb_ary_delete_at a i
  | ADelete v => rb_ary_delete a v
  | AGet i => v ← rb_ary_entry a i; Ok (v, a)
  | ASet i v => a ← rb_ary_store a i v; Ok (Qnil, a)
  | AReverse => a ← rb_ary_reverse a; Ok (Qnil, a)
  | AClear => a ← rb_ary_clear a; Ok (Qnil, a)
  end.

(** The same on lists; an index before the start raises, one beyond the end pads with [nil]. *)
Definition list_op (l : list Z) (op : ary_op) : res (Z * list Z) :=
  match op with
  | APush v => Ok (Qnil, l ++ [v])
  | APop => Ok (default Qnil (last l), removelast l)
  | AShift => Ok (default Qnil (head l), tail l)
  | AUnshift v => Ok (Qnil, v :: l)
  | AInsert i v => if decide (norm i l < 0) then Err (Raise IndexError) else
                 Ok (Qnil, if decide (norm i l ≤ zlen l) then insert_at (norm i l) v l else store_at (norm i l) v l)
  | ADeleteAt i => match zlookup l (norm i l) with
                   | Some x => Ok (x, remove_at (norm i l) 1 l)
                   | None => Ok (Qnil, l)
                   end
  | ADelete v => Ok (if forallb (λ x, negb (rb_equal_fast v x)) l then Qnil else v, without v l)
  | AGet i => Ok (default Qnil (zlookup l (norm i l)), l)
  | ASet i v => if decide (norm i l < 0) then Err (Raise IndexError) else Ok (Qnil, store_at (norm i l) v l)
  | AReverse => Ok (Qnil, reverse l)
  | AClear => Ok (Qnil, [])
  end.

Fixpoint run_ary_ops (a : rb_ary_t) (ops : list ary_op) : res (list Z * rb_ary_t) :=
  match ops with
  | [] => Ok ([], a)
  | op :: ops' => '(r, a) ← run_ary_op a op; '(rs, a) ← run_ary_ops a ops'; Ok (r :: rs, a)
  end.

Fixpoint list_ops (l : list Z) (ops : list ary_op) : res (list Z * list Z) :=
  match ops with
  | [] => Ok ([], l)
  | op :: ops' => '(r, l) ← list_op l op; '(rs, l) ← list_ops l ops'; Ok (r :: rs, l)
  end.

(** Indices are [long]s, and the array stays below the largest length. *)
Definition op_ok (l : list Z) (op : ary_op) : Prop :=
  zlen l < max_len ∧
  match op with
  | AInsert i _ | ASet i _ => LONG_MIN ≤ i ≤ LONG_MAX ∧ norm i l < max_len
  | ADeleteAt i | AGet i => LONG_MIN ≤ i ≤ LONG_MAX
  | _ => True
  end.

(** Insertion is up to the end, and assignment within the array. *)
Definition op_within (l : list Z) (op : ary_op) : Prop :=
  match op with
  | AInsert i _ => norm i l ≤ zlen l
  | ASet i _ => norm i l < zlen l
  | _ => True
  end.

Fixpoint ops_all (P : list Z → ary_op → Prop) (l : list Z) (ops : list ary_op) : Prop :=
  match ops with
  | [] => True
  | op :: ops' => P l op ∧ match list_op l op with Ok (_, l') => ops_all P l' ops' | Err _ => True end
  end.

Definition op_result (a : rb_ary_t) (l : list Z) (op : ary_op) : Prop :=
  match list_op l op with
  | Ok (r, l') => ∃ a', run_ary_op a op = Ok (r, a') ∧ rep a' l' ∧ flags a' = flags a
  | Err e => run_ary_op a op = Err e
  end.

Lemma run_ary_op_within a l op :
  rep a l → ary_modify a = Ok () → op_ok l op → op_within l op → op_result a l op.
Proof.
  unfold op_result. intros Hr Hm [Hl Hok] Hin. destruct op as [v| | |v|i v|i|v|i|i v| |]; cbn [list_op run_ary_op op_within] in *.
  - destruct (rb_ary_push_spec a l v Hr Hm Hl) as (a' & -> & ? & ?). cbn. eauto.
  - pose proof (rb_ary_pop_spec a l Hr Hm) as H. destruct (last l) eqn:E; cbn; [done|].
    apply last_None in E. subst l. eauto.
  - pose proof (rb_ary_shift_spec a l Hr Hm) as H. destruct l; cbn; eauto.
  - destruct (rb_ary_unshift_spec a l v Hr Hm Hl) as (a' & -> & ? & ?). cbn. eauto.
  - pose proof (rb_ary_insert_spec a l i v Hr ltac:(lia) ltac:(lia) Hl) as H. case_decide; [by rewrite H|].
    destruct H as (a' & -> & ? & ?). rewrite decide_True by done. cbn. eauto.
  - pose proof (rb_ary_delete_at_spec a l i Hr Hm ltac:(lia)) as H. destruct (zlookup l (norm i l)); eauto.
  - apply rb_ary_delete_spec; done.
  - rewrite (rb_ary_entry_spec _ _ _ Hr Hok). cbn. eauto.
  - pose proof (rb_ary_store_spec a l i v Hr ltac:(lia) ltac:(lia)) as H. case_decide; [by rewrite H|].
    destruct H as (a' & -> & ? & ?); [left; lia|]. cbn. eauto.
  - unfold rb_ary_reverse. rewrite Hm. cbn [mbind res_bind].
    destruct (rary_reverse_spec a l Hr) as (a' & -> & ? & ?). cbn. eauto.
  - unfold rb_ary_clear. rewrite Hm. cbn [mbind res_bind].
    destruct (rary_clear_spec a l Hr) as (a' & -> & ? & ? & _). cbn. eauto.
Qed.

Lemma run_ary_op_spec a l op :
  rep a l → ary_modify a = Ok () → op_ok l op →
  op_result a l op ∨ (¬ op_within l op ∧ run_ary_op a op = Err OutOfBounds).
Proof.
  intros Hr Hm Hok. assert (op_within l op ∨ ¬ op_within l op) as [Hin|Hout]; [|left; by apply run_ary_op_within|].
  { destruct op; cbn; try (by left); lia. }
  pose proof (zlen_nonneg l). unfold op_result. destruct op as [v| | |v|i v|i|v|i|i v| |]; try (by destruct Hout); destruct Hok as (_ & _ & Hi); cbn in Hout.
  - cbn [list_op run_ary_op]. rewrite !decide_False by lia. destruct (rb_ary_insert_beyond a l i v Hr) as [(a' & -> & ? & ?)| ->]; [lia|left|right]; cbn; eauto.
  - cbn [list_op run_ary_op]. rewrite !decide_False by lia. destruct (rb_ary_store_beyond a l i v Hr) as [(a' & -> & ? & ?)| ->]; [lia|left|right]; cbn; eauto.
Qed.

(** C4: any sequence of [push], [pop], [shift], [unshift], [insert],
    [delete_at], [delete], element reads and assignments,
    [reverse!] and [clear] on an unfrozen array, with indices that are [long]s and lengths below 2^59, answers what the same operations
    on a list answer, up to the first [IndexError], and leaves an array that
    holds the same elements, without a read or a write outside the block; unless an insertion beyond the end or an assignment at or beyond it
    occurs: then the only other outcome is a write outside the block. *)
Theorem array_trace_refines a l ops :
  rep a l → ary_modify a = Ok () → ops_all op_ok l ops →
  match list_ops l ops with
  | Ok (rs, l') => ∃ a', run_ary_ops a ops = Ok (rs, a') ∧ rep a' l'
  | Err e => run_ary_ops a ops = Err e
  end ∨
  (¬ ops_all op_within l ops ∧ run_ary_ops a ops = Err OutOfBounds).
Proof.
  revert a l. induction ops as [|op ops IH]; intros a l Hr Hm Hok; cbn [list_ops run_ary_ops ops_all]; [left; eauto|].
  destruct Hok as [Hop Hok]. unfold op_result in *.
  destruct (run_ary_op_spec a l op Hr Hm Hop) as [Hstep|[Hn E]]; [|right; rewrite E; tauto]. unfold op_result in Hstep.
  destruct (list_op l op) as [[r l1]|e] eqn:E; cbn [mbind res_bind]; [|left; by rewrite Hstep].
  destruct Hstep as (a1 & -> & Hr1 & Ef). cbn [mbind res_bind].
  destruct (IH a1 l1 Hr1 ltac:(by rewrite (ary_modify_flags a1 a)) Hok) as [H|[Hn E2]]; [left|right; rewrite E2; tauto].
  destruct (list_ops l1 ops) as [[rs l2]|e]; cbn [mbind res_bind]; [|by rewrite H].
  destruct H as (a2 & -> & Hr2). cbn. eauto.
Qed.

(** ** Room *)

(** [rary_reserve] never loses an element, and afterwards there is room
    for the requested number of elements from the start of the window, unless
    the window is offset and the request exceeds the capacity by at most the
    offset: then the block is compacted but not enlarged, and is too small. *)
Theorem rary_reserve_room a l n :
  rep a l → 0 ≤ n ≤ max_len →
  ∃ a', rary_reserve a n = Ok a' ∧ rep a' l ∧ (beg a' + n ≤ cap a' ↔ reserve_ok a n).
Proof.
  intros Hr Hn. destruct (rary_reserve_spec a l n Hr Hn) as (a' & E & Hr' & _ & _ & Hok & Hno & _).
  exists a'. split_and!; [done..|]. split; [|done]. intros Hroom.
  destruct (decide (reserve_ok a n)) as [|Hn']; [done|]. destruct (Hno Hn') as [Eb Ec].
  unfold reserve_ok in *. lia.
Qed.

(** C5: appending [n] elements of another array gives the concatenation
    exactly when that room is there; otherwise the copying loop writes past the
    end of the block. *)
Theorem rary_concat_outcome a l other lo b n :
  rep a l → rep other lo → 0 ≤ b → 0 ≤ n → b + n ≤ zlen lo → zlen l + n ≤ max_len →
  if decide (reserve_ok a (zlen l + n))
  then ∃ a', rary_concat a other b n = Ok a' ∧ rep a' (l ++ sub b n lo)
  else rary_concat a other b n = Err OutOfBounds.
Proof.
  intros Hr Ho Hb Hn Hbn Hmax. case_decide as Hok.
  - destruct (rary_concat_spec a l other lo b n Hr Ho Hb Hn Hbn Hmax Hok) as (a' & ? & ? & _). eauto.
  - by apply (rary_concat_overflow a l other lo).
Qed.

(** ** Methods *)

(** C6: [a[b, n] = r] puts [r] in the place of the [n] elements from [b], or
    of those that exist, negative [b] counting from the end, and pads with
    [nil] if [b] is beyond the end.
    A negative length or a start before the array raise [IndexError].  At or beyond the end of an array that was shifted, the only other
    outcome is a write outside the block. *)
Theorem rb_ary_splice_correct a l b n rpl lr :
  rep a l → match rpl with Some r => rep r lr | None => lr = [] end → ary_modify a = Ok () →
  norm b l ≤ max_len → Z.max (norm b l) (zlen l) + zlen lr ≤ max_len →
  if decide (n < 0 ∨ norm b l < 0) then rb_ary_splice a b n rpl = Err (Raise IndexError)
  else (∃ a', rb_ary_splice a b n rpl = Ok a' ∧ rep a' (splice_at (norm b l) n lr l)) ∨
    (zlen l ≤ norm b l ∧ beg a ≠ 0 ∧ rb_ary_splice a b n rpl = Err OutOfBounds).
Proof.
  intros Hr Hrpl Hm Hb Hmax. case_decide as Hd.
  - unfold rb_ary_splice. rewrite (rb_ary_len_rep _ _ Hr). destruct (Z.ltb_spec n 0); [done|].
    unfold norm in Hd. destruct (Z.ltb_spec b 0); [|lia]. by rewrite (proj2 (Z.ltb_lt _ 0)) by lia.
  - destruct (decide (norm b l < zlen l ∨ beg a = 0)) as [Hor|Hor].
    + left. destruct (rb_ary_splice_spec a l b n rpl lr Hr Hrpl Hm) as (a' & ? & ? & _); [lia..|done|]. eauto.
    + destruct (rb_ary_splice_beyond a l b n rpl lr Hr Hrpl Hm) as [H|H]; [lia..|by left|right]. split_and!; [lia|lia|done].
Qed.

(** Fifteen elements in a block of 16 from its second word: an insertion or an assignment at 16 writes outside. *)
Example insert_beyond_overflows :
  let a := mkAry 0 1 15 16 (replicate 16 (Some 3)) in rb_ary_insert a 16 9 = Err OutOfBounds ∧ rb_ary_store a 16 9 = Err OutOfBounds.
Proof. by vm_compute. Qed.

(** [uniq!] keeps the first of each group of equal elements: what is left
    is a sublist of the original in which no later element equals an earlier
    one, and every original element equals one that was kept. *)
Lemma rb_ary_uniq_bang_correct a l :
  rep a l → ary_modify a = Ok () →
  ∃ a' changed l', rb_ary_uniq_bang a = Ok (changed, a') ∧ rep a' l' ∧ l' `sublist_of` l ∧
    (∀ i j x y, (i < j)%nat → l' !! i = Some x → l' !! j = Some y → rb_equal_fast x y = false) ∧
    (∀ x, x ∈ l → ∃ y, y ∈ l' ∧ (y = x ∨ rb_equal_fast y x = true)).
Proof.
  intros Hr Hm. destruct (rb_ary_uniq_bang_spec a l Hr Hm) as (a' & ch & l' & E & Hu & Hr' & _).
  exists a', ch, l'. split_and!; [done..|by apply Uniq_sublist|by apply (Uniq_distinct l)|].
  intros x. by apply Uniq_covers.
Qed.

(** [reject!] runs the block on every element in order, exactly once,
    although the loop removes elements under its own index; it keeps the
    elements for which the block is false and answers [nil] exactly if nothing
    was removed. *)
Lemma rb_ary_reject_bang_correct {U} block (f : Z → U → Z) upd u a l :
  (∀ x u a, block x (u, a) = Ok (Yield (f x u), (upd x u, a))) →
  rep a l → ary_modify a = Ok () →
  ∃ a', rb_ary_reject_bang block (u, a) =
      Ok (if zlen (selects f upd false u l) =? zlen l then Value Qnil else Self, (run_block upd u l, a')) ∧
    rep a' (selects f upd false u l).
Proof.
  intros Hb Hr Hm. destruct (rb_ary_reject_bang_spec block f upd Hb u a l Hr Hm) as (a' & ? & ? & _). eauto.
Qed.

(** The methods that filter in place while they iterate.  [uniq!] keeps the
    first of each group of equal elements: what is left is a sublist of the original
    in which no later element equals an earlier one, and every original element
    equals one that was kept.  [reject!] runs the block on every element in order,
    exactly once, although the loop removes elements under its own index; it keeps
    the elements for which the block is false and answers [nil] exactly if nothing
    was removed. *)
Theorem rb_ary_filters_correct {U} block (f : Z → U → Z) upd u a l :
  (∀ x u a, block x (u, a) = Ok (Yield (f x u), (upd x u, a))) →
  rep a l → ary_modify a = Ok () →
  (∃ a' changed l', rb_ary_uniq_bang a = Ok (changed, a') ∧ rep a' l' ∧ l' `sublist_of` l ∧
    (∀ i j x y, (i < j)%nat → l' !! i = Some x → l' !! j = Some y → rb_equal_fast x y = false) ∧
    (∀ x, x ∈ l → ∃ y, y ∈ l' ∧ (y = x ∨ rb_equal_fast y x = true))) ∧
  (∃ a', rb_ary_reject_bang block (u, a) =
      Ok (if zlen (selects f upd false u l) =? zlen l then Value Qnil else Self, (run_block upd u l, a')) ∧
    rep a' (selects f upd false u l)).
Proof. intros Hb Hr Hm. split; [by apply rb_ary_uniq_bang_correct|by apply rb_ary_reject_bang_correct]. Qed.

(** [slice!(pos, n)] removes the slice and returns it, and answers [nil] if
    [pos] lies before the array; but where the documentation promises [nil] for
    a start beyond the end it raises [IndexError], because the clipped length is
    then negative and [rb_ary_splice] is called all the same. *)
Theorem rb_ary_slice_bang_outcome a l pos n :
  rep a l → ary_modify a = Ok () → LONG_MIN ≤ pos ≤ max_len → LONG_MIN ≤ n ≤ LONG_MAX → zlen l ≤ max_len →
  if decide (norm pos l < 0) then rb_ary_slice_bang a (SSlice pos n) = Ok (Sub None, a)
  else if decide (n < 0 ∨ zlen l < norm pos l)
  then rb_ary_slice_bang a (SSlice pos n) = Err (Raise IndexError)
  else ∃ b a', rb_ary_slice_bang a (SSlice pos n) = Ok (Sub (Some b), a') ∧
    rep b (sub (norm pos l) n l) ∧ rep a' (remove_at (norm pos l) (Z.min n (zlen l - norm pos l)) l).
Proof.
  intros Hr Hm Hpos Hn Hl. unfold rb_ary_slice_bang. rewrite Hm, (rb_ary_len_rep _ _ Hr). cbn [mbind res_bind].
  assert (norm pos l ≤ max_len) by (unfold norm in *; destruct (Z.ltb_spec pos 0); lia).
  replace (if pos <? 0 then zlen l + pos else pos) with (norm pos l)
    by (unfold norm; destruct (pos <? 0); lia).
  pose proof (zlen_nonneg l). generalize dependent (norm pos l). clear pos Hpos. intros p Hp.
  case_decide; [by rewrite (proj2 (Z.ltb_lt p 0))|]. rewrite (proj2 (Z.ltb_ge p 0)) by lia.
  set (m := if (zlen l <? n) || (zlen l <? s64 (p + n)) then zlen l - p else n).
  pose proof (rb_ary_subseq_spec a l p m Hr) as Hsub. unfold LONG_MAX in *.
  destruct (decide (n < 0 ∨ zlen l < p)) as [Hd|Hd].
  - assert (m < 0) as Hneg.
    { unfold m. destruct (Z.ltb_spec (zlen l) n); cbn [orb]; [lia|].
      destruct (Z.ltb_spec (zlen l) (s64 (p + n))) as [|Hs]; [|].
      - destruct Hd; [|lia]. destruct (decide (p ≤ zlen l)); [|lia].
        rewrite s64_small in * by (unfold LONG_MIN in *; unfold_max; lia). lia.
      - destruct Hd; [done|]. destruct (Z.le_gt_cases 0 n); [|done].
        rewrite s64_small in Hs by (unfold_max; lia). lia. }
    rewrite decide_False in Hsub by lia. rewrite Hsub by (unfold_max; lia). cbn [mbind res_bind].
    unfold rb_ary_splice. by rewrite (proj2 (Z.ltb_lt m 0)).
  - assert (m = Z.min n (zlen l - p)) as Em by (apply splice_clip; unfold_max; lia).
    rewrite decide_True in Hsub by lia.
    destruct Hsub as (b & -> & Hb & _); [unfold_max; lia..|]. cbn [mbind res_bind].
    assert (∃ a', rb_ary_splice a p m None = Ok a' ∧ rep a' (remove_at p m l)) as (a' & -> & Ha').
    { destruct (decide (p = zlen l)) as [->|].
      - exists a. unfold rb_ary_splice. rewrite (rb_ary_len_rep _ _ Hr), Hm.
        rewrite (proj2 (Z.ltb_ge m 0)), (proj2 (Z.ltb_ge (zlen l) 0)) by lia. cbn [mbind res_bind].
        rewrite Z.leb_refl, for_range_empty by lia. cbn. split; [done|].
        replace m with 0 by lia. unfold remove_at. rewrite Z.add_0_r. by rewrite take_drop.
      - assert (norm p l = p) as En by (unfold norm; by rewrite (proj2 (Z.ltb_ge p 0)) by lia).
        destruct (rb_ary_splice_spec a l p m None [] Hr eq_refl Hm) as (a' & E & Ha' & _);
          rewrite ?En, ?zlen_nil in *; try lia.
        exists a'. split; [done|]. unfold splice_at in Ha'. by rewrite decide_True in Ha' by lia. }
    cbn [mbind res_bind]. exists b, a'. split_and!; [done| |by rewrite <- Em].
    replace (sub p n l) with (sub p m l); [done|]. unfold sub. rewrite Em.
    destruct (decide (n ≤ zlen l - p)); [f_equal; lia|].
    unfold zlen in *. rewrite !take_ge; [done|rewrite length_drop; lia..].
Qed.

(** The number of elements equal to [obj]. *)
Definition occurrences (obj : Z) (l : list Z) : Z := zlen (List.filter (rb_equal_fast obj) l).

Lemma occurrences_none obj l :
  forallb (λ x, negb (rb_equal_fast obj x)) l = true → occurrences obj l = 0.
Proof.
  unfold occurrences. induction l as [|x l IH]; [done|]. cbn. intros [Hx Hl]%andb_true_iff.
  apply negb_true_iff in Hx. rewrite Hx. by apply IH.
Qed.

Lemma count_loop_spec fuel a l1 y l2 obj n :
  rep a (l1 ++ y :: l2) → (length l2 < fuel)%nat →
  count_loop fuel a (zlen (l1 ++ y :: l2)) (zlen l1) obj n = Ok (n + occurrences obj (y :: l2)).
Proof.
  revert l1 y l2 n. induction fuel as [|fuel IH]; intros l1 y l2 n Hr Hf; [lia|]. cbn [count_loop].
  destruct (rary_index_of_item_spec a _ obj l1 y l2 Hr eq_refl) as [[-> Hn]|(m1 & x & m2 & E & Hm & Hx & ->)];
    cbn [mbind res_bind].
  - rewrite Z.eqb_refl, occurrences_none by done. f_equal. lia.
  - assert (occurrences obj (y :: l2) = 1 + occurrences obj m2) as ->.
    { rewrite E. unfold occurrences. rewrite List.filter_app, zlen_app. cbn. rewrite Hx, zlen_cons.
      pose proof (occurrences_none obj m1 Hm) as E0. unfold occurrences in E0. lia. }
    rewrite E in Hr |- *. rewrite app_assoc in Hr |- *. rewrite (not_found_bound _ _ _ Hr).
    replace (zlen (l1 ++ m1) + 1) with (zlen ((l1 ++ m1) ++ [x])) by (rewrite zlen_app, zlen_cons, zlen_nil; lia).
    replace ((l1 ++ m1) ++ x :: m2) with (((l1 ++ m1) ++ [x]) ++ m2) in * by (by rewrite <- !app_assoc).
    destruct m2 as [|z m2].
    + rewrite app_nil_r, Z.eqb_refl. unfold occurrences. cbn. f_equal.
    + pose proof (zlen_nonneg m2). rewrite (proj2 (Z.eqb_neq _ _)) by (rewrite (zlen_app _ (z :: m2)), zlen_cons; lia).
      rewrite IH; [f_equal; lia|done|]. apply (f_equal length) in E. rewrite length_app in E. simpl in *. lia.
Qed.

(** [count(obj)] is the number of elements equal to [obj], except on the
    empty array: there the search is started at index 0 of 0 elements, which the
    assertion at the head of [rary_index_of_item] refuses, so that the process
    aborts. *)
Lemma rb_ary_count_outcome a l obj :
  rep a l →
  rb_ary_count a obj = if decide (l = []) then Err AssertFailed else Ok (occurrences obj l).
Proof.
  intros Hr. unfold rb_ary_count. rewrite (rb_ary_len_rep _ _ Hr). case_decide as Hd.
  - subst l. cbn. unfold rary_index_of_item. by rewrite (rep_len _ _ Hr).
  - destruct l as [|y l]; [done|].
    pose proof (count_loop_spec (S (Z.to_nat (zlen (y :: l)))) a [] y l obj 0 Hr) as H.
    cbn [app] in H. rewrite zlen_nil in H. rewrite H; [done|]. rewrite to_nat_zlen. simpl. lia.
Qed.
End theorems.

(** ** Counting combinations *)

Fixpoint binomial (n k : nat) : Z :=
  match k, n with
  | O, _ => 1
  | S _, O => 0
  | S k', S n' => binomial n' k' + binomial n' k
  end.

Lemma binomial_0 n : binomial n 0 = 1.
Proof. by destruct n. Qed.

Lemma binomial_nonneg n k : 0 ≤ binomial n k.
Proof.
  revert k. induction n as [|n IH]; intros [|k]; cbn [binomial]; try lia.
  pose proof (IH k). pose proof (IH (S k)). lia.
Qed.

Lemma binomial_gt n k : (n < k)%nat → binomial n k = 0.
Proof.
  revert k. induction n as [|n IH]; intros [|k] Hk; cbn [binomial]; try lia.
  rewrite !IH by lia. done.
Qed.

Lemma binomial_absorb n k :
  (k ≤ n)%nat → Z.of_nat (S k) * binomial n (S k) = (Z.of_nat n - Z.of_nat k) * binomial n k.
Proof.
  revert k. induction n as [|n IH]; intros k Hk.
  - replace k with O by lia. done.
  - cbn [binomial]. destruct k as [|k].
    + destruct n as [|n]; [done|]. specialize (IH 0%nat). rewrite !binomial_0 in *. lia.
    + pose proof (IH k ltac:(lia)) as H1. destruct (decide (S k ≤ n)%nat).
      * pose proof (IH (S k) ltac:(lia)) as H2. lia.
      * rewrite (binomial_gt n (S k)), (binomial_gt n (S (S k))) in * by lia. lia.
Qed.

Lemma binomial_diag n : binomial n n = 1.
Proof.
  induction n as [|n IH]; [done|]. cbn [binomial]. rewrite IH, binomial_gt by lia. done.
Qed.

Lemma binomial_sym n k : (k ≤ n)%nat → binomial n k = binomial n (n - k).
Proof.
  revert k. induction n as [|n IH]; intros k Hk; [by replace k with O by lia|].
  destruct k as [|k]; [by rewrite binomial_0, Nat.sub_0_r, binomial_diag|].
  destruct (decide (k = n)) as [->|]; [by rewrite Nat.sub_diag, binomial_diag, binomial_0|].
  replace (S n - S k)%nat with (S (n - S k))%nat by lia. cbn [binomial].
  rewrite (IH k), (IH (S k)) by lia. replace (n - k)%nat with (S (n - S k))%nat by lia. lia.
Qed.

Lemma combi_loop n k :
  (k ≤ n)%nat → Z.of_nat n ≤ LONG_MAX →
  (∀ i, (i < k)%nat → binomial n i * (Z.of_nat n - Z.of_nat i) ≤ LONG_MAX) →
  returns (for_range 1 (Z.of_nat k + 1) combi_step (1, Z.of_nat n))
   (λ s, s = (binomial n k, Z.of_nat n - Z.of_nat k)).
Proof.
  intros Hk Hn Hfit. unfold for_range. replace (Z.to_nat (Z.of_nat k + 1 - 1)) with k by lia.
  assert (∀ d i, (i + d = k)%nat → returns (for_up d (Z.of_nat i + 1) combi_step
      (binomial n i, Z.of_nat n - Z.of_nat i)) (λ s, s = (binomial n k, Z.of_nat n - Z.of_nat k))) as H.
  { induction d as [|d IH]; intros i Hi; cbn [for_up].
    - replace i with k by lia. by apply returns_ret.
    - pose proof (binomial_nonneg n i). specialize (Hfit i ltac:(lia)). unfold LONG_MAX in *.
      unfold combi_step at 2. rewrite s64_small by nia. cbv zeta. rewrite (proj2 (Z.ltb_ge _ _)) by nia. cbn [mbind res_bind].
      replace (binomial n i * (Z.of_nat n - Z.of_nat i) / (Z.of_nat i + 1)) with (binomial n (S i)).
      2: { apply Z.div_unique_exact; [lia|]. pose proof (binomial_absorb n i ltac:(lia)). lia. }
      specialize (IH (S i) ltac:(lia)). rewrite Nat2Z.inj_succ in IH.
      replace (Z.of_nat i + 1) with (Z.succ (Z.of_nat i)) by lia.
      replace (Z.of_nat n - Z.of_nat i - 1) with (Z.of_nat n - Z.succ (Z.of_nat i)) by lia. done. }
  specialize (H k 0%nat eq_refl). rewrite binomial_0, Z.sub_0_r in H. done.
Qed.

(** [combi_len] is the binomial coefficient, computed without a remainder
    at any step, as long as the intermediate products fit in a [long]. *)
Theorem combi_len_correct n k :
  (k ≤ n)%nat → 2 * Z.of_nat n ≤ LONG_MAX →
  (∀ i, (i < k)%nat → (i < n - k)%nat → binomial n i * (Z.of_nat n - Z.of_nat i) ≤ LONG_MAX) →
  combi_len (Z.of_nat n) (Z.of_nat k) = Ok (binomial n k).
Proof.
  intros Hk Hn Hfit. unfold combi_len, LONG_MAX in *. rewrite s64_small by lia.
  assert (∃ j, (j = k ∨ j = n - k)%nat ∧ (j ≤ k)%nat ∧ (j ≤ n - k)%nat ∧
    (if Z.of_nat n <? Z.of_nat k * 2 then Z.of_nat n - Z.of_nat k else Z.of_nat k) = Z.of_nat j)
    as (j & Hj & Hjk & Hjn & ->).
  { destruct (Z.ltb_spec (Z.of_nat n) (Z.of_nat k * 2)); [exists (n - k)%nat|exists k]; lia. }
  assert (binomial n k = binomial n j) as -> by (destruct Hj; subst j; [done|by apply binomial_sym]).
  destruct (Z.eqb_spec (Z.of_nat j) 0); [replace j with O by lia; by rewrite binomial_0|].
  rewrite (proj2 (Z.ltb_ge (Z.of_nat j) 0)) by lia.
  destruct (combi_loop n j) as (s & -> & ->); [lia|unfold LONG_MAX; lia| |done].
  intros i Hi. apply Hfit; lia.
Qed.

(** ** Witnesses *)

(** A runtime in which [==] on objects is identity. *)
Definition ex_runtime : Runtime := {|
  rb_safe_level := 0; heap_type := λ _, T_OBJECT; rb_equal := Z.eqb
|}.

(** The array [[10, 20, 30]] after a shift: the window starts at index 1 of a
    block of 4 words. *)
Definition ex_ary : rb_ary_t := mkAry 0 1 3 4 [Some Qnil; Some 10; Some 20; Some 30].

Lemma three_cases (P : Z → Prop) : P 0 → P 1 → P 2 → ∀ i, 0 ≤ i < 3 → P i.
Proof. intros H0 H1 H2 i Hi. assert (i = 0 ∨ i = 1 ∨ i = 2) as [->|[->| ->]] by lia; done. Defined.

Lemma ex_ary_rep : rep ex_ary [10; 20; 30].
Proof. split; [by split|done|]. change (zlen [10; 20; 30]) with 3. by apply three_cases. Defined.

(** The array [[1, 2, 3]] in a block of its size. *)
Definition ex_src : rb_ary_t := mkAry 0 0 3 3 [Some 1; Some 2; Some 3].

Lemma ex_src_rep : rep ex_src [1; 2; 3].
Proof. split; [by split|done|]. change (zlen [1; 2; 3]) with 3. by apply three_cases. Defined.

Definition ex_trace : list ary_op :=
  [APush 40; AShift; AUnshift 5; AInsert (-1) 7; ADelete 20; ASet 0 6; AReverse; APop; AGet (-1)].

Lemma array_trace_refines_witness :
  ∃ a', run_ary_ops (RT := ex_runtime) ex_ary ex_trace = Ok ([4; 10; 4; 4; 20; 4; 4; 6; 30], a') ∧
    rep a' [40; 7; 30].
Proof.
  destruct (array_trace_refines (RT := ex_runtime) ex_ary [10; 20; 30] ex_trace ex_ary_rep eq_refl) as [H|[_ H]].
  - vm_compute. repeat split; discriminate.
  - change (list_ops (RT := ex_runtime) [10; 20; 30] ex_trace)
      with (@Ok (list Z * list Z) ([4; 10; 4; 4; 20; 4; 4; 6; 30], [40; 7; 30])) in H. exact H.
  - vm_compute in H. discriminate.
Defined.

Lemma rary_reserve_room_witness :
  (∃ a', rary_reserve ex_ary 6 = Ok a' ∧ rep a' [10; 20; 30] ∧ (beg a' + 6 ≤ cap a' ↔ reserve_ok ex_ary 6)) ∧
  ¬ reserve_ok ex_ary 5.
Proof.
  split; [apply (rary_reserve_room ex_ary [10; 20; 30] 6 ex_ary_rep); unfold_max; lia|].
  unfold reserve_ok. cbn. lia.
Defined.

Lemma rary_concat_outcome_witness :
  (∃ a', rary_concat ex_ary ex_src 0 3 = Ok a' ∧ rep a' [10; 20; 30; 1; 2; 3]) ∧
  rary_concat ex_ary ex_src 0 2 = Err OutOfBounds.
Proof.
  split.
  - pose proof (rary_concat_outcome ex_ary [10; 20; 30] ex_src [1; 2; 3] 0 3 ex_ary_rep ex_src_rep) as H.
    rewrite decide_True in H by (right; right; vm_compute; reflexivity).
    apply H; unfold zlen; cbn; unfold_max; lia.
  - vm_compute. reflexivity.
Defined.

Lemma rb_ary_splice_correct_witness :
  ∃ a', rb_ary_splice (RT := ex_runtime) ex_ary (-2) 1 (Some ex_src) = Ok a' ∧ rep a' [10; 1; 2; 3; 30].
Proof.
  pose proof (rb_ary_splice_correct (RT := ex_runtime) ex_ary [10; 20; 30] (-2) 1 (Some ex_src) [1; 2; 3]
    ex_ary_rep ex_src_rep eq_refl) as H.
  rewrite decide_False in H by (vm_compute; intros [?|?]; discriminate).
  destruct H as [H|[H _]]; [unfold norm, zlen; cbn; unfold_max; lia..|exact H|vm_compute in H; by destruct H].
Defined.

(** A block that counts its calls and is true of multiples of 4 (as words). *)
Definition ex_block (x : Z) (s : Z * rb_ary_t) : res (yielded * (Z * rb_ary_t)) :=
  Ok (Yield (if x mod 4 =? 0 then Qtrue else Qfalse), (s.1 + 1, s.2)).

Lemma rb_ary_filters_correct_witness :
  (∃ a' changed l', rb_ary_uniq_bang (RT := ex_runtime) ex_ary = Ok (changed, a') ∧ rep a' l' ∧ l' `sublist_of` [10; 20; 30]) ∧
  (∃ a', rb_ary_reject_bang (RT := ex_runtime) ex_block (0, ex_ary) = Ok (Self, (3, a')) ∧ rep a' [10; 30]).
Proof.
  pose proof (rb_ary_filters_correct (RT := ex_runtime) ex_block
    (λ x _, if x mod 4 =? 0 then Qtrue else Qfalse) (λ _ n, n + 1) 0 ex_ary [10; 20; 30]
    (λ x u a, eq_refl) ex_ary_rep eq_refl) as [H1 H2].
  split; [|exact H2]. destruct H1 as (a' & ch & l' & ? & ? & ? & _). by exists a', ch, l'.
Defined.

Lemma rb_ary_slice_bang_outcome_witness :
  (∃ b a', rb_ary_slice_bang (RT := ex_runtime) ex_ary (SSlice 1 5) = Ok (Sub (Some b), a') ∧
    rep b [20; 30] ∧ rep a' [10]) ∧
  rb_ary_slice_bang (RT := ex_runtime) ex_ary (SSlice 7 1) = Err (Raise IndexError).
Proof.
  pose proof (rb_ary_slice_bang_outcome (RT := ex_runtime) ex_ary [10; 20; 30] 1 5 ex_ary_rep eq_refl) as H.
  split; [|by vm_compute].
  rewrite decide_False in H by (vm_compute; discriminate).
  rewrite decide_False in H by (vm_compute; intros [?|?]; discriminate).
  apply H; unfold LONG_MIN, LONG_MAX, zlen; cbn; unfold_max; lia.
Defined.

Lemma rb_ary_count_outcome_witness :
  rb_ary_count (RT := ex_runtime) ex_ary 20 = Ok 1 ∧
  rb_ary_count (RT := ex_runtime) ary_alloc 20 = Err AssertFailed.
Proof.
  split.
  - rewrite (rb_ary_count_outcome (RT := ex_runtime) ex_ary [10; 20; 30] 20 ex_ary_rep).
    vm_compute. reflexivity.
  - rewrite (rb_ary_count_outcome (RT := ex_runtime) ary_alloc [] 20 rep_alloc). by rewrite decide_True.
Defined.

(** The product for [70] choose [22] overflows without the check noticing. *)
Lemma combi_len_correct_witness :
  combi_len 6 2 = Ok 15 ∧ combi_len 70 22 = Ok 19990591830327299.
Proof.
  split; [|by vm_compute]. apply (combi_len_correct 6 2); [lia|unfold LONG_MAX; lia|].
  intros i Hi _. destruct i as [|[|i]]; [by vm_compute..|lia].
Defined.
