(* ===== verification/Util.v ===== *)
(** * util.c: scanning numbers in text

    A [char *] into a NUL-terminated string is the list of the bytes from there
    to the terminator: advancing the pointer drops the head, [*s] of the empty
    list is the NUL, and the difference of two pointers is the difference of the
    lengths. *)

From S2P Require Import Prelude.

Notation cstr := (list Z) (only parsing).

(** A C string: bytes other than NUL. *)
Definition cstr_ok (s : cstr) : Prop := Forall (λ c, 0 < c < 256) s.

Definition peek (s : cstr) : Z := hd 0 s.

(** The locale-insensitive character classes, on bytes. *)
Definition ISASCII (c : Z) : bool := c <? 128.
Definition ISSPACE (c : Z) : bool := (c =? 32) || ((9 <=? c) && (c <=? 13)).
Definition ISDIGIT (c : Z) : bool := (48 <=? c) && (c <=? 57).
Definition ISLOWER (c : Z) : bool := (97 <=? c) && (c <=? 122).
Definition ISUPPER (c : Z) : bool := (65 <=? c) && (c <=? 90).

(** ** Octal and hexadecimal escapes *)

Fixpoint scan_oct_loop (s : cstr) (len : nat) (retval n : Z) : Z * Z :=
  match len, s with
  | S len', c :: s' =>
      if (48 <=? c) && (c <=? 55)
      then scan_oct_loop s' len' (Z.lor (u64 (Z.shiftl retval 3)) (c - 48)) (n + 1)
      else (retval, n)
  | _, _ => (retval, n)
  end.

(** Returns the value and the number of characters read. *)
Definition ruby_scan_oct (start : cstr) (len : nat) : Z * Z := scan_oct_loop start len 0 0.

(** "0123456789abcdef0123456789ABCDEF" *)
Definition hexdigit : list Z :=
  [48; 49; 50; 51; 52; 53; 54; 55; 56; 57; 97; 98; 99; 100; 101; 102;
   48; 49; 50; 51; 52; 53; 54; 55; 56; 57; 65; 66; 67; 68; 69; 70].

(** The index of the first occurrence, as [strchr]. *)
Fixpoint index_of (c : Z) (l : list Z) : option Z :=
  match l with
  | [] => None
  | d :: l' => if d =? c then Some 0 else Z.succ <$> index_of c l'
  end.

Fixpoint scan_hex_loop (s : cstr) (len : nat) (retval n : Z) : Z * Z :=
  match len, s with
  | S len', c :: s' =>
      match index_of c hexdigit with
      | Some i => scan_hex_loop s' len' (Z.lor (u64 (Z.shiftl retval 4)) (Z.land i 15)) (n + 1)
      | None => (retval, n)
      end
  | _, _ => (retval, n)
  end.

Definition ruby_scan_hex (start : cstr) (len : nat) : Z * Z := scan_hex_loop start len 0 0.

(** ** [strtoul] *)

(** The table of digit values. *)
Definition ten_to_35 : list Z :=
  [10; 11; 12; 13; 14; 15; 16; 17; 18; 19; 20; 21; 22; 23; 24;
   25; 26; 27; 28; 29; 30; 31; 32; 33; 34; 35].
Definition table : list Z :=
  replicate 48 (-1) ++ [0; 1; 2; 3; 4; 5; 6; 7; 8; 9] ++ replicate 7 (-1) ++ ten_to_35 ++
  replicate 6 (-1) ++ ten_to_35 ++ replicate 133 (-1).

Fixpoint scan_digits_loop (str : cstr) (base mul_overflow ret retlen : Z) (overflow : bool)
    : res (Z * Z * bool) :=
  match str with
  | [] => Ok (ret, retlen, overflow)
  | c :: str' =>
      d ← aload table c;
      if (d =? -1) || (base <=? d) then Ok (ret, retlen, overflow) else
      let overflow := overflow || (mul_overflow <? ret) in
      let x := u64 (ret * base) in
      let ret := u64 (x + d) in
      let overflow := overflow || (ret <? x) in
      scan_digits_loop str' base mul_overflow ret (retlen + 1) overflow
  end.

Definition ULONG_MAX : Z := 2 ^ 64 - 1.

Definition scan_digits (str : cstr) (base : Z) : res (Z * Z * bool) :=
  mul_overflow ← cdiv ULONG_MAX (u64 base);
  scan_digits_loop str base mul_overflow 0 0 false.

Fixpoint skip_space (s : cstr) : cstr :=
  match s with
  | c :: s' => if ISSPACE c then skip_space s' else s
  | [] => []
  end.

(** The result, the pointer stored through [endptr] ([None] where it is left
    alone) and whether [errno] is set. *)
Definition ruby_strtoul (str : cstr) (base : Z) : res (Z * option cstr * bool) :=
  if (base =? 1) || (36 <? base) then Ok (0, None, true) else
  let subject_found := str in
  let str := skip_space str in
  let c := peek str in
  let '(neg, str) := if c =? 43 then (false, tail str) else if c =? 45 then (true, tail str) else (false, str) in
  let '(subject_found, b, str) :=
    if peek str =? 48 then
      let subject_found := tail str in
      if (base =? 0) || (base =? 16) then
        if (peek (tail str) =? 120) || (peek (tail str) =? 88)
        then (subject_found, 16, tail (tail str))
        else (subject_found, if base =? 0 then 8 else 16, tail str)
      else (subject_found, base, tail str)
    else (subject_found, if base =? 0 then 10 else base, str) in
  '(ret, len, overflow) ← scan_digits str b;
  let subject_found := if 0 <? len then drop (Z.to_nat len) str else subject_found in
  if overflow : bool then Ok (ULONG_MAX, Some subject_found, true) else
  Ok (if neg : bool then u64 (- ret) else ret, Some subject_found, false).

(** ** Numerals *)

(** The value of a digit in any base up to 36, [-1] for other characters. *)
Definition digit_val (c : Z) : Z :=
  if ISDIGIT c then c - 48 else if ISLOWER c then c - 87 else if ISUPPER c then c - 55 else -1.

Definition is_digit (base c : Z) : bool := (0 <=? digit_val c) && (digit_val c <? base).

(** The longest prefix of digits, and the rest. *)
Fixpoint span_digits (base : Z) (s : cstr) : list Z * cstr :=
  match s with
  | [] => ([], [])
  | c :: s' => if is_digit base c then let '(p, r) := span_digits base s' in (c :: p, r) else ([], s)
  end.

(** The number a list of digit characters denotes, after [acc]. *)
Definition num_from (base acc : Z) (cs : list Z) : Z := fold_left (λ a c, a * base + digit_val c) cs acc.
Definition numeral (base : Z) (cs : list Z) : Z := num_from base 0 cs.

Lemma num_from_cons base acc c cs : num_from base acc (c :: cs) = num_from base (acc * base + digit_val c) cs.
Proof. done. Qed.

Lemma num_from_app base acc cs cs' : num_from base acc (cs ++ cs') = num_from base (num_from base acc cs) cs'.
Proof. apply fold_left_app. Qed.

Lemma num_from_val base acc cs : num_from base acc cs = acc * base ^ zlen cs + numeral base cs.
Proof.
  unfold numeral. revert acc. induction cs as [|c cs IH]; intros acc; [rewrite zlen_nil; cbn; lia|].
  rewrite !num_from_cons, IH, (IH (0 * base + _)), zlen_cons, Z.pow_add_r, Z.pow_1_r by (pose proof (zlen_nonneg cs); lia). lia.
Qed.

Lemma numeral_cons base c cs : numeral base (c :: cs) = digit_val c * base ^ zlen cs + numeral base cs.
Proof. unfold numeral at 1. rewrite num_from_cons, num_from_val. f_equal. Qed.

Lemma is_digit_bounds base c : is_digit base c = true ↔ 0 ≤ digit_val c < base.
Proof. unfold is_digit. rewrite andb_true_iff, Z.leb_le, Z.ltb_lt. done. Qed.

Definition digits_ok (base : Z) (cs : list Z) : Prop := Forall (λ c, is_digit base c = true) cs.

Lemma numeral_bounds base cs : 2 ≤ base → digits_ok base cs → 0 ≤ numeral base cs < base ^ zlen cs.
Proof.
  intros Hb. induction cs as [|c cs IH]; intros H; [rewrite zlen_nil; cbn; lia|].
  inversion H as [|? ? Hc Hcs]; subst. apply is_digit_bounds in Hc. specialize (IH Hcs).
  rewrite numeral_cons, zlen_cons, (Z.add_comm _ (zlen cs)), Z.pow_add_r, Z.pow_1_r by (pose proof (zlen_nonneg cs); lia). nia.
Qed.

Lemma num_from_mono base acc cs : 2 ≤ base → 0 ≤ acc → digits_ok base cs → acc ≤ num_from base acc cs.
Proof.
  intros Hb Ha Hd. rewrite num_from_val. pose proof (numeral_bounds base cs Hb Hd).
  assert (1 ≤ base ^ zlen cs) by (pose proof (Z.pow_pos_nonneg base (zlen cs)); pose proof (zlen_nonneg cs); lia). nia.
Qed.

Lemma span_digits_spec base s p r :
  span_digits base s = (p, r) → s = p ++ r ∧ digits_ok base p ∧ match r with c :: _ => is_digit base c = false | [] => True end.
Proof.
  revert p r. induction s as [|c s IH]; intros p r; cbn [span_digits]; [intros [= <- <-]; split_and!; [done|by constructor|done]|].
  destruct (is_digit base c) eqn:E.
  - destruct (span_digits base s) as [p' r']. intros [= <- <-]. destruct (IH p' r' eq_refl) as (-> & Hp & Hr).
    split_and!; [done|by constructor|done].
  - intros [= <- <-]. split_and!; [done|by constructor|done].
Qed.

Lemma span_digits_app base p r :
  digits_ok base p → match r with c :: _ => is_digit base c = false | [] => True end → span_digits base (p ++ r) = (p, r).
Proof.
  intros Hp Hr. induction Hp as [|c p Hc Hp IH]; cbn [app span_digits].
  - destruct r as [|c r]; [done|]. cbn. by rewrite Hr.
  - by rewrite Hc, IH.
Qed.

(** The table of [scan_digits] gives the digit values. *)
Lemma table_spec c : 0 ≤ c < 256 → aload table c = Ok (digit_val c).
Proof.
  intros Hc.
  assert (forallb (λ n, match aload table (Z.of_nat n) with Ok v => v =? digit_val (Z.of_nat n) | Err _ => false end)
    (seq 0 256) = true) as H by (vm_compute; reflexivity).
  rewrite forallb_forall in H. specialize (H (Z.to_nat c)). rewrite Z2Nat.id in H by lia.
  destruct (aload table c); [f_equal; apply Z.eqb_eq, H, in_seq; lia|]. discriminate H. apply in_seq. lia.
Qed.

(** ** [scan_digits] *)

Lemma scan_digits_loop_spec str base ret retlen overflow acc :
  2 ≤ base ≤ 36 → cstr_ok str → 0 ≤ acc → ret = acc mod 2 ^ 64 → overflow = bool_decide (2 ^ 64 ≤ acc) →
  let p := (span_digits base str).1 in
  scan_digits_loop str base (ULONG_MAX / base) ret retlen overflow =
    Ok (num_from base acc p mod 2 ^ 64, retlen + zlen p, bool_decide (2 ^ 64 ≤ num_from base acc p)).
Proof.
  intros Hb Hs. revert ret retlen overflow acc. induction Hs as [|c str Hc Hs IH]; intros ret retlen overflow acc Ha -> ->;
    cbn [scan_digits_loop span_digits].
  { rewrite zlen_nil, Z.add_0_r. done. }
  rewrite table_spec by lia. cbn [mbind res_bind].
  assert (((digit_val c =? -1) || (base <=? digit_val c)) = negb (is_digit base c)) as ->.
  { unfold is_digit. assert (-1 ≤ digit_val c) by (unfold digit_val, ISDIGIT, ISLOWER, ISUPPER;
      repeat match goal with |- context [if ?b then _ else _] => destruct b eqn:?E end; lia).
    destruct (Z.eqb_spec (digit_val c) (-1)), (Z.leb_spec base (digit_val c)), (Z.leb_spec 0 (digit_val c)),
      (Z.ltb_spec (digit_val c) base); cbn; lia || done. }
  destruct (is_digit base c) eqn:Ed; cbn [negb].
  2: { cbn [fst]. rewrite zlen_nil, Z.add_0_r. done. }
  apply is_digit_bounds in Ed. set (d := digit_val c) in *.
  destruct (span_digits base str) as [p r] eqn:Esp. cbn [fst]. rewrite num_from_cons, zlen_cons. fold d.
  replace (retlen + (1 + zlen p)) with (retlen + 1 + zlen p) by lia.
  rewrite (IH _ (retlen + 1) _ (acc * base + d)); [done|nia| |].
  - unfold u64. rewrite Zplus_mod_idemp_l, <- Zplus_mod_idemp_l, Zmult_mod_idemp_l, Zplus_mod_idemp_l. done.
  - unfold ULONG_MAX, u64. set (M := 2 ^ 64). assert (M = 2 ^ 64) as HM by done. clearbody M.
    assert (0 < M) by lia. pose proof (Z.mod_pos_bound acc M ltac:(lia)).
    destruct (decide (M ≤ acc)) as [Hge|Hlt].
    + rewrite (bool_decide_true (M ≤ acc)) by done. cbn [orb]. symmetry. apply bool_decide_true. nia.
    + rewrite (bool_decide_false (M ≤ acc)) by done. cbn [orb]. rewrite (Z.mod_small acc) by lia.
      destruct (Z.ltb_spec ((M - 1) / base) acc) as [Hov|Hno].
      * cbn [orb]. symmetry. apply bool_decide_true. assert (M - 1 < base * acc); [|nia].
        pose proof (Z.mul_succ_div_gt (M - 1) base ltac:(lia)). nia.
      * cbn [orb]. pose proof (Z.mul_div_le (M - 1) base ltac:(lia)). assert (acc * base < M) by nia.
        rewrite (Z.mod_small (acc * base)) by nia. destruct (decide (acc * base + d < M)).
        -- rewrite Z.mod_small by lia. rewrite (proj2 (Z.ltb_ge _ _)) by lia. symmetry. apply bool_decide_false. lia.
        -- rewrite <- (Z.mod_unique (acc * base + d) M 1 (acc * base + d - M)) by lia.
           rewrite (proj2 (Z.ltb_lt _ _)) by lia. symmetry. apply bool_decide_true. lia.
Qed.

Lemma scan_digits_spec str base :
  2 ≤ base ≤ 36 → cstr_ok str →
  let p := (span_digits base str).1 in
  scan_digits str base = Ok (numeral base p mod 2 ^ 64, zlen p, bool_decide (2 ^ 64 ≤ numeral base p)).
Proof.
  intros Hb Hs. cbn zeta. unfold scan_digits. rewrite u64_small, cdiv_ok by lia. cbn [mbind res_bind].
  rewrite (scan_digits_loop_spec _ _ _ _ _ 0) by (done || lia). done.
Qed.

(** ** [ruby_strtoul] *)

Lemma peek_digit_cons base p r : digits_ok base p → p ≠ [] →
  ∃ c p', p = c :: p' ∧ is_digit base c = true ∧ peek (p ++ r) = c ∧ tail (p ++ r) = p' ++ r.
Proof. intros Hp Hne. destruct p as [|c p']; [done|]. inversion Hp; subst. exists c, p'. done. Qed.

Lemma digit_not_special base c :
  2 ≤ base ≤ 36 → is_digit base c = true → ISSPACE c = false ∧ c ≠ 43 ∧ c ≠ 45 ∧ c ≠ 95 ∧ 0 < c < 256.
Proof.
  intros Hb Hd. apply is_digit_bounds in Hd. unfold digit_val, ISDIGIT, ISLOWER, ISUPPER in Hd.
  assert (48 ≤ c ≤ 57 ∨ 97 ≤ c ≤ 122 ∨ 65 ≤ c ≤ 90) as Hc.
  { destruct (Z.leb_spec 48 c), (Z.leb_spec c 57), (Z.leb_spec 97 c), (Z.leb_spec c 122), (Z.leb_spec 65 c), (Z.leb_spec c 90);
      cbn in Hd; lia. }
  split; [|lia]. unfold ISSPACE. rewrite (proj2 (Z.eqb_neq c 32)) by lia. cbn.
  destruct (Z.leb_spec 9 c), (Z.leb_spec c 13); cbn; lia || done.
Qed.

(** A numeral: [strtoul] reads all of its digits, and no more. *)
Lemma ruby_strtoul_spec base p r :
  2 ≤ base ≤ 36 → digits_ok base p → p ≠ [] → cstr_ok r →
  match r with c :: _ => is_digit base c = false ∧ c ≠ 120 ∧ c ≠ 88 | [] => True end →
  ruby_strtoul (p ++ r) base =
    Ok (if decide (numeral base p < 2 ^ 64) then (numeral base p, Some r, false) else (ULONG_MAX, Some r, true)).
Proof.
  intros Hb Hp Hne Hr Hrd.
  assert (match r with c :: _ => is_digit base c = false | [] => True end) as Hrd' by (destruct r; naive_solver).
  assert (cstr_ok p) as Hpc.
  { eapply Forall_impl; [exact Hp|]. intros c Hc. by apply (digit_not_special base). }
  destruct (peek_digit_cons base p r Hp Hne) as (c & p' & -> & Hc & Hpk & Htl).
  destruct (digit_not_special base c Hb Hc) as (Hsp & H43 & H45 & _ & _).
  inversion Hp as [|? ? _ Hp']; subst. inversion Hpc as [|? ? _ Hpc']; subst.
  unfold ruby_strtoul. rewrite (proj2 (Z.eqb_neq base 1)), (proj2 (Z.ltb_ge 36 base)) by lia. cbn [orb].
  assert (skip_space ((c :: p') ++ r) = (c :: p') ++ r) as -> by (cbn; by rewrite Hsp). rewrite Hpk.
  rewrite (proj2 (Z.eqb_neq c 43)), (proj2 (Z.eqb_neq c 45)) by done. rewrite Hpk, Htl.
  pose proof (numeral_bounds base (c :: p') ltac:(lia) Hp) as Hnb.
  assert (∀ q s v sf, q ++ r = s → digits_ok base q → cstr_ok q → numeral base q = v →
    (q = [] → sf = r) →
    ('(ret, len, overflow) ← scan_digits s base;
     let subject_found := if 0 <? len then drop (Z.to_nat len) s else sf in
     if overflow : bool then Ok (ULONG_MAX, Some subject_found, true) else Ok (ret, Some subject_found, false)) =
    Ok (if decide (v < 2 ^ 64) then (v, Some r, false) else (ULONG_MAX, Some r, true))) as Hscan.
  { intros q s v sf <- Hq Hqc <- Hsf. rewrite scan_digits_spec by (done || by apply Forall_app).
    rewrite span_digits_app by done. cbn [fst mbind res_bind].
    pose proof (numeral_bounds base q ltac:(lia) Hq). rewrite to_nat_zlen, drop_app_length.
    assert ((if 0 <? zlen q then r else sf) = r) as ->.
    { destruct (Z.ltb_spec 0 (zlen q)); [done|]. apply Hsf. destruct q; [done|]. rewrite zlen_cons in *. pose proof (zlen_nonneg q). lia. }
    destruct (decide (numeral base q < 2 ^ 64)); [rewrite bool_decide_false by lia|by rewrite bool_decide_true by lia].
    by rewrite Z.mod_small by lia. }
  rewrite (proj2 (Z.eqb_neq base 0)) by lia. cbn [orb].
  destruct (Z.eqb_spec c 48) as [->|].
  - assert (numeral base p' = numeral base (48 :: p')) as Ez by (rewrite numeral_cons; cbn; lia).
    destruct (Z.eqb_spec base 16) as [->|].
    + assert (peek (p' ++ r) ≠ 120 ∧ peek (p' ++ r) ≠ 88) as [Hx1 Hx2].
      { destruct p' as [|c' p'']; cbn.
        - destruct r; cbn; [done|]. naive_solver.
        - inversion Hp' as [|? ? Hc' _]; subst. split; intros ->; done. }
      rewrite (proj2 (Z.eqb_neq _ 120)), (proj2 (Z.eqb_neq _ 88)) by done. cbn [orb].
      apply (Hscan p' (p' ++ r)); [done..|]. intros ->. done.
    + apply (Hscan p' (p' ++ r)); [done..|]. intros ->. done.
  - apply (Hscan (c :: p')); [done..|]. done.
Qed.

(** ** Octal and hexadecimal escapes *)

Lemma lor_low a d k :
  0 ≤ k ≤ 64 → 0 ≤ d < 2 ^ k → Z.lor (u64 (Z.shiftl (a mod 2 ^ 64) k)) d = (a * 2 ^ k + d) mod 2 ^ 64.
Proof.
  intros Hk Hd. unfold u64. rewrite Z.shiftl_mul_pow2, Zmult_mod_idemp_l by lia.
  assert (2 ^ 64 = 2 ^ (64 - k) * 2 ^ k) as EM by (rewrite <- Z.pow_add_r by lia; f_equal; lia).
  assert (0 < 2 ^ k ∧ 0 < 2 ^ (64 - k)) as [H1 H2] by (split; apply Z.pow_pos_nonneg; lia).
  rewrite EM, Zmult_mod_distr_r. rewrite lor_add by lia. pose proof (Z.mod_pos_bound a (2 ^ (64 - k)) H2).
  rewrite <- (Z.mod_small (a mod _ * 2 ^ k + d) (2 ^ (64 - k) * 2 ^ k)) by nia.
  rewrite <- Zmult_mod_distr_r, Zplus_mod_idemp_l. done.
Qed.

Lemma scan_oct_loop_spec s len a n :
  scan_oct_loop s len (a mod 2 ^ 64) n =
    let p := (span_digits 8 (take len s)).1 in (num_from 8 a p mod 2 ^ 64, n + zlen p).
Proof.
  revert s a n. induction len as [|len IH]; intros s a n; [destruct s; cbn [take span_digits fst]; cbn zeta; by rewrite zlen_nil, Z.add_0_r|].
  destruct s as [|c s]; cbn [scan_oct_loop take span_digits fst]; [cbn zeta; by rewrite zlen_nil, Z.add_0_r|].
  assert ((48 <=? c) && (c <=? 55) = is_digit 8 c ∧ (is_digit 8 c = true → digit_val c = c - 48)) as [-> Hv].
  { unfold is_digit, digit_val, ISDIGIT, ISLOWER, ISUPPER.
    destruct (Z.leb_spec 48 c), (Z.leb_spec c 55), (Z.leb_spec c 57), (Z.leb_spec 97 c), (Z.leb_spec c 122), (Z.leb_spec 65 c), (Z.leb_spec c 90);
      cbn; try lia; split; try done; try (intros; lia);
      repeat match goal with |- context [?a <=? ?b] => destruct (Z.leb_spec a b) | |- context [?a <? ?b] => destruct (Z.ltb_spec a b) end; cbn; lia || done. }
  destruct (is_digit 8 c) eqn:E; [|cbn zeta; cbn [fst]; by rewrite zlen_nil, Z.add_0_r]. rewrite <- Hv by done.
  apply is_digit_bounds in E. rewrite lor_low by lia. rewrite IH. destruct (span_digits 8 (take len s)) as [p r]. cbn [fst].
  rewrite zlen_cons, num_from_cons. change (2 ^ 3) with 8. f_equal. lia.
Qed.

Lemma hexdigit_spec c : 0 < c < 256 →
  match index_of c hexdigit with
  | Some i => is_digit 16 c = true ∧ Z.land i 15 = digit_val c
  | None => is_digit 16 c = false
  end.
Proof.
  intros Hc.
  assert (forallb (λ n, match index_of (Z.of_nat n) hexdigit with
    | Some i => is_digit 16 (Z.of_nat n) && (Z.land i 15 =? digit_val (Z.of_nat n))
    | None => negb (is_digit 16 (Z.of_nat n)) end) (seq 1 255) = true) as H by (vm_compute; reflexivity).
  rewrite forallb_forall in H. specialize (H (Z.to_nat c)). rewrite Z2Nat.id in H by lia.
  specialize (H ltac:(apply in_seq; lia)). destruct (index_of c hexdigit).
  - apply andb_true_iff in H as [? ?%Z.eqb_eq]. done.
  - by apply negb_true_iff in H.
Qed.

Lemma scan_hex_loop_spec s len a n :
  cstr_ok s →
  scan_hex_loop s len (a mod 2 ^ 64) n =
    let p := (span_digits 16 (take len s)).1 in (num_from 16 a p mod 2 ^ 64, n + zlen p).
Proof.
  intros Hs. revert s a n Hs. induction len as [|len IH]; intros s a n Hs; [destruct s; cbn [take span_digits fst]; cbn zeta; by rewrite zlen_nil, Z.add_0_r|].
  destruct s as [|c s]; cbn [scan_hex_loop take span_digits fst]; [cbn zeta; by rewrite zlen_nil, Z.add_0_r|].
  inversion Hs as [|? ? Hc Hs']; subst. pose proof (hexdigit_spec c Hc) as Hh. destruct (index_of c hexdigit) as [i|].
  - destruct Hh as [Hd ->]. rewrite Hd. apply is_digit_bounds in Hd. rewrite lor_low by lia. rewrite IH by done.
    destruct (span_digits 16 (take len s)) as [p r]. cbn [fst]. rewrite zlen_cons, num_from_cons. change (2 ^ 4) with 16. f_equal. lia.
  - rewrite Hh. cbn [fst]. cbn zeta. by rewrite zlen_nil, Z.add_0_r.
Qed.

(** ** Theorems *)

(** [ruby_strtoul] on a numeral in base 2 to 36 returns its value and where it
    ends; if the value does not fit in 64 bits it returns ULONG_MAX and sets
    [errno]. *)
Lemma ruby_strtoul_correct base p r :
  2 ≤ base ≤ 36 → digits_ok base p → p ≠ [] → cstr_ok r →
  match r with c :: _ => is_digit base c = false ∧ c ≠ 120 ∧ c ≠ 88 | [] => True end →
  ruby_strtoul (p ++ r) base =
    Ok (if decide (numeral base p < 2 ^ 64) then (numeral base p, Some r, false) else (ULONG_MAX, Some r, true)).
Proof. apply ruby_strtoul_spec. Qed.

(** [ruby_scan_oct] and [ruby_scan_hex] read the longest prefix of digits within
    the given length, and return its value modulo 2^64 and its length. *)
Lemma ruby_scan_oct_hex_correct s len :
  cstr_ok s →
  (let p := (span_digits 8 (take len s)).1 in ruby_scan_oct s len = (numeral 8 p mod 2 ^ 64, zlen p)) ∧
  (let p := (span_digits 16 (take len s)).1 in ruby_scan_hex s len = (numeral 16 p mod 2 ^ 64, zlen p)).
Proof.
  intros Hs. unfold ruby_scan_oct, ruby_scan_hex. split.
  - exact (scan_oct_loop_spec s len 0 0).
  - exact (scan_hex_loop_spec s len 0 0 Hs).
Qed.

(** The scanners of numbers: [ruby_strtoul] on a numeral in base 2 to 36
    returns its value and where it ends, or ULONG_MAX with [errno] set if the value
    does not fit in 64 bits; [ruby_scan_oct] and [ruby_scan_hex] read the longest
    prefix of digits within the given length, and return its value modulo 2^64 and
    its length. *)
Theorem number_scanning_correct base p r s len :
  2 ≤ base ≤ 36 → digits_ok base p → p ≠ [] → cstr_ok r →
  match r with c :: _ => is_digit base c = false ∧ c ≠ 120 ∧ c ≠ 88 | [] => True end → cstr_ok s →
  ruby_strtoul (p ++ r) base =
    Ok (if decide (numeral base p < 2 ^ 64) then (numeral base p, Some r, false) else (ULONG_MAX, Some r, true)) ∧
  (let p := (span_digits 8 (take len s)).1 in ruby_scan_oct s len = (numeral 8 p mod 2 ^ 64, zlen p)) ∧
  (let p := (span_digits 16 (take len s)).1 in ruby_scan_hex s len = (numeral 16 p mod 2 ^ 64, zlen p)).
Proof. intros. split; [by apply ruby_strtoul_correct|by apply ruby_scan_oct_hex_correct]. Qed.

(** "42_" in base 10, and 2^64 in base 16. *)
Lemma ruby_strtoul_correct_witness :
  ruby_strtoul [52; 50; 95] 10 = Ok (42, Some [95], false) ∧
  ruby_strtoul [49; 48; 48; 48; 48; 48; 48; 48; 48; 48; 48; 48; 48; 48; 48; 48; 48] 16 = Ok (ULONG_MAX, Some [], true).
Proof.
  split.
  - pose proof (ruby_strtoul_correct 10 [52; 50] [95] ltac:(lia) ltac:(by repeat constructor) ltac:(done)
      ltac:(repeat constructor; lia) ltac:(done)) as H. exact H.
  - pose proof (ruby_strtoul_correct 16 [49; 48; 48; 48; 48; 48; 48; 48; 48; 48; 48; 48; 48; 48; 48; 48; 48] []
      ltac:(lia) ltac:(by repeat constructor) ltac:(done) ltac:(constructor) ltac:(done)) as H. exact H.
Defined.

Lemma ruby_scan_oct_hex_correct_witness :
  ruby_scan_oct [49; 55; 56] 3 = (15, 2) ∧ ruby_scan_hex [102; 70; 103] 3 = (255, 2).
Proof.
  split.
  - rewrite (proj1 (ruby_scan_oct_hex_correct [49; 55; 56] 3 ltac:(repeat constructor; lia))). done.
  - rewrite (proj2 (ruby_scan_oct_hex_correct [102; 70; 103] 3 ltac:(repeat constructor; lia))). done.
Defined.

Lemma number_scanning_correct_witness :
  ruby_strtoul [49; 48; 48; 48; 48; 48; 48; 48; 48; 48; 48; 48; 48; 48; 48; 48; 48] 16 = Ok (ULONG_MAX, Some [], true) ∧
  ruby_scan_oct [49; 55; 56] 3 = (15, 2) ∧ ruby_scan_hex [49; 55; 56] 3 = (376, 3).
Proof.
  pose proof (number_scanning_correct 16 [49; 48; 48; 48; 48; 48; 48; 48; 48; 48; 48; 48; 48; 48; 48; 48; 48] [] [49; 55; 56] 3
    ltac:(lia) ltac:(by repeat constructor) ltac:(done) ltac:(constructor) ltac:(done) ltac:(repeat constructor; lia)) as H.
  exact H.
Defined.
