(* ===== verification/Big.v ===== *)
(** * bignum.c: arbitrary-precision integers

    A bignum is a sign and an array of 64-bit digits ([BDIGIT]), least
    significant first; computations on digits are in 128-bit integers
    ([BDIGIT_DBL], and [BDIGIT_DBL_SIGNED] where a borrow can occur).  Digit
    arrays are lists indexed as the code indexes them; whether they are embedded
    in the object or on the heap is not modelled.  An integer value is a fixnum
    or a bignum. *)

From S2P Require Import Prelude.

Definition BITSPERDIG : Z := 64.
Definition BIGRAD : Z := 2 ^ 64.
Definition DIGSPERLONG : Z := 1.
Definition BIGUP (x : Z) : Z := u128 (Z.shiftl x BITSPERDIG).
Definition BIGDN (x : Z) : Z := Z.shiftr x BITSPERDIG.
Definition BIGLO (x : Z) : Z := Z.land x (BIGRAD - 1).
(** [~d] on a digit. *)
Definition digit_not (d : Z) : Z := Z.lxor d (BIGRAD - 1).

Definition FIXNUM_MAX : Z := Z.shiftr LONG_MAX 2.
Definition FIXNUM_MIN : Z := Z.shiftr LONG_MIN 2.
Definition POSFIXABLE (n : Z) : bool := n <? FIXNUM_MAX + 1.
Definition NEGFIXABLE (n : Z) : bool := FIXNUM_MIN <=? n.
Definition FIXABLE (n : Z) : bool := POSFIXABLE n && NEGFIXABLE n.

Record big := mkBig { sign : bool; digits : list Z }.
Definition RBIGNUM_LEN (x : big) : Z := zlen (digits x).
Definition set_sign (s : bool) (x : big) : big := mkBig s (digits x).

Inductive num := Fixnum (n : Z) | Bignum (b : big).

(** What fresh digit arrays hold before they are written: unknown words. *)
Class Junk := {
  junk : Z → Z;
  junk_range : ∀ i, 0 ≤ junk i < BIGRAD
}.

Section bignum.
Context `{J : Junk}.

Definition fresh (n : Z) : list Z := (λ i, junk (Z.of_nat i)) <$> seq 0 (Z.to_nat n).

Definition bignew (len : Z) (s : bool) : big := mkBig s (fresh len).
Definition rb_big_clone (x : big) : big := x.

Definition bigzero_p (x : big) : bool := forallb (λ d, d =? 0) (digits x).

Definition BIGZEROP (x : big) : bool :=
  match digits x with
  | [] => true
  | d :: ds => (d =? 0) && ((RBIGNUM_LEN x =? 1) || bigzero_p x)
  end.

(** ** Normal form *)

(** [num += ds[i]; ds[i++] = BIGLO(num); num = BIGDN(num);] *)
Definition carry_step (i : Z) (s : Z * list Z) : res (Z * list Z) :=
  let '(num, ds) := s in
  d ← aload ds i;
  let num := u128 (num + d) in
  ds ← astore ds i (BIGLO num);
  Ok (BIGDN num, ds).

Definition get2comp (x : big) : res big :=
  let len := RBIGNUM_LEN x in
  if len =? 0 then Ok x else
  '(num, ds) ← for_range 0 len carry_step (1, digit_not <$> digits x);
  Ok (mkBig (sign x) (if num =? 0 then ds else ds ++ [1])).

(** [while (--len && !ds[len]) ;], the value of [len + 1] afterwards. *)
Fixpoint trunc_len (len : nat) (ds : list Z) : nat :=
  match len with
  | O => O
  | S len' =>
      match len' with
      | O => 1%nat
      | _ => if bool_decide (ds !! len' = Some 0) then trunc_len len' ds else len
      end
  end.

Definition bigtrunc (x : big) : big :=
  if RBIGNUM_LEN x =? 0 then x
  else mkBig (sign x) (take (trunc_len (length (digits x)) (digits x)) (digits x)).

Definition bigfixize (x : big) : res num :=
  let len := RBIGNUM_LEN x in
  if len * 8 <=? 8 then
    num ← for_down (len - 1) 0
      (λ i num, d ← aload (digits x) i; Ok (s64 (BIGUP num + d))) 0;
    if 0 <=? num then
      if sign x then Ok (if POSFIXABLE num then Fixnum num else Bignum x)
      else Ok (if NEGFIXABLE (- num) then Fixnum (- num) else Bignum x)
    else Ok (Bignum x)
  else Ok (Bignum x).

Definition bignorm (x : big) : res num := bigfixize (bigtrunc x).

(** ** Conversions from machine integers *)

Definition rb_uint2big (n : Z) : res big :=
  '(_, ds) ← for_range 0 DIGSPERLONG
    (λ i '(num, ds), ds ← astore ds i (BIGLO num); Ok (BIGDN num, ds)) (n, fresh DIGSPERLONG);
  Ok (mkBig true (take (trunc_len (Z.to_nat DIGSPERLONG) ds) ds)).

Definition rb_int2big (n : Z) : res big :=
  if n <? 0 then b ← rb_uint2big (u64 (- n)); Ok (set_sign false b)
  else rb_uint2big n.

Definition rb_uint2inum (n : Z) : res num :=
  if POSFIXABLE n then Ok (Fixnum n) else b ← rb_uint2big n; Ok (Bignum b).
Definition rb_int2inum (n : Z) : res num :=
  if FIXABLE n then Ok (Fixnum n) else b ← rb_int2big n; Ok (Bignum b).

(** The bignum of an integer operand: [case T_FIXNUM: y = rb_int2big(...)]. *)
Definition to_big (y : num) : res big :=
  match y with Fixnum n => rb_int2big n | Bignum b => Ok b end.

(** ** Conversions to machine integers *)

Definition big2ulong (x : big) (check_range : bool) : res Z :=
  let len := RBIGNUM_LEN x in
  len ← (if DIGSPERLONG <? len then
           if check_range then Err (Raise RangeError) else Ok DIGSPERLONG
         else Ok len);
  num ← for_down (len - 1) 0 (λ i num, d ← aload (digits x) i; Ok (u128 (BIGUP num + d))) 0;
  Ok (u64 num).

Definition rb_big2ulong_pack (x : big) : res Z :=
  num ← big2ulong x false; Ok (if sign x then num else u64 (- num)).

Definition rb_big2ulong (x : big) : res Z :=
  num ← big2ulong x true;
  if sign x then Ok num else
  if s64 num <? 0 then Err (Raise RangeError) else Ok (u64 (- num)).

Definition rb_big2long (x : big) : res Z :=
  num ← big2ulong x true;
  if (s64 num <? 0) && (sign x || negb (s64 num =? LONG_MIN)) then Err (Raise RangeError) else
  Ok (if sign x then s64 num else s64 (- s64 num)).

(** ** Comparison *)

(** [while (xlen-- && x[xlen] == y[xlen]);] from the top: the first difference. *)
Fixpoint cmp_digits (n : nat) (xs ys : list Z) : res (option (Z * Z)) :=
  match n with
  | O => Ok None
  | S n' =>
      a ← aload xs (Z.of_nat n');
      b ← aload ys (Z.of_nat n');
      if a =? b then cmp_digits n' xs ys else Ok (Some (a, b))
  end.

Definition rb_big_cmp (x : big) (y : num) : res Z :=
  y ← to_big y;
  if sign x && negb (sign y) then Ok 1 else
  if negb (sign x) && sign y then Ok (-1) else
  if RBIGNUM_LEN x <? RBIGNUM_LEN y then Ok (if sign x then -1 else 1) else
  if RBIGNUM_LEN y <? RBIGNUM_LEN x then Ok (if sign x then 1 else -1) else
  o ← cmp_digits (length (digits x)) (digits x) (digits y);
  match o with
  | None => Ok 0
  | Some (a, b) => Ok (if b <? a then (if sign x then 1 else -1) else (if sign x then -1 else 1))
  end.

Definition rb_big_eq (x : big) (y : num) : res bool :=
  y ← to_big y;
  Ok (Bool.eqb (sign x) (sign y) && (RBIGNUM_LEN x =? RBIGNUM_LEN y) &&
      bool_decide (digits x = digits y)).

(** ** Negation and complement *)

Definition rb_big_uminus (x : big) : res num := bignorm (set_sign (negb (sign x)) x).

Definition rb_big_neg (x : big) : res num :=
  z ← (if sign x then Ok x else get2comp x);
  let i := RBIGNUM_LEN x in
  if i =? 0 then Ok (Fixnum (-1)) else
  ds ← for_down (i - 1) 0 (λ i ds, d ← aload ds i; astore ds i (digit_not d)) (digits z);
  let z := mkBig (negb (sign z)) ds in
  z ← (if sign x then get2comp z else Ok z);
  bignorm z.

(** ** Addition and subtraction *)

(** Which of two numbers of equal length has the smaller first differing
    digit. *)
Definition sub_swap (x y : big) : res bool :=
  if RBIGNUM_LEN x <? RBIGNUM_LEN y then Ok true else
  if RBIGNUM_LEN x =? RBIGNUM_LEN y then
    o ← cmp_digits (length (digits x)) (digits x) (digits y);
    Ok (match o with Some (a, b) => a <? b | None => false end)
  else Ok false.

(** [while (num && i < len)] with the body of [carry_step] reading from [xs],
    [wrap] the wrap-around of the type of [num]; then [while (i < len) zds[i] = xs[i]]. *)
Definition propagate_step (wrap : Z → Z) (xs : list Z) (i : Z) (s : Z * list Z) : res (Z * list Z) :=
  let '(num, zds) := s in
  d ← aload xs i;
  if num =? 0 then zds ← astore zds i d; Ok (num, zds) else
  let num := wrap (num + d) in
  zds ← astore zds i (BIGLO num);
  Ok (BIGDN num, zds).

Definition propagate (wrap : Z → Z) (xs : list Z) (i len : Z) (s : Z * list Z) : res (Z * list Z) :=
  for_range i len (propagate_step wrap xs) s.

(** [num += x[i] - y[i]; zds[i] = BIGLO(num); num = BIGDN(num);] *)
Definition sub_step (xs ys : list Z) (i : Z) (s : Z * list Z) : res (Z * list Z) :=
  let '(num, zds) := s in
  a ← aload xs i;
  b ← aload ys i;
  let num := s128 (num + (a - b)) in
  zds ← astore zds i (BIGLO num);
  Ok (BIGDN num, zds).

Definition bigsub (x y : big) : res big :=
  swap ← sub_swap x y;
  let '(x, y) := if swap : bool then (y, x) else (x, y) in
  '(num, zds) ← for_range 0 (RBIGNUM_LEN y) (sub_step (digits x) (digits y)) (0, fresh (RBIGNUM_LEN x));
  '(_, zds) ← propagate s128 (digits x) (RBIGNUM_LEN y) (RBIGNUM_LEN x) (num, zds);
  Ok (mkBig (negb swap) zds).

Definition add_step (xs ys : list Z) (i : Z) (s : Z * list Z) : res (Z * list Z) :=
  let '(num, zds) := s in
  a ← aload xs i;
  b ← aload ys i;
  let num := u128 (num + (a + b)) in
  zds ← astore zds i (BIGLO num);
  Ok (BIGDN num, zds).

Definition bigadd (x y : big) (s : bool) : res big :=
  let s := Bool.eqb s (sign y) in
  if negb (Bool.eqb (sign x) s) then
    if s then bigsub y x else bigsub x y
  else
  let '(x, y) := if RBIGNUM_LEN y <? RBIGNUM_LEN x then (y, x) else (x, y) in
  '(num, zds) ← for_range 0 (RBIGNUM_LEN x) (add_step (digits x) (digits y)) (0, fresh (RBIGNUM_LEN y + 1));
  '(num, zds) ← propagate u128 (digits y) (RBIGNUM_LEN x) (RBIGNUM_LEN y) (num, zds);
  zds ← astore zds (RBIGNUM_LEN y) (u64 num);
  Ok (mkBig s zds).

Definition rb_big_plus (x : big) (y : num) : res num :=
  y ← to_big y; z ← bigadd x y true; bignorm z.

Definition rb_big_minus (x : big) (y : num) : res num :=
  y ← to_big y; z ← bigadd x y false; bignorm z.

(** ** Multiplication *)

(** One row: [z += x[i] * y * BIGRAD^i]. *)
Definition mul_step (dd i : Z) (yds : list Z) (j : Z) (s : Z * list Z) : res (Z * list Z) :=
  let '(n, zds) := s in
  y ← aload yds j;
  let ee := u128 (n + dd * y) in
  z ← aload zds (i + j);
  let n := u128 (z + ee) in
  zds ← (if ee =? 0 then Ok zds else astore zds (i + j) (BIGLO n));
  Ok (BIGDN n, zds).

Definition mul_row (dd i : Z) (yds : list Z) (y_len : Z) (zds : list Z) : res (list Z) :=
  '(n, zds) ← for_range 0 y_len (mul_step dd i yds) (0, zds);
  if n =? 0 then Ok zds else astore zds (i + y_len) (u64 n).

(** The lengths are kept in [int]s; from a negative [j], [while (j--)] would
    write below the array. *)
Definition bigmul1 (xds yds zds : list Z) : res (list Z) :=
  let x_len := s32 (zlen xds) in
  let y_len := s32 (zlen yds) in
  let j := s32 (x_len + y_len + 1) in
  if j <? 0 then Err OutOfBounds else
  zds ← for_down (j - 1) 0 (λ j zds, astore zds j 0) zds;
  for_range 0 x_len (λ i zds,
    dd ← aload xds i;
    if dd =? 0 then Ok zds else mul_row dd i yds y_len zds) zds.

Definition rb_big_mul0 (x : big) (y : num) : res big :=
  y ← to_big y;
  let z := bignew (RBIGNUM_LEN x + RBIGNUM_LEN y + 1) (Bool.eqb (sign x) (sign y)) in
  zds ← bigmul1 (digits x) (digits y) (digits z);
  Ok (mkBig (sign z) zds).

Definition rb_big_mul (x : big) (y : num) : res num :=
  z ← rb_big_mul0 x y; bignorm z.

(** ** Division *)

(** The quotient digit: estimated from the two top digits of the dividend and
    the top digit of the divisor. *)
Definition div_estimate (yds zds : list Z) (ny j : Z) : res Z :=
  zj ← aload zds j;
  yt ← aload yds (ny - 1);
  if zj =? yt then Ok (BIGRAD - 1) else
  z1 ← aload zds (j - 1);
  q ← cdiv (u128 (BIGUP zj + z1)) yt;
  Ok (u64 q).

(** Multiply and subtract; the digit at [j] is not updated, the result is what
    would go there. *)
Definition mulsub_step (yds : list Z) (q o i : Z) (s : Z * Z * list Z) : res (Z * Z * list Z) :=
  let '(num, t2, zds) := s in
  y ← aload yds i;
  let t2 := u128 (t2 + y * q) in
  let ee := u128 (num - BIGLO t2) in
  z ← aload zds (o + i);
  let num := s128 (z + ee) in
  zds ← (if ee =? 0 then Ok zds else astore zds (o + i) (BIGLO num));
  Ok (BIGDN num, BIGDN t2, zds).

Definition div_mulsub (yds : list Z) (ny j q : Z) (zds : list Z) : res (Z * list Z) :=
  '(num, t2, zds) ← for_range 0 ny (mulsub_step yds q (j - ny)) (0, 0, zds);
  z ← aload zds (j - ny + ny);
  Ok (s128 (num + (z - t2)), zds).

(** Add the divisor back, the inner loop: the carry. *)
Definition addback_step (yds : list Z) (o i : Z) (s : Z * list Z) : res (Z * list Z) :=
  let '(num, zds) := s in
  y ← aload yds i;
  let ee := u128 (num + y) in
  z ← aload zds (o + i);
  let num := s128 (z + ee) in
  zds ← (if ee =? 0 then Ok zds else astore zds (o + i) (BIGLO num));
  Ok (BIGDN num, zds).

Definition div_addback (yds : list Z) (ny j : Z) (zds : list Z) : res (Z * list Z) :=
  for_range 0 ny (addback_step yds (j - ny)) (0, zds).

(** [while (num) { ... q--; ...; num--; }] *)
Fixpoint div_correct (fuel : nat) (yds : list Z) (ny j num q : Z) (zds : list Z)
    : res (Z * list Z) :=
  match fuel with
  | O => Err NoFuel
  | S fuel' =>
      if num =? 0 then Ok (q, zds) else
      '(num, zds) ← div_addback yds ny j zds;
      div_correct fuel' yds ny j (num - 1) (u64 (q - 1)) zds
  end.

(** The estimate is at most two too large, so that two corrections suffice. *)
Definition max_corrections : nat := 2.

Definition div_step (yds : list Z) (ny j : Z) (zds : list Z) : res (list Z) :=
  q ← div_estimate yds zds ny j;
  '(q, zds) ←
    (if q =? 0 then Ok (q, zds) else
     '(num, zds) ← div_mulsub yds ny j q zds;
     div_correct (S max_corrections) yds ny j num q zds);
  astore zds j q.

Definition bigdivrem1 (nx ny : Z) (yds zds : list Z) : res (list Z) :=
  for_down (if nx =? ny then nx + 1 else nx) ny (div_step yds ny) zds.

(** [while (!yds[ny-1]) ny--;] *)
Fixpoint top_len (ny : nat) (yds : list Z) : res nat :=
  match ny with
  | O => Err OutOfBounds
  | S ny' => d ← aload yds (Z.of_nat ny'); if d =? 0 then top_len ny' yds else Ok ny
  end.

(** [while ((q & (1UL<<(BITSPERDIG-1))) == 0) { q <<= 1UL; dd++; }] *)
Fixpoint norm_shift (fuel : nat) (q dd : Z) : res Z :=
  match fuel with
  | O => Err NoFuel
  | S fuel' =>
      if Z.land q (Z.shiftl 1 (BITSPERDIG - 1)) =? 0
      then norm_shift fuel' (u64 (Z.shiftl q 1)) (dd + 1)
      else Ok dd
  end.

(** [while (j<n) { t2 += src[j]<<dd; dst[j++] = BIGLO(t2); t2 = BIGDN(t2); }] *)
Definition shift_step (src : list Z) (dd j : Z) (s : Z * list Z) : res (Z * list Z) :=
  let '(t2, dst) := s in
  d ← aload src j;
  let t2 := u128 (t2 + u128 (Z.shiftl d dd)) in
  dst ← astore dst j (BIGLO t2);
  Ok (BIGDN t2, dst).

Definition shift_digits (src : list Z) (n dd : Z) (dst : list Z) : res (Z * list Z) :=
  for_range 0 n (shift_step src dd) (0, dst).

(** The dividend and the divisor, shifted so that the top digit of the divisor
    has its top bit set. *)
Definition div_normalize (xds yds zds : list Z) (nx ny dd : Z) : res (list Z * list Z) :=
  if dd =? 0 then
    zds ← astore zds nx 0;
    zds ← for_down (nx - 1) 0 (λ j zds, d ← aload xds j; astore zds j d) zds;
    Ok (yds, zds)
  else
    '(_, tds) ← shift_digits yds ny dd yds;
    '(t2, zds) ← shift_digits xds nx dd zds;
    zds ← astore zds nx (u64 t2);
    Ok (tds, zds).

Definition div_quotient (zds : list Z) (n ny : Z) : res (list Z) :=
  zds ← for_range 0 n (λ i zds, d ← aload zds (i + ny); astore zds i d) zds;
  Ok (take (Z.to_nat n) zds).

(** [t2 = (t2 | zds[i]) >> dd; q = zds[i]; zds[i] = BIGLO(t2); t2 = BIGUP(q);] *)
Definition unshift_step (dd i : Z) (s : Z * list Z) : res (Z * list Z) :=
  let '(t2, zds) := s in
  q ← aload zds i;
  zds ← astore zds i (BIGLO (Z.shiftr (Z.lor t2 q) dd));
  Ok (BIGUP q, zds).

Definition div_remainder (zds : list Z) (ny : nat) (dd : Z) : res (list Z) :=
  let ny := trunc_len ny zds in
  zds ← (if dd =? 0 then Ok zds else
    snd <$> for_down (Z.of_nat ny - 1) 0 (unshift_step dd) (0, zds));
  Ok (take ny zds).

(** Division by one digit. *)
Definition div_small_step (dd i : Z) (s : Z * list Z) : res (Z * list Z) :=
  let '(t2, zds) := s in
  z ← aload zds i;
  q ← cdiv (u128 (BIGUP t2 + z)) dd;
  zds ← astore zds i (u64 q);
  r ← cmod (u128 (BIGUP t2 + z)) dd;
  Ok (r, zds).

Definition div_small (xds : list Z) (dd : Z) : res (Z * list Z) :=
  for_down (zlen xds - 1) 0 (div_small_step dd) (0, xds).

(** [bigdivrem]: quotient and remainder (either may be left out by the caller). *)
Definition bigdivrem (x y : big) : res (big * big) :=
  let nx := RBIGNUM_LEN x in
  let ny := RBIGNUM_LEN y in
  if BIGZEROP y then Err (Raise ZeroDivisionError) else
  smaller ← (if nx <? ny then Ok true else
             if nx =? ny then
               a ← aload (digits x) (nx - 1);
               b ← aload (digits y) (ny - 1);
               Ok (a <? b)
             else Ok false);
  if smaller : bool then z ← rb_int2big 0; Ok (z, x) else
  if ny =? 1 then
    dd ← aload (digits y) 0;
    '(t2, zds) ← div_small (digits x) dd;
    m ← rb_uint2big (u64 t2);
    Ok (mkBig (Bool.eqb (sign x) (sign y)) zds, set_sign (sign x) m)
  else
    let zds := fresh (if nx =? ny then nx + 2 else nx + 1) in
    zds ← (if nx =? ny then astore zds (nx + 1) 0 else Ok zds);
    ny' ← top_len (Z.to_nat ny) (digits y);
    let ny := Z.of_nat ny' in
    q ← aload (digits y) (ny - 1);
    dd ← norm_shift (Z.to_nat BITSPERDIG) q 0;
    '(yds, zds) ← div_normalize (digits x) (digits y) zds nx ny dd;
    zds ← bigdivrem1 nx ny yds zds;
    d ← div_quotient zds ((if nx =? ny then nx + 2 else nx + 1) - ny) ny;
    m ← div_remainder zds ny' dd;
    Ok (mkBig (Bool.eqb (sign x) (sign y)) d, mkBig (sign x) m).

(** Floored division. *)
Definition bigdivmod (x y : big) : res (big * big) :=
  '(d, m) ← bigdivrem x y;
  if negb (Bool.eqb (sign x) (sign y)) && negb (BIGZEROP m) then
    one ← rb_int2big 1;
    d ← bigadd d one false;
    m ← bigadd m y true;
    Ok (d, m)
  else Ok (d, m).

Definition rb_big_divide (x : big) (y : num) : res num :=
  y ← to_big y; '(z, _) ← bigdivmod x y; bignorm z.

Definition rb_big_modulo (x : big) (y : num) : res num :=
  y ← to_big y; '(_, z) ← bigdivmod x y; bignorm z.

Definition rb_big_remainder (x : big) (y : num) : res num :=
  y ← to_big y; '(_, z) ← bigdivrem x y; bignorm z.

Definition rb_big_divmod (x : big) (y : num) : res (num * num) :=
  y ← to_big y;
  '(d, m) ← bigdivmod x y;
  d ← bignorm d;
  m ← bignorm m;
  Ok (d, m).

(** ** Bitwise operations on two's complement *)

Definition twos (x : big) : res big := if sign x then Ok x else get2comp x.

(** The common frame of [rb_big_and], [rb_big_or] and [rb_big_xor]: [f] on the
    digits both have, [tail] on those only the longer one has, given the sign of
    the shorter. *)
Definition bitwise (f : Z → Z → Z) (tail : bool → Z → Z) (zsign : bool → bool → bool)
    (x : big) (y : num) : res num :=
  y ← to_big y;
  y ← twos y;
  x ← twos x;
  let '(s, l) := if RBIGNUM_LEN y <? RBIGNUM_LEN x then (y, x) else (x, y) in
  let l1 := RBIGNUM_LEN s in
  let l2 := RBIGNUM_LEN l in
  zds ← for_range 0 l1 (λ i zds,
    a ← aload (digits s) i; b ← aload (digits l) i; astore zds i (f a b)) (fresh l2);
  zds ← for_range l1 l2 (λ i zds, b ← aload (digits l) i; astore zds i (tail (sign s) b)) zds;
  let z := mkBig (zsign (sign x) (sign y)) zds in
  z ← (if sign z then Ok z else get2comp z);
  bignorm z.

Definition rb_big_and : big → num → res num :=
  bitwise Z.land (λ s b, if s then 0 else b) orb.
Definition rb_big_or : big → num → res num :=
  bitwise Z.lor (λ s b, if s then b else BIGRAD - 1) andb.
Definition rb_big_xor : big → num → res num :=
  bitwise Z.lxor (λ s b, if s then b else digit_not b) (λ sx sy, negb (xorb sx sy)).

(** ** Shifts *)

(** [num = num | *xds++<<s2; *zds++ = BIGLO(num); num = BIGDN(num);] *)
Definition lshift_step (xds : list Z) (s1 s2 i : Z) (s : Z * list Z) : res (Z * list Z) :=
  let '(num, zds) := s in
  d ← aload xds i;
  let num := Z.lor num (u128 (Z.shiftl d s2)) in
  zds ← astore zds (s1 + i) (BIGLO num);
  Ok (BIGDN num, zds).

Definition big_lshift (x : big) (shift : Z) : res num :=
  let s1 := shift / BITSPERDIG in
  let s2 := shift mod BITSPERDIG in
  let len := RBIGNUM_LEN x in
  zds ← for_range 0 s1 (λ i zds, astore zds i 0) (fresh (len + s1 + 1));
  '(num, zds) ← for_range 0 len (lshift_step (digits x) s1 s2) (0, zds);
  zds ← astore zds (s1 + len) (BIGLO num);
  bignorm (mkBig (sign x) zds).

(** [num = (num | xds[i]) >> s2; zds[j] = BIGLO(num); num = BIGUP(xds[i]);] *)
Definition rshift_step (xds : list Z) (s1 s2 j : Z) (s : Z * list Z) : res (Z * list Z) :=
  let '(num, zds) := s in
  d ← aload xds (j + s1);
  zds ← astore zds j (BIGLO (Z.shiftr (Z.lor num d) s2));
  Ok (BIGUP d, zds).

Definition big_rshift (x : big) (shift : Z) : res num :=
  let s1 := shift / BITSPERDIG in
  let s2 := shift mod BITSPERDIG in
  let zero := Ok (Fixnum (if sign x then 0 else -1)) in
  if RBIGNUM_LEN x <? s1 then zero else
  x ← twos x;
  let j := RBIGNUM_LEN x - s1 in
  if j =? 0 then zero else
  let num := if sign x then 0 else u128 (Z.shiftl (2 ^ 128 - 1) BITSPERDIG) in
  '(_, zds) ← for_down (j - 1) 0 (rshift_step (digits x) s1 s2) (num, fresh j);
  let z := mkBig (sign x) zds in
  z ← (if sign x then Ok z else get2comp z);
  bignorm z.

Definition check_shiftdown (y x : big) : option Z :=
  if RBIGNUM_LEN x =? 0 then Some 0 else
  if 1 <? RBIGNUM_LEN y then Some (if sign x then 0 else -1) else None.

Definition rb_big_lshift (x : big) (y : num) : res num :=
  match y with
  | Fixnum n => if n <? 0 then big_rshift x (- n) else big_lshift x n
  | Bignum y =>
      if sign y then shift ← big2ulong y true; big_lshift x shift
      else
        match check_shiftdown y x with
        | Some t => Ok (Fixnum t)
        | None => shift ← big2ulong y true; big_rshift x shift
        end
  end.

Definition rb_big_rshift (x : big) (y : num) : res num :=
  match y with
  | Fixnum n => if n <? 0 then big_lshift x (- n) else big_rshift x n
  | Bignum y =>
      if sign y then
        match check_shiftdown y x with
        | Some t => Ok (Fixnum t)
        | None => shift ← big2ulong y true; big_rshift x shift
        end
      else shift ← big2ulong y true; big_lshift x shift
  end.

(** [big[n]] for a bit position [shift]; the digit of the two's complement is
    computed with its carry from digit 0 up to digit [s1]. *)
Definition aref_out_of_range (x : big) : Z := if sign x then 0 else 1.

Definition aref_bit (x : big) (shift : Z) : res Z :=
  let s1 := shift / BITSPERDIG in
  let s2 := shift mod BITSPERDIG in
  if RBIGNUM_LEN x <=? s1 then Ok (aref_out_of_range x) else
  num ← (if sign x then aload (digits x) s1 else
         num ← for_range 0 s1 (λ i num,
           d ← aload (digits x) i; Ok (BIGDN (u128 (num + digit_not d)))) 1;
         d ← aload (digits x) s1;
         Ok (u128 (num + digit_not d)));
  Ok (if Z.land num (Z.shiftl 1 s2) =? 0 then 0 else 1).

Definition rb_big_aref (x : big) (y : num) : res Z :=
  match y with
  | Bignum y =>
      if negb (sign y) then Ok 0 else
      let y := bigtrunc y in
      if DIGSPERLONG <? RBIGNUM_LEN y then Ok (aref_out_of_range x) else
      shift ← big2ulong y false; aref_bit x shift
  | Fixnum i => if i <? 0 then Ok 0 else aref_bit x i
  end.

(** ** Squares and powers *)

(** [num += z[i + k] + (a2[i] << 1); z[i + k] = BIGLO(num); num = BIGDN(num);] *)
Definition sqr_step (a2 : list Z) (k i : Z) (s : Z * list Z) : res (Z * list Z) :=
  let '(num, zds) := s in
  z ← aload zds (i + k);
  d ← aload a2 i;
  let num := u128 (num + (z + Z.shiftl d 1)) in
  zds ← astore zds (i + k) (BIGLO num);
  Ok (BIGDN num, zds).

(** [for (; i < len && num; ++i)] with the body of [carry_step]. *)
Definition sqr_carry_step (i : Z) (s : Z * list Z) : res (Z * list Z) :=
  let '(num, zds) := s in
  if num =? 0 then Ok (num, zds) else carry_step i (num, zds).

(** The square from those of the upper and the lower half and their product. *)
Definition sqr_combine (k : Z) (a2 z ab : list Z) : res (list Z) :=
  let z := z ++ replicate (Z.to_nat (2 * k - zlen z)) 0 in
  let z := take (Z.to_nat (2 * k)) z ++ a2 in
  '(num, z) ← for_range 0 (zlen ab) (sqr_step ab k) (0, z);
  if num =? 0 then Ok z else
  '(num, z) ← for_range (zlen ab + k) (zlen z) sqr_carry_step (num, z);
  Ok (if num =? 0 then z else z ++ [BIGLO num]).

Fixpoint bigsqr (fuel : nat) (x : big) : res big :=
  match fuel with
  | O => Err NoFuel
  | S fuel' =>
      let len := RBIGNUM_LEN x in
      let k := len / 2 in
      if len <? 4000 / BITSPERDIG then z ← rb_big_mul0 x (Bignum x); Ok (bigtrunc z) else
      let a := mkBig true (drop (Z.to_nat k) (digits x)) in
      let b := mkBig true (take (Z.to_nat k) (digits x)) in
      a2 ← bigsqr fuel' a;
      z ← bigsqr fuel' b;
      ab ← rb_big_mul0 a (Bignum b);
      ds ← sqr_combine k (digits (bigtrunc a2)) (digits z) (digits (bigtrunc ab));
      Ok (bigtrunc (mkBig (sign z) ds))
  end.

(** Each level halves the length. *)
Definition sqr_fuel (x : big) : nat := S (length (digits x)).

(** The value of [x ** y]: an integer, or what the calls to the Float and
    Rational classes return. *)
Inductive power := PInteger (n : num) | PFloat | PRational.

Definition BIGLEN_LIMIT : Z := 1024 * 1024 / 8.

(** One turn of the loop over the bits of the exponent; [None] is the [z = 0] the
    loop starts with. *)
Definition pow_step (x : big) (yy i : Z) (z : option big) : res (option big) :=
  z ← match z with
      | None => Ok None
      | Some z => z ← bigsqr (sqr_fuel z) z; Ok (Some (bigtrunc z))
      end;
  if Z.land yy (Z.shiftl 1 i) =? 0 then Ok z else
  match z with
  | None => Ok (Some x)
  | Some z => z ← rb_big_mul0 z (Bignum x); Ok (Some (bigtrunc z))
  end.

Definition rb_big_pow (x : big) (y : num) : res power :=
  match y with
  | Bignum y => Ok (if sign y then PFloat else PRational)
  | Fixnum yy =>
      if yy =? 0 then Ok (PInteger (Fixnum 1)) else
      if yy <? 0 then Ok PRational else
      limit ← cdiv BIGLEN_LIMIT yy;
      if (BIGLEN_LIMIT <? RBIGNUM_LEN x) || (limit <? RBIGNUM_LEN x) then Ok PFloat else
      z ← for_down 61 0 (pow_step x yy) None;
      match z with
      | None => Err BadPointer
      | Some z => n ← bignorm z; Ok (PInteger n)
      end
  end.

Definition rb_big_abs (x : big) : big := if sign x then x else set_sign true x.
Definition rb_big_odd_p (x : big) : res bool := d ← aload (digits x) 0; Ok (negb (Z.land d 1 =? 0)).
Definition rb_big_even_p (x : big) : res bool := d ← aload (digits x) 0; Ok (Z.land d 1 =? 0).
Definition rb_big_size (x : big) : Z := RBIGNUM_LEN x * 8.
End bignum.
