(* ===== verification/BigVal.v ===== *)
(** * bignum.c: the numbers digit arrays stand for

    [dg ds i] is the digit at index [i]; [seg ds o k] the number written by the
    [k] digits from index [o]; [bval ds] the number a whole array stands for,
    and [bigval x] that of a bignum.  The loops of bignum.c are specified through
    [seg]: a store changes it in one place, and one more digit adds one term. *)

From S2P Require Import Prelude Big.

Notation B := BIGRAD (only parsing).

Lemma BIGRAD_val : BIGRAD = 2 ^ 64.
Proof. done. Qed.

(** Keep [BIGRAD] folded: [lia] needs no more than the following. *)
Lemma BIGRAD_pos : 2 < BIGRAD.
Proof. done. Qed.
Lemma BIGRAD_sq : BIGRAD * BIGRAD = 2 ^ 128.
Proof. done. Qed.
Lemma BIGRAD_half : BIGRAD = 2 * 2 ^ 63.
Proof. done. Qed.

#[global] Opaque BIGRAD.

Definition dg (ds : list Z) (i : Z) : Z := default 0 (zlookup ds i).
Definition ok (ds : list Z) : Prop := ∀ i, 0 ≤ dg ds i < BIGRAD.

Fixpoint bval (ds : list Z) : Z :=
  match ds with [] => 0 | d :: ds' => d + BIGRAD * bval ds' end.

Definition bigval (x : big) : Z := if sign x then bval (digits x) else - bval (digits x).

(** [Σ_(i < n) f i * BIGRAD^i] *)
Fixpoint sum (f : Z → Z) (n : nat) : Z :=
  match n with O => 0 | S n' => sum f n' + f (Z.of_nat n') * BIGRAD ^ Z.of_nat n' end.

Definition seg (ds : list Z) (o k : Z) : Z := sum (λ i, dg ds (o + i)) (Z.to_nat k).

(** ** Digits *)

Lemma aload_dg ds i : 0 ≤ i < zlen ds → aload ds i = Ok (dg ds i).
Proof. intros (x & Hx)%zlookup_is_Some. rewrite (proj2 (aload_ok _ _ _) Hx). unfold dg. by rewrite Hx. Qed.

Lemma dg_insert ds i v j :
  0 ≤ i < zlen ds → dg (<[Z.to_nat i := v]> ds) j = if decide (i = j) then v else dg ds j.
Proof. intros Hi. unfold dg. rewrite zlookup_insert by done. by case_decide. Qed.

Lemma dg_out ds i : ¬ (0 ≤ i < zlen ds) → dg ds i = 0.
Proof. intros Hi. unfold dg. by rewrite (proj2 (zlookup_None ds i)). Qed.

Lemma ok_insert ds i v : ok ds → 0 ≤ v < BIGRAD → ok (<[Z.to_nat i := v]> ds).
Proof.
  intros Hok Hv j. unfold dg, zlookup. pose proof BIGRAD_pos as HB.
  destruct (Z.leb_spec 0 j); [|simpl; lia].
  destruct (decide (Z.to_nat i = Z.to_nat j)) as [->|].
  - destruct (decide (Z.to_nat j < length ds)%nat); [by rewrite list_lookup_insert_eq|].
    rewrite list_insert_ge by lia. rewrite lookup_ge_None_2 by lia. simpl. lia.
  - rewrite list_lookup_insert_ne by done. specialize (Hok j). unfold dg, zlookup in Hok.
    by rewrite (proj2 (Z.leb_le 0 j)) in Hok.
Qed.

Lemma ok_nil : ok [].
Proof. intros i. pose proof BIGRAD_pos as HB. rewrite dg_out; [lia|]. rewrite zlen_nil. lia. Qed.

Lemma dg_cons d ds i : dg (d :: ds) i = if decide (i = 0) then d else dg ds (i - 1).
Proof. unfold dg. rewrite zlookup_cons. by case_decide. Qed.

Lemma dg_app l1 l2 i : dg (l1 ++ l2) i = if decide (i < zlen l1) then dg l1 i else dg l2 (i - zlen l1).
Proof. unfold dg. rewrite zlookup_app. by case_decide. Qed.

Lemma ok_cons d ds : ok (d :: ds) ↔ 0 ≤ d < BIGRAD ∧ ok ds.
Proof.
  pose proof BIGRAD_pos as HB. split.
  - intros H. split; [exact (H 0)|]. intros i. destruct (decide (i < 0)).
    + rewrite dg_out; lia.
    + specialize (H (i + 1)). rewrite dg_cons, decide_False in H by lia.
      by replace (i + 1 - 1) with i in H by lia.
  - intros [Hd Hds] i. rewrite dg_cons. case_decide; [done|apply Hds].
Qed.

Lemma ok_app l1 l2 : ok (l1 ++ l2) ↔ ok l1 ∧ ok l2.
Proof.
  induction l1 as [|d l1 IH]; cbn [app]; [split; [split; [apply ok_nil|done]|by intros []]|].
  rewrite !ok_cons, IH. tauto.
Qed.

Lemma ok_take n ds : ok ds → ok (take n ds).
Proof. intros H. rewrite <- (take_drop n ds) in H. by apply ok_app in H as [? _]. Qed.

Lemma ok_fresh `{J : Junk} n : ok (fresh n).
Proof.
  intros i. unfold fresh, dg, zlookup. destruct (Z.leb_spec 0 i); [|pose proof BIGRAD_pos as HB; simpl; lia].
  rewrite list_lookup_fmap. destruct (seq 0 (Z.to_nat n) !! Z.to_nat i); cbn; [apply junk_range|].
  pose proof BIGRAD_pos as HB. lia.
Qed.

Lemma zlen_fresh `{J : Junk} n : 0 ≤ n → zlen (fresh n) = n.
Proof. intros. unfold fresh, zlen. rewrite length_fmap, length_seq. lia. Qed.

(** ** Sums *)

Lemma sum_ext f g n : (∀ i, 0 ≤ i < Z.of_nat n → f i = g i) → sum f n = sum g n.
Proof.
  induction n as [|n IH]; intros H; cbn [sum]; [done|]. rewrite IH, H; [done|lia|].
  intros i Hi. apply H. lia.
Qed.

Lemma sum_shift f n : sum f (S n) = f 0 + BIGRAD * sum (λ i, f (i + 1)) n.
Proof.
  induction n as [|n IH]; [cbn [sum]; change (Z.of_nat 0) with 0; rewrite Z.pow_0_r; lia|].
  assert (∀ g, sum g (S (S n)) = sum g (S n) + g (Z.of_nat (S n)) * BIGRAD ^ Z.of_nat (S n)) as Hu by done.
  rewrite Hu, IH. cbn [sum]. rewrite Nat2Z.inj_succ, Z.pow_succ_r by lia.
  replace (Z.of_nat n + 1) with (Z.succ (Z.of_nat n)) by lia. lia.
Qed.

Lemma sum_app f n m :
  sum f (n + m) = sum f n + BIGRAD ^ Z.of_nat n * sum (λ i, f (Z.of_nat n + i)) m.
Proof.
  induction m as [|m IH]; [rewrite Nat.add_0_r; cbn; lia|].
  rewrite Nat.add_succ_r. cbn [sum]. rewrite IH, Nat2Z.inj_add, Z.pow_add_r by lia. lia.
Qed.

Lemma seg_0 ds o : seg ds o 0 = 0.
Proof. done. Qed.

Lemma seg_S ds o k : 0 ≤ k → seg ds o (k + 1) = seg ds o k + dg ds (o + k) * BIGRAD ^ k.
Proof.
  intros. unfold seg. replace (Z.to_nat (k + 1)) with (S (Z.to_nat k)) by lia.
  cbn [sum]. by rewrite Z2Nat.id by lia.
Qed.

Lemma seg_1 ds o : seg ds o 1 = dg ds o.
Proof. change 1 with (0 + 1). rewrite seg_S, seg_0, Z.pow_0_r, Z.add_0_r by lia. lia. Qed.

Lemma seg_ext ds ds' o o' k :
  (∀ i, 0 ≤ i < k → dg ds (o + i) = dg ds' (o' + i)) → seg ds o k = seg ds' o' k.
Proof. intros H. unfold seg. apply sum_ext. intros i Hi. apply H. lia. Qed.

Lemma seg_app ds o k m : 0 ≤ k → 0 ≤ m → seg ds o (k + m) = seg ds o k + BIGRAD ^ k * seg ds (o + k) m.
Proof.
  intros. unfold seg. rewrite Z2Nat.inj_add, sum_app, Z2Nat.id by lia. do 2 f_equal.
  apply sum_ext. intros i Hi. f_equal. lia.
Qed.

Lemma seg_insert ds o k i v :
  0 ≤ i < zlen ds → ¬ (o ≤ i < o + k) → seg (<[Z.to_nat i := v]> ds) o k = seg ds o k.
Proof.
  intros Hi Hn. apply seg_ext. intros j Hj. rewrite dg_insert by done. by rewrite decide_False by lia.
Qed.

Lemma seg_insert_last ds o k v :
  0 ≤ o → 0 ≤ k → o + k < zlen ds →
  seg (<[Z.to_nat (o + k) := v]> ds) o (k + 1) = seg ds o k + v * BIGRAD ^ k.
Proof.
  intros Ho Hk Hlen. rewrite seg_S by lia. rewrite seg_insert by lia.
  rewrite dg_insert by lia. by rewrite decide_True.
Qed.

Lemma pow_pos k : 0 ≤ k → 0 < BIGRAD ^ k.
Proof. intros. pose proof BIGRAD_pos as HB. apply Z.pow_pos_nonneg; lia. Qed.

Lemma seg_bound ds o k : ok ds → 0 ≤ k → 0 ≤ seg ds o k < BIGRAD ^ k.
Proof.
  intros Hok Hk. unfold seg. rewrite <- (Z2Nat.id k) at 3 by lia.
  induction (Z.to_nat k) as [|n IH]; cbn [sum]; [lia|].
  rewrite Nat2Z.inj_succ, Z.pow_succ_r by lia. pose proof (Hok (o + Z.of_nat n)). nia.
Qed.

Lemma bval_seg ds : bval ds = seg ds 0 (zlen ds).
Proof.
  induction ds as [|d ds IH]; [done|]. cbn [bval]. unfold seg.
  rewrite to_nat_zlen. cbn [length]. rewrite sum_shift. cbn [Z.add]. f_equal.
  rewrite IH. unfold seg. rewrite to_nat_zlen. f_equal. apply sum_ext.
  intros i Hi. rewrite dg_cons. rewrite decide_False by lia. f_equal. lia.
Qed.

Lemma bval_app l1 l2 : bval (l1 ++ l2) = bval l1 + BIGRAD ^ zlen l1 * bval l2.
Proof.
  induction l1 as [|d l1 IH]; cbn [app bval]; [rewrite zlen_nil, Z.pow_0_r; lia|].
  rewrite IH, zlen_cons, Z.pow_add_r, Z.pow_1_r by (pose proof (zlen_nonneg l1); lia). lia.
Qed.

Lemma bval_bound ds : ok ds → 0 ≤ bval ds < BIGRAD ^ zlen ds.
Proof. intros. rewrite bval_seg. apply seg_bound; [done|apply zlen_nonneg]. Qed.

Lemma seg_take ds n : 0 ≤ n ≤ zlen ds → bval (take (Z.to_nat n) ds) = seg ds 0 n.
Proof.
  intros Hn. rewrite bval_seg, zlen_take. replace (Z.max 0 (Z.min n (zlen ds))) with n by lia.
  apply seg_ext. intros i Hi. unfold dg. by rewrite zlookup_take by lia.
Qed.

Lemma seg_zero ds o k : (∀ i, 0 ≤ i < k → dg ds (o + i) = 0) → seg ds o k = 0.
Proof.
  intros H. unfold seg. rewrite (sum_ext _ (λ _, 0)) by (intros i Hi; apply H; lia).
  induction (Z.to_nat k) as [|n IH]; cbn [sum]; [done|]. rewrite IH. lia.
Qed.

(** ** Low and high parts *)

Lemma BIGLO_mod x : BIGLO x = x mod BIGRAD.
Proof.
  Transparent BIGRAD. unfold BIGLO, BIGRAD. change (2 ^ 64 - 1) with (Z.ones 64). apply Z.land_ones. lia.
Qed.
#[global] Opaque BIGRAD.

Lemma BIGDN_div x : BIGDN x = x / BIGRAD.
Proof. rewrite BIGRAD_val. unfold BIGDN, BITSPERDIG. by rewrite Z.shiftr_div_pow2. Qed.

Lemma BIGUP_mul x : 0 ≤ x < BIGRAD → BIGUP x = x * BIGRAD.
Proof.
  intros Hx. unfold BIGUP, BITSPERDIG. rewrite Z.shiftl_mul_pow2, <- BIGRAD_val by lia.
  apply u128_small. rewrite <- BIGRAD_sq. nia.
Qed.

Lemma BIGLO_range x : 0 ≤ BIGLO x < BIGRAD.
Proof. rewrite BIGLO_mod. pose proof BIGRAD_pos as HB. apply Z.mod_pos_bound. lia. Qed.

Lemma lo_hi x : x = BIGLO x + BIGRAD * BIGDN x.
Proof. rewrite BIGLO_mod, BIGDN_div. pose proof BIGRAD_pos as HB. pose proof (Z.div_mod x BIGRAD). lia. Qed.

Lemma digit_not_val d : 0 ≤ d < BIGRAD → digit_not d = BIGRAD - 1 - d.
Proof.
  intros Hd. unfold digit_not. rewrite BIGRAD_val in *.
  change (2 ^ 64 - 1) with (Z.ones 64). apply Z.bits_inj'. intros i Hi.
  replace (2 ^ 64 - 1 - d) with (Z.ones 64 - d) by done.
  assert (Z.ones 64 - d = Z.ldiff (Z.ones 64) d) as ->.
  { rewrite Z.sub_nocarry_ldiff; [done|]. apply Z.bits_inj'. intros j Hj.
    rewrite Z.ldiff_spec, Z.bits_0. destruct (decide (j < 64)).
    - rewrite Z.ones_spec_low by lia. apply andb_false_r.
    - rewrite (Z.bits_above_log2 d j); [done|lia|].
      destruct (decide (d = 0)) as [->|]; [cbn; lia|]. apply Z.log2_lt_pow2; [lia|].
      eapply Z.lt_le_trans; [apply Hd|]. apply Z.pow_le_mono_r; lia. }
  rewrite Z.ldiff_spec, Z.lxor_spec. destruct (decide (i < 64)).
  - rewrite Z.ones_spec_low by lia. by destruct (Z.testbit d i).
  - rewrite Z.ones_spec_high by lia. rewrite (Z.bits_above_log2 d i); [done|lia|].
    destruct (decide (d = 0)) as [->|]; [cbn; lia|]. apply Z.log2_lt_pow2; [lia|].
    eapply Z.lt_le_trans; [apply Hd|]. apply Z.pow_le_mono_r; lia.
Qed.

Lemma digit_not_range d : 0 ≤ d < BIGRAD → 0 ≤ digit_not d < BIGRAD.
Proof. intros. rewrite digit_not_val by done. lia. Qed.
