(* ===== verification/BigAdd.v ===== *)
(** * bignum.c: normal form, comparison, addition and subtraction *)

From S2P Require Import Prelude Big BigVal.

(** Split a double digit into the two the code continues with. *)
Lemma split_digit num P : BIGLO num * P + BIGDN num * (BIGRAD * P) = num * P.
Proof. rewrite (lo_hi num) at 3. lia. Qed.

Lemma BIGDN_bounds num a b : a * BIGRAD ≤ num < (b + 1) * BIGRAD → a ≤ BIGDN num ≤ b.
Proof.
  intros H. pose proof (lo_hi num). pose proof (BIGLO_range num). pose proof BIGRAD_pos. nia.
Qed.

Lemma pow_S k : 0 ≤ k → BIGRAD ^ (k + 1) = BIGRAD * BIGRAD ^ k.
Proof. intros. by rewrite Z.pow_add_r, Z.pow_1_r, Z.mul_comm by lia. Qed.

Lemma u128_digits x : 0 ≤ x < BIGRAD * BIGRAD → u128 x = x.
Proof. rewrite BIGRAD_sq. apply u128_small. Qed.

Lemma s128_digits x : - BIGRAD * 4 ≤ x < BIGRAD * 4 → s128 x = x.
Proof. rewrite BIGRAD_val. intros. apply s128_small. lia. Qed.

(** ** Normal form *)

Lemma trunc_len_spec len ds :
  (0 < len ≤ length ds)%nat →
  (1 ≤ trunc_len len ds ≤ len)%nat ∧
  (∀ i, Z.of_nat (trunc_len len ds) ≤ i < Z.of_nat len → dg ds i = 0) ∧
  (trunc_len len ds = 1%nat ∨ dg ds (Z.of_nat (trunc_len len ds) - 1) ≠ 0).
Proof.
  induction len as [|len IH]; intros Hlen; [lia|]. cbn [trunc_len]. destruct len as [|len].
  { split; [lia|]. split; [intros; lia|by left]. }
  assert (dg ds (Z.of_nat (S len)) = default 0 (ds !! S len)) as Hdg.
  { unfold dg. by rewrite zlookup_nat. }
  case_bool_decide as Hz.
  - destruct IH as (H1 & H2 & H3); [lia|]. split; [lia|]. split; [|done].
    intros i Hi. destruct (decide (i = Z.of_nat (S len))) as [->|]; [|apply H2; lia].
    by rewrite Hdg, Hz.
  - split; [lia|]. split; [intros; lia|right].
    replace (Z.of_nat (S (S len)) - 1) with (Z.of_nat (S len)) by lia. rewrite Hdg.
    destruct (lookup_lt_is_Some_2 ds (S len)) as [d Hd]; [lia|]. rewrite Hd in *. cbn. congruence.
Qed.

Definition trimmed (ds : list Z) : Prop := zlen ds = 1 ∨ dg ds (zlen ds - 1) ≠ 0.

Lemma trunc_take ds len :
  (0 < len ≤ length ds)%nat →
  bval (take (trunc_len len ds) ds) = seg ds 0 (Z.of_nat len) ∧ trimmed (take (trunc_len len ds) ds) ∧
  zlen (take (trunc_len len ds) ds) = Z.of_nat (trunc_len len ds).
Proof.
  intros Hlen. destruct (trunc_len_spec len ds Hlen) as (H1 & H2 & H3).
  set (t := trunc_len len ds) in *.
  assert (zlen (take t ds) = Z.of_nat t) as Et by (unfold zlen; rewrite length_take; lia).
  split_and!; [| |done].
  - rewrite bval_seg, Et. replace (Z.of_nat len) with (Z.of_nat t + (Z.of_nat len - Z.of_nat t)) by lia.
    rewrite seg_app by lia. rewrite (seg_zero ds (0 + Z.of_nat t)) by (intros i Hi; apply H2; lia).
    rewrite Z.mul_0_r, Z.add_0_r. apply seg_ext. intros i Hi. unfold dg.
    rewrite <- (Nat2Z.id t) at 1. by rewrite zlookup_take by lia.
  - unfold trimmed. rewrite Et. destruct H3 as [->|H3]; [by left|right].
    unfold dg. rewrite <- (Nat2Z.id t) at 1. by rewrite zlookup_take by lia.
Qed.

Lemma bigtrunc_spec x :
  ok (digits x) → digits x ≠ [] →
  bigval (bigtrunc x) = bigval x ∧ trimmed (digits (bigtrunc x)) ∧ ok (digits (bigtrunc x)) ∧
  0 < zlen (digits (bigtrunc x)) ∧ sign (bigtrunc x) = sign x.
Proof.
  intros Hok Hne. unfold bigtrunc, RBIGNUM_LEN.
  assert (0 < length (digits x))%nat as Hl by (destruct (digits x); [done|simpl; lia]).
  rewrite (proj2 (Z.eqb_neq _ 0)) by (unfold zlen; lia). cbn [digits sign].
  destruct (trunc_take (digits x) (length (digits x))) as (Hv & Ht & Hz); [lia|].
  split_and!; [|done|by apply ok_take| |done].
  - unfold bigval. cbn [digits sign]. rewrite Hv. change (Z.of_nat (length (digits x))) with (zlen (digits x)).
    by rewrite <- bval_seg.
  - rewrite Hz. destruct (trunc_len_spec (length (digits x)) (digits x)); lia.
Qed.

(** A number in the form the interpreter keeps: a fixnum if it fits. *)
Definition nval (n : num) : Z := match n with Fixnum n => n | Bignum b => bigval b end.

Definition canon (n : num) : Prop :=
  match n with
  | Fixnum n => FIXNUM_MIN ≤ n ≤ FIXNUM_MAX
  | Bignum b => ok (digits b) ∧ trimmed (digits b) ∧ 0 < zlen (digits b) ∧
                ¬ (FIXNUM_MIN ≤ bigval b ≤ FIXNUM_MAX)
  end.

Lemma FIXNUM_MAX_val : FIXNUM_MAX = 2 ^ 61 - 1.
Proof. done. Qed.
Lemma FIXNUM_MIN_val : FIXNUM_MIN = - 2 ^ 61.
Proof. done. Qed.

Lemma trimmed_large ds : ok ds → trimmed ds → 1 < zlen ds → BIGRAD ≤ bval ds.
Proof.
  intros Hok [|Htop] Hlen; [lia|]. rewrite bval_seg.
  replace (zlen ds) with (zlen ds - 1 + 1) by lia. rewrite seg_S by lia. rewrite Z.add_0_l.
  pose proof (seg_bound ds 0 (zlen ds - 1) Hok ltac:(lia)). pose proof (Hok (zlen ds - 1)).
  assert (BIGRAD ≤ BIGRAD ^ (zlen ds - 1)); [|nia].
  pose proof BIGRAD_pos. rewrite <- (Z.pow_1_r BIGRAD) at 1. apply Z.pow_le_mono_r; lia.
Qed.

Lemma bigfixize_spec x :
  ok (digits x) → trimmed (digits x) → 0 < zlen (digits x) →
  ∃ n, bigfixize x = Ok n ∧ nval n = bigval x ∧ canon n.
Proof.
  intros Hok Htr Hpos. unfold bigfixize, RBIGNUM_LEN. destruct (Z.leb_spec (zlen (digits x) * 8) 8).
  - assert (zlen (digits x) = 1) as E1 by lia. rewrite E1.
    assert (for_down (1 - 1) 0 (λ i num, d ← aload (digits x) i; Ok (s64 (BIGUP num + d))) 0
      = Ok (s64 (dg (digits x) 0))) as ->.
    { unfold for_down. change (Z.to_nat (1 - 1 - 0 + 1)) with 1%nat. cbn [for_down_n].
      change (1 - 1) with 0. rewrite aload_dg by lia. cbn [mbind res_bind].
      change (BIGUP 0) with 0. by rewrite Z.add_0_l. }
    cbn [mbind res_bind]. assert (bval (digits x) = dg (digits x) 0) as Eb.
    { rewrite bval_seg, E1. change 1 with (0 + 1). rewrite seg_S, seg_0 by lia. rewrite Z.pow_0_r, !Z.add_0_l. lia. }
    unfold bigval, POSFIXABLE, NEGFIXABLE, canon, nval. rewrite Eb, FIXNUM_MAX_val, FIXNUM_MIN_val.
    pose proof (Hok 0) as Hd. rewrite BIGRAD_val in Hd. generalize dependent (dg (digits x) 0). intros d Hb Hd.
    destruct (Z.le_gt_cases (2 ^ 63) d) as [Hbig|Hsmall].
    + assert (s64 d < 0) as Hneg.
      { unfold s64. rewrite <- (Z_mod_plus_full (d + 2 ^ 63) (-1) (2 ^ 64)), Z.mod_small; lia. }
      rewrite (proj2 (Z.leb_gt 0 (s64 d))) by lia. exists (Bignum x). unfold bigval. rewrite Hb.
      split_and!; [done|done|done|done|lia|]. destruct (sign x); lia.
    + rewrite s64_small by lia. rewrite (proj2 (Z.leb_le 0 d)) by lia. destruct (sign x) eqn:Es.
      * destruct (Z.ltb_spec d (2 ^ 61 - 1 + 1)); [exists (Fixnum d); split_and!; [done..|lia|lia]|].
        exists (Bignum x). unfold bigval. rewrite Es, Hb. split_and!; [done..|lia|lia].
      * destruct (Z.leb_spec (- 2 ^ 61) (- d)); [exists (Fixnum (- d)); split_and!; [done..|lia|lia]|].
        exists (Bignum x). unfold bigval. rewrite Es, Hb. split_and!; [done..|lia|lia].
  - exists (Bignum x). split; [done|]. split; [done|]. unfold canon. split_and!; [done..|].
    pose proof (trimmed_large _ Hok Htr ltac:(lia)) as Hl.
    rewrite BIGRAD_val in Hl. unfold bigval. rewrite FIXNUM_MAX_val, FIXNUM_MIN_val. destruct (sign x); lia.
Qed.

Lemma bignorm_spec x :
  ok (digits x) → digits x ≠ [] → ∃ n, bignorm x = Ok n ∧ nval n = bigval x ∧ canon n.
Proof.
  intros Hok Hne. destruct (bigtrunc_spec x Hok Hne) as (Hv & Ht & Ho & Hl & _).
  destruct (bigfixize_spec (bigtrunc x) Ho Ht Hl) as (n & E & Hn & Hc). exists n.
  split_and!; [done|congruence|done].
Qed.

(** ** Two's complement *)

Lemma dg_fmap_not ds i : 0 ≤ i < zlen ds → dg (digit_not <$> ds) i = digit_not (dg ds i).
Proof.
  intros Hi. destruct (zlookup_is_Some ds i Hi) as (d & Hd). unfold dg. rewrite Hd.
  rewrite zlookup_nonneg in * by lia. rewrite list_lookup_fmap, Hd. done.
Qed.

Lemma ok_fmap_not ds : ok ds → ok (digit_not <$> ds).
Proof.
  intros Hok i. destruct (decide (0 ≤ i < zlen ds)).
  - rewrite dg_fmap_not by done. apply digit_not_range, Hok.
  - rewrite dg_out; [pose proof BIGRAD_pos; lia|]. unfold zlen in *. by rewrite length_fmap.
Qed.

Lemma seg_not ds k :
  ok ds → 0 ≤ k ≤ zlen ds → seg (digit_not <$> ds) 0 k = BIGRAD ^ k - 1 - seg ds 0 k.
Proof.
  intros Hok Hk. rewrite <- (Z2Nat.id k) by lia. assert (Z.of_nat (Z.to_nat k) ≤ zlen ds) as Hl by lia.
  revert Hl. induction (Z.to_nat k) as [|n IH]; intros Hl; [done|].
  rewrite Nat2Z.inj_succ, <- Z.add_1_r in *. rewrite !seg_S, IH by lia.
  rewrite Z.add_0_l, dg_fmap_not, digit_not_val, pow_S by (try apply Hok; lia). lia.
Qed.

(** The carry loop of [get2comp]. *)
Lemma carry_loop ds :
  ok ds →
  returns (for_range 0 (zlen ds) carry_step (1, ds)) (λ '(num, ds'),
    0 ≤ num ≤ 1 ∧ ok ds' ∧ zlen ds' = zlen ds ∧ bval ds' + num * BIGRAD ^ zlen ds = bval ds + 1).
Proof.
  intros Hok. pose proof (zlen_nonneg ds). pose proof BIGRAD_pos as HB.
  eapply returns_mono.
  - apply (for_range_inv (λ k '(num, ds'), 0 ≤ num ≤ 1 ∧ ok ds' ∧ zlen ds' = zlen ds ∧
      seg ds' 0 k + num * BIGRAD ^ k = seg ds 0 k + 1 ∧ ∀ i, k ≤ i → dg ds' i = dg ds i)); [done| |].
    + split_and!; [lia..|done|done| |done]. rewrite !seg_0. lia.
    + intros k [num ds'] Hk (Hn & Hok' & Hl & Hv & Hrest). unfold carry_step.
      rewrite aload_dg by lia. cbn [mbind res_bind]. rewrite Hrest by lia.
      pose proof (Hok k). rewrite u128_digits by nia. rewrite astore_ok by lia. cbn [mbind res_bind].
      apply returns_ret. pose proof (BIGLO_range (num + dg ds k)). pose proof (BIGDN_bounds (num + dg ds k) 0 1).
      split_and!; [lia..|by apply ok_insert|by rewrite zlen_insert| |].
      * rewrite <- (Z.add_0_l k) at 1. rewrite seg_insert_last, seg_S, pow_S, Z.add_0_l by lia.
        pose proof (split_digit (num + dg ds k) (BIGRAD ^ k)). lia.
      * intros i Hi. rewrite dg_insert by lia. rewrite decide_False by lia. apply Hrest. lia.
  - intros [num ds'] (Hn & Hok' & Hl & Hv & _). rewrite !bval_seg, Hl. done.
Qed.

Lemma bval_zero_iff ds : ok ds → bval ds = 0 ↔ ∀ i, dg ds i = 0.
Proof.
  intros Hok. split; [|intros H; rewrite bval_seg; apply seg_zero; auto].
  induction ds as [|d ds IH]; intros Hz i; [by rewrite dg_out by (rewrite zlen_nil; lia)|].
  apply ok_cons in Hok as [Hd Hok]. cbn [bval] in Hz. pose proof (bval_bound ds Hok). pose proof BIGRAD_pos.
  assert (d = 0 ∧ bval ds = 0) as [-> Hv] by nia. rewrite dg_cons. case_decide; [done|]. by apply IH.
Qed.

(** [get2comp] computes [BIGRAD^len - |x|], with one more digit for zero. *)
Lemma get2comp_spec x :
  ok (digits x) → digits x ≠ [] →
  ∃ z, get2comp x = Ok z ∧ sign z = sign x ∧ ok (digits z) ∧ digits z ≠ [] ∧
    bval (digits z) = BIGRAD ^ zlen (digits x) - bval (digits x) ∧
    zlen (digits z) = zlen (digits x) + (if decide (bval (digits x) = 0) then 1 else 0).
Proof.
  intros Hok Hne. unfold get2comp, RBIGNUM_LEN. set (ds := digits x) in *. pose proof (zlen_nonneg ds).
  assert (0 < zlen ds) by (destruct ds; [done|rewrite zlen_cons in *; pose proof (zlen_nonneg ds); lia]).
  rewrite (proj2 (Z.eqb_neq _ 0)) by lia.
  assert (zlen (digit_not <$> ds) = zlen ds) as El by (unfold zlen; by rewrite length_fmap).
  destruct (carry_loop (digit_not <$> ds)) as ([num ds'] & E & Hn & Hok' & Hl & Hv); [by apply ok_fmap_not|].
  rewrite El in *. rewrite E. cbn [mbind res_bind]. eexists. split; [done|]. cbn [sign digits].
  rewrite (bval_seg (_ <$> _)), El, seg_not, <- bval_seg in Hv by (done || lia).
  pose proof (bval_bound ds Hok). pose proof (bval_bound ds' Hok') as Hb'. rewrite Hl in Hb'.
  pose proof (pow_pos (zlen ds) ltac:(lia)). pose proof BIGRAD_pos.
  split; [done|]. destruct (Z.eqb_spec num 0) as [->|].
  - rewrite Z.mul_0_l in Hv. rewrite decide_False by lia. split_and!; [done| |lia|lia].
    intros ->. rewrite zlen_nil in Hl. lia.
  - assert (num = 1) as -> by lia. assert (bval ds = 0) as -> by lia. rewrite decide_True by done.
    assert (bval (ds' ++ [1]) = bval ds' + BIGRAD ^ zlen ds) as ->.
    { rewrite bval_app, Hl. cbn [bval]. lia. }
    split_and!; [|by destruct ds'|lia|by rewrite zlen_app, zlen_cons, zlen_nil, Hl].
    apply ok_app. split; [done|]. apply ok_cons. split; [lia|apply ok_nil].
Qed.

(** ** Comparison of magnitudes *)

Lemma cmp_digits_spec n xs ys :
  ok xs → ok ys → Z.of_nat n ≤ zlen xs → Z.of_nat n ≤ zlen ys →
  ∃ o, cmp_digits n xs ys = Ok o ∧
    match o with
    | None => seg xs 0 (Z.of_nat n) = seg ys 0 (Z.of_nat n)
    | Some (a, b) => a ≠ b ∧ (a < b → seg xs 0 (Z.of_nat n) < seg ys 0 (Z.of_nat n)) ∧
                     (b < a → seg ys 0 (Z.of_nat n) < seg xs 0 (Z.of_nat n))
    end.
Proof.
  intros Hx Hy. induction n as [|n IH]; intros Hlx Hly; cbn [cmp_digits]; [by exists None|].
  rewrite !aload_dg by lia. cbn [mbind res_bind].
  rewrite Nat2Z.inj_succ, <- Z.add_1_r, !seg_S, !Z.add_0_l by lia.
  pose proof (seg_bound xs 0 (Z.of_nat n) Hx ltac:(lia)). pose proof (seg_bound ys 0 (Z.of_nat n) Hy ltac:(lia)).
  destruct (Z.eqb_spec (dg xs (Z.of_nat n)) (dg ys (Z.of_nat n))) as [->|Hne].
  - destruct IH as (o & -> & Ho); [lia..|]. exists o. split; [done|].
    destruct o as [[a b]|]; [|lia]. split_and!; [apply Ho|..]; destruct Ho as (_ & H1 & H2); lia.
  - eexists. split; [done|]. split_and!; [done|nia|nia].
Qed.

(** ** Carrying over the digits of the longer number *)

Lemma propagate_spec wrap xs i len num zds :
  (∀ x, - BIGRAD * 4 ≤ x → (0 ≤ num → 0 ≤ x) → x < BIGRAD * 4 → wrap x = x) →
  ok xs → ok zds → 0 ≤ i ≤ len → len ≤ zlen xs → len ≤ zlen zds → -1 ≤ num ≤ 1 →
  returns (propagate wrap xs i len (num, zds)) (λ '(num', zds'),
    -1 ≤ num' ≤ 1 ∧ (0 ≤ num → 0 ≤ num') ∧ ok zds' ∧ zlen zds' = zlen zds ∧
    seg zds' 0 len + num' * BIGRAD ^ len =
      seg zds 0 i + num * BIGRAD ^ i + (seg xs 0 len - seg xs 0 i) ∧
    ∀ j, len ≤ j → dg zds' j = dg zds j).
Proof.
  intros Hwrap Hx Hz Hi Hlx Hlz Hnum. pose proof BIGRAD_pos as HB. unfold propagate.
  apply (for_range_inv (λ k '(num', zds'), -1 ≤ num' ≤ 1 ∧ (0 ≤ num → 0 ≤ num') ∧ ok zds' ∧
    zlen zds' = zlen zds ∧ seg zds' 0 k + num' * BIGRAD ^ k =
      seg zds 0 i + num * BIGRAD ^ i + (seg xs 0 k - seg xs 0 i) ∧ ∀ j, k ≤ j → dg zds' j = dg zds j)).
  - lia.
  - split_and!; [lia..|done|done|done|lia|done].
  - intros k [m zs] Hk (Hm & Hpos & Hok & Hl & Hv & Hrest). cbn [propagate_step]. rewrite aload_dg by lia. cbn [mbind res_bind].
    pose proof (Hx k). assert (zlen zs = zlen zds) by done.
    assert (∀ v, seg (<[Z.to_nat k := v]> zs) 0 (k + 1) = seg zs 0 k + v * BIGRAD ^ k) as Hseg.
    { intros v. rewrite <- (Z.add_0_l k) at 1. apply seg_insert_last; lia. }
    assert (∀ v j, k + 1 ≤ j → dg (<[Z.to_nat k := v]> zs) j = dg zds j) as Hdg.
    { intros v j Hj. rewrite dg_insert by lia. rewrite decide_False by lia. apply Hrest. lia. }
    destruct (Z.eqb_spec m 0) as [->|Hm0]; rewrite astore_ok by lia; cbn [mbind res_bind]; apply returns_ret.
    + split_and!; [lia..|done|by apply ok_insert|by rewrite zlen_insert| |auto].
      rewrite Hseg, seg_S, Z.add_0_l, pow_S by lia. lia.
    + rewrite Hwrap by lia. pose proof (BIGLO_range (m + dg xs k)).
      pose proof (BIGDN_bounds (m + dg xs k) (-1) 1) as Hb1.
      pose proof (BIGDN_bounds (m + dg xs k) 0 1) as Hb0.
      split_and!; [lia..|by apply ok_insert|by rewrite zlen_insert| |auto].
      rewrite Hseg, seg_S, Z.add_0_l, pow_S by lia.
      pose proof (split_digit (m + dg xs k) (BIGRAD ^ k)). lia.
Qed.

(** ** Operands *)

Record big_ok (x : big) : Prop := {
  bo_ok : ok (digits x);
  bo_len : 0 < zlen (digits x)
}.

Lemma big_ok_ne x : big_ok x → digits x ≠ [].
Proof. intros [_ H] E. rewrite E, zlen_nil in H. lia. Qed.

Lemma zlen_pos_ne (ds : list Z) : 0 < zlen ds → ds ≠ [].
Proof. intros H ->. rewrite zlen_nil in H. lia. Qed.

Lemma ok_single n : 0 ≤ n < BIGRAD → ok [n].
Proof. intros. apply ok_cons. split; [done|apply ok_nil]. Qed.

Lemma trimmed_single n : trimmed [n].
Proof. by left. Qed.

Section operands.
Context `{J : Junk}.

Lemma rb_uint2big_spec n : 0 ≤ n < BIGRAD → rb_uint2big n = Ok (mkBig true [n]).
Proof.
  intros Hn. unfold rb_uint2big, DIGSPERLONG. rewrite for_range_step by lia.
  rewrite astore_ok by (rewrite zlen_fresh; lia). cbn [mbind res_bind].
  rewrite for_range_empty by lia. cbn [mbind res_bind]. rewrite BIGLO_mod, Z.mod_small by done. done.
Qed.

Lemma rb_int2big_spec n :
  LONG_MIN ≤ n ≤ LONG_MAX → rb_int2big n = Ok (mkBig (negb (n <? 0)) [Z.abs n]).
Proof.
  unfold LONG_MIN, LONG_MAX. intros Hn. unfold rb_int2big. destruct (Z.ltb_spec n 0).
  - rewrite u64_small by lia. rewrite rb_uint2big_spec by (rewrite BIGRAD_val; lia).
    cbn. by rewrite Z.abs_neq by lia.
  - rewrite rb_uint2big_spec by (rewrite BIGRAD_val; lia). by rewrite Z.abs_eq by lia.
Qed.

Lemma to_big_spec y :
  canon y → ∃ b, to_big y = Ok b ∧ bigval b = nval y ∧ big_ok b ∧ trimmed (digits b).
Proof.
  intros Hc. destruct y as [n|b]; cbn [canon to_big nval] in *.
  - rewrite FIXNUM_MAX_val, FIXNUM_MIN_val in Hc.
    rewrite rb_int2big_spec by (unfold LONG_MIN, LONG_MAX; lia).
    eexists. split; [done|]. split_and!.
    + unfold bigval. cbn. destruct (Z.ltb_spec n 0); cbn; lia.
    + split; cbn; [apply ok_single; rewrite BIGRAD_val; lia|rewrite zlen_cons, zlen_nil; lia].
    + apply trimmed_single.
  - destruct Hc as (? & ? & ? & _). exists b. split_and!; [done..|by split|done].
Qed.

(** Lengths tell magnitudes apart as soon as they differ. *)
Definition comparable (xs ys : list Z) : Prop :=
  (zlen xs < zlen ys → bval xs ≤ bval ys) ∧ (zlen ys < zlen xs → bval ys ≤ bval xs).

Lemma trimmed_lt xs ys :
  ok xs → ok ys → trimmed ys → 0 < zlen xs < zlen ys → bval xs < bval ys.
Proof.
  intros Hx Hy [|Htop] Hl; [lia|]. pose proof (bval_bound xs Hx). rewrite (bval_seg ys).
  replace (zlen ys) with (zlen ys - 1 + 1) by lia. rewrite seg_S, Z.add_0_l by lia.
  pose proof (seg_bound ys 0 (zlen ys - 1) Hy ltac:(lia)). pose proof (Hy (zlen ys - 1)).
  assert (BIGRAD ^ zlen xs ≤ BIGRAD ^ (zlen ys - 1)); [|nia].
  pose proof BIGRAD_pos. apply Z.pow_le_mono_r; lia.
Qed.

Lemma trimmed_comparable xs ys :
  ok xs → ok ys → trimmed xs → trimmed ys → 0 < zlen xs → 0 < zlen ys → comparable xs ys.
Proof.
  intros. split; intros Hl.
  - apply Z.lt_le_incl, trimmed_lt; [done..|lia].
  - apply Z.lt_le_incl, trimmed_lt; [done..|lia].
Qed.

Lemma sub_swap_spec x y :
  big_ok x → big_ok y → comparable (digits x) (digits y) →
  ∃ s, sub_swap x y = Ok s ∧
    (if s then bval (digits x) ≤ bval (digits y) ∧ zlen (digits x) ≤ zlen (digits y)
     else bval (digits y) ≤ bval (digits x) ∧ zlen (digits y) ≤ zlen (digits x)).
Proof.
  intros [Hx Hlx] [Hy Hly] [Hlt Hgt]. unfold sub_swap, RBIGNUM_LEN.
  destruct (Z.ltb_spec (zlen (digits x)) (zlen (digits y))); [exists true; split; [done|]; split; [auto|lia]|].
  destruct (Z.eqb_spec (zlen (digits x)) (zlen (digits y))) as [E|];
    [|exists false; split; [done|]; split; [apply Hgt; lia|lia]].
  destruct (cmp_digits_spec (length (digits x)) (digits x) (digits y)) as (o & -> & Ho);
    [done|done|unfold zlen in *; lia..|].
  change (Z.of_nat (length (digits x))) with (zlen (digits x)) in Ho. rewrite <- bval_seg in Ho.
  assert (seg (digits y) 0 (zlen (digits x)) = bval (digits y)) as Ey by (by rewrite E, bval_seg).
  rewrite Ey in Ho.
  cbn [mbind res_bind]. eexists. split; [done|]. destruct o as [[a b]|].
  - destruct Ho as (Hne & H1 & H2). destruct (Z.ltb_spec a b); split; lia.
  - split; lia.
Qed.

(** ** Subtraction and addition of magnitudes *)

Lemma insert_seg zs k v :
  0 ≤ k < zlen zs → seg (<[Z.to_nat k := v]> zs) 0 (k + 1) = seg zs 0 k + v * BIGRAD ^ k.
Proof. intros Hk. rewrite <- (Z.add_0_l k) at 1. apply seg_insert_last; lia. Qed.

Lemma sub_loop xs ys zs n :
  ok xs → ok ys → ok zs → 0 ≤ n → n ≤ zlen xs → n ≤ zlen ys → n ≤ zlen zs →
  returns (for_range 0 n (sub_step xs ys) (0, zs)) (λ '(num, zds),
    -1 ≤ num ≤ 0 ∧ ok zds ∧ zlen zds = zlen zs ∧
    seg zds 0 n + num * BIGRAD ^ n = seg xs 0 n - seg ys 0 n).
Proof.
  intros Hx Hy Hz Hn Hlx Hly Hlz. pose proof BIGRAD_pos as HB.
  apply (for_range_inv (λ k '(num, zds), -1 ≤ num ≤ 0 ∧ ok zds ∧ zlen zds = zlen zs ∧
    seg zds 0 k + num * BIGRAD ^ k = seg xs 0 k - seg ys 0 k)); [done|by split_and!|].
  intros k [num zds] Hk (Hnum & Hok & Hl & Hv). cbn [sub_step add_step]. rewrite !aload_dg by lia. cbn [mbind res_bind].
  pose proof (Hx k). pose proof (Hy k). rewrite s128_digits by lia. rewrite astore_ok by lia.
  cbn [mbind res_bind]. apply returns_ret. set (w := num + (dg xs k - dg ys k)).
  pose proof (BIGLO_range w). pose proof (BIGDN_bounds w (-1) 0 ltac:(lia)).
  split_and!; [lia..|by apply ok_insert|by rewrite zlen_insert|].
  rewrite insert_seg, !seg_S, !Z.add_0_l, pow_S by lia.
  pose proof (split_digit w (BIGRAD ^ k)). unfold w in *. lia.
Qed.

Lemma add_loop xs ys zs n :
  ok xs → ok ys → ok zs → 0 ≤ n → n ≤ zlen xs → n ≤ zlen ys → n ≤ zlen zs →
  returns (for_range 0 n (add_step xs ys) (0, zs)) (λ '(num, zds),
    0 ≤ num ≤ 1 ∧ ok zds ∧ zlen zds = zlen zs ∧
    seg zds 0 n + num * BIGRAD ^ n = seg xs 0 n + seg ys 0 n).
Proof.
  intros Hx Hy Hz Hn Hlx Hly Hlz. pose proof BIGRAD_pos as HB.
  apply (for_range_inv (λ k '(num, zds), 0 ≤ num ≤ 1 ∧ ok zds ∧ zlen zds = zlen zs ∧
    seg zds 0 k + num * BIGRAD ^ k = seg xs 0 k + seg ys 0 k)); [done|by split_and!|].
  intros k [num zds] Hk (Hnum & Hok & Hl & Hv). cbn [sub_step add_step]. rewrite !aload_dg by lia. cbn [mbind res_bind].
  pose proof (Hx k). pose proof (Hy k). rewrite u128_digits by nia. rewrite astore_ok by lia.
  cbn [mbind res_bind]. apply returns_ret. set (w := num + (dg xs k + dg ys k)).
  pose proof (BIGLO_range w). pose proof (BIGDN_bounds w 0 1 ltac:(lia)).
  split_and!; [lia..|by apply ok_insert|by rewrite zlen_insert|].
  rewrite insert_seg, !seg_S, !Z.add_0_l, pow_S by lia.
  pose proof (split_digit w (BIGRAD ^ k)). unfold w in *. lia.
Qed.

Lemma bigsub_spec x y :
  big_ok x → big_ok y → comparable (digits x) (digits y) →
  ∃ z, bigsub x y = Ok z ∧ bigval z = bval (digits x) - bval (digits y) ∧ big_ok z.
Proof.
  intros Hx Hy Hc. unfold bigsub. destruct (sub_swap_spec x y Hx Hy Hc) as (s & -> & Hs). cbn [mbind res_bind].
  set (p := if s then (y, x) else (x, y)).
  assert (∃ u v, p = (u, v) ∧ big_ok u ∧ big_ok v ∧ bval (digits v) ≤ bval (digits u) ∧
    zlen (digits v) ≤ zlen (digits u) ∧
    bval (digits x) - bval (digits y) = if s then - (bval (digits u) - bval (digits v))
                                        else bval (digits u) - bval (digits v))
    as (u & v & -> & [Hu Hlu] & [Hv Hlv] & Hle & Hll & Hdiff).
  { unfold p. destruct s; destruct Hs; do 2 eexists; (split; [reflexivity|]); split_and!; auto; lia. }
  unfold RBIGNUM_LEN. pose proof (zlen_fresh (zlen (digits u)) ltac:(lia)) as Hf.
  destruct (sub_loop (digits u) (digits v) (fresh (zlen (digits u))) (zlen (digits v)))
    as ([num zds] & -> & Hn & Hzok & Hzl & Hzv); [done|done|apply ok_fresh|lia..|]. cbn [mbind res_bind].
  destruct (propagate_spec s128 (digits u) (zlen (digits v)) (zlen (digits u)) num zds)
    as ([num' z'] & -> & Hn' & _ & Hzok' & Hzl' & Hzv' & _); try done; try lia.
  { intros w Hw _ Hw'. apply s128_digits. lia. }
  cbn [mbind res_bind]. eexists. split; [done|].
  rewrite (bval_seg (digits u)), (bval_seg (digits v)) in *.
  assert (zlen z' = zlen (digits u)) as Ez by lia.
  assert (bval z' = seg (digits u) 0 (zlen (digits u)) - seg (digits v) 0 (zlen (digits v))) as Eb.
  { pose proof (bval_bound z' Hzok') as Hb. rewrite Ez in Hb.
    pose proof (seg_bound (digits u) 0 (zlen (digits u)) Hu ltac:(lia)) as Hbu.
    pose proof (seg_bound (digits v) 0 (zlen (digits v)) Hv ltac:(lia)) as Hbv.
    rewrite (bval_seg z'), Ez in *. set (P := BIGRAD ^ zlen (digits u)) in *.
    assert (num' = 0) as -> by (assert (num' = -1 ∨ num' = 0 ∨ num' = 1) as [->|[->| ->]] by lia; lia). lia. }
  split.
  - unfold bigval. cbn. rewrite Eb, Hdiff. by destruct s.
  - split; [done|cbn; lia].
Qed.

Lemma bigadd_spec x y s :
  big_ok x → big_ok y →
  (Bool.eqb (sign x) (Bool.eqb s (sign y)) = false → comparable (digits x) (digits y)) →
  ∃ z, bigadd x y s = Ok z ∧ bigval z = (if s then bigval x + bigval y else bigval x - bigval y) ∧ big_ok z.
Proof.
  intros Hx Hy Hc. unfold bigadd.
  destruct (Bool.eqb (sign x) (Bool.eqb s (sign y))) eqn:Es; cbn [negb].
  2: { specialize (Hc eq_refl). destruct (Bool.eqb s (sign y)) eqn:Esy.
       - destruct (bigsub_spec y x Hy Hx) as (z & -> & Hz & ?); [by destruct Hc; split|].
         exists z. split_and!; [done| |done]. rewrite Hz. unfold bigval.
         destruct s, (sign x), (sign y); try done; lia.
       - destruct (bigsub_spec x y Hx Hy Hc) as (z & -> & Hz & ?).
         exists z. split_and!; [done| |done]. rewrite Hz. unfold bigval.
         destruct s, (sign x), (sign y); try done; lia. }
  apply eqb_prop in Es. set (p := if RBIGNUM_LEN y <? RBIGNUM_LEN x then (y, x) else (x, y)).
  assert (∃ u v, p = (u, v) ∧ big_ok u ∧ big_ok v ∧ zlen (digits u) ≤ zlen (digits v) ∧
    bval (digits x) + bval (digits y) = bval (digits u) + bval (digits v))
    as (u & v & -> & [Hu Hlu] & [Hv Hlv] & Hll & Hsum).
  { unfold p, RBIGNUM_LEN. destruct (Z.ltb_spec (zlen (digits y)) (zlen (digits x)));
      do 2 eexists; (split; [reflexivity|]); split_and!; auto; lia. }
  unfold RBIGNUM_LEN. pose proof (zlen_fresh (zlen (digits v) + 1) ltac:(lia)) as Hf.
  destruct (add_loop (digits u) (digits v) (fresh (zlen (digits v) + 1)) (zlen (digits u)))
    as ([num zds] & -> & Hn & Hzok & Hzl & Hzv); [done|done|apply ok_fresh|lia..|]. cbn [mbind res_bind].
  destruct (propagate_spec u128 (digits v) (zlen (digits u)) (zlen (digits v)) num zds)
    as ([num' z'] & -> & Hn' & Hpos & Hzok' & Hzl' & Hzv' & _); try done; try lia.
  { intros w _ Hw Hw'. apply u128_digits. pose proof BIGRAD_val. nia. }
  cbn [mbind res_bind]. specialize (Hpos ltac:(lia)). rewrite u64_small by lia.
  rewrite astore_ok by lia. cbn [mbind res_bind]. eexists. split; [done|]. pose proof BIGRAD_pos.
  assert (bval (<[Z.to_nat (zlen (digits v)) := num']> z') = bval (digits u) + bval (digits v)) as Eb.
  { rewrite bval_seg, zlen_insert. replace (zlen z') with (zlen (digits v) + 1) by lia.
    rewrite insert_seg by lia. rewrite (bval_seg (digits u)), (bval_seg (digits v)). lia. }
  split.
  - unfold bigval. cbn [sign digits]. rewrite Eb, <- Hsum. destruct s, (sign x), (sign y); cbn in Es; try done; cbn; lia.
  - split; cbn [digits]; [apply ok_insert; [done|lia]|rewrite zlen_insert; lia].
Qed.

(** ** The public operations *)

Lemma canon_big b : canon (Bignum b) → big_ok b ∧ trimmed (digits b).
Proof. intros (? & ? & ? & _). split; [by split|done]. Qed.

Lemma norm_spec z : big_ok z → ∃ n, bignorm z = Ok n ∧ nval n = bigval z ∧ canon n.
Proof. intros Hz. apply bignorm_spec; [apply Hz|by apply big_ok_ne]. Qed.

Lemma addsub_spec x y s :
  big_ok x → trimmed (digits x) → canon y →
  ∃ z, (y ← to_big y; z ← bigadd x y s; bignorm z) = Ok z ∧ canon z ∧
    nval z = if s then bigval x + nval y else bigval x - nval y.
Proof.
  intros Hx Htx Hy. destruct (to_big_spec y Hy) as (b & -> & Hb & Hbo & Htb). cbn [mbind res_bind].
  destruct (bigadd_spec x b s Hx Hbo) as (z & -> & Hz & Hzo).
  { intros _. apply trimmed_comparable; [apply Hx|apply Hbo|done|done|apply Hx|apply Hbo]. }
  cbn [mbind res_bind]. destruct (norm_spec z Hzo) as (n & -> & Hn & Hc).
  exists n. split_and!; [done|done|]. rewrite Hn, Hz, Hb. done.
Qed.

Definition comp (a b : Z) : Z := match a ?= b with Lt => -1 | Eq => 0 | Gt => 1 end.

Lemma comp_lt a b : a < b → comp a b = -1.
Proof. unfold comp. by intros ->%Z.compare_lt_iff. Qed.
Lemma comp_gt a b : b < a → comp a b = 1.
Proof. unfold comp. by intros ->%Z.compare_gt_iff. Qed.
Lemma comp_eq a b : a = b → comp a b = 0.
Proof. unfold comp. by intros ->%Z.compare_eq_iff. Qed.
Lemma comp_opp a b : comp (- a) (- b) = - comp a b.
Proof. unfold comp. rewrite Z.compare_opp, Z.compare_antisym. by destruct (a ?= b). Qed.

(** The comparison of two numbers of the same sign. *)
Lemma cmp_magnitudes (s : bool) xs ys :
  ok xs → ok ys → trimmed xs → trimmed ys → 0 < zlen xs → 0 < zlen ys →
  (if zlen xs <? zlen ys then Ok (if s then -1 else 1) else
   if zlen ys <? zlen xs then Ok (if s then 1 else -1) else
   o ← cmp_digits (length xs) xs ys;
   match o with
   | None => Ok 0
   | Some (a, b) => Ok (if b <? a then (if s then 1 else -1) else (if s then -1 else 1))
   end) = Ok (if s then comp (bval xs) (bval ys) else - comp (bval xs) (bval ys)).
Proof.
  intros Hx Hy Htx Hty Hlx Hly. destruct (Z.ltb_spec (zlen xs) (zlen ys)).
  { rewrite comp_lt by (apply trimmed_lt; [done..|lia]). by destruct s. }
  destruct (Z.ltb_spec (zlen ys) (zlen xs)).
  { rewrite comp_gt by (apply trimmed_lt; [done..|lia]). by destruct s. }
  destruct (cmp_digits_spec (length xs) xs ys) as (o & -> & Ho); [done|done|unfold zlen in *; lia..|].
  change (Z.of_nat (length xs)) with (zlen xs) in Ho. rewrite <- bval_seg in Ho.
  replace (seg ys 0 (zlen xs)) with (bval ys) in Ho by (rewrite bval_seg; f_equal; lia).
  cbn [mbind res_bind]. destruct o as [[p q]|].
  - destruct Ho as (Hne & Hlt & Hgt). destruct (Z.ltb_spec q p).
    + rewrite comp_gt by auto. by destruct s.
    + rewrite comp_lt by (apply Hlt; lia). by destruct s.
  - rewrite comp_eq by done. by destruct s.
Qed.

(** The operand of a comparison: zero is positive. *)
Lemma to_big_signed y :
  canon y → ∃ b, to_big y = Ok b ∧ bigval b = nval y ∧ big_ok b ∧ trimmed (digits b) ∧
    (sign b = false → bigval b < 0).
Proof.
  intros Hy. destruct (to_big_spec y Hy) as (b & E & Hb & Hbo & Hbt). exists b. split_and!; try done.
  intros Hs. destruct y as [n|b']; cbn [canon to_big nval] in *.
  - rewrite FIXNUM_MAX_val, FIXNUM_MIN_val in Hy. rewrite rb_int2big_spec in E by (unfold LONG_MIN, LONG_MAX; lia).
    injection E as <-. cbn in Hs. destruct (Z.ltb_spec n 0); [lia|done].
  - injection E as <-. destruct Hy as (_ & _ & _ & Hnf). rewrite FIXNUM_MAX_val, FIXNUM_MIN_val in Hnf.
    unfold bigval in *. rewrite Hs in *. pose proof (bval_bound _ (bo_ok _ Hbo)). lia.
Qed.

(** What the code relies on for a bignum operand: digits in range, no leading
    zeros, no negative zero.  A canonical bignum has this form, and so has a
    fixnum converted by [rb_int2big]. *)
Record wf_big (x : big) : Prop := {
  wb_ok : big_ok x;
  wb_trimmed : trimmed (digits x);
  wb_sign : sign x = false → bigval x < 0
}.

Lemma canon_wf x : canon (Bignum x) → wf_big x.
Proof.
  intros Hx. destruct (to_big_signed (Bignum x) Hx) as (x' & Ex & _ & Hxo & Htx & Hxs). injection Ex as <-. by split.
Qed.

Lemma wf_big_nonzero x : wf_big x → sign x = false → bval (digits x) ≠ 0.
Proof. intros Hx E. pose proof (wb_sign _ Hx E) as H. unfold bigval in H. rewrite E in H. lia. Qed.

Lemma int2big_wf n :
  LONG_MIN ≤ n ≤ LONG_MAX → ∃ b, rb_int2big n = Ok b ∧ wf_big b ∧ bigval b = n ∧ zlen (digits b) = 1.
Proof.
  intros Hn. eexists. split; [by apply rb_int2big_spec|]. unfold LONG_MIN, LONG_MAX in Hn.
  assert (bigval (mkBig (negb (n <? 0)) [Z.abs n]) = n) as Ev
    by (unfold bigval; cbn [sign digits bval]; destruct (Z.ltb_spec n 0); cbn [negb]; lia).
  split_and!; [|done|done]. split; [split; [apply ok_single; rewrite BIGRAD_val; lia|done]|apply trimmed_single|].
  intros E. rewrite Ev. cbn [sign] in E. destruct (Z.ltb_spec n 0); [done|discriminate].
Qed.

Lemma rb_big_cmp_spec x y :
  wf_big x → canon y → rb_big_cmp x y = Ok (comp (bigval x) (nval y)).
Proof.
  intros [[Hx' Hlx] Htx Hxs] Hy. unfold rb_big_cmp. destruct (to_big_signed y Hy) as (b & -> & <- & [Hb Hlb] & Htb & Hbs).
  cbn [mbind res_bind]. unfold RBIGNUM_LEN. pose proof (bval_bound _ Hx'). pose proof (bval_bound _ Hb).
  rewrite (cmp_magnitudes (sign x)) by done. unfold bigval in *.
  destruct (sign x), (sign b); cbn [negb andb];
    [done| |by rewrite comp_lt by (specialize (Hxs eq_refl); lia)|by rewrite comp_opp].
  by rewrite comp_gt by (specialize (Hbs eq_refl); lia).
Qed.
End operands.

(** ** Canonical numbers are equal if their values are *)

Lemma bval_inj xs ys : ok xs → ok ys → zlen xs = zlen ys → bval xs = bval ys → xs = ys.
Proof.
  revert ys. induction xs as [|x xs IH]; intros [|y ys] Hx Hy Hl Hv; [done|..];
    rewrite ?zlen_nil, ?zlen_cons in Hl; [pose proof (zlen_nonneg ys); lia|pose proof (zlen_nonneg xs); lia|].
  apply ok_cons in Hx as [Hdx Hx]. apply ok_cons in Hy as [Hdy Hy]. cbn [bval] in Hv.
  pose proof (bval_bound xs Hx). pose proof (bval_bound ys Hy). pose proof BIGRAD_pos.
  assert (bval xs = bval ys) as E by nia. f_equal; [nia|]. apply IH; [done|done|lia|done].
Qed.

Lemma trimmed_inj xs ys :
  ok xs → ok ys → trimmed xs → trimmed ys → 0 < zlen xs → 0 < zlen ys → bval xs = bval ys → xs = ys.
Proof.
  intros Hx Hy Htx Hty Hlx Hly Hv. apply bval_inj; [done..| |done].
  destruct (decide (zlen xs < zlen ys)); [pose proof (trimmed_lt xs ys Hx Hy Hty); lia|].
  destruct (decide (zlen ys < zlen xs)); [pose proof (trimmed_lt ys xs Hy Hx Htx); lia|]. lia.
Qed.

Lemma canon_unique a b : canon a → canon b → nval a = nval b → a = b.
Proof.
  intros Ha Hb E. destruct a as [n|x], b as [m|y]; cbn [canon nval] in *; [by subst| | |].
  - subst n. by destruct Hb as (_ & _ & _ & []).
  - subst m. by destruct Ha as (_ & _ & _ & []).
  - destruct Ha as (Hx & Htx & Hlx & Hnx), Hb as (Hy & Hty & Hly & Hny). rewrite FIXNUM_MIN_val, FIXNUM_MAX_val in *.
    pose proof (bval_bound _ Hx). pose proof (bval_bound _ Hy). f_equal. destruct x as [sx dx], y as [sy dy]. unfold bigval in *.
    cbn [sign digits] in *. assert (sx = sy) as -> by (destruct sx, sy; try done; lia).
    f_equal. apply trimmed_inj; [done..|]. destruct sy; lia.
Qed.
