(* ===== verification/BigMul.v ===== *)
(** * bignum.c: multiplication

    [bigmul1] is the schoolbook algorithm: one row for each digit of the first
    factor, added into the product in place. *)

From S2P Require Import Prelude Big BigVal BigAdd.

(** Rewriting a window of [m] digits from [o] changes the number by the change
    of the window, scaled. *)
Lemma seg_window zs zs' o m L :
  0 ≤ o → 0 ≤ m → o + m ≤ L → (∀ j, ¬ (o ≤ j < o + m) → dg zs' j = dg zs j) →
  seg zs' 0 L = seg zs 0 L + BIGRAD ^ o * (seg zs' o m - seg zs o m).
Proof.
  intros Ho Hm HL Hext. replace L with (o + (m + (L - o - m))) by lia.
  rewrite !(seg_app _ 0 o), !Z.add_0_l, !(seg_app _ o m) by lia.
  rewrite (seg_ext zs' zs 0 0 o) by (intros; apply Hext; lia).
  rewrite (seg_ext zs' zs (o + m) (o + m)) by (intros; apply Hext; lia). lia.
Qed.

(** Storing a digit that is already there. *)
Lemma store_same (zs : list Z) i v : dg zs i = v → 0 ≤ i < zlen zs → <[Z.to_nat i := v]> zs = zs.
Proof.
  intros <- Hi. apply list_insert_id. unfold dg, zlookup.
  rewrite (proj2 (Z.leb_le 0 i)) by lia.
  destruct (lookup_lt_is_Some_2 zs (Z.to_nat i)) as [d Hd]; [unfold zlen in Hi; lia|]. by rewrite Hd.
Qed.

(** [if (ee) zds[i] = BIGLO(n);] is the unconditional store. *)
Lemma store_if zs i ee e :
  0 ≤ i < zlen zs → ok zs → (ee = 0 → e = 0) →
  (if ee =? 0 then Ok zs else astore zs i (BIGLO (dg zs i + e))) =
  Ok (<[Z.to_nat i := BIGLO (dg zs i + e)]> zs).
Proof.
  intros Hi Hok He. destruct (Z.eqb_spec ee 0) as [->|]; [|by rewrite astore_ok].
  rewrite He, Z.add_0_r, BIGLO_mod, Z.mod_small by (done || apply Hok). by rewrite store_same.
Qed.

Lemma mul_bound dd y n z :
  0 ≤ dd < BIGRAD → 0 ≤ y < BIGRAD → 0 ≤ n < BIGRAD → 0 ≤ z < BIGRAD →
  0 ≤ n + dd * y < BIGRAD * BIGRAD - (BIGRAD - 1) ∧ 0 ≤ z + (n + dd * y) < BIGRAD * BIGRAD.
Proof.
  intros. assert (0 ≤ dd * y ≤ (BIGRAD - 1) * (BIGRAD - 1)); [|lia].
  split; [nia|]. apply Z.mul_le_mono_nonneg; lia.
Qed.

Lemma mul_loop dd i ys zs k :
  0 ≤ dd < BIGRAD → ok ys → ok zs → 0 ≤ i → 0 ≤ k ≤ zlen ys → i + k ≤ zlen zs →
  returns (for_range 0 k (mul_step dd i ys) (0, zs)) (λ '(n, zds),
    0 ≤ n < BIGRAD ∧ ok zds ∧ zlen zds = zlen zs ∧
    seg zds i k + n * BIGRAD ^ k = seg zs i k + dd * seg ys 0 k ∧
    ∀ j, ¬ (i ≤ j < i + k) → dg zds j = dg zs j).
Proof.
  intros Hdd Hy Hz Hi Hk Hl. pose proof BIGRAD_pos as HB.
  apply (for_range_inv (λ k '(n, zds), 0 ≤ n < BIGRAD ∧ ok zds ∧ zlen zds = zlen zs ∧
    seg zds i k + n * BIGRAD ^ k = seg zs i k + dd * seg ys 0 k ∧
    ∀ j, ¬ (i ≤ j < i + k) → dg zds j = dg zs j)); [lia|rewrite !seg_0; split_and!; try done; lia|].
  intros j [n zds] Hj (Hn & Hok & Hlz & Hv & Hrest). cbn [mul_step]. rewrite !aload_dg by lia.
  cbn [mbind res_bind]. 
  destruct (mul_bound dd (dg ys j) n (dg zds (i + j)) Hdd (Hy j) Hn (Hok (i + j))) as [H1 H2].
  rewrite !u128_digits by (rewrite ?u128_digits; lia).
  rewrite store_if by (done || lia). cbn [mbind res_bind]. apply returns_ret.
  set (w := dg zds (i + j) + (n + dd * dg ys j)) in *.
  pose proof (BIGLO_range w). pose proof (BIGDN_bounds w 0 (BIGRAD - 1) ltac:(lia)).
  split_and!; [lia..|by apply ok_insert|by rewrite zlen_insert| |].
  - rewrite seg_insert_last, !(seg_S _ _ j), Z.add_0_l, pow_S by lia.
    pose proof (split_digit w (BIGRAD ^ j)). rewrite <- (Hrest (i + j)) by lia. unfold w in *. lia.
  - intros p Hp. rewrite dg_insert by lia. rewrite decide_False by lia. apply Hrest. lia.
Qed.

Lemma mul_row_spec dd i ys zs :
  0 ≤ dd < BIGRAD → ok ys → ok zs → 0 ≤ i → i + zlen ys < zlen zs → dg zs (i + zlen ys) = 0 →
  returns (mul_row dd i ys (zlen ys) zs) (λ zds,
    ok zds ∧ zlen zds = zlen zs ∧
    seg zds i (zlen ys + 1) = seg zs i (zlen ys + 1) + dd * bval ys ∧
    ∀ j, ¬ (i ≤ j < i + (zlen ys + 1)) → dg zds j = dg zs j).
Proof.
  intros Hdd Hy Hz Hi Hl H0. pose proof (zlen_nonneg ys). pose proof BIGRAD_pos. unfold mul_row.
  destruct (mul_loop dd i ys zs (zlen ys)) as ([n zds] & -> & Hn & Hok & Hlz & Hv & Hrest); [done..|lia|lia|].
  cbn [mbind res_bind]. rewrite (bval_seg ys), (seg_S zs), H0 by lia.
  destruct (Z.eqb_spec n 0) as [->|].
  - apply returns_ret. split_and!; [done|done| |intros; apply Hrest; lia].
    rewrite (seg_S zds), Hrest, H0 by lia. lia.
  - rewrite u64_small by (rewrite <- BIGRAD_val; lia). rewrite astore_ok by lia. apply returns_ret.
    split_and!; [by apply ok_insert|by rewrite zlen_insert| |].
    + rewrite seg_insert_last by lia. lia.
    + intros j Hj. rewrite dg_insert by lia. rewrite decide_False by lia. apply Hrest. lia.
Qed.

(** The loop that clears the product. *)
Lemma clear_loop zs :
  ok zs → 0 < zlen zs → returns (for_down (zlen zs - 1) 0 (λ j zds, astore zds j 0) zs) (λ zds,
    zlen zds = zlen zs ∧ ∀ i, dg zds i = 0).
Proof.
  intros Hok Hl. eapply returns_mono.
  - apply (for_down_inv (λ k zds, zlen zds = zlen zs ∧ ∀ i, k < i → dg zds i = 0)).
    + lia.
    + split; [done|]. intros i Hi. apply dg_out. lia.
    + intros k zds Hk [Hlz Hz]. rewrite astore_ok by lia. apply returns_ret. rewrite zlen_insert.
      split; [done|]. intros i Hi. rewrite dg_insert by lia. case_decide; [done|]. apply Hz. lia.
  - intros zds [Hlz Hz]. split; [done|]. intros i. destruct (decide (0 ≤ i)); [apply Hz; lia|].
    apply dg_out. lia.
Qed.

Lemma bigmul1_spec xs ys zs :
  ok xs → ok ys → ok zs → 0 < zlen xs → 0 < zlen ys → zlen zs = zlen xs + zlen ys + 1 →
  zlen zs < 2 ^ 31 →
  returns (bigmul1 xs ys zs) (λ zds, ok zds ∧ zlen zds = zlen zs ∧ bval zds = bval xs * bval ys).
Proof.
  intros Hx Hy Hz Hlx Hly Hlz Hint. pose proof BIGRAD_pos as HB. unfold bigmul1.
  rewrite !(s32_small (zlen _)), s32_small, <- Hlz by lia. rewrite (proj2 (Z.ltb_ge _ 0)) by lia.
  destruct (clear_loop zs Hz) as (z0 & -> & Hl0 & Hz0); [lia|]. cbn [mbind res_bind].
  eapply returns_mono.
  - apply (for_range_inv (λ k zds, ok zds ∧ zlen zds = zlen zs ∧
      seg zds 0 (zlen zs) = seg xs 0 k * bval ys ∧ ∀ j, k + zlen ys ≤ j → dg zds j = 0)).
    + lia.
    + split_and!; [intros i; rewrite Hz0; lia|done| |auto]. rewrite seg_0. apply seg_zero. auto.
    + intros k zds Hk (Hok & Hl & Hv & H0). rewrite aload_dg by lia. cbn [mbind res_bind].
      rewrite seg_S, Z.add_0_l by lia. destruct (Z.eqb_spec (dg xs k) 0) as [->|].
      * apply returns_ret. split_and!; [done|done|lia|]. intros j Hj. apply H0. lia.
      * eapply returns_mono.
        { apply mul_row_spec; [apply Hx|done|done|lia|lia|apply H0; lia]. }
        intros zds' (Hok' & Hl' & Hv' & Hrest). split_and!; [done|lia| |].
        -- rewrite (seg_window zds zds' k (zlen ys + 1)) by (done || lia). rewrite Hv, Hv'. lia.
        -- intros j Hj. rewrite Hrest by lia. apply H0. lia.
  - intros zds (Hok & Hl & Hv & _). split_and!; [done|done|]. rewrite (bval_seg zds), Hl, Hv. by rewrite <- bval_seg.
Qed.

Section operands.
Context `{J : Junk}.

(** [bigmul1] counts digits in [int]s. *)
Definition short (n : num) : Prop :=
  match n with Fixnum _ => True | Bignum b => zlen (digits b) < 2 ^ 30 end.

Lemma to_big_short y b : to_big y = Ok b → canon y → short y → zlen (digits b) < 2 ^ 30.
Proof.
  destruct y as [n|b']; cbn [to_big canon short]; intros E Hc Hs; [|by injection E as <-].
  rewrite FIXNUM_MIN_val, FIXNUM_MAX_val in Hc.
  rewrite rb_int2big_spec in E by (unfold LONG_MIN, LONG_MAX; lia). by injection E as <-.
Qed.

Lemma rb_big_mul0_big x y b :
  to_big y = Ok b → big_ok x → big_ok b → zlen (digits x) < 2 ^ 30 → zlen (digits b) < 2 ^ 30 →
  ∃ z, rb_big_mul0 x y = Ok z ∧ bigval z = bigval x * bigval b ∧ big_ok z ∧ sign z = Bool.eqb (sign x) (sign b).
Proof.
  intros Eb [Hx Hlx] [Hb Hlb] Hsx Hsb. unfold rb_big_mul0. rewrite Eb.
  cbn [mbind res_bind]. unfold bignew, RBIGNUM_LEN. cbn [sign digits].
  pose proof (zlen_fresh (zlen (digits x) + zlen (digits b) + 1) ltac:(lia)) as Hf.
  destruct (bigmul1_spec (digits x) (digits b) (fresh (zlen (digits x) + zlen (digits b) + 1)))
    as (zds & -> & Hok & Hl & Hv); [done..|apply ok_fresh|done|done|done|lia|].
  cbn [mbind res_bind]. eexists. split; [done|]. split_and!.
  - unfold bigval. cbn [sign digits]. rewrite Hv. destruct (sign x), (sign b); cbn; lia.
  - split; [done|cbn [digits]; lia].
  - done.
Qed.

Lemma rb_big_mul0_spec x y :
  big_ok x → canon y → zlen (digits x) < 2 ^ 30 → short y →
  ∃ z, rb_big_mul0 x y = Ok z ∧ bigval z = bigval x * nval y ∧ big_ok z.
Proof.
  intros Hx Hy Hsx Hsy. destruct (to_big_spec y Hy) as (b & Eb & <- & Hb & _).
  pose proof (to_big_short y b Eb Hy Hsy) as Hsb.
  destruct (rb_big_mul0_big x y b Eb Hx Hb Hsx Hsb) as (z & ? & ? & ? & _). by exists z.
Qed.

Lemma rb_big_mul_spec x y :
  big_ok x → canon y → zlen (digits x) < 2 ^ 30 → short y →
  ∃ z, rb_big_mul x y = Ok z ∧ nval z = bigval x * nval y ∧ canon z.
Proof.
  intros Hx Hy Hsx Hsy. unfold rb_big_mul. destruct (rb_big_mul0_spec x y Hx Hy Hsx Hsy) as (z & -> & <- & Hz).
  cbn [mbind res_bind]. by apply norm_spec.
Qed.
End operands.
