(* ===== verification/BigDiv.v ===== *)
(** * bignum.c: division

    [bigdivrem1] is Knuth's algorithm D.  With the divisor shifted so that its
    top digit has its top bit set, the quotient digit estimated from the two top
    digits of the window is never too small and at most two too large; the loop
    that adds the divisor back therefore runs at most twice. *)

From S2P Require Import Prelude Big BigVal BigAdd BigMul.

Lemma s128_u128 z e : s128 (z + u128 e) = s128 (z + e).
Proof.
  unfold s128, u128. f_equal. replace (z + e mod 2 ^ 128 + 2 ^ 127) with (e mod 2 ^ 128 + (z + 2 ^ 127)) by lia.
  rewrite Zplus_mod_idemp_l. f_equal. lia.
Qed.

Lemma u128_zero e : - BIGRAD * BIGRAD < e < BIGRAD * BIGRAD → u128 e = 0 → e = 0.
Proof.
  unfold u128. replace (- BIGRAD * BIGRAD) with (- (BIGRAD * BIGRAD)) by lia. rewrite BIGRAD_sq. intros He Hm.
  apply Z.mod_divide in Hm as [k ->]; [|done]. nia.
Qed.

(** ** One quotient digit *)

(** Multiply and subtract. *)
Lemma mulsub_loop q o ys zs k :
  0 ≤ q < BIGRAD → ok ys → ok zs → 0 ≤ o → 0 ≤ k ≤ zlen ys → o + k ≤ zlen zs →
  returns (for_range 0 k (mulsub_step ys q o) (0, 0, zs)) (λ '(num, t2, zds),
    -1 ≤ num ≤ 0 ∧ 0 ≤ t2 < BIGRAD ∧ ok zds ∧ zlen zds = zlen zs ∧
    seg zds o k + (num - t2) * BIGRAD ^ k = seg zs o k - q * seg ys 0 k ∧
    ∀ j, ¬ (o ≤ j < o + k) → dg zds j = dg zs j).
Proof.
  intros Hq Hy Hz Ho Hk Hl. pose proof BIGRAD_pos as HB.
  apply (for_range_inv (λ k '(num, t2, zds), -1 ≤ num ≤ 0 ∧ 0 ≤ t2 < BIGRAD ∧ ok zds ∧ zlen zds = zlen zs ∧
    seg zds o k + (num - t2) * BIGRAD ^ k = seg zs o k - q * seg ys 0 k ∧
    ∀ j, ¬ (o ≤ j < o + k) → dg zds j = dg zs j)); [lia|rewrite !seg_0; split_and!; try done; lia|].
  intros j [[num t2] zds] Hj (Hn & Ht & Hok & Hlz & Hv & Hrest). cbn [mulsub_step].
  rewrite !aload_dg by lia. cbn [mbind res_bind].
  destruct (mul_bound (dg ys j) q t2 (dg zds (o + j)) (Hy j) Hq Ht (Hok (o + j))) as [H1 H2].
  rewrite (u128_digits (t2 + dg ys j * q)) by lia. set (t := t2 + dg ys j * q) in *.
  pose proof (BIGLO_range t). pose proof (Hok (o + j)) as Hzj. pose proof (BIGDN_bounds t 0 (BIGRAD - 1) ltac:(lia)).
  rewrite s128_u128, s128_digits by lia.
  rewrite store_if; [|lia|done|intros He; apply u128_zero in He; [done|nia]]. cbn [mbind res_bind].
  apply returns_ret. set (w := dg zds (o + j) + (num - BIGLO t)) in *.
  pose proof (BIGLO_range w). pose proof (BIGDN_bounds w (-1) 0 ltac:(lia)).
  split_and!; [lia..|by apply ok_insert|by rewrite zlen_insert| |].
  - rewrite seg_insert_last, !(seg_S _ _ j), Z.add_0_l, pow_S by lia.
    pose proof (split_digit w (BIGRAD ^ j)). pose proof (split_digit t (BIGRAD ^ j)).
    rewrite <- (Hrest (o + j)) by lia. unfold w, t in *. lia.
  - intros p Hp. rewrite dg_insert by lia. rewrite decide_False by lia. apply Hrest. lia.
Qed.

(** Add back. *)
Lemma div_addback_spec ys ny j zs :
  ok ys → ok zs → 0 ≤ ny ≤ j → ny ≤ zlen ys → j < zlen zs →
  returns (div_addback ys ny j zs) (λ '(c, zds),
    0 ≤ c ≤ 1 ∧ ok zds ∧ zlen zds = zlen zs ∧
    seg zds (j - ny) ny + c * BIGRAD ^ ny = seg zs (j - ny) ny + seg ys 0 ny ∧
    ∀ p, ¬ (j - ny ≤ p < j) → dg zds p = dg zs p).
Proof.
  intros Hy Hz Hny Hly Hl. pose proof BIGRAD_pos as HB. unfold div_addback. set (o := j - ny).
  eapply returns_mono.
  - apply (for_range_inv (λ k '(c, zds), 0 ≤ c ≤ 1 ∧ ok zds ∧ zlen zds = zlen zs ∧
      seg zds o k + c * BIGRAD ^ k = seg zs o k + seg ys 0 k ∧
      ∀ p, ¬ (o ≤ p < o + k) → dg zds p = dg zs p)); [lia|rewrite !seg_0; split_and!; try done; lia|].
    intros k [c zds] Hk (Hc & Hok & Hlz & Hv & Hrest). cbn [addback_step].
    rewrite !aload_dg by lia. cbn [mbind res_bind]. pose proof (Hy k). pose proof (Hok (o + k)).
    rewrite (u128_digits (c + _)) by nia. rewrite s128_digits by lia.
    rewrite store_if by (done || lia). cbn [mbind res_bind]. apply returns_ret.
    set (w := dg zds (o + k) + (c + dg ys k)) in *.
    pose proof (BIGLO_range w). pose proof (BIGDN_bounds w 0 1 ltac:(lia)).
    split_and!; [lia..|by apply ok_insert|by rewrite zlen_insert| |].
    + rewrite seg_insert_last, !(seg_S _ _ k), Z.add_0_l, pow_S by lia.
      pose proof (split_digit w (BIGRAD ^ k)). rewrite <- (Hrest (o + k)) by lia. unfold w in *. lia.
    + intros p Hp. rewrite dg_insert by lia. rewrite decide_False by lia. apply Hrest. lia.
  - intros [c zds] (Hc & Hok & Hlz & Hv & Hrest). split_and!; try done; [lia..|]. intros p Hp. apply Hrest. lia.
Qed.

(** The corrections, for a window of value [W]. *)
Lemma div_correct_spec fuel ys ny j num q zs W :
  ok ys → ok zs → 0 ≤ ny ≤ j → ny ≤ zlen ys → j < zlen zs → -1 ≤ num ≤ 0 →
  0 ≤ W → 0 ≤ q < BIGRAD → seg zs (j - ny) ny + num * BIGRAD ^ ny = W - q * seg ys 0 ny →
  W - q * seg ys 0 ny < seg ys 0 ny → 0 ≤ W - (q - Z.of_nat fuel) * seg ys 0 ny →
  returns (div_correct (S fuel) ys ny j num q zs) (λ '(q', zds),
    0 ≤ q' < BIGRAD ∧ ok zds ∧ zlen zds = zlen zs ∧
    seg zds (j - ny) ny = W - q' * seg ys 0 ny ∧ seg zds (j - ny) ny < seg ys 0 ny ∧
    ∀ p, ¬ (j - ny ≤ p < j) → dg zds p = dg zs p).
Proof.
  intros Hy Hz Hny Hly Hl Hn HW Hq Hv Hlt Hge. revert num q zs Hz Hl Hn Hq Hv Hlt Hge.
  pose proof (seg_bound ys 0 ny Hy ltac:(lia)) as HY. set (Y := seg ys 0 ny) in *.
  induction fuel as [|fuel IH]; intros num q zs Hz Hl Hn Hq Hv Hlt Hge;
    pose proof (seg_bound zs (j - ny) ny Hz ltac:(lia)) as Hb; cbn [div_correct];
    (destruct (Z.eqb_spec num 0) as [->|Hne];
      [apply returns_ret; split_and!; try done; lia|]);
    assert (num = -1) as -> by lia; [lia|].
  assert (0 < q) by (destruct (decide (q = 0)) as [->|]; [lia|lia]).
  destruct (div_addback_spec ys ny j zs) as ([c zds] & -> & Hc & Hok & Hlz & Hv' & Hrest); [done..|].
  cbn [mbind res_bind]. fold Y in Hv'. rewrite u64_small by (rewrite <- BIGRAD_val; lia).
  eapply returns_mono.
  - apply (IH (c - 1) (q - 1) zds); [done|lia..].
  - intros [q' zds'] (? & ? & ? & ? & ? & Hrest'). split_and!; try done; [lia..|].
    intros p Hp. rewrite Hrest' by lia. apply Hrest. lia.
Qed.

(** The estimate. *)
Lemma div_estimate_spec ys zs ny j :
  ok ys → ok zs → 1 ≤ ny ≤ j → ny ≤ zlen ys → j < zlen zs →
  BIGRAD ≤ 2 * dg ys (ny - 1) → seg zs (j - ny) (ny + 1) < BIGRAD * seg ys 0 ny →
  ∃ q, div_estimate ys zs ny j = Ok q ∧ 0 ≤ q < BIGRAD ∧
    seg zs (j - ny) (ny + 1) - q * seg ys 0 ny < seg ys 0 ny ∧
    - BIGRAD ^ ny ≤ seg zs (j - ny) (ny + 1) - q * seg ys 0 ny.
Proof.
  intros Hy Hz Hny Hly Hl Htop HW. pose proof BIGRAD_pos as HB. unfold div_estimate.
  rewrite !aload_dg by lia. cbn [mbind res_bind].
  assert (seg ys 0 ny = seg ys 0 (ny - 1) + dg ys (ny - 1) * BIGRAD ^ (ny - 1)) as EY.
  { replace ny with (ny - 1 + 1) at 1 by lia. rewrite seg_S by lia. by rewrite Z.add_0_l. }
  assert (seg zs (j - ny) (ny + 1) = seg zs (j - ny) (ny - 1) +
    (dg zs (j - 1) + BIGRAD * dg zs j) * BIGRAD ^ (ny - 1)) as EW.
  { rewrite seg_S by lia. replace ny with (ny - 1 + 1) at 2 by lia. rewrite seg_S by lia.
    replace (j - ny + (ny - 1)) with (j - 1) by lia. replace (j - ny + ny) with j by lia.
    replace (BIGRAD ^ ny) with (BIGRAD * BIGRAD ^ (ny - 1)) by (rewrite <- pow_S by lia; f_equal; lia). lia. }
  assert (BIGRAD ^ ny = BIGRAD * BIGRAD ^ (ny - 1)) as EP by (rewrite <- pow_S by lia; f_equal; lia).
  pose proof (seg_bound ys 0 (ny - 1) Hy ltac:(lia)) as Hyl. pose proof (seg_bound zs (j - ny) (ny - 1) Hz ltac:(lia)) as Hzl.
  rewrite EP. set (P := BIGRAD ^ (ny - 1)) in *. set (yt := dg ys (ny - 1)) in *. set (W := seg zs (j - ny) (ny + 1)) in *.
  set (yl := seg ys 0 (ny - 1)) in *. set (wl := seg zs (j - ny) (ny - 1)) in *. rewrite EY in *.
  pose proof (Hy (ny - 1)) as Hyt. pose proof (Hz j) as Hz1. pose proof (Hz (j - 1)) as Hz0. fold yt in Hyt.
  set (z1 := dg zs j) in *. set (z0 := dg zs (j - 1)) in *. assert (0 < P) by lia.
  destruct (Z.eqb_spec z1 yt) as [E|Hne].
  - eexists. split; [done|]. split; [lia|]. rewrite E in EW. split; nia.
  - assert (z1 < yt) as Hlt.
    { destruct (decide (z1 < yt)); [done|exfalso]. assert (yt + 1 ≤ z1) by lia.
      assert ((yt + 1) * (BIGRAD * P) ≤ z1 * (BIGRAD * P)) by (apply Z.mul_le_mono_nonneg_r; nia). nia. }
    rewrite BIGUP_mul by done. rewrite u128_digits by nia. rewrite cdiv_ok by lia. cbn [mbind res_bind].
    assert (0 ≤ (z1 * BIGRAD + z0) / yt < BIGRAD) as Hq.
    { split; [apply Z.div_pos; nia|apply Z.div_lt_upper_bound; nia]. }
    rewrite u64_small by (rewrite <- BIGRAD_val; done). eexists. split; [done|]. split; [done|].
    pose proof (Z.div_mod (z1 * BIGRAD + z0) yt ltac:(lia)) as Hdm.
    pose proof (Z.mod_pos_bound (z1 * BIGRAD + z0) yt ltac:(lia)) as Hm.
    set (q := (z1 * BIGRAD + z0) / yt) in *. set (r := (z1 * BIGRAD + z0) mod yt) in *.
    assert (W - q * (yl + yt * P) = wl + r * P - q * yl) as EV.
    { rewrite EW. replace (z0 + BIGRAD * z1) with (yt * q + r) by lia. lia. }
    rewrite EV. split; [|nia]. assert (0 ≤ q * yl) by nia. assert (r * P + P ≤ yt * P) by nia. lia.
Qed.

Lemma div_step_spec ys ny j zs :
  ok ys → ok zs → 1 ≤ ny ≤ j → ny ≤ zlen ys → j < zlen zs →
  BIGRAD ≤ 2 * dg ys (ny - 1) → seg zs (j - ny) (ny + 1) < BIGRAD * seg ys 0 ny →
  returns (div_step ys ny j zs) (λ zds,
    ok zds ∧ zlen zds = zlen zs ∧
    seg zs (j - ny) (ny + 1) = dg zds j * seg ys 0 ny + seg zds (j - ny) ny ∧
    seg zds (j - ny) ny < seg ys 0 ny ∧ ∀ p, ¬ (j - ny ≤ p ≤ j) → dg zds p = dg zs p).
Proof.
  intros Hy Hz Hny Hly Hl Htop HW. pose proof BIGRAD_pos as HB. unfold div_step.
  destruct (div_estimate_spec ys zs ny j) as (q & -> & Hq & Hlt & Hge); [done..|]. cbn [mbind res_bind].
  pose proof (seg_bound zs (j - ny) (ny + 1) Hz ltac:(lia)) as HWb.
  assert (seg zs (j - ny) (ny + 1) = seg zs (j - ny) ny + dg zs j * BIGRAD ^ ny) as EW.
  { rewrite seg_S by lia. by replace (j - ny + ny) with j by lia. }
  set (W := seg zs (j - ny) (ny + 1)) in *. set (Y := seg ys 0 ny) in *.
  assert (BIGRAD ^ ny ≤ 2 * Y) as H2Y.
  { unfold Y. replace ny with (ny - 1 + 1) by lia. rewrite seg_S, pow_S, Z.add_0_l by lia.
    pose proof (seg_bound ys 0 (ny - 1) Hy ltac:(lia)). pose proof (pow_pos (ny - 1) ltac:(lia)). nia. }
  assert (returns (if q =? 0 then Ok (q, zs) else
     '(num, zds) ← div_mulsub ys ny j q zs;
     div_correct (S max_corrections) ys ny j num q zds) (λ '(q', zds),
       0 ≤ q' < BIGRAD ∧ ok zds ∧ zlen zds = zlen zs ∧ seg zds (j - ny) ny = W - q' * Y ∧
       seg zds (j - ny) ny < Y ∧ ∀ p, ¬ (j - ny ≤ p < j) → dg zds p = dg zs p))
    as ([q' zds] & -> & Hq' & Hok & Hlz & Hv & HR & Hrest).
  { destruct (Z.eqb_spec q 0) as [->|].
    - apply returns_ret. pose proof (seg_bound zs (j - ny) ny Hz ltac:(lia)). pose proof (Hz j).
      pose proof (pow_pos ny ltac:(lia)). pose proof (seg_bound ys 0 ny Hy ltac:(lia)) as HYb. fold Y in HYb.
      assert (dg zs j = 0) by nia. split_and!; try done; nia.
    - unfold div_mulsub.
      destruct (mulsub_loop q (j - ny) ys zs ny) as ([[num t2] z1] & -> & Hn & Ht & Hok1 & Hl1 & Hv1 & Hr1); [done..|lia|lia|lia|].
      cbn [mbind res_bind]. rewrite aload_dg by lia. cbn [mbind res_bind].
      replace (j - ny + ny) with j by lia. rewrite Hr1 by lia. pose proof (Hz j).
      rewrite s128_digits by lia. fold Y in Hv1.
      pose proof (seg_bound z1 (j - ny) ny Hok1 ltac:(lia)) as Hb1.
      pose proof (pow_pos ny ltac:(lia)). pose proof (seg_bound ys 0 ny Hy ltac:(lia)) as HYb. fold Y in HYb.
      set (n' := num + (dg zs j - t2)) in *.
      assert (seg z1 (j - ny) ny + n' * BIGRAD ^ ny = W - q * Y) as Hv2 by (unfold n'; lia).
      eapply returns_mono.
      + apply (div_correct_spec max_corrections ys ny j n' q z1 W); try done; try lia;
          change (Z.of_nat max_corrections) with 2; fold Y; [nia|lia].
      + intros [q' zds] (? & ? & ? & ? & ? & Hr2). split_and!; try done; try lia. intros p Hp.
        rewrite Hr2 by done. apply Hr1. lia. }
  cbn [mbind res_bind]. rewrite astore_ok by lia. apply returns_ret.
  split_and!; [by apply ok_insert|by rewrite zlen_insert|..].
  - rewrite dg_insert, decide_True by lia. rewrite seg_insert by lia. lia.
  - by rewrite seg_insert by lia.
  - intros p Hp. rewrite dg_insert by lia. rewrite decide_False by lia. apply Hrest. lia.
Qed.

(** ** The whole quotient *)

(** The digits from [top] down, [ny] at a time: those above [j] are the
    quotient so far. *)
Lemma div_loop ys ny zs top :
  ok ys → ok zs → 1 ≤ ny ≤ zlen ys → ny ≤ top → top < zlen zs →
  BIGRAD ≤ 2 * dg ys (ny - 1) → seg zs (top - ny) (ny + 1) < BIGRAD * seg ys 0 ny →
  returns (for_down top ny (div_step ys ny) zs) (λ zds,
    ok zds ∧ zlen zds = zlen zs ∧
    seg zs 0 (top + 1) = seg zds ny (top + 1 - ny) * seg ys 0 ny + seg zds 0 ny ∧
    seg zds 0 ny < seg ys 0 ny).
Proof.
  intros Hy Hz Hny Htop Hl Hyt HW. pose proof BIGRAD_pos as HB. set (Y := seg ys 0 ny) in *.
  eapply returns_mono.
  - apply (for_down_inv (λ j zds, ny - 1 ≤ j ∧ ok zds ∧ zlen zds = zlen zs ∧
      seg zs 0 (top + 1) = seg zds (j + 1) (top - j) * BIGRAD ^ (j + 1 - ny) * Y + seg zds 0 (j + 1) ∧
      seg zds (j - ny) (ny + 1) < BIGRAD * Y)).
    + lia.
    + rewrite Z.sub_diag, seg_0. split_and!; try done; lia.
    + intros j zds Hj (_ & Hok & Hlz & Hv & Hw).
      eapply returns_mono; [apply (div_step_spec ys ny j zds); (done || lia)|].
      intros zds' (Hok' & Hlz' & HV & HR & Hrest). fold Y in HV, HR.
      split_and!; [lia|done|lia|..].
      * rewrite Hv. replace (top - (j - 1)) with (1 + (top - j)) by lia. replace (j - 1 + 1) with j by lia.
        rewrite (seg_app zds' j 1), Z.pow_1_r by lia.
        rewrite (seg_ext zds' zds (j + 1) (j + 1)) by (intros; apply Hrest; lia).
        rewrite seg_1.
        replace (j + 1 - ny) with (j - ny + 1) by lia. rewrite pow_S by lia.
        replace (j + 1) with (j - ny + (ny + 1)) at 2 by lia. rewrite (seg_app zds 0), Z.add_0_l, HV by lia.
        assert (seg zds' 0 j = seg zds' 0 (j - ny) + BIGRAD ^ (j - ny) * seg zds' (j - ny) ny) as ->.
        { replace j with (j - ny + ny) at 1 by lia. rewrite seg_app by lia. by rewrite Z.add_0_l. }
        rewrite (seg_ext zds' zds 0 0) by (intros; apply Hrest; lia). lia.
      * replace (ny + 1) with (1 + ny) by lia. rewrite seg_app, Z.pow_1_r by lia.
        replace (j - 1 - ny + 1) with (j - ny) by lia.
        pose proof (seg_bound zds' (j - 1 - ny) 1 Hok' ltac:(lia)) as Hb. rewrite Z.pow_1_r in Hb. nia.
  - intros zds (_ & Hok & Hlz & Hv & Hw). split_and!; [done|done|..].
    + rewrite Hv. replace (ny - 1 + 1) with ny by lia. rewrite Z.sub_diag, Z.pow_0_r.
      replace (top - (ny - 1)) with (top + 1 - ny) by lia. lia.
    + replace (ny + 1) with (1 + ny) in Hw by lia. rewrite seg_app, Z.pow_1_r in Hw by lia.
      replace (ny - 1 - ny + 1) with 0 in Hw by lia.
      pose proof (seg_bound zds (ny - 1 - ny) 1 Hok ltac:(lia)). nia.
Qed.

(** ** Normalisation *)

Lemma norm_shift_spec fuel q dd :
  0 < q < BIGRAD → 2 ^ (64 - Z.of_nat fuel) ≤ q → (fuel ≤ 64)%nat →
  ∃ s, norm_shift fuel q dd = Ok (dd + s) ∧ 0 ≤ s < Z.of_nat fuel ∧ 2 ^ 63 ≤ q * 2 ^ s < BIGRAD.
Proof.
  revert q dd. induction fuel as [|fuel IH]; intros q dd Hq Hge Hf.
  { rewrite BIGRAD_val in Hq. replace (64 - Z.of_nat 0) with 64 in Hge by lia. lia. }
  cbn [norm_shift]. unfold BITSPERDIG. rewrite Z.shiftl_1_l.
  assert (Z.testbit q 63 = (2 ^ 63 <=? q)) as Hbit.
  { rewrite Z.testbit_eqb by lia. rewrite BIGRAD_val in Hq. destruct (Z.leb_spec (2 ^ 63) q).
    - replace (q / 2 ^ 63) with 1 by (apply Z.div_unique with (q - 2 ^ 63); lia). done.
    - by rewrite Z.div_small by lia. }
  assert (Z.land q (2 ^ 63) = 0 ↔ q < 2 ^ 63) as Hland.
  { split; intros H.
    - destruct (Z.leb_spec (2 ^ 63) q); [exfalso|done].
      assert (Z.testbit (Z.land q (2 ^ 63)) 63 = true) as Ht by (rewrite Z.land_spec, Hbit; done).
      by rewrite H in Ht.
    - apply Z.bits_inj'. intros i Hi. rewrite Z.land_spec, Z.bits_0, Z.pow2_bits_eqb by lia.
      destruct (Z.eqb_spec 63 i) as [<-|]; [|apply andb_false_r]. rewrite Hbit.
      destruct (Z.leb_spec (2 ^ 63) q); [lia|done]. }
  change (64 - 1) with 63. destruct (Z.eqb_spec (Z.land q (2 ^ 63)) 0) as [E|E].
  - apply Hland in E. rewrite Z.shiftl_mul_pow2, u64_small by lia.
    assert (0 < Z.of_nat fuel).
    { destruct fuel; [|lia]. change (2 ^ (64 - Z.of_nat 1)) with (2 ^ 63) in Hge. lia. }
    destruct (IH (q * 2 ^ 1) (dd + 1)) as (s & -> & Hs & Hb); [rewrite BIGRAD_val; lia| |lia|].
    + replace (64 - Z.of_nat fuel) with (Z.succ (64 - Z.of_nat (S fuel))) by lia. rewrite Z.pow_succ_r by lia. lia.
    + exists (s + 1). split; [f_equal; lia|]. split; [lia|]. rewrite Z.pow_add_r by lia. lia.
  - exists 0. rewrite Z.add_0_r, Z.mul_1_r. split; [done|]. split; [lia|]. split; [|lia].
    destruct (decide (q < 2 ^ 63)) as [H|]; [by apply Hland in H|lia].
Qed.

Lemma shift_digits_spec src n dd dst :
  ok src → ok dst → 0 ≤ n ≤ zlen src → n ≤ zlen dst → 0 ≤ dd < 64 →
  returns (shift_digits src n dd dst) (λ '(t2, zds),
    0 ≤ t2 < 2 ^ dd ∧ ok zds ∧ zlen zds = zlen dst ∧
    seg zds 0 n + t2 * BIGRAD ^ n = 2 ^ dd * seg src 0 n ∧ ∀ i, n ≤ i → dg zds i = dg dst i).
Proof.
  intros Hs Hd Hn Hl Hdd. pose proof BIGRAD_pos as HB. unfold shift_digits.
  assert (0 < 2 ^ dd) by (apply Z.pow_pos_nonneg; lia).
  assert (2 ^ dd < BIGRAD) by (rewrite BIGRAD_val; apply Z.pow_lt_mono_r; lia).
  apply (for_range_inv (λ n '(t2, zds), 0 ≤ t2 < 2 ^ dd ∧ ok zds ∧ zlen zds = zlen dst ∧
    seg zds 0 n + t2 * BIGRAD ^ n = 2 ^ dd * seg src 0 n ∧ ∀ i, n ≤ i → dg zds i = dg dst i)); [lia| |].
  { rewrite !seg_0. split_and!; try done; lia. }
  intros k [t2 zds] Hk (Ht & Hok & Hlz & Hv & Hrest). cbn [shift_step].
  rewrite aload_dg by lia. cbn [mbind res_bind]. pose proof (Hs k) as Hsk.
  rewrite Z.shiftl_mul_pow2 by lia. assert (0 ≤ dg src k * 2 ^ dd ≤ (BIGRAD - 1) * 2 ^ dd) by nia.
  rewrite (u128_digits (_ * _)) by nia. rewrite u128_digits by nia.
  rewrite astore_ok by lia. cbn [mbind res_bind]. apply returns_ret.
  set (w := t2 + dg src k * 2 ^ dd) in *.
  pose proof (BIGLO_range w). pose proof (BIGDN_bounds w 0 (2 ^ dd - 1) ltac:(lia)).
  split_and!; [lia..|by apply ok_insert|by rewrite zlen_insert| |].
  - rewrite insert_seg, seg_S, Z.add_0_l, pow_S by lia.
    pose proof (split_digit w (BIGRAD ^ k)). unfold w in *. lia.
  - intros i Hi. rewrite dg_insert by lia. rewrite decide_False by lia. apply Hrest. lia.
Qed.

(** The loop that copies the dividend. *)
Lemma copy_down_loop xs n zs :
  0 ≤ n ≤ zlen xs → n ≤ zlen zs → ok xs → ok zs →
  returns (for_down (n - 1) 0 (λ j zds, d ← aload xs j; astore zds j d) zs) (λ zds,
    ok zds ∧ zlen zds = zlen zs ∧ ∀ i, 0 ≤ i → dg zds i = if decide (i < n) then dg xs i else dg zs i).
Proof.
  intros Hn Hl Hx Hz. eapply returns_mono.
  - apply (for_down_inv (λ j zds, ok zds ∧ zlen zds = zlen zs ∧
      ∀ i, 0 ≤ i → dg zds i = if decide (j < i < n) then dg xs i else dg zs i)).
    + lia.
    + split_and!; [done|done|]. intros i Hi. by rewrite decide_False by lia.
    + intros j zds Hj (Hok & Hlz & Hv). rewrite aload_dg by lia. cbn [mbind res_bind].
      rewrite astore_ok by lia. apply returns_ret.
      split_and!; [by apply ok_insert|by rewrite zlen_insert|]. intros i Hi. rewrite dg_insert by lia.
      destruct (decide (j = i)) as [->|]; [by rewrite decide_True by lia|]. rewrite Hv by done.
      destruct (decide (j < i < n)); [rewrite decide_True by lia|rewrite decide_False by lia]; done.
  - intros zds (Hok & Hlz & Hv). split_and!; [done|done|]. intros i Hi. rewrite Hv by done.
    destruct (decide (i < n)); [rewrite decide_True by lia|rewrite decide_False by lia]; done.
Qed.

(** What the main loop of the division starts from. *)
Definition normalized (xs ys zs : list Z) (dd : Z) (ys' zs' : list Z) : Prop :=
  ok ys' ∧ ok zs' ∧ zlen ys' = zlen ys ∧ zlen zs' = zlen zs ∧
  bval ys' = 2 ^ dd * bval ys ∧ BIGRAD ≤ 2 * dg ys' (zlen ys - 1) ∧
  seg zs' 0 (zlen xs + 1) = 2 ^ dd * bval xs ∧ 0 ≤ dg zs' (zlen xs) < 2 ^ dd ∧
  ∀ i, zlen xs < i → dg zs' i = dg zs i.

(** The shifted divisor. *)
Lemma shifted_divisor ys ys' t dd :
  ok ys → ok ys' → 0 < zlen ys → zlen ys' = zlen ys → 0 ≤ dd < 64 → 0 ≤ t →
  2 ^ 63 ≤ dg ys (zlen ys - 1) * 2 ^ dd < BIGRAD →
  seg ys' 0 (zlen ys) + t * BIGRAD ^ zlen ys = 2 ^ dd * seg ys 0 (zlen ys) →
  bval ys' = 2 ^ dd * bval ys ∧ BIGRAD ≤ 2 * dg ys' (zlen ys - 1).
Proof.
  intros Hy Hy' Hl Hl' Hdd Ht Htop Hv. pose proof BIGRAD_pos as HB. rewrite !bval_seg, Hl'.
  set (n := zlen ys) in *. assert (n = n - 1 + 1) as En by lia.
  assert (∀ ds, seg ds 0 n = seg ds 0 (n - 1) + dg ds (n - 1) * BIGRAD ^ (n - 1)) as Es.
  { intros ds. rewrite En at 1. by rewrite seg_S, Z.add_0_l by lia. }
  assert (BIGRAD ^ n = BIGRAD * BIGRAD ^ (n - 1)) as EP by (rewrite <- pow_S by lia; by rewrite <- En).
  pose proof (seg_bound ys 0 (n - 1) Hy ltac:(lia)) as Hyl. pose proof (seg_bound ys' 0 (n - 1) Hy' ltac:(lia)) as Hyl'.
  rewrite !Es in *. rewrite EP in Hv. set (P := BIGRAD ^ (n - 1)) in *. set (y := dg ys (n - 1)) in *.
  pose proof (Hy' (n - 1)) as Hyt'. set (y' := dg ys' (n - 1)) in *.
  assert (0 < 2 ^ dd) by (apply Z.pow_pos_nonneg; lia). set (D := 2 ^ dd) in *.
  assert (BIGRAD = D * 2 ^ (64 - dd)) as ED.
  { unfold D. rewrite <- Z.pow_add_r, BIGRAD_val by lia. f_equal. lia. }
  assert (D * (y + 1) ≤ BIGRAD) as HDy.
  { rewrite ED. apply Z.mul_le_mono_nonneg_l; [lia|]. apply Z.le_succ_l, (Z.mul_lt_mono_pos_l D); lia. }
  clear ED. set (yl := seg ys 0 (n - 1)) in *. set (yl' := seg ys' 0 (n - 1)) in *.
  assert (D * (yl + y * P) < BIGRAD * P) as Hlt.
  { apply Z.lt_le_trans with (D * ((y + 1) * P)); [apply Z.mul_lt_mono_pos_l; lia|nia]. }
  assert (t = 0) as -> by nia. split; [lia|].
  assert (D * y * P ≤ yl' + y' * P) by nia. assert (D * y < y' + 1) by nia.
  pose proof BIGRAD_half. lia.
Qed.

Lemma div_normalize_spec xs ys zs dd :
  ok xs → ok ys → ok zs → 0 < zlen ys → zlen xs < zlen zs → 0 ≤ dd < 64 →
  2 ^ 63 ≤ dg ys (zlen ys - 1) * 2 ^ dd < BIGRAD →
  returns (div_normalize xs ys zs (zlen xs) (zlen ys) dd) (λ '(ys', zs'), normalized xs ys zs dd ys' zs').
Proof.
  intros Hx Hy Hz Hly Hlz Hdd Htop. pose proof BIGRAD_pos as HB. pose proof (zlen_nonneg xs). unfold div_normalize.
  destruct (Z.eqb_spec dd 0) as [->|].
  - rewrite astore_ok by lia. cbn [mbind res_bind]. set (z0 := <[_ := 0]> zs).
    assert (zlen z0 = zlen zs) as El0 by (unfold z0; by rewrite zlen_insert).
    destruct (copy_down_loop xs (zlen xs) z0) as (zs' & -> & Hok & Hl' & Hv); [lia|lia|done|by apply ok_insert; [|lia]|].
    cbn [mbind res_bind]. apply returns_ret. rewrite Z.pow_0_r, Z.mul_1_r in *.
    assert (dg zs' (zlen xs) = 0) as Htop0.
    { rewrite Hv, decide_False by lia. unfold z0. rewrite dg_insert by lia. by rewrite decide_True. }
    split_and!; try done; try lia.
    + pose proof BIGRAD_half. lia.
    + rewrite seg_S, Z.add_0_l, Htop0, bval_seg by lia. rewrite Z.mul_1_l, Z.mul_0_l, Z.add_0_r.
      apply seg_ext. intros i Hi. rewrite !Z.add_0_l, Hv, decide_True by lia. done.
    + intros i Hi. rewrite Hv, decide_False by lia. unfold z0. rewrite dg_insert by lia. by rewrite decide_False by lia.
  - destruct (shift_digits_spec ys (zlen ys) dd ys) as ([t ys'] & -> & Ht & Hok & Hl' & Hv & _); [done|done|lia|lia|lia|].
    cbn [mbind res_bind].
    destruct (shift_digits_spec xs (zlen xs) dd zs) as ([t' zs'] & -> & Ht' & Hok' & Hlz' & Hv' & Hrest);
      [done|done|lia|lia|lia|].
    cbn [mbind res_bind]. assert (2 ^ dd < 2 ^ 64) by (apply Z.pow_lt_mono_r; lia).
    rewrite u64_small, astore_ok by lia. cbn [mbind res_bind]. apply returns_ret.
    destruct (shifted_divisor ys ys' t dd) as [Hyv Hyt]; try done; try lia.
    split_and!; try done; rewrite ?zlen_insert; try lia.
    + apply ok_insert; [done|rewrite BIGRAD_val; lia].
    + rewrite insert_seg, bval_seg by lia. lia.
    + rewrite dg_insert, decide_True by lia. lia.
    + rewrite dg_insert, decide_True by lia. lia.
    + intros i Hi. rewrite dg_insert by lia. rewrite decide_False by lia. apply Hrest. lia.
Qed.

(** ** Shifting down *)

(** [BIGUP(p) | q] puts a digit above another. *)
Lemma lor_up p q : 0 ≤ p < BIGRAD → 0 ≤ q < BIGRAD → Z.lor (BIGUP p) q = p * BIGRAD + q.
Proof. intros Hp Hq. rewrite BIGUP_mul by done. rewrite BIGRAD_val in *. by apply lor_add. Qed.

(** One digit of the number [z + BIGRAD * T] shifted down: only the lowest digit
    of [T] matters. *)
Lemma unshift_digit dd z T :
  0 ≤ dd < 64 → 0 ≤ z < BIGRAD →
  (z + BIGRAD * T) / 2 ^ dd =
    BIGLO (Z.shiftr (Z.lor (BIGUP (T mod BIGRAD)) z) dd) + BIGRAD * (T / 2 ^ dd).
Proof.
  intros Hdd Hz. pose proof BIGRAD_pos as HB.
  rewrite lor_up by (done || (apply Z.mod_pos_bound; lia)).
  rewrite Z.shiftr_div_pow2, BIGLO_mod by lia. assert (0 < 2 ^ dd) by (apply Z.pow_pos_nonneg; lia).
  assert (BIGRAD = 2 ^ (64 - dd) * 2 ^ dd) as ED.
  { rewrite <- Z.pow_add_r, BIGRAD_val by lia. f_equal. lia. }
  set (D := 2 ^ dd) in *. set (E := 2 ^ (64 - dd)) in *.
  rewrite (Z.div_mod ((z + BIGRAD * T) / D) BIGRAD) by lia. rewrite Z.add_comm. f_equal.
  - rewrite (Z.div_mod T BIGRAD) at 1 by lia. set (c := T / BIGRAD). set (t := T mod BIGRAD).
    replace (z + BIGRAD * (BIGRAD * c + t)) with (t * BIGRAD + z + (BIGRAD * c * E) * D) by (rewrite ED; lia).
    rewrite Z.div_add by lia. replace (BIGRAD * c * E) with (c * E * BIGRAD) by lia. apply Z_mod_plus_full.
  - f_equal. rewrite Z.div_div by lia. rewrite (Z.mul_comm D), <- Z.div_div by lia. f_equal.
    rewrite Z.mul_comm, Z.div_add by lia. by rewrite Z.div_small.
Qed.

(** ** Quotient and remainder *)

Lemma div_quotient_spec zs n ny :
  ok zs → 0 ≤ n → 0 ≤ ny → n + ny ≤ zlen zs →
  returns (div_quotient zs n ny) (λ d, ok d ∧ zlen d = n ∧ bval d = seg zs ny n).
Proof.
  intros Hz Hn Hny Hl. unfold div_quotient.
  assert (returns (for_range 0 n (λ i zds, d ← aload zds (i + ny); astore zds i d) zs) (λ zds,
    ok zds ∧ zlen zds = zlen zs ∧ ∀ i, 0 ≤ i → dg zds i = if decide (i < n) then dg zs (ny + i) else dg zs i))
    as (zds & -> & Hok & Hlz & Hv).
  { refine (for_range_inv (λ k zds, ok zds ∧ zlen zds = zlen zs ∧
      ∀ i, 0 ≤ i → dg zds i = if decide (i < k) then dg zs (ny + i) else dg zs i) 0 n _ zs _ _ _); [lia| |].
    - split_and!; [done|done|]. intros i Hi. by rewrite decide_False by lia.
    - intros k zds Hk (Hok & Hlz & Hv). rewrite aload_dg by lia. cbn [mbind res_bind].
      rewrite astore_ok by lia. apply returns_ret. split_and!; [by apply ok_insert|by rewrite zlen_insert|].
      intros i Hi. rewrite dg_insert by lia. destruct (decide (k = i)) as [<-|].
      + rewrite decide_True, Hv by lia. rewrite Z.add_comm. by destruct (decide (ny + k < k)); [lia|].
      + rewrite Hv by lia. destruct (decide (i < k)); [rewrite decide_True by lia|rewrite decide_False by lia]; done. }
  cbn [mbind res_bind]. apply returns_ret. split_and!; [by apply ok_take|rewrite zlen_take; lia|].
  rewrite seg_take by lia. apply seg_ext. intros i Hi. rewrite Z.add_0_l, Hv, decide_True by lia. done.
Qed.

Lemma unshift_loop zs n dd :
  ok zs → 0 ≤ n ≤ zlen zs → 0 ≤ dd < 64 →
  returns (for_down (n - 1) 0 (unshift_step dd) (0, zs)) (λ '(_, zds),
    ok zds ∧ zlen zds = zlen zs ∧ seg zds 0 n = seg zs 0 n / 2 ^ dd).
Proof.
  intros Hz Hn Hdd. pose proof BIGRAD_pos as HB. eapply returns_mono.
  - apply (for_down_inv (λ k '(t2, zds), ok zds ∧ zlen zds = zlen zs ∧
      t2 = BIGUP (seg zs (k + 1) (n - 1 - k) mod BIGRAD) ∧
      seg zds (k + 1) (n - 1 - k) = seg zs (k + 1) (n - 1 - k) / 2 ^ dd ∧
      ∀ i, i ≤ k → dg zds i = dg zs i)).
    + lia.
    + rewrite Z.sub_diag, !seg_0. rewrite Z.mod_0_l by lia. rewrite Z.div_0_l by lia.
      split_and!; [done|done| |done|done]. rewrite BIGUP_mul by lia. done.
    + intros k [t2 zds] Hk (Hok & Hlz & -> & Hv & Hrest). cbn [unshift_step].
      rewrite aload_dg by lia. cbn [mbind res_bind]. rewrite astore_ok by lia. cbn [mbind res_bind].
      apply returns_ret. rewrite Hrest by lia. replace (k - 1 + 1) with k by lia.
      replace (n - 1 - (k - 1)) with (1 + (n - 1 - k)) by lia.
      rewrite !(seg_app _ k 1), !seg_1, !Z.pow_1_r by lia.
      split_and!; [by apply ok_insert; [|apply BIGLO_range]|by rewrite zlen_insert|..].
      * f_equal. rewrite Z.mul_comm, Z_mod_plus_full, Z.mod_small by apply Hz. done.
      * rewrite dg_insert, decide_True, seg_insert, Hv by lia. symmetry. by apply unshift_digit.
      * intros i Hi. rewrite dg_insert by lia. rewrite decide_False by lia. apply Hrest. lia.
  - intros [t2 zds] (Hok & Hlz & _ & Hv & _). replace (n - 1 - (0 - 1)) with n in Hv by lia. done.
Qed.

Lemma div_remainder_spec zs ny dd r :
  ok zs → (0 < ny)%nat → Z.of_nat ny ≤ zlen zs → 0 ≤ dd < 64 →
  seg zs 0 (Z.of_nat ny) = 2 ^ dd * r →
  returns (div_remainder zs ny dd) (λ m, ok m ∧ 0 < zlen m ≤ Z.of_nat ny ∧ bval m = r).
Proof.
  intros Hz Hny Hl Hdd Hr. unfold div_remainder. assert (0 < 2 ^ dd) by (apply Z.pow_pos_nonneg; lia).
  destruct (trunc_len_spec ny zs) as (Ht & Hzero & _); [unfold zlen in Hl; lia|].
  set (t := trunc_len ny zs) in *.
  assert (seg zs 0 (Z.of_nat t) = 2 ^ dd * r) as Hv.
  { rewrite <- Hr. replace (Z.of_nat ny) with (Z.of_nat t + (Z.of_nat ny - Z.of_nat t)) by lia.
    rewrite seg_app by lia. rewrite (seg_zero zs (0 + _)) by (intros; apply Hzero; lia). lia. }
  assert (∀ zds, zlen zds = zlen zs → ok zds → seg zds 0 (Z.of_nat t) = r →
    ok (take t zds) ∧ 0 < zlen (take t zds) ≤ Z.of_nat ny ∧ bval (take t zds) = r) as Hfin.
  { intros zds Hlz Hok <-. rewrite <- (Nat2Z.id t) at 1 2 3 4. rewrite zlen_take.
    split_and!; [by apply ok_take|lia|lia|]. apply seg_take. lia. }
  destruct (Z.eqb_spec dd 0) as [->|]; cbn [mbind res_bind].
  - apply returns_ret. apply Hfin; [done|done|]. rewrite Hv. lia.
  - destruct (unshift_loop zs (Z.of_nat t) dd) as ([t2 zds] & -> & Hok & Hlz & Hv'); [done|lia|done|].
    cbn. apply returns_ret. apply Hfin; [done|done|]. rewrite Hv', Hv, Z.mul_comm. by apply Z.div_mul; lia.
Qed.

Lemma div_small_loop xs n dd :
  ok xs → 0 < dd < BIGRAD → 0 ≤ n ≤ zlen xs →
  returns (for_down (n - 1) 0 (div_small_step dd) (0, xs)) (λ '(r, zds),
    ok zds ∧ zlen zds = zlen xs ∧ seg xs 0 n = seg zds 0 n * dd + r ∧ 0 ≤ r < dd).
Proof.
  intros Hx Hdd Hn. pose proof BIGRAD_pos as HB. eapply returns_mono.
  - apply (for_down_inv (λ k '(r, zds), ok zds ∧ zlen zds = zlen xs ∧ 0 ≤ r < dd ∧
      seg xs (k + 1) (n - 1 - k) = seg zds (k + 1) (n - 1 - k) * dd + r ∧
      ∀ i, i ≤ k → dg zds i = dg xs i)).
    + lia.
    + rewrite Z.sub_diag, !seg_0. split_and!; try done; lia.
    + intros k [r zds] Hk (Hok & Hlz & Hr & Hv & Hrest). cbn [div_small_step].
      rewrite aload_dg by lia. cbn [mbind res_bind]. rewrite Hrest by lia. pose proof (Hx k) as Hxk.
      rewrite BIGUP_mul by lia. rewrite u128_digits by nia. rewrite cdiv_ok, cmod_ok by lia. cbn [mbind res_bind].
      set (w := r * BIGRAD + dg xs k). pose proof (Z.div_mod w dd ltac:(lia)) as Hdm.
      pose proof (Z.mod_pos_bound w dd ltac:(lia)) as Hm.
      assert (0 ≤ w / dd < BIGRAD) as Hq by (unfold w; split; [apply Z.div_pos; nia|apply Z.div_lt_upper_bound; nia]).
      rewrite u64_small by (rewrite <- BIGRAD_val; lia). rewrite astore_ok by lia. cbn [mbind res_bind].
      apply returns_ret. replace (k - 1 + 1) with k by lia.
      replace (n - 1 - (k - 1)) with (1 + (n - 1 - k)) by lia.
      rewrite !(seg_app _ k 1), !seg_1, !Z.pow_1_r by lia.
      split_and!; [by apply ok_insert|by rewrite zlen_insert|lia|lia|..].
      * rewrite dg_insert, decide_True, seg_insert, Hv by lia. fold w in Hdm. unfold w in *. lia.
      * intros i Hi. rewrite dg_insert by lia. rewrite decide_False by lia. apply Hrest. lia.
  - intros [r zds] (Hok & Hlz & Hr & Hv & _). replace (n - 1 - (0 - 1)) with n in Hv by lia. split_and!; try done; lia.
Qed.

Lemma div_small_spec xs dd :
  ok xs → 0 < dd < BIGRAD →
  returns (div_small xs dd) (λ '(r, zds),
    ok zds ∧ zlen zds = zlen xs ∧ bval xs = bval zds * dd + r ∧ 0 ≤ r < dd).
Proof.
  intros Hx Hdd. pose proof (zlen_nonneg xs) as Hn.
  eapply returns_mono; [apply (div_small_loop xs (zlen xs)); (done || lia)|].
  intros [r zds] (Hok & Hlz & Hv & Hr). rewrite !bval_seg, Hlz. split_and!; try done; lia.
Qed.

Lemma bigzero_p_spec x : ok (digits x) → bigzero_p x = bool_decide (bval (digits x) = 0).
Proof.
  intros Hok. unfold bigzero_p. induction (digits x) as [|d ds IH]; [done|]. cbn [forallb bval].
  apply ok_cons in Hok as [Hd Hok]. rewrite IH by done. pose proof (bval_bound ds Hok). pose proof BIGRAD_pos.
  destruct (Z.eqb_spec d 0) as [->|]; cbn [andb]; case_bool_decide; symmetry;
    (rewrite bool_decide_eq_true || rewrite bool_decide_eq_false); nia.
Qed.

Lemma BIGZEROP_spec x : big_ok x → BIGZEROP x = bool_decide (bval (digits x) = 0).
Proof.
  intros [Hok Hl]. unfold BIGZEROP. rewrite bigzero_p_spec by done. unfold RBIGNUM_LEN.
  destruct (digits x) as [|d ds]; [by rewrite zlen_nil in Hl|]. rewrite zlen_cons.
  apply ok_cons in Hok as [Hd Hok]. pose proof (bval_bound ds Hok). pose proof BIGRAD_pos. cbn [bval].
  destruct (Z.eqb_spec d 0) as [->|]; cbn [andb]; [|symmetry; rewrite bool_decide_eq_false; nia].
  destruct (Z.eqb_spec (1 + zlen ds) 1); cbn [orb]; [|done].
  assert (ds = []) as -> by (destruct ds; [done|rewrite zlen_cons in *; pose proof (zlen_nonneg ds); lia]).
  symmetry. rewrite bool_decide_eq_true. cbn [bval]. lia.
Qed.

Lemma top_len_spec ys : 0 < zlen ys → dg ys (zlen ys - 1) ≠ 0 → top_len (Z.to_nat (zlen ys)) ys = Ok (length ys).
Proof.
  intros Hl Ht. rewrite to_nat_zlen. destruct (length ys) as [|n] eqn:E; [unfold zlen in Hl; lia|]. cbn [top_len].
  assert (Z.of_nat n = zlen ys - 1) as -> by (unfold zlen; lia). rewrite aload_dg by lia. cbn [mbind res_bind].
  by rewrite (proj2 (Z.eqb_neq _ _)).
Qed.

(** A dividend shorter than the divisor, or with a smaller top digit. *)
Lemma top_smaller xs ys :
  ok xs → ok ys → 0 < zlen xs → zlen xs = zlen ys → dg xs (zlen xs - 1) < dg ys (zlen ys - 1) → bval xs < bval ys.
Proof.
  intros Hx Hy Hl E Hlt. rewrite !bval_seg, <- E in *. set (n := zlen xs) in *.
  replace n with (n - 1 + 1) by lia. rewrite !seg_S, !Z.add_0_l by lia.
  pose proof (seg_bound xs 0 (n - 1) Hx ltac:(lia)). pose proof (seg_bound ys 0 (n - 1) Hy ltac:(lia)). nia.
Qed.

Section operands.
Context `{J : Junk}.

(** What a division of magnitudes returns. *)
Definition divides (x y d m : big) : Prop :=
  big_ok d ∧ big_ok m ∧ bval (digits x) = bval (digits d) * bval (digits y) + bval (digits m) ∧
  bval (digits m) < bval (digits y) ∧ zlen (digits m) ≤ zlen (digits y) ∧ sign m = sign x ∧
  (sign d = Bool.eqb (sign x) (sign y) ∨ digits d = [0]).

(** The general case: a divisor of at least two digits. *)
Lemma div_long_spec x y :
  big_ok x → big_ok y → 1 < zlen (digits y) ≤ zlen (digits x) → dg (digits y) (zlen (digits y) - 1) ≠ 0 →
  let nx := zlen (digits x) in
  let ny := zlen (digits y) in
  let n := if nx =? ny then nx + 2 else nx + 1 in
  ∃ d m,
    (zds ← (if nx =? ny then astore (fresh n) (nx + 1) 0 else Ok (fresh n));
     ny' ← top_len (Z.to_nat ny) (digits y);
     q ← aload (digits y) (Z.of_nat ny' - 1);
     dd ← norm_shift (Z.to_nat BITSPERDIG) q 0;
     '(yds, zds) ← div_normalize (digits x) (digits y) zds nx (Z.of_nat ny') dd;
     zds ← bigdivrem1 nx (Z.of_nat ny') yds zds;
     d ← div_quotient zds ((if nx =? Z.of_nat ny' then nx + 2 else nx + 1) - Z.of_nat ny') (Z.of_nat ny');
     m ← div_remainder zds ny' dd;
     Ok (mkBig (Bool.eqb (sign x) (sign y)) d, mkBig (sign x) m)) = Ok (d, m) ∧ divides x y d m.
Proof.
  intros [Hx Hlx] [Hy Hly] Hl Htop nx ny n. pose proof BIGRAD_pos as HB. fold nx ny in Hlx, Hly, Hl, Htop.
  set (J' := if nx =? ny then nx + 1 else nx).
  assert (n = J' + 1 ∧ nx ≤ J' ≤ nx + 1) as [En HJ] by (unfold n, J'; destruct (Z.eqb_spec nx ny); lia).
  pose proof (zlen_fresh n ltac:(lia)) as Hf.
  assert (∃ z0, (if nx =? ny then astore (fresh n) (nx + 1) 0 else Ok (fresh n)) = Ok z0 ∧ ok z0 ∧ zlen z0 = n ∧
    (nx = ny → dg z0 (nx + 1) = 0)) as (z0 & -> & Hz0 & Hlz0 & Hz0top).
  { unfold J' in *. destruct (Z.eqb_spec nx ny).
    - rewrite astore_ok by lia. eexists. split; [done|]. split_and!; [apply ok_insert; [apply ok_fresh|lia]|by rewrite zlen_insert|].
      intros _. rewrite dg_insert by lia. by rewrite decide_True.
    - eexists. split; [done|]. split_and!; [apply ok_fresh|done|lia]. }
  cbn [mbind res_bind]. unfold ny at 1. rewrite top_len_spec by done. cbn [mbind res_bind].
  change (Z.of_nat (length (digits y))) with ny. rewrite aload_dg by lia. cbn [mbind res_bind].
  pose proof (Hy (ny - 1)) as Hyt.
  destruct (norm_shift_spec (Z.to_nat BITSPERDIG) (dg (digits y) (ny - 1)) 0) as (s & -> & Hs & Hnorm);
    [lia|change (64 - Z.of_nat (Z.to_nat BITSPERDIG)) with 0; lia|done|].
  change (Z.of_nat (Z.to_nat BITSPERDIG)) with 64 in Hs. cbn [mbind res_bind]. rewrite Z.add_0_l.
  destruct (div_normalize_spec (digits x) (digits y) z0 s) as ([ys' zs'] & E & Hnd); [done..|lia|lia|done|].
  fold nx ny in E. rewrite E. cbn [mbind res_bind]. clear E.
  destruct Hnd as (Hy' & Hz' & Hly' & Hlz' & Hvy & Htop' & Hvz & Hdz & Hrest). fold nx ny in Hly', Htop', Hvz, Hdz, Hrest.
  assert (bval ys' = seg ys' 0 ny) as EY by (by rewrite bval_seg, Hly').
  assert (0 < 2 ^ s ≤ 2 ^ 63) as H2s by (split; [apply Z.pow_pos_nonneg; lia|apply Z.pow_le_mono_r; lia]).
  assert (seg zs' 0 (J' + 1) = 2 ^ s * bval (digits x) ∧ dg zs' J' < 2 ^ 63) as [Hvz' Htopz].
  { unfold J' in *. destruct (Z.eqb_spec nx ny); [|split; [done|lia]].
    rewrite (seg_S zs' 0 (nx + 1)), Z.add_0_l, Hrest, Hz0top, Hvz by lia. lia. }
  assert (seg zs' (J' - ny) (ny + 1) < BIGRAD * seg ys' 0 ny) as Hw.
  { replace ny with (ny - 1 + 1) at 3 by lia. rewrite !seg_S, Z.add_0_l by lia.
    replace (J' - ny + ny) with J' by lia. pose proof (seg_bound zs' (J' - ny) ny Hz' ltac:(lia)).
    pose proof (seg_bound ys' 0 (ny - 1) Hy' ltac:(lia)). pose proof BIGRAD_half.
    replace (BIGRAD ^ ny) with (BIGRAD * BIGRAD ^ (ny - 1)) in * by (rewrite <- pow_S by lia; f_equal; lia).
    set (P := BIGRAD ^ (ny - 1)) in *. set (yt := dg ys' (ny - 1)) in *. set (zt := dg zs' J') in *.
    assert (zt + 1 ≤ yt) by lia. assert ((zt + 1) * (BIGRAD * P) ≤ yt * (BIGRAD * P)) by (apply Z.mul_le_mono_nonneg_r; nia).
    nia. }
  unfold bigdivrem1. fold J'.
  destruct (div_loop ys' ny zs' J') as (z1 & -> & Hz1 & Hl1 & Hv1 & Hr1); [done|done|lia|lia|lia|done|done|].
  cbn [mbind res_bind]. fold n. rewrite Hvz', <- EY, Hvy in Hv1. rewrite <- EY, Hvy in Hr1.
  destruct (div_quotient_spec z1 (n - ny) ny) as (d & -> & Hd & Hld & Hvd); [done|lia..|]. cbn [mbind res_bind].
  replace (J' + 1 - ny) with (n - ny) in Hv1 by lia. rewrite <- Hvd in Hv1.
  destruct (div_remainder_spec z1 (length (digits y)) s (bval (digits x) - bval d * bval (digits y)))
    as (m & -> & Hm & Hlm & Hvm); [done|unfold ny, zlen in Hly; lia|change (Z.of_nat (length (digits y))) with ny; lia|lia|
      change (Z.of_nat (length (digits y))) with ny; lia|].
  cbn [mbind res_bind]. do 2 eexists. split; [done|]. change (Z.of_nat (length (digits y))) with ny in Hlm.
  split_and!; cbn [digits sign]; [split; cbn [digits]; [done|lia]|split; cbn [digits]; [done|lia]|lia| |lia|done|by left].
  rewrite Hvm. apply (Z.mul_lt_mono_pos_l (2 ^ s)); lia.
Qed.

Lemma bigdivrem_spec x y :
  big_ok x → big_ok y → trimmed (digits y) → bval (digits y) ≠ 0 →
  ∃ d m, bigdivrem x y = Ok (d, m) ∧ divides x y d m.
Proof.
  intros Hx Hy Hty Hnz. pose proof BIGRAD_pos as HB. unfold bigdivrem. rewrite BIGZEROP_spec by done.
  rewrite bool_decide_false by done. pose proof (bo_len _ Hx) as Hlx. pose proof (bo_len _ Hy) as Hly.
  pose proof (bval_bound _ (bo_ok _ Hy)) as Hby. pose proof (bval_bound _ (bo_ok _ Hx)) as Hbx.
  unfold RBIGNUM_LEN. set (nx := zlen (digits x)) in *. set (ny := zlen (digits y)) in *.
  assert (∃ s : bool, (if nx <? ny then Ok true else if nx =? ny then
      a ← aload (digits x) (nx - 1); b ← aload (digits y) (ny - 1); Ok (a <? b) else Ok false) = Ok s ∧
    if s then bval (digits x) < bval (digits y) ∧ nx ≤ ny else ny ≤ nx) as (s & -> & Hs).
  { destruct (Z.ltb_spec nx ny).
    { exists true. split; [done|]. split; [|lia]. apply trimmed_lt; [apply Hx|apply Hy|done|unfold nx, ny in *; lia]. }
    destruct (Z.eqb_spec nx ny) as [E|]; [|by exists false].
    rewrite !aload_dg by (unfold nx, ny in *; lia). cbn [mbind res_bind]. eexists. split; [done|].
    destruct (Z.ltb_spec (dg (digits x) (nx - 1)) (dg (digits y) (ny - 1))); [|lia].
    split; [|lia]. apply top_smaller; [apply Hx|apply Hy|done..]. }
  cbn [mbind res_bind]. destruct s.
  { rewrite rb_int2big_spec by done. cbn [mbind res_bind]. do 2 eexists. split; [done|].
    split_and!; cbn [digits]; [split; [apply ok_single; lia|done]|done|cbn; lia|apply Hs|apply Hs|done|by right]. }
  destruct (Z.eqb_spec ny 1) as [E1|]; [|apply div_long_spec; [done|done|unfold nx, ny in *; lia|by destruct Hty]].
  assert (digits y = [dg (digits y) 0]) as Ey.
  { destruct (digits y) as [|d [|d' ds]]; [done|done|]. unfold ny in E1. rewrite !zlen_cons in E1.
    pose proof (zlen_nonneg ds). lia. }
  pose proof (bo_ok _ Hy 0) as Hd. assert (bval (digits y) = dg (digits y) 0) as Ev by (rewrite Ey at 1; cbn; lia).
  rewrite aload_dg by (fold ny; lia). cbn [mbind res_bind].
  destruct (div_small_spec (digits x) (dg (digits y) 0) (bo_ok _ Hx)) as ([r zds] & -> & Hok & Hlz & Hv & Hr); [lia|].
  cbn [mbind res_bind]. rewrite u64_small, rb_uint2big_spec by (rewrite ?BIGRAD_val; rewrite BIGRAD_val in *; lia).
  cbn [mbind res_bind]. do 2 eexists. split; [done|].
  split_and!; cbn [digits sign set_sign]; [split; cbn; [done|fold nx in Hlz; lia]|
    split; cbn; [apply ok_single; lia|done]|cbn [bval]; rewrite Ev; lia|cbn [bval]; lia| |done|by left].
  rewrite zlen_cons, zlen_nil. fold ny. lia.
Qed.

(** ** Signed division *)

(** Truncated: the remainder has the sign of the dividend. *)
Lemma divides_rem x y d m :
  divides x y d m → big_ok x → bval (digits y) ≠ 0 → bigval m = Z.rem (bigval x) (bigval y).
Proof.
  intros (Hd & Hm & Hv & Hlt & _ & Hsm & _) Hx Hnz. unfold bigval. rewrite Hsm.
  pose proof (bval_bound _ (bo_ok _ Hd)). pose proof (bval_bound _ (bo_ok _ Hm)). pose proof (bval_bound _ (bo_ok _ Hx)).
  destruct (sign x), (sign y); rewrite ?Z.rem_opp_r, ?Z.rem_opp_l by lia;
    (apply Z.rem_unique with (bval (digits d)) || (f_equal; apply Z.rem_unique with (bval (digits d)))); lia.
Qed.

Lemma floor_unique a b q r :
  0 ≤ r < b ∨ b < r ≤ 0 → a = b * q + r → q = a / b ∧ r = a mod b.
Proof. intros Hr E. split; [by apply Z.div_unique with r|by apply Z.mod_unique with q]. Qed.

Lemma divides_floor x y d m :
  divides x y d m → bval (digits y) ≠ 0 →
  let adjust := negb (Bool.eqb (sign x) (sign y)) && negb (bool_decide (bval (digits m) = 0)) in
  (if adjust then bigval d - 1 else bigval d) = bigval x / bigval y ∧
  (if adjust then bigval m + bigval y else bigval m) = bigval x mod bigval y.
Proof.
  intros (Hd & Hm & Hv & Hlt & _ & Hsm & Hsd) Hnz. cbn [negb].
  assert (bigval d = if Bool.eqb (sign x) (sign y) then bval (digits d) else - bval (digits d)) as ->.
  { unfold bigval. destruct Hsd as [->|E]; [done|]. rewrite E. by destruct (sign d), (Bool.eqb _ _). }
  pose proof (bval_bound _ (bo_ok _ Hd)). pose proof (bval_bound _ (bo_ok _ Hm)).
  unfold bigval. rewrite Hsm. case_bool_decide as Hz; destruct (sign x), (sign y); cbn [Bool.eqb negb andb];
    (apply floor_unique; [lia|nia]).
Qed.

Lemma bigdivmod_spec x y :
  big_ok x → big_ok y → trimmed (digits y) → bval (digits y) ≠ 0 →
  ∃ d m, bigdivmod x y = Ok (d, m) ∧ big_ok d ∧ big_ok m ∧
    bigval d = bigval x / bigval y ∧ bigval m = bigval x mod bigval y.
Proof.
  intros Hx Hy Hty Hnz. unfold bigdivmod. destruct (bigdivrem_spec x y) as (d & m & -> & Hdm); [done..|].
  destruct (divides_floor x y d m Hdm Hnz) as [Hd Hm]. cbn [negb] in Hd, Hm.
  destruct Hdm as (Hdok & Hmok & Hv & Hlt & Hlm & Hsm & Hsd). cbn [mbind res_bind]. rewrite BIGZEROP_spec by done.
  destruct (Bool.eqb (sign x) (sign y)) eqn:Es, (bool_decide (bval (digits m) = 0)); cbn [negb andb] in *;
    try (by exists d, m). rewrite rb_int2big_spec by done. cbn [mbind res_bind].
  destruct (bigadd_spec d (mkBig (negb (1 <? 0)) [Z.abs 1]) false Hdok) as (d' & -> & Hvd & Hokd).
  - split; cbn; [apply ok_single; pose proof BIGRAD_pos; lia|done].
  - cbn [sign digits]. destruct Hsd as [->|E]; [done|]. intros _. rewrite E. split; intros; done.
  - cbn [mbind res_bind]. destruct (bigadd_spec m y true Hmok Hy) as (m' & -> & Hvm & Hokm).
    + intros _. split; intros; lia.
    + cbn [mbind res_bind]. exists d', m'. split_and!; [done|done|done|rewrite Hvd; done|by rewrite Hvm].
Qed.

Lemma div_frame {A} y (f : big → res A) (Q : A → Prop) :
  canon y → nval y ≠ 0 →
  (∀ b, bigval b = nval y → big_ok b → trimmed (digits b) → bval (digits b) ≠ 0 → returns (f b) Q) →
  returns (b ← to_big y; f b) Q.
Proof.
  intros Hy Hnz Hf. destruct (to_big_spec y Hy) as (b & -> & Hb & Hbo & Hbt). cbn [mbind res_bind].
  apply Hf; [done..|]. intros E. apply Hnz. rewrite <- Hb. unfold bigval. rewrite E. by destruct (sign b).
Qed.

Lemma rb_big_divmod_spec x y :
  big_ok x → canon y → nval y ≠ 0 →
  returns (rb_big_divmod x y) (λ '(d, m),
    canon d ∧ canon m ∧ nval d = bigval x / nval y ∧ nval m = bigval x mod nval y).
Proof.
  intros Hx Hy Hnz. apply div_frame; [done..|]. intros b <- Hb Hbt Hbz.
  destruct (bigdivmod_spec x b Hx Hb Hbt Hbz) as (d & m & -> & Hd & Hm & Hvd & Hvm). cbn [mbind res_bind].
  destruct (norm_spec d Hd) as (nd & -> & Hnd & ?). destruct (norm_spec m Hm) as (nm & -> & Hnm & ?).
  apply returns_ret. split_and!; congruence.
Qed.

Lemma rb_big_divide_spec x y :
  big_ok x → canon y → nval y ≠ 0 →
  returns (rb_big_divide x y) (λ d, canon d ∧ nval d = bigval x / nval y).
Proof.
  intros Hx Hy Hnz. apply div_frame; [done..|]. intros b <- Hb Hbt Hbz.
  destruct (bigdivmod_spec x b Hx Hb Hbt Hbz) as (d & m & -> & Hd & Hm & Hvd & Hvm). cbn [mbind res_bind].
  destruct (norm_spec d Hd) as (nd & -> & Hnd & ?). apply returns_ret. split_and!; congruence.
Qed.

Lemma rb_big_modulo_spec x y :
  big_ok x → canon y → nval y ≠ 0 →
  returns (rb_big_modulo x y) (λ d, canon d ∧ nval d = bigval x mod nval y).
Proof.
  intros Hx Hy Hnz. apply div_frame; [done..|]. intros b <- Hb Hbt Hbz.
  destruct (bigdivmod_spec x b Hx Hb Hbt Hbz) as (d & m & -> & Hd & Hm & Hvd & Hvm). cbn [mbind res_bind].
  destruct (norm_spec m Hm) as (nm & -> & Hnm & ?). apply returns_ret. split_and!; congruence.
Qed.

Lemma rb_big_remainder_spec x y :
  big_ok x → canon y → nval y ≠ 0 →
  returns (rb_big_remainder x y) (λ d, canon d ∧ nval d = Z.rem (bigval x) (nval y)).
Proof.
  intros Hx Hy Hnz. apply div_frame; [done..|]. intros b <- Hb Hbt Hbz.
  destruct (bigdivrem_spec x b Hx Hb Hbt Hbz) as (d & m & -> & Hdm). cbn [mbind res_bind].
  destruct (norm_spec m) as (nm & -> & Hn & ?); [apply Hdm|]. apply returns_ret. split; [done|].
  rewrite Hn. by apply (divides_rem x b d m).
Qed.

Lemma divide_by_zero x y : canon y → nval y = 0 → ∃ b, to_big y = Ok b ∧ bigdivrem x b = Err (Raise ZeroDivisionError).
Proof.
  intros Hy Hz. destruct (to_big_spec y Hy) as (b & -> & Hb & Hbo & Hbt). exists b. split; [done|].
  unfold bigdivrem. rewrite BIGZEROP_spec by done. rewrite bool_decide_true; [done|].
  rewrite Hz in Hb. unfold bigval in Hb. destruct (sign b); lia.
Qed.
End operands.
