(* ===== verification/BigBits.v ===== *)
(** * bignum.c: bitwise operations and shifts

    A negative number is brought to two's complement with as many digits as its
    magnitude has; above them an infinite row of ones is understood.  [ext] is
    that row as a number: a digit array of length [n] and sign [s] stands for
    [bval ds + BIGRAD^n * ext s]. *)

From S2P Require Import Prelude Big BigVal BigAdd BigMul BigDiv.

Definition ext (s : bool) : Z := if s then 0 else -1.
(** The digits of the infinite row. *)
Definition ext_digit (s : bool) : Z := if s then 0 else BIGRAD - 1.

Definition tval (s : bool) (ds : list Z) : Z := bval ds + BIGRAD ^ zlen ds * ext s.

(** ** Bit operations, digit by digit *)

Class Bitwise (f : Z → Z → Z) (op : bool → bool → bool) := {
  bw_spec : ∀ x y i, 0 ≤ i → Z.testbit (f x y) i = op (Z.testbit x i) (Z.testbit y i);
  bw_nonneg : ∀ x y, 0 ≤ x → 0 ≤ y → 0 ≤ f x y;
  bw_ff : op false false = false;
  bw_comm : ∀ x y, f x y = f y x
}.

#[global] Instance land_bitwise : Bitwise Z.land andb.
Proof. split; [intros; apply Z.land_spec|intros; rewrite Z.land_nonneg; lia|done|apply Z.land_comm]. Qed.
#[global] Instance lor_bitwise : Bitwise Z.lor orb.
Proof. split; [intros; apply Z.lor_spec|intros; by rewrite Z.lor_nonneg|done|apply Z.lor_comm]. Qed.
#[global] Instance lxor_bitwise : Bitwise Z.lxor xorb.
Proof. split; [intros; apply Z.lxor_spec|intros; rewrite Z.lxor_nonneg; lia|done|apply Z.lxor_comm]. Qed.

Lemma testbit_high x i n : 0 ≤ x < 2 ^ n → n ≤ i → Z.testbit x i = false.
Proof.
  intros Hx Hi. destruct (decide (0 ≤ n)) as [Hn|]; [|rewrite (Z.pow_neg_r 2 n) in Hx by lia; lia].
  assert (2 ^ n ≤ 2 ^ i) by (apply Z.pow_le_mono_r; lia).
  rewrite Z.testbit_eqb by lia. by rewrite Z.div_small by lia.
Qed.

Lemma testbit_digit a p i :
  0 ≤ a < BIGRAD → 0 ≤ i → Z.testbit (a + BIGRAD * p) i = if decide (i < 64) then Z.testbit a i else Z.testbit p (i - 64).
Proof.
  intros Ha Hi. rewrite BIGRAD_val in *. rewrite Z.add_comm, Z.mul_comm, <- lor_add, <- Z.shiftl_mul_pow2 by lia.
  rewrite Z.lor_spec. destruct (decide (i < 64)).
  - by rewrite Z.shiftl_spec_low by lia.
  - rewrite Z.shiftl_spec by lia. rewrite (testbit_high a i 64) by lia. apply orb_false_r.
Qed.

Section bitwise.
Context {f : Z → Z → Z} {op : bool → bool → bool} `{Hf : !Bitwise f op}.

Lemma bitwise_range a b : 0 ≤ a < BIGRAD → 0 ≤ b < BIGRAD → 0 ≤ f a b < BIGRAD.
Proof.
  intros Ha Hb. assert (0 ≤ f a b) by (apply bw_nonneg; lia). split; [done|]. rewrite BIGRAD_val in *.
  destruct (decide (f a b = 0)) as [->|]; [lia|]. apply Z.log2_lt_pow2; [lia|].
  destruct (decide (Z.log2 (f a b) < 64)); [done|exfalso].
  assert (Z.testbit (f a b) (Z.log2 (f a b)) = true) as Ht by (apply Z.bit_log2; lia).
  rewrite bw_spec in Ht by lia. rewrite !(testbit_high _ _ 64) in Ht by lia. by rewrite bw_ff in Ht.
Qed.

Lemma bitwise_digit a b p q :
  0 ≤ a < BIGRAD → 0 ≤ b < BIGRAD → f (a + BIGRAD * p) (b + BIGRAD * q) = f a b + BIGRAD * f p q.
Proof.
  intros Ha Hb. apply Z.bits_inj'. intros i Hi. rewrite bw_spec by done.
  rewrite !testbit_digit by (done || by apply bitwise_range). destruct (decide (i < 64)); by rewrite bw_spec by lia.
Qed.

Lemma bitwise_sum (a b : Z → Z) n p q :
  (∀ i, 0 ≤ a i < BIGRAD) → (∀ i, 0 ≤ b i < BIGRAD) →
  f (sum a n + BIGRAD ^ Z.of_nat n * p) (sum b n + BIGRAD ^ Z.of_nat n * q) =
  sum (λ i, f (a i) (b i)) n + BIGRAD ^ Z.of_nat n * f p q.
Proof.
  intros Ha Hb. revert p q. induction n as [|n IH]; intros p q; cbn [sum]; [by rewrite !Z.pow_0_r, !Z.mul_1_l, !Z.add_0_l|].
  rewrite Nat2Z.inj_succ, Z.pow_succ_r by lia. set (P := BIGRAD ^ Z.of_nat n) in *.
  set (k := Z.of_nat n) in *.
  replace (sum a n + a k * P + BIGRAD * P * p) with (sum a n + P * (a k + BIGRAD * p)) by lia.
  replace (sum b n + b k * P + BIGRAD * P * q) with (sum b n + P * (b k + BIGRAD * q)) by lia.
  rewrite IH, bitwise_digit by done. lia.
Qed.
End bitwise.

(** The digits of a number in two's complement, with those of the row above. *)
Definition tdigit (s : bool) (ds : list Z) (i : Z) : Z := if decide (i < zlen ds) then dg ds i else ext_digit s.

Lemma tdigit_range s ds i : ok ds → 0 ≤ tdigit s ds i < BIGRAD.
Proof. intros Hok. unfold tdigit, ext_digit. pose proof BIGRAD_pos. case_decide; [apply Hok|destruct s; lia]. Qed.

Lemma tdigit_sum s ds n :
  zlen ds ≤ Z.of_nat n → sum (tdigit s ds) n + BIGRAD ^ Z.of_nat n * ext s = tval s ds.
Proof.
  intros Hn. pose proof BIGRAD_pos as HB.
  assert (Z.of_nat (length ds) ≤ Z.of_nat n) as Hle by (unfold zlen in Hn; lia).
  replace n with (length ds + (n - length ds))%nat by lia. rewrite sum_app.
  assert (sum (tdigit s ds) (length ds) = bval ds) as ->.
  { rewrite bval_seg. unfold seg. rewrite to_nat_zlen. apply sum_ext. intros i Hi. unfold tdigit, zlen. by rewrite decide_True by lia. }
  unfold tval. change (Z.of_nat (length ds)) with (zlen ds). rewrite Nat2Z.inj_add. change (Z.of_nat (length ds)) with (zlen ds).
  pose proof (zlen_nonneg ds). rewrite Z.pow_add_r by lia.
  assert (sum (λ i, tdigit s ds (zlen ds + i)) (n - length ds) + BIGRAD ^ Z.of_nat (n - length ds) * ext s = ext s) as E; [|nia].
  induction (n - length ds)%nat as [|m IH]; cbn [sum]; [lia|].
  rewrite Nat2Z.inj_succ, Z.pow_succ_r by lia. unfold tdigit at 2. rewrite decide_False by lia.
  unfold ext, ext_digit in *. destruct s; lia.
Qed.

(** Into and out of two's complement. *)
Lemma twos_spec x :
  big_ok x → (sign x = false → bval (digits x) ≠ 0) →
  ∃ t, twos x = Ok t ∧ sign t = sign x ∧ big_ok t ∧ tval (sign t) (digits t) = bigval x ∧ zlen (digits t) = zlen (digits x).
Proof.
  intros Hx Hnz. unfold twos. destruct (sign x) eqn:Es.
  - exists x. split_and!; try done. unfold tval, bigval. rewrite Es. cbn [ext]. lia.
  - destruct (get2comp_spec x (bo_ok _ Hx) (big_ok_ne x Hx)) as (z & -> & Hs & Hok & Hne & Hv & Hl).
    rewrite decide_False in Hl by auto. exists z. pose proof (bo_len _ Hx). split_and!; [done|congruence|split; [done|lia]| |lia].
    unfold tval, bigval. rewrite Hs, Es, Hv. replace (zlen (digits z)) with (zlen (digits x)) by lia. cbn [ext]. lia.
Qed.

Lemma untwos_spec (s : bool) zs :
  ok zs → 0 < zlen zs →
  ∃ n, (z ← (if s then Ok (mkBig s zs) else get2comp (mkBig s zs)); bignorm z) = Ok n ∧ nval n = tval s zs ∧ canon n.
Proof.
  intros Hok Hl. destruct s; cbn [mbind res_bind].
  - destruct (norm_spec (mkBig true zs)) as (n & -> & Hn & ?); [by split|]. exists n. split_and!; try done.
    rewrite Hn. unfold bigval, tval. cbn. lia.
  - destruct (get2comp_spec (mkBig false zs)) as (z & -> & Hs & Hz & Hne & Hv & Hlz); [done|by apply zlen_pos_ne|].
    cbn [digits sign] in *. cbn [mbind res_bind].
    destruct (norm_spec z) as (n & -> & Hn & ?).
    { split; [done|]. case_decide; lia. }
    exists n. split_and!; try done. rewrite Hn. unfold bigval, tval. rewrite Hs, Hv. cbn [ext]. lia.
Qed.

(** ** And, or, exclusive or *)

Section operands.
Context `{J : Junk}.

Lemma canon_nonzero x : canon (Bignum x) → bval (digits x) ≠ 0.
Proof.
  intros (_ & _ & _ & Hn) E. apply Hn. rewrite FIXNUM_MIN_val, FIXNUM_MAX_val. unfold bigval. rewrite E. destruct (sign x); lia.
Qed.

(** The digits of both operands. *)
Lemma bitwise_loops (f : Z → Z → Z) (tail : Z → Z) ss ls :
  ok ss → ok ls → zlen ss ≤ zlen ls →
  (∀ a b, 0 ≤ a < BIGRAD → 0 ≤ b < BIGRAD → 0 ≤ f a b < BIGRAD) → (∀ b, 0 ≤ b < BIGRAD → 0 ≤ tail b < BIGRAD) →
  returns (zds ← for_range 0 (zlen ss) (λ i zds,
             a ← aload ss i; b ← aload ls i; astore zds i (f a b)) (fresh (zlen ls));
           for_range (zlen ss) (zlen ls) (λ i zds, b ← aload ls i; astore zds i (tail b)) zds)
    (λ zds, ok zds ∧ zlen zds = zlen ls ∧
      ∀ i, 0 ≤ i < zlen ls → dg zds i = if decide (i < zlen ss) then f (dg ss i) (dg ls i) else tail (dg ls i)).
Proof.
  intros Hs Hl Hle Hf Ht. pose proof (zlen_nonneg ss). pose proof (zlen_fresh (zlen ls) ltac:(lia)) as Hfr.
  eapply returns_bind_mono.
  - refine (for_range_inv (λ k zds, ok zds ∧ zlen zds = zlen ls ∧
      ∀ i, 0 ≤ i < k → dg zds i = f (dg ss i) (dg ls i)) 0 (zlen ss) _ _ _ _ _); [lia|split_and!; [apply ok_fresh|done|lia]|].
    intros k zds Hk (Hok & Hlz & Hv). rewrite !aload_dg by lia. cbn [mbind res_bind]. rewrite astore_ok by lia.
    apply returns_ret. split_and!; [apply ok_insert; auto|by rewrite zlen_insert|]. intros i Hi. rewrite dg_insert by lia.
    case_decide as Ei; [by rewrite Ei|]. apply Hv. lia.
  - intros z0 (Hok0 & Hl0 & Hv0).
    refine (for_range_inv (λ k zds, ok zds ∧ zlen zds = zlen ls ∧
      ∀ i, 0 ≤ i < k → dg zds i = if decide (i < zlen ss) then f (dg ss i) (dg ls i) else tail (dg ls i))
      (zlen ss) (zlen ls) _ _ _ _ _); [lia|split_and!; [done|done|]|].
    { intros i Hi. rewrite decide_True by lia. by apply Hv0. }
    intros k zds Hk (Hok & Hlz & Hv). rewrite !aload_dg by lia. cbn [mbind res_bind]. rewrite astore_ok by lia.
    apply returns_ret. split_and!; [apply ok_insert; auto|by rewrite zlen_insert|]. intros i Hi. rewrite dg_insert by lia.
    destruct (decide (k = i)) as [<-|]; [by rewrite decide_False by lia|]. apply Hv. lia.
Qed.

Lemma bitwise_spec f op tail zsign `{!Bitwise f op} x y :
  (∀ s b, 0 ≤ b < BIGRAD → tail s b = f (ext_digit s) b) →
  (∀ sx sy, f (ext sx) (ext sy) = ext (zsign sx sy)) →
  canon (Bignum x) → canon y →
  ∃ z, bitwise f tail zsign x y = Ok z ∧ nval z = f (bigval x) (nval y) ∧ canon z.
Proof.
  intros Htail Hsign Hx Hy. pose proof BIGRAD_pos as HB. unfold bitwise.
  destruct (to_big_signed y Hy) as (b & -> & <- & Hb & _ & Hbs). cbn [mbind res_bind].
  destruct (twos_spec b Hb) as (u & -> & Hsu & [Hu Hlu] & Hvu & _).
  { intros E. specialize (Hbs E). unfold bigval in Hbs. rewrite E in Hbs. lia. }
  cbn [mbind res_bind]. destruct (canon_big x Hx) as [Hxo _].
  destruct (twos_spec x Hxo) as (t & -> & Hst & [Ht Hlt] & Hvt & _); [intros _; by apply canon_nonzero|].
  cbn [mbind res_bind]. unfold RBIGNUM_LEN. rewrite <- Hvt, <- Hvu.
  set (p := if zlen (digits u) <? zlen (digits t) then (u, t) else (t, u)).
  assert (∃ s l, p = (s, l) ∧ ok (digits s) ∧ ok (digits l) ∧ zlen (digits s) ≤ zlen (digits l) ∧ 0 < zlen (digits l) ∧
    f (tval (sign t) (digits t)) (tval (sign u) (digits u)) = f (tval (sign s) (digits s)) (tval (sign l) (digits l)) ∧
    f (ext (sign s)) (ext (sign l)) = ext (zsign (sign t) (sign u))) as (s & l & -> & Hs & Hl & Hle & Hpos & -> & Hes).
  { unfold p. destruct (Z.ltb_spec (zlen (digits u)) (zlen (digits t))); do 2 eexists; (split; [done|]);
      split_and!; try done; try lia; [apply bw_comm|by rewrite bw_comm]. }
  destruct (bitwise_loops f (tail (sign s)) (digits s) (digits l)) as (zds & E & Hz & Hlz & Hv); [done..| | |].
  { intros. by apply bitwise_range. }
  { intros d Hd. rewrite Htail by done. apply bitwise_range; [|done]. unfold ext_digit. destruct (sign s); lia. }
  apply bind_ok in E as (z0 & E1 & E2). rewrite E1. cbn [mbind res_bind]. rewrite E2. cbn [mbind res_bind sign].
  destruct (untwos_spec (zsign (sign t) (sign u)) zds Hz) as (n & -> & Hn & Hc); [lia|].
  exists n. split_and!; [done| |done]. rewrite Hn.
  rewrite <- (tdigit_sum (sign s) (digits s) (length (digits l))), <- (tdigit_sum (sign l) (digits l) (length (digits l)))
    by (unfold zlen in *; lia).
  rewrite bitwise_sum by (intros; by apply tdigit_range). rewrite Hes. unfold tval. rewrite Hlz. f_equal.
  rewrite bval_seg. unfold seg. rewrite to_nat_zlen. replace (length zds) with (length (digits l)) by (unfold zlen in *; lia).
  apply sum_ext. intros i Hi. rewrite Z.add_0_l, Hv by (unfold zlen; lia). unfold tdigit.
  rewrite (decide_True (P := i < zlen (digits l))) by (unfold zlen; lia).
  destruct (decide (i < zlen (digits s))); [done|]. by apply Htail.
Qed.

Lemma land_ones_digit b : 0 ≤ b < BIGRAD → Z.land (BIGRAD - 1) b = b.
Proof. intros Hb. rewrite Z.land_comm. change (BIGLO b = b). rewrite BIGLO_mod. by apply Z.mod_small. Qed.

Lemma lor_ones_digit b : 0 ≤ b < BIGRAD → Z.lor (BIGRAD - 1) b = BIGRAD - 1.
Proof.
  intros Hb. pose proof (Z.add_lor_land (BIGRAD - 1) b) as E.
  rewrite land_ones_digit in E by done. lia.
Qed.

Lemma rb_big_and_spec x y :
  canon (Bignum x) → canon y → ∃ z, rb_big_and x y = Ok z ∧ nval z = Z.land (bigval x) (nval y) ∧ canon z.
Proof.
  intros Hx Hy. unfold rb_big_and. apply (bitwise_spec Z.land andb); [apply _| |by intros [] []|done|done].
  intros [] b Hb; cbn [ext_digit]; [by rewrite Z.land_0_l|by rewrite land_ones_digit].
Qed.

Lemma rb_big_or_spec x y :
  canon (Bignum x) → canon y → ∃ z, rb_big_or x y = Ok z ∧ nval z = Z.lor (bigval x) (nval y) ∧ canon z.
Proof.
  intros Hx Hy. unfold rb_big_or. apply (bitwise_spec Z.lor orb); [apply _| |by intros [] []|done|done].
  intros [] b Hb; cbn [ext_digit]; [by rewrite Z.lor_0_l|by rewrite lor_ones_digit].
Qed.

Lemma rb_big_xor_spec x y :
  canon (Bignum x) → canon y → ∃ z, rb_big_xor x y = Ok z ∧ nval z = Z.lxor (bigval x) (nval y) ∧ canon z.
Proof.
  intros Hx Hy. unfold rb_big_xor. apply (bitwise_spec Z.lxor xorb); [apply _| |by intros [] []|done|done].
  intros [] b Hb; cbn [ext_digit]; [by rewrite Z.lxor_0_l|by rewrite Z.lxor_comm].
Qed.

(** ** Complement *)

Lemma not_loop ds n :
  ok ds → 0 ≤ n ≤ zlen ds →
  returns (for_down (n - 1) 0 (λ i ds, d ← aload ds i; astore ds i (digit_not d)) ds) (λ zs,
    ok zs ∧ zlen zs = zlen ds ∧ seg zs 0 n = BIGRAD ^ n - 1 - seg ds 0 n).
Proof.
  intros Hok Hn. eapply returns_mono.
  - refine (for_down_inv (λ k zs, ok zs ∧ zlen zs = zlen ds ∧
      ∀ i, 0 ≤ i → dg zs i = if decide (k < i < n) then digit_not (dg ds i) else dg ds i) (n - 1) 0 _ ds _ _ _).
    + lia.
    + split_and!; [done|done|]. intros i Hi. by rewrite decide_False by lia.
    + intros k zs Hk (Hzs & Hl & Hv). rewrite aload_dg by lia. cbn [mbind res_bind]. rewrite astore_ok by lia.
      apply returns_ret. split_and!; [apply ok_insert; [done|by apply digit_not_range]|by rewrite zlen_insert|].
      intros i Hi. rewrite dg_insert by lia. destruct (decide (k = i)) as [<-|].
      * rewrite decide_True by lia. rewrite Hv by lia. by rewrite decide_False by lia.
      * rewrite Hv by done. destruct (decide (k < i < n)); [rewrite decide_True by lia|rewrite decide_False by lia]; done.
  - intros zs (Hzs & Hl & Hv). split_and!; [done|done|].
    rewrite <- (seg_not ds n) by (done || lia). apply seg_ext. intros i Hi. rewrite Hv by lia.
    rewrite decide_True by lia. unfold dg. unfold zlookup. rewrite (proj2 (Z.leb_le 0 (0 + i))) by lia.
    rewrite list_lookup_fmap. destruct (lookup_lt_is_Some_2 ds (Z.to_nat (0 + i))) as [d ->]; [unfold zlen in *; lia|]. done.
Qed.

Lemma rb_big_neg_spec x :
  canon (Bignum x) → ∃ z, rb_big_neg x = Ok z ∧ nval z = Z.lnot (bigval x) ∧ canon z.
Proof.
  intros Hx. destruct (canon_big x Hx) as [[Hok Hl] _]. pose proof (canon_nonzero x Hx) as Hnz. unfold rb_big_neg.
  destruct (twos_spec x) as (t & E & Hst & [Ht Hlt] & Hvt & Hlx); [by split|done|]. unfold twos in E. rewrite E.
  cbn [mbind res_bind]. unfold RBIGNUM_LEN. rewrite (proj2 (Z.eqb_neq _ 0)) by lia.
  destruct (not_loop (digits t) (zlen (digits x)) Ht) as (zs & -> & Hzs & Hlz & Hv); [lia|]. cbn [mbind res_bind].
  assert (tval (negb (sign x)) zs = Z.lnot (bigval x)) as Etv.
  { rewrite <- Hvt. unfold tval, Z.lnot. rewrite Hst, Hlz, !bval_seg, Hlz, Hlx, Hv. unfold ext. destruct (sign x); cbn; lia. }
  destruct (untwos_spec (negb (sign x)) zs Hzs) as (n & En & Hn & Hc); [lia|].
  exists n. rewrite <- Etv, <- Hn, Hst. split_and!; [|done|done]. rewrite <- En. by destruct (sign x).
Qed.

(** ** Shifts *)

Lemma lshift_loop xs s1 s2 zs :
  ok xs → ok zs → 0 ≤ s1 → 0 ≤ s2 < 64 → s1 + zlen xs < zlen zs →
  returns (for_range 0 (zlen xs) (lshift_step xs s1 s2) (0, zs)) (λ '(num, zds),
    0 ≤ num < 2 ^ s2 ∧ ok zds ∧ zlen zds = zlen zs ∧
    seg zds s1 (zlen xs) + num * BIGRAD ^ zlen xs = 2 ^ s2 * bval xs ∧
    ∀ i, ¬ (s1 ≤ i < s1 + zlen xs) → dg zds i = dg zs i).
Proof.
  intros Hx Hz Hs1 Hs2 Hl. pose proof BIGRAD_pos as HB. pose proof (zlen_nonneg xs). rewrite (bval_seg xs).
  assert (0 < 2 ^ s2) by (apply Z.pow_pos_nonneg; lia).
  assert (2 ^ s2 < BIGRAD) by (rewrite BIGRAD_val; apply Z.pow_lt_mono_r; lia).
  apply (for_range_inv (λ k '(num, zds), 0 ≤ num < 2 ^ s2 ∧ ok zds ∧ zlen zds = zlen zs ∧
    seg zds s1 k + num * BIGRAD ^ k = 2 ^ s2 * seg xs 0 k ∧ ∀ i, ¬ (s1 ≤ i < s1 + k) → dg zds i = dg zs i));
    [lia|rewrite !seg_0; split_and!; try done; lia|].
  intros k [num zds] Hk (Hn & Hok & Hlz & Hv & Hrest). cbn [lshift_step]. rewrite aload_dg by lia.
  cbn [mbind res_bind]. pose proof (Hx k). rewrite Z.shiftl_mul_pow2 by lia.
  assert (0 ≤ dg xs k * 2 ^ s2 ≤ (BIGRAD - 1) * 2 ^ s2) by nia. rewrite u128_digits by nia.
  rewrite Z.lor_comm, lor_add by lia. rewrite astore_ok by lia. cbn [mbind res_bind]. apply returns_ret.
  set (w := dg xs k * 2 ^ s2 + num) in *.
  pose proof (BIGLO_range w). pose proof (BIGDN_bounds w 0 (2 ^ s2 - 1) ltac:(lia)).
  split_and!; [lia..|by apply ok_insert|by rewrite zlen_insert| |].
  - rewrite seg_insert_last, seg_S, Z.add_0_l, pow_S by lia. pose proof (split_digit w (BIGRAD ^ k)). unfold w in *. lia.
  - intros i Hi. rewrite dg_insert by lia. rewrite decide_False by lia. apply Hrest. lia.
Qed.

Lemma zero_loop zs n :
  ok zs → 0 ≤ n ≤ zlen zs → returns (for_range 0 n (λ i zds, astore zds i 0) zs) (λ zds,
    ok zds ∧ zlen zds = zlen zs ∧ ∀ i, 0 ≤ i < n → dg zds i = 0).
Proof.
  intros Hz Hn. pose proof BIGRAD_pos as HB.
  apply (for_range_inv (λ k zds, ok zds ∧ zlen zds = zlen zs ∧ ∀ i, 0 ≤ i < k → dg zds i = 0));
    [lia|split_and!; [done|done|lia]|].
  intros k zds Hk (Hok & Hl & Hv). rewrite astore_ok by lia. apply returns_ret.
  split_and!; [apply ok_insert; [done|lia]|by rewrite zlen_insert|]. intros i Hi. rewrite dg_insert by lia.
  case_decide; [done|]. apply Hv. lia.
Qed.

Lemma shift_split shift : 0 ≤ shift → 2 ^ shift = BIGRAD ^ (shift / 64) * 2 ^ (shift mod 64).
Proof.
  intros Hs. pose proof (Z.div_mod shift 64 ltac:(lia)). pose proof (Z.mod_pos_bound shift 64 ltac:(lia)).
  pose proof (Z.div_pos shift 64 ltac:(lia) ltac:(lia)).
  rewrite BIGRAD_val, <- Z.pow_mul_r, <- Z.pow_add_r by lia. f_equal. lia.
Qed.

Lemma big_lshift_spec x shift :
  big_ok x → 0 ≤ shift → ∃ z, big_lshift x shift = Ok z ∧ nval z = Z.shiftl (bigval x) shift ∧ canon z.
Proof.
  intros [Hx Hl] Hs. pose proof BIGRAD_pos as HB. unfold big_lshift, BITSPERDIG, RBIGNUM_LEN.
  pose proof (Z.mod_pos_bound shift 64 ltac:(lia)) as Hs2. pose proof (Z.div_pos shift 64 ltac:(lia) ltac:(lia)) as Hs1.
  pose proof (shift_split shift Hs) as Esh. set (s1 := shift / 64) in *. set (s2 := shift mod 64) in *.
  set (n := zlen (digits x)) in *. pose proof (zlen_fresh (n + s1 + 1) ltac:(lia)) as Hf.
  destruct (zero_loop (fresh (n + s1 + 1)) s1) as (z0 & -> & Hz0 & Hl0 & Hv0); [apply ok_fresh|lia|]. cbn [mbind res_bind].
  destruct (lshift_loop (digits x) s1 s2 z0) as ([num z1] & E & Hnum & Hz1 & Hl1 & Hv1 & Hr1); [done|done|lia|lia|fold n; lia|].
  fold n in Hv1, Hr1, E. rewrite E. cbn [mbind res_bind]. rewrite astore_ok by lia. cbn [mbind res_bind].
  assert (2 ^ s2 < BIGRAD) by (rewrite BIGRAD_val; apply Z.pow_lt_mono_r; lia).
  rewrite BIGLO_mod, Z.mod_small by lia. set (z2 := <[_ := num]> z1).
  assert (zlen z2 = s1 + (n + 1)) as El2 by (unfold z2; rewrite zlen_insert; lia).
  destruct (norm_spec (mkBig (sign x) z2)) as (r & -> & Hr & Hc).
  { split; cbn [digits]; [apply ok_insert; [done|lia]|lia]. }
  exists r. split_and!; [done| |done]. rewrite Hr, Z.shiftl_mul_pow2, Esh by lia.
  assert (bval z2 = BIGRAD ^ s1 * (2 ^ s2 * bval (digits x))) as Ev.
  { rewrite bval_seg, El2, seg_app, Z.add_0_l by lia. rewrite (seg_zero z2).
    - unfold z2. rewrite seg_insert_last by lia. rewrite Hv1. lia.
    - intros i Hi. unfold z2. rewrite dg_insert by lia. rewrite decide_False by lia. rewrite Hr1 by lia. apply Hv0. lia. }
  unfold bigval. cbn [sign digits]. rewrite Ev. destruct (sign x); lia.
Qed.

Lemma rshift_loop s xs s1 s2 j :
  ok xs → 0 ≤ s1 → 0 ≤ s2 < 64 → 0 ≤ j → s1 + j = zlen xs →
  returns (for_down (j - 1) 0 (rshift_step xs s1 s2) (BIGUP (ext_digit s), fresh j)) (λ '(_, zds),
    ok zds ∧ zlen zds = j ∧ tval s zds = tval s xs / BIGRAD ^ s1 / 2 ^ s2).
Proof.
  intros Hx Hs1 Hs2 Hj Hl. pose proof BIGRAD_pos as HB. set (D := 2 ^ s2).
  assert (0 < D) by (apply Z.pow_pos_nonneg; lia). pose proof (zlen_fresh j Hj) as Hf.
  assert (ext s / D = ext s) as HeD.
  { destruct s; cbn [ext]; [by rewrite Z.div_0_l by lia|]. symmetry. apply Z.div_unique with (D - 1); lia. }
  assert (ext s mod BIGRAD = ext_digit s) as HeB.
  { destruct s; cbn [ext ext_digit]; [by rewrite Z.mod_0_l by lia|]. symmetry. apply Z.mod_unique with (-1); lia. }
  set (T := λ k, seg xs (s1 + k) (j - k) + BIGRAD ^ (j - k) * ext s).
  assert (∀ k, 0 ≤ k < j → T k = dg xs (s1 + k) + BIGRAD * T (k + 1)) as HT.
  { intros k Hk. unfold T. replace (j - k) with (1 + (j - (k + 1))) by lia. rewrite seg_app, seg_1, Z.pow_1_r by lia.
    rewrite Z.pow_add_r, Z.pow_1_r by lia. replace (s1 + k + 1) with (s1 + (k + 1)) by lia. lia. }
  eapply returns_mono.
  - refine (for_down_inv (λ k '(num, zds), ok zds ∧ zlen zds = j ∧ num = BIGUP (T (k + 1) mod BIGRAD) ∧
      seg zds (k + 1) (j - (k + 1)) + BIGRAD ^ (j - (k + 1)) * ext s = T (k + 1) / D) (j - 1) 0 _ _ _ _ _); [lia| |].
    + replace (j - 1 + 1) with j by lia. unfold T. rewrite Z.sub_diag, !seg_0, Z.pow_0_r, Z.mul_1_l, Z.add_0_l, HeB, HeD.
      split_and!; [apply ok_fresh|done|done|done].
    + intros k [num zds] Hk (Hok & Hlz & -> & Hv). cbn [rshift_step]. rewrite aload_dg by lia. cbn [mbind res_bind].
      rewrite astore_ok by lia. cbn [mbind res_bind]. apply returns_ret. replace (k - 1 + 1) with k by lia.
      replace (k + s1) with (s1 + k) by lia.
      split_and!; [apply ok_insert; [done|apply BIGLO_range]|by rewrite zlen_insert|..].
      * rewrite HT, Z.mul_comm, Z_mod_plus_full, Z.mod_small by (apply Hx || lia). done.
      * rewrite (HT k) by lia. unfold D. rewrite unshift_digit by (apply Hx || lia). fold D. rewrite <- Hv.
        replace (j - k) with (1 + (j - (k + 1))) by lia. rewrite seg_app, seg_1, Z.pow_1_r by lia.
        rewrite dg_insert, decide_True, seg_insert, Z.pow_add_r, Z.pow_1_r by lia. lia.
  - intros [num zds] (Hok & Hlz & _ & Hv). split_and!; [done|done|].
    replace (0 - 1 + 1) with 0 in Hv by lia. rewrite Z.sub_0_r in Hv. unfold tval at 1. rewrite bval_seg, Hlz, Hv. f_equal.
    unfold T, tval. rewrite Z.sub_0_r, Z.add_0_r, bval_seg, <- Hl, seg_app, Z.pow_add_r, Z.add_0_l by lia.
    replace (seg xs 0 s1 + BIGRAD ^ s1 * seg xs s1 j + BIGRAD ^ s1 * BIGRAD ^ j * ext s)
      with (seg xs 0 s1 + (seg xs s1 j + BIGRAD ^ j * ext s) * BIGRAD ^ s1) by lia.
    pose proof (seg_bound xs 0 s1 Hx Hs1). rewrite Z.div_add, Z.div_small by lia. lia.
Qed.

(** All the digits are shifted out. *)
Lemma shift_out x n : ok (digits x) → (sign x = false → bval (digits x) ≠ 0) → zlen (digits x) ≤ n →
  bigval x / BIGRAD ^ n = ext (sign x).
Proof.
  intros Hok Hnz Hn. pose proof (bval_bound _ Hok). pose proof BIGRAD_pos.
  assert (BIGRAD ^ zlen (digits x) ≤ BIGRAD ^ n) by (apply Z.pow_le_mono_r; lia).
  unfold bigval, ext. destruct (sign x); [by apply Z.div_small; lia|]. specialize (Hnz eq_refl).
  symmetry. apply Z.div_unique with (BIGRAD ^ n - bval (digits x)); lia.
Qed.

Lemma big_rshift_spec x shift :
  wf_big x → 0 ≤ shift → ∃ z, big_rshift x shift = Ok z ∧ nval z = Z.shiftr (bigval x) shift ∧ canon z.
Proof.
  intros Hx Hs. pose proof BIGRAD_pos as HB. pose proof (wb_ok _ Hx) as Hxo. pose proof (wf_big_nonzero x Hx) as Hnz.
  unfold big_rshift, BITSPERDIG, RBIGNUM_LEN.
  pose proof (Z.mod_pos_bound shift 64 ltac:(lia)) as Hs2. pose proof (Z.div_pos shift 64 ltac:(lia) ltac:(lia)) as Hs1.
  pose proof (shift_split shift Hs) as Esh. rewrite Z.shiftr_div_pow2, Esh by done.
  set (s1 := shift / 64) in *. set (s2 := shift mod 64) in *.
  assert (0 < 2 ^ s2) by (apply Z.pow_pos_nonneg; lia). pose proof (pow_pos s1 Hs1). rewrite <- Z.div_div by lia.
  assert (∀ b : bool, zlen (digits x) ≤ s1 → b = sign x → ∃ z, Ok (Fixnum (if b then 0 else -1)) = Ok z ∧
    nval z = bigval x / BIGRAD ^ s1 / 2 ^ s2 ∧ canon z) as Hzero.
  { intros b Hge ->. eexists. split; [done|]. rewrite shift_out by (apply Hxo || done || lia). cbn [nval canon].
    rewrite FIXNUM_MIN_val, FIXNUM_MAX_val. unfold ext. destruct (sign x).
    - rewrite Z.div_0_l by lia. lia.
    - split; [|lia]. apply Z.div_unique with (2 ^ s2 - 1); lia. }
  destruct (Z.ltb_spec (zlen (digits x)) s1); [apply Hzero; [lia|done]|].
  destruct (twos_spec x Hxo) as (t & -> & Hst & [Ht Hlt] & Hvt & Hlx); [done|]. cbn [mbind res_bind].
  destruct (Z.eqb_spec (zlen (digits t) - s1) 0); [apply Hzero; [lia|done]|].
  assert ((if sign t then 0 else u128 (Z.shiftl (2 ^ 128 - 1) 64)) = BIGUP (ext_digit (sign t))) as ->.
  { unfold ext_digit. destruct (sign t); [done|]. rewrite BIGUP_mul by lia. rewrite BIGRAD_val. done. }
  destruct (rshift_loop (sign t) (digits t) s1 s2 (zlen (digits t) - s1)) as ([num zs] & -> & Hz & Hlz & Hv); [done|lia..|].
  cbn [mbind res_bind]. destruct (untwos_spec (sign t) zs Hz) as (r & -> & Hr & Hc); [lia|].
  exists r. split_and!; [done| |done]. by rewrite Hr, Hv, Hvt.
Qed.

(** ** Shift counts and bit positions given as integers *)

(** A long digit array has at least two digits, and a number that has them is
    out of the range of [unsigned long]. *)
Lemma big2ulong_one x c : ok (digits x) → zlen (digits x) = 1 → big2ulong x c = Ok (bval (digits x)).
Proof.
  intros Hok Hl. unfold big2ulong, RBIGNUM_LEN, DIGSPERLONG. rewrite Hl. cbn [Z.ltb Z.compare mbind res_bind Pos.compare].
  destruct (digits x) as [|d [|d' ds]] eqn:E; [by rewrite zlen_nil in Hl| |rewrite !zlen_cons in Hl; pose proof (zlen_nonneg ds); lia].
  apply ok_cons in Hok as [Hd _].
  change (Ok (u64 (u128 (BIGUP 0 + d))) = Ok (d + BIGRAD * 0)). pose proof BIGRAD_pos.
  rewrite BIGUP_mul, u128_digits, u64_small by (rewrite <- ?BIGRAD_val; nia). f_equal. lia.
Qed.

Lemma canon_len x : canon (Bignum x) → zlen (digits x) = 1 ∨ 1 < zlen (digits x) ∧ BIGRAD ≤ bval (digits x).
Proof.
  intros (Hok & Ht & Hl & _). destruct (decide (zlen (digits x) = 1)); [by left|right]. split; [lia|].
  apply trimmed_large; [done|done|lia].
Qed.

Lemma bval_lt_pow2 x m : ok (digits x) → zlen (digits x) < 2 ^ 58 → 2 ^ 64 ≤ m → bval (digits x) < 2 ^ m.
Proof.
  intros Hok Hl Hm. pose proof (bval_bound _ Hok) as Hb. eapply Z.lt_le_trans; [apply Hb|].
  rewrite BIGRAD_val, <- Z.pow_mul_r by (pose proof (zlen_nonneg (digits x)); lia). apply Z.pow_le_mono_r; lia.
Qed.

(** The result of [check_shiftdown] is that of the shift. *)
Lemma shift_huge x m :
  wf_big x → zlen (digits x) < 2 ^ 58 → 2 ^ 64 ≤ m →
  Z.shiftr (bigval x) m = ext (sign x).
Proof.
  intros Hx Hl Hm. pose proof (wb_ok _ Hx) as Hxo. pose proof (wf_big_nonzero x Hx) as Hnz.
  pose proof (bval_lt_pow2 x m (bo_ok _ Hxo) Hl Hm). pose proof (bval_bound _ (bo_ok _ Hxo)).
  rewrite Z.shiftr_div_pow2 by lia. unfold bigval, ext. destruct (sign x); [by apply Z.div_small; lia|].
  specialize (Hnz eq_refl). symmetry. apply Z.div_unique with (2 ^ m - bval (digits x)); lia.
Qed.

(** Shifting down by a bignum. *)
Lemma shiftdown_spec x y :
  wf_big x → zlen (digits x) < 2 ^ 58 → canon (Bignum y) →
  ∃ z, match check_shiftdown y x with
       | Some t => Ok (Fixnum t)
       | None => shift ← big2ulong y true; big_rshift x shift
       end = Ok z ∧ nval z = Z.shiftr (bigval x) (bval (digits y)) ∧ canon z.
Proof.
  intros Hx Hl Hy. destruct (canon_big y Hy) as [Hyo _]. pose proof (wb_ok _ Hx) as Hxo.
  pose proof (bo_len _ Hxo). unfold check_shiftdown, RBIGNUM_LEN. rewrite (proj2 (Z.eqb_neq _ 0)) by lia.
  destruct (canon_len y Hy) as [E1|[Hlt Hge]].
  - rewrite E1. cbn [Z.ltb Z.compare Pos.compare]. rewrite big2ulong_one by (done || apply Hyo). cbn [mbind res_bind].
    apply big_rshift_spec; [done|]. apply (bval_bound _ (bo_ok _ Hyo)).
  - rewrite (proj2 (Z.ltb_lt _ _)) by done. eexists. split; [done|]. cbn [nval canon].
    rewrite shift_huge by (done || (rewrite <- BIGRAD_val; lia)). rewrite FIXNUM_MIN_val, FIXNUM_MAX_val.
    unfold ext. destruct (sign x); lia.
Qed.

(** Shifting up by a bignum: the count must fit in [unsigned long]. *)
Lemma shiftup_spec x y :
  big_ok x → canon (Bignum y) →
  if decide (bval (digits y) < 2 ^ 64)
  then ∃ z, (shift ← big2ulong y true; big_lshift x shift) = Ok z ∧
         nval z = Z.shiftl (bigval x) (bval (digits y)) ∧ canon z
  else (shift ← big2ulong y true; big_lshift x shift) = Err (Raise RangeError).
Proof.
  intros Hxo Hy. destruct (canon_big y Hy) as [Hyo _].
  pose proof (bval_bound _ (bo_ok _ Hyo)) as Hb. destruct (canon_len y Hy) as [E1|[Hlt Hge]].
  - rewrite E1, Z.pow_1_r, BIGRAD_val in Hb. rewrite decide_True by lia.
    rewrite big2ulong_one by (done || apply Hyo). cbn [mbind res_bind]. apply big_lshift_spec; [done|lia].
  - rewrite BIGRAD_val in Hge. rewrite decide_False by lia. unfold big2ulong, RBIGNUM_LEN, DIGSPERLONG.
    rewrite (proj2 (Z.ltb_lt _ _)) by done. done.
Qed.

Lemma rb_big_lshift_spec x y :
  wf_big x → zlen (digits x) < 2 ^ 58 → canon y →
  if decide (nval y < 2 ^ 64)
  then ∃ z, rb_big_lshift x y = Ok z ∧ nval z = Z.shiftl (bigval x) (nval y) ∧ canon z
  else rb_big_lshift x y = Err (Raise RangeError).
Proof.
  intros Hx Hl Hy. pose proof (wb_ok _ Hx) as Hxo. destruct y as [n|y]; cbn [rb_big_lshift nval].
  - cbn [canon] in Hy. rewrite FIXNUM_MIN_val, FIXNUM_MAX_val in Hy. rewrite decide_True by lia.
    destruct (Z.ltb_spec n 0); [|by apply big_lshift_spec].
    destruct (big_rshift_spec x (- n) Hx) as (z & -> & Hz & ?); [lia|]. exists z. split_and!; [done| |done].
    rewrite Hz. rewrite <- (Z.opp_involutive n) at 2. by rewrite Z.shiftl_opp_r.
  - pose proof (bval_bound _ (bo_ok _ (proj1 (canon_big y Hy)))).
    destruct (sign y) eqn:Es.
    + pose proof (shiftup_spec x y Hxo Hy) as Hu. replace (bigval y) with (bval (digits y)) by (unfold bigval; by rewrite Es).
      exact Hu.
    + replace (bigval y) with (- bval (digits y)) by (unfold bigval; by rewrite Es). rewrite decide_True by lia.
      rewrite Z.shiftl_opp_r. by apply shiftdown_spec.
Qed.

Lemma rb_big_rshift_spec x y :
  wf_big x → zlen (digits x) < 2 ^ 58 → canon y →
  if decide (- 2 ^ 64 < nval y)
  then ∃ z, rb_big_rshift x y = Ok z ∧ nval z = Z.shiftr (bigval x) (nval y) ∧ canon z
  else rb_big_rshift x y = Err (Raise RangeError).
Proof.
  intros Hx Hl Hy. pose proof (wb_ok _ Hx) as Hxo. destruct y as [n|y]; cbn [rb_big_rshift nval].
  - cbn [canon] in Hy. rewrite FIXNUM_MIN_val, FIXNUM_MAX_val in Hy. rewrite decide_True by lia.
    destruct (Z.ltb_spec n 0); [|by apply big_rshift_spec].
    destruct (big_lshift_spec x (- n) Hxo) as (z & -> & Hz & ?); [lia|]. exists z. split_and!; [done| |done].
    rewrite Hz. by rewrite Z.shiftl_opp_r.
  - pose proof (bval_bound _ (bo_ok _ (proj1 (canon_big y Hy)))).
    destruct (sign y) eqn:Es.
    + replace (bigval y) with (bval (digits y)) by (unfold bigval; by rewrite Es). rewrite decide_True by lia.
      by apply shiftdown_spec.
    + pose proof (shiftup_spec x y Hxo Hy) as Hu. replace (bigval y) with (- bval (digits y)) by (unfold bigval; by rewrite Es).
      rewrite Z.shiftr_opp_r. destruct (decide (bval (digits y) < 2 ^ 64)); [rewrite decide_True by lia|rewrite decide_False by lia]; exact Hu.
Qed.

(** ** One bit *)

(** The carry of the two's complement, up to digit [s]. *)
Lemma aref_loop ds s :
  ok ds → 0 ≤ s ≤ zlen ds →
  returns (for_range 0 s (λ i num, d ← aload ds i; Ok (BIGDN (u128 (num + digit_not d)))) 1) (λ num,
    0 ≤ num ≤ 1 ∧ ∃ r, 0 ≤ r < BIGRAD ^ s ∧ r + num * BIGRAD ^ s = BIGRAD ^ s - seg ds 0 s).
Proof.
  intros Hok Hs. pose proof BIGRAD_pos as HB.
  apply (for_range_inv (λ k num, 0 ≤ num ≤ 1 ∧ ∃ r, 0 ≤ r < BIGRAD ^ k ∧ r + num * BIGRAD ^ k = BIGRAD ^ k - seg ds 0 k)); [lia| |].
  - split; [lia|]. exists 0. rewrite seg_0, Z.pow_0_r. lia.
  - intros k num Hk (Hn & r & Hr & Hv). rewrite aload_dg by lia. cbn [mbind res_bind]. apply returns_ret.
    pose proof (Hok k) as Hd. rewrite digit_not_val by done. rewrite u128_digits by nia.
    set (w := num + (BIGRAD - 1 - dg ds k)). pose proof (BIGLO_range w). pose proof (BIGDN_bounds w 0 1 ltac:(lia)).
    split; [lia|]. exists (r + BIGLO w * BIGRAD ^ k). rewrite seg_S, Z.add_0_l, pow_S by lia.
    pose proof (split_digit w (BIGRAD ^ k)). split; [nia|]. unfold w in *. lia.
Qed.

(** Bit [shift] of a number is bit [s2] of its digit [s1]. *)
Lemma testbit_window v r w s1 s2 :
  0 ≤ s1 → 0 ≤ s2 < 64 → 0 ≤ r < BIGRAD ^ s1 → (∃ q, v = r + BIGRAD ^ s1 * (w + BIGRAD * q)) →
  Z.testbit v (64 * s1 + s2) = Z.testbit w s2.
Proof.
  intros Hs1 Hs2 Hr (q & ->). rewrite BIGRAD_val, <- Z.pow_mul_r in * by lia.
  rewrite Z.add_comm, Z.mul_comm, <- lor_add, <- Z.shiftl_mul_pow2, Z.lor_spec, Z.shiftl_spec by lia.
  rewrite (testbit_high r _ (64 * s1)) by lia. rewrite orb_false_r. replace (64 * s1 + s2 - 64 * s1) with s2 by lia.
  rewrite !Z.testbit_eqb by lia. f_equal.
  replace (w + 2 ^ 64 * q) with (w + 2 * (2 ^ (63 - s2) * q) * 2 ^ s2).
  - rewrite Z.div_add by (apply Z.pow_nonzero; lia). rewrite (Z.mul_comm 2), Z_mod_plus_full. done.
  - replace (2 ^ 64) with (2 * 2 ^ (63 - s2) * 2 ^ s2); [lia|]. rewrite <- Z.pow_succ_r, <- Z.pow_add_r by lia. f_equal. lia.
Qed.

Lemma land_bit w s : 0 ≤ s → (if Z.land w (Z.shiftl 1 s) =? 0 then 0 else 1) = Z.b2z (Z.testbit w s).
Proof.
  intros Hs. rewrite Z.shiftl_1_l. destruct (Z.testbit w s) eqn:E.
  - rewrite (proj2 (Z.eqb_neq _ 0)); [done|]. intros H.
    assert (Z.testbit (Z.land w (2 ^ s)) s = true) as Ht by (rewrite Z.land_spec, E, Z.pow2_bits_true; done).
    by rewrite H, Z.bits_0 in Ht.
  - rewrite (proj2 (Z.eqb_eq _ 0)); [done|]. apply Z.bits_inj'. intros i Hi. rewrite Z.land_spec, Z.bits_0, Z.pow2_bits_eqb by lia.
    destruct (Z.eqb_spec s i) as [<-|]; [by rewrite E|apply andb_false_r].
Qed.

Lemma high_bits x i :
  ok (digits x) → bval (digits x) ≠ 0 → bval (digits x) < 2 ^ i → 0 ≤ i →
  aref_out_of_range x = Z.b2z (Z.testbit (bigval x) i).
Proof.
  intros Hok Hnz Hlt Hi. pose proof (bval_bound _ Hok). unfold aref_out_of_range, bigval. destruct (sign x).
  - by rewrite (testbit_high _ i i) by lia.
  - replace (- bval (digits x)) with (Z.lnot (bval (digits x) - 1)) by (unfold Z.lnot; lia).
    rewrite Z.lnot_spec by lia. by rewrite (testbit_high _ i i) by lia.
Qed.

Lemma aref_bit_spec x shift :
  canon (Bignum x) → 0 ≤ shift → aref_bit x shift = Ok (Z.b2z (Z.testbit (bigval x) shift)).
Proof.
  intros Hx Hs. destruct (canon_big x Hx) as [[Hok Hl] _]. pose proof (canon_nonzero x Hx) as Hnz.
  pose proof BIGRAD_pos as HB. unfold aref_bit, BITSPERDIG, RBIGNUM_LEN.
  pose proof (Z.mod_pos_bound shift 64 ltac:(lia)) as Hs2. pose proof (Z.div_pos shift 64 ltac:(lia) ltac:(lia)) as Hs1.
  pose proof (Z.div_mod shift 64 ltac:(lia)) as Esh. set (s1 := shift / 64) in *. set (s2 := shift mod 64) in *.
  destruct (Z.leb_spec (zlen (digits x)) s1) as [Hge|Hlt].
  { f_equal. apply high_bits; [done|done| |done]. pose proof (bval_bound _ Hok) as Hb. eapply Z.lt_le_trans; [apply Hb|].
    rewrite BIGRAD_val, <- Z.pow_mul_r by lia. apply Z.pow_le_mono_r; lia. }
  assert (bval (digits x) = seg (digits x) 0 s1 + BIGRAD ^ s1 *
    (dg (digits x) s1 + BIGRAD * seg (digits x) (s1 + 1) (zlen (digits x) - s1 - 1))) as Ev.
  { rewrite bval_seg. replace (zlen (digits x)) with (s1 + (1 + (zlen (digits x) - s1 - 1))) at 1 by lia.
    by rewrite seg_app, Z.add_0_l, seg_app, seg_1, Z.pow_1_r by lia. }
  rewrite Esh. set (rest := seg (digits x) (s1 + 1) _) in *. pose proof (seg_bound (digits x) 0 s1 Hok Hs1).
  unfold bigval. destruct (sign x) eqn:Es.
  - rewrite aload_dg by lia. cbn [mbind res_bind]. rewrite land_bit by lia. do 2 f_equal. symmetry.
    apply testbit_window with (seg (digits x) 0 s1); [done..|]. by exists rest.
  - destruct (aref_loop (digits x) s1 Hok) as (num & -> & Hn & r & Hr & Hv); [lia|]. cbn [mbind res_bind].
    rewrite aload_dg by lia. cbn [mbind res_bind]. pose proof (Hok s1). rewrite digit_not_val, u128_digits by nia.
    rewrite land_bit by lia. do 2 f_equal. symmetry.
    apply testbit_window with r; [done..|]. exists (-1 - rest). lia.
Qed.

Lemma bigtrunc_trimmed x : trimmed (digits x) → 0 < zlen (digits x) → bigtrunc x = x.
Proof.
  intros Ht Hl. unfold bigtrunc, RBIGNUM_LEN. rewrite (proj2 (Z.eqb_neq _ 0)) by lia.
  destruct x as [s ds]. cbn [sign digits] in *. f_equal. apply take_ge.
  destruct (trunc_len_spec (length ds) ds) as (H1 & H2 & _); [unfold zlen in Hl; lia|].
  destruct (decide (trunc_len (length ds) ds = length ds)) as [->|]; [lia|].
  destruct Ht as [E|Hne]; [unfold zlen in E; lia|]. exfalso. apply Hne, H2. unfold zlen in *. lia.
Qed.

Lemma rb_big_aref_spec x y :
  canon (Bignum x) → zlen (digits x) < 2 ^ 58 → canon y →
  rb_big_aref x y = Ok (Z.b2z (Z.testbit (bigval x) (nval y))).
Proof.
  intros Hx Hlx Hy. destruct (canon_big x Hx) as [[Hok Hl] _]. pose proof (canon_nonzero x Hx) as Hnz.
  destruct y as [n|y]; cbn [rb_big_aref nval].
  - destruct (Z.ltb_spec n 0); [by rewrite Z.testbit_neg_r|by apply aref_bit_spec].
  - destruct (canon_big y Hy) as [[Hoky Hly] Hty]. pose proof (bval_bound _ Hoky). pose proof (canon_nonzero y Hy).
    unfold bigval at 2. destruct (sign y); cbn [negb]; [|by rewrite Z.testbit_neg_r by lia].
    rewrite bigtrunc_trimmed by done. unfold RBIGNUM_LEN, DIGSPERLONG. destruct (canon_len y Hy) as [E1|[Hgt Hge]].
    + rewrite E1. cbn [Z.ltb Z.compare Pos.compare]. rewrite big2ulong_one by done. cbn [mbind res_bind].
      apply aref_bit_spec; [done|lia].
    + rewrite (proj2 (Z.ltb_lt _ _)) by lia. f_equal. apply high_bits; [done|done| |lia].
      apply bval_lt_pow2; [done|done|]. rewrite <- BIGRAD_val. lia.
Qed.

(** ** Machine integers *)

Lemma rb_big2long_spec x :
  canon (Bignum x) →
  rb_big2long x = if decide (LONG_MIN ≤ bigval x ≤ LONG_MAX) then Ok (bigval x) else Err (Raise RangeError).
Proof.
  intros Hx. destruct (canon_big x Hx) as [[Hok Hl] _]. pose proof (bval_bound _ Hok) as Hb. unfold rb_big2long.
  destruct (canon_len x Hx) as [E1|[Hgt Hge]].
  - rewrite big2ulong_one by done. cbn [mbind res_bind]. rewrite E1, Z.pow_1_r, BIGRAD_val in Hb.
    unfold bigval, LONG_MIN, LONG_MAX. set (v := bval (digits x)) in *.
    destruct (decide (v < 2 ^ 63)).
    + rewrite s64_small by lia. rewrite (proj2 (Z.ltb_ge v 0)) by lia. cbn [andb].
      destruct (sign x); [by rewrite decide_True by lia|]. by rewrite decide_True, s64_small by lia.
    + assert (s64 v = v - 2 ^ 64) as Es.
      { unfold s64. rewrite <- (Z.mod_unique (v + 2 ^ 63) (2 ^ 64) 1 (v + 2 ^ 63 - 2 ^ 64)); lia. }
      rewrite Es. rewrite (proj2 (Z.ltb_lt _ 0)) by lia. cbn [andb]. destruct (sign x); cbn [orb].
      * by rewrite decide_False by lia.
      * destruct (Z.eqb_spec (v - 2 ^ 64) (- 2 ^ 63)) as [E|]; cbn [negb].
        -- rewrite decide_True by lia. f_equal. replace v with (2 ^ 63) by lia. done.
        -- by rewrite decide_False by lia.
  - unfold big2ulong, RBIGNUM_LEN, DIGSPERLONG. rewrite (proj2 (Z.ltb_lt _ _)) by done. cbn [mbind res_bind].
    rewrite BIGRAD_val in Hge. rewrite decide_False; [done|]. unfold bigval, LONG_MIN, LONG_MAX. destruct (sign x); lia.
Qed.
End operands.
