(* ===== verification/BigPow.v ===== *)
(** * bignum.c: squares and powers

    [bigsqr] squares a long number from the squares of its halves and their
    product; [rb_big_pow] walks over the bits of the exponent. *)

From S2P Require Import Prelude Big BigVal BigAdd BigMul BigDiv BigBits.

(** A number without leading zeros is no longer than its value needs. *)
Lemma trimmed_len ds n : ok ds → trimmed ds → bval ds < BIGRAD ^ n → 1 ≤ n → zlen ds ≤ n.
Proof.
  intros Hok [E|Ht] Hv Hn; [lia|]. destruct (decide (zlen ds ≤ n)) as [|Hgt]; [done|exfalso].
  pose proof BIGRAD_pos. rewrite bval_seg in Hv. replace (zlen ds) with (zlen ds - 1 + 1) in Hv by lia.
  rewrite seg_S, Z.add_0_l in Hv by lia. pose proof (seg_bound ds 0 (zlen ds - 1) Hok ltac:(lia)). pose proof (Hok (zlen ds - 1)).
  assert (BIGRAD ^ n ≤ BIGRAD ^ (zlen ds - 1)) by (apply Z.pow_le_mono_r; lia). nia.
Qed.

Lemma seg_shift_app z1 z2 n :
  zlen z1 = n → ok z1 → seg (z1 ++ z2) 0 (n + zlen z2) = seg z1 0 n + BIGRAD ^ n * bval z2.
Proof.
  intros Hl Hok. pose proof (bval_app z1 z2) as E. rewrite (bval_seg (z1 ++ z2)), (bval_seg z1), zlen_app, Hl in E. done.
Qed.

Lemma sqr_loop ab k zs :
  ok ab → ok zs → 0 ≤ k → k + zlen ab ≤ zlen zs →
  returns (for_range 0 (zlen ab) (sqr_step ab k) (0, zs)) (λ '(num, zds),
    0 ≤ num ≤ 2 ∧ ok zds ∧ zlen zds = zlen zs ∧
    seg zds k (zlen ab) + num * BIGRAD ^ zlen ab = seg zs k (zlen ab) + 2 * bval ab ∧
    ∀ i, ¬ (k ≤ i < k + zlen ab) → dg zds i = dg zs i).
Proof.
  intros Ha Hz Hk Hl. pose proof BIGRAD_pos as HB. rewrite (bval_seg ab). pose proof (zlen_nonneg ab).
  apply (for_range_inv (λ n '(num, zds), 0 ≤ num ≤ 2 ∧ ok zds ∧ zlen zds = zlen zs ∧
    seg zds k n + num * BIGRAD ^ n = seg zs k n + 2 * seg ab 0 n ∧ ∀ i, ¬ (k ≤ i < k + n) → dg zds i = dg zs i));
    [lia|rewrite !seg_0; split_and!; try done; lia|].
  intros n [num zds] Hn (Hm & Hok & Hlz & Hv & Hrest). cbn [sqr_step]. rewrite !aload_dg by lia. cbn [mbind res_bind].
  pose proof (Ha n). pose proof (Hok (n + k)). rewrite Z.shiftl_mul_pow2, Z.pow_1_r by lia.
  rewrite u128_digits by (rewrite BIGRAD_val in *; lia). rewrite astore_ok by lia. cbn [mbind res_bind]. apply returns_ret.
  replace (n + k) with (k + n) in * by lia. set (w := num + (dg zds (k + n) + dg ab n * 2)) in *.
  pose proof (BIGLO_range w). pose proof (BIGDN_bounds w 0 2 ltac:(lia)).
  split_and!; [lia..|by apply ok_insert|by rewrite zlen_insert| |].
  - rewrite seg_insert_last, !(seg_S _ _ n), Z.add_0_l, pow_S by lia. pose proof (split_digit w (BIGRAD ^ n)).
    rewrite <- (Hrest (k + n)) by lia. unfold w in *. lia.
  - intros i Hi. rewrite dg_insert by lia. rewrite decide_False by lia. apply Hrest. lia.
Qed.

Lemma sqr_carry_loop zs o num :
  ok zs → 0 ≤ o ≤ zlen zs → 0 ≤ num ≤ 2 →
  returns (for_range o (zlen zs) sqr_carry_step (num, zs)) (λ '(num', zds),
    0 ≤ num' ≤ 2 ∧ ok zds ∧ zlen zds = zlen zs ∧
    bval zds + num' * BIGRAD ^ zlen zs = bval zs + num * BIGRAD ^ o).
Proof.
  intros Hz Ho Hnum. pose proof BIGRAD_pos as HB. eapply returns_mono.
  - refine (for_range_inv (λ n '(num', zds), 0 ≤ num' ≤ 2 ∧ ok zds ∧ zlen zds = zlen zs ∧
      seg zds 0 n + num' * BIGRAD ^ n = seg zs 0 n + num * BIGRAD ^ o ∧ ∀ i, n ≤ i → dg zds i = dg zs i)
      o (zlen zs) _ (num, zs) _ _ _); [lia|split_and!; try done; lia|].
    intros n [m zds] Hn (Hm & Hok & Hlz & Hv & Hrest). cbn [sqr_carry_step]. destruct (Z.eqb_spec m 0) as [->|].
    + apply returns_ret. split_and!; try done; try lia.
      * rewrite !seg_S, !Z.add_0_l, Hrest by lia. lia.
      * intros i Hi. apply Hrest. lia.
    + unfold carry_step. rewrite aload_dg by lia. cbn [mbind res_bind]. rewrite Hrest by lia. pose proof (Hz n).
      rewrite u128_digits by (rewrite BIGRAD_val in *; lia). rewrite astore_ok by lia. cbn [mbind res_bind]. apply returns_ret.
      set (w := m + dg zs n). pose proof (BIGLO_range w). pose proof (BIGDN_bounds w 0 2 ltac:(lia)).
      split_and!; [lia..|by apply ok_insert|by rewrite zlen_insert| |].
      * rewrite insert_seg, seg_S, Z.add_0_l, pow_S by lia. pose proof (split_digit w (BIGRAD ^ n)). unfold w in *. lia.
      * intros i Hi. rewrite dg_insert by lia. rewrite decide_False by lia. apply Hrest. lia.
  - intros [m zds] (Hm & Hok & Hlz & Hv & _). rewrite !bval_seg, Hlz. done.
Qed.

Lemma ok_replicate n : ok (replicate n 0).
Proof. pose proof BIGRAD_pos. induction n; cbn; [apply ok_nil|]. apply ok_cons. split; [lia|done]. Qed.
Lemma bval_replicate n : bval (replicate n 0) = 0.
Proof. induction n as [|n IH]; cbn; [done|]. rewrite IH. lia. Qed.

Lemma sqr_combine_spec k a2 z ab :
  ok a2 → ok z → ok ab → 0 ≤ k → zlen z ≤ 2 * k → zlen ab ≤ k + zlen a2 →
  returns (sqr_combine k a2 z ab) (λ ds,
    ok ds ∧ 2 * k + zlen a2 ≤ zlen ds ∧ bval ds = bval z + 2 * bval ab * BIGRAD ^ k + bval a2 * BIGRAD ^ (2 * k)).
Proof.
  intros Ha Hz Hab Hk Hlz Hlab. pose proof BIGRAD_pos as HB. unfold sqr_combine.
  pose proof (zlen_nonneg z). pose proof (zlen_nonneg ab). pose proof (zlen_nonneg a2).
  set (z0 := z ++ replicate _ 0).
  assert (zlen z0 = 2 * k) as El0 by (unfold z0; rewrite zlen_app; unfold zlen at 2; rewrite length_replicate; lia).
  assert (take (Z.to_nat (2 * k)) z0 = z0) as -> by (apply take_ge; unfold zlen in El0; lia).
  assert (ok (z0 ++ a2)) as Hok0 by (apply ok_app; split; [apply ok_app; split; [done|apply ok_replicate]|done]).
  assert (bval (z0 ++ a2) = bval z + BIGRAD ^ (2 * k) * bval a2) as Hv0.
  { rewrite bval_app, El0. unfold z0. rewrite bval_app, bval_replicate. lia. }
  assert (zlen (z0 ++ a2) = 2 * k + zlen a2) as Ez by (rewrite zlen_app; lia). set (z1 := z0 ++ a2) in *.
  destruct (sqr_loop ab k z1 Hab Hok0) as ([num z2] & -> & Hn & Hok2 & Hl2 & Hv2 & Hr2); [lia|lia|]. cbn [mbind res_bind].
  assert (bval z2 + num * BIGRAD ^ (zlen ab + k) = bval z1 + 2 * bval ab * BIGRAD ^ k) as Hv3.
  { rewrite (bval_seg z2), (bval_seg z1), Hl2. rewrite (seg_window z1 z2 k (zlen ab)) by (done || lia).
    rewrite Z.pow_add_r by lia. nia. }
  destruct (Z.eqb_spec num 0) as [->|].
  - apply returns_ret. split_and!; [done|lia|]. lia.
  - destruct (sqr_carry_loop z2 (zlen ab + k) num Hok2) as ([m z3] & -> & Hm & Hok3 & Hl3 & Hv4); [lia|lia|].
    cbn [mbind res_bind]. destruct (Z.eqb_spec m 0) as [->|]; apply returns_ret.
    + split_and!; [done|lia|lia].
    + assert (BIGLO m = m) as -> by (rewrite BIGLO_mod, Z.mod_small; rewrite ?BIGRAD_val; lia).
      split_and!; [apply ok_app; split; [done|apply ok_single; rewrite BIGRAD_val; lia]|rewrite zlen_app, zlen_cons, zlen_nil; lia|].
      rewrite bval_app. cbn [bval]. rewrite Hl3. lia.
Qed.

Section operands.
Context `{J : Junk}.

(** A product or a square, without its leading zeros. *)
Lemma bigtrunc_ok x :
  big_ok x → big_ok (bigtrunc x) ∧ trimmed (digits (bigtrunc x)) ∧ bigval (bigtrunc x) = bigval x ∧ sign (bigtrunc x) = sign x.
Proof.
  intros Hx. destruct (bigtrunc_spec x (bo_ok _ Hx) (big_ok_ne x Hx)) as (Hv & Ht & Hok & Hl & Hs).
  split_and!; [by split|done|done|done].
Qed.

Lemma mul_trunc x b :
  big_ok x → big_ok b → zlen (digits x) < 2 ^ 30 → zlen (digits b) < 2 ^ 30 →
  ∃ z, rb_big_mul0 x (Bignum b) = Ok z ∧ big_ok (bigtrunc z) ∧ trimmed (digits (bigtrunc z)) ∧
    bigval (bigtrunc z) = bigval x * bigval b ∧ sign (bigtrunc z) = Bool.eqb (sign x) (sign b).
Proof.
  intros Hx Hb Hsx Hsb. destruct (rb_big_mul0_big x (Bignum b) b eq_refl Hx Hb Hsx Hsb) as (z & -> & Hv & Hz & Hs).
  exists z. destruct (bigtrunc_ok z Hz) as (? & ? & ? & ?). split_and!; [done|done|done|congruence|congruence].
Qed.

Lemma bigsqr_spec fuel x :
  big_ok x → zlen (digits x) < 2 ^ 30 → (length (digits x) < fuel)%nat →
  ∃ z, bigsqr fuel x = Ok z ∧ big_ok z ∧ trimmed (digits z) ∧ bigval z = bigval x * bigval x ∧ sign z = true.
Proof.
  revert x. induction fuel as [|fuel IH]; intros x Hx Hs Hf; [lia|]. cbn [bigsqr]. unfold RBIGNUM_LEN.
  pose proof BIGRAD_pos as HB. pose proof (bo_ok _ Hx) as Hok. set (ds := digits x) in *.
  destruct (Z.ltb_spec (zlen ds) (4000 / BITSPERDIG)) as [|Hlong].
  { destruct (mul_trunc x x Hx Hx Hs Hs) as (z & -> & Hz & Ht & Hv & Hsg). cbn [mbind res_bind].
    exists (bigtrunc z). split_and!; try done. by rewrite Hsg, eqb_reflx. }
  change (4000 / BITSPERDIG) with 62 in Hlong. set (k := zlen ds / 2).
  assert (2 * k ≤ zlen ds ≤ 2 * k + 1) as Hk by (pose proof (Z.div_mod (zlen ds) 2); pose proof (Z.mod_pos_bound (zlen ds) 2); unfold k; lia).
  set (as_ := drop (Z.to_nat k) ds). set (bs := take (Z.to_nat k) ds).
  assert (zlen as_ = zlen ds - k) as Hla by (unfold as_; rewrite zlen_drop; lia).
  assert (zlen bs = k) as Hlb by (unfold bs; rewrite zlen_take; lia).
  assert (ok bs ∧ ok as_) as [Hob Hoa] by (rewrite <- (take_drop (Z.to_nat k) ds) in Hok; by apply ok_app in Hok).
  assert (bval ds = bval bs + BIGRAD ^ k * bval as_) as Eds.
  { unfold ds. rewrite <- (take_drop (Z.to_nat k) (digits x)) at 1. fold ds bs as_. by rewrite bval_app, Hlb. }
  destruct (IH (mkBig true as_)) as (a2 & -> & Ha2 & Ha2t & Ha2v & Ha2s); [by split; cbn; [|lia]|cbn; lia|cbn; unfold zlen in *; lia|].
  destruct (IH (mkBig true bs)) as (z & -> & Hz & Hzt & Hzv & Hzs); [by split; cbn; [|lia]|cbn; lia|cbn; unfold zlen in *; lia|].
  cbn [mbind res_bind].
  destruct (mul_trunc (mkBig true as_) (mkBig true bs)) as (ab & -> & Hab & Habt & Habv & Habs);
    [by split; cbn; [|lia]|by split; cbn; [|lia]|cbn; lia|cbn; lia|]. cbn [mbind res_bind].
  rewrite bigtrunc_trimmed by (done || apply Ha2). cbn in Habs. unfold bigval in Habv, Ha2v, Hzv.
  rewrite Habs in Habv. rewrite Ha2s in Ha2v. rewrite Hzs in Hzv. cbn [sign digits] in Habv, Ha2v, Hzv.
  pose proof (bval_bound as_ Hoa) as Hba. pose proof (bval_bound bs Hob) as Hbb. rewrite Hlb in Hbb.
  pose proof (bval_bound _ (bo_ok _ Ha2)) as Hba2. pose proof (pow_pos k ltac:(lia)) as HP.
  destruct (sqr_combine_spec k (digits a2) (digits z) (digits (bigtrunc ab))) as (rs & -> & Hr & Hlr & Hrv);
    [apply Ha2|apply Hz|apply Hab|lia|..].
  { apply trimmed_len; [apply Hz|done| |lia]. rewrite Hzv. replace (2 * k) with (k + k) by lia. rewrite Z.pow_add_r by lia. nia. }
  { apply trimmed_len; [apply Hab|done| |pose proof (bo_len _ Ha2); lia]. rewrite Habv, Z.pow_add_r by (pose proof (bo_len _ Ha2); lia).
    rewrite Ha2v in Hba2. assert (bval as_ ≤ bval as_ * bval as_) by nia. nia. }
  cbn [mbind res_bind]. destruct (bigtrunc_ok (mkBig (sign z) rs)) as (Hro & Hrt & Hrtv & Hrs).
  { split; cbn; [done|pose proof (bo_len _ Ha2); lia]. }
  eexists. split; [done|]. split_and!; [done|done| |by rewrite Hrs, <- Hzs].
  rewrite Hrtv. unfold bigval. cbn [sign digits]. rewrite Hzs, Hrv, Hzv, Habv, Ha2v.
  replace (2 * k) with (k + k) by lia. rewrite Z.pow_add_r by lia. fold ds. destruct (sign x); rewrite Eds; lia.
Qed.

(** ** The loop over the exponent *)

Lemma abs_bigval x : ok (digits x) → Z.abs (bigval x) = bval (digits x).
Proof. intros Hok. pose proof (bval_bound _ Hok). unfold bigval. destruct (sign x); lia. Qed.

(** The partial power fits in the digits of the whole one. *)
Lemma pow_len x z m n :
  big_ok x → big_ok z → trimmed (digits z) → bigval z = bigval x ^ m → 0 < m ≤ n → zlen (digits x) * n ≤ BIGLEN_LIMIT →
  zlen (digits z) ≤ BIGLEN_LIMIT.
Proof.
  intros Hx Hz Ht Hv Hm Hn. pose proof (bo_len _ Hx). pose proof BIGRAD_pos. transitivity (zlen (digits x) * m); [|nia].
  apply trimmed_len; [apply Hz|done| |nia]. rewrite <- abs_bigval by apply Hz. rewrite Hv, Z.abs_pow.
  rewrite abs_bigval by apply Hx. pose proof (bval_bound _ (bo_ok _ Hx)). rewrite Z.pow_mul_r by lia.
  apply Z.pow_lt_mono_l; lia.
Qed.

Lemma shiftr_bit n i : 0 ≤ i → 0 ≤ n → Z.shiftr n i = 2 * Z.shiftr n (i + 1) + Z.b2z (Z.testbit n i).
Proof.
  intros Hi Hn. rewrite <- (Z.shiftr_shiftr n i 1), <- (Z.div2_spec (Z.shiftr n i)) by lia.
  rewrite <- (Z.add_0_l i) at 3. rewrite <- Z.shiftr_spec by lia. rewrite Z.bit0_odd. apply Z.div2_odd.
Qed.

(** What the loop has computed before the bit [i]. *)
Definition pow_inv (x : big) (n i : Z) (z : option big) : Prop :=
  match z with
  | None => Z.shiftr n (i + 1) = 0
  | Some z => big_ok z ∧ trimmed (digits z) ∧ 0 < Z.shiftr n (i + 1) ∧ bigval z = bigval x ^ Z.shiftr n (i + 1)
  end.

Lemma pow_step_spec x n i z :
  big_ok x → trimmed (digits x) → 0 < n → 0 ≤ i → zlen (digits x) * n ≤ BIGLEN_LIMIT →
  pow_inv x n i z → returns (pow_step x n i z) (pow_inv x n (i - 1)).
Proof.
  intros Hx Ht Hn Hi Hlim Hz. unfold pow_step, pow_inv at 1. replace (i - 1 + 1) with i by lia.
  pose proof (shiftr_bit n i Hi ltac:(lia)) as Eb. pose proof (land_bit n i Hi) as Hland.
  assert (0 ≤ Z.shiftr n (i + 1)) as Hpos by (apply Z.shiftr_nonneg; lia).
  assert (∀ j, 0 ≤ j → Z.shiftr n j ≤ n) as Hle.
  { intros j Hj. rewrite Z.shiftr_div_pow2 by lia. apply Z.div_le_upper_bound; [apply Z.pow_pos_nonneg; lia|].
    pose proof (Z.pow_pos_nonneg 2 j). nia. }
  assert (zlen (digits x) ≤ BIGLEN_LIMIT) as Hlx by (pose proof (bo_len _ Hx); nia).
  assert (BIGLEN_LIMIT < 2 ^ 30) as HL by done.
  destruct z as [z|]; cbn [pow_inv] in Hz.
  - destruct Hz as (Hzo & Hzt & Hzp & Hzv). set (m := Z.shiftr n (i + 1)) in *.
    pose proof (pow_len x z m n Hx Hzo Hzt Hzv ltac:(pose proof (Hle (i + 1)); unfold m in *; lia) Hlim) as Hlz.
    destruct (bigsqr_spec (sqr_fuel z) z Hzo) as (q & -> & Hq & Hqt & Hqv & _); [lia|unfold sqr_fuel; lia|]. cbn [mbind res_bind].
    rewrite bigtrunc_trimmed by (done || apply Hq).
    assert (bigval q = bigval x ^ (2 * m)) as Eq by (rewrite Hqv, Hzv, <- Z.pow_add_r by lia; f_equal; lia).
    destruct (Z.eqb_spec (Z.land n (Z.shiftl 1 i)) 0).
    + apply returns_ret. rewrite Eb, <- Hland. rewrite Z.add_0_r. split_and!; try done; lia.
    + rewrite <- Hland in Eb. pose proof (pow_len x q (2 * m) n Hx Hq Hqt Eq ltac:(pose proof (Hle i); lia) Hlim) as Hlq.
      destruct (mul_trunc q x Hq Hx) as (r & -> & Hr & Hrt & Hrv & _); [lia|lia|]. cbn [mbind res_bind]. apply returns_ret.
      rewrite Eb. split_and!; try done; [lia|]. rewrite Hrv, Eq, Z.pow_add_r, Z.pow_1_r by lia. done.
  - cbn [mbind res_bind]. rewrite Hz in Eb. destruct (Z.eqb_spec (Z.land n (Z.shiftl 1 i)) 0); rewrite <- Hland in Eb; apply returns_ret.
    + cbn [pow_inv]. lia.
    + rewrite Eb. split_and!; try done. by rewrite Z.pow_1_r.
Qed.

Lemma rb_big_pow_spec x n :
  big_ok x → trimmed (digits x) → 0 ≤ n ≤ FIXNUM_MAX →
  if decide (zlen (digits x) * n ≤ BIGLEN_LIMIT)
  then returns (rb_big_pow x (Fixnum n)) (λ p, ∃ z, p = PInteger z ∧ nval z = bigval x ^ n ∧ canon z)
  else rb_big_pow x (Fixnum n) = Ok PFloat.
Proof.
  rewrite FIXNUM_MAX_val. intros Hxo Hxt Hn. pose proof (bo_len _ Hxo) as Hl.
  assert (0 < BIGLEN_LIMIT) as HL by done.
  cbn [rb_big_pow]. destruct (Z.eqb_spec n 0) as [->|].
  { rewrite Z.mul_0_r. rewrite decide_True by lia. apply returns_ret. exists (Fixnum 1). split_and!; [done|done|].
    cbn. rewrite FIXNUM_MIN_val, FIXNUM_MAX_val. lia. }
  destruct (Z.ltb_spec n 0); [lia|]. rewrite cdiv_ok by lia. cbn [mbind res_bind]. unfold RBIGNUM_LEN.
  pose proof (Z.mul_div_le BIGLEN_LIMIT n ltac:(lia)) as Hd1. pose proof (Z.mul_succ_div_gt BIGLEN_LIMIT n ltac:(lia)) as Hd2.
  set (q := BIGLEN_LIMIT / n) in *. destruct (decide (zlen (digits x) * n ≤ BIGLEN_LIMIT)) as [Hle|Hgt].
  - rewrite (proj2 (Z.ltb_ge BIGLEN_LIMIT _)), (proj2 (Z.ltb_ge q _)) by nia. cbn [orb].
    eapply returns_bind_mono.
    { apply (for_down_inv (pow_inv x n)); [lia| |].
      - cbn [pow_inv]. rewrite Z.shiftr_div_pow2 by lia. apply Z.div_small. lia.
      - intros i z Hi. apply pow_step_spec; [done|done|lia|lia|done]. }
    intros z Hz. change (0 - 1 + 1) with 0 in Hz. unfold pow_inv in Hz. change (0 - 1 + 1) with 0 in Hz. rewrite Z.shiftr_0_r in Hz.
    destruct z as [z|]; [|lia]. destruct Hz as (Hzo & _ & _ & Hzv).
    destruct (norm_spec z Hzo) as (r & -> & Hr & Hc). cbn [mbind res_bind]. apply returns_ret. exists r.
    split_and!; [done|congruence|done].
  - rewrite (proj2 (Z.ltb_lt q _)) by nia. by rewrite orb_true_r.
Qed.
End operands.
