(* ===== verification/BigStr.v ===== *)
(** * bignum.c: integers from and to text

    [rb_cstr_to_inum] reads a numeral; [big2str_orig] writes the digits of a
    number of moderate size in place, four at a time. *)

From S2P Require Import Prelude Util Big BigVal BigAdd BigMul BigDiv BigBits.

Section text.
Context `{J : Junk}.

(** ** Reading *)

Definition conv_digit (c : Z) : Z :=
  if negb (ISASCII c) then -1 else
  if ISDIGIT c then c - 48 else
  if ISLOWER c then c - 97 + 10 else
  if ISUPPER c then c - 65 + 10 else -1.

(** [base <= 0]: the base is told by a prefix. *)
Definition guess_base (str : cstr) (base : Z) : Z :=
  if 0 <? base then base else
  if peek str =? 48 then
    let c := peek (tail str) in
    if (c =? 120) || (c =? 88) then 16 else
    if (c =? 98) || (c =? 66) then 2 else
    if (c =? 111) || (c =? 79) then 8 else
    if (c =? 100) || (c =? 68) then 10 else 8
  else if base <? -1 then - base else 10.

Definition skip_prefix (str : cstr) (lower upper : Z) : cstr :=
  if (peek str =? 48) && ((peek (tail str) =? lower) || (peek (tail str) =? upper)) then tail (tail str) else str.

(** [switch (base)]: the bits one digit needs, and the string after a prefix. *)
Definition digit_bits (str : cstr) (base : Z) : res (Z * cstr) :=
  if base =? 2 then Ok (1, skip_prefix str 98 66) else
  if base =? 3 then Ok (2, str) else
  if base =? 8 then Ok (3, skip_prefix str 111 79) else
  if (4 <=? base) && (base <=? 7) then Ok (3, str) else
  if base =? 10 then Ok (4, skip_prefix str 100 68) else
  if (9 <=? base) && (base <=? 15) then Ok (4, str) else
  if base =? 16 then Ok (4, skip_prefix str 120 88) else
  if (base <? 2) || (36 <? base) then Err (Raise ArgumentError) else
  Ok (if base <=? 32 then 5 else 6, str).

(** [while ((c = *++str) == '0' || c == '_')]; [prev] is [str - 1]. *)
Fixpoint squeeze_loop (prev str : cstr) (us : Z) : cstr * cstr :=
  match str with
  | [] => (prev, str)
  | c :: str' =>
      if c =? 48 then squeeze_loop str str' 0 else
      if c =? 95 then if 2 <=? us + 1 then (prev, str) else squeeze_loop str str' (us + 1)
      else (prev, str)
  end.

Definition squeeze (str : cstr) : cstr :=
  if peek str =? 48 then
    let '(prev, str) := squeeze_loop str (tail str) 0 in
    if (peek str =? 0) || ISSPACE (peek str) then prev else str
  else str.

(** [num += zds[i]*base; zds[i++] = BIGLO(num); num = BIGDN(num);] *)
Definition parse_mul_step (base i : Z) (s : Z * list Z) : res (Z * list Z) :=
  let '(num, zds) := s in
  d ← aload zds i;
  let num := u128 (num + u128 (d * base)) in
  zds ← astore zds i (BIGLO num);
  Ok (BIGDN num, zds).

(** [for (;;) { while (i<blen) ...; if (num) { blen++; continue; } break; }] *)
Fixpoint parse_digit (fuel : nat) (base i num blen : Z) (zds : list Z) : res (Z * list Z) :=
  match fuel with
  | O => Err NoFuel
  | S fuel' =>
      '(num, zds) ← for_range i blen (parse_mul_step base) (num, zds);
      if num =? 0 then Ok (blen, zds) else parse_digit fuel' base blen num (blen + 1) zds
  end.

(** The carry out of the digits in use fills one more, and no second one. *)
Definition parse_fuel : nat := 2.

(** The loop over the characters; the result has the string from the character
    that ended it. *)
Fixpoint bigparse_loop (str : cstr) (base : Z) (badcheck nondigit : bool) (blen : Z) (zds : list Z)
    : res (cstr * list Z) :=
  match str with
  | [] => Ok (str, zds)
  | c :: str' =>
      if c =? 95 then
        if nondigit then (if badcheck then Err (Raise ArgumentError) else Ok (str, zds))
        else bigparse_loop str' base badcheck true blen zds
      else
      let d := conv_digit c in
      if (d <? 0) || (base <=? d) then Ok (str, zds) else
      '(blen, zds) ← parse_digit parse_fuel base 0 d blen zds;
      bigparse_loop str' base badcheck false blen zds
  end.

(** [s] is the string the function was called with, [len] the number of bits. *)
Definition bigparse (s str : cstr) (base : Z) (badcheck sign : bool) (len : Z) : res num :=
  let len := len / BITSPERDIG + 1 in
  if badcheck && (peek str =? 95) then Err (Raise ArgumentError) else
  zds ← for_down (len - 1) 0 (λ i zds, astore zds i 0) (fresh len);
  '(str, zds) ← bigparse_loop str base badcheck false 1 zds;
  ok ← (if badcheck then
          let pos := zlen s - zlen str in
          us ← (if 1 <? pos then c ← aload s (pos - 1); Ok (c =? 95) else Ok false);
          Ok (negb us && (peek (skip_space str) =? 0))
        else Ok true);
  if ok : bool then bignorm (mkBig sign zds) else Err (Raise ArgumentError).

(** A numeral that may fit in a [long]. *)
Definition parse_long (s str : cstr) (base : Z) (badcheck sign : bool) (len : Z) : res num :=
  '(val, endp, _) ← ruby_strtoul str base;
  match endp with
  | None => Err BadPointer
  | Some endp =>
      if (zlen endp <? zlen str) && (peek endp =? 95) then bigparse s str base badcheck sign len else
      if badcheck && ((zlen endp =? zlen str) || negb (peek (skip_space endp) =? 0)) then Err (Raise ArgumentError) else
      if POSFIXABLE val then Ok (Fixnum (if sign then val else - val)) else
      b ← rb_uint2big val; bignorm (set_sign sign b)
  end.

Definition rb_cstr_to_inum (str : option cstr) (base : Z) (badcheck : bool) : res num :=
  let bad := if badcheck then Err (Raise ArgumentError) else Ok (Fixnum 0) in
  match str with
  | None => bad
  | Some s =>
      let str := skip_space s in
      let '(sign, str) :=
        if peek str =? 43 then (true, tail str) else if peek str =? 45 then (false, tail str) else (true, str) in
      if (peek str =? 43) || (peek str =? 45) then bad else
      let base := guess_base str base in
      '(bits, str) ← digit_bits str base;
      let str := squeeze str in
      let c := conv_digit (peek str) in
      if (c <? 0) || (base <=? c) then bad else
      let len := bits * zlen str in
      if len <=? 64 then parse_long s str base badcheck sign len else bigparse s str base badcheck sign len
  end.

(** ** Writing *)

(** "0123456789abcdefghijklmnopqrstuvwxyz" *)
Definition ruby_digitmap : list Z := (λ i, if Z.of_nat i <? 10 then 48 + Z.of_nat i else 87 + Z.of_nat i) <$> seq 0 36.

(** [num = BIGUP(num) + ds[k]; ds[k] = num / hbase; num %= hbase;] *)
Definition div_hbase (ds : list Z) (hbase i : Z) : res (Z * list Z) :=
  for_down (i - 1) 0 (div_small_step hbase) (0, ds).

(** The four digits of one remainder, from the right: the value of [j] and the
    buffer. *)
Fixpoint put_digits (k : nat) (base : Z) (trim : bool) (i num j : Z) (ptr : list Z) : res (Z * list Z) :=
  match k with
  | O => Ok (j, ptr)
  | S k' =>
      r ← cmod num base;
      c ← aload ruby_digitmap r;
      let j := j - 1 in
      ptr ← astore ptr j c;
      num ← cdiv num base;
      if j <=? 0 then Ok (j, ptr) else
      if trim && (i =? 0) && (num =? 0) then Ok (j, ptr) else
      put_digits k' base trim i num j ptr
  end.

(** [while (i && j > 0)] *)
Fixpoint big2str_loop (fuel : nat) (base hbase : Z) (trim : bool) (i j : Z) (ds ptr : list Z)
    : res (Z * list Z) :=
  match fuel with
  | O => Err NoFuel
  | S fuel' =>
      if (i =? 0) || (j <=? 0) then Ok (j, ptr) else
      '(num, ds) ← div_hbase ds hbase i;
      i ← (if trim then top ← aload ds (i - 1); Ok (if top =? 0 then i - 1 else i) else Ok i);
      '(j, ptr) ← put_digits 4 base trim i num j ptr;
      big2str_loop fuel' base hbase trim i j ds ptr
  end.

(** [while (j < len && ptr[j] == '0') j++;] *)
Fixpoint skip_zeros (cs : list Z) : list Z :=
  match cs with
  | c :: cs' => if c =? 48 then skip_zeros cs' else cs
  | [] => []
  end.

(** The characters written: the [len - j] from [j] on, without leading zeros when
    they are trimmed ([memmove] to the start of the buffer). *)
Definition big2str_orig (x : big) (base : Z) (ptr : list Z) (len hbase : Z) (trim : bool) : res (list Z) :=
  '(j, ptr) ← big2str_loop (S (Z.to_nat len)) base hbase trim (RBIGNUM_LEN x) len (digits x) ptr;
  Ok (if trim then skip_zeros (drop (Z.to_nat j) (take (Z.to_nat len) ptr)) else take (Z.to_nat len) ptr).

(** ** Numerals with underscores *)

Lemma conv_digit_val c : conv_digit c = digit_val c.
Proof.
  unfold conv_digit, digit_val, ISASCII, ISDIGIT, ISLOWER, ISUPPER.
  destruct (Z.ltb_spec c 128), (Z.leb_spec 48 c), (Z.leb_spec c 57), (Z.leb_spec 97 c), (Z.leb_spec c 122), (Z.leb_spec 65 c),
    (Z.leb_spec c 90); cbn; lia.
Qed.

Lemma not_digit base c : (digit_val c <? 0) || (base <=? digit_val c) = negb (is_digit base c).
Proof.
  unfold is_digit. destruct (Z.ltb_spec (digit_val c) 0), (Z.leb_spec base (digit_val c)), (Z.leb_spec 0 (digit_val c)),
    (Z.ltb_spec (digit_val c) base); cbn; lia || done.
Qed.

(** Digits with single underscores between them; [nd]: an underscore may not come
    next. *)
Fixpoint wf_body (base : Z) (nd : bool) (cs : cstr) : bool :=
  match cs with
  | [] => negb nd
  | c :: cs' => if c =? 95 then negb nd && wf_body base true cs' else is_digit base c && wf_body base false cs'
  end.

Definition strip (cs : cstr) : cstr := List.filter (λ c, negb (c =? 95)) cs.

Lemma strip_cons c cs : strip (c :: cs) = if c =? 95 then strip cs else c :: strip cs.
Proof. unfold strip. cbn. by destruct (c =? 95). Qed.

Lemma wf_body_digits base nd cs : wf_body base nd cs = true → digits_ok base (strip cs).
Proof.
  revert nd. induction cs as [|c cs IH]; intros nd H; [constructor|]. cbn in H. rewrite strip_cons.
  destruct (Z.eqb_spec c 95); apply andb_true_iff in H as [H1 H2]; [by eapply IH|]. constructor; [done|by eapply IH].
Qed.

Lemma wf_body_weaken base cs : wf_body base true cs = true → wf_body base false cs = true.
Proof. destruct cs as [|c cs]; [done|]. cbn. by destruct (c =? 95). Qed.

Lemma strip_len cs : zlen (strip cs) ≤ zlen cs.
Proof.
  induction cs as [|c cs IH]; [done|]. rewrite strip_cons, zlen_cons. destruct (c =? 95); rewrite ?zlen_cons; lia.
Qed.

Lemma digit_not_us base c : is_digit base c = true → c ≠ 95.
Proof. intros H ->. unfold is_digit in H. done. Qed.

(** The last character is a digit. *)
Lemma wf_body_last base nd cs c : wf_body base nd cs = true → cs ≠ [] → last cs = Some c → is_digit base c = true.
Proof.
  revert nd. induction cs as [|a cs IH]; intros nd H Hne Hl; [done|]. cbn in H. destruct cs as [|b cs].
  - cbn in Hl. injection Hl as ->. destruct (Z.eqb_spec c 95); apply andb_true_iff in H as [H1 H2]; done.
  - rewrite last_cons_cons in Hl. destruct (a =? 95); apply andb_true_iff in H as [H1 H2]; by eapply IH.
Qed.

(** ** One more digit *)

Lemma parse_mul_loop base a b num zs :
  2 ≤ base ≤ 36 → ok zs → 0 ≤ a ≤ b → b ≤ zlen zs → 0 ≤ num < base →
  returns (for_range a b (parse_mul_step base) (num, zs)) (λ '(num', zds),
    0 ≤ num' < base ∧ ok zds ∧ zlen zds = zlen zs ∧
    seg zds a (b - a) + num' * BIGRAD ^ (b - a) = seg zs a (b - a) * base + num ∧
    ∀ i, ¬ (a ≤ i < b) → dg zds i = dg zs i).
Proof.
  intros Hb Hz Hab Hl Hn. pose proof BIGRAD_pos as HB. assert (36 < BIGRAD) by (rewrite BIGRAD_val; lia).
  apply (for_range_inv (λ k '(num', zds), 0 ≤ num' < base ∧ ok zds ∧ zlen zds = zlen zs ∧
    seg zds a (k - a) + num' * BIGRAD ^ (k - a) = seg zs a (k - a) * base + num ∧ ∀ i, ¬ (a ≤ i < k) → dg zds i = dg zs i)).
  - lia.
  - rewrite Z.sub_diag, !seg_0. split_and!; try done; lia.
  - intros k [m zds] Hk (Hm & Hok & Hlz & Hv & Hrest). cbn [parse_mul_step]. rewrite aload_dg by lia. cbn [mbind res_bind].
    rewrite Hrest by lia. pose proof (Hz k). assert (0 ≤ dg zs k * base ≤ (BIGRAD - 1) * base) by nia.
    rewrite (u128_digits (_ * _)) by nia. rewrite u128_digits by nia.
    rewrite astore_ok by lia. cbn [mbind res_bind]. apply returns_ret. set (w := m + dg zs k * base) in *.
    pose proof (BIGLO_range w). pose proof (BIGDN_bounds w 0 (base - 1) ltac:(lia)).
    split_and!; [lia..|by apply ok_insert|by rewrite zlen_insert| |].
    + replace (k + 1 - a) with (k - a + 1) by lia. replace k with (a + (k - a)) at 1 by lia.
      rewrite seg_insert_last, seg_S, pow_S by lia. replace (a + (k - a)) with k by lia.
      pose proof (split_digit w (BIGRAD ^ (k - a))). unfold w in *. lia.
    + intros i Hi. rewrite dg_insert by lia. rewrite decide_False by lia. apply Hrest. lia.
Qed.

(** The digits in use: the array beyond them is zero. *)
Definition in_use (zs : list Z) (blen : Z) : Prop :=
  ok zs ∧ 1 ≤ blen ≤ zlen zs ∧ ∀ i, blen ≤ i → dg zs i = 0.

Lemma in_use_val zs blen : in_use zs blen → seg zs 0 blen = bval zs.
Proof.
  intros (Hok & Hb & Hz). rewrite bval_seg. replace (zlen zs) with (blen + (zlen zs - blen)) by lia.
  rewrite seg_app by lia. rewrite (seg_zero zs (0 + blen)) by (intros; apply Hz; lia). lia.
Qed.

Lemma parse_digit_spec base d blen zs :
  2 ≤ base ≤ 36 → in_use zs blen → 0 ≤ d < base → bval zs * base + d < BIGRAD ^ zlen zs →
  returns (parse_digit parse_fuel base 0 d blen zs) (λ '(blen', zds),
    in_use zds blen' ∧ zlen zds = zlen zs ∧ bval zds = bval zs * base + d).
Proof.
  intros Hb Hu Hd Hfit. pose proof (in_use_val zs blen Hu) as Hv. destruct Hu as (Hok & Hbl & Hz).
  pose proof BIGRAD_pos as HB. cbn [parse_digit parse_fuel].
  destruct (parse_mul_loop base 0 blen d zs) as ([num z1] & -> & Hn & Hok1 & Hl1 & Hv1 & Hr1); [done|done|lia|lia|lia|].
  cbn [mbind res_bind]. rewrite Z.sub_0_r, Hv in Hv1.
  destruct (Z.eqb_spec num 0) as [->|Hne].
  - apply returns_ret. assert (in_use z1 blen) as Hu1.
    { split_and!; [done|lia|lia|]. intros i Hi. rewrite Hr1 by lia. apply Hz. lia. }
    split_and!; [done|done|]. rewrite <- (in_use_val z1 blen Hu1). lia.
  - assert (blen < zlen zs) as Hlt.
    { destruct (decide (blen < zlen zs)); [done|]. assert (blen = zlen zs) as -> by lia.
      pose proof (seg_bound z1 0 (zlen zs) Hok1 ltac:(lia)). pose proof (pow_pos (zlen zs) ltac:(lia)). nia. }
    destruct (parse_mul_loop base blen (blen + 1) num z1) as ([n2 z2] & -> & Hn2 & Hok2 & Hl2 & Hv2 & Hr2); [done|done|lia|lia|lia|].
    cbn [mbind res_bind]. replace (blen + 1 - blen) with 1 in Hv2 by lia. rewrite !seg_1, Z.pow_1_r in Hv2.
    rewrite (Hr1 blen), (Hz blen) in Hv2 by lia. pose proof (Hok2 blen).
    assert (num < BIGRAD) by (rewrite BIGRAD_val; lia). assert (n2 = 0) as -> by nia. cbn [Z.eqb].
    apply returns_ret. assert (in_use z2 (blen + 1)) as Hu2.
    { split_and!; [done|lia|lia|]. intros i Hi. rewrite Hr2, Hr1 by lia. apply Hz. lia. }
    split_and!; [done|lia|]. rewrite <- (in_use_val z2 _ Hu2), seg_S, Z.add_0_l by lia.
    rewrite (seg_ext z2 z1 0 0) by (intros; apply Hr2; lia). lia.
Qed.

(** What may follow a numeral: white space. *)
Definition spaces (r : cstr) : Prop := Forall (λ c, ISSPACE c = true) r.

Lemma space_facts base c : 2 ≤ base ≤ 36 → ISSPACE c = true → c ≠ 95 ∧ c ≠ 48 ∧ is_digit base c = false ∧ c ≠ 120 ∧ c ≠ 88 ∧ 0 < c < 256.
Proof.
  intros Hb Hs. split_and!; try (intros ->; discriminate).
  - destruct (is_digit base c) eqn:E; [|done]. apply (digit_not_special base c Hb) in E as [E _]. congruence.
  - unfold ISSPACE in Hs. destruct (Z.eqb_spec c 32), (Z.leb_spec 9 c), (Z.leb_spec c 13); cbn in Hs; done || lia.
  - unfold ISSPACE in Hs. destruct (Z.eqb_spec c 32), (Z.leb_spec 9 c), (Z.leb_spec c 13); cbn in Hs; done || lia.
Qed.

Lemma spaces_stop base nd bc r blen zs :
  2 ≤ base ≤ 36 → spaces r → bigparse_loop r base bc nd blen zs = Ok (r, zs).
Proof.
  intros Hb Hr. destruct Hr as [|c r Hc Hr]; [done|]. destruct (space_facts base c Hb Hc) as (H95 & _ & Hd & _). cbn.
  rewrite (proj2 (Z.eqb_neq c 95)) by done. rewrite conv_digit_val, not_digit, Hd. done.
Qed.

Lemma bigparse_loop_spec base bc nd cs r blen zs :
  2 ≤ base ≤ 36 → wf_body base nd cs = true → spaces r → in_use zs blen →
  num_from base (bval zs) (strip cs) < BIGRAD ^ zlen zs →
  returns (bigparse_loop (cs ++ r) base bc nd blen zs) (λ '(str, zds),
    str = r ∧ ok zds ∧ zlen zds = zlen zs ∧ bval zds = num_from base (bval zs) (strip cs)).
Proof.
  intros Hb. revert nd blen zs. induction cs as [|c cs IH]; intros nd blen zs Hwf Hr Hu Hfit.
  { cbn [app]. rewrite spaces_stop by done. apply returns_ret. split_and!; [done|apply Hu|done|done]. }
  pose proof (wf_body_digits base nd _ Hwf) as Hdig.
  cbn in Hwf. rewrite strip_cons in *. cbn [app bigparse_loop]. destruct (Z.eqb_spec c 95) as [->|].
  - apply andb_true_iff in Hwf as [H1 H2]. destruct nd; [done|]. by apply IH.
  - apply andb_true_iff in Hwf as [H1 H2]. rewrite conv_digit_val, not_digit, H1. cbn [negb].
    inversion Hdig as [|? ? _ Hdig']; subst. rewrite num_from_cons in *.
    apply is_digit_bounds in H1 as Hd. pose proof (bval_bound zs (proj1 Hu)) as Hvb.
    destruct (parse_digit_spec base (digit_val c) blen zs) as ([bl2 z2] & -> & Hu2 & Hl2 & Hv2); [done|done|done| |].
    { pose proof (num_from_mono base (bval zs * base + digit_val c) (strip cs) ltac:(lia) ltac:(nia) Hdig'). lia. }
    cbn [mbind res_bind]. eapply returns_mono; [apply IH; [done|done|done|by rewrite Hv2, Hl2]|].
    intros [str zds] (-> & ? & ? & ?). split_and!; [done|done|lia|congruence].
Qed.

(** ** Leading zeros *)

Lemma numeral_zero base cs : numeral base (48 :: cs) = numeral base cs.
Proof. rewrite numeral_cons. cbn [digit_val]. change (digit_val 48) with 0. lia. Qed.

Lemma squeeze_us s : squeeze_loop (48 :: 95 :: s) (95 :: s) (if 48 =? 95 then 1 else 0) = squeeze_loop (95 :: s) s 1.
Proof. done. Qed.
Lemma squeeze_48 prev us s : squeeze_loop prev (48 :: s) us = squeeze_loop (48 :: s) s 0.
Proof. done. Qed.

Lemma squeeze_loop_spec base pc cs r :
  2 ≤ base ≤ 36 → pc = 48 ∨ pc = 95 → wf_body base (pc =? 95) cs = true → spaces r →
  let '(prev, str) := squeeze_loop (pc :: cs ++ r) (cs ++ r) (if pc =? 95 then 1 else 0) in
  ∃ b, (if (peek str =? 0) || ISSPACE (peek str) then prev else str) = b ++ r ∧ wf_body base true b = true ∧
    numeral base (strip b) = numeral base (strip cs) ∧ ∃ q, pc :: cs = q ++ b.
Proof.
  intros Hb. revert pc. induction cs as [|c cs IH]; intros pc Hpc Hwf Hr.
  - destruct Hpc as [->| ->]; [|done]. cbn [app Z.eqb]. assert (wf_body base true [48] = true) as H48.
    { cbn. rewrite andb_true_r. apply is_digit_bounds. change (digit_val 48) with 0. lia. }
    destruct Hr as [|c r Hc Hr]; cbn [squeeze_loop].
    + exists [48]. split_and!; [done..|by exists []].
    + destruct (space_facts base c Hb Hc) as (H95 & Hc0 & _). rewrite (proj2 (Z.eqb_neq c 48)), (proj2 (Z.eqb_neq c 95)) by done.
      cbn [peek hd]. rewrite Hc, orb_true_r. exists [48]. split_and!; [done..|by exists []].
  - cbn in Hwf. rewrite <- app_comm_cons, strip_cons. destruct (Z.eqb_spec c 95) as [->|Hc95].
    + apply andb_true_iff in Hwf as [H1 H2]. destruct Hpc as [->| ->]; [|done]. rewrite squeeze_us.
      pose proof (IH 95 ltac:(by right) H2 Hr) as H. change (if 95 =? 95 then 1 else 0) with 1 in H.
      destruct (squeeze_loop (95 :: cs ++ r) (cs ++ r) 1) as [prev str]. destruct H as (b & ? & ? & ? & q & Eq).
      exists b. split_and!; [done..|]. exists (48 :: q). by rewrite Eq.
    + apply andb_true_iff in Hwf as [H1 H2]. destruct (decide (c = 48)) as [->|Hc48].
      * rewrite squeeze_48, numeral_zero. pose proof (IH 48 ltac:(by left) H2 Hr) as H. change (if 48 =? 95 then 1 else 0) with 0 in H.
        destruct (squeeze_loop (48 :: cs ++ r) (cs ++ r) 0) as [prev str]. destruct H as (b & ? & ? & ? & q & Eq).
        exists b. split_and!; [done..|]. exists (pc :: q). by rewrite Eq.
      * cbn [squeeze_loop]. rewrite (proj2 (Z.eqb_neq c 48)), (proj2 (Z.eqb_neq c 95)) by done.
        exists (c :: cs). destruct (digit_not_special base c Hb H1) as (Hsp & _ & _ & _ & Hr256). cbn [peek hd].
        rewrite (proj2 (Z.eqb_neq c 0)), Hsp by lia. cbn [orb]. split_and!; [done| | |].
        -- cbn. rewrite (proj2 (Z.eqb_neq c 95)) by done. by rewrite H1, H2.
        -- rewrite strip_cons. by rewrite (proj2 (Z.eqb_neq c 95)).
        -- by exists [pc].
Qed.

Lemma wf_body_head base cs : wf_body base true cs = true → ∃ c cs', cs = c :: cs' ∧ is_digit base c = true ∧ wf_body base false cs' = true.
Proof.
  destruct cs as [|c cs]; [done|]. cbn [wf_body]. destruct (c =? 95); [done|]. rewrite andb_true_iff. intros [??]. by exists c, cs.
Qed.

Lemma squeeze_spec base cs r :
  2 ≤ base ≤ 36 → wf_body base true cs = true → spaces r →
  ∃ b, squeeze (cs ++ r) = b ++ r ∧ wf_body base true b = true ∧ numeral base (strip b) = numeral base (strip cs) ∧
    ∃ q, cs = q ++ b.
Proof.
  intros Hb Hwf Hr. destruct (wf_body_head base cs Hwf) as (c & cs' & -> & Hc & Hwf'). unfold squeeze. cbn [app peek hd tail].
  destruct (Z.eqb_spec c 48) as [->|].
  - pose proof (squeeze_loop_spec base 48 cs' r Hb ltac:(by left) Hwf' Hr) as H.
    change (if 48 =? 95 then 1 else 0) with 0 in H.
    destruct (squeeze_loop (48 :: cs' ++ r) (cs' ++ r) 0) as [prev str]. destruct H as (b & -> & H1 & H2 & H3).
    exists b. split_and!; [done|done| |done]. rewrite strip_cons. change (48 =? 95) with false. cbn iota. by rewrite numeral_zero.
  - exists (c :: cs'). split_and!; [done..|by exists []].
Qed.

(** ** Bases and prefixes *)

Definition prefix_ok (base : Z) (pre : cstr) : Prop :=
  pre = [] ∨ ∃ c, pre = [48; c] ∧
    (base = 2 ∧ (c = 98 ∨ c = 66) ∨ base = 8 ∧ (c = 111 ∨ c = 79) ∨ base = 10 ∧ (c = 100 ∨ c = 68) ∨ base = 16 ∧ (c = 120 ∨ c = 88)).

(** Without a prefix, the character after a leading zero is not one of the letters. *)
Lemma skip_prefix_none base cs r lower upper :
  2 ≤ base ≤ 36 → wf_body base true cs = true → spaces r →
  is_digit base lower = false → is_digit base upper = false → lower ≠ 95 → upper ≠ 95 → 0 < lower → 0 < upper →
  ISSPACE lower = false → ISSPACE upper = false →
  skip_prefix (cs ++ r) lower upper = cs ++ r.
Proof.
  intros Hb Hwf Hr Hl Hu Hl95 Hu95 Hlp Hup Hls Hus. destruct (wf_body_head base cs Hwf) as (c & cs' & -> & Hc & Hwf').
  unfold skip_prefix. cbn [app peek hd tail]. destruct (Z.eqb_spec c 48); [|done]. cbn [andb].
  assert (peek (cs' ++ r) ≠ lower ∧ peek (cs' ++ r) ≠ upper) as [H1 H2].
  { destruct cs' as [|c' cs'']; cbn [app].
    - destruct Hr as [|x r Hx Hr]; cbn; [lia|]. split; intros ->; congruence.
    - cbn [peek hd]. cbn in Hwf'. destruct (Z.eqb_spec c' 95) as [->|]; [done|]. apply andb_true_iff in Hwf' as [H _].
      split; intros ->; congruence. }
  by rewrite (proj2 (Z.eqb_neq _ lower)), (proj2 (Z.eqb_neq _ upper)) by done.
Qed.

Lemma skip_prefix_some c s lower upper : c = lower ∨ c = upper → skip_prefix (48 :: c :: s) lower upper = s.
Proof.
  intros Hc. unfold skip_prefix. cbn [peek hd tail]. change (48 =? 48) with true. cbn [andb].
  destruct Hc as [->| ->]; rewrite Z.eqb_refl, ?orb_true_r; done.
Qed.

Lemma digit_bits_spec base pre cs r :
  2 ≤ base ≤ 36 → wf_body base true cs = true → spaces r → prefix_ok base pre →
  ∃ bits, digit_bits (pre ++ cs ++ r) base = Ok (bits, cs ++ r) ∧ 1 ≤ bits ≤ 6 ∧ base ≤ 2 ^ bits.
Proof.
  intros Hb Hwf Hr Hpre. unfold digit_bits.
  assert (∀ lower upper bits, base ≤ 2 ^ bits → 1 ≤ bits ≤ 6 →
    is_digit base lower = false → is_digit base upper = false → lower ≠ 95 → upper ≠ 95 → 0 < lower → 0 < upper →
    ISSPACE lower = false → ISSPACE upper = false → (∀ c, pre = [48; c] → c = lower ∨ c = upper) →
    ∃ bits', Ok (bits, skip_prefix (pre ++ cs ++ r) lower upper) = Ok (bits', cs ++ r) ∧ 1 ≤ bits' ≤ 6 ∧ base ≤ 2 ^ bits') as Hskip.
  { intros lower upper bits H1 H2 H3 H4 H5 H6 H7 H8 H9 H10 Hp. exists bits. split; [|done]. do 2 f_equal.
    destruct Hpre as [->|(c & -> & _)]; cbn [app]; [by eapply skip_prefix_none|]. apply skip_prefix_some. by apply Hp. }
  assert (∀ bits, base ≤ 2 ^ bits → 1 ≤ bits ≤ 6 → (∀ c, pre ≠ [48; c]) →
    ∃ bits', Ok (bits, pre ++ cs ++ r) = Ok (bits', cs ++ r) ∧ 1 ≤ bits' ≤ 6 ∧ base ≤ 2 ^ bits') as Hplain.
  { intros bits H1 H2 Hp. exists bits. split; [|done]. destruct Hpre as [->|(c & -> & _)]; [done|]. by destruct (Hp c). }
  assert (∀ c, pre = [48; c] → base = 2 ∧ (c = 98 ∨ c = 66) ∨ base = 8 ∧ (c = 111 ∨ c = 79) ∨ base = 10 ∧ (c = 100 ∨ c = 68) ∨ base = 16 ∧ (c = 120 ∨ c = 88)) as Hp.
  { intros c E. destruct Hpre as [->|(c' & E' & H)]; [done|]. rewrite E in E'. injection E' as <-. done. }
  destruct (Z.eqb_spec base 2) as [->|]; [apply Hskip; try done; intros c E; specialize (Hp c E); lia|].
  destruct (Z.eqb_spec base 3) as [->|]; [apply Hplain; try done; intros c E; specialize (Hp c E); lia|].
  destruct (Z.eqb_spec base 8) as [->|]; [apply Hskip; try done; intros c E; specialize (Hp c E); lia|].
  destruct (Z.leb_spec 4 base), (Z.leb_spec base 7); cbn [andb]; try lia; [apply Hplain; [cbn; lia|done|intros c E; specialize (Hp c E); lia]|].
  destruct (Z.eqb_spec base 10) as [->|]; [apply Hskip; try done; intros c E; specialize (Hp c E); lia|].
  destruct (Z.leb_spec 9 base), (Z.leb_spec base 15); cbn [andb]; try lia; [apply Hplain; [cbn; lia|done|intros c E; specialize (Hp c E); lia]|].
  destruct (Z.eqb_spec base 16) as [->|]; [apply Hskip; try done; intros c E; specialize (Hp c E); lia|].
  rewrite (proj2 (Z.ltb_ge base 2)), (proj2 (Z.ltb_ge 36 base)) by lia. cbn [orb].
  destruct (Z.leb_spec base 32); apply Hplain; try done; try (cbn; lia); intros c E; specialize (Hp c E); lia.
Qed.

(** ** The two ways to read a numeral *)

Definition signed (sign : bool) (v : Z) : Z := if sign then v else - v.

Lemma skip_spaces r : spaces r → skip_space r = [].
Proof. induction 1 as [|c r Hc Hr IH]; [done|]. cbn. by rewrite Hc. Qed.

Lemma numeral_fits base bits b n :
  2 ≤ base → base ≤ 2 ^ bits → 1 ≤ bits → digits_ok base (strip b) → zlen b ≤ n → 0 ≤ numeral base (strip b) < 2 ^ (bits * n).
Proof.
  intros Hb Hbits Hp Hd Hn. pose proof (numeral_bounds base (strip b) Hb Hd) as [H1 H2]. split; [done|].
  eapply Z.lt_le_trans; [exact H2|]. rewrite Z.pow_mul_r by (pose proof (zlen_nonneg b); lia).
  transitivity ((2 ^ bits) ^ zlen (strip b)); [apply Z.pow_le_mono_l; lia|]. pose proof (strip_len b).
  apply Z.pow_le_mono_r; lia.
Qed.

Lemma last_lookup (q b r : cstr) c : last b = Some c → aload (q ++ b ++ r) (zlen q + zlen b - 1) = Ok c.
Proof.
  intros Hl. apply aload_ok. assert (0 < zlen b) by (destruct b; [done|rewrite zlen_cons; pose proof (zlen_nonneg b); lia]).
  rewrite zlookup_app, decide_False by lia. rewrite zlookup_app, decide_True by lia.
  rewrite last_lookup in Hl. unfold zlookup. rewrite (proj2 (Z.leb_le 0 _)) by lia.
  replace (Z.to_nat (zlen q + zlen b - 1 - zlen q)) with (Init.Nat.pred (length b)) by (unfold zlen in *; lia). done.
Qed.

Lemma bigparse_spec q b r base bits bc sign :
  2 ≤ base ≤ 36 → base ≤ 2 ^ bits → 1 ≤ bits → wf_body base true b = true → spaces r →
  ∃ n, bigparse (q ++ b ++ r) (b ++ r) base bc sign (bits * zlen (b ++ r)) = Ok n ∧
    nval n = signed sign (numeral base (strip b)) ∧ canon n.
Proof.
  intros Hb Hbits Hp Hwf Hr. pose proof BIGRAD_pos as HB. unfold bigparse, BITSPERDIG.
  destruct (wf_body_head base b Hwf) as (c & b' & Eb & Hc & Hwf').
  assert (peek (b ++ r) =? 95 = false) as ->.
  { rewrite Eb. cbn. apply Z.eqb_neq. by eapply digit_not_us. }
  rewrite andb_false_r. set (T := bits * zlen (b ++ r)).
  assert (0 ≤ T) as HT by (unfold T; pose proof (zlen_nonneg (b ++ r)); nia).
  pose proof (Z.div_pos T 64 HT ltac:(lia)). set (len := T / 64 + 1). pose proof (zlen_fresh len ltac:(lia)) as Hf.
  destruct (clear_loop (fresh len)) as (z0 & E0 & Hl0 & Hz0); [apply ok_fresh|lia|]. rewrite Hf in E0. rewrite E0. cbn [mbind res_bind].
  assert (in_use z0 1) as Hu0. { split_and!; [intros i; rewrite Hz0; lia|lia|lia|]. intros i _. apply Hz0. }
  assert (bval z0 = 0) as Hv0. { rewrite bval_seg. apply seg_zero. auto. }
  pose proof (wf_body_digits base true b Hwf) as Hdig.
  pose proof (numeral_fits base bits b (zlen (b ++ r)) ltac:(lia) Hbits Hp Hdig) as Hfit. rewrite zlen_app in Hfit at 1.
  pose proof (zlen_nonneg r). specialize (Hfit ltac:(lia)). fold T in Hfit.
  destruct (bigparse_loop_spec base bc false b r 1 z0) as ([str zds] & -> & -> & Hz & Hlz & Hvz); [done|by apply wf_body_weaken|done|done| |].
  { rewrite Hv0. fold (numeral base (strip b)). eapply Z.lt_le_trans; [apply Hfit|]. rewrite Hl0, Hf, BIGRAD_val, <- Z.pow_mul_r by lia.
    apply Z.pow_le_mono_r; [lia|]. unfold len. pose proof (Z.mod_pos_bound T 64). pose proof (Z.div_mod T 64). lia. }
  cbn [mbind res_bind].
  assert ((if bc then
      us ← (if 1 <? zlen (q ++ b ++ r) - zlen r then
              c ← aload (q ++ b ++ r) (zlen (q ++ b ++ r) - zlen r - 1); Ok (c =? 95) else Ok false);
      Ok (negb us && (peek (skip_space r) =? 0)) else Ok true) = Ok true) as ->.
  { destruct bc; [|done]. rewrite !zlen_app. replace (zlen q + (zlen b + zlen r) - zlen r) with (zlen q + zlen b) by lia.
    rewrite skip_spaces by done. cbn [peek hd]. destruct (last b) as [lc|] eqn:El; [|apply last_None in El; congruence].
    rewrite (last_lookup q b r lc) by done. cbn [mbind res_bind].
    assert (lc =? 95 = false) as ->.
    { apply Z.eqb_neq, (digit_not_us base). eapply wf_body_last; [exact Hwf|congruence|done]. }
    by destruct (1 <? zlen q + zlen b). }
  cbn [mbind res_bind]. rewrite Hv0 in Hvz. fold (numeral base (strip b)) in Hvz.
  destruct (norm_spec (mkBig sign zds)) as (n & -> & Hn & Hcn); [split; cbn; [done|lia]|].
  exists n. split_and!; [done| |done]. rewrite Hn. unfold bigval, signed. cbn. by rewrite Hvz.
Qed.

(** A well-formed body either has no underscore or has one after its first digits. *)
Lemma wf_body_split base nd cs :
  wf_body base nd cs = true →
  (strip cs = cs ∧ digits_ok base cs) ∨
  ∃ p cs', cs = p ++ 95 :: cs' ∧ digits_ok base p ∧ (nd = true → p ≠ []).
Proof.
  revert nd. induction cs as [|c cs IH]; intros nd H; [left; split; [done|constructor]|]. cbn in H. rewrite strip_cons.
  destruct (Z.eqb_spec c 95) as [->|]; apply andb_true_iff in H as [H1 H2].
  - right. exists [], cs. split_and!; [done|constructor|]. by destruct nd.
  - destruct (IH false H2) as [[E Hd]|(p & cs' & -> & Hd & _)].
    + left. split; [by rewrite E|by constructor].
    + right. exists (c :: p), cs'. split_and!; [done|by constructor|done].
Qed.

Lemma spaces_cstr base r : 2 ≤ base ≤ 36 → spaces r → cstr_ok r.
Proof. intros Hb Hr. eapply Forall_impl; [exact Hr|]. intros c Hc. by apply (space_facts base c Hb). Qed.

Lemma wf_body_cstr base nd cs : 2 ≤ base ≤ 36 → wf_body base nd cs = true → cstr_ok cs.
Proof.
  intros Hb. revert nd. induction cs as [|c cs IH]; intros nd H; [constructor|]. cbn in H.
  destruct (Z.eqb_spec c 95) as [->|]; apply andb_true_iff in H as [H1 H2]; constructor; [lia|by eapply IH| |by eapply IH].
  by apply (digit_not_special base).
Qed.

Lemma small_num sign v : 0 ≤ v < 2 ^ 64 →
  ∃ n, (if POSFIXABLE v then Ok (Fixnum (if sign : bool then v else - v)) else b ← rb_uint2big v; bignorm (set_sign sign b)) = Ok n ∧
    nval n = signed sign v ∧ canon n.
Proof.
  intros Hv. unfold POSFIXABLE. rewrite FIXNUM_MAX_val. destruct (Z.ltb_spec v (2 ^ 61 - 1 + 1)).
  - eexists. split; [done|]. cbn [nval canon]. rewrite FIXNUM_MIN_val, FIXNUM_MAX_val. unfold signed. destruct sign; lia.
  - rewrite rb_uint2big_spec by (rewrite BIGRAD_val; lia). cbn [mbind res_bind].
    destruct (norm_spec (set_sign sign (mkBig true [v]))) as (n & -> & Hn & Hc).
    { split; cbn; [apply ok_single; rewrite BIGRAD_val; lia|done]. }
    exists n. split_and!; [done| |done]. rewrite Hn. unfold bigval, signed. cbn. destruct sign; lia.
Qed.

Lemma parse_long_spec q b r base bits bc sign :
  2 ≤ base ≤ 36 → base ≤ 2 ^ bits → 1 ≤ bits → wf_body base true b = true → spaces r → bits * zlen (b ++ r) ≤ 64 →
  ∃ n, parse_long (q ++ b ++ r) (b ++ r) base bc sign (bits * zlen (b ++ r)) = Ok n ∧
    nval n = signed sign (numeral base (strip b)) ∧ canon n.
Proof.
  intros Hb Hbits Hp Hwf Hr H64. unfold parse_long. pose proof (wf_body_digits base true b Hwf) as Hdig.
  pose proof (zlen_nonneg r) as Hlr. pose proof (spaces_cstr base r Hb Hr) as Hrc.
  destruct (wf_body_split base true b Hwf) as [[Es Hd]|(p & cs' & E & Hd & Hne)].
  - rewrite Es in *. destruct (wf_body_head base b Hwf) as (c & b' & Eb & _ & _).
    assert (0 < zlen b) by (rewrite Eb, zlen_cons; pose proof (zlen_nonneg b'); lia).
    pose proof (numeral_fits base bits b (zlen (b ++ r)) ltac:(lia) Hbits Hp) as Hfit. rewrite Es in Hfit.
    specialize (Hfit Hdig). rewrite zlen_app in Hfit at 1. specialize (Hfit ltac:(lia)).
    assert (2 ^ (bits * zlen (b ++ r)) ≤ 2 ^ 64) by (apply Z.pow_le_mono_r; lia).
    pose proof (ruby_strtoul_spec base b r Hb Hd ltac:(congruence) Hrc) as Est. rewrite Est.
    2: { destruct Hr as [|x r Hx Hr]; [done|]. by destruct (space_facts base x Hb Hx) as (? & ? & ? & ? & ? & ?). }
    rewrite decide_True by lia. cbn [mbind res_bind].
    assert (peek r =? 95 = false) as -> by (destruct Hr as [|x r Hx Hr]; [done|]; cbn; apply Z.eqb_neq; by apply (space_facts base x Hb)).
    rewrite andb_false_r. rewrite (proj2 (Z.eqb_neq (zlen r) _)) by (rewrite zlen_app; lia).
    rewrite skip_spaces by done. cbn [peek hd Z.eqb negb orb]. rewrite andb_false_r. apply small_num. lia.
  - assert (b ++ r = p ++ (95 :: cs' ++ r)) as Ebr by (by rewrite E, <- app_assoc).
    assert (cstr_ok (95 :: cs' ++ r)) as Hc.
    { pose proof (wf_body_cstr base true b Hb Hwf) as Hcb. rewrite E in Hcb. apply Forall_app in Hcb as [_ Hcb].
      rewrite app_comm_cons. by apply Forall_app. }
    assert (ruby_strtoul (b ++ r) base = Ok (if decide (numeral base p < 2 ^ 64) then (numeral base p, Some (95 :: cs' ++ r), false)
      else (ULONG_MAX, Some (95 :: cs' ++ r), true))) as ->.
    { rewrite Ebr. apply ruby_strtoul_spec; [done|done|by apply Hne|done|done]. }
    assert (∀ v f, ('(val, endp, _) ← Ok (v, Some (95 :: cs' ++ r), f : bool);
      match endp with None => Err BadPointer | Some endp =>
        if (zlen endp <? zlen (b ++ r)) && (peek endp =? 95) then bigparse (q ++ b ++ r) (b ++ r) base bc sign (bits * zlen (b ++ r)) else
        if bc && ((zlen endp =? zlen (b ++ r)) || negb (peek (skip_space endp) =? 0)) then Err (Raise ArgumentError) else
        if POSFIXABLE val then Ok (Fixnum (if sign then val else - val)) else b ← rb_uint2big val; bignorm (set_sign sign b)
      end) = bigparse (q ++ b ++ r) (b ++ r) base bc sign (bits * zlen (b ++ r))) as Hbp.
    { intros v f. cbn [mbind res_bind peek hd]. rewrite (proj2 (Z.ltb_lt _ _)); [done|]. rewrite Ebr, (zlen_app p).
      assert (p ≠ []) as Hpne by (by apply Hne). destruct p as [|x p]; [done|]. rewrite !zlen_cons. pose proof (zlen_nonneg p). lia. }
    destruct (decide (numeral base p < 2 ^ 64)); rewrite Hbp; by apply bigparse_spec.
Qed.

(** ** A whole numeral *)

Definition sign_chars (sgn : cstr) (sign : bool) : Prop :=
  (sgn = [] ∨ sgn = [43]) ∧ sign = true ∨ sgn = [45] ∧ sign = false.

Lemma skip_space_app sp t : spaces sp → ISSPACE (peek t) = false → skip_space (sp ++ t) = t.
Proof.
  intros Hs Ht. induction Hs as [|c sp Hc Hs IH]; cbn.
  - destruct t as [|c t]; [done|]. cbn in *. by rewrite Ht.
  - by rewrite Hc.
Qed.

Lemma rb_cstr_to_inum_spec sp sgn sign pre b r base0 base bc :
  spaces sp → sign_chars sgn sign → prefix_ok base pre → wf_body base true b = true → spaces r →
  2 ≤ base ≤ 36 → guess_base (pre ++ b ++ r) base0 = base →
  ∃ n, rb_cstr_to_inum (Some (sp ++ sgn ++ pre ++ b ++ r)) base0 bc = Ok n ∧
    nval n = signed sign (numeral base (strip b)) ∧ canon n.
Proof.
  intros Hsp Hsgn Hpre Hwf Hr Hb Hg. unfold rb_cstr_to_inum.
  destruct (wf_body_head base b Hwf) as (c & b' & Eb & Hc & _).
  destruct (digit_not_special base c Hb Hc) as (Hcs & Hc43 & Hc45 & _ & _).
  assert (∃ h t, pre ++ b ++ r = h :: t ∧ ISSPACE h = false ∧ h ≠ 43 ∧ h ≠ 45) as (h & t & Eh & Hhs & Hh43 & Hh45).
  { destruct Hpre as [->|(c' & -> & _)]; [rewrite Eb; by exists c, (b' ++ r)|by exists 48, (c' :: b ++ r)]. }
  set (body := pre ++ b ++ r) in *.
  assert (skip_space (sp ++ sgn ++ body) = sgn ++ body) as ->.
  { apply skip_space_app; [done|]. destruct Hsgn as [[[->| ->] _]|[-> _]]; [by rewrite Eh|done|done]. }
  assert ((if peek (sgn ++ body) =? 43 then (true, tail (sgn ++ body)) else
           if peek (sgn ++ body) =? 45 then (false, tail (sgn ++ body)) else (true, sgn ++ body)) = (sign, body)) as ->.
  { destruct Hsgn as [[[->| ->] ->]|[-> ->]]; cbn; [|done|done]. rewrite Eh. cbn.
    by rewrite (proj2 (Z.eqb_neq h 43)), (proj2 (Z.eqb_neq h 45)). }
  assert ((peek body =? 43) || (peek body =? 45) = false) as ->.
  { rewrite Eh. cbn. by rewrite (proj2 (Z.eqb_neq h 43)), (proj2 (Z.eqb_neq h 45)). }
  rewrite Hg. destruct (digit_bits_spec base pre b r Hb Hwf Hr Hpre) as (bits & E & Hbits & Hbase). fold body in E. rewrite E.
  cbn [mbind res_bind]. destruct (squeeze_spec base b r Hb Hwf Hr) as (b2 & -> & Hwf2 & Hn2 & q2 & Eq2).
  destruct (wf_body_head base b2 Hwf2) as (c2 & b2' & Eb2 & Hc2 & _).
  assert (peek (b2 ++ r) = c2) as -> by (by rewrite Eb2). rewrite conv_digit_val, not_digit, Hc2. cbn [negb]. rewrite <- Hn2.
  assert (∃ q, sp ++ sgn ++ body = q ++ b2 ++ r) as (q & ->).
  { exists (sp ++ sgn ++ pre ++ q2). unfold body. rewrite Eq2. by rewrite <- !app_assoc. }
  destruct (Z.leb_spec (bits * zlen (b2 ++ r)) 64).
  - apply parse_long_spec; try done; lia.
  - apply bigparse_spec; try done; lia.
Qed.
End text.

(** ** Writing the digits *)

Lemma digitmap_spec r : 0 ≤ r < 36 → ∃ c, aload ruby_digitmap r = Ok c ∧ digit_val c = r.
Proof.
  intros Hr. assert (forallb (λ n, match aload ruby_digitmap (Z.of_nat n) with Ok c => digit_val c =? Z.of_nat n | Err _ => false end)
    (seq 0 36) = true) as H by (vm_compute; reflexivity).
  rewrite forallb_forall in H. specialize (H (Z.to_nat r) ltac:(apply in_seq; lia)). rewrite Z2Nat.id in H by lia.
  destruct (aload ruby_digitmap r) as [c|]; [|done]. exists c. split; [done|]. by apply Z.eqb_eq.
Qed.

Lemma numeral_snoc base cs c : numeral base (cs ++ [c]) = numeral base cs * base + digit_val c.
Proof. unfold numeral. by rewrite num_from_app. Qed.

Lemma numeral_app base cs cs' : numeral base (cs ++ cs') = numeral base cs * base ^ zlen cs' + numeral base cs'.
Proof. unfold numeral at 1. rewrite num_from_app, num_from_val. done. Qed.

Lemma drop_store (ptr : list Z) j c :
  0 < j ≤ zlen ptr → drop (Z.to_nat (j - 1)) (<[Z.to_nat (j - 1) := c]> ptr) = c :: drop (Z.to_nat j) ptr.
Proof.
  intros Hj. unfold zlen in Hj. rewrite (drop_S _ c).
  - f_equal. rewrite drop_insert_lt by lia. f_equal. lia.
  - apply list_lookup_insert_eq. lia.
Qed.

Lemma put_digits_spec k base trim i num j ptr :
  2 ≤ base ≤ 36 → 0 ≤ num → 0 < j ≤ zlen ptr → (0 < k)%nat →
  returns (put_digits k base trim i num j ptr) (λ '(j', ptr'),
    ∃ ds Q, zlen ptr' = zlen ptr ∧ drop (Z.to_nat j') ptr' = ds ++ drop (Z.to_nat j) ptr ∧ zlen ds = j - j' ∧
      0 ≤ j' < j ∧ zlen ds ≤ Z.of_nat k ∧ digits_ok base ds ∧ 0 ≤ Q ∧ num = Q * base ^ zlen ds + numeral base ds ∧
      (zlen ds = Z.of_nat k ∨ j' = 0 ∨ trim = true ∧ i = 0 ∧ Q = 0)).
Proof.
  intros Hb. revert num j ptr. induction k as [|k IH]; intros num j ptr Hn Hj Hk; [lia|]. cbn [put_digits].
  rewrite cmod_ok by lia. cbn [mbind res_bind]. pose proof (Z.mod_pos_bound num base ltac:(lia)) as Hm.
  destruct (digitmap_spec (num mod base)) as (c & -> & Hc); [lia|]. cbn [mbind res_bind].
  rewrite astore_ok by lia. cbn [mbind res_bind]. rewrite cdiv_ok by lia. cbn [mbind res_bind].
  pose proof (Z.div_mod num base ltac:(lia)) as Hdm. pose proof (Z.div_pos num base Hn ltac:(lia)) as Hq.
  pose proof (drop_store ptr j c Hj) as Hdrop. set (ptr1 := <[_ := c]> ptr) in *.
  assert (zlen ptr1 = zlen ptr) as Hl1 by (unfold ptr1; by rewrite zlen_insert).
  assert (is_digit base c = true) as Hdc by (apply is_digit_bounds; lia). assert (zlen [c] = 1) as Hz1 by done.
  assert (digits_ok base [c] ∧ num = num / base * base ^ zlen [c] + numeral base [c]) as [Hd1 Hv1].
  { split; [by constructor|]. rewrite zlen_cons, zlen_nil. cbn [Z.add]. rewrite Z.pow_1_r. cbn. rewrite Hc. lia. }
  destruct (Z.leb_spec (j - 1) 0).
  { apply returns_ret. exists [c], (num / base). split_and!; done || lia. }
  destruct (trim && (i =? 0) && (num / base =? 0)) eqn:Estop.
  { apply returns_ret. apply andb_true_iff in Estop as [[-> ?%Z.eqb_eq]%andb_true_iff ?%Z.eqb_eq].
    exists [c], (num / base). split_and!; done || lia || (by right; right). }
  destruct k as [|k].
  { cbn [put_digits]. apply returns_ret. exists [c], (num / base). split_and!; done || lia || (by left). }
  eapply returns_mono; [apply IH; [done|lia|lia]|]. intros [j' ptr'] (ds & Q & Hl & Hd & Hz & Hj' & Hle & Hok & HQ & Hv & Hend).
  exists (ds ++ [c]), Q. rewrite zlen_app, zlen_cons, zlen_nil. split_and!; try done; try lia.
  - rewrite Hd, Hdrop. by rewrite <- app_assoc.
  - by apply Forall_app.
  - rewrite numeral_snoc, Z.pow_add_r by (pose proof (zlen_nonneg ds); lia). cbn [Z.add]. rewrite Z.pow_1_r. nia.
  - destruct Hend as [?|[?|?]]; [left; lia|by right; left|by right; right].
Qed.

(** The state of the loop: what is written are the low digits. *)
Definition str_inv (base v len i j : Z) (ds ptr : list Z) : Prop :=
  ok ds ∧ 0 ≤ i ≤ zlen ds ∧ zlen ptr = len ∧ 0 ≤ j ≤ len ∧ digits_ok base (drop (Z.to_nat j) ptr) ∧
  ∃ Q, 0 ≤ Q ∧ v = Q * base ^ (len - j) + numeral base (drop (Z.to_nat j) ptr) ∧ (j = 0 ∨ Q = seg ds 0 i).

Lemma hbase_bounds base : 2 ≤ base ≤ 36 → 0 < base ^ 4 < BIGRAD.
Proof.
  intros Hb. split; [apply Z.pow_pos_nonneg; lia|]. rewrite BIGRAD_val.
  apply Z.le_lt_trans with (36 ^ 4); [apply Z.pow_le_mono_l; lia|done].
Qed.

Lemma big2str_loop_spec fuel base v len trim i j ds ptr :
  2 ≤ base ≤ 36 → str_inv base v len i j ds ptr → j < Z.of_nat fuel → (trim = false → 0 < i) →
  returns (big2str_loop fuel base (base ^ 4) trim i j ds ptr) (λ '(j', ptr'),
    zlen ptr' = len ∧ 0 ≤ j' ≤ len ∧ digits_ok base (drop (Z.to_nat j') ptr') ∧
    ∃ Q, 0 ≤ Q ∧ v = Q * base ^ (len - j') + numeral base (drop (Z.to_nat j') ptr') ∧ (j' = 0 ∨ trim = true ∧ Q = 0)).
Proof.
  intros Hb. pose proof (hbase_bounds base Hb) as HH. revert i j ds ptr.
  induction fuel as [|fuel IH]; intros i j ds ptr (Hok & Hi & Hl & Hj & Hd & Q & HQ & Hv & HQi) Hf Htr; [lia|].
  cbn [big2str_loop]. destruct (Z.eqb_spec i 0) as [->|Hi0]; cbn [orb].
  { apply returns_ret. split_and!; try done; try lia. exists Q. split_and!; try done.
    destruct HQi as [?|E]; [by left|right]. rewrite seg_0 in E. split; [|done]. destruct trim; [done|]. specialize (Htr eq_refl). lia. }
  destruct (Z.leb_spec j 0).
  { apply returns_ret. split_and!; try done; try lia. exists Q. split_and!; try done. left; lia. }
  destruct HQi as [|HQi]; [lia|]. unfold div_hbase.
  destruct (div_small_loop ds i (base ^ 4) Hok HH) as ([num ds'] & -> & Hok' & Hl' & Hvd & Hnum); [lia|]. cbn [mbind res_bind].
  assert (∃ i', (if trim then top ← aload ds' (i - 1); Ok (if top =? 0 then i - 1 else i) else Ok i) = Ok i' ∧
    0 ≤ i' ≤ i ∧ seg ds' 0 i' = seg ds' 0 i ∧ (trim = false → i' = i)) as (i' & -> & Hi' & Hseg & Htr').
  { destruct trim; [|exists i; split_and!; done || lia]. rewrite aload_dg by lia. cbn [mbind res_bind]. eexists. split; [done|].
    destruct (Z.eqb_spec (dg ds' (i - 1)) 0) as [E|]; [|split_and!; done || lia].
    split_and!; [lia..| |done]. replace i with (i - 1 + 1) at 2 by lia. rewrite seg_S, Z.add_0_l, E by lia. lia. }
  cbn [mbind res_bind].
  destruct (put_digits_spec 4 base trim i' num j ptr Hb) as ([j' ptr'] & -> & cs & R & Hlp & Hdp & Hcs & Hj' & Ht4 & Hdc & HR & Hn & Hend); [lia|lia|lia|].
  cbn [mbind res_bind]. apply IH; [|lia|intros E; specialize (Htr E); specialize (Htr' E); lia].
  assert (digits_ok base (drop (Z.to_nat j') ptr')) as Hdok by (rewrite Hdp; by apply Forall_app).
  assert (zlen (drop (Z.to_nat j) ptr) = len - j) as Hold by (rewrite zlen_drop; lia).
  set (S' := seg ds' 0 i) in *. pose proof (seg_bound ds' 0 i Hok' ltac:(lia)) as HS. fold S' in HS.
  pose proof (numeral_bounds base cs ltac:(lia) Hdc) as Hncs.
  split_and!; [done|lia|lia|lia|lia|lia|done|]. rewrite Hdp, numeral_app, Hold. subst Q.
  set (t := zlen cs) in *. change (Z.of_nat 4) with 4 in Ht4.
  assert (base ^ 4 = base ^ (4 - t) * base ^ t) as E4 by (rewrite <- Z.pow_add_r by lia; f_equal; lia).
  assert (base ^ (len - j') = base ^ t * base ^ (len - j)) as Ej by (rewrite <- Z.pow_add_r by lia; f_equal; lia).
  exists (S' * base ^ (4 - t) + R). split_and!.
  - assert (0 < base ^ (4 - t)) by (apply Z.pow_pos_nonneg; lia). nia.
  - rewrite Hv, Hvd, Hn, E4, Ej. fold S'. lia.
  - destruct Hend as [E|[E|(-> & Ei & ->)]]; [right|by left|right].
    + change (Z.of_nat 4) with 4 in E. rewrite E in *. rewrite Z.sub_diag, Z.pow_0_r, Hseg.
      assert (R = 0) as -> by nia. fold S'. lia.
    + rewrite <- Hseg, Ei, seg_0. lia.
Qed.

(** ** The string *)

Lemma skip_zeros_spec base cs :
  digits_ok base cs →
  digits_ok base (skip_zeros cs) ∧ numeral base (skip_zeros cs) = numeral base cs ∧ zlen (skip_zeros cs) ≤ zlen cs ∧
  head (skip_zeros cs) ≠ Some 48.
Proof.
  induction 1 as [|c cs Hc Hcs IH]; cbn [skip_zeros]; [by split_and!; [constructor|..]|].
  destruct (Z.eqb_spec c 48) as [->|Hn].
  - destruct IH as (H1 & H2 & H3 & H4). rewrite numeral_zero, zlen_cons. split_and!; [done|done|lia|done].
  - split_and!; [by constructor|done|done|]. cbn. congruence.
Qed.

Section writing.
Context (x : big) (base len : Z) (ptr : list Z).
Hypothesis Hx : big_ok x.
Hypothesis Hb : 2 ≤ base ≤ 36.
Hypothesis Hptr : zlen ptr = len.

Lemma big2str_start : str_inv base (bval (digits x)) len (RBIGNUM_LEN x) len (digits x) ptr.
Proof.
  pose proof (bo_len _ Hx). pose proof (zlen_nonneg ptr). unfold RBIGNUM_LEN.
  assert (drop (Z.to_nat len) ptr = []) as E by (apply drop_ge; unfold zlen in Hptr; lia).
  split_and!; [apply Hx|lia|lia|done|lia|lia|rewrite E; constructor|].
  exists (bval (digits x)). rewrite E, Z.sub_diag, Z.pow_0_r, <- bval_seg. pose proof (bval_bound _ (bo_ok _ Hx)).
  split_and!; [lia|cbn; lia|by right].
Qed.

(** Without leading zeros: the numeral of the number. *)
Lemma big2str_trim :
  bval (digits x) < base ^ len →
  returns (big2str_orig x base ptr len (base ^ 4) true) (λ cs,
    digits_ok base cs ∧ numeral base cs = bval (digits x) ∧ zlen cs ≤ len ∧ head cs ≠ Some 48).
Proof.
  intros Hfit. pose proof (zlen_nonneg ptr). unfold big2str_orig.
  destruct (big2str_loop_spec (S (Z.to_nat len)) base (bval (digits x)) len true (RBIGNUM_LEN x) len (digits x) ptr Hb big2str_start)
    as ([j p] & -> & Hl & Hj & Hd & Q & HQ & Hv & Hend); [lia|done|]. cbn [mbind res_bind]. apply returns_ret.
  assert (take (Z.to_nat len) p = p) as -> by (apply take_ge; unfold zlen in Hl; lia).
  destruct (skip_zeros_spec base _ Hd) as (H1 & H2 & H3 & H4). split_and!; [done| |rewrite zlen_drop in H3 by lia; lia|done].
  rewrite H2. pose proof (numeral_bounds base _ ltac:(lia) Hd) as Hnb. rewrite zlen_drop in Hnb by lia.
  assert (Q = 0) as -> by (destruct Hend as [->|[_ ?]]; [rewrite Z.sub_0_r in Hv; nia|done]). lia.
Qed.

(** With them: the low [len] digits. *)
Lemma big2str_pad :
  returns (big2str_orig x base ptr len (base ^ 4) false) (λ cs,
    digits_ok base cs ∧ zlen cs = len ∧ numeral base cs = bval (digits x) mod base ^ len).
Proof.
  pose proof (zlen_nonneg ptr). unfold big2str_orig. pose proof (bo_len _ Hx).
  destruct (big2str_loop_spec (S (Z.to_nat len)) base (bval (digits x)) len false (RBIGNUM_LEN x) len (digits x) ptr Hb big2str_start)
    as ([j p] & -> & Hl & Hj & Hd & Q & HQ & Hv & Hend); [lia|intros _; unfold RBIGNUM_LEN; lia|]. cbn [mbind res_bind]. apply returns_ret.
  assert (take (Z.to_nat len) p = p) as -> by (apply take_ge; unfold zlen in Hl; lia).
  destruct Hend as [->|[? _]]; [|done]. change (drop (Z.to_nat 0) p) with p in *. rewrite Z.sub_0_r in Hv.
  pose proof (numeral_bounds base _ ltac:(lia) Hd) as Hnb. rewrite Hl in Hnb. split_and!; [done|done|].
  apply Z.mod_unique with Q; lia.
Qed.
End writing.

Lemma digits_wf base cs : digits_ok base cs → cs ≠ [] → wf_body base true cs = true ∧ strip cs = cs.
Proof.
  intros Hd Hne. assert (∀ nd, cs ≠ [] ∨ nd = false → wf_body base nd cs = true ∧ strip cs = cs) as H; [|by apply H; left].
  clear Hne. induction Hd as [|c cs Hc Hd IH]; intros nd Hn; [destruct Hn as [? | ->]; done|]. cbn [wf_body]. rewrite strip_cons.
  rewrite (proj2 (Z.eqb_neq c 95)) by (by eapply digit_not_us). destruct (IH false) as [-> ->]; [by right|]. by rewrite Hc.
Qed.
