(* ===== verification/BigThm.v ===== *)
(** * bignum.c: the theorems

    Integers are compared with Rocq's [Z] through [nval]; every operation returns
    a canonical number ([canon]: a fixnum when it fits in one, otherwise a bignum
    without leading zeros), whatever fresh memory holds ([Junk]). *)

From S2P Require Import Prelude Util Big BigVal BigAdd BigMul BigDiv BigBits BigPow BigStr.

(** ** Canonical numbers *)

(** A decision procedure for [canon], for concrete numbers. *)
Definition canonb (n : num) : bool :=
  match n with
  | Fixnum n => (FIXNUM_MIN <=? n) && (n <=? FIXNUM_MAX)
  | Bignum b => forallb (λ d, (0 <=? d) && (d <? BIGRAD)) (digits b) &&
                ((zlen (digits b) =? 1) || negb (dg (digits b) (zlen (digits b) - 1) =? 0)) &&
                (0 <? zlen (digits b)) &&
                negb ((FIXNUM_MIN <=? bigval b) && (bigval b <=? FIXNUM_MAX))
  end.

Lemma canonb_ok n : canonb n = true → canon n.
Proof.
  destruct n as [n|b]; cbn [canonb canon].
  - rewrite andb_true_iff, !Z.leb_le. lia.
  - rewrite !andb_true_iff, negb_true_iff, andb_false_iff, orb_true_iff, Z.eqb_eq, negb_true_iff, Z.eqb_neq, Z.ltb_lt, !Z.leb_gt.
    intros [[[Hd Ht] Hl] Hn]. split_and!; [|destruct Ht; [by left|by right]|done|lia].
    clear Ht Hl Hn. induction (digits b) as [|d ds IH]; [apply ok_nil|]. cbn [forallb] in Hd.
    rewrite !andb_true_iff, Z.leb_le, Z.ltb_lt in Hd. destruct Hd as [Hd Hds]. apply ok_cons. split; [lia|by apply IH].
Qed.

Section theorems.
Context `{J : Junk}.

(** ** Arithmetic *)

(** The sum and the difference of a bignum and an integer (a fixnum or a
    bignum) are the sum and the difference of their values, in canonical form. *)
Lemma rb_big_plus_minus_correct x y :
  canon (Bignum x) → canon y →
  returns (rb_big_plus x y) (λ z, nval z = bigval x + nval y ∧ canon z) ∧
  returns (rb_big_minus x y) (λ z, nval z = bigval x - nval y ∧ canon z).
Proof.
  intros Hx Hy. destruct (canon_big x Hx) as [Hxo Htx]. split.
  - destruct (addsub_spec x y true Hxo Htx Hy) as (z & E & Hc & Hv). by exists z.
  - destruct (addsub_spec x y false Hxo Htx Hy) as (z & E & Hc & Hv). by exists z.
Qed.

(** The product of a bignum and an integer is the product of their values, in
    canonical form, for operands of fewer than 2^30 digits (the multiplication
    counts digits in [int]s). *)
Lemma rb_big_mul_correct x y :
  canon (Bignum x) → canon y → zlen (digits x) < 2 ^ 30 → short y →
  returns (rb_big_mul x y) (λ z, nval z = bigval x * nval y ∧ canon z).
Proof.
  intros Hx Hy Hsx Hsy. destruct (canon_big x Hx) as [Hxo _]. by apply rb_big_mul_spec.
Qed.

(** Division by a nonzero integer terminates without leaving its arrays, with
    at most two corrections of each quotient digit, and gives the floored quotient
    and the modulus with the sign of the divisor, in canonical form; [/], [%] and
    [divmod] agree. *)
Lemma rb_big_divmod_correct x y :
  canon (Bignum x) → canon y → nval y ≠ 0 →
  returns (rb_big_divmod x y) (λ '(d, m),
    nval d = bigval x / nval y ∧ nval m = bigval x mod nval y ∧ canon d ∧ canon m ∧
    rb_big_divide x y = Ok d ∧ rb_big_modulo x y = Ok m).
Proof.
  intros Hx Hy Hnz. destruct (canon_big x Hx) as [Hxo _]. unfold rb_big_divmod, rb_big_divide, rb_big_modulo.
  destruct (to_big_spec y Hy) as (b & E & Hb & Hbo & Hbt).
  destruct (bigdivmod_spec x b Hxo Hbo Hbt) as (d & m & Ed & Hd & Hm & Hvd & Hvm).
  { intros E0. apply Hnz. rewrite <- Hb. unfold bigval. rewrite E0. by destruct (sign b). }
  rewrite E. cbn [mbind res_bind]. rewrite Ed. cbn [mbind res_bind].
  destruct (norm_spec d Hd) as (nd & -> & Hnd & ?). destruct (norm_spec m Hm) as (nm & -> & Hnm & ?).
  cbn [mbind res_bind]. apply returns_ret. split_and!; congruence.
Qed.

(** [remainder] gives the remainder with the sign of the dividend; division by
    zero raises ZeroDivisionError in each of the four operations. *)
Lemma rb_big_remainder_correct x y :
  canon (Bignum x) → canon y →
  (nval y ≠ 0 → returns (rb_big_remainder x y) (λ m, nval m = Z.rem (bigval x) (nval y) ∧ canon m)) ∧
  (nval y = 0 →
     rb_big_remainder x y = Err (Raise ZeroDivisionError) ∧ rb_big_divide x y = Err (Raise ZeroDivisionError) ∧
     rb_big_modulo x y = Err (Raise ZeroDivisionError) ∧ rb_big_divmod x y = Err (Raise ZeroDivisionError)).
Proof.
  intros Hx Hy. destruct (canon_big x Hx) as [Hxo _]. split; intros Hz.
  - eapply returns_mono; [by apply rb_big_remainder_spec|]. by intros m [].
  - destruct (divide_by_zero x y Hy Hz) as (b & E & Eb).
    unfold rb_big_remainder, rb_big_divide, rb_big_modulo, rb_big_divmod, bigdivmod. rewrite E. cbn [mbind res_bind].
    by rewrite Eb.
Qed.

(** [<=>] orders a bignum and an integer as their values, and [==] holds
    exactly if the values are equal. *)
Lemma rb_big_cmp_eq_correct x y :
  canon (Bignum x) → canon y →
  rb_big_cmp x y = Ok (match bigval x ?= nval y with Lt => -1 | Eq => 0 | Gt => 1 end) ∧
  rb_big_eq x y = Ok (bool_decide (bigval x = nval y)).
Proof.
  intros Hx Hy. split; [by apply rb_big_cmp_spec; [apply canon_wf|]|]. unfold rb_big_eq.
  destruct (to_big_signed y Hy) as (b & -> & <- & [Hb Hlb] & Htb & Hbs).
  destruct (to_big_signed (Bignum x) Hx) as (x' & Ex & _ & [Hx' Hlx] & Htx & Hxs). injection Ex as <-.
  cbn [mbind res_bind]. f_equal. pose proof (bval_bound _ Hx'). pose proof (bval_bound _ Hb).
  destruct (decide (sign x = sign b)) as [Es|Es].
  - rewrite Es, eqb_reflx. cbn [andb]. unfold RBIGNUM_LEN.
    destruct (decide (digits x = digits b)) as [Ed|Ed].
    + rewrite Ed, Z.eqb_refl. cbn [andb]. rewrite !bool_decide_true; [done| |done]. unfold bigval. by rewrite Es, Ed.
    + rewrite (bool_decide_false (digits x = _)) by done. rewrite andb_false_r, bool_decide_false; [done|].
      intros E. apply Ed. apply trimmed_inj; [done..|]. unfold bigval in E. rewrite Es in E. destruct (sign b); lia.
  - rewrite (proj2 (eqb_false_iff _ _)) by done. cbn [andb]. rewrite bool_decide_false; [done|].
    unfold bigval in *. destruct (sign x), (sign b); try done; [specialize (Hbs eq_refl)|specialize (Hxs eq_refl)]; lia.
Qed.

(** ** Bits *)

(** [&], [|], [^] and [~] are the bitwise operations on infinite two's
    complement. *)
Lemma rb_big_bitwise_correct x y :
  canon (Bignum x) → canon y →
  returns (rb_big_and x y) (λ z, nval z = Z.land (bigval x) (nval y) ∧ canon z) ∧
  returns (rb_big_or x y) (λ z, nval z = Z.lor (bigval x) (nval y) ∧ canon z) ∧
  returns (rb_big_xor x y) (λ z, nval z = Z.lxor (bigval x) (nval y) ∧ canon z) ∧
  returns (rb_big_neg x) (λ z, nval z = Z.lnot (bigval x) ∧ canon z).
Proof.
  intros Hx Hy. split_and!; [by apply rb_big_and_spec|by apply rb_big_or_spec|by apply rb_big_xor_spec|by apply rb_big_neg_spec].
Qed.

(** [<<] multiplies by a power of two and [>>] divides by one, rounding down;
    a negative count shifts the other way, and a left shift by 2^64 or more raises
    RangeError. *)
Lemma rb_big_shift_correct x y :
  canon (Bignum x) → zlen (digits x) < 2 ^ 58 → canon y →
  (if decide (nval y < 2 ^ 64)
   then returns (rb_big_lshift x y) (λ z, nval z = Z.shiftl (bigval x) (nval y) ∧ canon z)
   else rb_big_lshift x y = Err (Raise RangeError)) ∧
  (if decide (- 2 ^ 64 < nval y)
   then returns (rb_big_rshift x y) (λ z, nval z = Z.shiftr (bigval x) (nval y) ∧ canon z)
   else rb_big_rshift x y = Err (Raise RangeError)).
Proof.
  intros Hx Hl Hy. pose proof (rb_big_lshift_spec x y (canon_wf x Hx) Hl Hy). pose proof (rb_big_rshift_spec x y (canon_wf x Hx) Hl Hy). by split.
Qed.

(** [big[n]] is bit [n] of the two's complement, for any integer [n]: 0 for a
    negative one, the sign beyond the digits. *)
Lemma rb_big_aref_correct x y :
  canon (Bignum x) → zlen (digits x) < 2 ^ 58 → canon y →
  rb_big_aref x y = Ok (Z.b2z (Z.testbit (bigval x) (nval y))).
Proof. apply rb_big_aref_spec. Qed.

(** ** Machine integers *)

(** [rb_int2inum] represents any [long]; [rb_big2long] returns the value of a
    bignum if it is a [long] and raises RangeError otherwise. *)
Lemma rb_big2long_correct x n :
  canon (Bignum x) → LONG_MIN ≤ n ≤ LONG_MAX →
  (rb_big2long x = if decide (LONG_MIN ≤ bigval x ≤ LONG_MAX) then Ok (bigval x) else Err (Raise RangeError)) ∧
  returns (rb_int2inum n) (λ z, nval z = n ∧ canon z ∧
    match z with Fixnum m => m = n | Bignum b => rb_big2long b = Ok n end).
Proof.
  intros Hx Hn. split; [by apply rb_big2long_spec|]. unfold rb_int2inum, FIXABLE, POSFIXABLE, NEGFIXABLE.
  rewrite FIXNUM_MIN_val, FIXNUM_MAX_val.
  destruct (Z.ltb_spec n (2 ^ 61 - 1 + 1)), (Z.leb_spec (- 2 ^ 61) n); cbn [andb];
    [apply returns_ret; split_and!; [done|cbn; rewrite FIXNUM_MIN_val, FIXNUM_MAX_val; lia|done]|..];
    rewrite rb_int2big_spec by done; cbn [mbind res_bind]; apply returns_ret.
  all: unfold LONG_MIN, LONG_MAX in Hn.
  all: assert (nval (Bignum (mkBig (negb (n <? 0)) [Z.abs n])) = n) as Ev
    by (cbn [nval]; unfold bigval; cbn [sign digits bval]; destruct (Z.ltb_spec n 0); cbn [negb]; lia).
  all: assert (canon (Bignum (mkBig (negb (n <? 0)) [Z.abs n]))) as Hc
    by (split_and!; cbn [digits]; [apply ok_single; rewrite BIGRAD_val; lia|apply trimmed_single|done|
        cbn [nval] in Ev; rewrite Ev, FIXNUM_MIN_val, FIXNUM_MAX_val; lia]).
  all: split_and!; [done|done|]; rewrite rb_big2long_spec by done; cbn [nval] in Ev; rewrite Ev;
    by rewrite decide_True by (unfold LONG_MIN, LONG_MAX; lia).
Qed.
(** ** Powers and text *)

(** [big ** n] for a fixnum exponent that keeps the result within the limit
    of the code is the power, in canonical form; beyond the limit the code goes
    over to floating point. *)
Lemma rb_big_pow_correct x n :
  canon (Bignum x) → 0 ≤ n ≤ FIXNUM_MAX →
  if decide (zlen (digits x) * n ≤ BIGLEN_LIMIT)
  then returns (rb_big_pow x (Fixnum n)) (λ p, ∃ z, p = PInteger z ∧ nval z = bigval x ^ n ∧ canon z)
  else rb_big_pow x (Fixnum n) = Ok PFloat.
Proof. intros [? ?]%canon_big. by apply rb_big_pow_spec. Qed.

(** A numeral (white space, a sign, a prefix that fits the base, digits with
    single underscores between them, white space) is read as its value, whether
    it goes through [strtoul] or through the multi-precision loop, with or
    without the check for malformed input. *)
Theorem rb_cstr_to_inum_correct sp sgn sign pre b r base0 base badcheck :
  spaces sp → sign_chars sgn sign → prefix_ok base pre → wf_body base true b = true → spaces r →
  2 ≤ base ≤ 36 → guess_base (pre ++ b ++ r) base0 = base →
  returns (rb_cstr_to_inum (Some (sp ++ sgn ++ pre ++ b ++ r)) base0 badcheck) (λ n,
    nval n = (if sign then numeral base (strip b) else - numeral base (strip b)) ∧ canon n).
Proof. apply rb_cstr_to_inum_spec. Qed.

(** The digits [big2str_orig] writes for a bignum into a buffer that has room
    for them, after the sign, are read back by [rb_cstr_to_inum] as that bignum;
    they have no leading zero. *)
Lemma big2str_roundtrip x base len ptr badcheck :
  canon (Bignum x) → 2 ≤ base ≤ 36 → zlen ptr = len → bval (digits x) < base ^ len →
  returns (big2str_orig (set_sign true x) base ptr len (base ^ 4) true) (λ cs,
    head cs ≠ Some 48 ∧ digits_ok base cs ∧ zlen cs ≤ len ∧
    rb_cstr_to_inum (Some ((if sign x then [] else [45]) ++ cs)) base badcheck = Ok (Bignum x)).
Proof.
  intros Hx Hb Hl Hfit. destruct (canon_big x Hx) as [[Hok Hlx] _].
  eapply returns_mono; [apply (big2str_trim (set_sign true x) base len ptr); [by split|done..]|].
  intros cs (Hd & Hv & Hle & Hh). cbn [digits set_sign] in Hv. split_and!; [done..|].
  assert (cs ≠ []) as Hne.
  { intros ->. pose proof (canon_nonzero x Hx) as Hnz. pose proof (bval_bound _ Hok). cbn in Hv. lia. }
  destruct (digits_wf base cs Hd Hne) as [Hwf Hst].
  destruct (rb_cstr_to_inum_spec [] (if sign x then [] else [45]) (sign x) [] cs [] base base badcheck) as (n & E & Hn & Hc);
    [constructor|destruct (sign x); [left; split; [by left|done]|by right]|by left|done|constructor|done|
     unfold guess_base; by rewrite (proj2 (Z.ltb_lt 0 base)) by lia|].
  cbn [app] in E. rewrite app_nil_r in E. rewrite E. f_equal. apply canon_unique; [done|done|].
  rewrite Hn, Hst, Hv. cbn [nval]. unfold signed, bigval. done.
Qed.
End theorems.

(** ** Witnesses *)

Lemma ex_junk_range i : 0 ≤ i mod 7 < BIGRAD.
Proof. pose proof (Z.mod_pos_bound i 7). rewrite BIGRAD_val. lia. Qed.

Definition ex_junk : Junk := {| junk := λ i, i mod 7; junk_range := ex_junk_range |}.

(** [-(3 * 2^128 + 5 * 2^64 + 2^63)] and [2^64 + 1]. *)
Definition ex_x : big := mkBig false [2 ^ 63; 5; 3].
Definition ex_y : big := mkBig true [1; 1].

Lemma ex_x_canon : canon (Bignum ex_x).
Proof. apply canonb_ok. vm_compute. reflexivity. Qed.
Lemma ex_y_canon : canon (Bignum ex_y).
Proof. apply canonb_ok. vm_compute. reflexivity. Qed.

Lemma rb_big_plus_minus_correct_witness :
  returns (rb_big_plus (J := ex_junk) ex_x (Bignum ex_y)) (λ z, nval z = bigval ex_x + bigval ex_y ∧ canon z) ∧
  returns (rb_big_minus (J := ex_junk) ex_x (Bignum ex_y)) (λ z, nval z = bigval ex_x - bigval ex_y ∧ canon z).
Proof. exact (rb_big_plus_minus_correct (J := ex_junk) ex_x (Bignum ex_y) ex_x_canon ex_y_canon). Defined.

Lemma rb_big_mul_correct_witness :
  returns (rb_big_mul (J := ex_junk) ex_x (Bignum ex_y)) (λ z, nval z = bigval ex_x * bigval ex_y ∧ canon z).
Proof. exact (rb_big_mul_correct (J := ex_junk) ex_x (Bignum ex_y) ex_x_canon ex_y_canon eq_refl eq_refl). Defined.

Lemma rb_big_divmod_correct_witness :
  returns (rb_big_divmod (J := ex_junk) ex_x (Bignum ex_y)) (λ '(d, m),
    nval d = bigval ex_x / bigval ex_y ∧ nval m = bigval ex_x mod bigval ex_y ∧ canon d ∧ canon m ∧
    rb_big_divide (J := ex_junk) ex_x (Bignum ex_y) = Ok d ∧ rb_big_modulo (J := ex_junk) ex_x (Bignum ex_y) = Ok m).
Proof.
  apply (rb_big_divmod_correct (J := ex_junk) ex_x (Bignum ex_y) ex_x_canon ex_y_canon). vm_compute. discriminate.
Defined.

Lemma rb_big_remainder_correct_witness :
  returns (rb_big_remainder (J := ex_junk) ex_x (Bignum ex_y)) (λ m, nval m = Z.rem (bigval ex_x) (bigval ex_y) ∧ canon m) ∧
  rb_big_remainder (J := ex_junk) ex_x (Fixnum 0) = Err (Raise ZeroDivisionError).
Proof.
  split.
  - apply (rb_big_remainder_correct (J := ex_junk) ex_x (Bignum ex_y) ex_x_canon ex_y_canon). vm_compute. discriminate.
  - apply (rb_big_remainder_correct (J := ex_junk) ex_x (Fixnum 0) ex_x_canon); [|done]. by apply canonb_ok.
Defined.

Lemma rb_big_cmp_eq_correct_witness :
  rb_big_cmp (J := ex_junk) ex_x (Fixnum 3) = Ok (-1) ∧ rb_big_eq (J := ex_junk) ex_x (Bignum ex_x) = Ok true.
Proof.
  split.
  - rewrite (proj1 (rb_big_cmp_eq_correct (J := ex_junk) ex_x (Fixnum 3) ex_x_canon ltac:(by apply canonb_ok))).
    vm_compute. reflexivity.
  - rewrite (proj2 (rb_big_cmp_eq_correct (J := ex_junk) ex_x (Bignum ex_x) ex_x_canon ex_x_canon)).
    vm_compute. reflexivity.
Defined.

Lemma rb_big_bitwise_correct_witness :
  returns (rb_big_and (J := ex_junk) ex_x (Bignum ex_y)) (λ z, nval z = Z.land (bigval ex_x) (bigval ex_y) ∧ canon z).
Proof. apply (rb_big_bitwise_correct (J := ex_junk) ex_x (Bignum ex_y) ex_x_canon ex_y_canon). Defined.

Lemma rb_big_shift_correct_witness :
  returns (rb_big_lshift (J := ex_junk) ex_x (Fixnum 70)) (λ z, nval z = Z.shiftl (bigval ex_x) 70 ∧ canon z) ∧
  rb_big_lshift (J := ex_junk) ex_x (Bignum ex_y) = Err (Raise RangeError).
Proof.
  split.
  - pose proof (proj1 (rb_big_shift_correct (J := ex_junk) ex_x (Fixnum 70) ex_x_canon eq_refl ltac:(by apply canonb_ok))) as H.
    exact H.
  - pose proof (proj1 (rb_big_shift_correct (J := ex_junk) ex_x (Bignum ex_y) ex_x_canon eq_refl ex_y_canon)) as H.
    exact H.
Defined.

Lemma rb_big_aref_correct_witness :
  rb_big_aref ex_x (Fixnum 64) = Ok (Z.b2z (Z.testbit (bigval ex_x) 64)) ∧ Z.testbit (bigval ex_x) 64 = false.
Proof.
  split; [|by vm_compute].
  exact (rb_big_aref_correct ex_x (Fixnum 64) ex_x_canon eq_refl ltac:(by apply canonb_ok)).
Defined.

Lemma rb_big2long_correct_witness :
  rb_big2long ex_x = Err (Raise RangeError) ∧
  returns (rb_int2inum (J := ex_junk) LONG_MIN) (λ z, nval z = LONG_MIN ∧ canon z ∧
    match z with Fixnum m => m = LONG_MIN | Bignum b => rb_big2long b = Ok LONG_MIN end).
Proof.
  destruct (rb_big2long_correct (J := ex_junk) ex_x LONG_MIN ex_x_canon) as [E H]; [vm_compute; split; discriminate|].
  split; [|exact H]. rewrite E, decide_False; [done|]. vm_compute. intros [H1 _]. by apply H1.
Defined.

Lemma rb_big_pow_correct_witness :
  returns (rb_big_pow (J := ex_junk) ex_x (Fixnum 13)) (λ p, ∃ z, p = PInteger z ∧ nval z = bigval ex_x ^ 13 ∧ canon z) ∧
  rb_big_pow (J := ex_junk) ex_x (Fixnum 43691) = Ok PFloat.
Proof.
  split.
  - exact (rb_big_pow_correct (J := ex_junk) ex_x 13 ex_x_canon ltac:(vm_compute; split; discriminate)).
  - exact (rb_big_pow_correct (J := ex_junk) ex_x 43691 ex_x_canon ltac:(vm_compute; split; discriminate)).
Defined.

(** "  -0x1f_ff " in base 0. *)
Lemma rb_cstr_to_inum_correct_witness :
  returns (rb_cstr_to_inum (J := ex_junk) (Some [32; 32; 45; 48; 120; 49; 102; 95; 102; 102; 32]) 0 true) (λ n,
    nval n = - 8191 ∧ canon n).
Proof.
  apply (rb_cstr_to_inum_correct (J := ex_junk) [32; 32] [45] false [48; 120] [49; 102; 95; 102; 102] [32] 0 16 true).
  - by repeat constructor.
  - by right.
  - right. exists 120. split; [done|]. right; right; right. split; [done|by left].
  - by vm_compute.
  - by repeat constructor.
  - lia.
  - by vm_compute.
Defined.

Lemma big2str_roundtrip_witness :
  returns (big2str_orig (set_sign true ex_x) 10 (replicate 58 0) 58 (10 ^ 4) true) (λ cs,
    head cs ≠ Some 48 ∧ digits_ok 10 cs ∧ zlen cs ≤ 58 ∧
    rb_cstr_to_inum (J := ex_junk) (Some ((if sign ex_x then [] else [45]) ++ cs)) 10 true = Ok (Bignum ex_x)).
Proof. apply (big2str_roundtrip (J := ex_junk) ex_x 10 58 (replicate 58 0) true ex_x_canon); [lia|done|by vm_compute]. Defined.
