(* ===== verification/Numeric.v ===== *)
(** * numeric.c: fixnums and the methods of Integer

    The methods of Fixnum and Integer on integer operands (fixnums and bignums);
    the branches for Float and for operands of other classes are left out.  A
    fixnum is a word with two tag bits; [Fixnum n] stands for the word
    [INT2FIX n], so that boxing a [long] that does not fit loses its top bits.
    The comparison methods that Bignum inherits from Comparable (compar.c) are
    here too, and so is the choice of the method by the class of the receiver. *)

From S2P Require Import Prelude Util Big BigStr.

Definition INT_MAX : Z := 2 ^ 31 - 1.
Definition INT_MIN : Z := - 2 ^ 31.
Definition UINT_MAX : Z := 2 ^ 32 - 1.

(** ** Words *)

Definition FIXNUM_FLAG : Z := 1.
Definition INT2FIX (i : Z) : Z := u64 (Z.lor (Z.shiftl i 2) FIXNUM_FLAG).
Definition FIX2LONG (x : Z) : Z := Z.shiftr (s64 x) 2.
Definition FIX2ULONG (x : Z) : Z := Z.land (Z.shiftr x 2) LONG_MAX.

(** [LONG2FIX] as an integer: what [FIX2LONG] reads back. *)
Definition LONG2FIX (i : Z) : num := Fixnum (FIX2LONG (INT2FIX i)).

(** C's signed division, which truncates. *)
Definition cquot (a b : Z) : res Z := if b =? 0 then Err DivByZero else Ok (Z.quot a b).
Definition crem (a b : Z) : res Z := if b =? 0 then Err DivByZero else Ok (Z.rem a b).

Definition SQRT_LONG_MAX : Z := Z.shiftl 1 ((64 - 1) / 2).
Definition FIT_SQRT_LONG (n : Z) : bool := (n <? SQRT_LONG_MAX) && (- SQRT_LONG_MAX <=? n).

Section numeric.
Context `{J : Junk}.

Notation LONG2NUM := rb_int2inum.
Notation ULONG2NUM := rb_uint2inum.

(** ** Conversions to machine integers *)

Definition rb_num2long (val : num) : res Z :=
  match val with Fixnum n => Ok n | Bignum b => rb_big2long b end.

Definition rb_num2ulong (val : num) : res Z :=
  match val with Bignum b => rb_big2ulong b | Fixnum _ => n ← rb_num2long val; Ok (u64 n) end.

Definition check_int (num : Z) : res unit :=
  if num <? INT_MIN then Err (Raise RangeError) else
  if INT_MAX <? num then Err (Raise RangeError) else Ok ().

Definition check_uint (num : Z) : res unit :=
  if UINT_MAX <? num then Err (Raise RangeError) else Ok ().

Definition rb_num2int (val : num) : res Z :=
  num ← rb_num2long val; _ ← check_int num; Ok num.

Definition rb_fix2int (val : num) : res Z :=
  num ← match val with Fixnum n => Ok n | Bignum _ => rb_num2long val end;
  _ ← check_int num; Ok num.

Definition rb_num2fix (val : num) : res num :=
  match val with
  | Fixnum _ => Ok val
  | Bignum _ =>
      v ← rb_num2long val;
      if negb (FIXABLE v) then Err (Raise RangeError) else Ok (LONG2FIX v)
  end.

(** ** Arithmetic *)

Definition fix_uminus (n : Z) : res num := LONG2NUM (s64 (- n)).

Definition rb_fix_plus (x : Z) (y : num) : res num :=
  match y with
  | Fixnum b => LONG2NUM (s64 (x + b))
  | Bignum y => rb_big_plus y (Fixnum x)
  end.

Definition rb_fix_minus (x : Z) (y : num) : res num :=
  match y with
  | Fixnum b => LONG2NUM (s64 (x - b))
  | Bignum _ => x ← rb_int2big x; rb_big_minus x y
  end.

Definition rb_fix_mul (a : Z) (y : num) : res num :=
  match y with
  | Fixnum b =>
      if FIT_SQRT_LONG a && FIT_SQRT_LONG b then Ok (LONG2FIX (s64 (a * b))) else
      let c := s64 (a * b) in
      let r := LONG2FIX c in
      if a =? 0 then Ok (Fixnum a) else
      q ← cquot c a;
      if negb (FIX2LONG (INT2FIX c) =? c) || negb (q =? b) then
        x ← rb_int2big a; y ← rb_int2big b; rb_big_mul x (Bignum y)
      else Ok r
  | Bignum y => rb_big_mul y (Fixnum a)
  end.

Definition fixdivmod (x y : Z) : res (Z * Z) :=
  if y =? 0 then Err (Raise ZeroDivisionError) else
  div ← (if y <? 0 then
           if x <? 0 then cquot (s64 (- x)) (s64 (- y))
           else q ← cquot x (s64 (- y)); Ok (s64 (- q))
         else
           if x <? 0 then q ← cquot (s64 (- x)) y; Ok (s64 (- q))
           else cquot x y);
  let mod_ := s64 (x - s64 (div * y)) in
  if ((mod_ <? 0) && (0 <? y)) || ((0 <? mod_) && (y <? 0))
  then Ok (s64 (div - 1), s64 (mod_ + y))
  else Ok (div, mod_).

(** [fix / y] and [fix.div(y)], the same for integers. *)
Definition fix_divide (x : Z) (y : num) : res num :=
  match y with
  | Fixnum y => '(div, _) ← fixdivmod x y; LONG2NUM div
  | Bignum _ => x ← rb_int2big x; rb_big_divide x y
  end.

Definition fix_mod (x : Z) (y : num) : res num :=
  match y with
  | Fixnum y => '(_, mod_) ← fixdivmod x y; LONG2NUM mod_
  | Bignum _ => x ← rb_int2big x; rb_big_modulo x y
  end.

Definition fix_divmod (x : Z) (y : num) : res (num * num) :=
  match y with
  | Fixnum y =>
      '(div, mod_) ← fixdivmod x y;
      a ← LONG2NUM div; b ← LONG2NUM mod_; Ok (a, b)
  | Bignum _ => x ← rb_int2big x; rb_big_divmod x y
  end.

Definition fix_abs (i : Z) : res num := LONG2NUM (if i <? 0 then s64 (- i) else i).
Definition fix_size (_ : Z) : num := Fixnum 8.
Definition fix_zero_p (n : Z) : bool := n =? 0.
Definition fix_succ (n : Z) : res num := LONG2NUM (s64 (n + 1)).

(** [num & 2] on the word of the fixnum. *)
Definition fix_odd_p (n : Z) : bool := negb (Z.land (INT2FIX n) 2 =? 0).
Definition fix_even_p (n : Z) : bool := if negb (Z.land (INT2FIX n) 2 =? 0) then false else true.

(** The number of one bits of a word. *)
Fixpoint popcount (w : nat) (x : Z) : Z :=
  match w with O => 0 | S w' => Z.b2z (Z.testbit x (Z.of_nat w')) + popcount w' x end.
Definition fix_popcnt (n : Z) : num := Fixnum (popcount 64 (FIX2ULONG (INT2FIX n))).

(** ** Powers *)

(** [bignum: v = rb_big_pow(...); if (z != 1) v = rb_big_mul(...)] *)
Definition int_pow_bignum (neg : bool) (x y z : Z) : res power :=
  b ← rb_int2big x;
  e ← LONG2NUM (s64 y);
  v ← rb_big_pow b e;
  if z =? 1 then Ok v else
  match v with
  | PInteger v => zb ← rb_int2big (if neg then s64 (- z) else z); w ← rb_big_mul zb v; Ok (PInteger w)
  | PFloat => Ok PFloat
  | PRational => Err Unmodelled
  end.

(** One turn of the loops: squaring while [y] is even, otherwise multiplying
    [x] into [z]; the result when the code leaves. *)
Definition int_pow_step (neg : bool) (s : Z * Z * Z) : res ((Z * Z * Z) + power) :=
  let '(x, y, z) := s in
  if y mod 2 =? 0 then
    if negb (FIT_SQRT_LONG x) then v ← int_pow_bignum neg x y z; Ok (inr v)
    else Ok (inl (s64 (x * x), Z.shiftr y 1, z))
  else
    let xz := s64 (x * z) in
    bad ← (if negb (POSFIXABLE xz) then Ok true else q ← cquot xz x; Ok (negb (q =? z)));
    if bad : bool then v ← int_pow_bignum neg x y z; Ok (inr v)
    else
      let y := u64 (y - 1) in
      if y =? 0 then v ← LONG2NUM (if neg then s64 (- xz) else xz); Ok (inr (PInteger v))
      else Ok (inl (x, y, xz)).

(** Each bit of the exponent takes at most two turns. *)
Definition int_pow_fuel : nat := 130.

Definition int_pow (x y : Z) : res power :=
  let neg := x <? 0 in
  let x := if neg then s64 (- x) else x in
  let odd := Z.land y 1 =? 1 in
  let z := if odd then x else 1 in
  let neg := if odd then neg else false in
  iter int_pow_fuel (int_pow_step neg) (x, Z.land y (Z.lnot 1), z).

(** ** Comparison *)

Definition fix_equal (x : Z) (y : num) : res bool :=
  match y with
  | Fixnum b => Ok (x =? b)
  | Bignum y => rb_big_eq y (Fixnum x)
  end.

Definition fix_cmp (x : Z) (y : num) : res Z :=
  match y with
  | Fixnum b => Ok (if x =? b then 0 else if b <? x then 1 else -1)
  | Bignum _ => x ← rb_int2big x; rb_big_cmp x y
  end.

Definition fix_gt (x : Z) (y : num) : res bool :=
  match y with
  | Fixnum b => Ok (b <? x)
  | Bignum _ => x ← rb_int2big x; c ← rb_big_cmp x y; Ok (0 <? c)
  end.
Definition fix_ge (x : Z) (y : num) : res bool :=
  match y with
  | Fixnum b => Ok (b <=? x)
  | Bignum _ => x ← rb_int2big x; c ← rb_big_cmp x y; Ok (0 <=? c)
  end.
Definition fix_lt (x : Z) (y : num) : res bool :=
  match y with
  | Fixnum b => Ok (x <? b)
  | Bignum _ => x ← rb_int2big x; c ← rb_big_cmp x y; Ok (c <? 0)
  end.
Definition fix_le (x : Z) (y : num) : res bool :=
  match y with
  | Fixnum b => Ok (x <=? b)
  | Bignum _ => x ← rb_int2big x; c ← rb_big_cmp x y; Ok (c <=? 0)
  end.

(** ** Comparable, on a receiver whose [<=>] gave a fixnum *)

Definition rb_cmpint (val : num) : res Z :=
  match val with
  | Fixnum n => rb_fix2int (Fixnum n)
  | Bignum b => Ok (if BIGZEROP b then 0 else if sign b then 1 else -1)
  end.

Definition cmp_gt (c : num) : res bool := i ← rb_cmpint c; Ok (0 <? i).
Definition cmp_ge (c : num) : res bool := i ← rb_cmpint c; Ok (0 <=? i).
Definition cmp_lt (c : num) : res bool := i ← rb_cmpint c; Ok (i <? 0).
Definition cmp_le (c : num) : res bool := i ← rb_cmpint c; Ok (i <=? 0).

(** ** Bits *)

Definition fix_rev (val : Z) : res num := LONG2NUM (Z.lnot val).

Definition fix_and (x : Z) (y : num) : res num :=
  match y with Bignum y => rb_big_and y (Fixnum x) | Fixnum y => LONG2NUM (Z.land x y) end.
Definition fix_or (x : Z) (y : num) : res num :=
  match y with Bignum y => rb_big_or y (Fixnum x) | Fixnum y => LONG2NUM (Z.lor x y) end.
Definition fix_xor (x : Z) (y : num) : res num :=
  match y with Bignum y => rb_big_xor y (Fixnum x) | Fixnum y => LONG2NUM (Z.lxor x y) end.

Definition fix_lshift (val width : Z) : res num :=
  if (63 <? width) || (0 <? Z.shiftr (u64 val) (63 - width)) then
    b ← rb_int2big val; n ← ULONG2NUM width; rb_big_lshift b n
  else LONG2NUM (s64 (Z.shiftl val width)).

Definition fix_rshift (val i : Z) : res num :=
  if 63 <=? i then Ok (Fixnum (if val <? 0 then -1 else 0))
  else Ok (LONG2FIX (Z.shiftr val i)).

Definition rb_fix_lshift (val : Z) (y : num) : res num :=
  match y with
  | Bignum _ => b ← rb_int2big val; rb_big_lshift b y
  | Fixnum width => if width <? 0 then fix_rshift val (u64 (- width)) else fix_lshift val width
  end.

Definition rb_fix_rshift (val : Z) (y : num) : res num :=
  match y with
  | Bignum _ => b ← rb_int2big val; rb_big_rshift b y
  | Fixnum i =>
      if i =? 0 then Ok (Fixnum val) else
      if i <? 0 then fix_lshift val (u64 (- i)) else fix_rshift val i
  end.

Definition fix_aref (val : Z) (idx : num) : res Z :=
  idx ← match idx with Fixnum _ => Ok idx | Bignum b => bignorm b end;
  match idx with
  | Bignum b => Ok (if negb (sign b) || (0 <=? val) then 0 else 1)
  | Fixnum i =>
      if i <? 0 then Ok 0 else
      if 63 <? i then Ok (if val <? 0 then 1 else 0) else
      Ok (if Z.land val (s64 (Z.shiftl 1 i)) =? 0 then 0 else 1)
  end.

(** ** Methods by the class of the receiver

    [rb_vm_call(x, op, ...)]: a fixnum receiver has the methods above, a bignum
    those of bignum.c; [>] and its kin come to Bignum from Comparable. *)

Definition int_plus (x y : num) : res num :=
  match x with Fixnum a => rb_fix_plus a y | Bignum b => rb_big_plus b y end.
Definition int_minus (x y : num) : res num :=
  match x with Fixnum a => rb_fix_minus a y | Bignum b => rb_big_minus b y end.
Definition int_mul (x y : num) : res num :=
  match x with Fixnum a => rb_fix_mul a y | Bignum b => rb_big_mul b y end.
Definition int_div (x y : num) : res num :=
  match x with Fixnum a => fix_divide a y | Bignum b => rb_big_divide b y end.
Definition int_mod (x y : num) : res num :=
  match x with Fixnum a => fix_mod a y | Bignum b => rb_big_modulo b y end.
Definition int_divmod (x y : num) : res (num * num) :=
  match x with Fixnum a => fix_divmod a y | Bignum b => rb_big_divmod b y end.
Definition int_uminus (x : num) : res num :=
  match x with Fixnum a => fix_uminus a | Bignum b => rb_big_uminus b end.
Definition int_abs (x : num) : res num :=
  match x with Fixnum a => fix_abs a | Bignum b => Ok (Bignum (rb_big_abs b)) end.
Definition int_eq (x y : num) : res bool :=
  match x with Fixnum a => fix_equal a y | Bignum b => rb_big_eq b y end.
Definition int_cmp (x y : num) : res num :=
  match x with
  | Fixnum a => c ← fix_cmp a y; Ok (Fixnum c)
  | Bignum b => c ← rb_big_cmp b y; Ok (Fixnum c)
  end.
Definition int_gt (x y : num) : res bool :=
  match x with Fixnum a => fix_gt a y | Bignum _ => c ← int_cmp x y; cmp_gt c end.
Definition int_ge (x y : num) : res bool :=
  match x with Fixnum a => fix_ge a y | Bignum _ => c ← int_cmp x y; cmp_ge c end.
Definition int_lt (x y : num) : res bool :=
  match x with Fixnum a => fix_lt a y | Bignum _ => c ← int_cmp x y; cmp_lt c end.
Definition int_le (x y : num) : res bool :=
  match x with Fixnum a => fix_le a y | Bignum _ => c ← int_cmp x y; cmp_le c end.
Definition int_and (x y : num) : res num :=
  match x with Fixnum a => fix_and a y | Bignum b => rb_big_and b y end.
Definition int_or (x y : num) : res num :=
  match x with Fixnum a => fix_or a y | Bignum b => rb_big_or b y end.
Definition int_xor (x y : num) : res num :=
  match x with Fixnum a => fix_xor a y | Bignum b => rb_big_xor b y end.
Definition int_rev (x : num) : res num :=
  match x with Fixnum a => fix_rev a | Bignum b => rb_big_neg b end.
Definition int_lshift (x y : num) : res num :=
  match x with Fixnum a => rb_fix_lshift a y | Bignum b => rb_big_lshift b y end.
Definition int_rshift (x y : num) : res num :=
  match x with Fixnum a => rb_fix_rshift a y | Bignum b => rb_big_rshift b y end.
Definition int_aref (x y : num) : res Z :=
  match x with Fixnum a => fix_aref a y | Bignum b => rb_big_aref b y end.

(** [Numeric#remainder], the one of Fixnum; Bignum has its own. *)
Definition num_remainder (x y : num) : res num :=
  z ← int_mod x y;
  eq ← int_eq z (Fixnum 0);
  xneg ← int_lt x (Fixnum 0); ypos ← int_gt y (Fixnum 0);
  xpos ← int_gt x (Fixnum 0); yneg ← int_lt y (Fixnum 0);
  if negb eq && ((xneg && ypos) || (xpos && yneg)) then int_minus z y else Ok z.

Definition int_remainder (x y : num) : res num :=
  match x with Fixnum _ => num_remainder x y | Bignum b => rb_big_remainder b y end.

(** [x.between?(min, max)]: the two calls that compare. *)
Definition cmp_between (x min max : num) : res bool :=
  c ← int_cmp x min;
  lt ← cmp_lt c;
  if lt : bool then Ok false else
  c ← int_cmp x max;
  gt ← cmp_gt c;
  Ok (negb gt).

(** ** Methods of Integer *)

Definition int_odd_p (x : num) : res bool :=
  m ← int_mod x (Fixnum 2);
  Ok (match m with Fixnum n => negb (n =? 0) | Bignum _ => true end).
Definition int_even_p (x : num) : res bool := o ← int_odd_p x; Ok (negb o).

Definition int_succ (x : num) : res num :=
  match x with Fixnum n => LONG2NUM (s64 (n + 1)) | Bignum _ => int_plus x (Fixnum 1) end.
Definition int_pred (x : num) : res num :=
  match x with Fixnum n => LONG2NUM (s64 (n - 1)) | Bignum _ => int_minus x (Fixnum 1) end.

(** [int.chr] without an encoding: one byte. *)
Definition int_chr (x : num) : res (list Z) :=
  i ← rb_num2long x;
  if (i <? 0) || (255 <? i) then Err (Raise RangeError) else Ok [i].

(** The conversion to [unsigned int] checks the range of positive numbers only. *)
Definition rb_num2uint (val : num) : res Z :=
  num ← rb_num2ulong val;
  pos ← int_lt (Fixnum 0) val;
  _ ← (if pos : bool then check_uint num else Ok ());
  Ok num.

Definition rb_fix2uint (val : num) : res Z :=
  match val with
  | Bignum _ => rb_num2uint val
  | Fixnum n =>
      let num := FIX2ULONG (INT2FIX n) in
      _ ← (if 0 <? n then check_uint num else Ok ());
      Ok num
  end.

Definition fix_pow (a : Z) (y : num) : res power :=
  match y with
  | Fixnum b =>
      if b <? 0 then Ok PRational else
      if b =? 0 then Ok (PInteger (Fixnum 1)) else
      if b =? 1 then Ok (PInteger (Fixnum a)) else
      if a =? 0 then Ok (if 0 <? b then PInteger (Fixnum 0) else PFloat) else
      if a =? 1 then Ok (PInteger (Fixnum 1)) else
      if a =? -1 then Ok (PInteger (Fixnum (if Z.rem b 2 =? 0 then 1 else -1))) else
      int_pow a b
  | Bignum _ =>
      lt ← int_lt y (Fixnum 0);
      if lt : bool then Ok PRational else
      if a =? 0 then Ok (PInteger (Fixnum 0)) else
      if a =? 1 then Ok (PInteger (Fixnum 1)) else
      if a =? -1 then e ← int_even_p y; Ok (PInteger (Fixnum (if e : bool then 1 else -1))) else
      x ← rb_int2big a; rb_big_pow x y
  end.

Definition int_expt (x y : num) : res power :=
  match x with Fixnum a => fix_pow a y | Bignum b => rb_big_pow b y end.

(** [int.round(ndigits)]: an integer, or a Float for a positive count. *)
Inductive rounded := RInteger (n : num) | RFloat.

Definition int_round (self n : num) : res rounded :=
  ndigits ← rb_num2int n;
  if 0 <? ndigits then Ok RFloat else
  if ndigits =? 0 then Ok (RInteger self) else
  let ndigits := s32 (- ndigits) in
  if ndigits <? 0 then Err (Raise ArgumentError) else
  p ← int_pow 10 ndigits;
  match p with
  | PFloat | PRational => Err Unmodelled
  | PInteger f =>
      match self, f with
      | Fixnum x, Fixnum y =>
          let neg := x <? 0 in
          let x := if neg then s64 (- x) else x in
          h ← cquot y 2;
          q ← cquot (s64 (x + h)) y;
          let x := s64 (q * y) in
          n ← LONG2NUM (if neg then s64 (- x) else x); Ok (RInteger n)
      | _, _ =>
          h ← int_div f (Fixnum 2);
          r ← int_mod self f;
          n ← int_minus self r;
          lt ← int_lt r h;
          if lt : bool then Ok (RInteger n) else n ← int_plus n f; Ok (RInteger n)
      end
  end.

(** ** Text *)

(** [*--b = ruby_digitmap[val % base]] while [val /= base]. *)
Definition fix2str_step (base : Z) (s : list Z * Z * Z) : res ((list Z * Z * Z) + (list Z * Z)) :=
  let '(buf, b, val) := s in
  r ← crem val base;
  c ← aload ruby_digitmap r;
  buf ← astore buf (b - 1) c;
  q ← cquot val base;
  Ok (if q =? 0 then inr (buf, b - 1) else inl (buf, b - 1, q)).

(** The characters from [b] up to the NUL. *)
Fixpoint c_string (cs : list Z) : res (list Z) :=
  match cs with
  | [] => Err OutOfBounds
  | c :: cs => if c =? 0 then Ok [] else r ← c_string cs; Ok (c :: r)
  end.

(** [buf] is the array of the stack frame, of [SIZEOF_VALUE*CHAR_BIT + 2] characters. *)
Definition rb_fix2str (buf : list Z) (val base : Z) : res (list Z) :=
  if (base <? 2) || (36 <? base) then Err (Raise ArgumentError) else
  if val =? 0 then Ok [48] else
  let neg := val <? 0 in
  let val := if neg then s64 (- val) else val in
  let b := 64 + 2 in
  buf ← astore buf (b - 1) 0;
  '(buf, b) ← iter 64 (fix2str_step base) (buf, b - 1, val);
  '(buf, b) ← (if neg then buf ← astore buf (b - 1) 45; Ok (buf, b - 1) else Ok (buf, b));
  c_string (drop (Z.to_nat b) buf).

(** ** Iteration

    The block is a function on a state of its own; it may leave the loop with
    [break], which the code notices after the call.  A loop returns the state and
    whether it was left. *)

Section yield.
Context {S : Type} (blk : num → S → res (S * bool)).

(** [while (in(i)) { rb_yield(LONG2FIX(i)); i += diff; }] *)
Definition fix_loop_step (inside : Z → bool) (diff : Z) (s : Z * S) : res ((Z * S) + (S * bool)) :=
  let '(i, s) := s in
  if inside i then
    '(s, broken) ← blk (LONG2FIX i) s;
    Ok (if broken : bool then inr (s, true) else inl (s64 (i + diff), s))
  else Ok (inr (s, false)).

(** [for (;;) { if (i cmp to) break; rb_yield(i); i = i + step; }] *)
Definition num_loop_step (stop : num → res bool) (next : num → res num) (s : num * S) : res ((num * S) + (S * bool)) :=
  let '(i, s) := s in
  c ← stop i;
  if c : bool then Ok (inr (s, false)) else
  '(s, broken) ← blk i s;
  if broken : bool then Ok (inr (s, true)) else
  i ← next i; Ok (inl (i, s)).

Definition int_upto (fuel : nat) (from to : num) (s : S) : res (S * bool) :=
  match from, to with
  | Fixnum i, Fixnum end_ => iter fuel (fix_loop_step (λ i, i <=? end_) 1) (i, s)
  | _, _ => iter fuel (num_loop_step (λ i, int_gt i to) (λ i, int_plus i (Fixnum 1))) (from, s)
  end.

Definition int_downto (fuel : nat) (from to : num) (s : S) : res (S * bool) :=
  match from, to with
  | Fixnum i, Fixnum end_ => iter fuel (fix_loop_step (λ i, end_ <=? i) (-1)) (i, s)
  | _, _ => iter fuel (num_loop_step (λ i, int_lt i to) (λ i, int_minus i (Fixnum 1))) (from, s)
  end.

Definition int_dotimes (fuel : nat) (self : num) (s : S) : res (S * bool) :=
  match self with
  | Fixnum end_ => iter fuel (fix_loop_step (λ i, i <? end_) 1) (0, s)
  | Bignum _ =>
      iter fuel (num_loop_step (λ i, lt ← int_lt i self; Ok (negb lt)) (λ i, int_plus i (Fixnum 1))) (Fixnum 0, s)
  end.

Definition num_step (fuel : nat) (from to step : num) (s : S) : res (S * bool) :=
  z ← int_eq step (Fixnum 0);
  if z : bool then Err (Raise ArgumentError) else
  match from, to, step with
  | Fixnum i, Fixnum end_, Fixnum diff =>
      if 0 <? diff then iter fuel (fix_loop_step (λ i, i <=? end_) diff) (i, s)
      else iter fuel (fix_loop_step (λ i, end_ <=? i) diff) (i, s)
  | _, _, _ =>
      up ← int_gt step (Fixnum 0);
      iter fuel (num_loop_step (λ i, if up : bool then int_gt i to else int_lt i to) (λ i, int_plus i step)) (from, s)
  end.
End yield.
End numeric.
