(* ===== verification/NumericSpec.v ===== *)
(** * numeric.c: the methods of Integer compute on [Z]

    [computes m v]: the method returns the canonical integer of value [v].  Each
    method is related to the operation of [Z] it stands for, for fixnum and
    bignum receivers and operands. *)

From Stdlib Require Import Zquot.
From S2P Require Import Prelude Util Big BigVal BigAdd BigMul BigDiv BigBits BigPow BigStr BigThm Numeric.

Definition computes (m : res num) (v : Z) : Prop := returns m (λ z, nval z = v ∧ canon z).

Ltac fix_range := rewrite ?FIXNUM_MIN_val, ?FIXNUM_MAX_val in *; unfold LONG_MIN, LONG_MAX in *; try lia.

(** ** Boxing *)

(** [LONG2FIX] keeps the low 62 bits. *)
Lemma box_wrap c : FIX2LONG (INT2FIX c) = (c + 2 ^ 61) mod 2 ^ 62 - 2 ^ 61.
Proof.
  unfold FIX2LONG, INT2FIX, FIXNUM_FLAG, s64, u64. rewrite Z.shiftl_mul_pow2 by lia.
  rewrite lor_add by lia. rewrite Z.shiftr_div_pow2 by lia.
  rewrite Z.add_mod_idemp_l by lia. change (2 ^ 2) with 4. change (2 ^ 63) with (4 * 2 ^ 61). change (2 ^ 64) with (4 * 2 ^ 62).
  replace (c * 4 + 1 + 4 * 2 ^ 61) with (1 + (c + 2 ^ 61) * 4) by lia.
  replace ((1 + (c + 2 ^ 61) * 4) mod (4 * 2 ^ 62)) with (1 + 4 * ((c + 2 ^ 61) mod 2 ^ 62)).
  - replace (1 + 4 * ((c + 2 ^ 61) mod 2 ^ 62) - 4 * 2 ^ 61) with (1 + ((c + 2 ^ 61) mod 2 ^ 62 - 2 ^ 61) * 4) by lia.
    rewrite Z.div_add by lia. change (1 / 4) with 0. lia.
  - apply Z.mod_unique with ((c + 2 ^ 61) / 2 ^ 62); [pose proof (Z.mod_pos_bound (c + 2 ^ 61) (2 ^ 62)); lia|].
    pose proof (Z.div_mod (c + 2 ^ 61) (2 ^ 62)). lia.
Qed.

Lemma box_small c : FIXNUM_MIN ≤ c ≤ FIXNUM_MAX → FIX2LONG (INT2FIX c) = c.
Proof. fix_range. intros. rewrite box_wrap, Z.mod_small by lia. lia. Qed.

Lemma box_large c : ¬ (FIXNUM_MIN ≤ c ≤ FIXNUM_MAX) → FIX2LONG (INT2FIX c) ≠ c.
Proof. fix_range. intros ? E. rewrite box_wrap in E. pose proof (Z.mod_pos_bound (c + 2 ^ 61) (2 ^ 62)). lia. Qed.

Lemma canon_fix n : canon (Fixnum n) ↔ - 2 ^ 61 ≤ n ≤ 2 ^ 61 - 1.
Proof. cbn [canon]. by rewrite FIXNUM_MIN_val, FIXNUM_MAX_val. Qed.

Lemma computes_fix n : - 2 ^ 61 ≤ n ≤ 2 ^ 61 - 1 → computes (Ok (Fixnum n)) n.
Proof. intros. apply returns_ret. split; [done|]. by apply canon_fix. Qed.

Lemma computes_self x : canon x → computes (Ok x) (nval x).
Proof. intros. by apply returns_ret. Qed.

Lemma computes_eq m v w : computes m v → v = w → computes m w.
Proof. by intros ? <-. Qed.

Lemma computes_ex m v : (∃ z, m = Ok z ∧ nval z = v ∧ canon z) → computes m v.
Proof. done. Qed.

(** A canonical integer is a fixnum exactly if its value fits. *)
Lemma canon_fixnum x : canon x → - 2 ^ 61 ≤ nval x ≤ 2 ^ 61 - 1 → x = Fixnum (nval x).
Proof. intros Hx Hr. apply canon_unique; [done|by apply canon_fix|done]. Qed.

Lemma canon_bignum b : canon (Bignum b) → ¬ (- 2 ^ 61 ≤ bigval b ≤ 2 ^ 61 - 1).
Proof. intros (_ & _ & _ & H). fix_range. Qed.

Section methods.
Context `{J : Junk}.

Lemma int2num_spec n : LONG_MIN ≤ n ≤ LONG_MAX → computes (rb_int2inum n) n.
Proof.
  intros Hn. unfold rb_int2inum, FIXABLE, POSFIXABLE, NEGFIXABLE.
  rewrite FIXNUM_MIN_val, FIXNUM_MAX_val.
  destruct (Z.ltb_spec n (2 ^ 61 - 1 + 1)), (Z.leb_spec (- 2 ^ 61) n); cbn [andb]; [apply computes_fix; lia|..];
    destruct (int2big_wf n Hn) as (b & -> & [[Hok Hl] Ht _] & Hv & _); cbn [mbind res_bind];
    apply returns_ret; (split; [done|]); cbn [canon]; (split_and!; [done..|]); fix_range.
Qed.

Lemma s64_fix n : - 2 ^ 63 ≤ n < 2 ^ 63 → computes (rb_int2inum (s64 n)) n.
Proof. intros. rewrite s64_small by lia. apply int2num_spec. fix_range. Qed.

Lemma uint2num_spec n : 0 ≤ n < 2 ^ 64 → computes (rb_uint2inum n) n.
Proof.
  intros Hn. unfold rb_uint2inum, POSFIXABLE. rewrite FIXNUM_MAX_val.
  destruct (Z.ltb_spec n (2 ^ 61 - 1 + 1)); [apply computes_fix; lia|].
  rewrite rb_uint2big_spec by (by rewrite BIGRAD_val). cbn [mbind res_bind]. apply returns_ret.
  assert (bigval (mkBig true [n]) = n) as Ev by (unfold bigval; cbn; lia). split; [done|].
  cbn [canon]. rewrite Ev. cbn [digits]. split_and!; [apply ok_single; by rewrite BIGRAD_val|apply trimmed_single|done|fix_range].
Qed.

(** ** Arithmetic *)

Lemma int_plus_spec x y : canon x → canon y → computes (int_plus x y) (nval x + nval y).
Proof.
  intros Hx Hy. destruct x as [a|b]; cbn [int_plus nval].
  - destruct y as [c|y]; cbn [rb_fix_plus nval].
    + rewrite canon_fix in Hx, Hy. apply s64_fix. lia.
    + rewrite Z.add_comm. apply (rb_big_plus_minus_correct y (Fixnum a) Hy Hx).
  - apply (rb_big_plus_minus_correct b y Hx Hy).
Qed.

Lemma int_minus_spec x y : canon x → canon y → computes (int_minus x y) (nval x - nval y).
Proof.
  intros Hx Hy. destruct x as [a|b]; cbn [int_minus nval].
  - rewrite canon_fix in Hx. destruct y as [c|y]; cbn [rb_fix_minus].
    + rewrite canon_fix in Hy. apply s64_fix. cbn [nval]. lia.
    + destruct (int2big_wf a) as (b & -> & [Hbo Hbt _] & Hv & _); [fix_range|]. cbn [mbind res_bind].
      destruct (addsub_spec b (Bignum y) false Hbo Hbt Hy) as (z & E & Hc & Hz). exists z. rewrite <- Hv. by split.
  - apply (rb_big_plus_minus_correct b y Hx Hy).
Qed.

Lemma int_uminus_spec x : canon x → computes (int_uminus x) (- nval x).
Proof.
  intros Hx. destruct x as [a|b]; cbn [int_uminus nval].
  - rewrite canon_fix in Hx. apply s64_fix. lia.
  - destruct (canon_big b Hx) as [[Hok Hl] _]. unfold rb_big_uminus.
    destruct (norm_spec (set_sign (negb (sign b)) b)) as (n & E & Hn & Hc); [by split|]. exists n. split_and!; [done| |done].
    rewrite Hn. unfold bigval. cbn [sign set_sign digits]. destruct (sign b); cbn [negb]; lia.
Qed.

Lemma int_abs_spec x : canon x → computes (int_abs x) (Z.abs (nval x)).
Proof.
  intros Hx. destruct x as [a|b]; cbn [int_abs nval].
  - rewrite canon_fix in Hx. unfold fix_abs. destruct (Z.ltb_spec a 0).
    + eapply computes_eq; [apply s64_fix|]; lia.
    + eapply computes_eq; [apply int2num_spec; fix_range|]. lia.
  - pose proof (canon_bignum b Hx) as Hb. pose proof (canon_wf b Hx) as [[Hok Hl] Ht Hs].
    pose proof (bval_bound _ Hok). apply returns_ret. unfold rb_big_abs. cbn [nval canon]. unfold bigval in *.
    destruct (sign b) eqn:Es; cbn [set_sign sign digits]; rewrite ?Es.
    + split; [lia|]. split_and!; [done..|fix_range].
    + split; [lia|]. split_and!; [done..|fix_range].
Qed.

(** ** Multiplication *)

(** The values that take fewer than 2^29 digits, so that the digits of a product
    can be counted in an [int]. *)
Definition SMALL_def : { n : Z | n = 2 ^ (2 ^ 35) }.
Proof. by eexists. Qed.
Definition SMALL : Z := proj1_sig SMALL_def.
Definition small (v : Z) : Prop := Z.abs v < SMALL.

Lemma trimmed_lower ds : ok ds → trimmed ds → 0 < zlen ds → bval ds ≠ 0 → BIGRAD ^ (zlen ds - 1) ≤ bval ds.
Proof.
  intros Hok Ht Hl Hnz. pose proof BIGRAD_pos. pose proof (bval_bound _ Hok) as Hb. destruct Ht as [E|Htop].
  { rewrite E. change (1 - 1) with 0. rewrite Z.pow_0_r. lia. }
  rewrite bval_seg. replace (zlen ds) with (zlen ds - 1 + 1) at 2 by lia. rewrite seg_S, Z.add_0_l by lia.
  pose proof (seg_bound ds 0 (zlen ds - 1) Hok ltac:(lia)). pose proof (Hok (zlen ds - 1)).
  pose proof (pow_pos (zlen ds - 1) ltac:(lia)). nia.
Qed.

Lemma SMALL_pow k : 2 ^ 29 ≤ k → SMALL ≤ BIGRAD ^ k.
Proof.
  intros Hk. unfold SMALL. rewrite (proj2_sig SMALL_def), BIGRAD_val, <- Z.pow_mul_r; [|done|].
  - apply Z.pow_le_mono_r; [done|]. change (2 ^ 35) with (64 * 2 ^ 29). apply Z.mul_le_mono_nonneg_l; done.
  - etransitivity; [|exact Hk]. done.
Qed.

Lemma SMALL_gt_pow2 k : 0 ≤ k < 2 ^ 35 → 2 ^ k < SMALL.
Proof. intros Hk. unfold SMALL. rewrite (proj2_sig SMALL_def). apply Z.pow_lt_mono_r; [done|done|apply Hk]. Qed.

Lemma small_short x : canon x → small (nval x) → short x.
Proof.
  intros Hx Hs. destruct x as [n|b]; [done|]. cbn [short]. pose proof (canon_wf b Hx) as [[Hok Hl] Ht _].
  pose proof (canon_nonzero b Hx) as Hnz. pose proof (trimmed_lower _ Hok Ht Hl Hnz) as Hlow.
  destruct (decide (zlen (digits b) < 2 ^ 30)); [done|]. exfalso. unfold small in Hs. cbn [nval] in Hs.
  pose proof (SMALL_pow (zlen (digits b) - 1) ltac:(lia)).
  pose proof (bval_bound _ Hok). unfold bigval in Hs. destruct (sign b); lia.
Qed.

(** The products that [rb_fix_mul] boxes without looking whether they fit. *)
Definition mul_wraps (a b : Z) : bool := FIT_SQRT_LONG a && FIT_SQRT_LONG b && negb (FIXABLE (a * b)).

Lemma FIT_SQRT_spec n : FIT_SQRT_LONG n = true ↔ - 2 ^ 31 ≤ n < 2 ^ 31.
Proof.
  unfold FIT_SQRT_LONG. change SQRT_LONG_MAX with (2 ^ 31). rewrite andb_true_iff, Z.ltb_lt, Z.leb_le. lia.
Qed.

Lemma FIXABLE_spec n : FIXABLE n = true ↔ - 2 ^ 61 ≤ n ≤ 2 ^ 61 - 1.
Proof.
  unfold FIXABLE, POSFIXABLE, NEGFIXABLE. rewrite FIXNUM_MIN_val, FIXNUM_MAX_val, andb_true_iff, Z.ltb_lt, Z.leb_le. lia.
Qed.

(** A wrapped product of longs divides back to a factor only if it did not wrap. *)
Lemma wrap_div a b c : a ≠ 0 → Z.abs a < 2 ^ 63 → (c - a * b) mod 2 ^ 64 = 0 → Z.quot c a = b → c = a * b.
Proof.
  intros Ha Hr Hm Hq. pose proof (Z.quot_rem c a Ha) as E. rewrite Hq in E.
  pose proof (Z.rem_bound_abs c a Ha) as Hb. apply Z.mod_divide in Hm as [k Hk]; [|lia]. nia.
Qed.

Lemma s64_mod x : (s64 x - x) mod 2 ^ 64 = 0.
Proof.
  unfold s64. replace ((x + 2 ^ 63) mod 2 ^ 64 - 2 ^ 63 - x) with ((x + 2 ^ 63) mod 2 ^ 64 - (x + 2 ^ 63)) by lia.
  rewrite Zminus_mod, Z.mod_mod, Z.sub_diag by lia. done.
Qed.

Lemma mul_fix_operand x b y : rb_int2big b = Ok y → rb_big_mul x (Bignum y) = rb_big_mul x (Fixnum b).
Proof. intros E. unfold rb_big_mul, rb_big_mul0. cbn [to_big]. by rewrite E. Qed.

Lemma fix_mul_spec a b :
  canon (Fixnum a) → canon (Fixnum b) → mul_wraps a b = false → computes (rb_fix_mul a (Fixnum b)) (a * b).
Proof.
  intros Ha Hb Hw. rewrite canon_fix in Ha, Hb. cbn [rb_fix_mul]. unfold mul_wraps in Hw.
  destruct (FIT_SQRT_LONG a && FIT_SQRT_LONG b) eqn:Ef.
  { cbn [andb] in Hw. apply negb_false_iff, FIXABLE_spec in Hw. rewrite s64_small by lia. unfold LONG2FIX.
    rewrite box_small by fix_range. by apply computes_fix. }
  destruct (Z.eqb_spec a 0) as [->|Hnz]; [by apply computes_fix|].
  unfold cquot. rewrite (proj2 (Z.eqb_neq a 0)) by done. cbn [mbind res_bind].
  destruct (negb (FIX2LONG (INT2FIX (s64 (a * b))) =? s64 (a * b)) || negb (Z.quot (s64 (a * b)) a =? b)) eqn:Eo.
  - destruct (int2big_wf a) as (x & -> & [Hxo _ _] & Hvx & Hlx); [fix_range|].
    destruct (int2big_wf b) as (y & Ey & _ & _ & _); [fix_range|]. rewrite Ey. cbn [mbind res_bind].
    rewrite (mul_fix_operand x b y Ey), <- Hvx. apply (rb_big_mul_spec x (Fixnum b)); [done|by apply canon_fix|lia|done].
  - apply orb_false_iff in Eo as [E1 E2]. apply negb_false_iff, Z.eqb_eq in E1, E2.
    apply wrap_div in E2; [|done|lia|apply s64_mod]. unfold LONG2FIX. rewrite E1, E2.
    apply computes_fix. rewrite E2, box_wrap in E1. pose proof (Z.mod_pos_bound (a * b + 2 ^ 61) (2 ^ 62)). lia.
Qed.

Lemma fix_mul_wraps a b :
  mul_wraps a b = true → rb_fix_mul a (Fixnum b) = Ok (Fixnum ((a * b + 2 ^ 61) mod 2 ^ 62 - 2 ^ 61)).
Proof.
  intros Hw. unfold mul_wraps in Hw. rewrite !andb_true_iff, !FIT_SQRT_spec in Hw. destruct Hw as [[Ha Hb] _].
  cbn [rb_fix_mul]. rewrite (proj2 (FIT_SQRT_spec a)), (proj2 (FIT_SQRT_spec b)) by done. cbn [andb].
  unfold LONG2FIX. by rewrite box_wrap, s64_small by nia.
Qed.

Lemma mul_wraps_fix x y : canon x → canon y → mul_wraps (nval x) (nval y) = true →
  x = Fixnum (nval x) ∧ y = Fixnum (nval y).
Proof.
  intros Hx Hy Hw. unfold mul_wraps in Hw. rewrite !andb_true_iff, !FIT_SQRT_spec in Hw.
  split; apply canon_fixnum; (done || lia).
Qed.

Lemma int_mul_spec x y :
  canon x → canon y → small (nval x) → small (nval y) → mul_wraps (nval x) (nval y) = false →
  computes (int_mul x y) (nval x * nval y).
Proof.
  intros Hx Hy Hsx Hsy Hw. pose proof (small_short x Hx Hsx). pose proof (small_short y Hy Hsy).
  destruct x as [a|b]; cbn [int_mul].
  - destruct y as [c|y]; [by apply fix_mul_spec|]. cbn [rb_fix_mul nval]. rewrite Z.mul_comm.
    by apply (rb_big_mul_correct y (Fixnum a)).
  - by apply (rb_big_mul_correct b y).
Qed.

(** ** Division *)

Lemma fixdivmod_spec x y :
  - 2 ^ 61 ≤ x ≤ 2 ^ 61 - 1 → - 2 ^ 61 ≤ y ≤ 2 ^ 61 - 1 → y ≠ 0 → fixdivmod x y = Ok (x / y, x mod y).
Proof.
  intros Hx Hy Hnz. unfold fixdivmod. rewrite (proj2 (Z.eqb_neq y 0)) by done.
  assert (∀ a b, 0 ≤ a → 0 < b → cquot a b = Ok (a / b)) as Hq.
  { intros a b Ha Hb. unfold cquot. rewrite (proj2 (Z.eqb_neq b 0)) by lia. by rewrite Z.quot_div_nonneg by lia. }
  set (q := Z.abs x / Z.abs y). pose proof (Z.div_mod (Z.abs x) (Z.abs y) ltac:(lia)) as Edm. fold q in Edm.
  pose proof (Z.mod_pos_bound (Z.abs x) (Z.abs y) ltac:(lia)) as Hr. set (r := Z.abs x mod Z.abs y) in *.
  assert (0 ≤ q ≤ Z.abs x) as Hqb by (unfold q; split; [apply Z.div_pos; lia|apply Z.div_le_upper_bound; nia]).
  assert (Z.abs y * q ≤ Z.abs x) by lia.
  set (d := if Bool.eqb (x <? 0) (y <? 0) then q else - q).
  match goal with |- context [mbind _ ?m] => assert (m = Ok d) as -> end.
  { unfold d. destruct (Z.ltb_spec y 0), (Z.ltb_spec x 0); cbn [Bool.eqb]; rewrite ?s64_small by lia;
      rewrite Hq by lia; cbn [mbind res_bind]; unfold q;
      rewrite ?(Z.abs_neq x), ?(Z.abs_neq y), ?(Z.abs_eq x), ?(Z.abs_eq y) by lia; [done| |  |done];
      fold q; rewrite ?s64_small; try done; unfold q in *;
      rewrite ?(Z.abs_neq x), ?(Z.abs_neq y), ?(Z.abs_eq x), ?(Z.abs_eq y) in * by lia; lia. }
  cbn [mbind res_bind].
  assert (Z.abs (d * y) ≤ Z.abs x) as Hdy by (unfold d; destruct (Bool.eqb _ _); nia).
  rewrite (s64_small (d * y)) by lia. rewrite (s64_small (x - d * y)) by lia.
  assert (x - d * y = if x <? 0 then - r else r) as ->.
  { unfold d. destruct (Z.ltb_spec x 0), (Z.ltb_spec y 0); cbn [Bool.eqb]; nia. }
  assert (∀ a b, a * y + b = x → (0 ≤ b < y ∨ y < b ≤ 0) → Ok (a, b) = Ok (x / y, x mod y)) as Hu.
  { intros a b E Hb. rewrite (Z.div_unique x y a b) by lia. by rewrite (Z.mod_unique x y a b) by lia. }
  unfold d in *. destruct (Z.ltb_spec x 0), (Z.ltb_spec y 0); cbn [Bool.eqb] in *; cmp_spec; cbn [andb orb];
    rewrite ?s64_small by lia; apply Hu; nia.
Qed.

Lemma fix_div_range x y :
  - 2 ^ 61 ≤ x ≤ 2 ^ 61 - 1 → - 2 ^ 61 ≤ y ≤ 2 ^ 61 - 1 → y ≠ 0 →
  - 2 ^ 61 ≤ x / y ≤ 2 ^ 61 ∧ - 2 ^ 61 ≤ x mod y ≤ 2 ^ 61 - 1.
Proof.
  intros Hx Hy Hnz. pose proof (Z.div_mod x y Hnz). destruct (decide (0 < y)).
  - pose proof (Z.mod_pos_bound x y ltac:(lia)). nia.
  - pose proof (Z.mod_neg_bound x y ltac:(lia)). nia.
Qed.

Lemma int_divmod_spec x y :
  canon x → canon y → nval y ≠ 0 →
  computes (int_div x y) (nval x / nval y) ∧ computes (int_mod x y) (nval x mod nval y) ∧
  returns (int_divmod x y) (λ '(d, m), (nval d = nval x / nval y ∧ canon d) ∧ nval m = nval x mod nval y ∧ canon m).
Proof.
  intros Hx Hy Hnz.
  assert (∀ b, big_ok b → computes (rb_big_divide b y) (bigval b / nval y) ∧ computes (rb_big_modulo b y) (bigval b mod nval y) ∧
    returns (rb_big_divmod b y) (λ '(d, m), (nval d = bigval b / nval y ∧ canon d) ∧ nval m = bigval b mod nval y ∧ canon m)) as Hbig.
  { intros b Hb. split_and!.
    - eapply returns_mono; [by apply rb_big_divide_spec|]. by intros ? [].
    - eapply returns_mono; [by apply rb_big_modulo_spec|]. by intros ? [].
    - eapply returns_mono; [by apply rb_big_divmod_spec|]. intros [d m] (? & ? & ? & ?). done. }
  destruct x as [a|b]; cbn [int_div int_mod int_divmod nval]; [|by apply Hbig, canon_big].
  rewrite canon_fix in Hx. destruct y as [c|y]; cbn [fix_divide fix_mod fix_divmod nval] in *.
  - rewrite canon_fix in Hy. rewrite fixdivmod_spec by done. cbn [mbind res_bind].
    pose proof (fix_div_range a c Hx Hy Hnz) as [Hd Hm].
    assert (computes (rb_int2inum (a / c)) (a / c)) as H1 by (apply int2num_spec; fix_range).
    assert (computes (rb_int2inum (a mod c)) (a mod c)) as H2 by (apply int2num_spec; fix_range).
    split_and!; [done..|]. destruct H1 as (d & -> & Hvd & Hcd), H2 as (m & -> & Hvm & Hcm). by apply returns_ret.
  - destruct (int2big_wf a) as (b & -> & [Hb _ _] & <- & _); [fix_range|]. cbn [mbind res_bind]. by apply Hbig.
Qed.

Lemma int_div_zero x y :
  canon x → canon y → nval y = 0 →
  int_div x y = Err (Raise ZeroDivisionError) ∧ int_mod x y = Err (Raise ZeroDivisionError) ∧
  int_divmod x y = Err (Raise ZeroDivisionError).
Proof.
  intros Hx Hy Hz. rewrite (canon_fixnum y Hy) by lia. rewrite Hz. destruct x as [a|b]; [done|].
  destruct (divide_by_zero b (Fixnum 0)) as (z & E & Ez); [by apply canon_fix|done|].
  unfold int_div, int_mod, int_divmod, rb_big_divide, rb_big_modulo, rb_big_divmod, bigdivmod. rewrite E.
  cbn [mbind res_bind]. by rewrite Ez.
Qed.

(** ** Comparison *)

Lemma comp_spec a b : comp a b = if a =? b then 0 else if b <? a then 1 else -1.
Proof. unfold comp. cmp_spec; destruct (Z.compare_spec a b); try lia; done. Qed.

Lemma comp_range a b : comp a b = -1 ∧ a < b ∨ comp a b = 0 ∧ a = b ∨ comp a b = 1 ∧ b < a.
Proof. rewrite comp_spec. cmp_spec; lia. Qed.

Lemma int_cmp_spec x y : canon x → canon y → int_cmp x y = Ok (Fixnum (comp (nval x) (nval y))).
Proof.
  intros Hx Hy. destruct x as [a|b]; cbn [int_cmp nval].
  - destruct y as [c|y]; cbn [fix_cmp nval]; [by rewrite comp_spec|].
    rewrite canon_fix in Hx. destruct (int2big_wf a) as (b & -> & Hb & <- & _); [fix_range|].
    cbn [mbind res_bind]. by rewrite rb_big_cmp_spec.
  - rewrite rb_big_cmp_spec by (done || by apply canon_wf). done.
Qed.

Lemma int_eq_spec x y : canon x → canon y → int_eq x y = Ok (nval x =? nval y).
Proof.
  intros Hx Hy. destruct x as [a|b]; cbn [int_eq nval].
  - destruct y as [c|y]; cbn [fix_equal nval]; [done|].
    rewrite (proj2 (rb_big_cmp_eq_correct y (Fixnum a) Hy Hx)). cbn [nval].
    f_equal. case_bool_decide; symmetry; [apply Z.eqb_eq|apply Z.eqb_neq]; lia.
  - rewrite (proj2 (rb_big_cmp_eq_correct b y Hx Hy)).
    f_equal. case_bool_decide; symmetry; [by apply Z.eqb_eq|by apply Z.eqb_neq].
Qed.

(** The relational methods: [f] decides the sign of the comparison. *)
Lemma relop_fix a y (f : Z → bool) (g : Z → Z → bool) :
  canon (Fixnum a) → canon y → (∀ a b, f (comp a b) = g a b) →
  match y with
  | Fixnum b => Ok (g a b)
  | Bignum _ => x ← rb_int2big a; c ← rb_big_cmp x y; Ok (f c)
  end = Ok (g a (nval y)).
Proof.
  intros Ha Hy Hf. destruct y as [b|y]; [done|]. rewrite canon_fix in Ha.
  destruct (int2big_wf a) as (b & -> & Hb & <- & _); [fix_range|]. cbn [mbind res_bind].
  rewrite rb_big_cmp_spec by done. cbn [mbind res_bind]. by rewrite Hf.
Qed.

Lemma cmpint_comp a b : rb_cmpint (Fixnum (comp a b)) = Ok (comp a b).
Proof.
  unfold rb_cmpint, rb_fix2int, check_int. cbn [mbind res_bind]. change INT_MIN with (- 2 ^ 31). change INT_MAX with (2 ^ 31 - 1).
  destruct (comp_range a b) as [[-> _]|[[-> _]|[-> _]]]; done.
Qed.

Lemma int_relop_spec x y :
  canon x → canon y →
  int_gt x y = Ok (nval y <? nval x) ∧ int_ge x y = Ok (nval y <=? nval x) ∧
  int_lt x y = Ok (nval x <? nval y) ∧ int_le x y = Ok (nval x <=? nval y).
Proof.
  intros Hx Hy.
  assert (∀ a b, (0 <? comp a b) = (b <? a)) as H1 by (intros a b; destruct (comp_range a b) as [[-> ?]|[[-> ?]|[-> ?]]]; cmp_spec; lia).
  assert (∀ a b, (0 <=? comp a b) = (b <=? a)) as H2 by (intros a b; destruct (comp_range a b) as [[-> ?]|[[-> ?]|[-> ?]]]; cmp_spec; lia).
  assert (∀ a b, (comp a b <? 0) = (a <? b)) as H3 by (intros a b; destruct (comp_range a b) as [[-> ?]|[[-> ?]|[-> ?]]]; cmp_spec; lia).
  assert (∀ a b, (comp a b <=? 0) = (a <=? b)) as H4 by (intros a b; destruct (comp_range a b) as [[-> ?]|[[-> ?]|[-> ?]]]; cmp_spec; lia).
  destruct x as [a|b].
  - cbn [int_gt int_ge int_lt int_le nval].
    split_and!; [by apply (relop_fix a y (λ c, 0 <? c) (λ a b, b <? a))|by apply (relop_fix a y (λ c, 0 <=? c) (λ a b, b <=? a))|
      by apply (relop_fix a y (λ c, c <? 0) (λ a b, a <? b))|by apply (relop_fix a y (λ c, c <=? 0) (λ a b, a <=? b))].
  - unfold int_gt, int_ge, int_lt, int_le, cmp_gt, cmp_ge, cmp_lt, cmp_le. rewrite int_cmp_spec by done.
    cbn [mbind res_bind]. rewrite cmpint_comp. cbn [mbind res_bind]. by rewrite H1, H2, H3, H4.
Qed.

Lemma int_gt_spec x y : canon x → canon y → int_gt x y = Ok (nval y <? nval x).
Proof. intros. by apply int_relop_spec. Qed.
Lemma int_lt_spec x y : canon x → canon y → int_lt x y = Ok (nval x <? nval y).
Proof. intros. by apply int_relop_spec. Qed.

(** The remainder with the sign of the dividend, from the modulus. *)
Lemma rem_of_mod a b : b ≠ 0 →
  Z.rem a b = if negb (a mod b =? 0) && (((a <? 0) && (0 <? b)) || ((0 <? a) && (b <? 0))) then a mod b - b else a mod b.
Proof.
  intros Hb. pose proof (Z.div_mod a b Hb) as Ed. assert (0 < b → 0 ≤ a mod b < b) as Hp by (intros; by apply Z.mod_pos_bound).
  assert (b < 0 → b < a mod b ≤ 0) as Hn by (intros; by apply Z.mod_neg_bound).
  symmetry. destruct (negb (a mod b =? 0) && (((a <? 0) && (0 <? b)) || ((0 <? a) && (b <? 0)))) eqn:Ec.
  - apply (Zrem_unique_full a b (a / b + 1)); [|lia]. unfold Zquot.Remainder.
    apply andb_true_iff in Ec as [Ez Ec]. apply negb_true_iff, Z.eqb_neq in Ez. apply orb_true_iff in Ec as [Ec|Ec]; apply andb_true_iff in Ec as [E1 E2];
      apply Z.ltb_lt in E1, E2; lia.
  - apply (Zrem_unique_full a b (a / b)); [|lia]. unfold Zquot.Remainder. revert Ec. cmp_spec; cbn [negb andb orb]; lia.
Qed.

Lemma int_remainder_spec x y : canon x → canon y → nval y ≠ 0 → computes (int_remainder x y) (Z.rem (nval x) (nval y)).
Proof.
  intros Hx Hy Hnz. destruct x as [a|b]; cbn [int_remainder].
  - assert (canon (Fixnum 0)) as H0 by (by apply canon_fix). unfold num_remainder.
    destruct (int_divmod_spec (Fixnum a) y Hx Hy Hnz) as (_ & (z & -> & Hz & Hcz) & _). cbn [mbind res_bind].
    rewrite int_eq_spec, !int_lt_spec, !int_gt_spec by done. cbn [mbind res_bind nval] in *. rewrite rem_of_mod by done. rewrite <- Hz.
    destruct (negb _ && _); [by apply int_minus_spec|by apply computes_self].
  - eapply returns_mono; [apply rb_big_remainder_spec; [by apply canon_big|done|done]|]. by intros ? [].
Qed.

Lemma int_remainder_zero x y : canon x → canon y → nval y = 0 → int_remainder x y = Err (Raise ZeroDivisionError).
Proof.
  intros Hx Hy Hz. destruct x as [a|b]; cbn [int_remainder].
  - unfold num_remainder. by rewrite (proj1 (proj2 (int_div_zero (Fixnum a) y Hx Hy Hz))).
  - destruct (divide_by_zero b y Hy Hz) as (z & E & Ez). unfold rb_big_remainder. rewrite E. cbn [mbind res_bind]. by rewrite Ez.
Qed.

(** ** Conversions to machine integers *)

Lemma rb_num2long_spec x : canon x →
  rb_num2long x = if decide (LONG_MIN ≤ nval x ≤ LONG_MAX) then Ok (nval x) else Err (Raise RangeError).
Proof.
  intros Hx. destruct x as [a|b]; cbn [rb_num2long nval]; [|by apply rb_big2long_spec].
  rewrite canon_fix in Hx. by rewrite decide_True by fix_range.
Qed.

Lemma rb_big2ulong_spec b : canon (Bignum b) →
  rb_big2ulong b = if decide (- 2 ^ 63 < bigval b < 2 ^ 64) then Ok (u64 (bigval b)) else Err (Raise RangeError).
Proof.
  intros Hb. pose proof (canon_wf b Hb) as [[Hok Hl] _ Hs]. pose proof (bval_bound _ Hok) as Hr. unfold rb_big2ulong.
  destruct (canon_len b Hb) as [E1|[Hgt Hge]].
  - rewrite big2ulong_one by done. cbn [mbind res_bind]. rewrite E1, Z.pow_1_r, BIGRAD_val in Hr.
    unfold bigval in *. set (v := bval (digits b)) in *. destruct (sign b).
    + rewrite decide_True by lia. by rewrite u64_small by lia.
    + specialize (Hs eq_refl). destruct (decide (v < 2 ^ 63)).
      * rewrite s64_small, decide_True by lia. by rewrite (proj2 (Z.ltb_ge v 0)) by lia.
      * assert (s64 v = v - 2 ^ 64) as ->.
        { unfold s64. rewrite <- (Z.mod_unique (v + 2 ^ 63) (2 ^ 64) 1 (v + 2 ^ 63 - 2 ^ 64)); lia. }
        by rewrite (proj2 (Z.ltb_lt _ 0)), decide_False by lia.
  - unfold big2ulong, RBIGNUM_LEN, DIGSPERLONG. rewrite (proj2 (Z.ltb_lt _ _)) by done. cbn [mbind res_bind].
    rewrite BIGRAD_val in Hge. rewrite decide_False; [done|]. unfold bigval. destruct (sign b); lia.
Qed.
End methods.
