(* ===== verification/NumericOps.v ===== *)
(** The integer methods compute on [Z]: bits, powers and rounding, then the iterators. *)

(** * numeric.c: bits, powers, rounding *)

From S2P Require Import Prelude Util Big BigVal BigAdd BigMul BigDiv BigBits BigPow BigStr BigThm Numeric NumericSpec.

Section ops.
Context `{J : Junk}.

(** ** Bits *)

(** A bitwise operation on two values of a signed width stays in that width. *)
Lemma signed_width w n : 0 ≤ w → - 2 ^ w ≤ n < 2 ^ w ↔ ∀ i, w ≤ i → Z.testbit n i = (n <? 0).
Proof.
  intros Hw. split.
  - intros Hn i Hi. destruct (Z.ltb_spec n 0).
    + destruct (Z.testbit n i) eqn:E; [done|exfalso].
      assert (Z.testbit (Z.lnot n) i = true) as E' by (rewrite Z.lnot_spec, E by lia; done).
      rewrite (Z.testbit_eqb) in E' by lia. rewrite Z.div_small in E'; [done|].
      unfold Z.lnot. assert (2 ^ w ≤ 2 ^ i) by (apply Z.pow_le_mono_r; lia). lia.
    + rewrite Z.testbit_eqb by lia. rewrite Z.div_small; [done|].
      assert (2 ^ w ≤ 2 ^ i) by (apply Z.pow_le_mono_r; lia). lia.
  - intros H. destruct (Z.ltb_spec n 0).
    + assert (Z.shiftr n w = -1) as E.
      { apply Z.bits_inj'. intros i Hi. rewrite Z.shiftr_spec, H, Z.bits_m1 by lia. done. }
      rewrite Z.shiftr_div_pow2 in E by lia. assert (0 < 2 ^ w) by (apply Z.pow_pos_nonneg; lia).
      pose proof (Z.div_mod n (2 ^ w) ltac:(lia)). pose proof (Z.mod_pos_bound n (2 ^ w) ltac:(lia)). nia.
    + assert (Z.shiftr n w = 0) as E.
      { apply Z.bits_inj'. intros i Hi. rewrite Z.shiftr_spec, H, Z.bits_0 by lia. done. }
      rewrite Z.shiftr_div_pow2 in E by lia. assert (0 < 2 ^ w) by (apply Z.pow_pos_nonneg; lia).
      pose proof (Z.div_mod n (2 ^ w) ltac:(lia)). pose proof (Z.mod_pos_bound n (2 ^ w) ltac:(lia)). nia.
Qed.

Lemma bitop_range (f : Z → Z → Z) (g : bool → bool → bool) a b :
  (∀ a b i, 0 ≤ i → Z.testbit (f a b) i = g (Z.testbit a i) (Z.testbit b i)) →
  - 2 ^ 61 ≤ a ≤ 2 ^ 61 - 1 → - 2 ^ 61 ≤ b ≤ 2 ^ 61 - 1 → LONG_MIN ≤ f a b ≤ LONG_MAX.
Proof.
  intros Hf Ha Hb. assert (- 2 ^ 63 ≤ f a b < 2 ^ 63) as H; [|unfold LONG_MIN, LONG_MAX; lia].
  assert (∀ i, 61 ≤ i → Z.testbit (f a b) i = g (a <? 0) (b <? 0)) as Hi.
  { intros i Hi. rewrite Hf by lia. rewrite (proj1 (signed_width 61 a ltac:(lia))), (proj1 (signed_width 61 b ltac:(lia))) by lia. done. }
  apply signed_width; [lia|]. intros i ?. rewrite Hi by lia. symmetry.
  destruct (Z.ltb_spec (f a b) 0) as [Hs|Hs].
  - destruct (proj1 (Z.bits_iff_neg_ex (f a b)) Hs) as (k & Hk). rewrite <- (Hi (Z.max 61 (Z.succ k))) by lia. by rewrite Hk by lia.
  - destruct (proj1 (Z.bits_iff_nonneg_ex (f a b)) Hs) as (k & Hk). rewrite <- (Hi (Z.max 61 (Z.succ k))) by lia. by rewrite Hk by lia.
Qed.

Lemma int_bitwise_spec x y :
  canon x → canon y →
  computes (int_and x y) (Z.land (nval x) (nval y)) ∧ computes (int_or x y) (Z.lor (nval x) (nval y)) ∧
  computes (int_xor x y) (Z.lxor (nval x) (nval y)) ∧ computes (int_rev x) (Z.lnot (nval x)).
Proof.
  intros Hx Hy. destruct x as [a|b]; cbn [int_and int_or int_xor int_rev nval]; [|apply (rb_big_bitwise_correct b y Hx Hy)].
  assert (computes (fix_rev a) (Z.lnot a)) as Hr.
  { rewrite canon_fix in Hx. apply int2num_spec. unfold Z.lnot. fix_range. }
  destruct y as [c|y]; cbn [fix_and fix_or fix_xor nval].
  - rewrite canon_fix in Hx, Hy. split_and!; [..|done]; apply int2num_spec.
    + apply (bitop_range Z.land andb); [intros; by apply Z.land_spec|done|done].
    + apply (bitop_range Z.lor orb); [intros; by apply Z.lor_spec|done|done].
    + apply (bitop_range Z.lxor xorb); [intros; by apply Z.lxor_spec|done|done].
  - destruct (rb_big_bitwise_correct y (Fixnum a) Hy Hx) as (H1 & H2 & H3 & _). cbn [nval] in *.
    rewrite Z.land_comm, Z.lor_comm, Z.lxor_comm. done.
Qed.

(** ** Shifts *)

Lemma fix_rshift_spec a i : - 2 ^ 61 ≤ a ≤ 2 ^ 61 - 1 → 0 ≤ i → computes (fix_rshift a i) (Z.shiftr a i).
Proof.
  intros Ha Hi. unfold fix_rshift. rewrite Z.shiftr_div_pow2 by done. destruct (Z.leb_spec 63 i).
  - assert (2 ^ 63 ≤ 2 ^ i) by (apply Z.pow_le_mono_r; lia).
    assert (a / 2 ^ i = if a <? 0 then -1 else 0) as ->.
    { destruct (Z.ltb_spec a 0); [symmetry; apply Z.div_unique with (a + 2 ^ i); lia|apply Z.div_small; lia]. }
    apply computes_fix. destruct (a <? 0); lia.
  - assert (0 < 2 ^ i) by (apply Z.pow_pos_nonneg; lia).
    assert (- 2 ^ 61 ≤ a / 2 ^ i ≤ 2 ^ 61 - 1).
    { pose proof (Z.div_mod a (2 ^ i) ltac:(lia)). pose proof (Z.mod_pos_bound a (2 ^ i) ltac:(lia)). nia. }
    unfold LONG2FIX. rewrite box_small by fix_range. by apply computes_fix.
Qed.

Lemma fix_lshift_spec a w : - 2 ^ 61 ≤ a ≤ 2 ^ 61 - 1 → 0 ≤ w < 2 ^ 64 → computes (fix_lshift a w) (Z.shiftl a w).
Proof.
  intros Ha Hw. unfold fix_lshift.
  assert (computes (b ← rb_int2big a; n ← rb_uint2inum w; rb_big_lshift b n) (Z.shiftl a w)) as Hbig.
  { destruct (int2big_wf a) as (b & -> & Hb & <- & Hl); [fix_range|]. cbn [mbind res_bind].
    destruct (uint2num_spec w Hw) as (n & -> & <- & Hn). cbn [mbind res_bind].
    pose proof (rb_big_lshift_spec b n Hb ltac:(lia) Hn) as H. rewrite decide_True in H by lia. exact H. }
  destruct (Z.ltb_spec 63 w); [done|]. cbn [orb]. destruct (Z.ltb_spec 0 (Z.shiftr (u64 a) (63 - w))) as [|Hz]; [done|].
  rewrite Z.shiftr_div_pow2 in Hz by lia. assert (0 < 2 ^ (63 - w)) by (apply Z.pow_pos_nonneg; lia).
  assert (2 ^ (63 - w) * 2 ^ w = 2 ^ 63) as Hp by (rewrite <- Z.pow_add_r by lia; f_equal; lia).
  assert (u64 a < 2 ^ (63 - w)) as Hu.
  { destruct (decide (u64 a < 2 ^ (63 - w))); [done|]. pose proof (Z.div_le_lower_bound (u64 a) (2 ^ (63 - w)) 1). lia. }
  assert (0 ≤ a) as Hp0.
  { destruct (decide (0 ≤ a)); [done|]. exfalso. assert (2 ^ (63 - w) ≤ 2 ^ 63) by (apply Z.pow_le_mono_r; lia).
    unfold u64 in Hu. rewrite <- (Z.mod_unique a (2 ^ 64) (-1) (a + 2 ^ 64)) in Hu by lia. lia. }
  rewrite u64_small in Hu by lia. rewrite Z.shiftl_mul_pow2 by lia. assert (0 < 2 ^ w) by (apply Z.pow_pos_nonneg; lia).
  apply s64_fix. nia.
Qed.

(** Bignum receivers of a shift are bounded as in [rb_big_shift_correct]. *)
Definition shiftable (x : num) : Prop :=
  match x with Fixnum _ => True | Bignum b => zlen (digits b) < 2 ^ 58 end.

Lemma int_shift_spec x y :
  canon x → shiftable x → canon y →
  (if decide (nval y < 2 ^ 64) then computes (int_lshift x y) (Z.shiftl (nval x) (nval y))
   else int_lshift x y = Err (Raise RangeError)) ∧
  (if decide (- 2 ^ 64 < nval y) then computes (int_rshift x y) (Z.shiftr (nval x) (nval y))
   else int_rshift x y = Err (Raise RangeError)).
Proof.
  intros Hx Hs Hy. destruct x as [a|b]; cbn [int_lshift int_rshift nval]; [|by apply rb_big_shift_correct].
  rewrite canon_fix in Hx. destruct y as [i|y]; cbn [rb_fix_lshift rb_fix_rshift nval].
  - rewrite canon_fix in Hy. rewrite !decide_True by lia. split.
    + destruct (Z.ltb_spec i 0); [|by apply fix_lshift_spec; lia]. rewrite u64_small by lia.
      eapply computes_eq; [apply fix_rshift_spec; lia|]. by rewrite Z.shiftr_opp_r.
    + destruct (Z.eqb_spec i 0) as [->|]; [by apply computes_fix|].
      destruct (Z.ltb_spec i 0); [|by apply fix_rshift_spec; lia]. rewrite u64_small by lia.
      eapply computes_eq; [apply fix_lshift_spec; lia|]. by rewrite Z.shiftl_opp_r.
  - destruct (int2big_wf a) as (b & -> & Hb & <- & Hl); [fix_range|]. cbn [mbind res_bind]. split.
    + apply (rb_big_lshift_spec b (Bignum y) Hb ltac:(lia) Hy).
    + apply (rb_big_rshift_spec b (Bignum y) Hb ltac:(lia) Hy).
Qed.

Lemma bignorm_canon b : canon (Bignum b) → bignorm b = Ok (Bignum b).
Proof.
  intros Hb. destruct (norm_spec b) as (n & -> & Hn & Hc); [by apply canon_big|]. f_equal. by apply canon_unique.
Qed.

Lemma int_aref_spec x y :
  canon x → shiftable x → canon y → int_aref x y = Ok (Z.b2z (Z.testbit (nval x) (nval y))).
Proof.
  intros Hx Hs Hy. destruct x as [a|b]; cbn [int_aref nval]; [|by apply rb_big_aref_correct].
  rewrite canon_fix in Hx.
  assert (∀ i, 61 ≤ i → Z.testbit a i = (a <? 0)) as Hsgn by (apply signed_width; lia).
  unfold fix_aref. destruct y as [i|y]; cbn [mbind res_bind nval].
  - rewrite canon_fix in Hy. destruct (Z.ltb_spec i 0); [by rewrite Z.testbit_neg_r by lia|].
    destruct (Z.ltb_spec 63 i); [rewrite Hsgn by lia; by destruct (a <? 0)|].
    assert (Z.testbit a i = negb (Z.land a (s64 (Z.shiftl 1 i)) =? 0)) as ->; [|by destruct (Z.land _ _ =? 0)].
    assert (Z.land a (s64 (Z.shiftl 1 i)) = if Z.testbit a i then s64 (Z.shiftl 1 i) else 0) as E.
    { apply Z.bits_inj'. intros j Hj. rewrite Z.land_spec. destruct (decide (i = 63)) as [->|].
      - change (s64 (Z.shiftl 1 63)) with (- 2 ^ 63).
        destruct (decide (j < 63)).
        + change (- 2 ^ 63) with (Z.shiftl (-1) 63). rewrite (Z.shiftl_spec_low (-1)) by lia. rewrite andb_false_r.
          destruct (Z.testbit a 63); [by rewrite Z.shiftl_spec_low by lia|by rewrite Z.bits_0].
        + assert (Z.testbit a j = Z.testbit a 63) as -> by (rewrite (Hsgn j), (Hsgn 63) by lia; done).
          destruct (Z.testbit a 63); [done|by rewrite Z.bits_0].
      - assert (2 ^ i ≤ 2 ^ 62) by (apply Z.pow_le_mono_r; lia). assert (0 < 2 ^ i) by (apply Z.pow_pos_nonneg; lia).
        rewrite Z.shiftl_mul_pow2, Z.mul_1_l, s64_small by lia. destruct (decide (j = i)) as [->|].
        + rewrite Z.pow2_bits_true by lia. destruct (Z.testbit a i); [by rewrite Z.pow2_bits_true by lia|by rewrite Z.bits_0].
        + rewrite Z.pow2_bits_false by lia. rewrite andb_false_r.
          destruct (Z.testbit a i); [by rewrite Z.pow2_bits_false by lia|by rewrite Z.bits_0]. }
    rewrite E. destruct (Z.testbit a i); [|done]. symmetry. apply negb_true_iff, Z.eqb_neq.
    destruct (decide (i = 63)) as [->|]; [done|]. assert (2 ^ i ≤ 2 ^ 62) by (apply Z.pow_le_mono_r; lia).
    assert (0 < 2 ^ i) by (apply Z.pow_pos_nonneg; lia). rewrite Z.shiftl_mul_pow2, s64_small by lia. lia.
  - rewrite bignorm_canon by done. cbn [mbind res_bind]. pose proof (canon_bignum y Hy) as Hb.
    pose proof (canon_wf y Hy) as [[Hok _] _ Hsg]. pose proof (bval_bound _ Hok). unfold bigval in *.
    destruct (sign y); cbn [negb orb].
    + rewrite Hsgn by lia. destruct (Z.leb_spec 0 a), (Z.ltb_spec a 0); try lia; done.
    + rewrite Z.testbit_neg_r by (specialize (Hsg eq_refl); lia). done.
Qed.

(** ** Powers *)

(** The outcome of a power of value [v] with an exponent that may be too large. *)
Definition powers (v : Z) (huge : Prop) (p : power) : Prop :=
  (∃ w, p = PInteger w ∧ nval w = v ∧ canon w) ∨ (p = PFloat ∧ huge).

Lemma pow_small x y : 0 ≤ x ≤ 2 ^ 62 → 0 ≤ y ≤ BIGLEN_LIMIT → small (x ^ y).
Proof.
  intros Hx Hy. assert (BIGLEN_LIMIT = 2 ^ 17) as HL by done. unfold small. rewrite Z.abs_eq by (apply Z.pow_nonneg; lia).
  eapply Z.le_lt_trans; [apply (Z.pow_le_mono_l x (2 ^ 62) y); lia|]. rewrite <- Z.pow_mul_r by lia.
  apply SMALL_gt_pow2. split; [apply Z.mul_nonneg_nonneg; [done|apply Hy]|].
  eapply Z.le_lt_trans; [apply Z.mul_le_mono_nonneg_l; [done|apply Hy]|]. rewrite HL. done.
Qed.

Lemma int_pow_bignum_spec (neg : bool) x y z :
  2 ≤ x ≤ 2 ^ 62 → 0 ≤ y ≤ 2 ^ 61 - 1 → 1 ≤ z ≤ 2 ^ 61 → (neg = true → z ≠ 1) →
  returns (int_pow_bignum neg x y z) (powers ((if neg then -1 else 1) * (z * x ^ y)) (BIGLEN_LIMIT < y)).
Proof.
  intros Hx Hy Hz Hneg. unfold int_pow_bignum.
  destruct (int2big_wf x) as (b & -> & [Hb Hbt _] & Hvb & Hlb); [fix_range|]. cbn [mbind res_bind].
  rewrite (s64_small y) by lia. destruct (int2num_spec y) as (e & -> & Hve & Hce); [fix_range|]. cbn [mbind res_bind].
  rewrite (canon_fixnum e Hce) by lia. rewrite Hve.
  pose proof (rb_big_pow_spec b y Hb Hbt ltac:(fix_range)) as Hp. rewrite Hlb, Z.mul_1_l, Hvb in Hp.
  destruct (decide (y ≤ BIGLEN_LIMIT)) as [Hle|Hgt].
  - destruct Hp as (p & -> & v & -> & Hv & Hc). cbn [mbind res_bind]. destruct (Z.eqb_spec z 1) as [->|Hz1].
    + apply returns_ret. left. exists v. split_and!; [done| |done]. destruct neg; [by specialize (Hneg eq_refl)|lia].
    + destruct (int2big_wf (if neg then s64 (- z) else z)) as (zb & -> & [Hzb _ _] & Hvz & Hlz);
        [destruct neg; rewrite ?s64_small by lia; fix_range|]. cbn [mbind res_bind].
      destruct (rb_big_mul_spec zb v Hzb Hc ltac:(lia)) as (w & -> & Hw & Hcw); [apply small_short; [done|]; rewrite Hv; apply pow_small; lia|].
      apply returns_ret. left. exists w. split_and!; [done| |done]. rewrite Hw, Hvz, Hv.
      destruct neg; rewrite ?s64_small by lia; lia.
  - rewrite Hp. cbn [mbind res_bind]. destruct (z =? 1); apply returns_ret; right; (split; [done|lia]).
Qed.

Definition pow_measure (s : Z * Z * Z) : nat :=
  let '(x, y, z) := s in
  Z.to_nat (if y =? 0 then 64 - Z.log2 x else 2 * Z.log2 y + y mod 2 + 1).

Definition pow_state (neg : bool) (A y0 : Z) (s : Z * Z * Z) : Prop :=
  let '(x, y, z) := s in
  2 ≤ x ≤ 2 ^ 62 ∧ 0 ≤ y ≤ y0 ∧ 1 ≤ z ≤ 2 ^ 61 ∧ (neg = true → z ≠ 1) ∧ z * x ^ y = A.

Lemma int_pow_step_spec neg A y0 s :
  y0 ≤ 2 ^ 61 - 1 → pow_state neg A y0 s →
  returns (int_pow_step neg s) (λ r,
    match r with
    | inl s' => pow_state neg A y0 s' ∧ (pow_measure s' < pow_measure s)%nat
    | inr p => powers ((if neg then -1 else 1) * A) (BIGLEN_LIMIT < y0) p
    end).
Proof.
  destruct s as [[x y] z]. intros Hy0 (Hx & Hy & Hz & Hneg & HA). unfold int_pow_step.
  assert (returns (v ← int_pow_bignum neg x y z; Ok (inr v : (Z * Z * Z) + power)) (λ r,
    match r with
    | inl s' => pow_state neg A y0 s' ∧ (pow_measure s' < pow_measure (x, y, z))%nat
    | inr p => powers ((if neg then -1 else 1) * A) (BIGLEN_LIMIT < y0) p
    end)) as Hbig.
  { destruct (int_pow_bignum_spec neg x y z Hx ltac:(lia) Hz Hneg) as (p & -> & Hp). cbn [mbind res_bind].
    apply returns_ret. rewrite HA in Hp. destruct Hp as [Hp|[? ?]]; [by left|right; split; [done|lia]]. }
  destruct (Z.eqb_spec (y mod 2) 0) as [Heven|Hodd].
  - destruct (FIT_SQRT_LONG x) eqn:Ef; cbn [negb]; [|exact Hbig]. apply FIT_SQRT_spec in Ef.
    apply returns_ret. rewrite s64_small by nia. rewrite Z.shiftr_div_pow2 by lia. change (2 ^ 1) with 2.
    pose proof (Z.div_mod y 2 ltac:(lia)) as Ed. assert (y = 2 * (y / 2)) as E2 by lia. split; [split_and!; [nia|nia|lia|lia|lia|lia|done|]|].
    + rewrite <- HA. rewrite E2 at 2. rewrite Z.pow_mul_r by lia. by rewrite Z.pow_2_r.
    + unfold pow_measure. destruct (Z.eqb_spec y 0) as [->|Hnz].
      * change (0 / 2 =? 0) with true. cbn match. pose proof (Z.log2_mul_below x x ltac:(lia) ltac:(lia)).
        pose proof (Z.log2_le_mono 2 x ltac:(lia)) as Hl. change (Z.log2 2) with 1 in Hl.
        assert (Z.log2 x < 31) by (apply Z.log2_lt_pow2; lia). lia.
      * rewrite (proj2 (Z.eqb_neq (y / 2) 0)) by lia. rewrite E2 at 3. rewrite Z.log2_double by lia.
        pose proof (Z.mod_pos_bound (y / 2) 2 ltac:(lia)). pose proof (Z.log2_nonneg (y / 2)). rewrite Heven. lia.
  - pose proof (Z.mod_pos_bound y 2 ltac:(lia)). assert (0 < y) by (destruct (decide (y = 0)) as [->|]; [done|lia]).
    unfold POSFIXABLE. rewrite FIXNUM_MAX_val. destruct (Z.ltb_spec (s64 (x * z)) (2 ^ 61 - 1 + 1)); cbn [negb mbind res_bind]; [|exact Hbig].
    unfold cquot. rewrite (proj2 (Z.eqb_neq x 0)) by lia. cbn [mbind res_bind].
    destruct (Z.eqb_spec (Z.quot (s64 (x * z)) x) z) as [Eq|]; cbn [negb]; [|exact Hbig].
    apply wrap_div in Eq; [|lia|lia|apply s64_mod]. rewrite Eq in *. rewrite u64_small by lia.
    assert (z * x ^ y = x * z * x ^ (y - 1)) as Epow.
    { replace y with (Z.succ (y - 1)) at 1 by lia. rewrite Z.pow_succ_r by lia. lia. }
    destruct (Z.eqb_spec (y - 1) 0) as [E0|].
    + rewrite E0, Z.pow_0_r, Z.mul_1_r in Epow. rewrite Epow in HA. subst A.
      destruct (int2num_spec (if neg then s64 (- (x * z)) else x * z)) as (w & -> & Hw & Hc);
        [destruct neg; rewrite ?s64_small by nia; fix_range; nia|]. cbn [mbind res_bind]. apply returns_ret. left.
      exists w. split_and!; [done| |done]. rewrite Hw. destruct neg; rewrite ?s64_small by nia; lia.
    + apply returns_ret. split; [split_and!; try lia; nia|]. unfold pow_measure.
      rewrite (proj2 (Z.eqb_neq y 0)), (proj2 (Z.eqb_neq (y - 1) 0)) by lia.
      assert ((y - 1) mod 2 = 0) as -> by (rewrite Zminus_mod; replace (y mod 2) with 1 by lia; done).
      pose proof (Z.log2_le_mono (y - 1) y ltac:(lia)). pose proof (Z.log2_nonneg (y - 1)). lia.
Qed.

Lemma int_pow_spec x y :
  - 2 ^ 61 ≤ x ≤ 2 ^ 61 - 1 → 2 ≤ Z.abs x → 1 ≤ y ≤ 2 ^ 61 - 1 →
  returns (int_pow x y) (powers (x ^ y) (BIGLEN_LIMIT < y)).
Proof.
  intros Hx Hx2 Hy. unfold int_pow. change (Z.land y 1) with (Z.land y (Z.ones 1)). rewrite Z.land_ones by lia.
  change (2 ^ 1) with 2. rewrite <- Z.ldiff_land. change 1 with (Z.ones 1) at 2. rewrite Z.ldiff_ones_r by lia.
  rewrite Z.shiftr_div_pow2, Z.shiftl_mul_pow2 by lia. change (2 ^ 1) with 2.
  pose proof (Z.div_mod y 2 ltac:(lia)) as Ed. pose proof (Z.mod_pos_bound y 2 ltac:(lia)).
  assert ((if x <? 0 then s64 (- x) else x) = Z.abs x) as -> by (destruct (Z.ltb_spec x 0); rewrite ?s64_small by lia; lia).
  set (odd := y mod 2 =? 1). set (neg := if odd then x <? 0 else false). set (z := if odd then Z.abs x else 1).
  assert ((if neg then -1 else 1) * (z * Z.abs x ^ (y / 2 * 2)) = x ^ y) as EA.
  { assert (x ^ y = (x * x) ^ (y / 2) * x ^ (y mod 2)) as ->.
    { rewrite <- Z.pow_2_r, <- Z.pow_mul_r, <- Z.pow_add_r by lia. f_equal. lia. }
    unfold neg, z, odd. rewrite (Z.mul_comm (y / 2)), Z.pow_mul_r, Z.pow_2_r, Z.abs_square by lia.
    destruct (Z.eqb_spec (y mod 2) 1) as [->|]; [|replace (y mod 2) with 0 by lia; rewrite Z.pow_0_r; lia].
    rewrite Z.pow_1_r. destruct (Z.ltb_spec x 0); rewrite ?Z.abs_neq, ?Z.abs_eq by lia; lia. }
  rewrite <- EA. apply (iter_inv (pow_state neg (z * Z.abs x ^ (y / 2 * 2)) y) pow_measure).
  - split_and!; try lia; unfold neg, z; destruct odd; (done || lia).
  - unfold pow_measure, int_pow_fuel. pose proof (Z.log2_nonneg (Z.abs x)). pose proof (Z.log2_nonneg (y / 2 * 2)).
    pose proof (Z.mod_pos_bound (y / 2 * 2) 2 ltac:(lia)).
    destruct (Z.eqb_spec (y / 2 * 2) 0); [lia|]. assert (Z.log2 (y / 2 * 2) < 61) by (apply Z.log2_lt_pow2; lia). lia.
  - intros s Hs. by apply int_pow_step_spec; [lia|].
Qed.

Definition ndigits (x : num) : Z := match x with Fixnum _ => 1 | Bignum b => zlen (digits b) end.

Lemma powers_fix n v (huge : Prop) : - 2 ^ 61 ≤ n ≤ 2 ^ 61 - 1 → n = v → returns (Ok (PInteger (Fixnum n))) (powers v huge).
Proof. intros Hn <-. apply returns_ret. left. eexists. split_and!; [done|done|by apply canon_fix]. Qed.

Lemma pow_minus_one n : 0 ≤ n → (-1) ^ n = if n mod 2 =? 0 then 1 else -1.
Proof.
  intros Hn. pose proof (Z.div_mod n 2 ltac:(lia)) as E. pose proof (Z.mod_pos_bound n 2 ltac:(lia)).
  rewrite E at 1. rewrite Z.pow_add_r, Z.pow_mul_r by lia. change ((-1) ^ 2) with 1. rewrite Z.pow_1_l by (apply Z.div_pos; lia).
  destruct (Z.eqb_spec (n mod 2) 0) as [->|]; [done|]. by replace (n mod 2) with 1 by lia.
Qed.

Lemma int_odd_spec x : canon x → int_odd_p x = Ok (Z.odd (nval x)).
Proof.
  intros Hx. unfold int_odd_p. destruct (int_divmod_spec x (Fixnum 2) Hx) as (_ & (m & -> & Hm & Hc) & _); [by apply canon_fix|done|].
  cbn [mbind res_bind nval] in *. rewrite Zmod_odd in Hm. rewrite (canon_fixnum m Hc) by (destruct (Z.odd (nval x)); lia).
  rewrite Hm. by destruct (Z.odd (nval x)).
Qed.

Lemma fix_pow_spec a y :
  canon (Fixnum a) → canon y →
  (nval y < 0 → fix_pow a y = Ok PRational) ∧
  (0 ≤ nval y → returns (fix_pow a y) (powers (a ^ nval y) (BIGLEN_LIMIT < nval y))).
Proof.
  intros Ha Hy. pose proof Ha as Hac. rewrite canon_fix in Ha. destruct y as [b|y].
  - rewrite canon_fix in Hy. cbn [fix_pow nval]. split; intros Hb; destruct (Z.ltb_spec b 0); try lia; [done|].
    destruct (Z.eqb_spec b 0) as [->|]; [apply powers_fix; [lia|by rewrite Z.pow_0_r]|].
    destruct (Z.eqb_spec b 1) as [->|]; [apply powers_fix; [lia|by rewrite Z.pow_1_r]|].
    destruct (Z.eqb_spec a 0) as [->|].
    { rewrite (proj2 (Z.ltb_lt 0 b)) by lia. apply powers_fix; [lia|by rewrite Z.pow_0_l by lia]. }
    destruct (Z.eqb_spec a 1) as [->|]; [apply powers_fix; [lia|by rewrite Z.pow_1_l by lia]|].
    destruct (Z.eqb_spec a (-1)) as [->|]; [|apply int_pow_spec; lia].
    rewrite Z.rem_mod_nonneg by lia. rewrite pow_minus_one by lia. apply powers_fix; [destruct (b mod 2 =? 0); lia|done].
  - pose proof (canon_bignum y Hy) as Hb. unfold fix_pow. rewrite int_lt_spec by (done || by apply canon_fix). cbn [mbind res_bind nval].
    split; intros Hs; destruct (Z.ltb_spec (bigval y) 0); try lia; [done|].
    assert (BIGLEN_LIMIT < bigval y) as Hhuge by (change BIGLEN_LIMIT with 131072; lia).
    destruct (Z.eqb_spec a 0) as [->|]; [apply powers_fix; [lia|by rewrite Z.pow_0_l by lia]|].
    destruct (Z.eqb_spec a 1) as [->|]; [apply powers_fix; [lia|by rewrite Z.pow_1_l by lia]|].
    destruct (Z.eqb_spec a (-1)) as [->|].
    + unfold int_even_p. rewrite int_odd_spec by done. cbn [mbind res_bind nval].
      rewrite pow_minus_one, Zmod_odd by lia. destruct (Z.odd (bigval y)); apply powers_fix; (done || lia).
    + destruct (int2big_wf a) as (x & -> & Hx & <- & Hl); [fix_range|]. cbn [mbind res_bind rb_big_pow].
      pose proof (canon_wf y Hy) as [[Hok _] _ Hsg]. destruct (sign y) eqn:Es; [|specialize (Hsg eq_refl); lia].
      apply returns_ret. by right.
Qed.

Lemma int_expt_spec x y :
  canon x → canon y →
  (nval y < 0 → int_expt x y = Ok PRational) ∧
  (0 ≤ nval y → returns (int_expt x y) (powers (nval x ^ nval y) (BIGLEN_LIMIT < ndigits x * nval y))).
Proof.
  intros Hx Hy. destruct x as [a|b]; cbn [int_expt nval ndigits]; [rewrite Z.mul_1_l; by apply fix_pow_spec|].
  destruct (canon_big b Hx) as [Hb Hbt]. pose proof (bo_len _ Hb) as Hl. destruct y as [n|y]; cbn [nval].
  - rewrite canon_fix in Hy. split; intros Hn.
    + cbn [rb_big_pow]. rewrite (proj2 (Z.eqb_neq n 0)), (proj2 (Z.ltb_lt n 0)) by lia. done.
    + pose proof (rb_big_pow_spec b n Hb Hbt ltac:(fix_range)) as Hp.
      destruct (decide (zlen (digits b) * n ≤ BIGLEN_LIMIT)).
      * eapply returns_mono; [exact Hp|]. intros p (w & ? & ? & ?). left. by exists w.
      * rewrite Hp. apply returns_ret. right. split; [done|lia].
  - pose proof (canon_bignum y Hy) as Hn. pose proof (canon_wf y Hy) as [[Hok _] _ Hsg]. pose proof (bval_bound _ Hok).
    cbn [rb_big_pow]. split; intros Hs; destruct (sign y) eqn:Es; unfold bigval in *; rewrite Es in *; try done; try lia.
    apply returns_ret. right. split; [done|]. assert (BIGLEN_LIMIT = 131072) as -> by done. nia.
Qed.

(** ** Rounding *)

(** [x] rounded to a multiple of [y]: ties go away from zero, or upwards. *)
Definition round_away (x y : Z) : Z := Z.sgn x * ((Z.abs x + y / 2) / y * y).
Definition round_up (x y : Z) : Z := (if decide (x mod y < y / 2) then x / y else x / y + 1) * y.

Lemma int_round_spec x k :
  canon x → 1 ≤ k ≤ BIGLEN_LIMIT →
  returns (int_round x (Fixnum (- k))) (λ r, ∃ n, r = RInteger n ∧ canon n ∧
    nval n = match x with
             | Fixnum a => if decide (k ≤ 18) then round_away a (10 ^ k) else round_up a (10 ^ k)
             | Bignum b => round_up (bigval b) (10 ^ k)
             end).
Proof.
  intros Hx Hk. assert (BIGLEN_LIMIT = 131072) as HL by done. rewrite HL in Hk.
  unfold int_round, rb_num2int, check_int. cbn [rb_num2long mbind res_bind]. change INT_MIN with (- 2 ^ 31). change INT_MAX with (2 ^ 31 - 1).
  rewrite (proj2 (Z.ltb_ge (- k) (- 2 ^ 31))), (proj2 (Z.ltb_ge (2 ^ 31 - 1) (- k))) by lia. cbn [mbind res_bind].
  rewrite (proj2 (Z.ltb_ge 0 (- k))), (proj2 (Z.eqb_neq (- k) 0)) by lia. rewrite s32_small by lia.
  rewrite Z.opp_involutive, (proj2 (Z.ltb_ge k 0)) by lia.
  destruct (int_pow_spec 10 k) as (p & -> & Hp); [lia..|]. cbn [mbind res_bind].
  destruct Hp as [(f & -> & Hf & Hcf)|[_ ?]]; [|lia].
  assert (0 < 10 ^ k) as Hpos by (apply Z.pow_pos_nonneg; lia).
  assert (returns (h ← int_div f (Fixnum 2); r ← int_mod x f; n ← int_minus x r; lt ← int_lt r h;
            if lt : bool then Ok (RInteger n) else n ← int_plus n f; Ok (RInteger n))
    (λ r, ∃ n, r = RInteger n ∧ canon n ∧ nval n = round_up (nval x) (10 ^ k))) as Hgen.
  { destruct (int_divmod_spec f (Fixnum 2) Hcf) as ((h & -> & Hh & Hch) & _); [by apply canon_fix|done|]. cbn [mbind res_bind nval] in *.
    destruct (int_divmod_spec x f Hx Hcf ltac:(lia)) as (_ & (r & -> & Hr & Hcr) & _). cbn [mbind res_bind].
    destruct (int_minus_spec x r Hx Hcr) as (n & -> & Hn & Hcn). cbn [mbind res_bind].
    rewrite int_lt_spec by done. cbn [mbind res_bind]. rewrite Hh, Hr, Hf in *.
    pose proof (Z.div_mod (nval x) (10 ^ k) ltac:(lia)). unfold round_up.
    destruct (Z.ltb_spec (nval x mod 10 ^ k) (10 ^ k / 2)).
    - apply returns_ret. exists n. rewrite decide_True by lia. split_and!; [done|done|lia].
    - destruct (int_plus_spec n f Hcn Hcf) as (m & -> & Hm & Hcm). cbn [mbind res_bind]. apply returns_ret.
      exists m. rewrite decide_False by lia. split_and!; [done|done|lia]. }
  destruct x as [a|b]; [|destruct f; exact Hgen]. destruct (decide (k ≤ 18)) as [Hsm|Hlg].
  - assert (10 ^ k ≤ 10 ^ 18) by (apply Z.pow_le_mono_r; lia). change (10 ^ 18) with 1000000000000000000 in *.
    rewrite (canon_fixnum f Hcf) by lia. rewrite Hf. cbn [nval]. rewrite canon_fix in Hx. unfold cquot. cbn [Z.eqb mbind res_bind].
    rewrite (proj2 (Z.eqb_neq (10 ^ k) 0)) by lia. cbn [mbind res_bind].
    assert ((if a <? 0 then s64 (- a) else a) = Z.abs a) as -> by (destruct (Z.ltb_spec a 0); rewrite ?s64_small by lia; lia).
    rewrite (Z.quot_div_nonneg (10 ^ k) 2) by lia. set (y := 10 ^ k) in *. set (h := y / 2).
    assert (0 ≤ h ≤ y) by (unfold h; split; [apply Z.div_pos; lia|apply Z.div_le_upper_bound; lia]).
    rewrite (s64_small (Z.abs a + h)), (Z.quot_div_nonneg (Z.abs a + h) y) by lia.
    pose proof (Z.mul_div_le (Z.abs a + h) y Hpos). pose proof (Z.div_pos (Z.abs a + h) y ltac:(lia) Hpos).
    rewrite (s64_small ((Z.abs a + h) / y * y)) by lia. set (v := (Z.abs a + h) / y * y) in *.
    assert (0 ≤ v ≤ Z.abs a + h) by (unfold v; lia).
    destruct (int2num_spec (if a <? 0 then s64 (- v) else v)) as (n & -> & Hn & Hcn);
      [destruct (a <? 0); rewrite ?s64_small by lia; fix_range|]. cbn [mbind res_bind]. apply returns_ret.
    exists n. split_and!; [done|done|]. rewrite Hn. unfold round_away. fold h v. destruct (Z.ltb_spec a 0).
    + rewrite s64_small, Z.sgn_neg by lia. lia.
    + destruct (decide (a = 0)) as [E|]; [|rewrite Z.sgn_pos by lia; lia]. unfold v in *. rewrite E in *. cbn [Z.abs Z.add] in *.
      rewrite Z.div_small by (split; [lia|]; unfold h; apply Z.div_lt; lia). lia.
  - assert (10 ^ 19 ≤ 10 ^ k) by (apply Z.pow_le_mono_r; lia). change (10 ^ 19) with 10000000000000000000 in *.
    destruct f as [f|f]; [rewrite canon_fix in Hcf; cbn [nval] in Hf; lia|]. exact Hgen.
Qed.
End ops.

(** * numeric.c: the iterators of Integer

    [upto], [downto], [times] and [step] call the block on an arithmetic
    progression, in order, until it breaks out. *)

(** [n] terms from [i] with difference [d]. *)
Fixpoint progression (n : nat) (i d : Z) : list Z :=
  match n with O => [] | S n' => i :: progression n' (i + d) d end.

(** How many terms there are from [i] up to [e] (down to it, if [d] is negative). *)
Definition terms (i e d : Z) : nat := Z.to_nat ((e - i) / d + 1).
Definition inside (e d i : Z) : bool := if 0 <? d then i <=? e else e <=? i.

Lemma terms_outside i e d : d ≠ 0 → inside e d i = false → terms i e d = O.
Proof.
  intros Hd. unfold inside, terms. destruct (Z.ltb_spec 0 d), (Z.leb_spec i e), (Z.leb_spec e i); intros ?; try done;
    pose proof (Z.div_mod (e - i) d Hd); pose proof (Z.mod_pos_bound (e - i) d);
    pose proof (Z.mod_neg_bound (e - i) d); nia.
Qed.

Lemma terms_inside i e d : d ≠ 0 → inside e d i = true → terms i e d = S (terms (i + d) e d).
Proof.
  intros Hd Hin. assert (0 ≤ (e - i) / d) as Hq.
  { unfold inside in Hin. destruct (Z.ltb_spec 0 d), (Z.leb_spec i e), (Z.leb_spec e i); try done; try lia;
      (apply Z.div_pos; lia) || (rewrite <- Z.div_opp_opp by lia; apply Z.div_pos; lia). }
  unfold terms. replace (e - (i + d)) with (e - i + -1 * d) by lia. rewrite Z.div_add by done. lia.
Qed.

Section run.
Context `{J : Junk} {S : Type} (blk : num → S → res (S * bool)).

(** The block on a list of integers, until it breaks out. *)
Fixpoint run_block (l : list num) (s : S) : res (S * bool) :=
  match l with
  | [] => Ok (s, false)
  | x :: l' => '(s, broken) ← blk x s; if broken : bool then Ok (s, true) else run_block l' s
  end.

(** What an iterator does: the block on the canonical integers of a progression. *)
Definition iterates (m : res (S * bool)) (vs : list Z) (s : S) : Prop :=
  ∃ l, Forall canon l ∧ nval <$> l = vs ∧ m = run_block l s.

Lemma iterates_nil s : iterates (Ok (s, false)) [] s.
Proof. exists []. by split_and!. Qed.

Lemma iterates_cons x vs s (k : S → res (S * bool)) :
  canon x → (∀ s, iterates (k s) vs s) →
  iterates ('(s, broken) ← blk x s; if broken : bool then Ok (s, true) else k s) (nval x :: vs) s.
Proof.
  intros Hx Hk. destruct (blk x s) as [[s' br]|f] eqn:E.
  - destruct (Hk s') as (l & Hl & Hv & Hr). exists (x :: l). split_and!; [by constructor|cbn; by rewrite Hv|].
    cbn [run_block]. rewrite E. cbn [mbind res_bind]. destruct br; [done|exact Hr].
  - destruct (Hk s) as (l & Hl & Hv & _). exists (x :: l). split_and!; [by constructor|cbn; by rewrite Hv|].
    cbn [run_block]. by rewrite E.
Qed.

Lemma fix_loop_iterates (ins : Z → bool) e d fuel i s :
  d ≠ 0 → (∀ i, ins i = inside e d i) → - 2 ^ 61 ≤ e ≤ 2 ^ 61 - 1 → - 2 ^ 61 ≤ d ≤ 2 ^ 61 - 1 →
  (if 0 <? d then - 2 ^ 61 ≤ i ≤ 2 ^ 62 else - 2 ^ 62 ≤ i ≤ 2 ^ 61 - 1) → (terms i e d < fuel)%nat →
  iterates (iter fuel (fix_loop_step blk ins d) (i, s)) (progression (terms i e d) i d) s.
Proof.
  intros Hd Hins He Hdr. revert i s. induction fuel as [|fuel IH]; intros i s Hi Hf; [lia|].
  cbn [iter fix_loop_step]. rewrite Hins. destruct (inside e d i) eqn:Ein.
  - rewrite (terms_inside i e d Hd Ein) in *. cbn [progression].
    assert (- 2 ^ 61 ≤ i ≤ 2 ^ 61 - 1) as Hir by (revert Hi Ein; unfold inside; destruct (Z.ltb_spec 0 d); rewrite Z.leb_le; lia).
    assert (canon (LONG2FIX i)) as Hc by (unfold LONG2FIX; rewrite box_small by fix_range; by apply canon_fix).
    assert (nval (LONG2FIX i) = i) as Hv by (unfold LONG2FIX; by rewrite box_small by fix_range).
    rewrite <- Hv at 2. rewrite s64_small by lia.
    destruct (iterates_cons (LONG2FIX i) (progression (terms (i + d) e d) (i + d) d) s
      (λ s, iter fuel (fix_loop_step blk ins d) (i + d, s)) Hc) as (l & Hl & Hvl & Hr).
    { intros s'. apply IH; [destruct (Z.ltb_spec 0 d); lia|lia]. }
    exists l. split_and!; [done|done|]. rewrite <- Hr. destruct (blk (LONG2FIX i) s) as [[s' br]|]; [|done].
    cbn [mbind res_bind]. by destruct br.
  - rewrite (terms_outside i e d Hd Ein). apply iterates_nil.
Qed.

Lemma num_loop_iterates (stop : num → res bool) (next : num → res num) e d fuel i s :
  d ≠ 0 → (∀ i, canon i → stop i = Ok (negb (inside e d (nval i)))) → (∀ i, canon i → computes (next i) (nval i + d)) →
  canon i → (terms (nval i) e d < fuel)%nat →
  iterates (iter fuel (num_loop_step blk stop next) (i, s)) (progression (terms (nval i) e d) (nval i) d) s.
Proof.
  intros Hd Hstop Hnext. revert i s. induction fuel as [|fuel IH]; intros i s Hi Hf; [lia|].
  cbn [iter num_loop_step]. rewrite Hstop by done. cbn [mbind res_bind]. destruct (inside e d (nval i)) eqn:Ein; cbn [negb].
  - rewrite (terms_inside _ e d Hd Ein) in *. cbn [progression]. destruct (Hnext i Hi) as (j & Ej & Hj & Hcj).
    rewrite Ej. rewrite <- Hj in *.
    destruct (iterates_cons i (progression (terms (nval j) e d) (nval j) d) s
      (λ s, iter fuel (num_loop_step blk stop next) (j, s)) Hi) as (l & Hl & Hvl & Hr).
    { intros s'. apply IH; [done|lia]. }
    exists l. split_and!; [done|done|]. rewrite <- Hr. destruct (blk i s) as [[s' br]|]; [|done].
    cbn [mbind res_bind]. by destruct br.
  - rewrite (terms_outside _ e d Hd Ein). apply iterates_nil.
Qed.

(** ** The iterators *)

Lemma int_upto_spec fuel from to s :
  canon from → canon to → (terms (nval from) (nval to) 1 < fuel)%nat →
  iterates (int_upto blk fuel from to s) (progression (terms (nval from) (nval to) 1) (nval from) 1) s.
Proof.
  intros Hf Ht Hfu.
  assert (iterates (iter fuel (num_loop_step blk (λ i, int_gt i to) (λ i, int_plus i (Fixnum 1))) (from, s))
    (progression (terms (nval from) (nval to) 1) (nval from) 1) s) as Hgen.
  { apply num_loop_iterates; [done| | |done|done].
    - intros i Hi. rewrite int_gt_spec by done. f_equal. unfold inside. cmp_spec; (done || lia).
    - intros i Hi. apply (int_plus_spec i (Fixnum 1)); [done|by apply canon_fix]. }
  unfold int_upto. destruct from as [a|b], to as [c|e]; try exact Hgen.
  rewrite canon_fix in Hf, Ht. cbn [nval] in *. apply fix_loop_iterates; [done|done|done|lia|cbn; lia|done].
Qed.

Lemma int_downto_spec fuel from to s :
  canon from → canon to → (terms (nval from) (nval to) (-1) < fuel)%nat →
  iterates (int_downto blk fuel from to s) (progression (terms (nval from) (nval to) (-1)) (nval from) (-1)) s.
Proof.
  intros Hf Ht Hfu.
  assert (iterates (iter fuel (num_loop_step blk (λ i, int_lt i to) (λ i, int_minus i (Fixnum 1))) (from, s))
    (progression (terms (nval from) (nval to) (-1)) (nval from) (-1)) s) as Hgen.
  { apply num_loop_iterates; [done| | |done|done].
    - intros i Hi. rewrite int_lt_spec by done. f_equal. unfold inside. cmp_spec; (done || lia).
    - intros i Hi. apply (int_minus_spec i (Fixnum 1)); [done|by apply canon_fix]. }
  unfold int_downto. destruct from as [a|b], to as [c|e]; try exact Hgen.
  rewrite canon_fix in Hf, Ht. cbn [nval] in *. apply fix_loop_iterates; [done|done|done|lia|cbn; lia|done].
Qed.

Lemma int_dotimes_spec fuel n s :
  canon n → (terms 0 (nval n - 1) 1 < fuel)%nat →
  iterates (int_dotimes blk fuel n s) (progression (terms 0 (nval n - 1) 1) 0 1) s.
Proof.
  intros Hn Hfu. destruct n as [a|b]; cbn [int_dotimes].
  - rewrite canon_fix in Hn. cbn [nval] in *. destruct (decide (a = - 2 ^ 61)) as [->|].
    + destruct fuel; [lia|]. apply iterates_nil.
    + apply fix_loop_iterates; [done| |lia|lia|cbn; lia|done]. intros i. unfold inside. cmp_spec; (done || lia).
  - apply (num_loop_iterates _ _ (bigval b - 1) 1 fuel (Fixnum 0)); [done| | |by apply canon_fix|done].
    + intros i Hi. rewrite int_lt_spec by done. cbn [mbind res_bind nval]. f_equal. unfold inside. cmp_spec; (done || lia).
    + intros i Hi. apply (int_plus_spec i (Fixnum 1)); [done|by apply canon_fix].
Qed.

Lemma num_step_spec fuel from to step s :
  canon from → canon to → canon step → nval step ≠ 0 → (terms (nval from) (nval to) (nval step) < fuel)%nat →
  iterates (num_step blk fuel from to step s)
    (progression (terms (nval from) (nval to) (nval step)) (nval from) (nval step)) s.
Proof.
  intros Hf Ht Hs Hnz Hfu. unfold num_step. rewrite int_eq_spec by (done || by apply canon_fix). cbn [mbind res_bind nval].
  rewrite (proj2 (Z.eqb_neq _ 0)) by done.
  assert (iterates (up ← int_gt step (Fixnum 0);
      iter fuel (num_loop_step blk (λ i, if up : bool then int_gt i to else int_lt i to) (λ i, int_plus i step)) (from, s))
    (progression (terms (nval from) (nval to) (nval step)) (nval from) (nval step)) s) as Hgen.
  { rewrite int_gt_spec by (done || by apply canon_fix). cbn [mbind res_bind nval].
    apply num_loop_iterates; [done| | |done|done].
    - intros i Hi. unfold inside. destruct (Z.ltb_spec 0 (nval step)).
      + rewrite int_gt_spec by done. f_equal. cmp_spec; (done || lia).
      + rewrite int_lt_spec by done. f_equal. cmp_spec; (done || lia).
    - intros i Hi. by apply int_plus_spec. }
  destruct from as [a|b], to as [c|e], step as [d|g]; try exact Hgen.
  rewrite canon_fix in Hf, Ht, Hs. cbn [nval] in *. destruct (Z.ltb_spec 0 d) as [Hd|Hd].
  - apply fix_loop_iterates; [done| |done|done| |done].
    + intros i. unfold inside. by rewrite (proj2 (Z.ltb_lt 0 d)).
    + rewrite (proj2 (Z.ltb_lt 0 d)) by done. lia.
  - apply fix_loop_iterates; [done| |done|done| |done].
    + intros i. unfold inside. by rewrite (proj2 (Z.ltb_ge 0 d)).
    + rewrite (proj2 (Z.ltb_ge 0 d)) by done. lia.
Qed.
End run.
