(* ===== verification/NumericThm.v ===== *)
(** * numeric.c: the theorems

    The methods of Integer on fixnum and bignum receivers and operands implement
    the operations of [Z], with canonical results: a result is a fixnum exactly if
    it fits in one. *)

From S2P Require Import Prelude Util Big BigVal BigAdd BigMul BigDiv BigBits BigPow BigStr BigThm.
From S2P Require Import Numeric NumericSpec NumericOps.

(** ** The text of a fixnum *)

Section text.
Context `{J : Junk}.

Lemma c_string_digits base ds rest : digits_ok base ds → c_string (ds ++ 0 :: rest) = Ok ds.
Proof.
  intros Hd. induction Hd as [|c ds Hc Hd IH]; [done|]. cbn [app c_string].
  assert (c ≠ 0) as Hnz by (intros ->; apply is_digit_bounds in Hc; cbn in Hc; lia).
  by rewrite (proj2 (Z.eqb_neq c 0)), IH by done.
Qed.

(** What [rb_fix2str] has written: the low digits of [V], [v] is left. *)
Definition fix2str_inv (base V : Z) (s : list Z * Z * Z) : Prop :=
  let '(buf, b, v) := s in
  ∃ ds, zlen buf = 66 ∧ 0 ≤ b ∧ zlen ds = 65 - b ∧ drop (Z.to_nat b) buf = ds ++ [0] ∧ digits_ok base ds ∧
    0 < v ∧ V = v * base ^ zlen ds + numeral base ds.

Lemma fix2str_room base V v (ds : list Z) :
  2 ≤ base → digits_ok base ds → 0 < v → V = v * base ^ zlen ds + numeral base ds → V ≤ 2 ^ 61 → zlen ds ≤ 61.
Proof.
  intros Hb Hd Hv HV Hle. pose proof (numeral_bounds base ds Hb Hd). pose proof (zlen_nonneg ds).
  destruct (decide (zlen ds ≤ 61)); [done|]. exfalso.
  assert (2 ^ 62 ≤ 2 ^ zlen ds) by (apply Z.pow_le_mono_r; lia).
  assert (2 ^ zlen ds ≤ base ^ zlen ds) by (apply Z.pow_le_mono_l; lia). nia.
Qed.

Lemma fix2str_step_spec base V s :
  2 ≤ base ≤ 36 → V ≤ 2 ^ 61 → fix2str_inv base V s →
  returns (fix2str_step base s) (λ r,
    match r with
    | inl s' => fix2str_inv base V s' ∧ (Z.to_nat s'.1.2 < Z.to_nat s.1.2)%nat
    | inr (buf, b) => ∃ ds, zlen buf = 66 ∧ 1 ≤ b ≤ 65 ∧ drop (Z.to_nat b) buf = ds ++ [0] ∧ digits_ok base ds ∧ ds ≠ [] ∧
        V = numeral base ds
    end).
Proof.
  destruct s as [[buf b] v]. intros Hb HV (ds & Hl & Hb0 & Hz & Hdrop & Hd & Hv & HVe).
  pose proof (fix2str_room base V v ds ltac:(lia) Hd Hv HVe HV) as Hroom.
  pose proof (zlen_nonneg ds). unfold fix2str_step, crem, cquot. rewrite (proj2 (Z.eqb_neq base 0)) by lia. cbn [mbind res_bind].
  rewrite Z.rem_mod_nonneg, Z.quot_div_nonneg by lia. pose proof (Z.mod_pos_bound v base ltac:(lia)) as Hm.
  destruct (digitmap_spec (v mod base)) as (c & -> & Hc); [lia|]. cbn [mbind res_bind].
  rewrite astore_ok by lia. cbn [mbind res_bind]. apply returns_ret.
  pose proof (Z.div_mod v base ltac:(lia)) as Hdm. pose proof (Z.div_pos v base ltac:(lia) ltac:(lia)) as Hq.
  pose proof (drop_store buf b c ltac:(lia)) as Hds. rewrite Hdrop in Hds.
  assert (digits_ok base (c :: ds)) as Hdc by (constructor; [apply is_digit_bounds; lia|done]).
  assert (V = v / base * base ^ zlen (c :: ds) + numeral base (c :: ds)) as HV'.
  { rewrite numeral_cons, zlen_cons, Z.pow_add_r, Z.pow_1_r, Hc by (pose proof (zlen_nonneg ds); lia). nia. }
  destruct (Z.eqb_spec (v / base) 0) as [E0|].
  - exists (c :: ds). rewrite zlen_insert. split_and!; [done|lia|lia|done|done|done|]. rewrite E0 in HV'. lia.
  - split; [|cbn [fst snd]; lia]. exists (c :: ds). rewrite zlen_insert, zlen_cons. split_and!; try done; try lia.
    by rewrite zlen_cons in HV'.
Qed.

Lemma rb_fix2str_spec buf n base :
  canon (Fixnum n) → 2 ≤ base ≤ 36 → zlen buf = 66 →
  returns (rb_fix2str buf n base) (λ cs, ∃ ds, cs = (if n <? 0 then [45] else []) ++ ds ∧ ds ≠ [] ∧ digits_ok base ds ∧
    numeral base ds = Z.abs n).
Proof.
  intros Hn Hb Hl. rewrite canon_fix in Hn. unfold rb_fix2str.
  rewrite (proj2 (Z.ltb_ge base 2)), (proj2 (Z.ltb_ge 36 base)) by lia. cbn [orb].
  destruct (Z.eqb_spec n 0) as [->|Hnz].
  { apply returns_ret. exists [48]. split_and!; [done|done| |done]. constructor; [|done]. apply is_digit_bounds. cbn. lia. }
  assert ((if n <? 0 then s64 (- n) else n) = Z.abs n) as -> by (destruct (Z.ltb_spec n 0); rewrite ?s64_small by lia; lia).
  rewrite astore_ok by lia. cbn [mbind res_bind]. eapply returns_bind_mono.
  { refine (iter_inv (fix2str_inv base (Z.abs n)) (λ s, (Z.to_nat s.1.2 - 4)%nat) _ 64 _ _ _ _ _).
    - exists []. rewrite zlen_insert. split_and!; [done|done|done| |by apply Forall_nil|lia|rewrite zlen_nil, Z.pow_0_r; change (numeral base []) with 0; lia].
      pose proof (drop_store buf 66 0 ltac:(lia)) as E. rewrite (drop_ge buf) in E by (unfold zlen in Hl; lia). exact E.
    - cbn. lia.
    - intros s Hs. eapply returns_mono; [apply (fix2str_step_spec base (Z.abs n)); [done|lia|done]|]. intros [s'|r] Hr; [|exact Hr].
      destruct Hr as [Hr ?]. split; [done|]. destruct s' as [[buf' b'] v'], Hr as (ds & ? & ? & Hz & ? & Hd & Hv & HV).
      pose proof (fix2str_room base _ v' ds ltac:(lia) Hd Hv HV ltac:(lia)). cbn [fst snd] in *. lia. }
  intros [buf' b] (ds & Hl' & Hb1 & Hdrop & Hd & Hne & HV). destruct (n <? 0).
  - rewrite astore_ok by lia. cbn [mbind res_bind]. rewrite drop_store by lia. rewrite Hdrop.
    cbn [c_string Z.eqb]. rewrite (c_string_digits base ds []) by done. cbn [mbind res_bind]. apply returns_ret. by exists ds.
  - cbn [mbind res_bind]. rewrite Hdrop, (c_string_digits base ds []) by done. apply returns_ret. by exists ds.
Qed.
End text.

Section theorems.
Context `{J : Junk}.

(** ** Theorems *)

(** C11: for fixnums and bignums alike, [+], [-], unary minus, [abs], [succ] and
    [pred] compute on [Z] with canonical results, [<=>] and [==] compare the values,
    and so do the relational methods, those of Fixnum and those that Bignum has
    from Comparable. *)
Theorem integer_arith_correct x y :
  canon x → canon y →
  computes (int_plus x y) (nval x + nval y) ∧ computes (int_minus x y) (nval x - nval y) ∧
  computes (int_uminus x) (- nval x) ∧ computes (int_abs x) (Z.abs (nval x)) ∧
  computes (int_succ x) (nval x + 1) ∧ computes (int_pred x) (nval x - 1) ∧
  int_cmp x y = Ok (Fixnum (match nval x ?= nval y with Lt => -1 | Eq => 0 | Gt => 1 end)) ∧
  int_eq x y = Ok (nval x =? nval y) ∧
  int_gt x y = Ok (nval y <? nval x) ∧ int_ge x y = Ok (nval y <=? nval x) ∧
  int_lt x y = Ok (nval x <? nval y) ∧ int_le x y = Ok (nval x <=? nval y).
Proof.
  intros Hx Hy. destruct (int_relop_spec x y Hx Hy) as (? & ? & ? & ?).
  split_and!; try done; [by apply int_plus_spec|by apply int_minus_spec|by apply int_uminus_spec|by apply int_abs_spec|..].
  - destruct x as [a|b]; [rewrite canon_fix in Hx; apply s64_fix; cbn [nval]; lia|].
    apply (int_plus_spec (Bignum b) (Fixnum 1)); [done|by apply canon_fix].
  - destruct x as [a|b]; [rewrite canon_fix in Hx; apply s64_fix; cbn [nval]; lia|].
    apply (int_minus_spec (Bignum b) (Fixnum 1)); [done|by apply canon_fix].
  - by apply int_cmp_spec.
  - by apply int_eq_spec.
Qed.

(** C9: division of fixnums and bignums terminates without leaving its digit
    arrays, with at most two corrections of each quotient digit; it is floored, the
    modulus has the sign of the divisor, [divmod] agrees with [/] and [%], and
    [remainder] has the sign of the dividend, all in canonical form.  Division by
    zero raises ZeroDivisionError in each of them. *)
Theorem integer_division_correct x y :
  canon x → canon y →
  (nval y ≠ 0 →
     computes (int_div x y) (nval x / nval y) ∧ computes (int_mod x y) (nval x mod nval y) ∧
     computes (int_remainder x y) (Z.rem (nval x) (nval y)) ∧
     returns (int_divmod x y) (λ '(d, m), int_div x y = Ok d ∧ int_mod x y = Ok m)) ∧
  (nval y = 0 →
     int_div x y = Err (Raise ZeroDivisionError) ∧ int_mod x y = Err (Raise ZeroDivisionError) ∧
     int_remainder x y = Err (Raise ZeroDivisionError) ∧ int_divmod x y = Err (Raise ZeroDivisionError)).
Proof.
  intros Hx Hy. split; intros Hz.
  2: { destruct (int_div_zero x y Hx Hy Hz) as (? & ? & ?). split_and!; try done. by apply int_remainder_zero. }
  destruct (int_divmod_spec x y Hx Hy Hz) as (Hd & Hm & Hdm). split_and!; [done|done|by apply int_remainder_spec|].
  eapply returns_mono; [exact Hdm|]. intros [d m] ([Hvd Hcd] & Hvm & Hcm).
  destruct Hd as (d' & -> & Hvd' & Hcd'), Hm as (m' & -> & Hvm' & Hcm').
  split; f_equal; (apply canon_unique; [done|done|lia]).
Qed.

(** C10: the product of two integers is correct, unless both operands lie in
    [-2^31 .. 2^31) and the product needs more than the 62 bits of a fixnum:
    [rb_fix_mul] takes such a product to fit and returns its low 62 bits. *)
Theorem integer_mul_outcome x y :
  canon x → canon y → small (nval x) → small (nval y) →
  if mul_wraps (nval x) (nval y)
  then ∃ n, int_mul x y = Ok (Fixnum n) ∧ n ≠ nval x * nval y ∧ (n - nval x * nval y) mod 2 ^ 62 = 0
  else computes (int_mul x y) (nval x * nval y).
Proof.
  intros Hx Hy Hsx Hsy. destruct (mul_wraps (nval x) (nval y)) eqn:Ew; [|by apply int_mul_spec].
  destruct (mul_wraps_fix x y Hx Hy Ew) as [Ex Ey]. rewrite Ex, Ey in Ew |- *. cbn [int_mul nval] in Ew |- *.
  rewrite fix_mul_wraps by done. eexists. split; [done|].
  unfold mul_wraps in Ew. apply andb_true_iff in Ew as [_ Ew]. set (p := nval x * nval y) in *.
  pose proof (Z.mod_pos_bound (p + 2 ^ 61) (2 ^ 62) ltac:(lia)) as Hb. split.
  - intros E. apply negb_true_iff, not_true_iff_false in Ew. apply Ew, FIXABLE_spec. lia.
  - replace ((p + 2 ^ 61) mod 2 ^ 62 - 2 ^ 61 - p) with ((p + 2 ^ 61) mod 2 ^ 62 - (p + 2 ^ 61)) by lia.
    rewrite Zminus_mod, Z.mod_mod, Z.sub_diag by lia. done.
Qed.

(** C12: [&], [|], [^], [~], [<<], [>>] and [int[n]] work on infinite two's
    complement, for fixnums and bignums; a shift to the left by 2^64 bits or more, also as [>>] of
    a negative number, raises RangeError, and one to the right by as many gives 0 or -1.  The shifts are of
    bignums with less than 2^58 digits. *)
Theorem integer_bits_correct x y :
  canon x → shiftable x → canon y →
  computes (int_and x y) (Z.land (nval x) (nval y)) ∧ computes (int_or x y) (Z.lor (nval x) (nval y)) ∧
  computes (int_xor x y) (Z.lxor (nval x) (nval y)) ∧ computes (int_rev x) (Z.lnot (nval x)) ∧
  (if decide (nval y < 2 ^ 64) then computes (int_lshift x y) (Z.shiftl (nval x) (nval y))
   else int_lshift x y = Err (Raise RangeError)) ∧
  (if decide (- 2 ^ 64 < nval y) then computes (int_rshift x y) (Z.shiftr (nval x) (nval y))
   else int_rshift x y = Err (Raise RangeError)) ∧
  int_aref x y = Ok (Z.b2z (Z.testbit (nval x) (nval y))).
Proof.
  intros Hx Hs Hy. destruct (int_bitwise_spec x y Hx Hy) as (? & ? & ? & ?). destruct (int_shift_spec x y Hx Hs Hy) as [? ?].
  split_and!; try done. by apply int_aref_spec.
Qed.

(** C26: [**] with an exponent that is not negative returns the power, in
    canonical form, or a Float if the digits of the base times the exponent exceed
    the limit of the code; a negative exponent is left to Rational.  The loop of
    [int_pow], which multiplies [long]s and notices when they overflow, ends within
    130 turns. *)
Theorem integer_pow_correct x y :
  canon x → canon y →
  (nval y < 0 → int_expt x y = Ok PRational) ∧
  (0 ≤ nval y → returns (int_expt x y) (λ p,
     (∃ w, p = PInteger w ∧ nval w = nval x ^ nval y ∧ canon w) ∨
     (p = PFloat ∧ BIGLEN_LIMIT < ndigits x * nval y))).
Proof. apply int_expt_spec. Qed.

(** [Fixnum#odd?] and [Fixnum#even?] look at the second tag bit of the word,
    which is never set: they answer false and true for every fixnum, whereas the
    methods of Integer answer by the remainder. *)
Theorem fix_odd_even_constant n :
  fix_odd_p n = false ∧ fix_even_p n = true ∧
  (canon (Fixnum n) → int_odd_p (Fixnum n) = Ok (Z.odd n) ∧ int_even_p (Fixnum n) = Ok (Z.even n)).
Proof.
  assert (Z.land (INT2FIX n) 2 = 0) as E.
  { unfold INT2FIX, FIXNUM_FLAG, u64. apply Z.bits_inj'. intros i Hi. rewrite Z.land_spec, Z.bits_0.
    change 2 with (2 ^ 1) at 3. destruct (decide (i = 1)) as [->|]; [|rewrite (Z.pow2_bits_false 1 i) by lia; apply andb_false_r].
    rewrite Z.mod_pow2_bits_low, Z.lor_spec, Z.shiftl_spec_low by lia. done. }
  unfold fix_odd_p, fix_even_p. rewrite E. split_and!; [done|done|]. intros Hn. unfold int_even_p.
  rewrite int_odd_spec by done. cbn [mbind res_bind nval]. split; [done|]. by rewrite Z.negb_odd.
Qed.

(** [int.round(-k)] rounds to a multiple of [10^k]: a fixnum with [k <= 18] to
    the nearest one, ties away from zero; any other receiver with ties towards
    positive infinity. *)
Theorem integer_round_correct x k :
  canon x → 1 ≤ k ≤ BIGLEN_LIMIT →
  returns (int_round x (Fixnum (- k))) (λ r, ∃ n, r = RInteger n ∧ canon n ∧
    nval n = match x with
             | Fixnum a => if decide (k ≤ 18) then round_away a (10 ^ k) else round_up a (10 ^ k)
             | Bignum b => round_up (bigval b) (10 ^ k)
             end).
Proof. apply int_round_spec. Qed.

(** C14: the text of an integer in a base is read back by [rb_cstr_to_inum] as that
    integer: for a fixnum, [rb_fix2str] stays within its buffer, whatever that held;
    for a bignum, [big2str_orig] writes digits without a leading zero into any buffer
    that has room for them. *)
Theorem int2str_roundtrip buf n x ptr base badcheck :
  canon (Fixnum n) → canon (Bignum x) → 2 ≤ base ≤ 36 → zlen buf = 66 → bval (digits x) < base ^ zlen ptr →
  returns (rb_fix2str buf n base) (λ cs, rb_cstr_to_inum (Some cs) base badcheck = Ok (Fixnum n)) ∧
  returns (big2str_orig (set_sign true x) base ptr (zlen ptr) (base ^ 4) true) (λ cs,
    head cs ≠ Some 48 ∧ digits_ok base cs ∧ zlen cs ≤ zlen ptr ∧
    rb_cstr_to_inum (Some ((if sign x then [] else [45]) ++ cs)) base badcheck = Ok (Bignum x)).
Proof.
  intros Hn Hx Hb Hl Hfit. split; [|by apply big2str_roundtrip].
  eapply returns_mono; [by apply rb_fix2str_spec|]. intros cs (ds & -> & Hne & Hd & Hv).
  destruct (digits_wf base ds Hd Hne) as [Hwf Hst].
  destruct (rb_cstr_to_inum_spec [] (if n <? 0 then [45] else []) (negb (n <? 0)) [] ds [] base base badcheck) as (r & E & Hr & Hc);
    [constructor|destruct (n <? 0); [by right|left; split; [by left|done]]|by left|done|constructor|done|
     unfold guess_base; by rewrite (proj2 (Z.ltb_lt 0 base)) by lia|].
  cbn [app] in E. rewrite app_nil_r in E. rewrite E. f_equal. apply canon_unique; [done|done|].
  rewrite Hr, Hst, Hv. unfold signed. cbn [nval]. destruct (Z.ltb_spec n 0); cbn [negb]; lia.
Qed.

(** The conversions between integers and machine integers: a [long] becomes a
    canonical integer; [NUM2LONG] and [NUM2INT] return the value if it is in range
    and raise RangeError otherwise; the conversion to [unsigned int] checks the upper
    bound only, and reduces negative numbers modulo 2^64. *)
Theorem integer_conversions x n :
  canon x → LONG_MIN ≤ n ≤ LONG_MAX →
  computes (rb_int2inum n) n ∧
  rb_num2long x = (if decide (LONG_MIN ≤ nval x ≤ LONG_MAX) then Ok (nval x) else Err (Raise RangeError)) ∧
  rb_num2int x = (if decide (INT_MIN ≤ nval x ≤ INT_MAX) then Ok (nval x) else Err (Raise RangeError)) ∧
  rb_num2fix x = (if decide (FIXNUM_MIN ≤ nval x ≤ FIXNUM_MAX) then Ok x else Err (Raise RangeError)) ∧
  rb_num2uint x = (if decide (- 2 ^ 63 < nval x ≤ UINT_MAX) then Ok (u64 (nval x)) else Err (Raise RangeError)).
Proof.
  intros Hx Hn. pose proof (rb_num2long_spec x Hx) as Hlong. split_and!; [by apply int2num_spec|done|..].
  - unfold rb_num2int, check_int. rewrite Hlong. change INT_MIN with (- 2 ^ 31). change INT_MAX with (2 ^ 31 - 1).
    destruct (decide (LONG_MIN ≤ nval x ≤ LONG_MAX)) as [Hr|Hr]; cbn [mbind res_bind];
      [|by rewrite decide_False by (unfold LONG_MIN, LONG_MAX in Hr; lia)].
    destruct (Z.ltb_spec (nval x) (- 2 ^ 31)); [by rewrite decide_False by lia|].
    destruct (Z.ltb_spec (2 ^ 31 - 1) (nval x)); [by rewrite decide_False by lia|by rewrite decide_True by lia].
  - unfold rb_num2fix. destruct x as [a|b]; [by rewrite decide_True by (cbn [canon] in Hx; done)|].
    pose proof (canon_bignum b Hx) as Hb. cbn [nval] in *. rewrite Hlong. rewrite (decide_False (P := FIXNUM_MIN ≤ _ ≤ _)) by fix_range.
    destruct (decide (LONG_MIN ≤ bigval b ≤ LONG_MAX)); cbn [mbind res_bind]; [|done].
    destruct (FIXABLE (bigval b)) eqn:E; [by apply FIXABLE_spec in E|done].
  - unfold rb_num2uint, check_uint. change UINT_MAX with (2 ^ 32 - 1).
    rewrite int_lt_spec by (done || by apply canon_fix). cbn [nval].
    assert (rb_num2ulong x = if decide (- 2 ^ 63 < nval x < 2 ^ 64) then Ok (u64 (nval x)) else Err (Raise RangeError)) as ->.
    { destruct x as [a|b]; cbn [rb_num2ulong rb_num2long nval mbind res_bind]; [|by apply rb_big2ulong_spec].
      rewrite canon_fix in Hx. by rewrite decide_True by lia. }
    destruct (decide (- 2 ^ 63 < nval x < 2 ^ 64)) as [Hr|]; cbn [mbind res_bind]; [|by rewrite decide_False by lia].
    destruct (Z.ltb_spec 0 (nval x)); [|by rewrite decide_True by lia]. rewrite u64_small by lia.
    destruct (Z.ltb_spec (2 ^ 32 - 1) (nval x)); [by rewrite decide_False by lia|by rewrite decide_True by lia].
Qed.

(** C13: [upto], [downto], [times] and [step] terminate, within as many turns as
    there are integers to visit, and call the block on exactly these integers, in
    order and in canonical form, until it breaks out; their counters do not
    overflow.  A step of zero raises ArgumentError. *)
Theorem integer_iterators {S} (blk : num → S → res (S * bool)) fuel from to step s :
  canon from → canon to → canon step →
  ((terms (nval from) (nval to) 1 < fuel)%nat →
     iterates blk (int_upto blk fuel from to s) (progression (terms (nval from) (nval to) 1) (nval from) 1) s) ∧
  ((terms (nval from) (nval to) (-1) < fuel)%nat →
     iterates blk (int_downto blk fuel from to s) (progression (terms (nval from) (nval to) (-1)) (nval from) (-1)) s) ∧
  ((terms 0 (nval to - 1) 1 < fuel)%nat →
     iterates blk (int_dotimes blk fuel to s) (progression (terms 0 (nval to - 1) 1) 0 1) s) ∧
  (nval step ≠ 0 → (terms (nval from) (nval to) (nval step) < fuel)%nat →
     iterates blk (num_step blk fuel from to step s)
       (progression (terms (nval from) (nval to) (nval step)) (nval from) (nval step)) s) ∧
  (nval step = 0 → num_step blk fuel from to step s = Err (Raise ArgumentError)).
Proof.
  intros Hf Ht Hs. split_and!; intros.
  - by apply int_upto_spec.
  - by apply int_downto_spec.
  - by apply int_dotimes_spec.
  - by apply num_step_spec.
  - unfold num_step. rewrite int_eq_spec by (done || by apply canon_fix). cbn [mbind res_bind nval].
    by rewrite (proj2 (Z.eqb_eq _ 0)).
Qed.
End theorems.

(** ** Witnesses *)

Definition fix_min : num := Fixnum (- 2 ^ 61).

Lemma fix_min_canon : canon fix_min.
Proof. by apply canon_fix. Qed.

Lemma integer_arith_correct_witness :
  computes (int_plus (J := ex_junk) fix_min (Bignum ex_x)) (- 2 ^ 61 + bigval ex_x) ∧
  computes (int_uminus (J := ex_junk) fix_min) (2 ^ 61) ∧
  int_lt (J := ex_junk) (Bignum ex_x) fix_min = Ok true.
Proof.
  destruct (integer_arith_correct (J := ex_junk) fix_min (Bignum ex_x) fix_min_canon ex_x_canon) as (H1 & _ & H3 & _).
  split; [exact H1|]. split; [exact H3|].
  destruct (integer_arith_correct (J := ex_junk) (Bignum ex_x) fix_min ex_x_canon fix_min_canon)
    as (_ & _ & _ & _ & _ & _ & _ & _ & _ & _ & H & _).
  rewrite H. vm_compute. reflexivity.
Defined.

(** The quotient of the least fixnum by -1 is not a fixnum. *)
Lemma integer_division_correct_witness :
  computes (int_div (J := ex_junk) fix_min (Fixnum (-1))) (2 ^ 61) ∧
  int_mod (J := ex_junk) (Bignum ex_x) (Fixnum 0) = Err (Raise ZeroDivisionError).
Proof.
  split.
  - apply (integer_division_correct (J := ex_junk) fix_min (Fixnum (-1)) fix_min_canon); [by apply canon_fix|done].
  - apply (integer_division_correct (J := ex_junk) (Bignum ex_x) (Fixnum 0) ex_x_canon); [by apply canon_fix|done].
Defined.

Lemma small_example : small 2000000000 ∧ small (2 ^ 60).
Proof. split; unfold small; (eapply Z.lt_trans; [|apply (SMALL_gt_pow2 62)]); done. Qed.

Lemma canon_example : canon (Fixnum 2000000000) ∧ canon (Fixnum (2 ^ 60)).
Proof. by split; apply canon_fix. Qed.

(** 2000000000 * 2000000000 is -611686018427387904. *)
Lemma integer_mul_outcome_witness :
  (∃ n, int_mul (J := ex_junk) (Fixnum 2000000000) (Fixnum 2000000000) = Ok (Fixnum n) ∧ n ≠ 2000000000 * 2000000000 ∧
     (n - 2000000000 * 2000000000) mod 2 ^ 62 = 0) ∧
  computes (int_mul (J := ex_junk) (Fixnum (2 ^ 60)) (Fixnum 2000000000)) (2 ^ 60 * 2000000000).
Proof.
  split.
  - pose proof (integer_mul_outcome (J := ex_junk) (Fixnum 2000000000) (Fixnum 2000000000) (proj1 canon_example)
      (proj1 canon_example) (proj1 small_example) (proj1 small_example)) as H.
    replace (mul_wraps _ _) with true in H by (vm_compute; reflexivity). exact H.
  - pose proof (integer_mul_outcome (J := ex_junk) (Fixnum (2 ^ 60)) (Fixnum 2000000000) (proj2 canon_example)
      (proj1 canon_example) (proj2 small_example) (proj1 small_example)) as H.
    replace (mul_wraps _ _) with false in H by (vm_compute; reflexivity). exact H.
Defined.

Lemma integer_bits_correct_witness :
  computes (int_and (J := ex_junk) fix_min (Bignum ex_x)) (Z.land (- 2 ^ 61) (bigval ex_x)) ∧
  computes (int_lshift (J := ex_junk) fix_min (Fixnum 70)) (Z.shiftl (- 2 ^ 61) 70) ∧
  int_aref fix_min (Bignum ex_y) = Ok 1.
Proof.
  split; [|split].
  - exact (proj1 (integer_bits_correct (J := ex_junk) fix_min (Bignum ex_x) fix_min_canon I ex_x_canon)).
  - pose proof (integer_bits_correct (J := ex_junk) fix_min (Fixnum 70) fix_min_canon I ltac:(by apply canon_fix)) as (_ & _ & _ & _ & H & _).
    exact H.
  - pose proof (integer_bits_correct (J := ex_junk) fix_min (Bignum ex_y) fix_min_canon I ex_y_canon) as (_ & _ & _ & _ & _ & _ & H).
    rewrite H. vm_compute. reflexivity.
Defined.

Lemma integer_pow_correct_witness :
  int_expt (J := ex_junk) (Fixnum (-7)) (Fixnum (-2)) = Ok PRational ∧
  returns (int_expt (J := ex_junk) (Fixnum (-7)) (Fixnum 45)) (λ p,
    (∃ w, p = PInteger w ∧ nval w = (-7) ^ 45 ∧ canon w) ∨ (p = PFloat ∧ BIGLEN_LIMIT < ndigits (Fixnum (-7)) * 45)).
Proof.
  split.
  - apply (integer_pow_correct (J := ex_junk) (Fixnum (-7)) (Fixnum (-2))); [by apply canon_fix|by apply canon_fix|done].
  - apply (integer_pow_correct (J := ex_junk) (Fixnum (-7)) (Fixnum 45)); [by apply canon_fix|by apply canon_fix|done].
Defined.

Lemma fix_odd_even_constant_witness :
  fix_odd_p 3 = false ∧ int_odd_p (J := ex_junk) (Fixnum 3) = Ok true.
Proof.
  destruct (fix_odd_even_constant (J := ex_junk) 3) as (H1 & _ & H2). split; [exact H1|].
  apply H2. by apply canon_fix.
Defined.

(** -15 goes to -20, but -15 * 10^30 goes to -10^31. *)
Lemma integer_round_correct_witness :
  returns (int_round (J := ex_junk) (Fixnum (-15)) (Fixnum (-1))) (λ r, ∃ n, r = RInteger n ∧ canon n ∧ nval n = -20) ∧
  round_up (-15 * 10 ^ 30) (10 ^ 31) = - 10 ^ 31.
Proof.
  split; [|by vm_compute].
  exact (integer_round_correct (J := ex_junk) (Fixnum (-15)) 1 ltac:(by apply canon_fix) ltac:(vm_compute; split; discriminate)).
Defined.

Lemma int2str_roundtrip_witness :
  returns (rb_fix2str (replicate 66 255) (- 2 ^ 61) 10) (λ cs, rb_cstr_to_inum (J := ex_junk) (Some cs) 10 true = Ok fix_min) ∧
  returns (big2str_orig (set_sign true ex_x) 10 (replicate 58 0) 58 (10 ^ 4) true) (λ cs,
    head cs ≠ Some 48 ∧ digits_ok 10 cs ∧ zlen cs ≤ 58 ∧
    rb_cstr_to_inum (J := ex_junk) (Some ((if sign ex_x then [] else [45]) ++ cs)) 10 true = Ok (Bignum ex_x)).
Proof.
  exact (int2str_roundtrip (J := ex_junk) (replicate 66 255) (- 2 ^ 61) ex_x (replicate 58 0) 10 true fix_min_canon ex_x_canon
    ltac:(lia) eq_refl ltac:(by vm_compute)).
Defined.

Lemma integer_conversions_witness :
  computes (rb_int2inum (J := ex_junk) LONG_MIN) LONG_MIN ∧ rb_num2int fix_min = Err (Raise RangeError) ∧
  rb_num2uint (J := ex_junk) fix_min = Ok (2 ^ 64 - 2 ^ 61).
Proof.
  destruct (integer_conversions (J := ex_junk) fix_min LONG_MIN fix_min_canon) as (H1 & _ & H2 & _ & H3); [vm_compute; split; discriminate|].
  split; [exact H1|]. split.
  - rewrite H2, decide_False; [done|]. vm_compute. intros [H _]. by apply H.
  - rewrite H3, decide_True; [by vm_compute|]. vm_compute. by split.
Defined.

(** A block that collects the integers it is called on. *)
Lemma integer_iterators_witness :
  iterates (λ x l, Ok (x :: l, false)) (num_step (J := ex_junk) (λ x l, Ok (x :: l, false)) 4 (Fixnum 10) (Fixnum 1) (Fixnum (-4)) [])
    [10; 6; 2] [].
Proof.
  apply (integer_iterators (J := ex_junk) (λ x l, Ok (x :: l, false)) 4 (Fixnum 10) (Fixnum 1) (Fixnum (-4)) []);
    [by apply canon_fix|by apply canon_fix|by apply canon_fix|done|vm_compute; lia].
Defined.
