(* ===== verification/IntMethods.v ===== *)
(** * The methods of Integer as an interface

    rational.c calls the methods of its integers by name ([rb_funcall]).  The class
    [IntegerMethods] lists the methods it calls, [IntegerLaws] what it relies on; the
    methods of numeric.c and bignum.c satisfy the laws. *)

From S2P Require Import Prelude Util Big BigVal BigAdd BigMul BigDiv BigBits BigPow BigStr BigThm.
From S2P Require Import Numeric NumericSpec NumericOps.

Class IntegerMethods := {
  m_add : num → num → res num;       (* [+] *)
  m_sub : num → num → res num;       (* [-] *)
  m_mul : num → num → res num;       (* [*] *)
  m_div : num → num → res num;       (* [/] *)
  m_idiv : num → num → res num;      (* [div] *)
  m_mod : num → num → res num;       (* [%] *)
  m_negate : num → res num;          (* [-@] *)
  m_abs : num → res num;             (* [abs] *)
  m_cmp : num → num → res num;       (* [<=>] *)
  m_eq : num → num → res bool;       (* [==] *)
  m_gt : num → num → res bool;       (* [>] *)
  m_lt : num → num → res bool;       (* [<] *)
  m_expt : num → num → res power     (* [**] *)
}.

(** Multiplication is relied on only where it does not wrap. *)
Definition mul_safe (a b : Z) : Prop := small a ∧ small b ∧ mul_wraps a b = false.

Class IntegerLaws (M : IntegerMethods) : Prop := {
  l_add x y : canon x → canon y → computes (m_add x y) (nval x + nval y);
  l_sub x y : canon x → canon y → computes (m_sub x y) (nval x - nval y);
  l_mul x y : canon x → canon y → mul_safe (nval x) (nval y) → computes (m_mul x y) (nval x * nval y);
  l_div x y : canon x → canon y → nval y ≠ 0 → computes (m_div x y) (nval x / nval y);
  l_idiv x y : canon x → canon y → nval y ≠ 0 → computes (m_idiv x y) (nval x / nval y);
  l_mod x y : canon x → canon y → nval y ≠ 0 → computes (m_mod x y) (nval x mod nval y);
  l_negate x : canon x → computes (m_negate x) (- nval x);
  l_abs x : canon x → computes (m_abs x) (Z.abs (nval x));
  l_cmp x y : canon x → canon y → m_cmp x y = Ok (Fixnum (comp (nval x) (nval y)));
  l_eq x y : canon x → canon y → m_eq x y = Ok (nval x =? nval y);
  l_gt x y : canon x → canon y → m_gt x y = Ok (nval y <? nval x);
  l_lt x y : canon x → canon y → m_lt x y = Ok (nval x <? nval y);
  l_expt x y : canon x → canon y → 0 ≤ nval y →
    returns (m_expt x y) (powers (nval x ^ nval y) (BIGLEN_LIMIT < ndigits x * nval y))
}.

Section instances.
Context `{J : Junk}.

#[global] Instance integer_methods : IntegerMethods := {
  m_add := int_plus; m_sub := int_minus; m_mul := int_mul; m_div := int_div; m_idiv := int_div; m_mod := int_mod;
  m_negate := int_uminus; m_abs := int_abs; m_cmp := int_cmp; m_eq := int_eq; m_gt := int_gt; m_lt := int_lt;
  m_expt := int_expt
}.

#[global] Instance integer_laws : IntegerLaws integer_methods.
Proof.
  split; intros.
  - by apply int_plus_spec.
  - by apply int_minus_spec.
  - match goal with H : mul_safe _ _ |- _ => destruct H as (? & ? & ?) end. by apply int_mul_spec.
  - by apply int_divmod_spec.
  - by apply int_divmod_spec.
  - by apply int_divmod_spec.
  - by apply int_uminus_spec.
  - by apply int_abs_spec.
  - by apply int_cmp_spec.
  - by apply int_eq_spec.
  - by apply int_gt_spec.
  - by apply int_lt_spec.
  - by apply int_expt_spec.
Qed.
End instances.
