(* ===== verification/Rational.v ===== *)
(** * rational.c: rational numbers

    A rational is a pair of integers.  The file calls the methods of the integers
    through the interface of IntMethods.v; its own fast paths for fixnums compute
    with [long]s.  Operands are integers and rationals; Float and Complex operands
    and the conversions from strings are left out. *)

From S2P Require Import Prelude Util Big BigVal BigAdd BigStr Numeric NumericSpec NumericOps IntMethods.

Record rational := mkRat { rnum : num; rden : num }.

(** The operand of a method. *)
Inductive operand := OInt (n : num) | ORat (r : rational).

Section rational.
Context `{J : Junk} {M : IntegerMethods}.

Notation LONG2NUM := rb_int2inum.
Definition ZERO : num := Fixnum 0.
Definition ONE : num := Fixnum 1.
Definition TWO : num := Fixnum 2.

(** ** Calls of methods, with their shortcuts *)

Definition f_add (x y : num) : res num :=
  match x, y with
  | _, Fixnum 0 => Ok x
  | Fixnum 0, _ => Ok y
  | _, _ => m_add x y
  end.

Definition f_cmp (x y : num) : res num :=
  match x, y with
  | Fixnum a, Fixnum b =>
      let c := s64 (a - b) in
      let c := if 0 <? c then 1 else if c <? 0 then -1 else c in
      Ok (LONG2FIX c)
  | _, _ => m_cmp x y
  end.

Definition f_div (x y : num) : res num := match y with Fixnum 1 => Ok x | _ => m_div x y end.
Definition f_idiv (x y : num) : res num := m_idiv x y.
Definition f_mod (x y : num) : res num := m_mod x y.

Definition f_lt_p (x y : num) : res bool :=
  match x, y with Fixnum a, Fixnum b => Ok (a <? b) | _, _ => m_lt x y end.

Definition f_mul (x y : num) : res num :=
  match y with
  | Fixnum iy => if iy =? 0 then Ok ZERO else if iy =? 1 then Ok x else m_mul x y
  | Bignum _ =>
      match x with
      | Fixnum ix => if ix =? 0 then Ok ZERO else if ix =? 1 then Ok y else m_mul x y
      | Bignum _ => m_mul x y
      end
  end.

Definition f_sub (x y : num) : res num := match y with Fixnum 0 => Ok x | _ => m_sub x y end.
Definition f_abs (x : num) : res num := m_abs x.
Definition f_negate (x : num) : res num := m_negate x.

Definition f_eqeq_p (x y : num) : res bool :=
  match x, y with Fixnum a, Fixnum b => Ok (a =? b) | _, _ => m_eq x y end.

Definition f_negative_p (x : num) : res bool :=
  match x with Fixnum a => Ok (a <? 0) | Bignum _ => m_lt x ZERO end.

Definition f_zero_p (x : num) : bool := match x with Fixnum n => n =? 0 | Bignum _ => false end.
Definition f_one_p (x : num) : bool := match x with Fixnum n => n =? 1 | Bignum _ => false end.
Definition rat_zero_p (x : rational) : bool := f_zero_p (rnum x).
Definition rat_one_p (x : rational) : bool := f_one_p (rnum x) && f_one_p (rden x).

(** ** Greatest common divisor *)

(** [while (x > 0) { long t = x; x = y % x; y = t; }] *)
Definition i_gcd_step (s : Z * Z) : res ((Z * Z) + Z) :=
  let '(x, y) := s in
  if 0 <? x then r ← crem y x; Ok (inl (r, x)) else Ok (inr y).

(** Two turns halve a number. *)
Definition gcd_fuel : nat := 130.

Definition i_gcd (x y : Z) : res Z :=
  let x := if x <? 0 then s64 (- x) else x in
  let y := if y <? 0 then s64 (- y) else y in
  if x =? 0 then Ok y else
  if y =? 0 then Ok x else
  iter gcd_fuel i_gcd_step (x, y).

Definition f_gcd_step (s : num * num) : res ((num * num) + num) :=
  let '(x, y) := s in
  let next := z ← f_mod y x; Ok (inl (z, x)) in
  match x with
  | Fixnum a =>
      if a =? 0 then Ok (inr y) else
      match y with
      | Fixnum b => g ← i_gcd a b; n ← LONG2NUM g; Ok (inr n)
      | Bignum _ => next
      end
  | Bignum _ => next
  end.

Definition f_gcd_fuel (x y : num) : nat := Z.to_nat (64 * (ndigits x + ndigits y) + 4).

Definition f_gcd (x y : num) : res num :=
  match x, y with
  | Fixnum a, Fixnum b => g ← i_gcd a b; LONG2NUM g
  | _, _ =>
      nx ← f_negative_p x; x ← (if nx : bool then f_negate x else Ok x);
      ny ← f_negative_p y; y ← (if ny : bool then f_negate y else Ok y);
      if f_zero_p x then Ok y else
      if f_zero_p y then Ok x else
      iter (f_gcd_fuel x y) f_gcd_step (x, y)
  end.

Definition f_lcm (x y : num) : res num :=
  if f_zero_p x || f_zero_p y then Ok ZERO else
  g ← f_gcd x y; d ← f_div x g; p ← f_mul d y; f_abs p.

(** ** Construction *)

Definition nurat_s_new_internal (n d : num) : rational := mkRat n d.

(** The sign goes to the numerator; a zero denominator raises. *)
Definition normalize_sign (n d : num) : res (num * num) :=
  c ← f_cmp d ZERO;
  i ← rb_fix2int c;
  if i =? -1 then n ← f_negate n; d ← f_negate d; Ok (n, d) else
  if i =? 0 then Err (Raise ZeroDivisionError) else
  Ok (n, d).

Definition nurat_s_canonicalize_internal (n d : num) : res rational :=
  '(n, d) ← normalize_sign n d;
  g ← f_gcd n d;
  n ← f_idiv n g;
  d ← f_idiv d g;
  Ok (nurat_s_new_internal n d).

Definition nurat_s_canonicalize_internal_no_reduce (n d : num) : res rational :=
  '(n, d) ← normalize_sign n d; Ok (nurat_s_new_internal n d).

Definition f_rational_new_bang1 (x : num) : rational := nurat_s_new_internal x ONE.
Definition f_rational_new2 (x y : num) : res rational := nurat_s_canonicalize_internal x y.
Definition f_rational_new_no_reduce2 (x y : num) : res rational := nurat_s_canonicalize_internal_no_reduce x y.

(** [Rational.new(num, den)] for integers. *)
Definition nurat_s_new (n : num) (d : option num) : res rational :=
  nurat_s_canonicalize_internal n (default ONE d).

Definition nurat_numerator (x : rational) : num := rnum x.
Definition nurat_denominator (x : rational) : num := rden x.

(** ** Arithmetic *)

(** A product of [long]s that notices overflow. *)
Definition f_imul (a b : Z) : res num :=
  if (a =? 0) || (b =? 0) then Ok ZERO else
  if a =? 1 then LONG2NUM b else
  if b =? 1 then LONG2NUM a else
  let c := s64 (a * b) in
  r ← LONG2NUM c;
  l ← rb_num2long r;
  bad ← (if negb (l =? c) then Ok true else q ← cquot c a; Ok (negb (q =? b)));
  if bad : bool then x ← rb_int2big a; y ← rb_int2big b; rb_big_mul x (Bignum y) else Ok r.

(** The common tail of both branches of [f_addsub]: [c] is the numerator over the
    least common denominator. *)
Definition addsub_tail (plus : bool) (a b aden bden g : num) : res rational :=
  c ← (if plus then f_add a b else f_sub a b);
  b ← f_idiv aden g;
  g ← f_gcd c g;
  n ← f_idiv c g;
  a ← f_idiv bden g;
  d ← f_mul a b;
  f_rational_new_no_reduce2 n d.

Definition f_addsub (anum aden bnum bden : num) (plus : bool) : res rational :=
  match anum, aden, bnum, bden with
  | Fixnum an, Fixnum ad, Fixnum bn, Fixnum bd =>
      ig ← i_gcd ad bd;
      g ← LONG2NUM ig;
      q ← cquot bd ig; a ← f_imul an q;
      q ← cquot ad ig; b ← f_imul bn q;
      addsub_tail plus a b aden bden g
  | _, _, _, _ =>
      g ← f_gcd aden bden;
      q ← f_idiv bden g; a ← f_mul anum q;
      q ← f_idiv aden g; b ← f_mul bnum q;
      addsub_tail plus a b aden bden g
  end.

Definition nurat_add (self : rational) (other : operand) : res rational :=
  match other with
  | OInt n => f_addsub (rnum self) (rden self) n ONE true
  | ORat r => f_addsub (rnum self) (rden self) (rnum r) (rden r) true
  end.

Definition nurat_sub (self : rational) (other : operand) : res rational :=
  match other with
  | OInt n => f_addsub (rnum self) (rden self) n ONE false
  | ORat r => f_addsub (rnum self) (rden self) (rnum r) (rden r) false
  end.

Definition muldiv_products (anum aden bnum bden : num) : res rational :=
  match anum, aden, bnum, bden with
  | Fixnum an, Fixnum ad, Fixnum bn, Fixnum bd =>
      g1 ← i_gcd an bd;
      g2 ← i_gcd ad bn;
      p ← cquot an g1; q ← cquot bn g2; n ← f_imul p q;
      p ← cquot ad g2; q ← cquot bd g1; d ← f_imul p q;
      f_rational_new_no_reduce2 n d
  | _, _, _, _ =>
      g1 ← f_gcd anum bden;
      g2 ← f_gcd aden bnum;
      p ← f_idiv anum g1; q ← f_idiv bnum g2; n ← f_mul p q;
      p ← f_idiv aden g2; q ← f_idiv bden g1; d ← f_mul p q;
      f_rational_new_no_reduce2 n d
  end.

Definition f_muldiv (anum aden bnum bden : num) (mul : bool) : res rational :=
  if mul then muldiv_products anum aden bnum bden else
  neg ← f_negative_p bnum;
  if neg : bool then
    anum ← f_negate anum; bnum ← f_negate bnum; muldiv_products anum aden bden bnum
  else muldiv_products anum aden bden bnum.

Definition nurat_mul (self : rational) (other : operand) : res rational :=
  match other with
  | OInt n => f_muldiv (rnum self) (rden self) n ONE true
  | ORat r => f_muldiv (rnum self) (rden self) (rnum r) (rden r) true
  end.

Definition nurat_div (self : rational) (other : operand) : res rational :=
  match other with
  | OInt n =>
      if f_zero_p n then Err (Raise ZeroDivisionError) else
      f_muldiv (rnum self) (rden self) n ONE false
  | ORat r =>
      if rat_zero_p r then Err (Raise ZeroDivisionError) else
      if rat_one_p self then f_rational_new_no_reduce2 (rden r) (rnum r) else
      f_muldiv (rnum self) (rden self) (rnum r) (rden r) false
  end.

Definition rb_rational_reciprocal (x : rational) : res rational := f_rational_new_no_reduce2 (rden x) (rnum x).

(** The value of [rat ** int]: a rational, or what Float returns. *)
Inductive rat_power := RatPow (r : rational) | RatFloat.

(** The numerator and the denominator of the power. *)
Definition rat_expt_parts (self : rational) (other : num) : res (power * power) :=
  c ← f_cmp other ZERO;
  i ← rb_fix2int c;
  if i =? 1 then n ← m_expt (rnum self) other; d ← m_expt (rden self) other; Ok (n, d) else
  if i =? -1 then
    e ← f_negate other; n ← m_expt (rden self) e;
    e ← f_negate other; d ← m_expt (rnum self) e; Ok (n, d)
  else Ok (PInteger ONE, PInteger ONE).

(** [other] is an integer, or a rational that is one. *)
Definition nurat_expt (self : rational) (other : num) : res rat_power :=
  if f_zero_p other then Ok (RatPow (f_rational_new_bang1 ONE)) else
  match other with
  | Bignum _ => Ok RatFloat
  | Fixnum _ =>
      '(n, d) ← rat_expt_parts self other;
      match n, d with
      | PInteger n, PInteger d => r ← f_rational_new2 n d; Ok (RatPow r)
      | _, _ => Err Unmodelled
      end
  end.

(** ** Comparison *)

Definition rat_cmp (self other : rational) : res num :=
  '(num1, num2) ←
    match rnum self, rden self, rnum other, rden other with
    | Fixnum an, Fixnum ad, Fixnum bn, Fixnum bd =>
        num1 ← f_imul an bd; num2 ← f_imul bn ad; Ok (num1, num2)
    | _, _, _, _ =>
        num1 ← f_mul (rnum self) (rden other); num2 ← f_mul (rnum other) (rden self); Ok (num1, num2)
    end;
  d ← f_sub num1 num2;
  f_cmp d ZERO.

Definition nurat_cmp (self : rational) (other : operand) : res num :=
  match other with
  | OInt n =>
      if f_one_p (rden self) then f_cmp (rnum self) n
      else rat_cmp self (f_rational_new_bang1 n)
  | ORat r => rat_cmp self r
  end.

Definition nurat_eqeq_p (self : rational) (other : operand) : res bool :=
  match other with
  | OInt n =>
      if f_zero_p (rnum self) && f_zero_p n then Ok true else
      match rden self with
      | Bignum _ => Ok false
      | Fixnum d => if negb (d =? 1) then Ok false else f_eqeq_p (rnum self) n
      end
  | ORat r =>
      if f_zero_p (rnum self) && f_zero_p (rnum r) then Ok true else
      a ← f_eqeq_p (rnum self) (rnum r);
      if a : bool then f_eqeq_p (rden self) (rden r) else Ok false
  end.

Definition nurat_coerce (self : rational) (other : operand) : operand * rational :=
  match other with
  | OInt n => (ORat (f_rational_new_bang1 n), self)
  | ORat r => (ORat r, self)
  end.

(** ** Rounding *)

Definition nurat_floor (self : rational) : res num := f_idiv (rnum self) (rden self).

Definition nurat_ceil (self : rational) : res num :=
  n ← f_negate (rnum self); q ← f_idiv n (rden self); f_negate q.

Definition nurat_truncate (self : rational) : res num :=
  neg ← f_negative_p (rnum self);
  if neg : bool then n ← f_negate (rnum self); q ← f_idiv n (rden self); f_negate q
  else f_idiv (rnum self) (rden self).

Definition nurat_round (self : rational) : res num :=
  neg ← f_negative_p (rnum self);
  n ← (if neg : bool then f_negate (rnum self) else Ok (rnum self));
  n ← f_mul n TWO;
  n ← f_add n (rden self);
  d ← f_mul (rden self) TWO;
  n ← f_idiv n d;
  if neg : bool then f_negate n else Ok n.

(** [10 ** n]: for a negative [n], Fixnum hands over to Rational. *)
Definition pow10 (n : num) : res operand :=
  p ← m_expt (Fixnum 10) n;
  match p with
  | PInteger b => Ok (OInt b)
  | PFloat => Err Unmodelled
  | PRational =>
      p ← nurat_expt (f_rational_new_bang1 (Fixnum 10)) n;
      match p with RatPow r => Ok (ORat r) | RatFloat => Err Unmodelled end
  end.

(** [rat.floor(n)] and its kin: round to [n] decimal places; an integer if [n < 1]. *)
Definition f_round_common (func : rational → res num) (self : rational) (n : option num) : res operand :=
  match n with
  | None => r ← func self; Ok (OInt r)
  | Some n =>
      b ← pow10 n;
      s ← nurat_mul self b;
      s ← func s;
      s ← nurat_div (f_rational_new_bang1 s) b;
      lt ← f_lt_p n ONE;
      if lt : bool then i ← nurat_truncate s; Ok (OInt i) else Ok (ORat s)
  end.

Definition nurat_floor_n (self : rational) (n : option num) : res operand := f_round_common nurat_floor self n.
Definition nurat_ceil_n (self : rational) (n : option num) : res operand := f_round_common nurat_ceil self n.
Definition nurat_truncate_n (self : rational) (n : option num) : res operand := f_round_common nurat_truncate self n.
Definition nurat_round_n (self : rational) (n : option num) : res operand := f_round_common nurat_round self n.

(** ** Integers *)

Definition rb_gcd (self other : num) : res num := f_gcd self other.
Definition rb_lcm (self other : num) : res num := f_lcm self other.
Definition rb_gcdlcm (self other : num) : res (num * num) :=
  g ← f_gcd self other; l ← f_lcm self other; Ok (g, l).

(** ** Marshalling: a pair; only a zero denominator is refused *)

Definition nurat_marshal_dump (self : rational) : num * num := (rnum self, rden self).
Definition nurat_marshal_load (a : num * num) : res rational :=
  if f_zero_p (a.2) then Err (Raise ZeroDivisionError) else Ok (mkRat (a.1) (a.2)).
End rational.
