(* ===== verification/RationalSpec.v ===== *)
(** The operations on rationals: their helpers, then sums, products and quotients in lowest terms. *)

(** * rational.c: the helpers compute on [Z]

    The calls of methods with their shortcuts, the greatest common divisor and the
    normalisation of a pair, against the laws of the integers. *)

From S2P Require Import Prelude Util Big BigVal BigAdd BigMul BigBits BigStr BigThm Numeric NumericSpec NumericOps IntMethods Rational.

(** ** Facts on divisibility *)

(** A factor coprime to [c] does not change its common divisors. *)
Lemma gcd_mul_coprime c g m : Z.gcd c m = 1 → Z.gcd c (g * m) = Z.gcd c g.
Proof.
  intros Hm. apply Z.gcd_unique; [apply Z.gcd_nonneg|apply Z.gcd_divide_l|apply Z.divide_mul_l, Z.gcd_divide_r|].
  intros q Hc Hg. apply Z.gcd_greatest; [done|]. rewrite Z.mul_comm in Hg. apply Z.gauss with m; [done|].
  apply Z.divide_1_r_nonneg; [apply Z.gcd_nonneg|]. rewrite <- Hm. apply Z.gcd_greatest.
  - etransitivity; [apply Z.gcd_divide_l|done].
  - apply Z.gcd_divide_r.
Qed.

Lemma coprime_mul a b c : Z.gcd a c = 1 → Z.gcd b c = 1 → Z.gcd (a * b) c = 1.
Proof. intros Ha Hb. rewrite Z.gcd_comm, gcd_mul_coprime; [by rewrite Z.gcd_comm|by rewrite Z.gcd_comm]. Qed.

Lemma coprime_divide a b a' b' : Z.gcd a b = 1 → (a' | a) → (b' | b) → Z.gcd a' b' = 1.
Proof.
  intros H Ha Hb. apply Z.divide_1_r_nonneg; [apply Z.gcd_nonneg|]. rewrite <- H. apply Z.gcd_greatest.
  - etransitivity; [apply Z.gcd_divide_l|done].
  - etransitivity; [apply Z.gcd_divide_r|done].
Qed.

Lemma coprime_add_mul a b m : Z.gcd (a + b * m) m = Z.gcd a m.
Proof. rewrite Z.gcd_comm, Z.add_comm. rewrite (Z.gcd_comm a m). by rewrite (Z.add_comm (b * m)), Z.gcd_add_mult_diag_r. Qed.

Lemma gcd_pos_r a b : b ≠ 0 → 0 < Z.gcd a b.
Proof. intros Hb. pose proof (Z.gcd_nonneg a b). destruct (decide (Z.gcd a b = 0)) as [E|]; [|lia]. apply Z.gcd_eq_0_r in E. done. Qed.

Lemma divide_div a g : g ≠ 0 → (g | a) → a = g * (a / g).
Proof. intros Hg Hd. by apply Z.div_exact, Z.mod_divide. Qed.

Lemma quot_exact a g : g ≠ 0 → (g | a) → Z.quot a g = a / g.
Proof. intros Hg [k ->]. by rewrite Z.quot_mul, Z.div_mul. Qed.

(** ** Methods *)

Section spec.
Context `{J : Junk} {M : IntegerMethods} {L : IntegerLaws M}.

Lemma canon_zero : canon ZERO.
Proof. by apply canon_fix. Qed.
Lemma canon_one : canon ONE.
Proof. by apply canon_fix. Qed.
Lemma canon_two : canon TWO.
Proof. by apply canon_fix. Qed.
#[local] Hint Resolve canon_zero canon_one canon_two : core.

Lemma f_add_spec x y : canon x → canon y → computes (f_add x y) (nval x + nval y).
Proof.
  intros Hx Hy. pose proof (l_add x y Hx Hy) as H.
  destruct x as [[| |]|], y as [[| |]|]; cbn [f_add]; try exact H;
    (eapply computes_eq; [by apply computes_self|cbn [nval]; lia]).
Qed.

Lemma f_sub_spec x y : canon x → canon y → computes (f_sub x y) (nval x - nval y).
Proof.
  intros Hx Hy. pose proof (l_sub x y Hx Hy) as H. destruct y as [[| |]|]; cbn [f_sub]; try exact H.
  eapply computes_eq; [by apply computes_self|cbn [nval]; lia].
Qed.

Lemma f_mul_spec x y : canon x → canon y → mul_safe (nval x) (nval y) → computes (f_mul x y) (nval x * nval y).
Proof.
  intros Hx Hy Hs. pose proof (l_mul x y Hx Hy Hs) as H. destruct y as [b|y]; cbn [f_mul].
  - destruct (Z.eqb_spec b 0) as [->|]; [apply returns_ret; split; [unfold ZERO; cbn [nval]; lia|done]|].
    destruct (Z.eqb_spec b 1) as [->|]; [eapply computes_eq; [by apply computes_self|cbn [nval]; lia]|exact H].
  - destruct x as [a|x]; [|exact H].
    destruct (Z.eqb_spec a 0) as [->|]; [apply returns_ret; split; [unfold ZERO; cbn [nval]; lia|done]|].
    destruct (Z.eqb_spec a 1) as [->|]; [eapply computes_eq; [by apply computes_self|cbn [nval]; lia]|exact H].
Qed.

Lemma f_div_spec x y : canon x → canon y → nval y ≠ 0 → computes (f_div x y) (nval x / nval y).
Proof.
  intros Hx Hy Hz. pose proof (l_div x y Hx Hy Hz) as H. destruct y as [[|p|]|]; cbn [f_div]; try exact H.
  destruct p; try exact H. eapply computes_eq; [by apply computes_self|]. cbn [nval]. by rewrite Z.div_1_r.
Qed.

Lemma f_cmp_spec x y : canon x → canon y → f_cmp x y = Ok (Fixnum (comp (nval x) (nval y))).
Proof.
  intros Hx Hy. pose proof (l_cmp x y Hx Hy) as H. destruct x as [a|bx], y as [b|by_]; cbn [f_cmp]; try exact H.
  rewrite canon_fix in Hx, Hy. rewrite s64_small by lia. cbn [nval]. rewrite comp_spec.
  destruct (Z.ltb_spec 0 (a - b)), (Z.ltb_spec (a - b) 0), (Z.eqb_spec a b), (Z.ltb_spec b a); try lia; try done.
  by replace (a - b) with 0 by lia.
Qed.

Lemma f_lt_spec x y : canon x → canon y → f_lt_p x y = Ok (nval x <? nval y).
Proof. intros Hx Hy. pose proof (l_lt x y Hx Hy) as H. by destruct x as [a|bx], y as [b|by_]. Qed.

Lemma f_eqeq_spec x y : canon x → canon y → f_eqeq_p x y = Ok (nval x =? nval y).
Proof. intros Hx Hy. pose proof (l_eq x y Hx Hy) as H. by destruct x as [a|bx], y as [b|by_]. Qed.

Lemma f_negative_spec x : canon x → f_negative_p x = Ok (nval x <? 0).
Proof. intros Hx. destruct x as [a|b]; [done|]. by apply (l_lt (Bignum b) ZERO). Qed.

Lemma f_zero_spec x : canon x → f_zero_p x = (nval x =? 0).
Proof.
  intros Hx. destruct x as [a|b]; [done|]. pose proof (canon_bignum b Hx). symmetry. apply Z.eqb_neq. cbn [nval]. lia.
Qed.
Lemma f_one_spec x : canon x → f_one_p x = (nval x =? 1).
Proof.
  intros Hx. destruct x as [a|b]; [done|]. pose proof (canon_bignum b Hx). symmetry. apply Z.eqb_neq. cbn [nval]. lia.
Qed.

Lemma fix2int_comp a b : rb_fix2int (Fixnum (comp a b)) = Ok (comp a b).
Proof. apply cmpint_comp. Qed.

(** ** Products of longs *)

Lemma f_imul_spec a b :
  - 2 ^ 61 ≤ a ≤ 2 ^ 61 - 1 → - 2 ^ 61 ≤ b ≤ 2 ^ 61 - 1 → computes (f_imul a b) (a * b).
Proof.
  intros Ha Hb. unfold f_imul. destruct (Z.eqb_spec a 0) as [->|Ha0]; [by apply computes_fix|].
  destruct (Z.eqb_spec b 0) as [->|Hb0]; [rewrite Z.mul_0_r; by apply computes_fix|]. cbn [orb].
  destruct (Z.eqb_spec a 1) as [->|]; [rewrite Z.mul_1_l; apply int2num_spec; fix_range|].
  destruct (Z.eqb_spec b 1) as [->|]; [rewrite Z.mul_1_r; apply int2num_spec; fix_range|].
  pose proof (s64_range (a * b)) as Hr. set (c := s64 (a * b)) in *.
  destruct (int2num_spec c) as (r & -> & Hv & Hc); [fix_range|]. cbn [mbind res_bind].
  assert (rb_num2long r = Ok c) as ->.
  { destruct r as [m|x]; cbn [rb_num2long nval] in *; [by subst|]. rewrite rb_big2long_spec by done.
    rewrite decide_True by fix_range. by rewrite Hv. }
  cbn [mbind res_bind]. rewrite Z.eqb_refl. cbn [negb]. unfold cquot. rewrite (proj2 (Z.eqb_neq a 0)) by done.
  cbn [mbind res_bind]. destruct (Z.eqb_spec (Z.quot c a) b) as [Eq|]; cbn [negb].
  - apply wrap_div in Eq; [|done|lia|apply s64_mod]. apply returns_ret. split; [lia|done].
  - destruct (int2big_wf a) as (x & -> & [Hxo _ _] & Hvx & Hlx); [fix_range|].
    destruct (int2big_wf b) as (y & Ey & _ & _ & _); [fix_range|]. rewrite Ey. cbn [mbind res_bind].
    rewrite (mul_fix_operand x b y Ey), <- Hvx. apply (rb_big_mul_spec x (Fixnum b)); [done|by apply canon_fix|lia|done].
Qed.

(** ** Euclid's algorithm *)

(** The number of turns that are left. *)
Definition euclid_measure (x y : Z) : nat :=
  if x <=? 0 then O else Z.to_nat (Z.log2 x + Z.log2 y + (if x <=? y then 1 else 2)).

Lemma euclid_decreases x y : 0 < x → 0 ≤ y → (euclid_measure (y mod x) x < euclid_measure x y)%nat.
Proof.
  intros Hx Hy. pose proof (Z.mod_pos_bound y x Hx) as Hr. unfold euclid_measure. rewrite (proj2 (Z.leb_gt x 0)) by done.
  pose proof (Z.log2_nonneg x). pose proof (Z.log2_nonneg y). pose proof (Z.log2_nonneg (y mod x)).
  destruct (Z.leb_spec (y mod x) 0); [destruct (x <=? y); lia|]. rewrite (proj2 (Z.leb_le (y mod x) x)) by lia.
  destruct (Z.leb_spec x y) as [Hle|Hgt].
  - assert (2 * (y mod x) ≤ y) as Hh.
    { pose proof (Z.div_mod y x ltac:(lia)). pose proof (Z.div_le_lower_bound y x 1 Hx ltac:(lia)). nia. }
    pose proof (Z.log2_le_mono _ _ Hh) as Hl. rewrite Z.log2_double in Hl by lia. lia.
  - rewrite Z.mod_small by lia. lia.
Qed.

Lemma gcd_turn x y : 0 < x → Z.gcd (y mod x) x = Z.gcd x y.
Proof. intros. rewrite Z.gcd_mod by lia. done. Qed.

Lemma i_gcd_spec x y : - 2 ^ 61 ≤ x ≤ 2 ^ 61 - 1 → - 2 ^ 61 ≤ y ≤ 2 ^ 61 - 1 → i_gcd x y = Ok (Z.gcd x y).
Proof.
  intros Hx Hy. unfold i_gcd. rewrite <- (Z.gcd_abs_l x), <- (Z.gcd_abs_r _ y).
  assert (∀ z, - 2 ^ 61 ≤ z ≤ 2 ^ 61 - 1 → (if z <? 0 then s64 (- z) else z) = Z.abs z) as Habs
    by (intros z Hz; destruct (Z.ltb_spec z 0); rewrite ?s64_small by lia; lia).
  rewrite !Habs by done. destruct (Z.eqb_spec (Z.abs x) 0) as [->|Hx0]; [rewrite (Z.gcd_0_l (Z.abs y)); f_equal; lia|].
  destruct (Z.eqb_spec (Z.abs y) 0) as [->|Hy0]; [rewrite (Z.gcd_0_r (Z.abs x)); f_equal; lia|].
  apply returns_eq.
  apply (iter_inv (λ '(a, b), 0 ≤ a ∧ 0 ≤ b ∧ Z.gcd a b = Z.gcd (Z.abs x) (Z.abs y)) (λ '(a, b), euclid_measure a b)).
  - split_and!; [lia|lia|done].
  - unfold euclid_measure, gcd_fuel. destruct (Z.leb_spec (Z.abs x) 0); [lia|].
    assert (Z.log2 (Z.abs x) < 62) by (apply Z.log2_lt_pow2; lia). assert (Z.log2 (Z.abs y) < 62) by (apply Z.log2_lt_pow2; lia).
    destruct (Z.abs x <=? Z.abs y); lia.
  - intros [a b] (Ha & Hb & Hg). unfold i_gcd_step. destruct (Z.ltb_spec 0 a).
    + unfold crem. rewrite (proj2 (Z.eqb_neq a 0)) by lia. cbn [mbind res_bind]. apply returns_ret.
      rewrite Z.rem_mod_nonneg by lia. pose proof (Z.mod_pos_bound b a ltac:(lia)).
      split; [split_and!; [lia|lia|by rewrite gcd_turn]|by apply euclid_decreases].
    + apply returns_ret. replace a with 0 in Hg by lia. rewrite Z.gcd_0_l in Hg. lia.
Qed.

Lemma log2_ndigits x : canon x → 0 ≤ nval x → Z.log2 (nval x) < 64 * ndigits x.
Proof.
  intros Hx Hp. destruct (decide (nval x = 0)) as [->|].
  { destruct x as [a|b]; cbn [ndigits]; [done|]. destruct (canon_big b Hx) as [[_ Hl] _]. cbn. lia. }
  apply Z.log2_lt_pow2; [lia|]. destruct x as [a|b]; cbn [nval ndigits] in *.
  - rewrite canon_fix in Hx. lia.
  - destruct (canon_big b Hx) as [[Hok Hl] _]. pose proof (bval_bound _ Hok) as Hb.
    rewrite BIGRAD_val, <- Z.pow_mul_r in Hb by lia. unfold bigval in *. destruct (sign b); lia.
Qed.

Lemma f_gcd_loop x y :
  canon x → canon y → 0 < nval x → 0 ≤ nval y →
  computes (iter (f_gcd_fuel x y) f_gcd_step (x, y)) (Z.gcd (nval x) (nval y)).
Proof.
  intros Hx Hy Hpx Hpy.
  apply (iter_inv (λ '(a, b), canon a ∧ canon b ∧ 0 ≤ nval a ∧ 0 ≤ nval b ∧ Z.gcd (nval a) (nval b) = Z.gcd (nval x) (nval y))
    (λ '(a, b), euclid_measure (nval a) (nval b))).
  - split_and!; (done || lia).
  - unfold euclid_measure, f_gcd_fuel. rewrite (proj2 (Z.leb_gt _ 0)) by done.
    pose proof (log2_ndigits x Hx ltac:(lia)). pose proof (log2_ndigits y Hy Hpy). pose proof (Z.log2_nonneg (nval x)).
    pose proof (Z.log2_nonneg (nval y)). destruct (nval x <=? nval y); lia.
  - intros [a b] (Ha & Hb & Hpa & Hpb & Hg).
    assert (nval a ≠ 0 → returns (z ← f_mod b a; Ok (inl (z, a) : (num * num) + num)) (λ r,
      match r with
      | inl (z, a') => (canon z ∧ canon a' ∧ 0 ≤ nval z ∧ 0 ≤ nval a' ∧ Z.gcd (nval z) (nval a') = Z.gcd (nval x) (nval y)) ∧
          (euclid_measure (nval z) (nval a') < euclid_measure (nval a) (nval b))%nat
      | inr n => nval n = Z.gcd (nval x) (nval y) ∧ canon n
      end)) as Hnext.
    { intros Hnz. destruct (l_mod b a Hb Ha Hnz) as (z & E & Hz & Hcz). unfold f_mod. rewrite E. cbn [mbind res_bind].
      apply returns_ret. rewrite Hz. pose proof (Z.mod_pos_bound (nval b) (nval a) ltac:(lia)).
      split; [split_and!; [done|done|lia|done|by rewrite gcd_turn by lia]|by apply euclid_decreases; [lia|]]. }
    assert (∀ m, returns m (λ r,
      match r with
      | inl (z, a') => (canon z ∧ canon a' ∧ 0 ≤ nval z ∧ 0 ≤ nval a' ∧ Z.gcd (nval z) (nval a') = Z.gcd (nval x) (nval y)) ∧
          (euclid_measure (nval z) (nval a') < euclid_measure (nval a) (nval b))%nat
      | inr n => nval n = Z.gcd (nval x) (nval y) ∧ canon n
      end) → returns m (λ r, match r with
        | inl s' => (let '(a0, b0) := s' in canon a0 ∧ canon b0 ∧ 0 ≤ nval a0 ∧ 0 ≤ nval b0 ∧
            Z.gcd (nval a0) (nval b0) = Z.gcd (nval x) (nval y)) ∧
          ((let '(a0, b0) := s' in euclid_measure (nval a0) (nval b0)) < euclid_measure (nval a) (nval b))%nat
        | inr n => nval n = Z.gcd (nval x) (nval y) ∧ canon n end)) as Hpair.
    { intros m Hm. eapply returns_mono; [exact Hm|]. by intros [[z a']|n]. }
    apply Hpair. unfold f_gcd_step. destruct a as [a|a]; [|apply Hnext; pose proof (canon_bignum a Ha); cbn [nval]; lia].
    cbn [nval] in *. destruct (Z.eqb_spec a 0) as [->|Hnz].
    + apply returns_ret. split; [|done]. rewrite Z.gcd_0_l in Hg. lia.
    + destruct b as [b|b]; [|by apply Hnext]. rewrite canon_fix in Ha, Hb. rewrite i_gcd_spec by done. cbn [mbind res_bind nval] in *.
      pose proof (Z.gcd_nonneg a b). assert (Z.gcd a b ≤ Z.abs a) by (apply Z.divide_pos_le; [lia|apply Z.divide_abs_r, Z.gcd_divide_l]).
      destruct (int2num_spec (Z.gcd a b)) as (n & -> & Hn & Hc); [fix_range|]. cbn [mbind res_bind]. apply returns_ret.
      by rewrite Hn.
Qed.

(** [if (f_negative_p(x)) x = f_negate(x);] *)
Lemma abs_bind {B} x (k : num → res B) Q :
  canon x → (∀ a, canon a → nval a = Z.abs (nval x) → returns (k a) Q) →
  returns (n ← f_negative_p x; x ← (if n : bool then f_negate x else Ok x); k x) Q.
Proof.
  intros Hx Hk. rewrite f_negative_spec by done. cbn [mbind res_bind]. destruct (Z.ltb_spec (nval x) 0).
  - unfold f_negate. destruct (l_negate x Hx) as (a & -> & Ha & Hc). cbn [mbind res_bind]. apply Hk; [done|lia].
  - apply Hk; [done|lia].
Qed.

(** The greatest common divisor of any two integers. *)
Lemma f_gcd_spec x y : canon x → canon y → computes (f_gcd x y) (Z.gcd (nval x) (nval y)).
Proof.
  intros Hx Hy. unfold f_gcd.
  assert (computes (nx ← f_negative_p x; x ← (if nx : bool then f_negate x else Ok x);
      ny ← f_negative_p y; y ← (if ny : bool then f_negate y else Ok y);
      if f_zero_p x then Ok y else if f_zero_p y then Ok x else iter (f_gcd_fuel x y) f_gcd_step (x, y))
    (Z.gcd (nval x) (nval y))) as Hgen.
  { apply abs_bind; [done|]. intros a Hca Hva. apply abs_bind; [done|]. intros b Hcb Hvb.
    rewrite <- (Z.gcd_abs_l (nval x)), <- (Z.gcd_abs_r _ (nval y)), <- Hva, <- Hvb. rewrite !f_zero_spec by done.
    destruct (Z.eqb_spec (nval a) 0) as [E|]; [rewrite E, (Z.gcd_0_l (nval b)), Z.abs_eq by lia; by apply computes_self|].
    destruct (Z.eqb_spec (nval b) 0) as [E|]; [rewrite E, (Z.gcd_0_r (nval a)), Z.abs_eq by lia; by apply computes_self|].
    apply f_gcd_loop; (done || lia). }
  destruct x as [a|bx], y as [b|by_]; try exact Hgen. rewrite canon_fix in Hx, Hy. rewrite i_gcd_spec by done. cbn [mbind res_bind nval].
  apply int2num_spec. pose proof (Z.gcd_nonneg a b).
  assert (Z.gcd a b ≤ 2 ^ 61); [|fix_range]. destruct (decide (a = 0)) as [->|].
  - rewrite Z.gcd_0_l. lia.
  - assert (Z.gcd a b ≤ Z.abs a) by (apply Z.divide_pos_le; [lia|apply Z.divide_abs_r, Z.gcd_divide_l]). lia.
Qed.

(** ** Normalisation *)

Lemma normalize_sign_spec n d :
  canon n → canon d →
  if decide (nval d = 0) then normalize_sign n d = Err (Raise ZeroDivisionError)
  else returns (normalize_sign n d) (λ '(n', d'),
    canon n' ∧ canon d' ∧ nval n' = Z.sgn (nval d) * nval n ∧ nval d' = Z.abs (nval d)).
Proof.
  intros Hn Hd. unfold normalize_sign. rewrite f_cmp_spec by done. cbn [mbind res_bind]. rewrite fix2int_comp. cbn [mbind res_bind].
  change (nval ZERO) with 0. destruct (comp_range (nval d) 0) as [[-> Hlt]|[[-> Heq]|[-> Hgt]]]; cbn [Z.eqb Pos.eqb].
  - rewrite decide_False by lia. destruct (l_negate n Hn) as (n' & En & Hvn & Hcn), (l_negate d Hd) as (d' & Ed & Hvd & Hcd).
    unfold f_negate. rewrite En. cbn [mbind res_bind]. rewrite Ed. cbn [mbind res_bind]. apply returns_ret.
    split_and!; [done|done|rewrite Z.sgn_neg by lia; lia|lia].
  - by rewrite decide_True.
  - rewrite decide_False by lia. apply returns_ret. split_and!; [done|done|rewrite Z.sgn_pos by lia; lia|lia].
Qed.

(** A rational in lowest terms with a positive denominator. *)
Record rat_ok (r : rational) : Prop := {
  ro_num : canon (rnum r);
  ro_den : canon (rden r);
  ro_pos : 0 < nval (rden r);
  ro_gcd : Z.gcd (nval (rnum r)) (nval (rden r)) = 1
}.

Lemma new_no_reduce_spec n d :
  canon n → canon d → 0 < nval d → Z.gcd (nval n) (nval d) = 1 →
  returns (f_rational_new_no_reduce2 n d) (λ r, rat_ok r ∧ nval (rnum r) = nval n ∧ nval (rden r) = nval d).
Proof.
  intros Hn Hd Hp Hg. unfold f_rational_new_no_reduce2, nurat_s_canonicalize_internal_no_reduce.
  pose proof (normalize_sign_spec n d Hn Hd) as H. rewrite decide_False in H by lia. destruct H as ([n' d'] & -> & Hcn & Hcd & Hvn & Hvd).
  cbn [mbind res_bind]. apply returns_ret. rewrite Z.sgn_pos, Z.mul_1_l in Hvn by done. rewrite Z.abs_eq in Hvd by lia.
  split_and!; [|done|done]. split; cbn [rnum rden nurat_s_new_internal]; [done|done|lia|by rewrite Hvn, Hvd].
Qed.
End spec.

(** * rational.c: the operations keep rationals in lowest terms *)

(** ** Arithmetic of fractions in lowest terms *)

(** [an/ad + bn/bd] over the least common denominator, divided by what its
    numerator has in common with the greatest common divisor of [ad] and [bd]. *)
Lemma sum_reduced an ad bn bd g c g' :
  0 < ad → 0 < bd → Z.gcd an ad = 1 → Z.gcd bn bd = 1 →
  g = Z.gcd ad bd → c = an * (bd / g) + bn * (ad / g) → g' = Z.gcd c g →
  0 < g ∧ 0 < g' ∧ (g' | c) ∧ (g' | bd) ∧ 0 < bd / g' * (ad / g) ∧
  Z.gcd (c / g') (bd / g' * (ad / g)) = 1 ∧
  c / g' * (ad * bd) = (an * bd + bn * ad) * (bd / g' * (ad / g)).
Proof.
  intros Had Hbd Ha Hb Eg Ec Eg'. assert (0 < g) as Hg by (rewrite Eg; apply gcd_pos_r; lia).
  assert (0 < g') as Hg' by (rewrite Eg'; apply gcd_pos_r; lia).
  assert (g | ad) as Dad by (rewrite Eg; apply Z.gcd_divide_l). assert (g | bd) as Dbd by (rewrite Eg; apply Z.gcd_divide_r).
  assert (g' | c) as Dc by (rewrite Eg'; apply Z.gcd_divide_l). assert (g' | g) as Dg by (rewrite Eg'; apply Z.gcd_divide_r).
  assert (g' | bd) as Dbd' by (by etransitivity).
  pose proof (divide_div ad g ltac:(lia) Dad) as Ead. pose proof (divide_div bd g ltac:(lia) Dbd) as Ebd.
  pose proof (divide_div c g' ltac:(lia) Dc) as Ecc. pose proof (divide_div g g' ltac:(lia) Dg) as Egg.
  set (a := ad / g) in *. set (b := bd / g) in *. set (c' := c / g') in *. set (h := g / g') in *.
  assert (bd / g' = h * b) as Ehb.
  { rewrite Ebd, Egg, <- Z.mul_assoc, Z.mul_comm. by rewrite Z.div_mul by lia. }
  assert (Z.gcd a b = 1) as Hab by (unfold a, b; apply Z.gcd_div_gcd; [lia|done]).
  assert (Z.gcd c a = 1) as Hca.
  { rewrite Ec, coprime_add_mul. apply coprime_mul; [|by rewrite Z.gcd_comm].
    apply (coprime_divide an ad); [done|done|]. exists g. lia. }
  assert (Z.gcd c b = 1) as Hcb.
  { rewrite Ec, Z.add_comm, coprime_add_mul. apply coprime_mul; [|done].
    apply (coprime_divide bn bd); [done|done|]. exists g. lia. }
  rewrite Ehb. split_and!; [done|done|done|done| | |].
  - assert (0 < a) by nia. assert (0 < b) by nia. assert (0 < h) by nia. nia.
  - assert (g' * Z.gcd c' (h * b * a) = g' * 1) as E; [|nia].
    rewrite <- Z.gcd_mul_mono_l_nonneg by lia. rewrite <- Ecc. replace (g' * (h * b * a)) with (g * (a * b)) by (rewrite Egg; lia).
    rewrite gcd_mul_coprime; [lia|]. rewrite Z.gcd_comm. apply coprime_mul; by rewrite Z.gcd_comm.
  - assert (an * bd + bn * ad = g * c) as -> by (rewrite Ec, Ead, Ebd; fold a b; nia).
    rewrite Ead, Ebd at 1. rewrite Ecc, Egg. nia.
Qed.

(** [an/ad * bn/bd], with the common factors taken out crosswise. *)
Lemma product_reduced an ad bn bd g1 g2 :
  0 < ad → 0 < bd → Z.gcd an ad = 1 → Z.gcd bn bd = 1 →
  g1 = Z.gcd an bd → g2 = Z.gcd ad bn →
  0 < g1 ∧ 0 < g2 ∧ (g1 | an) ∧ (g1 | bd) ∧ (g2 | ad) ∧ (g2 | bn) ∧ 0 < ad / g2 * (bd / g1) ∧
  Z.gcd (an / g1 * (bn / g2)) (ad / g2 * (bd / g1)) = 1 ∧
  an / g1 * (bn / g2) * (ad * bd) = an * bn * (ad / g2 * (bd / g1)).
Proof.
  intros Had Hbd Ha Hb E1 E2. assert (0 < g1) as H1 by (rewrite E1; apply gcd_pos_r; lia).
  assert (0 < g2) as H2 by (rewrite E2, Z.gcd_comm; apply gcd_pos_r; lia).
  assert (g1 | an) as D1 by (rewrite E1; apply Z.gcd_divide_l). assert (g1 | bd) as D2 by (rewrite E1; apply Z.gcd_divide_r).
  assert (g2 | ad) as D3 by (rewrite E2; apply Z.gcd_divide_l). assert (g2 | bn) as D4 by (rewrite E2; apply Z.gcd_divide_r).
  pose proof (divide_div an g1 ltac:(lia) D1) as F1. pose proof (divide_div bd g1 ltac:(lia) D2) as F2.
  pose proof (divide_div ad g2 ltac:(lia) D3) as F3. pose proof (divide_div bn g2 ltac:(lia) D4) as F4.
  assert (Z.gcd (an / g1) (bd / g1) = 1) as G1 by (apply Z.gcd_div_gcd; [lia|done]).
  assert (Z.gcd (bn / g2) (ad / g2) = 1) as G2 by (rewrite Z.gcd_comm; apply Z.gcd_div_gcd; [lia|done]).
  assert (Z.gcd (an / g1) (ad / g2) = 1) as G3.
  { apply (coprime_divide an ad); [done|exists g1; lia|exists g2; lia]. }
  assert (Z.gcd (bn / g2) (bd / g1) = 1) as G4.
  { apply (coprime_divide bn bd); [done|exists g2; lia|exists g1; lia]. }
  set (a := an / g1) in *. set (b := bn / g2) in *. set (p := ad / g2) in *. set (q := bd / g1) in *.
  split_and!; [done..| | |].
  - assert (0 < p) by nia. assert (0 < q) by nia. nia.
  - rewrite Z.gcd_comm. apply coprime_mul; rewrite Z.gcd_comm; apply coprime_mul; done.
  - rewrite F1, F2, F3, F4. nia.
Qed.

Section ops.
Context `{J : Junk} {M : IntegerMethods} {L : IntegerLaws M}.

Lemma f_idiv_spec x y : canon x → canon y → nval y ≠ 0 → computes (f_idiv x y) (nval x / nval y).
Proof. apply l_idiv. Qed.

(** One command that computes, and the rest. *)
Lemma computes_bind {B} m v (k : num → res B) Q :
  computes m v → (∀ z, canon z → nval z = v → returns (k z) Q) → returns (m ≫= k) Q.
Proof. intros (z & -> & Hv & Hc) Hk. by apply Hk. Qed.

Lemma cquot_bind {B} x g (k : Z → res B) Q :
  0 < g → - 2 ^ 61 ≤ x ≤ 2 ^ 61 - 1 → (g | x) →
  (∀ q, - 2 ^ 61 ≤ q ≤ 2 ^ 61 - 1 → q = x / g → returns (k q) Q) → returns (q ← cquot x g; k q) Q.
Proof.
  intros Hg Hr Hd Hk. unfold cquot. rewrite (proj2 (Z.eqb_neq g 0)) by lia. cbn [mbind res_bind].
  rewrite quot_exact by (done || lia). pose proof (divide_div x g ltac:(lia) Hd). apply Hk; [nia|done].
Qed.

(** ** Construction *)

Lemma canonicalize_spec n d :
  canon n → canon d →
  if decide (nval d = 0) then nurat_s_canonicalize_internal n d = Err (Raise ZeroDivisionError)
  else returns (nurat_s_canonicalize_internal n d) (λ r, rat_ok r ∧ nval (rnum r) * nval d = nval n * nval (rden r)).
Proof.
  intros Hn Hd. unfold nurat_s_canonicalize_internal. pose proof (normalize_sign_spec n d Hn Hd) as H.
  destruct (decide (nval d = 0)) as [E|Hnz]; [by rewrite H|]. destruct H as ([n' d'] & -> & Hcn & Hcd & Hvn & Hvd). cbn [mbind res_bind].
  eapply computes_bind; [by apply f_gcd_spec|]. intros g Hg Hvg. cbn beta.
  assert (0 < nval g) as Hgp by (rewrite Hvg; apply gcd_pos_r; lia).
  eapply computes_bind; [apply f_idiv_spec; [done|done|lia]|]. intros n2 Hn2 Hvn2. cbn beta.
  eapply computes_bind; [apply f_idiv_spec; [done|done|lia]|]. intros d2 Hd2 Hvd2. cbn beta.
  assert (nval g | nval n') as Dn by (rewrite Hvg; apply Z.gcd_divide_l).
  assert (nval g | nval d') as Dd by (rewrite Hvg; apply Z.gcd_divide_r).
  pose proof (divide_div (nval n') (nval g) ltac:(lia) Dn) as En. pose proof (divide_div (nval d') (nval g) ltac:(lia) Dd) as Ed.
  apply returns_ret. cbn [rnum rden nurat_s_new_internal]. rewrite <- Hvn2 in En. rewrite <- Hvd2 in Ed. split.
  - split; cbn [rnum rden nurat_s_new_internal]; [done|done|nia|]. rewrite Hvn2, Hvd2, Hvg. apply Z.gcd_div_gcd; [lia|done].
  - destruct (decide (0 < nval d)).
    + rewrite Z.sgn_pos in Hvn by done. nia.
    + rewrite Z.sgn_neg in Hvn by lia. nia.
Qed.

(** ** Sums *)

Definition fixes (l : list Z) : Prop := Forall (λ v, - 2 ^ 61 ≤ v ≤ 2 ^ 61 - 1) l.

#[global] Instance fixes_dec l : Decision (fixes l).
Proof. unfold fixes. apply _. Defined.

Lemma small_le a b : Z.abs a ≤ Z.abs b → small b → small a.
Proof. unfold small. lia. Qed.

Lemma small_div a g : 0 < g → small a → small (a / g).
Proof.
  intros Hg. apply small_le. pose proof (Z.div_mod a g ltac:(lia)). pose proof (Z.mod_pos_bound a g Hg). nia.
Qed.

(** The products of [f_addsub] that go through [Integer#*]. *)
Definition addsub_safe (an ad bn bd : Z) (plus : bool) : Prop :=
  let g := Z.gcd ad bd in
  let c := an * (bd / g) + (if plus then bn else - bn) * (ad / g) in
  small an ∧ small ad ∧ small bn ∧ small bd ∧ mul_wraps (bd / Z.gcd c g) (ad / g) = false ∧
  (fixes [an; ad; bn; bd] ∨ mul_wraps an (bd / g) = false ∧ mul_wraps bn (ad / g) = false).

Lemma addsub_tail_spec (plus : bool) a b aden bden g an bn :
  canon a → canon b → canon aden → canon bden → canon g → 0 < nval aden → 0 < nval bden →
  Z.gcd an (nval aden) = 1 → Z.gcd bn (nval bden) = 1 → nval g = Z.gcd (nval aden) (nval bden) →
  nval a = an * (nval bden / nval g) → nval b = bn * (nval aden / nval g) →
  addsub_safe an (nval aden) bn (nval bden) plus →
  returns (addsub_tail plus a b aden bden g) (λ r, rat_ok r ∧
    nval (rnum r) * (nval aden * nval bden) =
    (if plus then an * nval bden + bn * nval aden else an * nval bden - bn * nval aden) * nval (rden r)).
Proof.
  intros Ha Hb Had Hbd Hg Hpa Hpb Hca Hcb Eg Ea Eb (_ & Hsa & _ & Hsb & Hw & _). unfold addsub_tail.
  set (bn' := if plus then bn else - bn) in *.
  assert (Z.gcd bn' (nval bden) = 1) as Hcb' by (unfold bn'; destruct plus; rewrite ?Z.gcd_opp_l; done).
  eapply (computes_bind _ (an * (nval bden / nval g) + bn' * (nval aden / nval g))).
  { unfold bn'. destruct plus; eapply computes_eq; [by apply f_add_spec|lia|by apply f_sub_spec|lia]. }
  intros c Hc Hvc. cbn beta. rewrite <- Eg in Hw. rewrite <- Hvc in Hw.
  destruct (sum_reduced an (nval aden) bn' (nval bden) (nval g) (nval c) (Z.gcd (nval c) (nval g)) Hpa Hpb Hca Hcb' Eg Hvc eq_refl)
    as (Hg0 & Hg'0 & Dc & Db & Hden & Hred & Hval).
  eapply computes_bind; [apply f_idiv_spec; [done|done|lia]|]. intros p Hp Hvp. cbn beta.
  eapply computes_bind; [by apply f_gcd_spec|]. intros g' Hg' Hvg'. cbn beta. rewrite <- Hvg' in *.
  eapply computes_bind; [apply f_idiv_spec; [done|done|lia]|]. intros n Hn Hvn. cbn beta.
  eapply computes_bind; [apply f_idiv_spec; [done|done|lia]|]. intros q Hq Hvq. cbn beta.
  eapply computes_bind.
  { apply f_mul_spec; [done|done|]. rewrite Hvq, Hvp. split_and!; [by apply small_div|by apply small_div|done]. }
  intros d Hd Hvd. cbn beta. rewrite Hvq, Hvp in Hvd.
  eapply returns_mono; [apply new_no_reduce_spec; [done|done|lia|by rewrite Hvn, Hvd]|].
  intros r (Hr & Hrn & Hrd). split; [done|]. rewrite Hrn, Hrd, Hvn, Hvd, Hval. unfold bn'. destruct plus; f_equal; lia.
Qed.

Lemma f_addsub_spec anum aden bnum bden plus :
  canon anum → canon aden → canon bnum → canon bden → 0 < nval aden → 0 < nval bden →
  Z.gcd (nval anum) (nval aden) = 1 → Z.gcd (nval bnum) (nval bden) = 1 →
  addsub_safe (nval anum) (nval aden) (nval bnum) (nval bden) plus →
  returns (f_addsub anum aden bnum bden plus) (λ r, rat_ok r ∧
    nval (rnum r) * (nval aden * nval bden) =
    (if plus then nval anum * nval bden + nval bnum * nval aden else nval anum * nval bden - nval bnum * nval aden) *
      nval (rden r)).
Proof.
  intros Han Had Hbn Hbd Hpa Hpb Hca Hcb Hsafe. assert (0 < Z.gcd (nval aden) (nval bden)) as Hgp by (apply gcd_pos_r; lia).
  assert (Z.gcd (nval aden) (nval bden) | nval aden) as Da by apply Z.gcd_divide_l.
  assert (Z.gcd (nval aden) (nval bden) | nval bden) as Db by apply Z.gcd_divide_r.
  assert (¬ fixes [nval anum; nval aden; nval bnum; nval bden] →
    returns (g ← f_gcd aden bden; q ← f_idiv bden g; a ← f_mul anum q; q ← f_idiv aden g; b ← f_mul bnum q;
      addsub_tail plus a b aden bden g) (λ r, rat_ok r ∧
    nval (rnum r) * (nval aden * nval bden) =
    (if plus then nval anum * nval bden + nval bnum * nval aden else nval anum * nval bden - nval bnum * nval aden) *
      nval (rden r))) as Hgen.
  { intros Hnf. pose proof Hsafe as (Hs1 & Hs2 & Hs3 & Hs4 & _ & [Hf|[Hw1 Hw2]]); [done|].
    eapply computes_bind; [by apply f_gcd_spec|]. intros g Hg Hvg. cbn beta. rewrite <- Hvg in *.
    eapply computes_bind; [apply f_idiv_spec; [done|done|lia]|]. intros p Hp Hvp. cbn beta.
    eapply computes_bind; [apply f_mul_spec; [done|done|]; rewrite Hvp; split_and!; [done|by apply small_div|done]|].
    intros a Ha Hva. cbn beta. rewrite Hvp in Hva.
    eapply computes_bind; [apply f_idiv_spec; [done|done|lia]|]. intros q Hq Hvq. cbn beta.
    eapply computes_bind; [apply f_mul_spec; [done|done|]; rewrite Hvq; split_and!; [done|by apply small_div|done]|].
    intros b Hb Hvb. cbn beta. rewrite Hvq in Hvb. by apply addsub_tail_spec. }
  destruct (decide (fixes [nval anum; nval aden; nval bnum; nval bden])) as [Hfix|Hnf].
  - unfold fixes in Hfix. rewrite !Forall_cons in Hfix. destruct Hfix as (F1 & F2 & F3 & F4 & _).
    rewrite (canon_fixnum anum), (canon_fixnum aden), (canon_fixnum bnum), (canon_fixnum bden) by done.
    cbn [f_addsub]. rewrite i_gcd_spec by done. cbn [mbind res_bind]. set (g := Z.gcd (nval aden) (nval bden)) in *.
    assert (g ≤ nval aden) by (apply Z.divide_pos_le; [lia|done]).
    eapply computes_bind; [apply (int2num_spec g); fix_range|]. intros gn Hgn Hvg. cbn beta.
    apply cquot_bind; [done..|]. intros q1 Hq1 Eq1. cbn beta. eapply computes_bind; [by apply f_imul_spec|]. intros a Ha Hva. cbn beta.
    apply cquot_bind; [done..|]. intros q2 Hq2 Eq2. cbn beta. eapply computes_bind; [by apply f_imul_spec|]. intros b Hb Hvb. cbn beta.
    rewrite <- (canon_fixnum aden), <- (canon_fixnum bden) by done. rewrite Eq1 in Hva. rewrite Eq2 in Hvb. rewrite <- Hvg in *.
    by apply addsub_tail_spec.
  - specialize (Hgen Hnf). destruct anum, aden, bnum, bden; try exact Hgen. exfalso. apply Hnf.
    repeat (apply Forall_cons; split; [by apply canon_fix|]). by apply Forall_nil.
Qed.

(** ** Products and quotients *)

Definition muldiv_safe (an ad bn bd : Z) : Prop :=
  small an ∧ small ad ∧ small bn ∧ small bd ∧
  (fixes [an; ad; bn; bd] ∨
   mul_wraps (an / Z.gcd an bd) (bn / Z.gcd ad bn) = false ∧ mul_wraps (ad / Z.gcd ad bn) (bd / Z.gcd an bd) = false).

Lemma muldiv_products_spec anum aden bnum bden :
  canon anum → canon aden → canon bnum → canon bden → 0 < nval aden → 0 < nval bden →
  Z.gcd (nval anum) (nval aden) = 1 → Z.gcd (nval bnum) (nval bden) = 1 →
  muldiv_safe (nval anum) (nval aden) (nval bnum) (nval bden) →
  returns (muldiv_products anum aden bnum bden) (λ r, rat_ok r ∧
    nval (rnum r) * (nval aden * nval bden) = nval anum * nval bnum * nval (rden r)).
Proof.
  intros Han Had Hbn Hbd Hpa Hpb Hca Hcb (Hs1 & Hs2 & Hs3 & Hs4 & Hw).
  destruct (product_reduced (nval anum) (nval aden) (nval bnum) (nval bden) _ _ Hpa Hpb Hca Hcb eq_refl eq_refl)
    as (Hg1 & Hg2 & D1 & D2 & D3 & D4 & Hden & Hred & Hval).
  set (g1 := Z.gcd (nval anum) (nval bden)) in *. set (g2 := Z.gcd (nval aden) (nval bnum)) in *.
  assert (∀ n d, canon n → canon d → nval n = nval anum / g1 * (nval bnum / g2) → nval d = nval aden / g2 * (nval bden / g1) →
    returns (f_rational_new_no_reduce2 n d) (λ r, rat_ok r ∧
      nval (rnum r) * (nval aden * nval bden) = nval anum * nval bnum * nval (rden r))) as Hend.
  { intros n d Hn Hd Hvn Hvd. eapply returns_mono; [apply new_no_reduce_spec; [done|done|lia|by rewrite Hvn, Hvd]|].
    intros r (Hr & Hrn & Hrd). split; [done|]. by rewrite Hrn, Hrd, Hvn, Hvd. }
  destruct (decide (fixes [nval anum; nval aden; nval bnum; nval bden])) as [Hfix|Hnf].
  - unfold fixes in Hfix. rewrite !Forall_cons in Hfix. destruct Hfix as (F1 & F2 & F3 & F4 & _).
    rewrite (canon_fixnum anum), (canon_fixnum aden), (canon_fixnum bnum), (canon_fixnum bden) by done.
    cbn [muldiv_products]. rewrite !i_gcd_spec by done. cbn [mbind res_bind]. fold g1 g2.
    apply cquot_bind; [done..|]. intros q1 Hq1 Eq1. cbn beta. apply cquot_bind; [done..|]. intros q2 Hq2 Eq2. cbn beta.
    eapply computes_bind; [by apply f_imul_spec|]. intros n Hn Hvn. cbn beta.
    apply cquot_bind; [done..|]. intros q3 Hq3 Eq3. cbn beta. apply cquot_bind; [done..|]. intros q4 Hq4 Eq4. cbn beta.
    eapply computes_bind; [by apply f_imul_spec|]. intros d Hd Hvd. cbn beta.
    apply Hend; [done|done|by rewrite Hvn, Eq1, Eq2|by rewrite Hvd, Eq3, Eq4].
  - destruct Hw as [Hf|[Hw1 Hw2]]; [done|].
    assert (returns (g1 ← f_gcd anum bden; g2 ← f_gcd aden bnum;
      p ← f_idiv anum g1; q ← f_idiv bnum g2; n ← f_mul p q;
      p ← f_idiv aden g2; q ← f_idiv bden g1; d ← f_mul p q; f_rational_new_no_reduce2 n d) (λ r, rat_ok r ∧
      nval (rnum r) * (nval aden * nval bden) = nval anum * nval bnum * nval (rden r))) as Hgen.
    { eapply computes_bind; [by apply f_gcd_spec|]. intros h1 Hh1 Hv1. cbn beta.
      eapply computes_bind; [by apply f_gcd_spec|]. intros h2 Hh2 Hv2. cbn beta. fold g1 in Hv1. fold g2 in Hv2.
      rewrite <- Hv1, <- Hv2 in *.
      eapply computes_bind; [apply f_idiv_spec; [done|done|lia]|]. intros p Hp Hvp. cbn beta.
      eapply computes_bind; [apply f_idiv_spec; [done|done|lia]|]. intros q Hq Hvq. cbn beta.
      eapply computes_bind; [apply f_mul_spec; [done|done|]; rewrite Hvp, Hvq; split_and!; [by apply small_div|by apply small_div|done]|].
      intros n Hn Hvn. cbn beta.
      eapply computes_bind; [apply f_idiv_spec; [done|done|lia]|]. intros p' Hp' Hvp'. cbn beta.
      eapply computes_bind; [apply f_idiv_spec; [done|done|lia]|]. intros q' Hq' Hvq'. cbn beta.
      eapply computes_bind; [apply f_mul_spec; [done|done|]; rewrite Hvp', Hvq'; split_and!; [by apply small_div|by apply small_div|done]|].
      intros d Hd Hvd. cbn beta. apply Hend; [done|done|by rewrite Hvn, Hvp, Hvq|by rewrite Hvd, Hvp', Hvq']. }
    destruct anum, aden, bnum, bden; try exact Hgen. exfalso. apply Hnf.
    repeat (apply Forall_cons; split; [by apply canon_fix|]). by apply Forall_nil.
Qed.

(** Division multiplies by the inverse, which has a positive denominator. *)
Definition quotient_safe (an ad bn bd : Z) : Prop := muldiv_safe (Z.sgn bn * an) ad bd (Z.abs bn).

Lemma f_muldiv_div_spec anum aden bnum bden :
  canon anum → canon aden → canon bnum → canon bden → 0 < nval aden → 0 < nval bden → nval bnum ≠ 0 →
  Z.gcd (nval anum) (nval aden) = 1 → Z.gcd (nval bnum) (nval bden) = 1 →
  quotient_safe (nval anum) (nval aden) (nval bnum) (nval bden) →
  returns (f_muldiv anum aden bnum bden false) (λ r, rat_ok r ∧
    nval (rnum r) * (nval aden * nval bnum) = nval anum * nval bden * nval (rden r)).
Proof.
  intros Han Had Hbn Hbd Hpa Hpb Hnz Hca Hcb Hs. unfold quotient_safe in Hs. cbn [f_muldiv].
  rewrite f_negative_spec by done. cbn [mbind res_bind]. destruct (Z.ltb_spec (nval bnum) 0).
  - rewrite Z.sgn_neg, Z.abs_neq in Hs by lia. replace (-1 * nval anum) with (- nval anum) in Hs by lia.
    eapply computes_bind; [by apply l_negate|]. intros a Ha Hva. cbn beta.
    eapply computes_bind; [by apply l_negate|]. intros b Hb Hvb. cbn beta. rewrite <- Hva, <- Hvb in Hs.
    eapply returns_mono; [apply muldiv_products_spec; [done|done|done|done|done|lia|by rewrite Hva, Z.gcd_opp_l|
      by rewrite Hvb, Z.gcd_opp_r, Z.gcd_comm|done]|].
    intros r [Hr Hv]. split; [done|]. nia.
  - rewrite Z.sgn_pos, Z.abs_eq, Z.mul_1_l in Hs by lia.
    eapply returns_mono; [apply muldiv_products_spec; [done|done|done|done|done|lia|done|by rewrite Z.gcd_comm|done]|].
    intros r [Hr Hv]. split; [done|]. nia.
Qed.
End ops.
