(* ===== verification/RationalThm.v ===== *)
(** * rational.c: the theorems

    A rational in lowest terms is compared with the rational numbers [Q] of the
    standard library.  The theorems are proved from the laws of the integer methods,
    whatever implements them; the witnesses use those of numeric.c and bignum.c. *)

From Stdlib Require Import QArith Qround Qpower.
From S2P Require Import Prelude Util Big BigVal BigAdd BigMul BigBits BigStr BigThm Numeric NumericSpec NumericOps.
From S2P Require Import IntMethods Rational RationalSpec.

#[local] Open Scope Z_scope.

Definition frac (n d : Z) : Q := Qmake n (Z.to_pos d).
Definition rval (r : rational) : Q := frac (nval (rnum r)) (nval (rden r)).

(** The numerator and the denominator of an operand. *)
Definition onum (o : operand) : num := match o with OInt n => n | ORat r => rnum r end.
Definition oden (o : operand) : num := match o with OInt _ => ONE | ORat r => rden r end.
Definition oval (o : operand) : Q := frac (nval (onum o)) (nval (oden o)).
Definition operand_ok (o : operand) : Prop := match o with OInt n => canon n | ORat r => rat_ok r end.

Lemma operand_ok_parts o : operand_ok o →
  canon (onum o) ∧ canon (oden o) ∧ 0 < nval (oden o) ∧ Z.gcd (nval (onum o)) (nval (oden o)) = 1.
Proof.
  destruct o as [n|r]; cbn [operand_ok onum oden]; [|by intros []]. intros Hn.
  split_and!; [done|apply canon_one|done|apply Z.gcd_1_r].
Qed.

Lemma frac_eq a b c d : 0 < b → 0 < d → Qeq (frac a b) (frac c d) ↔ a * d = c * b.
Proof. intros Hb Hd. unfold frac, Qeq. cbn [Qnum Qden]. by rewrite !Z2Pos.id. Qed.

Lemma frac_compare a b c d : 0 < b → 0 < d → Qcompare (frac a b) (frac c d) = (a * d ?= c * b).
Proof. intros Hb Hd. unfold frac, Qcompare. cbn [Qnum Qden]. by rewrite !Z2Pos.id. Qed.

Lemma frac_plus a b c d : 0 < b → 0 < d → Qplus (frac a b) (frac c d) = frac (a * d + c * b) (b * d).
Proof. intros Hb Hd. unfold frac, Qplus. cbn [Qnum Qden]. by rewrite !Z2Pos.id, Z2Pos.inj_mul. Qed.

Lemma frac_minus a b c d : 0 < b → 0 < d → Qminus (frac a b) (frac c d) = frac (a * d - c * b) (b * d).
Proof.
  intros Hb Hd. unfold frac, Qminus, Qplus, Qopp. cbn [Qnum Qden]. rewrite !Z2Pos.id, Z2Pos.inj_mul by done. f_equal. lia.
Qed.

Lemma frac_mult a b c d : 0 < b → 0 < d → Qmult (frac a b) (frac c d) = frac (a * c) (b * d).
Proof. intros Hb Hd. unfold frac, Qmult. cbn [Qnum Qden]. by rewrite Z2Pos.inj_mul. Qed.

Lemma frac_div r a b c d :
  0 < b → 0 < d → c ≠ 0 → Qeq (Qmult r (frac c d)) (frac a b) → Qeq r (Qdiv (frac a b) (frac c d)).
Proof.
  intros Hb Hd Hc E. assert (¬ Qeq (frac c d) 0) as Hnz.
  { change (0)%Q with (frac 0 1). rewrite frac_eq by lia. lia. }
  rewrite <- E. symmetry. by apply Qdiv_mult_l.
Qed.

(** Rationals in lowest terms are equal if their values are. *)
Lemma rat_unique x y : rat_ok x → rat_ok y → Qeq (rval x) (rval y) → x = y.
Proof.
  intros Hx Hy E. destruct Hx as [Hnx Hdx Hpx Hgx], Hy as [Hny Hdy Hpy Hgy]. unfold rval in E. rewrite frac_eq in E by done.
  assert (nval (rden x) = nval (rden y)) as Ed.
  { apply Z.divide_antisym_nonneg; [lia|lia|..].
    - apply Z.gauss with (nval (rnum x)); [|by rewrite Z.gcd_comm]. exists (nval (rnum y)). lia.
    - apply Z.gauss with (nval (rnum y)); [|by rewrite Z.gcd_comm]. exists (nval (rnum x)). lia. }
  assert (nval (rnum x) = nval (rnum y)) as En by (rewrite Ed in E; nia).
  destruct x as [xn xd], y as [yn yd]; cbn [rnum rden] in *. f_equal; by apply canon_unique.
Qed.

Section theorems.
Context `{J : Junk} {M : IntegerMethods} {L : IntegerLaws M}.

Lemma rat_ok_of n d q : rat_ok q → 0 < d → nval (rnum q) * d = n * nval (rden q) → Qeq (rval q) (frac n d).
Proof. intros [_ _ Hp _] Hd E. by apply frac_eq. Qed.

(** The sum, the difference and the product. *)
Lemma rational_ring_correct x y :
  rat_ok x → operand_ok y →
  let safe := addsub_safe (nval (rnum x)) (nval (rden x)) (nval (onum y)) (nval (oden y)) in
  (safe true → returns (nurat_add x y) (λ r, rat_ok r ∧ Qeq (rval r) (Qplus (rval x) (oval y)))) ∧
  (safe false → returns (nurat_sub x y) (λ r, rat_ok r ∧ Qeq (rval r) (Qminus (rval x) (oval y)))) ∧
  (muldiv_safe (nval (rnum x)) (nval (rden x)) (nval (onum y)) (nval (oden y)) →
   returns (nurat_mul x y) (λ r, rat_ok r ∧ Qeq (rval r) (Qmult (rval x) (oval y)))).
Proof.
  intros Hx Hy. destruct (operand_ok_parts y Hy) as (Hyn & Hyd & Hyp & Hyg). pose proof Hx as [Hxn Hxd Hxp Hxg]. cbv zeta.
  assert (nurat_add x y = f_addsub (rnum x) (rden x) (onum y) (oden y) true) as -> by (by destruct y).
  assert (nurat_sub x y = f_addsub (rnum x) (rden x) (onum y) (oden y) false) as -> by (by destruct y).
  assert (nurat_mul x y = muldiv_products (rnum x) (rden x) (onum y) (oden y)) as -> by (by destruct y).
  unfold rval, oval. rewrite frac_plus, frac_minus, frac_mult by done. split_and!; intros Hs.
  - eapply returns_mono; [by apply f_addsub_spec|]. intros r [Hr Hv]. split; [done|]. apply rat_ok_of; [done|nia|done].
  - eapply returns_mono; [by apply f_addsub_spec|]. intros r [Hr Hv]. split; [done|]. apply rat_ok_of; [done|nia|done].
  - eapply returns_mono; [by apply muldiv_products_spec|]. intros r [Hr Hv]. split; [done|]. apply rat_ok_of; [done|nia|done].
Qed.

(** The quotient of a rational by a nonzero rational or integer has the value
    it should, in lowest terms with a positive denominator; division by zero raises
    ZeroDivisionError. *)
Lemma rational_div_correct x y :
  rat_ok x → operand_ok y →
  (nval (onum y) = 0 → nurat_div x y = Err (Raise ZeroDivisionError)) ∧
  (nval (onum y) ≠ 0 → quotient_safe (nval (rnum x)) (nval (rden x)) (nval (onum y)) (nval (oden y)) →
   returns (nurat_div x y) (λ r, rat_ok r ∧ Qeq (rval r) (Qdiv (rval x) (oval y)))).
Proof.
  intros Hx Hy. destruct (operand_ok_parts y Hy) as (Hyn & Hyd & Hyp & Hyg). pose proof Hx as [Hxn Hxd Hxp Hxg]. split.
  - intros Hz. destruct y as [n|r]; cbn [nurat_div onum] in *; unfold rat_zero_p; rewrite f_zero_spec by done; by rewrite Hz.
  - intros Hnz Hs.
    assert (∀ r, rat_ok r → nval (rnum r) * (nval (rden x) * nval (onum y)) = nval (rnum x) * nval (oden y) * nval (rden r) →
      Qeq (rval r) (Qdiv (rval x) (oval y))) as Hval.
    { intros r [_ _ Hp _] Hv. apply frac_div; [done..|]. unfold rval. rewrite frac_mult by done. apply frac_eq; nia. }
    assert (returns (f_muldiv (rnum x) (rden x) (onum y) (oden y) false) (λ r, rat_ok r ∧ Qeq (rval r) (Qdiv (rval x) (oval y)))) as Hmd.
    { eapply returns_mono; [by apply f_muldiv_div_spec|]. intros r [Hr Hv]. split; [done|]. by apply Hval. }
    destruct y as [n|r]; cbn [nurat_div onum oden] in *; unfold rat_zero_p; rewrite f_zero_spec, (proj2 (Z.eqb_neq _ 0)) by done;
      [exact Hmd|]. unfold rat_one_p. rewrite !f_one_spec by done.
    destruct (Z.eqb_spec (nval (rnum x)) 1) as [E1|], (Z.eqb_spec (nval (rden x)) 1) as [E2|]; try exact Hmd. cbn [andb].
    unfold f_rational_new_no_reduce2, nurat_s_canonicalize_internal_no_reduce.
    pose proof (normalize_sign_spec (rden r) (rnum r) Hyd Hyn) as H. rewrite decide_False in H by done.
    destruct H as ([n d] & -> & Hcn & Hcd & Hvn & Hvd). cbn [mbind res_bind]. apply returns_ret.
    assert (rat_ok (nurat_s_new_internal n d)) as Hr.
    { split; cbn [rnum rden nurat_s_new_internal]; [done|done|lia|]. rewrite Hvn, Hvd, Z.gcd_abs_r, Z.gcd_comm.
      destruct (decide (0 < nval (rnum r))); [rewrite Z.sgn_pos by done; by rewrite Z.mul_1_l|].
      rewrite Z.sgn_neg by lia. replace (-1 * nval (rden r)) with (- nval (rden r)) by lia. by rewrite Z.gcd_opp_r. }
    split; [done|]. apply Hval; [done|]. cbn [rnum rden nurat_s_new_internal]. rewrite E1, E2, Hvn, Hvd.
    destruct (decide (0 < nval (rnum r))); [rewrite Z.sgn_pos by done; lia|rewrite Z.sgn_neg by lia; lia].
Qed.

(** C15: the sum, the difference, the product and the quotient of a rational and a
    rational or an integer have the value they should and are again in lowest terms
    with a positive denominator, provided that the products taken with [Integer#*]
    do not wrap; division by zero raises ZeroDivisionError. *)
Theorem rational_arith_correct x y :
  rat_ok x → operand_ok y →
  let safe := addsub_safe (nval (rnum x)) (nval (rden x)) (nval (onum y)) (nval (oden y)) in
  (safe true → returns (nurat_add x y) (λ r, rat_ok r ∧ Qeq (rval r) (Qplus (rval x) (oval y)))) ∧
  (safe false → returns (nurat_sub x y) (λ r, rat_ok r ∧ Qeq (rval r) (Qminus (rval x) (oval y)))) ∧
  (muldiv_safe (nval (rnum x)) (nval (rden x)) (nval (onum y)) (nval (oden y)) →
   returns (nurat_mul x y) (λ r, rat_ok r ∧ Qeq (rval r) (Qmult (rval x) (oval y)))) ∧
  (nval (onum y) = 0 → nurat_div x y = Err (Raise ZeroDivisionError)) ∧
  (nval (onum y) ≠ 0 → quotient_safe (nval (rnum x)) (nval (rden x)) (nval (onum y)) (nval (oden y)) →
   returns (nurat_div x y) (λ r, rat_ok r ∧ Qeq (rval r) (Qdiv (rval x) (oval y)))).
Proof.
  intros Hx Hy. destruct (rational_ring_correct x y Hx Hy) as (? & ? & ?), (rational_div_correct x y Hx Hy) as [? ?]. done.
Qed.

(** C16: [Rational(n, d)] is the fraction in lowest terms with a positive
    denominator, and raises ZeroDivisionError for [d = 0]; [gcd] is that of [Z], and so is [lcm]
    if its product by [Integer#*] does not wrap ([mul_safe]).  Euclid's algorithm ends within
    the logarithms of its arguments. *)
Theorem rational_new_correct n d :
  canon n → canon d →
  (nval d = 0 → nurat_s_new n (Some d) = Err (Raise ZeroDivisionError)) ∧
  (nval d ≠ 0 → returns (nurat_s_new n (Some d)) (λ r, rat_ok r ∧ nval (rnum r) * nval d = nval n * nval (rden r))) ∧
  computes (rb_gcd n d) (Z.gcd (nval n) (nval d)) ∧
  (mul_safe (nval n / Z.gcd (nval n) (nval d)) (nval d) → computes (rb_lcm n d) (Z.lcm (nval n) (nval d))).
Proof.
  intros Hn Hd. pose proof (canonicalize_spec n d Hn Hd) as H. unfold nurat_s_new. cbn [default]. split_and!.
  - intros E. by rewrite decide_True in H.
  - intros E. by rewrite decide_False in H.
  - by apply f_gcd_spec.
  - intros Hs. unfold rb_lcm, f_lcm. rewrite !f_zero_spec by done. destruct (Z.eqb_spec (nval n) 0) as [E|]; cbn [orb].
    { rewrite E. unfold Z.lcm. cbn. by apply computes_fix. }
    destruct (Z.eqb_spec (nval d) 0) as [E|].
    { rewrite E. unfold Z.lcm. rewrite Z.div_0_l, Z.mul_0_r; [by apply computes_fix|]. rewrite Z.gcd_0_r. lia. }
    assert (0 < Z.gcd (nval n) (nval d)) as Hg by (by apply gcd_pos_r).
    eapply computes_bind; [by apply f_gcd_spec|]. intros g Hcg Hvg. cbn beta. rewrite <- Hvg in *.
    eapply computes_bind; [apply f_div_spec; [done|done|lia]|]. intros q Hq Hvq. cbn beta. rewrite <- Hvq in Hs.
    eapply computes_bind; [by apply f_mul_spec|]. intros p Hp Hvp. cbn beta.
    eapply computes_eq; [by apply l_abs|]. rewrite Hvp, Hvq. unfold Z.lcm. rewrite <- Hvg.
    assert (nval g | nval n) as D1 by (rewrite Hvg; apply Z.gcd_divide_l). assert (nval g | nval d) as D2 by (rewrite Hvg; apply Z.gcd_divide_r).
    pose proof (divide_div (nval n) (nval g) ltac:(lia) D1) as F1. pose proof (divide_div (nval d) (nval g) ltac:(lia) D2) as F2.
    f_equal. rewrite F1 at 2. rewrite F2 at 1. lia.
Qed.

(** ** Comparison and rounding *)

Definition cmp_safe (an ad bn bd : Z) : Prop := fixes [an; ad; bn; bd] ∨ mul_safe an bd ∧ mul_safe bn ad.

Lemma rat_cmp_spec x y :
  rat_ok x → canon (rnum y) → canon (rden y) → 0 < nval (rden y) →
  cmp_safe (nval (rnum x)) (nval (rden x)) (nval (rnum y)) (nval (rden y)) →
  rat_cmp x y = Ok (Fixnum (comp (nval (rnum x) * nval (rden y)) (nval (rnum y) * nval (rden x)))).
Proof.
  intros [Hxn Hxd Hxp _] Hyn Hyd Hyp Hs. apply returns_eq. unfold rat_cmp. set (p := nval (rnum x) * nval (rden y)).
  set (q := nval (rnum y) * nval (rden x)). eapply (returns_bind_mono _ _ (λ '(a, b), (canon a ∧ nval a = p) ∧ canon b ∧ nval b = q)).
  - assert (¬ fixes [nval (rnum x); nval (rden x); nval (rnum y); nval (rden y)] →
      returns (num1 ← f_mul (rnum x) (rden y); num2 ← f_mul (rnum y) (rden x); Ok (num1, num2))
        (λ '(a, b), (canon a ∧ nval a = p) ∧ canon b ∧ nval b = q)) as Hgen.
    { intros Hnf. destruct Hs as [Hf|[Hs1 Hs2]]; [done|]. eapply computes_bind; [by apply f_mul_spec|]. intros a Ha Hva. cbn beta.
      eapply computes_bind; [by apply f_mul_spec|]. intros b Hb Hvb. cbn beta. by apply returns_ret. }
    destruct (rnum x) as [an|], (rden x) as [ad|], (rnum y) as [bn|], (rden y) as [bd|];
      try (apply Hgen; unfold fixes; rewrite !Forall_cons; intros (F1 & F2 & F3 & F4 & _);
           repeat match goal with H : canon (Bignum ?b) |- _ => apply canon_bignum in H end; done).
    rewrite !canon_fix in *. eapply computes_bind; [by apply f_imul_spec|]. intros a Ha Hva. cbn beta.
    eapply computes_bind; [by apply f_imul_spec|]. intros b Hb Hvb. cbn beta. by apply returns_ret.
  - intros [a b] [[Ha Hva] [Hb Hvb]]. eapply computes_bind; [by apply f_sub_spec|]. intros d Hd Hvd. cbn beta.
    rewrite f_cmp_spec by (done || apply canon_zero). apply returns_ret. f_equal. rewrite Hvd, Hva, Hvb, !comp_spec.
    change (nval ZERO) with 0. cmp_spec; (done || lia).
Qed.

(** [<=>] orders a rational and a rational or an integer as their values, and
    [==] holds exactly if the values are equal. *)
Theorem rational_cmp_correct x y :
  rat_ok x → operand_ok y →
  (cmp_safe (nval (rnum x)) (nval (rden x)) (nval (onum y)) (nval (oden y)) →
   nurat_cmp x y = Ok (Fixnum (match Qcompare (rval x) (oval y) with Lt => -1 | Eq => 0 | Gt => 1 end))) ∧
  (∃ b, nurat_eqeq_p x y = Ok b ∧ (b = true ↔ Qeq (rval x) (oval y))).
Proof.
  intros Hx Hy. destruct (operand_ok_parts y Hy) as (Hyn & Hyd & Hyp & Hyg). pose proof Hx as [Hxn Hxd Hxp Hxg]. split.
  - intros Hs. unfold rval, oval. rewrite frac_compare by done. fold (comp (nval (rnum x) * nval (oden y)) (nval (onum y) * nval (rden x))).
    destruct y as [n|r]; cbn [nurat_cmp onum oden] in *; [|by apply rat_cmp_spec].
    rewrite f_one_spec by done. destruct (Z.eqb_spec (nval (rden x)) 1) as [E|]; [|by apply (rat_cmp_spec x (mkRat n ONE))].
    rewrite f_cmp_spec by done. rewrite E. change (nval ONE) with 1. by rewrite !Z.mul_1_r.
  - unfold rval, oval. setoid_rewrite frac_eq; [|done|done].
    destruct y as [n|r]; cbn [nurat_eqeq_p onum oden operand_ok] in *; rewrite !f_zero_spec by done.
    + change (nval ONE) with 1. destruct (Z.eqb_spec (nval (rnum x)) 0) as [E|], (Z.eqb_spec (nval n) 0) as [E'|]; cbn [andb].
      1: { exists true. split; [done|]. rewrite E, E'. split; lia. }
      all: assert (∀ d, nval (rden x) = d → (negb (d =? 1) = true → nval (rnum x) * 1 ≠ nval n * nval (rden x))) as Hd
        by (intros d <- Hd E1; apply negb_true_iff, Z.eqb_neq in Hd; apply Hd; rewrite Z.mul_1_r in E1;
            rewrite E1, Z.gcd_comm, Z.mul_comm, Z.gcd_mul_diag_l in Hxg by lia; lia).
      all: destruct (rden x) as [d|b] eqn:Ed; cbn [nval] in *;
        [|exists false; split; [done|]; split; [done|]; intros E1; exfalso; pose proof (canon_bignum b Hxd); apply (Hd _ eq_refl); [|done];
          apply negb_true_iff, Z.eqb_neq; lia].
      all: destruct (negb (d =? 1)) eqn:E1; [exists false; split; [done|]; split; [done|]; intros E2; by apply (Hd d eq_refl) in E2|].
      all: apply negb_false_iff, Z.eqb_eq in E1; subst d; rewrite f_eqeq_spec by done; eexists; (split; [done|]);
        rewrite Z.eqb_eq; lia.
    + destruct Hy as [_ _ _ Hgr]. destruct (Z.eqb_spec (nval (rnum x)) 0) as [E|], (Z.eqb_spec (nval (rnum r)) 0) as [E'|]; cbn [andb].
      1: { exists true. split; [done|]. rewrite E, E'. split; lia. }
      all: rewrite (f_eqeq_spec (rnum x) (rnum r)) by done; cbn [mbind res_bind]; destruct (Z.eqb_spec (nval (rnum x)) (nval (rnum r))) as [En|Hn];
        [exists (nval (rden x) =? nval (rden r)); (split; [by rewrite f_eqeq_spec by done|]); rewrite Z.eqb_eq; nia|exists false; (split; [done|]); split; [done|]; intros E1].
      all: exfalso; assert (x = r) as -> by (apply rat_unique; [done|by split|by apply frac_eq]); done.
Qed.

(** [floor] and [ceil] are those of [Q], [truncate] drops the fraction, and
    [round] goes to the nearest integer, ties away from zero. *)
Theorem rational_round_correct x :
  rat_ok x → small (nval (rnum x)) → small (nval (rden x)) →
  computes (nurat_floor x) (Qfloor (rval x)) ∧ computes (nurat_ceil x) (Qceiling (rval x)) ∧
  computes (nurat_truncate x) (Z.quot (nval (rnum x)) (nval (rden x))) ∧
  computes (nurat_round x)
    (Z.sgn (nval (rnum x)) * ((2 * Z.abs (nval (rnum x)) + nval (rden x)) / (2 * nval (rden x)))).
Proof.
  intros [Hn Hd Hp _] Hsn Hsd. set (n := nval (rnum x)) in *. set (d := nval (rden x)) in *.
  assert (Qfloor (rval x) = n / d) as -> by (unfold rval, frac, Qfloor; fold n d; by rewrite Z2Pos.id).
  assert (Qceiling (rval x) = - (- n / d)) as -> by (unfold rval, frac, Qceiling, Qfloor, Qopp; fold n d; cbn [Qnum Qden]; by rewrite Z2Pos.id).
  assert (computes (n ← f_negate (rnum x); q ← f_idiv n (rden x); f_negate q) (- (- n / d))) as Hneg.
  { eapply computes_bind; [by apply l_negate|]. intros a Ha Hva. cbn beta. eapply computes_bind; [apply f_idiv_spec; [done|done|lia]|].
    intros q Hq Hvq. cbn beta. eapply computes_eq; [by apply l_negate|]. rewrite Hvq, Hva. done. }
  assert (∀ v, small v → mul_safe v 2) as Htwo.
  { intros v Hv. split_and!; [done|unfold small; change (Z.abs 2) with 2; transitivity (2 ^ 2); [done|by apply SMALL_gt_pow2]|].
    unfold mul_wraps. destruct (FIT_SQRT_LONG v) eqn:E; [|done]. apply FIT_SQRT_spec in E. cbn [andb].
    apply andb_false_iff. right. apply negb_false_iff, FIXABLE_spec. lia. }
  split_and!.
  - apply f_idiv_spec; [done|done|]. fold d. lia.
  - exact Hneg.
  - unfold nurat_truncate. rewrite f_negative_spec by done. cbn [mbind res_bind]. fold n. destruct (Z.ltb_spec n 0).
    + eapply computes_eq; [exact Hneg|]. rewrite <- (Z.quot_div_nonneg (- n)) by lia. rewrite Z.quot_opp_l by lia. lia.
    + eapply computes_eq; [apply f_idiv_spec; [done|done|fold d; lia]|]. fold n d. by rewrite Z.quot_div_nonneg by lia.
  - unfold nurat_round. rewrite f_negative_spec by done. cbn [mbind res_bind]. fold n.
    assert (∃ a, (if n <? 0 then f_negate (rnum x) else Ok (rnum x)) = Ok a ∧ canon a ∧ nval a = Z.abs n) as (a & -> & Ha & Hva).
    { destruct (Z.ltb_spec n 0); [destruct (l_negate (rnum x) Hn) as (a & E & Hv & Hc); exists a; fold n in Hv; split_and!; [done|done|lia]|].
      exists (rnum x). fold n. split_and!; [done|done|lia]. }
    cbn [mbind res_bind].
    eapply computes_bind; [apply f_mul_spec; [done|apply canon_two|]; rewrite Hva; apply Htwo; unfold small in *; lia|].
    intros m Hm Hvm. cbn beta. eapply computes_bind; [by apply f_add_spec|]. intros s Hcs Hvs. cbn beta.
    eapply computes_bind; [apply f_mul_spec; [done|apply canon_two|by apply Htwo]|]. intros e He Hve. cbn beta.
    change (nval TWO) with 2 in *. fold d in Hve, Hvs.
    eapply computes_bind; [apply f_idiv_spec; [done|done|lia]|]. intros q Hq Hvq. cbn beta.
    rewrite Hvs, Hve, Hvm, Hva in Hvq. replace (Z.abs n * 2 + d) with (2 * Z.abs n + d) in Hvq by lia. rewrite (Z.mul_comm d 2) in Hvq.
    destruct (Z.ltb_spec n 0).
    + eapply computes_eq; [by apply l_negate|]. rewrite Z.sgn_neg, Hvq by lia. lia.
    + eapply computes_eq; [by apply computes_self|]. rewrite Hvq. destruct (decide (n = 0)) as [E|]; [|rewrite Z.sgn_pos by lia; lia].
      rewrite E. cbn [Z.abs Z.sgn Z.mul Z.add]. rewrite Z.div_small by lia. done.
Qed.

(** ** Powers *)

Lemma frac_power a b n : 0 < b → 0 ≤ n → Qpower (frac a b) n = frac (a ^ n) (b ^ n).
Proof.
  intros Hb Hn. destruct n as [|p|p]; [done| |lia]. cbn [Qpower]. unfold frac. rewrite Qpower_decomp_positive. f_equal.
  apply Pos2Z.inj. rewrite Pos2Z.inj_pow, !Z2Pos.id by (done || apply Z.pow_pos_nonneg; lia). done.
Qed.

Lemma frac_inv r a b : 0 < b → a ≠ 0 → Qeq (Qmult r (frac a b)) (frac 1 1) → Qeq r (Qinv (frac a b)).
Proof. intros Hb Ha E. rewrite <- (Qmult_1_l (Qinv _)). by apply (frac_div r 1 1 a b). Qed.

Lemma expt_spec x e : canon x → canon e → 0 ≤ nval e → ndigits x * nval e ≤ BIGLEN_LIMIT →
  ∃ w, m_expt x e = Ok (PInteger w) ∧ canon w ∧ nval w = nval x ^ nval e.
Proof.
  intros Hx He Hp Hl. destruct (l_expt x e Hx He Hp) as (p & -> & [(w & -> & Hw & Hc)|[_ ?]]); [by exists w|lia].
Qed.

(** [rat ** n] for an integer [n] within the limit of [Integer#**] is the power
    in lowest terms; zero to a negative power raises ZeroDivisionError. *)
Theorem rational_pow_correct x n :
  rat_ok x → canon (Fixnum n) → ndigits (rnum x) * Z.abs n ≤ BIGLEN_LIMIT → ndigits (rden x) * Z.abs n ≤ BIGLEN_LIMIT →
  (n < 0 → nval (rnum x) = 0 → nurat_expt x (Fixnum n) = Err (Raise ZeroDivisionError)) ∧
  (0 ≤ n ∨ nval (rnum x) ≠ 0 →
   returns (nurat_expt x (Fixnum n)) (λ p, ∃ r, p = RatPow r ∧ rat_ok r ∧ Qeq (rval r) (Qpower (rval x) n))).
Proof.
  intros [Hxn Hxd Hxp Hxg] Hn Hl1 Hl2. set (a := nval (rnum x)) in *. set (d := nval (rden x)) in *. unfold nurat_expt. cbn [f_zero_p].
  destruct (Z.eqb_spec n 0) as [->|Hnz].
  { split; [lia|]. intros _. apply returns_ret. eexists. split; [done|]. split; [|done].
    split; [apply canon_one|apply canon_one|done|done]. }
  destruct (l_negate (Fixnum n) Hn) as (e & Ee & Hve & Hce). cbn [nval] in Hve.
  unfold rat_expt_parts. rewrite f_cmp_spec by (done || apply canon_zero). cbn [mbind res_bind]. rewrite fix2int_comp. cbn [mbind res_bind].
  change (nval ZERO) with 0. cbn [nval]. destruct (comp_range n 0) as [[-> Hlt]|[[-> ?]|[-> Hgt]]]; [|lia|]; cbn [Z.eqb Pos.eqb].
  - unfold f_negate. rewrite Ee. cbn [mbind res_bind].
    destruct (expt_spec (rden x) e) as (w & -> & Hcw & Hvw); [done|done|lia|rewrite Hve; replace (- n) with (Z.abs n) by lia; done|].
    cbn [mbind res_bind].
    destruct (expt_spec (rnum x) e) as (v & -> & Hcv & Hvv); [done|done|lia|rewrite Hve; replace (- n) with (Z.abs n) by lia; done|].
    cbn [mbind res_bind]. fold a d in Hvw, Hvv. rewrite Hve in Hvw, Hvv. unfold f_rational_new2.
    pose proof (canonicalize_spec w v Hcw Hcv) as H. rewrite Hvv, Hvw in H. split.
    + intros _ Ha. rewrite decide_True in H; [by rewrite H|]. rewrite Ha. by apply Z.pow_0_l; lia.
    + intros [?|Ha]; [lia|]. assert (a ^ (- n) ≠ 0) as Hane by (apply Z.pow_nonzero; lia). rewrite decide_False in H by done.
      destruct H as (r & -> & Hr & Hv). cbn [mbind res_bind]. apply returns_ret. exists r. split_and!; [done|done|].
      assert (0 < d ^ (- n)) by (apply Z.pow_pos_nonneg; lia).
      unfold rval at 2. fold a d. destruct n as [|p|p]; [lia|lia|]. cbn [Qpower]. change (Z.neg p) with (- Z.pos p) in *.
      rewrite Z.opp_involutive in *. pose proof (frac_power a d (Z.pos p) Hxp ltac:(lia)) as Ep. cbn [Qpower] in Ep. rewrite Ep.
      destruct Hr as [_ _ Hp _]. apply frac_inv; [done|done|]. unfold rval. rewrite frac_mult by done. apply frac_eq; nia.
  - destruct (expt_spec (rnum x) (Fixnum n)) as (w & -> & Hcw & Hvw); [done|done|cbn [nval]; lia|cbn [nval]; replace n with (Z.abs n) by lia; done|].
    cbn [mbind res_bind].
    destruct (expt_spec (rden x) (Fixnum n)) as (v & -> & Hcv & Hvv); [done|done|cbn [nval]; lia|cbn [nval]; replace n with (Z.abs n) by lia; done|].
    cbn [mbind res_bind]. fold a d in Hvw, Hvv. cbn [nval] in Hvw, Hvv. unfold f_rational_new2. split; [lia|]. intros _.
    assert (0 < d ^ n) by (apply Z.pow_pos_nonneg; lia).
    pose proof (canonicalize_spec w v Hcw Hcv) as H'. rewrite Hvv, Hvw, decide_False in H' by lia.
    destruct H' as (r & -> & Hr & Hv). cbn [mbind res_bind]. apply returns_ret. exists r. split_and!; [done|done|].
    unfold rval at 2. fold a d. rewrite frac_power by lia. by apply rat_ok_of.
Qed.
End theorems.

(** ** Witnesses *)


#[local] Existing Instance ex_junk.

(** 1/6, -3/10 and -(2^63 + 3) / 6. *)
Definition ex_r1 : rational := mkRat (Fixnum 1) (Fixnum 6).
Definition ex_r2 : rational := mkRat (Fixnum (-3)) (Fixnum 10).
Definition ex_r3 : rational := mkRat (Bignum (mkBig false [2 ^ 63 + 3])) (Fixnum 6).

Lemma ex_r1_ok : rat_ok ex_r1.
Proof. by split; [apply canon_fix|apply canon_fix|..]. Qed.
Lemma ex_r2_ok : rat_ok ex_r2.
Proof. by split; [apply canon_fix|apply canon_fix|..]. Qed.
Lemma ex_r3_ok : rat_ok ex_r3.
Proof. split; [apply canonb_ok; vm_compute; reflexivity|by apply canon_fix|done|vm_compute; reflexivity]. Qed.

Lemma small_ex k v : 0 ≤ k < 2 ^ 35 → Z.abs v < 2 ^ k → small v.
Proof. intros Hk Hv. unfold small. eapply Z.lt_trans; [exact Hv|by apply SMALL_gt_pow2]. Qed.

Lemma rational_arith_correct_witness :
  returns (nurat_add ex_r1 (ORat ex_r2)) (λ r, rat_ok r ∧ Qeq (rval r) (Qplus (Qmake 1 6) (Qmake (-3) 10))) ∧
  returns (nurat_mul ex_r3 (ORat ex_r2)) (λ r, rat_ok r ∧ Qeq (rval r) (Qmult (rval ex_r3) (Qmake (-3) 10))) ∧
  returns (nurat_div ex_r1 (ORat ex_r2)) (λ r, rat_ok r ∧ Qeq (rval r) (Qdiv (Qmake 1 6) (Qmake (-3) 10))) ∧
  nurat_div ex_r1 (OInt (Fixnum 0)) = Err (Raise ZeroDivisionError).
Proof.
  destruct (rational_arith_correct ex_r1 (ORat ex_r2) ex_r1_ok ex_r2_ok) as (Ha & _ & _ & _ & Hd).
  split; [|split; [|split]].
  - apply Ha. split_and!; [apply (small_ex 10); done..|vm_compute; reflexivity|left].
    repeat (apply Forall_cons; split; [by vm_compute|]). by apply Forall_nil.
  - destruct (rational_arith_correct ex_r3 (ORat ex_r2) ex_r3_ok ex_r2_ok) as (_ & _ & H & _). apply H.
    split_and!; [apply (small_ex 70); [done|by vm_compute]..|right]. split; vm_compute; reflexivity.
  - apply Hd; [done|]. split_and!; [apply (small_ex 10); done..|left].
    repeat (apply Forall_cons; split; [by vm_compute|]). by apply Forall_nil.
  - destruct (rational_arith_correct ex_r1 (OInt (Fixnum 0)) ex_r1_ok) as (_ & _ & _ & H & _); [by apply canon_fix|by apply H].
Defined.

Lemma rational_new_correct_witness :
  returns (nurat_s_new (Fixnum 10) (Some (Fixnum (-4)))) (λ r, rat_ok r ∧ nval (rnum r) * -4 = 10 * nval (rden r)) ∧
  computes (rb_gcd (Fixnum 10) (Fixnum (-4))) 2.
Proof.
  pose proof (rational_new_correct (Fixnum 10) (Fixnum (-4)) ltac:(by apply canon_fix) ltac:(by apply canon_fix)) as (_ & H1 & H2 & _).
  split; [by apply H1|exact H2].
Defined.

Lemma rational_cmp_correct_witness :
  nurat_cmp ex_r1 (ORat ex_r2) = Ok (Fixnum 1) ∧ nurat_cmp ex_r3 (OInt (Fixnum 0)) = Ok (Fixnum (-1)).
Proof.
  split.
  - destruct (rational_cmp_correct ex_r1 (ORat ex_r2) ex_r1_ok ex_r2_ok) as [H _]. rewrite H; [vm_compute; reflexivity|]. left.
    repeat (apply Forall_cons; split; [by vm_compute|]). by apply Forall_nil.
  - destruct (rational_cmp_correct ex_r3 (OInt (Fixnum 0)) ex_r3_ok ltac:(by apply canon_fix)) as [H _]. rewrite H; [vm_compute; reflexivity|].
    right. split; split_and!; try (apply (small_ex 70); [done|by vm_compute]); vm_compute; reflexivity.
Defined.

Lemma rational_round_correct_witness :
  computes (nurat_floor ex_r3) (Qfloor (rval ex_r3)) ∧ computes (nurat_round ex_r2) 0.
Proof.
  split.
  - destruct (rational_round_correct ex_r3 ex_r3_ok) as (H & _); [apply (small_ex 70); [done|by vm_compute]|by apply (small_ex 10)|exact H].
  - destruct (rational_round_correct ex_r2 ex_r2_ok) as (_ & _ & _ & H); [by apply (small_ex 10)|by apply (small_ex 10)|exact H].
Defined.

Lemma rational_pow_correct_witness :
  returns (nurat_expt ex_r2 (Fixnum (-3))) (λ p, ∃ r, p = RatPow r ∧ rat_ok r ∧ Qeq (rval r) (Qpower (Qmake (-3) 10) (-3))).
Proof.
  destruct (rational_pow_correct ex_r2 (-3) ex_r2_ok) as [_ H];
    [by apply canon_fix|vm_compute; discriminate|vm_compute; discriminate|apply H; by right].
Defined.

(** 1/2147483647 + 1/2147483629: the denominator, about 2^62, wraps. *)
Example rational_add_wraps :
  nurat_add (mkRat (Fixnum 1) (Fixnum 2147483647)) (ORat (mkRat (Fixnum 1) (Fixnum 2147483629))) =
  Ok (mkRat (Fixnum (-4294967276)) (Fixnum 42949672941)).
Proof. vm_compute. reflexivity. Qed.
