(* ===== verification/Random.v ===== *)
(** * random.c: the Mersenne Twister and Kernel#rand

    The state of the generator is the vector of 624 words of 32 bits (kept in
    [unsigned long]s of 64), the number of words [left] before the next
    regeneration, whether it was initialised, and the index of the [next] word. *)

From S2P Require Import Prelude Big Numeric.

Definition N : Z := 624.
Definition M : Z := 397.
Definition MATRIX_A : Z := 0x9908b0df.
Definition UMASK : Z := 0x80000000.
Definition LMASK : Z := 0x7fffffff.
Definition MASK32 : Z := 0xffffffff.

Definition MIXBITS (u v : Z) : Z := Z.lor (Z.land u UMASK) (Z.land v LMASK).
Definition TWIST (u v : Z) : Z :=
  Z.lxor (Z.shiftr (MIXBITS u v) 1) (if Z.land v 1 =? 0 then 0 else MATRIX_A).

Record mt := mkMt { state : list Z; left : Z; initf : bool; next : Z }.

(** The static variables before the first call. *)
Definition mt_start : mt := mkMt (replicate 624 0) 1 false 0.

(** ** Seeding *)

(** [state[j] = (1812433253UL * (state[j-1] ^ (state[j-1] >> 30)) + j) & 0xffffffff] *)
Definition init_step (j : Z) (st : list Z) : res (list Z) :=
  p ← aload st (j - 1);
  astore st j (Z.land (u64 (1812433253 * Z.lxor p (Z.shiftr p 30) + j)) MASK32).

Definition init_genrand (s : Z) (g : mt) : res mt :=
  st ← astore (state g) 0 (Z.land s MASK32);
  st ← for_range 1 N init_step st;
  Ok (mkMt st 1 true (next g)).

(** [if (i>=N) { state[0] = state[N-1]; i=1; }] *)
Definition wrap_index (st : list Z) (i : Z) : res (list Z * Z) :=
  if N <=? i then x ← aload st (N - 1); st ← astore st 0 x; Ok (st, 1) else Ok (st, i).

Definition key_step (init_key : list Z) (key_length : Z) (_ : Z) (s : list Z * Z * Z) : res (list Z * Z * Z) :=
  let '(st, i, j) := s in
  x ← aload st i;
  p ← aload st (i - 1);
  k ← aload init_key j;
  let v := u64 (Z.lxor x (u64 (Z.lxor p (Z.shiftr p 30) * 1664525)) + k + j) in
  st ← astore st i (Z.land v MASK32);
  '(st, i) ← wrap_index st (i + 1);
  let j := j + 1 in
  Ok (st, i, if key_length <=? j then 0 else j).

Definition mix_step (_ : Z) (s : list Z * Z) : res (list Z * Z) :=
  let '(st, i) := s in
  x ← aload st i;
  p ← aload st (i - 1);
  let v := u64 (Z.lxor x (u64 (Z.lxor p (Z.shiftr p 30) * 1566083941)) - i) in
  st ← astore st i (Z.land v MASK32);
  wrap_index st (i + 1).

Definition init_by_array (init_key : list Z) (key_length : Z) (g : mt) : res mt :=
  g ← init_genrand 19650218 g;
  '(st, i, _) ← for_range 0 (Z.max N key_length) (key_step init_key key_length) (state g, 1, 0);
  '(st, _) ← for_range 0 (N - 1) mix_step (st, i);
  st ← astore st 0 UMASK;
  Ok (mkMt st 1 true (next g)).

(** ** Generation *)

(** [*p = p[o] ^ TWIST(p[0], p[1])] *)
Definition twist_step (o : Z) (p : Z) (st : list Z) : res (list Z) :=
  a ← aload st (p + o);
  u ← aload st p;
  v ← aload st (p + 1);
  astore st p (Z.lxor a (TWIST u v)).

Definition next_state (g : mt) : res mt :=
  g ← (if initf g then Ok g else init_genrand 5489 g);
  st ← for_range 0 (N - M) (twist_step M) (state g);
  st ← for_range (N - M) (N - 1) (twist_step (M - N)) st;
  a ← aload st (N - 1 + (M - N));
  u ← aload st (N - 1);
  v ← aload st 0;
  st ← astore st (N - 1) (Z.lxor a (TWIST u v));
  Ok (mkMt st N (initf g) 0).

Definition temper (y : Z) : Z :=
  let y := Z.lxor y (Z.shiftr y 11) in
  let y := Z.lxor y (Z.land (u64 (Z.shiftl y 7)) 0x9d2c5680) in
  let y := Z.lxor y (Z.land (u64 (Z.shiftl y 15)) 0xefc60000) in
  Z.lxor y (Z.shiftr y 18).

Definition genrand_int32 (g : mt) : res (Z * mt) :=
  let g := mkMt (state g) (left g - 1) (initf g) (next g) in
  g ← (if left g =? 0 then next_state g else Ok g);
  y ← aload (state g) (next g);
  Ok (temper y, mkMt (state g) (left g) (initf g) (next g + 1)).

(** ** Bounded numbers *)

Definition make_mask (x : Z) : Z :=
  let x := Z.lor x (Z.shiftr x 1) in
  let x := Z.lor x (Z.shiftr x 2) in
  let x := Z.lor x (Z.shiftr x 4) in
  let x := Z.lor x (Z.shiftr x 8) in
  let x := Z.lor x (Z.shiftr x 16) in
  Z.lor x (Z.shiftr x 32).

(** One attempt: the two halves of the candidate, the upper one first; [None] is
    [goto retry]. *)
Fixpoint limited_try (i : nat) (limit mask val : Z) (g : mt) : res (option Z * mt) :=
  match i with
  | O => Ok (Some val, g)
  | S i' =>
      let sh := Z.of_nat i' * 32 in
      if Z.shiftr mask sh =? 0 then limited_try i' limit mask val g else
      '(r, g) ← genrand_int32 g;
      let val := Z.land (Z.lor val (u64 (Z.shiftl r sh))) mask in
      if limit <? val then Ok (None, g) else limited_try i' limit mask val g
  end.

(** [retry:], a bounded number of times. *)
Fixpoint limited_rand (fuel : nat) (limit : Z) (g : mt) : res (Z * mt) :=
  match fuel with
  | O => Err NoFuel
  | S fuel' =>
      '(o, g) ← limited_try 2 limit (make_mask limit) 0 g;
      match o with
      | Some val => Ok (val, g)
      | None => limited_rand fuel' limit g
      end
  end.

(** [limited_big_rand], one attempt over the 32-bit words from the top.  The macros
    [BIG_GET32] and [BIG_SET32] index the digit array with the number of the word. *)
Fixpoint limited_big_try (i : nat) (limit val : list Z) (mask : Z) (boundary : bool) (g : mt)
    : res (option (list Z) * mt) :=
  match i with
  | O => Ok (Some val, g)
  | S i' =>
      lim ← aload limit (Z.of_nat i');
      let mask := if mask =? 0 then make_mask lim else MASK32 in
      if mask =? 0 then
        val ← astore val (Z.of_nat i') 0;
        limited_big_try i' limit val mask boundary g
      else
        '(r, g) ← genrand_int32 g;
        let rnd := Z.land r mask in
        if boundary && (lim <? rnd) then Ok (None, g) else
        let boundary := boundary && negb (rnd <? lim) in
        val ← astore val (Z.of_nat i') rnd;
        limited_big_try i' limit val mask boundary g
  end.

Fixpoint limited_big_rand (fuel : nat) (limit : big) (g : mt) : res (num * mt) :=
  match fuel with
  | O => Err NoFuel
  | S fuel' =>
      let len := (RBIGNUM_LEN limit * 8 + 3) / 4 in
      '(o, g) ← limited_big_try (Z.to_nat len) (digits limit) (digits limit) 0 true g;
      match o with
      | Some ds => n ← bignorm (mkBig true ds); Ok (n, g)
      | None => limited_big_rand fuel' limit g
      end
  end.

(** ** Seeds *)

(** The key of a seed: for a fixnum the 62 bits above its tag, which for a negative one are not sign-extended; for a bignum, digit [i] goes
    to word [2 * i]. *)
Definition seed_key (seed : num) : res (list Z) :=
  match seed with
  | Fixnum n => Ok [Z.land (FIX2ULONG (INT2FIX n)) MASK32; Z.shiftr (FIX2ULONG (INT2FIX n)) 32]
  | Bignum b =>
      let len := if RBIGNUM_LEN b =? 0 then 1 else (RBIGNUM_LEN b * 8 + 3) / 4 in
      for_down (RBIGNUM_LEN b - 1) 0 (λ i buf,
        let j := i * 8 / 4 in
        w ← aload buf j;
        d ← aload (digits b) i;
        astore buf j (Z.lor w d)) (replicate (Z.to_nat len) 0)
  end.

(** [while (1 < len && buf[len-1] == 0) len--;] *)
Fixpoint key_len (len : nat) (buf : list Z) : res nat :=
  match len with
  | S (S len' as len1) => w ← aload buf (Z.of_nat len1); if w =? 0 then key_len len1 buf else Ok len
  | _ => Ok len
  end.

Definition rand_init (seed : num) (g : mt) : res mt :=
  buf ← seed_key seed;
  len ← key_len (length buf) buf;
  if (len <=? 1)%nat then
    w ← aload buf 0; init_genrand w g
  else
    w ← aload buf (Z.of_nat len - 1);
    init_by_array buf (if w =? 1 then Z.of_nat len - 1 else Z.of_nat len) g.

(** ** Kernel#rand and Kernel#srand, for integer arguments *)

(** A floating-point result is its numerator over 2^53. *)
Inductive rand_result := RReal (numerator : Z) | RInteger (n : num).

(** [a*67108864.0+b], an integer below 2^53. *)
Definition genrand_real (g : mt) : res (Z * mt) :=
  '(a, g) ← genrand_int32 g;
  '(b, g) ← genrand_int32 g;
  Ok (Z.shiftr a 5 * 67108864 + Z.shiftr b 6, g).

Section rand.
Context `{J : Junk}.

Definition rb_f_rand (fuel : nat) (vmax : option num) (g : mt) : res (rand_result * mt) :=
  let real g := '(x, g) ← genrand_real g; Ok (RReal x, g) in
  match vmax with
  | None => real g
  | Some (Fixnum max) =>
      if max =? 0 then real g else
      let max := if max <? 0 then - max else max in
      '(val, g) ← limited_rand fuel (max - 1) g;
      n ← rb_int2inum val;
      Ok (RInteger n, g)
  | Some (Bignum b) =>
      limit ← rb_big_minus (set_sign true b) (Fixnum 1);
      match limit with
      | Fixnum l =>
          if l =? -1 then real g else
          '(val, g) ← limited_rand fuel l g;
          n ← rb_int2inum val;
          Ok (RInteger n, g)
      | Bignum l => '(n, g) ← limited_big_rand fuel l g; Ok (RInteger n, g)
      end
  end.
End rand.
