(* ===== verification/RandomThm.v ===== *)
(** * random.c: the generator and its bounded numbers, proved

    The Mersenne Twister is defined by a linear recurrence on words; the code
    keeps 624 of them and regenerates them in place.  [mt_x s i] is word [i] of
    the sequence that starts with the vector [s]. *)

From S2P Require Import Prelude Big BigVal BigAdd BigThm Numeric Random.

(** ** Words of 32 bits *)

Lemma bits_range n z : 0 ≤ n → 0 ≤ z → (∀ i, n ≤ i → Z.testbit z i = false) → z < 2 ^ n.
Proof.
  intros Hn Hz H. destruct (decide (z = 0)) as [->|]; [apply Z.pow_pos_nonneg; lia|]. apply Z.log2_lt_pow2; [lia|].
  destruct (decide (Z.log2 z < n)); [done|exfalso]. specialize (H (Z.log2 z) ltac:(lia)). rewrite Z.bit_log2 in H by lia. done.
Qed.

Lemma range_bits n z i : 0 ≤ z < 2 ^ n → n ≤ i → Z.testbit z i = false.
Proof. apply BigBits.testbit_high. Qed.

Definition w32 (x : Z) : Prop := 0 ≤ x < 2 ^ 32.

Lemma w32_lxor x y : w32 x → w32 y → w32 (Z.lxor x y).
Proof.
  intros Hx Hy. assert (0 ≤ Z.lxor x y) by (apply Z.lxor_nonneg; unfold w32 in *; lia). split; [done|].
  apply bits_range; [lia|done|]. intros i Hi. rewrite Z.lxor_spec, (range_bits 32 x), (range_bits 32 y); done.
Qed.

Lemma w32_land x y : 0 ≤ x → w32 y → w32 (Z.land x y).
Proof.
  intros Hx Hy. assert (0 ≤ Z.land x y) by (apply Z.land_nonneg; lia). split; [done|].
  apply bits_range; [lia|done|]. intros i Hi. rewrite Z.land_spec, (range_bits 32 y) by done. apply andb_false_r.
Qed.

Lemma w32_lor x y : w32 x → w32 y → w32 (Z.lor x y).
Proof.
  intros Hx Hy. assert (0 ≤ Z.lor x y) by (apply Z.lor_nonneg; unfold w32 in *; lia). split; [done|].
  apply bits_range; [lia|done|]. intros i Hi. rewrite Z.lor_spec, (range_bits 32 x), (range_bits 32 y); done.
Qed.

Lemma w32_shiftr x n : 0 ≤ n → w32 x → w32 (Z.shiftr x n).
Proof.
  intros Hn Hx. unfold w32 in *. rewrite Z.shiftr_div_pow2 by done. pose proof (Z.pow_pos_nonneg 2 n ltac:(lia) Hn).
  split; [apply Z.div_pos; lia|]. apply Z.div_lt_upper_bound; nia.
Qed.

Lemma w32_const c : (0 <=? c) && (c <? 2 ^ 32) = true → w32 c.
Proof. rewrite andb_true_iff, Z.leb_le, Z.ltb_lt. done. Qed.

Lemma u64_nonneg x : 0 ≤ u64 x.
Proof. apply Z.mod_pos_bound. done. Qed.

Lemma w32_TWIST u v : w32 u → w32 v → w32 (TWIST u v).
Proof.
  intros Hu Hv. unfold TWIST, MIXBITS. apply w32_lxor.
  - apply w32_shiftr; [done|]. apply w32_lor; apply w32_land; try (apply Hu || apply Hv); by apply w32_const.
  - destruct (Z.land v 1 =? 0); by apply w32_const.
Qed.

Lemma w32_temper y : w32 y → w32 (temper y).
Proof.
  intros Hy. unfold temper.
  assert (∀ x n c, w32 x → w32 c → w32 (Z.lxor x (Z.land (u64 (Z.shiftl x n)) c))) as Hl.
  { intros x n c Hx Hc. apply w32_lxor; [done|]. apply w32_land; [apply u64_nonneg|done]. }
  assert (∀ x n, 0 ≤ n → w32 x → w32 (Z.lxor x (Z.shiftr x n))) as Hr by (intros; apply w32_lxor; [done|by apply w32_shiftr]).
  apply Hr; [done|]. apply Hl; [|by apply w32_const]. apply Hl; [|by apply w32_const]. by apply Hr.
Qed.

(** ** The sequence of words *)

Definition mt_ext (l : list Z) : list Z :=
  let k := zlen l - N in l ++ [Z.lxor (dg l (k + M)) (TWIST (dg l k) (dg l (k + 1)))].

Definition mt_words (s : list Z) (n : nat) : list Z := Nat.iter n mt_ext s.
Definition mt_x (s : list Z) (i : Z) : Z := dg (mt_words s (Z.to_nat i)) i.

Lemma mt_words_len s n : zlen (mt_words s n) = zlen s + Z.of_nat n.
Proof.
  induction n as [|n IH]; [cbn; lia|]. change (mt_words s (S n)) with (mt_ext (mt_words s n)). unfold mt_ext.
  rewrite zlen_app, zlen_cons, zlen_nil, IH. lia.
Qed.

Lemma mt_stable s n m i : i < zlen s + Z.of_nat n → dg (mt_words s (n + m)) i = dg (mt_words s n) i.
Proof.
  intros Hi. induction m as [|m IH]; [by rewrite Nat.add_0_r|]. rewrite Nat.add_succ_r.
  change (mt_words s (S (n + m))) with (mt_ext (mt_words s (n + m))). unfold mt_ext. cbn zeta. rewrite dg_app.
  rewrite decide_True by (rewrite mt_words_len; lia). done.
Qed.

Section sequence.
Context (s : list Z).
Hypothesis Hs : zlen s = N.

Lemma mt_x_words n i : 0 ≤ i < N + Z.of_nat n → dg (mt_words s n) i = mt_x s i.
Proof.
  intros Hi. unfold mt_x. assert (0 < N) by done. destruct (decide (Z.to_nat i ≤ n)%nat) as [Hle|Hgt].
  - replace n with (Z.to_nat i + (n - Z.to_nat i))%nat by lia. apply mt_stable. lia.
  - replace (Z.to_nat i) with (n + (Z.to_nat i - n))%nat by lia. by rewrite mt_stable by lia.
Qed.

Lemma mt_x_init i : 0 ≤ i < N → mt_x s i = dg s i.
Proof. intros Hi. by rewrite <- (mt_x_words 0) by lia. Qed.

(** The recurrence of the generator. *)
Lemma mt_x_rec k : 0 ≤ k → mt_x s (k + N) = Z.lxor (mt_x s (k + M)) (TWIST (mt_x s k) (mt_x s (k + 1))).
Proof.
  intros Hk. assert (0 < M < N ∧ 1 < N) as HN by done. rewrite <- (mt_x_words (S (Z.to_nat k))) by lia.
  change (mt_words s (S (Z.to_nat k))) with (mt_ext (mt_words s (Z.to_nat k))). unfold mt_ext. cbn zeta.
  rewrite dg_app, mt_words_len, Hs, decide_False by lia. replace (k + N - (N + Z.of_nat (Z.to_nat k))) with 0 by lia.
  replace (N + Z.of_nat (Z.to_nat k) - N) with k by lia. rewrite !mt_x_words by lia. done.
Qed.

Lemma mt_x_w32 i : (∀ i, w32 (dg s i)) → 0 ≤ i → w32 (mt_x s i).
Proof.
  intros Hw Hi. assert (∀ n, 0 ≤ n → ∀ i, 0 ≤ i < N + n → w32 (mt_x s i)) as H; [|apply (H i); [done|split; [done|]; assert (0 < N) by done; lia]].
  apply (natlike_ind (λ n, ∀ i, 0 ≤ i < N + n → w32 (mt_x s i))).
  - intros j Hj. rewrite mt_x_init by lia. apply Hw.
  - intros n Hn IH j Hj. assert (0 < M < N ∧ 1 < N) as HN by done. destruct (decide (j < N + n)); [apply IH; lia|].
    replace j with (n + N) by lia. rewrite mt_x_rec by lia. apply w32_lxor; [apply IH; lia|]. apply w32_TWIST; apply IH; lia.
Qed.

(** ** Regeneration in place *)

(** The vector holds the words from [b] on. *)
Definition holds (b : Z) (st : list Z) : Prop := zlen st = N ∧ ∀ i, 0 ≤ i < N → dg st i = mt_x s (b + i).

(** The vector while it is being replaced: the words below [p] are new. *)
Definition mixed (b p : Z) (st : list Z) : Prop :=
  zlen st = N ∧ ∀ i, 0 ≤ i < N → dg st i = mt_x s (if decide (i < p) then b + N + i else b + i).

Lemma twist_store b p st a u v :
  0 ≤ b → 0 ≤ p < N → mixed b p st → a = mt_x s (b + p + M) → u = mt_x s (b + p) → v = mt_x s (b + p + 1) →
  mixed b (p + 1) (<[Z.to_nat p := Z.lxor a (TWIST u v)]> st).
Proof.
  intros Hb Hp [Hl Hv] -> -> ->. split; [by rewrite zlen_insert|]. intros i Hi. rewrite dg_insert by lia.
  destruct (decide (p = i)) as [<-|].
  - rewrite decide_True by lia. replace (b + N + p) with (b + p + N) by lia. by rewrite mt_x_rec by lia.
  - rewrite Hv by done. destruct (decide (i < p)); [by rewrite decide_True by lia|by rewrite decide_False by lia].
Qed.

Lemma twist_step_spec b o p st :
  0 ≤ b → 0 ≤ p < N - 1 → mixed b p st → (o = M ∧ p + M < N) ∨ (o = M - N ∧ N ≤ p + M) →
  returns (twist_step o p st) (mixed b (p + 1)).
Proof.
  intros Hb Hp Hm Ho. pose proof Hm as [Hl Hv]. assert (0 < M < N) as HN by done. unfold twist_step.
  rewrite !aload_dg by lia. cbn [mbind res_bind]. rewrite astore_ok by lia. apply returns_ret.
  apply twist_store; [done|lia|done|..].
  - rewrite Hv by lia. destruct Ho as [[-> Hlt]|[-> Hge]]; [rewrite decide_False by lia|rewrite decide_True by lia]; f_equal; lia.
  - rewrite Hv by lia. by rewrite decide_False by lia.
  - rewrite Hv by lia. rewrite decide_False by lia. f_equal. lia.
Qed.

Lemma next_state_spec g b :
  initf g = true → 0 ≤ b → holds b (state g) →
  ∃ st, next_state g = Ok (mkMt st N true 0) ∧ holds (b + N) st.
Proof.
  intros Hi Hb [Hl Hh]. assert (0 < M < N ∧ N - M + M = N) as HN by done. unfold next_state. rewrite Hi. cbn [mbind res_bind].
  assert (mixed b 0 (state g)) as Hm0. { split; [done|]. intros i Hi'. rewrite decide_False by lia. by apply Hh. }
  destruct (for_range_inv (mixed b) 0 (N - M) (twist_step M) (state g)) as (st1 & -> & Hm1); [lia|done| |].
  { intros p st Hp Hm. apply twist_step_spec; [done|lia|done|left; split; [done|lia]]. }
  cbn [mbind res_bind].
  destruct (for_range_inv (mixed b) (N - M) (N - 1) (twist_step (M - N)) st1) as (st2 & -> & Hm2); [lia|done| |].
  { intros p st Hp Hm. apply twist_step_spec; [done|lia|done|right; split; [done|lia]]. }
  cbn [mbind res_bind]. pose proof Hm2 as [Hl2 Hv2]. rewrite !aload_dg by lia. cbn [mbind res_bind]. rewrite astore_ok by lia.
  cbn [mbind res_bind]. eexists. split; [by rewrite Hi|].
  destruct (twist_store b (N - 1) st2 (dg st2 (N - 1 + (M - N))) (dg st2 (N - 1)) (dg st2 0)) as [Hl3 Hv3]; [done|lia|done|..].
  - rewrite Hv2, decide_True by lia. f_equal. lia.
  - rewrite Hv2, decide_False by lia. done.
  - rewrite Hv2, decide_True by lia. f_equal. lia.
  - split; [done|]. intros i Hi'. rewrite Hv3, decide_True by lia. done.
Qed.

(** ** The stream of outputs *)

(** The generator after [n] outputs. *)
Definition at_output (n : Z) (g : mt) : Prop :=
  initf g = true ∧ 1 ≤ left g ≤ N ∧ (left g ≠ 1 → next g = N + 1 - left g) ∧ 0 ≤ n + left g - 1 ∧
  holds (n + left g - 1) (state g).

Lemma genrand_int32_spec g n :
  0 ≤ n → at_output n g → ∃ g', genrand_int32 g = Ok (temper (mt_x s (N + n)), g') ∧ at_output (n + 1) g'.
Proof.
  intros Hn (Hi & Hl & Hnx & Hb & Hh). assert (1 < N) as HN by done. unfold genrand_int32. cbn [state left initf next].
  destruct (Z.eqb_spec (left g - 1) 0) as [E|].
  - assert (left g = 1) as E1 by lia. rewrite E1 in Hh. replace (n + 1 - 1) with n in Hh by lia.
    destruct (next_state_spec (mkMt (state g) (left g - 1) (initf g) (next g)) n) as (st & -> & [Hls Hst]); [done|done|done|].
    cbn [mbind res_bind state next left initf]. rewrite aload_dg by lia. cbn [mbind res_bind]. rewrite Hst by lia.
    replace (n + N + 0) with (N + n) by lia. eexists. split; [done|]. split_and!; cbn [initf left next state]; try done; try lia.
    replace (n + 1 + N - 1) with (n + N) by lia. by split.
  - cbn [mbind res_bind state next left initf]. rewrite Hnx by lia. destruct Hh as [Hls Hst]. rewrite aload_dg by lia. cbn [mbind res_bind].
    rewrite Hst by lia. replace (n + left g - 1 + (N + 1 - left g)) with (N + n) by lia. eexists. split; [done|].
    split_and!; cbn [initf left next state]; try done; try lia.
    replace (n + 1 + (left g - 1) - 1) with (n + left g - 1) by lia. by split.
Qed.
End sequence.

(** ** Seeding *)

Record seeded (g : mt) : Prop := {
  sd_init : initf g = true;
  sd_left : left g = 1;
  sd_len : zlen (state g) = N;
  sd_word : ∀ i, w32 (dg (state g) i)
}.

Lemma seeded_at g : seeded g → at_output (state g) 0 g.
Proof.
  intros [Hi Hl Hz Hw]. split_and!; rewrite ?Hl; try done. split; [done|]. intros i Hi'. rewrite mt_x_init by done. f_equal.
Qed.

Lemma w32_masked v : w32 (Z.land (u64 v) MASK32).
Proof. apply w32_land; [apply u64_nonneg|by apply w32_const]. Qed.

(** A vector whose first [k] words have 32 bits. *)
Definition words_below (k : Z) (st : list Z) : Prop := zlen st = N ∧ ∀ i, 0 ≤ i < k → w32 (dg st i).

Lemma words_store k st i v : words_below k st → 0 ≤ i < N → w32 v → words_below k (<[Z.to_nat i := v]> st).
Proof.
  intros [Hl Hw] Hi Hv. split; [by rewrite zlen_insert|]. intros j Hj. rewrite dg_insert by lia. case_decide; [done|by apply Hw].
Qed.

Lemma words_all st : words_below N st → ∀ i, w32 (dg st i).
Proof.
  intros [Hl Hw] i. destruct (decide (0 ≤ i < N)); [by apply Hw|]. rewrite dg_out by lia. by apply w32_const.
Qed.

Lemma init_genrand_spec s g :
  0 ≤ s → zlen (state g) = N → returns (init_genrand s g) seeded.
Proof.
  intros Hs Hl. assert (1 < N) as HN by done. unfold init_genrand. rewrite astore_ok by lia. cbn [mbind res_bind].
  eapply returns_bind_mono.
  - apply (for_range_inv words_below); [lia| |].
    + split; [by rewrite zlen_insert|]. intros i Hi. rewrite dg_insert by lia. rewrite decide_True by lia.
      apply w32_land; [done|by apply w32_const].
    + intros j st Hj [Hlst Hw]. unfold init_step. rewrite aload_dg by lia. cbn [mbind res_bind]. rewrite astore_ok by lia.
      apply returns_ret. split; [by rewrite zlen_insert|]. intros i Hi. rewrite dg_insert by lia.
      case_decide; [apply w32_masked|apply Hw; lia].
  - intros st Hst. apply returns_ret. split; [done|done|apply Hst|by apply words_all].
Qed.

(** The indices of the two passes over the key stay in the vector. *)
Lemma wrap_index_spec st i :
  words_below N st → 1 < i ≤ N → returns (wrap_index st i) (λ '(st', i'), words_below N st' ∧ 1 ≤ i' < N).
Proof.
  intros Hst Hi. assert (1 < N) as HN by done. unfold wrap_index. destruct (Z.leb_spec N i).
  - rewrite aload_dg by (rewrite (proj1 Hst); lia). cbn [mbind res_bind].
    rewrite astore_ok by (rewrite (proj1 Hst); lia). cbn [mbind res_bind]. apply returns_ret. split; [|lia].
    apply words_store; [done|lia|by apply words_all].
  - apply returns_ret. split; [done|lia].
Qed.

Lemma init_by_array_spec key n g :
  1 ≤ n ≤ zlen key → zlen (state g) = N → returns (init_by_array key n g) seeded.
Proof.
  intros Hn Hl. assert (1 < N) as HN by done. unfold init_by_array.
  eapply returns_bind_mono; [by apply init_genrand_spec|]. intros g1 [_ _ Hl1 Hw1].
  eapply returns_bind_mono.
  { apply (for_range_inv (λ _ '(st, i, j), words_below N st ∧ 1 ≤ i < N ∧ 0 ≤ j < n)); [lia| |].
    - split_and!; try lia. split; [done|]. intros i _. apply Hw1.
    - intros k [[st i] j] Hk (Hst & Hi & Hj). cbn [key_step]. rewrite !aload_dg by (rewrite ?(proj1 Hst); lia). cbn [mbind res_bind].
      rewrite astore_ok by (rewrite (proj1 Hst); lia). cbn [mbind res_bind]. eapply returns_bind_mono.
      + apply wrap_index_spec; [apply words_store; [done|lia|apply w32_masked]|lia].
      + intros [st' i'] [Hst' Hi']. apply returns_ret. split_and!; [done|lia|lia| |].
        * destruct (Z.leb_spec n (j + 1)); lia.
        * destruct (Z.leb_spec n (j + 1)); lia. }
  intros [[st i] j] (Hst & Hi & Hj). cbn [mbind res_bind]. eapply returns_bind_mono.
  { apply (for_range_inv (λ _ '(st, i), words_below N st ∧ 1 ≤ i < N)); [lia|done|].
    intros k [st' i'] Hk (Hst' & Hi'). cbn [mix_step]. rewrite !aload_dg by (rewrite ?(proj1 Hst'); lia). cbn [mbind res_bind].
    rewrite astore_ok by (rewrite (proj1 Hst'); lia). cbn [mbind res_bind].
    apply wrap_index_spec; [apply words_store; [done|lia|apply w32_masked]|lia]. }
  intros [st' i'] [Hst' _]. rewrite astore_ok by (rewrite (proj1 Hst'); lia). cbn [mbind res_bind]. apply returns_ret.
  assert (words_below N (<[Z.to_nat 0 := UMASK]> st')) as Hf by (apply words_store; [done|lia|by apply w32_const]).
  split; [done|done|apply Hf|by apply words_all].
Qed.

Lemma key_len_S n buf :
  key_len (S (S n)) buf = w ← aload buf (Z.of_nat (S n)); if w =? 0 then key_len (S n) buf else Ok (S (S n)).
Proof. done. Qed.

Lemma key_len_spec len buf :
  (1 ≤ len ≤ length buf)%nat → returns (key_len len buf) (λ n, (1 ≤ n ≤ len)%nat).
Proof.
  induction len as [|[|len] IH]; intros Hl; [lia|by apply returns_ret; lia|]. rewrite key_len_S.
  rewrite aload_dg by (unfold zlen; lia). cbn [mbind res_bind]. destruct (Z.eqb_spec (dg buf (Z.of_nat (S len))) 0).
  - eapply returns_mono; [apply IH; lia|]. intros n Hn. cbn beta in *. lia.
  - apply returns_ret. lia.
Qed.

Lemma FIX2ULONG_tag n : FIX2ULONG (INT2FIX n) = n mod 2 ^ 62.
Proof.
  unfold FIX2ULONG, INT2FIX, FIXNUM_FLAG. rewrite Z.shiftl_mul_pow2, lor_add by lia. unfold u64.
  change LONG_MAX with (Z.ones 63). rewrite Z.land_ones, Z.shiftr_div_pow2 by lia.
  pose proof (Z.div_mod n (2 ^ 62) ltac:(lia)). pose proof (Z.mod_pos_bound n (2 ^ 62) ltac:(lia)).
  assert ((n * 2 ^ 2 + 1) mod 2 ^ 64 = 4 * (n mod 2 ^ 62) + 1) as ->.
  { symmetry. apply Z.mod_unique_pos with (n / 2 ^ 62); lia. }
  replace ((4 * (n mod 2 ^ 62) + 1) / 2 ^ 2) with (n mod 2 ^ 62); [apply Z.mod_small; lia|]. apply Z.div_unique with 1; lia.
Qed.

Lemma seed_key_fixnum n : seed_key (Fixnum n) = Ok [n mod 2 ^ 62 mod 2 ^ 32; n mod 2 ^ 62 / 2 ^ 32].
Proof.
  cbn [seed_key]. rewrite FIX2ULONG_tag. change MASK32 with (Z.ones 32). by rewrite Z.land_ones, Z.shiftr_div_pow2 by lia.
Qed.

Lemma seed_key_spec seed :
  canon seed → returns (seed_key seed) (λ buf, (1 ≤ length buf)%nat ∧ ∀ i, 0 ≤ dg buf i).
Proof.
  intros Hs. destruct seed as [n|b].
  - rewrite seed_key_fixnum. apply returns_ret. split; [cbn; lia|]. intros i. rewrite !dg_cons.
    pose proof (Z.mod_pos_bound n (2 ^ 62) ltac:(lia)). pose proof (Z.mod_pos_bound (n mod 2 ^ 62) (2 ^ 32) ltac:(lia)).
    repeat case_decide; [lia|by apply Z.div_pos; lia|]. rewrite dg_out; [done|rewrite zlen_nil; lia].
  - cbn [seed_key]. destruct Hs as (Hok & _ & Hl & _). unfold RBIGNUM_LEN. rewrite (proj2 (Z.eqb_neq _ 0)) by lia.
    set (len := (zlen (digits b) * 8 + 3) / 4).
    assert (len = 2 * zlen (digits b)) as Elen by (symmetry; apply Z.div_unique with 3; lia).
    eapply returns_mono.
    + apply (for_down_inv (λ _ buf, zlen buf = len ∧ ∀ i, 0 ≤ dg buf i)); [lia| |].
      * split; [unfold zlen; rewrite length_replicate; lia|]. intros i. unfold dg, zlookup. destruct (0 <=? i); [|done].
        destruct (replicate (Z.to_nat len) 0 !! Z.to_nat i) eqn:E; [|done]. apply lookup_replicate in E as [-> _]. done.
      * intros k buf Hk [Hlb Hp]. replace (k * 8 / 4) with (2 * k) by (apply Z.div_unique with 0; lia).
        rewrite !aload_dg by lia. cbn [mbind res_bind].
        rewrite astore_ok by lia. apply returns_ret. split; [by rewrite zlen_insert|]. intros i. rewrite dg_insert by lia.
        case_decide; [|apply Hp]. apply Z.lor_nonneg. split; [apply Hp|apply Hok].
    + intros buf [Hlb Hp]. split; [unfold zlen in *; lia|done].
Qed.

Lemma rand_init_spec seed g :
  canon seed → zlen (state g) = N → returns (rand_init seed g) seeded.
Proof.
  intros Hs Hl. unfold rand_init. eapply returns_bind_mono; [by apply seed_key_spec|]. intros buf [Hlen Hp].
  eapply returns_bind_mono; [apply key_len_spec; lia|]. intros n Hn. cbn beta in Hn. destruct (Nat.leb_spec n 1).
  - rewrite aload_dg by (unfold zlen; lia). cbn [mbind res_bind]. apply init_genrand_spec; [apply Hp|done].
  - rewrite aload_dg by (unfold zlen; lia). cbn [mbind res_bind].
    apply init_by_array_spec; [|done]. unfold zlen. destruct (Z.eqb_spec (dg buf (Z.of_nat n - 1)) 1); lia.
Qed.

(** ** Masks *)

(** Bit [i] of [y] tells whether [x] has one of its [n] bits from [i] on. *)
Definition smeared (x n y : Z) : Prop :=
  ∀ i, 0 ≤ i → Z.testbit y i = true ↔ ∃ j, 0 ≤ j < n ∧ Z.testbit x (i + j) = true.

Lemma smear_step x n y : 0 < n → smeared x n y → smeared x (2 * n) (Z.lor y (Z.shiftr y n)).
Proof.
  intros Hn Hy i Hi. rewrite Z.lor_spec, orb_true_iff, Z.shiftr_spec, (Hy i), (Hy (i + n)) by lia. split.
  - intros [(j & Hj & Ht)|(j & Hj & Ht)]; [exists j; split; [lia|done]|].
    exists (n + j). split; [lia|]. by replace (i + (n + j)) with (i + n + j) by lia.
  - intros (j & Hj & Ht). destruct (decide (j < n)); [left; exists j; split; [lia|done]|].
    right. exists (j - n). split; [lia|]. by replace (i + n + (j - n)) with (i + j) by lia.
Qed.

Lemma smear_0 x : smeared x 1 x.
Proof.
  intros i Hi. split; [intros H; exists 0; by rewrite Z.add_0_r|]. intros (j & Hj & Ht). by replace (i + j) with i in Ht by lia.
Qed.

Lemma make_mask_smeared x : smeared x 64 (make_mask x).
Proof.
  unfold make_mask. apply (smear_step x 32), (smear_step x 16), (smear_step x 8), (smear_step x 4), (smear_step x 2), (smear_step x 1), smear_0; lia.
Qed.

Lemma make_mask_spec x : 0 < x < 2 ^ 64 → make_mask x = 2 ^ (Z.log2 x + 1) - 1.
Proof.
  intros Hx. replace (2 ^ (Z.log2 x + 1) - 1) with (Z.ones (Z.log2 x + 1)) by (rewrite Z.ones_equiv; lia).
  pose proof (Z.log2_nonneg x) as Hl. assert (Z.log2 x < 64) as Hl64 by (apply Z.log2_lt_pow2; lia).
  apply Z.bits_inj'. intros i Hi. apply eq_true_iff_eq. rewrite (make_mask_smeared x i Hi). split.
  - intros (j & Hj & Ht). apply Z.ones_spec_iff; [lia|]. split; [lia|].
    destruct (decide (i < Z.log2 x + 1)); [done|]. rewrite Z.bits_above_log2 in Ht by lia. done.
  - intros Ht%Z.ones_spec_iff; [|lia]. exists (Z.log2 x - i). split; [lia|].
    replace (i + (Z.log2 x - i)) with (Z.log2 x) by lia. apply Z.bit_log2. lia.
Qed.

Lemma make_mask_0 : make_mask 0 = 0.
Proof. done. Qed.

(** The mask covers the limit, and less than twice of it. *)
Lemma make_mask_bounds x : 0 ≤ x < 2 ^ 64 → x ≤ make_mask x ≤ 2 * x.
Proof.
  intros Hx. destruct (decide (x = 0)) as [->|]; [rewrite make_mask_0; lia|]. rewrite make_mask_spec by lia.
  destruct (Z.log2_spec x ltac:(lia)) as [H1 H2]. rewrite <- Z.add_1_r in H2. rewrite Z.pow_add_r in * by (pose proof (Z.log2_nonneg x); lia). lia.
Qed.

(** ** Bounded numbers *)

Section bounded.
Context (s : list Z).
Hypothesis Hs : zlen s = N.
Hypothesis Hw : ∀ i, w32 (dg s i).

Lemma limited_try_bounds i limit mask val n g :
  0 ≤ n → at_output s n g → 0 ≤ mask → 0 ≤ val ≤ limit →
  returns (limited_try i limit mask val g) (λ '(o, g'),
    (∃ n', n ≤ n' ∧ at_output s n' g') ∧ match o with Some v => 0 ≤ v ≤ limit | None => True end).
Proof.
  revert n g val. induction i as [|i IH]; intros n g val Hn Hg Hm Hv; cbn [limited_try].
  { apply returns_ret. split; [by exists n|done]. }
  destruct (Z.eqb_spec (Z.shiftr mask (Z.of_nat i * 32)) 0); [by apply IH|].
  destruct (genrand_int32_spec s Hs g n Hn Hg) as (g' & -> & Hg'). cbn [mbind res_bind].
  set (v := Z.land _ mask). assert (0 ≤ v) as Hv0 by (apply Z.land_nonneg; by right).
  destruct (Z.ltb_spec limit v).
  - apply returns_ret. split; [exists (n + 1); split; [lia|done]|done].
  - eapply returns_mono; [apply (IH (n + 1)); (done || lia)|]. intros [o g2] [(n' & Hn' & Hg2) Ho].
    split; [|done]. exists n'. split; [lia|done].
Qed.

(** What [limited_rand] returns, if it does within the given number of attempts. *)
Lemma limited_rand_bounds fuel limit n g :
  0 ≤ n → at_output s n g → 0 ≤ limit < 2 ^ 64 →
  match limited_rand fuel limit g with
  | Ok (v, g') => 0 ≤ v ≤ limit ∧ ∃ n', n ≤ n' ∧ at_output s n' g'
  | Err e => e = NoFuel
  end.
Proof.
  revert n g. induction fuel as [|fuel IH]; intros n g Hn Hg Hl; cbn [limited_rand]; [done|].
  pose proof (make_mask_bounds limit Hl).
  destruct (limited_try_bounds 2 limit (make_mask limit) 0 n g) as ([o g'] & -> & (n' & Hn' & Hg') & Ho); [done|done|lia|lia|].
  cbn [mbind res_bind]. destruct o as [v|]; [split; [done|by exists n']|].
  specialize (IH n' g' ltac:(lia) Hg' Hl). destruct (limited_rand fuel limit g') as [[v g2]|e]; [|done].
  destruct IH as [Hv (n2 & Hn2 & Hg2)]. split; [done|]. exists n2. split; [lia|done].
Qed.

(** The candidates for a limit of 32 bits. *)
Definition candidate (limit n : Z) : Z := Z.land (temper (mt_x s (N + n))) (make_mask limit).

Lemma mask32 limit : 0 < limit < 2 ^ 32 → 0 < make_mask limit < 2 ^ 32.
Proof.
  intros Hl. rewrite make_mask_spec by lia. assert (Z.log2 limit < 32) by (apply Z.log2_lt_pow2; lia). pose proof (Z.log2_nonneg limit).
  assert (2 ^ (Z.log2 limit + 1) ≤ 2 ^ 32) by (apply Z.pow_le_mono_r; lia).
  assert (2 ^ 1 ≤ 2 ^ (Z.log2 limit + 1)) by (apply Z.pow_le_mono_r; lia). lia.
Qed.

Lemma limited_try_32 limit n g :
  0 ≤ n → at_output s n g → 0 < limit < 2 ^ 32 →
  ∃ g', limited_try 2 limit (make_mask limit) 0 g =
      Ok (if limit <? candidate limit n then None else Some (candidate limit n), g') ∧ at_output s (n + 1) g'.
Proof.
  intros Hn Hg Hl. pose proof (mask32 limit Hl) as Hm. cbn [limited_try]. change (Z.of_nat 1 * 32) with 32. change (Z.of_nat 0 * 32) with 0.
  rewrite Z.shiftr_div_pow2, Z.div_small, Z.eqb_refl by lia. rewrite Z.shiftr_0_r, (proj2 (Z.eqb_neq _ 0)) by lia.
  destruct (genrand_int32_spec s Hs g n Hn Hg) as (g' & -> & Hg'). cbn [mbind res_bind]. exists g'. split; [|done].
  assert (w32 (temper (mt_x s (N + n)))) as Ht by (apply w32_temper, mt_x_w32; [done|done|assert (0 < N) by done; lia]).
  rewrite Z.shiftl_0_r, Z.lor_0_l, u64_small by (unfold w32 in Ht; lia). fold (candidate limit n).
  by destruct (limit <? candidate limit n).
Qed.

Lemma limited_rand_first fuel limit k n g :
  0 ≤ n → at_output s n g → 0 < limit < 2 ^ 32 → (k < fuel)%nat →
  (∀ i, (i < k)%nat → limit < candidate limit (n + Z.of_nat i)) → candidate limit (n + Z.of_nat k) ≤ limit →
  ∃ g', limited_rand fuel limit g = Ok (candidate limit (n + Z.of_nat k), g') ∧ at_output s (n + Z.of_nat k + 1) g'.
Proof.
  revert fuel n g. induction k as [|k IH]; intros fuel n g Hn Hg Hl Hf Hrej Hacc; (destruct fuel as [|fuel]; [lia|]); cbn [limited_rand];
    destruct (limited_try_32 limit n g Hn Hg Hl) as (g' & -> & Hg'); cbn [mbind res_bind].
  - rewrite Z.add_0_r in *. rewrite (proj2 (Z.ltb_ge _ _)) by done. by exists g'.
  - pose proof (Hrej 0%nat ltac:(lia)) as H0. rewrite Z.add_0_r in H0. rewrite (proj2 (Z.ltb_lt _ _)) by done.
    replace (n + Z.of_nat (S k)) with (n + 1 + Z.of_nat k) in * by lia. apply IH; try done; try lia.
    intros i Hi. replace (n + 1 + Z.of_nat i) with (n + Z.of_nat (S i)) by lia. apply Hrej. lia.
Qed.
End bounded.

(** ** Theorems *)

(** [n] successive outputs. *)
Fixpoint draws (n : nat) (g : mt) : res (list Z * mt) :=
  match n with
  | O => Ok ([], g)
  | S n' => '(y, g) ← genrand_int32 g; '(ys, g) ← draws n' g; Ok (y :: ys, g)
  end.

Lemma draws_spec s n k g :
  zlen s = N → 0 ≤ k → at_output s k g →
  ∃ g', draws n g = Ok ((λ i, temper (mt_x s (N + k + Z.of_nat i))) <$> seq 0 n, g') ∧ at_output s (k + Z.of_nat n) g'.
Proof.
  intros Hs. revert k g. induction n as [|n IH]; intros k g Hk Hg; cbn [draws].
  { exists g. rewrite Z.add_0_r. done. }
  destruct (genrand_int32_spec s Hs g k Hk Hg) as (g1 & -> & Hg1). cbn [mbind res_bind].
  destruct (IH (k + 1) g1 ltac:(lia) Hg1) as (g2 & -> & Hg2). cbn [mbind res_bind]. exists g2.
  split; [|by replace (k + Z.of_nat (S n)) with (k + 1 + Z.of_nat n) by lia]. do 2 f_equal. cbn [seq fmap list_fmap]. f_equal.
  - do 2 f_equal. lia.
  - rewrite <- fmap_S_seq, <- list_fmap_compose. apply list_fmap_ext. intros i j _. cbn. do 2 f_equal. lia.
Qed.

Lemma seeded_draws g n :
  seeded g → ∃ g', draws n g = Ok ((λ i, temper (mt_x (state g) (N + Z.of_nat i))) <$> seq 0 n, g').
Proof.
  intros Hg. destruct (draws_spec (state g) n 0 g (sd_len g Hg) ltac:(lia) (seeded_at g Hg)) as (g' & E & _).
  exists g'. by rewrite E, Z.add_0_r.
Qed.

(** C17: the key of a fixnum seed is the two halves of its 62 bits; seeding with any integer, fixnum or bignum, stays inside the key and the
    state vector and leaves a generator with words of 32 bits, ready to regenerate.
    From there the generator never reads outside its vector, and its outputs, over
    any number of in-place regenerations, are the tempered words of the sequence
    x(k+624) = x(k+397) xor TWIST(x(k), x(k+1)) that continues the vector; each of
    them has 32 bits. *)
Theorem genrand_stream seed g0 :
  canon seed → zlen (state g0) = N →
  (∀ n, seed = Fixnum n → seed_key seed = Ok [n mod 2 ^ 62 mod 2 ^ 32; n mod 2 ^ 62 / 2 ^ 32]) ∧
  returns (rand_init seed g0) (λ g,
    seeded g ∧
    (∀ n, ∃ g', draws n g = Ok ((λ i, temper (mt_x (state g) (N + Z.of_nat i))) <$> seq 0 n, g')) ∧
    (∀ i, 0 ≤ i → w32 (temper (mt_x (state g) (N + i)))) ∧
    (∀ i, 0 ≤ i < N → mt_x (state g) i = dg (state g) i) ∧
    (∀ k, 0 ≤ k → mt_x (state g) (k + N) =
       Z.lxor (mt_x (state g) (k + M)) (TWIST (mt_x (state g) k) (mt_x (state g) (k + 1))))).
Proof.
  intros Hc Hl0. split; [intros n ->; apply seed_key_fixnum|]. eapply returns_mono; [by apply rand_init_spec|]. intros g Hg. pose proof (sd_len g Hg) as Hl.
  split_and!; [done|intros n; by apply seeded_draws| | |].
  - intros i Hi. apply w32_temper, mt_x_w32; [done|apply Hg|assert (0 < N) by done; lia].
  - intros i Hi. by apply mt_x_init.
  - intros k Hk. by apply mt_x_rec.
Qed.

(** [limited_rand] returns a number between 0 and the limit, and fails only by
    rejecting all the candidates it is allowed; for a limit of up to 32 bits it
    returns the first masked output that does not exceed the limit, and the mask
    is at most twice the limit; [rand(max)] lies between 0 and |max| - 1. *)
Theorem limited_rand_correct `{J : Junk} g fuel limit max :
  seeded g → 0 < limit < 2 ^ 64 → canon (Fixnum max) → max ≠ 0 →
  match limited_rand fuel limit g with Ok (v, _) => 0 ≤ v ≤ limit | Err e => e = NoFuel end ∧
  limit ≤ make_mask limit ≤ 2 * limit ∧
  (∀ k, limit < 2 ^ 32 → (k < fuel)%nat →
     (∀ i, (i < k)%nat → limit < candidate (state g) limit (Z.of_nat i)) → candidate (state g) limit (Z.of_nat k) ≤ limit →
     ∃ g', limited_rand fuel limit g = Ok (candidate (state g) limit (Z.of_nat k), g')) ∧
  match rb_f_rand fuel (Some (Fixnum max)) g with
  | Ok (RInteger n, _) => 0 ≤ nval n < Z.abs max ∧ canon n
  | Ok (RReal _, _) => False
  | Err e => e = NoFuel
  end.
Proof.
  intros Hg Hl Hc Hmax. pose proof (sd_len g Hg) as Hz. pose proof (seeded_at g Hg) as Ha. split_and!.
  - pose proof (limited_rand_bounds (state g) Hz fuel limit 0 g ltac:(lia) Ha ltac:(lia)) as H.
    destruct (limited_rand fuel limit g) as [[v g']|e]; [apply H|done].
  - apply make_mask_bounds. lia.
  - apply make_mask_bounds. lia.
  - intros k H32 Hk Hrej Hacc.
    destruct (limited_rand_first (state g) Hz (sd_word g Hg) fuel limit k 0 g) as (g' & E & _); [done|done|lia|done|done|done|].
    by exists g'.
  - cbn [rb_f_rand]. rewrite (proj2 (Z.eqb_neq max 0)) by done.
    assert ((if max <? 0 then - max else max) = Z.abs max) as -> by (destruct (Z.ltb_spec max 0); lia).
    cbn [canon] in Hc. rewrite FIXNUM_MIN_val, FIXNUM_MAX_val in Hc.
    pose proof (limited_rand_bounds (state g) Hz fuel (Z.abs max - 1) 0 g ltac:(lia) Ha ltac:(lia)) as H.
    destruct (limited_rand fuel (Z.abs max - 1) g) as [[v g']|e]; [|done]. cbn [mbind res_bind]. destruct H as [Hv _].
    unfold rb_int2inum, FIXABLE, POSFIXABLE, NEGFIXABLE. rewrite FIXNUM_MIN_val, FIXNUM_MAX_val.
    rewrite (proj2 (Z.ltb_lt v _)), (proj2 (Z.leb_le _ v)) by lia. cbn. rewrite FIXNUM_MIN_val, FIXNUM_MAX_val. lia.
Qed.

(** ** Two defects on machines with 64-bit digits *)

(** [limited_big_rand] takes the digits for words of 32 bits: it starts beyond the
    end of the digit array. *)
Theorem limited_big_rand_faults fuel limit g :
  0 < zlen (digits limit) → limited_big_rand (S fuel) limit g = Err OutOfBounds.
Proof.
  intros Hl. cbn [limited_big_rand]. unfold RBIGNUM_LEN. set (n := zlen (digits limit)) in *.
  replace ((n * 8 + 3) / 4) with (2 * n) by (apply Z.div_unique with 3; lia).
  destruct (Z.to_nat (2 * n)) as [|i] eqn:E; [lia|]. cbn [limited_big_try]. unfold aload.
  assert (zlookup (digits limit) (Z.of_nat i) = None) as -> by (apply zlookup_None; fold n; lia). done.
Qed.

(** The upper halves of the digits of a seed do not reach the state: 2^104 + 7 * 2^64
    and 7 * 2^64 seed the same generator. *)
Theorem rand_init_collision :
  canon (Bignum (mkBig true [0; 2 ^ 40 + 7])) ∧ canon (Bignum (mkBig true [0; 7])) ∧
  rand_init (Bignum (mkBig true [0; 2 ^ 40 + 7])) mt_start = rand_init (Bignum (mkBig true [0; 7])) mt_start.
Proof. split_and!; [by apply canonb_ok..|]. vm_compute. reflexivity. Qed.

(** ** Witnesses *)

Lemma mt_start_len : zlen (state mt_start) = N.
Proof. by vm_compute. Qed.

(** The generator seeded with 5489, as when no seed was given. *)
Definition ex_mt : mt := match init_genrand 5489 mt_start with Ok g => g | Err _ => mt_start end.

Lemma ex_mt_seeded : seeded ex_mt.
Proof.
  destruct (init_genrand_spec 5489 mt_start ltac:(lia) mt_start_len) as (g & E & Hg). unfold ex_mt. by rewrite E.
Qed.

(** The first two outputs of the generator with the default seed. *)
Example first_outputs :
  (∃ g', draws 2 ex_mt = Ok ((λ i, temper (mt_x (state ex_mt) (N + Z.of_nat i))) <$> seq 0 2, g')) ∧
  (λ i, temper (mt_x (state ex_mt) (N + Z.of_nat i))) <$> seq 0 2 = [3499211612; 581869302].
Proof. split; [apply seeded_draws, ex_mt_seeded|by vm_compute]. Qed.

Lemma genrand_stream_witness : ∃ g, rand_init (Fixnum (-1234)) mt_start = Ok g ∧ seeded g ∧
  ∃ g', draws 3 g = Ok ((λ i, temper (mt_x (state g) (N + Z.of_nat i))) <$> seq 0 3, g').
Proof.
  destruct (genrand_stream (Fixnum (-1234)) mt_start) as (_ & g & E & Hg & Hd & _); [by apply canonb_ok|exact mt_start_len|].
  exists g. split; [exact E|]. split; [exact Hg|apply Hd].
Defined.

Lemma limited_rand_correct_witness :
  ∃ g', limited_rand 5 9 ex_mt = Ok (candidate (state ex_mt) 9 1, g') ∧ candidate (state ex_mt) 9 1 = 6.
Proof.
  destruct (limited_rand_correct (J := ex_junk) ex_mt 5 9 10 ex_mt_seeded) as (_ & _ & H & _);
    [lia|by apply canonb_ok|done|]. destruct (H 1%nat) as (g' & E).
  - lia.
  - lia.
  - intros i Hi. assert (i = 0)%nat as -> by lia. by vm_compute.
  - by vm_compute.
  - exists g'. split; [exact E|by vm_compute].
Defined.
