(* ===== verification/Marshal.v ===== *)
(** * marshal.c: reading and writing objects as bytes

    Objects live in a heap and refer to each other by location, so that shared
    and cyclic structures are what they are in the interpreter.  The writer
    keeps the table of the objects it has met ([arg->data]), the table of the
    symbols ([arg->symbols]) and its output; the reader keeps the inverse
    tables, the bytes that are left and the objects it has made.

    The [st] tables keyed by symbols and objects are finite maps, which is what
    the functions of st.c implement (file StThm); [num_entries] is the size.
    An [ID] is the name of the symbol ([rb_intern] and [rb_id2name] are inverse
    on names without NUL).  Classes are known by an identifier and a path; what
    the class system and CoreFoundation answer is the record [world]. *)

From S2P Require Import Prelude Util Big.

(** ** Objects *)

Notation bytes := (list Z) (only parsing).
Notation ID := (list Z) (only parsing).
Definition cid : Type := positive.
Notation loc := nat (only parsing).

(** The types of heap objects. *)
Inductive otype := T_STRING | T_REGEXP | T_ARRAY | T_HASH | T_BIGNUM | T_CLASS | T_MODULE | T_OBJECT | T_STRUCT | T_DATA.

#[global] Instance otype_eq_dec : EqDecision otype.
Proof. solve_decision. Defined.

Section objects.
Context {float : Type}.

(** A [VALUE]: immediates, symbols, and references to objects. *)
Inductive value :=
  | VNil | VTrue | VFalse
  | VFix (n : Z)
  | VFloat (f : float)
  | VSym (id : ID)
  | VRef (l : loc).

(** The class of a string, array, hash or regexp is [None] for the core class and
    [Some c] for a subclass; none of the objects has a singleton class, and none
    responds to [marshal_dump] or [_dump].  [OData] stands for the types that
    cannot be dumped. *)
Inductive obj :=
  | OString (k : option cid) (s : bytes)
  | ORegexp (k : option cid) (s : bytes) (options : Z)
  | OArray (k : option cid) (vs : list value)
  | OHash (k : option cid) (ps : list (value * value))
  | OBignum (b : big)
  | OClass (c : cid)
  | OModule (c : cid)
  | OObject (c : cid) (ivars : list (ID * value))
  | OStruct (c : cid) (members : list (ID * value))
  | OData.

Definition TYPE (o : obj) : otype :=
  match o with
  | OString _ _ => T_STRING | ORegexp _ _ _ => T_REGEXP | OArray _ _ => T_ARRAY | OHash _ _ => T_HASH
  | OBignum _ => T_BIGNUM | OClass _ => T_CLASS | OModule _ => T_MODULE | OObject _ _ => T_OBJECT
  | OStruct _ _ => T_STRUCT | OData => T_DATA
  end.
End objects.
Arguments value : clear implicits.
Arguments obj : clear implicits.

(** What marshal.c asks of the rest of the system. *)
Record world (float : Type) := {
  class_path : cid → bytes;                    (* rb_class_path, with the names of the core classes *)
  rb_path2class : bytes → option cid;          (* None: it raises ArgumentError *)
  is_module : cid → bool;                      (* T_MODULE, not T_CLASS *)
  core_class : otype → cid;                    (* the class of plain objects of the type *)
  rb_class_inherited_p : cid → cid → bool;
  alloc_type : cid → otype;                    (* TYPE(rb_obj_alloc(c)) *)
  struct_members : cid → list ID;
  reg_ok : bytes → Z → bool;                   (* rb_reg_new raises when the source does not compile *)
  CFEqual : list (obj float) → value float → value float → bool;   (* on keys of a dictionary *)
  float_text : float → bytes;                  (* the text w_float makes of a number *)
  text_float : bytes → float                   (* the number TYPE_FLOAT makes of a text *)
}.
Arguments class_path {float} w.
Arguments rb_path2class {float} w.
Arguments is_module {float} w.
Arguments core_class {float} w.
Arguments rb_class_inherited_p {float} w.
Arguments alloc_type {float} w.
Arguments struct_members {float} w.
Arguments reg_ok {float} w.
Arguments CFEqual {float} w.
Arguments float_text {float} w.
Arguments text_float {float} w.

Definition MARSHAL_MAJOR : Z := 4.
Definition MARSHAL_MINOR : Z := 8.

Definition TYPE_NIL : Z := 48.
Definition TYPE_TRUE : Z := 84.
Definition TYPE_FALSE : Z := 70.
Definition TYPE_FIXNUM : Z := 105.
Definition TYPE_EXTENDED_R : Z := 101.
Definition TYPE_UCLASS : Z := 67.
Definition TYPE_OBJECT : Z := 111.
Definition TYPE_DATA : Z := 100.
Definition TYPE_USERDEF : Z := 117.
Definition TYPE_USRMARSHAL : Z := 85.
Definition TYPE_FLOAT : Z := 102.
Definition TYPE_BIGNUM : Z := 108.
Definition TYPE_STRING : Z := 34.
Definition TYPE_REGEXP : Z := 47.
Definition TYPE_ARRAY : Z := 91.
Definition TYPE_HASH : Z := 123.
Definition TYPE_HASH_DEF : Z := 125.
Definition TYPE_STRUCT : Z := 83.
Definition TYPE_MODULE_OLD : Z := 77.
Definition TYPE_CLASS : Z := 99.
Definition TYPE_MODULE : Z := 109.
Definition TYPE_SYMBOL : Z := 58.
Definition TYPE_SYMLINK : Z := 59.
Definition TYPE_IVAR : Z := 73.
Definition TYPE_LINK : Z := 64.

Definition BUFSIZ : Z := 1024.

(** The characters before the first NUL. *)
Fixpoint strz (s : bytes) : bytes :=
  match s with [] => [] | c :: s' => if c =? 0 then [] else c :: strz s' end.

Section marshal.
Context `{J : Junk} {float : Type} (w : world float).
Notation value := (value float).
Notation obj := (obj float).

(** ** The writer *)

(** [struct dump_arg]: the buffer, what has gone to the port if there is one, the
    tables; and the heap, which grows when a large fixnum is boxed. *)
Record dump_arg := mkDump {
  str : bytes;
  dest : option bytes;
  symbols : gmap ID Z;
  data : gmap loc Z;
  heap : gmap loc obj
}.

Definition w_nbyte (s : bytes) (a : dump_arg) : dump_arg :=
  let buf := str a ++ s in
  match dest a with
  | Some out => if BUFSIZ <=? zlen buf
                then mkDump [] (Some (out ++ buf)) (symbols a) (data a) (heap a)
                else mkDump buf (dest a) (symbols a) (data a) (heap a)
  | None => mkDump buf None (symbols a) (data a) (heap a)
  end.

Definition w_byte (c : Z) (a : dump_arg) : dump_arg := w_nbyte [Z.land c 255] a.

Definition w_short (x : Z) (a : dump_arg) : dump_arg :=
  w_byte (Z.shiftr x 8) (w_byte x a).

(** The loop of [w_long]: the bytes of [x] from the lowest, until what is left is
    the sign; [buf] has room for eight. *)
Fixpoint long_bytes (n : nat) (i x : Z) : res (Z * bytes) :=
  match n with
  | O => Err OutOfBounds
  | S n' =>
      let b := Z.land x 255 in
      let x := Z.shiftr x 8 in
      if x =? 0 then Ok (i, [b])
      else if x =? -1 then Ok (- i, [b])
      else '(c, bs) ← long_bytes n' (i + 1) x; Ok (c, b :: bs)
  end.

Definition w_long (x : Z) (a : dump_arg) : res dump_arg :=
  if negb ((Z.shiftr x 31 =? 0) || (Z.shiftr x 31 =? -1)) then Err (Raise TypeError) else
  if x =? 0 then Ok (w_byte 0 a) else
  if (0 <? x) && (x <? 123) then Ok (w_byte (x + 5) a) else
  if (-124 <? x) && (x <? 0) then Ok (w_byte (x - 5) a) else
  '(c, bs) ← long_bytes 8 1 x;
  Ok (foldl (λ a b, w_byte b a) a (c :: bs)).

(** The length is passed as an [int]. *)
Definition w_bytes (s : bytes) (a : dump_arg) : res dump_arg :=
  if 2 ^ 31 <=? zlen s then Err Unmodelled else
  a ← w_long (zlen s) a; Ok (w_nbyte s a).

(** [CFStringGetLength]: the number of UTF-16 units of a text whose bytes are UTF-8. *)
Fixpoint RSTRING_LEN (s : bytes) : Z :=
  match s with
  | [] => 0
  | c :: s' => (if (128 <=? c) && (c <? 192) then 0 else if 240 <=? c then 2 else 1) + RSTRING_LEN s'
  end.

(** [w_bytes(RSTRING_PTR(str), RSTRING_LEN(str), arg)]: the pointer is to the bytes, the length is not their number. *)
Definition w_rstring (s : bytes) (a : dump_arg) : res dump_arg := w_bytes (take (Z.to_nat (RSTRING_LEN s)) s) a.

Definition w_float (f : float) (a : dump_arg) : res dump_arg := w_bytes (float_text w f) a.

Definition add_symbol (id : ID) (a : dump_arg) : dump_arg :=
  mkDump (str a) (dest a) (<[id := Z.of_nat (size (symbols a))]> (symbols a)) (data a) (heap a).

Definition add_data (l : loc) (a : dump_arg) : dump_arg :=
  mkDump (str a) (dest a) (symbols a) (<[l := Z.of_nat (size (data a))]> (data a)) (heap a).

Definition w_symbol (id : ID) (a : dump_arg) : res dump_arg :=
  match symbols a !! id with
  | Some num => w_long num (w_byte TYPE_SYMLINK a)
  | None => a ← w_bytes id (w_byte TYPE_SYMBOL a); Ok (add_symbol id a)
  end.

(** A name that starts with '#' is that of an anonymous class. *)
Definition w_unique (s : bytes) (a : dump_arg) : res dump_arg :=
  if bool_decide (head s = Some 35) then Err (Raise TypeError) else w_symbol s a.

Definition class2path (c : cid) : res bytes :=
  let n := class_path w c in
  if bool_decide (head n = Some 35) then Err (Raise TypeError) else
  match rb_path2class w n with
  | None => Err (Raise ArgumentError)
  | Some c' => if bool_decide (c' = c) then Ok n else Err (Raise TypeError)
  end.

Definition w_class (type : Z) (c : cid) (a : dump_arg) : res dump_arg :=
  let a := w_byte type a in
  p ← class2path c; w_unique p a.

(** [is_pure] is whether the object has the core class itself. *)
Definition w_uclass (k : option cid) (a : dump_arg) : res dump_arg :=
  match k with
  | None => Ok a
  | Some c => let a := w_byte TYPE_UCLASS a in p ← class2path c; w_unique p a
  end.

(** [shortlen]: the number of 16-bit words without the leading zeros. *)
Fixpoint count_shorts (n : nat) (num : Z) : Z :=
  match n with
  | O => 0
  | S n' => if num =? 0 then 0 else 1 + count_shorts n' (Z.shiftr num 16)
  end.

Definition shortlen (ds : list Z) : res Z :=
  num ← aload ds (zlen ds - 1);
  Ok ((zlen ds - 1) * 8 / 2 + count_shorts 4 num).

(** The words of a digit; of the last digit up to the last one that is not 0. *)
Fixpoint w_shorts (n : nat) (last : bool) (num : Z) (a : dump_arg) : dump_arg :=
  match n with
  | O => a
  | S n' =>
      let a := w_short (Z.land num 65535) a in
      let num := Z.shiftr num 16 in
      if last && (num =? 0) then a else w_shorts n' last num a
  end.

Fixpoint w_digits (ds : list Z) (a : dump_arg) : dump_arg :=
  match ds with
  | [] => a
  | d :: ds' => w_digits ds' (w_shorts 4 (match ds' with [] => true | _ => false end) d a)
  end.

Definition w_bignum (b : big) (a : dump_arg) : res dump_arg :=
  let a := w_byte TYPE_BIGNUM a in
  let a := w_byte (if sign b then 43 else 45) a in
  n ← shortlen (digits b);
  a ← w_long n a;
  Ok (w_digits (digits b) a).

(** [w_object] on each of a list of values, in order. *)
Fixpoint w_all {A} (f : A → dump_arg → res dump_arg) (xs : list A) (a : dump_arg) : res dump_arg :=
  match xs with
  | [] => Ok a
  | x :: xs' => a ← f x a; w_all f xs' a
  end.

Definition w_pair (wr : value → dump_arg → res dump_arg) (p : value * value) (a : dump_arg) : res dump_arg :=
  a ← wr (fst p) a; wr (snd p) a.

Definition w_member (wr : value → dump_arg → res dump_arg) (p : ID * value) (a : dump_arg) : res dump_arg :=
  a ← w_symbol (fst p) a; wr (snd p) a.

(** The contents of an object that is met for the first time; [wr] writes a value at
    the next level.  [w_uclass] of a regexp gets the class [rb_cRegexp] where it
    expects [is_pure], so that it writes nothing. *)
Definition w_contents (wr : value → dump_arg → res dump_arg) (o : obj) (a : dump_arg) : res dump_arg :=
  match o with
  | OClass c => p ← class2path c; w_rstring p (w_byte TYPE_CLASS a)
  | OModule c => p ← class2path c; w_rstring p (w_byte TYPE_MODULE a)
  | OBignum b => w_bignum b a
  | OString k s => a ← w_uclass k a; w_rstring s (w_byte TYPE_STRING a)
  | ORegexp k s options => a ← w_bytes s (w_byte TYPE_REGEXP a); Ok (w_byte options a)
  | OArray k vs => a ← w_uclass k a; a ← w_long (zlen vs) (w_byte TYPE_ARRAY a); w_all wr vs a
  | OHash k ps => a ← w_uclass k a; a ← w_long (zlen ps) (w_byte TYPE_HASH a); w_all (w_pair wr) ps a
  | OStruct c ms => a ← w_class TYPE_STRUCT c a; a ← w_long (zlen ms) a; w_all (w_member wr) ms a
  | OObject c ivs => a ← w_class TYPE_OBJECT c a; a ← w_long (zlen ivs) a; w_all (w_member wr) ivs a
  | OData => Err (Raise TypeError)
  end.

(** A tagged fixnum, as a signed word. *)
Definition INT2FIX (n : Z) : Z := 4 * n + 1.

Definition new_obj (o : obj) (a : dump_arg) : loc * dump_arg :=
  let l := base.fresh (dom (heap a)) in
  (l, mkDump (str a) (dest a) (symbols a) (data a) (<[l := o]> (heap a))).

Fixpoint w_object (fuel : nat) (limit : Z) (v : value) (a : dump_arg) : res dump_arg :=
  match fuel with
  | O => Err NoFuel
  | S fuel' =>
      if limit =? 0 then Err (Raise ArgumentError) else
      let limit := limit - 1 in
      match v with
      | VNil => Ok (w_byte TYPE_NIL a)
      | VTrue => Ok (w_byte TYPE_TRUE a)
      | VFalse => Ok (w_byte TYPE_FALSE a)
      | VFix n =>
          if (Z.shiftr (INT2FIX n) 31 =? 0) || (Z.shiftr (INT2FIX n) 31 =? -1)
          then w_long n (w_byte TYPE_FIXNUM a)
          else b ← rb_int2big n; let '(l, a) := new_obj (OBignum b) a in w_object fuel' limit (VRef l) a
      | VFloat f => w_float f (w_byte TYPE_FLOAT a)
      | VSym id => w_symbol id a
      | VRef l =>
          match data a !! l with
          | Some num => w_long num (w_byte TYPE_LINK a)
          | None =>
              o ← of_option BadPointer (heap a !! l);
              w_contents (w_object fuel' limit) o (add_data l a)
          end
      end
  end.

(** [Marshal.dump]: the bytes of the result, or those that went to the port. *)
Definition marshal_dump (fuel : nat) (h : gmap loc obj) (v : value) (port : bool) (limit : Z) : res bytes :=
  let a := mkDump [] (if port then Some [] else None) ∅ ∅ h in
  let a := w_byte MARSHAL_MINOR (w_byte MARSHAL_MAJOR a) in
  a ← w_object fuel limit v a;
  Ok (match dest a with Some out => out ++ str a | None => str a end).

(** ** The reader, from a string *)

Record load_arg := mkLoad {
  src : bytes;                 (* from [arg->offset] on *)
  lsymbols : gmap Z ID;
  ldata : gmap Z value;
  lheap : list obj
}.

Definition r_byte (a : load_arg) : res (Z * load_arg) :=
  match src a with
  | c :: s => Ok (c, mkLoad s (lsymbols a) (ldata a) (lheap a))
  | [] => Err (Raise ArgumentError)
  end.

Definition SIGN_EXTEND_CHAR (c : Z) : Z := if c <? 128 then c else c - 256.

(** The loops of [r_long], over the bytes [i] to [c - 1]. *)
Fixpoint r_long_pos (n : nat) (i x : Z) (a : load_arg) : res (Z * load_arg) :=
  match n with
  | O => Ok (x, a)
  | S n' => '(b, a) ← r_byte a; r_long_pos n' (i + 1) (Z.lor x (Z.shiftl b (8 * i))) a
  end.

Fixpoint r_long_neg (n : nat) (i x : Z) (a : load_arg) : res (Z * load_arg) :=
  match n with
  | O => Ok (x, a)
  | S n' =>
      '(b, a) ← r_byte a;
      let x := Z.land x (Z.lnot (Z.shiftl 255 (8 * i))) in
      r_long_neg n' (i + 1) (Z.lor x (Z.shiftl b (8 * i))) a
  end.

Definition r_long (a : load_arg) : res (Z * load_arg) :=
  '(b, a) ← r_byte a;
  let c := SIGN_EXTEND_CHAR b in
  if c =? 0 then Ok (0, a) else
  if 0 <? c then
    if (4 <? c) && (c <? 128) then Ok (c - 5, a) else
    if 8 <? c then Err (Raise TypeError) else r_long_pos (Z.to_nat c) 0 0 a
  else
    if (-129 <? c) && (c <? -4) then Ok (c + 5, a) else
    let c := - c in
    if 8 <? c then Err (Raise TypeError) else r_long_neg (Z.to_nat c) 0 (-1) a.

(** A negative length passes the test and goes to [memcpy]. *)
Definition r_bytes0 (len : Z) (a : load_arg) : res (bytes * load_arg) :=
  if len =? 0 then Ok ([], a) else
  if len <=? zlen (src a) then
    if len <? 0 then Err OutOfBounds
    else Ok (take (Z.to_nat len) (src a), mkLoad (drop (Z.to_nat len) (src a)) (lsymbols a) (ldata a) (lheap a))
  else Err (Raise ArgumentError).

Definition r_bytes (a : load_arg) : res (bytes * load_arg) :=
  '(len, a) ← r_long a; r_bytes0 len a.

Definition r_symlink (a : load_arg) : res (ID * load_arg) :=
  '(num, a) ← r_long a;
  match lsymbols a !! num with
  | Some id => Ok (id, a)
  | None => Err (Raise ArgumentError)
  end.

Definition r_symreal (a : load_arg) : res (ID * load_arg) :=
  '(s, a) ← r_bytes a;
  let id := strz s in
  Ok (id, mkLoad (src a) (<[Z.of_nat (size (lsymbols a)) := id]> (lsymbols a)) (ldata a) (lheap a)).

Definition r_symbol (a : load_arg) : res (ID * load_arg) :=
  '(type, a) ← r_byte a;
  if type =? TYPE_SYMBOL then r_symreal a
  else if type =? TYPE_SYMLINK then r_symlink a
  else Err (Raise ArgumentError).

Definition r_unique (a : load_arg) : res (bytes * load_arg) := r_symbol a.

Definition r_string (a : load_arg) : res (bytes * load_arg) :=
  '(s, a) ← r_bytes a; Ok (strz s, a).

Definition r_entry (v : value) (a : load_arg) : load_arg :=
  mkLoad (src a) (lsymbols a) (<[Z.of_nat (size (ldata a)) := v]> (ldata a)) (lheap a).

Definition path2class (p : bytes) : res cid :=
  match rb_path2class w p with
  | None => Err (Raise ArgumentError)
  | Some c => if is_module w c then Err (Raise ArgumentError) else Ok c
  end.

Definition path2module (p : bytes) : res cid :=
  match rb_path2class w p with
  | None => Err (Raise ArgumentError)
  | Some c => if is_module w c then Ok c else Err (Raise ArgumentError)
  end.

(** A new object, entered in the table of the links. *)
Definition new_entry (o : obj) (a : load_arg) : loc * load_arg :=
  let l := length (lheap a) in
  (l, r_entry (VRef l) (mkLoad (src a) (lsymbols a) (ldata a) (lheap a ++ [o]))).

Definition set_obj (l : loc) (o : obj) (a : load_arg) : load_arg :=
  mkLoad (src a) (lsymbols a) (ldata a) (<[l := o]> (lheap a)).

Definition get_obj (l : loc) (a : load_arg) : res obj := of_option BadPointer (lheap a !! l).

(** [rb_ary_push], [rb_hash_aset] and [rb_ivar_set]. *)
Definition rb_ary_push (l : loc) (v : value) (a : load_arg) : res load_arg :=
  o ← get_obj l a;
  match o with OArray k vs => Ok (set_obj l (OArray k (vs ++ [v])) a) | _ => Err BadPointer end.

Fixpoint assoc_set {K V} (eq : K → K → bool) (k : K) (v : V) (ps : list (K * V)) : list (K * V) :=
  match ps with
  | [] => [(k, v)]
  | (k', v') :: ps' => if eq k' k then (k', v) :: ps' else (k', v') :: assoc_set eq k v ps'
  end.

Definition rb_hash_aset (l : loc) (key v : value) (a : load_arg) : res load_arg :=
  o ← get_obj l a;
  match o with
  | OHash k ps => Ok (set_obj l (OHash k (assoc_set (CFEqual w (lheap a)) key v ps)) a)
  | _ => Err BadPointer
  end.

Definition rb_ivar_set (v : value) (id : ID) (x : value) (a : load_arg) : res load_arg :=
  match v with
  | VRef l =>
      o ← get_obj l a;
      match o with
      | OObject c ivs => Ok (set_obj l (OObject c (assoc_set (λ i j, bool_decide (i = j)) id x ivs)) a)
      | _ => Err Unmodelled
      end
  | _ => Err Unmodelled
  end.

(** [while (len--)]: a negative length does not end the loop. *)
Fixpoint r_loop {S} (fuel : nat) (len : Z) (body : S → load_arg → res (S * load_arg)) (s : S) (a : load_arg)
    : res (S * load_arg) :=
  match fuel with
  | O => Err NoFuel
  | S fuel' =>
      if len =? 0 then Ok (s, a) else
      '(s, a) ← body s a; r_loop fuel' (len - 1) body s a
  end.

(** The proc given to [load] is a function on values. *)
Definition r_leave (proc : option (value → value)) (v : value) : value :=
  match proc with Some f => f v | None => v end.

(** [LONG2FIX]: two bits are lost. *)
Definition LONG2FIX (i : Z) : Z := (i + 2 ^ 61) mod 2 ^ 62 - 2 ^ 61.

Definition klass_of (o : obj) : res cid :=
  match o with
  | OString k _ | OArray k _ | OHash k _ => Ok (default (core_class w (TYPE o)) k)
  | ORegexp k _ _ => Ok (default (core_class w T_REGEXP) k)
  | OStruct c _ => Ok c
  | _ => Err Unmodelled
  end.

Definition set_klass (c : cid) (o : obj) : res obj :=
  match o with
  | OString _ s => Ok (OString (Some c) s)
  | ORegexp _ s i => Ok (ORegexp (Some c) s i)
  | OArray _ vs => Ok (OArray (Some c) vs)
  | OHash _ ps => Ok (OHash (Some c) ps)
  | OStruct _ ms => Ok (OStruct c ms)
  | _ => Err Unmodelled
  end.

(** The part of [TYPE_UCLASS] after the object has been read. *)
Definition r_uclass (c : cid) (v : value) (a : load_arg) : res load_arg :=
  match v with
  | VRef l =>
      o ← get_obj l a;
      match o with
      | OObject _ _ | OClass _ => Err (Raise ArgumentError)
      | OModule _ => if bool_decide (alloc_type w c = T_MODULE) then Err Unmodelled else Err (Raise ArgumentError)
      | _ =>
          k ← klass_of o;
          if rb_class_inherited_p w c k || bool_decide (alloc_type w c = TYPE o)
          then o ← set_klass c o; Ok (set_obj l o a)
          else Err (Raise ArgumentError)
      end
  | VSym _ => Err Unmodelled
  | _ => Err (Raise ArgumentError)
  end.

(** [TYPE_BIGNUM]: the number of digits is rounded down, and assembling a digit
    shifts an [int] by up to 56. *)
Definition r_bignum (a : load_arg) : res (value * load_arg) :=
  '(s, a) ← r_byte a;
  '(len, a) ← r_long a;
  '(bs, a) ← r_bytes0 (len * 2) a;
  let n := (len + 1) * 2 / 8 in
  if 0 <? n then Err BadShift else
  b ← bignorm (mkBig (s =? 43) []);
  match b with
  | Fixnum i => let v := VFix i in Ok (v, r_entry v a)
  | Bignum b => Err Unmodelled
  end.

(** [r_object0], and the loops of its cases, whose bodies read values with [rd]. *)
Section bodies.
Variable rd : load_arg → res (value * load_arg).

Definition r_item (l : loc) (_ : unit) (a : load_arg) : res (unit * load_arg) :=
  '(v, a) ← rd a; a ← rb_ary_push l v a; Ok ((), a).

Definition r_pair (l : loc) (_ : unit) (a : load_arg) : res (unit * load_arg) :=
  '(key, a) ← rd a; '(v, a) ← rd a; a ← rb_hash_aset l key v a; Ok ((), a).

Definition r_ivar1 (v : value) (_ : unit) (a : load_arg) : res (unit * load_arg) :=
  '(id, a) ← r_symbol a; '(x, a) ← rd a; a ← rb_ivar_set v id x a; Ok ((), a).

Definition r_ivar (fuel : nat) (v : value) (a : load_arg) : res load_arg :=
  '(len, a) ← r_long a;
  if 0 <? len then '(_, a) ← r_loop fuel len (r_ivar1 v) () a; Ok a else Ok a.

(** One member of a struct, which must have the name the class has for it; the
    values are set when all have been read. *)
Definition r_member (mem : list ID) (vs : list value) (a : load_arg) : res (list value * load_arg) :=
  '(slot, a) ← r_symbol a;
  m ← of_option OutOfBounds (mem !! length vs);
  if bool_decide (m = slot)
  then '(v, a) ← rd a; Ok (vs ++ [v], a)
  else Err (Raise TypeError).

Definition r_struct (fuel : nat) (a : load_arg) : res (value * load_arg) :=
  '(p, a) ← r_unique a;
  c ← path2class p;
  '(len, a) ← r_long a;
  if negb (bool_decide (alloc_type w c = T_STRUCT)) then Err (Raise TypeError) else
  let mem := struct_members w c in
  if negb (zlen mem =? len) then Err (Raise TypeError) else
  let '(l, a) := new_entry (OStruct c ((λ m, (m, VNil)) <$> mem)) a in
  '(vs, a) ← r_loop fuel len (r_member mem) [] a;
  Ok (VRef l, set_obj l (OStruct c (zip mem vs)) a).

Definition r_object (fuel : nat) (a : load_arg) : res (value * load_arg) :=
  '(p, a) ← r_unique a;
  c ← path2class p;
  if negb (bool_decide (alloc_type w c = T_OBJECT)) then Err (Raise ArgumentError) else
  let '(l, a) := new_entry (OObject c []) a in
  a ← r_ivar fuel (VRef l) a;
  Ok (VRef l, a).

Definition r_array (fuel : nat) (a : load_arg) : res (value * load_arg) :=
  '(len, a) ← r_long a;
  if len <? 0 then Err (Raise ArgumentError) else
  let '(l, a) := new_entry (OArray None []) a in
  '(_, a) ← r_loop fuel len (r_item l) () a;
  Ok (VRef l, a).

Definition r_hash (fuel : nat) (a : load_arg) : res (value * load_arg) :=
  '(len, a) ← r_long a;
  let '(l, a) := new_entry (OHash None []) a in
  '(_, a) ← r_loop fuel len (r_pair l) () a;
  Ok (VRef l, a).
End bodies.

Definition leave (proc : option (value → value)) (m : res (value * load_arg)) : res (value * load_arg) :=
  '(v, a) ← m; Ok (r_leave proc v, a).

Definition entered (o : obj) (a : load_arg) : res (value * load_arg) :=
  let '(l, a) := new_entry o a in Ok (VRef l, a).

(** What follows the byte of the type; [rd] reads an object one level down. *)
Definition r_case (rd : load_arg → res (value * load_arg)) (fuel' : nat) (proc : option (value → value))
    (type : Z) (a : load_arg) : res (value * load_arg) :=
  if type =? TYPE_LINK then
    '(id, a) ← r_long a;
    match ldata a !! LONG2FIX id with
    | None | Some VNil => Err (Raise ArgumentError)
    | Some v => Ok (r_leave proc v, a)
    end
  else if type =? TYPE_IVAR then
    '(v, a) ← rd a; a ← r_ivar rd fuel' v a; Ok (v, a)
  else if type =? TYPE_UCLASS then
    '(p, a) ← r_unique a; c ← path2class p;
    '(v, a) ← rd a; a ← r_uclass c v a; Ok (v, a)
  else if type =? TYPE_NIL then Ok (r_leave proc VNil, a)
  else if type =? TYPE_TRUE then Ok (r_leave proc VTrue, a)
  else if type =? TYPE_FALSE then Ok (r_leave proc VFalse, a)
  else if type =? TYPE_FIXNUM then '(i, a) ← r_long a; Ok (r_leave proc (VFix (LONG2FIX i)), a)
  else if type =? TYPE_FLOAT then
    '(s, a) ← r_bytes a;
    let v := VFloat (text_float w (strz s)) in Ok (r_leave proc v, r_entry v a)
  else if type =? TYPE_BIGNUM then leave proc (r_bignum a)
  else if type =? TYPE_STRING then leave proc ('(s, a) ← r_string a; entered (OString None s) a)
  else if type =? TYPE_REGEXP then
    leave proc ('(s, a) ← r_bytes a; '(options, a) ← r_byte a;
                if reg_ok w (strz s) options then entered (ORegexp None (strz s) options) a
                else Err (Raise RegexpError))
  else if type =? TYPE_ARRAY then leave proc (r_array rd fuel' a)
  else if (type =? TYPE_HASH) || (type =? TYPE_HASH_DEF) then leave proc (r_hash rd fuel' a)
  else if type =? TYPE_STRUCT then leave proc (r_struct rd fuel' a)
  else if type =? TYPE_OBJECT then leave proc (r_object rd fuel' a)
  else if type =? TYPE_MODULE_OLD then
    leave proc ('(s, a) ← r_bytes a; c ← of_option (Raise ArgumentError) (rb_path2class w (strz s));
                entered (if is_module w c then OModule c else OClass c) a)
  else if type =? TYPE_CLASS then
    leave proc ('(s, a) ← r_bytes a; c ← path2class (strz s); entered (OClass c) a)
  else if type =? TYPE_MODULE then
    leave proc ('(s, a) ← r_bytes a; c ← path2module (strz s); entered (OModule c) a)
  else if type =? TYPE_SYMBOL then '(id, a) ← r_symreal a; Ok (r_leave proc (VSym id), a)
  else if type =? TYPE_SYMLINK then '(id, a) ← r_symlink a; Ok (VSym id, a)
  else if (type =? TYPE_EXTENDED_R) || (type =? TYPE_USERDEF) || (type =? TYPE_USRMARSHAL) || (type =? TYPE_DATA)
  then Err Unmodelled
  else Err (Raise ArgumentError).

Fixpoint r_object0 (fuel : nat) (proc : option (value → value)) (a : load_arg) : res (value * load_arg) :=
  match fuel with
  | O => Err NoFuel
  | S fuel' => '(type, a) ← r_byte a; r_case (r_object0 fuel' proc) fuel' proc type a
  end.

(** [Marshal.load]: the object and the heap it lives in. *)
Definition marshal_load (fuel : nat) (s : bytes) (proc : option (value → value)) : res (value * list obj) :=
  let a := mkLoad s ∅ ∅ [] in
  '(major, a) ← r_byte a;
  '(minor, a) ← r_byte a;
  if negb (major =? MARSHAL_MAJOR) || (MARSHAL_MINOR <? minor) then Err (Raise TypeError) else
  '(v, a) ← r_object0 fuel proc a;
  Ok (v, lheap a).
End marshal.
