(* ===== verification/MarshalRep.v ===== *)
(** What the writers of marshal.c write is read back: numbers, names and tables, then objects. *)

(** * marshal.c: numbers, names and tables, written and read back

    What each of the small writers appends to the output, and that the matching
    reader gives back the argument.  [out] is the output of the writer, whether
    it is still in the buffer or has gone to the port. *)

From S2P Require Import Prelude Util Big Marshal.

(** ** Bytes of a number *)

Definition byte (b : Z) : Prop := 0 ≤ b < 256.

(** The number whose bytes are given from the lowest. *)
Fixpoint le_val (bs : list Z) : Z := match bs with [] => 0 | b :: bs' => b + 256 * le_val bs' end.

Lemma byte_land x : byte (Z.land x 255).
Proof. unfold byte. change 255 with (Z.ones 8). rewrite Z.land_ones by lia. apply Z.mod_pos_bound. lia. Qed.

Lemma land_byte x : Z.land x 255 = x mod 256.
Proof. change 255 with (Z.ones 8). by rewrite Z.land_ones by lia. Qed.

Lemma byte_id x : byte x → Z.land x 255 = x.
Proof. intros Hx. rewrite land_byte. apply Z.mod_small. exact Hx. Qed.

Lemma le_val_bound bs : Forall byte bs → 0 ≤ le_val bs < 256 ^ zlen bs.
Proof.
  induction 1 as [|b bs Hb _ IH]; cbn [le_val]; [rewrite zlen_nil; lia|].
  rewrite zlen_cons, Z.pow_add_r by (pose proof (zlen_nonneg bs); lia). unfold byte in Hb. lia.
Qed.

Lemma long_bytes_spec n i x :
  (1 ≤ n)%nat → - 256 ^ Z.of_nat n ≤ x < 256 ^ Z.of_nat n →
  ∃ bs, long_bytes n i x = Ok (if 0 <=? x then i + zlen bs - 1 else - (i + zlen bs - 1), bs) ∧
    Forall byte bs ∧ (1 ≤ length bs ≤ n)%nat ∧ le_val bs = if 0 <=? x then x else x + 256 ^ zlen bs.
Proof.
  revert i x. induction n as [|n IH]; intros i x Hn Hx; [lia|]. cbn [long_bytes].
  rewrite Z.shiftr_div_pow2 by lia. change (2 ^ 8) with 256. rewrite land_byte.
  pose proof (Z.div_mod x 256 ltac:(lia)) as Hdm. pose proof (Z.mod_pos_bound x 256 ltac:(lia)) as Hm.
  set (q := x / 256) in *. set (m := x mod 256) in *.
  destruct (Z.eqb_spec q 0) as [Hq|Hq]; [|destruct (Z.eqb_spec q (-1)) as [Hq'|Hq']].
  - exists [m]. rewrite (proj2 (Z.leb_le 0 x)) by lia. unfold zlen. cbn. split_and!; [by replace (i + Z.of_nat 1 - 1) with i by lia|constructor; [exact Hm|constructor]|lia|lia|lia].
  - exists [m]. rewrite (proj2 (Z.leb_gt 0 x)) by lia. unfold zlen. cbn. split_and!; [by replace (i + Z.of_nat 1 - 1) with i by lia|constructor; [exact Hm|constructor]|lia|lia|lia].
  - rewrite Nat2Z.inj_succ, Z.pow_succ_r in Hx by lia. destruct n as [|n]; [change (256 ^ Z.of_nat 0) with 1 in Hx; lia|].
    destruct (IH (i + 1) q) as (bs & -> & Hbs & Hl & Hv); [lia|lia|]. cbn [mbind res_bind]. exists (m :: bs).
    assert ((0 <=? q) = (0 <=? x)) as Hs by (destruct (Z.leb_spec 0 q), (Z.leb_spec 0 x); (done || lia)). rewrite Hs in *.
    rewrite zlen_cons. cbn [length le_val]. split_and!; [|by constructor|lia|lia|].
    + do 2 f_equal. destruct (0 <=? x); lia.
    + rewrite Hv, Z.pow_add_r by (pose proof (zlen_nonneg bs); lia). change (256 ^ 1) with 256. destruct (0 <=? x); lia.
Qed.

Lemma long_bytes_mono n i x r : long_bytes n i x = Ok r → long_bytes (S n) i x = Ok r.
Proof.
  revert i x r. induction n as [|n IH]; intros i x r; [done|]. cbn [long_bytes]. cbn [long_bytes] in IH.
  destruct (Z.shiftr x 8 =? 0); [done|]. destruct (Z.shiftr x 8 =? -1); [done|].
  intros ([c bs] & E & E')%bind_ok. rewrite (IH _ _ _ E). exact E'.
Qed.

(** Clearing a byte of a number whose bits from there on are all set, and setting it. *)
Lemma set_byte i y b :
  0 ≤ i → 0 ≤ y < 256 ^ i → byte b →
  Z.lor (Z.land (y - 256 ^ i) (Z.lnot (Z.shiftl 255 (8 * i)))) (Z.shiftl b (8 * i)) = y + b * 256 ^ i - 256 ^ (i + 1).
Proof.
  intros Hi Hy Hb. assert (256 ^ i = 2 ^ (8 * i)) as E by (change 256 with (2 ^ 8); by rewrite <- Z.pow_mul_r by lia).
  set (s := 8 * i) in *. set (u := 2 ^ s - 1 - y).
  assert (y - 256 ^ i = Z.lnot u) as -> by (rewrite E; unfold u, Z.lnot; lia).
  rewrite <- Z.lnot_lor. rewrite <- (Z.lnot_involutive (Z.shiftl b s)), <- Z.lnot_land, <- Z.ldiff_land.
  assert (Z.lor u (Z.shiftl 255 s) = 255 * 2 ^ s + u) as -> by (rewrite Z.lor_comm, Z.shiftl_mul_pow2, lor_add by (unfold u; lia); lia).
  assert (Z.ldiff (255 * 2 ^ s + u) (Z.shiftl b s) = (255 - b) * 2 ^ s + u) as ->.
  - rewrite <- lor_add by (unfold u; lia). rewrite Z.ldiff_land, Z.land_lor_distr_l, <- !Z.ldiff_land.
    rewrite <- Z.shiftl_mul_pow2 by lia. rewrite <- Z.shiftl_ldiff.
    assert (Z.ldiff u (Z.shiftl b s) = u) as ->.
    + apply Z.bits_inj'. intros k Hk. rewrite Z.ldiff_spec. destruct (decide (k < s)).
      * rewrite Z.shiftl_spec_low by lia. by rewrite andb_true_r.
      * destruct (decide (u = 0)) as [->|]; [by rewrite Z.bits_0|].
        assert (2 ^ s ≤ 2 ^ k) by (apply Z.pow_le_mono_r; lia).
        assert (Z.log2 u < k) by (apply Z.log2_lt_pow2; unfold u in *; lia).
        by rewrite (Z.bits_above_log2 u) by (unfold u in *; lia).
    + assert (Z.ldiff 255 b = 255 - b) as ->.
      { rewrite Z.sub_nocarry_ldiff; [done|]. apply Z.bits_inj'. intros k Hk. rewrite Z.ldiff_spec, Z.bits_0.
        change 255 with (Z.ones 8). destruct (decide (k < 8)); [rewrite Z.ones_spec_low by lia; by rewrite andb_false_r|].
        destruct (decide (b = 0)) as [->|]; [by rewrite Z.bits_0|].
        rewrite (Z.bits_above_log2 b); [done|unfold byte in Hb; lia|]. apply Z.lt_le_trans with 8; [apply Z.log2_lt_pow2; unfold byte in Hb; lia|lia]. }
      by rewrite Z.shiftl_mul_pow2, lor_add by (unfold u; lia).
  - rewrite Z.pow_add_r, E by lia. unfold Z.lnot, u. lia.
Qed.

Section codecs.
Context `{J : Junk} {float : Type} (w : world float).
Notation value := (value float).
Notation obj := (obj float).
Notation dump_arg := (@dump_arg float).
Notation load_arg := (@load_arg float).

(** ** Output *)

Definition out (a : dump_arg) : list Z := default [] (dest a) ++ str a.

(** [a'] is [a] after writing [bs], with the tables as they were. *)
Record wrote (bs : list Z) (a a' : dump_arg) : Prop := {
  wrote_out : out a' = out a ++ bs;
  wrote_symbols : symbols a' = symbols a;
  wrote_data : data a' = data a;
  wrote_heap : heap a' = heap a;
  wrote_byte : Forall byte bs
}.

Lemma wrote_nil a : wrote [] a a.
Proof. split; [by rewrite app_nil_r|done..|constructor]. Qed.

Lemma wrote_app bs1 bs2 a1 a2 a3 : wrote bs1 a1 a2 → wrote bs2 a2 a3 → wrote (bs1 ++ bs2) a1 a3.
Proof.
  intros [H1 H2 H3 H4 H5] [G1 G2 G3 G4 G5]. split; [by rewrite G1, H1, app_assoc|congruence..|by apply Forall_app].
Qed.

Lemma w_nbyte_wrote s a : Forall byte s → wrote s a (w_nbyte s a).
Proof.
  intros Hs. unfold w_nbyte, out. destruct (dest a) as [o|] eqn:E; [destruct (_ <=? _)|]; split;
    try done; unfold out; cbn; rewrite E; cbn; by rewrite ?app_nil_r, ?app_assoc.
Qed.

Lemma w_byte_wrote c a : wrote [Z.land c 255] a (w_byte c a).
Proof. apply w_nbyte_wrote. constructor; [apply byte_land|constructor]. Qed.

Lemma w_byte_lit c a : byte c → wrote [c] a (w_byte c a).
Proof. intros Hc. rewrite <- (byte_id c Hc) at 1. apply w_byte_wrote. Qed.

Lemma w_foldl_wrote bs a : Forall byte bs → wrote bs a (foldl (λ a b, w_byte b a) a bs).
Proof.
  intros Hbs. revert a. induction Hbs as [|b bs Hb _ IH]; intros a; [apply wrote_nil|]. cbn [foldl].
  apply (wrote_app [b] bs _ (w_byte b a)); [by apply w_byte_lit|apply IH].
Qed.

(** ** Input *)

Definition with_src (s : list Z) (a : load_arg) : load_arg := mkLoad s (lsymbols a) (ldata a) (lheap a).

Lemma r_byte_cons b s a : r_byte (with_src (b :: s) a) = Ok (b, with_src s a).
Proof. done. Qed.

Lemma r_long_pos_spec bs i x s a :
  Forall byte bs → 0 ≤ i → 0 ≤ x < 256 ^ i →
  r_long_pos (length bs) i x (with_src (bs ++ s) a) = Ok (x + le_val bs * 256 ^ i, with_src s a).
Proof.
  intros Hbs. revert i x. induction Hbs as [|b bs Hb _ IH]; intros i x Hi Hx; cbn [length r_long_pos le_val app].
  { rewrite Z.mul_0_l, Z.add_0_r. done. }
  rewrite r_byte_cons. cbn [mbind res_bind].
  assert (Z.shiftl b (8 * i) = b * 256 ^ i) as ->.
  { rewrite Z.shiftl_mul_pow2 by lia. f_equal. change 256 with (2 ^ 8). by rewrite <- Z.pow_mul_r by lia. }
  assert (Z.lor x (b * 256 ^ i) = x + b * 256 ^ i) as ->.
  { assert (256 ^ i = 2 ^ (8 * i)) as E by (change 256 with (2 ^ 8); by rewrite <- Z.pow_mul_r by lia).
    rewrite Z.lor_comm, E, lor_add by lia. lia. }
  rewrite IH; [|lia|].
  - do 2 f_equal. rewrite Z.pow_add_r by lia. lia.
  - rewrite Z.pow_add_r by lia. unfold byte in Hb. nia.
Qed.

Lemma r_long_neg_spec bs i y s a :
  Forall byte bs → 0 ≤ i → 0 ≤ y < 256 ^ i →
  r_long_neg (length bs) i (y - 256 ^ i) (with_src (bs ++ s) a) =
    Ok (y + le_val bs * 256 ^ i - 256 ^ (i + zlen bs), with_src s a).
Proof.
  intros Hbs. revert i y. induction Hbs as [|b bs Hb _ IH]; intros i y Hi Hy; cbn [length r_long_neg le_val app].
  { rewrite zlen_nil, Z.mul_0_l, !Z.add_0_r. done. }
  rewrite r_byte_cons. cbn [mbind res_bind]. rewrite set_byte by done.
  rewrite IH; [|lia|].
  - do 2 f_equal. rewrite zlen_cons, !Z.add_assoc. rewrite (Z.pow_add_r 256 i 1) by lia. lia.
  - rewrite Z.pow_add_r by lia. unfold byte in Hb. nia.
Qed.

(** ** Integers *)

(** [bs] is what [w_long] writes for [x], and what [r_long] reads as [x]. *)
Definition long_code (x : Z) (bs : list Z) : Prop :=
  Forall byte bs ∧ (1 ≤ length bs)%nat ∧ ∀ s a, r_long (with_src (bs ++ s) a) = Ok (x, with_src s a).

Lemma fits31 x : (Z.shiftr x 31 =? 0) || (Z.shiftr x 31 =? -1) = true ↔ - 2 ^ 31 ≤ x < 2 ^ 31.
Proof.
  rewrite orb_true_iff, !Z.eqb_eq, Z.shiftr_div_pow2 by lia.
  pose proof (Z.div_mod x (2 ^ 31) ltac:(lia)). pose proof (Z.mod_pos_bound x (2 ^ 31) ltac:(lia)). lia.
Qed.

Lemma w_long_spec x a :
  - 2 ^ 31 ≤ x < 2 ^ 31 → ∃ bs a', w_long x a = Ok a' ∧ wrote bs a a' ∧ long_code x bs.
Proof.
  intros Hx. unfold w_long. rewrite (proj2 (fits31 x) Hx). cbn [negb].
  destruct (Z.eqb_spec x 0) as [->|Hx0].
  { exists [0], (w_byte 0 a). split_and!; [done|by apply w_byte_lit|]. split_and!; [by apply Forall_singleton|cbn; lia|]. done. }
  destruct ((0 <? x) && (x <? 123)) eqn:Hs1; [|apply andb_false_iff in Hs1; rewrite !Z.ltb_ge in Hs1].
  { apply andb_true_iff in Hs1. rewrite !Z.ltb_lt in Hs1. exists [x + 5], (w_byte (x + 5) a). assert (byte (x + 5)) by (unfold byte; lia). split_and!; [done|by apply w_byte_lit|]. split_and!; [by apply Forall_singleton|cbn; lia|].
    intros s b. cbn [app]. unfold r_long. rewrite r_byte_cons. cbn [mbind res_bind]. assert (SIGN_EXTEND_CHAR (x + 5) = x + 5) as ->.
    { unfold SIGN_EXTEND_CHAR. by rewrite (proj2 (Z.ltb_lt (x + 5) 128)) by lia. }
    rewrite (proj2 (Z.eqb_neq (x + 5) 0)), (proj2 (Z.ltb_lt 0 _)), (proj2 (Z.ltb_lt 4 _)), (proj2 (Z.ltb_lt _ 128)) by lia.
    cbn [andb]. by replace (x + 5 - 5) with x by lia. }
  destruct ((-124 <? x) && (x <? 0)) eqn:Hs2; [|apply andb_false_iff in Hs2; rewrite !Z.ltb_ge in Hs2].
  { apply andb_true_iff in Hs2. rewrite !Z.ltb_lt in Hs2. exists [x - 5 + 256], (w_byte (x - 5) a). assert (byte (x - 5 + 256)) by (unfold byte; lia). split_and!; [done| |].
    - pose proof (w_byte_wrote (x - 5) a) as H1. rewrite land_byte in H1.
      rewrite <- (Z.mod_unique (x - 5) 256 (-1) (x - 5 + 256)) in H1 by lia. done.
    - split_and!; [by apply Forall_singleton|cbn; lia|].
      intros s b. cbn [app]. unfold r_long. rewrite r_byte_cons. cbn [mbind res_bind]. assert (SIGN_EXTEND_CHAR (x - 5 + 256) = x - 5) as ->.
      { unfold SIGN_EXTEND_CHAR. rewrite (proj2 (Z.ltb_ge _ 128)) by lia. lia. }
      rewrite (proj2 (Z.eqb_neq _ 0)), (proj2 (Z.ltb_ge 0 _)), (proj2 (Z.ltb_lt (-129) _)), (proj2 (Z.ltb_lt _ (-4))) by lia.
      cbn [andb]. by replace (x - 5 + 5) with x by lia. }
  destruct (long_bytes_spec 4 1 x) as (bs & E & Hbs & Hl & Hv); [lia|change (256 ^ Z.of_nat 4) with (2 ^ 32); lia|].
  do 4 apply long_bytes_mono in E. rewrite E. cbn [mbind res_bind]. clear E. pose proof (zlen_nonneg bs).
  assert (1 ≤ zlen bs ≤ 4) as Hz by (unfold zlen; lia). assert (zlen bs = Z.of_nat (length bs)) as Hz' by done.
  set (c := if 0 <=? x then _ else _).
  exists (Z.land c 255 :: bs), (foldl (λ a b, w_byte b a) a (c :: bs)). split_and!; [done| |].
  { cbn [foldl]. apply (wrote_app [Z.land c 255] bs _ (w_byte c a)); [apply w_byte_wrote|by apply w_foldl_wrote]. }
  split_and!; [constructor; [apply byte_land|done]|cbn; lia|]. intros s b. cbn [app]. unfold r_long. rewrite r_byte_cons.
  cbn [mbind res_bind]. assert (SIGN_EXTEND_CHAR (Z.land c 255) = c) as ->.
  { unfold SIGN_EXTEND_CHAR. rewrite land_byte. subst c. destruct (0 <=? x).
    - rewrite Z.mod_small by lia. rewrite (proj2 (Z.ltb_lt _ 128)) by lia. done.
    - rewrite <- (Z.mod_unique _ 256 (-1) (256 - zlen bs)) by lia. rewrite (proj2 (Z.ltb_ge _ 128)) by lia. lia. }
  subst c. destruct (Z.leb_spec 0 x).
  - rewrite (proj2 (Z.eqb_neq _ 0)), (proj2 (Z.ltb_lt 0 _)), (proj2 (Z.ltb_ge 4 _)), (proj2 (Z.ltb_ge 8 _)) by lia. cbn [andb].
    replace (Z.to_nat (1 + zlen bs - 1)) with (length bs) by lia. rewrite r_long_pos_spec by (done || lia).
    do 2 f_equal. rewrite Hv. lia.
  - rewrite (proj2 (Z.eqb_neq _ 0)), (proj2 (Z.ltb_ge 0 _)), (proj2 (Z.ltb_ge _ (-4))), (proj2 (Z.ltb_ge 8 _)), andb_false_r by lia.
    replace (Z.to_nat (- - (1 + zlen bs - 1))) with (length bs) by lia.
    pose proof (r_long_neg_spec bs 0 0 s b Hbs ltac:(lia) ltac:(lia)) as E. change (0 - 256 ^ 0) with (-1) in E. rewrite E.
    do 2 f_equal. rewrite Hv, !Z.add_0_l. change (256 ^ 0) with 1. lia.
Qed.

Lemma w_long_big x (a : dump_arg) : ¬ (- 2 ^ 31 ≤ x < 2 ^ 31) → w_long x a = Err (Raise TypeError).
Proof.
  intros Hx. unfold w_long. destruct (_ || _) eqn:E; [by apply fits31 in E|done].
Qed.

Lemma w_long_inv x a a' : w_long x a = Ok a' → ∃ bs, wrote bs a a' ∧ long_code x bs ∧ - 2 ^ 31 ≤ x < 2 ^ 31.
Proof.
  intros E. destruct (decide (- 2 ^ 31 ≤ x < 2 ^ 31)) as [Hx|Hx]; [|by rewrite w_long_big in E].
  destruct (w_long_spec x a Hx) as (bs & a1 & E1 & Hw & Hc). rewrite E1 in E. simplify_eq. by exists bs.
Qed.

(** ** Strings *)

(** A text of ASCII characters: as many bytes as characters. *)
Definition ascii (s : list Z) : Prop := Forall (λ c, 0 ≤ c < 128) s.

Lemma RSTRING_LEN_ascii s : ascii s → RSTRING_LEN s = zlen s.
Proof.
  induction 1 as [|c s Hc _ IH]; [done|]. cbn [RSTRING_LEN]. rewrite IH, zlen_cons.
  rewrite (proj2 (Z.leb_gt 128 c)), (proj2 (Z.leb_gt 240 c)) by lia. done.
Qed.

Lemma w_rstring_ascii s (a : dump_arg) : ascii s → w_rstring s a = w_bytes s a.
Proof. intros H. unfold w_rstring. rewrite RSTRING_LEN_ascii by done. by rewrite to_nat_zlen, firstn_all. Qed.

Lemma cstr_byte s : cstr_ok s → Forall byte s.
Proof. intros H. eapply Forall_impl; [exact H|]. unfold byte. intros; cbn in *; lia. Qed.

Lemma strz_ok s : cstr_ok s → strz s = s.
Proof.
  induction 1 as [|c s Hc _ IH]; [done|]. cbn [strz]. rewrite (proj2 (Z.eqb_neq c 0)) by lia. by rewrite IH.
Qed.

(** A length, and that many bytes. *)
Lemma w_bytes_inv s a a' :
  w_bytes s a = Ok a' → Forall byte s →
  ∃ bs, wrote bs a a' ∧ (1 ≤ length bs)%nat ∧ ∀ t b, r_bytes (with_src (bs ++ t) b) = Ok (s, with_src t b).
Proof.
  unfold w_bytes. destruct (2 ^ 31 <=? zlen s); [done|]. intros (a1 & E & [= <-])%bind_ok Hs.
  destruct (w_long_inv _ _ _ E) as (bs & Hw & (Hb & Hl & Hr) & Hrange). exists (bs ++ s). split_and!.
  - eapply wrote_app; [exact Hw|by apply w_nbyte_wrote].
  - rewrite length_app. lia.
  - intros t b. rewrite <- app_assoc. unfold r_bytes. rewrite Hr. cbn [mbind res_bind]. unfold r_bytes0.
    destruct (Z.eqb_spec (zlen s) 0) as [Hz|Hz]; [destruct s; [done|unfold zlen in Hz; cbn in Hz; lia]|].
    cbn [src with_src]. pose proof (zlen_nonneg s).
    rewrite zlen_app, (proj2 (Z.leb_le _ _)), (proj2 (Z.ltb_ge _ _)) by (pose proof (zlen_nonneg t); lia).
    rewrite to_nat_zlen, take_app_length, drop_app_length. done.
Qed.

(** ** The tables *)

(** The symbols of the writer and of the reader, numbered alike. *)
Record sym_agree (m : gmap (list Z) Z) (t : gmap Z (list Z)) : Prop := {
  sa_iff : ∀ id n, m !! id = Some n ↔ t !! n = Some id;
  sa_size : size m = size t;
  sa_range : ∀ id n, m !! id = Some n → 0 ≤ n < Z.of_nat (size m)
}.

Lemma sym_agree_empty : sym_agree ∅ ∅.
Proof. split; [intros; by rewrite !lookup_empty|done|intros ?? H; by rewrite lookup_empty in H]. Qed.

Lemma sym_agree_add m t id :
  sym_agree m t → m !! id = None →
  sym_agree (<[id := Z.of_nat (size m)]> m) (<[Z.of_nat (size t) := id]> t).
Proof.
  intros [Hiff Hsz Hr] Hid. assert (t !! Z.of_nat (size t) = None) as Ht.
  { destruct (t !! Z.of_nat (size t)) as [id'|] eqn:E; [|done]. apply Hiff, Hr in E. lia. }
  split.
  - intros id' n. rewrite <- Hsz. destruct (decide (id' = id)) as [->|Hne].
    + rewrite lookup_insert_eq. destruct (decide (n = Z.of_nat (size m))) as [->|Hn]; [by rewrite lookup_insert_eq|].
      rewrite lookup_insert_ne by done. split; [by intros [= <-]|]. intros E%Hiff. congruence.
    + rewrite lookup_insert_ne by done. destruct (decide (n = Z.of_nat (size m))) as [->|Hn].
      * rewrite lookup_insert_eq. split; [intros E%Hr; lia|congruence].
      * by rewrite lookup_insert_ne by done.
  - rewrite !map_size_insert_None by done. by rewrite Hsz.
  - intros id' n. rewrite map_size_insert_None by done. destruct (decide (id' = id)) as [->|Hne].
    + rewrite lookup_insert_eq. intros [= <-]. lia.
    + rewrite lookup_insert_ne by done. intros E%Hr. lia.
Qed.

(** A symbol: the writer and the reader end with tables that agree again. *)
Lemma w_symbol_inv id a a' :
  w_symbol id a = Ok a' → cstr_ok id →
  ∃ c bs, out a' = out a ++ c :: bs ∧ (c = TYPE_SYMBOL ∨ c = TYPE_SYMLINK) ∧ Forall byte bs ∧
    data a' = data a ∧ heap a' = heap a ∧
    ∀ t b, sym_agree (symbols a) (lsymbols b) →
      ∃ ts, (if c =? TYPE_SYMBOL then r_symreal else r_symlink) (with_src (bs ++ t) b) =
              Ok (id, mkLoad t ts (ldata b) (lheap b)) ∧ sym_agree (symbols a') ts.
Proof.
  unfold w_symbol. intros E Hid. destruct (symbols a !! id) as [num|] eqn:El.
  - destruct (w_long_inv _ _ _ E) as (bs & Hw & (Hb & _ & Hr) & _).
    pose proof (wrote_app _ _ _ _ _ (w_byte_lit TYPE_SYMLINK a ltac:(done)) Hw) as [H1 H2 H3 H4 H5].
    exists TYPE_SYMLINK, bs. split_and!; [done|by right|done|done|done|]. intros t b Ha. exists (lsymbols b).
    change (TYPE_SYMLINK =? TYPE_SYMBOL) with false. cbn iota. unfold r_symlink. rewrite Hr. cbn [mbind res_bind].
    cbn [lsymbols with_src]. rewrite (proj1 (sa_iff _ _ Ha _ _) El), H2. done.
  - apply bind_ok in E as (a1 & E & [= <-]). destruct (w_bytes_inv _ _ _ E (cstr_byte _ Hid)) as (bs & Hw & _ & Hr).
    pose proof (wrote_app _ _ _ _ _ (w_byte_lit TYPE_SYMBOL a ltac:(done)) Hw) as [H1 H2 H3 H4 H5].
    exists TYPE_SYMBOL, bs. split_and!; [done|by left|by inversion H5|done|done|]. intros t b Ha.
    exists (<[Z.of_nat (size (lsymbols b)) := id]> (lsymbols b)).
    change (TYPE_SYMBOL =? TYPE_SYMBOL) with true. cbn iota. unfold r_symreal. rewrite Hr. cbn [mbind res_bind].
    rewrite strz_ok by done. cbn. rewrite H2. split; [done|by apply sym_agree_add].
Qed.

Lemma r_symbol_ok c t b :
  c = TYPE_SYMBOL ∨ c = TYPE_SYMLINK →
  r_symbol (with_src (c :: t) b) = (if c =? TYPE_SYMBOL then r_symreal else r_symlink) (with_src t b).
Proof. by intros [-> | ->]. Qed.
End codecs.

(** * marshal.c: the reader rebuilds the graph of objects

    The objects the writer meets are numbered in the order of their first visit,
    and the reader makes them in the same order: object number [n] of the stream
    is location [n] of the new heap.  [vrel] and [orel] say that a value or an
    object of the new heap is the image of one of the old heap under this
    numbering.  The proofs follow the recursion of [w_object]: what a call has
    written makes the reader return the image of the value, leaves the objects
    that existed before as they were, and completes all those it has made. *)

Section graph.
Context `{J : Junk} {float : Type} (w : world float) (h : gmap loc (obj float)).
Notation value := (value float).
Notation obj := (obj float).
Notation dump_arg := (@dump_arg float).
Notation load_arg := (@load_arg float).
Notation table := (gmap loc Z).

(** ** The image of an object *)

Definition vrel (D : table) (v v' : value) : Prop :=
  match v with VRef l => ∃ n : nat, v' = VRef n ∧ D !! l = Some (Z.of_nat n) | _ => v' = v end.

Definition prel (D : table) (p p' : value * value) : Prop := vrel D p.1 p'.1 ∧ vrel D p.2 p'.2.
Definition mrel (D : table) (p p' : list Z * value) : Prop := p'.1 = p.1 ∧ vrel D p.2 p'.2.

Definition orel (D : table) (o o' : obj) : Prop :=
  match o with
  | OArray k vs => ∃ vs', o' = OArray k vs' ∧ Forall2 (vrel D) vs vs'
  | OHash k ps => ∃ ps', o' = OHash k ps' ∧ Forall2 (prel D) ps ps'
  | OObject c ms => ∃ ms', o' = OObject c ms' ∧ Forall2 (mrel D) ms ms'
  | OStruct c ms => ∃ ms', o' = OStruct c ms' ∧ Forall2 (mrel D) ms ms'
  | _ => o' = o
  end.

Lemma vrel_mono D D' v v' : D ⊆ D' → vrel D v v' → vrel D' v v'.
Proof. intros HD. destruct v; [done..|]. intros (n & -> & E). exists n. split; [done|]. by eapply lookup_weaken. Qed.

Lemma orel_mono D D' o o' : D ⊆ D' → orel D o o' → orel D' o o'.
Proof.
  intros HD. destruct o; try done; intros (xs & -> & H); exists xs; (split; [done|]); (eapply Forall2_impl; [exact H|]).
  - intros ??. by apply vrel_mono.
  - intros ?? [??]. split; by eapply vrel_mono.
  - intros ?? [??]. split; [done|by eapply vrel_mono].
  - intros ?? [??]. split; [done|by eapply vrel_mono].
Qed.

(** ** What can be read back *)

(** What a key of a hash is compared by: its value, or the contents of a string. *)
Inductive key := KImm (v : value) | KStr (s : list Z).

Definition keyval (look : loc → option obj) (v : value) : option key :=
  match v with
  | VRef l => match look l with Some (OString _ s) => Some (KStr s) | _ => None end
  | VFloat _ => None
  | _ => Some (KImm v)
  end.

(** CoreFoundation compares keys by value. *)
Definition CFEqual_law : Prop :=
  ∀ hp a b x y, keyval (λ l, hp !! l) a = Some x → keyval (λ l, hp !! l) b = Some y → CFEqual w hp a b = true ↔ x = y.

Definition val_ok (v : value) : Prop :=
  match v with
  | VFix n => - 2 ^ 29 ≤ n < 2 ^ 29
  | VFloat _ => False
  | VSym id => cstr_ok id
  | _ => True
  end.

(** The class is found again under its name. *)
Definition class_ok (c : cid) : Prop := cstr_ok (class_path w c) ∧ is_module w c = false.

Definition uclass_ok (t : otype) (k : option cid) : Prop :=
  match k with
  | None => True
  | Some c => class_ok c ∧ (rb_class_inherited_p w c (core_class w t) = true ∨ alloc_type w c = t)
  end.

Definition obj_ok (o : obj) : Prop :=
  match o with
  | OString k s => uclass_ok T_STRING k ∧ cstr_ok s ∧ ascii s
  | ORegexp k s i => k = None ∧ cstr_ok s ∧ 0 ≤ i < 256 ∧ reg_ok w s i = true
  | OArray k vs => uclass_ok T_ARRAY k ∧ Forall val_ok vs
  | OHash k ps => uclass_ok T_HASH k ∧ Forall (λ p, val_ok p.1 ∧ val_ok p.2) ps ∧
      ∃ xs, Forall2 (λ p x, keyval (λ l, h !! l) p.1 = Some x) ps xs ∧ NoDup xs
  | OClass c => class_ok c ∧ ascii (class_path w c)
  | OModule c => (cstr_ok (class_path w c) ∧ is_module w c = true) ∧ ascii (class_path w c)
  | OObject c ms => class_ok c ∧ alloc_type w c = T_OBJECT ∧ Forall (λ p, cstr_ok p.1 ∧ val_ok p.2) ms ∧ NoDup ms.*1
  | OStruct c ms => class_ok c ∧ alloc_type w c = T_STRUCT ∧ Forall (λ p, cstr_ok p.1 ∧ val_ok p.2) ms ∧
      ms.*1 = struct_members w c
  | OBignum _ | OData => False
  end.

(** ** The states of the writer and the reader *)

Record dat_agree (D : table) (b : load_arg) : Prop := {
  da_len : size D = length (lheap b);
  da_size : size (ldata b) = length (lheap b);
  da_link : ∀ i, (i < length (lheap b))%nat → ldata b !! Z.of_nat i = Some (VRef i);
  da_none : ∀ n, Z.of_nat (length (lheap b)) ≤ n → ldata b !! n = None;
  da_range : ∀ l n, D !! l = Some n → 0 ≤ n < Z.of_nat (size D);
  da_inj : ∀ l1 l2 n, D !! l1 = Some n → D !! l2 = Some n → l1 = l2;
  da_str : ∀ l n k s, D !! l = Some n → h !! l = Some (OString k s) → ∃ k', lheap b !! Z.to_nat n = Some (OString k' s)
}.

Record agree (a : dump_arg) (b : load_arg) : Prop := {
  ag_sym : sym_agree (symbols a) (lsymbols b);
  ag_dat : dat_agree (data a) b
}.

(** Writing [bs] has only added to the tables. *)
Record grew (bs : list Z) (a a' : dump_arg) : Prop := {
  gr_out : out a' = out a ++ bs;
  gr_heap : heap a' = heap a;
  gr_sub : data a ⊆ data a';
  gr_new : ∀ l n, data a' !! l = Some n → n < Z.of_nat (size (data a)) → data a !! l = Some n
}.

Definition finished (D : table) (b : load_arg) (l : loc) (n : Z) : Prop :=
  ∃ o o', h !! l = Some o ∧ lheap b !! Z.to_nat n = Some o' ∧ orel D o o'.

(** From [b] to [b'] the reader has left the old objects as they were, except those
    in [X], and has completed the new ones. *)
Record ext (X : loc → Prop) (D : table) (b b' : load_arg) : Prop := {
  ex_len : (length (lheap b) ≤ length (lheap b'))%nat;
  ex_old : ∀ i, (i < length (lheap b))%nat → ¬ X i → lheap b' !! i = lheap b !! i;
  ex_new : ∀ l n, D !! l = Some n → Z.of_nat (length (lheap b)) ≤ n → finished D b' l n
}.

Lemma grew_nil a : grew [] a a.
Proof. split; [by rewrite app_nil_r|done..]. Qed.

Lemma grew_wrote bs a a' : wrote bs a a' → grew bs a a'.
Proof. intros [H1 H2 H3 H4 H5]. split; [done|done|by rewrite H3|by rewrite H3]. Qed.

Lemma grew_trans bs1 bs2 a1 a2 a3 : grew bs1 a1 a2 → grew bs2 a2 a3 → grew (bs1 ++ bs2) a1 a3.
Proof.
  intros [H1 H2 H3 H4] [G1 G2 G3 G4]. split; [by rewrite G1, H1, app_assoc|congruence|by etrans|].
  intros l n E Hn. apply H4; [|done]. apply G4; [done|]. pose proof (map_subseteq_size _ _ H3). lia.
Qed.

Lemma ext_weaken (X : loc → Prop) D b b' : ext (λ _, False) D b b' → ext X D b b'.
Proof. intros [H1 H2 H3]. split; [done| |done]. intros i Hi _. by apply H2; [|intros []]. Qed.

Lemma finished_frame D D' b b' l n :
  finished D b l n → D ⊆ D' → lheap b' !! Z.to_nat n = lheap b !! Z.to_nat n → finished D' b' l n.
Proof. intros (o & o' & H1 & H2 & H3) HD E. exists o, o'. split_and!; [done|by rewrite E|by eapply orel_mono]. Qed.

Lemma ext_trans (X : loc → Prop) bs a1 a2 b1 b2 b3 :
  grew bs a1 a2 → dat_agree (data a1) b2 → (∀ i, X i → (i < length (lheap b1))%nat) →
  ext X (data a1) b1 b2 → ext X (data a2) b2 b3 → ext X (data a2) b1 b3.
Proof.
  intros Hg Hd HX [H1 H2 H3] [G1 G2 G3]. split; [lia| |].
  - intros i Hi Hx. rewrite G2 by (done || lia). by apply H2.
  - intros l n E Hn. destruct (decide (Z.of_nat (length (lheap b2)) ≤ n)) as [|Hlt]; [by apply G3|].
    rewrite <- (da_len _ _ Hd) in Hlt. pose proof (gr_new _ _ _ Hg l n E ltac:(lia)) as E1.
    apply (finished_frame (data a1) _ b2); [by apply H3|apply Hg|]. rewrite (da_len _ _ Hd) in Hlt.
    apply G2; [lia|]. intros Hx%HX. lia.
Qed.

Lemma dat_agree_src D s t b : dat_agree D b → dat_agree D (mkLoad s t (ldata b) (lheap b)).
Proof. intros []. by split. Qed.

Lemma src_with s (b : load_arg) : src b = s → b = with_src s b.
Proof. intros <-. by destruct b. Qed.

(** ** One value *)

(** What has been written from [a] to [a'] is read as the image of [v]. *)
Definition simulated (v : value) (a a' : dump_arg) : Prop :=
  ∃ bs, grew bs a a' ∧ (1 ≤ length bs)%nat ∧
    ∀ f t b, agree a b → src b = bs ++ t → (length bs < f)%nat →
      ∃ v' b', r_object0 w f None b = Ok (v', b') ∧ src b' = t ∧ agree a' b' ∧
        ext (λ _, False) (data a') b b' ∧ vrel (data a') v v'.

Lemma ext_refl X D b b' : dat_agree D b → lheap b' = lheap b → ext X D b b'.
Proof.
  intros Hd E. split; [by rewrite E|by rewrite E|]. intros l n E1 Hn.
  pose proof (da_range _ _ Hd l n E1). rewrite (da_len _ _ Hd) in *. lia.
Qed.

(** Values without contents: the reader only moves on. *)
Lemma simulated_imm v a a' bs :
  wrote bs a a' → (1 ≤ length bs)%nat → (∀ D, vrel D v v) →
  (∀ f t b, agree a b → r_object0 w (S f) None (with_src (bs ++ t) b) = Ok (v, with_src t b)) →
  simulated v a a'.
Proof.
  intros Hw Hl Hv Hr. exists bs. split_and!; [by apply grew_wrote|done|]. intros f t b Hab Hs Hf.
  destruct f as [|f]; [lia|]. exists v, (with_src t b). rewrite (src_with _ _ Hs) at 1.
  destruct Hw as [H1 H2 H3 H4 H5], Hab as [Hsym Hdat]. split_and!; [by apply Hr|done| | |apply Hv].
  - split; [by rewrite H2|]. rewrite H3. by apply dat_agree_src.
  - rewrite H3. by apply ext_refl.
Qed.

Lemma r_object0_cons f c t b :
  r_object0 w (S f) None (with_src (c :: t) b) = r_case w (r_object0 w f None) f None c (with_src t b).
Proof. done. Qed.

Lemma LONG2FIX_small n : - 2 ^ 61 ≤ n < 2 ^ 61 → LONG2FIX n = n.
Proof. intros Hn. unfold LONG2FIX. rewrite Z.mod_small by lia. lia. Qed.

Lemma simulated_byte v c a :
  byte c → (∀ D, vrel D v v) → (∀ f t (b : load_arg), r_case w (r_object0 w f None) f None c (with_src t b) = Ok (v, with_src t b)) →
  simulated v a (w_byte c a).
Proof.
  intros Hc Hv Hr. apply (simulated_imm v a _ [c]); [by apply w_byte_lit|done|done|].
  intros f t b _. cbn [app]. rewrite r_object0_cons. apply Hr.
Qed.

Lemma simulated_long v c n a a' :
  byte c → w_long n (w_byte c a) = Ok a' → (∀ D, vrel D v v) →
  (∀ f (b b' : load_arg), r_long b = Ok (n, b') → agree a b → ldata b' = ldata b → r_case w (r_object0 w f None) f None c b = Ok (v, b')) →
  simulated v a a'.
Proof.
  intros Hc E Hv Hr. destruct (w_long_inv _ _ _ E) as (bs & Hw & (Hb & Hl & Hrd) & _).
  apply (simulated_imm v a a' (c :: bs)); [|cbn; lia|done|].
  - eapply (wrote_app [c] bs); [by apply w_byte_lit|exact Hw].
  - intros f t b Hab. cbn [app]. rewrite r_object0_cons. apply Hr; [apply Hrd| |done].
    destruct Hab. split; [done|by apply dat_agree_src].
Qed.

Lemma simulated_symbol id a a' :
  w_symbol id a = Ok a' → cstr_ok id → simulated (VSym id) a a'.
Proof.
  intros E Hid. destruct (w_symbol_inv id a a' E Hid) as (c & bs & H1 & Hc & Hb & H3 & H4 & Hr).
  exists (c :: bs). split_and!; [|cbn; lia|].
  - split; [done|done|by rewrite H3|by rewrite H3].
  - intros f t b [Hsym Hdat] Hs Hf. destruct f as [|f]; [lia|]. destruct (Hr t b Hsym) as (ts & Ers & Hs').
    exists (VSym id), (mkLoad t ts (ldata b) (lheap b)). rewrite (src_with _ _ Hs) at 1. cbn [app].
    rewrite r_object0_cons. split_and!; [|done| | |done].
    + destruct Hc as [-> | ->]; cbn in Ers |- *; unfold r_case; cbn -[r_symreal r_symlink]; by rewrite Ers.
    + split; [done|]. rewrite H3. by apply dat_agree_src.
    + rewrite H3. by apply ext_refl.
Qed.

Lemma simulated_link l num a a' :
  data a !! l = Some num → w_long num (w_byte TYPE_LINK a) = Ok a' → simulated (VRef l) a a'.
Proof.
  intros El E. destruct (w_long_inv _ _ _ E) as (bs & Hw & (Hb & Hl & Hrd) & Hrange).
  pose proof (wrote_app _ _ _ _ _ (w_byte_lit TYPE_LINK a ltac:(done)) Hw) as Hw'.
  exists (TYPE_LINK :: bs). split_and!; [by apply grew_wrote|cbn; lia|].
  intros f t b [Hsym Hdat] Hs Hf. destruct f as [|f]; [lia|].
  pose proof (da_range _ _ Hdat l num El) as Hnum. rewrite (da_len _ _ Hdat) in Hnum.
  destruct Hw' as [H1 H2 H3 H4 H5].
  exists (VRef (Z.to_nat num)), (with_src t b). rewrite (src_with _ _ Hs) at 1. cbn [app]. rewrite r_object0_cons. split_and!; [|done| | |].
  - unfold r_case. cbn -[r_long]. rewrite Hrd. cbn [mbind res_bind]. rewrite LONG2FIX_small by lia.
    cbn [ldata with_src]. pose proof (da_link _ _ Hdat (Z.to_nat num) ltac:(lia)) as Elink.
    rewrite Z2Nat.id in Elink by lia. by rewrite Elink.
  - split; [by rewrite H2|]. rewrite H3. by apply dat_agree_src.
  - rewrite H3. by apply ext_refl.
  - exists (Z.to_nat num). split; [done|]. rewrite H3, Z2Nat.id by lia. done.
Qed.
End graph.
