(* ===== verification/MarshalSim.v ===== *)
(** * marshal.c: the contents of objects, and the whole graph

    The loops over elements, pairs, instance variables and members, the cases of
    [w_contents] against those of [r_object0], and the induction over the depth
    of the recursion. *)

From S2P Require Import Prelude Util Big Marshal MarshalRep.

Section contents.
Context `{J : Junk} {float : Type} (w : world float) (h : gmap loc (obj float)).
Notation value := (value float).
Notation obj := (obj float).
Notation dump_arg := (@dump_arg float).
Notation load_arg := (@load_arg float).
Notation agree := (agree h).
Notation ext := (ext h).
Notation finished := (finished h).
Notation dat_agree := (dat_agree h).
Notation simulated := (simulated w h).

(** ** Loops *)

Section loop.
Context {A S : Type} (n : loc) (f : nat).
Context (wi : A → dump_arg → res dump_arg) (body : S → load_arg → res (S * load_arg)).
Context (ok : A → Prop) (fits : list A → A → Prop) (I : gmap loc Z → list A → S → load_arg → Prop).

(** One round: item [x] is written, and read into the object at [n]. *)
Definition round : Prop := ∀ x a a',
  heap a = h → ok x → wi x a = Ok a' →
  ∃ bs, grew bs a a' ∧ (1 ≤ length bs)%nat ∧
    ∀ pre t b s, fits pre x → agree a b → src b = bs ++ t → (length bs < f)%nat → (n < length (lheap b))%nat →
      I (data a) pre s b →
      ∃ s' b', body s b = Ok (s', b') ∧ src b' = t ∧ agree a' b' ∧ ext (λ i, i = n) (data a') b b' ∧
        I (data a') (pre ++ [x]) s' b'.

Lemma loop_spec xs a a' :
  round → heap a = h → Forall ok xs → w_all wi xs a = Ok a' →
  ∃ bs, grew bs a a' ∧ (length xs ≤ length bs)%nat ∧
    ∀ k pre t b s, (∀ l1 x l2, xs = l1 ++ x :: l2 → fits (pre ++ l1) x) →
      agree a b → src b = bs ++ t → (length bs < f)%nat → (length xs < k)%nat → (n < length (lheap b))%nat → I (data a) pre s b →
      ∃ s' b', r_loop k (zlen xs) body s b = Ok (s', b') ∧ src b' = t ∧ agree a' b' ∧ ext (λ i, i = n) (data a') b b' ∧
        I (data a') (pre ++ xs) s' b'.
Proof.
  intros Hround. revert a. induction xs as [|x xs IH]; intros a Hh Hok; cbn [w_all].
  { intros [= ->]. exists []. split_and!; [apply grew_nil|done|]. intros k pre t b s _ Hab Hs _ Hk Hn HI.
    destruct k as [|k]; [cbn in Hk; lia|]. exists s, b. rewrite app_nil_r. split_and!; [done|done|done| |done].
    apply ext_refl; [apply Hab|done]. }
  intros (a1 & E1 & E2)%bind_ok. inversion Hok as [|? ? Hx Hxs]; subst.
  destruct (Hround x a a1 Hh Hx E1) as (bs1 & Hg1 & Hl1 & Hr1).
  destruct (IH a1) as (bs2 & Hg2 & Hl2 & Hr2); [by rewrite (gr_heap _ _ _ Hg1)|done|done|].
  exists (bs1 ++ bs2). split_and!; [by eapply grew_trans|rewrite length_app; cbn; lia|].
  intros k pre t b s Hfit Hab Hs Hf Hk Hn HI. rewrite length_app in Hf. cbn in Hk. destruct k as [|k]; [lia|].
  destruct (Hr1 pre (bs2 ++ t) b s) as (s1 & b1 & Eb & Hs1 & Hab1 & Hx1 & HI1);
    [specialize (Hfit [] x xs eq_refl); by rewrite app_nil_r in Hfit|done|by rewrite app_assoc|lia|done|done|].
  destruct (Hr2 k (pre ++ [x]) t b1 s1) as (s2 & b2 & Eb2 & Hs2 & Hab2 & Hx2 & HI2); [|done|done|lia|lia|pose proof (ex_len _ _ _ _ _ Hx1); lia|done|].
  { intros l1 y l2 ->. rewrite <- app_assoc. by apply (Hfit (x :: l1) y l2). }
  exists s2, b2. rewrite <- app_assoc in HI2. split_and!; [|done|done| |done].
  - cbn [r_loop]. rewrite zlen_cons. pose proof (zlen_nonneg xs). rewrite (proj2 (Z.eqb_neq _ 0)) by lia. rewrite Eb. cbn [mbind res_bind].
    by replace (1 + zlen xs - 1) with (zlen xs) by lia.
  - apply (ext_trans h _ bs2 a1 a' b b1 b2); [done|apply Hab1|by intros i ->|done|done].
Qed.
End loop.

(** ** Entering an object *)

(** The writer has numbered [l], the reader is about to make its object. *)
Record agree_pre (D0 : gmap loc Z) (l : loc) (a : dump_arg) (b : load_arg) : Prop := {
  ap_sym : sym_agree (symbols a) (lsymbols b);
  ap_data : data a = <[l := Z.of_nat (size D0)]> D0;
  ap_fresh : D0 !! l = None;
  ap_dat : dat_agree D0 b
}.

Lemma enter D0 l a b o :
  agree_pre D0 l a b → (∀ k s, h !! l = Some (OString k s) → ∃ k', o = OString k' s) →
  agree a (snd (new_entry o b)).
Proof.
  intros [Hs Hd Hf Hda] Hstr. split; [done|]. rewrite Hd. pose proof (da_none _ _ _ Hda _ (Z.le_refl _)) as Hn.
  destruct Hda as [H1 H2 H3 H4 H5 H6 H7]. rewrite <- H2 in Hn. unfold new_entry, r_entry. split; cbn.
  - rewrite map_size_insert_None, length_app by done. cbn. lia.
  - rewrite map_size_insert_None, length_app by done. cbn. lia.
  - intros i Hi. rewrite length_app in Hi. cbn in Hi. rewrite H2. destruct (decide (i = length (lheap b))) as [->|Hne].
    + by rewrite lookup_insert_eq.
    + rewrite lookup_insert_ne by lia. apply H3. lia.
  - intros i Hi. rewrite length_app in Hi. cbn in Hi. rewrite lookup_insert_ne by lia. apply H4. lia.
  - intros l' i. rewrite map_size_insert_None by done. intros [[<- <-]|[_ E%H5]]%lookup_insert_Some; lia.
  - intros l1 l2 i [[<- <-]|[N1 E1]]%lookup_insert_Some [[<- E2]|[N2 E2]]%lookup_insert_Some; [done| |subst|by eapply H6].
    + apply H5 in E2. lia.
    + apply H5 in E1. lia.
  - intros l' i k s [[<- <-]|[N1 E1]]%lookup_insert_Some E2.
    + destruct (Hstr k s E2) as (k' & ->). exists k'. rewrite Nat2Z.id, H1, lookup_app_r, Nat.sub_diag by lia. done.
    + destruct (H7 l' i k s E1 E2) as (k' & E3). exists k'. rewrite lookup_app_l; [done|]. by eapply lookup_lt_Some.
Qed.

(** What has been written for the contents of the object at [l], after it was
    numbered, makes the reader build the image of [o] as its next object. *)
Definition contents_read (l : loc) (o : obj) (a a' : dump_arg) : Prop :=
  ∃ bs, grew bs a a' ∧ (1 ≤ length bs)%nat ∧
    ∀ f t b D0, agree_pre D0 l a b → src b = bs ++ t → (length bs < f)%nat →
      ∃ o' b', r_object0 w f None b = Ok (VRef (length (lheap b)), b') ∧ src b' = t ∧ agree a' b' ∧
        (∀ i, (i < length (lheap b))%nat → lheap b' !! i = lheap b !! i) ∧
        lheap b' !! length (lheap b) = Some o' ∧ orel (data a') o o' ∧
        (∀ l' m, data a' !! l' = Some m → Z.of_nat (length (lheap b)) < m → finished (data a') b' l' m).

(** Objects without elements, which are made when all has been read. *)
Lemma contents_leaf l o a a' c bs :
  wrote (c :: bs) a a' → (∀ k s, h !! l = Some (OString k s) → ∃ k', o = OString k' s) → orel (data a') o o →
  (∀ f t b, r_case w (r_object0 w f None) f None c (with_src (bs ++ t) b) = entered o (with_src t b)) →
  contents_read l o a a'.
Proof.
  intros Hw Hh Ho Hr. exists (c :: bs). split_and!; [by apply grew_wrote|cbn; lia|].
  intros f t b D0 Hpre Hs Hf. destruct f as [|f]; [lia|].
  destruct Hw as [H1 H2 H3 H4 H5].
  assert (agree a (snd (new_entry o (with_src t b)))) as Hab.
  { apply (enter D0 l); [|exact Hh].
    destruct Hpre. split; [done|done|done|by apply dat_agree_src]. }
  exists o, (snd (new_entry o (with_src t b))).
  rewrite (src_with _ _ Hs) at 1. cbn [app]. rewrite r_object0_cons, Hr. split_and!.
  - done.
  - done.
  - destruct Hab as [Ha Hb]. split; [by rewrite H2|by rewrite H3].
  - intros i Hi. cbn. by rewrite lookup_app_l.
  - cbn. by rewrite lookup_app_r, Nat.sub_diag.
  - done.
  - intros l' m E Hm. rewrite H3 in E. destruct Hab as [_ Hb]. pose proof (da_range _ _ _ Hb l' m E).
    rewrite (da_len _ _ _ Hb) in *. cbn in *. rewrite length_app in *. cbn in *. lia.
Qed.

Lemma w_bytes_contents l o a a' c s :
  byte c → w_bytes s (w_byte c a) = Ok a' → Forall byte s → (∀ k s, h !! l = Some (OString k s) → ∃ k', o = OString k' s) → orel (data a') o o →
  (∀ f (b b' : load_arg), r_bytes b = Ok (s, b') → r_case w (r_object0 w f None) f None c b = entered o b') →
  contents_read l o a a'.
Proof.
  intros Hc E Hs Hh Ho Hr. destruct (w_bytes_inv _ _ _ E Hs) as (bs & Hw & _ & Hrd).
  apply (contents_leaf l o a a' c bs); [|done|done|].
  - eapply (wrote_app [c] bs); [by apply w_byte_lit|exact Hw].
  - intros f t b. apply Hr, Hrd.
Qed.

(** ** The parts of a container *)

Lemma symbol_read id (a a1 : dump_arg) :
  w_symbol id a = Ok a1 → cstr_ok id →
  ∃ bs, grew bs a a1 ∧ (1 ≤ length bs)%nat ∧ data a1 = data a ∧
    ∀ t (b : load_arg), sym_agree (symbols a) (lsymbols b) → src b = bs ++ t →
      ∃ ts, r_symbol b = Ok (id, mkLoad t ts (ldata b) (lheap b)) ∧ sym_agree (symbols a1) ts.
Proof.
  intros E Hid. destruct (w_symbol_inv id a a1 E Hid) as (c & bs & H1 & Hc & Hb & H3 & H4 & Hr).
  exists (c :: bs). split_and!; [|cbn; lia|done|].
  - split; [done|done|by rewrite H3|by rewrite H3].
  - intros t b Hsym Hs. destruct (Hr t b Hsym) as (ts & Ers & Hs'). exists ts. split; [|done].
    rewrite (src_with _ _ Hs). cbn [app]. by rewrite r_symbol_ok.
Qed.

Lemma agree_set a b n o o' :
  agree a b → lheap b !! n = Some o → TYPE o ≠ T_STRING → agree a (set_obj n o' b).
Proof.
  intros [Hs [H1 H2 H3 H4 H5 H6 H7]] Hn Ho. split; [done|]. split; cbn; rewrite ?length_insert; try done.
  intros l m k s E1 E2. destruct (H7 l m k s E1 E2) as (k' & E3). exists k'. rewrite list_lookup_insert_ne; [done|].
  intros Heq. subst n. rewrite E3 in Hn. by injection Hn as <-.
Qed.

Lemma ext_set D b b1 n o :
  ext (λ _, False) D b b1 → (n < length (lheap b))%nat → ext (λ i, i = n) D b (set_obj n o b1).
Proof.
  intros [H1 H2 H3] Hn. split; cbn.
  - by rewrite length_insert.
  - intros i Hi Hne. rewrite list_lookup_insert_ne by done. by apply H2; [|intros []].
  - intros l m E Hm. eapply finished_frame; [by apply H3|done|]. cbn. apply list_lookup_insert_ne. lia.
Qed.

Lemma ext_src X D b b0 b' : lheap b0 = lheap b → ext X D b0 b' → ext X D b b'.
Proof. intros E [H1 H2 H3]. rewrite E in *. by split. Qed.

Lemma vrel_all_mono D D' (vs vs' : list value) : D ⊆ D' → Forall2 (vrel D) vs vs' → Forall2 (vrel D') vs vs'.
Proof. intros HD H. eapply Forall2_impl; [exact H|]. intros ??. by apply vrel_mono. Qed.

Lemma prel_all_mono D D' (ps ps' : list (value * value)) : D ⊆ D' → Forall2 (prel D) ps ps' → Forall2 (prel D') ps ps'.
Proof. intros HD H. eapply Forall2_impl; [exact H|]. intros ?? [??]. split; by eapply vrel_mono. Qed.

Lemma mrel_all_mono D D' (ms ms' : list (list Z * value)) : D ⊆ D' → Forall2 (mrel D) ms ms' → Forall2 (mrel D') ms ms'.
Proof. intros HD H. eapply Forall2_impl; [exact H|]. intros ?? [??]. split; [done|by eapply vrel_mono]. Qed.

Section rounds.
Context (wr : value → dump_arg → res dump_arg) (f : nat) (n : loc).
Hypothesis IH : ∀ v a a', heap a = h → val_ok v → wr v a = Ok a' → simulated v a a'.
Notation rd := (r_object0 w f None).

Definition array_inv (D : gmap loc Z) (pre : list value) (_ : unit) (b : load_arg) : Prop :=
  ∃ vs', lheap b !! n = Some (OArray None vs') ∧ Forall2 (vrel D) pre vs'.

Lemma array_round : round n f wr (r_item rd n) val_ok (λ _ _, True) array_inv.
Proof.
  intros x a a' Hh Hx E. destruct (IH x a a' Hh Hx E) as (bs & Hg & Hl & Hr). exists bs. split_and!; [done|done|].
  intros pre t b s _ Hab Hs Hf Hn (vs' & En & Hvs). destruct (Hr f t b Hab Hs Hf) as (v' & b1 & E1 & Hs1 & Hab1 & Hx1 & Hv).
  assert (lheap b1 !! n = Some (OArray None vs')) as En1 by (rewrite (ex_old _ _ _ _ _ Hx1) by (done || intros []); done).
  exists (), (set_obj n (OArray None (vs' ++ [v'])) b1). split_and!.
  - unfold r_item. rewrite E1. cbn [mbind res_bind]. unfold rb_ary_push, get_obj. rewrite En1. done.
  - done.
  - by eapply agree_set.
  - by apply ext_set.
  - exists (vs' ++ [v']). split; [apply list_lookup_insert_eq; by eapply lookup_lt_Some|].
    apply Forall2_app; [eapply vrel_all_mono; [apply Hg|done]|by constructor].
Qed.

Definition ivar_inv (c : cid) (D : gmap loc Z) (pre : list (list Z * value)) (_ : unit) (b : load_arg) : Prop :=
  ∃ ms', lheap b !! n = Some (OObject c ms') ∧ Forall2 (mrel D) pre ms'.

(** Setting a variable that is not there yet adds it. *)
Lemma assoc_set_new {K V} (eq : K → K → bool) k (v : V) ps :
  (∀ p, p ∈ ps → eq p.1 k = false) → assoc_set eq k v ps = ps ++ [(k, v)].
Proof.
  induction ps as [|[k' v'] ps IHp]; intros Hne; [done|]. cbn [assoc_set app]. pose proof (Hne (k', v') ltac:(left)) as Hk. cbn in Hk. rewrite Hk.
  f_equal. apply IHp. intros p Hp. apply Hne. by right.
Qed.

Lemma ivar_round c :
  round n f (w_member wr) (r_ivar1 rd (VRef n)) (λ p, cstr_ok p.1 ∧ val_ok p.2) (λ pre p, p.1 ∉ pre.*1) (ivar_inv c).
Proof.
  intros [id v] a a' Hh [Hid Hv] E. cbn [fst snd] in *. apply bind_ok in E as (a1 & E1 & E2).
  destruct (symbol_read id a a1 E1 Hid) as (bs1 & Hg1 & Hl1 & Hd1 & Hr1).
  destruct (IH v a1 a') as (bs2 & Hg2 & Hl2 & Hr2); [by rewrite (gr_heap _ _ _ Hg1)|done|done|].
  exists (bs1 ++ bs2). split_and!; [by eapply grew_trans|rewrite length_app; lia|].
  intros pre t b s Hfit [Hsym Hdat] Hs Hf Hn (ms' & En & Hms). cbn [fst] in Hfit. rewrite length_app in Hf.
  destruct (Hr1 (bs2 ++ t) b Hsym) as (ts & Er1 & Hts); [by rewrite app_assoc|]. set (b0 := mkLoad _ _ _ _) in Er1.
  assert (agree a1 b0) as Hab0 by (split; [done|rewrite Hd1; by apply dat_agree_src]).
  destruct (Hr2 f t b0 Hab0 eq_refl ltac:(lia)) as (v' & b1 & Er2 & Hs1 & Hab1 & Hx1 & Hvr).
  assert (lheap b1 !! n = Some (OObject c ms')) as En1 by (rewrite (ex_old _ _ _ _ _ Hx1) by (done || intros []); done).
  assert (ms'.*1 = pre.*1) as Hkeys.
  { clear -Hms. induction Hms as [|? ? ? ? [He _] _ IHm]; [done|]. cbn. by rewrite He, IHm. }
  exists (), (set_obj n (OObject c (ms' ++ [(id, v')])) b1). split_and!.
  - unfold r_ivar1. rewrite Er1. cbn [mbind res_bind]. rewrite Er2. cbn [mbind res_bind rb_ivar_set]. unfold get_obj. rewrite En1.
    cbn [of_option mbind res_bind]. rewrite assoc_set_new; [done|]. intros [id' x] Hp. cbn. apply bool_decide_eq_false. intros ->.
    apply Hfit. rewrite <- Hkeys. apply list_elem_of_fmap. by exists (id, x).
  - done.
  - by eapply agree_set.
  - apply (ext_src _ _ b b0); [done|]. by apply ext_set.
  - exists (ms' ++ [(id, v')]). split; [apply list_lookup_insert_eq; by eapply lookup_lt_Some|].
    apply Forall2_app; [|by constructor]. eapply mrel_all_mono; [|done]. rewrite <- Hd1. apply Hg2.
Qed.

Definition member_inv (D : gmap loc Z) (pre : list (list Z * value)) (vs : list value) (b : load_arg) : Prop :=
  Forall2 (vrel D) pre.*2 vs ∧ ∃ o, lheap b !! n = Some o ∧ TYPE o = T_STRUCT.

Lemma member_round mem :
  round n f (w_member wr) (r_member rd mem) (λ p, cstr_ok p.1 ∧ val_ok p.2) (λ pre p, mem !! length pre = Some p.1) member_inv.
Proof.
  intros [id v] a a' Hh [Hid Hv] E. cbn [fst snd] in *. apply bind_ok in E as (a1 & E1 & E2).
  destruct (symbol_read id a a1 E1 Hid) as (bs1 & Hg1 & Hl1 & Hd1 & Hr1).
  destruct (IH v a1 a') as (bs2 & Hg2 & Hl2 & Hr2); [by rewrite (gr_heap _ _ _ Hg1)|done|done|].
  exists (bs1 ++ bs2). split_and!; [by eapply grew_trans|rewrite length_app; lia|].
  intros pre t b vs Hfit [Hsym Hdat] Hs Hf Hn [Hvs (o & En & Ho)]. cbn [fst] in Hfit. rewrite length_app in Hf.
  destruct (Hr1 (bs2 ++ t) b Hsym) as (ts & Er1 & Hts); [by rewrite app_assoc|]. set (b0 := mkLoad _ _ _ _) in Er1.
  assert (agree a1 b0) as Hab0 by (split; [done|rewrite Hd1; by apply dat_agree_src]).
  destruct (Hr2 f t b0 Hab0 eq_refl ltac:(lia)) as (v' & b1 & Er2 & Hs1 & Hab1 & Hx1 & Hvr).
  exists (vs ++ [v']), b1. split_and!.
  - unfold r_member. rewrite Er1. cbn [mbind res_bind]. rewrite <- (Forall2_length _ _ _ Hvs), length_fmap, Hfit.
    cbn [of_option mbind res_bind]. rewrite bool_decide_eq_true_2 by done. by rewrite Er2.
  - done.
  - done.
  - apply (ext_src _ _ b b0); [done|]. by apply ext_weaken.
  - split.
    + rewrite fmap_app. apply Forall2_app; [|by constructor]. eapply vrel_all_mono; [|done]. rewrite <- Hd1. apply Hg2.
    + exists o. split; [|done]. by rewrite (ex_old _ _ _ _ _ Hx1) by (done || intros []).
Qed.

Definition hash_inv (D : gmap loc Z) (pre : list (value * value)) (_ : unit) (b : load_arg) : Prop :=
  ∃ ps', lheap b !! n = Some (OHash None ps') ∧ Forall2 (prel D) pre ps'.

Definition new_key (pre : list (value * value)) (p : value * value) : Prop :=
  ∃ xs x, Forall2 (λ p x, keyval (λ l, h !! l) p.1 = Some x) pre xs ∧ keyval (λ l, h !! l) p.1 = Some x ∧ x ∉ xs.

Lemma key_image D b v v' x :
  dat_agree D b → vrel D v v' → keyval (λ l, h !! l) v = Some x → keyval (λ l, lheap b !! l) v' = Some x.
Proof.
  intros Hd Hv. destruct v as [| | | | |id|l]; cbn in Hv; subst; try done. destruct Hv as (m & -> & E). cbn.
  destruct (h !! l) as [[]|] eqn:El; try done. intros [= <-]. destruct (da_str _ _ _ Hd l _ _ _ E El) as (k' & Ek).
  rewrite Nat2Z.id in Ek. by rewrite Ek.
Qed.

Hypothesis CF : CFEqual_law w.

Lemma hash_round : round n f (w_pair wr) (r_pair w rd n) (λ p, val_ok p.1 ∧ val_ok p.2) new_key hash_inv.
Proof.
  intros [k v] a a' Hh [Hk Hv] E. cbn [fst snd] in *. apply bind_ok in E as (a1 & E1 & E2). cbn [fst snd] in *.
  destruct (IH k a a1 Hh Hk E1) as (bs1 & Hg1 & Hl1 & Hr1).
  destruct (IH v a1 a') as (bs2 & Hg2 & Hl2 & Hr2); [by rewrite (gr_heap _ _ _ Hg1)|done|done|].
  exists (bs1 ++ bs2). split_and!; [by eapply grew_trans|rewrite length_app; lia|].
  intros pre t b s (xs & x & Hxs & Hx & Hnew) Hab Hs Hf Hn (ps' & En & Hps). rewrite length_app in Hf.
  destruct (Hr1 f (bs2 ++ t) b Hab) as (k' & b1 & Er1 & Hs1 & Hab1 & Hx1 & Hkr); [by rewrite app_assoc|lia|].
  destruct (Hr2 f t b1 Hab1 Hs1 ltac:(lia)) as (v' & b2 & Er2 & Hs2 & Hab2 & Hx2 & Hvr).
  assert (data a ⊆ data a') as Hsub by (etrans; [apply Hg1|apply Hg2]).
  pose proof (ext_trans h (λ _, False) bs2 a1 a' b b1 b2 Hg2 (ag_dat _ _ _ Hab1) ltac:(done) Hx1 Hx2) as Hx12.
  assert (lheap b2 !! n = Some (OHash None ps')) as En2 by (rewrite (ex_old _ _ _ _ _ Hx12) by (done || intros []); done).
  assert (vrel (data a') k k') as Hkr' by (eapply vrel_mono; [apply Hg2|done]).
  pose proof (key_image _ _ _ _ _ (ag_dat _ _ _ Hab2) Hkr' Hx) as Hx'.
  pose proof (prel_all_mono _ _ _ _ Hsub Hps) as Hps'.
  exists (), (set_obj n (OHash None (ps' ++ [(k', v')])) b2). split_and!.
  - unfold r_pair. rewrite Er1. cbn [mbind res_bind]. rewrite Er2. cbn [mbind res_bind]. unfold rb_hash_aset, get_obj. rewrite En2.
    cbn [of_option mbind res_bind]. rewrite assoc_set_new; [done|]. intros [k0' v0'] Hp. cbn [fst].
    apply list_elem_of_lookup in Hp as [i Hi]. destruct (Forall2_lookup_r _ _ _ _ _ Hps' Hi) as ([k0 v0] & Hi0 & [Hk0 _]).
    destruct (Forall2_lookup_l _ _ _ _ _ Hxs Hi0) as (x0 & Hi1 & Hx0). cbn [fst] in *.
    pose proof (key_image _ _ _ _ _ (ag_dat _ _ _ Hab2) Hk0 Hx0) as Hx0'.
    apply not_true_is_false. intros Heq%(CF (lheap b2) k0' k' x0 x Hx0' Hx'). subst x0. apply Hnew. by eapply list_elem_of_lookup_2.
  - done.
  - by eapply agree_set.
  - by apply ext_set.
  - exists (ps' ++ [(k', v')]). split; [apply list_lookup_insert_eq; by eapply lookup_lt_Some|].
    apply Forall2_app; [done|]. by constructor.
Qed.
End rounds.

(** A loop that fills the object just made. *)
Lemma fill_spec {A S} (wi : A → dump_arg → res dump_arg) (body : nat → loc → S → load_arg → res (S * load_arg)) ok fits I xs a a' :
  (∀ f n, round n f wi (body f n) ok fits (I n)) → heap a = h → Forall ok xs → w_all wi xs a = Ok a' →
  ∃ bs, grew bs a a' ∧ (length xs ≤ length bs)%nat ∧
    ∀ f k t b D0 l o0 s, (∀ l1 x l2, xs = l1 ++ x :: l2 → fits l1 x) →
      agree_pre D0 l a b → src b = bs ++ t → (length bs < f)%nat → (length xs < k)%nat →
      (∀ k s, h !! l ≠ Some (OString k s)) →
      I (length (lheap b)) (data a) [] s (snd (new_entry o0 b)) →
      ∃ s' b', r_loop k (zlen xs) (body f (length (lheap b))) s (snd (new_entry o0 b)) = Ok (s', b') ∧ src b' = t ∧ agree a' b' ∧
        (∀ i, (i < length (lheap b))%nat → lheap b' !! i = lheap b !! i) ∧
        (∀ l' m, data a' !! l' = Some m → Z.of_nat (length (lheap b)) < m → finished (data a') b' l' m) ∧
        I (length (lheap b)) (data a') xs s' b'.
Proof.
  intros Hround Hh Hok E.
  assert (∃ bs, grew bs a a' ∧ (length xs ≤ length bs)%nat ∧ out a' = out a ++ bs) as (bs & Hg & Hl & Ho).
  { destruct (loop_spec 0%nat 0 wi (body 0%nat 0%nat) ok fits (I 0%nat) xs a a' (Hround 0%nat 0%nat) Hh Hok E) as (bs & Hg & Hl & _).
    exists bs. split_and!; [done|done|apply Hg]. }
  exists bs. split_and!; [done|done|]. intros f k t b D0 l o0 s Hfit Hpre Hs Hf Hk Hno HI. set (n := length (lheap b)) in *.
  destruct (loop_spec n f wi (body f n) ok fits (I n) xs a a' (Hround f n) Hh Hok E) as (bs' & Hg' & _ & Hr).
  assert (bs' = bs) as ->.
  { pose proof (gr_out _ _ _ Hg') as Ho'. rewrite Ho in Ho'. by apply app_inv_head in Ho'. }
  assert (agree a (snd (new_entry o0 b))) as Hab by (apply (enter D0 l); [done|]; intros k' s' Hl'; by destruct (Hno k' s')).
  destruct (Hr k [] t (snd (new_entry o0 b)) s) as (s' & b' & Er & Hs' & Hab' & [Hx1 Hx2 Hx3] & HI'); [done|done|done|done|done| |done|].
  { cbn. rewrite length_app. cbn. lia. }
  cbn [app] in HI'. exists s', b'. split_and!; [done|done|done| | |done].
  - intros i Hi. cbn in Hx2. rewrite Hx2 by (rewrite ?length_app; cbn; lia). by rewrite lookup_app_l.
  - intros l' m E' Hm. apply Hx3; [done|]. cbn. rewrite length_app. cbn. lia.
Qed.

(** ** Classes *)

Lemma class2path_inv c p : class2path w c = Ok p → p = class_path w c ∧ rb_path2class w p = Some c.
Proof.
  unfold class2path. case_bool_decide; [done|]. destruct (rb_path2class w (class_path w c)) as [c'|] eqn:E; [|done].
  case_bool_decide; [|done]. intros [= <-]. by subst.
Qed.

(** A name of a class, written by [w_class] or [w_uclass]. *)
Lemma class_read c type (a a1 : dump_arg) :
  byte type → class_ok w c → (p ← class2path w c; w_unique p (w_byte type a)) = Ok a1 →
  ∃ bs, grew (type :: bs) a a1 ∧ data a1 = data a ∧
    ∀ t (b : load_arg), sym_agree (symbols a) (lsymbols b) → src b = bs ++ t →
      ∃ ts, r_unique b = Ok (class_path w c, mkLoad t ts (ldata b) (lheap b)) ∧ sym_agree (symbols a1) ts ∧
        path2class w (class_path w c) = Ok c.
Proof.
  intros Hb [Hc Hm] (p & Ep & E)%bind_ok. apply class2path_inv in Ep as [-> Ep]. unfold w_unique in E.
  case_bool_decide; [done|]. pose proof (w_byte_lit type a Hb) as Hw.
  destruct (symbol_read _ _ _ E Hc) as (bs & Hg & _ & Hd & Hr). exists bs. split_and!.
  - apply (grew_trans [type] bs _ (w_byte type a)); [by apply grew_wrote|done].
  - rewrite Hd. apply Hw.
  - intros t b Hsym Hs. destruct (Hr t b) as (ts & Er & Hts); [by rewrite (wrote_symbols _ _ _ Hw)|done|].
    exists ts. split_and!; [done|done|]. unfold path2class. by rewrite Ep, Hm.
Qed.

Lemma agree_klass a b n c o o' :
  agree a b → lheap b !! n = Some o → set_klass c o = Ok o' → agree a (set_obj n o' b).
Proof.
  intros [Hs [H1 H2 H3 H4 H5 H6 H7]] Hn Ho. split; [done|]. split; cbn; rewrite ?length_insert; try done.
  intros l m k s E1 E2. destruct (H7 l m k s E1 E2) as (k' & E3). destruct (decide (n = Z.to_nat m)) as [->|Hne].
  - rewrite E3 in Hn. injection Hn as <-. injection Ho as <-. exists (Some c). apply list_lookup_insert_eq. by eapply lookup_lt_Some.
  - exists k'. by rewrite list_lookup_insert_ne.
Qed.

(** The object in the core class, to which the reader then gives its class. *)
Definition in_class (c : cid) (o o1 : obj) (t : otype) : Prop :=
  TYPE o = t ∧ klass_of w o = Ok (core_class w t) ∧
  ∀ D o', orel D o o' → TYPE o' = t ∧ klass_of w o' = Ok (core_class w t) ∧ ∃ o1', set_klass c o' = Ok o1' ∧ orel D o1 o1'.

Lemma uclass_contents l c o o1 t a a1 a' :
  w_uclass w (Some c) a = Ok a1 → uclass_ok w t (Some c) → in_class c o o1 t → t ≠ T_CLASS → t ≠ T_MODULE → t ≠ T_OBJECT →
  contents_read l o a1 a' → contents_read l o1 a a'.
Proof.
  intros Ew [Hc Hinh] (_ & _ & Himg) Ht1 Ht2 Ht3 (bs2 & Hg2 & Hl2 & Hr2).
  destruct (class_read c TYPE_UCLASS a a1 ltac:(done) Hc Ew) as (bs1 & Hg1 & Hd & Hr1).
  exists ((TYPE_UCLASS :: bs1) ++ bs2). split_and!; [by eapply grew_trans|cbn; lia|].
  intros f t' b D0 [Hp1 Hp2 Hp3 Hp4] Hs Hf. cbn in Hf. rewrite length_app in Hf. destruct f as [|f]; [lia|].
  destruct (Hr1 (bs2 ++ t') (with_src (bs1 ++ bs2 ++ t') b) Hp1 eq_refl) as (ts & Er1 & Hts & Epc).
  set (b1 := mkLoad _ _ _ _) in Er1.
  destruct (Hr2 f t' b1 D0) as (o' & b2 & Er2 & Hs2 & Hab2 & Hold & En & Ho' & Hfin); [|done|lia|].
  { split; [done|by rewrite Hd|done|]. exact (dat_agree_src h D0 _ _ b Hp4). }
  destruct (Himg _ _ Ho') as (Ht & Hk & o1' & Eset & Ho1). cbn [lheap b1 with_src] in *. set (n := length (lheap b)) in *.
  exists o1', (set_obj n o1' b2). split_and!.
  - rewrite (src_with _ _ Hs) at 1. cbn [app]. rewrite <- app_assoc, r_object0_cons. unfold r_case.
    cbn -[r_unique r_object0 r_uclass path2class]. rewrite Er1. cbn [mbind res_bind]. rewrite Epc. cbn [mbind res_bind]. rewrite Er2.
    cbn [mbind res_bind r_uclass]. unfold get_obj. rewrite En. cbn [of_option mbind res_bind].
    assert (rb_class_inherited_p w c (core_class w t) || bool_decide (alloc_type w c = TYPE o') = true) as Hcond.
    { rewrite Ht. apply orb_true_iff. rewrite bool_decide_eq_true. done. }
    destruct o'; cbn in Ht; subst t; try done; rewrite Hk; cbn [mbind res_bind]; rewrite Hcond; rewrite Eset; done.
  - done.
  - by eapply agree_klass.
  - intros i Hi. cbn. rewrite list_lookup_insert_ne by lia. by apply Hold.
  - cbn. apply list_lookup_insert_eq. by eapply lookup_lt_Some.
  - done.
  - intros l' m E Hm. eapply finished_frame; [by apply Hfin|done|]. cbn. apply list_lookup_insert_ne. lia.
Qed.

Section cases.
Context (wr : value → dump_arg → res dump_arg).
Hypothesis IH : ∀ v a a', heap a = h → val_ok v → wr v a = Ok a' → simulated v a a'.
Hypothesis CF : CFEqual_law w.

Lemma array_contents l a a' vs :
  heap a = h → (∀ k s, h !! l ≠ Some (OString k s)) → Forall val_ok vs →
  (a ← w_long (zlen vs) (w_byte TYPE_ARRAY a); w_all wr vs a) = Ok a' → contents_read l (OArray None vs) a a'.
Proof.
  intros Hh Hno Hok (a1 & E1 & E2)%bind_ok. destruct (w_long_inv _ _ _ E1) as (bs1 & Hw1 & (_ & Hl1 & Hr1) & _).
  pose proof (wrote_app _ _ _ _ _ (w_byte_lit TYPE_ARRAY a ltac:(done)) Hw1) as Hw. destruct Hw as [W1 W2 W3 W4 W5] eqn:HW. clear HW.
  assert (heap a1 = h) as Hh1 by congruence.
  destruct (fill_spec wr (λ f n, r_item (r_object0 w f None) n) val_ok (λ _ _, True) array_inv vs a1 a') as (bs2 & Hg2 & Hl2 & Hr2);
    [intros f n; by apply array_round|done|done|done|].
  exists ((TYPE_ARRAY :: bs1) ++ bs2). split_and!; [by eapply grew_trans; [apply grew_wrote|]|cbn; lia|].
  intros f t b D0 [Hp1 Hp2 Hp3 Hp4] Hs Hf. cbn in Hf. rewrite length_app in Hf. destruct f as [|f]; [lia|].
  destruct (Hr2 f f t (with_src (bs2 ++ t) b) D0 l (OArray None []) ()) as (u & b' & Er & Hs' & Hab' & Hold & Hfin & vs' & En & Hvs);
    [done| |done|lia|lia|done| |].
  { split; [by rewrite W2|by rewrite W3|done|by apply dat_agree_src]. }
  { exists []. split; [|constructor]. cbn. by rewrite lookup_app_r, Nat.sub_diag. }
  exists (OArray None vs'), b'. split_and!; [|done|done|done|done|by exists vs'|done].
  rewrite (src_with _ _ Hs) at 1. cbn [app]. rewrite <- app_assoc, r_object0_cons. unfold r_case. cbn -[r_array r_object0 with_src].
  unfold r_array. rewrite Hr1. cbn [mbind res_bind]. pose proof (zlen_nonneg vs). rewrite (proj2 (Z.ltb_ge _ 0)) by done.
  unfold new_entry in Er |- *. cbn [snd] in Er. rewrite Er. done.
Qed.

Lemma hash_contents l a a' ps xs :
  heap a = h → (∀ k s, h !! l ≠ Some (OString k s)) → Forall (λ p, val_ok p.1 ∧ val_ok p.2) ps →
  Forall2 (λ p x, keyval (λ l, h !! l) p.1 = Some x) ps xs → NoDup xs →
  (a ← w_long (zlen ps) (w_byte TYPE_HASH a); w_all (w_pair wr) ps a) = Ok a' → contents_read l (OHash None ps) a a'.
Proof.
  intros Hh Hno Hok Hxs Hnd (a1 & E1 & E2)%bind_ok. destruct (w_long_inv _ _ _ E1) as (bs1 & Hw1 & (_ & Hl1 & Hr1) & _).
  pose proof (wrote_app _ _ _ _ _ (w_byte_lit TYPE_HASH a ltac:(done)) Hw1) as Hw. destruct Hw as [W1 W2 W3 W4 W5] eqn:HW. clear HW.
  assert (heap a1 = h) as Hh1 by congruence.
  destruct (fill_spec (w_pair wr) (λ f n, r_pair w (r_object0 w f None) n) (λ p, val_ok p.1 ∧ val_ok p.2) new_key hash_inv ps a1 a') as (bs2 & Hg2 & Hl2 & Hr2);
    [intros f n; by apply hash_round|done|done|done|].
  exists ((TYPE_HASH :: bs1) ++ bs2). split_and!; [by eapply grew_trans; [apply grew_wrote|]|cbn; lia|].
  intros f t b D0 [Hp1 Hp2 Hp3 Hp4] Hs Hf. cbn in Hf. rewrite length_app in Hf. destruct f as [|f]; [lia|].
  destruct (Hr2 f f t (with_src (bs2 ++ t) b) D0 l (OHash None []) ()) as (u & b' & Er & Hs' & Hab' & Hold & Hfin & ps' & En & Hps);
    [| |done|lia|lia|done| |].
  { intros l1 p l2 ->. apply Forall2_app_inv_l in Hxs as (xs1 & xs2 & H1 & H2 & ->). inversion H2 as [|? x ? ? Hx Hrest]; subst.
    exists xs1, x. split_and!; [done|done|]. apply NoDup_app in Hnd as (_ & Hd & _). intros Hin. apply (Hd x Hin). by left. }
  { split; [by rewrite W2|by rewrite W3|done|by apply dat_agree_src]. }
  { exists []. split; [|constructor]. cbn. by rewrite lookup_app_r, Nat.sub_diag. }
  exists (OHash None ps'), b'. split_and!; [|done|done|done|done|by exists ps'|done].
  rewrite (src_with _ _ Hs) at 1. cbn [app]. rewrite <- app_assoc, r_object0_cons. unfold r_case. cbn -[r_hash r_object0 with_src].
  unfold r_hash. rewrite Hr1. cbn [mbind res_bind]. unfold new_entry in Er |- *. cbn [snd] in Er. rewrite Er. done.
Qed.

(** The name of the class and the number of variables, then the variables. *)
Lemma object_contents l a a' c ms :
  heap a = h → (∀ k s, h !! l ≠ Some (OString k s)) → obj_ok w h (OObject c ms) →
  (a ← w_class w TYPE_OBJECT c a; a ← w_long (zlen ms) a; w_all (w_member wr) ms a) = Ok a' →
  contents_read l (OObject c ms) a a'.
Proof.
  intros Hh Hno (Hc & Halloc & Hok & Hnd) (a1 & E1 & (a2 & E2 & E3)%bind_ok)%bind_ok.
  destruct (class_read c TYPE_OBJECT a a1 ltac:(done) Hc E1) as (bs1 & Hg1 & Hd1 & Hr1).
  destruct (w_long_inv _ _ _ E2) as (bs2 & [W1 W2 W3 W4 W5] & (_ & Hl2 & Hr2) & _).
  assert (heap a2 = h) as Hh2 by (rewrite W4, (gr_heap _ _ _ Hg1); done).
  destruct (fill_spec (w_member wr) (λ f n, r_ivar1 (r_object0 w f None) (VRef n)) (λ p, cstr_ok p.1 ∧ val_ok p.2) (λ pre p, p.1 ∉ pre.*1) (λ n, ivar_inv n c) ms a2 a')
    as (bs3 & Hg3 & Hl3 & Hr3); [intros f n; by apply ivar_round|done|exact Hok|done|].
  exists ((TYPE_OBJECT :: bs1) ++ bs2 ++ bs3). split_and!; [|cbn; lia|].
  { eapply grew_trans; [exact Hg1|]. eapply grew_trans; [|exact Hg3]. by apply grew_wrote. }
  intros f t b D0 [Hp1 Hp2 Hp3 Hp4] Hs Hf. cbn in Hf. rewrite !length_app in Hf. destruct f as [|f]; [lia|].
  destruct (Hr1 (bs2 ++ bs3 ++ t) (with_src (bs1 ++ bs2 ++ bs3 ++ t) b) Hp1 eq_refl) as (ts & Er1 & Hts & Epc).
  set (b1 := mkLoad (bs3 ++ t) ts (ldata b) (lheap b)).
  destruct (Hr3 f f t b1 D0 l (OObject c []) ()) as (u & b' & Er & Hs' & Hab' & Hold & Hfin & ms' & En & Hms);
    [| |done|lia|lia|done| |].
  { intros l1 p l2 ->. rewrite fmap_app in Hnd. apply NoDup_app in Hnd as (_ & Hd & _). intros Hin. apply (Hd _ Hin). by left. }
  { split; [by rewrite W2|by rewrite W3, Hd1|done|exact (dat_agree_src h D0 _ _ b Hp4)]. }
  { exists []. split; [|constructor]. cbn. by rewrite lookup_app_r, Nat.sub_diag. }
  exists (OObject c ms'), b'. split_and!; [|done|done|done|done|by exists ms'|done].
  rewrite (src_with _ _ Hs) at 1. cbn [app]. rewrite <- !app_assoc, r_object0_cons. unfold r_case. cbn -[r_object r_object0 with_src].
  unfold r_object. rewrite Er1. cbn [mbind res_bind]. rewrite Epc. cbn [mbind res_bind]. rewrite bool_decide_eq_true_2 by done. cbn [negb].
  unfold new_entry in *. cbn [snd b1 ldata lheap src lsymbols r_entry with_src] in *. unfold r_entry in *. cbn [ldata lheap src lsymbols] in *. unfold r_ivar.
  match goal with |- context [r_long (mkLoad _ _ ?d ?hp)] => pose proof (Hr2 (bs3 ++ t) (mkLoad [] ts d hp)) as Er2 end.
  unfold with_src in Er2. cbn [ldata lheap lsymbols] in Er2. rewrite Er2. cbn [mbind res_bind].
  destruct (Z.ltb_spec 0 (zlen ms)) as [|Hz].
  - rewrite Er. done.
  - pose proof (zlen_nonneg ms). assert (zlen ms = 0) as Hz0 by lia. rewrite Hz0 in Er.
    destruct f as [|f]; [lia|]. cbn [r_loop Z.eqb] in Er. injection Er as <- <-. done.
Qed.

Lemma struct_contents l a a' c ms :
  heap a = h → (∀ k s, h !! l ≠ Some (OString k s)) → obj_ok w h (OStruct c ms) →
  (a ← w_class w TYPE_STRUCT c a; a ← w_long (zlen ms) a; w_all (w_member wr) ms a) = Ok a' →
  contents_read l (OStruct c ms) a a'.
Proof.
  intros Hh Hno (Hc & Halloc & Hok & Hmem) (a1 & E1 & (a2 & E2 & E3)%bind_ok)%bind_ok.
  destruct (class_read c TYPE_STRUCT a a1 ltac:(done) Hc E1) as (bs1 & Hg1 & Hd1 & Hr1).
  destruct (w_long_inv _ _ _ E2) as (bs2 & [W1 W2 W3 W4 W5] & (_ & Hl2 & Hr2) & _).
  assert (heap a2 = h) as Hh2 by (rewrite W4, (gr_heap _ _ _ Hg1); done).
  destruct (fill_spec (w_member wr) (λ f n, r_member (r_object0 w f None) (struct_members w c)) (λ p, cstr_ok p.1 ∧ val_ok p.2)
    (λ pre p, struct_members w c !! length pre = Some p.1) (λ n, member_inv n) ms a2 a')
    as (bs3 & Hg3 & Hl3 & Hr3); [intros f n; by apply member_round|done|exact Hok|done|].
  exists ((TYPE_STRUCT :: bs1) ++ bs2 ++ bs3). split_and!; [|cbn; lia|].
  { eapply grew_trans; [exact Hg1|]. eapply grew_trans; [|exact Hg3]. by apply grew_wrote. }
  intros f t b D0 [Hp1 Hp2 Hp3 Hp4] Hs Hf. cbn in Hf. rewrite !length_app in Hf. destruct f as [|f]; [lia|].
  destruct (Hr1 (bs2 ++ bs3 ++ t) (with_src (bs1 ++ bs2 ++ bs3 ++ t) b) Hp1 eq_refl) as (ts & Er1 & Hts & Epc).
  set (b1 := mkLoad (bs3 ++ t) ts (ldata b) (lheap b)). set (o0 := OStruct c ((λ m, (m, VNil)) <$> struct_members w c) : obj).
  destruct (Hr3 f f t b1 D0 l o0 []) as (vs & b' & Er & Hs' & Hab' & Hold & Hfin & Hvs & o & En & Ho);
    [| |done|lia|lia|done| |].
  { intros l1 p l2 ->. rewrite <- Hmem, fmap_app, lookup_app_r, length_fmap, Nat.sub_diag by (rewrite length_fmap; lia). done. }
  { split; [by rewrite W2|by rewrite W3, Hd1|done|exact (dat_agree_src h D0 _ _ b Hp4)]. }
  { split; [constructor|]. exists o0. split; [|done]. cbn. by rewrite lookup_app_r, Nat.sub_diag. }
  cbn [lheap b1] in *. set (n := length (lheap b)) in *. set (o' := OStruct c (zip (struct_members w c) vs)).
  exists o', (set_obj n o' b'). split_and!.
  - rewrite (src_with _ _ Hs) at 1. cbn [app]. rewrite <- !app_assoc, r_object0_cons. unfold r_case. cbn -[r_struct r_object0 with_src].
    unfold r_struct. rewrite Er1. cbn [mbind res_bind]. rewrite Epc. cbn [mbind res_bind].
    cbn [ldata lheap src lsymbols with_src].
    pose proof (Hr2 (bs3 ++ t) (mkLoad [] ts (ldata b) (lheap b))) as Er2. unfold with_src in Er2. cbn [ldata lheap lsymbols] in Er2.
    rewrite Er2. cbn [mbind res_bind]. rewrite bool_decide_eq_true_2 by done. cbn [negb].
    assert (zlen (struct_members w c) = zlen ms) as -> by (rewrite <- Hmem; unfold zlen; by rewrite length_fmap).
    rewrite Z.eqb_refl. cbn [negb]. fold b1 o0. unfold new_entry in *. cbn [snd] in Er. rewrite Er. done.
  - done.
  - eapply agree_set; [done|done|congruence].
  - intros i Hi. cbn. rewrite list_lookup_insert_ne by lia. by apply Hold.
  - cbn. apply list_lookup_insert_eq. by eapply lookup_lt_Some.
  - exists (zip (struct_members w c) vs). split; [done|]. rewrite <- Hmem. clear -Hvs. revert vs Hvs.
    induction ms as [|[i v] ms IHm]; intros [|x vs] Hvs; inversion Hvs; subst; constructor; [done|by apply IHm].
  - intros l' m E Hm. eapply finished_frame; [by apply Hfin|done|]. cbn. apply list_lookup_insert_ne. lia.
Qed.

Lemma string_contents l a a' k s :
  h !! l = Some (OString k s) → cstr_ok s → ascii s → w_rstring s (w_byte TYPE_STRING a) = Ok a' → contents_read l (OString None s) a a'.
Proof.
  intros Hl Hs Ha E. rewrite w_rstring_ascii in E by done. eapply w_bytes_contents; [|exact E|by apply cstr_byte| |done|]; [done| |].
  - intros k' s' E'. rewrite Hl in E'. injection E' as <- <-. by exists None.
  - intros f b b' Eb. unfold r_case. cbn -[r_string]. unfold r_string. rewrite Eb. cbn. by rewrite strz_ok.
Qed.

(** An object of a core class, or of a subclass after its prefix. *)
Lemma core_contents l t k (o : option cid → obj) a a1 a' :
  w_uclass w k a = Ok a1 → uclass_ok w t k → contents_read l (o None) a1 a' →
  (∀ c, in_class c (o None) (o (Some c)) t) → t ≠ T_CLASS → t ≠ T_MODULE → t ≠ T_OBJECT → contents_read l (o k) a a'.
Proof.
  intros E Hk Hc Hin H1 H2 H3. destruct k as [c|]; [by eapply uclass_contents|]. injection E as <-. done.
Qed.

Lemma regexp_contents l a a' s i :
  (∀ k s, h !! l ≠ Some (OString k s)) → cstr_ok s → 0 ≤ i < 256 → reg_ok w s i = true →
  (a ← w_bytes s (w_byte TYPE_REGEXP a); Ok (w_byte i a)) = Ok a' → contents_read l (ORegexp None s i) a a'.
Proof.
  intros Hno Hs Hi Hreg (a1 & E & [= <-])%bind_ok. destruct (w_bytes_inv _ _ _ E (cstr_byte _ Hs)) as (bs & Hw & _ & Hrd).
  apply (contents_leaf l _ a _ TYPE_REGEXP (bs ++ [i])).
  - change (TYPE_REGEXP :: bs ++ [i]) with ((TYPE_REGEXP :: bs) ++ [i]). eapply wrote_app; [|by apply w_byte_lit].
    eapply (wrote_app [TYPE_REGEXP]); [by apply w_byte_lit|exact Hw].
  - intros k s' E'. by destruct (Hno k s').
  - done.
  - intros f t b. unfold r_case. cbn -[r_bytes r_byte with_src]. rewrite <- app_assoc, Hrd. cbn [mbind res_bind app]. rewrite r_byte_cons.
    cbn [mbind res_bind]. by rewrite strz_ok, Hreg.
Qed.

Lemma path_contents l a a' c (m : bool) :
  let o := if m then OModule c else OClass c : obj in
  (∀ k s, h !! l ≠ Some (OString k s)) → cstr_ok (class_path w c) → is_module w c = m → ascii (class_path w c) →
  (p ← class2path w c; w_rstring p (w_byte (if m then TYPE_MODULE else TYPE_CLASS) a)) = Ok a' → contents_read l o a a'.
Proof.
  intros o Hno Hc Hm Ha (p & [-> Ep]%class2path_inv & E)%bind_ok. rewrite w_rstring_ascii in E by done. eapply w_bytes_contents; [|exact E|by apply cstr_byte| | |].
  - by destruct m.
  - intros k s E'. by destruct (Hno k s).
  - by destruct m.
  - intros f b b' Eb. unfold o, r_case. destruct m; cbn; rewrite Eb; cbn; unfold path2class, path2module;
      rewrite strz_ok by done; rewrite Ep, Hm; done.
Qed.

Lemma contents_spec l o a a' :
  heap a = h → h !! l = Some o → obj_ok w h o → w_contents w wr o a = Ok a' → contents_read l o a a'.
Proof.
  intros Hh Hl Hok E.
  assert (TYPE o ≠ T_STRING → ∀ k s, h !! l ≠ Some (OString k s)) as Hno by (intros Ht k s E'; rewrite Hl in E'; by injection E' as ->).
  destruct o as [k s|k s i|k vs|k ps|b|c|c|c ms|c ms|]; cbn [w_contents] in E; try done.
  - destruct Hok as (Hk & Hs & Ha). apply bind_ok in E as (a1 & E1 & E2).
    apply (core_contents l T_STRING k (λ k, OString k s) a a1); [done|done|by eapply string_contents| |done..].
    intros c. split_and!; [done..|]. intros D o' ->. split_and!; [done..|]. by eexists.
  - destruct Hok as (-> & Hs & Hi & Hreg). by apply regexp_contents; [apply Hno|..].
  - destruct Hok as [Hk Hvs]. apply bind_ok in E as (a1 & E1 & E2). assert (heap a1 = h) as Hh1.
    { destruct k as [c|]; [|by injection E1 as <-].
      destruct (class_read c TYPE_UCLASS a a1 ltac:(done) (proj1 Hk) E1) as (? & Hg & _). by rewrite (gr_heap _ _ _ Hg). }
    apply (core_contents l T_ARRAY k (λ k, OArray k vs) a a1); [done|done|apply array_contents; (done || by apply Hno)| |done..].
    intros c. split_and!; [done..|]. intros D o' (vs' & -> & Hr). split_and!; [done..|]. eexists. split; [done|]. by exists vs'.
  - destruct Hok as (Hk & Hps & xs & Hxs & Hnd). apply bind_ok in E as (a1 & E1 & E2). assert (heap a1 = h) as Hh1.
    { destruct k as [c|]; [|by injection E1 as <-].
      destruct (class_read c TYPE_UCLASS a a1 ltac:(done) (proj1 Hk) E1) as (? & Hg & _). by rewrite (gr_heap _ _ _ Hg). }
    apply (core_contents l T_HASH k (λ k, OHash k ps) a a1); [done|done|apply (hash_contents l a1 a' ps xs); (done || by apply Hno)| |done..].
    intros c. split_and!; [done..|]. intros D o' (ps' & -> & Hr). split_and!; [done..|]. eexists. split; [done|]. by exists ps'.
  - destruct Hok as [[Hc Hm] Ha]. by apply (path_contents l a a' c false); [apply Hno|..].
  - destruct Hok as [[Hc Hm] Ha]. by apply (path_contents l a a' c true); [apply Hno|..].
  - apply object_contents; [done|by apply Hno|done|done].
  - apply struct_contents; [done|by apply Hno|done|done].
Qed.
End cases.

(** ** The whole graph *)

Lemma simulated_new l o a a' :
  data a !! l = None → h !! l = Some o → contents_read l o (add_data l a) a' → simulated (VRef l) a a'.
Proof.
  intros El Hl (bs & Hg & Hlen & Hr). exists bs. split_and!; [|done|].
  - apply (grew_trans [] bs a (add_data l a)); [|done]. split; cbn; [by rewrite app_nil_r|done|by apply insert_subseteq|].
    intros l' n [[<- <-]|[_ E]]%lookup_insert_Some Hn; [lia|done].
  - intros f t b [Hsym Hdat] Hs Hf. destruct (Hr f t b (data a)) as (o' & b' & Er & Hs' & Hab' & Hold & En & Ho & Hfin); [by split|done|done|].
    set (n := length (lheap b)) in *.
    assert (data a' !! l = Some (Z.of_nat n)) as El'.
    { eapply lookup_weaken; [|apply Hg]. cbn. rewrite lookup_insert_eq. by rewrite (da_len _ _ _ Hdat). }
    exists (VRef n), b'. split_and!; [done|done|done| |by exists n]. split.
    + apply Nat.lt_le_incl. by eapply lookup_lt_Some.
    + intros i Hi _. by apply Hold.
    + intros l' m E Hm. destruct (decide (m = Z.of_nat n)) as [->|Hne].
      * assert (l' = l) as -> by (by eapply (da_inj _ _ _ (ag_dat _ _ _ Hab'))). exists o, o'. by rewrite Nat2Z.id.
      * apply Hfin; [done|]. unfold n in *. lia.
Qed.

Hypothesis CF : CFEqual_law w.
Hypothesis Hok : ∀ l o, h !! l = Some o → obj_ok w h o.

Lemma w_object_simulated fuel limit v a a' :
  heap a = h → val_ok v → w_object w fuel limit v a = Ok a' → simulated v a a'.
Proof.
  revert limit v a a'. induction fuel as [|fuel IH]; intros limit v a a' Hh Hv E; [done|]. cbn [w_object] in E.
  destruct (limit =? 0); [done|]. destruct v as [| | |n|f|id|l].
  - injection E as <-. by apply simulated_byte.
  - injection E as <-. by apply simulated_byte.
  - injection E as <-. by apply simulated_byte.
  - cbn in Hv. assert ((Z.shiftr (INT2FIX n) 31 =? 0) || (Z.shiftr (INT2FIX n) 31 =? -1) = true) as Hf.
    { apply fits31. unfold INT2FIX. lia. }
    rewrite Hf in E. eapply simulated_long; [|exact E|done|]; [done|]. intros f b b' Er _ _. unfold r_case. cbn -[r_long]. rewrite Er.
    cbn. by rewrite LONG2FIX_small by lia.
  - done.
  - by apply simulated_symbol.
  - destruct (data a !! l) as [num|] eqn:El; [by eapply simulated_link|].
    apply bind_ok in E as (o & Eo%of_option_ok & E). rewrite Hh in Eo. eapply simulated_new; [done|done|].
    apply (contents_spec (w_object w fuel (limit - 1))); [|done|done|done|by eapply Hok|exact E].
    intros v a1 a2 Hh1 Hv1 E1. by eapply IH.
Qed.
End contents.
