(* ===== verification/MarshalTerm.v ===== *)
(** * marshal.c: termination of the writer and the reader

    The reader consumes a byte at each level of the recursion and at each round of
    a loop, whatever the input is; the writer enters an object that it has not met
    at each level. *)

From S2P Require Import Prelude Util Big Marshal.

Section reader.
Context {float : Type} (w : world float).
Notation value := (value float).
Notation load_arg := (@load_arg float).

(** [m], run on [a], does not run out of fuel, and consumes at least [k] bytes. *)
Definition left (a : load_arg) : nat := length (src a).

Definition eats {A} (k : nat) (a : load_arg) (m : res (A * load_arg)) : Prop :=
  match m with Ok (_, a') => (left a' + k ≤ left a)%nat | Err e => e ≠ NoFuel end.

Definition keeps (a : load_arg) (m : res load_arg) : Prop :=
  match m with Ok a' => (left a' ≤ left a)%nat | Err e => e ≠ NoFuel end.

Lemma eats_ret {A} (x : A) a : eats 0 a (Ok (x, a)).
Proof. cbn. lia. Qed.

Lemma eats_same {A} (x : A) a a' : left a' = left a → eats 0 a (Ok (x, a')).
Proof. cbn. lia. Qed.

Lemma eats_err {A} k a e : e ≠ NoFuel → eats (A := A) k a (Err e).
Proof. done. Qed.

Lemma eats_bind {A B} k1 k2 a (m : res (A * load_arg)) (g : A * load_arg → res (B * load_arg)) :
  eats k1 a m → (∀ x a', (left a' + k1 ≤ left a)%nat → eats k2 a' (g (x, a'))) → eats (k1 + k2) a (m ≫= g).
Proof.
  destruct m as [[x a']|e]; cbn [mbind res_bind]; [|done]. intros H1 H2. specialize (H2 x a' H1). unfold eats in *.
  destruct (g (x, a')) as [[y a2]|e]; [lia|done].
Qed.

Lemma eats_weaken {A} k k' a (m : res (A * load_arg)) : eats k a m → (k' ≤ k)%nat → eats k' a m.
Proof. unfold eats. destruct m as [[x a']|e]; [lia|done]. Qed.

Lemma eats_bind0 {A B} k a (m : res (A * load_arg)) (g : A * load_arg → res (B * load_arg)) :
  eats k a m → (∀ x a', (left a' + k ≤ left a)%nat → eats 0 a' (g (x, a'))) → eats k a (m ≫= g).
Proof. intros H1 H2. pose proof (eats_bind k 0 a m g H1 H2) as H. by rewrite Nat.add_0_r in H. Qed.

Lemma eats_bind_res {A B} k a (m : res A) (g : A → res (B * load_arg)) :
  m ≠ Err NoFuel → (∀ x, eats k a (g x)) → eats k a (m ≫= g).
Proof. destruct m as [x|e]; cbn [mbind res_bind]; intros H1 H2; [apply H2|]. cbn. congruence. Qed.

Lemma eats_keeps {B} a (m : res load_arg) (g : load_arg → res (B * load_arg)) :
  keeps a m → (∀ a', (left a' ≤ left a)%nat → eats 0 a' (g a')) → eats 0 a (m ≫= g).
Proof.
  destruct m as [a'|e]; cbn [mbind res_bind]; [|done]. intros H1 H2. specialize (H2 a' H1). unfold eats in *.
  destruct (g a') as [[y a2]|e]; [cbn in H1; lia|done].
Qed.

Lemma r_byte_eats a : eats 1 a (r_byte a).
Proof. unfold eats, r_byte, left. destruct a as [[|c s] ts d hp]; cbn; [done|lia]. Qed.

Lemma r_long_pos_eats n i x a : eats 0 a (r_long_pos n i x a).
Proof.
  revert i x a. induction n as [|n IH]; intros i x a; cbn [r_long_pos]; [apply eats_ret|].
  eapply (eats_weaken 1); [|lia]. eapply eats_bind0; [apply r_byte_eats|]. intros b a' _. apply IH.
Qed.

Lemma r_long_neg_eats n i x a : eats 0 a (r_long_neg n i x a).
Proof.
  revert i x a. induction n as [|n IH]; intros i x a; cbn [r_long_neg]; [apply eats_ret|].
  eapply (eats_weaken 1); [|lia]. eapply eats_bind0; [apply r_byte_eats|]. intros b a' _. apply IH.
Qed.

Lemma r_long_eats a : eats 1 a (r_long a).
Proof.
  unfold r_long. eapply eats_bind0; [apply r_byte_eats|]. intros b a' _. repeat case_match; try apply eats_ret; try done.
  - apply r_long_pos_eats.
  - apply r_long_neg_eats.
Qed.

Lemma r_bytes0_eats len a : eats 0 a (r_bytes0 len a).
Proof.
  unfold r_bytes0. repeat case_match; try done; [apply eats_ret|]. unfold eats, left. cbn. rewrite length_drop. lia.
Qed.

Lemma r_bytes_eats a : eats 1 a (r_bytes a).
Proof. unfold r_bytes. eapply eats_bind0; [apply r_long_eats|]. intros len a' _. apply r_bytes0_eats. Qed.

Lemma r_symlink_eats a : eats 1 a (r_symlink a).
Proof. unfold r_symlink. eapply eats_bind0; [apply r_long_eats|]. intros n a' _. case_match; [apply eats_ret|done]. Qed.

Lemma r_symreal_eats a : eats 1 a (r_symreal a).
Proof. unfold r_symreal. eapply eats_bind0; [apply r_bytes_eats|]. intros n a' _. by apply eats_same. Qed.

Lemma r_symbol_eats a : eats 1 a (r_symbol a).
Proof.
  unfold r_symbol. eapply eats_bind0; [apply r_byte_eats|]. intros c a' _. repeat case_match; [| |done].
  - eapply eats_weaken; [apply r_symreal_eats|lia].
  - eapply eats_weaken; [apply r_symlink_eats|lia].
Qed.

Lemma get_obj_fuel l (a : load_arg) : get_obj l a ≠ Err NoFuel.
Proof. unfold get_obj. by destruct (lheap a !! l). Qed.

Lemma path2class_fuel p : path2class w p ≠ Err NoFuel.
Proof. unfold path2class. by repeat case_match. Qed.

Lemma path2module_fuel p : path2module w p ≠ Err NoFuel.
Proof. unfold path2module. by repeat case_match. Qed.

Lemma rb_ary_push_keeps l v a : keeps a (rb_ary_push l v a).
Proof. unfold rb_ary_push, get_obj, keeps. destruct (lheap a !! l) as [[]|]; unfold left; cbn; (done || lia). Qed.

Lemma rb_hash_aset_keeps l k v a : keeps a (rb_hash_aset w l k v a).
Proof. unfold rb_hash_aset, get_obj, keeps. destruct (lheap a !! l) as [[]|]; unfold left; cbn; (done || lia). Qed.

Lemma rb_ivar_set_keeps v id x a : keeps a (rb_ivar_set v id x a).
Proof. unfold rb_ivar_set, get_obj, keeps. destruct v; try done. destruct (lheap a !! l) as [[]|]; unfold left; cbn; (done || lia). Qed.

Lemma r_uclass_keeps c v a : keeps a (r_uclass w c v a).
Proof.
  unfold r_uclass, get_obj, keeps. destruct v as [| | | | | |l]; try done. destruct (lheap a !! l) as [o|]; [|done]. cbn [of_option mbind res_bind].
  destruct o; cbn; try done; repeat case_match; simplify_eq/=; unfold left; cbn; (done || lia).
Qed.

Lemma r_loop_eats {S} k len (body : S → load_arg → res (S * load_arg)) s a :
  (left a < k)%nat → (∀ s a', (left a' ≤ left a)%nat → eats 1 a' (body s a')) → eats 0 a (r_loop k len body s a).
Proof.
  revert len s a. induction k as [|k IH]; intros len s a Hk Hb; [lia|]. cbn [r_loop]. destruct (len =? 0); [apply eats_ret|].
  eapply (eats_weaken 1); [|lia]. eapply eats_bind0; [by apply Hb|]. intros s' a' Ha. apply IH; [lia|].
  intros s2 a2 Ha2. apply Hb. lia.
Qed.

Lemma enter_eats {B} o (a : load_arg) (g : nat → load_arg → res (B * load_arg)) :
  (∀ l a1, left a1 = left a → eats 0 a1 (g l a1)) → eats 0 a (let '(l, a1) := new_entry o a in g l a1).
Proof.
  intros H. unfold new_entry. specialize (H (length (lheap a)) _ (eq_refl : left (snd (new_entry o a)) = left a)). exact H.
Qed.

Section level.
Context (rd : load_arg → res (value * load_arg)) (f : nat).
Hypothesis Hrd : ∀ a, (left a < f)%nat → eats 1 a (rd a).

Lemma r_item_eats l u a : (left a < f)%nat → eats 1 a (r_item rd l u a).
Proof.
  intros Ha. unfold r_item. eapply eats_bind0; [by apply Hrd|]. intros v a' _.
  eapply eats_keeps; [apply rb_ary_push_keeps|]. intros a2 _. apply eats_ret.
Qed.

Lemma r_pair_eats l u a : (left a < f)%nat → eats 1 a (r_pair w rd l u a).
Proof.
  intros Ha. unfold r_pair. eapply eats_bind0; [by apply Hrd|]. intros k a' Ha'.
  eapply (eats_weaken 1); [|lia]. eapply eats_bind0; [apply Hrd; lia|]. intros v a2 _.
  eapply eats_keeps; [apply rb_hash_aset_keeps|]. intros a3 _. apply eats_ret.
Qed.

Lemma r_ivar1_eats v u a : (left a < f)%nat → eats 1 a (r_ivar1 rd v u a).
Proof.
  intros Ha. unfold r_ivar1. eapply eats_bind0; [apply r_symbol_eats|]. intros id a' Ha'.
  eapply (eats_weaken 1); [|lia]. eapply eats_bind0; [apply Hrd; lia|]. intros x a2 _.
  eapply eats_keeps; [apply rb_ivar_set_keeps|]. intros a3 _. apply eats_ret.
Qed.

Lemma r_member_eats mem vs a : (left a < f)%nat → eats 1 a (r_member rd mem vs a).
Proof.
  intros Ha. unfold r_member. eapply eats_bind0; [apply r_symbol_eats|]. intros id a' Ha'.
  apply eats_bind_res; [by destruct (mem !! length vs)|]. intros m. case_bool_decide; [|done].
  eapply (eats_weaken 1); [|lia]. eapply eats_bind0; [apply Hrd; lia|]. intros x a2 _. apply eats_ret.
Qed.

Lemma r_ivar_keeps v a : (left a < f)%nat → keeps a (r_ivar rd f v a).
Proof.
  intros Ha. unfold r_ivar. pose proof (r_long_eats a) as H1. destruct (r_long a) as [[len a1]|e]; [|done]. cbn [mbind res_bind].
  cbn in H1. destruct (0 <? len); [|cbn; lia].
  pose proof (r_loop_eats f len (r_ivar1 rd v) () a1 ltac:(lia)) as H2.
  destruct (r_loop f len (r_ivar1 rd v) () a1) as [[u a2]|e]; cbn [mbind res_bind keeps].
  - cbn in H2. assert (left a2 + 0 ≤ left a1)%nat; [|lia]. apply H2. intros s a' Ha'. apply r_ivar1_eats. lia.
  - apply H2. intros s a' Ha'. apply r_ivar1_eats. lia.
Qed.

Lemma entered_eats o a : eats 0 a (entered o a).
Proof. unfold entered, new_entry. by apply eats_same. Qed.

Lemma r_array_eats a : (left a < f)%nat → eats 1 a (r_array rd f a).
Proof.
  intros Ha. unfold r_array. eapply eats_bind0; [apply r_long_eats|]. intros len a' Ha'. destruct (len <? 0); [done|].
  apply enter_eats. intros l a1 H1. eapply (eats_bind0 0); [|intros u a2 _; apply eats_ret].
  eapply r_loop_eats; [lia|]. intros s a2 Ha2. apply r_item_eats. lia.
Qed.

Lemma r_hash_eats a : (left a < f)%nat → eats 1 a (r_hash w rd f a).
Proof.
  intros Ha. unfold r_hash. eapply eats_bind0; [apply r_long_eats|]. intros len a' Ha'.
  apply enter_eats. intros l a1 H1. eapply (eats_bind0 0); [|intros u a2 _; apply eats_ret].
  eapply r_loop_eats; [lia|]. intros s a2 Ha2. apply r_pair_eats. lia.
Qed.

Lemma r_struct_eats a : (left a < f)%nat → eats 1 a (r_struct w rd f a).
Proof.
  intros Ha. unfold r_struct. eapply eats_bind0; [apply r_symbol_eats|]. intros p a' Ha'.
  apply eats_bind_res; [apply path2class_fuel|]. intros c. eapply (eats_weaken 1); [|lia].
  eapply eats_bind0; [apply r_long_eats|]. intros len a2 Ha2. case_bool_decide; [|done]. cbn [negb].
  destruct (zlen (struct_members w c) =? len); [|done]. cbn [negb]. eapply (eats_weaken 0); [|lia].
  apply enter_eats. intros l a1 H1. eapply (eats_bind0 0); [|intros u a3 _; by apply eats_same].
  eapply r_loop_eats; [lia|]. intros s a3 Ha3. apply r_member_eats. lia.
Qed.

Lemma r_object_eats a : (left a < f)%nat → eats 1 a (r_object w rd f a).
Proof.
  intros Ha. unfold r_object. eapply eats_bind0; [apply r_symbol_eats|]. intros p a' Ha'.
  apply eats_bind_res; [apply path2class_fuel|]. intros c. case_bool_decide; [|done]. cbn [negb].
  apply enter_eats. intros l a1 H1. eapply eats_keeps; [|intros a2 _; apply eats_ret]. apply r_ivar_keeps. lia.
Qed.

Lemma leave_eats proc a m : eats 0 a m → eats 0 a (leave proc m).
Proof. intros Hm. eapply (eats_bind0 0); [exact Hm|]. intros v a' _. apply eats_ret. Qed.

Lemma bignorm_nil s : bignorm (mkBig s []) = Ok (Fixnum 0).
Proof. by destruct s. Qed.

Lemma r_bignum_eats (a : load_arg) : eats 0 a (r_bignum a).
Proof.
  unfold r_bignum. eapply (eats_weaken 1); [|lia]. eapply eats_bind0; [apply r_byte_eats|]. intros s a1 _.
  eapply (eats_weaken 1); [|lia]. eapply eats_bind0; [apply r_long_eats|]. intros len a2 _.
  eapply (eats_bind0 0); [apply r_bytes0_eats|]. intros bs a3 _. destruct (0 <? _); [done|].
  rewrite bignorm_nil. by apply eats_same.
Qed.

Lemma r_case_eats proc type a : (left a < f)%nat → eats 0 a (r_case w rd f proc type a).
Proof.
  intros Ha. unfold r_case.
  repeat (match goal with |- eats _ _ (if ?c then _ else _) => destruct c end); try apply leave_eats; try apply eats_ret; try done;
    try apply r_bignum_eats; (eapply (eats_weaken 1); [|lia]).
  - eapply eats_bind0; [apply r_long_eats|]. intros id a' _. repeat case_match; try done; apply eats_ret.
  - eapply eats_bind0; [by apply Hrd|]. intros v a' Ha'. eapply eats_keeps; [apply r_ivar_keeps; lia|]. intros a2 _. apply eats_ret.
  - eapply eats_bind0; [apply r_symbol_eats|]. intros p a' Ha'. apply eats_bind_res; [apply path2class_fuel|]. intros c.
    eapply (eats_weaken 1); [|lia]. eapply eats_bind0; [apply Hrd; lia|]. intros v a2 _.
    eapply eats_keeps; [apply r_uclass_keeps|]. intros a3 _. apply eats_ret.
  - eapply eats_bind0; [apply r_long_eats|]. intros id a' _. apply eats_ret.
  - eapply eats_bind0; [apply r_bytes_eats|]. intros id a' _. by apply eats_same.
  - unfold r_string. eapply eats_bind0; [eapply eats_bind0; [apply r_bytes_eats|intros; apply eats_ret]|]. intros s a' _. apply entered_eats.
  - eapply eats_bind0; [apply r_bytes_eats|]. intros s a' _. eapply (eats_weaken 1); [|lia].
    eapply eats_bind0; [apply r_byte_eats|]. intros i a2 _. destruct (reg_ok _ _ _); [apply entered_eats|done].
  - by apply r_array_eats.
  - by apply r_hash_eats.
  - by apply r_struct_eats.
  - by apply r_object_eats.
  - eapply eats_bind0; [apply r_bytes_eats|]. intros s a' _. apply eats_bind_res; [by destruct (rb_path2class w (strz s))|].
    intros c. apply entered_eats.
  - eapply eats_bind0; [apply r_bytes_eats|]. intros s a' _. apply eats_bind_res; [apply path2class_fuel|]. intros c. apply entered_eats.
  - eapply eats_bind0; [apply r_bytes_eats|]. intros s a' _. apply eats_bind_res; [apply path2module_fuel|]. intros c. apply entered_eats.
  - eapply eats_bind0; [apply r_symreal_eats|]. intros id a' _. apply eats_ret.
  - eapply eats_bind0; [apply r_symlink_eats|]. intros id a' _. apply eats_ret.
Qed.
End level.

Lemma r_object0_eats f proc a : (left a < f)%nat → eats 1 a (r_object0 w f proc a).
Proof.
  revert a. induction f as [|f IH]; intros a Ha; [lia|]. cbn [r_object0]. eapply eats_bind0; [apply r_byte_eats|].
  intros type a' Ha'. apply r_case_eats; [done|lia].
Qed.

Lemma marshal_load_fuel f proc s : (length s < f)%nat → marshal_load w f s proc ≠ Err NoFuel.
Proof.
  intros Hf. unfold marshal_load. set (a := mkLoad s ∅ ∅ []). assert (left a = length s) as Hl by done.
  pose proof (r_byte_eats a) as H1. destruct (r_byte a) as [[major a1]|e]; cbn [mbind res_bind]; [|by intros [= ->]].
  pose proof (r_byte_eats a1) as H2. destruct (r_byte a1) as [[minor a2]|e]; cbn [mbind res_bind]; [|by intros [= ->]].
  destruct (_ || _); [done|]. pose proof (r_object0_eats f proc a2) as H3. cbn in H1, H2.
  destruct (r_object0 w f proc a2) as [[v a3]|e]; cbn [mbind res_bind]; [done|]. intros [= ->]. apply H3; [lia|done].
Qed.
End reader.

Section writer.
Context `{J : Junk} {float : Type} (w : world float).
Notation value := (value float).
Notation dump_arg := (@dump_arg float).

(** The objects that have not been met. *)
Definition unmet (a : dump_arg) : nat := size (dom (heap a) ∖ dom (data a)).

(** [m], run on [a], does not run out of fuel, and does not leave more objects to meet. *)
Definition settles (a : dump_arg) (m : res dump_arg) : Prop :=
  match m with Ok a' => (unmet a' ≤ unmet a)%nat | Err e => e ≠ NoFuel end.

Lemma settles_bind a (m : res dump_arg) (g : dump_arg → res dump_arg) :
  settles a m → (∀ a', (unmet a' ≤ unmet a)%nat → settles a' (g a')) → settles a (m ≫= g).
Proof.
  destruct m as [a'|e]; cbn [mbind res_bind]; [|done]. intros H1 H2. specialize (H2 a' H1). unfold settles in *.
  destruct (g a'); [lia|done].
Qed.

Lemma settles_bind_res {A} a (m : res A) (g : A → res dump_arg) :
  m ≠ Err NoFuel → (∀ x, settles a (g x)) → settles a (m ≫= g).
Proof. destruct m as [x|e]; cbn [mbind res_bind]; intros H1 H2; [apply H2|]. cbn. congruence. Qed.

Lemma settles_from a a1 m : (unmet a1 ≤ unmet a)%nat → settles a1 m → settles a m.
Proof. unfold settles. destruct m; [lia|done]. Qed.

Lemma w_nbyte_unmet s a : unmet (w_nbyte s a) = unmet a.
Proof. unfold w_nbyte, unmet. destruct (dest a); [destruct (_ <=? _)|]; done. Qed.

Lemma w_byte_unmet c a : unmet (w_byte c a) = unmet a.
Proof. apply w_nbyte_unmet. Qed.

Lemma w_foldl_unmet bs a : unmet (foldl (λ a b, w_byte b a) a bs) = unmet a.
Proof. revert a. induction bs as [|b bs IH]; intros a; [done|]. cbn [foldl]. by rewrite IH, w_byte_unmet. Qed.

Lemma long_bytes_fuel n i x : long_bytes n i x ≠ Err NoFuel.
Proof.
  revert i x. induction n as [|n IH]; intros i x; cbn [long_bytes]; [done|]. repeat case_match; try done.
  specialize (IH (i + 1) (Z.shiftr x 8)). destruct (long_bytes n (i + 1) (Z.shiftr x 8)) as [[]|e]; cbn; [done|congruence].
Qed.

Lemma w_long_settles x a : settles a (w_long x a).
Proof.
  unfold w_long. repeat (match goal with |- settles _ (if ?c then _ else _) => destruct c end); try done.
  - cbn. by rewrite w_byte_unmet.
  - cbn. by rewrite w_byte_unmet.
  - cbn. by rewrite w_byte_unmet.
  - apply settles_bind_res; [apply long_bytes_fuel|]. intros [c bs]. cbn [settles]. by rewrite w_foldl_unmet.
Qed.

Lemma w_bytes_settles s a : settles a (w_bytes s a).
Proof.
  unfold w_bytes. destruct (_ <=? _); [done|]. eapply settles_bind; [apply w_long_settles|]. intros a' _. cbn. by rewrite w_nbyte_unmet.
Qed.

Lemma w_rstring_settles s a : settles a (w_rstring s a).
Proof. apply w_bytes_settles. Qed.

Lemma w_byte_settles c a m : settles (w_byte c a) m → settles a m.
Proof. apply settles_from. by rewrite w_byte_unmet. Qed.

Lemma w_symbol_settles id a : settles a (w_symbol id a).
Proof.
  unfold w_symbol. case_match; [apply (w_byte_settles TYPE_SYMLINK), w_long_settles|]. apply (w_byte_settles TYPE_SYMBOL).
  eapply settles_bind; [apply w_bytes_settles|]. intros a' _. by apply Nat.le_refl.
Qed.

Lemma class2path_fuel c : class2path w c ≠ Err NoFuel.
Proof. unfold class2path. by repeat case_match. Qed.

Lemma w_class_settles type c a : settles a (w_class w type c a).
Proof.
  unfold w_class. apply settles_bind_res; [apply class2path_fuel|]. intros p. apply (w_byte_settles type).
  unfold w_unique. case_bool_decide; [done|apply w_symbol_settles].
Qed.

Lemma w_uclass_settles k a : settles a (w_uclass w k a).
Proof. destruct k as [c|]; [apply (w_class_settles TYPE_UCLASS)|apply Nat.le_refl]. Qed.

Lemma w_shorts_unmet n b num a : unmet (w_shorts n b num a) = unmet a.
Proof.
  revert num a. induction n as [|n IH]; intros num a; cbn [w_shorts]; [done|]. unfold w_short.
  destruct (_ && _); rewrite ?IH; by rewrite !w_byte_unmet.
Qed.

Lemma w_digits_unmet ds a : unmet (w_digits ds a) = unmet a.
Proof. revert a. induction ds as [|d ds IH]; intros a; cbn [w_digits]; [done|]. by rewrite IH, w_shorts_unmet. Qed.

Lemma w_bignum_settles b a : settles a (w_bignum b a).
Proof.
  unfold w_bignum. apply (w_byte_settles TYPE_BIGNUM). apply settles_bind_res.
  - unfold shortlen, aload. destruct (zlookup _ _); done.
  - intros n. apply (w_byte_settles (if sign b then 43 else 45)). eapply settles_bind; [apply w_long_settles|].
    intros a' _. cbn [settles]. by rewrite w_digits_unmet.
Qed.

Section contents.
Context (wr : value → dump_arg → res dump_arg) (n : nat).
Hypothesis Hwr : ∀ v a, (unmet a ≤ n)%nat → settles a (wr v a).

Lemma w_all_settles {A} (g : A → dump_arg → res dump_arg) xs a :
  (∀ x a, (unmet a ≤ n)%nat → settles a (g x a)) → (unmet a ≤ n)%nat → settles a (w_all g xs a).
Proof.
  intros Hg. revert a. induction xs as [|x xs IH]; intros a Ha; cbn [w_all]; [apply Nat.le_refl|].
  eapply settles_bind; [by apply Hg|]. intros a' Ha'. apply IH. lia.
Qed.

Lemma w_pair_settles p a : (unmet a ≤ n)%nat → settles a (w_pair wr p a).
Proof. intros Ha. eapply settles_bind; [by apply Hwr|]. intros a' Ha'. apply Hwr. lia. Qed.

Lemma w_member_settles p a : (unmet a ≤ n)%nat → settles a (w_member wr p a).
Proof. intros Ha. eapply settles_bind; [apply w_symbol_settles|]. intros a' Ha'. apply Hwr. lia. Qed.

Lemma w_contents_settles o a : (unmet a ≤ n)%nat → settles a (w_contents w wr o a).
Proof.
  intros Ha. destruct o as [k s|k s i|k vs|k ps|b|c|c|c ms|c ms|]; cbn [w_contents]; try done.
  - eapply settles_bind; [apply w_uclass_settles|]. intros a1 _. apply (w_byte_settles TYPE_STRING), w_rstring_settles.
  - apply (w_byte_settles TYPE_REGEXP). eapply settles_bind; [apply w_bytes_settles|]. intros a1 _. cbn. by rewrite w_byte_unmet.
  - eapply settles_bind; [apply w_uclass_settles|]. intros a1 H1. apply (w_byte_settles TYPE_ARRAY).
    eapply settles_bind; [apply w_long_settles|]. rewrite w_byte_unmet. intros a2 H2. apply w_all_settles; [done|lia].
  - eapply settles_bind; [apply w_uclass_settles|]. intros a1 H1. apply (w_byte_settles TYPE_HASH).
    eapply settles_bind; [apply w_long_settles|]. rewrite w_byte_unmet. intros a2 H2. apply w_all_settles; [apply w_pair_settles|lia].
  - apply w_bignum_settles.
  - apply settles_bind_res; [apply class2path_fuel|]. intros p. apply (w_byte_settles TYPE_CLASS), w_rstring_settles.
  - apply settles_bind_res; [apply class2path_fuel|]. intros p. apply (w_byte_settles TYPE_MODULE), w_rstring_settles.
  - eapply settles_bind; [apply w_class_settles|]. intros a1 H1.
    eapply settles_bind; [apply w_long_settles|]. intros a2 H2. apply w_all_settles; [apply w_member_settles|lia].
  - eapply settles_bind; [apply w_class_settles|]. intros a1 H1.
    eapply settles_bind; [apply w_long_settles|]. intros a2 H2. apply w_all_settles; [apply w_member_settles|lia].
Qed.
End contents.

Lemma rb_int2big_fuel n : rb_int2big n ≠ Err NoFuel.
Proof. unfold rb_int2big. destruct (n <? 0); done. Qed.

(** Numbering an object takes it off the objects to meet. *)
Lemma add_data_unmet l o a : data a !! l = None → heap a !! l = Some o → (unmet (add_data l a) < unmet a)%nat.
Proof.
  intros H1 H2. unfold unmet. cbn [add_data data heap]. rewrite dom_insert_L. apply subset_size.
  apply elem_of_dom_2 in H2. apply not_elem_of_dom in H1. set_solver.
Qed.

Lemma box_settles b fuel limit (a : dump_arg) :
  let '(l, a1) := new_obj (OBignum b) a in settles a (w_object w (S fuel) limit (VRef l) a1).
Proof.
  unfold new_obj. set (l := base.fresh (dom (heap a))). set (a1 := mkDump _ _ _ _ _).
  assert (heap a1 !! l = Some (OBignum b)) as Hl by apply lookup_insert_eq.
  assert (unmet a1 ≤ S (unmet a))%nat as H1.
  { unfold unmet. cbn [a1 heap data]. rewrite dom_insert_L.
    transitivity (size ({[l]} ∪ (dom (heap a) ∖ dom (data a)))); [apply subseteq_size; set_solver|].
    rewrite size_union_alt, size_singleton. apply le_n_S, subseteq_size. set_solver. }
  cbn [w_object]. destruct (limit =? 0); [done|]. change (data a1) with (data a). destruct (data a !! l) as [num|] eqn:El.
  - apply (settles_from _ (w_byte TYPE_LINK a1)); [|apply w_long_settles]. rewrite w_byte_unmet. unfold unmet. cbn [a1 heap data].
    rewrite dom_insert_L. apply subseteq_size. apply elem_of_dom_2 in El. set_solver.
  - rewrite Hl. cbn [of_option mbind res_bind w_contents]. apply (settles_from _ (add_data l a1)); [|apply w_bignum_settles].
    pose proof (add_data_unmet l _ a1 El Hl). lia.
Qed.

Lemma w_object_settles fuel limit v a : (unmet a + 2 ≤ fuel)%nat → settles a (w_object w fuel limit v a).
Proof.
  revert limit v a. induction fuel as [|fuel IH]; intros limit v a Hf; [lia|]. cbn [w_object]. destruct (limit =? 0); [done|].
  destruct v as [| | |n|f|id|l].
  - cbn. by rewrite w_byte_unmet.
  - cbn. by rewrite w_byte_unmet.
  - cbn. by rewrite w_byte_unmet.
  - destruct (_ || _); [apply (w_byte_settles TYPE_FIXNUM), w_long_settles|].
    apply settles_bind_res; [apply rb_int2big_fuel|]. intros b. destruct fuel as [|fuel]; [lia|]. apply (box_settles b fuel (limit - 1) a).
  - apply (w_byte_settles TYPE_FLOAT), w_bytes_settles.
  - apply w_symbol_settles.
  - destruct (data a !! l) as [num|] eqn:El; [apply (w_byte_settles TYPE_LINK), w_long_settles|].
    destruct (heap a !! l) as [o|] eqn:Eo; [|done]. cbn [of_option mbind res_bind].
    pose proof (add_data_unmet l o a El Eo). apply (settles_from _ (add_data l a)); [lia|].
    apply w_contents_settles with (n := (unmet a - 1)%nat); [|lia]. intros v a1 Ha1. apply IH. lia.
Qed.

Lemma marshal_dump_fuel fuel h v port limit : (size h + 2 ≤ fuel)%nat → marshal_dump w fuel h v port limit ≠ Err NoFuel.
Proof.
  intros Hf. unfold marshal_dump. set (a := w_byte _ _). pose proof (w_object_settles fuel limit v a) as H.
  assert (unmet a = size h) as Hu.
  { unfold a. rewrite !w_byte_unmet. unfold unmet. cbn [heap data]. rewrite dom_empty_L, difference_empty_L. apply size_dom. }
  destruct (w_object w fuel limit v a) as [a'|e]; cbn [mbind res_bind]; [done|]. intros [= ->]. apply H; [lia|done].
Qed.
End writer.
