(* ===== verification/MarshalThm.v ===== *)
(** * marshal.c: theorems

    [Marshal.load] of a [Marshal.dump] is the same graph of objects, both
    terminate, and what becomes of integers and of links after a Float. *)

From S2P Require Import Prelude Util Big BigVal BigAdd BigThm Marshal MarshalRep MarshalSim MarshalTerm.

Section lemmas.
Context `{J : Junk} {float : Type} (w : world float).
Notation value := (value float).
Notation obj := (obj float).
Notation dump_arg := (@dump_arg float).
Notation load_arg := (@load_arg float).

Lemma header_wrote (a : dump_arg) : wrote [4; 8] a (w_byte MARSHAL_MINOR (w_byte MARSHAL_MAJOR a)).
Proof. apply (wrote_app [4] [8] _ (w_byte MARSHAL_MAJOR a)); by apply w_byte_lit. Qed.

Lemma start_agree (h : gmap nat obj) a : symbols a = ∅ → data a = ∅ → agree h a (mkLoad [] ∅ ∅ []).
Proof.
  intros H1 H2. split; [rewrite H1; apply sym_agree_empty|]. rewrite H2. split; cbn; try done.
  intros i Hi. lia.
Qed.

Lemma marshal_load_header f proc s :
  marshal_load w f (4 :: 8 :: s) proc = '(v, a) ← r_object0 w f proc (with_src s (mkLoad [] ∅ ∅ [])); Ok (v, lheap a).
Proof. done. Qed.

Lemma out_result (a : dump_arg) x : match dest a with Some o => o ++ str a | None => str a end = x ↔ out a = x.
Proof. unfold out. by destruct (dest a). Qed.

Lemma r_case_bignum rd f (b : load_arg) : r_case w rd f None TYPE_BIGNUM b = leave None (r_bignum b).
Proof. done. Qed.

Lemma r_case_array rd f (b : load_arg) : r_case w rd f None TYPE_ARRAY b = leave None (r_array rd f b).
Proof. done. Qed.

(** ** Integers *)

(** The words of the last digit. *)
Lemma w_shorts_wrote n num (a : dump_arg) :
  0 < num < 2 ^ (16 * Z.of_nat n) →
  ∃ bs, wrote bs a (w_shorts n true num a) ∧ zlen bs = 2 * count_shorts n num.
Proof.
  revert num a. induction n as [|n IH]; intros num a Hnum; [cbn in Hnum; lia|]. cbn [w_shorts count_shorts].
  rewrite (proj2 (Z.eqb_neq num 0)) by lia. cbn [andb].
  set (x := Z.land num 65535). set (num' := Z.shiftr num 16).
  assert (wrote ([Z.land x 255] ++ [Z.land (Z.shiftr x 8) 255]) a (w_short x a)) as Hw.
  { eapply wrote_app; [apply w_byte_wrote|apply w_byte_wrote]. }
  assert (num' = num / 2 ^ 16) as En by (unfold num'; by rewrite Z.shiftr_div_pow2 by lia).
  destruct (Z.eqb_spec num' 0) as [E|E].
  - exists ([Z.land x 255] ++ [Z.land (Z.shiftr x 8) 255]). split; [done|]. destruct n; cbn [count_shorts]; [done|]. by rewrite E.
  - destruct (IH num' (w_short x a)) as (bs & Hbs & Hl).
    { rewrite Nat2Z.inj_succ in Hnum. replace (16 * Z.succ (Z.of_nat n)) with (16 + 16 * Z.of_nat n) in Hnum by lia.
      rewrite Z.pow_add_r in Hnum by lia. rewrite En in *. split.
      - pose proof (Z.div_pos num (2 ^ 16)). lia.
      - apply Z.div_lt_upper_bound; lia. }
    exists (([Z.land x 255] ++ [Z.land (Z.shiftr x 8) 255]) ++ bs). split; [by eapply wrote_app|].
    rewrite zlen_app, Hl. unfold zlen at 1. cbn [length app]. lia.
Qed.

Lemma count_shorts_nonneg n num : 0 ≤ count_shorts n num.
Proof. revert num. induction n as [|n IH]; intros num; cbn [count_shorts]; [done|]. destruct (num =? 0); [done|]. specialize (IH (Z.shiftr num 16)). lia. Qed.

Lemma count_shorts_bound n num k :
  0 ≤ num < 2 ^ (16 * Z.of_nat n) → 0 ≤ k → (num < 2 ^ (16 * k) → count_shorts n num ≤ k) ∧ (2 ^ (16 * k) ≤ num → k < count_shorts n num).
Proof.
  revert num k. induction n as [|n IH]; intros num k Hnum Hk; cbn [count_shorts].
  { change (2 ^ (16 * Z.of_nat 0)) with 1 in Hnum. pose proof (Z.pow_pos_nonneg 2 (16 * k)). lia. }
  destruct (Z.eqb_spec num 0) as [->|Hne]; [pose proof (Z.pow_pos_nonneg 2 (16 * k)); lia|].
  rewrite Z.shiftr_div_pow2 by lia. set (q := num / 2 ^ 16).
  assert (0 ≤ q < 2 ^ (16 * Z.of_nat n)) as Hq.
  { unfold q. replace (16 * Z.of_nat (S n)) with (16 + 16 * Z.of_nat n) in Hnum by lia. rewrite Z.pow_add_r in Hnum by lia.
    split; [apply Z.div_pos; lia|apply Z.div_lt_upper_bound; lia]. }
  destruct (decide (k = 0)) as [->|Hk0].
  - pose proof (count_shorts_nonneg n q). change (2 ^ (16 * 0)) with 1. lia.
  - destruct (IH q (k - 1) Hq ltac:(lia)) as [H1 H2].
    assert (2 ^ (16 * k) = 2 ^ 16 * 2 ^ (16 * (k - 1))) as Ep by (rewrite <- Z.pow_add_r by lia; f_equal; lia).
    rewrite Ep. split; intros H.
    + assert (q < 2 ^ (16 * (k - 1))) by (apply Z.div_lt_upper_bound; lia). lia.
    + assert (2 ^ (16 * (k - 1)) ≤ q) by (apply Z.div_le_lower_bound; lia). lia.
Qed.

Lemma w_bytes_ok s (a : dump_arg) : zlen s < 2 ^ 31 → ∃ a', w_bytes s a = Ok a'.
Proof.
  intros Hs. unfold w_bytes. rewrite (proj2 (Z.leb_gt _ _)) by done. pose proof (zlen_nonneg s).
  destruct (w_long_spec (zlen s) a) as (bs & a' & -> & _); [lia|]. by eexists.
Qed.

(** What is written for a number of one digit, and what the reader makes of it. *)
Lemma bignum_read s d (a : dump_arg) :
  0 < d < 2 ^ 64 →
  ∃ bs a', w_bignum (mkBig s [d]) a = Ok a' ∧ wrote (TYPE_BIGNUM :: bs) a a' ∧
    ∀ (b : load_arg), src b = bs →
      r_bignum b = if d <? 2 ^ 32 then Ok (VFix 0, r_entry (VFix 0) (with_src [] b)) else Err BadShift.
Proof.
  intros Hd. set (k := count_shorts 4 d).
  destruct (count_shorts_bound 4 d 0) as [_ H0]; [cbn; lia|lia|]. destruct (count_shorts_bound 4 d 2) as [H1 H2]; [cbn; lia|lia|].
  destruct (count_shorts_bound 4 d 4) as [H3 _]; [cbn; lia|lia|]. change (2 ^ (16 * 0)) with 1 in H0. change (2 ^ (16 * 2)) with (2 ^ 32) in *.
  change (2 ^ (16 * 4)) with (2 ^ 64) in H3. fold k in H0, H1, H2, H3.
  unfold w_bignum. cbn [digits sign]. assert (shortlen [d] = Ok k) as -> by done. cbn [mbind res_bind].
  set (c := if s then 43 else 45). assert (byte c) as Hc by (unfold c, byte; destruct s; lia).
  destruct (w_long_spec k (w_byte c (w_byte TYPE_BIGNUM a))) as (bs1 & a1 & -> & Hw1 & (_ & _ & Hr1)); [lia|]. cbn [mbind res_bind w_digits].
  destruct (w_shorts_wrote 4 d a1) as (bs2 & Hw2 & Hl2); [cbn; lia|]. fold k in Hl2.
  exists (c :: bs1 ++ bs2), (w_shorts 4 true d a1). split_and!; [done| |].
  - change (TYPE_BIGNUM :: c :: bs1 ++ bs2) with ([TYPE_BIGNUM] ++ [c] ++ bs1 ++ bs2).
    eapply wrote_app; [by apply w_byte_lit|]. eapply wrote_app; [by apply w_byte_lit|]. by eapply wrote_app.
  - intros b Hb. rewrite (src_with _ _ Hb) at 1. unfold r_bignum. rewrite r_byte_cons. cbn [mbind res_bind]. rewrite Hr1. cbn [mbind res_bind].
    unfold r_bytes0. rewrite (proj2 (Z.eqb_neq _ 0)) by lia. cbn [src with_src].
    rewrite (proj2 (Z.leb_le _ _)), (proj2 (Z.ltb_ge (k * 2) 0)) by lia. cbn [mbind res_bind lsymbols ldata lheap].
    assert (drop (Z.to_nat (k * 2)) bs2 = []) as -> by (apply drop_ge; unfold zlen in Hl2; lia).
    destruct (Z.ltb_spec d (2 ^ 32)) as [Hlt|Hge].
    + specialize (H1 Hlt). rewrite (Z.div_small ((k + 1) * 2) 8), Z.ltb_irrefl, bignorm_nil by lia. done.
    + specialize (H2 Hge). assert (1 ≤ (k + 1) * 2 / 8) by (apply Z.div_le_lower_bound; lia). by rewrite (proj2 (Z.ltb_lt 0 _)) by lia.
Qed.
(** ** One element of an array *)

Definition pushed (l : nat) (k : option cid) (vs : list value) (v : value) (b : load_arg) : load_arg :=
  mkLoad [] (lsymbols b) (ldata b) (<[l := OArray k (vs ++ [v])]> (lheap b)).

Lemma push_ok l k vs v (b : load_arg) :
  lheap b !! l = Some (OArray k vs) → rb_ary_push l v b = Ok (with_src (src b) (pushed l k vs v b)).
Proof. intros E. unfold rb_ary_push, get_obj. by rewrite E. Qed.

Lemma item_float n l k vs s bs t (b : load_arg) :
  lheap b !! l = Some (OArray k vs) → (∀ b : load_arg, r_bytes (with_src (bs ++ t) b) = Ok (s, with_src t b)) →
  let v := VFloat (text_float w (strz s)) in
  r_item (r_object0 w (S n) None) l () (with_src (TYPE_FLOAT :: bs ++ t) b) = Ok ((), with_src t (pushed l k vs v (r_entry v b))).
Proof.
  intros E Hr v. unfold r_item. rewrite r_object0_cons. unfold r_case. cbn -[r_bytes with_src rb_ary_push r_entry]. rewrite Hr.
  cbn [mbind res_bind]. by rewrite (push_ok l k vs).
Qed.

Lemma item_string n l k vs s bs t (b : load_arg) :
  lheap b !! l = Some (OArray k vs) → cstr_ok s → (∀ b : load_arg, r_bytes (with_src (bs ++ t) b) = Ok (s, with_src t b)) →
  r_item (r_object0 w (S n) None) l () (with_src (TYPE_STRING :: bs ++ t) b) =
    Ok ((), with_src t (pushed l k vs (VRef (length (lheap b))) (snd (new_entry (OString None s) b)))).
Proof.
  intros E Hs Hr. unfold r_item. rewrite r_object0_cons. unfold r_case. cbn -[r_string with_src rb_ary_push entered]. unfold r_string. rewrite Hr.
  cbn [mbind res_bind]. rewrite strz_ok by done. unfold entered, new_entry, leave. cbn [mbind res_bind].
  rewrite (push_ok l k vs); [done|]. cbn. rewrite lookup_app_l; [done|]. by eapply lookup_lt_Some.
Qed.

Lemma item_link n l k vs num v bs t (b : load_arg) :
  lheap b !! l = Some (OArray k vs) → - 2 ^ 61 ≤ num < 2 ^ 61 → ldata b !! num = Some v → v ≠ VNil →
  (∀ b : load_arg, r_long (with_src (bs ++ t) b) = Ok (num, with_src t b)) →
  r_item (r_object0 w (S n) None) l () (with_src (TYPE_LINK :: bs ++ t) b) = Ok ((), with_src t (pushed l k vs v b)).
Proof.
  intros E Hn Hd Hv Hr. unfold r_item. rewrite r_object0_cons. unfold r_case. cbn -[r_long with_src rb_ary_push]. rewrite Hr.
  cbn [mbind res_bind]. rewrite LONG2FIX_small by done. cbn [ldata with_src]. rewrite Hd. destruct v; try done; cbn [mbind res_bind r_leave];
    by rewrite (push_ok l k vs).
Qed.
End lemmas.

Section theorems.
Context `{J : Junk} {float : Type} (w : world float).
Notation value := (value float).
Notation obj := (obj float).
Notation load_arg := (@load_arg float).


(** C19: dumping ends for every graph, cyclic or not, after at most two levels more
    than there are objects; loading ends for every input, after at most as many
    levels and rounds of a loop as there are bytes. *)
Theorem marshal_terminates h v port limit s proc :
  marshal_dump w (size h + 2) h v port limit ≠ Err NoFuel ∧
  marshal_load w (S (length s)) s proc ≠ Err NoFuel.
Proof. split; [by apply marshal_dump_fuel|apply marshal_load_fuel; lia]. Qed.

(** A fixnum of 30 bits is read back; one beyond that is written as a bignum,
    and read as 0 if it has up to 32 bits, while for more the reader shifts an
    [int] by more than its width. *)
Theorem marshal_fixnum h n port f :
  FIXNUM_MIN ≤ n ≤ FIXNUM_MAX →
  ∃ s, marshal_dump w 2 h (VFix n) port (-1) = Ok s ∧
    marshal_load w (S f) s None =
      if decide (- 2 ^ 29 ≤ n < 2 ^ 29) then Ok (VFix n, [])
      else if decide (Z.abs n < 2 ^ 32) then Ok (VFix 0, []) else Err BadShift.
Proof.
  rewrite FIXNUM_MIN_val, FIXNUM_MAX_val. intros Hn. unfold marshal_dump. set (a0 := mkDump _ _ _ _ _).
  pose proof (header_wrote a0) as Hw. set (a := w_byte MARSHAL_MINOR _) in *.
  assert (out a0 = []) as E0 by (unfold out, a0; by destruct port). cbn [w_object].
  change (-1 =? 0) with false. cbn iota. change (-1 - 1 =? 0) with false. cbn iota.
  case_decide as Hr.
  - assert ((Z.shiftr (INT2FIX n) 31 =? 0) || (Z.shiftr (INT2FIX n) 31 =? -1) = true) as -> by (apply fits31; unfold INT2FIX; lia).
    destruct (w_long_spec n (w_byte TYPE_FIXNUM a)) as (bs & a1 & -> & Hw1 & (_ & _ & Hrd)); [lia|]. cbn [mbind res_bind].
    pose proof (wrote_app _ _ _ _ _ Hw (wrote_app _ _ _ _ _ (w_byte_lit TYPE_FIXNUM a ltac:(done)) Hw1)) as [W1 _ _ _ _].
    rewrite E0 in W1. cbn [app] in W1. eexists. split; [done|].
    rewrite (proj2 (out_result _ _) W1), marshal_load_header. pose proof (Hrd [] (mkLoad [] ∅ ∅ [])) as Er. rewrite app_nil_r in Er.
    unfold with_src in Er. cbn in Er |- *. unfold r_case. cbn -[r_long]. rewrite Er. cbn. by rewrite LONG2FIX_small by lia.
  - destruct ((Z.shiftr (INT2FIX n) 31 =? 0) || (Z.shiftr (INT2FIX n) 31 =? -1)) eqn:Ef; [apply fits31 in Ef; unfold INT2FIX in Ef; lia|].
    rewrite rb_int2big_spec by (unfold LONG_MIN, LONG_MAX; lia). cbn [mbind res_bind]. unfold new_obj.
    set (l := base.fresh _). set (o := OBignum _). set (a1 := mkDump _ _ _ _ _). change (data a1) with (data a).
    rewrite (wrote_data _ _ _ Hw). cbn [data a0]. rewrite lookup_empty. change (heap a1) with (<[l := o]> (heap a)).
    rewrite lookup_insert_eq. cbn [of_option mbind res_bind w_contents o].
    destruct (bignum_read (negb (n <? 0)) (Z.abs n) (add_data l a1)) as (bs & a2 & -> & Hw2 & Hrd); [lia|]. cbn [mbind res_bind].
    assert (out a2 = 4 :: 8 :: TYPE_BIGNUM :: bs) as Ho.
    { rewrite (wrote_out _ _ _ Hw2). change (out (add_data l a1)) with (out a). rewrite (wrote_out _ _ _ Hw), E0. done. }
    eexists. split; [done|]. rewrite (proj2 (out_result _ _) Ho), marshal_load_header.
    rewrite r_object0_cons, r_case_bignum, Hrd by done. do 2 case_match; try done; lia.
Qed.

(** After a Float the links of the reader are off by one: an object that occurs
    twice in an array after a Float is read as the object once, and as the Float the
    second time. *)
Theorem marshal_float_link f s port :
  Forall byte (float_text w f) → zlen (float_text w f) < 2 ^ 31 → cstr_ok s → ascii s → zlen s < 2 ^ 31 →
  let h : gmap nat obj := <[0%nat := OArray None [VFloat f; VRef 1%nat; VRef 1%nat]]> {[1%nat := OString None s]} in
  let f' := VFloat (text_float w (strz (float_text w f))) in
  ∃ bs, marshal_dump w 3 h (VRef 0%nat) port (-1) = Ok bs ∧
    marshal_load w 5 bs None = Ok (VRef 0%nat, [OArray None [f'; VRef 1%nat; f']; OString None s]).
Proof.
  intros Hf Hfl Hs Has Hsl h f'. unfold marshal_dump. set (a0 := mkDump _ _ _ _ _).
  pose proof (header_wrote a0) as Hw. set (a := w_byte MARSHAL_MINOR _) in *.
  assert (out a0 = []) as E0 by (unfold out, a0; by destruct port).
  assert (symbols a = ∅ ∧ data a = ∅ ∧ heap a = h) as (Es & Ed & Eh) by (split_and!; [apply Hw..]).
  cbn [w_object]. change (-1 =? 0) with false. change (-1 - 1 =? 0) with false. cbn iota. rewrite Ed, Eh, lookup_empty.
  unfold h at 1. rewrite lookup_insert_eq. cbn [of_option mbind res_bind w_contents w_uclass].
  destruct (w_long_spec 3 (w_byte TYPE_ARRAY (add_data 0%nat a))) as (bs1 & a1 & E1 & W1 & (_ & _ & R1)); [lia|].
  pose proof (wrote_app _ _ _ _ _ (w_byte_lit TYPE_ARRAY _ ltac:(done)) W1) as [O1 S1 D1 H1 _]. clear W1.
  change (zlen [VFloat f; VRef 1%nat; VRef 1%nat]) with 3. rewrite E1. cbn [mbind res_bind w_all]. unfold w_float.
  destruct (w_bytes_ok (float_text w f) (w_byte TYPE_FLOAT a1) Hfl) as (a2 & E2). rewrite E2. cbn [mbind res_bind].
  destruct (w_bytes_inv _ _ _ E2 Hf) as (bs2 & W2 & _ & R2).
  pose proof (wrote_app _ _ _ _ _ (w_byte_lit TYPE_FLOAT _ ltac:(done)) W2) as [O2 S2 D2 H2 _]. clear W2.
  assert (data a2 = {[0%nat := 0]}) as Ed2 by (rewrite D2, D1; cbn [add_data data]; by rewrite Ed).
  rewrite Ed2, lookup_singleton_ne by done. rewrite H2, H1. cbn [add_data heap]. rewrite Eh. unfold h at 1.
  rewrite lookup_insert_ne, lookup_singleton_eq by done. cbn [of_option mbind res_bind w_contents w_uclass].
  rewrite w_rstring_ascii by done. destruct (w_bytes_ok s (w_byte TYPE_STRING (add_data 1%nat a2)) Hsl) as (a3 & E3). rewrite E3. cbn [mbind res_bind].
  destruct (w_bytes_inv _ _ _ E3 (cstr_byte _ Hs)) as (bs3 & W3 & _ & R3).
  pose proof (wrote_app _ _ _ _ _ (w_byte_lit TYPE_STRING _ ltac:(done)) W3) as [O3 S3 D3 H3 _]. clear W3.
  assert (data a3 !! 1%nat = Some 1) as -> by (rewrite D3; cbn [add_data data]; rewrite Ed2; apply lookup_insert_eq).
  destruct (w_long_spec 1 (w_byte TYPE_LINK a3)) as (bs4 & a4 & E4 & W4 & (_ & _ & R4)); [lia|]. rewrite E4. cbn [mbind res_bind].
  pose proof (wrote_app _ _ _ _ _ (w_byte_lit TYPE_LINK _ ltac:(done)) W4) as [O4 _ _ _ _]. clear W4.
  change (out (add_data 1%nat a2)) with (out a2) in O3. change (out (add_data 0%nat a)) with (out a) in O1.
  rewrite O3, O2, O1, (wrote_out _ _ _ Hw), E0 in O4. eexists. split; [done|]. rewrite (proj2 (out_result _ _) O4).
  rewrite <- !app_assoc. cbn [app]. rewrite marshal_load_header, r_object0_cons, r_case_array. unfold r_array. rewrite R1.
  cbn [mbind res_bind]. change (3 <? 0) with false. cbn iota. unfold new_entry.
  set (b1 := mkLoad [] ∅ {[0 := VRef 0%nat]} [OArray None []] : load_arg).
  match goal with |- context [r_loop 4 3 _ () ?b] => change b with (with_src (src b) b1); cbn [src r_entry with_src] end.
  cbn [r_loop]. change (3 =? 0) with false. change (3 - 1 =? 0) with false. change (3 - 1 - 1 =? 0) with false. change (3 - 1 - 1 - 1 =? 0) with true.
  cbn iota. change (length (lheap (with_src _ _))) with 0%nat.
  rewrite (item_float w 3 0 None [] (float_text w f) bs2) by done. cbn [mbind res_bind]. fold f'.
  rewrite (item_string w 3 0 None [f'] s bs3) by done. cbn [mbind res_bind].
  rewrite <- (app_nil_r bs4). rewrite (item_link w 3 0 None [f'; VRef 1%nat] 1 f' bs4 []) by done. done.
Qed.
End theorems.

(** ** Witnesses *)

#[global] Instance value_eq_dec {float} `{EqDecision float} : EqDecision (value float).
Proof. solve_decision. Defined.
#[global] Instance key_eq_dec {float} `{EqDecision float} : EqDecision (@key float).
Proof. solve_decision. Defined.

(** Two classes: [P], of plain objects, and the struct [S] with members [a] and [b]; a
    Float is a number written as one byte. *)
Definition ex_world : world Z := {|
  class_path c := if bool_decide (c = 1%positive) then [80] else [83];
  rb_path2class p := if bool_decide (p = [80]) then Some 1%positive else if bool_decide (p = [83]) then Some 2%positive else None;
  is_module _ := false;
  core_class _ := 9%positive;
  rb_class_inherited_p _ _ := false;
  alloc_type c := if bool_decide (c = 1%positive) then T_OBJECT else T_STRUCT;
  struct_members _ := [[97]; [98]];
  reg_ok _ _ := true;
  CFEqual hp a b :=
    match keyval (λ l, hp !! l) a, keyval (λ l, hp !! l) b with Some x, Some y => bool_decide (x = y) | _, _ => false end;
  float_text f := [f];
  text_float s := hd 0 s
|}.

Lemma ex_CFEqual : CFEqual_law ex_world.
Proof. intros hp a b x y Ha Hb. cbn. rewrite Ha, Hb. apply bool_decide_eq_true. Qed.

(** An array that holds a string twice and itself, and a hash that leads back to it. *)
Definition ex_heap : gmap nat (obj Z) :=
  <[1%nat := OString None [104; 105]]>
  (<[2%nat := OArray None [VRef 1%nat; VRef 2%nat; VRef 1%nat; VSym [97]; VFix 300; VRef 3%nat]]>
  (<[3%nat := OHash None [(VSym [97], VRef 4%nat); (VRef 1%nat, VRef 5%nat)]]>
  (<[4%nat := OObject 1%positive [([64; 120], VRef 2%nat)]]>
  (<[5%nat := OStruct 2%positive [([97], VNil); ([98], VRef 4%nat)]]> ∅)))).

Ltac cstr := repeat (apply Forall_cons; split; [lia|]); apply Forall_nil; exact I.

Lemma ex_heap_ok l o : ex_heap !! l = Some o → obj_ok ex_world ex_heap o.
Proof.
  unfold ex_heap at 1.
  intros [[<- <-]|[_ [[<- <-]|[_ [[<- <-]|[_ [[<- <-]|[_ [[<- <-]|[_ E]]%lookup_insert_Some]]%lookup_insert_Some]]%lookup_insert_Some]]%lookup_insert_Some]]%lookup_insert_Some.
  - split; [done|]. split; cstr.
  - split; [done|]. repeat constructor; cbn; lia.
  - split_and!; [done|repeat constructor; cbn; lia|]. exists [KImm (VSym [97]); KStr [104; 105]]. split; [by repeat constructor|].
    repeat constructor; set_solver.
  - split_and!; [|done| |].
    + split; [cstr|done].
    + apply Forall_singleton. split; [cstr|done].
    + apply NoDup_singleton.
  - split_and!; [|done| |done].
    + split; [cstr|done].
    + repeat (apply Forall_cons; split; [split; [cstr|done]|]). by apply Forall_nil.
  - by rewrite lookup_empty in E.
Qed.

Definition ex_dump : list Z :=
  [4; 8; 91; 11; 34; 7; 104; 105; 64; 0; 64; 6; 58; 6; 97; 105; 2; 44; 1; 123; 7; 59; 0; 111; 58; 6; 80; 6;
   58; 7; 64; 120; 64; 0; 64; 6; 83; 58; 6; 83; 7; 59; 0; 48; 58; 6; 98; 64; 8].


(** The text "é" has two bytes and one UTF-16 unit: its first byte is written. *)
Example marshal_cuts_text :
  marshal_dump (J := ex_junk) ex_world 2 {[0%nat := OString None [195; 169]]} (VRef 0%nat) false (-1) = Ok [4; 8; 34; 6; 195].
Proof. by vm_compute. Qed.

(** 2^30 is read as 0. *)
Lemma marshal_fixnum_witness :
  ∃ s, marshal_dump (J := ex_junk) ex_world 2 ∅ (VFix (2 ^ 30)) false (-1) = Ok s ∧ marshal_load ex_world 1 s None = Ok (VFix 0, []).
Proof.
  exact (marshal_fixnum (J := ex_junk) ex_world ∅ (2 ^ 30) false 0 ltac:(vm_compute; split; discriminate)).
Defined.

(** [[7.0, "h", "h"]] with one string. *)
Lemma marshal_float_link_witness :
  ∃ bs, marshal_dump (J := ex_junk) ex_world 3
      (<[0%nat := OArray None [VFloat 7; VRef 1%nat; VRef 1%nat]]> {[1%nat := OString None [104]]}) (VRef 0%nat) false (-1) = Ok bs ∧
    marshal_load ex_world 5 bs None = Ok (VRef 0%nat, [OArray None [VFloat 7; VRef 1%nat; VFloat 7]; OString None [104]]).
Proof.
  apply (marshal_float_link (J := ex_junk) ex_world 7 [104] false); [|by vm_compute| | |by vm_compute].
  - apply Forall_singleton. unfold byte. lia.
  - cstr.
  - cstr.
Defined.
