(* ===== verification/Dir.v ===== *)
(** * dir.c: matching file names

    [fnmatch] and the functions it is made of, on NUL-terminated strings as in
    Util.v: a [char *] is the list of the bytes from there to the terminator.
    The single byte definitions of [Next], [Inc] and [Compare] are the ones in
    use.  Of globbing, the recognition of plain names and the expansion of braces;
    the walk over directories is not modelled. *)

From S2P Require Import Prelude Util.

Definition FNM_NOESCAPE : Z := 1.
Definition FNM_PATHNAME : Z := 2.
Definition FNM_DOTMATCH : Z := 4.
Definition FNM_CASEFOLD : Z := 8.
Definition FNM_SYSCASE : Z := 0.
Definition FNM_NOMATCH : Z := 1.

Definition flag (flags f : Z) : bool := negb (Z.land flags f =? 0).

Definition TOLOWER (c : Z) : Z := if ISUPPER c then c + 32 else c.
Definition downcase (nocase : bool) (c : Z) : Z := if nocase && ISUPPER c then TOLOWER c else c.
Definition compare (c1 c2 : Z) : Z := c1 - c2.
Definition Compare (nocase : bool) (p1 p2 : cstr) : Z :=
  compare (downcase nocase (peek p1)) (downcase nocase (peek p2)).

(** [++p]; the terminator is the last byte that may be read. *)
Definition Inc (p : cstr) : res cstr := match p with _ :: p' => Ok p' | [] => Err OutOfBounds end.

(** ** Bracket expressions *)

Section bracket.
Context (nocase escape : bool) (s : cstr).

(** One turn of the loop; the result is the pointer to the closing bracket, or
    [None] where the code returns NULL. *)
Definition bracket_step (st : cstr * bool) : res ((cstr * bool) + option (cstr * bool)) :=
  let '(p, ok) := st in
  if peek p =? 93 then Ok (inr (Some (p, ok))) else
  t1 ← (if escape && (peek p =? 92) then Inc p else Ok p);
  if peek t1 =? 0 then Ok (inr None) else
  p ← Inc t1;
  if (peek p =? 45) && negb (peek (tail p) =? 93) then
    t2 ← Inc p;
    t2 ← (if escape && (peek t2 =? 92) then Inc t2 else Ok t2);
    if peek t2 =? 0 then Ok (inr None) else
    p ← Inc t2;
    Ok (inl (p, ok || ((Compare nocase t1 s <=? 0) && (Compare nocase s t2 <=? 0))))
  else Ok (inl (p, ok || (Compare nocase t1 s =? 0))).
End bracket.

Definition bracket (p s : cstr) (flags : Z) : res (option cstr) :=
  let nocase := flag flags FNM_CASEFOLD in
  let escape := negb (flag flags FNM_NOESCAPE) in
  '(not, p) ← (if (peek p =? 33) || (peek p =? 94) then p ← Inc p; Ok (true, p) else Ok (false, p));
  r ← iter (S (length p)) (bracket_step nocase escape s) (p, false);
  match r with
  | None => Ok None
  | Some (p, ok) => if Bool.eqb ok not then Ok None else p ← Inc p; Ok (Some p)
  end.

(** ** One element of a path *)

Definition UNESCAPE (escape : bool) (p : cstr) : cstr := if escape && (peek p =? 92) then tail p else p.
Definition ISEND (pathname : bool) (p : cstr) : bool := (peek p =? 0) || (pathname && (peek p =? 47)).

(** The loop that steps over a row of stars. *)
Fixpoint skip_stars (p : cstr) : cstr :=
  match p with
  | c :: p' => if c =? 42 then skip_stars p' else p
  | [] => []
  end.

(** [p], [s], and [ptmp] and [stmp] if they are not NULL. *)
Definition fnstate : Type := cstr * cstr * option (cstr * cstr).

Section helper.
Context (flags : Z).
Let period := negb (flag flags FNM_DOTMATCH).
Let pathname := flag flags FNM_PATHNAME.
Let escape := negb (flag flags FNM_NOESCAPE).
Let nocase := flag flags FNM_CASEFOLD.

(** [failed:], try the next position of the last star. *)
Definition fnmatch_failed (p s : cstr) (tmp : option (cstr * cstr)) : res (fnstate + Z * cstr * cstr) :=
  match tmp with
  | Some (ptmp, stmp) => stmp ← Inc stmp; Ok (inl (ptmp, stmp, Some (ptmp, stmp)))
  | None => Ok (inr (FNM_NOMATCH, p, s))
  end.

Definition fnmatch_ordinary (p s : cstr) (tmp : option (cstr * cstr)) : res (fnstate + Z * cstr * cstr) :=
  let p := UNESCAPE escape p in
  if ISEND pathname s then Ok (inr (if ISEND pathname p then 0 else FNM_NOMATCH, p, s)) else
  if ISEND pathname p then fnmatch_failed p s tmp else
  if negb (Compare nocase p s =? 0) then fnmatch_failed p s tmp else
  p ← Inc p; s ← Inc s; Ok (inl (p, s, tmp)).

Definition fnmatch_step (st : fnstate) : res (fnstate + Z * cstr * cstr) :=
  let '(p, s, tmp) := st in
  if peek p =? 42 then
    let p := skip_stars p in
    if ISEND pathname (UNESCAPE escape p) then Ok (inr (0, UNESCAPE escape p, s)) else
    if ISEND pathname s then Ok (inr (FNM_NOMATCH, p, s)) else
    Ok (inl (p, s, Some (p, s)))
  else if peek p =? 63 then
    if ISEND pathname s then Ok (inr (FNM_NOMATCH, p, s)) else
    p ← Inc p; s ← Inc s; Ok (inl (p, s, tmp))
  else if peek p =? 91 then
    if ISEND pathname s then Ok (inr (FNM_NOMATCH, p, s)) else
    q ← Inc p;
    t ← bracket q s flags;
    match t with
    | Some t => s ← Inc s; Ok (inl (t, s, tmp))
    | None => fnmatch_failed p s tmp
    end
  else fnmatch_ordinary p s tmp.

(** Each star is tried at each position, and each try reads the pattern once. *)
Definition fnmatch_fuel (p s : cstr) : nat := S ((length s + 2) * (length p + 2)).

(** Returns the value and the pointers stored through [pcur] and [scur]. *)
Definition fnmatch_helper (p s : cstr) : res (Z * cstr * cstr) :=
  if period && (peek s =? 46) && negb (peek (UNESCAPE escape p) =? 46) then Ok (FNM_NOMATCH, p, s) else
  iter (fnmatch_fuel p s) fnmatch_step (p, s, None).

(** ** Whole paths *)

(** The pattern starts with two stars and a slash. *)
Definition at_recursive (p : cstr) : bool :=
  match p with a :: b :: c :: _ => (a =? 42) && (b =? 42) && (c =? 47) | _ => false end.

(** Steps over a row of these, by the length of the pattern. *)
Fixpoint skip_recursive (n : nat) (p : cstr) : cstr :=
  match n with
  | O => p
  | S n' => if at_recursive p then skip_recursive n' (drop 3 p) else p
  end.

(** Advances to the next slash or to the end. *)
Fixpoint to_slash (s : cstr) : cstr :=
  match s with
  | c :: s' => if (c =? 0) || (c =? 47) then s else to_slash s'
  | [] => []
  end.

Definition fnmatch_path_step (st : fnstate) : res (fnstate + Z) :=
  let '(p, s, tmp) := st in
  let '(p, tmp) :=
    if at_recursive p then let p := skip_recursive (length p) p in (p, Some (p, s)) else (p, tmp) in
  '(v, p, s) ← fnmatch_helper p s;
  let s := if v =? 0 then to_slash s else s in
  if (v =? 0) && negb (peek p =? 0) && negb (peek s =? 0) then Ok (inl (tail p, tail s, tmp)) else
  if (v =? 0) && (peek p =? 0) && (peek s =? 0) then Ok (inr 0) else
  match tmp with
  | Some (ptmp, stmp) =>
      if period && (peek stmp =? 46) then Ok (inr FNM_NOMATCH) else
      let stmp := to_slash stmp in
      if negb (peek stmp =? 0) then Ok (inl (ptmp, tail stmp, Some (ptmp, tail stmp))) else Ok (inr FNM_NOMATCH)
  | None => Ok (inr FNM_NOMATCH)
  end.

Definition fnmatch (p s : cstr) : res Z :=
  if pathname then iter (fnmatch_fuel p s) fnmatch_path_step (p, s, None)
  else '(v, _, _) ← fnmatch_helper p s; Ok v.
End helper.

(** ** Plain names *)

Definition ISALPHA (c : Z) : bool := ISUPPER c || ISLOWER c.

Section glob.
Context (flags : Z).
Let escape := negb (flag flags FNM_NOESCAPE).
Let nocase := flag flags FNM_CASEFOLD.

Fixpoint has_magic (p : cstr) : bool :=
  match p with
  | [] => false
  | c :: p' =>
      if (c =? 42) || (c =? 63) || (c =? 91) then true else
      if c =? 92 then
        if escape then match p' with [] => false | _ :: p'' => has_magic p'' end else has_magic p'
      else if (FNM_SYSCASE =? 0) && ISALPHA c && nocase then true else has_magic p'
  end.
End glob.

(** [memmove(buf + t, buf + s, n)] *)
Definition memmove (buf : list Z) (t s n : Z) : res (list Z) :=
  if (0 <=? t) && (0 <=? s) && (0 <=? n) && (t + n <=? zlen buf) && (s + n <=? zlen buf) then
    Ok (take (Z.to_nat t) buf ++ take (Z.to_nat n) (drop (Z.to_nat s) buf) ++ drop (Z.to_nat (t + n)) buf)
  else Err OutOfBounds.

(** One turn of the loop of [remove_backslashes] over the buffer, with the
    pointers [p], [t] and [s] as indices. *)
Definition unslash_step (st : list Z * Z * Z * Z) : res ((list Z * Z * Z * Z) + (list Z * Z * Z * Z)) :=
  let '(buf, p, t, s) := st in
  c ← aload buf p;
  if c =? 0 then Ok (inr st) else
  if c =? 92 then
    buf ← (if t =? s then Ok buf else memmove buf t s (p - s));
    let t := t + (p - s) in
    let p := p + 1 in
    c ← aload buf p;
    if c =? 0 then Ok (inr (buf, p, t, p)) else Ok (inl (buf, p + 1, t, p))
  else Ok (inl (buf, p + 1, t, s)).

(** [while ( *p++);]: the index after the terminator. *)
Definition past_nul_step (buf : list Z) (p : Z) : res (Z + Z) :=
  c ← aload buf p; Ok (if c =? 0 then inr (p + 1) else inl (p + 1)).

(** On the buffer of a string, with its terminator. *)
Definition remove_backslashes (buf : list Z) : res (list Z) :=
  '(buf, p, t, s) ← iter (S (length buf)) unslash_step (buf, 0, 0, 0);
  p ← iter (S (length buf)) (past_nul_step buf) p;
  if t =? s then Ok buf else memmove buf t s (p - s).

(** The string in a buffer. *)
Fixpoint c_str (buf : list Z) : cstr :=
  match buf with
  | c :: buf' => if c =? 0 then [] else c :: c_str buf'
  | [] => []
  end.

(** The name that a plain pattern is looked up by. *)
Definition plain_name (flags : Z) (str : cstr) : res cstr :=
  let name := str ++ [0] in
  buf ← (if negb (flag flags FNM_NOESCAPE) then remove_backslashes name else Ok name);
  Ok (c_str buf).

(** ** Braces *)

Section brace.
Context {S : Type} (escape : bool) (func : cstr → S → res (S * Z)).

(** The first loop: the indices [lbrace] and [rbrace] where it stops. *)
Fixpoint brace_scan (p : cstr) (i nest : Z) (lbrace : option Z) : option Z * option Z :=
  match p with
  | [] => (lbrace, None)
  | c :: p' =>
      let '(lbrace, nest) :=
        if c =? 123 then (if nest =? 0 then Some i else lbrace, nest + 1) else (lbrace, nest) in
      let nest := if c =? 125 then nest - 1 else nest in
      if (c =? 125) && (nest <=? 0) then (lbrace, Some i) else
      if (c =? 92) && escape then
        match p' with [] => (lbrace, None) | _ :: p'' => brace_scan p'' (i + 2) nest lbrace end
      else brace_scan p' (i + 1) nest lbrace
  end.

(** The text between the braces, cut at the commas that are not nested. *)
Fixpoint brace_alts (p : cstr) (nest : Z) (t : list Z) : list (list Z) :=
  match p with
  | [] => [t]
  | c :: p' =>
      if (c =? 44) && (nest =? 0) then t :: brace_alts p' 0 [] else
      let nest := if c =? 123 then nest + 1 else nest in
      let nest := if c =? 125 then nest - 1 else nest in
      if (c =? 92) && escape then
        match p' with [] => [t ++ [c]] | d :: p'' => brace_alts p'' nest (t ++ [c; d]) end
      else brace_alts p' nest (t ++ [c])
  end.

(** Calls for each of the alternatives until one returns a status. *)
Fixpoint each_until (f : cstr → S → res (S * Z)) (ss : list cstr) (st : S) : res (S * Z) :=
  match ss with
  | [] => Ok (st, 0)
  | s :: ss => '(st, status) ← f s st; if status =? 0 then each_until f ss st else Ok (st, status)
  end.

Fixpoint ruby_brace_expand (fuel : nat) (s : cstr) (st : S) : res (S * Z) :=
  match fuel with
  | O => Err NoFuel
  | Datatypes.S fuel =>
      match brace_scan s 0 0 None with
      | (Some lbrace, Some rbrace) =>
          let pre := take (Z.to_nat lbrace) s in
          let body := take (Z.to_nat (rbrace - lbrace - 1)) (drop (Z.to_nat (lbrace + 1)) s) in
          let post := drop (Z.to_nat (rbrace + 1)) s in
          each_until (ruby_brace_expand fuel) ((λ t, pre ++ t ++ post) <$> brace_alts body 0 []) st
      | (None, None) => func s st
      | _ => Ok (st, 0)
      end
  end.
End brace.
