(* ===== verification/DirSpec.v ===== *)
(** * dir.c: what a pattern means

    A pattern is read once into tokens, and matched by a definition that tries
    every position of every star; [fnmatch] keeps only the last star, and the last
    [**/], to come back to. *)

From S2P Require Import Prelude Util Dir.

Inductive tok :=
  | TStar
  | TAny
  | TSet (neg : bool) (rs : list (Z * Z))
  | TLit (c : Z)
  | TBad.                               (* a bracket that is not closed *)

#[global] Instance tok_eq_dec : EqDecision tok.
Proof. solve_decision. Defined.

Section spec.
Context (period pathname escape nocase : bool).

(** ** Reading a pattern *)

(** A dash that does not end the set. *)
Definition dash (p : cstr) : bool := (peek p =? 45) && negb (peek (tail p) =? 93).

(** The ranges of a set, and the pattern after its bracket. *)
Fixpoint ranges (n : nat) (p : cstr) : option (list (Z * Z) * cstr) :=
  match n with
  | O => None
  | S n =>
      if peek p =? 93 then Some ([], tail p) else
      let lo := UNESCAPE escape p in
      if peek lo =? 0 then None else
      if dash (tail lo) then
        let hi := UNESCAPE escape (tail (tail lo)) in
        if peek hi =? 0 then None else
        '(rs, e) ← ranges n (tail hi); Some ((peek lo, peek hi) :: rs, e)
      else '(rs, e) ← ranges n (tail lo); Some ((peek lo, peek lo) :: rs, e)
  end.

Definition set_of (p : cstr) : option (bool * list (Z * Z) * cstr) :=
  let neg := (peek p =? 33) || (peek p =? 94) in
  let p := if neg then tail p else p in
  '(rs, e) ← ranges (S (length p)) p; Some (neg, rs, e).

(** The tokens of an element, and the pattern from its end: the first token, and
    the others by [rest]. *)
Definition toks_body (rest : cstr → list tok * cstr) (p : cstr) : list tok * cstr :=
  let add t p := let '(ts, r) := rest p in (t :: ts, r) in
  if peek p =? 42 then add TStar (tail p) else
  if peek p =? 63 then add TAny (tail p) else
  if peek p =? 91 then
    match set_of (tail p) with
    | Some (neg, rs, q) => add (TSet neg rs) q
    | None => ([TBad], [])
    end
  else
    let p := UNESCAPE escape p in
    if ISEND pathname p then ([], p) else add (TLit (peek p)) (tail p).

Fixpoint toks (n : nat) : cstr → list tok * cstr :=
  match n with
  | O => λ p, ([], p)
  | S n => toks_body (toks n)
  end.

Definition tokens (p : cstr) : list tok * cstr := toks (S (length p)) p.

(** ** Matching an element *)

Definition in_range (c : Z) (r : Z * Z) : bool :=
  (downcase nocase r.1 <=? downcase nocase c) && (downcase nocase c <=? downcase nocase r.2).

Definition tok1 (t : tok) (c : Z) : bool :=
  match t with
  | TAny => true
  | TSet neg rs => xorb (existsb (in_range c) rs) neg
  | TLit d => downcase nocase d =? downcase nocase c
  | TStar | TBad => false
  end.

(** A star stands for any string. *)
Fixpoint tmatch (ts : list tok) : list Z → bool :=
  match ts with
  | [] => λ s, match s with [] => true | _ => false end
  | TStar :: ts => fix star s := tmatch ts s || match s with [] => false | _ :: s => star s end
  | t :: ts => λ s, match s with [] => false | c :: s => tok1 t c && tmatch ts s end
  end.

Definition hidden (s : list Z) : bool := period && (peek s =? 46).

(** A leading period is matched only by a period. *)
Definition elem_match (ts : list tok) (s : list Z) : bool :=
  negb (hidden s && negb (bool_decide (head ts = Some (TLit 46)))) && tmatch ts s.

(** ** Paths *)

(** The element of a string up to its end marker, and the string from there. *)
Fixpoint seg (s : cstr) : list Z * cstr :=
  match s with
  | [] => ([], [])
  | c :: s' => if ISEND pathname s then ([], s) else let '(e, r) := seg s' in (c :: e, r)
  end.

(** The elements of a pattern, each with whether [**/] comes before it. *)
Fixpoint comps (n : nat) (p : cstr) : list (bool * list tok) :=
  match n with
  | O => []
  | S n =>
      let q := skip_recursive (length p) p in
      let '(ts, r) := tokens q in
      (at_recursive p, ts) :: (if peek r =? 0 then [] else comps n (tail r))
  end.

(** The elements of a string. *)
Fixpoint split (n : nat) (s : cstr) : list (list Z) :=
  match n with
  | O => []
  | S n => let '(e, r) := seg s in e :: (if peek r =? 0 then [] else split n (tail r))
  end.

(** [**/] stands for any number of directories that are not hidden. *)
Fixpoint pmatch (cs : list (bool * list tok)) : list (list Z) → bool :=
  match cs with
  | [] => λ ss, match ss with [] => true | _ => false end
  | (r, ts) :: cs =>
      fix go ss :=
        match ss with
        | [] => false
        | s :: ss => (elem_match ts s && pmatch cs ss) || (r && negb (hidden s) && go ss)
        end
  end.
End spec.

(** What [fnmatch(p, s, flags)] decides. *)
Definition matches (flags : Z) (p s : cstr) : bool :=
  let period := negb (flag flags FNM_DOTMATCH) in
  let pathname := flag flags FNM_PATHNAME in
  let escape := negb (flag flags FNM_NOESCAPE) in
  let nocase := flag flags FNM_CASEFOLD in
  if pathname then
    pmatch period nocase (comps pathname escape (S (length p)) p) (split pathname (S (length s)) s)
  else elem_match period nocase (tokens pathname escape p).1 (seg pathname s).1.
