(* ===== verification/DirOps.v ===== *)
(** Matching of paths: an element of a path, then paths of several elements. *)

(** * dir.c: an element of a path is matched as its tokens say *)

From S2P Require Import Prelude Util Dir DirSpec.

Lemma peek_nz p : peek p ≠ 0 → p = peek p :: tail p.
Proof. by destruct p as [|c p]. Qed.

Lemma Inc_nz p : peek p ≠ 0 → Inc p = Ok (tail p).
Proof. by destruct p. Qed.

Lemma tail_shorter p : peek p ≠ 0 → (length (tail p) < length p)%nat.
Proof. destruct p; [done|cbn; lia]. Qed.

Section pattern.
Context (pathname escape : bool).

Lemma UNESCAPE_length p : (length (UNESCAPE escape p) ≤ length p)%nat.
Proof. unfold UNESCAPE. destruct (escape && _); [|done]. destruct p; cbn; lia. Qed.

(** The conditional [t++] of the code. *)
Lemma inc_escape p : (if escape && (peek p =? 92) then Inc p else Ok p) = Ok (UNESCAPE escape p).
Proof. unfold UNESCAPE. destruct escape; [|done]. cbn. destruct p as [|c p]; [done|]. cbn. by destruct (c =? 92). Qed.

Lemma not_end p : ISEND pathname p = false → peek p ≠ 0.
Proof. unfold ISEND. intros H E. by rewrite E in H. Qed.

(** ** Sets *)

Lemma ranges_length n p rs e : ranges escape n p = Some (rs, e) → (length e < length p)%nat.
Proof.
  revert p rs e. induction n as [|n IH]; intros p rs e; [done|]. cbn [ranges].
  destruct (Z.eqb_spec (peek p) 93) as [E|]; [intros [= _ <-]; apply tail_shorter; lia|].
  pose proof (UNESCAPE_length p). set (lo := UNESCAPE escape p) in *. destruct (Z.eqb_spec (peek lo) 0) as [|Hlo]; [done|].
  apply tail_shorter in Hlo. destruct (dash (tail lo)) eqn:Hd.
  - apply andb_true_iff in Hd as [Hd _]. apply Z.eqb_eq in Hd.
    pose proof (tail_shorter (tail lo) ltac:(lia)). pose proof (UNESCAPE_length (tail (tail lo))).
    set (hi := UNESCAPE escape (tail (tail lo))) in *. destruct (Z.eqb_spec (peek hi) 0) as [|Hhi]; [done|]. apply tail_shorter in Hhi.
    destruct (ranges escape n (tail hi)) as [[rs' e']|] eqn:E; [|done]. intros [= _ <-]. apply IH in E. lia.
  - destruct (ranges escape n (tail lo)) as [[rs' e']|] eqn:E; [|done]. intros [= _ <-]. apply IH in E. lia.
Qed.

Lemma set_of_length p neg rs e : set_of escape p = Some (neg, rs, e) → (length e < length p)%nat.
Proof.
  unfold set_of. set (q := if _ : bool then tail p else p).
  assert (length q ≤ length p)%nat by (unfold q; destruct (_ || _); destruct p; cbn; lia).
  destruct (ranges escape (S (length q)) q) as [[rs' e']|] eqn:E; [|done]. intros [= _ _ <-]. apply ranges_length in E. lia.
Qed.

(** ** Tokens do not depend on the fuel *)

Lemma toks_body_ext f g p : (∀ q, (length q < length p)%nat → f q = g q) → toks_body pathname escape f p = toks_body pathname escape g p.
Proof.
  intros H. unfold toks_body.
  destruct (Z.eqb_spec (peek p) 42); [by rewrite H by (apply tail_shorter; lia)|].
  destruct (Z.eqb_spec (peek p) 63); [by rewrite H by (apply tail_shorter; lia)|].
  destruct (Z.eqb_spec (peek p) 91).
  - destruct (set_of escape (tail p)) as [[[neg rs] q]|] eqn:Es; [|done]. apply set_of_length in Es.
    rewrite H; [done|]. pose proof (tail_shorter p ltac:(lia)). lia.
  - destruct (ISEND pathname (UNESCAPE escape p)) eqn:Ee; [done|]. apply not_end, tail_shorter in Ee.
    pose proof (UNESCAPE_length p). by rewrite H by lia.
Qed.

Lemma toks_enough n m p : (length p < n)%nat → (length p < m)%nat → toks pathname escape n p = toks pathname escape m p.
Proof.
  revert m p. induction n as [|n IH]; intros [|m] p Hn Hm; [lia|lia|lia|].
  apply toks_body_ext. intros q Hq. apply IH; lia.
Qed.

Lemma tokens_unfold p : tokens pathname escape p = toks_body pathname escape (tokens pathname escape) p.
Proof. apply toks_body_ext. intros q Hq. apply toks_enough; lia. Qed.
End pattern.

(** ** Bracket expressions *)

Section bracket.
Context (nocase escape : bool).

Lemma bracket_loop n c s p ok :
  (length p < n)%nat →
  iter n (bracket_step nocase escape (c :: s)) (p, ok) =
  Ok ('(rs, e) ← ranges escape n p; Some (93 :: e, ok || existsb (in_range nocase c) rs)).
Proof.
  revert p ok. induction n as [|n IH]; intros p ok Hn; [lia|]. cbn [iter ranges]. unfold bracket_step.
  destruct (Z.eqb_spec (peek p) 93) as [E|].
  { rewrite (peek_nz p), E by lia. cbn. by rewrite orb_false_r. }
  rewrite inc_escape. cbn [mbind res_bind]. pose proof (UNESCAPE_length escape p) as Hl. set (lo := UNESCAPE escape p) in *.
  destruct (Z.eqb_spec (peek lo) 0) as [|Hlo]; [done|]. rewrite Inc_nz by done. cbn [mbind res_bind]. apply tail_shorter in Hlo.
  change (Compare nocase lo (c :: s)) with (downcase nocase (peek lo) - downcase nocase c). fold (dash (tail lo)).
  destruct (dash (tail lo)) eqn:Hd.
  - apply andb_true_iff in Hd as [Hd _]. apply Z.eqb_eq in Hd.
    rewrite Inc_nz by lia. cbn [mbind res_bind]. rewrite inc_escape. cbn [mbind res_bind].
    pose proof (tail_shorter (tail lo) ltac:(lia)). pose proof (UNESCAPE_length escape (tail (tail lo))).
    set (hi := UNESCAPE escape (tail (tail lo))) in *. destruct (Z.eqb_spec (peek hi) 0) as [|Hhi]; [done|].
    rewrite Inc_nz by done. cbn [mbind res_bind]. apply tail_shorter in Hhi. rewrite IH by lia. f_equal.
    destruct (ranges escape n (tail hi)) as [[rs e]|]; [|done]. cbn [mbind option_bind existsb]. do 2 f_equal.
    rewrite orb_assoc. do 2 f_equal. unfold in_range, Compare, compare. cbn [fst snd peek hd].
    f_equal; apply eq_true_iff_eq; rewrite !Z.leb_le; lia.
  - cbn [mbind res_bind]. rewrite IH by lia. f_equal.
    destruct (ranges escape n (tail lo)) as [[rs e]|]; [|done]. cbn [mbind option_bind existsb]. do 2 f_equal.
    rewrite orb_assoc. do 2 f_equal. unfold in_range. cbn [fst snd].
    apply eq_true_iff_eq; rewrite andb_true_iff, !Z.leb_le, Z.eqb_eq; lia.
Qed.
End bracket.

Lemma bracket_spec flags p c s :
  bracket p (c :: s) flags =
  Ok ('(neg, rs, e) ← set_of (negb (flag flags FNM_NOESCAPE)) p;
      if xorb (existsb (in_range (flag flags FNM_CASEFOLD) c) rs) neg then Some e else None).
Proof.
  unfold bracket, set_of. set (neg := (_ || _)).
  assert ((if neg then p ← Inc p; Ok (true, p) else Ok (false, p)) = Ok (neg, if neg then tail p else p)) as ->.
  { destruct neg eqn:E; [|done]. rewrite Inc_nz; [done|]. intros E'. unfold neg in E. by rewrite E' in E. }
  cbn [mbind res_bind]. rewrite bracket_loop by lia. cbn [mbind res_bind].
  destruct (ranges _ _ _) as [[rs e]|]; [|done]. cbn [mbind option_bind orb].
  by destruct (existsb _ rs), neg.
Qed.

(** ** Stars *)

Section stars.
Context (nocase : bool).
Notation tm := (tmatch nocase).

Lemma tmatch_star ts s : tm (TStar :: ts) s = tm ts s || match s with [] => false | _ :: s => tm (TStar :: ts) s end.
Proof. by destruct s. Qed.

Lemma tmatch_single t ts s : t ≠ TStar → tm (t :: ts) s = match s with [] => false | c :: s => tok1 nocase t c && tm ts s end.
Proof. by destruct t. Qed.

Lemma star_exists ts s : tm (TStar :: ts) s = true ↔ ∃ k, (k ≤ length s)%nat ∧ tm ts (drop k s) = true.
Proof.
  split.
  - induction s as [|c s IH]; rewrite tmatch_star, orb_true_iff; intros [H|H]; try done;
      [by exists 0%nat|exists 0%nat; split; [lia|done]|]. destruct (IH H) as (k & Hk & Hs). exists (S k). split; [cbn; lia|done].
  - intros (k & Hk & H). revert s Hk H. induction k as [|k IH]; intros s Hk H; rewrite tmatch_star; [rewrite drop_0 in H; by rewrite H|].
    destruct s as [|c s]; [cbn in Hk; lia|]. rewrite IH; [apply orb_true_r|cbn in Hk; lia|done].
Qed.

(** Tokens matched one by one against characters. *)
Definition aligned : list tok → list Z → Prop := Forall2 (λ t c, tok1 nocase t c = true).

Lemma tmatch_aligned us x ts s : aligned us x → tm (us ++ ts) (x ++ s) = tm ts s.
Proof.
  intros H. induction H as [|t c us x Ht H IH]; [done|]. cbn [app]. rewrite tmatch_single by (by intros ->).
  by rewrite Ht, IH.
Qed.

Lemma tmatch_app us ts s :
  Forall (λ t, t ≠ TStar) us → tm (us ++ ts) s = true → (length us ≤ length s)%nat ∧ tm ts (drop (length us) s) = true.
Proof.
  intros Hu. revert s. induction Hu as [|t us Ht Hu IH]; intros s H; [cbn; by split; [lia|]|]. cbn [app] in H.
  rewrite tmatch_single in H by done. destruct s as [|c s]; [done|]. apply andb_true_iff in H as [_ H].
  destruct (IH _ H). cbn. by split; [lia|].
Qed.

Lemma aligned_single us x : aligned us x → Forall (λ t, t ≠ TStar) us.
Proof. intros H. induction H as [|t c us x Ht]; constructor; [by intros ->|done]. Qed.

(** When the pattern reaches another star, the earlier ones can stay where they
    are. *)
Lemma greedy us x ts s : aligned us x → tm (TStar :: us ++ TStar :: ts) (x ++ s) = tm (TStar :: ts) s.
Proof.
  intros Ha. pose proof (Forall2_length _ _ _ Ha) as Hx. apply eq_true_iff_eq. split.
  - intros (k & Hk & H)%star_exists. apply tmatch_app in H as (Hl & H); [|by eapply aligned_single].
    apply star_exists in H as (j & Hj & H). apply star_exists. exists (k + j)%nat.
    rewrite !length_drop, length_app in Hj. rewrite length_drop, length_app in Hl. rewrite length_app in Hk. split; [lia|].
    rewrite !drop_drop in H. rewrite <- H. f_equal. rewrite <- (drop_app_length x s) at 1. rewrite drop_drop. f_equal. lia.
  - intros H. apply star_exists. exists 0%nat. split; [lia|]. by rewrite drop_0, tmatch_aligned.
Qed.

(** Each token other than a star takes a character. *)
Definition need (ts : list tok) : nat := length (filter (λ t, t ≠ TStar) ts).

Lemma need_cons t ts : t ≠ TStar → need (t :: ts) = S (need ts).
Proof. intros H. unfold need. by rewrite filter_cons_True. Qed.

Lemma need_app us ts : need (us ++ ts) = (need us + need ts)%nat.
Proof. unfold need. by rewrite filter_app, length_app. Qed.

Lemma need_aligned us x : aligned us x → need us = length x.
Proof. intros H. induction H as [|t c us x Ht H IH]; [done|]. rewrite need_cons by (by intros ->). cbn. by rewrite IH. Qed.

Lemma tmatch_need ts s : tm ts s = true → (need ts ≤ length s)%nat.
Proof.
  revert s. induction ts as [|t ts IH]; intros s H; [cbn; lia|]. destruct (decide (t = TStar)) as [->|Ht].
  - apply star_exists in H as (k & Hk & H). apply IH in H. rewrite length_drop in H. unfold need in *.
    rewrite filter_cons_False by (by intros []). lia.
  - rewrite tmatch_single in H by done. destruct s as [|c s]; [done|]. apply andb_true_iff in H as [_ H].
    apply IH in H. rewrite need_cons by done. cbn. lia.
Qed.

Lemma tmatch_star_ext ts ts' us s : (∀ s, tm ts s = tm ts' s) → tm (us ++ ts) s = tm (us ++ ts') s.
Proof.
  intros H. revert s. induction us as [|t us IH]; intros s; [by apply H|]. cbn [app]. destruct (decide (t = TStar)) as [->|Ht].
  - apply eq_true_iff_eq. rewrite !star_exists. by setoid_rewrite IH.
  - rewrite !tmatch_single by done. destruct s; [done|]. by rewrite IH.
Qed.

Lemma star_star ts s : tm (TStar :: TStar :: ts) s = tm (TStar :: ts) s.
Proof. apply (greedy [] [] ts s). constructor. Qed.
End stars.

(** ** The loop over an element *)

Section helper.
Context (flags : Z).
Notation period := (negb (flag flags FNM_DOTMATCH)).
Notation pathname := (flag flags FNM_PATHNAME).
Notation escape := (negb (flag flags FNM_NOESCAPE)).
Notation nocase := (flag flags FNM_CASEFOLD).
Notation tm := (tmatch nocase).
Notation tokens := (tokens pathname escape).
Notation seg := (seg pathname).

Lemma seg_end s : ISEND pathname s = true → seg s = ([], s).
Proof. destruct s as [|c s]; [done|]. intros E. cbn [DirSpec.seg]. by rewrite E. Qed.

Lemma seg_cons s : ISEND pathname s = false → seg s = (peek s :: (seg (tail s)).1, (seg (tail s)).2).
Proof. destruct s as [|c s]; [done|]. intros E. cbn [DirSpec.seg]. rewrite E. cbn [tail peek hd]. by destruct (seg s). Qed.

Lemma seg_nil_end s r : seg s = ([], r) → ISEND pathname s = true.
Proof. intros H. destruct (ISEND pathname s) eqn:E; [done|]. by rewrite seg_cons in H. Qed.

Lemma end_tokens p : ISEND pathname (UNESCAPE escape p) = true → tokens p = ([], UNESCAPE escape p).
Proof.
  intros H. rewrite tokens_unfold. unfold toks_body.
  assert (∀ c, peek p = c → c ≠ 0 → c ≠ 47 → c ≠ 92 → False) as Hno.
  { intros c E H0 H1 H2. unfold UNESCAPE in H. rewrite E in H. rewrite (proj2 (Z.eqb_neq c 92)), andb_false_r in H by done.
    unfold ISEND in H. rewrite E, (proj2 (Z.eqb_neq c 0)), (proj2 (Z.eqb_neq c 47)), andb_false_r in H by done. done. }
  destruct (Z.eqb_spec (peek p) 42) as [E|]; [by exfalso; eapply Hno|].
  destruct (Z.eqb_spec (peek p) 63) as [E|]; [by exfalso; eapply Hno|].
  destruct (Z.eqb_spec (peek p) 91) as [E|]; [by exfalso; eapply Hno|]. by rewrite H.
Qed.

(** A pattern that is not at its end and not at a star asks for a character. *)
Lemma tokens_need p : peek p ≠ 42 → ISEND pathname (UNESCAPE escape p) = false → (0 < need (tokens p).1)%nat.
Proof.
  intros H H'. rewrite tokens_unfold. unfold toks_body. rewrite (proj2 (Z.eqb_neq _ _) H).
  destruct (peek p =? 63); [destruct (tokens (tail p)); cbn [fst]; rewrite need_cons; [lia|done]|].
  destruct (peek p =? 91).
  - destruct (set_of escape (tail p)) as [[[neg rs] q]|]; [destruct (tokens q)|]; cbn [fst]; (rewrite need_cons; [lia|done]).
  - cbv zeta. rewrite H'. destruct (tokens (tail (UNESCAPE escape p))); cbn [fst]. rewrite need_cons; [lia|done].
Qed.

Lemma skip_stars_spec p :
  peek p = 42 → peek (skip_stars p) ≠ 42 ∧ (length (skip_stars p) < length p)%nat ∧
  (tokens p).2 = (tokens (skip_stars p)).2 ∧ need (tokens p).1 = need (tokens (skip_stars p)).1 ∧
  (∀ s, tm (tokens p).1 s = tm (TStar :: (tokens (skip_stars p)).1) s).
Proof.
  induction p as [|c p IH]; [done|]. cbn [peek hd]. intros ->. cbn [skip_stars Z.eqb Pos.eqb].
  assert (tokens (42 :: p) = (TStar :: (tokens p).1, (tokens p).2)) as E
    by (rewrite tokens_unfold; unfold toks_body; cbn [peek hd tail Z.eqb Pos.eqb]; by destruct (tokens p)).
  rewrite E. cbn [fst snd]. destruct (decide (peek p = 42)) as [Hp|Hp].
  - destruct (IH Hp) as (H1 & H2 & H3 & H5 & H4). split_and!; [done|cbn; lia|done|done|]. intros s.
    etransitivity; [exact (tmatch_star_ext nocase _ _ [TStar] s H4)|apply star_star].
  - assert (skip_stars p = p) as -> by (destruct p as [|d p]; [done|]; cbn in Hp |- *; by rewrite (proj2 (Z.eqb_neq d 42))).
    split_and!; [done|cbn; lia|done|done|done].
Qed.

Section invariant.
Context (p0 s0 r0 rs : cstr) (G : bool).

(** [G] is the answer, [r0] the end of the pattern, [rs] the end of the string. *)
Definition fn_inv (st : fnstate) : Prop :=
  let '(p, s, tmp) := st in
  ∃ ts e, tokens p = (ts, r0) ∧ seg s = (e, rs) ∧ (length p ≤ length p0)%nat ∧ (length s ≤ length s0)%nat ∧
  match tmp with
  | None => G = tm ts e
  | Some (pt, st) => ∃ us x, tokens pt = (us ++ ts, r0) ∧ seg st = (x ++ e, rs) ∧ aligned nocase us x ∧
      G = tm (TStar :: us ++ ts) (x ++ e) ∧ (length pt ≤ length p0)%nat ∧ (length s ≤ length st ≤ length s0)%nat
  end.

Definition fn_measure (st : fnstate) : nat :=
  let '(p, s, tmp) := st in
  (match tmp with None => S (length s0) | Some (_, st) => length st end) * (length p0 + 2) + length p.

Definition fn_post (r : fnstate + Z * cstr * cstr) (m : nat) : Prop :=
  match r with
  | inl st => fn_inv st ∧ (fn_measure st < m)%nat
  | inr (v, p, s) => if G then v = 0 ∧ p = r0 ∧ (seg s).2 = rs else v = FNM_NOMATCH
  end.

(** What is left of the pattern decides, at the current position. *)
Lemma inv_here p s tmp ts e :
  fn_inv (p, s, tmp) → tokens p = (ts, r0) → seg s = (e, rs) → tm ts e = true → G = true.
Proof.
  intros (ts' & e' & Et & Es & _ & _ & H) Et' Es' Hm. rewrite Et in Et'. rewrite Es in Es'. injection Et' as ->. injection Es' as ->.
  destruct tmp as [[pt st]|]; [|by rewrite H]. destruct H as (us & x & _ & _ & Ha & -> & _). apply star_exists.
  exists 0%nat. split; [lia|]. by rewrite drop_0, tmatch_aligned.
Qed.

(** The string has ended and the pattern wants more. *)
Lemma inv_short p s tmp : fn_inv (p, s, tmp) → ISEND pathname s = true → (0 < need (tokens p).1)%nat → G = false.
Proof.
  intros (ts & e & Et & Es & _ & _ & H) Hs Hn. rewrite seg_end in Es by done. injection Es as <- <-. rewrite Et in Hn. cbn [fst] in Hn.
  apply not_true_iff_false. intros HG. destruct tmp as [[pt st]|].
  - destruct H as (us & x & _ & _ & Ha & E & _). rewrite E in HG. apply tmatch_need in HG.
    change (TStar :: us ++ ts) with ([TStar] ++ us ++ ts) in HG. rewrite !need_app, app_nil_r, (need_aligned nocase us x Ha) in HG. lia.
  - rewrite H in HG. apply tmatch_need in HG. cbn [length] in HG. lia.
Qed.

(** A token matches the next character. *)
Lemma inv_advance p s tmp t p' :
  fn_inv (p, s, tmp) → ISEND pathname s = false → tokens p = (t :: (tokens p').1, (tokens p').2) →
  (length p' < length p)%nat → tok1 nocase t (peek s) = true → fn_post (inl (p', tail s, tmp)) (fn_measure (p, s, tmp)).
Proof.
  intros (ts & e & Et & Es & Hp & Hs & H) He Et' Hl Ht. rewrite Et in Et'. injection Et' as -> Er.
  rewrite seg_cons in Es by done. injection Es as <- Ers. pose proof (tail_shorter s (not_end _ _ He)) as Hts. split; [|cbn; lia].
  exists (tokens p').1, (seg (tail s)).1. rewrite Er at 1. rewrite <- Ers at 1. rewrite <- !surjective_pairing.
  split_and!; [done|done|lia|lia|]. destruct tmp as [[pt st]|].
  - destruct H as (us & x & Ept & Est & Ha & E & Hlt & Hst). exists (us ++ [t]), (x ++ [peek s]). rewrite <- !app_assoc. cbn [app].
    split_and!; try done; [|lia|lia]. apply Forall2_app; [done|]. by constructor.
  - rewrite H, tmatch_single by (by intros ->). by rewrite Ht.
Qed.

(** A mismatch: back to the last star, one character further. *)
Lemma inv_failed p s tmp q :
  fn_inv (p, s, tmp) → ISEND pathname s = false → tm (tokens p).1 (seg s).1 = false →
  returns (fnmatch_failed q s tmp) (λ r, fn_post r (fn_measure (p, s, tmp))).
Proof.
  intros (ts & e & Et & Es & Hp & Hs & H) He Hm. rewrite Et, Es in Hm. cbn [fst] in Hm. destruct tmp as [[pt st]|]; cbn [fnmatch_failed].
  - destruct H as (us & x & Ept & Est & Ha & E & Hlt & Hst). destruct (ISEND pathname st) eqn:Hend.
    { rewrite seg_end in Est by done. injection Est as Ex _. symmetry in Ex. apply app_eq_nil in Ex as [_ ->].
      apply seg_nil_end in Es. by rewrite Es in He. }
    pose proof (not_end _ _ Hend) as Hnz. rewrite Inc_nz by done. cbn [mbind res_bind]. apply returns_ret.
    apply tail_shorter in Hnz. rewrite seg_cons in Est by done. injection Est as Ex Ers. split.
    + exists (us ++ ts), (seg (tail st)).1. rewrite <- Ers at 1. rewrite <- surjective_pairing. split_and!; [done|done|lia|lia|].
      exists [], []. cbn [app]. rewrite <- Ers at 1. rewrite <- surjective_pairing. split_and!; [done|done|constructor| |lia|lia|lia].
      rewrite E, tmatch_star, tmatch_aligned, Hm by done. by rewrite <- Ex.
    + cbn [fn_measure]. nia.
  - apply returns_ret. cbn. by rewrite H, Hm.
Qed.

Lemma tokens_any p : peek p = 63 → tokens p = (TAny :: (tokens (tail p)).1, (tokens (tail p)).2).
Proof. intros E. rewrite tokens_unfold. unfold toks_body. rewrite E. cbn [Z.eqb Pos.eqb]. by destruct (tokens (tail p)). Qed.

Lemma star_step p s tmp : fn_inv (p, s, tmp) → peek p = 42 →
  returns (fnmatch_step flags (p, s, tmp)) (λ r, fn_post r (fn_measure (p, s, tmp))).
Proof.
  intros Hi E. unfold fnmatch_step. rewrite E. cbn [Z.eqb Pos.eqb]. destruct (skip_stars_spec p E) as (Hne & Hl & Hr & Hn & Hm).
  set (q := skip_stars p) in *. pose proof Hi as (ts & e & Et & Es & Hp & Hs & H). rewrite Et in Hr, Hn, Hm. cbn [fst snd] in Hr, Hn, Hm.
  destruct (ISEND pathname (UNESCAPE escape q)) eqn:Hq.
  { apply returns_ret. rewrite end_tokens in Hr, Hm by done. cbn [fst snd] in Hr, Hm. cbn [fn_post].
    rewrite (inv_here p s tmp ts e Hi Et Es); [by rewrite Es|]. rewrite Hm. apply star_exists. exists (length e). by rewrite drop_all. }
  pose proof (tokens_need q Hne Hq) as Hnq. destruct (ISEND pathname s) eqn:Hse.
  { apply returns_ret. cbn. rewrite (inv_short p s tmp Hi Hse); [done|]. rewrite Et. cbn [fst]. lia. }
  apply returns_ret. split; [|destruct tmp as [[pt st]|]; cbn [fn_measure]; [destruct H as (? & ? & _ & _ & _ & _ & _ & ?)|]; nia].
  exists (tokens q).1, e. rewrite Hr at 1. rewrite <- surjective_pairing. split_and!; [done|done|lia|lia|].
  exists [], []. cbn [app]. rewrite Hr at 1. rewrite <- surjective_pairing. split_and!; [done|done|constructor| |lia|lia|lia].
  destruct tmp as [[pt st]|]; [|by rewrite H, Hm]. destruct H as (us & x & _ & _ & Ha & -> & _).
  change (TStar :: us ++ ts) with ((TStar :: us) ++ ts). rewrite (tmatch_star_ext nocase _ _ (TStar :: us) _ Hm). by apply greedy.
Qed.

Lemma ordinary_step p s tmp : fn_inv (p, s, tmp) → peek p ≠ 42 → peek p ≠ 63 → peek p ≠ 91 →
  returns (fnmatch_ordinary flags p s tmp) (λ r, fn_post r (fn_measure (p, s, tmp))).
Proof.
  intros Hi H1 H2 H3. unfold fnmatch_ordinary. pose proof Hi as (ts & e & Et & Es & Hp & Hs & _). set (q := UNESCAPE escape p).
  assert (ISEND pathname q = true → ts = [] ∧ r0 = q) as Hend.
  { intros Hq. unfold q in Hq. rewrite end_tokens in Et by done. by injection Et. }
  destruct (ISEND pathname s) eqn:Hse.
  { apply returns_ret. cbn. rewrite Es. destruct (ISEND pathname q) eqn:Hq.
    - destruct (Hend eq_refl) as [-> Hr]. rewrite (inv_here p s tmp [] e Hi Et Es); [done|]. rewrite seg_end in Es by done. by injection Es as <- _.
    - by rewrite (inv_short p s tmp Hi Hse (tokens_need p H1 Hq)). }
  destruct (ISEND pathname q) eqn:Hq.
  { destruct (Hend eq_refl) as [-> Hr]. apply inv_failed; [done|done|]. rewrite Et. cbn [fst]. by rewrite seg_cons. }
  assert (tokens p = (TLit (peek q) :: (tokens (tail q)).1, (tokens (tail q)).2)) as Etp.
  { rewrite tokens_unfold. unfold toks_body. rewrite (proj2 (Z.eqb_neq _ _) H1), (proj2 (Z.eqb_neq _ _) H2), (proj2 (Z.eqb_neq _ _) H3).
    cbv zeta. fold q. rewrite Hq. by destruct (tokens (tail q)). }
  unfold Compare, compare. destruct (Z.eqb_spec (downcase nocase (peek q) - downcase nocase (peek s)) 0) as [Ec|Ec]; cbn [negb].
  - rewrite !Inc_nz by (by eapply not_end). cbn [mbind res_bind]. apply returns_ret.
    apply (inv_advance p s tmp (TLit (peek q))); [done|done|done| |cbn; apply Z.eqb_eq; lia].
    pose proof (tail_shorter q (not_end _ _ Hq)). pose proof (UNESCAPE_length escape p). unfold q in *. lia.
  - apply inv_failed; [done|done|]. rewrite Etp, seg_cons by done. cbn [fst]. rewrite tmatch_single by done.
    cbn [tok1]. by rewrite (proj2 (Z.eqb_neq (downcase nocase (peek q)) _)) by lia.
Qed.

Lemma fnmatch_step_spec st : fn_inv st → returns (fnmatch_step flags st) (λ r, fn_post r (fn_measure st)).
Proof.
  destruct st as [[p s] tmp]. intros Hi. destruct (decide (peek p = 42)) as [E|H42]; [by apply star_step|].
  unfold fnmatch_step. rewrite (proj2 (Z.eqb_neq _ _) H42). destruct (Z.eqb_spec (peek p) 63) as [E|H63].
  { destruct (ISEND pathname s) eqn:Hse.
    - apply returns_ret. cbn. rewrite (inv_short p s tmp Hi Hse); [done|]. rewrite tokens_any by done. cbn [fst].
      rewrite need_cons; [lia|done].
    - rewrite (Inc_nz p) by lia. cbn [mbind res_bind]. rewrite (Inc_nz s) by (by eapply not_end). apply returns_ret.
      apply (inv_advance p s tmp TAny); [done|done|by apply tokens_any|apply tail_shorter; lia|done]. }
  destruct (Z.eqb_spec (peek p) 91) as [E|H91]; [|by apply ordinary_step].
  assert (tokens p = match set_of escape (tail p) with
                     | Some (neg, rs, q) => (TSet neg rs :: (tokens q).1, (tokens q).2) | None => ([TBad], []) end) as Etp.
  { rewrite tokens_unfold. unfold toks_body. rewrite E. cbn [Z.eqb Pos.eqb]. destruct (set_of escape (tail p)) as [[[neg rs'] q]|]; [|done].
    by destruct (tokens q). }
  destruct (ISEND pathname s) eqn:Hse.
  { apply returns_ret. cbn. rewrite (inv_short p s tmp Hi Hse); [done|]. rewrite Etp.
    destruct (set_of escape (tail p)) as [[[neg rs'] q]|]; cbn [fst]; (rewrite need_cons; [lia|done]). }
  rewrite (Inc_nz p) by lia. cbn [mbind res_bind]. pose proof (not_end _ _ Hse) as Hs0. rewrite (peek_nz s) at 1 by done. rewrite bracket_spec.
  cbn [mbind res_bind]. destruct (set_of escape (tail p)) as [[[neg rs'] q]|] eqn:Eset; cbn [mbind option_bind].
  - apply set_of_length in Eset. pose proof (tail_shorter p ltac:(lia)). destruct (xorb _ _) eqn:Ex.
    + rewrite (Inc_nz s) by done. cbn [mbind res_bind]. apply returns_ret. apply (inv_advance p s tmp (TSet neg rs')); [done|done|done|lia|done].
    + apply inv_failed; [done|done|]. rewrite Etp, seg_cons by done. cbn [fst]. rewrite tmatch_single by done. cbn [tok1]. by rewrite Ex.
  - apply inv_failed; [done|done|]. rewrite Etp, seg_cons by done. done.
Qed.
End invariant.

(** The first token is a period exactly if the first character is. *)
Lemma head_period p : bool_decide (head (tokens p).1 = Some (TLit 46)) = (peek (UNESCAPE escape p) =? 46).
Proof.
  rewrite tokens_unfold. unfold toks_body. assert (peek p ≠ 92 → UNESCAPE escape p = p) as Hu
    by (intros H; unfold UNESCAPE; by rewrite (proj2 (Z.eqb_neq _ _) H), andb_false_r).
  destruct (Z.eqb_spec (peek p) 42) as [E|]; [rewrite Hu, E by lia; by destruct (tokens (tail p))|].
  destruct (Z.eqb_spec (peek p) 63) as [E|]; [rewrite Hu, E by lia; by destruct (tokens (tail p))|].
  destruct (Z.eqb_spec (peek p) 91) as [E|].
  { rewrite Hu, E by lia. destruct (set_of escape (tail p)) as [[[neg rs] q]|]; [by destruct (tokens q)|done]. }
  cbv zeta. destruct (ISEND pathname (UNESCAPE escape p)) eqn:He.
  - cbn [fst head]. rewrite bool_decide_eq_false_2 by done. symmetry. apply Z.eqb_neq. intros E. unfold ISEND in He.
    rewrite E in He. cbn in He. by rewrite andb_false_r in He.
  - destruct (tokens (tail (UNESCAPE escape p))). cbn [fst head]. destruct (Z.eqb_spec (peek (UNESCAPE escape p)) 46) as [->|H];
      [by rewrite bool_decide_eq_true_2|]. apply bool_decide_eq_false_2. intros [= E]. done.
Qed.

Lemma hidden_seg s : hidden period (seg s).1 = period && (peek s =? 46).
Proof.
  unfold hidden. f_equal. destruct (ISEND pathname s) eqn:E; [|by rewrite seg_cons]. rewrite seg_end by done. cbn.
  unfold ISEND in E. destruct (Z.eqb_spec (peek s) 46) as [E'|]; [|done]. rewrite E' in E. cbn in E. by rewrite andb_false_r in E.
Qed.

(** [fnmatch_helper] decides whether the element of the pattern matches that of
    the string; when it does, it leaves the pattern at the end of its element and
    the string within its own. *)
Lemma fnmatch_helper_spec p s :
  returns (fnmatch_helper flags p s) (λ '(v, p', s'),
    if elem_match period nocase (tokens p).1 (seg s).1
    then v = 0 ∧ p' = (tokens p).2 ∧ (seg s').2 = (seg s).2 else v = FNM_NOMATCH).
Proof.
  unfold fnmatch_helper, elem_match.
  rewrite hidden_seg, head_period.
  destruct (period && (peek s =? 46) && negb (peek (UNESCAPE escape p) =? 46)); [by apply returns_ret|]. cbn [negb andb].
  set (G := tmatch nocase (tokens p).1 (seg s).1).
  apply (iter_inv (fn_inv p s (tokens p).2 (seg s).2 G) (fn_measure p s) (λ '(v, p', s'), if G then v = 0 ∧ p' = (tokens p).2 ∧ (seg s').2 = (seg s).2 else v = FNM_NOMATCH)).
  - exists (tokens p).1, (seg s).1. rewrite <- !surjective_pairing. done.
  - unfold fnmatch_fuel, fn_measure. lia.
  - intros st Hst. eapply returns_mono; [by apply fnmatch_step_spec|]. by intros [st'|[[v p'] s']].
Qed.
End helper.

(** * dir.c: paths are matched element by element *)

(** ** Elements of a pattern and of a string *)

Section split.
Context (pathname escape : bool).
Notation tokens := (tokens pathname escape).
Notation seg := (seg pathname).

Lemma toks_rest_length n p : (length (toks pathname escape n p).2 ≤ length p)%nat.
Proof.
  revert p. induction n as [|n IH]; intros p; [done|]. cbn [toks]. unfold toks_body.
  assert (∀ t q, (length q ≤ length p)%nat → (length (let '(ts, r) := toks pathname escape n q in (t :: ts, r)).2 ≤ length p)%nat) as Hadd.
  { intros t q Hq. specialize (IH q). destruct (toks pathname escape n q). cbn in *. lia. }
  assert (∀ q : cstr, length (tail q) ≤ length q)%nat as Ht by (intros []; cbn; lia).
  destruct (peek p =? 42); [by apply Hadd|]. destruct (peek p =? 63); [by apply Hadd|]. destruct (peek p =? 91).
  - destruct (set_of escape (tail p)) as [[[neg rs] q]|] eqn:E; [|cbn; lia]. apply set_of_length in E. apply Hadd.
    specialize (Ht p). lia.
  - cbv zeta. pose proof (UNESCAPE_length escape p). destruct (ISEND pathname _); [done|]. apply Hadd.
    specialize (Ht (UNESCAPE escape p)). lia.
Qed.

Lemma seg_rest_length s : (length (seg s).2 ≤ length s)%nat.
Proof. induction s as [|c s IH]; [done|]. cbn [DirSpec.seg]. destruct (ISEND pathname (c :: s)); [done|]. destruct (seg s). cbn in *. lia. Qed.

Lemma skip_recursive_length n p : (length (skip_recursive n p) ≤ length p)%nat.
Proof.
  revert p. induction n as [|n IH]; intros p; [done|]. cbn [skip_recursive]. destruct (at_recursive p); [|done].
  etransitivity; [apply IH|]. rewrite length_drop. lia.
Qed.

Lemma skip_recursive_none n p : at_recursive p = false → skip_recursive n p = p.
Proof. intros H. destruct n; [done|]. cbn. by rewrite H. Qed.

Lemma skip_recursive_done n p : (length p ≤ n)%nat → at_recursive (skip_recursive n p) = false.
Proof.
  revert p. induction n as [|n IH]; intros p Hn; [by destruct p; [|cbn in Hn; lia]|]. cbn [skip_recursive].
  destruct (at_recursive p) eqn:E; [|done]. apply IH. destruct p as [|a p]; [done|]. rewrite length_drop. cbn in *. lia.
Qed.

(** What is left of a pattern after its first element. *)
Definition next_comps (r : cstr) : list (bool * list tok) :=
  if peek r =? 0 then [] else comps pathname escape (S (length (tail r))) (tail r).
Definition next_split (r : cstr) : list (list Z) :=
  if peek r =? 0 then [] else split pathname (S (length (tail r))) (tail r).

Lemma comps_enough n m p : (length p < n)%nat → (length p < m)%nat → comps pathname escape n p = comps pathname escape m p.
Proof.
  revert m p. induction n as [|n IH]; intros [|m] p Hn Hm; [lia|lia|lia|]. cbn [comps].
  pose proof (skip_recursive_length (length p) p) as Hq. set (q := skip_recursive (length p) p) in *.
  pose proof (toks_rest_length (S (length q)) q) as Hr. fold (tokens q) in Hr. destruct (tokens q) as [ts r]. cbn in Hr. f_equal.
  destruct (Z.eqb_spec (peek r) 0) as [|Hnz]; [done|]. apply tail_shorter in Hnz. apply IH; lia.
Qed.

Lemma comps_unfold p :
  comps pathname escape (S (length p)) p =
  (at_recursive p, (tokens (skip_recursive (length p) p)).1) :: next_comps (tokens (skip_recursive (length p) p)).2.
Proof.
  cbn [comps]. pose proof (skip_recursive_length (length p) p) as Hq. set (q := skip_recursive (length p) p) in *.
  pose proof (toks_rest_length (S (length q)) q) as Hr. fold (tokens q) in Hr. destruct (tokens q) as [ts r]. cbn [fst snd] in *. f_equal.
  unfold next_comps. destruct (Z.eqb_spec (peek r) 0) as [|Hnz]; [done|]. apply tail_shorter in Hnz. apply comps_enough; lia.
Qed.

Lemma split_enough n m s : (length s < n)%nat → (length s < m)%nat → split pathname n s = split pathname m s.
Proof.
  revert m s. induction n as [|n IH]; intros [|m] s Hn Hm; [lia|lia|lia|]. cbn [split].
  pose proof (seg_rest_length s) as Hr. destruct (seg s) as [e r]. cbn in Hr. f_equal.
  destruct (Z.eqb_spec (peek r) 0) as [|Hnz]; [done|]. apply tail_shorter in Hnz. apply IH; lia.
Qed.

Lemma split_unfold s : split pathname (S (length s)) s = (seg s).1 :: next_split (seg s).2.
Proof.
  cbn [split]. pose proof (seg_rest_length s) as Hr. destruct (seg s) as [e r]. cbn [fst snd] in *. f_equal. unfold next_split.
  destruct (Z.eqb_spec (peek r) 0) as [|Hnz]; [done|]. apply tail_shorter in Hnz. apply split_enough; lia.
Qed.

Lemma to_slash_seg s : pathname = true → to_slash s = (seg s).2.
Proof.
  intros H. induction s as [|c s IH]; [done|]. cbn [to_slash DirSpec.seg]. unfold ISEND. rewrite H in IH |- *. cbn [peek hd andb].
  destruct ((c =? 0) || (c =? 47)); [done|]. rewrite IH. by destruct (DirSpec.seg true s).
Qed.
End split.

(** ** Directories skipped by [**/] *)

Section paths.
Context (period nocase : bool).
Notation el := (elem_match period nocase).
Notation pm := (pmatch period nocase).
Notation hidden := (hidden period).

Lemma pm_cons r ts cs s ss :
  pm ((r, ts) :: cs) (s :: ss) = (el ts s && pm cs ss) || (r && negb (hidden s) && pm ((r, ts) :: cs) ss).
Proof. done. Qed.

Lemma pm_plain ts cs s ss : pm ((false, ts) :: cs) (s :: ss) = el ts s && pm cs ss.
Proof. rewrite pm_cons. apply orb_false_r. Qed.

Definition shown (ss : list (list Z)) : Prop := Forall (λ s, hidden s = false) ss.

Lemma pm_rec ts cs ss :
  pm ((true, ts) :: cs) ss = true ↔ ∃ k, (k ≤ length ss)%nat ∧ shown (take k ss) ∧ pm ((false, ts) :: cs) (drop k ss) = true.
Proof.
  split.
  - induction ss as [|s ss IH]; [done|]. rewrite pm_cons, orb_true_iff. intros [H|H].
    + exists 0%nat. split_and!; [lia|by constructor|]. by rewrite drop_0, pm_plain.
    + rewrite !andb_true_iff, negb_true_iff in H. destruct H as [[_ Hh] H]. destruct (IH H) as (k & Hk & Hs & Hm).
      exists (S k). split_and!; [cbn; lia| |done]. by constructor.
  - intros (k & Hk & Hs & Hm). revert ss Hk Hs Hm. induction k as [|k IH]; intros ss Hk Hs Hm.
    + rewrite drop_0 in Hm. destruct ss as [|s ss]; [done|]. rewrite pm_plain in Hm. by rewrite pm_cons, Hm.
    + destruct ss as [|s ss]; [done|]. cbn in Hk, Hs, Hm. apply Forall_cons in Hs as [Hs1 Hs2].
      rewrite pm_cons, (IH ss); [|lia|done|done]. rewrite Hs1. cbn. apply orb_true_r.
Qed.

(** Elements of the pattern matched one by one against elements of the path. *)
Definition path_aligned : list (bool * list tok) → list (list Z) → Prop :=
  Forall2 (λ u s, u.1 = false ∧ el u.2 s = true).

Lemma pm_aligned us x cs ss : path_aligned us x → pm (us ++ cs) (x ++ ss) = pm cs ss.
Proof.
  intros H. induction H as [|[r ts] s us x [Hr He] H IH]; [done|]. cbn [fst snd] in *. subst r. cbn [app].
  by rewrite pm_plain, He, IH.
Qed.

Lemma pm_app us cs ss :
  Forall (λ u, u.1 = false) us → pm (us ++ cs) ss = true →
  (length us ≤ length ss)%nat ∧ path_aligned us (take (length us) ss) ∧ pm cs (drop (length us) ss) = true.
Proof.
  intros Hu. revert ss. induction Hu as [|[r ts] us Hr Hu IH]; intros ss H; [split_and!; [cbn; lia|constructor|by rewrite drop_0]|].
  cbn [fst] in Hr. subst r. cbn [app] in H. destruct ss as [|s ss]; [done|]. rewrite pm_plain, andb_true_iff in H. destruct H as [He H].
  destruct (IH _ H) as (Hl & Ha & Hm). split_and!; [cbn; lia| |done]. by constructor.
Qed.

(** An element of a pattern that matches a hidden name matches hidden names only. *)
Lemma el_hidden ts a b : el ts a = true → el ts b = true → hidden a = true → hidden b = true.
Proof.
  unfold elem_match. intros Ha Hb Hh. rewrite Hh in Ha. cbn [andb] in Ha. rewrite negb_involutive in Ha.
  apply andb_true_iff in Ha as [Ha _]. apply bool_decide_eq_true in Ha. destruct ts as [|t ts]; [done|]. injection Ha as ->.
  apply andb_true_iff in Hb as [_ Hb]. destruct b as [|c b]; [done|]. cbn [tmatch tok1] in Hb. apply andb_true_iff in Hb as [Hb _].
  unfold DirSpec.hidden in *. apply andb_true_iff in Hh as [-> _]. apply Z.eqb_eq in Hb. cbn [peek hd andb]. apply Z.eqb_eq.
  unfold downcase, TOLOWER, ISUPPER in Hb. destruct nocase; cbn [andb] in Hb; [|done].
  destruct ((65 <=? c) && (c <=? 90)) eqn:E; [|done]. cbn in Hb. rewrite andb_true_iff, !Z.leb_le in E. lia.
Qed.

(** Two matches of the same elements, the second [k] directories after the first
    and reached by skipping: nothing in between is hidden. *)
Lemma no_hidden us (T : list (list Z)) k i s :
  (0 < k)%nat → path_aligned us (take (length us) T) → path_aligned us (take (length us) (drop k T)) → shown (take k T) →
  (i < length us + k)%nat → T !! i = Some s → hidden s = false.
Proof.
  intros Hk H1 H2 Hs. revert s. induction (lt_wf i) as [i _ IH]. intros s Hi Hl. destruct (decide (i < k)%nat).
  - eapply (Forall_lookup_1 (λ s, hidden s = false) _ i); [exact Hs|]. by rewrite lookup_take_lt.
  - assert (∃ u, us !! (i - k)%nat = Some u) as [u Hu] by (apply lookup_lt_is_Some_2; lia).
    assert (∃ s', T !! (i - k)%nat = Some s') as [s' Hs'] by (apply lookup_lt_is_Some_2; apply lookup_lt_Some in Hl; lia).
    destruct (Forall2_lookup_lr _ _ _ (i - k)%nat u s' H1 Hu) as [_ E1]; [rewrite lookup_take_lt by lia; done|].
    destruct (Forall2_lookup_lr _ _ _ (i - k)%nat u s H2 Hu) as [_ E2].
    { rewrite lookup_take_lt by lia. rewrite lookup_drop. by replace (k + (i - k))%nat with i by lia. }
    apply not_true_iff_false. intros Hh. pose proof (el_hidden _ _ _ E2 E1 Hh) as Hh'. rewrite (IH (i - k)%nat) in Hh'; [done|lia|lia|done].
Qed.

(** When the pattern reaches another [**/], the earlier ones can stay where they
    are. *)
Lemma path_greedy u us x ts cs ss :
  path_aligned ((false, u) :: us) x → pm ((true, u) :: us ++ (true, ts) :: cs) (x ++ ss) = pm ((true, ts) :: cs) ss.
Proof.
  intros Ha. pose proof (Forall2_length _ _ _ Ha) as Hx. apply eq_true_iff_eq. split.
  - intros (k & Hk & Hs & H)%pm_rec. change ((false, u) :: us ++ (true, ts) :: cs) with (((false, u) :: us) ++ (true, ts) :: cs) in H.
    set (vs := (false, u) :: us) in *. assert (Forall (λ v, v.1 = false) vs) as Hf by (eapply Forall2_Forall_l; [exact Ha|]; apply Forall_true; naive_solver).
    apply pm_app in H as (Hl & Ha' & H); [|done]. apply pm_rec in H as (j & Hj & Hs' & H).
    rewrite !length_drop, length_app in Hj. rewrite length_drop, length_app in Hl. rewrite length_app in Hk.
    apply pm_rec. exists (k + j)%nat. split_and!; [lia| |].
    + apply Forall_lookup_2. intros i s Hi. apply lookup_take_Some in Hi as [Hi Hlt].
      assert ((x ++ ss) !! (length x + i)%nat = Some s) as HT by (rewrite lookup_app_r by lia; by replace (length x + i - length x)%nat with i by lia).
      destruct (decide (i < k)%nat).
      * eapply (no_hidden vs (x ++ ss) k (length x + i)); [lia| |done|done|lia|done]. by rewrite Hx, take_app_length.
      * eapply (Forall_lookup_1 (λ s, hidden s = false) _ (i - k)%nat); [exact Hs'|]. rewrite lookup_take_lt by lia. rewrite !lookup_drop, <- HT. f_equal. lia.
    + rewrite !drop_drop in H. rewrite <- H. f_equal. rewrite <- (drop_app_length x ss) at 1. rewrite drop_drop. f_equal. lia.
  - intros H. apply pm_rec. exists 0%nat. split_and!; [lia|constructor|]. rewrite drop_0.
    change ((false, u) :: us ++ (true, ts) :: cs) with (((false, u) :: us) ++ (true, ts) :: cs). by rewrite pm_aligned.
Qed.
End paths.

(** ** The loop over the elements *)

Section loop.
Context (flags : Z).
Notation period := (negb (flag flags FNM_DOTMATCH)).
Notation pathname := (flag flags FNM_PATHNAME).
Notation escape := (negb (flag flags FNM_NOESCAPE)).
Notation nocase := (flag flags FNM_CASEFOLD).
Notation pm := (pmatch period nocase).
Notation el := (elem_match period nocase).
Notation tokens := (tokens pathname escape).
Notation seg := (seg pathname).
Notation hidden := (hidden period).

Definition pcomps (p : cstr) := comps pathname escape (S (length p)) p.
Definition psplit (s : cstr) := split pathname (S (length s)) s.

(** The elements after [**/]. *)
Definition set_rec (cs : list (bool * list tok)) : list (bool * list tok) :=
  match cs with (_, ts) :: cs => (true, ts) :: cs | [] => [] end.

Context (p0 s0 : cstr) (G : bool).

Definition path_inv (st : fnstate) : Prop :=
  let '(p, s, tmp) := st in
  (length p ≤ length p0)%nat ∧ (length s ≤ length s0)%nat ∧
  match tmp with
  | None => G = pm (pcomps p) (psplit s)
  | Some (pt, st) => ∃ us x, pcomps pt = us ++ pcomps p ∧ psplit st = x ++ psplit s ∧ path_aligned period nocase us x ∧
      G = pm (set_rec (us ++ pcomps p)) (x ++ psplit s) ∧ (length pt ≤ length p0)%nat ∧ (length s ≤ length st ≤ length s0)%nat
  end.

Definition path_post (r : fnstate + Z) (m : nat) : Prop :=
  match r with
  | inl st => path_inv st ∧ (fn_measure p0 s0 st < m)%nat
  | inr v => v = if G then 0 else FNM_NOMATCH
  end.

Lemma pcomps_plain p : at_recursive p = false → pcomps p = (false, (tokens p).1) :: next_comps pathname escape (tokens p).2.
Proof. intros H. unfold pcomps. by rewrite comps_unfold, H, skip_recursive_none. Qed.

Lemma pcomps_cons p : pcomps p ≠ [].
Proof. unfold pcomps. by rewrite comps_unfold. Qed.

(** The start of a turn: [**/] is taken off the pattern and remembered. *)
Lemma path_strip p s tmp :
  path_inv (p, s, tmp) → ∃ q tmp',
    (if at_recursive p then (skip_recursive (length p) p, Some (skip_recursive (length p) p, s)) else (p, tmp)) = (q, tmp') ∧
    at_recursive q = false ∧ path_inv (q, s, tmp') ∧ (fn_measure p0 s0 (q, s, tmp') ≤ fn_measure p0 s0 (p, s, tmp))%nat.
Proof.
  intros (Hp & Hs & H). destruct (at_recursive p) eqn:Er; [|by exists p, tmp].
  pose proof (skip_recursive_done (length p) p ltac:(lia)) as Hq. pose proof (skip_recursive_length (length p) p) as Hl.
  assert (pcomps p = set_rec (pcomps (skip_recursive (length p) p))) as Ep
    by (rewrite (pcomps_plain _ Hq); unfold pcomps; rewrite comps_unfold, Er; done).
  set (q := skip_recursive (length p) p) in *. exists q, (Some (q, s)). split_and!; [done|done| |].
  - split_and!; [lia|lia|]. exists [], []. cbn [app]. split_and!; [done|done|constructor| |lia|lia|lia]. rewrite <- Ep.
    destruct tmp as [[pt st]|]; [|done]. destruct H as (us & x & _ & _ & Ha & -> & _).
    rewrite Ep, (pcomps_plain _ Hq). cbn [set_rec]. destruct Ha as [|[r u] e us x [Hr He] Ha]; [done|]. cbn [fst snd] in *. subst r.
    cbn [app set_rec]. apply (path_greedy _ _ u us (e :: x)). by constructor.
  - destruct tmp as [[pt st]|]; cbn [fn_measure]; [destruct H as (us & x & _ & _ & _ & _ & _ & ?)|]; nia.
Qed.

(** Nothing matches here: skip a directory at the last [**/]. *)
Lemma path_failed q s tmp m :
  path_inv (q, s, tmp) → pathname = true → pm (pcomps q) (psplit s) = false → (fn_measure p0 s0 (q, s, tmp) ≤ m)%nat →
  returns (match tmp with
    | Some (ptmp, stmp) =>
        if period && (peek stmp =? 46) then Ok (inr FNM_NOMATCH) else
        if negb (peek (to_slash stmp) =? 0) then Ok (inl (ptmp, tail (to_slash stmp), Some (ptmp, tail (to_slash stmp))))
        else Ok (inr FNM_NOMATCH)
    | None => Ok (inr FNM_NOMATCH)
    end) (λ r, path_post r m).
Proof.
  intros (Hp & Hs & H) Hpn Hf Hm. destruct tmp as [[pt st]|]; [|apply returns_ret; cbn; by rewrite H, Hf].
  destruct H as (us & x & Ept & Est & Ha & HG & Hlt & Hst). rewrite (to_slash_seg pathname st) by done.
  assert (G = negb (hidden (seg st).1) && pm (set_rec (pcomps pt)) (next_split pathname (seg st).2)) as HG'.
  { rewrite HG, <- Ept, <- Est. assert (pm (pcomps pt) (psplit st) = false) as Hf' by (by rewrite Ept, Est, pm_aligned).
    assert (psplit st = (seg st).1 :: next_split pathname (seg st).2) as Esp by apply split_unfold.
    rewrite Esp in Hf' |- *. destruct (pcomps pt) as [|[r ts] cs] eqn:Ec; [by destruct (pcomps_cons pt)|]. cbn [set_rec].
    rewrite pm_cons in Hf' |- *. apply orb_false_iff in Hf' as [-> _]. done. }
  rewrite <- (hidden_seg flags). destruct (hidden (seg st).1) eqn:Hh; [apply returns_ret; cbn; by rewrite HG'|]. cbn [negb andb] in HG'.
  unfold next_split in HG'. pose proof (seg_rest_length pathname st) as Hr. destruct (Z.eqb_spec (peek (seg st).2) 0) as [|Hnz]; cbn [negb]; apply returns_ret.
  { cbn. rewrite HG'. by destruct (pcomps pt) as [|[r ts] cs] eqn:Ec; [destruct (pcomps_cons pt)|]. }
  apply tail_shorter in Hnz. split; [|cbn [fn_measure] in *; nia]. split_and!; [done|lia|].
  exists [], []. cbn [app]. split_and!; [done|done|constructor|done|lia|lia|lia].
Qed.

Lemma next_comps_nil r : next_comps pathname escape r = [] ↔ peek r = 0.
Proof. unfold next_comps. destruct (Z.eqb_spec (peek r) 0) as [|]; [done|]. rewrite comps_unfold. done. Qed.

Lemma next_split_nil r : next_split pathname r = [] ↔ peek r = 0.
Proof. unfold next_split. destruct (Z.eqb_spec (peek r) 0) as [|]; [done|]. rewrite split_unfold. done. Qed.

Lemma path_step_spec st :
  pathname = true → path_inv st → returns (fnmatch_path_step flags st) (λ r, path_post r (fn_measure p0 s0 st)).
Proof.
  intros Hpn. destruct st as [[p s] tmp0]. intros Hi. unfold fnmatch_path_step. cbv zeta.
  destruct (path_strip p s tmp0 Hi) as (q & tmp & -> & Hq & Hi' & Hm). clear Hi. eapply returns_bind_mono; [apply fnmatch_helper_spec|].
  intros [[v p'] s'] Hv. pose proof (pcomps_plain q Hq) as Ec. assert (psplit s = (seg s).1 :: next_split pathname (seg s).2) as Es by apply split_unfold.
  assert (pm (pcomps q) (psplit s) = el (tokens q).1 (seg s).1 && pm (next_comps pathname escape (tokens q).2) (next_split pathname (seg s).2)) as Epm
    by (rewrite Ec, Es; apply pm_plain).
  pose proof (toks_rest_length pathname escape (S (length q)) q) as Hr1. fold (tokens q) in Hr1. pose proof (seg_rest_length pathname s) as Hr2.
  destruct (el (tokens q).1 (seg s).1) eqn:He.
  2: { subst v. change (FNM_NOMATCH =? 0) with false. cbn [andb]. apply (path_failed q s tmp); [done|done|by rewrite Epm|done]. }
  destruct Hv as (-> & -> & Hs'). cbn [Z.eqb andb]. rewrite (to_slash_seg pathname s' Hpn), Hs'. set (r := (tokens q).2) in *. set (rs := (seg s).2) in *.
  pose proof (next_comps_nil r) as Hnc. pose proof (next_split_nil rs) as Hns.
  destruct (Z.eqb_spec (peek r) 0) as [Er|Er], (Z.eqb_spec (peek rs) 0) as [Ers|Ers]; cbn [negb andb].
  - apply returns_ret. rewrite (proj2 Hnc), (proj2 Hns) in Epm by done. cbn [andb pmatch] in Epm. cbn [path_post]. destruct Hi' as (_ & _ & H).
    destruct tmp as [[pt st]|]; [|by rewrite H, Epm]. destruct H as (us & x & _ & _ & Ha & -> & _).
    destruct Ha as [|[b u] e us x [Hb Hu] Ha].
    + cbn [app]. rewrite Ec, Es in *. cbn [set_rec]. by rewrite pm_cons, <- pm_plain, Epm.
    + cbn [fst snd app set_rec] in *. subst b. rewrite pm_cons, Hu, pm_aligned, Epm by done. done.
  - apply (path_failed q s tmp); [done|done| |done]. rewrite Epm, (proj2 Hnc) by done. destruct (next_split pathname rs); [|done]. naive_solver.
  - apply (path_failed q s tmp); [done|done| |done]. rewrite Epm, (proj2 Hns) by done.
    destruct (next_comps pathname escape r) as [|[]]; [|done]. naive_solver.
  - apply returns_ret. assert (pcomps (tail r) = next_comps pathname escape r) as Ecr by (unfold next_comps; by rewrite (proj2 (Z.eqb_neq _ 0))).
    assert (psplit (tail rs) = next_split pathname rs) as Esr by (unfold next_split; by rewrite (proj2 (Z.eqb_neq _ 0))).
    apply tail_shorter in Er, Ers. destruct Hi' as (Hp & Hs & H). split; [|cbn [fn_measure] in *; lia]. rewrite <- Ecr, <- Esr in *.
    split_and!; [lia|lia|]. destruct tmp as [[pt st]|]; [|by rewrite H, Epm].
    destruct H as (us & x & Ept & Est & Ha & HG & Hlt & Hst). rewrite Ec, Es in *.
    exists (us ++ [(false, (tokens q).1)]), (x ++ [(seg s).1]). rewrite <- !app_assoc. cbn [app].
    split_and!; [done|done| |done|lia|lia|lia]. apply Forall2_app; [done|]. by constructor.
Qed.
End loop.

(** [fnmatch] terminates, stays within both strings, and decides [matches]. *)
Lemma fnmatch_spec flags p s : fnmatch flags p s = Ok (if matches flags p s then 0 else FNM_NOMATCH).
Proof.
  apply returns_eq. unfold fnmatch, matches. destruct (flag flags FNM_PATHNAME) eqn:Hpn; rewrite <- Hpn.
  - set (G := pmatch _ _ _ _). apply (iter_inv (path_inv flags p s G) (fn_measure p s) (λ v, v = if G then 0 else FNM_NOMATCH)).
    + split_and!; [done|done|]. done.
    + unfold fnmatch_fuel, fn_measure. lia.
    + intros st Hst. eapply returns_mono; [by apply path_step_spec|]. by intros [st'|v].
  - eapply returns_bind_mono; [apply fnmatch_helper_spec|]. intros [[v p'] s'] H. apply returns_ret. destruct (elem_match _ _ _ _); naive_solver.
Qed.
