(* ===== verification/DirGlob.v ===== *)
(** * dir.c: plain names and braces *)

From S2P Require Import Prelude Util Dir DirSpec DirOps.

(** ** Removing backslashes in place *)

(** A backslash stands for the next character, if there is one. *)
Fixpoint strip (s : cstr) : cstr :=
  match s with
  | [] => []
  | c :: s' => if c =? 92 then match s' with [] => [] | d :: s'' => d :: strip s'' end else c :: strip s'
  end.

(** Induction by one or two characters. *)
Lemma strip_ind (P : cstr → Prop) :
  P [] → P [92] → (∀ d s, P s → P (92 :: d :: s)) → (∀ c s, c ≠ 92 → P s → P (c :: s)) → ∀ s, P s.
Proof.
  intros H0 H1 H2 H3 s. induction s as [s IH] using (induction_ltof1 _ (@length Z)). unfold ltof in IH.
  destruct s as [|c s]; [done|]. destruct (decide (c = 92)) as [->|]; [|apply H3; [done|]; apply IH; cbn; lia].
  destruct s as [|d s]; [done|]. apply H2, IH. cbn. lia.
Qed.

Lemma strip_forall (P : Z → Prop) s : Forall P s → Forall P (strip s).
Proof.
  induction s as [| |d s IH|c s Hc IH] using strip_ind; intros H; [done|done| |].
  - apply Forall_cons in H as [_ H]. apply Forall_cons in H as [Hd H]. constructor; [done|by apply IH].
  - cbn [strip]. rewrite (proj2 (Z.eqb_neq c 92)) by done. apply Forall_cons in H as [Hc' H]. constructor; [done|by apply IH].
Qed.

Section unslash.
Context (bs : list Z) (Hbs : Forall (λ c, c ≠ 0) bs).
Notation orig := (bs ++ [0]).

Definition unslash_inv (st : list Z * Z * Z * Z) : Prop :=
  let '(buf, p, t, s) := st in
  ∃ p' t' s' : nat, p = Z.of_nat p' ∧ t = Z.of_nat t' ∧ s = Z.of_nat s' ∧ length buf = length orig ∧ (t' ≤ s' ≤ p')%nat ∧ (p' ≤ length bs)%nat ∧
  drop s' buf = drop s' orig ∧ strip bs = take t' buf ++ take (p' - s') (drop s' orig) ++ strip (drop p' bs).

Lemma memmove_spec buf (t s n : nat) :
  (t + n ≤ length buf)%nat → (s + n ≤ length buf)%nat →
  memmove buf (Z.of_nat t) (Z.of_nat s) (Z.of_nat n) = Ok (take t buf ++ take n (drop s buf) ++ drop (t + n) buf).
Proof.
  intros Ht Hs. unfold memmove, zlen. rewrite !(proj2 (Z.leb_le _ _)) by lia. cbn [andb]. rewrite !Nat2Z.id.
  do 4 f_equal. lia.
Qed.

Lemma aload_orig buf (p s : nat) :
  (s ≤ p)%nat → (p ≤ length bs)%nat → drop s buf = drop s orig → length buf = length orig →
  aload buf (Z.of_nat p) = Ok (default 0 (bs !! p)).
Proof.
  intros Hsp Hp Hd Hl. apply aload_ok. rewrite zlookup_nat.
  replace p with (s + (p - s))%nat at 1 by lia. rewrite <- lookup_drop, Hd, lookup_drop. replace (s + (p - s))%nat with p by lia.
  destruct (decide (p = length bs)) as [->|]; [rewrite lookup_app_r, Nat.sub_diag, (lookup_ge_None_2 bs) by lia; done|].
  assert (∃ c, bs !! p = Some c) as [c Hc] by (apply lookup_lt_is_Some_2; lia). rewrite Hc. by apply lookup_app_l_Some.
Qed.

(** The move of a finished stretch to the left. *)
Lemma unslash_move buf (p t s : nat) :
  length buf = length orig → (t ≤ s ≤ p)%nat → (p ≤ length bs)%nat → drop s buf = drop s orig →
  ∃ buf', (if Z.of_nat t =? Z.of_nat s then Ok buf else memmove buf (Z.of_nat t) (Z.of_nat s) (Z.of_nat p - Z.of_nat s)) = Ok buf' ∧
    length buf' = length orig ∧ take (t + (p - s)) buf' = take t buf ++ take (p - s) (drop s orig) ∧
    ∀ q, (p ≤ q)%nat → drop q buf' = drop q orig.
Proof.
  intros Hl Hts Hp Hd. assert (length orig = S (length bs)) as Ho by (rewrite length_app; cbn; lia).
  assert (∀ q, (p ≤ q)%nat → drop q buf = drop q orig) as Hdq.
  { intros q Hq. replace q with (s + (q - s))%nat by lia. rewrite <- !drop_drop. by rewrite Hd. }
  destruct (Z.eqb_spec (Z.of_nat t) (Z.of_nat s)) as [E|].
  - assert (t = s) as -> by lia. exists buf. split_and!; try done.
    rewrite <- Hd. symmetry. apply take_take_drop.
  - replace (Z.of_nat p - Z.of_nat s) with (Z.of_nat (p - s)) by lia. rewrite memmove_spec by lia. eexists. split; [done|].
    rewrite Hd. assert (length (take t buf) = t) as Ht by (rewrite length_take; lia).
    assert (length (take (p - s) (drop s orig)) = (p - s)%nat) as Hm by (rewrite length_take, length_drop; lia). split_and!.
    + rewrite length_app, length_app, Ht, Hm, length_drop. lia.
    + rewrite app_assoc, take_app_length'; [done|]. rewrite length_app. lia.
    + intros q Hq. rewrite app_assoc, drop_app_ge by (rewrite length_app; lia). rewrite length_app, Ht, Hm, drop_drop.
      rewrite <- Hdq by lia. f_equal. lia.
Qed.

Lemma unslash_step_spec st :
  unslash_inv st → returns (unslash_step st) (λ r, match r with
    | inl st' => unslash_inv st' ∧ (length bs - Z.to_nat st'.1.1.2 < length bs - Z.to_nat st.1.1.2)%nat
    | inr st' => unslash_inv st' ∧ st'.1.1.2 = Z.of_nat (length bs)
    end).
Proof.
  destruct st as [[[buf p] t] s]. intros (p' & t' & s' & -> & -> & -> & Hl & Hts & Hp & Hd & Hstrip). unfold unslash_step.
  rewrite (aload_orig buf p' s') by (done || lia). cbn [mbind res_bind]. destruct (decide (p' = length bs)) as [Ep|Hne].
  { rewrite (lookup_ge_None_2 bs) by lia. cbn [from_option id Z.eqb]. apply returns_ret. split; [|cbn; by rewrite Ep]. by exists p', t', s'. }
  assert (∃ c, bs !! p' = Some c) as [c Hc] by (apply lookup_lt_is_Some_2; lia). rewrite Hc. cbn [from_option id].
  assert (c ≠ 0) as Hc0 by (by eapply (Forall_lookup_1 (λ c, c ≠ 0) bs p')). rewrite (proj2 (Z.eqb_neq c 0)) by done.
  pose proof (drop_S bs c p' Hc) as Hdr. rewrite Hdr in Hstrip. destruct (Z.eqb_spec c 92) as [->|H92].
  - destruct (unslash_move buf p' t' s' Hl Hts Hp Hd) as (buf' & -> & Hl' & Htk & Hdq). cbn [mbind res_bind].
    replace (Z.of_nat p' + 1) with (Z.of_nat (S p')) by lia. replace (Z.of_nat t' + (Z.of_nat p' - Z.of_nat s')) with (Z.of_nat (t' + (p' - s'))) by lia.
    rewrite (aload_orig buf' (S p') p') by (done || lia || by apply Hdq). cbn [mbind res_bind].
    rewrite app_assoc, <- Htk in Hstrip. destruct (drop (S p') bs) as [|d rest] eqn:Er.
    + assert (length bs = S p') as En by (apply (f_equal length) in Er; rewrite length_drop in Er; cbn in Er; lia).
      rewrite (lookup_ge_None_2 bs) by lia. cbn [from_option id Z.eqb]. apply returns_ret. split; [|cbn; by rewrite En].
      exists (S p'), (t' + (p' - s'))%nat, (S p'). split_and!; try done; try lia; [apply Hdq; lia|]. by rewrite Er, Nat.sub_diag.
    + assert (bs !! S p' = Some d) as Hd' by (rewrite <- (Nat.add_0_r (S p')), <- lookup_drop, Er; done). rewrite Hd'. cbn [from_option id].
      assert (d ≠ 0) as Hd0 by (by eapply (Forall_lookup_1 (λ c, c ≠ 0) bs (S p'))). rewrite (proj2 (Z.eqb_neq d 0)) by done. apply returns_ret.
      pose proof (lookup_lt_Some _ _ _ Hd'). split; [|cbn [fst snd]; lia].
      exists (S (S p')), (t' + (p' - s'))%nat, (S p'). split_and!; try done; try lia; [apply Hdq; lia|].
      rewrite Hstrip. cbn [strip Z.eqb Pos.eqb]. f_equal. rewrite drop_app_le by lia. rewrite Er. replace (S (S p') - S p')%nat with 1%nat by lia.
      cbn [take app]. do 2 f_equal.
      pose proof (drop_S bs d (S p') Hd') as Er2. rewrite Er in Er2. by injection Er2 as ->.
  - apply returns_ret. split; [|cbn [fst snd]; lia]. exists (S p'), t', s'. split_and!; try done; try lia.
    rewrite Hstrip. cbn [strip]. rewrite (proj2 (Z.eqb_neq c 92)) by done. f_equal. replace (S p' - s')%nat with (S (p' - s')) by lia.
    rewrite (take_S_r _ _ c), <- app_assoc; [done|]. rewrite lookup_drop. replace (s' + (p' - s'))%nat with p' by lia. by apply lookup_app_l_Some.
Qed.
End unslash.

Lemma c_str_app l r : Forall (λ c, c ≠ 0) l → c_str (l ++ 0 :: r) = l.
Proof. intros H. induction H as [|c l Hc H IH]; [done|]. cbn. by rewrite (proj2 (Z.eqb_neq c 0)), IH by done. Qed.

Lemma remove_backslashes_spec bs :
  Forall (λ c, c ≠ 0) bs → returns (remove_backslashes (bs ++ [0])) (λ buf, c_str buf = strip bs).
Proof.
  intros Hbs. assert (length (bs ++ [0]) = S (length bs)) as Hlen by (rewrite length_app; cbn; lia). unfold remove_backslashes.
  eapply returns_bind_mono.
  { refine (iter_inv (unslash_inv bs) (λ st, (length bs - Z.to_nat st.1.1.2)%nat) (λ st, unslash_inv bs st ∧ st.1.1.2 = Z.of_nat (length bs)) _ _ _ _ _ _).
    - exists 0%nat, 0%nat, 0%nat. rewrite !drop_0. split_and!; done || lia.
    - cbn. lia.
    - apply unslash_step_spec, Hbs. }
  intros [[[buf p] t] s] [(p' & t' & s' & -> & -> & -> & Hl & Hts & Hp & Hd & Hs) Ep]. cbn [fst snd] in Ep. assert (p' = length bs) as -> by lia.
  cbn [iter]. unfold past_nul_step. rewrite (aload_orig bs buf (length bs) s') by (done || lia). rewrite (lookup_ge_None_2 bs) by lia.
  cbn [mbind res_bind from_option id Z.eqb]. assert (drop s' (bs ++ [0]) = drop s' bs ++ [0]) as Eo by (rewrite drop_app_le; [done|lia]).
  rewrite drop_all, Eo, take_app_length' in Hs by (rewrite length_drop; lia). cbn [strip] in Hs. rewrite app_nil_r in Hs.
  assert (Forall (λ c, c ≠ 0) (strip bs)) as Hnz by (by apply strip_forall).
  destruct (Z.eqb_spec (Z.of_nat t') (Z.of_nat s')) as [E|].
  - apply returns_ret. assert (t' = s') as -> by lia. rewrite <- (take_drop s' buf), Hd, Eo, app_assoc, <- Hs. by apply c_str_app.
  - replace (Z.of_nat (length bs) + 1 - Z.of_nat s') with (Z.of_nat (S (length bs) - s')) by lia. rewrite memmove_spec by lia. apply returns_ret.
    rewrite Hd, Eo, (take_ge (drop s' bs ++ [0])) by (rewrite length_app, length_drop; cbn; lia).
    rewrite <- app_assoc, app_assoc, <- Hs. by apply c_str_app.
Qed.

(** ** A pattern without magic *)

Section plain.
Context (flags : Z).
Notation period := (negb (flag flags FNM_DOTMATCH)).
Notation pathname := (flag flags FNM_PATHNAME).
Notation escape := (negb (flag flags FNM_NOESCAPE)).

(** Bytes of a name, or of a pattern for one. *)
Definition name_char (c : Z) : Prop := c ≠ 0 ∧ (pathname = true → c ≠ 47).

Lemma name_char_end c s : name_char c → ISEND pathname (c :: s) = false.
Proof.
  intros [H0 H47]. unfold ISEND. cbn [peek hd]. rewrite (proj2 (Z.eqb_neq c 0)) by done. cbn [orb].
  destruct pathname; [|done]. cbn. apply Z.eqb_neq. by apply H47.
Qed.

Lemma tokens_lit c p : name_char c → c ≠ 42 → c ≠ 63 → c ≠ 91 → (escape = true → c ≠ 92) →
  tokens pathname escape (c :: p) = (TLit c :: (tokens pathname escape p).1, (tokens pathname escape p).2).
Proof.
  intros Hc H1 H2 H3 H4. rewrite tokens_unfold. unfold toks_body. cbn [peek hd tail].
  rewrite (proj2 (Z.eqb_neq c 42)), (proj2 (Z.eqb_neq c 63)), (proj2 (Z.eqb_neq c 91)) by done.
  assert (UNESCAPE escape (c :: p) = c :: p) as ->.
  { unfold UNESCAPE. destruct escape; [|done]. cbn [peek hd andb]. by rewrite (proj2 (Z.eqb_neq c 92)) by (by apply H4). }
  cbv zeta. rewrite name_char_end by done. cbn [peek hd tail]. by destruct (tokens pathname escape p).
Qed.

Lemma has_magic_lit c p : has_magic flags (c :: p) = false → c ≠ 92 →
  c ≠ 42 ∧ c ≠ 63 ∧ c ≠ 91 ∧ has_magic flags p = false.
Proof.
  cbn [has_magic]. intros H H92. rewrite (proj2 (Z.eqb_neq c 92)) in H by done.
  destruct (Z.eqb_spec c 42), (Z.eqb_spec c 63), (Z.eqb_spec c 91); cbn [orb] in H; try done. by destruct (_ && _ && _) in H.
Qed.

Lemma plain_tokens p :
  Forall name_char p → has_magic flags p = false →
  tokens pathname escape p = (TLit <$> (if escape then strip p else p), []).
Proof.
  intros Hp Hm. assert (tokens pathname escape [] = ([], [])) as Enil by (unfold tokens; cbn; by destruct escape).
  destruct escape eqn:Ee.
  - induction p as [| |d p IH|c p Hc IH] using strip_ind.
    + done.
    + done.
    + apply Forall_cons in Hp as [_ Hp]. apply Forall_cons in Hp as [Hd Hp]. rewrite tokens_unfold. unfold toks_body.
      cbn [peek hd tail Z.eqb Pos.eqb]. change (UNESCAPE true (92 :: d :: p)) with (d :: p). cbv zeta. rewrite name_char_end by done.
      cbn [peek hd tail]. rewrite IH; [done|done|]. cbn in Hm. rewrite Ee in Hm. done.
    + apply Forall_cons in Hp as [Hc' Hp]. destruct (has_magic_lit c p Hm Hc) as (? & ? & ? & Hm').
      rewrite <- Ee. rewrite tokens_lit by done. rewrite Ee, IH by done. cbn [strip fst snd]. by rewrite (proj2 (Z.eqb_neq c 92)) by done.
  - induction p as [|c p IH]; [done|]. apply Forall_cons in Hp as [Hc Hp].
    assert (c ≠ 42 ∧ c ≠ 63 ∧ c ≠ 91 ∧ has_magic flags p = false) as (? & ? & ? & Hm').
    { destruct (decide (c = 92)) as [->|]; [|by apply has_magic_lit]. cbn in Hm. rewrite Ee in Hm. done. }
    rewrite <- Ee. rewrite tokens_lit by (done || by rewrite Ee). by rewrite Ee, IH.
Qed.

Lemma seg_name s : Forall name_char s → seg pathname s = (s, []).
Proof.
  intros H. induction H as [|c s Hc H IH]; [done|]. cbn [seg]. by rewrite name_char_end, IH by done.
Qed.

Lemma tmatch_name nocase name s : nocase = false → tmatch nocase (TLit <$> name) s = bool_decide (name = s).
Proof.
  intros ->. revert s. induction name as [|c name IH]; intros [|d s]; [done|done|done|].
  change (TLit <$> (c :: name)) with (TLit c :: (TLit <$> name)). rewrite tmatch_single by done. rewrite IH. cbn [tok1].
  change (downcase false c) with c. change (downcase false d) with d.
  destruct (Z.eqb_spec c d) as [->|Hne]; cbn [andb]; [|by rewrite bool_decide_eq_false_2 by naive_solver].
  apply bool_decide_ext. naive_solver.
Qed.

Lemma elem_name name s : flag flags FNM_CASEFOLD = false →
  elem_match period (flag flags FNM_CASEFOLD) (TLit <$> name) s = bool_decide (name = s).
Proof.
  intros Hn. unfold elem_match. rewrite tmatch_name by done. destruct (decide (name = s)) as [->|]; [|rewrite (bool_decide_eq_false_2 (name = s)) by done; apply andb_false_r].
  rewrite (bool_decide_eq_true_2 (s = s)), andb_true_r by done. unfold hidden. destruct s as [|c s]; [cbn; by rewrite andb_false_r|]. cbn [peek hd].
  destruct (Z.eqb_spec c 46) as [->|]; [|by rewrite andb_false_r]. cbn. by rewrite andb_false_r.
Qed.

Lemma plain_spec p s :
  Forall name_char p → Forall name_char s → has_magic flags p = false → flag flags FNM_CASEFOLD = false →
  returns (plain_name flags p) (λ name, fnmatch flags p s = Ok (if decide (name = s) then 0 else FNM_NOMATCH)).
Proof.
  intros Hp Hs Hm Hn. set (name := if escape then strip p else p).
  assert (returns (plain_name flags p) (λ n, n = name)) as Hname.
  { unfold plain_name. assert (Forall (λ c, c ≠ 0) p) as Hp0 by (eapply Forall_impl; [exact Hp|]; by intros c []). destruct escape; unfold name.
    - eapply returns_bind_mono; [by apply remove_backslashes_spec|]. intros buf E. by apply returns_ret.
    - cbn [mbind res_bind]. apply returns_ret. by apply (c_str_app p []). }
  eapply returns_mono; [exact Hname|]. intros ? ->. rewrite fnmatch_spec. unfold matches. f_equal.
  assert ((if decide (name = s) then 0 else FNM_NOMATCH) = if bool_decide (name = s) then 0 else FNM_NOMATCH) as ->
    by (by destruct (decide (name = s)); [rewrite bool_decide_eq_true_2|rewrite bool_decide_eq_false_2]).
  pose proof (plain_tokens p Hp Hm) as Et. fold name in Et.
  assert (at_recursive p = false) as Hr.
  { destruct p as [|a [|b [|c p]]]; try done. cbn [at_recursive]. destruct (Z.eqb_spec a 42) as [->|]; [by cbn in Hm|done]. }
  destruct pathname eqn:Hpn at 1.
  - fold (pcomps flags p). rewrite (pcomps_plain flags p Hr), Et, split_unfold, seg_name by done. cbn [fst snd].
    change (next_split pathname []) with (@nil (list Z)). change (next_comps pathname escape []) with (@nil (bool * list tok)).
    rewrite pm_plain. cbn [pmatch]. rewrite andb_true_r. by rewrite elem_name.
  - rewrite Et, seg_name by done. cbn [fst]. by rewrite elem_name.
Qed.
End plain.

(** * dir.c: the expansion of braces *)

(** ** Patterns with braces *)

Inductive bseq :=
  | BNil
  | BLit (c : Z) (r : bseq)
  | BEsc (c : Z) (r : bseq)           (* a backslash and a character *)
  | BAlt (a : balts) (r : bseq)       (* alternatives in braces *)
with balts :=
  | BOne (s : bseq)
  | BMore (s : bseq) (a : balts).

Scheme bseq_mut := Induction for bseq Sort Prop
  with balts_mut := Induction for balts Sort Prop.
Combined Scheme brace_ind from bseq_mut, balts_mut.

(** The text of a pattern. *)
Fixpoint print (b : bseq) : cstr :=
  match b with
  | BNil => []
  | BLit c r => c :: print r
  | BEsc c r => 92 :: c :: print r
  | BAlt a r => 123 :: print_alts a ++ 125 :: print r
  end
with print_alts (a : balts) : cstr :=
  match a with BOne s => print s | BMore s a => print s ++ 44 :: print_alts a end.

(** All concatenations, the first factor varying slowest. *)
Definition cat (l1 l2 : list cstr) : list cstr := concat ((λ x, app x <$> l2) <$> l1).

(** The strings a pattern stands for, in order. *)
Fixpoint expansions (b : bseq) : list cstr :=
  match b with
  | BNil => [[]]
  | BLit c r => cons c <$> expansions r
  | BEsc c r => app [92; c] <$> expansions r
  | BAlt a r => cat (expansions_alts a) (expansions r)
  end
with expansions_alts (a : balts) : list cstr :=
  match a with BOne s => expansions s | BMore s a => expansions s ++ expansions_alts a end.

Section brace.
Context {S : Type} (escape : bool) (func : cstr → S → res (S * Z)).

(** A comma between the alternatives of a brace cannot be a literal. *)
Fixpoint wf (inside : bool) (b : bseq) : Prop :=
  match b with
  | BNil => True
  | BLit c r => c ≠ 123 ∧ c ≠ 125 ∧ (escape = true → c ≠ 92) ∧ (inside = true → c ≠ 44) ∧ wf inside r
  | BEsc c r => escape = true ∧ wf inside r
  | BAlt a r => wf_alts a ∧ wf inside r
  end
with wf_alts (a : balts) : Prop :=
  match a with BOne s => wf true s | BMore s a => wf true s ∧ wf_alts a end.

Lemma wf_weaken b : wf true b → wf false b.
Proof. induction b as [|c r IH|c r IH|a r IH]; cbn; [done|naive_solver|naive_solver|naive_solver]. Qed.

(** ** Finding the braces *)

Lemma scan_lit c s i nest lb :
  c ≠ 123 → c ≠ 125 → (escape = true → c ≠ 92) → brace_scan escape (c :: s) i nest lb = brace_scan escape s (i + 1) nest lb.
Proof.
  intros H1 H2 H3. cbn [brace_scan]. rewrite (proj2 (Z.eqb_neq c 123)), (proj2 (Z.eqb_neq c 125)) by done. cbn [andb].
  destruct escape; [|by rewrite andb_false_r]. by rewrite (proj2 (Z.eqb_neq c 92)) by (by apply H3).
Qed.

Lemma scan_esc c s i nest lb : escape = true → brace_scan escape (92 :: c :: s) i nest lb = brace_scan escape s (i + 2) nest lb.
Proof. intros H. cbn [brace_scan Z.eqb Pos.eqb andb]. by rewrite H. Qed.

(** What is balanced is passed over inside braces. *)
Lemma scan_balanced :
  (∀ b inside s i nest lb, wf inside b → 0 < nest →
     brace_scan escape (print b ++ s) i nest lb = brace_scan escape s (i + zlen (print b)) nest lb) ∧
  (∀ a s i nest lb, wf_alts a → 0 < nest →
     brace_scan escape (print_alts a ++ s) i nest lb = brace_scan escape s (i + zlen (print_alts a)) nest lb).
Proof.
  apply brace_ind.
  - intros. cbn. by rewrite Z.add_0_r.
  - intros c r IH inside s i nest lb (H1 & H2 & H3 & _ & Hr) Hn. cbn [print app]. rewrite scan_lit, (IH inside) by done. f_equal. rewrite zlen_cons. lia.
  - intros c r IH inside s i nest lb (H1 & Hr) Hn. cbn [print app]. rewrite scan_esc, (IH inside) by done. f_equal. rewrite !zlen_cons. lia.
  - intros a IHa r IHr inside s i nest lb (Ha & Hr) Hn. cbn [print app]. rewrite <- app_assoc. cbn [brace_scan Z.eqb Pos.eqb andb].
    rewrite (proj2 (Z.eqb_neq nest 0)) by lia. rewrite IHa by (done || lia). cbn [app brace_scan Z.eqb Pos.eqb andb].
    rewrite (proj2 (Z.leb_gt (nest + 1 - 1) 0)) by lia. replace (nest + 1 - 1) with nest by lia. rewrite (IHr inside) by done.
    f_equal. rewrite zlen_cons, zlen_app, zlen_cons. lia.
  - intros b IH s i nest lb Hb Hn. by apply (IH true).
  - intros b IHb a IHa s i nest lb (Hb & Ha) Hn. cbn [print_alts]. rewrite <- app_assoc, (IHb true) by done. cbn [app].
    rewrite scan_lit, IHa by done. f_equal. rewrite zlen_app, zlen_cons. lia.
Qed.

(** ** Cutting at the commas *)

Fixpoint alts_list (a : balts) : list bseq := match a with BOne s => [s] | BMore s a => s :: alts_list a end.

Lemma alts_esc c s nest t : escape = true → brace_alts escape (92 :: c :: s) nest t = brace_alts escape s nest (t ++ [92; c]).
Proof. intros H. cbn [brace_alts Z.eqb Pos.eqb andb]. by rewrite H. Qed.

Lemma alts_balanced :
  (∀ b inside s nest t, wf inside b → 0 ≤ nest → (nest = 0 → inside = true) →
     brace_alts escape (print b ++ s) nest t = brace_alts escape s nest (t ++ print b)) ∧
  (∀ a s nest t, wf_alts a → 0 < nest →
     brace_alts escape (print_alts a ++ s) nest t = brace_alts escape s nest (t ++ print_alts a)).
Proof.
  apply brace_ind.
  - intros. cbn. by rewrite app_nil_r.
  - intros c r IH inside s nest t (H1 & H2 & H3 & H4 & Hr) Hn Hi. cbn [print app brace_alts].
    assert ((c =? 44) && (nest =? 0) = false) as ->.
    { destruct (Z.eqb_spec nest 0) as [E|]; [|by rewrite andb_false_r]. rewrite andb_true_r. apply Z.eqb_neq, H4, Hi, E. }
    rewrite (proj2 (Z.eqb_neq c 123)), (proj2 (Z.eqb_neq c 125)) by done.
    assert ((c =? 92) && escape = false) as -> by (destruct escape; [|by rewrite andb_false_r]; rewrite andb_true_r; by apply Z.eqb_neq, H3).
    cbv beta iota zeta. rewrite (IH inside) by done. by rewrite <- app_assoc.
  - intros c r IH inside s nest t (H1 & Hr) Hn Hi. cbn [print app]. rewrite alts_esc, (IH inside) by done. by rewrite <- app_assoc.
  - intros a IHa r IHr inside s nest t (Ha & Hr) Hn Hi. cbn [print app]. rewrite <- app_assoc. cbn [brace_alts Z.eqb Pos.eqb andb].
    rewrite IHa by (done || lia). cbn [app brace_alts Z.eqb Pos.eqb andb]. replace (nest + 1 - 1) with nest by lia.
    rewrite (IHr inside) by done. f_equal. by rewrite <- !app_assoc.
  - intros b IH s nest t Hb Hn. by apply (IH true); [|lia|lia].
  - intros b IHb a IHa s nest t (Hb & Ha) Hn. cbn [print_alts]. rewrite <- app_assoc, (IHb true) by (done || lia). cbn [app brace_alts].
    rewrite (proj2 (Z.eqb_neq nest 0)), andb_false_r by lia. cbn [Z.eqb Pos.eqb andb]. rewrite IHa by done. f_equal. by rewrite <- !app_assoc.
Qed.

Lemma alts_split a : wf_alts a → brace_alts escape (print_alts a) 0 [] = print <$> alts_list a.
Proof.
  induction a as [b|b a IH]; intros H; cbn [print_alts alts_list fmap list_fmap].
  - rewrite <- (app_nil_r (print b)) at 1. by rewrite (proj1 alts_balanced b true) by done.
  - destruct H as [Hb Ha]. rewrite (proj1 alts_balanced b true) by done. cbn [app brace_alts Z.eqb Pos.eqb andb]. by rewrite IH.
Qed.

(** ** Products *)

Lemma cat_nil_l l : cat [[]] l = l.
Proof. unfold cat. cbn. rewrite app_nil_r. induction l as [|x l IH]; [done|]. cbn. by rewrite IH. Qed.

Lemma cat_fmap x l1 l2 : cat (app x <$> l1) l2 = app x <$> cat l1 l2.
Proof.
  unfold cat. induction l1 as [|y l1 IH]; [done|]. cbn [fmap list_fmap concat]. rewrite fmap_app. f_equal; [|exact IH].
  rewrite <- list_fmap_compose. apply list_fmap_ext. intros ? z _. cbn. by rewrite app_assoc.
Qed.

Lemma cat_app l1 l1' l2 : cat (l1 ++ l1') l2 = cat l1 l2 ++ cat l1' l2.
Proof. unfold cat. by rewrite fmap_app, concat_app. Qed.

Lemma cat_assoc l1 l2 l3 : cat (cat l1 l2) l3 = cat l1 (cat l2 l3).
Proof.
  induction l1 as [|x l1 IH]; [done|]. change (cat (x :: l1) l2) with ((app x <$> l2) ++ cat l1 l2). rewrite cat_app, cat_fmap, IH. done.
Qed.

Lemma expansions_alts_spec a l : cat (expansions_alts a) l = concat ((λ b, cat (expansions b) l) <$> alts_list a).
Proof. induction a as [b|b a IH]; cbn [expansions_alts alts_list fmap list_fmap concat]; [by rewrite app_nil_r|]. by rewrite cat_app, IH. Qed.

(** ** One expansion *)

Fixpoint bapp (b c : bseq) : bseq :=
  match b with
  | BNil => c
  | BLit x r => BLit x (bapp r c)
  | BEsc x r => BEsc x (bapp r c)
  | BAlt a r => BAlt a (bapp r c)
  end.

Lemma print_bapp b c : print (bapp b c) = print b ++ print c.
Proof. induction b as [|x r IH|x r IH|a r IH]; cbn; [done|by rewrite IH..|]. by rewrite IH, <- app_assoc. Qed.

Lemma wf_bapp inside b c : wf inside b → wf inside c → wf inside (bapp b c).
Proof. induction b as [|x r IH|x r IH|a r IH]; cbn; naive_solver. Qed.

Lemma expansions_bapp b c : expansions (bapp b c) = cat (expansions b) (expansions c).
Proof.
  induction b as [|x r IH|x r IH|a r IH]; cbn [bapp expansions]; [by rewrite cat_nil_l| | |by rewrite IH, cat_assoc].
  - rewrite IH. symmetry. apply (cat_fmap [x]).
  - rewrite IH. symmetry. apply cat_fmap.
Qed.

(** A pattern is literal, or it is literal up to its first alternatives. *)
Inductive first_brace (b : bseq) : Prop :=
  | all_literal :
      expansions b = [print b] → (∀ i lb, brace_scan escape (print b) i 0 lb = (lb, None)) → first_brace b
  | has_brace pre a r :
      print b = pre ++ 123 :: print_alts a ++ 125 :: print r →
      (∀ s i lb, brace_scan escape (pre ++ s) i 0 lb = brace_scan escape s (i + zlen pre) 0 lb) → wf_alts a → wf false r →
      expansions b = app pre <$> cat (expansions_alts a) (expansions r) →
      (∀ c, wf false c → ∃ c', wf false c' ∧ print c' = pre ++ print c ∧ expansions c' = app pre <$> expansions c) →
      first_brace b.

Lemma first_brace_of b : wf false b → first_brace b.
Proof.
  induction b as [|x r IH|x r IH|a r IH]; intros Hb.
  - by left.
  - destruct Hb as (H1 & H2 & H3 & _ & Hr). destruct (IH Hr) as [E1 E2|pre a r' E1 E2 Ha Hr' E3 E4].
    + left; cbn [print expansions]; [by rewrite E1|]. intros. by rewrite scan_lit, E2.
    + right with (x :: pre) a r'; [cbn; by rewrite E1| |done|done|cbn [expansions]; rewrite E3; by rewrite <- list_fmap_compose|].
      * intros s i lb. cbn [app]. rewrite scan_lit, E2 by done. f_equal. rewrite zlen_cons. lia.
      * intros c Hc. destruct (E4 c Hc) as (c' & Hc' & Ep & Ee). exists (BLit x c'). split_and!; [done|cbn; by rewrite Ep|].
        cbn [expansions]. rewrite Ee. by rewrite <- list_fmap_compose.
  - destruct Hb as (H1 & Hr). destruct (IH Hr) as [E1 E2|pre a r' E1 E2 Ha Hr' E3 E4].
    + left; cbn [print expansions]; [by rewrite E1|]. intros. by rewrite scan_esc, E2.
    + right with (92 :: x :: pre) a r'; [cbn; by rewrite E1| |done|done|cbn [expansions]; rewrite E3; by rewrite <- list_fmap_compose|].
      * intros s i lb. cbn [app]. rewrite scan_esc, E2 by done. f_equal. rewrite !zlen_cons. lia.
      * intros c Hc. destruct (E4 c Hc) as (c' & Hc' & Ep & Ee). exists (BEsc x c'). split_and!; [done|cbn; by rewrite Ep|].
        cbn [expansions]. rewrite Ee. by rewrite <- list_fmap_compose.
  - destruct Hb as [Ha Hr]. right with [] a r; [done| |done|done|by rewrite list_fmap_id|].
    + intros. cbn. by rewrite Z.add_0_r.
    + intros c Hc. exists c. split_and!; [done|done|by rewrite list_fmap_id].
Qed.

(** ** Calling the function for each *)

Lemma each_until_app f l1 l2 (st : S) :
  each_until f (l1 ++ l2) st = '(st, status) ← each_until f l1 st; if status =? 0 then each_until f l2 st else Ok (st, status).
Proof.
  revert st. induction l1 as [|x l1 IH]; intros st; [done|]. cbn [app each_until]. destruct (f x st) as [[st' status]|]; [|done].
  cbn [mbind res_bind]. destruct (status =? 0) eqn:E; [apply IH|]. cbn [mbind res_bind]. by rewrite E.
Qed.

Lemma each_until_one f x (st : S) : each_until f [x] st = f x st.
Proof. cbn. destruct (f x st) as [[st' status]|]; [|done]. cbn. by destruct (Z.eqb_spec status 0) as [->|]. Qed.

Lemma each_until_concat f g ss ls (st : S) :
  Forall2 (λ s l, ∀ st, f s st = each_until g l st) ss ls → each_until f ss st = each_until g (concat ls) st.
Proof.
  intros H. revert st. induction H as [|s l ss ls Hs H IH]; intros st; [done|]. cbn [each_until concat]. rewrite each_until_app, Hs.
  destruct (each_until g l st) as [[st' status]|]; [|done]. cbn [mbind res_bind]. by destruct (status =? 0).
Qed.

Lemma alts_length b a : b ∈ alts_list a → (length (print b) ≤ length (print_alts a))%nat.
Proof.
  induction a as [c|c a IH]; cbn [alts_list print_alts].
  - intros ->%list_elem_of_singleton. done.
  - rewrite length_app. cbn. intros [->|H]%elem_of_cons; [lia|]. apply IH in H. lia.
Qed.

Lemma alts_wf b a : wf_alts a → b ∈ alts_list a → wf true b.
Proof.
  induction a as [c|c a IH]; cbn [alts_list wf_alts].
  - by intros H ->%list_elem_of_singleton.
  - intros [Hc Ha] [->|H]%elem_of_cons; [done|by apply IH].
Qed.

Lemma brace_expand_spec fuel b (st : S) :
  wf false b → (length (print b) < fuel)%nat →
  ruby_brace_expand escape func fuel (print b) st = each_until func (expansions b) st.
Proof.
  revert b st. induction fuel as [|fuel IH]; intros b st Hb Hf; [lia|]. cbn [ruby_brace_expand].
  destruct (first_brace_of b Hb) as [E1 E2|pre a r E1 E2 Ha Hr E3 E4].
  { rewrite E2, E1. by rewrite each_until_one. }
  rewrite E1, E2. cbn [brace_scan Z.eqb Pos.eqb andb]. rewrite (proj2 scan_balanced a) by (done || lia).
  change (brace_scan escape (125 :: print r) (0 + zlen pre + 1 + zlen (print_alts a)) (0 + 1) (Some (0 + zlen pre)))
    with (Some (0 + zlen pre), Some (0 + zlen pre + 1 + zlen (print_alts a))). cbv beta iota zeta.
  replace (Z.to_nat (0 + zlen pre)) with (length pre) by (unfold zlen; lia). rewrite take_app_length.
  replace (Z.to_nat (0 + zlen pre + 1)) with (length pre + 1)%nat by (unfold zlen; lia). rewrite <- drop_drop, drop_app_length, skipn_cons, drop_0.
  replace (Z.to_nat (0 + zlen pre + 1 + zlen (print_alts a) - (0 + zlen pre) - 1)) with (length (print_alts a)) by (unfold zlen; lia).
  rewrite take_app_length.
  replace (Z.to_nat (0 + zlen pre + 1 + zlen (print_alts a) + 1)) with (length pre + (1 + (length (print_alts a) + 1)))%nat by (unfold zlen; lia).
  rewrite <- !drop_drop, drop_app_length, skipn_cons, drop_0, drop_app_length, skipn_cons, drop_0, alts_split by done.
  assert (∀ c, c ∈ alts_list a → ∀ st, ruby_brace_expand escape func fuel (pre ++ print c ++ print r) st =
    each_until func (app pre <$> cat (expansions c) (expansions r)) st) as Hc.
  { intros c Hc st'. pose proof (alts_length c a Hc) as Hl. apply alts_wf in Hc; [|done]. apply wf_weaken in Hc.
    destruct (E4 (bapp c r)) as (c' & Hc' & Ep & Ee); [by apply wf_bapp|]. rewrite print_bapp in Ep. rewrite expansions_bapp in Ee.
    rewrite <- Ep, <- Ee. apply IH; [done|]. rewrite Ep. rewrite E1 in Hf. rewrite !length_app in *. cbn in Hf. rewrite length_app in Hf. cbn in Hf. lia. }
  rewrite E3, expansions_alts_spec, <- (list_fmap_compose print).
  rewrite (each_until_concat _ func _ ((λ c, app pre <$> cat (expansions c) (expansions r)) <$> alts_list a)).
  - f_equal. clear. induction (alts_list a) as [|c l IH]; [done|]. cbn [fmap list_fmap concat]. by rewrite fmap_app, IH.
  - clear -Hc. induction (alts_list a) as [|c l IH]; [constructor|]. cbn [fmap list_fmap]. constructor.
    + apply Hc. by left.
    + apply IH. intros c' Hc'. apply Hc. by right.
Qed.
End brace.
