(* ===== verification/DirThm.v ===== *)
(** * dir.c: the theorems *)

From S2P Require Import Prelude Util Dir DirSpec DirOps DirGlob.

(** C20: [fnmatch] terminates on every pattern and string, does not read past the
    end of either, and answers 0 exactly if the string matches: the tokens of the
    pattern are tried at every position of every star, [**/] with [FNM_PATHNAME]
    stands for any number of directories that are not hidden, and a leading period
    has to be matched explicitly.  That the code comes back only to the last star,
    and to the last [**/], loses no match. *)
Theorem fnmatch_correct flags p s : fnmatch flags p s = Ok (if matches flags p s then 0 else FNM_NOMATCH).
Proof. apply fnmatch_spec. Qed.

(** A pattern in which [has_magic] finds nothing matches one name, the one
    that [remove_backslashes] leaves in the buffer without writing outside it; so the
    directory need not be read to match it. *)
Theorem plain_name_correct flags p s :
  Forall (name_char flags) p → Forall (name_char flags) s → has_magic flags p = false → flag flags FNM_CASEFOLD = false →
  returns (plain_name flags p) (λ name, fnmatch flags p s = Ok (if decide (name = s) then 0 else FNM_NOMATCH)).
Proof. apply plain_spec. Qed.

(** C21: on the text of a pattern with balanced braces, [ruby_brace_expand] ends and
    calls the function on each of the strings it stands for, the first brace varying
    slowest, until a call returns a status other than 0. *)
Theorem brace_expand_correct {S} escape (func : cstr → S → res (S * Z)) b st :
  wf escape false b →
  ruby_brace_expand escape func (Datatypes.S (length (print b))) (print b) st = each_until func (expansions b) st.
Proof. intros Hb. apply brace_expand_spec; [done|lia]. Qed.

(** ** Witnesses *)

(** [**/foo] against [a/b/c/foo] and [a/.b/c/foo], with [FNM_PATHNAME], and [*]
    against [.p]. *)
Example fnmatch_documented :
  fnmatch FNM_PATHNAME [42; 42; 47; 102; 111; 111] [97; 47; 98; 47; 99; 47; 102; 111; 111] = Ok 0 ∧
  fnmatch FNM_PATHNAME [42; 42; 47; 102; 111; 111] [97; 47; 46; 98; 47; 99; 47; 102; 111; 111] = Ok 1 ∧
  fnmatch 0 [42] [46; 112] = Ok 1 ∧ fnmatch FNM_DOTMATCH [42] [46; 112] = Ok 0.
Proof. split_and!; vm_compute; reflexivity. Qed.

(** The pattern [a\*b] and the name [a*b]. *)
Lemma plain_name_correct_witness :
  returns (plain_name 0 [97; 92; 42; 98]) (λ name, fnmatch 0 [97; 92; 42; 98] [97; 42; 98] = Ok (if decide (name = [97; 42; 98]) then 0 else FNM_NOMATCH)) ∧
  plain_name 0 [97; 92; 42; 98] = Ok [97; 42; 98].
Proof.
  split; [|vm_compute; reflexivity].
  apply (plain_name_correct 0 [97; 92; 42; 98] [97; 42; 98]); [| |reflexivity|reflexivity];
    repeat (apply Forall_cons; split; [by split|]); by apply Forall_nil.
Defined.

(** [a{b,c}] gives [ab] and [ac]. *)
Definition ex_brace : bseq := BLit 97 (BAlt (BMore (BLit 98 BNil) (BOne (BLit 99 BNil))) BNil).
Definition ex_collect (s : cstr) (acc : list cstr) : res (list cstr * Z) := Ok (acc ++ [s], 0).

Lemma brace_expand_correct_witness :
  ruby_brace_expand true ex_collect 7 (print ex_brace) [] = Ok ([[97; 98]; [97; 99]], 0).
Proof.
  apply (brace_expand_correct true ex_collect ex_brace []). cbn. split_and!; done.
Defined.
