(* ===== verification/Pack.v ===== *)
(** * pack.c: binary templates

    [Array#pack] and [String#unpack]: a template is a sequence of directives, each a
    letter with an optional size modifier and count, that convert values to bytes and
    back.  A byte is a [Z] from 0 to 255; [schar] reads it as a [char], which is signed.
    A pointer into the template is the list of the characters from there to the
    NUL that follows it.  A pointer into the string that is unpacked is an offset, since
    directives move it both ways; what lies in memory after a byte string
    is not specified, and the code reads one byte of it ([Beyond]). *)

From S2P Require Import Prelude Util Big Numeric.

(** ** Mutable data of CoreFoundation

    The result of [pack] grows in a [CFMutableDataRef]. *)

Class CFMutableData := {
  cfdata : Set;
  CFDataCreateMutable : cfdata;
  CFDataAppendBytes : cfdata → list Z → cfdata;
  CFDataGetLength : cfdata → Z;
  CFDataSetLength : cfdata → Z → cfdata;
  CFDataGetBytes : cfdata → list Z
}.

(** The byte in memory after the last one of the string to unpack. *)
Class Beyond := { beyond : Z }.

Inductive value := VNil | VStr (s : list Z) | VInt (n : num).

Definition byte_of (x : Z) : Z := Z.land x 255.
Definition schar (c : Z) : Z := if c <? 128 then c else c - 256.

Definition StringValue (v : value) : res (list Z) :=
  match v with VStr s => Ok s | _ => Err (Raise TypeError) end.
Definition rb_to_int (v : value) : res num :=
  match v with VInt n => Ok n | _ => Err (Raise TypeError) end.

Definition ISALPHA (c : Z) : bool := ISLOWER c || ISUPPER c.

(** [strchr(s, c)] is found: the terminator is one of the characters. *)
Definition strchr (s : list Z) (c : Z) : bool := bool_decide (c ∈ s ++ [0]).
(** "sSiIlL" and "@Xxu" *)
Definition natstr : list Z := [115; 83; 105; 73; 108; 76].
Definition no_items : list Z := [64; 88; 120; 117].

(** The bytes of the low end of an integer in memory. *)
Fixpoint le_bytes (k : nat) (x : Z) : list Z :=
  match k with O => [] | S k => byte_of x :: le_bytes k (Z.shiftr x 8) end.
Fixpoint le_value (bs : list Z) : Z :=
  match bs with [] => 0 | b :: bs => b + 256 * le_value bs end.

Definition swap16 (x : Z) : Z :=
  Z.lor (Z.shiftl (Z.land x 255) 8) (Z.land (Z.shiftr x 8) 255).
Definition swap32 (x : Z) : Z :=
  Z.lor (Z.lor (Z.lor (Z.shiftl (Z.land x 255) 24) (Z.land (Z.shiftr x 24) 255))
    (Z.shiftl (Z.land x 65280) 8)) (Z.shiftr (Z.land x 16711680) 8).
Definition byte_mask (i : Z) : Z := Z.shiftl 255 (8 * i).
Definition swapl (x : Z) : Z :=
  u64 (Z.lor (Z.lor (Z.lor (Z.lor (Z.lor (Z.lor (Z.lor
    (Z.shiftl (Z.land x (byte_mask 0)) 56) (Z.shiftr (Z.land x (byte_mask 7)) 56))
    (Z.shiftl (Z.land x (byte_mask 1)) 40)) (Z.shiftr (Z.land x (byte_mask 6)) 40))
    (Z.shiftl (Z.land x (byte_mask 2)) 24)) (Z.shiftr (Z.land x (byte_mask 5)) 24))
    (Z.shiftl (Z.land x (byte_mask 3)) 8)) (Z.shiftr (Z.land x (byte_mask 4)) 8)).

(** [EXTEND32]: the sign extension of 32 bits kept in a [long]. *)
Definition EXTEND32 (natint : bool) (x : Z) : Z :=
  if natint then x else Z.lxor (2 ^ 31 - 1 - x) (Z.lnot (Z.shiftl (-1) 31)).

(** ** Unicode characters *)

Definition rb_uv_to_utf8 (uv : Z) : res (list Z) :=
  let low (k : Z) := Z.lor (Z.land (Z.shiftr uv k) 63) 128 in
  let high (k m : Z) := Z.lor (Z.land (Z.shiftr uv k) 255) m in
  if uv <=? 127 then Ok [byte_of uv] else
  if uv <=? 2047 then Ok [high 6 192; low 0] else
  if uv <=? 65535 then Ok [high 12 224; low 6; low 0] else
  if uv <=? 2097151 then Ok [high 18 240; low 12; low 6; low 0] else
  if uv <=? 67108863 then Ok [high 24 248; low 18; low 12; low 6; low 0] else
  if uv <=? 2147483647 then Ok [high 30 252; low 24; low 18; low 12; low 6; low 0] else
  Err (Raise RangeError).

Definition utf8_limits : list Z := [0; 128; 2048; 65536; 2097152; 67108864; 2147483648].

Fixpoint utf8_tail (n : nat) (p : list Z) (uv : Z) : res Z :=
  match n with
  | O => Ok uv
  | S n =>
      c ← aload p 0;
      if negb (Z.land c 192 =? 128) then Err (Raise ArgumentError) else
      utf8_tail n (tail p) (Z.lor (u64 (Z.shiftl uv 6)) (Z.land c 63))
  end.

(** The length and the payload of the lead byte. *)
Definition utf8_lead (uv : Z) : res (Z * Z) :=
  if Z.land uv 64 =? 0 then Err (Raise ArgumentError) else
  if Z.land uv 32 =? 0 then Ok (2, Z.land uv 31) else
  if Z.land uv 16 =? 0 then Ok (3, Z.land uv 15) else
  if Z.land uv 8 =? 0 then Ok (4, Z.land uv 7) else
  if Z.land uv 4 =? 0 then Ok (5, Z.land uv 3) else
  if Z.land uv 2 =? 0 then Ok (6, Z.land uv 1) else
  Err (Raise ArgumentError).

(** The character and the number of its bytes, [*lenp] on return. *)
Definition utf8_to_uv (p : list Z) (lenp : Z) : res (Z * Z) :=
  c ← aload p 0;
  if Z.land c 128 =? 0 then Ok (c, 1) else
  '(n, uv) ← utf8_lead c;
  if lenp <? n then Err (Raise ArgumentError) else
  uv ← utf8_tail (Z.to_nat (n - 1)) (tail p) uv;
  limit ← aload utf8_limits (n - 1);
  if uv <? limit then Err (Raise ArgumentError) else Ok (uv, n).

(** ** Integers *)

Section pack_model.
Context `{J : Junk}.

Definition num2i32 (x : value) : res Z :=
  x ← rb_to_int x;
  match x with Fixnum n => Ok (u64 n) | Bignum b => rb_big2ulong_pack b end.

(** [SIZEOF_LONG_LONG/SIZEOF_BDIGITS] is 1. *)
Definition DIGSPERLL : Z := 1.

Definition rb_quad_pack (val : value) : res (list Z) :=
  val ← rb_to_int val;
  q ← match val with
      | Fixnum n => Ok n
      | Bignum b =>
          let len := if DIGSPERLL <? RBIGNUM_LEN b then DIGSPERLL else RBIGNUM_LEN b in
          q ← for_down (len - 1) 0 (λ i q, d ← aload (digits b) i; Ok (s64 (BIGUP (u128 q) + d))) 0;
          Ok (if sign b then q else s64 (- q))
      end;
  Ok (le_bytes 8 q).

(** [while (i-- && !digits[i]); RBIGNUM_SET_LEN(big, i+1);] *)
Fixpoint quad_len (i : nat) (ds : list Z) : nat :=
  match i with
  | O => O
  | S i' => if default 0 (ds !! i') =? 0 then quad_len i' ds else i
  end.

(** [q] has 128 bits and [memcpy] sets the lower half: the upper one is [junk]. *)
Definition rb_quad_unpack (buf : list Z) (signed : bool) : res num :=
  let q := le_value (take 8 buf) + 2 ^ 64 * junk 0 in
  let ll := s64 q in
  let big (neg : bool) (q : Z) :=
    '(_, ds) ← for_range 0 DIGSPERLL (λ i '(q, ds), ds ← astore ds i (BIGLO q); Ok (BIGDN q, ds)) (q, fresh DIGSPERLL);
    bignorm (mkBig (negb neg) (take (quad_len (Z.to_nat DIGSPERLL) ds) ds)) in
  if signed then
    if FIXABLE ll then Ok (Fixnum ll) else
    if ll <? 0 then big true (u128 (s64 (- ll))) else big false q
  else
    if POSFIXABLE q then Ok (Fixnum q) else big false q.

(** ** The result under construction *)

Context `{CF : CFMutableData}.

(** [CFDataAppendBytes(data, ptr, len)], which reads [len] bytes at [ptr]. *)
Definition append_bytes (data : cfdata) (ptr : list Z) (len : Z) : res cfdata :=
  if (0 <=? len) && (len <=? zlen ptr) then Ok (CFDataAppendBytes data (take (Z.to_nat len) ptr))
  else Err OutOfBounds.

(** Ten characters and the terminator. *)
Definition nul10 : list Z := replicate 11 0.
Definition spc10 : list Z := replicate 10 32 ++ [0].

Definition fill_step (fill : list Z) (s : Z * cfdata) : res ((Z * cfdata) + (Z * cfdata)) :=
  let '(len, data) := s in
  if 10 <=? len then data ← append_bytes data fill 10; Ok (inl (len - 10, data)) else Ok (inr s).

(** [while (len >= 10)] with the rest after it. *)
Definition fill_with (fill : list Z) (data : cfdata) (len : Z) : res cfdata :=
  '(len, data) ← iter (S (Z.to_nat len)) (fill_step fill) (len, data);
  append_bytes data fill len.

(** [grow:] *)
Definition grow (data : cfdata) (len : Z) : res cfdata := fill_with nul10 data len.

(** [shrink:] *)
Definition shrink (data : cfdata) (len : Z) : res cfdata :=
  let plen := CFDataGetLength data in
  if plen <? len then Err (Raise ArgumentError) else
  Ok (CFDataSetLength data (s64 (plen - len))).

(** [NEXTFROM]: the items that are left. *)
Definition NEXTFROM (items : list value) : res (value * list value) :=
  match items with [] => Err (Raise ArgumentError) | v :: items => Ok (v, items) end.

(** ** Strings, bit strings and hexadecimal strings *)

Definition pack_a (type : Z) (star : bool) (data : cfdata) (ptr : list Z) (len : Z) : res cfdata :=
  let plen := zlen ptr in
  if len <=? plen then
    data ← append_bytes data ptr len;
    if star && (type =? 90) then append_bytes data nul10 1 else Ok data
  else
    data ← append_bytes data ptr plen;
    fill_with (if type =? 65 then spc10 else nul10) data (len - plen).

(** One turn of [for (i=0; i++ < len; ptr++)]: bit [c & 1] enters, and a byte leaves
    when [i] is a multiple of eight. *)
Definition bits_step (enter shift : Z → Z → Z) (mask : Z) (ptr : list Z) (i : Z) (s : Z * cfdata) : res (Z * cfdata) :=
  let '(byte, data) := s in
  c ← aload ptr (i - 1);
  let byte := enter byte c in
  if negb (Z.land i mask =? 0) then Ok (shift byte 1, data)
  else data ← append_bytes data [byte_of byte] 1; Ok (0, data).

(** The padding that is asked for where the string is too short. *)
Definition short_by (len plen : Z) : Z := if plen <? len then Z.quot (len - plen + 1) 2 else 0.

Definition enter_b (byte c : Z) : Z := if Z.land c 1 =? 0 then byte else Z.lor byte 128.

Definition pack_b (data : cfdata) (ptr : list Z) (len : Z) : res cfdata :=
  let j := short_by len (zlen ptr) in
  let len := Z.min len (zlen ptr) in
  '(byte, data) ← for_range 1 (len + 1) (bits_step enter_b Z.shiftr 7 ptr) (0, data);
  data ← (if negb (Z.land len 7 =? 0)
          then append_bytes data [byte_of (Z.shiftr byte (7 - Z.land len 7))] 1 else Ok data);
  grow data j.

Definition enter_B (byte c : Z) : Z := Z.lor byte (Z.land c 1).

Definition pack_B (data : cfdata) (ptr : list Z) (len : Z) : res cfdata :=
  let j := short_by len (zlen ptr) in
  let len := Z.min len (zlen ptr) in
  '(byte, data) ← for_range 1 (len + 1) (bits_step enter_B Z.shiftl 7 ptr) (0, data);
  data ← (if negb (Z.land len 7 =? 0)
          then append_bytes data [byte_of (Z.shiftl byte (7 - Z.land len 7))] 1 else Ok data);
  grow data j.

Definition hex_nibble (c : Z) : Z :=
  if ISALPHA c then Z.land (Z.land c 15 + 9) 15 else Z.land c 15.

Definition enter_h (byte c : Z) : Z := Z.lor byte (Z.shiftl (hex_nibble c) 4).

Definition pack_h (data : cfdata) (ptr : list Z) (len : Z) : res cfdata :=
  let plen := zlen ptr in
  let j := if plen <? len then Z.quot (len + 1) 2 - Z.quot (plen + 1) 2 else 0 in
  let len := Z.min len plen in
  '(byte, data) ← for_range 1 (len + 1) (bits_step enter_h (λ b _, Z.shiftr b 4) 1 ptr) (0, data);
  data ← (if negb (Z.land len 1 =? 0) then append_bytes data [byte_of byte] 1 else Ok data);
  grow data j.

Definition enter_H (byte c : Z) : Z := Z.lor byte (hex_nibble c).

Definition pack_H (data : cfdata) (ptr : list Z) (len : Z) : res cfdata :=
  let j := short_by len (zlen ptr) in
  let len := Z.min len (zlen ptr) in
  '(byte, data) ← for_range 1 (len + 1) (bits_step enter_H (λ b _, Z.shiftl b 4) 1 ptr) (0, data);
  data ← (if negb (Z.land len 1 =? 0) then append_bytes data [byte_of byte] 1 else Ok data);
  grow data j.

Definition pack_string (type : Z) (star : bool) (len : Z) (items : list value) (data : cfdata)
    : res (list value * cfdata) :=
  '(from, items) ← NEXTFROM items;
  ptr ← match from with VNil => Ok [] | _ => StringValue from end;
  let len := if star then zlen ptr else len in
  data ← (if type =? 98 then pack_b data ptr len
          else if type =? 66 then pack_B data ptr len
          else if type =? 104 then pack_h data ptr len
          else if type =? 72 then pack_H data ptr len
          else pack_a type star data ptr len);
  Ok (items, data).

(** ** Numbers *)

(** [while (len-- > 0)] over the items, each of which is converted to bytes. *)
Fixpoint pack_each (n : nat) (conv : value → res (list Z)) (items : list value) (data : cfdata)
    : res (list value * cfdata) :=
  match n with
  | O => Ok (items, data)
  | S n =>
      '(from, items) ← NEXTFROM items;
      bs ← conv from;
      pack_each n conv items (CFDataAppendBytes data bs)
  end.

(** cC, sS, iI, lL, qQ, n, N, v, V *)
Definition pack_integer (type : Z) (natint : bool) (from : value) : res (list Z) :=
  let native (k : nat) := n ← num2i32 from; Ok (le_bytes k n) in
  if bool_decide (type ∈ [99; 67]) then native 1%nat else
  if bool_decide (type ∈ [115; 83]) then native 2%nat else
  if bool_decide (type ∈ [105; 73]) then native 4%nat else
  if bool_decide (type ∈ [108; 76]) then native (if natint then 8%nat else 4%nat) else
  if bool_decide (type ∈ [113; 81]) then rb_quad_pack from else
  if type =? 110 then n ← num2i32 from; Ok (le_bytes 2 (swap16 (Z.land n 65535))) else
  if type =? 78 then n ← num2i32 from; Ok (le_bytes 4 (swap32 n)) else
  if type =? 118 then native 2%nat else native 4%nat.

Definition pack_U (from : value) : res (list Z) :=
  from ← rb_to_int from;
  l ← rb_num2long from;
  if l <? 0 then Err (Raise RangeError) else rb_uv_to_utf8 l.

(** *** BER-compressed integers *)

(** The digits of a bignum to the base 128, the continuation bit set, least
    significant first. *)
Fixpoint ber_big (fuel : nat) (from : num) (buf : list Z) : res (num * list Z) :=
  match from with
  | Fixnum _ => Ok (from, buf)
  | Bignum b =>
      match fuel with
      | O => Err NoFuel
      | S fuel =>
          big128 ← rb_uint2big 128;
          '(div, mod') ← rb_big_divmod b (Bignum big128);
          m ← rb_num2int mod';
          ber_big fuel div (buf ++ [byte_of (Z.lor m 128)])
      end
  end.

Fixpoint ber_long (fuel : nat) (ul : Z) (buf : list Z) : res (list Z) :=
  if ul =? 0 then Ok buf else
  match fuel with
  | O => Err NoFuel
  | S fuel => ber_long fuel (Z.shiftr ul 7) (buf ++ [byte_of (Z.lor (Z.land ul 127) 128)])
  end.

(** [while (bufs < bufe)]: exchanges the ends, from the outside in. *)
Fixpoint ber_reverse (fuel : nat) (bufs bufe : Z) (buf : list Z) : res (list Z) :=
  if bufs <? bufe then
    match fuel with
    | O => Err NoFuel
    | S fuel =>
        c ← aload buf bufs;
        d ← aload buf bufe;
        buf ← astore buf bufs d;
        buf ← astore buf bufe c;
        ber_reverse fuel (bufs + 1) (bufe - 1) buf
    end
  else Ok buf.

Definition ber_digits (from : num) : nat :=
  match from with Fixnum _ => O | Bignum b => 10 * length (digits b) end.

Definition pack_w (from : value) : res (list Z) :=
  '(from, buf) ← match from with
                 | VInt n => ber_big (ber_digits n) n []
                 | _ => Err (Raise TypeError)
                 end;
  l ← rb_num2long from;
  if l <? 0 then Err (Raise ArgumentError) else
  buf ← ber_long 10 l buf;
  if 0 <? zlen buf then
    c ← aload buf 0;
    buf ← astore buf 0 (Z.land c 127);
    ber_reverse (length buf) 0 (zlen buf - 1) buf
  else Ok [0].

(** ** Text encodings *)

Definition uu_table : list Z := 96 :: seqZ 33 63.
Definition b64_table : list Z := seqZ 65 26 ++ seqZ 97 26 ++ seqZ 48 10 ++ [43; 47].

(** A buffer of [cap] bytes filled from its start. *)
Definition put (cap : Z) (buff : list Z) (c : Z) : res (list Z) :=
  if zlen buff <? cap then Ok (buff ++ [byte_of c]) else Err OutOfBounds.
Fixpoint puts (cap : Z) (buff : list Z) (cs : list Z) : res (list Z) :=
  match cs with [] => Ok buff | c :: cs => buff ← put cap buff c; puts cap buff cs end.

(** The four characters of three bytes. *)
Definition quad (trans : list Z) (c0 c1 c2 : Z) : res (list Z) :=
  w ← aload trans (Z.land 63 (Z.shiftr (schar c0) 2));
  x ← aload trans (Z.land 63 (Z.lor (Z.land (Z.shiftl (schar c0) 4) 48) (Z.land (Z.shiftr (schar c1) 4) 15)));
  y ← aload trans (Z.land 63 (Z.lor (Z.land (Z.shiftl (schar c1) 2) 60) (Z.land (Z.shiftr (schar c2) 6) 3)));
  z ← aload trans (Z.land 63 (schar c2));
  Ok [w; x; y; z].

(** [sizeof(buff)] is the size of the pointer. *)
Definition room (buff : list Z) : Z := u64 (8 - zlen buff).

Definition encodes_inner (trans : list Z) (cap : Z) (st : list Z * list Z) : res ((list Z * list Z) + (list Z * list Z)) :=
  let '(s, buff) := st in
  if (3 <=? zlen s) && (4 <=? room buff) then
    c0 ← aload s 0; c1 ← aload s 1; c2 ← aload s 2;
    q ← quad trans c0 c1 c2;
    buff ← puts cap buff q;
    Ok (inl (drop 3 s, buff))
  else Ok (inr st).

Definition encodes_outer (trans : list Z) (cap : Z) (st : list Z * list Z * cfdata)
    : res ((list Z * list Z * cfdata) + (list Z * list Z * cfdata)) :=
  let '(s, buff, data) := st in
  if 3 <=? zlen s then
    '(s, buff) ← iter (S (length s)) (encodes_inner trans cap) (s, buff);
    if room buff <? 4 then Ok (inl (s, [], CFDataAppendBytes data buff))
    else Ok (inl (s, buff, data))
  else Ok (inr st).

(** The bytes [s] are those of [ptr .. ptr + len). *)
Definition encodes (data : cfdata) (s : list Z) (type : Z) (tail_lf : bool) : res cfdata :=
  let len := zlen s in
  let cap := len * 4 / 3 + 6 in
  let trans := if type =? 117 then uu_table else b64_table in
  let padding := if type =? 117 then 96 else 61 in
  buff ← (if type =? 117 then put cap [] (len + 32) else Ok []);
  '(s, buff, data) ← iter (S (length s)) (encodes_outer trans cap) (s, buff, data);
  buff ← match s with
         | [c0; c1] => q ← quad trans c0 c1 0; puts cap buff (take 3 q ++ [padding])
         | [c0] => q ← quad trans c0 0 0; puts cap buff (take 2 q ++ [padding; padding])
         | _ => Ok buff
         end;
  buff ← (if tail_lf then put cap buff 10 else Ok buff);
  Ok (CFDataAppendBytes data buff).

(** [while (plen > 0)]: a line for each [len] bytes. *)
Definition lines_step (type len : Z) (s : list Z * cfdata) : res ((list Z * cfdata) + cfdata) :=
  let '(ptr, data) := s in
  if 0 <? zlen ptr then
    let todo := Z.min (zlen ptr) len in
    data ← encodes data (take (Z.to_nat todo) ptr) type true;
    Ok (inl (drop (Z.to_nat todo) ptr, data))
  else Ok (inr data).

Definition pack_um (type len : Z) (items : list value) (data : cfdata) : res (list value * cfdata) :=
  '(from, items) ← NEXTFROM items;
  ptr ← StringValue from;
  if (len =? 0) && (type =? 109) then data ← encodes data ptr type false; Ok (items, data) else
  let len := if len <=? 2 then 45 else Z.quot len 3 * 3 in
  data ← iter (S (length ptr)) (lines_step type len) (ptr, data);
  Ok (items, data).

(** "0123456789ABCDEF" *)
Definition hex_table : list Z := seqZ 48 10 ++ seqZ 65 6.
Definition EOF : Z := -1.
Definition qp_cap : Z := 1024.

(** One byte of quoted-printable text: the buffer, the length of the line and the
    character before. *)
Definition qp_step (len : Z) (c : Z) (st : list Z * Z * Z * cfdata) : res (list Z * Z * Z * cfdata) :=
  let '(buff, n, prev, data) := st in
  '(buff, n, prev) ←
    (if (126 <? c) || ((c <? 32) && negb (c =? 10) && negb (c =? 9)) || (c =? 61) then
       h ← aload hex_table (Z.shiftr c 4);
       l ← aload hex_table (Z.land c 15);
       buff ← puts qp_cap buff [61; h; l];
       Ok (buff, n + 3, EOF)
     else if c =? 10 then
       buff ← puts qp_cap buff (if (prev =? 32) || (prev =? 9) then [61; c] else []);
       buff ← put qp_cap buff c;
       Ok (buff, 0, c)
     else buff ← put qp_cap buff c; Ok (buff, n + 1, c));
  '(buff, n, prev) ← (if len <? n then buff ← puts qp_cap buff [61; 10]; Ok (buff, 0, 10) else Ok (buff, n, prev));
  if 1024 - 5 <? zlen buff then Ok ([], n, prev, CFDataAppendBytes data buff)
  else Ok (buff, n, prev, data).

Fixpoint qp_loop (len : Z) (s : list Z) (st : list Z * Z * Z * cfdata) : res (list Z * Z * Z * cfdata) :=
  match s with [] => Ok st | c :: s => st ← qp_step len c st; qp_loop len s st end.

Definition qpencode (data : cfdata) (from : list Z) (len : Z) : res cfdata :=
  '(buff, n, _, data) ← qp_loop len from ([], 0, EOF, data);
  buff ← (if 0 <? n then puts qp_cap buff [61; 10] else Ok buff);
  if 0 <? zlen buff then Ok (CFDataAppendBytes data buff) else Ok data.

(** Other objects answer [to_s]. *)
Definition rb_obj_as_string (v : value) : res (list Z) :=
  match v with VStr s => Ok s | _ => Err Unmodelled end.

Definition pack_M (len : Z) (items : list value) (data : cfdata) : res (list value * cfdata) :=
  '(from, items) ← NEXTFROM items;
  from ← rb_obj_as_string from;
  data ← qpencode data from (if len <=? 1 then 72 else len);
  Ok (items, data).

(** ** [Array#pack] *)

(** The modifier: whether the native size is asked for, and the rest of the
    template. *)
Definition read_modifier (type : Z) (p : list Z) : res (bool * list Z) :=
  if (peek p =? 95) || (peek p =? 33) then
    if strchr natstr type then Ok (true, tail p) else Err (Raise ArgumentError)
  else Ok (false, p).

Definition read_count (p : list Z) : res (Z * list Z) :=
  '(len, endp, errno) ← ruby_strtoul p 10;
  if errno : bool then Err (Raise RangeError) else
  Ok (s64 len, default p endp).

(** [if (ISSPACE(type)) continue;] and the comments. *)
Fixpoint skip_comment (p : list Z) : list Z :=
  match p with c :: p' => if c =? 10 then p else skip_comment p' | [] => [] end.

(** The code asks for [p[-1] == '*'] after the count: [star]. *)
Definition pack_count (type : Z) (items : list value) (p : list Z) : res (Z * bool * list Z) :=
  if peek p =? 42 then Ok (if strchr no_items type then 0 else zlen items, true, tail p) else
  if ISDIGIT (peek p) then '(len, p) ← read_count p; Ok (len, false, p) else
  Ok (1, false, p).

Definition pack_directive (type : Z) (natint : bool) (len : Z) (star : bool) (items : list value) (data : cfdata)
    : res (list value * cfdata) :=
  let each conv := pack_each (Z.to_nat len) conv items data in
  (* A a Z B b H h *)
  if bool_decide (type ∈ [65; 97; 90; 66; 98; 72; 104]) then pack_string type star len items data else
  (* c C s S i I l L q Q n N v V *)
  if bool_decide (type ∈ [99; 67; 115; 83; 105; 73; 108; 76; 113; 81; 110; 78; 118; 86])
  then each (pack_integer type natint) else
  (* f F e E d D g G, P p *)
  if bool_decide (type ∈ [102; 70; 101; 69; 100; 68; 103; 71; 80; 112]) then Err Unmodelled else
  if type =? 120 then data ← grow data len; Ok (items, data) else
  if type =? 88 then data ← shrink data len; Ok (items, data) else
  if type =? 64 then
    let len := s64 (len - CFDataGetLength data) in
    if 0 <? len then data ← grow data len; Ok (items, data) else
    if 0 <? s64 (- len) then data ← shrink data (s64 (- len)); Ok (items, data) else
    Ok (items, data)
  else
  if type =? 37 then Err (Raise ArgumentError) else
  if type =? 85 then each pack_U else
  if (type =? 117) || (type =? 109) then pack_um type len items data else
  if type =? 77 then pack_M len items data else
  if type =? 119 then each pack_w else
  Ok (items, data).

Definition pack_step (st : list Z * list value * cfdata) : res ((list Z * list value * cfdata) + cfdata) :=
  let '(p, items, data) := st in
  match p with
  | [] => Ok (inr data)
  | type :: p =>
      if ISSPACE type then Ok (inl (p, items, data)) else
      if type =? 35 then Ok (inl (skip_comment p, items, data)) else
      '(natint, p) ← read_modifier type p;
      '(len, star, p) ← pack_count type items p;
      '(items, data) ← pack_directive type natint len star items data;
      Ok (inl (p, items, data))
  end.

Definition pack_pack (ary : list value) (fmt : list Z) : res cfdata :=
  iter (S (length fmt)) pack_step (fmt, ary, CFDataCreateMutable).

End pack_model.
