(* ===== verification/Unpack.v ===== *)
(** * pack.c: unpacking

    [String#unpack].  The string is a list of bytes with one more behind it in memory
    ([beyond]); [s] is an offset, which some directives move past the end.  The values
    go to a new array, or to the block if there is one: what a block sees is the value
    at the time it is called. *)

From S2P Require Import Prelude Util Big Numeric Pack.

Section unpack_model.
Context `{J : Junk} `{BY : Beyond}.

(** [*s] and the bytes from [s]. *)
Definition char_at (str : list Z) (s : Z) : res Z := aload (str ++ [beyond]) s.

Fixpoint load_bytes (str : list Z) (s : Z) (k : nat) : res (list Z) :=
  match k with
  | O => Ok []
  | S k => c ← char_at str s; bs ← load_bytes str (s + 1) k; Ok (c :: bs)
  end.

(** ** Strings *)

(** [infected_str_new(s, len, str)] *)
Definition infected_str_new (str : list Z) (s len : Z) : res value :=
  if len <? 0 then Err (Raise ArgumentError) else
  bs ← load_bytes str s (Z.to_nat len); Ok (VStr bs).

(** [while (t >= s)] from the end of the field: its length without the padding. *)
Fixpoint strip_padding (n : nat) (str : list Z) (s : Z) : res Z :=
  match n with
  | O => Ok 0
  | S n' =>
      c ← char_at str (s + Z.of_nat n');
      if negb (c =? 32) && negb (c =? 0) then Ok (Z.of_nat n) else strip_padding n' str s
  end.

(** [while (t < s+len && *t) t++;] the number of turns. *)
Fixpoint until_nul (n : nat) (str : list Z) (t : Z) : res Z :=
  match n with
  | O => Ok 0
  | S n => c ← char_at str t; if c =? 0 then Ok 0 else k ← until_nul n str (t + 1); Ok (1 + k)
  end.

(** A result: what is pushed, and the new position. *)
Definition unpack_A (str : list Z) (s len : Z) : res (value * Z) :=
  let len := Z.min len (zlen str - s) in
  n ← (if len <? 0 then Ok len else strip_padding (Z.to_nat len) str s);
  v ← infected_str_new str s n;
  Ok (v, s + len).

Definition unpack_Z (str : list Z) (s len : Z) (star : bool) : res (value * Z) :=
  let len := Z.min len (zlen str - s) in
  n ← until_nul (Z.to_nat len) str s;
  v ← infected_str_new str s n;
  let t := s + n in
  let t := if t <? zlen str then t + 1 else t in
  Ok (v, if star then t else s + len).

Definition unpack_a (str : list Z) (s len : Z) : res (value * Z) :=
  let len := Z.min len (zlen str - s) in
  v ← infected_str_new str s len;
  Ok (v, s + len).

(** ** Bit strings and hexadecimal strings *)

(** One turn of [for (i=0; i<len; i++)]: the position, the bits that are left and the
    characters so far. *)
Definition unbits_step (str : list Z) (mask : Z) (shift : Z → Z) (digit : Z → Z) (i : Z) (st : Z * Z * list Z)
    : res (Z * Z * list Z) :=
  let '(s, bits, t) := st in
  '(s, bits) ← (if negb (Z.land i mask =? 0) then Ok (s, shift bits)
                else c ← char_at str s; Ok (s + 1, schar c));
  Ok (s, bits, t ++ [digit bits]).

(** "0123456789abcdef0123456789ABCDEFx" *)
Definition hexdigits : list Z := hexdigit ++ [120].

(** The string is pushed before it is filled, when it holds zeros. *)
Definition unbits (block_p : bool) (per : Z) (star : bool) (mask : Z) (shift digit : Z → Z) (str : list Z) (s len : Z)
    : res (value * Z) :=
  let len := if star || ((zlen str - s) * per <? len) then (zlen str - s) * per else len in
  if len <? 0 then Err OutOfBounds else
  '(s, _, t) ← for_range 0 len (unbits_step str mask shift digit) (s, 0, []);
  Ok (VStr (if block_p then replicate (Z.to_nat len) 0 else t), s).

Definition unpack_b (block_p star : bool) : list Z → Z → Z → res (value * Z) :=
  unbits block_p 8 star 7 (λ b, Z.shiftr b 1) (λ b, if Z.land b 1 =? 0 then 48 else 49).
Definition unpack_B (block_p star : bool) : list Z → Z → Z → res (value * Z) :=
  unbits block_p 8 star 7 (λ b, Z.shiftl b 1) (λ b, if Z.land b 128 =? 0 then 48 else 49).
Definition hexdigit_at (i : Z) : Z := default 0 (zlookup hexdigits i).
Definition unpack_h (block_p star : bool) : list Z → Z → Z → res (value * Z) :=
  unbits block_p 2 star 1 (λ b, Z.shiftr b 4) (λ b, hexdigit_at (Z.land b 15)).
Definition unpack_H (block_p star : bool) : list Z → Z → Z → res (value * Z) :=
  unbits block_p 2 star 1 (λ b, Z.shiftl b 4) (λ b, hexdigit_at (Z.land (Z.shiftr b 4) 15)).

(** ** Numbers *)

(** [PACK_LENGTH_ADJUST]: the count, and how many items are missing ([tmp], an [int]). *)
Definition PACK_LENGTH_ADJUST (sz : Z) (star : bool) (len rest : Z) : Z * Z :=
  let fit := Z.quot rest sz in
  if fit <? len then (fit, if star then 0 else s32 (len - fit)) else (len, 0).

(** The same with [sz] a [size_t]: the division and the comparison are unsigned. *)
Definition PACK_LENGTH_ADJUST_SIZE (sz : Z) (star : bool) (len rest : Z) : Z * Z :=
  let fit := u64 rest / sz in
  if fit <? u64 len then (s64 fit, if star then 0 else s32 (len - fit)) else (len, 0).

(** [while (tmp--) rb_ary_push(ary, Qnil)].  There is no array when there is a block;
    from a negative [tmp] the loop counts down to a signed overflow. *)
Definition PACK_ITEM_ADJUST (block_p : bool) (tmp : Z) : res (list value) :=
  if tmp =? 0 then Ok [] else
  if tmp <? 0 then Err Unmodelled else
  if block_p then Err BadPointer else Ok (replicate (Z.to_nat tmp) VNil).

(** [while (len-- > 0)]: [sz] bytes for each item. *)
Fixpoint unpack_each (n : nat) (sz : nat) (conv : list Z → res num) (str : list Z) (s : Z) : res (list value * Z) :=
  match n with
  | O => Ok ([], s)
  | S n =>
      bs ← load_bytes str s sz;
      v ← conv bs;
      '(vs, s) ← unpack_each n sz conv str (s + Z.of_nat sz);
      Ok (VInt v :: vs, s)
  end.

(** The width of a directive and the value of its bytes: c, C, s, S, i, I, l, L, n, N, v, V. *)
Definition integer_format (type : Z) (natint : bool) : nat * (list Z → res num) :=
  let wide (k : nat) := if natint then 8%nat else k in
  if type =? 99 then (1%nat, λ bs, Ok (Fixnum (schar (le_value bs)))) else
  if type =? 67 then (1%nat, λ bs, Ok (Fixnum (le_value bs))) else
  if type =? 115 then (2%nat, λ bs, Ok (Fixnum ((le_value bs + 2 ^ 15) mod 2 ^ 16 - 2 ^ 15))) else
  if type =? 83 then (2%nat, λ bs, Ok (Fixnum (le_value bs))) else
  if type =? 105 then (4%nat, λ bs, rb_int2inum (s32 (le_value bs))) else
  if type =? 73 then (4%nat, λ bs, rb_uint2inum (le_value bs)) else
  if type =? 108 then (wide 4%nat, λ bs, rb_int2inum (EXTEND32 natint (s64 (le_value bs)))) else
  if type =? 76 then (wide 4%nat, λ bs, rb_uint2inum (le_value bs)) else
  if type =? 110 then (2%nat, λ bs, rb_uint2inum (swap16 (le_value bs))) else
  (* the four bytes go to the upper half of the [long] *)
  if type =? 78 then (4%nat, λ bs, rb_uint2inum (swapl (le_value (replicate 4 0 ++ bs)))) else
  if type =? 118 then (2%nat, λ bs, rb_uint2inum (le_value bs)) else
  (4%nat, λ bs, rb_uint2inum (le_value bs)).

Definition unpack_integer (block_p : bool) (type : Z) (natint star : bool) (str : list Z) (s len : Z)
    : res (list value * Z) :=
  let '(sz, conv) := integer_format type natint in
  let '(len, tmp) := PACK_LENGTH_ADJUST (Z.of_nat sz) star len (zlen str - s) in
  '(vs, s) ← unpack_each (Z.to_nat len) sz conv str s;
  nils ← PACK_ITEM_ADJUST block_p tmp;
  Ok (vs ++ nils, s).

(** [Q] has no [PACK_ITEM_ADJUST]. *)
Definition unpack_quad (block_p : bool) (type : Z) (star : bool) (str : list Z) (s len : Z) : res (list value * Z) :=
  let '(len, tmp) := PACK_LENGTH_ADJUST_SIZE 8 star len (zlen str - s) in
  '(vs, s) ← unpack_each (Z.to_nat len) 8 (λ bs, rb_quad_unpack bs (type =? 113)) str s;
  nils ← (if type =? 113 then PACK_ITEM_ADJUST block_p tmp else Ok []);
  Ok (vs ++ nils, s).

(** [while (len > 0 && s < send)]. *)
Fixpoint unpack_U (n : nat) (str : list Z) (s : Z) : res (list value * Z) :=
  match n with
  | O => Ok ([], s)
  | S n =>
      if s <? zlen str then
        bs ← (if s <? 0 then Err OutOfBounds else Ok (drop (Z.to_nat s) str));
        '(l, alen) ← utf8_to_uv bs (zlen str - s);
        v ← rb_uint2inum l;
        '(vs, s) ← unpack_U n str (s + alen);
        Ok (VInt v :: vs, s)
      else Ok ([], s)
  end.

(** *** BER-compressed integers *)

(** [while (s < send)]: the rest of a number that does not fit a [long]; [None] when
    the string ends before it. *)
Fixpoint unber_big (fuel : nat) (str : list Z) (s : Z) (big : num) : res (option num * Z) :=
  match fuel with
  | O => Err NoFuel
  | S fuel =>
      if s <? zlen str then
        c ← char_at str s;
        big128 ← rb_uint2big 128;
        big ← match big with Bignum b => rb_big_mul b (Bignum big128) | Fixnum _ => Err BadPointer end;
        low ← rb_uint2big (Z.land c 127);
        big ← match big with Bignum b => rb_big_plus b (Bignum low) | Fixnum _ => Err BadPointer end;
        if Z.land c 128 =? 0 then Ok (Some big, s + 1) else unber_big fuel str (s + 1) big
      else Ok (None, s)
  end.

Definition ulmask : Z := Z.shiftl 254 56.

(** [while (len > 0 && s < send)] with the number read so far. *)
Definition unber_step (str : list Z) (st : Z * Z * Z * list value)
    : res ((Z * Z * Z * list value) + (list value * Z)) :=
  let '(len, ul, s, vs) := st in
  if (0 <? len) && (s <? zlen str) then
    c ← char_at str s;
    let ul := Z.lor (u64 (Z.shiftl ul 7)) (Z.land c 127) in
    if Z.land c 128 =? 0 then
      v ← rb_uint2inum ul;
      Ok (inl (len - 1, 0, s + 1, vs ++ [VInt v]))
    else if negb (Z.land ul ulmask =? 0) then
      big ← rb_uint2big ul;
      '(v, s) ← unber_big (S (length str)) str (s + 1) (Bignum big);
      match v with
      | Some v => Ok (inl (len - 1, 0, s, vs ++ [VInt v]))
      | None => Ok (inl (len, ul, s, vs))
      end
    else Ok (inl (len, ul, s + 1, vs))
  else Ok (inr (vs, s)).

Definition unpack_w (str : list Z) (s len : Z) : res (list value * Z) :=
  iter (S (length str)) (unber_step str) (len, 0, s, []).

(** ** Text encodings

    The decoders read the bytes from [s] to the end: they are given this list and return
    the characters they used. *)

(** *** Base64 *)

(** The table that the first call fills. *)
Definition b64_xtable : list Z :=
  foldl (λ t i, <[Z.to_nat (default 0 (zlookup b64_table i)) := i]> t) (replicate 256 (-1)) (seqZ 0 64).

(** [while((a = b64_xtable[*s]) == -1 && s < send) { s++; }], which stops at a ['='] for
    the last two characters of a group. *)
Fixpoint b64_scan (stop : bool) (s : list Z) : res (Z * list Z) :=
  match s with
  | [] => v ← aload b64_xtable beyond; Ok (v, [])
  | c :: s' =>
      v ← aload b64_xtable c;
      if v =? -1 then
        if stop && (c =? 61) then Ok (v, s) else b64_scan stop s'
      else Ok (v, s)
  end.

Definition at_ (s : list Z) : Z := hd beyond s.
Definition at_end (s : list Z) : bool := bool_decide (s = []).

(** The state after the loop: a, b, c, the position and the output. *)
Record b64_exit := mkExit { xa : Z; xb : Z; xc : Z; xs : list Z; xout : list Z }.

Definition hunk (a b c d : Z) : list Z :=
  [Z.lor (Z.shiftl a 2) (Z.shiftr b 4); Z.lor (Z.shiftl b 4) (Z.shiftr c 2); Z.lor (Z.shiftl c 6) d].

Definition b64_step (cap : Z) (st : b64_exit) : res (b64_exit + b64_exit) :=
  let s := xs st in let out := xout st in
  if at_end s then Ok (inr st) else
  '(a, s) ← b64_scan false s;
  if at_end s then Ok (inr (mkExit a (-1) (-1) s out)) else
  '(b, s) ← b64_scan false (tail s);
  if at_end s then Ok (inr (mkExit a b (-1) s out)) else
  '(c, s) ← b64_scan true (tail s);
  if (at_ s =? 61) || at_end s then Ok (inr (mkExit a b c s out)) else
  '(d, s) ← b64_scan true (tail s);
  if (at_ s =? 61) || at_end s then Ok (inr (mkExit a b c s out)) else
  out ← puts cap out (hunk a b c d);
  Ok (inl (mkExit a b c (tail s) out)).

Definition unpack_m (s : list Z) : res (list Z * list Z) :=
  let cap := zlen s * 3 / 4 in
  st ← iter (S (length s)) (b64_step cap) (mkExit (-1) (-1) 0 s []);
  let '(mkExit a b c s out) := st in
  out ← (if negb (a =? -1) && negb (b =? -1) then
           if (c =? -1) && (at_ s =? 61) then puts cap out (take 1 (hunk a b c 0))
           else if negb (c =? -1) && (at_ s =? 61) then puts cap out (take 2 (hunk a b c 0))
           else Ok out
         else Ok out);
  Ok (out, s).

(** *** Uuencoded text *)

(** [if (s < send && *s >= ' ') a = ( *s++ - ' ') & 077; else a = 0;] *)
Definition uu_char (s : list Z) : Z * list Z :=
  match s with
  | c :: s' => if 32 <=? schar c then (Z.land (schar c - 32) 63, s') else (0, s)
  | [] => (0, s)
  end.

(** The groups of a line of [len] bytes. *)
Fixpoint uu_line (fuel : nat) (cap : Z) (len : Z) (s out : list Z) : res (list Z * list Z) :=
  if 0 <? len then
    match fuel with
    | O => Err NoFuel
    | S fuel =>
        let mlen := if 3 <? len then 3 else len in
        let '(a, s) := uu_char s in
        let '(b, s) := uu_char s in
        let '(c, s) := uu_char s in
        let '(d, s) := uu_char s in
        out ← puts cap out (take (Z.to_nat mlen) (hunk a b c d));
        uu_line fuel cap (len - mlen) s out
    end
  else Ok (s, out).

(** The end of a line.  The result is the rest, and how far past the end the pointer
    is. *)
Definition uu_eol (s : list Z) : res (list Z * Z) :=
  s ← (if at_ s =? 13 then match s with [] => Err OutOfBounds | _ :: s => Ok s end else Ok s);
  if at_ s =? 10 then match s with [] => Ok ([], 1) | _ :: s => Ok (s, 0) end else
  match s with
  | [] => Ok ([], 0)
  | [_] => Ok ([], 1)
  | _ :: c :: s' => if c =? 10 then Ok (s', 0) else Ok (s, 0)
  end.

(** The rest, the position past the end, the output and [total]. *)
Definition uu_step (cap : Z) (st : list Z * Z * list Z * Z)
    : res ((list Z * Z * list Z * Z) + (list Z * Z * list Z * Z)) :=
  let '(s, past, out, total) := st in
  match s with
  | [] => Ok (inr st)
  | c :: s' =>
      if (32 <? schar c) && (schar c <? 97) then
        let len := Z.land (schar c - 32) 63 in
        let total := total + len in
        let '(len, total) := if cap <? total then (len - (total - cap), cap) else (len, total) in
        '(s, out) ← uu_line 22 cap len s' out;
        '(s, past) ← uu_eol s;
        Ok (inl (s, past, out, total))
      else Ok (inr st)
  end.

(** The buffer is cut to [total], which is what has been written to it. *)
Definition unpack_u (s : list Z) : res (list Z * list Z * Z) :=
  let cap := zlen s * 3 / 4 in
  '(s, past, out, total) ← iter (S (length s)) (uu_step cap) (s, 0, [], 0);
  Ok (take (Z.to_nat total) out, s, past).

(** *** Quoted-printable text *)

Definition hex2num (c : Z) : Z :=
  if (48 <=? c) && (c <=? 57) then c - 48 else
  if (97 <=? c) && (c <=? 102) then c - 97 + 10 else
  if (65 <=? c) && (c <=? 70) then c - 65 + 10 else -1.

(** [break] leaves the loop where it is. *)
Fixpoint unqp (fuel : nat) (cap : Z) (s out : list Z) : res (list Z * list Z) :=
  match fuel with
  | O => Err NoFuel
  | S fuel =>
      match s with
      | [] => Ok (out, s)
      | c :: s1 =>
          if c =? 61 then
            match s1 with
            | [] => Ok (out, s1)
            | c1 :: s2 =>
                let s1 := if (c1 =? 13) && match s2 with c2 :: _ => c2 =? 10 | [] => false end then s2 else s1 in
                if negb (hd 0 s1 =? 10) then
                  let h := hex2num (hd 0 s1) in
                  if h =? -1 then Ok (out, s1) else
                  match tail s1 with
                  | [] => Ok (out, [])
                  | c2 :: s3 =>
                      let l := hex2num c2 in
                      if l =? -1 then Ok (out, c2 :: s3) else
                      out ← put cap out (Z.lor (Z.shiftl h 4) l);
                      unqp fuel cap s3 out
                  end
                else unqp fuel cap (tail s1) out
            end
          else out ← put cap out c; unqp fuel cap s1 out
      end
  end.

Definition unpack_M (s : list Z) : res (list Z * list Z) := unqp (S (length s)) (zlen s) s [].

(** ** [String#unpack] *)

Definition unpack_count (type : Z) (rest : Z) (p : list Z) : res (Z * bool * list Z) :=
  match p with
  | [] => Ok (1, false, p)
  | c :: p' =>
      if c =? 42 then Ok (rest, true, p') else
      if ISDIGIT c then '(len, p) ← read_count p; Ok (len, false, p) else
      Ok (if type =? 64 then 0 else 1, false, p)
  end.

(** The bytes from [s] on; a position outside of the string has none, and must not be
    read before its start. *)
Definition suffix (str : list Z) (s : Z) : res (list Z) :=
  if s <? 0 then Err OutOfBounds else Ok (drop (Z.to_nat s) str).

Definition one (m : res (value * Z)) : res (list value * Z) := '(v, s) ← m; Ok ([v], s).

Definition unpack_directive (block_p : bool) (type : Z) (natint : bool) (len : Z) (star : bool) (str : list Z) (s : Z)
    : res (list value * Z) :=
  if type =? 37 then Err (Raise ArgumentError) else
  if type =? 65 then one (unpack_A str s len) else
  if type =? 90 then one (unpack_Z str s len star) else
  if type =? 97 then one (unpack_a str s len) else
  if type =? 98 then one (unpack_b block_p star str s len) else
  if type =? 66 then one (unpack_B block_p star str s len) else
  if type =? 104 then one (unpack_h block_p star str s len) else
  if type =? 72 then one (unpack_H block_p star str s len) else
  (* c C s S i I l L n N v V *)
  if bool_decide (type ∈ [99; 67; 115; 83; 105; 73; 108; 76; 110; 78; 118; 86])
  then unpack_integer block_p type natint star str s len else
  if (type =? 113) || (type =? 81) then unpack_quad block_p type star str s len else
  (* f F e E D d g G, P p *)
  if bool_decide (type ∈ [102; 70; 101; 69; 68; 100; 103; 71; 80; 112]) then Err Unmodelled else
  if type =? 85 then unpack_U (Z.to_nat (Z.min len (zlen str - s))) str s else
  if type =? 117 then
    bs ← suffix str s; '(out, rest, past) ← unpack_u bs;
    Ok ([VStr out], if s <? zlen str then zlen str - zlen rest + past else s) else
  if type =? 109 then
    bs ← suffix str s; '(out, rest) ← unpack_m bs;
    Ok ([VStr out], if s <? zlen str then zlen str - zlen rest else s) else
  if type =? 77 then
    bs ← suffix str s; '(out, rest) ← unpack_M bs;
    Ok ([VStr out], if s <? zlen str then zlen str - zlen rest else s) else
  if type =? 64 then
    if zlen str <? len then Err (Raise ArgumentError) else Ok ([], len) else
  if type =? 88 then
    if s <? len then Err (Raise ArgumentError) else Ok ([], s - len) else
  if type =? 120 then
    if zlen str - s <? len then Err (Raise ArgumentError) else Ok ([], s + len) else
  if type =? 119 then unpack_w str s len else
  Ok ([], s).

Definition unpack_step (block_p : bool) (str : list Z) (st : list Z * Z * list value)
    : res ((list Z * Z * list value) + list value) :=
  let '(p, s, ary) := st in
  match p with
  | [] => Ok (inr ary)
  | type :: p =>
      if ISSPACE type then Ok (inl (p, s, ary)) else
      if type =? 35 then Ok (inl (skip_comment p, s, ary)) else
      '(natint, p) ← read_modifier type p;
      '(len, star, p) ← unpack_count type (zlen str - s) p;
      '(vs, s) ← unpack_directive block_p type natint len star str s;
      Ok (inl (p, s, ary ++ vs))
  end.

(** The values in the order they are pushed, or given to the block. *)
Definition pack_unpack (block_p : bool) (str fmt : list Z) : res (list value) :=
  iter (S (length fmt)) (unpack_step block_p str) (fmt, 0, []).

End unpack_model.
