(* ===== verification/PackSpec.v ===== *)
(** * pack.c: bytes, integers and fields

    What CoreFoundation promises of mutable data ([CFDataLaws]), the bytes of machine
    integers, and [codec]: a field of a template that appends bytes when it packs and reads
    them back when it unpacks, wherever they are in the string. *)

From Stdlib Require Import Btauto.
From S2P Require Import Prelude Util Big BigVal BigAdd BigMul BigBits Numeric NumericSpec Pack Unpack.

(** ** Mutable data *)

Class CFDataLaws (C : CFMutableData) : Prop := {
  cf_create : CFDataGetBytes CFDataCreateMutable = [];
  cf_append d bs : CFDataGetBytes (CFDataAppendBytes d bs) = CFDataGetBytes d ++ bs;
  cf_length d : CFDataGetLength d = zlen (CFDataGetBytes d);
  cf_truncate d n : 0 ≤ n ≤ zlen (CFDataGetBytes d) →
    CFDataGetBytes (CFDataSetLength d n) = take (Z.to_nat n) (CFDataGetBytes d)
}.

(** ** Bytes *)

Definition byte_ok (b : Z) : Prop := 0 ≤ b < 256.
Definition bytes_ok (bs : list Z) : Prop := Forall byte_ok bs.

Lemma byte_of_mod x : byte_of x = x mod 256.
Proof. unfold byte_of. change 255 with (Z.ones 8). by rewrite Z.land_ones by lia. Qed.
Lemma byte_of_ok x : byte_ok (byte_of x).
Proof. rewrite byte_of_mod. unfold byte_ok. pose proof (Z.mod_pos_bound x 256). lia. Qed.
Lemma byte_of_small x : byte_ok x → byte_of x = x.
Proof. intros H. rewrite byte_of_mod. by apply Z.mod_small. Qed.

Lemma land_mask x k m : 0 ≤ k → m = 2 ^ k - 1 → Z.land x m = x mod 2 ^ k.
Proof. intros Hk ->. rewrite <- Z.land_ones by done. by rewrite Z.ones_equiv. Qed.

Lemma le_bytes_ok k x : bytes_ok (le_bytes k x).
Proof. revert x. induction k; intros x; cbn [le_bytes]; [by constructor|]. constructor; [apply byte_of_ok|apply IHk]. Qed.
Lemma le_bytes_len k x : length (le_bytes k x) = k.
Proof. revert x. induction k; intros x; cbn [le_bytes length]; [done|]. by rewrite IHk. Qed.

Lemma le_value_range bs : bytes_ok bs → 0 ≤ le_value bs < 256 ^ zlen bs.
Proof.
  induction 1 as [|b bs Hb Hbs IH]; [by cbn|]. cbn [le_value]. rewrite zlen_cons.
  rewrite Z.pow_add_r by (pose proof (zlen_nonneg bs); lia). unfold byte_ok in Hb. lia.
Qed.

Lemma le_roundtrip k x : le_value (le_bytes k x) = x mod 2 ^ (8 * Z.of_nat k).
Proof.
  revert x. induction k as [|k IH]; intros x; cbn [le_bytes le_value]; [by rewrite Z.mod_1_r|].
  rewrite IH, byte_of_mod, Z.shiftr_div_pow2 by lia.
  replace (8 * Z.of_nat (S k)) with (8 + 8 * Z.of_nat k) by lia. rewrite Z.pow_add_r by lia. change (2 ^ 8) with 256.
  rewrite Z.rem_mul_r by lia. done.
Qed.

Lemma le_bytes_mod k x m : (x - m) mod 2 ^ (8 * Z.of_nat k) = 0 → le_bytes k x = le_bytes k m.
Proof.
  intros H.
  assert (∃ q, x = m + 2 ^ (8 * Z.of_nat k) * q) as [q ->].
  { exists ((x - m) / 2 ^ (8 * Z.of_nat k)). pose proof (Z.div_mod (x - m) (2 ^ (8 * Z.of_nat k))). lia. }
  clear H. revert m. induction k as [|k IH]; intros m; [done|]. cbn [le_bytes].
  replace (8 * Z.of_nat (S k)) with (8 + 8 * Z.of_nat k) by lia. rewrite Z.pow_add_r by lia. change (2 ^ 8) with 256.
  rewrite !byte_of_mod, !Z.shiftr_div_pow2 by lia. change (2 ^ 8) with 256.
  rewrite <- (IH (m / 256)). f_equal.
  - rewrite <- Z.mul_assoc, (Z.mul_comm 256). apply Z.mod_add. lia.
  - f_equal. rewrite <- Z.mul_assoc, (Z.mul_comm 256). apply Z.div_add. lia.
Qed.

(** ** Byte order *)

Lemma land_255 x i : 0 ≤ i → Z.land x (byte_mask i) = (x / 2 ^ (8 * i)) mod 256 * 2 ^ (8 * i).
Proof.
  intros Hi. unfold byte_mask. rewrite <- Z.shiftl_mul_pow2 by lia.
  change 256 with (2 ^ 8). rewrite <- Z.land_ones, <- Z.shiftr_div_pow2 by lia. apply Z.bits_inj'. intros n Hn.
  rewrite Z.land_spec. destruct (decide (n < 8 * i)).
  - rewrite !Z.shiftl_spec_low by lia. apply andb_false_r.
  - rewrite !Z.shiftl_spec by lia. rewrite Z.land_spec, Z.shiftr_spec by lia. by replace (n - 8 * i + 8 * i) with n by lia.
Qed.

Lemma le_value_lor b bs : byte_ok b → Z.lor (256 * le_value bs) b = le_value (b :: bs).
Proof. intros Hb. cbn [le_value]. rewrite (Z.mul_comm 256), (lor_add _ b 8) by (unfold byte_ok in *; lia). lia. Qed.

Lemma lor_shift8 a b : Z.lor (256 * a) (256 * b) = 256 * Z.lor a b.
Proof. rewrite !(Z.mul_comm 256), <- !(Z.shiftl_mul_pow2 _ 8) by lia. by rewrite Z.shiftl_lor. Qed.

Lemma swap16_le a b : byte_ok a → byte_ok b → swap16 (le_value [a; b]) = le_value [b; a].
Proof.
  unfold byte_ok. intros Ha Hb. unfold swap16. rewrite !(land_mask _ 8) by lia.
  rewrite Z.shiftl_mul_pow2, Z.shiftr_div_pow2 by lia. change (2 ^ 8) with 256. cbn [le_value].
  replace ((a + 256 * (b + 256 * 0)) mod 256) with a by (apply (Z.mod_unique _ _ b); lia).
  replace ((a + 256 * (b + 256 * 0)) / 256) with b by (apply (Z.div_unique _ _ _ a); lia).
  rewrite (Z.mod_small b) by lia. change (a * 256) with (a * 2 ^ 8). rewrite (lor_add a b 8) by lia. lia.
Qed.

Lemma le_value_byte bs i b : bytes_ok bs → zlookup bs i = Some b → le_value bs / 2 ^ (8 * i) mod 256 = b.
Proof.
  intros Hok. revert i. induction Hok as [|c cs Hc Hcs IH]; intros i Hi; [by unfold zlookup in Hi; destruct (0 <=? i)|].
  pose proof (zlookup_Some_range _ _ _ Hi) as Hr. rewrite zlookup_cons in Hi. unfold byte_ok in Hc. cbn [le_value].
  destruct (decide (i = 0)) as [->|].
  - injection Hi as ->. rewrite Z.mul_0_r, Z.div_1_r. symmetry. apply (Z.mod_unique _ _ (le_value cs)); lia.
  - rewrite <- (IH (i - 1) Hi). f_equal. replace (8 * i) with (8 + 8 * (i - 1)) by lia.
    rewrite Z.pow_add_r, <- Z.div_div by lia. change (2 ^ 8) with 256. f_equal. symmetry. apply (Z.div_unique _ _ _ c); lia.
Qed.

(** A byte moved up or down by whole bytes. *)
Lemma byte_up bs i j b : bytes_ok bs → zlookup bs i = Some b → 0 ≤ j →
  Z.shiftl (Z.land (le_value bs) (byte_mask i)) (8 * j) = b * 2 ^ (8 * (i + j)).
Proof.
  intros Hok Hi Hj. pose proof (zlookup_Some_range _ _ _ Hi). rewrite land_255, (le_value_byte _ _ _ Hok Hi) by lia.
  rewrite Z.shiftl_mul_pow2, <- Z.mul_assoc, <- Z.pow_add_r by lia. do 2 f_equal. lia.
Qed.
Lemma byte_down bs i j b : bytes_ok bs → zlookup bs i = Some b → 0 ≤ j ≤ i →
  Z.shiftr (Z.land (le_value bs) (byte_mask i)) (8 * j) = b * 2 ^ (8 * (i - j)).
Proof.
  intros Hok Hi Hj. pose proof (zlookup_Some_range _ _ _ Hi). rewrite land_255, (le_value_byte _ _ _ Hok Hi) by lia.
  rewrite Z.shiftr_div_pow2 by lia. replace (8 * i) with (8 * (i - j) + 8 * j) by lia.
  rewrite Z.pow_add_r, Z.mul_assoc, Z.div_mul by lia. done.
Qed.

Lemma byte_mask_vals : byte_mask 0 = 255 ∧ byte_mask 1 = 65280 ∧ byte_mask 2 = 16711680.
Proof. done. Qed.

(** The bytes of a number put together again in another order. *)
Lemma lor_bytes4 a b c d : byte_ok a → byte_ok b → byte_ok c → byte_ok d →
  Z.lor (Z.lor (Z.lor (a * 2 ^ 24) d) (b * 2 ^ 16)) (c * 2 ^ 8) = le_value [d; c; b; a].
Proof.
  intros Ha Hb Hc Hd. rewrite <- (le_value_lor d), <- (le_value_lor c), <- (le_value_lor b), <- (le_value_lor a) by done.
  cbn [le_value]. rewrite Z.mul_0_r, Z.lor_0_l, <- !lor_shift8.
  replace (a * 2 ^ 24) with (256 * (256 * (256 * a))) by lia. replace (b * 2 ^ 16) with (256 * (256 * b)) by lia.
  replace (c * 2 ^ 8) with (256 * c) by lia. apply Z.bits_inj'. intros n Hn. rewrite !Z.lor_spec. btauto.
Qed.

Lemma swap32_le a b c d : byte_ok a → byte_ok b → byte_ok c → byte_ok d →
  swap32 (le_value [a; b; c; d]) = le_value [d; c; b; a].
Proof.
  intros Ha Hb Hc Hd. assert (bytes_ok [a; b; c; d]) as Hok by (unfold bytes_ok; rewrite !Forall_cons; naive_solver).
  rewrite <- (lor_bytes4 a b c d) by done. unfold swap32. destruct byte_mask_vals as (E0 & E1 & E2). f_equal; [f_equal; [f_equal|]|].
  - rewrite <- E0. exact (byte_up _ 0 3 a Hok eq_refl ltac:(lia)).
  - rewrite (land_mask _ 8), Z.shiftr_div_pow2 by lia. exact (le_value_byte _ 3 d Hok eq_refl).
  - rewrite <- E1. exact (byte_up _ 1 1 b Hok eq_refl ltac:(lia)).
  - rewrite <- E2. exact (byte_down _ 2 1 c Hok eq_refl ltac:(lia)).
Qed.

Lemma swapl_upper a b c d : byte_ok a → byte_ok b → byte_ok c → byte_ok d →
  swapl (le_value (replicate 4 0 ++ [a; b; c; d])) = le_value [d; c; b; a].
Proof.
  intros Ha Hb Hc Hd. assert (bytes_ok [0; 0; 0; 0; a; b; c; d]) as Hok.
  { assert (byte_ok 0) by (unfold byte_ok; lia). unfold bytes_ok. rewrite !Forall_cons. naive_solver. }
  change (replicate 4 0 ++ [a; b; c; d]) with [0; 0; 0; 0; a; b; c; d]. unfold swapl.
  assert (∀ i j, 0 ≤ i < 4 → 0 ≤ j → Z.shiftl (Z.land (le_value [0; 0; 0; 0; a; b; c; d]) (byte_mask i)) (8 * j) = 0) as Hz.
  { intros i j Hi Hj. rewrite (byte_up _ i j 0 Hok); [lia| |done].
    assert (i = 0 ∨ i = 1 ∨ i = 2 ∨ i = 3) as [->|[->|[->| ->]]] by lia; done. }
  pose proof (Hz 0 7 ltac:(lia) ltac:(lia)) as Z0. pose proof (Hz 1 5 ltac:(lia) ltac:(lia)) as Z1.
  pose proof (Hz 2 3 ltac:(lia) ltac:(lia)) as Z2. pose proof (Hz 3 1 ltac:(lia) ltac:(lia)) as Z3.
  pose proof (byte_down _ 7 7 d Hok eq_refl ltac:(lia)) as D7. pose proof (byte_down _ 6 5 c Hok eq_refl ltac:(lia)) as D6.
  pose proof (byte_down _ 5 3 b Hok eq_refl ltac:(lia)) as D5. pose proof (byte_down _ 4 1 a Hok eq_refl ltac:(lia)) as D4.
  change (8 * 7) with 56 in *. change (8 * 5) with 40 in *. change (8 * 3) with 24 in *. change (8 * 1) with 8 in *.
  rewrite Z0, Z1, Z2, Z3, D7, D6, D5, D4. rewrite !Z.lor_0_r, Z.lor_0_l.
  change (8 * (7 - 7)) with 0. change (8 * (6 - 5)) with 8. change (8 * (5 - 3)) with 16. change (8 * (4 - 1)) with 24.
  rewrite Z.pow_0_r, Z.mul_1_r. replace (Z.lor (Z.lor (Z.lor d (c * 2 ^ 8)) (b * 2 ^ 16)) (a * 2 ^ 24))
    with (Z.lor (Z.lor (Z.lor (a * 2 ^ 24) d) (b * 2 ^ 16)) (c * 2 ^ 8))
    by (apply Z.bits_inj'; intros n Hn; rewrite !Z.lor_spec; btauto).
  rewrite lor_bytes4 by done. apply u64_small. pose proof (le_value_range [d; c; b; a] ltac:(unfold bytes_ok; rewrite !Forall_cons; naive_solver)) as Hr.
  change (256 ^ zlen [d; c; b; a]) with (2 ^ 32) in Hr. lia.
Qed.

Lemma EXTEND32_spec x : 0 ≤ x < 2 ^ 32 → EXTEND32 false x = s32 x.
Proof.
  intros Hx. unfold EXTEND32. change (Z.lnot (Z.shiftl (-1) 31)) with (Z.ones 31).
  assert (∀ y, Z.lxor y (Z.ones 31) = 2 ^ 31 * (y / 2 ^ 31) + (2 ^ 31 - 1 - y mod 2 ^ 31)) as Hx31.
  { intros y. set (h := y / 2 ^ 31). set (l := y mod 2 ^ 31). assert (0 ≤ l < 2 ^ 31) by (apply Z.mod_pos_bound; lia).
    assert (Z.land (Z.lnot l) (Z.ones 31) = 2 ^ 31 - 1 - l) as El.
    { rewrite Z.land_ones by lia. unfold Z.lnot. symmetry. apply (Z.mod_unique _ _ (-1)); lia. }
    rewrite <- El, (Z.mul_comm (2 ^ 31)), <- (lor_add h _ 31), <- Z.shiftl_mul_pow2 by (rewrite ?El; lia).
    apply Z.bits_inj'. intros n Hn. rewrite Z.lxor_spec, Z.lor_spec, Z.land_spec, Z.lnot_spec by lia.
    unfold l, h. rewrite <- Z.land_ones, <- Z.shiftr_div_pow2 by lia. rewrite Z.land_spec.
    destruct (decide (n < 31)).
    - rewrite Z.ones_spec_low, Z.shiftl_spec_low by lia. btauto.
    - rewrite Z.ones_spec_high, Z.shiftl_spec, Z.shiftr_spec by lia. replace (n - 31 + 31) with n by lia. btauto. }
  rewrite Hx31. unfold s32. destruct (decide (x < 2 ^ 31)).
  - rewrite Z.div_small, (Z.mod_small (2 ^ 31 - 1 - x)), (Z.mod_small (x + 2 ^ 31)) by lia. lia.
  - replace ((2 ^ 31 - 1 - x) / 2 ^ 31) with (-1) by (apply (Z.div_unique _ _ _ (2 ^ 32 - 1 - x)); lia).
    replace ((2 ^ 31 - 1 - x) mod 2 ^ 31) with (2 ^ 32 - 1 - x) by (apply (Z.mod_unique _ _ (-1)); lia).
    replace ((x + 2 ^ 31) mod 2 ^ 32) with (x - 2 ^ 31) by (apply (Z.mod_unique _ _ 1); lia). lia.
Qed.
