(* ===== verification/PackField.v ===== *)
(** * pack.c: templates

    A template is the text of its fields.  A field is a codec for some values if
    [pack] turns them into bytes that [unpack] reads back; the codecs of a template
    compose. *)

From S2P Require Import Prelude Util Big Numeric Pack Unpack PackSpec.

Record field := mkField { ftype : Z; fnat : bool; fcount : list Z }.

Definition field_text (f : field) : list Z :=
  ftype f :: (if fnat f then [95] else []) ++ fcount f.
Definition template (fs : list field) : list Z := fs ≫= field_text.

(** The count: a numeral, or one. *)
Definition flen (f : field) : Z := match fcount f with [] => 1 | cs => numeral 10 cs end.

(** A letter that may start a field after a count. *)
Definition letter (c : Z) : bool := ISALPHA c && negb (c =? 120) && negb (c =? 88).

Record field_ok (f : field) : Prop := {
  fo_type : letter (ftype f) = true;
  fo_nat : fnat f = true → strchr natstr (ftype f) = true;
  fo_count : digits_ok 10 (fcount f);
  fo_len : flen f < 2 ^ 63
}.

(** What follows a field: nothing, or the letter of the next one. *)
Definition rest_ok (r : list Z) : Prop :=
  cstr_ok r ∧ match r with c :: _ => letter c = true | [] => True end.

Lemma digit_char c : is_digit 10 c = true → 48 ≤ c ≤ 57.
Proof.
  unfold is_digit, digit_val, ISDIGIT, ISLOWER, ISUPPER. rewrite andb_true_iff, Z.leb_le, Z.ltb_lt. cmp_spec; cbn; lia.
Qed.

Lemma letter_spec c : letter c = true →
  0 < c < 256 ∧ ISSPACE c = false ∧ is_digit 10 c = false ∧ ISDIGIT c = false ∧
  c ≠ 35 ∧ c ≠ 42 ∧ c ≠ 64 ∧ c ≠ 95 ∧ c ≠ 33 ∧ c ≠ 120 ∧ c ≠ 88.
Proof.
  unfold letter, ISALPHA, ISLOWER, ISUPPER. intros H.
  rewrite !andb_true_iff, orb_true_iff, !andb_true_iff, !negb_true_iff, !Z.leb_le, !Z.eqb_neq in H.
  split_and!; try lia.
  - unfold ISSPACE. cmp_spec; cbn; lia || done.
  - destruct (is_digit 10 c) eqn:E; [apply digit_char in E; lia|done].
  - unfold ISDIGIT. cmp_spec; cbn; lia || done.
Qed.

Lemma digits_cstr cs : digits_ok 10 cs → cstr_ok cs.
Proof. intros H. eapply Forall_impl; [exact H|]. intros c Hc%digit_char. lia. Qed.

Lemma template_ok fs : Forall field_ok fs → rest_ok (template fs).
Proof.
  induction 1 as [|f fs Hf Hfs [IH1 IH2]]; [by split; [constructor|]|]. unfold template. cbn [mbind list_bind].
  change (list_bind _ _ field_text fs) with (template fs). destruct (letter_spec _ (fo_type f Hf)) as (Hr & _).
  unfold field_text. split; [|cbn; apply fo_type, Hf]. cbn [app]. constructor; [done|]. apply Forall_app. split; [|done].
  apply Forall_app. split; [|apply digits_cstr, fo_count, Hf]. destruct (fnat f); repeat constructor; lia.
Qed.

Lemma flen_nonneg f : field_ok f → 0 ≤ flen f.
Proof.
  intros Hf. unfold flen. destruct (fcount f) eqn:E; [lia|]. rewrite <- E. by apply numeral_bounds, fo_count.
Qed.

(** ** Reading the modifier and the count *)

Lemma read_modifier_field f r : field_ok f → rest_ok r →
  read_modifier (ftype f) ((if fnat f then [95] else []) ++ fcount f ++ r) = Ok (fnat f, fcount f ++ r).
Proof.
  intros Hf [_ Hr]. unfold read_modifier. destruct (fnat f) eqn:E.
  - cbn [app peek hd Z.eqb Pos.eqb orb tail]. by rewrite (fo_nat f Hf E).
  - cbn [app]. assert (peek (fcount f ++ r) ≠ 95 ∧ peek (fcount f ++ r) ≠ 33) as [H1 H2].
    { pose proof (fo_count f Hf) as Hc. destruct Hc as [|c cs Hc]; cbn.
      - destruct r as [|c r]; cbn; [done|]. apply letter_spec in Hr. tauto.
      - apply digit_char in Hc. lia. }
    by rewrite (proj2 (Z.eqb_neq _ _) H1), (proj2 (Z.eqb_neq _ _) H2).
Qed.

Lemma read_count_field p r : digits_ok 10 p → p ≠ [] → rest_ok r → numeral 10 p < 2 ^ 63 →
  read_count (p ++ r) = Ok (numeral 10 p, r).
Proof.
  intros Hp Hne [Hr1 Hr2] Hl. unfold read_count. rewrite ruby_strtoul_spec; [|lia|done|done|done|].
  2: { destruct r; [done|]. apply letter_spec in Hr2. tauto. }
  pose proof (numeral_bounds 10 p ltac:(lia) Hp). rewrite decide_True by lia. cbn [mbind res_bind default].
  by rewrite s64_small by lia.
Qed.

Lemma pack_count_field f items r : field_ok f → rest_ok r → pack_count (ftype f) items (fcount f ++ r) = Ok (flen f, false, r).
Proof.
  intros Hf Hr. pose proof (fo_count f Hf) as Hc. pose proof (fo_len f Hf) as Hl. unfold pack_count, flen in *.
  destruct (fcount f) as [|c cs] eqn:E.
  - cbn [app]. assert (peek r ≠ 42 ∧ ISDIGIT (peek r) = false) as [H1 H2].
    { destruct r as [|c r]; [done|]. destruct Hr as [_ Hr]. apply letter_spec in Hr. cbn. tauto. }
    by rewrite (proj2 (Z.eqb_neq _ _) H1), H2.
  - assert (48 ≤ c ≤ 57) by (apply digit_char; by inversion Hc). cbn [app peek hd].
    rewrite (proj2 (Z.eqb_neq c 42)) by lia. unfold ISDIGIT. rewrite (proj2 (Z.leb_le 48 c)), (proj2 (Z.leb_le c 57)) by lia.
    cbn [andb]. change (c :: cs ++ r) with ((c :: cs) ++ r). by rewrite read_count_field.
Qed.

Lemma unpack_count_field f n r : field_ok f → rest_ok r → unpack_count (ftype f) n (fcount f ++ r) = Ok (flen f, false, r).
Proof.
  intros Hf Hr. pose proof (fo_count f Hf) as Hc. pose proof (fo_len f Hf) as Hl. unfold unpack_count, flen in *.
  destruct (fcount f) as [|c cs] eqn:E; cbn [app].
  - destruct r as [|c r]; [done|]. destruct Hr as [_ Hr]. apply letter_spec in Hr as (_ & _ & _ & Hd & _ & H42 & _).
    rewrite (proj2 (Z.eqb_neq _ _) H42), Hd. destruct (letter_spec _ (fo_type f Hf)) as (_ & _ & _ & _ & _ & _ & H64 & _).
    by rewrite (proj2 (Z.eqb_neq _ _) H64).
  - assert (48 ≤ c ≤ 57) by (apply digit_char; by inversion Hc).
    rewrite (proj2 (Z.eqb_neq c 42)) by lia. unfold ISDIGIT. rewrite (proj2 (Z.leb_le 48 c)), (proj2 (Z.leb_le c 57)) by lia.
    cbn [andb]. change (c :: cs ++ r) with ((c :: cs) ++ r). by rewrite read_count_field.
Qed.

(** ** Codecs *)

Section codecs.
Context `{J : Junk} `{BY : Beyond} `{CF : CFMutableData} {L : CFDataLaws CF}.

Definition appends (op : list value → cfdata → res (list value * cfdata)) (vs : list value) (bs : list Z) : Prop :=
  ∀ items data, returns (op (vs ++ items) data) (λ r, r.1 = items ∧ CFDataGetBytes r.2 = CFDataGetBytes data ++ bs).

Definition reads (op : list Z → Z → res (list value * Z)) (bs : list Z) (ws : list value) : Prop :=
  ∀ pre post, zlen (pre ++ bs ++ post) < 2 ^ 63 → op (pre ++ bs ++ post) (zlen pre) = Ok (ws, zlen pre + zlen bs).

(** The field packs [vs] into [bs], and unpacks [ws] from [bs], with a block or without. *)
Definition codec (block_p : bool) (f : field) (vs : list value) (bs : list Z) (ws : list value) : Prop :=
  appends (pack_directive (ftype f) (fnat f) (flen f) false) vs bs ∧
  reads (unpack_directive block_p (ftype f) (fnat f) (flen f) false) bs ws.

Lemma pack_step_field f r items data : field_ok f → rest_ok r →
  pack_step (field_text f ++ r, items, data) =
    '(items, data) ← pack_directive (ftype f) (fnat f) (flen f) false items data; Ok (inl (r, items, data)).
Proof.
  intros Hf Hr. unfold field_text. cbn [app]. unfold pack_step.
  destruct (letter_spec _ (fo_type f Hf)) as (_ & Hs & _ & _ & H35 & _). rewrite Hs, (proj2 (Z.eqb_neq _ _) H35).
  rewrite <- app_assoc, read_modifier_field by done. cbn [mbind res_bind]. by rewrite pack_count_field.
Qed.

Lemma unpack_step_field f r block_p str s ary : field_ok f → rest_ok r →
  unpack_step block_p str (field_text f ++ r, s, ary) =
    '(vs, s) ← unpack_directive block_p (ftype f) (fnat f) (flen f) false str s; Ok (inl (r, s, ary ++ vs)).
Proof.
  intros Hf Hr. unfold field_text. cbn [app]. unfold unpack_step.
  destruct (letter_spec _ (fo_type f Hf)) as (_ & Hs & _ & _ & H35 & _). rewrite Hs, (proj2 (Z.eqb_neq _ _) H35).
  rewrite <- app_assoc, read_modifier_field by done. cbn [mbind res_bind]. by rewrite unpack_count_field.
Qed.

(** A template with what its fields are given, write and read back. *)
Record coded := mkCoded { cfield : field; cvs : list value; cbs : list Z; cws : list value }.
Definition coded_ok (block_p : bool) (c : coded) : Prop := field_ok (cfield c) ∧ codec block_p (cfield c) (cvs c) (cbs c) (cws c).

Lemma template_cons c cs : template (cfield <$> c :: cs) = field_text (cfield c) ++ template (cfield <$> cs).
Proof. done. Qed.

Lemma coded_rest block_p cs : Forall (coded_ok block_p) cs → rest_ok (template (cfield <$> cs)).
Proof. intros H. apply template_ok, Forall_fmap. eapply Forall_impl; [exact H|]. by intros ? []. Qed.

Lemma pack_loop block_p cs items data fuel : Forall (coded_ok block_p) cs → (length (template (cfield <$> cs)) < fuel)%nat →
  returns (iter fuel pack_step (template (cfield <$> cs), (cs ≫= cvs) ++ items, data))
    (λ d, CFDataGetBytes d = CFDataGetBytes data ++ (cs ≫= cbs)).
Proof.
  intros H. revert data fuel. induction H as [|c cs [Hf [Hc _]] Hcs IH]; intros data fuel Hfuel.
  - destruct fuel; [cbn in Hfuel; lia|]. cbn. apply returns_ret. by rewrite app_nil_r.
  - destruct fuel; [lia|]. rewrite template_cons in *. cbn [iter].
    rewrite pack_step_field by (done || by eapply coded_rest).
    change ((c :: cs) ≫= cvs) with (cvs c ++ (cs ≫= cvs)). rewrite <- app_assoc.
    destruct (Hc ((cs ≫= cvs) ++ items) data) as ([items' data'] & -> & Hi & Hd). cbn [fst snd] in *. subst items'.
    cbn [mbind res_bind]. eapply returns_mono; [apply (IH data')|].
    + rewrite length_app in Hfuel. cbn in Hfuel. lia.
    + intros d ->. rewrite Hd, <- app_assoc. done.
Qed.

Lemma unpack_loop cs block_p pre ary fuel :
  Forall (coded_ok block_p) cs → zlen (pre ++ (cs ≫= cbs)) < 2 ^ 63 → (length (template (cfield <$> cs)) < fuel)%nat →
  iter fuel (unpack_step block_p (pre ++ (cs ≫= cbs))) (template (cfield <$> cs), zlen pre, ary) = Ok (ary ++ (cs ≫= cws)).
Proof.
  intros H. revert pre ary fuel. induction H as [|c cs [Hf [_ Hc]] Hcs IH]; intros pre ary fuel Hz Hfuel.
  - destruct fuel; [cbn in Hfuel; lia|]. cbn. by rewrite app_nil_r.
  - destruct fuel; [lia|]. rewrite template_cons in *. cbn [iter].
    rewrite unpack_step_field by (done || by eapply coded_rest).
    change ((c :: cs) ≫= cbs) with (cbs c ++ (cs ≫= cbs)). rewrite Hc by done. cbn [mbind res_bind].
    rewrite <- zlen_app, app_assoc, IH; [by rewrite <- app_assoc|by rewrite <- app_assoc|]. rewrite length_app in Hfuel. cbn in Hfuel. lia.
Qed.

(** Packing with a template and unpacking with the same. *)
Lemma template_roundtrip block_p cs : Forall (coded_ok block_p) cs → zlen (cs ≫= cbs) < 2 ^ 63 →
  returns (pack_pack (cs ≫= cvs) (template (cfield <$> cs))) (λ d,
    CFDataGetBytes d = (cs ≫= cbs) ∧
    pack_unpack block_p (CFDataGetBytes d) (template (cfield <$> cs)) = Ok (cs ≫= cws)).
Proof.
  intros H Hz. unfold pack_pack. rewrite <- (app_nil_r (cs ≫= cvs)). eapply returns_mono.
  { apply (pack_loop block_p cs [] CFDataCreateMutable _ H). lia. }
  intros d ->. rewrite cf_create. cbn [app]. split; [done|].
  apply (unpack_loop cs block_p [] [] (S _) H Hz). lia.
Qed.

(** ** Reading what was written *)

Lemma load_bytes_app pre bs post : load_bytes (pre ++ bs ++ post) (zlen pre) (length bs) = Ok bs.
Proof.
  revert pre. induction bs as [|b bs IH]; intros pre; [done|]. cbn [length load_bytes]. unfold char_at.
  rewrite <- (app_assoc pre). rewrite (proj2 (aload_ok _ (zlen pre) b)).
  2: { rewrite (zlookup_app_r pre) by lia. by rewrite Z.sub_diag. }
  cbn [mbind res_bind]. replace (zlen pre + 1) with (zlen (pre ++ [b])) by (rewrite zlen_app; done).
  replace (pre ++ (b :: bs) ++ post) with ((pre ++ [b]) ++ bs ++ post) by (by rewrite <- app_assoc). by rewrite IH.
Qed.

(** The conversions of the numeric directives: item by item. *)
Lemma pack_each_appends conv vs bss :
  Forall2 (λ v bs, conv v = Ok bs) vs bss → appends (pack_each (length vs) conv) vs (concat bss).
Proof.
  induction 1 as [|v bs vs bss Hv Hvs IH]; intros items data; cbn [length pack_each app concat].
  - apply returns_ret. by rewrite app_nil_r.
  - cbn [NEXTFROM mbind res_bind]. rewrite Hv. cbn [mbind res_bind]. eapply returns_mono; [apply IH|].
    intros [it d] [-> E]. cbn [fst snd] in *. split; [done|]. by rewrite E, cf_append, <- app_assoc.
Qed.

Lemma unpack_each_reads sz conv bss ns :
  Forall2 (λ bs n, length bs = sz ∧ conv bs = Ok n) bss ns →
  reads (unpack_each (length ns) sz conv) (concat bss) (VInt <$> ns).
Proof.
  induction 1 as [|bs n bss ns [Hl Hc] Hns IH]; intros pre post Hz; cbn [length unpack_each concat] in *.
  - by rewrite Z.add_0_r.
  - rewrite <- app_assoc in *. rewrite <- Hl, load_bytes_app. cbn [mbind res_bind]. rewrite Hc. cbn [mbind res_bind].
    change (Z.of_nat (length bs)) with (zlen bs). rewrite <- zlen_app, app_assoc, Hl, IH by (by rewrite <- app_assoc). cbn [mbind res_bind].
    rewrite !zlen_app. by rewrite Z.add_assoc.
Qed.

End codecs.
