(* ===== verification/PackInt.v ===== *)
(** * pack.c: the integer directives *)

From S2P Require Import Prelude Util Big BigVal BigAdd BigMul BigBits Numeric NumericSpec Pack Unpack PackSpec PackField.

Section pack_int.
Context `{J : Junk}.

Lemma for_down_single {S} (body : Z → S → res S) s : for_down 0 0 body s = body 0 s.
Proof. unfold for_down. change (Z.to_nat (0 - 0 + 1)) with 1%nat. cbn [for_down_n]. by destruct (body 0 s). Qed.
Lemma for_range_single {S} (body : Z → S → res S) s : for_range 0 1 body s = body 0 s.
Proof. unfold for_range. change (Z.to_nat (1 - 0)) with 1%nat. cbn [for_up]. by destruct (body 0 s). Qed.

(** The lowest digit of a bignum, and what it says of the value. *)
Lemma canon_low b : canon (Bignum b) →
  ∃ d ds, digits b = d :: ds ∧ 0 ≤ d < 2 ^ 64 ∧ u64 (bigval b) = u64 (if sign b then d else - d).
Proof.
  intros Hb. pose proof (canon_wf b Hb) as [[Hok Hl] _ _]. destruct (digits b) as [|d ds] eqn:E.
  { exfalso. apply canon_bignum in Hb. apply Hb. unfold bigval. rewrite E. destruct (sign b); cbn; lia. }
  exists d, ds. apply ok_cons in Hok as [Hd Hds]. rewrite BIGRAD_val in Hd. split_and!; [done|lia|lia|].
  unfold bigval, u64. rewrite E. cbn [bval]. rewrite BIGRAD_val. destruct (sign b).
  - rewrite (Z.mul_comm (2 ^ 64)). apply Z.mod_add. lia.
  - replace (- (d + 2 ^ 64 * bval ds)) with (- d + - bval ds * 2 ^ 64) by lia. apply Z.mod_add. lia.
Qed.

Lemma big2ulong_low b c d ds : digits b = d :: ds → 0 ≤ d < 2 ^ 64 → c = false → big2ulong b c = Ok d.
Proof.
  intros E Hd ->. unfold big2ulong, RBIGNUM_LEN, DIGSPERLONG. rewrite E, zlen_cons. pose proof (zlen_nonneg ds).
  assert ((if 1 <? 1 + zlen ds then Ok 1 else Ok (1 + zlen ds)) = Ok 1) as ->.
  { destruct (Z.ltb_spec 1 (1 + zlen ds)); [done|]. f_equal. lia. }
  cbn [mbind res_bind]. change (1 - 1) with 0. rewrite for_down_single. change (aload (d :: ds) 0) with (@Ok Z d). cbn [mbind res_bind].
  assert (BIGUP 0 = 0) as -> by done. rewrite Z.add_0_l, u128_small, u64_small by lia. done.
Qed.

Lemma num2i32_spec x : canon x → num2i32 (VInt x) = Ok (u64 (nval x)).
Proof.
  intros Hx. unfold num2i32. cbn [rb_to_int mbind res_bind]. destruct x as [n|b]; [done|].
  destruct (canon_low b Hx) as (d & ds & E & Hd & Hv). cbn [nval]. rewrite Hv. unfold rb_big2ulong_pack.
  rewrite (big2ulong_low b false d ds) by done. cbn [mbind res_bind]. destruct (sign b); [|done]. by rewrite u64_small.
Qed.

Lemma le_bytes_u64 k x : (k ≤ 8)%nat → le_bytes k (u64 x) = le_bytes k x.
Proof.
  intros Hk. apply le_bytes_mod. unfold u64. rewrite Zminus_mod.
  replace ((x mod 2 ^ 64) mod 2 ^ (8 * Z.of_nat k)) with (x mod 2 ^ (8 * Z.of_nat k)); [by rewrite Z.sub_diag|].
  symmetry. apply Z.mod_mod_divide. exists (2 ^ (64 - 8 * Z.of_nat k)). rewrite <- Z.pow_add_r by lia. f_equal. lia.
Qed.

Lemma s64_eqm x : (s64 x - x) mod 2 ^ (8 * Z.of_nat 8) = 0.
Proof. exact (s64_mod x). Qed.

Lemma rb_quad_pack_spec x : canon x → rb_quad_pack (VInt x) = Ok (le_bytes 8 (nval x)).
Proof.
  intros Hx. unfold rb_quad_pack. cbn [rb_to_int mbind res_bind]. destruct x as [n|b]; [done|].
  destruct (canon_low b Hx) as (d & ds & E & Hd & Hv). cbn [nval].
  unfold RBIGNUM_LEN, DIGSPERLL. rewrite E, zlen_cons. pose proof (zlen_nonneg ds).
  assert ((if 1 <? 1 + zlen ds then 1 else 1 + zlen ds) = 1) as -> by (destruct (Z.ltb_spec 1 (1 + zlen ds)); lia).
  change (1 - 1) with 0. rewrite for_down_single. change (aload (d :: ds) 0) with (@Ok Z d). cbn [mbind res_bind].
  assert (BIGUP (u128 0) = 0) as -> by done. rewrite Z.add_0_l.
  f_equal. rewrite <- (le_bytes_u64 8 (bigval b)), Hv, le_bytes_u64 by lia.
  assert (∀ y, le_bytes 8 (s64 y) = le_bytes 8 y) as Hs by (intros y; apply le_bytes_mod, s64_eqm).
  destruct (sign b); [apply Hs|]. rewrite Hs. apply le_bytes_mod. rewrite <- (s64_mod d). 
  change (8 * Z.of_nat 8) with 64. replace (- s64 d - - d) with (- (s64 d - d)) by lia.
  rewrite Z.mod_opp_l_z; [by rewrite s64_mod|lia|apply s64_mod].
Qed.

(** Reading a quad does not depend on the uninitialised half of its variable. *)
Lemma quad_big neg q v : v = BIGLO q → 0 < v ∨ neg = false →
  computes ('(_, ds) ← for_range 0 DIGSPERLL (λ i '(q, ds), ds ← astore ds i (BIGLO q); Ok (BIGDN q, ds)) (q, fresh DIGSPERLL);
    bignorm (mkBig (negb neg) (take (quad_len (Z.to_nat DIGSPERLL) ds) ds))) (if neg : bool then - v else v).
Proof.
  intros Hv Hn. unfold DIGSPERLL. rewrite for_range_single, astore_ok by (rewrite zlen_fresh; lia). cbn [mbind res_bind].
  rewrite <- Hv. assert (<[Z.to_nat 0 := v]> (fresh 1) = [v]) as -> by done.
  assert (0 ≤ v < BIGRAD) as Hr by (subst v; apply BIGLO_range).
  change (quad_len (Z.to_nat 1) [v]) with (if v =? 0 then 0%nat else 1%nat).
  destruct (Z.eqb_spec v 0) as [->|].
  - destruct neg; [lia|]. apply computes_ex. by exists (Fixnum 0).
  - destruct (norm_spec (mkBig (negb neg) (take 1 [v]))) as (n' & E & Hnv & Hc).
    { split; [|done]. apply ok_cons. split; [lia|]. intros i. unfold dg, zlookup. destruct (0 <=? i); done. }
    apply computes_ex. exists n'. split_and!; [done| |done]. rewrite Hnv. unfold bigval. cbn. destruct neg; cbn; lia.
Qed.

Lemma quad_low bs : bytes_ok bs → length bs = 8%nat → 0 ≤ le_value bs < 2 ^ 64.
Proof. intros Hok Hl. pose proof (le_value_range bs Hok) as H. unfold zlen in H. rewrite Hl in H. exact H. Qed.

Lemma rb_quad_unpack_spec bs : bytes_ok bs → length bs = 8%nat →
  computes (rb_quad_unpack bs true) (s64 (le_value bs)) ∧ computes (rb_quad_unpack bs false) (le_value bs).
Proof.
  intros Hok Hl. pose proof (quad_low bs Hok Hl) as Hr. unfold rb_quad_unpack. rewrite take_ge by lia.
  set (q := le_value bs + 2 ^ 64 * junk 0). pose proof (junk_range 0) as Hj.
  assert (BIGLO q = le_value bs) as Hlo.
  { rewrite BIGLO_mod, BIGRAD_val. unfold q. symmetry. apply (Z.mod_unique _ _ (junk 0)); lia. }
  assert (s64 q = s64 (le_value bs)) as Hll.
  { unfold s64, q. f_equal. rewrite <- (Z.mod_add (le_value bs + 2 ^ 63) (junk 0) (2 ^ 64)) by lia. f_equal. lia. }
  rewrite Hll. pose proof (s64_range (le_value bs)) as Hs. split.
  - destruct (FIXABLE (s64 (le_value bs))) eqn:E.
    { apply FIXABLE_spec in E. by apply computes_fix. }
    assert (¬ (- 2 ^ 61 ≤ s64 (le_value bs) ≤ 2 ^ 61 - 1)) as Hn by (rewrite <- FIXABLE_spec; by rewrite E).
    destruct (Z.ltb_spec (s64 (le_value bs)) 0).
    + eapply computes_eq; [apply (quad_big true _ (- s64 (le_value bs)))|cbn; lia]; [|left; lia].
      rewrite BIGLO_mod, BIGRAD_val. unfold u128. rewrite Z.mod_mod_divide by (exists (2 ^ 64); lia).
      unfold s64 at 2. rewrite Zminus_mod, Z.mod_mod, <- Zminus_mod by lia.
      replace (- s64 (le_value bs) + 2 ^ 63 - 2 ^ 63) with (- s64 (le_value bs)) by lia. rewrite Z.mod_small; lia.
    + eapply computes_eq; [apply (quad_big false _ (le_value bs)); [done|by right]|]. cbn.
      unfold s64 in *. destruct (decide (le_value bs < 2 ^ 63)).
      * rewrite Z.mod_small; lia.
      * exfalso. replace ((le_value bs + 2 ^ 63) mod 2 ^ 64) with (le_value bs - 2 ^ 63) in * by (apply (Z.mod_unique _ _ 1); lia). lia.
  - destruct (POSFIXABLE q) eqn:E.
    + unfold POSFIXABLE in E. rewrite Z.ltb_lt in E. change (FIXNUM_MAX + 1) with (2 ^ 61) in E.
      assert (junk 0 = 0) as E0 by (unfold q in E; nia). unfold q. rewrite E0. eapply computes_eq; [apply computes_fix; lia|lia].
    + apply (quad_big false _ (le_value bs)); [done|by right].
Qed.

(** ** Byte order *)

Lemma le_bytes_value bs : bytes_ok bs → le_bytes (length bs) (le_value bs) = bs.
Proof.
  induction 1 as [|b bs Hb Hbs IH]; [done|]. unfold byte_ok in Hb. cbn [length le_bytes le_value].
  rewrite byte_of_mod, Z.shiftr_div_pow2 by lia. change (2 ^ 8) with 256. f_equal.
  - symmetry. apply (Z.mod_unique _ _ (le_value bs)); lia.
  - replace ((b + 256 * le_value bs) / 256) with (le_value bs); [done|]. apply (Z.div_unique _ _ _ b); lia.
Qed.

Lemma le_bytes2 x : ∃ a b, le_bytes 2 x = [a; b] ∧ byte_ok a ∧ byte_ok b ∧ le_value [a; b] = x mod 2 ^ 16.
Proof.
  eexists _, _. split_and!; [reflexivity|apply byte_of_ok|apply byte_of_ok|]. exact (le_roundtrip 2 x).
Qed.
Lemma le_bytes4 x : ∃ a b c d, le_bytes 4 x = [a; b; c; d] ∧ byte_ok a ∧ byte_ok b ∧ byte_ok c ∧ byte_ok d ∧
  le_value [a; b; c; d] = x mod 2 ^ 32.
Proof.
  eexists _, _, _, _. split_and!; [reflexivity|apply byte_of_ok|apply byte_of_ok|apply byte_of_ok|apply byte_of_ok|]. exact (le_roundtrip 4 x).
Qed.

Lemma swap32_low x : swap32 x = swap32 (x mod 2 ^ 32).
Proof.
  unfold swap32. rewrite <- Z.land_ones by lia. rewrite !Z.shiftr_land, <- !Z.land_assoc. done.
Qed.

(** ** The directives *)

Definition int_types : list Z := [99; 67; 115; 83; 105; 73; 108; 76; 113; 81; 110; 78; 118; 86].

Definition int_width (type : Z) (natint : bool) : nat :=
  if bool_decide (type ∈ [99; 67]) then 1 else
  if bool_decide (type ∈ [115; 83; 110; 118]) then 2 else
  if bool_decide (type ∈ [113; 81]) then 8 else
  if bool_decide (type ∈ [108; 76]) && natint then 8 else 4.
Definition int_signed (type : Z) : bool := bool_decide (type ∈ [99; 115; 105; 108; 113]).

(** The value that fits the width, equal modulo its power of two. *)
Definition int_wrap (type : Z) (natint : bool) (z : Z) : Z :=
  let m := 2 ^ (8 * Z.of_nat (int_width type natint)) in
  if int_signed type then (z + m / 2) mod m - m / 2 else z mod m.

Definition int_decode (type : Z) (natint : bool) : list Z → res num :=
  if bool_decide (type ∈ [113; 81]) then λ bs, rb_quad_unpack bs (type =? 113) else (integer_format type natint).2.

(** One integer: the bytes, and the number read from them. *)
Definition int_item (type : Z) (natint : bool) (x : num) : Prop :=
  ∃ bs, pack_integer type natint (VInt x) = Ok bs ∧ length bs = int_width type natint ∧
    computes (int_decode type natint bs) (int_wrap type natint (nval x)).

Lemma wrap_again z k n : 0 ≤ k → (z mod 2 ^ (8 * k) + n) mod 2 ^ (8 * k) = (z + n) mod 2 ^ (8 * k).
Proof. intros. by rewrite Zplus_mod_idemp_l. Qed.

Lemma wrap_bounds z k : 0 ≤ k → 0 ≤ z mod 2 ^ (8 * k) < 2 ^ (8 * k).
Proof. intros. apply Z.mod_pos_bound, Z.pow_pos_nonneg; lia. Qed.

(** The bytes as they are, and their value read in the width. *)
Lemma int_item_native type natint x k :
  canon x → (k ≤ 8)%nat → int_width type natint = k →
  pack_integer type natint (VInt x) = (n ← num2i32 (VInt x); Ok (le_bytes k n)) →
  computes (int_decode type natint (le_bytes k (nval x))) (int_wrap type natint (nval x)) →
  int_item type natint x.
Proof.
  intros Hx Hk Hw Hp Hd. exists (le_bytes k (nval x)). rewrite Hp, num2i32_spec, Hw by done. cbn [mbind res_bind].
  rewrite le_bytes_u64 by done. split_and!; [done|apply le_bytes_len|done].
Qed.

Lemma fix_item type natint k bs z :
  int_decode type natint bs = Ok (Fixnum z) → int_width type natint = k → (k < 8)%nat →
  z = (if int_signed type then (le_value bs + 2 ^ (8 * Z.of_nat k) / 2) mod 2 ^ (8 * Z.of_nat k) - 2 ^ (8 * Z.of_nat k) / 2
       else le_value bs mod 2 ^ (8 * Z.of_nat k)) →
  computes (int_decode type natint bs) (int_wrap type natint (le_value bs)).
Proof.
  intros -> Hw Hk ->. unfold int_wrap. rewrite Hw.
  assert (0 < 2 ^ (8 * Z.of_nat k) ≤ 2 ^ 56) by (split; [apply Z.pow_pos_nonneg; lia|apply Z.pow_le_mono_r; lia]).
  destruct (int_signed type).
  - apply computes_fix. pose proof (Z.mod_pos_bound (le_value bs + 2 ^ (8 * Z.of_nat k) / 2) (2 ^ (8 * Z.of_nat k))).
    pose proof (Z.div_pos (2 ^ (8 * Z.of_nat k)) 2). pose proof (Z.div_le_upper_bound (2 ^ (8 * Z.of_nat k)) 2 (2 ^ 56)). lia.
  - apply computes_fix. pose proof (Z.mod_pos_bound (le_value bs) (2 ^ (8 * Z.of_nat k))). lia.
Qed.

Lemma int_wrap_mod type natint k z : int_width type natint = k → int_wrap type natint (z mod 2 ^ (8 * Z.of_nat k)) = int_wrap type natint z.
Proof.
  intros <-. unfold int_wrap. destruct (int_signed type).
  - by rewrite Zplus_mod_idemp_l.
  - by rewrite Z.mod_mod by (apply Z.pow_nonzero; lia).
Qed.

Lemma int_item_c natint x : canon x → int_item 99 natint x ∧ int_item 67 natint x.
Proof.
  intros Hx. pose proof (le_roundtrip 1 (nval x)) as Hv. pose proof (Z.mod_pos_bound (nval x) 256 ltac:(lia)) as Hr.
  change (2 ^ (8 * Z.of_nat 1)) with 256 in Hv.
  split; (apply (int_item_native _ _ _ 1%nat); [done|lia|done|done|rewrite <- (int_wrap_mod _ _ 1%nat), <- le_roundtrip by done]).
  - eapply (fix_item _ _ 1%nat); [done|done|lia|]. change (int_signed 99) with true. cbn [Z.of_nat]. rewrite Hv.
    change (2 ^ (8 * Z.of_nat 1)) with 256. change (256 / 2) with 128. unfold schar. destruct (Z.ltb_spec (nval x mod 256) 128).
    + rewrite (Z.mod_small (_ + 128)) by lia. lia.
    + replace ((nval x mod 256 + 128) mod 256) with (nval x mod 256 - 128) by (apply (Z.mod_unique _ _ 1); lia). lia.
  - eapply (fix_item _ _ 1%nat); [done|done|lia|]. change (int_signed 67) with false. cbn [Z.of_nat]. rewrite Hv.
    change (2 ^ (8 * Z.of_nat 1)) with 256. by rewrite Z.mod_mod.
Qed.

Lemma int_item_s natint x : canon x → int_item 115 natint x ∧ int_item 83 natint x ∧ int_item 118 natint x.
Proof.
  intros Hx. pose proof (le_roundtrip 2 (nval x)) as Hv. pose proof (Z.mod_pos_bound (nval x) (2 ^ 16) ltac:(lia)) as Hr.
  change (2 ^ (8 * Z.of_nat 2)) with (2 ^ 16) in Hv.
  split_and!; (apply (int_item_native _ _ _ 2%nat); [done|lia|done|done|rewrite <- (int_wrap_mod _ _ 2%nat), <- le_roundtrip by done]).
  - by eapply (fix_item _ _ 2%nat); [done|done|lia|].
  - eapply (fix_item _ _ 2%nat); [done|done|lia|]. change (int_signed 83) with false. rewrite Hv.
    change (2 ^ (8 * Z.of_nat 2)) with (2 ^ 16). by rewrite Z.mod_mod.
  - eapply computes_eq; [apply uint2num_spec; rewrite Hv; lia|]. unfold int_wrap. change (int_signed 118) with false. rewrite Hv.
    change (2 ^ (8 * Z.of_nat (int_width 118 natint))) with (2 ^ 16). by rewrite Z.mod_mod.
Qed.

Lemma s32_wrap z : s32 z = (z + 2 ^ 32 / 2) mod 2 ^ 32 - 2 ^ 32 / 2.
Proof. done. Qed.
Lemma s64_wrap z : s64 z = (z + 2 ^ 64 / 2) mod 2 ^ 64 - 2 ^ 64 / 2.
Proof. done. Qed.

Lemma int_item_i natint x : canon x → int_item 105 natint x ∧ int_item 73 natint x ∧ int_item 86 natint x.
Proof.
  intros Hx. pose proof (le_roundtrip 4 (nval x)) as Hv. pose proof (Z.mod_pos_bound (nval x) (2 ^ 32) ltac:(lia)) as Hr.
  change (2 ^ (8 * Z.of_nat 4)) with (2 ^ 32) in Hv.
  split_and!; (apply (int_item_native _ _ _ 4%nat); [done|lia|done|done|rewrite <- (int_wrap_mod _ _ 4%nat), <- le_roundtrip by done]).
  - eapply computes_eq; [apply int2num_spec; pose proof (s32_range (le_value (le_bytes 4 (nval x)))); unfold LONG_MIN, LONG_MAX; lia|done].
  - eapply computes_eq; [apply uint2num_spec; rewrite Hv; lia|]. unfold int_wrap. change (int_signed 73) with false. rewrite Hv.
    change (2 ^ (8 * Z.of_nat (int_width 73 natint))) with (2 ^ 32). by rewrite Z.mod_mod.
  - eapply computes_eq; [apply uint2num_spec; rewrite Hv; lia|]. unfold int_wrap. change (int_signed 86) with false. rewrite Hv.
    change (2 ^ (8 * Z.of_nat (int_width 86 natint))) with (2 ^ 32). by rewrite Z.mod_mod.
Qed.

Lemma int_item_l natint x : canon x → int_item 108 natint x ∧ int_item 76 natint x.
Proof.
  intros Hx. set (k := if natint then 8%nat else 4%nat). set (m := if natint then 2 ^ 64 else 2 ^ 32).
  assert (2 ^ (8 * Z.of_nat k) = m) as Em by (unfold k, m; by destruct natint).
  assert (int_width 108 natint = k ∧ int_width 76 natint = k) as [W1 W2] by (unfold k; by destruct natint).
  pose proof (le_roundtrip k (nval x)) as Hv. rewrite Em in Hv.
  assert (0 ≤ nval x mod m < m ∧ 2 ^ 32 ≤ m ≤ 2 ^ 64) as [Hr Hm].
  { unfold m. destruct natint; (split; [apply Z.mod_pos_bound|]; lia). }
  assert (k ≤ 8)%nat as Hk by (unfold k; destruct natint; lia).
  split; (apply (int_item_native _ _ _ k); [done|lia|done|done|rewrite <- (int_wrap_mod _ _ k), <- le_roundtrip by done]).
  - eapply computes_eq; [apply (int2num_spec (EXTEND32 natint (s64 (le_value (le_bytes k (nval x))))))|].
    + rewrite Hv. unfold m in *. destruct natint.
      * unfold EXTEND32. pose proof (s64_range (nval x mod 2 ^ 64)). unfold LONG_MIN, LONG_MAX. lia.
      * rewrite s64_small, EXTEND32_spec by lia. pose proof (s32_range (nval x mod 2 ^ 32)). unfold LONG_MIN, LONG_MAX. lia.
    + rewrite Hv. unfold int_wrap. rewrite W1, Em. change (int_signed 108) with true. unfold m in *. destruct natint; [done|].
      rewrite s64_small, EXTEND32_spec by lia. done.
  - eapply computes_eq; [apply (uint2num_spec (le_value (le_bytes k (nval x)))); rewrite Hv; lia|].
    unfold int_wrap. rewrite W2, Em, Hv. change (int_signed 76) with false. by rewrite Z.mod_mod by lia.
Qed.

Lemma int_item_q natint x : canon x → int_item 113 natint x ∧ int_item 81 natint x.
Proof.
  intros Hx. pose proof (le_roundtrip 8 (nval x)) as Hv. change (2 ^ (8 * Z.of_nat 8)) with (2 ^ 64) in Hv.
  destruct (rb_quad_unpack_spec (le_bytes 8 (nval x)) (le_bytes_ok _ _) (le_bytes_len _ _)) as [H1 H2].
  split; exists (le_bytes 8 (nval x)); (split_and!; [by apply rb_quad_pack_spec|done|]).
  - eapply computes_eq; [exact H1|]. rewrite Hv, s64_wrap, Zplus_mod_idemp_l. done.
  - eapply computes_eq; [exact H2|]. by rewrite Hv.
Qed.

Lemma int_item_n natint x : canon x → int_item 110 natint x.
Proof.
  intros Hx. destruct (le_bytes2 (nval x)) as (a & b & E & Ha & Hb & Hv). exists [b; a].
  assert (pack_integer 110 natint (VInt x) = (n ← num2i32 (VInt x); Ok (le_bytes 2 (swap16 (Z.land n 65535))))) as -> by done.
  rewrite num2i32_spec by done. cbn [mbind res_bind]. rewrite (land_mask _ 16) by lia.
  assert (u64 (nval x) mod 2 ^ 16 = le_value [a; b]) as ->.
  { rewrite Hv. unfold u64. apply Z.mod_mod_divide. exists (2 ^ 48). lia. }
  rewrite swap16_le by done. assert (bytes_ok [b; a]) as Hok by (unfold bytes_ok; rewrite !Forall_cons; naive_solver).
  split_and!; [f_equal; exact (le_bytes_value [b; a] Hok)|done|].
  eapply computes_eq; [apply (uint2num_spec (swap16 (le_value [b; a])))|]; rewrite swap16_le by done.
  - rewrite Hv. pose proof (Z.mod_pos_bound (nval x) (2 ^ 16)). lia.
  - exact Hv.
Qed.

Lemma int_item_N natint x : canon x → int_item 78 natint x.
Proof.
  intros Hx. destruct (le_bytes4 (nval x)) as (a & b & c & d & E & Ha & Hb & Hc & Hd & Hv). exists [d; c; b; a].
  assert (pack_integer 78 natint (VInt x) = (n ← num2i32 (VInt x); Ok (le_bytes 4 (swap32 n)))) as -> by done.
  rewrite num2i32_spec by done. cbn [mbind res_bind]. rewrite swap32_low.
  assert (u64 (nval x) mod 2 ^ 32 = le_value [a; b; c; d]) as ->.
  { rewrite Hv. unfold u64. apply Z.mod_mod_divide. exists (2 ^ 32). lia. }
  rewrite swap32_le by done. assert (bytes_ok [d; c; b; a]) as Hok by (unfold bytes_ok; rewrite !Forall_cons; naive_solver).
  split_and!; [f_equal; exact (le_bytes_value [d; c; b; a] Hok)|done|].
  eapply computes_eq; [apply (uint2num_spec (swapl (le_value (replicate 4 0 ++ [d; c; b; a]))))|]; rewrite swapl_upper by done.
  - rewrite Hv. pose proof (Z.mod_pos_bound (nval x) (2 ^ 32)). lia.
  - exact Hv.
Qed.

Lemma int_item_spec type natint x : type ∈ int_types → canon x → int_item type natint x.
Proof.
  intros Ht Hx. unfold int_types in Ht. rewrite !elem_of_cons, elem_of_nil in Ht.
  pose proof (int_item_c natint x Hx). pose proof (int_item_s natint x Hx). pose proof (int_item_i natint x Hx).
  pose proof (int_item_l natint x Hx). pose proof (int_item_q natint x Hx). pose proof (int_item_n natint x Hx).
  pose proof (int_item_N natint x Hx). intuition (subst; done).
Qed.

(** ** Fields of integers *)

Context `{BY : Beyond} `{CF : CFMutableData} {L : CFDataLaws CF}.

Lemma pack_directive_int type natint len items data : type ∈ int_types →
  pack_directive type natint len false items data = pack_each (Z.to_nat len) (pack_integer type natint) items data.
Proof.
  unfold int_types. rewrite !elem_of_cons, elem_of_nil. intros. by destruct_or?; subst.
Qed.

Lemma integer_format_width type natint : type ∈ int_types → type ∉ [113; 81] → (integer_format type natint).1 = int_width type natint.
Proof.
  unfold int_types. rewrite !elem_of_cons, elem_of_nil. intros Ht Hn. destruct_or?; subst; first [by destruct natint|exfalso; apply Hn; auto].
Qed.

(** The directive reads whole items and none is missing. *)
Lemma unpack_directive_int block_p type natint len str s vs s' : type ∈ int_types →
  0 ≤ len → 0 ≤ zlen str - s < 2 ^ 63 → len * Z.of_nat (int_width type natint) ≤ zlen str - s →
  unpack_each (Z.to_nat len) (int_width type natint) (int_decode type natint) str s = Ok (vs, s') →
  unpack_directive block_p type natint len false str s = Ok (vs, s').
Proof.
  intros Ht Hl Hz Hle Hu. destruct (decide (type ∈ [113; 81])) as [Hq|Hq].
  - assert (int_width type natint = 8%nat) as Hw.
    { rewrite !elem_of_cons, elem_of_nil in Hq. by destruct_or?; subst. }
    assert (unpack_directive block_p type natint len false str s = unpack_quad block_p type false str s len) as ->.
    { rewrite !elem_of_cons, elem_of_nil in Hq. by destruct_or?; subst. }
    unfold unpack_quad, PACK_LENGTH_ADJUST_SIZE. rewrite Hw in *. rewrite !u64_small by lia.
    pose proof (Z.div_le_lower_bound (zlen str - s) 8 len). rewrite (proj2 (Z.ltb_ge _ _)) by lia.
    unfold int_decode in Hu. rewrite bool_decide_true in Hu by done. rewrite Hu. cbn [mbind res_bind].
    destruct (type =? 113); cbn; by rewrite app_nil_r.
  - pose proof (integer_format_width type natint Ht Hq) as Hw.
    assert (unpack_directive block_p type natint len false str s = unpack_integer block_p type natint false str s len) as ->.
    { unfold int_types in Ht. rewrite !elem_of_cons, elem_of_nil in Ht. destruct_or?; subst; first [done|exfalso; apply Hq; set_solver]. }
    unfold int_decode in Hu. rewrite bool_decide_false in Hu by done. unfold unpack_integer.
    destruct (integer_format type natint) as [sz conv]. cbn [fst snd] in *. subst sz.
    assert (1 ≤ Z.of_nat (int_width type natint)) as H1.
    { unfold int_width. repeat case_bool_decide; cbn [andb]; try lia; destruct natint; lia. }
    unfold PACK_LENGTH_ADJUST. rewrite Z.quot_div_nonneg by lia.
    pose proof (Z.div_le_lower_bound (zlen str - s) (Z.of_nat (int_width type natint)) len).
    rewrite (proj2 (Z.ltb_ge _ _)) by lia. rewrite Hu. cbn. by rewrite app_nil_r.
Qed.

Lemma int_codec block_p f xs :
  ftype f ∈ int_types → flen f = zlen xs → Forall canon xs →
  ∃ bs ns, codec block_p f (VInt <$> xs) bs (VInt <$> ns) ∧
    zlen bs = flen f * Z.of_nat (int_width (ftype f) (fnat f)) ∧
    Forall2 (λ x n, canon n ∧ nval n = int_wrap (ftype f) (fnat f) (nval x)) xs ns.
Proof.
  intros Ht Hl Hxs.
  assert (∃ bss ns, Forall2 (λ v bs, pack_integer (ftype f) (fnat f) v = Ok bs) (VInt <$> xs) bss ∧
    Forall2 (λ bs n, length bs = int_width (ftype f) (fnat f) ∧ int_decode (ftype f) (fnat f) bs = Ok n) bss ns ∧
    Forall2 (λ x n, canon n ∧ nval n = int_wrap (ftype f) (fnat f) (nval x)) xs ns ∧
    length bss = length xs ∧ zlen (concat bss) = zlen xs * Z.of_nat (int_width (ftype f) (fnat f))) as (bss & ns & H1 & H2 & H3 & H4 & H5).
  { clear Hl. induction Hxs as [|x xs Hx Hxs (bss & ns & H1 & H2 & H3 & H4 & H5)].
    - by exists [], [].
    - destruct (int_item_spec _ (fnat f) x Ht Hx) as (bs & Hp & Hlen & n & Hd & Hn & Hcn).
      exists (bs :: bss), (n :: ns). cbn [fmap list_fmap concat length]. split_and!; [by constructor..|lia|].
      rewrite zlen_app, zlen_cons, H5. unfold zlen at 1. rewrite Hlen. lia. }
  exists (concat bss), ns. split_and!; [|by rewrite H5, Hl|done]. split.
  - intros items data. rewrite pack_directive_int, Hl by done. pose proof (pack_each_appends _ _ _ H1 items data) as Ha.
    rewrite length_fmap in Ha. by rewrite to_nat_zlen.
  - intros pre post Hz. pose proof (unpack_each_reads _ _ _ _ H2 pre post Hz) as Hr.
    apply unpack_directive_int; [done| | | |].
    + rewrite Hl. apply zlen_nonneg.
    + rewrite !zlen_app in *. pose proof (zlen_nonneg pre). pose proof (zlen_nonneg post). pose proof (zlen_nonneg (concat bss)). lia.
    + rewrite !zlen_app in *. rewrite Hl, <- H5. pose proof (zlen_nonneg post). lia.
    + rewrite Hl, to_nat_zlen. by rewrite (Forall2_length _ _ _ H3).
Qed.
End pack_int.
