(* ===== verification/PackUtf8.v ===== *)
(** Fields of characters and of compressed integers. *)

(** * pack.c: Unicode characters

    [rb_uv_to_utf8] and [utf8_to_uv] are inverse to each other: the decoder accepts the
    encoding of a character and nothing else. *)

From S2P Require Import Prelude Util Big BigVal BigAdd BigMul BigDiv BigThm Numeric NumericSpec Pack Unpack PackSpec PackField.

(** The continuation bytes of the low [6 * k] bits. *)
Fixpoint cont_bytes (k : nat) (uv : Z) : list Z :=
  match k with O => [] | S k => (128 + (uv / 64 ^ Z.of_nat k) mod 64) :: cont_bytes k uv end.

(** The lead byte of [n] bytes holds a payload of [7 - n] bits. *)
Definition lead_mark (n : Z) : Z := 256 - 2 ^ (8 - n).

(** The encoding in [n] bytes. *)
Definition utf8_bytes (n : Z) (uv : Z) : list Z :=
  if n =? 1 then [uv] else lead_mark n + uv / 64 ^ (n - 1) :: cont_bytes (Z.to_nat (n - 1)) uv.

(** The characters of [n] bytes: from the limit of the table to the next. *)
Definition utf8_range (n uv : Z) : Prop :=
  match n with
  | 1 => 0 ≤ uv < 2 ^ 7 | 2 => 2 ^ 7 ≤ uv < 2 ^ 11 | 3 => 2 ^ 11 ≤ uv < 2 ^ 16
  | 4 => 2 ^ 16 ≤ uv < 2 ^ 21 | 5 => 2 ^ 21 ≤ uv < 2 ^ 26 | 6 => 2 ^ 26 ≤ uv < 2 ^ 31
  | _ => False
  end.

Lemma utf8_range_ex uv : 0 ≤ uv < 2 ^ 31 → ∃ n, 1 ≤ n ≤ 6 ∧ utf8_range n uv.
Proof.
  intros H. destruct (decide (uv < 2 ^ 7)); [exists 1; cbn; lia|]. destruct (decide (uv < 2 ^ 11)); [exists 2; cbn; lia|].
  destruct (decide (uv < 2 ^ 16)); [exists 3; cbn; lia|]. destruct (decide (uv < 2 ^ 21)); [exists 4; cbn; lia|].
  destruct (decide (uv < 2 ^ 26)); [exists 5; cbn; lia|]. exists 6; cbn; lia.
Qed.

Lemma utf8_range_cases n uv : utf8_range n uv → n = 1 ∨ n = 2 ∨ n = 3 ∨ n = 4 ∨ n = 5 ∨ n = 6.
Proof. intros H. destruct n as [|p|p]; [done| |done]. do 3 (try destruct p as [p|p|]); cbn in H; try done; tauto. Qed.

(** ** Encoding *)

Lemma low_byte uv k : 0 ≤ k → Z.lor (Z.land (Z.shiftr uv k) 63) 128 = 128 + (uv / 2 ^ k) mod 64.
Proof.
  intros Hk. rewrite (land_mask _ 6), Z.shiftr_div_pow2 by lia. change (2 ^ 6) with 64.
  rewrite Z.lor_comm. change 128 with (2 * 2 ^ 6) at 1. apply lor_add; [lia|]. change (2 ^ 6) with 64. apply Z.mod_pos_bound. lia.
Qed.

Lemma high_byte uv k m e : 0 ≤ k → 0 ≤ e ≤ 7 → m mod 2 ^ e = 0 → 0 ≤ uv / 2 ^ k < 2 ^ e →
  Z.lor (Z.land (Z.shiftr uv k) 255) m = m + uv / 2 ^ k.
Proof.
  intros Hk He Hm Hr. rewrite (land_mask _ 8), Z.shiftr_div_pow2 by lia.
  assert (2 ^ e ≤ 2 ^ 7) by (apply Z.pow_le_mono_r; lia). rewrite Z.mod_small by lia.
  rewrite Z.lor_comm. replace m with (m / 2 ^ e * 2 ^ e) at 1.
  - rewrite lor_add by lia. pose proof (Z.div_mod m (2 ^ e)). lia.
  - pose proof (Z.div_mod m (2 ^ e)). lia.
Qed.

Lemma encode_spec n uv : utf8_range n uv → rb_uv_to_utf8 uv = Ok (utf8_bytes n uv).
Proof.
  intros H. destruct (utf8_range_cases n uv H) as [->|[->|[->|[->|[->| ->]]]]]; cbn [utf8_range] in H; unfold rb_uv_to_utf8.
  - rewrite (proj2 (Z.leb_le uv 127)) by lia. by rewrite byte_of_small by (unfold byte_ok; lia).
  - rewrite (proj2 (Z.leb_gt uv 127)), (proj2 (Z.leb_le uv 2047)) by lia.
    rewrite (high_byte uv 6 192 5); [|lia|lia|done|split; [apply Z.div_pos|apply Z.div_lt_upper_bound]; lia].
    rewrite !low_byte by lia. done.
  - rewrite (proj2 (Z.leb_gt uv 127)), (proj2 (Z.leb_gt uv 2047)), (proj2 (Z.leb_le uv 65535)) by lia.
    rewrite (high_byte uv 12 224 4); [|lia|lia|done|split; [apply Z.div_pos|apply Z.div_lt_upper_bound]; lia].
    rewrite !low_byte by lia. done.
  - rewrite (proj2 (Z.leb_gt uv 127)), (proj2 (Z.leb_gt uv 2047)), (proj2 (Z.leb_gt uv 65535)), (proj2 (Z.leb_le uv 2097151)) by lia.
    rewrite (high_byte uv 18 240 3); [|lia|lia|done|split; [apply Z.div_pos|apply Z.div_lt_upper_bound]; lia].
    rewrite !low_byte by lia. done.
  - rewrite (proj2 (Z.leb_gt uv 127)), (proj2 (Z.leb_gt uv 2047)), (proj2 (Z.leb_gt uv 65535)), (proj2 (Z.leb_gt uv 2097151)),
      (proj2 (Z.leb_le uv 67108863)) by lia.
    rewrite (high_byte uv 24 248 2); [|lia|lia|done|split; [apply Z.div_pos|apply Z.div_lt_upper_bound]; lia].
    rewrite !low_byte by lia. done.
  - rewrite (proj2 (Z.leb_gt uv 127)), (proj2 (Z.leb_gt uv 2047)), (proj2 (Z.leb_gt uv 65535)), (proj2 (Z.leb_gt uv 2097151)),
      (proj2 (Z.leb_gt uv 67108863)), (proj2 (Z.leb_le uv 2147483647)) by lia.
    rewrite (high_byte uv 30 252 1); [|lia|lia|done|split; [apply Z.div_pos|apply Z.div_lt_upper_bound]; lia].
    rewrite !low_byte by lia. done.
Qed.

Lemma encode_too_large uv : 2 ^ 31 ≤ uv → rb_uv_to_utf8 uv = Err (Raise RangeError).
Proof.
  intros H. unfold rb_uv_to_utf8. by rewrite (proj2 (Z.leb_gt uv 127)), (proj2 (Z.leb_gt uv 2047)), (proj2 (Z.leb_gt uv 65535)),
    (proj2 (Z.leb_gt uv 2097151)), (proj2 (Z.leb_gt uv 67108863)), (proj2 (Z.leb_gt uv 2147483647)) by lia.
Qed.

Lemma cont_len k uv : length (cont_bytes k uv) = k.
Proof. induction k; cbn; [done|]. by rewrite IHk. Qed.

Lemma utf8_bytes_len n uv : utf8_range n uv → zlen (utf8_bytes n uv) = n.
Proof.
  intros H. destruct (utf8_range_cases n uv H) as [->|[->|[->|[->|[->| ->]]]]]; done.
Qed.

(** ** Decoding *)

(** A fact about every byte, by evaluation. *)
Lemma byte_check (P : Z → bool) c : forallb P (seqZ 0 256) = true → byte_ok c → P c = true.
Proof. intros H Hc. rewrite forallb_forall in H. apply H. apply list_elem_of_In, elem_of_seqZ. unfold byte_ok in Hc. lia. Qed.

Lemma cont_byte c : byte_ok c → (Z.land c 192 =? 128) = (128 <=? c) && (c <? 192).
Proof. intros Hc. apply eqb_prop. by apply (byte_check (λ c, eqb (Z.land c 192 =? 128) ((128 <=? c) && (c <? 192)))). Qed.

(** The class of a lead byte. *)
Definition lead_class (c : Z) : res (Z * Z) :=
  if c <? 192 then Err (Raise ArgumentError) else if c <? 224 then Ok (2, c - 192) else if c <? 240 then Ok (3, c - 224) else
  if c <? 248 then Ok (4, c - 240) else if c <? 252 then Ok (5, c - 248) else if c <? 254 then Ok (6, c - 252) else
  Err (Raise ArgumentError).

Lemma utf8_lead_spec c : byte_ok c → 128 ≤ c → utf8_lead c = lead_class c.
Proof.
  intros Hc H128.
  assert ((c <? 128) || bool_decide (utf8_lead c = lead_class c) = true) as H.
  { pose (P := λ c : Z, (c <? 128) || bool_decide (utf8_lead c = lead_class c)). change (P c = true).
    apply byte_check; [vm_compute; reflexivity|done]. }
  rewrite orb_true_iff, Z.ltb_lt, bool_decide_eq_true in H. destruct H; [lia|done].
Qed.

Lemma land_128 c : byte_ok c → (Z.land c 128 =? 0) = (c <? 128).
Proof. intros Hc. apply eqb_prop. by apply (byte_check (λ c, eqb (Z.land c 128 =? 0) (c <? 128))). Qed.

Lemma cont_ok k uv : bytes_ok (cont_bytes k uv).
Proof.
  induction k as [|k IH]; cbn [cont_bytes]; [by constructor|]. constructor; [|done].
  pose proof (Z.mod_pos_bound (uv / 64 ^ Z.of_nat k) 64). unfold byte_ok. lia.
Qed.

(** One more continuation byte. *)
Lemma cont_step uv c : 0 ≤ uv < 2 ^ 32 → 128 ≤ c < 192 → Z.lor (u64 (Z.shiftl uv 6)) (Z.land c 63) = uv * 64 + (c - 128).
Proof.
  intros Hu Hc. rewrite (land_mask _ 6), Z.shiftl_mul_pow2 by lia. rewrite u64_small by lia.
  change (2 ^ 6) with 64. replace (c mod 64) with (c - 128) by (apply (Z.mod_unique _ _ 2); lia). exact (lor_add uv (c - 128) 6 ltac:(lia) ltac:(lia)).
Qed.

Lemma utf8_tail_cont k uv post acc : 0 ≤ acc → (acc + 1) * 64 ^ Z.of_nat k ≤ 2 ^ 32 →
  utf8_tail k (cont_bytes k uv ++ post) acc = Ok (acc * 64 ^ Z.of_nat k + uv mod 64 ^ Z.of_nat k).
Proof.
  revert acc. induction k as [|k IH]; intros acc Ha Hb; cbn [utf8_tail cont_bytes app].
  - rewrite Z.mod_1_r. f_equal. lia.
  - change (aload (?c :: ?l) 0) with (@Ok Z c). cbn [mbind res_bind].
    set (d := (uv / 64 ^ Z.of_nat k) mod 64). assert (0 ≤ d < 64) as Hd by (apply Z.mod_pos_bound; lia).
    rewrite cont_byte by (unfold byte_ok; lia). rewrite (proj2 (Z.leb_le 128 _)), (proj2 (Z.ltb_lt _ 192)) by lia. cbn [andb negb tail].
    rewrite Nat2Z.inj_succ, Z.pow_succ_r in Hb by lia. assert (1 ≤ 64 ^ Z.of_nat k) by (pose proof (Z.pow_pos_nonneg 64 (Z.of_nat k)); lia).
    rewrite cont_step by nia. rewrite IH by nia. f_equal. rewrite Nat2Z.inj_succ, Z.pow_succ_r by lia.
    rewrite (Z.mul_comm 64), Z.rem_mul_r by lia. fold d. lia.
Qed.

(** What a run of the decoder has read. *)
Lemma utf8_tail_inv k p acc v : bytes_ok p → 0 ≤ acc → (acc + 1) * 64 ^ Z.of_nat k ≤ 2 ^ 32 →
  utf8_tail k p acc = Ok v → ∃ w post, 0 ≤ w < 64 ^ Z.of_nat k ∧ v = acc * 64 ^ Z.of_nat k + w ∧
    ∀ u, p = cont_bytes k (u * 64 ^ Z.of_nat k + w) ++ post.
Proof.
  revert p acc. induction k as [|k IH]; intros p acc Hp Ha Hb; cbn [utf8_tail].
  - intros [= <-]. exists 0, p. cbn. split_and!; [lia|lia|lia|done].
  - destruct Hp as [|c p Hc Hp]; [done|]. change (aload (c :: p) 0) with (@Ok Z c). cbn [mbind res_bind tail].
    rewrite cont_byte by done. destruct (Z.leb_spec 128 c); [|done]. destruct (Z.ltb_spec c 192); [|done]. cbn [andb negb].
    rewrite Nat2Z.inj_succ, Z.pow_succ_r in * by lia. assert (1 ≤ 64 ^ Z.of_nat k) by (pose proof (Z.pow_pos_nonneg 64 (Z.of_nat k)); lia).
    rewrite cont_step by nia. intros H'. apply IH in H' as (w & post & Hw & -> & Hu); [|done|nia|nia].
    exists ((c - 128) * 64 ^ Z.of_nat k + w), post. split_and!; [nia|nia|nia|]. intros u. cbn [cont_bytes app].
    replace (u * (64 * 64 ^ Z.of_nat k) + ((c - 128) * 64 ^ Z.of_nat k + w)) with ((u * 64 + (c - 128)) * 64 ^ Z.of_nat k + w) by nia.
    f_equal; [|apply Hu].
    replace (((u * 64 + (c - 128)) * 64 ^ Z.of_nat k + w) / 64 ^ Z.of_nat k) with (u * 64 + (c - 128)) by (apply (Z.div_unique _ _ _ w); lia).
    replace ((u * 64 + (c - 128)) mod 64) with (c - 128) by (apply (Z.mod_unique _ _ u); lia). lia.
Qed.

Lemma lead_class_ok n a : 2 ≤ n ≤ 6 → 0 ≤ a < 2 ^ (7 - n) →
  128 ≤ lead_mark n + a < 256 ∧ lead_class (lead_mark n + a) = Ok (n, a).
Proof.
  intros Hn Ha. unfold lead_mark.
  assert (n = 2 ∨ n = 3 ∨ n = 4 ∨ n = 5 ∨ n = 6) as [->|[->|[->|[->| ->]]]] by lia; cbn [Z.sub Z.add Z.opp Z.pos_sub] in *;
    (split; [lia|]); unfold lead_class; cmp_spec; try lia; do 2 f_equal; lia.
Qed.

Lemma lead_class_inv c n a : byte_ok c → lead_class c = Ok (n, a) → 2 ≤ n ≤ 6 ∧ 0 ≤ a < 2 ^ (7 - n) ∧ c = lead_mark n + a.
Proof.
  unfold byte_ok, lead_class, lead_mark. intros Hc. cmp_spec; intros [= <- <-]; cbn [Z.sub Z.add Z.opp Z.pos_sub]; lia.
Qed.

(** The limits of the table bound the encodings of each length. *)
Lemma utf8_limit n uv : 2 ≤ n ≤ 6 →
  ∃ l, aload utf8_limits (n - 1) = Ok l ∧ (utf8_range n uv ↔ l ≤ uv < 2 ^ (7 - n) * 64 ^ (n - 1)).
Proof.
  intros Hn. assert (n = 2 ∨ n = 3 ∨ n = 4 ∨ n = 5 ∨ n = 6) as [->|[->|[->|[->| ->]]]] by lia;
    (eexists; split; [reflexivity|cbn; lia]).
Qed.

Lemma payload_bound n a : 2 ≤ n ≤ 6 → 0 ≤ a < 2 ^ (7 - n) → (a + 1) * 64 ^ (n - 1) ≤ 2 ^ 32.
Proof.
  intros Hn Ha. assert (n = 2 ∨ n = 3 ∨ n = 4 ∨ n = 5 ∨ n = 6) as [->|[->|[->|[->| ->]]]] by lia; cbn in *; lia.
Qed.

Lemma utf8_decode n uv post lenp : utf8_range n uv → n ≤ lenp → utf8_to_uv (utf8_bytes n uv ++ post) lenp = Ok (uv, n).
Proof.
  intros Hr Hl. unfold utf8_to_uv, utf8_bytes. destruct (Z.eqb_spec n 1) as [->|].
  { change (aload ([uv] ++ post) 0) with (@Ok Z uv). cbn [mbind res_bind]. cbn in Hr.
    by rewrite land_128, (proj2 (Z.ltb_lt uv 128)) by (unfold byte_ok; lia). }
  assert (2 ≤ n ≤ 6) as Hn by (apply utf8_range_cases in Hr; lia). destruct (utf8_limit n uv Hn) as (l & El & Hlim).
  apply Hlim in Hr. set (m := 64 ^ (n - 1)) in *. assert (0 < m) by (apply Z.pow_pos_nonneg; lia).
  assert (0 ≤ l) by (clear - El Hn; assert (n = 2 ∨ n = 3 ∨ n = 4 ∨ n = 5 ∨ n = 6) as [->|[->|[->|[->| ->]]]] by lia; injection El as <-; lia).
  assert (0 ≤ uv / m < 2 ^ (7 - n)) as Ha by (split; [apply Z.div_pos; lia|apply Z.div_lt_upper_bound; lia]).
  destruct (lead_class_ok n (uv / m) Hn Ha) as [Hb Hc]. set (c := lead_mark n + uv / m) in *.
  change (aload ((c :: cont_bytes (Z.to_nat (n - 1)) uv) ++ post) 0) with (@Ok Z c). cbn [mbind res_bind app tail].
  rewrite land_128, (proj2 (Z.ltb_ge c 128)) by (unfold byte_ok; lia). rewrite utf8_lead_spec, Hc by (unfold byte_ok; lia).
  cbn [mbind res_bind]. rewrite (proj2 (Z.ltb_ge lenp n)) by lia. rewrite utf8_tail_cont.
  2: { lia. } 2: { rewrite Z2Nat.id by lia. by apply payload_bound. }
  rewrite Z2Nat.id by lia. fold m. cbn [mbind res_bind]. rewrite El. cbn [mbind res_bind].
  rewrite (Z.mul_comm (uv / m)), <- Z.div_mod by lia. by rewrite (proj2 (Z.ltb_ge uv l)) by lia.
Qed.

Lemma utf8_decode_inv p lenp uv n : bytes_ok p → utf8_to_uv p lenp = Ok (uv, n) →
  utf8_range n uv ∧ ∃ post, p = utf8_bytes n uv ++ post.
Proof.
  intros Hp. unfold utf8_to_uv. destruct Hp as [|c p Hc Hp]; [done|]. change (aload (c :: p) 0) with (@Ok Z c). cbn [mbind res_bind tail].
  rewrite land_128 by done. destruct (Z.ltb_spec c 128).
  { intros [= <- <-]. unfold byte_ok in Hc. split; [cbn; lia|]. by exists p. }
  rewrite utf8_lead_spec by done. destruct (lead_class c) as [[n' a]|] eqn:E; [|done]. cbn [mbind res_bind].
  destruct (lead_class_inv c n' a Hc E) as (Hn & Ha & Ec). destruct (lenp <? n'); [done|].
  destruct (utf8_tail (Z.to_nat (n' - 1)) p a) as [v|] eqn:Et; [|done]. cbn [mbind res_bind].
  destruct (utf8_limit n' v Hn) as (l & El & Hlim). rewrite El. cbn [mbind res_bind].
  destruct (Z.ltb_spec v l); [done|]. intros [= <- <-].
  apply utf8_tail_inv in Et as (w & post & Hw & Hv & Hu); [|done|lia|rewrite Z2Nat.id by lia; by apply payload_bound].
  rewrite Z2Nat.id in * by lia. split.
  - apply Hlim. split; [done|]. nia.
  - exists post. unfold utf8_bytes. rewrite (proj2 (Z.eqb_neq n' 1)) by lia. cbn [app]. f_equal; [|rewrite Hv; apply Hu].
    rewrite Ec. f_equal. apply (Z.div_unique _ _ _ w); lia.
Qed.

(** ** The directive *)

Section directive.
Context `{J : Junk} `{BY : Beyond} `{CF : CFMutableData} {L : CFDataLaws CF}.

Definition is_char (x : num) : Prop := canon x ∧ 0 ≤ nval x < 2 ^ 31.

Lemma pack_U_spec x : is_char x → ∃ n, utf8_range n (nval x) ∧ pack_U (VInt x) = Ok (utf8_bytes n (nval x)).
Proof.
  intros [Hc Hr]. destruct (utf8_range_ex _ Hr) as (n & _ & Hn). exists n. split; [done|].
  unfold pack_U. cbn [rb_to_int mbind res_bind]. rewrite (canon_fixnum x) by (done || lia). cbn [rb_num2long mbind res_bind nval].
  rewrite (proj2 (Z.ltb_ge _ 0)) by lia. by apply encode_spec.
Qed.

Lemma unpack_U_reads xs bss : Forall is_char xs → Forall2 (λ x bs, pack_U (VInt x) = Ok bs) xs bss →
  reads (unpack_U (length xs)) (concat bss) (VInt <$> xs).
Proof.
  intros Hxs. revert bss. induction Hxs as [|x xs Hx Hxs IH]; intros bss H; inversion H as [|? bs ? bss' Hp H']; subst;
    intros pre post Hz; cbn [length unpack_U concat].
  { by rewrite Z.add_0_r. }
  destruct (pack_U_spec x Hx) as (n & Hn & Hp'). rewrite Hp in Hp'. injection Hp' as ->.
  pose proof (utf8_bytes_len n _ Hn) as Hl. assert (1 ≤ n ≤ 6) by (apply utf8_range_cases in Hn; lia).
  cbn [concat] in Hz. rewrite <- app_assoc in *. set (u := utf8_bytes n (nval x)) in *.
  assert (zlen (pre ++ u ++ concat bss' ++ post) = zlen pre + n + zlen (concat bss' ++ post)) as Hlen by (rewrite !zlen_app; lia).
  pose proof (zlen_nonneg pre). pose proof (zlen_nonneg (concat bss' ++ post)).
  rewrite (proj2 (Z.ltb_lt (zlen pre) _)) by lia. rewrite (proj2 (Z.ltb_ge (zlen pre) 0)) by lia. cbn [mbind res_bind].
  rewrite to_nat_zlen, drop_app_length. 
  pose proof (utf8_decode n (nval x) (concat bss' ++ post) (zlen (pre ++ u ++ concat bss' ++ post) - zlen pre) Hn ltac:(lia)) as Hd.
  fold u in Hd. rewrite Hd. cbn [mbind res_bind]. clear Hd.
  destruct Hx as [Hc Hr]. rewrite (canon_fixnum x) at 1 by (done || lia). cbn [nval].
  destruct (uint2num_spec (nval x) ltac:(lia)) as (v & -> & Hv & Hcv). cbn [mbind res_bind].
  rewrite <- Hl, <- zlen_app, app_assoc, IH by (done || by rewrite <- app_assoc). cbn [mbind res_bind].
  rewrite !zlen_app, Hl. rewrite (canon_unique v x) by done. by rewrite Z.add_assoc.
Qed.

Lemma U_codec block_p f xs : ftype f = 85 → flen f = zlen xs → Forall is_char xs →
  ∃ bs, codec block_p f (VInt <$> xs) bs (VInt <$> xs) ∧ zlen xs ≤ zlen bs ≤ 6 * zlen xs.
Proof.
  intros Ht Hl Hxs.
  assert (∃ bss, Forall2 (λ x bs, pack_U (VInt x) = Ok bs) xs bss ∧ zlen xs ≤ zlen (concat bss) ≤ 6 * zlen xs) as (bss & H & Hb).
  { clear Hl. induction Hxs as [|x xs Hx Hxs (bss & H & Hb)]; [by exists []|].
    destruct (pack_U_spec x Hx) as (n & Hn & Hp). exists (utf8_bytes n (nval x) :: bss). split; [by constructor|].
    cbn [concat]. rewrite zlen_app, zlen_cons, utf8_bytes_len by done. apply utf8_range_cases in Hn. lia. }
  exists (concat bss). split; [|done]. split.
  - intros items data. unfold pack_directive. rewrite Ht, Hl. cbn -[pack_each]. rewrite to_nat_zlen.
    assert (Forall2 (λ v bs, pack_U v = Ok bs) (VInt <$> xs) bss) as H' by (by apply Forall2_fmap_l).
    pose proof (pack_each_appends _ _ _ H' items data) as Ha. by rewrite length_fmap in Ha.
  - intros pre post Hz. unfold unpack_directive. rewrite Ht, Hl. cbn -[unpack_U].
    rewrite Z.min_l by (rewrite !zlen_app; pose proof (zlen_nonneg post); lia). rewrite to_nat_zlen. by apply unpack_U_reads.
Qed.
End directive.

(** * pack.c: BER-compressed integers

    A number is written in base 128, most significant digit first; every byte but the
    last has its top bit set. *)

(** The digits, least significant first; [n] digits are enough below [2^(7*n)]. *)
Fixpoint digits128 (n : nat) (v : Z) : list Z :=
  match n with
  | O => []
  | S n => if v =? 0 then [] else v mod 128 :: digits128 n (v / 128)
  end.

Definition flag (d : Z) : Z := 128 + d.

(** The bytes of a list of digits. *)
Definition ber_bytes (ds : list Z) : list Z :=
  match ds with [] => [0] | d :: ds => reverse (d :: (flag <$> ds)) end.

Definition ber (v : Z) : list Z := ber_bytes (digits128 (S (Z.to_nat (Z.log2 v))) v).

Definition digit_ok (d : Z) : Prop := 0 ≤ d < 128.

Lemma pow128 n : 2 ^ (7 * Z.of_nat (S n)) = 128 * 2 ^ (7 * Z.of_nat n).
Proof. replace (7 * Z.of_nat (S n)) with (7 + 7 * Z.of_nat n) by lia. by rewrite Z.pow_add_r by lia. Qed.

Lemma digits128_zero n : digits128 n 0 = [].
Proof. by destruct n. Qed.

Lemma digits128_enough n m v : 0 ≤ v < 2 ^ (7 * Z.of_nat n) → v < 2 ^ (7 * Z.of_nat m) → digits128 n v = digits128 m v.
Proof.
  revert m v. induction n as [|n IH]; intros m v Hn Hm.
  - assert (v = 0) as -> by (cbn in Hn; lia). by rewrite !digits128_zero.
  - cbn [digits128]. destruct (Z.eqb_spec v 0) as [->|]; [by rewrite digits128_zero|].
    destruct m as [|m]; [cbn in Hm; lia|]. cbn [digits128]. rewrite (proj2 (Z.eqb_neq v 0)) by done. f_equal.
    rewrite pow128 in *. apply IH; [split; [apply Z.div_pos; lia|]|]; apply Z.div_lt_upper_bound; lia.
Qed.

Lemma digits128_ok n v : Forall digit_ok (digits128 n v).
Proof.
  revert v. induction n as [|n IH]; intros v; cbn [digits128]; [by constructor|]. destruct (v =? 0); [by constructor|].
  constructor; [apply Z.mod_pos_bound; lia|apply IH].
Qed.

Lemma ber_digits_of n v : 0 ≤ v < 2 ^ (7 * Z.of_nat n) → ber v = ber_bytes (digits128 n v).
Proof.
  intros Hv. unfold ber. f_equal. destruct (decide (v = 0)) as [->|]; [by rewrite !digits128_zero|].
  symmetry. apply digits128_enough; [done|]. pose proof (Z.log2_spec v ltac:(lia)) as [_ H].
  eapply Z.lt_le_trans; [exact H|]. apply Z.pow_le_mono_r; [lia|]. pose proof (Z.log2_nonneg v). lia.
Qed.

Lemma flag_byte m : digit_ok m → byte_of (Z.lor m 128) = flag m.
Proof.
  unfold digit_ok, flag. intros Hm. rewrite Z.lor_comm. change 128 with (1 * 2 ^ 7) at 1. rewrite lor_add by lia.
  apply byte_of_small. unfold byte_ok. lia.
Qed.

(** ** Packing *)

Section pack.
Context `{J : Junk}.

Lemma big128 : rb_uint2big 128 = Ok (mkBig true [128]).
Proof. apply rb_uint2big_spec. rewrite BIGRAD_val. lia. Qed.

Lemma divmod128 b : canon (Bignum b) →
  returns (rb_big_divmod b (Bignum (mkBig true [128]))) (λ '(d, m),
    canon d ∧ nval d = bigval b / 128 ∧ m = Fixnum (bigval b mod 128)).
Proof.
  intros Hb. assert (rb_big_divmod b (Bignum (mkBig true [128])) = rb_big_divmod b (Fixnum 128)) as ->.
  { unfold rb_big_divmod. cbn [to_big]. by rewrite rb_int2big_spec by (unfold LONG_MIN, LONG_MAX; lia). }
  eapply returns_mono; [apply (rb_big_divmod_correct b (Fixnum 128) Hb); [apply canon_fix; lia|done]|].
  intros [d m] (Hd & Hm & Hcd & Hcm & _ & _). cbn [nval] in *. split_and!; [done|done|].
  rewrite <- Hm. apply canon_fixnum; [done|]. rewrite Hm. pose proof (Z.mod_pos_bound (bigval b) 128). lia.
Qed.

Lemma ber_big_spec fuel x buf : canon x → - 2 ^ (7 * Z.of_nat fuel + 61) ≤ nval x < 2 ^ (7 * Z.of_nat fuel + 61) →
  ∃ w ds, ber_big fuel x buf = Ok (Fixnum w, buf ++ (flag <$> ds)) ∧ canon (Fixnum w) ∧
    (0 ≤ w ↔ 0 ≤ nval x) ∧ (0 ≤ nval x → digits128 (9 + fuel) (nval x) = ds ++ digits128 9 w).
Proof.
  revert x buf. induction fuel as [|fuel IH]; intros x buf Hx Hr.
  - change (7 * Z.of_nat 0 + 61) with 61 in Hr.
    destruct x as [n|b]; [|apply canon_bignum in Hx; cbn [nval] in Hr; lia]. exists n, []. cbn [ber_big]. by rewrite app_nil_r.
  - destruct x as [n|b].
    { exists n, []. cbn [ber_big fmap list_fmap]. rewrite app_nil_r. split_and!; [done|done|done|]. intros Hn. cbn [nval app] in *.
      rewrite canon_fix in Hx. apply digits128_enough; [split; [done|]|]; (eapply Z.le_lt_trans; [apply Hx|]).
      - eapply Z.lt_le_trans; [|apply (Z.pow_le_mono_r 2 63); lia]. lia.
      - done. }
    cbn [ber_big]. rewrite big128. cbn [mbind res_bind].
    destruct (divmod128 b Hx) as ([d m] & -> & Hd & Hdv & ->). cbn [mbind res_bind].
    assert (digit_ok (bigval b mod 128)) as Hm by (apply Z.mod_pos_bound; lia). unfold digit_ok in Hm.
    unfold rb_num2int. cbn [rb_num2long mbind res_bind]. unfold check_int, INT_MIN, INT_MAX.
    rewrite (proj2 (Z.ltb_ge (bigval b mod 128) _)), (proj2 (Z.ltb_ge _ (bigval b mod 128))) by lia. cbn [mbind res_bind].
    rewrite flag_byte by done. cbn [nval] in *.
    assert (2 ^ (7 * Z.of_nat (S fuel) + 61) = 128 * 2 ^ (7 * Z.of_nat fuel + 61)) as E
      by (replace (7 * Z.of_nat (S fuel) + 61) with (7 + (7 * Z.of_nat fuel + 61)) by lia; by rewrite Z.pow_add_r by lia).
    rewrite E in Hr.
    destruct (IH d (buf ++ [flag (bigval b mod 128)]) Hd) as (w & ds & E' & Hw & Hsg & Hds).
    { rewrite Hdv. split; [apply Z.div_le_lower_bound; lia|apply Z.div_lt_upper_bound; lia]. }
    exists w, (bigval b mod 128 :: ds). rewrite E', <- app_assoc. split_and!; [done|done| |].
    + rewrite Hsg, Hdv. split; intros; [|by apply Z.div_pos; lia]. destruct (decide (0 ≤ bigval b)); [done|].
      assert (bigval b / 128 < 0) by (apply Z.div_lt_upper_bound; lia). lia.
    + intros Hn. apply canon_bignum in Hx. replace (9 + S fuel)%nat with (S (9 + fuel)) by lia. cbn [digits128 app].
      rewrite (proj2 (Z.eqb_neq (bigval b) 0)) by lia. f_equal. rewrite <- Hdv. apply Hds. rewrite Hdv. apply Z.div_pos; lia.
Qed.

Lemma ber_long_spec fuel ul buf : 0 ≤ ul < 2 ^ (7 * Z.of_nat fuel) → ber_long fuel ul buf = Ok (buf ++ (flag <$> digits128 fuel ul)).
Proof.
  revert ul buf. induction fuel as [|fuel IH]; intros ul buf Hu.
  - assert (ul = 0) as -> by (cbn in Hu; lia). cbn. by rewrite app_nil_r.
  - cbn [ber_long digits128]. destruct (Z.eqb_spec ul 0); [cbn; by rewrite app_nil_r|].
    rewrite (land_mask _ 7), Z.shiftr_div_pow2 by lia. change (2 ^ 7) with 128. rewrite flag_byte by (apply Z.mod_pos_bound; lia).
    rewrite pow128 in Hu. rewrite IH by (split; [apply Z.div_pos; lia|apply Z.div_lt_upper_bound; lia]). by rewrite <- app_assoc.
Qed.

Lemma ber_reverse_spec fuel i j buf : 0 ≤ i → j < zlen buf → j - i < 2 * Z.of_nat fuel →
  returns (ber_reverse fuel i j buf) (λ buf', zlen buf' = zlen buf ∧
    ∀ k, zlookup buf' k = if decide (i ≤ k ≤ j) then zlookup buf (i + j - k) else zlookup buf k).
Proof.
  revert i j buf. induction fuel as [|fuel IH]; intros i j buf Hi Hj Hf; cbn [ber_reverse].
  - destruct (Z.ltb_spec i j); [lia|]. apply returns_ret. split; [done|]. intros k. case_decide; [|done]. f_equal. lia.
  - destruct (Z.ltb_spec i j).
    + destruct (zlookup_is_Some buf i ltac:(lia)) as [c Hc]. destruct (zlookup_is_Some buf j ltac:(lia)) as [d Hd].
      rewrite (proj2 (aload_ok _ _ _) Hc). cbn [mbind res_bind]. rewrite (proj2 (aload_ok _ _ _) Hd). cbn [mbind res_bind].
      rewrite astore_ok by lia. cbn [mbind res_bind]. rewrite astore_ok by (rewrite zlen_insert; lia). cbn [mbind res_bind].
      eapply returns_mono; [apply IH; [lia|rewrite !zlen_insert; lia|lia]|]. intros b' [Hl Hk]. rewrite !zlen_insert in Hl.
      split; [done|]. intros k. rewrite Hk. pose proof (zlen_insert buf (Z.to_nat i) d).
      rewrite !zlookup_insert by lia. repeat case_decide; try lia; try done;
        first [rewrite <- Hd; f_equal; lia|rewrite <- Hc; f_equal; lia|f_equal; lia].
    + apply returns_ret. split; [done|]. intros k. case_decide; [|done]. f_equal. lia.
Qed.

Lemma ber_reverse_all buf : ber_reverse (length buf) 0 (zlen buf - 1) buf = Ok (reverse buf).
Proof.
  apply returns_eq. eapply returns_mono; [apply ber_reverse_spec; unfold zlen; lia|]. intros b [Hl Hk].
  apply zlist_eq; [by rewrite zlen_reverse|]. intros i Hi. rewrite Hk, decide_True, zlookup_reverse by lia. by f_equal; lia.
Qed.

(** Every natural number, fixnum or bignum, is written in base 128; a negative one is
    refused. *)
Lemma pack_w_spec x : canon x →
  pack_w (VInt x) = if decide (0 ≤ nval x) then Ok (ber (nval x)) else Err (Raise ArgumentError).
Proof.
  intros Hx. unfold pack_w. set (f := ber_digits x).
  assert (- 2 ^ (7 * Z.of_nat f + 61) ≤ nval x < 2 ^ (7 * Z.of_nat f + 61)) as Hb.
  { unfold f. destruct x as [n|b]; cbn [ber_digits nval]; [rewrite canon_fix in Hx; cbn; lia|].
    destruct (canon_big b Hx) as [[Hok _] _]. pose proof (bval_bound _ Hok) as Hv. rewrite BIGRAD_val in Hv.
    rewrite <- Z.pow_mul_r in Hv by (pose proof (zlen_nonneg (digits b)); lia).
    assert (2 ^ (64 * zlen (digits b)) ≤ 2 ^ (7 * Z.of_nat (10 * length (digits b)) + 61)) by (apply Z.pow_le_mono_r; unfold zlen; lia).
    unfold bigval. destruct (sign b); lia. }
  destruct (ber_big_spec f x [] Hx Hb) as (w & ds & -> & Hw & Hsg & Hds). cbn [mbind res_bind rb_num2long app].
  case_decide as Hn.
  - apply Hsg in Hn as Hwn. rewrite (proj2 (Z.ltb_ge w 0)) by lia. rewrite canon_fix in Hw. rewrite ber_long_spec by (cbn; lia).
    cbn [mbind res_bind].
    assert (digits128 (9 + f) (nval x) = ds ++ digits128 10 w) as E.
    { rewrite (Hds Hn). f_equal. apply digits128_enough; cbn; lia. }
    assert (ber (nval x) = ber_bytes (digits128 (9 + f) (nval x))) as ->.
    { apply ber_digits_of. split; [done|]. eapply Z.lt_le_trans; [apply Hb|]. apply Z.pow_le_mono_r; lia. }
    rewrite <- fmap_app, <- E. destruct (digits128 (9 + f) (nval x)) as [|d dl] eqn:Ed; [done|].
    cbn [fmap list_fmap]. change (list_fmap _ _ flag dl) with (flag <$> dl). rewrite zlen_cons.
    pose proof (zlen_nonneg (flag <$> dl)). rewrite (proj2 (Z.ltb_lt 0 _)) by lia.
    change (aload (flag d :: (flag <$> dl)) 0) with (@Ok Z (flag d)). cbn [mbind res_bind].
    rewrite astore_ok by (rewrite zlen_cons; lia). cbn [mbind res_bind].
    assert (digit_ok d) as Hd by (pose proof (digits128_ok (9 + f) (nval x)) as H'; rewrite Ed in H'; by inversion H').
    assert (Z.land (flag d) 127 = d) as ->.
    { rewrite (land_mask _ 7) by lia. unfold flag, digit_ok in *. symmetry. apply (Z.mod_unique _ _ 1); lia. }
    change (<[Z.to_nat 0:=d]> (flag d :: (flag <$> dl))) with (d :: (flag <$> dl)).
    apply ber_reverse_all.
  - rewrite (proj2 (Z.ltb_lt w 0)); [done|]. destruct (decide (0 ≤ w)) as [H|]; [|lia]. by apply Hsg in H.
Qed.
End pack.

(** ** Unpacking *)

(** The value of digits that follow [acc], most significant first. *)
Definition be128 (acc : Z) (ds : list Z) : Z := fold_left (λ a d, a * 128 + d) ds acc.

(** Their bytes: the flag on all but the last. *)
Fixpoint be_bytes (ds : list Z) : list Z :=
  match ds with [] => [] | [d] => [d] | d :: ds => flag d :: be_bytes ds end.

Lemma be_bytes_len ds : length (be_bytes ds) = length ds.
Proof. induction ds as [|d ds IH]; [done|]. destruct ds; [done|]. cbn [be_bytes length] in *. by rewrite IH. Qed.

Lemma be_bytes_snoc ds d : be_bytes (ds ++ [d]) = (flag <$> ds) ++ [d].
Proof.
  induction ds as [|e ds IH]; [done|]. cbn [app fmap list_fmap]. rewrite <- IH. by destruct ds.
Qed.

Lemma ber_bytes_be ds : ber_bytes ds = be_bytes (match ds with [] => [0] | _ => reverse ds end).
Proof.
  destruct ds as [|d ds]; [done|]. unfold ber_bytes. rewrite !reverse_cons, be_bytes_snoc. f_equal. symmetry. apply fmap_reverse.
Qed.

Lemma be128_mono ds acc : Forall digit_ok ds → 0 ≤ acc → acc ≤ be128 acc ds.
Proof.
  intros H. revert acc. induction H as [|d ds Hd Hds IH]; intros acc Ha; [cbn; lia|]. cbn [be128 fold_left].
  unfold digit_ok in Hd. specialize (IH (acc * 128 + d) ltac:(lia)). unfold be128 in IH. lia.
Qed.

Lemma be128_reverse n v : 0 ≤ v < 2 ^ (7 * Z.of_nat n) → be128 0 (reverse (digits128 n v)) = v.
Proof.
  revert v. induction n as [|n IH]; intros v Hv; [cbn in *; lia|]. cbn [digits128]. destruct (Z.eqb_spec v 0) as [->|]; [done|].
  rewrite reverse_cons. unfold be128. rewrite fold_left_app. cbn [fold_left]. rewrite pow128 in Hv.
  unfold be128 in IH. rewrite IH by (split; [apply Z.div_pos; lia|apply Z.div_lt_upper_bound; lia]). pose proof (Z.div_mod v 128). lia.
Qed.

(** The digits of a number as the decoder meets them. *)
Lemma ber_be v : 0 ≤ v → ∃ ds, ber v = be_bytes ds ∧ ds ≠ [] ∧ Forall digit_ok ds ∧ be128 0 ds = v.
Proof.
  intros Hv. unfold ber. set (n := S (Z.to_nat (Z.log2 v))).
  assert (v < 2 ^ (7 * Z.of_nat n)) as Hn.
  { destruct (decide (v = 0)) as [->|]; [apply Z.pow_pos_nonneg; lia|]. pose proof (Z.log2_spec v ltac:(lia)) as [_ H].
    eapply Z.lt_le_trans; [exact H|]. apply Z.pow_le_mono_r; [lia|]. pose proof (Z.log2_nonneg v). unfold n. lia. }
  rewrite ber_bytes_be. pose proof (be128_reverse n v ltac:(lia)) as Hb. pose proof (digits128_ok n v) as Ho.
  eexists. split; [reflexivity|]. destruct (digits128 n v) as [|d ds] eqn:E.
  - split_and!; [done|repeat constructor; lia|exact Hb].
  - split_and!; [|by apply Forall_reverse|done]. rewrite reverse_cons. intros ?%app_nil. naive_solver.
Qed.

Section unpack.
Context `{J : Junk} `{BY : Beyond}.

Lemma char_at_app pre c post : char_at (pre ++ c :: post) (zlen pre) = Ok c.
Proof.
  unfold char_at. rewrite <- (app_assoc pre). apply aload_ok. rewrite (zlookup_app_r pre) by lia. by rewrite Z.sub_diag.
Qed.

Lemma flag_bits d : digit_ok d →
  Z.land d 127 = d ∧ (Z.land d 128 =? 0) = true ∧ Z.land (flag d) 127 = d ∧ (Z.land (flag d) 128 =? 0) = false.
Proof.
  unfold digit_ok, flag. intros Hd. rewrite (land_mask d 7), (land_mask (128 + d) 7) by lia. change (2 ^ 7) with 128.
  rewrite !land_128 by (unfold byte_ok; lia). split_and!.
  - apply Z.mod_small. lia.
  - apply Z.ltb_lt. lia.
  - symmetry. apply (Z.mod_unique _ _ 1); lia.
  - apply Z.ltb_ge. lia.
Qed.

(** One digit more of a number too large for a [long]. *)
Lemma big_digit b d : big_ok b → zlen (digits b) < 2 ^ 30 → 2 ^ 57 ≤ bigval b → digit_ok d →
  ∃ b' n, rb_big_mul b (Bignum (mkBig true [128])) = Ok (Bignum b') ∧ rb_uint2big d = Ok (mkBig true [d]) ∧
    rb_big_plus b' (Bignum (mkBig true [d])) = Ok n ∧ canon n ∧ nval n = bigval b * 128 + d.
Proof.
  unfold digit_ok. intros Hb Hs Hv Hd.
  assert (rb_big_mul b (Bignum (mkBig true [128])) = rb_big_mul b (Fixnum 128)) as ->.
  { apply mul_fix_operand. by rewrite rb_int2big_spec by (unfold LONG_MIN, LONG_MAX; lia). }
  destruct (rb_big_mul_spec b (Fixnum 128) Hb ltac:(apply canon_fix; lia) Hs ltac:(done)) as (z & Ez & Hz & Hc). cbn [nval] in Hz.
  destruct z as [z|b']; [rewrite canon_fix in Hc; cbn [nval] in Hz; lia|]. exists b'.
  destruct (canon_big b' Hc) as [Hbo Hbt].
  destruct (addsub_spec b' (Fixnum d) true Hbo Hbt ltac:(apply canon_fix; lia)) as (n & En & Hcn & Hn). exists n.
  split_and!; [done|apply rb_uint2big_spec; rewrite BIGRAD_val; lia| |done|cbn [nval] in *; lia].
  rewrite <- En. unfold rb_big_plus. cbn [to_big]. rewrite rb_int2big_spec by (unfold LONG_MIN, LONG_MAX; lia).
  rewrite (proj2 (Z.ltb_ge d 0)), Z.abs_eq by lia. done.
Qed.

Lemma unber_big_spec ds fuel pre post b : ds ≠ [] → Forall digit_ok ds → (length ds < fuel)%nat →
  big_ok b → zlen (digits b) < 2 ^ 30 → 2 ^ 57 ≤ bigval b → small (be128 (bigval b) ds) →
  ∃ n, unber_big fuel (pre ++ be_bytes ds ++ post) (zlen pre) (Bignum b) = Ok (Some n, zlen pre + zlen ds) ∧
    canon n ∧ nval n = be128 (bigval b) ds.
Proof.
  intros Hne Hds. revert fuel pre b. induction Hds as [|d ds Hd Hds IH]; intros fuel pre b Hf Hb Hs Hv Hsm; [done|].
  destruct fuel as [|fuel]; [lia|]. pose proof (flag_bits d Hd) as (F1 & F2 & F3 & F4).
  destruct (big_digit b d Hb Hs Hv Hd) as (b' & n & E1 & E2 & E3 & Hcn & Hn).
  set (c := match ds with [] => d | _ => flag d end).
  assert (be_bytes (d :: ds) = c :: be_bytes ds) as -> by (unfold c; by destruct ds).
  cbn [unber_big app]. rewrite (proj2 (Z.ltb_lt _ _)).
  2: { rewrite zlen_app, zlen_cons. pose proof (zlen_nonneg (be_bytes ds ++ post)). lia. }
  rewrite char_at_app. cbn [mbind res_bind]. rewrite big128. cbn [mbind res_bind]. rewrite E1. cbn [mbind res_bind].
  assert (Z.land c 127 = d) as -> by (unfold c; by destruct ds). rewrite E2. cbn [mbind res_bind]. rewrite E3. cbn [mbind res_bind].
  destruct ds as [|e ds].
  - unfold c. rewrite F2. exists n. split_and!; [|done|done]. by rewrite zlen_cons, zlen_nil.
  - unfold c. rewrite F4. assert (small (be128 (nval n) (e :: ds))) as Hsm' by (rewrite Hn; exact Hsm).
    assert (0 ≤ nval n) as Hn0 by (unfold digit_ok in Hd; lia).
    pose proof (be128_mono (e :: ds) (nval n) Hds Hn0) as Hmono.
    destruct n as [n|b2]; [rewrite canon_fix in Hcn; cbn [nval] in *; unfold digit_ok in Hd; lia|].
    cbn [nval] in *. destruct (canon_big b2 Hcn) as [Hbo _].
    destruct (IH ltac:(done) fuel (pre ++ [flag d]) b2) as (m & Em & Hcm & Hm).
    + cbn in *. lia.
    + done.
    + apply (small_short (Bignum b2) Hcn). cbn [nval]. unfold small in *. lia.
    + unfold digit_ok in Hd. lia.
    + done.
    + exists m. rewrite zlen_app, zlen_cons, zlen_nil in Em. rewrite <- app_assoc in Em. cbn [app] in Em.
      replace (zlen pre + 1) with (zlen pre + (1 + 0)) by lia. rewrite Em, Hn in *. split_and!; [|done|done].
      do 2 f_equal. rewrite (zlen_cons d). lia.
Qed.

Lemma ulmask_spec ul : 0 ≤ ul < 2 ^ 64 → (Z.land ul ulmask =? 0) = (ul <? 2 ^ 57).
Proof.
  intros Hu. assert (Z.land ul ulmask = ul / 2 ^ 57 * 2 ^ 57) as ->.
  { change ulmask with (Z.shiftl (Z.ones 7) 57). rewrite <- Z.shiftl_mul_pow2, <- Z.shiftr_div_pow2 by lia.
    apply Z.bits_inj'. intros n Hn. rewrite Z.land_spec. destruct (decide (n < 57)).
    - rewrite !Z.shiftl_spec_low by lia. apply andb_false_r.
    - rewrite !Z.shiftl_spec by lia. rewrite Z.shiftr_spec by lia. replace (n - 57 + 57) with n by lia.
      destruct (decide (n < 64)); [rewrite Z.ones_spec_low by lia; apply andb_true_r|].
      rewrite Z.ones_spec_high, andb_false_r by lia. symmetry. apply Z.bits_above_log2; [lia|].
      destruct (decide (ul = 0)) as [->|]; [cbn; lia|]. apply Z.log2_lt_pow2; [lia|].
      eapply Z.lt_le_trans; [apply Hu|]. apply Z.pow_le_mono_r; lia. }
  pose proof (Z.div_mod ul (2 ^ 57)). pose proof (Z.mod_pos_bound ul (2 ^ 57)). cmp_spec; lia || done.
Qed.

Lemma unber_number ds fuel pre post ul len vs : ds ≠ [] → Forall digit_ok ds → (length ds < fuel)%nat →
  0 ≤ ul < 2 ^ 57 → 0 < len → small (be128 ul ds) →
  ∃ n fuel', (fuel ≤ fuel' + length ds)%nat ∧ canon n ∧ nval n = be128 ul ds ∧
    iter fuel (unber_step (pre ++ be_bytes ds ++ post)) (len, ul, zlen pre, vs) =
    iter fuel' (unber_step (pre ++ be_bytes ds ++ post)) (len - 1, 0, zlen pre + zlen ds, vs ++ [VInt n]).
Proof.
  intros Hne Hds. revert fuel pre ul. induction Hds as [|d ds Hd Hds IH]; intros fuel pre ul Hf Hu Hl Hsm; [done|].
  destruct fuel as [|fuel]; [lia|]. pose proof (flag_bits d Hd) as (F1 & F2 & F3 & F4). pose proof Hd as Hd'. unfold digit_ok in Hd'.
  set (c := match ds with [] => d | _ => flag d end).
  assert (be_bytes (d :: ds) = c :: be_bytes ds) as -> by (unfold c; by destruct ds).
  set (str := pre ++ (c :: be_bytes ds) ++ post). set (ul' := ul * 128 + d).
  assert (unber_step str (len, ul, zlen pre, vs) =
    if Z.land c 128 =? 0 then v ← rb_uint2inum ul'; Ok (inl (len - 1, 0, zlen pre + 1, vs ++ [VInt v]))
    else if negb (Z.land ul' ulmask =? 0) then
      big ← rb_uint2big ul';
      '(v, s) ← unber_big (S (length str)) str (zlen pre + 1) (Bignum big);
      match v with
      | Some v => Ok (inl (len - 1, 0, s, vs ++ [VInt v]))
      | None => Ok (inl (len, ul', s, vs))
      end
    else Ok (inl (len, ul', zlen pre + 1, vs))) as Hstep.
  { unfold unber_step. rewrite (proj2 (Z.ltb_lt 0 len)) by lia. rewrite (proj2 (Z.ltb_lt (zlen pre) _)).
    2: { unfold str. rewrite zlen_app. cbn [app]. rewrite zlen_cons. pose proof (zlen_nonneg (be_bytes ds ++ post)). lia. }
    cbn [andb]. assert (char_at str (zlen pre) = Ok c) as -> by apply char_at_app. cbn [mbind res_bind].
    assert (Z.land c 127 = d) as -> by (unfold c; by destruct ds).
    rewrite Z.shiftl_mul_pow2, u64_small by lia. rewrite lor_add by lia. done. }
  cbn [iter]. rewrite Hstep. clear Hstep. destruct ds as [|e ds].
  - unfold c. rewrite F2. destruct (uint2num_spec ul' ltac:(unfold ul'; lia)) as (n & -> & Hn & Hc). cbn [mbind res_bind].
    exists n, fuel. split_and!; [cbn; lia|done|done|done].
  - unfold c at 1. rewrite F4, ulmask_spec by (unfold ul'; lia).
    assert (small (be128 ul' (e :: ds))) as Hsm' by exact Hsm.
    assert (zlen (pre ++ [c]) = zlen pre + 1) as Hp by (by rewrite zlen_app).
    assert (str = (pre ++ [c]) ++ be_bytes (e :: ds) ++ post) as Hstr by (unfold str; by rewrite <- app_assoc).
    destruct (Z.ltb_spec ul' (2 ^ 57)); cbn [negb].
    + cbn [mbind res_bind]. destruct (IH ltac:(done) fuel (pre ++ [c]) ul') as (n & fuel' & Hf' & Hc & Hn & E);
        [cbn in *; lia|unfold ul' in *; lia|done|done|].
      exists n, fuel'. rewrite <- Hstr, Hp in E. rewrite E. split_and!; [cbn in *; lia|done|done|].
      do 2 f_equal. rewrite (zlen_cons d). rewrite Z.add_assoc. done.
    + rewrite rb_uint2big_spec by (rewrite BIGRAD_val; unfold ul' in *; lia). cbn [mbind res_bind].
      destruct (unber_big_spec (e :: ds) (S (length str)) (pre ++ [c]) post (mkBig true [ul'])) as (n & E & Hc & Hn).
      * done.
      * done.
      * rewrite Hstr, !length_app, be_bytes_len. lia.
      * split; [apply ok_single; rewrite BIGRAD_val; unfold ul' in *; lia|done].
      * done.
      * unfold bigval. cbn. lia.
      * unfold bigval. cbn [sign digits bval]. by rewrite Z.mul_0_r, Z.add_0_r.
      * rewrite <- Hstr, Hp in E. rewrite E. cbn [mbind res_bind]. exists n, fuel.
        unfold bigval in Hn. cbn [sign digits bval] in Hn. rewrite Z.mul_0_r, Z.add_0_r in Hn.
        split_and!; [cbn in *; lia|done|done|]. do 2 f_equal. rewrite (zlen_cons d), Z.add_assoc. done.
Qed.

Definition is_natural (x : num) : Prop := canon x ∧ 0 ≤ nval x ∧ small (nval x).

Lemma unber_all xs fuel pre post vs : Forall is_natural xs →
  (length (concat ((λ x, ber (nval x)) <$> xs)) < fuel)%nat →
  iter fuel (unber_step (pre ++ concat ((λ x, ber (nval x)) <$> xs) ++ post)) (zlen xs, 0, zlen pre, vs) =
  Ok (vs ++ (VInt <$> xs), zlen pre + zlen (concat ((λ x, ber (nval x)) <$> xs))).
Proof.
  intros H. revert fuel pre vs. induction H as [|x xs (Hc & Hn & Hs) Hxs IH]; intros fuel pre vs Hf; cbn [fmap list_fmap concat] in *.
  - destruct fuel; [cbn in Hf; lia|]. cbn. by rewrite app_nil_r, Z.add_0_r.
  - change (list_fmap _ _ ?f xs) with (f <$> xs) in *. destruct (ber_be (nval x) Hn) as (ds & E & Hne & Hd & Hv).
    rewrite E in *. rewrite length_app, be_bytes_len in Hf. rewrite <- app_assoc.
    destruct (unber_number ds fuel pre (concat ((λ x, ber (nval x)) <$> xs) ++ post) 0 (zlen (x :: xs)) vs)
      as (n & fuel' & Hf' & Hcn & Hnv & Ei); [done|done|lia|lia|rewrite zlen_cons; pose proof (zlen_nonneg xs); lia|by rewrite Hv|].
    rewrite Ei. assert (n = x) as -> by (apply canon_unique; [done|done|congruence]).
    rewrite app_assoc. replace (zlen pre + zlen ds) with (zlen (pre ++ be_bytes ds)) by (rewrite zlen_app; unfold zlen; rewrite be_bytes_len; done).
    rewrite zlen_cons. replace (1 + zlen xs - 1) with (zlen xs) by lia. rewrite IH by lia. rewrite <- app_assoc, !zlen_app. by rewrite Z.add_assoc.
Qed.
End unpack.

Section directive.
Context `{J : Junk} `{BY : Beyond} `{CF : CFMutableData} {L : CFDataLaws CF}.

Lemma w_codec block_p f xs : ftype f = 119 → flen f = zlen xs → Forall is_natural xs →
  codec block_p f (VInt <$> xs) (concat ((λ x, ber (nval x)) <$> xs)) (VInt <$> xs).
Proof.
  intros Ht Hl Hxs. split.
  - intros items data. unfold pack_directive. rewrite Ht, Hl. cbn -[pack_each]. rewrite to_nat_zlen.
    assert (Forall2 (λ v bs, pack_w v = Ok bs) (VInt <$> xs) ((λ x, ber (nval x)) <$> xs)) as H'.
    { apply Forall2_fmap, Forall_Forall2_diag. eapply Forall_impl; [exact Hxs|]. intros x (Hc & Hn & _). by rewrite pack_w_spec, decide_True. }
    pose proof (pack_each_appends _ _ _ H' items data) as Ha. by rewrite length_fmap in Ha.
  - intros pre post Hz. unfold unpack_directive. rewrite Ht, Hl. cbn -[unpack_w]. unfold unpack_w.
    rewrite unber_all; [done|done|]. rewrite !length_app. lia.
Qed.
End directive.
