(* ===== verification/PackStr.v ===== *)
(** * pack.c: strings, bit strings and hexadecimal strings *)

From S2P Require Import Prelude Util Big Numeric Pack Unpack PackSpec PackField PackUtf8.

Section strings.
Context `{J : Junk} `{BY : Beyond} `{CF : CFMutableData} {L : CFDataLaws CF}.

(** ** Padding *)

(** Ten of a character, and something after them. *)
Definition tens (x : Z) (fill : list Z) : Prop := take 10 fill = replicate 10 x ∧ (10 < length fill)%nat.

Lemma append_fill x fill data n : tens x fill → 0 ≤ n ≤ 10 →
  append_bytes data fill n = Ok (CFDataAppendBytes data (replicate (Z.to_nat n) x)).
Proof.
  intros [Ht Hl] Hn. unfold append_bytes. rewrite (proj2 (Z.leb_le 0 n)), (proj2 (Z.leb_le n _)) by (unfold zlen; lia).
  cbn [andb]. do 2 f_equal. replace (take (Z.to_nat n) fill) with (take (Z.to_nat n) (take 10 fill)) by (rewrite take_take; f_equal; lia).
  rewrite Ht, take_replicate. f_equal. lia.
Qed.

Lemma fill_with_spec x fill data n : tens x fill → 0 ≤ n →
  returns (fill_with fill data n) (λ d, CFDataGetBytes d = CFDataGetBytes data ++ replicate (Z.to_nat n) x).
Proof.
  intros Ht Hn. unfold fill_with.
  apply returns_bind_mono with (λ '(len, d), 0 ≤ len < 10 ∧ CFDataGetBytes d ++ replicate (Z.to_nat len) x = CFDataGetBytes data ++ replicate (Z.to_nat n) x).
  - apply (iter_inv (λ '(len, d), 0 ≤ len ∧ CFDataGetBytes d ++ replicate (Z.to_nat len) x = CFDataGetBytes data ++ replicate (Z.to_nat n) x)
      (λ s, Z.to_nat s.1)); [by split|cbn; lia|]. intros [len d] [Hl He]. unfold fill_step. destruct (Z.leb_spec 10 len).
    + rewrite (append_fill x) by (done || lia). cbn [mbind res_bind]. apply returns_ret. cbn [fst]. split; [|lia]. split; [lia|].
      rewrite cf_append, <- app_assoc, <- replicate_add, <- He. do 2 f_equal. lia.
    + apply returns_ret. split; [lia|done].
  - intros [len d] [Hl He]. rewrite (append_fill x) by (done || lia). apply returns_ret. by rewrite cf_append.
Qed.

Lemma nul10_tens : tens 0 nul10.
Proof. split; [done|cbn; lia]. Qed.
Lemma spc10_tens : tens 32 spc10.
Proof. split; [done|cbn; lia]. Qed.

(** ** The directives a, A and Z *)

Lemma append_take data ptr n : 0 ≤ n ≤ zlen ptr → append_bytes data ptr n = Ok (CFDataAppendBytes data (take (Z.to_nat n) ptr)).
Proof. intros H. unfold append_bytes. by rewrite (proj2 (Z.leb_le 0 n)), (proj2 (Z.leb_le n _)) by lia. Qed.

(** The field has the width of the count: cut, or padded. *)
Lemma pack_a_spec type data ptr n : 0 ≤ n →
  returns (pack_a type false data ptr n) (λ d,
    CFDataGetBytes d = CFDataGetBytes data ++ resize (Z.to_nat n) (if type =? 65 then 32 else 0) ptr).
Proof.
  intros Hn. unfold pack_a. cbn [andb]. destruct (Z.leb_spec n (zlen ptr)).
  - rewrite append_take by lia. cbn [mbind res_bind]. apply returns_ret. rewrite cf_append, resize_le by (unfold zlen in *; lia). done.
  - pose proof (zlen_nonneg ptr). rewrite append_take by lia. cbn [mbind res_bind].
    assert (tens (if type =? 65 then 32 else 0) (if type =? 65 then spc10 else nul10)) as Ht.
    { destruct (type =? 65); [apply spc10_tens|apply nul10_tens]. }
    eapply returns_mono; [apply (fill_with_spec _ _ _ _ Ht); lia|]. intros d ->.
    rewrite cf_append, <- app_assoc, to_nat_zlen, firstn_all, resize_ge by (unfold zlen in *; lia).
    do 3 f_equal. unfold zlen. lia.
Qed.

Definition pad_of (type : Z) : Z := if type =? 65 then 32 else 0.

(** What [A] and [Z] take off again. *)
Fixpoint strip_end (l : list Z) : list Z :=
  match l with
  | [] => []
  | c :: l => match strip_end l with
              | [] => if (c =? 32) || (c =? 0) then [] else [c]
              | l' => c :: l'
              end
  end.
Fixpoint up_to_nul (l : list Z) : list Z :=
  match l with [] => [] | c :: l => if c =? 0 then [] else c :: up_to_nul l end.

Definition unpadded (type : Z) (l : list Z) : list Z :=
  if type =? 65 then strip_end l else if type =? 90 then up_to_nul l else l.

Lemma strip_end_snoc l c : strip_end (l ++ [c]) = if (c =? 32) || (c =? 0) then strip_end l else l ++ [c].
Proof.
  induction l as [|d l IH]; cbn [app strip_end]; [done|]. rewrite IH.
  destruct ((c =? 32) || (c =? 0)); [done|]. by destruct l.
Qed.

Lemma strip_end_prefix l : take (length (strip_end l)) l = strip_end l.
Proof. induction l as [|c l IH]; [done|]. cbn [strip_end]. destruct (strip_end l) as [|d l'] eqn:E; [by destruct (_ || _)|]. cbn [length take] in *. by rewrite IH. Qed.
Lemma up_to_nul_prefix l : take (length (up_to_nul l)) l = up_to_nul l.
Proof. induction l as [|c l IH]; [done|]. cbn [up_to_nul]. destruct (c =? 0); [done|]. cbn. by rewrite IH. Qed.

Lemma strip_padding_spec pre l post : strip_padding (length l) (pre ++ l ++ post) (zlen pre) = Ok (zlen (strip_end l)).
Proof.
  revert post. induction l as [|c l IH] using rev_ind; intros post; [done|]. rewrite length_app. cbn [length].
  replace (length l + 1)%nat with (S (length l)) by lia. cbn [strip_padding]. rewrite strip_end_snoc.
  change (Z.of_nat (length l)) with (zlen l). rewrite <- app_assoc. cbn [app].
  replace (char_at (pre ++ l ++ c :: post) (zlen pre + zlen l)) with (@Ok Z c).
  2: { rewrite <- zlen_app, app_assoc. symmetry. apply char_at_app. }
  cbn [mbind res_bind]. rewrite <- negb_orb. destruct ((c =? 32) || (c =? 0)); cbn [negb].
  - apply IH.
  - f_equal. unfold zlen. rewrite length_app. cbn. lia.
Qed.

Lemma until_nul_spec pre l post : until_nul (length l) (pre ++ l ++ post) (zlen pre) = Ok (zlen (up_to_nul l)).
Proof.
  revert pre. induction l as [|c l IH]; intros pre; [done|]. cbn [length until_nul up_to_nul app]. rewrite char_at_app. cbn [mbind res_bind].
  destruct (c =? 0); [done|]. specialize (IH (pre ++ [c])). rewrite zlen_app, <- app_assoc in IH. cbn [app] in IH.
  change (zlen [c]) with 1 in IH. rewrite IH. cbn [mbind res_bind]. by rewrite zlen_cons.
Qed.

Lemma new_str_prefix pre l post p : take (length p) l = p →
  infected_str_new (pre ++ l ++ post) (zlen pre) (zlen p) = Ok (VStr p).
Proof.
  intros Hp. unfold infected_str_new. rewrite (proj2 (Z.ltb_ge _ 0)) by apply zlen_nonneg. rewrite to_nat_zlen.
  rewrite <- (take_drop (length p) l), Hp, <- app_assoc. by rewrite load_bytes_app.
Qed.

Lemma field_fits (pre l post : list Z) : Z.min (zlen l) (zlen (pre ++ l ++ post) - zlen pre) = zlen l.
Proof. rewrite !zlen_app. pose proof (zlen_nonneg post). lia. Qed.

Lemma a_codec block_p f s : ftype f ∈ [65; 97; 90] → field_ok f →
  let bs := resize (Z.to_nat (flen f)) (pad_of (ftype f)) s in
  codec block_p f [VStr s] bs [VStr (unpadded (ftype f) bs)].
Proof.
  intros Ht Hf bs. pose proof (flen_nonneg f Hf) as Hl.
  assert (zlen bs = flen f) as Hb by (unfold zlen, bs; rewrite length_resize; lia). split.
  - intros items data.
    assert (pack_directive (ftype f) (fnat f) (flen f) false ([VStr s] ++ items) data =
      (data ← pack_a (ftype f) false data s (flen f); Ok (items, data))) as ->.
    { rewrite !elem_of_cons, elem_of_nil in Ht. by destruct Ht as [->|[->|[->|[]]]]. }
    eapply returns_bind_mono; [by apply pack_a_spec|]. intros d Hd. apply returns_ret. by split.
  - intros pre post Hz. rewrite !elem_of_cons, elem_of_nil in Ht. rewrite <- Hb. unfold unpadded.
    destruct Ht as [->|[->|[->|[]]]]; unfold unpack_directive; cbn -[unpack_A unpack_a unpack_Z].
    + unfold unpack_A. rewrite field_fits, (proj2 (Z.ltb_ge _ 0)) by apply zlen_nonneg. rewrite to_nat_zlen, strip_padding_spec.
      cbn [mbind res_bind]. by rewrite new_str_prefix by apply strip_end_prefix.
    + unfold unpack_a. rewrite field_fits. by rewrite new_str_prefix by apply firstn_all.
    + unfold unpack_Z. rewrite field_fits, to_nat_zlen, until_nul_spec. cbn [mbind res_bind]. by rewrite new_str_prefix by apply up_to_nul_prefix.
Qed.
End strings.

(** * pack.c: bit strings and hexadecimal strings

    The directives b, B, h and H pack the characters of a string several to a byte.  The
    loops of the four differ in how a character enters the byte and how it leaves it
    again; they are treated together, and a byte at a time. *)

Lemma for_range_split {S} a b c (body : Z → S → res S) s : a ≤ b → b ≤ c →
  for_range a c body s = for_range a b body s ≫= for_range b c body.
Proof.
  intros Hab. remember (Z.to_nat (b - a)) as n eqn:En. revert a s Hab En. induction n as [|n IH]; intros a s Hab En Hbc.
  - replace b with a by lia. by rewrite (for_range_empty a a) by lia.
  - rewrite (for_range_step a c), (for_range_step a b) by lia. destruct (body a s) as [s'|]; [|done]. cbn [mbind res_bind].
    apply IH; lia.
Qed.

(** All lists of characters of a length. *)
Fixpoint words (chars : list Z) (n : nat) : list (list Z) :=
  match n with O => [[]] | S n => c ← chars; (cons c) <$> words chars n end.

Lemma elem_of_words chars l : Forall (λ c, c ∈ chars) l → l ∈ words chars (length l).
Proof.
  induction 1 as [|c l Hc Hl IH]; [by apply list_elem_of_singleton|]. cbn [length words]. apply list_elem_of_bind.
  exists c. split; [|done]. apply list_elem_of_fmap. by exists l.
Qed.

Section grouped.
Context `{J : Junk} `{BY : Beyond} `{CF : CFMutableData} {L : CFDataLaws CF}.
Context (per : nat) (mask : Z) (enter shift : Z → Z → Z) (fin : Z → Z → Z) (ushift udigit : Z → Z) (chars : list Z).
Context (Hper : (0 < per)%nat) (Hmask : ∀ i, 0 ≤ i → Z.land i mask = i mod Z.of_nat per).

(** The byte under construction, and the byte of a group. *)
Definition part (l : list Z) : Z := foldl (λ b c, shift (enter b c) 1) 0 l.
Definition group (l : list Z) : Z :=
  if bool_decide (length l = per) then byte_of (enter (part (take (per - 1) l)) (List.last l 0)) else byte_of (fin (zlen l) (part l)).

(** The characters read from a byte. *)
Fixpoint ungroup (n : nat) (bits : Z) : list Z :=
  match n with O => [] | S n => udigit bits :: ungroup n (ushift bits) end.

Definition check_group (l : list Z) : bool := bool_decide (ungroup (length l) (schar (group l)) = l).
Context (Hcheck : ∀ l, Forall (λ c, c ∈ chars) l → (0 < length l ≤ per)%nat → check_group l = true).

Fixpoint groups (fuel : nat) (cs : list Z) : list (list Z) :=
  match fuel with
  | O => []
  | S fuel => match cs with [] => [] | _ => take per cs :: groups fuel (drop per cs) end
  end.

(** ** Packing *)

Lemma step_in ptr i byte data c : zlookup ptr (i - 1) = Some c → bits_step enter shift mask ptr i (byte, data) =
  if negb (Z.land i mask =? 0) then Ok (shift (enter byte c) 1, data) else Ok (0, CFDataAppendBytes data [byte_of (enter byte c)]).
Proof. intros H. unfold bits_step. by rewrite (proj2 (aload_ok _ _ _) H). Qed.

Lemma pack_part pre l post data : (length l < per)%nat → zlen pre mod Z.of_nat per = 0 →
  for_range (zlen pre + 1) (zlen pre + zlen l + 1) (bits_step enter shift mask (pre ++ l ++ post)) (0, data) = Ok (part l, data).
Proof.
  revert post. induction l as [|c l IH] using rev_ind; intros post Hl Hp.
  - rewrite for_range_empty by (rewrite zlen_nil; lia). done.
  - rewrite length_app in Hl. cbn [length] in Hl. rewrite <- app_assoc. cbn [app].
    rewrite (for_range_split _ (zlen pre + zlen l + 1)) by (rewrite ?zlen_app, ?zlen_cons, ?zlen_nil; pose proof (zlen_nonneg l); lia).
    rewrite IH by (done || lia). cbn [mbind res_bind]. rewrite zlen_app, zlen_cons, zlen_nil.
    rewrite for_range_step by lia.
    rewrite (step_in _ _ _ _ c).
    2: { replace (zlen pre + zlen l + 1 - 1) with (zlen (pre ++ l)) by (rewrite zlen_app; lia). rewrite app_assoc, zlookup_app_r by lia. by rewrite Z.sub_diag. }
    assert (Z.land (zlen pre + zlen l + 1) mask = zlen l + 1) as ->.
    { pose proof (zlen_nonneg pre). pose proof (zlen_nonneg l). rewrite Hmask by lia.
      rewrite <- Z.add_assoc, <- Zplus_mod_idemp_l, Hp, Z.add_0_l. apply Z.mod_small. unfold zlen. lia. }
    rewrite (proj2 (Z.eqb_neq _ 0)) by (unfold zlen; lia). cbn [negb mbind res_bind]. rewrite for_range_empty by lia. unfold part. by rewrite foldl_app.
Qed.

Lemma pack_group pre l post data : length l = per → zlen pre mod Z.of_nat per = 0 →
  for_range (zlen pre + 1) (zlen pre + zlen l + 1) (bits_step enter shift mask (pre ++ l ++ post)) (0, data) =
  Ok (0, CFDataAppendBytes data [group l]).
Proof.
  intros Hl Hp. destruct l as [|c l _] using rev_ind; [cbn in Hl; lia|]. rewrite length_app in Hl. cbn [length] in Hl.
  unfold group. rewrite bool_decide_true by (rewrite length_app; cbn; lia). rewrite take_app_length' by lia. rewrite List.last_last.
  rewrite <- app_assoc. cbn [app].
  rewrite (for_range_split _ (zlen pre + zlen l + 1)) by (rewrite ?zlen_app, ?zlen_cons, ?zlen_nil; pose proof (zlen_nonneg l); lia).
  rewrite pack_part by (done || lia). cbn [mbind res_bind]. rewrite zlen_app, zlen_cons, zlen_nil.
  rewrite for_range_step by lia. rewrite (step_in _ _ _ _ c).
  2: { replace (zlen pre + zlen l + 1 - 1) with (zlen (pre ++ l)) by (rewrite zlen_app; lia). rewrite app_assoc, zlookup_app_r by lia. by rewrite Z.sub_diag. }
  assert (Z.land (zlen pre + zlen l + 1) mask = 0) as ->; [|cbn [Z.eqb negb mbind res_bind]; by rewrite for_range_empty by lia].
  pose proof (zlen_nonneg pre). pose proof (zlen_nonneg l). rewrite Hmask by lia.
  rewrite <- Z.add_assoc, <- Zplus_mod_idemp_l, Hp, Z.add_0_l. replace (zlen l + 1) with (Z.of_nat per) by (unfold zlen; lia).
  apply Z.mod_same. lia.
Qed.

(** The last byte is completed after the loop. *)
Definition finish_group (len : Z) (s : Z * cfdata) : res cfdata :=
  let '(byte, data) := s in
  if negb (Z.land len mask =? 0) then append_bytes data [byte_of (fin (Z.land len mask) byte)] 1 else Ok data.

Lemma pack_groups fuel pre cs data : (length cs ≤ fuel)%nat → zlen pre mod Z.of_nat per = 0 →
  returns (for_range (zlen pre + 1) (zlen pre + zlen cs + 1) (bits_step enter shift mask (pre ++ cs)) (0, data) ≫=
    finish_group (zlen pre + zlen cs)) (λ d, CFDataGetBytes d = CFDataGetBytes data ++ (group <$> groups fuel cs)).
Proof.
  revert pre cs data. induction fuel as [|fuel IH]; intros pre cs data Hf Hp.
  { destruct cs; [|cbn in Hf; lia]. rewrite for_range_empty by (rewrite zlen_nil; lia). cbn [mbind res_bind finish_group groups fmap list_fmap].
    rewrite zlen_nil, Z.add_0_r, Hmask, Hp by apply zlen_nonneg. cbn. apply returns_ret. by rewrite app_nil_r. }
  destruct cs as [|c0 cs0] eqn:Ecs.
  { rewrite for_range_empty by (rewrite zlen_nil; lia). cbn [mbind res_bind finish_group groups fmap list_fmap].
    rewrite zlen_nil, Z.add_0_r, Hmask, Hp by apply zlen_nonneg. cbn. apply returns_ret. by rewrite app_nil_r. }
  rewrite <- Ecs in *. assert (cs ≠ []) as Hne by (by subst). replace (groups (S fuel) cs) with (take per cs :: groups fuel (drop per cs)) by (by subst).
  clear Ecs. assert (0 < length cs)%nat by (destruct cs; [done|cbn; lia]).
  cbn [fmap list_fmap]. change (list_fmap _ _ group ?x) with (group <$> x).
  destruct (decide (length cs < per)%nat) as [Hs|Hs].
  - rewrite <- (app_nil_r (pre ++ cs)), <- app_assoc, pack_part by done. cbn [mbind res_bind finish_group].
    pose proof (zlen_nonneg pre).
    assert (Z.land (zlen pre + zlen cs) mask = zlen cs) as ->.
    { rewrite Hmask by (unfold zlen; lia). rewrite <- Zplus_mod_idemp_l, Hp, Z.add_0_l. apply Z.mod_small. unfold zlen. lia. }
    rewrite (proj2 (Z.eqb_neq _ 0)) by (unfold zlen; lia). cbn [negb]. apply returns_ret. rewrite cf_append, (take_ge cs per), (drop_ge cs per) by lia.
    f_equal. unfold group. rewrite bool_decide_false by lia. cbn [take Z.to_nat]. by destruct fuel.
  - set (l := take per cs). set (r := drop per cs). assert (cs = l ++ r) as Ecs by (symmetry; apply take_drop).
    assert (length l = per) as Hl by (unfold l; rewrite length_take; lia). rewrite Ecs, zlen_app.
    rewrite (for_range_split _ (zlen pre + zlen l + 1)) by (pose proof (zlen_nonneg l); pose proof (zlen_nonneg r); lia).
    rewrite pack_group by done. cbn [mbind res_bind]. rewrite Z.add_assoc, app_assoc, <- zlen_app.
    eapply returns_mono; [apply IH|].
    + unfold r. rewrite length_drop. lia.
    + rewrite zlen_app. unfold zlen at 2. rewrite Hl. rewrite <- Zplus_mod_idemp_l, Hp, Z.add_0_l. apply Z.mod_same. lia.
    + intros d ->. by rewrite cf_append, <- app_assoc.
Qed.

(** ** Unpacking *)

Lemma unstep_shift str i s bits t : Z.land i mask ≠ 0 →
  unbits_step str mask ushift udigit i (s, bits, t) = Ok (s, ushift bits, t ++ [udigit (ushift bits)]).
Proof. intros H. unfold unbits_step. by rewrite (proj2 (Z.eqb_neq _ _) H). Qed.
Lemma unstep_load str i s bits t c : Z.land i mask = 0 → char_at str s = Ok c →
  unbits_step str mask ushift udigit i (s, bits, t) = Ok (s + 1, schar c, t ++ [udigit (schar c)]).
Proof. intros H E. unfold unbits_step. by rewrite H, E. Qed.

Lemma unpack_rest str n i s bits t : 0 < i → (Z.of_nat n + i ≤ Z.of_nat per) → ∀ o, 0 ≤ o → o mod Z.of_nat per = 0 →
  ∃ bits', for_range (o + i) (o + i + Z.of_nat n) (unbits_step str mask ushift udigit) (s, bits, t) =
    Ok (s, bits', t ++ ungroup n (ushift bits)).
Proof.
  revert i bits t. induction n as [|n IH]; intros i bits t Hi Hn o Ho Hom.
  - exists bits. rewrite for_range_empty by lia. cbn. by rewrite app_nil_r.
  - rewrite for_range_step by lia.
    assert (Z.land (o + i) mask = i) as Ei.
    { rewrite Hmask by lia. rewrite <- Zplus_mod_idemp_l, Hom, Z.add_0_l. apply Z.mod_small. lia. }
    rewrite unstep_shift by lia. cbn [mbind res_bind].
    destruct (IH (i + 1) (ushift bits) (t ++ [udigit (ushift bits)]) ltac:(lia) ltac:(lia) o Ho Hom) as (bits' & E).
    exists bits'. replace (o + i + Z.of_nat (S n)) with (o + (i + 1) + Z.of_nat n) by lia. rewrite <- Z.add_assoc.
    rewrite E. cbn [ungroup]. by rewrite <- app_assoc.
Qed.

Lemma unpack_group pre v post n o bits t : (0 < n ≤ per)%nat → 0 ≤ o → o mod Z.of_nat per = 0 →
  ∃ bits', for_range o (o + Z.of_nat n) (unbits_step (pre ++ v :: post) mask ushift udigit) (zlen pre, bits, t) =
    Ok (zlen pre + 1, bits', t ++ ungroup n (schar v)).
Proof.
  intros Hn Ho Hom. rewrite for_range_step by lia.
  rewrite (unstep_load _ _ _ _ _ v); [|by rewrite Hmask, Hom by lia|apply char_at_app]. cbn [mbind res_bind].
  destruct n as [|n]; [lia|]. destruct (unpack_rest (pre ++ v :: post) n 1 (zlen pre + 1) (schar v) (t ++ [udigit (schar v)]) ltac:(lia) ltac:(lia) o Ho Hom)
    as (bits' & E). exists bits'. replace (o + Z.of_nat (S n)) with (o + 1 + Z.of_nat n) by lia. rewrite E. cbn [ungroup]. by rewrite <- app_assoc.
Qed.

Lemma unpack_groups fuel cs pre post o bits t : (length cs ≤ fuel)%nat → 0 ≤ o → o mod Z.of_nat per = 0 → Forall (λ c, c ∈ chars) cs →
  ∃ bits', for_range o (o + zlen cs) (unbits_step (pre ++ (group <$> groups fuel cs) ++ post) mask ushift udigit) (zlen pre, bits, t) =
    Ok (zlen pre + zlen (group <$> groups fuel cs), bits', t ++ cs).
Proof.
  revert cs pre o bits t. induction fuel as [|fuel IH]; intros cs pre o bits t Hf Ho Hom Hc.
  { destruct cs; [|cbn in Hf; lia]. exists bits. rewrite for_range_empty by (rewrite zlen_nil; lia). cbn. by rewrite app_nil_r, Z.add_0_r. }
  destruct cs as [|c0 cs0] eqn:Ecs.
  { exists bits. rewrite for_range_empty by (rewrite zlen_nil; lia). cbn. by rewrite app_nil_r, Z.add_0_r. }
  rewrite <- Ecs in *. assert (0 < length cs)%nat by (rewrite Ecs; cbn; lia). replace (groups (S fuel) cs) with (take per cs :: groups fuel (drop per cs)) by (by subst).
  clear Ecs. set (l := take per cs). set (r := drop per cs). assert (cs = l ++ r) as Ecs by (symmetry; apply take_drop).
  assert (0 < length l ≤ per)%nat as Hl by (unfold l; rewrite length_take; lia).
  rewrite Ecs in Hc. apply Forall_app in Hc as [Hcl Hcr]. rewrite Ecs, zlen_app. cbn [fmap list_fmap app].
  change (list_fmap _ _ group ?x) with (group <$> x).
  rewrite (for_range_split _ (o + zlen l)) by (pose proof (zlen_nonneg l); pose proof (zlen_nonneg r); lia).
  destruct (unpack_group pre (group l) ((group <$> groups fuel r) ++ post) (length l) o bits t Hl Ho Hom) as (b1 & E1).
  change (Z.of_nat (length l)) with (zlen l) in E1. rewrite E1. cbn [mbind res_bind].
  pose proof (Hcheck l Hcl Hl) as Hk. unfold check_group in Hk. apply bool_decide_eq_true in Hk. rewrite Hk.
  destruct (decide (r = [])) as [Hr|Hr].
  - rewrite Hr, zlen_nil, Z.add_0_r, for_range_empty by lia. exists b1. rewrite app_nil_r. destruct fuel; cbn; by rewrite zlen_cons.
  - assert (length l = per) as Hlp.
    { unfold l. rewrite length_take. destruct (decide (per ≤ length cs)%nat); [lia|]. exfalso. apply Hr. unfold r. apply drop_ge. lia. }
    destruct (IH r (pre ++ [group l]) (o + zlen l) b1 (t ++ l)) as (b2 & E2).
    + unfold r. rewrite length_drop. lia.
    + pose proof (zlen_nonneg l). lia.
    + unfold zlen. rewrite Hlp, <- Zplus_mod_idemp_l, Hom, Z.add_0_l. apply Z.mod_same. lia.
    + done.
    + exists b2. rewrite zlen_app, <- app_assoc in E2. cbn [app] in E2. change (zlen [group l]) with 1 in E2.
      rewrite Z.add_assoc, E2, zlen_cons, <- app_assoc. by rewrite Z.add_assoc.
Qed.

Lemma groups_len fuel cs : (length cs ≤ fuel)%nat → zlen cs ≤ Z.of_nat per * zlen (groups fuel cs).
Proof.
  revert cs. induction fuel as [|fuel IH]; intros cs Hf.
  { destruct cs; [cbn [groups]; rewrite !zlen_nil; lia|cbn in Hf; lia]. }
  destruct cs as [|c cs]; [cbn [groups]; rewrite !zlen_nil; lia|]. cbn [groups]. rewrite (zlen_cons (take _ _)).
  specialize (IH (drop per (c :: cs))). rewrite length_drop in IH. specialize (IH ltac:(lia)).
  rewrite <- (take_drop per (c :: cs)) at 1. rewrite zlen_app. unfold zlen at 1. rewrite length_take. lia.
Qed.

(** ** The two directions together *)

Definition group_bytes (cs : list Z) : list Z := group <$> groups (length cs) cs.

Lemma pack_grouped cs data :
  returns (d ← (for_range 1 (zlen cs + 1) (bits_step enter shift mask cs) (0, data) ≫= finish_group (zlen cs)); grow d 0)
    (λ d, CFDataGetBytes d = CFDataGetBytes data ++ group_bytes cs).
Proof.
  eapply returns_bind_mono; [apply (pack_groups (length cs) [] cs data ltac:(lia)); by rewrite Z.mod_0_l by lia|].
  intros d Hd. eapply returns_mono; [apply (fill_with_spec _ _ _ _ nul10_tens); lia|]. intros d' ->. cbn. by rewrite app_nil_r.
Qed.

Lemma unpack_grouped block_p cs pre post : Forall (λ c, c ∈ chars) cs →
  unbits block_p (Z.of_nat per) false mask ushift udigit (pre ++ group_bytes cs ++ post) (zlen pre) (zlen cs) =
  Ok (VStr (if block_p then replicate (length cs) 0 else cs), zlen pre + zlen (group_bytes cs)).
Proof.
  intros Hc. unfold unbits. cbn [orb].
  assert (zlen cs ≤ (zlen (pre ++ group_bytes cs ++ post) - zlen pre) * Z.of_nat per) as Hle.
  { pose proof (groups_len (length cs) cs ltac:(lia)). unfold group_bytes. rewrite !zlen_app. unfold zlen at 3. rewrite length_fmap.
    change (Z.of_nat (length (groups (length cs) cs))) with (zlen (groups (length cs) cs)). pose proof (zlen_nonneg post). nia. }
  rewrite (proj2 (Z.ltb_ge _ _) Hle), (proj2 (Z.ltb_ge _ 0)) by apply zlen_nonneg.
  destruct (unpack_groups (length cs) cs pre post 0 0 [] ltac:(lia) ltac:(lia) ltac:(by rewrite Z.mod_0_l by lia) Hc) as (b & E).
  rewrite Z.add_0_l in E. unfold group_bytes. rewrite E. cbn [mbind res_bind app]. by rewrite to_nat_zlen.
Qed.
End grouped.

(** ** The four directives *)

Section instances.
Context `{J : Junk} `{BY : Beyond} `{CF : CFMutableData} {L : CFDataLaws CF}.

Definition bit_chars : list Z := [48; 49].
Definition hex_chars : list Z := seqZ 48 10 ++ seqZ 97 6.
Definition fin_b (k byte : Z) : Z := Z.shiftr byte (7 - k).
Definition fin_B (k byte : Z) : Z := Z.shiftl byte (7 - k).

Lemma check_words per (chk : list Z → bool) chars : 
  forallb (λ n, forallb chk (words chars n)) (seq 1 per) = true →
  ∀ l, Forall (λ c, c ∈ chars) l → (0 < length l ≤ per)%nat → chk l = true.
Proof.
  intros H l Hl Hn. rewrite forallb_forall in H. pose proof (H (length l) ltac:(apply in_seq; lia)) as H1. cbv beta in H1.
  rewrite forallb_forall in H1. apply H1, list_elem_of_In. by apply elem_of_words.
Qed.

(** What a directive packs a string into. *)
Definition bits_bytes (type : Z) (cs : list Z) : list Z :=
  if type =? 98 then group_bytes 8 enter_b Z.shiftr fin_b cs else
  if type =? 66 then group_bytes 8 enter_B Z.shiftl fin_B cs else
  if type =? 104 then group_bytes 2 enter_h (λ b _, Z.shiftr b 4) (λ _ b, b) cs
  else group_bytes 2 enter_H (λ b _, Z.shiftl b 4) (λ _ b, b) cs.

Definition bits_chars (type : Z) : list Z := if (type =? 98) || (type =? 66) then bit_chars else hex_chars.

Lemma mask7 i : 0 ≤ i → Z.land i 7 = i mod Z.of_nat 8.
Proof. intros _. by apply (land_mask _ 3). Qed.
Lemma mask1 i : 0 ≤ i → Z.land i 1 = i mod Z.of_nat 2.
Proof. intros _. by apply (land_mask _ 1). Qed.

Lemma short_by_same n : short_by n n = 0.
Proof. unfold short_by. by rewrite Z.ltb_irrefl. Qed.

Lemma pack_bits_op type cs items data : type ∈ [98; 66; 104; 72] →
  returns (pack_string type false (zlen cs) (VStr cs :: items) data)
    (λ r, r.1 = items ∧ CFDataGetBytes r.2 = CFDataGetBytes data ++ bits_bytes type cs).
Proof.
  rewrite !elem_of_cons, elem_of_nil. intros Ht. unfold pack_string. cbn [NEXTFROM mbind res_bind].
  destruct Ht as [->|[->|[->|[->|[]]]]]; cbn [StringValue mbind res_bind Z.eqb Pos.eqb].
  - unfold pack_b. rewrite Z.min_id, short_by_same. pose proof (pack_grouped 8 7 enter_b Z.shiftr fin_b ltac:(lia) mask7 cs data) as H.
    destruct (for_range 1 (zlen cs + 1) _ _) as [[byte d]|]; [|by destruct H as (? & ? & ?)]. cbn [mbind res_bind finish_group] in *.
    eapply returns_bind_mono; [exact H|]. intros d' Hd. by apply returns_ret.
  - unfold pack_B. rewrite Z.min_id, short_by_same. pose proof (pack_grouped 8 7 enter_B Z.shiftl fin_B ltac:(lia) mask7 cs data) as H.
    destruct (for_range 1 (zlen cs + 1) _ _) as [[byte d]|]; [|by destruct H as (? & ? & ?)]. cbn [mbind res_bind finish_group] in *.
    eapply returns_bind_mono; [exact H|]. intros d' Hd. by apply returns_ret.
  - unfold pack_h. rewrite Z.min_id, Z.ltb_irrefl. pose proof (pack_grouped 2 1 enter_h (λ b _, Z.shiftr b 4) (λ _ b, b) ltac:(lia) mask1 cs data) as H.
    destruct (for_range 1 (zlen cs + 1) _ _) as [[byte d]|]; [|by destruct H as (? & ? & ?)]. cbn [mbind res_bind finish_group] in *.
    eapply returns_bind_mono; [exact H|]. intros d' Hd. by apply returns_ret.
  - unfold pack_H. rewrite Z.min_id, short_by_same. pose proof (pack_grouped 2 1 enter_H (λ b _, Z.shiftl b 4) (λ _ b, b) ltac:(lia) mask1 cs data) as H.
    destruct (for_range 1 (zlen cs + 1) _ _) as [[byte d]|]; [|by destruct H as (? & ? & ?)]. cbn [mbind res_bind finish_group] in *.
    eapply returns_bind_mono; [exact H|]. intros d' Hd. by apply returns_ret.
Qed.

Lemma bits_codec block_p f cs : ftype f ∈ [98; 66; 104; 72] → flen f = zlen cs → Forall (λ c, c ∈ bits_chars (ftype f)) cs →
  codec block_p f [VStr cs] (bits_bytes (ftype f) cs) [VStr (if block_p then replicate (length cs) 0 else cs)].
Proof.
  intros Ht Hl Hc. split.
  - intros items data. rewrite Hl.
    assert (pack_directive (ftype f) (fnat f) (zlen cs) false ([VStr cs] ++ items) data = pack_string (ftype f) false (zlen cs) (VStr cs :: items) data) as ->.
    { rewrite !elem_of_cons, elem_of_nil in Ht. by destruct Ht as [->|[->|[->|[->|[]]]]]. }
    by apply pack_bits_op.
  - intros pre post Hz. rewrite Hl. rewrite !elem_of_cons, elem_of_nil in Ht.
    destruct Ht as [E|[E|[E|[E|[]]]]]; rewrite E in *; unfold unpack_directive, bits_bytes; cbn [Z.eqb Pos.eqb].
    + unfold unpack_b. change 8 with (Z.of_nat 8). erewrite unpack_grouped; [done|lia|apply mask7| |exact Hc].
      apply (check_words 8). vm_compute. reflexivity.
    + unfold unpack_B. change 8 with (Z.of_nat 8). erewrite unpack_grouped; [done|lia|apply mask7| |exact Hc].
      apply (check_words 8). vm_compute. reflexivity.
    + unfold unpack_h. change 2 with (Z.of_nat 2). erewrite unpack_grouped; [done|lia|apply mask1| |exact Hc].
      apply (check_words 2). vm_compute. reflexivity.
    + unfold unpack_H. change 2 with (Z.of_nat 2). erewrite unpack_grouped; [done|lia|apply mask1| |exact Hc].
      apply (check_words 2). vm_compute. reflexivity.
Qed.
End instances.
