(* ===== verification/PackText.v ===== *)
(** * pack.c: base64 and uuencoded text

    What [encodes] writes, through its buffer of eight bytes, and what the decoders
    read. *)

From S2P Require Import Prelude Util Big Numeric Pack Unpack PackSpec PackField PackUtf8 PackStr.

(** ** Groups of three bytes *)

(** The sextets of a group. *)
Definition sextets (c0 c1 c2 : Z) : list Z :=
  [c0 / 4; c0 mod 4 * 16 + c1 / 16; c1 mod 16 * 4 + c2 / 64; c2 mod 64].

Definition code (trans : list Z) (i : Z) : Z := default 0 (zlookup trans i).

(** The text of a list of bytes: each group, and the padding of the last. *)
Fixpoint enc (trans : list Z) (pad : Z) (s : list Z) : list Z :=
  match s with
  | c0 :: c1 :: c2 :: s => (code trans <$> sextets c0 c1 c2) ++ enc trans pad s
  | [c0; c1] => (code trans <$> take 3 (sextets c0 c1 0)) ++ [pad]
  | [c0] => (code trans <$> take 2 (sextets c0 0 0)) ++ [pad; pad]
  | [] => []
  end.

Lemma sextets_range c0 c1 c2 : byte_ok c0 → byte_ok c1 → byte_ok c2 → Forall (λ x, 0 ≤ x < 64) (sextets c0 c1 c2).
Proof.
  unfold byte_ok, sextets. intros H0 H1 H2. pose proof (Z.div_pos c0 4). pose proof (Z.div_lt_upper_bound c0 4 64).
  pose proof (Z.mod_pos_bound c0 4). pose proof (Z.div_pos c1 16). pose proof (Z.div_lt_upper_bound c1 16 16).
  pose proof (Z.mod_pos_bound c1 16). pose proof (Z.div_pos c2 64). pose proof (Z.div_lt_upper_bound c2 64 4).
  pose proof (Z.mod_pos_bound c2 64). repeat constructor; lia.
Qed.

(** The expressions of the code, on [char]s. *)
Lemma schar_bits c : byte_ok c →
  Z.land 63 (Z.shiftr (schar c) 2) = c / 4 ∧ Z.land (Z.shiftl (schar c) 4) 48 = c mod 4 * 16 ∧
  Z.land (Z.shiftr (schar c) 4) 15 = c / 16 ∧ Z.land (Z.shiftl (schar c) 2) 60 = c mod 16 * 4 ∧
  Z.land (Z.shiftr (schar c) 6) 3 = c / 64 ∧ Z.land 63 (schar c) = c mod 64.
Proof.
  intros Hc. pose (P := λ c : Z, (Z.land 63 (Z.shiftr (schar c) 2) =? c / 4) && (Z.land (Z.shiftl (schar c) 4) 48 =? c mod 4 * 16) &&
    (Z.land (Z.shiftr (schar c) 4) 15 =? c / 16) && (Z.land (Z.shiftl (schar c) 2) 60 =? c mod 16 * 4) &&
    (Z.land (Z.shiftr (schar c) 6) 3 =? c / 64) && (Z.land 63 (schar c) =? c mod 64)).
  assert (P c = true) as H by (apply byte_check; [vm_compute; reflexivity|done]). unfold P in H.
  rewrite !andb_true_iff, !Z.eqb_eq in H. tauto.
Qed.

Lemma quad_spec trans c0 c1 c2 : zlen trans = 64 → byte_ok c0 → byte_ok c1 → byte_ok c2 →
  quad trans c0 c1 c2 = Ok (code trans <$> sextets c0 c1 c2).
Proof.
  intros Ht H0 H1 H2. pose proof (sextets_range c0 c1 c2 H0 H1 H2) as Hs. unfold sextets in Hs. rewrite !Forall_cons in Hs.
  destruct Hs as (S0 & S1 & S2 & S3 & _).
  destruct (schar_bits c0 H0) as (A1 & A2 & _). destruct (schar_bits c1 H1) as (_ & _ & B3 & B4 & _).
  destruct (schar_bits c2 H2) as (_ & _ & _ & _ & C5 & C6). unfold quad. rewrite A1, A2, B3, B4, C5, C6.
  unfold byte_ok in *.
  assert (∀ x y, 0 ≤ y < 16 → 0 ≤ x * 16 + y < 64 → Z.land 63 (Z.lor (x * 16) y) = x * 16 + y) as H16.
  { intros x y Hy Hxy. change 16 with (2 ^ 4) in *. rewrite lor_add, Z.land_comm, (land_mask _ 6), Z.mod_small by lia. done. }
  assert (∀ x y, 0 ≤ y < 4 → 0 ≤ x * 4 + y < 64 → Z.land 63 (Z.lor (x * 4) y) = x * 4 + y) as H4.
  { intros x y Hy Hxy. change 4 with (2 ^ 2) in *. rewrite lor_add, Z.land_comm, (land_mask _ 6), Z.mod_small by lia. done. }
  rewrite H16 by (done || (split; [apply Z.div_pos|apply Z.div_lt_upper_bound]; lia)).
  rewrite H4 by (done || (split; [apply Z.div_pos|apply Z.div_lt_upper_bound]; lia)).
  assert (∀ i, 0 ≤ i < 64 → aload trans i = Ok (code trans i)) as Hl.
  { intros i Hi. destruct (zlookup_is_Some trans i ltac:(lia)) as [x Hx]. unfold code. rewrite Hx. by apply aload_ok. }
  rewrite !Hl by done. done.
Qed.

(** The three bytes of four sextets. *)
Lemma hunk_spec c0 c1 c2 : byte_ok c0 → byte_ok c1 → byte_ok c2 →
  byte_of <$> hunk (c0 / 4) (c0 mod 4 * 16 + c1 / 16) (c1 mod 16 * 4 + c2 / 64) (c2 mod 64) = [c0; c1; c2].
Proof.
  unfold byte_ok. intros H0 H1 H2. unfold hunk. cbn [fmap list_fmap]. rewrite !byte_of_mod.
  pose proof (Z.mod_pos_bound c0 4). pose proof (Z.mod_pos_bound c1 16). pose proof (Z.mod_pos_bound c2 64).
  assert (0 ≤ c1 / 16 < 16) by (split; [apply Z.div_pos|apply Z.div_lt_upper_bound]; lia).
  assert (0 ≤ c2 / 64 < 4) by (split; [apply Z.div_pos|apply Z.div_lt_upper_bound]; lia).
  pose proof (Z.div_mod c0 4). pose proof (Z.div_mod c1 16). pose proof (Z.div_mod c2 64).
  rewrite !Z.shiftl_mul_pow2, !Z.shiftr_div_pow2 by lia. change (2 ^ 2) with 4. change (2 ^ 4) with 16. change (2 ^ 6) with 64.
  replace ((c0 mod 4 * 16 + c1 / 16) / 16) with (c0 mod 4) by (apply (Z.div_unique _ _ _ (c1 / 16)); lia).
  replace ((c1 mod 16 * 4 + c2 / 64) / 4) with (c1 mod 16) by (apply (Z.div_unique _ _ _ (c2 / 64)); lia).
  pose proof (lor_add (c0 / 4) (c0 mod 4) 2 ltac:(lia) ltac:(lia)) as E0.
  pose proof (lor_add (c0 mod 4 * 16 + c1 / 16) (c1 mod 16) 4 ltac:(lia) ltac:(lia)) as E1.
  pose proof (lor_add (c1 mod 16 * 4 + c2 / 64) (c2 mod 64) 6 ltac:(lia) ltac:(lia)) as E2.
  change (2 ^ 2) with 4 in *. change (2 ^ 4) with 16 in *. change (2 ^ 6) with 64 in *. rewrite E0, E1, E2.
  f_equal; [|f_equal; [|f_equal]].
  - rewrite Z.mod_small; lia.
  - symmetry. apply (Z.mod_unique _ _ (c0 mod 4)); lia.
  - symmetry. apply (Z.mod_unique _ _ (c1 mod 16)); lia.
Qed.

(** ** Buffers *)

Lemma puts_ok cap buff cs : zlen buff + zlen cs ≤ cap → puts cap buff cs = Ok (buff ++ (byte_of <$> cs)).
Proof.
  revert buff. induction cs as [|c cs IH]; intros buff H; cbn [puts fmap list_fmap]; [by rewrite app_nil_r|].
  rewrite zlen_cons in H. pose proof (zlen_nonneg cs). unfold put. rewrite (proj2 (Z.ltb_lt _ _)) by lia. cbn [mbind res_bind].
  rewrite IH by (rewrite zlen_app, zlen_cons, zlen_nil; lia). by rewrite <- app_assoc.
Qed.
Lemma put_ok cap buff c : zlen buff < cap → byte_ok c → put cap buff c = Ok (buff ++ [c]).
Proof. intros H Hc. unfold put. rewrite (proj2 (Z.ltb_lt _ _)) by done. by rewrite byte_of_small. Qed.
Lemma bytes_fixed cs : bytes_ok cs → byte_of <$> cs = cs.
Proof. induction 1 as [|c cs Hc Hcs IH]; [done|]. cbn [fmap list_fmap]. rewrite byte_of_small by done. by f_equal. Qed.
Lemma puts_bytes cap buff cs : bytes_ok cs → zlen buff + zlen cs ≤ cap → puts cap buff cs = Ok (buff ++ cs).
Proof. intros Hc H. rewrite puts_ok by done. by rewrite bytes_fixed. Qed.

(** ** [encodes] *)

Definition table_ok (trans : list Z) : Prop := zlen trans = 64 ∧ bytes_ok trans.

Lemma code_ok trans i : table_ok trans → byte_ok (code trans i).
Proof.
  intros [_ Hb]. unfold code. destruct (zlookup trans i) as [x|] eqn:E; [|cbn; unfold byte_ok; lia]. cbn.
  unfold zlookup in E. destruct (0 <=? i); [|done]. unfold bytes_ok in Hb. rewrite Forall_forall in Hb. apply Hb. by eapply list_elem_of_lookup_2.
Qed.
Lemma codes_ok trans l : table_ok trans → bytes_ok (code trans <$> l).
Proof. intros Ht. apply Forall_fmap, Forall_true. intros x. by apply code_ok. Qed.

Definition trans_of (type : Z) : list Z := if type =? 117 then uu_table else b64_table.
Definition padding_of (type : Z) : Z := if type =? 117 then 96 else 61.
Definition header_of (type len : Z) : list Z := if type =? 117 then [byte_of (len + 32)] else [].

Lemma tables_ok type : table_ok (trans_of type).
Proof.
  assert (∀ l : list Z, forallb (λ c, (0 <=? c) && (c <? 256)) l = true → bytes_ok l) as H.
  { intros l Hl. apply Forall_forall. intros x Hx. rewrite forallb_forall in Hl. specialize (Hl x ltac:(by apply list_elem_of_In)).
    cbv beta in Hl. rewrite andb_true_iff, Z.leb_le, Z.ltb_lt in Hl. done. }
  unfold trans_of. destruct (type =? 117); (split; [done|apply H; vm_compute; reflexivity]).
Qed.

Section encodes.
Context `{J : Junk} `{CF : CFMutableData} {L : CFDataLaws CF}.

Lemma room_le (buff : list Z) : zlen buff ≤ 8 → room buff = 8 - zlen buff.
Proof. intros H. unfold room. pose proof (zlen_nonneg buff). apply u64_small. lia. Qed.

Lemma enc_step trans pad s : bytes_ok s → 3 ≤ zlen s →
  ∃ c0 c1 c2, aload s 0 = Ok c0 ∧ aload s 1 = Ok c1 ∧ aload s 2 = Ok c2 ∧ byte_ok c0 ∧ byte_ok c1 ∧ byte_ok c2 ∧
    bytes_ok (drop 3 s) ∧ enc trans pad s = (code trans <$> sextets c0 c1 c2) ++ enc trans pad (drop 3 s).
Proof.
  intros Hs Hl. destruct Hs as [|c0 s H0 Hs]; [unfold zlen in Hl; cbn [length] in Hl; lia|]. destruct Hs as [|c1 s H1 Hs]; [unfold zlen in Hl; cbn [length] in Hl; lia|].
  destruct Hs as [|c2 s H2 Hs]; [unfold zlen in Hl; cbn [length] in Hl; lia|]. exists c0, c1, c2. by split_and!.
Qed.

Lemma inner_spec trans pad cap s buff : table_ok trans → bytes_ok s → zlen buff ≤ 8 → 8 ≤ cap →
  returns (iter (S (length s)) (encodes_inner trans cap) (s, buff)) (λ '(s', buff'),
    bytes_ok s' ∧ zlen buff' ≤ 8 ∧ buff' ++ enc trans pad s' = buff ++ enc trans pad s ∧ (zlen s' < 3 ∨ 4 < zlen buff') ∧
    (length s' ≤ length s)%nat ∧ (3 ≤ zlen s → zlen buff ≤ 4 → (length s' < length s)%nat)).
Proof.
  intros Ht Hs Hb Hcap.
  apply (iter_inv (λ '(s', buff'), bytes_ok s' ∧ zlen buff' ≤ 8 ∧ buff' ++ enc trans pad s' = buff ++ enc trans pad s ∧
    (length s' ≤ length s)%nat ∧ ((s', buff') = (s, buff) ∨ (length s' < length s)%nat)) (λ st, length st.1)); [|cbn; lia|].
  { split_and!; [done|done|done|lia|by left]. }
  intros [s' buff'] (Hs' & Hb' & He & Hl & Hp). unfold encodes_inner. rewrite room_le by done.
  destruct (Z.leb_spec 3 (zlen s')); cbn [andb].
  2: { apply returns_ret. split_and!; [done..|by left|done|]. intros H3 H4. destruct Hp as [[= -> ->]|]; [lia|done]. }
  destruct (Z.leb_spec 4 (8 - zlen buff')).
  2: { apply returns_ret. split_and!; [done..|by right; lia|done|]. intros H3 H4. destruct Hp as [[= -> ->]|]; [lia|done]. }
  destruct (enc_step trans pad s' Hs' ltac:(lia)) as (c0 & c1 & c2 & -> & -> & -> & ? & ? & ? & Hd & E). cbn [mbind res_bind].
  rewrite quad_spec by (done || apply Ht). cbn [mbind res_bind].
  rewrite puts_bytes; [|by apply codes_ok|unfold zlen in *; cbn; lia]. cbn [mbind res_bind]. apply returns_ret.
  assert (length (drop 3 s') = length s' - 3)%nat as Hdl by apply length_drop. unfold zlen in *. split; [|cbn [fst]; lia]. split_and!.
  - done.
  - rewrite length_app. cbn. lia.
  - rewrite <- app_assoc, <- E. done.
  - lia.
  - right. lia.
Qed.

Lemma outer_spec trans pad cap s buff data : table_ok trans → bytes_ok s → zlen buff ≤ 4 → 8 ≤ cap →
  returns (iter (S (length s)) (encodes_outer trans cap) (s, buff, data)) (λ '(s', buff', d'),
    bytes_ok s' ∧ zlen buff' ≤ 4 ∧ zlen s' < 3 ∧
    CFDataGetBytes d' ++ buff' ++ enc trans pad s' = CFDataGetBytes data ++ buff ++ enc trans pad s ∧
    (zlen s < 3 → s' = s ∧ buff' = buff)).
Proof.
  intros Ht Hs Hb Hcap.
  apply (iter_inv (λ '(s', buff', d'), bytes_ok s' ∧ zlen buff' ≤ 4 ∧
    CFDataGetBytes d' ++ buff' ++ enc trans pad s' = CFDataGetBytes data ++ buff ++ enc trans pad s ∧
    (zlen s < 3 → s' = s ∧ buff' = buff)) (λ st, length st.1.1)); [by split_and!|cbn; lia|].
  intros [[s' buff'] d'] (Hs' & Hb' & He & Hsh). unfold encodes_outer. destruct (Z.leb_spec 3 (zlen s')).
  2: { apply returns_ret. by split_and!. }
  eapply returns_bind_mono; [apply (inner_spec trans pad cap s' buff'); [done|done|lia|done]|].
  intros [s2 b2] (Hs2 & Hb2 & He2 & Hex & Hl & Hlt). specialize (Hlt ltac:(lia) ltac:(lia)). rewrite room_le by done.
  assert (zlen s < 3 → False) as Hns by (intros H3; destruct (Hsh H3) as [-> _]; lia).
  destruct (Z.ltb_spec (8 - zlen b2) 4); apply returns_ret; cbn [fst]; (split; [|lia]); split_and!; try done.
  - rewrite cf_append, <- app_assoc. cbn [app]. by rewrite He2.
  - lia.
  - by rewrite He2.
Qed.

(** The capacity of the buffer. *)
Lemma cap_enough n : 0 ≤ n → n + 6 ≤ n * 4 / 3 + 6 ∧ (3 ≤ n → 10 ≤ n * 4 / 3 + 6).
Proof. intros Hn. pose proof (Z.div_mod (n * 4) 3). pose proof (Z.mod_pos_bound (n * 4) 3). lia. Qed.

(** [encodes] appends the header, the text and the line feed, and stays within its
    buffer. *)
Lemma encodes_spec data s type lf : type = 117 ∨ type = 109 → bytes_ok s →
  returns (encodes data s type lf) (λ d, CFDataGetBytes d = CFDataGetBytes data ++
    header_of type (zlen s) ++ enc (trans_of type) (padding_of type) s ++ (if lf then [10] else [])).
Proof.
  intros Hty Hs. unfold encodes. fold (trans_of type) (padding_of type). set (cap := zlen s * 4 / 3 + 6). pose proof (zlen_nonneg s) as Hsl.
  destruct (cap_enough (zlen s) Hsl) as [Hc1 Hc2]. fold cap in Hc1, Hc2. pose proof (tables_ok type) as Ht.
  assert (byte_ok (padding_of type)) as Hp by (unfold padding_of, byte_ok; destruct (type =? 117); lia).
  assert ((if type =? 117 then put cap [] (zlen s + 32) else Ok []) = Ok (header_of type (zlen s))) as ->.
  { unfold header_of. destruct (type =? 117); [|done]. unfold put. rewrite (proj2 (Z.ltb_lt _ _)) by (rewrite zlen_nil; lia). done. }
  cbn [mbind res_bind]. set (h := header_of type (zlen s)). assert (zlen h ≤ 1) as Hh by (unfold h, header_of, zlen; destruct (type =? 117); cbn [length]; lia).
  assert (∃ s' buff d', iter (S (length s)) (encodes_outer (trans_of type) cap) (s, h, data) = Ok (s', buff, d') ∧
    bytes_ok s' ∧ zlen buff + 5 ≤ cap ∧ zlen s' < 3 ∧
    CFDataGetBytes d' ++ buff ++ enc (trans_of type) (padding_of type) s' =
    CFDataGetBytes data ++ h ++ enc (trans_of type) (padding_of type) s) as (s' & buff & d' & -> & Hs' & Hb & Hl & He).
  { destruct (decide (3 ≤ zlen s)) as [H3|H3].
    - destruct (outer_spec (trans_of type) (padding_of type) cap s h data Ht Hs ltac:(lia) ltac:(lia)) as ([[s' b'] d'] & E & H1 & H2 & H4 & H5 & _).
      exists s', b', d'. split_and!; [done|done|lia|done|done].
    - exists s, h, data. cbn [iter]. unfold encodes_outer. rewrite (proj2 (Z.leb_gt 3 _)) by lia. split_and!; [done|done|lia|lia|done]. }
  cbn [mbind res_bind].
  set (tail := enc (trans_of type) (padding_of type) s') in *.
  match goal with |- returns (?m ≫= _) _ => assert (m = Ok (buff ++ tail)) as -> end.
  { unfold tail. destruct Hs' as [|c0 s' H0 Hs']; [by rewrite app_nil_r|].
    destruct Hs' as [|c1 s' H1 Hs'].
    - rewrite quad_spec by (done || apply Ht || (unfold byte_ok; lia)). cbn [mbind res_bind].
      apply puts_bytes; [|unfold zlen in *; cbn in *; lia]. apply Forall_app. split; [|rewrite !Forall_cons; naive_solver].
      cbn [fmap list_fmap sextets take]. rewrite !Forall_cons. split_and!; try by apply code_ok. constructor.
    - destruct Hs' as [|c2 s' H2 Hs']; [|exfalso; rewrite !zlen_cons in Hl; pose proof (zlen_nonneg s'); lia].
      rewrite quad_spec by (done || apply Ht || (unfold byte_ok; lia)). cbn [mbind res_bind].
      apply puts_bytes; [|unfold zlen in *; cbn in *; lia]. apply Forall_app. split; [|rewrite !Forall_cons; naive_solver].
      cbn [fmap list_fmap sextets take]. rewrite !Forall_cons. split_and!; try by apply code_ok. constructor. }
  cbn [mbind res_bind].
  assert (zlen tail ≤ 4) as Htl.
  { unfold tail. unfold zlen at 1. destruct s' as [|? [|? [|? s']]]; [cbn [enc length app fmap list_fmap take sextets]; lia..|]. exfalso. rewrite !zlen_cons in Hl. pose proof (zlen_nonneg s'). lia. }
  destruct lf.
  - rewrite put_ok by (rewrite ?zlen_app; unfold byte_ok; lia). cbn [mbind res_bind]. apply returns_ret.
    rewrite cf_append, !app_assoc in *. f_equal. rewrite <- !app_assoc in *. by rewrite <- He.
  - cbn [mbind res_bind]. apply returns_ret. by rewrite cf_append, He, app_nil_r.
Qed.
End encodes.
