(* ===== verification/PackDecode.v ===== *)
(** The decoders of text on what the encoders wrote: base64, uuencoded and quoted-printable text. *)

(** * pack.c: reading base64 *)

From S2P Require Import Prelude Util Big Numeric Pack Unpack PackSpec PackField PackUtf8 PackStr PackText.

(** The text without its line feeds. *)
Definition no_lf (text : list Z) : list Z := filter (λ c, c ≠ 10) text.

Lemma no_lf_cons text c cs : no_lf text = c :: cs → ∃ k text', text = replicate k 10 ++ c :: text' ∧ no_lf text' = cs ∧ c ≠ 10.
Proof.
  induction text as [|d text IH]; [done|]. unfold no_lf in *. rewrite filter_cons. case_decide.
  - intros [= -> <-]. by exists O, text.
  - intros (k & text' & -> & H1 & H2)%IH. exists (S k), text'. assert (d = 10) as -> by lia. done.
Qed.

Lemma no_lf_nil text : no_lf text = [] → ∃ k, text = replicate k 10.
Proof.
  induction text as [|d text IH]; [by exists O|]. unfold no_lf in *. rewrite filter_cons. case_decide; [done|].
  intros [k ->]%IH. exists (S k). by assert (d = 10) as -> by lia.
Qed.

Lemma no_lf_app l r : no_lf (l ++ r) = no_lf l ++ no_lf r.
Proof. apply filter_app. Qed.

Definition sextet (i : Z) : Prop := 0 ≤ i < 64.

Lemma b64_inverse i : sextet i → aload b64_xtable (code b64_table i) = Ok i ∧ code b64_table i ≠ 10 ∧ code b64_table i ≠ 61.
Proof.
  intros Hi.
  pose (P := λ i, bool_decide (aload b64_xtable (code b64_table i) = Ok i ∧ code b64_table i ≠ 10 ∧ code b64_table i ≠ 61)).
  assert (forallb P (seqZ 0 64) = true) as H by (vm_compute; reflexivity). rewrite forallb_forall in H.
  specialize (H i). unfold P in H. rewrite bool_decide_eq_true in H. apply H, list_elem_of_In, elem_of_seqZ. unfold sextet in Hi. lia.
Qed.

Lemma b64_total c : byte_ok c → ∃ v, aload b64_xtable c = Ok v.
Proof.
  intros Hc. destruct (zlookup_is_Some b64_xtable c) as [v Hv]; [by change (zlen b64_xtable) with 256|]. exists v. by apply aload_ok.
Qed.

Lemma enc_no_lf s : bytes_ok s → no_lf (enc b64_table 61 s) = enc b64_table 61 s.
Proof.
  assert (∀ l, Forall sextet l → no_lf (code b64_table <$> l) = code b64_table <$> l) as Hl.
  { intros l. induction 1 as [|i l Hi Hl IH]; [done|]. cbn [fmap list_fmap]. unfold no_lf. rewrite filter_cons, decide_True by by apply b64_inverse.
    f_equal. exact IH. }
  remember (length s) as n eqn:En. revert s En. induction n as [n IH] using lt_wf_ind. intros s En Hs.
  destruct Hs as [|c0 s H0 Hs]; [done|]. destruct Hs as [|c1 s H1 Hs].
  { cbn [enc]. rewrite no_lf_app, Hl; [done|]. apply Forall_take, sextets_range; (done || unfold byte_ok; lia). }
  destruct Hs as [|c2 s H2 Hs].
  { cbn [enc]. rewrite no_lf_app, Hl; [done|]. apply Forall_take, sextets_range; (done || unfold byte_ok; lia). }
  cbn [enc]. rewrite no_lf_app, Hl by (by apply sextets_range). f_equal. apply (IH (length s)); [cbn in En; lia|done|done].
Qed.

Lemma enc_app trans pad l r : (length l mod 3 = 0)%nat → enc trans pad (l ++ r) = enc trans pad l ++ enc trans pad r.
Proof.
  remember (length l) as n eqn:En. revert l En. induction n as [n IH] using lt_wf_ind. intros l En Hm.
  destruct l as [|c0 [|c1 [|c2 l]]]; [done|cbn in En; subst; cbn in Hm; lia|cbn in En; subst; cbn in Hm; lia|].
  cbn [app enc]. rewrite <- app_assoc. f_equal. cbn [length] in En. apply (IH (length l)); [lia|done|].
  subst. replace (S (S (S (length l)))) with (length l + 1 * 3)%nat in Hm by lia. by rewrite Nat.Div0.mod_add in Hm.
Qed.

Section b64.
Context `{J : Junk} `{BY : Beyond}.

Lemma at_end_cons c s : at_end (c :: s) = false.
Proof. done. Qed.
Lemma at_end_nil : at_end [] = true.
Proof. done. Qed.

Lemma scan_char stop k c s v : aload b64_xtable c = Ok v → v ≠ -1 → b64_scan stop (replicate k 10 ++ c :: s) = Ok (v, c :: s).
Proof.
  intros Hc Hv. induction k as [|k IH]; cbn [replicate app b64_scan].
  - rewrite Hc. cbn [mbind res_bind]. by rewrite (proj2 (Z.eqb_neq v (-1))).
  - change (aload b64_xtable 10) with (@Ok Z (-1)). cbn [mbind res_bind Z.eqb Pos.eqb]. by rewrite andb_false_r.
Qed.

Lemma scan_pad k s : b64_scan true (replicate k 10 ++ 61 :: s) = Ok (-1, 61 :: s).
Proof.
  induction k as [|k IH]; cbn [replicate app b64_scan]; [done|].
  change (aload b64_xtable 10) with (@Ok Z (-1)). cbn [mbind res_bind Z.eqb Pos.eqb andb]. done.
Qed.

Lemma scan_end stop k v : aload b64_xtable beyond = Ok v → b64_scan stop (replicate k 10) = Ok (v, []).
Proof.
  intros Hv. induction k as [|k IH]; cbn [replicate b64_scan]; [by rewrite Hv|].
  change (aload b64_xtable 10) with (@Ok Z (-1)). cbn [mbind res_bind Z.eqb Pos.eqb]. by rewrite andb_false_r.
Qed.

(** The end of the decoder: what is left of an unfinished group. *)
Definition b64_finish (cap : Z) (st : b64_exit) : res (list Z * list Z) :=
  let '(mkExit a b c s out) := st in
  out ← (if negb (a =? -1) && negb (b =? -1) then
           if (c =? -1) && (at_ s =? 61) then puts cap out (take 1 (hunk a b c 0))
           else if negb (c =? -1) && (at_ s =? 61) then puts cap out (take 2 (hunk a b c 0))
           else Ok out
         else Ok out);
  Ok (out, s).

Lemma unpack_m_unfold s : unpack_m s = iter (S (length s)) (b64_step (zlen s * 3 / 4)) (mkExit (-1) (-1) 0 s []) ≫= b64_finish (zlen s * 3 / 4).
Proof. done. Qed.

(** Reads one character of the code. *)
Lemma scan_code stop text i cs : no_lf text = code b64_table i :: cs → sextet i →
  ∃ text', b64_scan stop text = Ok (i, code b64_table i :: text') ∧ no_lf text' = cs ∧ (length text' < length text)%nat ∧ i ≠ -1 ∧
    (code b64_table i =? 61) = false.
Proof.
  intros (k & text' & -> & Hn & _)%no_lf_cons Hi. destruct (b64_inverse i Hi) as (Hx & _ & H61). exists text'. unfold sextet in Hi.
  split_and!; [apply scan_char; [done|lia]|done|rewrite length_app; cbn; lia|lia|by apply Z.eqb_neq].
Qed.

(** The bytes that fit: three for four characters. *)
Lemma cap_fits total (out text : list Z) n : 4 * zlen out + 3 * zlen text ≤ 3 * total → 4 * n ≤ 3 * zlen text →
  zlen out + n ≤ total * 3 / 4.
Proof. intros. apply Z.div_le_lower_bound; lia. Qed.

(** The first characters of a group. *)
Lemma group_start cap a0 b0 c0' text out i j k cs :
  sextet i → sextet j → no_lf text = code b64_table i :: code b64_table j :: k :: cs →
  ∃ text2, no_lf text2 = k :: cs ∧ (length text2 + 2 ≤ length text)%nat ∧
    b64_step cap (mkExit a0 b0 c0' text out) =
      ('(c, s) ← b64_scan true text2;
       if (at_ s =? 61) || at_end s then Ok (inr (mkExit i j c s out)) else
       '(d, s) ← b64_scan true (tail s);
       if (at_ s =? 61) || at_end s then Ok (inr (mkExit i j c s out)) else
       out ← puts cap out (hunk i j c d);
       Ok (inl (mkExit i j c (tail s) out))).
Proof.
  intros Hi Hj Ht. destruct (scan_code false text i _ Ht Hi) as (t1 & E1 & Ht1 & L1 & _ & _).
  destruct (scan_code false t1 j _ Ht1 Hj) as (t2 & E2 & Ht2 & L2 & _ & _). exists t2. split_and!; [done|lia|].
  unfold b64_step. cbn [xs xout]. assert (at_end text = false) as -> by (destruct text; [done|done]).
  rewrite E1. cbn [mbind res_bind]. rewrite at_end_cons. cbn [tail]. rewrite E2. cbn [mbind res_bind]. by rewrite at_end_cons.
Qed.

Lemma b64_decode s fuel text a b c out total : beyond ≠ 61 → byte_ok beyond → bytes_ok s → no_lf text = enc b64_table 61 s →
  (length text < fuel)%nat → 4 * zlen out + 3 * zlen text ≤ 3 * total →
  returns (iter fuel (b64_step (total * 3 / 4)) (mkExit a b c text out) ≫= b64_finish (total * 3 / 4)) (λ r, r.1 = out ++ s).
Proof.
  intros Hb Hbb. remember (length s) as n eqn:En. revert s En fuel text a b c out.
  induction n as [n IH] using lt_wf_ind. intros s En fuel text a b c out Hs Ht Hf Hcap. destruct fuel as [|fuel]; [lia|]. cbn [iter].
  destruct Hs as [|c0 s H0 Hs].
  { rewrite app_nil_r. apply no_lf_nil in Ht as [k ->]. destruct (b64_total beyond Hbb) as [v Hv]. destruct k as [|k].
    - unfold b64_step. cbn [xs replicate]. rewrite at_end_nil. cbn [mbind res_bind b64_finish at_ hd].
      rewrite (proj2 (Z.eqb_neq _ _) Hb), !andb_false_r. destruct (_ && _); by apply returns_ret.
    - unfold b64_step. cbn [xs xout]. assert (at_end (replicate (S k) 10) = false) as -> by done. rewrite (scan_end _ _ v) by done. cbn [mbind res_bind].
      rewrite at_end_nil. cbn [mbind res_bind b64_finish Z.eqb Pos.eqb negb]. rewrite andb_false_r. by apply returns_ret. }
  assert (byte_ok 0) as B0 by (unfold byte_ok; lia).
  destruct Hs as [|c1 s H1 Hs].
  { pose proof (sextets_range c0 0 0 H0 B0 B0) as Hr. pose proof (hunk_spec c0 0 0 H0 B0 B0) as Hh. cbn [enc sextets take fmap list_fmap app] in Ht.
    unfold sextets in Hr.
    rewrite !Forall_cons in Hr. destruct Hr as (R0 & R1 & _).
    destruct (group_start (total * 3 / 4) a b c text out _ _ _ _ R0 R1 Ht) as (t2 & Ht2 & L2 & ->).
    apply no_lf_cons in Ht2 as (k & t3 & -> & _ & _). rewrite scan_pad. cbn [mbind res_bind at_ hd Z.eqb Pos.eqb orb b64_finish negb].
    rewrite length_app in L2. cbn [length] in L2.
    rewrite !(proj2 (Z.eqb_neq _ (-1))) by lia. cbn [negb andb].
    rewrite puts_ok by (apply (cap_fits total out text); [done|unfold zlen; cbn [length take hunk]; lia]). cbn [mbind res_bind].
    apply returns_ret. cbn [fst]. f_equal. exact (f_equal (take 1) Hh). }
  destruct Hs as [|c2 s H2 Hs].
  { pose proof (sextets_range c0 c1 0 H0 H1 B0) as Hr. pose proof (hunk_spec c0 c1 0 H0 H1 B0) as Hh. cbn [enc sextets take fmap list_fmap app] in Ht.
    unfold sextets in Hr.
    rewrite !Forall_cons in Hr. destruct Hr as (R0 & R1 & R2 & _).
    destruct (group_start (total * 3 / 4) a b c text out _ _ _ _ R0 R1 Ht) as (t2 & Ht2 & L2 & ->).
    destruct (scan_code true t2 _ _ Ht2 R2) as (t3 & -> & Ht3 & L3 & _ & E61). cbn [mbind res_bind at_ hd]. rewrite E61.
    rewrite at_end_cons. cbn [orb tail].
    apply no_lf_cons in Ht3 as (k & t4 & -> & _ & _). rewrite scan_pad. cbn [mbind res_bind at_ hd Z.eqb Pos.eqb orb b64_finish negb].
    rewrite length_app in L3. cbn [length] in L3.
    rewrite !(proj2 (Z.eqb_neq _ (-1))) by lia. cbn [negb andb].
    rewrite puts_ok by (apply (cap_fits total out text); [done|unfold zlen; cbn [length take hunk]; lia]). cbn [mbind res_bind].
    apply returns_ret. cbn [fst]. f_equal. exact (f_equal (take 2) Hh). }
  pose proof (sextets_range c0 c1 c2 H0 H1 H2) as Hr. pose proof (hunk_spec c0 c1 c2 H0 H1 H2) as Hh. cbn [enc sextets take fmap list_fmap app] in Ht.
    unfold sextets in Hr.
  rewrite !Forall_cons in Hr. destruct Hr as (R0 & R1 & R2 & R3 & _).
  destruct (group_start (total * 3 / 4) a b c text out _ _ _ _ R0 R1 Ht) as (t2 & Ht2 & L2 & ->).
  destruct (scan_code true t2 _ _ Ht2 R2) as (t3 & -> & Ht3 & L3 & _ & E61). cbn [mbind res_bind at_ hd]. rewrite E61.
  rewrite at_end_cons. cbn [orb tail].
  destruct (scan_code true t3 _ _ Ht3 R3) as (t4 & -> & Ht4 & L4 & _ & E61'). cbn [mbind res_bind at_ hd]. rewrite E61'.
  rewrite at_end_cons. cbn [orb tail].
  rewrite puts_ok by (apply (cap_fits total out text); [done|unfold zlen; cbn [length hunk]; lia]). cbn [mbind res_bind].
  rewrite Hh. eapply returns_mono.
  - apply (IH (length s) ltac:(cbn in En; lia) s eq_refl); [done|done|lia|]. rewrite zlen_app. unfold zlen in *. cbn [length]. lia.
  - intros r ->. by rewrite <- app_assoc.
Qed.

(** Text with line feeds anywhere decodes to the bytes. *)
Lemma unpack_m_spec s text : beyond ≠ 61 → byte_ok beyond → bytes_ok s → no_lf text = enc b64_table 61 s →
  returns (unpack_m text) (λ r, r.1 = s).
Proof. intros. rewrite unpack_m_unfold. apply (b64_decode s); [done..|lia|rewrite zlen_nil; lia]. Qed.
End b64.

(** * pack.c: lines of text, and reading uuencoded text *)

(** A line for each [w] bytes. *)
Fixpoint text_lines (fuel : nat) (type : Z) (w : nat) (s : list Z) : list Z :=
  match fuel with
  | O => []
  | S fuel =>
      match s with
      | [] => []
      | _ => header_of type (zlen (take w s)) ++ enc (trans_of type) (padding_of type) (take w s) ++ [10] ++
             text_lines fuel type w (drop w s)
      end
  end.

(** The width of a line, from the count. *)
Definition line_width (len : Z) : Z := if len <=? 2 then 45 else Z.quot len 3 * 3.

Lemma line_width_spec len : 3 ≤ line_width len ∧ line_width len mod 3 = 0 ∧ (len ≤ 65 → line_width len ≤ 63).
Proof.
  unfold line_width. destruct (Z.leb_spec len 2); [done|]. rewrite Z.quot_div_nonneg by lia.
  pose proof (Z.div_mod len 3). pose proof (Z.mod_pos_bound len 3). split_and!; [|by rewrite Z.mod_mul by lia|]; lia.
Qed.

(** The text of a string: one unterminated line for [m0]. *)
Definition packed_text (type len : Z) (s : list Z) : list Z :=
  if (len =? 0) && (type =? 109) then enc b64_table 61 s
  else text_lines (length s) type (Z.to_nat (line_width len)) s.

Section lines.
Context `{J : Junk} `{CF : CFMutableData} {L : CFDataLaws CF}.

Lemma text_lines_enough type w n m s : (0 < w)%nat → (length s ≤ n)%nat → (length s ≤ m)%nat → text_lines n type w s = text_lines m type w s.
Proof.
  intros Hw. revert m s. induction n as [|n IH]; intros m s Hn Hm.
  - destruct s; [|cbn in Hn; lia]. by destruct m.
  - destruct s as [|c s]; [by destruct m|]. destruct m as [|m]; [cbn in Hm; lia|]. cbn [text_lines]. do 3 f_equal.
    apply IH; rewrite length_drop; cbn [length] in *; lia.
Qed.

Lemma lines_spec type w s data : type = 117 ∨ type = 109 → bytes_ok s → 0 < w →
  returns (iter (S (length s)) (lines_step type w) (s, data)) (λ d,
    CFDataGetBytes d = CFDataGetBytes data ++ text_lines (length s) type (Z.to_nat w) s).
Proof.
  intros Ht Hs Hw.
  apply (iter_inv (λ '(s', d), bytes_ok s' ∧ CFDataGetBytes d ++ text_lines (length s') type (Z.to_nat w) s' =
    CFDataGetBytes data ++ text_lines (length s) type (Z.to_nat w) s) (λ st, length st.1)); [done|cbn; lia|].
  intros [s' d] [Hs' He]. unfold lines_step. destruct (Z.ltb_spec 0 (zlen s')).
  - set (todo := Z.min (zlen s') w). assert (take (Z.to_nat todo) s' = take (Z.to_nat w) s' ∧ drop (Z.to_nat todo) s' = drop (Z.to_nat w) s') as [E1 E2].
    { unfold todo, zlen. destruct (decide (Z.of_nat (length s') ≤ w)); [|by rewrite Z.min_r by lia].
      rewrite Z.min_l, Nat2Z.id by lia. by rewrite !take_ge, !drop_ge by lia. }
    rewrite E1, E2. eapply returns_bind_mono; [apply encodes_spec; [done|by apply Forall_take]|].
    intros d' Hd. apply returns_ret. cbn [fst]. split; [|rewrite length_drop; unfold zlen in *; lia]. split; [by apply Forall_drop|].
    rewrite Hd, <- He, <- !app_assoc. f_equal. unfold zlen in *. destruct s' as [|c s']; [cbn in *; lia|].
    remember (length (c :: s')) as n eqn:En. destruct n as [|n]; [cbn in En; lia|]. cbn [text_lines]. do 3 f_equal.
    apply text_lines_enough; [lia|lia|]. rewrite length_drop. lia.
  - apply returns_ret. destruct s'; [|unfold zlen in *; cbn [length] in *; lia]. cbn in He. by rewrite app_nil_r in He.
Qed.

(** [u] and [m] append the text of the string. *)
Lemma pack_um_spec type len s items data : type = 117 ∨ type = 109 → bytes_ok s →
  returns (pack_um type len (VStr s :: items) data) (λ r, r.1 = items ∧ CFDataGetBytes r.2 = CFDataGetBytes data ++ packed_text type len s).
Proof.
  intros Ht Hs. unfold pack_um, packed_text. cbn [NEXTFROM mbind res_bind StringValue]. destruct ((len =? 0) && (type =? 109)) eqn:E.
  - apply andb_true_iff in E as [_ Em]. apply Z.eqb_eq in Em as ->. eapply returns_bind_mono; [by apply (encodes_spec _ _ _ false)|].
    intros d Hd. apply returns_ret. rewrite app_nil_r in Hd. done.
  - fold (line_width len). destruct (line_width_spec len) as (Hw & _). eapply returns_bind_mono; [apply lines_spec; [done|done|lia]|].
    intros d Hd. by apply returns_ret.
Qed.
End lines.

(** ** Base64 *)

Lemma lines_no_lf n w s : (w mod 3 = 0)%nat → (0 < w)%nat → (length s ≤ n)%nat → bytes_ok s → no_lf (text_lines n 109 w s) = enc b64_table 61 s.
Proof.
  intros Hm Hw. revert s. induction n as [|n IH]; intros s Hn Hs; [destruct s; [done|cbn in Hn; lia]|].
  destruct s as [|c s]; [done|]. set (s0 := c :: s) in *. change (text_lines (S n) 109 w s0)
    with (enc b64_table 61 (take w s0) ++ [10] ++ text_lines n 109 w (drop w s0)).
  rewrite !no_lf_app, enc_no_lf by (by apply Forall_take). change (no_lf [10]) with (@nil Z). cbn [app].
  rewrite IH by (by apply Forall_drop || (unfold s0 in *; rewrite length_drop; cbn [length] in *; lia)).
  destruct (decide (w ≤ length s0)%nat).
  - rewrite <- enc_app; [by rewrite take_drop|]. by rewrite length_take_le.
  - rewrite take_ge, drop_ge by lia. by rewrite app_nil_r.
Qed.

Lemma packed_m_no_lf len s : bytes_ok s → no_lf (packed_text 109 len s) = enc b64_table 61 s.
Proof.
  intros Hs. unfold packed_text. rewrite Z.eqb_refl, andb_true_r. destruct (len =? 0); [by apply enc_no_lf|].
  destruct (line_width_spec len) as (Hw & Hm & _). apply lines_no_lf; [|lia|lia|done].
  apply Nat2Z.inj. rewrite Nat2Z.inj_mod, Z2Nat.id by lia. done.
Qed.

(** ** Uuencoded text *)

Lemma uu_inverse i : sextet i → ∃ c, code uu_table i = c ∧ 33 ≤ c ≤ 96 ∧ schar c = c ∧ Z.land (c - 32) 63 = i.
Proof.
  intros Hi. exists (code uu_table i). split; [done|].
  pose (P := λ i, bool_decide (33 ≤ code uu_table i ≤ 96 ∧ schar (code uu_table i) = code uu_table i ∧ Z.land (code uu_table i - 32) 63 = i)).
  assert (forallb P (seqZ 0 64) = true) as H by (vm_compute; reflexivity). rewrite forallb_forall in H.
  specialize (H i). unfold P in H. rewrite bool_decide_eq_true in H. apply H, list_elem_of_In, elem_of_seqZ. unfold sextet in Hi. lia.
Qed.

Lemma uu_char_code i s : sextet i → uu_char (code uu_table i :: s) = (i, s).
Proof.
  intros Hi. destruct (uu_inverse i Hi) as (c & -> & Hc & Es & Ei). unfold uu_char. rewrite Es, Ei.
  by rewrite (proj2 (Z.leb_le 32 c)) by lia.
Qed.
Lemma uu_char_pad s : uu_char (96 :: s) = (0, s).
Proof. done. Qed.

Lemma uu_line_spec s fuel cap rest out : bytes_ok s → (length s ≤ 3 * fuel)%nat → zlen out + zlen s ≤ cap →
  uu_line fuel cap (zlen s) (enc uu_table 96 s ++ rest) out = Ok (rest, out ++ s).
Proof.
  remember (length s) as n eqn:En. revert s En fuel out. induction n as [n IH] using lt_wf_ind. intros s En fuel out Hs Hf Hc.
  assert (byte_ok 0) as B0 by (unfold byte_ok; lia).
  destruct Hs as [|c0 s H0 Hs]; [destruct fuel; cbn; by rewrite app_nil_r|]. destruct fuel as [|fuel]; [cbn in En; lia|].
  destruct Hs as [|c1 s H1 Hs].
  { pose proof (sextets_range c0 0 0 H0 B0 B0) as Hr. pose proof (hunk_spec c0 0 0 H0 B0 B0) as Hh. unfold sextets in Hr.
    rewrite !Forall_cons in Hr. destruct Hr as (R0 & R1 & _). cbn [enc sextets take fmap list_fmap app].
    cbn [uu_line]. change (zlen [c0]) with 1 in *. cbn [Z.ltb Z.compare Pos.compare Pos.compare_cont].
    rewrite uu_char_code by done. rewrite uu_char_code by done. rewrite !uu_char_pad.
    rewrite puts_ok by (match goal with |- _ + ?x ≤ _ => change x with 1 end; lia). cbn [mbind res_bind].
    destruct fuel; (cbn; do 3 f_equal; exact (f_equal (take 1) Hh)). }
  destruct Hs as [|c2 s H2 Hs].
  { pose proof (sextets_range c0 c1 0 H0 H1 B0) as Hr. pose proof (hunk_spec c0 c1 0 H0 H1 B0) as Hh. unfold sextets in Hr.
    rewrite !Forall_cons in Hr. destruct Hr as (R0 & R1 & R2 & _). cbn [enc sextets take fmap list_fmap app].
    cbn [uu_line]. change (zlen [c0; c1]) with 2 in *. cbn [Z.ltb Z.compare Pos.compare Pos.compare_cont].
    rewrite !uu_char_code by done. rewrite !uu_char_pad.
    rewrite puts_ok by (match goal with |- _ + ?x ≤ _ => change x with 2 end; lia). cbn [mbind res_bind].
    destruct fuel; (cbn; do 3 f_equal; exact (f_equal (take 2) Hh)). }
  pose proof (sextets_range c0 c1 c2 H0 H1 H2) as Hr. pose proof (hunk_spec c0 c1 c2 H0 H1 H2) as Hh. unfold sextets in Hr.
  rewrite !Forall_cons in Hr. destruct Hr as (R0 & R1 & R2 & R3 & _). cbn [enc sextets take fmap list_fmap app].
  cbn [uu_line]. rewrite !zlen_cons in *. pose proof (zlen_nonneg s). rewrite (proj2 (Z.ltb_lt 0 _)) by lia.
  rewrite !uu_char_code by done.
  assert ((if 3 <? 1 + (1 + (1 + zlen s)) then 3 else 1 + (1 + (1 + zlen s))) = 3) as -> by (destruct (Z.ltb_spec 3 (1 + (1 + (1 + zlen s)))); lia).
  rewrite puts_ok by (match goal with |- _ + ?x ≤ _ => change x with 3 end; lia). cbn [mbind res_bind].
  change (take (Z.to_nat 3) (hunk ?a ?b ?c ?d)) with (hunk a b c d). rewrite Hh.
  replace (1 + (1 + (1 + zlen s)) - 3) with (zlen s) by lia.
  rewrite (IH (length s)); [by rewrite <- app_assoc|cbn in En; lia|done|done|cbn in En; lia|rewrite zlen_app; change (zlen [c0; c1; c2]) with 3; lia].
Qed.

(** Three characters of text hold two bytes or fewer. *)
Lemma enc_length trans pad s : 4 * zlen s ≤ 3 * zlen (enc trans pad s).
Proof.
  remember (length s) as n eqn:En. revert s En. induction n as [n IH] using lt_wf_ind. intros s En.
  destruct s as [|c0 [|c1 [|c2 s]]]; [unfold zlen; cbn [enc length app fmap list_fmap take sextets]; lia..|].
  cbn [enc]. specialize (IH (length s) ltac:(cbn in En; lia) s eq_refl). rewrite zlen_app, !zlen_cons. unfold zlen in *. cbn [length fmap list_fmap sextets]. lia.
Qed.

Lemma text_lines_length n type w s : (length s ≤ n)%nat → (0 < w)%nat → 4 * zlen s ≤ 3 * zlen (text_lines n type w s).
Proof.
  intros Hn Hw. revert s Hn. induction n as [|n IH]; intros s Hn; [destruct s; [done|cbn in Hn; lia]|]. destruct s as [|c s]; [done|].
  cbn [text_lines]. rewrite !zlen_app. specialize (IH (drop w (c :: s))). rewrite length_drop in IH. cbn [length] in *.
  specialize (IH ltac:(lia)). pose proof (enc_length (trans_of type) (padding_of type) (take w (c :: s))).
  rewrite <- (take_drop w (c :: s)) at 1. rewrite zlen_app. pose proof (zlen_nonneg (header_of type (zlen (take w (c :: s))))).
  pose proof (zlen_nonneg [10]). lia.
Qed.

Section uu.
Context `{J : Junk} `{BY : Beyond}.

Lemma uu_eol_lf s : uu_eol (10 :: s) = Ok (s, 0).
Proof. done. Qed.

Lemma uu_line_step cap l text out past : bytes_ok l → (0 < length l ≤ 63)%nat → zlen out + zlen l ≤ cap →
  uu_step cap (header_of 117 (zlen l) ++ enc uu_table 96 l ++ [10] ++ text, past, out, zlen out) = Ok (inl (text, 0, out ++ l, zlen (out ++ l))).
Proof.
  intros Hb Hl Hc. unfold header_of. cbn [Z.eqb Pos.eqb app]. rewrite byte_of_small by (unfold byte_ok, zlen; lia).
  assert (schar (zlen l + 32) = zlen l + 32) as Es by (unfold schar, zlen; by rewrite (proj2 (Z.ltb_lt _ 128)) by lia).
  cbn [uu_step]. rewrite Es, (proj2 (Z.ltb_lt 32 _)), (proj2 (Z.ltb_lt _ 97)) by (unfold zlen; lia). cbn [andb].
  replace (zlen l + 32 - 32) with (zlen l) by lia.
  assert (Z.land (zlen l) 63 = zlen l) as -> by (rewrite (land_mask _ 6) by lia; apply Z.mod_small; unfold zlen; lia).
  rewrite (proj2 (Z.ltb_ge cap _)) by lia. rewrite uu_line_spec by (done || lia). cbn [mbind res_bind]. rewrite uu_eol_lf. cbn [mbind res_bind].
  by rewrite zlen_app.
Qed.

Lemma uu_decode n w s fuel past out cap : (w ≤ 63)%nat → (0 < w)%nat → bytes_ok s → (length s ≤ n)%nat → (length s < fuel)%nat → zlen out + zlen s ≤ cap →
  ∃ past', iter fuel (uu_step cap) (text_lines n 117 w s, past, out, zlen out) = Ok ([], past', out ++ s, zlen (out ++ s)).
Proof.
  intros Hw Hw0. revert s fuel past out. induction n as [|n IH]; intros s fuel past out Hs Hn Hf Hc; (destruct fuel as [|fuel]; [lia|]).
  - destruct s; [|cbn in Hn; lia]. exists past. cbn. by rewrite app_nil_r.
  - destruct s as [|c s]; [exists past; cbn; by rewrite app_nil_r|]. set (s0 := c :: s) in *.
    change (text_lines (S n) 117 w s0) with (header_of 117 (zlen (take w s0)) ++ enc uu_table 96 (take w s0) ++ [10] ++ text_lines n 117 w (drop w s0)).
    assert (zlen (take w s0) + zlen (drop w s0) = zlen s0) as Hl by (rewrite <- zlen_app; by rewrite take_drop).
    cbn [iter]. rewrite uu_line_step; [|by apply Forall_take|rewrite length_take; unfold s0 in *; cbn [length] in *; lia|pose proof (zlen_nonneg (drop w s0)); lia].
    cbn [mbind res_bind]. destruct (IH (drop w s0) fuel 0 (out ++ take w s0)) as (p' & E); [by apply Forall_drop| | |rewrite zlen_app; lia|].
    + unfold s0 in *. rewrite length_drop. cbn [length] in *. lia.
    + unfold s0 in *. rewrite length_drop. cbn [length] in *. lia.
    + exists p'. rewrite E, <- app_assoc, take_drop. done.
Qed.

Lemma unpack_u_spec len s : bytes_ok s → line_width len ≤ 63 →
  ∃ past, unpack_u (packed_text 117 len s) = Ok (s, [], past).
Proof.
  intros Hs Hw. destruct (line_width_spec len) as (Hw3 & _). unfold packed_text. rewrite andb_false_r.
  pose proof (text_lines_length (length s) 117 (Z.to_nat (line_width len)) s ltac:(lia) ltac:(lia)) as Hl.
  unfold unpack_u. set (text := text_lines (length s) 117 (Z.to_nat (line_width len)) s) in *.
  destruct (uu_decode (length s) (Z.to_nat (line_width len)) s (S (length text)) 0 [] (zlen text * 3 / 4)) as (past & E).
  - lia.
  - lia.
  - done.
  - lia.
  - unfold zlen in *. lia.
  - rewrite zlen_nil, Z.add_0_l. apply Z.div_le_lower_bound; lia.
  - fold text in E. rewrite zlen_nil in E. rewrite E. cbn [mbind res_bind app]. exists past. by rewrite to_nat_zlen, firstn_all.
Qed.
End uu.

(** * pack.c: quoted-printable text *)

(** ** What [qpencode] writes *)

Definition qp_special (c : Z) : bool := (126 <? c) || ((c <? 32) && negb (c =? 10) && negb (c =? 9)) || (c =? 61).
Definition hex_at (i : Z) : Z := default 0 (zlookup hex_table i).

(** The text of a byte after [prev]. *)
Definition qp_piece (prev c : Z) : list Z :=
  if qp_special c then [61; hex_at (Z.shiftr c 4); hex_at (Z.land c 15)]
  else if c =? 10 then (if (prev =? 32) || (prev =? 9) then [61; 10] else []) ++ [10]
  else [c].
Definition qp_column (n c : Z) : Z := if qp_special c then n + 3 else if c =? 10 then 0 else n + 1.
Definition qp_prev (c : Z) : Z := if qp_special c then EOF else c.

(** The text of a string from column [n], with the soft line breaks, and the last column. *)
Fixpoint qp_text (len : Z) (s : list Z) (n prev : Z) : list Z * Z :=
  match s with
  | [] => ([], n)
  | c :: s =>
      if len <? qp_column n c then
        let '(t, m) := qp_text len s 0 10 in (qp_piece prev c ++ [61; 10] ++ t, m)
      else let '(t, m) := qp_text len s (qp_column n c) (qp_prev c) in (qp_piece prev c ++ t, m)
  end.

Definition qp_encoded (len : Z) (s : list Z) : list Z :=
  let '(t, n) := qp_text len s 0 EOF in t ++ (if 0 <? n then [61; 10] else []).

Lemma hex_at_ok c : byte_ok c → byte_ok (hex_at (Z.shiftr c 4)) ∧ byte_ok (hex_at (Z.land c 15)) ∧
  aload hex_table (Z.shiftr c 4) = Ok (hex_at (Z.shiftr c 4)) ∧ aload hex_table (Z.land c 15) = Ok (hex_at (Z.land c 15)) ∧
  Z.lor (Z.shiftl (hex2num (hex_at (Z.shiftr c 4))) 4) (hex2num (hex_at (Z.land c 15))) = c ∧
  hex2num (hex_at (Z.shiftr c 4)) ≠ -1 ∧ hex2num (hex_at (Z.land c 15)) ≠ -1 ∧
  hex_at (Z.shiftr c 4) ≠ 13 ∧ hex_at (Z.shiftr c 4) ≠ 10.
Proof.
  intros Hc. unfold byte_ok.
  pose (P := λ c, bool_decide (0 ≤ hex_at (Z.shiftr c 4) < 256 ∧ 0 ≤ hex_at (Z.land c 15) < 256 ∧
    aload hex_table (Z.shiftr c 4) = Ok (hex_at (Z.shiftr c 4)) ∧ aload hex_table (Z.land c 15) = Ok (hex_at (Z.land c 15)) ∧
    Z.lor (Z.shiftl (hex2num (hex_at (Z.shiftr c 4))) 4) (hex2num (hex_at (Z.land c 15))) = c ∧
    hex2num (hex_at (Z.shiftr c 4)) ≠ -1 ∧ hex2num (hex_at (Z.land c 15)) ≠ -1 ∧
    hex_at (Z.shiftr c 4) ≠ 13 ∧ hex_at (Z.shiftr c 4) ≠ 10)).
  assert (P c = true) as H by (apply byte_check; [vm_compute; reflexivity|done]). unfold P in H. by apply bool_decide_eq_true in H.
Qed.

Lemma qp_piece_ok prev c : byte_ok c → bytes_ok (qp_piece prev c) ∧ zlen (qp_piece prev c) ≤ 3.
Proof.
  intros Hc. destruct (hex_at_ok c Hc) as (H1 & H2 & _). assert (byte_ok 61 ∧ byte_ok 10) as [? ?] by (unfold byte_ok; lia).
  unfold qp_piece, bytes_ok. destruct (qp_special c); [split; [rewrite !Forall_cons; naive_solver|unfold zlen; cbn [length]; lia]|].
  destruct (c =? 10); [destruct (_ || _)|]; cbn [app]; (split; [rewrite !Forall_cons; naive_solver|unfold zlen; cbn [length]; lia]).
Qed.

Section encode.
Context `{J : Junk} `{CF : CFMutableData} {L : CFDataLaws CF}.

(** One turn keeps five bytes of the buffer free. *)
Lemma qp_step_spec len c buff n prev data : byte_ok c → zlen buff ≤ 1019 →
  returns (qp_step len c (buff, n, prev, data)) (λ '(buff', n', prev', data'),
    zlen buff' ≤ 1019 ∧ CFDataGetBytes data' ++ buff' = CFDataGetBytes data ++ buff ++ qp_piece prev c ++ (if len <? qp_column n c then [61; 10] else []) ∧
    (n', prev') = (if len <? qp_column n c then (0, 10) else (qp_column n c, qp_prev c))).
Proof.
  intros Hc Hb. destruct (qp_piece_ok prev c Hc) as [Hp Hpl]. destruct (hex_at_ok c Hc) as (H1 & H2 & E1 & E2 & _).
  assert (byte_ok 61 ∧ byte_ok 10) as [? ?] by (unfold byte_ok; lia).
  assert (bytes_ok [61; 10]) as Hbrk by (unfold bytes_ok; rewrite !Forall_cons; naive_solver).
  unfold qp_step. fold (qp_special c).
  match goal with |- returns (?m ≫= _) _ => assert (m = Ok (buff ++ qp_piece prev c, qp_column n c, qp_prev c)) as -> end.
  { unfold qp_piece, qp_column, qp_prev, qp_cap in *. destruct (qp_special c).
    - rewrite E1, E2. cbn [mbind res_bind]. by rewrite puts_bytes by (done || lia).
    - destruct (Z.eqb_spec c 10) as [->|].
      + destruct ((prev =? 32) || (prev =? 9)); cbn [app] in *.
        * rewrite puts_bytes by (done || (change (zlen [61; 10]) with 2; lia)). cbn [mbind res_bind].
          rewrite put_ok by (done || (rewrite zlen_app; change (zlen [61; 10]) with 2; lia)). by rewrite <- app_assoc.
        * cbn [puts mbind res_bind]. by rewrite put_ok by (done || lia).
      + by rewrite put_ok by (done || lia). }
  cbn [mbind res_bind]. destruct (Z.ltb_spec len (qp_column n c)).
  - rewrite puts_bytes by (done || (unfold qp_cap; rewrite zlen_app; change (zlen [61; 10]) with 2; lia)). cbn [mbind res_bind].
    destruct (Z.ltb_spec (1024 - 5) (zlen ((buff ++ qp_piece prev c) ++ [61; 10]))); apply returns_ret; (split_and!; [|..|done]).
    + rewrite zlen_nil. lia.
    + rewrite cf_append, app_nil_r, <- !app_assoc. done.
    + lia.
    + by rewrite <- !app_assoc.
  - cbn [mbind res_bind].
    destruct (Z.ltb_spec (1024 - 5) (zlen (buff ++ qp_piece prev c))); apply returns_ret; (split_and!; [|..|done]).
    + rewrite zlen_nil. lia.
    + rewrite cf_append, !app_nil_r. done.
    + lia.
    + by rewrite app_nil_r.
Qed.

Lemma qp_loop_spec len s buff n prev data : bytes_ok s → zlen buff ≤ 1019 →
  returns (qp_loop len s (buff, n, prev, data)) (λ '(buff', n', _, data'),
    zlen buff' ≤ 1019 ∧ CFDataGetBytes data' ++ buff' = CFDataGetBytes data ++ buff ++ (qp_text len s n prev).1 ∧ n' = (qp_text len s n prev).2).
Proof.
  intros Hs. revert buff n prev data. induction Hs as [|c s Hc Hs IH]; intros buff n prev data Hb; cbn [qp_loop qp_text].
  - apply returns_ret. cbn [fst snd]. by rewrite app_nil_r.
  - eapply returns_bind_mono; [by apply qp_step_spec|]. intros [[[b1 n1] p1] d1] (Hb1 & He & Hnp).
    eapply returns_mono; [by apply IH|]. intros [[[b2 n2] p2] d2] (Hb2 & He2 & Hn2). destruct (len <? qp_column n c); injection Hnp as -> ->.
    + destruct (qp_text len s 0 10) as [t m]. cbn [fst snd] in *. split_and!; [done| |done].
      rewrite He2, app_assoc, He. by rewrite <- !app_assoc.
    + destruct (qp_text len s (qp_column n c) (qp_prev c)) as [t m]. cbn [fst snd] in *. split_and!; [done| |done].
      rewrite He2, app_assoc, He, app_nil_r. by rewrite <- !app_assoc.
Qed.

(** [qpencode] never leaves its buffer of 1024 bytes. *)
Lemma qpencode_spec data s len : bytes_ok s →
  returns (qpencode data s len) (λ d, CFDataGetBytes d = CFDataGetBytes data ++ qp_encoded len s).
Proof.
  intros Hs. unfold qpencode, qp_encoded. eapply returns_bind_mono; [apply (qp_loop_spec len s [] 0 EOF data Hs); by rewrite zlen_nil|].
  intros [[[b n] p] d] (Hb & He & ->). cbn [app] in He. destruct (qp_text len s 0 EOF) as [t m]. cbn [fst snd] in *.
  assert (bytes_ok [61; 10]) as Hbrk by (unfold bytes_ok; rewrite !Forall_cons, Forall_nil; unfold byte_ok; lia).
  assert ((if 0 <? m then puts qp_cap b [61; 10] else Ok b) = Ok (b ++ (if 0 <? m then [61; 10] else []))) as ->.
  { destruct (0 <? m); [|by rewrite app_nil_r]. apply puts_bytes; [done|]. unfold qp_cap. change (zlen [61; 10]) with 2. lia. }
  cbn [mbind res_bind]. destruct (Z.ltb_spec 0 (zlen (b ++ (if 0 <? m then [61; 10] else [])))) as [|Hz]; apply returns_ret.
  - rewrite cf_append, app_assoc, He, <- app_assoc. done.
  - assert (b ++ (if 0 <? m then [61; 10] else []) = []) as E.
    { destruct (b ++ _); [done|]. rewrite zlen_cons in Hz. pose proof (zlen_nonneg l). lia. }
    apply app_nil in E as [-> E]. rewrite app_nil_r in He. by rewrite He, E, app_nil_r.
Qed.
End encode.

(** ** Reading it back *)

Lemma unqp_soft fuel cap s out : unqp (S fuel) cap (61 :: 10 :: s) out = unqp fuel cap s out.
Proof. done. Qed.

(** The text of a byte is read as the byte. *)
Lemma unqp_piece fuel cap prev c rest out : byte_ok c → zlen out < cap →
  ∃ k, (S k ≤ length (qp_piece prev c))%nat ∧ unqp (S k + fuel) cap (qp_piece prev c ++ rest) out = unqp fuel cap rest (out ++ [c]).
Proof.
  intros Hc Ho. unfold qp_piece. destruct (qp_special c) eqn:Es.
  - exists O. split; [cbn; lia|]. destruct (hex_at_ok c Hc) as (_ & _ & _ & _ & E & H1 & H2 & H13 & H10). cbn [app Nat.add unqp hd tail Z.eqb Pos.eqb].
    rewrite (proj2 (Z.eqb_neq _ 13) H13). cbn [andb hd tail]. rewrite (proj2 (Z.eqb_neq _ 10) H10), (proj2 (Z.eqb_neq _ (-1)) H1). cbn [negb].
    rewrite (proj2 (Z.eqb_neq _ (-1)) H2), E. by rewrite put_ok.
  - destruct (Z.eqb_spec c 10) as [->|].
    + destruct ((prev =? 32) || (prev =? 9)); cbn [app].
      * exists 1%nat. split; [cbn; lia|]. cbn [Nat.add]. rewrite unqp_soft. cbn [unqp Z.eqb Pos.eqb]. by rewrite put_ok.
      * exists O. split; [cbn; lia|]. cbn [Nat.add unqp Z.eqb Pos.eqb]. by rewrite put_ok.
    + exists O. split; [cbn; lia|]. assert (c ≠ 61) by (intros ->; done). cbn [app Nat.add unqp]. rewrite (proj2 (Z.eqb_neq c 61)) by done. by rewrite put_ok.
Qed.

(** More fuel does not hurt. *)
Lemma unqp_more fuel fuel' cap s out r : unqp fuel cap s out = Ok r → (fuel ≤ fuel')%nat → unqp fuel' cap s out = Ok r.
Proof.
  revert fuel' s out. induction fuel as [|fuel IH]; intros fuel' s out E Hf; [done|]. destruct fuel' as [|fuel']; [lia|]. cbn [unqp] in *.
  destruct s as [|c s1]; [done|]. destruct (c =? 61).
  - destruct s1 as [|c1 s2]; [done|].
    destruct (negb (hd 0 (if (c1 =? 13) && match s2 with c2 :: _ => c2 =? 10 | [] => false end then s2 else c1 :: s2) =? 10)).
    + destruct (hex2num _ =? -1); [done|]. destruct (tail _) as [|c2 s3]; [done|]. destruct (hex2num c2 =? -1); [done|].
      destruct (put cap out _); [|done]. cbn [mbind res_bind] in *. apply IH; [done|lia].
    + apply IH; [done|lia].
  - destruct (put cap out c); [|done]. cbn [mbind res_bind] in *. apply IH; [done|lia].
Qed.

Lemma unqp_text k0 len s n prev cap out rest : bytes_ok s → zlen out + zlen s ≤ cap →
  unqp k0 cap rest (out ++ s) = Ok (out ++ s, []) →
  ∃ fuel, (fuel ≤ k0 + length (qp_text len s n prev).1)%nat ∧ unqp fuel cap ((qp_text len s n prev).1 ++ rest) out = Ok (out ++ s, []).
Proof.
  intros Hs. revert n prev out. induction Hs as [|c s Hc Hs IH]; intros n prev out Hcap Hr.
  { exists k0. split; [cbn; lia|]. cbn [qp_text fst app]. rewrite app_nil_r in *. done. }
  rewrite zlen_cons in Hcap. pose proof (zlen_nonneg s). cbn [qp_text].
  assert (out ++ c :: s = (out ++ [c]) ++ s) as E by (by rewrite <- app_assoc). rewrite E in *.
  destruct (len <? qp_column n c).
  - destruct (IH 0 10 (out ++ [c]) ltac:(rewrite zlen_app, zlen_cons, zlen_nil; lia) Hr) as (fuel & Hf & Ef).
    destruct (qp_text len s 0 10) as [t m]. cbn [fst] in *. rewrite <- app_assoc.
    destruct (unqp_piece (S fuel) cap prev c (([61; 10] ++ t) ++ rest) out Hc ltac:(lia)) as (k & Hk & Ek).
    exists (S k + S fuel)%nat. split; [rewrite !length_app; cbn [length]; lia|]. rewrite Ek. cbn [app]. by rewrite unqp_soft.
  - destruct (IH (qp_column n c) (qp_prev c) (out ++ [c]) ltac:(rewrite zlen_app, zlen_cons, zlen_nil; lia) Hr) as (fuel & Hf & Ef).
    destruct (qp_text len s (qp_column n c) (qp_prev c)) as [t m]. cbn [fst] in *. rewrite <- app_assoc.
    destruct (unqp_piece fuel cap prev c (t ++ rest) out Hc ltac:(lia)) as (k & Hk & Ek).
    exists (S k + fuel)%nat. split; [rewrite !length_app; lia|]. by rewrite Ek.
Qed.

Lemma unpack_M_spec len s : bytes_ok s → unpack_M (qp_encoded len s) = Ok (s, []).
Proof.
  intros Hs. unfold unpack_M, qp_encoded. destruct (qp_text len s 0 EOF) as [t m] eqn:E.
  assert (length s ≤ length t)%nat as Hl.
  { replace t with (qp_text len s 0 EOF).1 by (by rewrite E). clear. generalize 0 EOF. induction s as [|c s IH]; intros n prev; [cbn; lia|]. cbn [qp_text].
    assert (1 ≤ length (qp_piece prev c))%nat by (unfold qp_piece; destruct (qp_special c); [cbn; lia|]; destruct (c =? 10); rewrite ?length_app; cbn; lia).
    destruct (len <? qp_column n c).
    - specialize (IH 0 10). destruct (qp_text len s 0 10). cbn [fst length] in *. rewrite !length_app. lia.
    - specialize (IH (qp_column n c) (qp_prev c)). destruct (qp_text len s (qp_column n c) (qp_prev c)). cbn [fst length] in *. rewrite !length_app. lia. }
  set (rest := if 0 <? m then [61; 10] else []). set (k0 := S (length rest)).
  destruct (unqp_text k0 len s 0 EOF (zlen (t ++ rest)) [] rest Hs) as (fuel & Hf & Ef).
  - rewrite zlen_nil, zlen_app. unfold zlen. lia.
  - unfold k0, rest. by destruct (0 <? m).
  - rewrite E in *. cbn [fst app] in *. eapply unqp_more; [exact Ef|]. rewrite length_app. unfold k0 in Hf. lia.
Qed.
