(* ===== verification/PackSafe.v ===== *)
(** * pack.c: the decoders on any input

    Whatever the bytes, the decoders of text stay within their buffers, provided the
    byte after the string is none of those they would act on. *)

From S2P Require Import Prelude Util Big Numeric Pack Unpack PackSpec PackField PackUtf8 PackText PackDecode.

Section safe.
Context `{J : Junk} `{BY : Beyond} (Hby : byte_ok beyond).

(** ** Base64 *)

Lemma b64_scan_any stop s : bytes_ok s →
  returns (b64_scan stop s) (λ '(v, s'), bytes_ok s' ∧ (length s' ≤ length s)%nat ∧ match s' with c :: _ => aload b64_xtable c = Ok v | [] => True end).
Proof.
  induction 1 as [|c s Hc Hs IH]; cbn [b64_scan].
  - destruct (b64_total beyond Hby) as (v & ->). apply returns_ret. split_and!; [constructor|lia|done].
  - destruct (b64_total c Hc) as (v & Hv). rewrite Hv. cbn [mbind res_bind]. destruct (v =? -1); [destruct (stop && (c =? 61))|].
    + apply returns_ret. split_and!; [by constructor|lia|done].
    + eapply returns_mono; [exact IH|]. intros [v' s'] (H1 & H2 & H3). split_and!; [done|cbn; lia|done].
    + apply returns_ret. split_and!; [by constructor|lia|done].
Qed.

(** An exit with [n] characters of a group read before the current one. *)
Definition exit_fits (total : Z) (st : b64_exit) : Prop :=
  4 * zlen (xout st) + 3 * zlen (xs st) ≤ 3 * total ∧ bytes_ok (xout st) ∧
  (xs st ≠ [] → xb st ≠ -1 → 4 * zlen (xout st) + 3 * zlen (xs st) + 6 ≤ 3 * total) ∧
  (xs st ≠ [] → xc st ≠ -1 → xb st ≠ -1 → 4 * zlen (xout st) + 3 * zlen (xs st) + 9 ≤ 3 * total).

Lemma at_end_spec s : at_end s = false → s ≠ [].
Proof. by destruct s. Qed.

Definition loop_fits (total : Z) (st : b64_exit) : Prop :=
  bytes_ok (xs st) ∧ 4 * zlen (xout st) + 3 * zlen (xs st) ≤ 3 * total ∧ bytes_ok (xout st).

Lemma tail_ok s : bytes_ok s → s ≠ [] → bytes_ok (tail s) ∧ (length (tail s) = length s - 1)%nat ∧ (0 < length s)%nat.
Proof. intros H Hne. destruct H; [done|]. cbn. split_and!; [done|lia|lia]. Qed.

Lemma puts_any cap out cs : bytes_ok out → zlen out + zlen cs ≤ cap →
  returns (puts cap out cs) (λ out', bytes_ok out' ∧ zlen out' = zlen out + zlen cs).
Proof.
  intros Ho H. rewrite puts_ok by done. apply returns_ret. split.
  - apply Forall_app. split; [done|]. apply Forall_fmap, Forall_true. intros x. apply byte_of_ok.
  - rewrite zlen_app. unfold zlen. by rewrite length_fmap.
Qed.

Lemma b64_step_any total st : loop_fits total st →
  returns (b64_step (total * 3 / 4) st) (λ r, match r with
    | inl st' => loop_fits total st' ∧ (length (xs st') < length (xs st))%nat
    | inr st' => exit_fits total st'
    end).
Proof.
  intros (Hs & Hc & Ho). unfold b64_step. destruct (at_end (xs st)) eqn:E0.
  { apply returns_ret. assert (xs st = []) as E by (by destruct (xs st)). split_and!; [done|done|by rewrite E|by rewrite E]. }
  eapply returns_bind_mono; [by apply b64_scan_any|]. intros [a s1] (B1 & L1 & _). destruct (at_end s1) eqn:E1.
  { apply returns_ret. unfold zlen in *. split_and!; cbn [xs xout xb xc]; [unfold zlen; lia|done|done|done]. }
  destruct (tail_ok s1 B1 (at_end_spec _ E1)) as (T1 & U1 & P1).
  eapply returns_bind_mono; [by apply b64_scan_any|]. intros [b s2] (B2 & L2 & _). destruct (at_end s2) eqn:E2.
  { apply returns_ret. assert (s2 = []) as -> by (by destruct s2). unfold zlen in *. split_and!; cbn [xs xout xb xc]; [unfold zlen; lia|done|done|done]. }
  destruct (tail_ok s2 B2 (at_end_spec _ E2)) as (T2 & U2 & P2).
  eapply returns_bind_mono; [by apply b64_scan_any|]. intros [c s3] (B3 & L3 & X3). destruct ((at_ s3 =? 61) || at_end s3) eqn:E3.
  { apply returns_ret. unfold zlen in *. split_and!; cbn [xs xout xb xc]; [unfold zlen; lia|done|unfold zlen; intros _ _; lia|].
    intros Hne Hcn _. exfalso. destruct s3 as [|c3 s3]; [done|]. cbn [at_ hd] in E3. rewrite at_end_cons, orb_false_r in E3. apply Z.eqb_eq in E3 as ->.
    injection X3 as <-. done. }
  apply orb_false_iff in E3 as [_ E3]. destruct (tail_ok s3 B3 (at_end_spec _ E3)) as (T3 & U3 & P3).
  eapply returns_bind_mono; [by apply b64_scan_any|]. intros [d s4] (B4 & L4 & _). destruct ((at_ s4 =? 61) || at_end s4) eqn:E4.
  { apply returns_ret. unfold zlen in *. split_and!; cbn [xs xout xb xc]; [unfold zlen; lia|done|unfold zlen; intros _ _; lia|unfold zlen; intros _ _ _; lia]. }
  apply orb_false_iff in E4 as [_ E4]. destruct (tail_ok s4 B4 (at_end_spec _ E4)) as (T4 & U4 & P4).
  eapply returns_bind_mono; [apply puts_any; [done|]|].
  { change (zlen (hunk a b c d)) with 3. apply Z.div_le_lower_bound; unfold zlen in *; lia. }
  intros out' [Ho' Hl]. apply returns_ret. change (zlen (hunk a b c d)) with 3 in Hl. unfold zlen in *. split; [split_and!|]; cbn [xs xout]; unfold zlen; (done || lia).
Qed.

(** Base64: at most three bytes for four characters. *)
Lemma unpack_m_safe text : beyond ≠ 61 → bytes_ok text →
  returns (unpack_m text) (λ r, bytes_ok r.1 ∧ 4 * zlen r.1 ≤ 3 * zlen text).
Proof.
  intros H61 Ht. rewrite unpack_m_unfold. eapply returns_bind_mono.
  { apply (iter_inv (loop_fits (zlen text)) (λ st, length (xs st)) (exit_fits (zlen text))); [|cbn; lia|].
    - split_and!; [done|cbn [xs xout]; rewrite zlen_nil; lia|constructor].
    - intros st Hst. by apply b64_step_any. }
  intros [a b c s out] (H1 & Ho & H2 & H3). cbn [xs xout xb xc b64_finish] in *.
  assert (at_ s = 61 → s ≠ []) as Hs by (destruct s; [done|done]). pose proof (zlen_nonneg s).
  destruct (Z.eqb_spec a (-1)); [apply returns_ret; cbn [fst]; split; [done|lia]|].
  destruct (Z.eqb_spec b (-1)); [apply returns_ret; cbn [fst]; split; [done|lia]|]. cbn [negb andb].
  destruct (Z.eqb_spec (at_ s) 61) as [E|]; [|rewrite !andb_false_r; apply returns_ret; cbn [fst]; split; [done|lia]]. rewrite !andb_true_r.
  specialize (Hs E). assert (1 ≤ zlen s) by (destruct s; [done|rewrite zlen_cons; pose proof (zlen_nonneg s); lia]).
  destruct (Z.eqb_spec c (-1)); cbn [negb].
  - eapply returns_bind_mono; [apply puts_any; [done|change (zlen (take 1 (hunk a b c 0))) with 1; apply Z.div_le_lower_bound; [lia|]; specialize (H2 Hs ltac:(done)); lia]|].
    intros out' [Ho' Hl]. change (zlen (take 1 (hunk a b c 0))) with 1 in Hl. apply returns_ret. cbn [fst]. split; [done|]. specialize (H2 Hs ltac:(done)). lia.
  - specialize (H3 Hs ltac:(done) ltac:(done)).
    eapply returns_bind_mono; [apply puts_any; [done|change (zlen (take 2 (hunk a b c 0))) with 2; apply Z.div_le_lower_bound; lia]|].
    intros out' [Ho' Hl]. change (zlen (take 2 (hunk a b c 0))) with 2 in Hl. apply returns_ret. cbn [fst]. split; [done|]. lia.
Qed.

(** ** Uuencoded text *)

Lemma uu_char_any s : bytes_ok s → bytes_ok (uu_char s).2 ∧ (length (uu_char s).2 ≤ length s)%nat.
Proof.
  intros H. destruct H as [|c s Hc Hs]; cbn [uu_char]; [split; [constructor|cbn; lia]|].
  destruct (32 <=? schar c); cbn [snd]; (split; [done || by constructor|cbn; lia]).
Qed.

Lemma uu_line_any fuel cap len s out : bytes_ok s → bytes_ok out → 0 ≤ len ≤ 3 * Z.of_nat fuel → zlen out + len ≤ cap →
  returns (uu_line fuel cap len s out) (λ '(s', out'), bytes_ok s' ∧ (length s' ≤ length s)%nat ∧ bytes_ok out' ∧ zlen out' = zlen out + len).
Proof.
  revert len s out. induction fuel as [|fuel IH]; intros len s out Hs Ho Hl Hc; cbn [uu_line]; (destruct (Z.ltb_spec 0 len); [|apply returns_ret; split_and!; [done|lia|done|lia]]); [lia|].
  destruct (uu_char_any s Hs) as [H1 L1]. destruct (uu_char s) as [a s1]. cbn [snd] in *.
  destruct (uu_char_any s1 H1) as [H2 L2]. destruct (uu_char s1) as [b s2]. cbn [snd] in *.
  destruct (uu_char_any s2 H2) as [H3 L3]. destruct (uu_char s2) as [c s3]. cbn [snd] in *.
  destruct (uu_char_any s3 H3) as [H4 L4]. destruct (uu_char s3) as [d s4]. cbn [snd] in *.
  set (mlen := if 3 <? len then 3 else len). assert (1 ≤ mlen ≤ 3 ∧ mlen ≤ len ∧ len - mlen ≤ 3 * Z.of_nat fuel) as (M1 & M2 & M3).
  { unfold mlen. destruct (Z.ltb_spec 3 len); lia. }
  assert (zlen (take (Z.to_nat mlen) (hunk a b c d)) = mlen) as Hm by (unfold zlen; rewrite length_take; cbn [length hunk]; lia).
  eapply returns_bind_mono; [apply puts_any; [done|lia]|]. intros out' [Ho' Hol].
  eapply returns_mono; [apply IH; [done|done|lia|lia]|]. intros [s' o'] (Q1 & Q2 & Q3 & Q4). split_and!; [done|lia|done|lia].
Qed.

Lemma uu_eol_any s : beyond ≠ 13 → bytes_ok s → returns (uu_eol s) (λ '(s', past), bytes_ok s' ∧ (length s' ≤ length s)%nat ∧ 0 ≤ past ≤ 1).
Proof.
  intros Hb Hs. unfold uu_eol. apply returns_bind_mono with (λ s', bytes_ok s' ∧ (length s' ≤ length s)%nat).
  - destruct Hs as [|c s Hc Hs]; cbn [at_ hd].
    + rewrite (proj2 (Z.eqb_neq _ _) Hb). apply returns_ret. split; [constructor|lia].
    + destruct (c =? 13); apply returns_ret; (split; [done || by constructor|cbn; lia]).
  - intros s' [Hs' Hl]. destruct (at_ s' =? 10).
    + destruct Hs' as [|c s' Hc Hs']; apply returns_ret; cbn [length] in *; split_and!; (lia || done || constructor).
    + destruct Hs' as [|c s' Hc Hs']; [apply returns_ret; split_and!; [constructor|cbn in *; lia|lia|lia]|].
      destruct Hs' as [|c' s' Hc' Hs']; [apply returns_ret; split_and!; [constructor|cbn in *; lia|lia|lia]|].
      assert (bytes_ok (c :: c' :: s')) by (by constructor; [|constructor]).
      destruct (c' =? 10); apply returns_ret; cbn [length] in *; split_and!; (done || lia).
Qed.

Lemma unpack_u_safe text : beyond ≠ 13 → bytes_ok text →
  returns (unpack_u text) (λ r, bytes_ok r.1.1 ∧ 4 * zlen r.1.1 ≤ 3 * zlen text ∧ 0 ≤ r.2 ≤ 1).
Proof.
  intros Hb Ht. unfold unpack_u. set (cap := zlen text * 3 / 4). pose proof (zlen_nonneg text) as Hz.
  assert (0 ≤ cap ∧ 4 * cap ≤ 3 * zlen text) as [Hc0 Hc4].
  { unfold cap. split; [apply Z.div_pos; lia|]. pose proof (Z.mul_div_le (zlen text * 3) 4). lia. }
  apply returns_bind_mono with (λ '(s, past, out, total), bytes_ok out ∧ zlen out = total ∧ total ≤ cap ∧ 0 ≤ past ≤ 1).
  - apply (iter_inv (λ '(s, past, out, total), bytes_ok s ∧ bytes_ok out ∧ zlen out = total ∧ total ≤ cap ∧ 0 ≤ past ≤ 1) (λ st, length st.1.1.1));
      [split_and!; [done|constructor|done|lia|lia|lia]|cbn; lia|].
    intros [[[s past] out] total] (Hs & Ho & Hl & Hc & Hp). destruct Hs as [|c s Hc' Hs]; [by apply returns_ret|]. cbn [uu_step].
    destruct ((32 <? schar c) && (schar c <? 97)); [|by apply returns_ret].
    set (len := Z.land (schar c - 32) 63). assert (0 ≤ len < 64) as Hlen by (unfold len; rewrite (land_mask _ 6) by lia; apply Z.mod_pos_bound; lia).
    destruct (if cap <? total + len then (len - (total + len - cap), cap) else (len, total + len)) as [len' total'] eqn:E.
    assert (0 ≤ len' ≤ len ∧ total' = total + len' ∧ total' ≤ cap) as (P1 & P2 & P3).
    { destruct (Z.ltb_spec cap (total + len)); injection E as <- <-; lia. }
    eapply returns_bind_mono; [apply (uu_line_any 22 cap len' s out); [done|done|lia|lia]|].
    intros [s' out'] (Q1 & Q2 & Q3 & Q4). eapply returns_bind_mono; [by apply uu_eol_any|]. intros [s2 p2] (R1 & R2 & R3).
    apply returns_ret. cbn [fst]. split; [split_and!; (done || lia)|cbn; lia].
  - intros [[[s past] out] total] (Ho & Hl & Hc & Hp). apply returns_ret. cbn [fst snd]. split_and!; [by apply Forall_take| |lia|lia].
    rewrite zlen_take. lia.
Qed.

(** ** Quoted-printable text *)

Lemma unqp_any fuel cap s out : bytes_ok s → bytes_ok out → (length s < fuel)%nat → zlen out + zlen s ≤ cap →
  returns (unqp fuel cap s out) (λ r, bytes_ok r.1 ∧ zlen r.1 ≤ zlen out + zlen s).
Proof.
  revert s out. induction fuel as [|fuel IH]; intros s out Hs Ho Hf Hc; [lia|]. cbn [unqp].
  destruct Hs as [|c s1 Hc1 Hs1]; [apply returns_ret; cbn [fst]; split; [done|rewrite zlen_nil; lia]|]. rewrite zlen_cons in *. cbn [length] in Hf. pose proof (zlen_nonneg s1).
  assert (∀ s' b, bytes_ok s' → zlen s' ≤ zlen s1 → returns (o ← put cap out b; unqp fuel cap s' o) (λ r, bytes_ok r.1 ∧ zlen r.1 ≤ zlen out + (1 + zlen s1))) as Hput.
  { intros s' b Hs' Hl. unfold put. rewrite (proj2 (Z.ltb_lt _ _)) by lia. cbn [mbind res_bind]. eapply returns_mono; [apply IH|].
    - done.
    - apply Forall_app. split; [done|]. constructor; [apply byte_of_ok|constructor].
    - unfold zlen in *. lia.
    - rewrite zlen_app, zlen_cons, zlen_nil. lia.
    - intros r [H1 H2]. rewrite zlen_app, zlen_cons, zlen_nil in H2. split; [done|lia]. }
  assert (∀ s', returns (Ok (out, s')) (λ r : list Z * list Z, bytes_ok r.1 ∧ zlen r.1 ≤ zlen out + (1 + zlen s1))) as Hret.
  { intros s'. apply returns_ret. cbn [fst]. split; [done|lia]. }
  destruct (c =? 61); [|by apply Hput].
  destruct Hs1 as [|c1 s2 Hc2 Hs2]; [apply Hret|]. rewrite zlen_cons in *.
  set (s' := if (c1 =? 13) && match s2 with c2 :: _ => c2 =? 10 | [] => false end then s2 else c1 :: s2).
  assert (bytes_ok s' ∧ zlen s' ≤ 1 + zlen s2) as [Hb Hl].
  { unfold s'. destruct ((c1 =? 13) && _); [split; [done|lia]|]. split; [by constructor|]. by rewrite zlen_cons. }
  assert (bytes_ok (tail s') ∧ zlen (tail s') ≤ zlen s2) as [Hb2 Hl2].
  { destruct Hb as [|d s3 Hd Hs3]; cbn [tail]; [split; [constructor|rewrite zlen_nil; apply zlen_nonneg]|]. split; [done|]. rewrite zlen_cons in Hl. lia. }
  destruct (negb (hd 0 s' =? 10)).
  - destruct (hex2num (hd 0 s') =? -1); [apply Hret|]. destruct (tail s') as [|c2 s3]; [apply Hret|]. destruct (hex2num c2 =? -1); [apply Hret|].
    rewrite zlen_cons in Hl2. apply Hput; [by inversion Hb2|lia].
  - eapply returns_mono; [apply IH; [done|done|unfold zlen in *; cbn [length] in *; lia|lia]|]. intros r [H1 H2]. split; [done|lia].
Qed.

Lemma unpack_M_safe text : bytes_ok text → returns (unpack_M text) (λ r, bytes_ok r.1 ∧ zlen r.1 ≤ zlen text).
Proof. intros Ht. unfold unpack_M. eapply returns_mono; [apply unqp_any; [done|constructor|lia|rewrite zlen_nil; lia]|]. by intros r []. Qed.
End safe.
