(* ===== verification/PackThm.v ===== *)
(** * pack.c: theorems *)

From S2P Require Import Prelude Util Big BigVal BigAdd BigThm Numeric NumericSpec Pack Unpack PackSpec PackField PackInt PackUtf8.
From S2P Require Import PackStr PackText PackDecode PackSafe.

Section theorems.
Context `{J : Junk} `{BY : Beyond} `{CF : CFMutableData} {L : CFDataLaws CF}.

(** The values a field takes, and those that come back. *)
Inductive field_values (block_p : bool) (f : field) : list value → list value → Prop :=
  | FV_integers xs ns : ftype f ∈ int_types → flen f = zlen xs → Forall canon xs →
      Forall2 (λ x n, canon n ∧ nval n = int_wrap (ftype f) (fnat f) (nval x)) xs ns →
      field_values block_p f (VInt <$> xs) (VInt <$> ns)
  | FV_chars xs : ftype f = 85 → flen f = zlen xs → Forall is_char xs → field_values block_p f (VInt <$> xs) (VInt <$> xs)
  | FV_naturals xs : ftype f = 119 → flen f = zlen xs → Forall is_natural xs → field_values block_p f (VInt <$> xs) (VInt <$> xs)
  | FV_string s : ftype f ∈ [65; 97; 90] →
      field_values block_p f [VStr s] [VStr (unpadded (ftype f) (resize (Z.to_nat (flen f)) (pad_of (ftype f)) s))]
  | FV_bits cs : ftype f ∈ [98; 66; 104; 72] → flen f = zlen cs → Forall (λ c, c ∈ bits_chars (ftype f)) cs →
      field_values block_p f [VStr cs] [VStr (if block_p then replicate (length cs) 0 else cs)].

Lemma field_values_codec block_p f vs ws : field_ok f → field_values block_p f vs ws → ∃ bs, codec block_p f vs bs ws.
Proof.
  intros Hf H. destruct H as [xs ns Ht Hl Hc H2|xs Ht Hl Hc|xs Ht Hl Hc|s Ht|cs Ht Hl Hc].
  - destruct (int_codec block_p f xs Ht Hl Hc) as (bs & ns' & Hcod & _ & H2'). exists bs.
    assert (ns' = ns) as ->; [|done]. clear - H2 H2'. revert ns' H2'. induction H2 as [|x n xs ns [Hn Hv] H2 IH]; intros ns' H'.
    + by inversion H'.
    + inversion H' as [|? n' ? ns'' [Hn' Hv'] H'']; subst. f_equal; [apply canon_unique; [done|done|congruence]|by apply IH].
  - destruct (U_codec block_p f xs Ht Hl Hc) as (bs & Hcod & _). by exists bs.
  - eexists. by apply w_codec.
  - eexists. by apply a_codec.
  - eexists. by apply bits_codec.
Qed.

(** C22: what a template packs, the same template unpacks: for every sequence of fields of
    integers (c C s S i I l L q Q n N v V, native sizes included), characters (U),
    compressed integers (w), strings (a A Z) and bit or hexadecimal strings (b B h H), with
    any counts.  Integers come back reduced to their width, strings padded, cut and
    stripped as the directive says; a block receives bit strings before they are filled. *)
Theorem pack_unpack_template block_p (fs : list (field * list value * list value)) :
  Forall (λ '(f, vs, ws), field_ok f ∧ field_values block_p f vs ws) fs →
  returns (pack_pack (fs ≫= λ '(_, vs, _), vs) (template ((λ '(f, _, _), f) <$> fs))) (λ d,
    zlen (CFDataGetBytes d) < 2 ^ 63 →
    pack_unpack block_p (CFDataGetBytes d) (template ((λ '(f, _, _), f) <$> fs)) = Ok (fs ≫= λ '(_, _, ws), ws)).
Proof.
  intros H.
  assert (∃ cs, Forall (coded_ok block_p) cs ∧ (fs ≫= λ '(_, vs, _), vs) = cs ≫= cvs ∧ ((λ '(f, _, _), f) <$> fs) = cfield <$> cs ∧
    (fs ≫= λ '(_, _, ws), ws) = cs ≫= cws) as (cs & Hcs & -> & -> & ->).
  { induction H as [|[[f vs] ws] fs [Hf Hv] _ (cs & Hcs & E1 & E2 & E3)]; [by exists []|].
    destruct (field_values_codec block_p f vs ws Hf Hv) as [bs Hbs]. exists (mkCoded f vs bs ws :: cs).
    split_and!; [by constructor|cbn; by f_equal..]. }
  unfold pack_pack. rewrite <- (app_nil_r (cs ≫= cvs)). eapply returns_mono.
  { apply (pack_loop block_p cs [] CFDataCreateMutable (S _) Hcs). lia. }
  intros d Hd Hz. rewrite cf_create in Hd. cbn [app] in Hd. rewrite Hd in *.
  apply (unpack_loop cs block_p [] [] (S _) Hcs Hz). lia.
Qed.

(** ** Text encodings *)

Lemma pack_single f v bs d0 : field_ok f → rest_ok [] →
  (∀ items data, returns (pack_directive (ftype f) (fnat f) (flen f) false (v :: items) data)
     (λ r, r.1 = items ∧ CFDataGetBytes r.2 = CFDataGetBytes data ++ bs)) →
  d0 = CFDataGetBytes CFDataCreateMutable → returns (pack_pack [v] (field_text f)) (λ d, CFDataGetBytes d = d0 ++ bs).
Proof.
  intros Hf Hr Hp ->. unfold pack_pack. rewrite <- (app_nil_r (field_text f)) at 2. cbn [iter].
  rewrite pack_step_field by done. destruct (Hp [] CFDataCreateMutable) as ([items d] & -> & Hi & Hd). cbn [fst snd mbind res_bind] in *. subst.
  unfold field_text. cbn [length iter]. cbn. by apply returns_ret.
Qed.

Lemma unpack_single f block_p str ws s : field_ok f →
  unpack_directive block_p (ftype f) (fnat f) (flen f) false str 0 = Ok (ws, s) → pack_unpack block_p str (field_text f) = Ok ws.
Proof.
  intros Hf Hu. unfold pack_unpack. rewrite <- (app_nil_r (field_text f)) at 2. cbn [iter].
  assert (rest_ok []) as Hr by (by split; [constructor|]). rewrite unpack_step_field, Hu by done. cbn [mbind res_bind].
  unfold field_text. cbn [length iter]. done.
Qed.

Lemma unpack_directive_text block_p natint len str :
  unpack_directive block_p 109 natint len false str 0 =
    ('(out, rest) ← unpack_m str; Ok ([VStr out], if 0 <? zlen str then zlen str - zlen rest else 0)) ∧
  unpack_directive block_p 117 natint len false str 0 =
    ('(out, rest, past) ← unpack_u str; Ok ([VStr out], if 0 <? zlen str then zlen str - zlen rest + past else 0)) ∧
  unpack_directive block_p 77 natint len false str 0 =
    ('(out, rest) ← unpack_M str; Ok ([VStr out], if 0 <? zlen str then zlen str - zlen rest else 0)).
Proof. done. Qed.

(** C23: a string packed as base64 (m), uuencoded (u) or quoted-printable text (M) unpacks
    to itself, for every string of bytes: m with every count, with no line feeds
    for count 0, u for counts up to 65, whose lines have at most 63 bytes, M with
    any length of line; provided that the byte behind the text in memory is not an equals sign.  Packing stays
    within the buffers of the encoders, and unpacking within those of the decoders. *)
Theorem pack_text_roundtrip f s block_p :
  field_ok f → bytes_ok s → byte_ok beyond → beyond ≠ 61 →
  ftype f = 109 ∨ ftype f = 117 ∧ flen f ≤ 65 ∨ ftype f = 77 →
  returns (pack_pack [VStr s] (field_text f)) (λ d, pack_unpack block_p (CFDataGetBytes d) (field_text f) = Ok [VStr s]).
Proof.
  intros Hf Hs Hb H61 Ht. assert (rest_ok []) as Hr by (by split; [constructor|]).
  destruct Ht as [Ht|[[Ht Hl]|Ht]].
  - eapply returns_mono; [apply (pack_single f (VStr s) (packed_text 109 (flen f) s) []); [done|done| |by rewrite cf_create]|].
    { intros items data. unfold pack_directive. rewrite Ht. cbn -[pack_um]. apply pack_um_spec; [by right|done]. }
    destruct (unpack_m_spec s (packed_text 109 (flen f) s) H61 Hb Hs (packed_m_no_lf _ _ Hs)) as ([out rest] & E & Ho). cbn [fst] in Ho.
    intros d Hd. cbn [app] in Hd. eapply unpack_single; [done|]. rewrite Ht, Hd, (proj1 (unpack_directive_text _ _ _ _)).
    rewrite E. cbn [mbind res_bind]. by rewrite Ho.
  - eapply returns_mono; [apply (pack_single f (VStr s) (packed_text 117 (flen f) s) []); [done|done| |by rewrite cf_create]|].
    { intros items data. unfold pack_directive. rewrite Ht. cbn -[pack_um]. apply pack_um_spec; [by left|done]. }
    destruct (unpack_u_spec (flen f) s Hs) as [past E]; [by apply line_width_spec|].
    intros d Hd. cbn [app] in Hd. eapply unpack_single; [done|]. rewrite Ht, Hd, (proj1 (proj2 (unpack_directive_text _ _ _ _))). by rewrite E.
  - eapply returns_mono; [apply (pack_single f (VStr s) (qp_encoded (if flen f <=? 1 then 72 else flen f) s) []); [done|done| |by rewrite cf_create]|].
    { intros items data. unfold pack_directive. rewrite Ht. cbn -[qpencode qp_encoded]. eapply returns_bind_mono; [by apply qpencode_spec|].
      intros d Hd. by apply returns_ret. }
    intros d Hd. cbn [app] in Hd. eapply unpack_single; [done|]. rewrite Ht, Hd, (proj2 (proj2 (unpack_directive_text _ _ _ _))).
    by rewrite unpack_M_spec.
Qed.

(** C24: the decoders of text are safe on any bytes: base64, uuencoded and quoted-printable
    input of any form, truncated or corrupt, is read to an end within the buffers allocated
    for it, whose sizes bound the results, provided the byte in memory after the string is
    neither an equals sign nor a carriage return. *)
Theorem text_decoders_safe text :
  bytes_ok text → byte_ok beyond → beyond ≠ 61 → beyond ≠ 13 →
  returns (unpack_m text) (λ r, bytes_ok r.1 ∧ 4 * zlen r.1 ≤ 3 * zlen text) ∧
  returns (unpack_u text) (λ r, bytes_ok r.1.1 ∧ 4 * zlen r.1.1 ≤ 3 * zlen text ∧ 0 ≤ r.2 ≤ 1) ∧
  returns (unpack_M text) (λ r, bytes_ok r.1 ∧ zlen r.1 ≤ zlen text).
Proof. intros Ht Hb H61 H13. split_and!; [by apply unpack_m_safe|by apply unpack_u_safe|by apply unpack_M_safe]. Qed.

(** C25: UTF-8 is read exactly as it is written: [utf8_to_uv] accepts the bytes at the start of a string
    as the character [uv] of [n] bytes if and only if they are what [rb_uv_to_utf8] writes for [uv];
    overlong forms, stray continuation bytes and truncated sequences are refused.  Every number
    below 2^31 has an encoding of one to six bytes, and larger ones raise RangeError. *)
Theorem utf8_exact p uv n :
  bytes_ok p →
  (utf8_to_uv p (zlen p) = Ok (uv, n) ↔ 0 ≤ uv ∧ ∃ bs post, rb_uv_to_utf8 uv = Ok bs ∧ zlen bs = n ∧ p = bs ++ post) ∧
  (0 ≤ uv < 2 ^ 31 → returns (rb_uv_to_utf8 uv) (λ bs, 1 ≤ zlen bs ≤ 6)) ∧
  (2 ^ 31 ≤ uv → rb_uv_to_utf8 uv = Err (Raise RangeError)).
Proof.
  intros Hp. split_and!; [split|..].
  - intros H. destruct (utf8_decode_inv p _ uv n Hp H) as (Hr & post & E). split.
    { destruct (utf8_range_cases n uv Hr) as [->|[->|[->|[->|[->| ->]]]]]; cbn in Hr; lia. }
    exists (utf8_bytes n uv), post. split_and!; [by apply encode_spec|by apply utf8_bytes_len|done].
  - intros (Hu & bs & post & E & Hl & ->). destruct (decide (uv < 2 ^ 31)); [|by rewrite encode_too_large in E by lia].
    destruct (utf8_range_ex uv ltac:(lia)) as (m & Hm & Hr). rewrite (encode_spec m uv Hr) in E. injection E as <-.
    rewrite utf8_bytes_len in Hl by done. subst m. apply utf8_decode; [done|]. rewrite zlen_app, utf8_bytes_len by done.
    pose proof (zlen_nonneg post). lia.
  - intros Hu. destruct (utf8_range_ex uv Hu) as (m & Hm & Hr). rewrite (encode_spec m uv Hr). apply returns_ret.
    by rewrite utf8_bytes_len.
  - apply encode_too_large.
Qed.

(** BER compression writes every natural number, of any size, in base 128 with the most significant
    digit first and the top bit set on all bytes but the last, and raises ArgumentError for negative numbers
    and TypeError for anything else. *)
Theorem ber_compressed x :
  canon x →
  pack_w (VInt x) = (if decide (0 ≤ nval x) then Ok (ber (nval x)) else Err (Raise ArgumentError)) ∧
  pack_w VNil = Err (Raise TypeError) ∧
  (0 ≤ nval x → ∃ ds, ber (nval x) = be_bytes ds ∧ ds ≠ [] ∧ Forall digit_ok ds ∧ be128 0 ds = nval x).
Proof. intros Hx. split_and!; [by apply pack_w_spec|done|apply ber_be]. Qed.

(** ** Errors *)

Lemma pack_each_few n conv items data : (length items < n)%nat → (∀ v, v ∈ items → returns (conv v) (λ _, True)) →
  pack_each n conv items data = Err (Raise ArgumentError).
Proof.
  revert n data. induction items as [|v items IH]; intros n data Hn Hc; (destruct n as [|n]; [cbn in Hn; lia|]); [done|].
  cbn [pack_each NEXTFROM mbind res_bind]. destruct (Hc v ltac:(set_solver)) as (bs & -> & _). cbn [mbind res_bind].
  apply IH; [cbn in Hn; lia|]. intros w Hw. apply Hc. set_solver.
Qed.

(** The errors of packing: a field of integers that asks for more items than there are raises
    ArgumentError; X beyond the start of the result raises ArgumentError; a modifier is
    refused after any letter that has no native size; other directives move within the data: x appends
    zeros, X drops bytes, [@] does one or the other. *)
Theorem pack_moves_and_errors type natint n xs data :
  type ∈ int_types → Forall canon xs → 0 ≤ n < 2 ^ 62 → zlen (CFDataGetBytes data) < 2 ^ 62 →
  (zlen xs < n → pack_directive type natint n false (VInt <$> xs) data = Err (Raise ArgumentError)) ∧
  (zlen (CFDataGetBytes data) < n → pack_directive 88 false n false [] data = Err (Raise ArgumentError)) ∧
  (n ≤ zlen (CFDataGetBytes data) → returns (pack_directive 88 false n false [] data) (λ r,
     CFDataGetBytes r.2 = take (Z.to_nat (zlen (CFDataGetBytes data) - n)) (CFDataGetBytes data))) ∧
  returns (pack_directive 120 false n false [] data) (λ r, CFDataGetBytes r.2 = CFDataGetBytes data ++ replicate (Z.to_nat n) 0) ∧
  returns (pack_directive 64 false n false [] data) (λ r, CFDataGetBytes r.2 = resize (Z.to_nat n) 0 (CFDataGetBytes data)) ∧
  (∀ c p, (c = 95 ∨ c = 33) → strchr natstr type = false → read_modifier type (c :: p) = Err (Raise ArgumentError)).
Proof.
  intros Ht Hxs Hn Hd. set (bs := CFDataGetBytes data) in *. pose proof (zlen_nonneg bs) as Hb.
  assert (∀ m, n ≤ zlen bs → m = zlen bs - n → shrink data n = Ok (CFDataSetLength data m) ∧ CFDataGetBytes (CFDataSetLength data m) = take (Z.to_nat m) bs) as Hshrink.
  { intros m Hle ->. unfold shrink. rewrite cf_length. fold bs. rewrite (proj2 (Z.ltb_ge _ _)), s64_small by lia. split; [done|].
    apply cf_truncate. fold bs. lia. }
  assert (∀ m, 0 ≤ m → returns (grow data m) (λ d, CFDataGetBytes d = bs ++ replicate (Z.to_nat m) 0)) as Hgrow.
  { intros m Hm. by apply fill_with_spec; [apply nul10_tens|]. }
  split_and!.
  - intros Hl. rewrite pack_directive_int by done. apply pack_each_few; [rewrite length_fmap; unfold zlen in Hl; lia|].
    intros v (x & -> & Hx)%list_elem_of_fmap. rewrite Forall_forall in Hxs. destruct (int_item_spec type natint x Ht (Hxs x Hx)) as (b & -> & _). by exists b.
  - intros Hl. unfold pack_directive. cbn -[shrink]. unfold shrink. rewrite cf_length. fold bs. by rewrite (proj2 (Z.ltb_lt _ _)).
  - intros Hl. unfold pack_directive. cbn -[shrink]. destruct (Hshrink _ Hl eq_refl) as [-> E]. cbn [mbind res_bind]. apply returns_ret. cbn [snd]. exact E.
  - unfold pack_directive. cbn -[grow]. eapply returns_bind_mono; [apply Hgrow; lia|]. intros d E. by apply returns_ret.
  - unfold pack_directive. cbn -[grow shrink]. rewrite cf_length. fold bs. rewrite s64_small by lia.
    destruct (Z.ltb_spec 0 (n - zlen bs)).
    + eapply returns_bind_mono; [apply (Hgrow (n - zlen bs)); lia|]. intros d E. apply returns_ret. cbn [snd]. rewrite E, resize_ge by (unfold zlen in *; lia).
      do 2 f_equal. unfold zlen. lia.
    + rewrite s64_small by lia. destruct (Z.ltb_spec 0 (- (n - zlen bs))).
      * unfold shrink. rewrite cf_length. fold bs. rewrite (proj2 (Z.ltb_ge _ _)), s64_small by lia. cbn [mbind res_bind]. apply returns_ret. cbn [snd].
        rewrite cf_truncate by (fold bs; lia). fold bs. rewrite resize_le by (unfold zlen in *; lia). do 2 f_equal. lia.
      * apply returns_ret. cbn [snd]. fold bs. rewrite resize_all_alt by (unfold zlen in *; lia). done.
  - intros c p Hc Hs. unfold read_modifier. rewrite Hs. destruct Hc as [-> | ->]; done.
Qed.
End theorems.

(** ** Concrete data *)

#[global] Instance list_data : CFMutableData := {|
  cfdata := list Z;
  CFDataCreateMutable := [];
  CFDataAppendBytes := app;
  CFDataGetLength := zlen;
  CFDataSetLength d n := resize (Z.to_nat n) 0 d;
  CFDataGetBytes d := d
|}.

#[global] Instance list_data_laws : CFDataLaws list_data.
Proof.
  split; try done. cbn. intros d n Hn. apply resize_le. unfold zlen in Hn. lia.
Qed.

Definition before (c : Z) : Beyond := {| beyond := c |}.

(** Inputs on which unpacking goes wrong.  A directive that wants more items than are left pushes nil
    on an array that does not exist when there is a block; a block sees a bit string before its digits are
    written; base64 text whose last group ends the string is decoded past its buffer if the next byte in memory
    is an equals sign; a byte after the last uuencoded line moves the position past the end of
    the string, so that the next directive raises ArgumentError; and a uuencoded line of more than 63 bytes is not read back. *)
Theorem unpack_faults :
  let unpack b (after : Z) str fmt := @pack_unpack ex_junk (before after) b str fmt in
  unpack false 0 [1] [67; 50] = Ok [VInt (Fixnum 1); VNil] ∧
  unpack true 0 [1] [67; 50] = Err BadPointer ∧
  unpack false 0 [165] [66; 56] = Ok [VStr [49; 48; 49; 48; 48; 49; 48; 49]] ∧
  unpack true 0 [165] [66; 56] = Ok [VStr (replicate 8 0)] ∧
  unpack false 0 [81; 85; 74; 68] [109] = Ok [VStr [65; 66; 67]] ∧
  unpack false 61 [81; 85; 74; 68] [109] = Err OutOfBounds ∧
  unpack false 0 [35; 48; 53; 41; 35; 88] [117; 97] = Err (Raise ArgumentError) ∧
  (d ← @pack_pack ex_junk list_data [VStr (replicate 66 7)] [117; 54; 54]; unpack false 0 d [117; 54; 54]) = Ok [VStr []].
Proof.
  intros unpack. split_and!; vm_compute; reflexivity.
Qed.

(** ** Witnesses *)

Definition ex_count (n : Z) : list Z := [48 + n].

Lemma pack_unpack_template_witness :
  let fs := [(mkField 110 false [50], [VInt (Fixnum 258); VInt (Fixnum (-1))], [VInt (Fixnum 258); VInt (Fixnum 65535)]);
             (mkField 65 false [51], [VStr [72]], [VStr [72]]); (mkField 119 false [], [VInt (Fixnum 300)], [VInt (Fixnum 300)]);
             (mkField 66 false [52], [VStr [49; 48; 49; 49]], [VStr [49; 48; 49; 49]])] in
  ∃ d, @pack_pack ex_junk list_data (fs ≫= λ '(_, vs, _), vs) (template ((λ '(f, _, _), f) <$> fs)) = Ok d ∧
    @pack_unpack ex_junk (before 0) false d (template ((λ '(f, _, _), f) <$> fs)) = Ok (fs ≫= λ '(_, _, ws), ws).
Proof.
  intros fs. destruct (@pack_unpack_template ex_junk (before 0) list_data list_data_laws false fs) as (d & E & H).
  - repeat apply Forall_cons_2; [..|constructor]; (split; [split; [done|done|by apply Forall_fold_right; cbn|done]|]).
    + apply (FV_integers false _ [Fixnum 258; Fixnum (-1)] [Fixnum 258; Fixnum 65535]); [set_solver|done|by repeat (apply Forall_cons_2; [apply canon_fix; lia|]); constructor|].
      repeat constructor; rewrite ?FIXNUM_MIN_val, ?FIXNUM_MAX_val; try lia; done.
    + apply (FV_string false (mkField 65 false [51]) [72]). set_solver.
    + apply (FV_naturals false _ [Fixnum 300]); [done|done|]. apply Forall_cons_2; [|constructor]. split_and!; [apply canon_fix; lia|cbn; lia|].
      unfold small. cbn [nval]. eapply Z.lt_trans; [|apply (SMALL_gt_pow2 10)]; lia.
    + apply (FV_bits false _ [49; 48; 49; 49]); [set_solver|done|]. repeat apply Forall_cons_2; try constructor; set_solver.
  - exists d. split; [exact E|]. apply H. vm_compute in E. injection E as <-. done.
Defined.

Lemma pack_text_roundtrip_witness :
  ∃ d, @pack_pack ex_junk list_data [VStr [104; 105; 61; 200]] (field_text (mkField 109 false [54])) = Ok d ∧
    @pack_unpack ex_junk (before 0) false d (field_text (mkField 109 false [54])) = Ok [VStr [104; 105; 61; 200]].
Proof.
  apply (@pack_text_roundtrip ex_junk (before 0) list_data list_data_laws (mkField 109 false [54]) [104; 105; 61; 200] false).
  - split; [done|done|by apply Forall_cons_2; [|constructor]|done].
  - repeat (apply Forall_cons_2; [unfold byte_ok; lia|]). constructor.
  - unfold byte_ok. cbn. lia.
  - done.
  - by left.
Defined.

Lemma text_decoders_safe_witness : ∃ r, @unpack_m (before 0) [81; 10; 33; 85; 61; 61] = Ok r ∧ r.1 = [65].
Proof.
  destruct (@text_decoders_safe (before 0) [81; 10; 33; 85; 61; 61]) as ((r & E & _) & _).
  - repeat (apply Forall_cons_2; [unfold byte_ok; lia|]). constructor.
  - unfold byte_ok. cbn. lia.
  - done.
  - done.
  - exists r. split; [exact E|]. vm_compute in E. by injection E as <-.
Defined.

Lemma utf8_exact_witness : utf8_to_uv [226; 130; 172; 33] 4 = Ok (8364, 3).
Proof.
  apply (utf8_exact [226; 130; 172; 33] 8364 3).
  - repeat (apply Forall_cons_2; [unfold byte_ok; lia|]). constructor.
  - split; [lia|]. exists [226; 130; 172], [33]. done.
Defined.

Lemma ber_compressed_witness : @pack_w ex_junk (VInt (Fixnum 16384)) = Ok [129; 128; 0].
Proof. destruct (@ber_compressed ex_junk (Fixnum 16384)) as (-> & _); [apply canon_fix; lia|]. reflexivity. Defined.

Lemma pack_moves_and_errors_witness :
  @pack_directive ex_junk list_data 78 false 2 false (VInt <$> [Fixnum 5]) [1; 2; 3] = Err (Raise ArgumentError).
Proof.
  destruct (@pack_moves_and_errors ex_junk list_data list_data_laws 78 false 2 [Fixnum 5] [1; 2; 3]) as (H & _).
  - set_solver.
  - apply Forall_cons_2; [apply canon_fix; lia|constructor].
  - lia.
  - done.
  - apply H. done.
Defined.
