(* ===== verification/Value.v ===== *)
(** * Values and commands

    The values of Ruby that hash.c and set.c handle, their equality as keys, and commands: functions
    on a world of objects that return a result or raise, and in both cases leave a world. *)

From stdpp Require Import strings.
From S2P Require Import Prelude.
#[global] Open Scope Z_scope.

Inductive VALUE : Type :=
  | Qnil
  | Qfalse
  | Qtrue
  | Num (n : Z)
  | Obj (id : Z)
  | Proc (id : Z)
  | Ary (elts : list VALUE)
  | Enumerator (recv : nat) (sel : string)
  | Hash (loc : nat)
  | RSet (loc : nat).

Definition NIL_P (v : VALUE) : bool := match v with Qnil => true | _ => false end.
Definition RTEST (v : VALUE) : bool := match v with Qnil | Qfalse => false | _ => true end.
Definition bool_value (b : bool) : VALUE := if b then Qtrue else Qfalse.
Definition opt_value (o : option VALUE) : VALUE := default Qnil o.

(** Values are equal as keys ([CFEqual], [CFHash]) if they have the same [key_of]. *)
Class CFKeys := {
  cfkey : Type;
  cfkey_eq_dec :: EqDecision cfkey;
  cfkey_countable :: Countable cfkey;
  key_of : VALUE → cfkey;
}.

(** ** Commands *)

Definition cmd (W A : Type) : Type := W → res A * W.

#[global] Instance cmd_ret {W} : MRet (cmd W) := λ A a w, (Ok a, w).
#[global] Instance cmd_bind {W} : MBind (cmd W) := λ A B k m w,
  match m w with
  | (Ok a, w) => k a w
  | (Err e, w) => (Err e, w)
  end.

Definition fail {W A} (f : fault) : cmd W A := λ w, (Err f, w).
Definition rb_raise {W A} (e : exc) : cmd W A := fail (Raise e).

(** ** Rules for commands

    [runs m w Q]: [m] ends in [w] without an exception, with a result and a world that
    satisfy [Q]. *)

Section rules.
Context {W : Type}.
Implicit Types w : W.

Definition runs {A} (m : cmd W A) w (Q : A → W → Prop) : Prop :=
  ∃ a w', m w = (Ok a, w') ∧ Q a w'.

Lemma runs_ret {A} (a : A) w Q : Q a w → runs (mret a) w Q.
Proof. intros H. by exists a, w. Qed.

Lemma runs_mono {A} (m : cmd W A) w (P Q : A → W → Prop) : runs m w P → (∀ a w', P a w' → Q a w') → runs m w Q.
Proof. intros (a & w' & E & H) HQ. exists a, w'. auto. Qed.

Lemma runs_bind {A B} (m : cmd W A) (k : A → cmd W B) w P Q :
  runs m w P → (∀ a w', P a w' → runs (k a) w' Q) → runs (m ≫= k) w Q.
Proof.
  intros (a & w' & E & H) Hk. destruct (Hk a w' H) as (b & w'' & E' & HQ). exists b, w''. split; [|done].
  unfold mbind, cmd_bind. by rewrite E.
Qed.

Lemma bind_run {A B} (m : cmd W A) (k : A → cmd W B) w a w' : m w = (Ok a, w') → (m ≫= k) w = k a w'.
Proof. unfold mbind, cmd_bind. by intros ->. Qed.

Lemma bind_err {A B} (m : cmd W A) (k : A → cmd W B) w e w' : m w = (Err e, w') → (m ≫= k) w = (Err e, w').
Proof. unfold mbind, cmd_bind. by intros ->. Qed.

Lemma runs_eq {A B} (m : cmd W A) (k : A → cmd W B) w a w' Q : m w = (Ok a, w') → runs (k a) w' Q → runs (m ≫= k) w Q.
Proof. intros E H. unfold runs. by rewrite (bind_run _ _ _ _ _ E). Qed.
End rules.
