(* ===== verification/Hash.v ===== *)
(** * hash.c: hashes

    A hash of MacRuby is a CFMutableDictionary with, attached to it, the default of the
    hash ([rb_objc_hash_struct]) and the flags of the object.  The dictionaries belong to
    CoreFoundation: they are an interface here ([CFMutableDictionary]), and so are the calls
    into the interpreter ([HashRuntime]: methods called by name, procs).  A world has all
    hashes, so that a block, a default proc or a conversion may change any of them, the one
    that is being iterated over included.  An operation returns a result and a
    world also when it raises: what it did before the exception stays.

    [RB2OC] and [OC2RB] convert between a value and the object that stands for it
    in a dictionary; values are taken up to that conversion.  [Qundef] is not a value: where
    the code returns it the model has [None], and the tests of keys against it fall
    away. *)

From stdpp Require Import strings.
From S2P Require Import Prelude Value.
#[global] Open Scope Z_scope.

(** ** The dictionaries of CoreFoundation *)

Class CFMutableDictionary := {
  cfdict : Type;
  CFDictionaryCreateMutable : cfdict;
  CFDictionaryCreateMutableCopy : cfdict → cfdict;
  CFDictionaryGetCount : cfdict → Z;
  CFDictionaryGetKeysAndValues : cfdict → list (VALUE * VALUE);
  CFDictionaryGetValueIfPresent : cfdict → VALUE → option VALUE;
  CFDictionaryContainsKey : cfdict → VALUE → bool;
  CFDictionaryContainsValue : cfdict → VALUE → bool;
  CFDictionarySetValue : cfdict → VALUE → VALUE → cfdict;
  CFDictionaryRemoveValue : cfdict → VALUE → cfdict;
  CFDictionaryRemoveAllValues : cfdict → cfdict;
  CFEqual : cfdict → cfdict → bool;
}.

(** ** The world *)

Record rb_objc_hash_struct := mkStruct {
  ifnone : VALUE;
  has_proc_default : bool;
}.

(** [immutable] is [RHASH_IMMUTABLE]: a dictionary of CoreFoundation that is not mutable. *)
Record hash `{CFMutableDictionary} := mkHash {
  dict : cfdict;
  hstruct : option rb_objc_hash_struct;
  frozen : bool;
  tainted : bool;
  immutable : bool;
}.

(** [broken_with] is set by a [break] in a block; [user] is the rest of the program. *)
Record world `{CFMutableDictionary} {U : Type} := mkWorld {
  hashes : list hash;
  broken_with : option VALUE;
  user : U;
}.
Arguments world {_} U.

(** The calls into the interpreter.  [call_yield p args] sends [yield] to a proc;
    [to_hash_method v] is the method [to_hash] of [v], if [v] responds to it. *)
Class HashRuntime `{CFMutableDictionary} (U : Type) := {
  rb_equal : VALUE → VALUE → bool;
  rb_eql : VALUE → VALUE → bool;
  rb_safe_level : Z;
  call_yield : VALUE → list VALUE → cmd (world U) VALUE;
  to_hash_method : VALUE → option (cmd (world U) VALUE);
  to_ary_method : VALUE → option (cmd (world U) VALUE);
}.

Section hash.
Context `{D : CFMutableDictionary} {U : Type} {RT : HashRuntime U}.
Local Notation M := (cmd (world U)).

Definition block : Type := list VALUE → M VALUE.

Definition get_hash (l : nat) : M hash := λ w,
  match hashes w !! l with
  | Some h => (Ok h, w)
  | None => (Err BadPointer, w)
  end.

Definition put_hash (l : nat) (h : hash) : M () := λ w,
  (Ok (), mkWorld _ U (<[l := h]> (hashes w)) (broken_with w) (user w)).

Definition new_hash (h : hash) : M nat := λ w,
  (Ok (length (hashes w)), mkWorld _ U (hashes w ++ [h]) (broken_with w) (user w)).

Definition put_dict (l : nat) (d : cfdict) : M () :=
  h ← get_hash l;
  put_hash l (mkHash _ d (hstruct h) (frozen h) (tainted h) (immutable h)).

Definition get_dict (l : nat) : M cfdict := h ← get_hash l; mret (dict h).

Definition rb_objc_hash_get_struct (l : nat) : M (option rb_objc_hash_struct) :=
  h ← get_hash l; mret (hstruct h).

Definition rb_objc_hash_set_struct (l : nat) (v : VALUE) (proc : bool) : M () :=
  h ← get_hash l;
  put_hash l (mkHash _ (dict h) (Some (mkStruct v proc)) (frozen h) (tainted h) (immutable h)).

(** ** Conversions *)

Definition is_hash (v : VALUE) : bool := match v with Hash _ => true | _ => false end.
Definition is_ary (v : VALUE) : bool := match v with Ary _ => true | _ => false end.

(** [rb_convert_type], where [meth] is the conversion method of a value. *)
Definition rb_convert_type (is_type : VALUE → bool) (meth : VALUE → option (M VALUE)) (val : VALUE) : M VALUE :=
  if is_type val then mret val else
  match meth val with
  | None => rb_raise TypeError
  | Some call =>
      v ← call;
      if is_type v then mret v else rb_raise TypeError
  end.

Definition rb_check_convert_type (is_type : VALUE → bool) (meth : VALUE → option (M VALUE)) (val : VALUE) : M VALUE :=
  if is_type val then mret val else
  match meth val with
  | None => mret Qnil
  | Some call =>
      v ← call;
      if NIL_P v then mret Qnil else
      if is_type v then mret v else rb_raise TypeError
  end.

Definition the_hash (v : VALUE) : M nat := match v with Hash l => mret l | _ => fail BadPointer end.

Definition to_hash (v : VALUE) : M nat := v ← rb_convert_type is_hash to_hash_method v; the_hash v.
Definition rb_hash_s_try_convert (v : VALUE) : M VALUE := rb_check_convert_type is_hash to_hash_method v.
Definition rb_check_array_type (v : VALUE) : M VALUE := rb_check_convert_type is_ary to_ary_method v.

(** ** Iteration *)

Inductive st_retval := ST_CONTINUE | ST_STOP.

(** The loop of [rb_hash_foreach]; what [func] changes through its argument is the
    accumulator. *)
Fixpoint foreach_loop {S} (func : VALUE → VALUE → S → M (st_retval * S)) (kvs : list (VALUE * VALUE)) (acc : S) : M S :=
  match kvs with
  | [] => mret acc
  | (key, value) :: kvs =>
      '(st, acc) ← func key value acc;
      match st with
      | ST_CONTINUE => foreach_loop func kvs acc
      | ST_STOP => mret acc
      end
  end.

Definition rb_hash_foreach {S} (l : nat) (func : VALUE → VALUE → S → M (st_retval * S)) (acc : S) : M S :=
  d ← get_dict l;
  if CFDictionaryGetCount d =? 0 then mret acc
  else foreach_loop func (CFDictionaryGetKeysAndValues d) acc.

(** ** Creation *)

Definition hash_alloc : M nat :=
  new_hash (mkHash _ CFDictionaryCreateMutable None false false false).

Definition rb_hash_new : M nat := hash_alloc.

Definition rb_hash_dup (rcv : nat) : M nat :=
  h ← get_hash rcv;
  dup ← new_hash (mkHash _ (CFDictionaryCreateMutableCopy (dict h)) None false (tainted h) false);
  s ← rb_objc_hash_get_struct rcv;
  match s with
  | Some s => rb_objc_hash_set_struct dup (ifnone s) (has_proc_default s)
  | None => mret ()
  end;;
  mret dup.

Definition OBJ_FREEZE (l : nat) : M () :=
  h ← get_hash l;
  put_hash l (mkHash _ (dict h) (hstruct h) true (tainted h) (immutable h)).

Definition rb_hash_clone (rcv : nat) : M nat :=
  clone ← rb_hash_dup rcv;
  h ← get_hash rcv;
  (if frozen h then OBJ_FREEZE clone else mret ());;
  mret clone.

Definition rb_hash_modify_check (l : nat) : M () :=
  h ← get_hash l;
  if immutable h || frozen h then rb_raise RuntimeError else
  if tainted h && (4 <=? rb_safe_level) then rb_raise SecurityError else
  mret ().

(** The pairs of arguments of [rb_hash_new_fast], whose number is even. *)
Fixpoint new_fast_loop (l : nat) (args : list VALUE) : M () :=
  match args with
  | key :: val :: args =>
      d ← get_dict l;
      put_dict l (CFDictionarySetValue d key val);;
      new_fast_loop l args
  | _ => mret ()
  end.

Definition rb_hash_new_fast (args : list VALUE) : M nat :=
  l ← hash_alloc;
  if Z.odd (zlen args) then fail AssertFailed else
  new_fast_loop l args;;
  mret l.

(** [proc] is the proc of the block, if there is one. *)
Definition rb_hash_initialize (l : nat) (args : list VALUE) (proc : option VALUE) : M VALUE :=
  rb_hash_modify_check l;;
  match proc with
  | Some p =>
      if 0 <? zlen args then rb_raise ArgumentError else
      rb_objc_hash_set_struct l p true;;
      mret (Hash l)
  | None =>
      match args with
      | [] => mret (Hash l)
      | [v] => (if NIL_P v then mret () else rb_objc_hash_set_struct l v false);; mret (Hash l)
      | _ => rb_raise ArgumentError
      end
  end.

Definition rb_hash_new2 (args : list VALUE) (proc : option VALUE) : M nat :=
  l ← hash_alloc;
  rb_hash_initialize l args proc;;
  mret l.

(** ** Elements and defaults *)

Definition rb_hash_default (l : nat) (args : list VALUE) : M VALUE :=
  s ← rb_objc_hash_get_struct l;
  match s with
  | None => mret Qnil
  | Some s =>
      if NIL_P (ifnone s) then mret Qnil else
      if 1 <? zlen args then rb_raise ArgumentError else
      if has_proc_default s then
        match args with
        | [] => mret Qnil
        | key :: _ => call_yield (ifnone s) [Hash l; key]
        end
      else mret (ifnone s)
  end.

(** The method [default] is called by name; the hash is taken to have that of [Hash]. *)
Definition rb_hash_aref (l : nat) (key : VALUE) : M VALUE :=
  d ← get_dict l;
  match CFDictionaryGetValueIfPresent d key with
  | None => rb_hash_default l [key]
  | Some val => mret val
  end.

Definition rb_hash_lookup (l : nat) (key : VALUE) : M VALUE :=
  d ← get_dict l;
  mret (opt_value (CFDictionaryGetValueIfPresent d key)).

(** [if_none] is the second argument, if there are two. *)
Definition rb_hash_fetch (l : nat) (key : VALUE) (if_none : option VALUE) (blk : option block) : M VALUE :=
  d ← get_dict l;
  match CFDictionaryGetValueIfPresent d key with
  | None =>
      match blk, if_none with
      | Some b, _ => b [key]
      | None, None => rb_raise KeyError
      | None, Some v => mret v
      end
  | Some val => mret val
  end.

Definition rb_hash_set_default (l : nat) (v : VALUE) : M VALUE :=
  rb_hash_modify_check l;;
  rb_objc_hash_set_struct l v false;;
  mret v.

Definition rb_hash_default_proc (l : nat) : M VALUE :=
  s ← rb_objc_hash_get_struct l;
  match s with
  | Some s => mret (if has_proc_default s then ifnone s else Qnil)
  | None => mret Qnil
  end.

Definition rb_hash_aset (l : nat) (key val : VALUE) : M VALUE :=
  rb_hash_modify_check l;;
  d ← get_dict l;
  put_dict l (CFDictionarySetValue d key val);;
  mret val.

(** [None] is [Qundef]. *)
Definition rb_hash_delete_key (l : nat) (key : VALUE) : M (option VALUE) :=
  d ← get_dict l;
  match CFDictionaryGetValueIfPresent d key with
  | Some val => put_dict l (CFDictionaryRemoveValue d key);; mret (Some val)
  | None => mret None
  end.

Definition rb_hash_delete (l : nat) (key : VALUE) (blk : option block) : M VALUE :=
  rb_hash_modify_check l;;
  val ← rb_hash_delete_key l key;
  match val, blk with
  | Some val, _ => mret val
  | None, Some b => b [key]
  | None, None => mret Qnil
  end.

Definition rb_hash_clear (l : nat) : M VALUE :=
  rb_hash_modify_check l;;
  d ← get_dict l;
  put_dict l (CFDictionaryRemoveAllValues d);;
  mret (Hash l).

Fixpoint set_all (l : nat) (kvs : list (VALUE * VALUE)) : M () :=
  match kvs with
  | [] => mret ()
  | (key, val) :: kvs =>
      d ← get_dict l;
      put_dict l (CFDictionarySetValue d key val);;
      set_all l kvs
  end.

Definition rb_hash_rehash (l : nat) : M VALUE :=
  rb_hash_modify_check l;;
  d ← get_dict l;
  if CFDictionaryGetCount d =? 0 then mret (Hash l) else
  put_dict l (CFDictionaryRemoveAllValues d);;
  set_all l (CFDictionaryGetKeysAndValues d);;
  mret (Hash l).

(** The pairs of [Hash[[k, v], ...]]: elements that are not arrays of one or two elements
    are skipped. *)
Fixpoint create_pairs (l : nat) (elts : list VALUE) : M () :=
  match elts with
  | [] => mret ()
  | e :: elts =>
      v ← rb_check_array_type e;
      match v with
      | Ary [key] => rb_hash_aset l key Qnil;; create_pairs l elts
      | Ary [key; val] => rb_hash_aset l key val;; create_pairs l elts
      | _ => create_pairs l elts
      end
  end.

Fixpoint create_args (l : nat) (args : list VALUE) : M () :=
  match args with
  | key :: val :: args => rb_hash_aset l key val;; create_args l args
  | _ => mret ()
  end.

Definition create_flat (args : list VALUE) : M nat :=
  if Z.odd (zlen args) then rb_raise ArgumentError else
  l ← hash_alloc;
  create_args l args;;
  mret l.

Definition rb_hash_s_create (args : list VALUE) : M nat :=
  match args with
  | [arg] =>
      tmp ← rb_hash_s_try_convert arg;
      match tmp with
      | Hash other =>
          l ← hash_alloc;
          d ← get_dict other;
          (if CFDictionaryGetCount d =? 0 then mret () else set_all l (CFDictionaryGetKeysAndValues d));;
          mret l
      | _ =>
          tmp ← rb_check_array_type arg;
          match tmp with
          | Ary elts => l ← hash_alloc; create_pairs l elts;; mret l
          | _ => create_flat args
          end
      end
  | _ => create_flat args
  end.

(** ** Queries *)

Definition rb_hash_size (l : nat) : M VALUE := d ← get_dict l; mret (Num (CFDictionaryGetCount d)).
Definition rb_hash_empty_p (l : nat) : M VALUE := d ← get_dict l; mret (bool_value (CFDictionaryGetCount d =? 0)).
Definition rb_hash_has_key (l : nat) (key : VALUE) : M bool := d ← get_dict l; mret (CFDictionaryContainsKey d key).
Definition rb_hash_has_value (l : nat) (val : VALUE) : M bool := d ← get_dict l; mret (CFDictionaryContainsValue d val).

(** *** Collecting *)

Definition to_a_i (key value : VALUE) (ary : list VALUE) : M (st_retval * list VALUE) :=
  mret (ST_CONTINUE, ary ++ [Ary [key; value]]).
Definition rb_hash_to_a (l : nat) : M (list VALUE) := rb_hash_foreach l to_a_i [].

Definition keys_i (key value : VALUE) (ary : list VALUE) : M (st_retval * list VALUE) :=
  mret (ST_CONTINUE, ary ++ [key]).
Definition rb_hash_keys (l : nat) : M (list VALUE) := rb_hash_foreach l keys_i [].

Definition values_i (key value : VALUE) (ary : list VALUE) : M (st_retval * list VALUE) :=
  mret (ST_CONTINUE, ary ++ [value]).
Definition rb_hash_values (l : nat) : M (list VALUE) := rb_hash_foreach l values_i [].

Fixpoint rb_hash_values_at (l : nat) (args : list VALUE) : M (list VALUE) :=
  match args with
  | [] => mret []
  | key :: args =>
      v ← rb_hash_aref l key;
      vs ← rb_hash_values_at l args;
      mret (v :: vs)
  end.

(** *** Searching *)

Definition key_i (val key value : VALUE) (found : VALUE) : M (st_retval * VALUE) :=
  if rb_equal value val then mret (ST_STOP, key) else mret (ST_CONTINUE, found).
Definition rb_hash_key (l : nat) (value : VALUE) : M VALUE := rb_hash_foreach l (key_i value) Qnil.

Definition assoc_i (obj key val : VALUE) (found : VALUE) : M (st_retval * VALUE) :=
  if rb_equal obj key then mret (ST_STOP, Ary [key; val]) else mret (ST_CONTINUE, found).
Definition rb_hash_assoc (l : nat) (obj : VALUE) : M VALUE := rb_hash_foreach l (assoc_i obj) Qnil.

Definition rassoc_i (obj key val : VALUE) (found : VALUE) : M (st_retval * VALUE) :=
  if rb_equal obj val then mret (ST_STOP, Ary [key; val]) else mret (ST_CONTINUE, found).
Definition rb_hash_rassoc (l : nat) (obj : VALUE) : M VALUE := rb_hash_foreach l (rassoc_i obj) Qnil.

(** *** Equality *)

(** [same] is [rb_eql] or [rb_equal]. *)
Definition hash_equal (same : VALUE → VALUE → bool) (l : nat) (v : VALUE) : M bool :=
  match v with
  | Hash l2 =>
      if bool_decide (l = l2) then mret true else
      d1 ← get_dict l;
      d2 ← get_dict l2;
      if CFDictionaryGetCount d1 =? CFDictionaryGetCount d2 then mret (CFEqual d1 d2) else mret false
  | _ =>
      match to_hash_method v with
      | None => mret false
      | Some _ => mret (same v (Hash l))
      end
  end.

Definition rb_hash_equal (l : nat) (v : VALUE) : M bool := hash_equal rb_equal l v.
Definition rb_hash_eql (l : nat) (v : VALUE) : M bool := hash_equal rb_eql l v.

(** ** Iterators *)

(** [RETURN_ENUMERATOR]: without a block the method returns an enumerator. *)
Definition with_block (l : nat) (sel : string) (blk : option block) (body : block → M VALUE) : M VALUE :=
  match blk with
  | None => mret (Enumerator l sel)
  | Some b => body b
  end.

Definition each_value_i (b : block) (key value : VALUE) (_ : ()) : M (st_retval * ()) :=
  b [value];; mret (ST_CONTINUE, ()).
Definition rb_hash_each_value (l : nat) (blk : option block) : M VALUE :=
  with_block l "each_value" blk (λ b, rb_hash_foreach l (each_value_i b) ();; mret (Hash l)).

Definition each_key_i (b : block) (key value : VALUE) (_ : ()) : M (st_retval * ()) :=
  b [key];; mret (ST_CONTINUE, ()).
Definition rb_hash_each_key (l : nat) (blk : option block) : M VALUE :=
  with_block l "each_key" blk (λ b, rb_hash_foreach l (each_key_i b) ();; mret (Hash l)).

Definition each_pair_i (b : block) (key value : VALUE) (_ : ()) : M (st_retval * ()) :=
  b [Ary [key; value]];; mret (ST_CONTINUE, ()).
Definition rb_hash_each_pair (l : nat) (blk : option block) : M VALUE :=
  with_block l "each_pair" blk (λ b, rb_hash_foreach l (each_pair_i b) ();; mret (Hash l)).

(** ** Filters *)

Definition delete_if_i (b : block) (l : nat) (key value : VALUE) (_ : ()) : M (st_retval * ()) :=
  v ← b [key; value];
  (if RTEST v then rb_hash_delete_key l key;; mret () else mret ());;
  mret (ST_CONTINUE, ()).

Definition rb_hash_delete_if (l : nat) (sel : string) (blk : option block) : M VALUE :=
  with_block l sel blk (λ b,
    rb_hash_modify_check l;;
    rb_hash_foreach l (delete_if_i b l) ();;
    mret (Hash l)).

Definition rb_hash_reject_bang (l : nat) (blk : option block) : M VALUE :=
  with_block l "reject!" blk (λ b,
    d ← get_dict l;
    let n := CFDictionaryGetCount d in
    rb_hash_delete_if l "" (Some b);;
    d ← get_dict l;
    mret (if n =? CFDictionaryGetCount d then Qnil else Hash l)).

Definition rb_hash_reject (l : nat) (blk : option block) : M VALUE :=
  dup ← rb_hash_dup l;
  rb_hash_delete_if dup "" blk.

Definition select_i (b : block) (result : nat) (key value : VALUE) (_ : ()) : M (st_retval * ()) :=
  v ← b [key; value];
  (if RTEST v then rb_hash_aset result key value;; mret () else mret ());;
  mret (ST_CONTINUE, ()).

Definition rb_hash_select (l : nat) (blk : option block) : M VALUE :=
  with_block l "select" blk (λ b,
    result ← rb_hash_new;
    rb_hash_foreach l (select_i b result) ();;
    mret (Hash result)).

Definition rb_hash_shift (l : nat) (blk : option block) : M VALUE :=
  keys ← rb_hash_keys l;
  match keys with
  | [] =>
      s ← rb_objc_hash_get_struct l;
      match s with
      | None => mret Qnil
      | Some s =>
          if NIL_P (ifnone s) then mret Qnil else
          if has_proc_default s then call_yield (ifnone s) [Hash l; Qnil] else mret (ifnone s)
      end
  | key :: _ =>
      val ← rb_hash_aref l key;
      rb_hash_delete l key blk;;
      mret (Ary [key; val])
  end.

(** ** Combining hashes *)

Definition replace_i (l : nat) (key val : VALUE) (_ : ()) : M (st_retval * ()) :=
  rb_hash_aset l key val;; mret (ST_CONTINUE, ()).

Definition rb_hash_replace (l : nat) (v : VALUE) : M VALUE :=
  rb_hash_modify_check l;;
  l2 ← to_hash v;
  if bool_decide (l = l2) then mret (Hash l) else
  rb_hash_clear l;;
  rb_hash_foreach l2 (replace_i l) ();;
  s ← rb_objc_hash_get_struct l2;
  match s with
  | Some s => rb_objc_hash_set_struct l (ifnone s) (has_proc_default s)
  | None => mret ()
  end;;
  mret (Hash l).

Definition rb_hash_update_i (l : nat) (key value : VALUE) (_ : ()) : M (st_retval * ()) :=
  rb_hash_aset l key value;; mret (ST_CONTINUE, ()).

Definition rb_hash_update_block_i (b : block) (l : nat) (key value : VALUE) (_ : ()) : M (st_retval * ()) :=
  present ← rb_hash_has_key l key;
  value ← (if present : bool then old ← rb_hash_aref l key; b [key; old; value] else mret value);
  rb_hash_aset l key value;;
  mret (ST_CONTINUE, ()).

Definition rb_hash_update (l : nat) (v : VALUE) (blk : option block) : M VALUE :=
  l2 ← to_hash v;
  rb_hash_foreach l2 (match blk with Some b => rb_hash_update_block_i b l | None => rb_hash_update_i l end) ();;
  mret (Hash l).

Definition rb_hash_merge (l : nat) (v : VALUE) (blk : option block) : M VALUE :=
  dup ← rb_hash_dup l;
  rb_hash_update dup v blk.

Definition rb_hash_invert_i (result : nat) (key value : VALUE) (_ : ()) : M (st_retval * ()) :=
  rb_hash_aset result value key;; mret (ST_CONTINUE, ()).

Definition rb_hash_invert (l : nat) : M VALUE :=
  result ← rb_hash_new;
  rb_hash_foreach l (rb_hash_invert_i result) ();;
  mret (Hash result).

(** ** Identity *)

Definition rb_hash_compare_by_id (l : nat) : M VALUE := rb_hash_modify_check l;; mret (Hash l).
Definition rb_hash_compare_by_id_p (l : nat) : M VALUE := mret Qfalse.
End hash.
