(* ===== verification/HashSpec.v ===== *)
(** * hash.c: contracts

    What the dictionaries of CoreFoundation promise ([CFDictionaryLaws]), through the finite
    map of a dictionary; and the primitives that change one hash and no other. *)

From S2P Require Import Prelude Value Hash.

Section view.
Context `{D : CFMutableDictionary} `{K : CFKeys}.

Definition keyed (kvs : list (VALUE * VALUE)) : list (cfkey * VALUE) := prod_map key_of id <$> kvs.
Definition view (d : cfdict) : gmap cfkey VALUE := list_to_map (keyed (CFDictionaryGetKeysAndValues d)).
End view.

Class CFDictionaryLaws `{D : CFMutableDictionary} `{K : CFKeys} : Prop := {
  cf_nodup d : NoDup (keyed (CFDictionaryGetKeysAndValues d)).*1;
  cf_count d : CFDictionaryGetCount d = zlen (CFDictionaryGetKeysAndValues d);
  cf_get d k : CFDictionaryGetValueIfPresent d k = view d !! key_of k;
  cf_contains_key d k : CFDictionaryContainsKey d k = bool_decide (is_Some (view d !! key_of k));
  cf_contains_value d v : CFDictionaryContainsValue d v = true ↔ ∃ k v', view d !! k = Some v' ∧ key_of v' = key_of v;
  cf_create : view CFDictionaryCreateMutable = ∅;
  cf_copy d : view (CFDictionaryCreateMutableCopy d) = view d;
  cf_set d k v : view (CFDictionarySetValue d k v) = <[key_of k := v]> (view d);
  cf_remove d k : view (CFDictionaryRemoveValue d k) = delete (key_of k) (view d);
  cf_remove_all d : view (CFDictionaryRemoveAllValues d) = ∅;
  cf_equal d1 d2 : CFEqual d1 d2 = true ↔ key_of <$> view d1 = key_of <$> view d2;
}.

(** ** The primitives *)

Section primitives.
Context `{L : CFDictionaryLaws} {U : Type} {RT : HashRuntime U}.
Implicit Types (w : world U) (h : hash) (l : nat) (d : cfdict).

Definition with_dict d h : hash := mkHash _ d (hstruct h) (frozen h) (tainted h) (immutable h).
Definition with_struct (s : option rb_objc_hash_struct) h : hash := mkHash _ (dict h) s (frozen h) (tainted h) (immutable h).

(** [w'] is [w] with the hash at [l] changed to [h]; the program may have gone on otherwise. *)
Definition changed w w' l h : Prop := hashes w' = <[l := h]> (hashes w).

Definition modifiable h : Prop := immutable h = false ∧ frozen h = false ∧ (tainted h = false ∨ rb_safe_level < 4).

Lemma get_hash_run w l h : hashes w !! l = Some h → get_hash l w = (Ok h, w).
Proof. unfold get_hash. by intros ->. Qed.

Lemma get_dict_run w l h : hashes w !! l = Some h → get_dict l w = (Ok (dict h), w).
Proof. intros H. unfold get_dict. by rewrite (bind_run _ _ _ _ _ (get_hash_run _ _ _ H)). Qed.

Lemma get_struct_run w l h : hashes w !! l = Some h → rb_objc_hash_get_struct l w = (Ok (hstruct h), w).
Proof. intros H. unfold rb_objc_hash_get_struct. by rewrite (bind_run _ _ _ _ _ (get_hash_run _ _ _ H)). Qed.

Definition set_hash w l h : world U := mkWorld _ U (<[l := h]> (hashes w)) (broken_with w) (user w).

Lemma put_dict_run w l h d : hashes w !! l = Some h → put_dict l d w = (Ok (), set_hash w l (with_dict d h)).
Proof. intros H. unfold put_dict. by rewrite (bind_run _ _ _ _ _ (get_hash_run _ _ _ H)). Qed.

Lemma set_struct_run w l h v p : hashes w !! l = Some h →
  rb_objc_hash_set_struct l v p w = (Ok (), set_hash w l (with_struct (Some (mkStruct v p)) h)).
Proof. intros H. unfold rb_objc_hash_set_struct. by rewrite (bind_run _ _ _ _ _ (get_hash_run _ _ _ H)). Qed.

Lemma modify_check_run w l h : hashes w !! l = Some h → modifiable h → rb_hash_modify_check l w = (Ok (), w).
Proof.
  intros H (Hi & Hf & Ht). unfold rb_hash_modify_check. rewrite (bind_run _ _ _ _ _ (get_hash_run _ _ _ H)), Hi, Hf.
  cbn [orb]. destruct Ht as [->|Ht]; [done|]. rewrite (proj2 (Z.leb_gt _ _)) by done. by rewrite andb_false_r.
Qed.

Lemma modify_check_frozen w l h : hashes w !! l = Some h → frozen h = true ∨ immutable h = true →
  rb_hash_modify_check l w = (Err (Raise RuntimeError), w).
Proof.
  intros H Hf. unfold rb_hash_modify_check. rewrite (bind_run _ _ _ _ _ (get_hash_run _ _ _ H)).
  by destruct Hf as [->| ->]; rewrite ?orb_true_r.
Qed.

Lemma modify_check_tainted w l h : hashes w !! l = Some h → frozen h = false → immutable h = false → tainted h = true → 4 ≤ rb_safe_level →
  rb_hash_modify_check l w = (Err (Raise SecurityError), w).
Proof.
  intros H Hf Hi Ht Hs. unfold rb_hash_modify_check. rewrite (bind_run _ _ _ _ _ (get_hash_run _ _ _ H)), Hf, Hi, Ht.
  by rewrite (proj2 (Z.leb_le _ _)).
Qed.

Lemma modifiable_with_dict d h : modifiable h → modifiable (with_dict d h).
Proof. done. Qed.

Lemma aset_run w l h k v : hashes w !! l = Some h → modifiable h →
  rb_hash_aset l k v w = (Ok v, set_hash w l (with_dict (CFDictionarySetValue (dict h) k v) h)).
Proof.
  intros H Hm. unfold rb_hash_aset. rewrite (bind_run _ _ _ _ _ (modify_check_run _ _ _ H Hm)).
  rewrite (bind_run _ _ _ _ _ (get_dict_run _ _ _ H)). by rewrite (bind_run _ _ _ _ _ (put_dict_run _ _ _ _ H)).
Qed.

Lemma set_hash_id w l h : hashes w !! l = Some h → set_hash w l (with_dict (dict h) h) = w.
Proof. intros H. destruct w, h. unfold set_hash, with_dict. cbn in *. by rewrite list_insert_id. Qed.

(** Removing a key that is not there changes nothing but, perhaps, the dictionary that
    represents the map. *)
Definition delete_result d k : cfdict :=
  match CFDictionaryGetValueIfPresent d k with Some _ => CFDictionaryRemoveValue d k | None => d end.

Lemma delete_result_view d k : view (delete_result d k) = delete (key_of k) (view d).
Proof.
  unfold delete_result. rewrite cf_get. destruct (view d !! key_of k) eqn:E; [apply cf_remove|]. by rewrite delete_id.
Qed.

Lemma delete_key_run w l h k : hashes w !! l = Some h →
  rb_hash_delete_key l k w = (Ok (view (dict h) !! key_of k), set_hash w l (with_dict (delete_result (dict h) k) h)).
Proof.
  intros H. unfold rb_hash_delete_key, delete_result. rewrite (bind_run _ _ _ _ _ (get_dict_run _ _ _ H)), cf_get.
  destruct (view (dict h) !! key_of k) eqn:E; [by rewrite (bind_run _ _ _ _ _ (put_dict_run _ _ _ _ H))|].
  by rewrite set_hash_id.
Qed.

(** ** Entries and the map of a dictionary *)

Lemma keyed_elem k v kvs : (k, v) ∈ kvs → (key_of k, v) ∈ keyed kvs.
Proof. intros H. apply list_elem_of_fmap. by exists (k, v). Qed.

Lemma keyed_inv c v kvs : (c, v) ∈ keyed kvs → ∃ k, key_of k = c ∧ (k, v) ∈ kvs.
Proof. intros ([k v'] & E & H)%list_elem_of_fmap. injection E as -> ->. by exists k. Qed.

Lemma view_lookup d c v : view d !! c = Some v ↔ (c, v) ∈ keyed (CFDictionaryGetKeysAndValues d).
Proof. symmetry. apply elem_of_list_to_map, cf_nodup. Qed.

Lemma view_entry d c v : view d !! c = Some v ↔ ∃ k, key_of k = c ∧ (k, v) ∈ CFDictionaryGetKeysAndValues d.
Proof.
  rewrite view_lookup. split; [apply keyed_inv|]. intros (k & <- & H). by apply keyed_elem.
Qed.

Lemma view_size d : zlen (CFDictionaryGetKeysAndValues d) = Z.of_nat (size (view d)).
Proof.
  unfold zlen, view. f_equal. rewrite <- (length_map_to_list (list_to_map _)).
  rewrite (map_to_list_to_map (M := gmap cfkey)) by apply cf_nodup. unfold keyed. by rewrite length_fmap.
Qed.

Lemma count_size d : CFDictionaryGetCount d = Z.of_nat (size (view d)).
Proof. by rewrite cf_count, view_size. Qed.

Lemma foreach_unfold {S} w l h (func : VALUE → VALUE → S → cmd (world U) (st_retval * S)) acc : hashes w !! l = Some h →
  rb_hash_foreach l func acc w = foreach_loop func (CFDictionaryGetKeysAndValues (dict h)) acc w.
Proof.
  intros H. unfold rb_hash_foreach. rewrite (bind_run _ _ _ _ _ (get_dict_run _ _ _ H)), cf_count.
  destruct (CFDictionaryGetKeysAndValues (dict h)); [done|]. rewrite (proj2 (Z.eqb_neq _ _)); [done|]. unfold zlen. cbn [length]. lia.
Qed.

(** Iteration that never stops: an invariant on the entries visited so far. *)
Lemma foreach_inv {S} (func : VALUE → VALUE → S → cmd (world U) (st_retval * S)) (I : list (VALUE * VALUE) → S → world U → Prop) kvs acc w :
  I [] acc w →
  (∀ pre k v post acc w, kvs = pre ++ (k, v) :: post → I pre acc w →
     runs (func k v acc) w (λ r w', r.1 = ST_CONTINUE ∧ I (pre ++ [(k, v)]) r.2 w')) →
  runs (foreach_loop func kvs acc) w (λ acc w, I kvs acc w).
Proof.
  assert (∀ pre post acc w, kvs = pre ++ post → I pre acc w →
    (∀ pre k v post acc w, kvs = pre ++ (k, v) :: post → I pre acc w →
     runs (func k v acc) w (λ r w', r.1 = ST_CONTINUE ∧ I (pre ++ [(k, v)]) r.2 w')) →
    runs (foreach_loop func post acc) w (λ acc w, I kvs acc w)) as G.
  { intros pre post. revert pre. induction post as [|[k v] post IH]; intros pre acc' w' E HI Hs.
    - rewrite app_nil_r in E. subst. by apply runs_ret.
    - eapply runs_bind; [by eapply Hs|]. intros [st acc''] w'' [Est HI']. cbn in Est, HI'. subst st.
      apply (IH (pre ++ [(k, v)])); [by rewrite <- app_assoc|done|done]. }
  intros HI Hs. by apply (G [] kvs).
Qed.
End primitives.
