(* ===== verification/HashOps.v ===== *)
(** * hash.c: operations on whole hashes

    Copies, loops that fill or thin out a hash while they iterate over a snapshot, and
    searches, in terms of the maps of the dictionaries. *)

From S2P Require Import Prelude Value Hash HashSpec.

Section ops.
Context `{L : CFDictionaryLaws} {U : Type} {RT : HashRuntime U}.
Implicit Types (w : world U) (h : hash) (l : nat) (d : cfdict) (m : gmap cfkey VALUE) (kvs pre post : list (VALUE * VALUE)).

(** ** Lists of bindings *)

Definition put_all m (cvs : list (cfkey * VALUE)) : gmap cfkey VALUE := foldl (λ m cv, <[cv.1 := cv.2]> m) m cvs.

Lemma put_all_snoc m cvs c v : put_all m (cvs ++ [(c, v)]) = <[c := v]> (put_all m cvs).
Proof. unfold put_all. by rewrite foldl_app. Qed.

Lemma put_all_nodup m cvs : NoDup cvs.*1 → put_all m cvs = list_to_map cvs ∪ m.
Proof.
  revert m. induction cvs as [|[c v] cvs IH]; intros m; cbn [fmap list_fmap fst]; [intros _; cbn; by rewrite (left_id_L ∅ (∪))|].
  intros [Hc Hn]%NoDup_cons. change (put_all m ((c, v) :: cvs)) with (put_all (<[c := v]> m) cvs). rewrite IH by done. cbn.
  rewrite <- insert_union_l, insert_union_r; [done|]. by apply not_elem_of_list_to_map_1.
Qed.

Lemma put_all_lookup m cvs c v : put_all m cvs !! c = Some v → (c, v) ∈ cvs ∨ m !! c = Some v ∧ c ∉ cvs.*1.
Proof.
  induction cvs as [|[c' v'] cvs IH] using rev_ind; [by right; split; [|apply not_elem_of_nil]|]. rewrite put_all_snoc, fmap_app. cbn.
  destruct (decide (c' = c)) as [->|Hne].
  - rewrite lookup_insert_eq. intros [= ->]. left. set_solver.
  - rewrite lookup_insert_ne by done. intros [H|[H1 H2]]%IH; [left; set_solver|right; set_solver].
Qed.

Lemma put_all_dom m cvs c : c ∈ cvs.*1 → is_Some (put_all m cvs !! c).
Proof.
  induction cvs as [|[c' v'] cvs IH] using rev_ind; [by intros ?%elem_of_nil|]. rewrite put_all_snoc, fmap_app. cbn.
  destruct (decide (c' = c)) as [->|Hne]; [rewrite lookup_insert_eq; eauto|]. rewrite lookup_insert_ne by done. set_solver.
Qed.

Lemma keyed_app kvs kvs' : keyed (kvs ++ kvs') = keyed kvs ++ keyed kvs'.
Proof. unfold keyed. by rewrite fmap_app. Qed.

Lemma seen_snoc {A} pre k v c (x y : A) :
  (if decide (c ∈ (keyed (pre ++ [(k, v)])).*1) then x else y) =
  if decide (c = key_of k) then x else if decide (c ∈ (keyed pre).*1) then x else y.
Proof.
  assert (c ∈ (keyed (pre ++ [(k, v)])).*1 ↔ c ∈ (keyed pre).*1 ∨ c = key_of k) as Hs.
  { rewrite keyed_app, fmap_app, elem_of_app. by rewrite (list_elem_of_singleton c (key_of k)). }
  repeat case_decide; naive_solver.
Qed.

(** An entry of a snapshot is visited once. *)
Lemma keyed_split d pre k v post : CFDictionaryGetKeysAndValues d = pre ++ (k, v) :: post →
  key_of k ∉ (keyed pre).*1 ∧ view d !! key_of k = Some v.
Proof.
  intros E. split.
  - pose proof (cf_nodup d) as H. rewrite E, keyed_app, fmap_app in H. apply NoDup_app in H as (_ & H & _).
    intros Hk. by apply (H _ Hk), list_elem_of_here.
  - apply view_entry. exists k. split; [done|]. rewrite E. set_solver.
Qed.

Lemma keyed_all d c v : view d !! c = Some v → c ∈ (keyed (CFDictionaryGetKeysAndValues d)).*1.
Proof. intros H%view_lookup. apply list_elem_of_fmap. by exists (c, v). Qed.

Lemma keyed_none d c : c ∈ (keyed (CFDictionaryGetKeysAndValues d)).*1 → is_Some (view d !! c).
Proof. intros ([c' v] & -> & H)%list_elem_of_fmap. exists v. by apply view_lookup. Qed.

(** ** Copies *)

Definition dup_of h : hash := mkHash _ (CFDictionaryCreateMutableCopy (dict h)) (hstruct h) false (tainted h) false.

Definition add_hash w h : world U := mkWorld _ U (hashes w ++ [h]) (broken_with w) (user w).

Lemma dup_run w l h : hashes w !! l = Some h → rb_hash_dup l w = (Ok (length (hashes w)), add_hash w (dup_of h)).
Proof.
  intros H. unfold rb_hash_dup. rewrite (bind_run _ _ _ _ _ (get_hash_run _ _ _ H)).
  set (h0 := mkHash _ (CFDictionaryCreateMutableCopy (dict h)) None false (tainted h) false).
  rewrite (bind_run (new_hash h0) _ _ (length (hashes w)) (add_hash w h0)) by done.
  rewrite (bind_run _ _ _ (hstruct h) (add_hash w h0)) by (apply get_struct_run; by apply lookup_app_l_Some).
  destruct (hstruct h) as [[v p]|] eqn:Es.
  - erewrite bind_run; [|apply (set_struct_run _ _ h0); cbn; by rewrite lookup_app_r, Nat.sub_diag].
    unfold mret, cmd_ret, set_hash, add_hash, dup_of. cbn. by rewrite insert_app_r_alt, Nat.sub_diag, Es.
  - erewrite bind_run by done. unfold mret, cmd_ret, add_hash, dup_of, h0. by rewrite Es.
Qed.

Lemma new_run w : rb_hash_new w = (Ok (length (hashes w)), add_hash w (mkHash _ CFDictionaryCreateMutable None false false false)).
Proof. done. Qed.

Lemma added w h : hashes (add_hash w h) !! length (hashes w) = Some h.
Proof. cbn. by rewrite lookup_app_r, Nat.sub_diag. Qed.

Lemma kept w h l h' : hashes w !! l = Some h' → hashes (add_hash w h) !! l = Some h'.
Proof. apply lookup_app_l_Some. Qed.

Lemma changed_added w w' h h' : changed (add_hash w h) w' (length (hashes w)) h' → hashes w' = hashes w ++ [h'].
Proof. unfold changed. cbn. intros ->. by rewrite insert_app_r_alt, Nat.sub_diag. Qed.

(** ** Loops that fill a hash *)

Lemma aset_loop w l h (f g : VALUE → VALUE → VALUE) func kvs :
  hashes w !! l = Some h → modifiable h →
  (∀ k v u, func k v u = (rb_hash_aset l (f k v) (g k v);; mret (ST_CONTINUE, ()))) →
  runs (foreach_loop func kvs ()) w (λ _ w', ∃ d, changed w w' l (with_dict d h) ∧
    view d = put_all (view (dict h)) ((λ kv, (key_of (f kv.1 kv.2), g kv.1 kv.2)) <$> kvs)).
Proof.
  intros H Hm Hf.
  apply (foreach_inv func (λ pre _ w', ∃ d, changed w w' l (with_dict d h) ∧
    view d = put_all (view (dict h)) ((λ kv, (key_of (f kv.1 kv.2), g kv.1 kv.2)) <$> pre))).
  { exists (dict h). split; [|done]. unfold changed. symmetry. apply list_insert_id. by destruct h. }
  intros pre k v post [] w' E (d & Hc & Hv). rewrite Hf.
  assert (hashes w' !! l = Some (with_dict d h)) as H'.
  { rewrite Hc. apply list_lookup_insert_eq. by eapply lookup_lt_Some. }
  eapply runs_eq; [by apply (aset_run _ _ (with_dict d h))|]. apply runs_ret. split; [done|].
  exists (CFDictionarySetValue d (f k v) (g k v)). split.
  - unfold changed, set_hash. cbn. rewrite Hc. by rewrite list_insert_insert_eq.
  - rewrite cf_set, Hv, fmap_app. cbn. by rewrite put_all_snoc.
Qed.

(** [update] and [replace] without a block. *)
Lemma aset_snapshot w l h func d2 :
  hashes w !! l = Some h → modifiable h →
  (∀ k v u, func k v u = (rb_hash_aset l k v;; mret (ST_CONTINUE, ()))) →
  runs (foreach_loop func (CFDictionaryGetKeysAndValues d2) ()) w (λ _ w', ∃ d, changed w w' l (with_dict d h) ∧
    view d = view d2 ∪ view (dict h)).
Proof.
  intros H Hm Hf. eapply runs_mono; [by apply (aset_loop w l h (λ k _, k) (λ _ v, v))|].
  intros _ w' (d & Hc & Hv). exists d. split; [done|]. rewrite Hv. apply put_all_nodup, cf_nodup.
Qed.

(** What a block with three arguments makes of the values of a key in the two hashes. *)
Definition merged (f : cfkey → VALUE → VALUE → VALUE) (c : cfkey) (old new : option VALUE) : option VALUE :=
  match old, new with
  | Some o, Some n => Some (f c o n)
  | Some o, None => Some o
  | None, n => n
  end.

Definition merging_block (f : cfkey → VALUE → VALUE → VALUE) (b : block) : Prop :=
  ∀ k o n w, runs (b [k; o; n]) w (λ r w', hashes w' = hashes w ∧ r = f (key_of k) o n).

Lemma aref_present w l h k v : hashes w !! l = Some h → view (dict h) !! key_of k = Some v → rb_hash_aref l k w = (Ok v, w).
Proof. intros H Hv. unfold rb_hash_aref. by rewrite (bind_run _ _ _ _ _ (get_dict_run _ _ _ H)), cf_get, Hv. Qed.

Lemma update_block_step b f w l h k v : hashes w !! l = Some h → modifiable h → merging_block f b →
  runs (rb_hash_update_block_i b l k v ()) w (λ r w', r.1 = ST_CONTINUE ∧ ∃ d, changed w w' l (with_dict d h) ∧
    ∃ n, merged f (key_of k) (view (dict h) !! key_of k) (Some v) = Some n ∧ view d = <[key_of k := n]> (view (dict h))).
Proof.
  intros H Hm Hb. unfold rb_hash_update_block_i, rb_hash_has_key. rewrite <- (cf_get (dict h) k).
  eapply runs_eq; [erewrite bind_run by (by apply get_dict_run); done|]. rewrite cf_contains_key, cf_get.
  eapply (runs_bind _ _ _ (λ r w', hashes w' = hashes w ∧ merged f (key_of k) (view (dict h) !! key_of k) (Some v) = Some r)).
  - destruct (view (dict h) !! key_of k) as [o|] eqn:E.
    + rewrite bool_decide_true by eauto. eapply runs_eq; [by eapply aref_present|].
      eapply runs_mono; [apply Hb|]. intros r w' [? ->]. done.
    + rewrite bool_decide_false by (by intros [? ?]). by apply runs_ret.
  - intros n w' [Hh Hn]. eapply runs_eq; [apply (aset_run w' l h); [by rewrite Hh|done]|]. apply runs_ret. split; [done|].
    exists (CFDictionarySetValue (dict h) k n). split; [unfold changed, set_hash; cbn; by rewrite Hh|]. exists n. split; [done|]. apply cf_set.
Qed.

Lemma update_block_loop b f w l h d2 : hashes w !! l = Some h → modifiable h → merging_block f b →
  runs (foreach_loop (rb_hash_update_block_i b l) (CFDictionaryGetKeysAndValues d2) ()) w (λ _ w', ∃ d,
    changed w w' l (with_dict d h) ∧ ∀ c, view d !! c = merged f c (view (dict h) !! c) (view d2 !! c)).
Proof.
  intros H Hm Hb. eapply runs_mono.
  { apply (foreach_inv _ (λ pre _ w', ∃ d, changed w w' l (with_dict d h) ∧
      ∀ c, view d !! c = if decide (c ∈ (keyed pre).*1) then merged f c (view (dict h) !! c) (view d2 !! c) else view (dict h) !! c)).
    - exists (dict h). split; [|done]. unfold changed. symmetry. apply list_insert_id. by destruct h.
    - intros pre k v post [] w' E (d & Hc & Hv). destruct (keyed_split _ _ _ _ _ E) as [Hk Hl].
      assert (hashes w' !! l = Some (with_dict d h)) as H'.
      { rewrite Hc. apply list_lookup_insert_eq. by eapply lookup_lt_Some. }
      eapply runs_mono; [by apply (update_block_step b f w' l (with_dict d h))|].
      intros [st []] w'' [Est (d' & Hc' & n & Hn & Hd')]. split; [done|]. exists d'. split.
      { unfold changed in *. rewrite Hc', Hc. by rewrite list_insert_insert_eq. }
      intros c. rewrite Hd', seen_snoc. destruct (decide (c = key_of k)) as [->|Hne].
      + rewrite lookup_insert_eq, Hl, <- Hn. cbn [dict with_dict]. by rewrite Hv, decide_False.
      + rewrite lookup_insert_ne by done. cbn [dict with_dict]. by rewrite Hv. }
  intros _ w' (d & Hc & Hv). exists d. split; [done|]. intros c. rewrite Hv. case_decide as Hd; [done|].
  destruct (view d2 !! c) eqn:E; [by apply keyed_all in E|]. by destruct (view (dict h) !! c).
Qed.

(** ** Loops that thin out a hash *)

(** A block that tests a binding and leaves the hashes alone. *)
Definition testing_block (p : cfkey → VALUE → bool) (b : block) : Prop :=
  ∀ k v w, runs (b [k; v]) w (λ r w', hashes w' = hashes w ∧ RTEST r = p (key_of k) v).

Definition keep (p : cfkey → VALUE → bool) m : gmap cfkey VALUE := filter (λ cv, p cv.1 cv.2 = true) m.
Definition drop (p : cfkey → VALUE → bool) m : gmap cfkey VALUE := filter (λ cv, p cv.1 cv.2 = false) m.

Lemma keep_lookup p m c : keep p m !! c = (v ← m !! c; if p c v then Some v else None).
Proof.
  apply option_eq. intros x. unfold keep. rewrite map_lookup_filter_Some. cbn. split.
  - intros [-> E]. cbn. by rewrite E.
  - destruct (m !! c) as [v|]; cbn; [|done]. by destruct (p c v) eqn:E; intros [= <-].
Qed.

Lemma drop_lookup p m c : drop p m !! c = (v ← m !! c; if p c v then None else Some v).
Proof.
  apply option_eq. intros x. unfold drop. rewrite map_lookup_filter_Some. cbn. split.
  - intros [-> E]. cbn. by rewrite E.
  - destruct (m !! c) as [v|]; cbn; [|done]. by destruct (p c v) eqn:E; intros [= <-].
Qed.

(** A loop that calls the block on each entry of a snapshot and changes the hash at [l] where
    the block says so. *)
Lemma test_loop b p w l h d (hit : VALUE → VALUE → cmd (world U) ()) (value : VALUE → option VALUE) :
  hashes w !! l = Some h → testing_block p b →
  (∀ k v d' w', hashes w' !! l = Some (with_dict d' h) →
     runs (hit k v) w' (λ _ w2, ∃ d2, changed w' w2 l (with_dict d2 h) ∧
       ∀ c, view d2 !! c = if decide (c = key_of k) then value v else view d' !! c)) →
  runs (foreach_loop (λ k v _, x ← b [k; v]; (if RTEST x then hit k v else mret ());; mret (ST_CONTINUE, ()))
          (CFDictionaryGetKeysAndValues d) ()) w (λ _ w', ∃ d', changed w w' l (with_dict d' h) ∧
    ∀ c, view d' !! c = match view d !! c with
                        | Some v => if p c v then value v else view (dict h) !! c
                        | None => view (dict h) !! c
                        end).
Proof.
  intros H Hb Hhit.
  set (goal c := match view d !! c with Some v => if p c v then value v else view (dict h) !! c | None => view (dict h) !! c end).
  eapply runs_mono.
  { apply (foreach_inv _ (λ pre _ w', ∃ d', changed w w' l (with_dict d' h) ∧
      ∀ c, view d' !! c = if decide (c ∈ (keyed pre).*1) then goal c else view (dict h) !! c)).
    - exists (dict h). split; [|done]. unfold changed. symmetry. apply list_insert_id. by destruct h.
    - intros pre k v post [] w' E (d' & Hc & Hv). destruct (keyed_split _ _ _ _ _ E) as [Hk Hl].
      eapply runs_bind; [apply Hb|]. intros x w1 [Hh Hr]. rewrite Hr.
      assert (hashes w1 !! l = Some (with_dict d' h)) as H'.
      { rewrite Hh, Hc. apply list_lookup_insert_eq. by eapply lookup_lt_Some. }
      eapply (runs_bind _ _ _ (λ _ w2, ∃ d2, changed w w2 l (with_dict d2 h) ∧
        ∀ c, view d2 !! c = if decide (c = key_of k) then goal c else view d' !! c)).
      { destruct (p (key_of k) v) eqn:Ep.
        - eapply runs_mono; [by apply Hhit|]. intros _ w2 (d2 & Hc2 & Hv2). exists d2. split.
          { unfold changed in *. rewrite Hc2, Hh, Hc. by rewrite list_insert_insert_eq. }
          intros c. rewrite Hv2. case_decide; [|done]. subst c. unfold goal. by rewrite Hl, Ep.
        - apply runs_ret. exists d'. split; [unfold changed in *; by rewrite Hh|].
          intros c. case_decide; [|done]. subst c. unfold goal. rewrite Hl, Ep, Hv. by rewrite decide_False. }
      intros _ w2 (d2 & Hc2 & Hv2). apply runs_ret. split; [done|]. exists d2. split; [done|].
      intros c. by rewrite Hv2, seen_snoc, Hv. }
  intros _ w' (d' & Hc & Hv). exists d'. split; [done|]. intros c. rewrite Hv. case_decide as Hd; [done|].
  unfold goal. destruct (view d !! c) eqn:E; [by apply keyed_all in E|done].
Qed.

Lemma delete_if_loop b p w l h : hashes w !! l = Some h → testing_block p b →
  runs (foreach_loop (delete_if_i b l) (CFDictionaryGetKeysAndValues (dict h)) ()) w (λ _ w', ∃ d,
    changed w w' l (with_dict d h) ∧ view d = drop p (view (dict h))).
Proof.
  intros H Hb. eapply runs_mono; [apply (test_loop b p w l h (dict h) (λ k _, rb_hash_delete_key l k;; mret ()) (λ _, None) H Hb)|].
  - intros k v d' w' H'. eapply runs_eq; [by apply delete_key_run|]. apply runs_ret. exists (delete_result d' k). split; [done|].
    intros c. rewrite delete_result_view. case_decide; [subst; apply lookup_delete_eq|by apply lookup_delete_ne].
  - intros _ w' (d & Hc & Hv). exists d. split; [done|]. apply map_eq. intros c. rewrite Hv, drop_lookup.
    by destruct (view (dict h) !! c).
Qed.

Lemma select_loop b p w r h0 d : hashes w !! r = Some h0 → modifiable h0 → view (dict h0) = ∅ → testing_block p b →
  runs (foreach_loop (select_i b r) (CFDictionaryGetKeysAndValues d) ()) w (λ _ w', ∃ d',
    changed w w' r (with_dict d' h0) ∧ view d' = keep p (view d)).
Proof.
  intros H Hm H0 Hb. eapply runs_mono; [apply (test_loop b p w r h0 d (λ k v, rb_hash_aset r k v;; mret ()) Some H Hb)|].
  - intros k v d' w' H'. eapply runs_eq; [by apply (aset_run _ _ (with_dict d' h0))|]. apply runs_ret.
    exists (CFDictionarySetValue d' k v). split; [done|].
    intros c. rewrite cf_set. case_decide; [subst; apply lookup_insert_eq|by apply lookup_insert_ne].
  - intros _ w' (d' & Hc & Hv). exists d'. split; [done|]. apply map_eq. intros c. rewrite Hv, keep_lookup, H0, lookup_empty.
    by destruct (view d !! c).
Qed.
End ops.
