(* ===== verification/HashThm.v ===== *)
(** * hash.c: the theorems

    Sequences of operations refine a finite map with a default; iteration works on a
    snapshot; filters, merges, replacement and inversion; frozen hashes. *)

From stdpp Require Import strings.
From S2P Require Import Prelude Value Hash HashSpec HashOps.
#[global] Open Scope Z_scope.

Section theorems.
Context `{L : CFDictionaryLaws} {U : Type} {RT : HashRuntime U}.
Implicit Types (w : world U) (h : hash) (l : nat) (d : cfdict).

(** ** Sequences of operations *)

Inductive hash_op :=
  | OpAset (k v : VALUE)
  | OpDelete (k : VALUE)
  | OpAref (k : VALUE)
  | OpLookup (k : VALUE)
  | OpFetch (k : VALUE) (if_none : option VALUE)
  | OpHasKey (k : VALUE)
  | OpSize
  | OpClear
  | OpSetDefault (v : VALUE)
  | OpDefault
  | OpRehash
  | OpFreeze.

Definition run_op l (o : hash_op) : cmd (world U) VALUE :=
  match o with
  | OpAset k v => rb_hash_aset l k v
  | OpDelete k => rb_hash_delete l k None
  | OpAref k => rb_hash_aref l k
  | OpLookup k => rb_hash_lookup l k
  | OpFetch k i => rb_hash_fetch l k i None
  | OpHasKey k => b ← rb_hash_has_key l k; mret (bool_value b)
  | OpSize => rb_hash_size l
  | OpClear => rb_hash_clear l;; mret Qnil
  | OpSetDefault v => rb_hash_set_default l v
  | OpDefault => rb_hash_default l []
  | OpRehash => rb_hash_rehash l;; mret Qnil
  | OpFreeze => OBJ_FREEZE l;; mret Qnil
  end.

(** A program that runs the operations one after the other and rescues their exceptions. *)
Fixpoint run_ops l (os : list hash_op) w : list (res VALUE) * world U :=
  match os with
  | [] => ([], w)
  | o :: os => let '(r, w) := run_op l o w in let '(rs, w) := run_ops l os w in (r :: rs, w)
  end.

(** The contract: a finite map from keys to values with a default, until it is frozen. *)
Record map_state := mkMap { bindings : gmap cfkey VALUE; dflt : VALUE; is_frozen : bool }.

Definition spec_op (o : hash_op) (s : map_state) : res VALUE * map_state :=
  let update (r : VALUE) s' := if is_frozen s then (Err (Raise RuntimeError), s) else (Ok r, s') in
  match o with
  | OpAset k v => update v (mkMap (<[key_of k := v]> (bindings s)) (dflt s) false)
  | OpDelete k => update (opt_value (bindings s !! key_of k)) (mkMap (delete (key_of k) (bindings s)) (dflt s) false)
  | OpAref k => (Ok (default (dflt s) (bindings s !! key_of k)), s)
  | OpLookup k => (Ok (opt_value (bindings s !! key_of k)), s)
  | OpFetch k i => (match bindings s !! key_of k, i with
                    | Some v, _ | None, Some v => Ok v
                    | None, None => Err (Raise KeyError)
                    end, s)
  | OpHasKey k => (Ok (bool_value (bool_decide (key_of k ∈ dom (bindings s)))), s)
  | OpSize => (Ok (Num (Z.of_nat (size (bindings s)))), s)
  | OpClear => update Qnil (mkMap ∅ (dflt s) false)
  | OpSetDefault v => update v (mkMap (bindings s) v false)
  | OpDefault => (Ok (dflt s), s)
  | OpRehash => update Qnil s
  | OpFreeze => (Ok Qnil, mkMap (bindings s) (dflt s) true)
  end.

Fixpoint spec_ops (os : list hash_op) (s : map_state) : list (res VALUE) :=
  match os with
  | [] => []
  | o :: os => (spec_op o s).1 :: spec_ops os (spec_op o s).2
  end.

Definition hash_rep h (s : map_state) : Prop :=
  view (dict h) = bindings s ∧ frozen h = is_frozen s ∧ immutable h = false ∧ tainted h = false ∧
  match hstruct h with None => dflt s = Qnil | Some st => has_proc_default st = false ∧ ifnone st = dflt s end.

Lemma set_hash_same w l h : hashes w !! l = Some h → set_hash w l h = w.
Proof. intros H. destruct w. unfold set_hash. cbn in *. by rewrite list_insert_id. Qed.

Lemma set_hash_twice w l h h' : set_hash (set_hash w l h) l h' = set_hash w l h'.
Proof. unfold set_hash. cbn. by rewrite list_insert_insert_eq. Qed.

Lemma set_hash_lookup w l h h' : hashes w !! l = Some h → hashes (set_hash w l h') !! l = Some h'.
Proof. intros H. cbn. apply list_lookup_insert_eq. by eapply lookup_lt_Some. Qed.

Lemma rep_modifiable h s : hash_rep h s → is_frozen s = false → modifiable h.
Proof. intros (_ & Hf & Hi & Ht & _) Hs. unfold modifiable. rewrite Hf, Hi, Ht. auto. Qed.

Lemma default_run w l h args : hashes w !! l = Some h → zlen args ≤ 1 →
  match hstruct h with None => True | Some st => has_proc_default st = false end →
  rb_hash_default l args w = (Ok (match hstruct h with None => Qnil | Some st => ifnone st end), w).
Proof.
  intros H Ha Hs. unfold rb_hash_default. rewrite (bind_run _ _ _ _ _ (get_struct_run _ _ _ H)).
  destruct (hstruct h) as [[v p]|]; [|done]. cbn in *. subst p. rewrite (proj2 (Z.ltb_ge _ _)) by done. by destruct v.
Qed.

Lemma set_all_run w l h kvs : hashes w !! l = Some h →
  ∃ d, set_all l kvs w = (Ok (), set_hash w l (with_dict d h)) ∧ view d = put_all (view (dict h)) (keyed kvs).
Proof.
  revert w h. induction kvs as [|[k v] kvs IH]; intros w h H.
  - exists (dict h). by rewrite set_hash_id.
  - cbn [set_all]. rewrite (bind_run _ _ _ _ _ (get_dict_run _ _ _ H)), (bind_run _ _ _ _ _ (put_dict_run _ _ _ _ H)).
    destruct (IH _ _ (set_hash_lookup _ _ _ (with_dict (CFDictionarySetValue (dict h) k v) h) H)) as (d & -> & Hd). exists d. split; [by rewrite set_hash_twice|].
    rewrite Hd. cbn [dict with_dict]. by rewrite cf_set.
Qed.

Lemma rehash_run w l h : hashes w !! l = Some h → modifiable h →
  ∃ d, rb_hash_rehash l w = (Ok (Hash l), set_hash w l (with_dict d h)) ∧ view d = view (dict h).
Proof.
  intros H Hm. unfold rb_hash_rehash. rewrite (bind_run _ _ _ _ _ (modify_check_run _ _ _ H Hm)).
  rewrite (bind_run _ _ _ _ _ (get_dict_run _ _ _ H)). destruct (_ =? 0).
  { exists (dict h). by rewrite set_hash_id. }
  rewrite (bind_run _ _ _ _ _ (put_dict_run _ _ _ _ H)).
  destruct (set_all_run _ _ _ (CFDictionaryGetKeysAndValues (dict h)) (set_hash_lookup _ _ _ (with_dict (CFDictionaryRemoveAllValues (dict h)) h) H)) as (d & Hs & Hd).
  rewrite (bind_run _ _ _ _ _ Hs), set_hash_twice. exists d. split; [done|]. rewrite Hd. cbn [dict with_dict].
  rewrite cf_remove_all, put_all_nodup by apply cf_nodup. by rewrite (right_id_L ∅ (∪)).
Qed.

(** An operation that checks for modification first, on a frozen hash. *)
Lemma checked_frozen {A} w l h (m : cmd (world U) A) : hashes w !! l = Some h → frozen h = true ∨ immutable h = true →
  (rb_hash_modify_check l;; m) w = (Err (Raise RuntimeError), w).
Proof. intros H Hf. by rewrite (bind_err _ _ _ _ _ (modify_check_frozen _ _ _ H Hf)). Qed.

(** The operations that only read. *)
Lemma read_refines w l h s o : hashes w !! l = Some h → hash_rep h s →
  match o with OpAref _ | OpLookup _ | OpFetch _ _ | OpHasKey _ | OpSize | OpDefault => True | _ => False end →
  run_op l o w = ((spec_op o s).1, w) ∧ (spec_op o s).2 = s.
Proof.
  intros H (Hv & _ & _ & _ & Hs) Ho.
  assert (∀ args, zlen args ≤ 1 → rb_hash_default l args w = (Ok (dflt s), w)) as Hd.
  { intros args Ha. rewrite (default_run _ _ _ _ H Ha) by (destruct (hstruct h); [by destruct Hs|done]).
    destruct (hstruct h); [by destruct Hs as [_ <-]|by rewrite Hs]. }
  destruct o; try done; (split; [|done]); cbn [run_op spec_op fst].
  - unfold rb_hash_aref. rewrite (bind_run _ _ _ _ _ (get_dict_run _ _ _ H)), cf_get, Hv. destruct (bindings s !! key_of k); [done|]. by apply Hd.
  - unfold rb_hash_lookup. by rewrite (bind_run _ _ _ _ _ (get_dict_run _ _ _ H)), cf_get, Hv.
  - unfold rb_hash_fetch. rewrite (bind_run _ _ _ _ _ (get_dict_run _ _ _ H)), cf_get, Hv. by destruct (bindings s !! key_of k), if_none.
  - unfold rb_hash_has_key. erewrite bind_run by (by rewrite (bind_run _ _ _ _ _ (get_dict_run _ _ _ H))).
    rewrite cf_contains_key, Hv. unfold mret, cmd_ret. do 3 f_equal. apply bool_decide_ext. by rewrite elem_of_dom.
  - unfold rb_hash_size. by rewrite (bind_run _ _ _ _ _ (get_dict_run _ _ _ H)), count_size, Hv.
  - by apply Hd.
Qed.

Lemma op_refines w l h s o : hashes w !! l = Some h → hash_rep h s →
  ∃ h', run_op l o w = ((spec_op o s).1, set_hash w l h') ∧ hash_rep h' (spec_op o s).2.
Proof.
  intros H Hr. pose proof Hr as (Hv & Hf & Hi & Ht & Hs).
  assert (match o with OpAref _ | OpLookup _ | OpFetch _ _ | OpHasKey _ | OpSize | OpDefault => True | _ => False end →
    ∃ h', run_op l o w = ((spec_op o s).1, set_hash w l h') ∧ hash_rep h' (spec_op o s).2) as Hread.
  { intros Ho. destruct (read_refines w l h s o H Hr Ho) as [-> ->]. exists h. by rewrite set_hash_same. }
  assert (∀ A (m : cmd (world U) A), is_frozen s = true → (rb_hash_modify_check l;; m) w = (Err (Raise RuntimeError), w)) as Hc.
  { intros A m Es. apply (checked_frozen _ _ h); [done|]. rewrite Hf. auto. }
  assert (is_frozen s = false → modifiable h) as Hm by (intros; by eapply rep_modifiable).
  destruct o; try (by apply Hread); clear Hread; cbn [run_op spec_op].
  6: { unfold OBJ_FREEZE. erewrite bind_run by (by rewrite (bind_run _ _ _ _ _ (get_hash_run _ _ _ H))).
       eexists. split; [done|]. by split_and!. }
  all: destruct (is_frozen s) eqn:Es; cbn [fst snd];
    [exists h; rewrite set_hash_same by done; split; [|done];
     unfold rb_hash_aset, rb_hash_delete, rb_hash_set_default, rb_hash_clear, rb_hash_rehash; try (by apply Hc); by rewrite (bind_err _ _ _ _ _ (Hc _ _ eq_refl))|
     specialize (Hm eq_refl)].
  - rewrite (aset_run _ _ _ _ _ H Hm). eexists. split; [done|]. split_and!; try done. cbn. by rewrite cf_set, Hv.
  - unfold rb_hash_delete. rewrite (bind_run _ _ _ _ _ (modify_check_run _ _ _ H Hm)), (bind_run _ _ _ _ _ (delete_key_run _ _ _ _ H)), Hv.
    exists (with_dict (delete_result (dict h) k) h). split; [by destruct (bindings s !! key_of k)|]. split_and!; try done. cbn. by rewrite delete_result_view, Hv.
  - unfold rb_hash_clear. erewrite bind_run.
    2:{ rewrite (bind_run _ _ _ _ _ (modify_check_run _ _ _ H Hm)), (bind_run _ _ _ _ _ (get_dict_run _ _ _ H)).
        by rewrite (bind_run _ _ _ _ _ (put_dict_run _ _ _ _ H)). }
    eexists. split; [done|]. split_and!; try done. apply cf_remove_all.
  - unfold rb_hash_set_default. rewrite (bind_run _ _ _ _ _ (modify_check_run _ _ _ H Hm)), (bind_run _ _ _ _ _ (set_struct_run _ _ _ _ _ H)).
    eexists. split; [done|]. by split_and!.
  - destruct (rehash_run _ _ _ H Hm) as (d & E & Hd). rewrite (bind_run _ _ _ _ _ E). exists (with_dict d h). split; [done|].
    split_and!; try done; cbn; [by rewrite Hd|by rewrite Hf].
Qed.

Lemma ops_refine w l h s os : hashes w !! l = Some h → hash_rep h s →
  ∃ h', run_ops l os w = (spec_ops os s, set_hash w l h').
Proof.
  revert w h s. induction os as [|o os IH]; intros w h s H Hr; [exists h; by rewrite set_hash_same|].
  destruct (op_refines _ _ _ _ o H Hr) as (h1 & E & Hr1). cbn [run_ops spec_ops]. rewrite E.
  destruct (IH _ _ _ (set_hash_lookup _ _ _ h1 H) Hr1) as (h2 & ->). exists h2. by rewrite set_hash_twice.
Qed.

(** C27: a hash made by [Hash.new(v)] is a finite map with a default: every sequence of stores,
    deletions, reads with and without defaults, queries, clearing, rehashing and freezing gives
    the results of the map, with RuntimeError for changes of the frozen hash and KeyError for a [fetch]
    that finds nothing, and leaves every other hash as it was.  As the code has it, [delete] gives nil for a
    missing key, whatever the default is, and [default=] gives the value and not the hash. *)
Theorem hash_trace_refines w v os :
  ∃ l w1, rb_hash_new2 [v] None w = (Ok l, w1) ∧
    (run_ops l os w1).1 = spec_ops os (mkMap ∅ v false) ∧
    (∀ l', (l' < length (hashes w))%nat → hashes (run_ops l os w1).2 !! l' = hashes w !! l').
Proof.
  set (h0 := mkHash _ CFDictionaryCreateMutable None false false false).
  set (h1 := if NIL_P v then h0 else with_struct (Some (mkStruct v false)) h0).
  pose proof (added w h0) as H0. exists (length (hashes w)), (add_hash w h1).
  assert (hash_rep h1 (mkMap ∅ v false)) as Hr.
  { unfold h1. destruct v; cbn; (split_and!; try done); apply cf_create. }
  split.
  - unfold rb_hash_new2. change hash_alloc with (@rb_hash_new D U). rewrite (bind_run _ _ _ _ _ (new_run w)). fold h0.
    unfold rb_hash_initialize. erewrite bind_run; [done|].
    rewrite (bind_run _ _ _ _ _ (modify_check_run _ _ h0 H0 (conj eq_refl (conj eq_refl (or_introl eq_refl))))). unfold h1.
    destruct (NIL_P v); [done|]. rewrite (bind_run _ _ _ _ _ (set_struct_run _ _ h0 _ _ H0)).
    unfold mret, cmd_ret, set_hash, add_hash. cbn. by rewrite insert_app_r_alt, Nat.sub_diag.
  - destruct (ops_refine (add_hash w h1) _ h1 _ os (added w h1) Hr) as (h' & ->). split; [done|].
    intros l' Hl. cbn. rewrite list_lookup_insert_ne by lia. by rewrite lookup_app_l.
Qed.

(** ** Iteration *)

(** A block that leaves a note of each call, and may otherwise do what it wants: change the
    hashes, set [broken_with]. *)
Definition logging_block (note : world U → list (list VALUE)) (b : block) : Prop :=
  ∀ args w, runs (b args) w (λ _ w', note w' = note w ++ [args]).

Lemma each_loop note b (arg : VALUE → VALUE → list VALUE) func kvs w : logging_block note b →
  (∀ k v u, func k v u = (b (arg k v);; mret (ST_CONTINUE, ()))) →
  runs (foreach_loop func kvs ()) w (λ _ w', note w' = note w ++ ((λ kv, arg kv.1 kv.2) <$> kvs)).
Proof.
  intros Hb Hf. apply (foreach_inv func (λ pre _ w', note w' = note w ++ ((λ kv, arg kv.1 kv.2) <$> pre))); [by rewrite app_nil_r|].
  intros pre k v post [] w' _ Hn. rewrite Hf. eapply runs_bind; [apply Hb|]. intros ? w'' Hn'. apply runs_ret. split; [done|].
  by rewrite Hn', Hn, fmap_app, app_assoc.
Qed.

(** C28: [each_pair], [each_key] and [each_value] call the block, if it does not raise, once for each binding that the hash
    has when the iteration starts and for no other, whatever the block does to it: it may store and
    delete in the hash itself, and rehash it, which the code, against its documentation, does not refuse; and a [break] does not
    end the loop.  The hash is returned; without a block, an enumerator. *)
Theorem hash_each_snapshot note b w l h :
  hashes w !! l = Some h → logging_block note b →
  let kvs := CFDictionaryGetKeysAndValues (dict h) in
  NoDup (keyed kvs).*1 ∧ (∀ c v, view (dict h) !! c = Some v ↔ (c, v) ∈ keyed kvs) ∧
  runs (rb_hash_each_pair l (Some b)) w (λ r w', r = Hash l ∧ note w' = note w ++ ((λ kv, [Ary [kv.1; kv.2]]) <$> kvs)) ∧
  runs (rb_hash_each_key l (Some b)) w (λ r w', r = Hash l ∧ note w' = note w ++ ((λ kv, [kv.1]) <$> kvs)) ∧
  runs (rb_hash_each_value l (Some b)) w (λ r w', r = Hash l ∧ note w' = note w ++ ((λ kv, [kv.2]) <$> kvs)) ∧
  rb_hash_each_pair l None w = (Ok (Enumerator l "each_pair"), w).
Proof.
  intros H Hb kvs.
  assert (∀ func (arg : VALUE → VALUE → list VALUE), (∀ k v u, func k v u = (b (arg k v);; mret (ST_CONTINUE, ()))) →
    runs (rb_hash_foreach l func ();; mret (Hash l)) w (λ r w', r = Hash l ∧ note w' = note w ++ ((λ kv, arg kv.1 kv.2) <$> kvs))) as G.
  { intros func arg Hf. eapply (runs_bind _ _ _ (λ _ w', note w' = note w ++ ((λ kv, arg kv.1 kv.2) <$> kvs))).
    - unfold runs. rewrite (foreach_unfold _ _ _ _ _ H). by apply (each_loop note b arg).
    - intros _ w' E. by apply runs_ret. }
  split_and!; [apply cf_nodup|intros; apply view_lookup| | | |done].
  - by apply (G _ (λ k v, [Ary [k; v]])).
  - by apply (G _ (λ k _, [k])).
  - by apply (G _ (λ _ v, [v])).
Qed.

(** ** Filters *)

Lemma delete_if_runs p b sel w l h : hashes w !! l = Some h → modifiable h → testing_block p b →
  runs (rb_hash_delete_if l sel (Some b)) w (λ r w', r = Hash l ∧ ∃ d, changed w w' l (with_dict d h) ∧ view d = drop p (view (dict h))).
Proof.
  intros H Hm Hb. unfold rb_hash_delete_if, with_block. eapply runs_eq; [by eapply modify_check_run|].
  eapply runs_bind; [|intros ? w' E; apply runs_ret; split; [done|exact E]].
  unfold runs. rewrite (foreach_unfold _ _ _ _ _ H). by apply delete_if_loop.
Qed.

Lemma drop_size p (m : gmap cfkey VALUE) : Z.of_nat (size m) = Z.of_nat (size (drop p m)) ↔ keep p m = ∅.
Proof.
  assert (m = keep p m ∪ drop p m ∧ keep p m ##ₘ drop p m) as [Em Hd].
  { split.
    - apply map_eq. intros c. rewrite lookup_union, keep_lookup, drop_lookup.
      destruct (m !! c) as [v|]; cbn; [|done]. by destruct (p c v).
    - apply map_disjoint_spec. intros c v1 v2. rewrite keep_lookup, drop_lookup.
      destruct (m !! c) as [v|]; cbn; [|done]. by destruct (p c v). }
  rewrite Em at 1. rewrite map_size_disj_union by done. rewrite <- (map_size_empty_iff (keep p m)). lia.
Qed.

(** C29: with a block that tests bindings, [delete_if] removes exactly the bindings that pass,
    although it deletes while it iterates; [reject!] does the same and returns nil exactly
    if there was nothing to remove; [select] returns a new hash without default of those that pass, [reject] a new hash
    with the default of the receiver of those that do not, and both leave every hash as it was.
    Without a block [reject] makes an enumerator of the copy that names no method. *)
Theorem hash_filters_correct p b w l h :
  hashes w !! l = Some h → modifiable h → testing_block p b →
  runs (rb_hash_delete_if l "delete_if" (Some b)) w (λ r w', r = Hash l ∧ ∃ d,
    changed w w' l (with_dict d h) ∧ view d = drop p (view (dict h))) ∧
  runs (rb_hash_reject_bang l (Some b)) w (λ r w', (r = Qnil ↔ keep p (view (dict h)) = ∅) ∧ (r = Qnil ∨ r = Hash l) ∧ ∃ d,
    changed w w' l (with_dict d h) ∧ view d = drop p (view (dict h))) ∧
  runs (rb_hash_select l (Some b)) w (λ r w', r = Hash (length (hashes w)) ∧ ∃ d,
    hashes w' = hashes w ++ [mkHash _ d None false false false] ∧ view d = keep p (view (dict h))) ∧
  runs (rb_hash_reject l (Some b)) w (λ r w', r = Hash (length (hashes w)) ∧ ∃ d,
    hashes w' = hashes w ++ [mkHash _ d (hstruct h) false (tainted h) false] ∧ view d = drop p (view (dict h))) ∧
  rb_hash_reject l None w = (Ok (Enumerator (length (hashes w)) ""), add_hash w (dup_of h)).
Proof.
  intros H Hm Hb. split_and!; [..|unfold rb_hash_reject; by rewrite (bind_run _ _ _ _ _ (dup_run _ _ _ H))].
  - by apply delete_if_runs.
  - unfold rb_hash_reject_bang. cbn [with_block]. eapply runs_eq; [by apply get_dict_run|].
    eapply runs_bind; [by apply (delete_if_runs p)|]. intros ? w' [_ (d & Hc & Hd)].
    eapply runs_eq; [apply get_dict_run; rewrite Hc; apply list_lookup_insert_eq; by eapply lookup_lt_Some|].
    cbn [dict with_dict]. rewrite !count_size, Hd. apply runs_ret. pose proof (drop_size p (view (dict h))) as Hz.
    split; [|split; [by destruct (_ =? _); auto|by exists d]].
    rewrite <- Hz. by destruct (Z.eqb_spec (Z.of_nat (size (view (dict h)))) (Z.of_nat (size (drop p (view (dict h)))))).
  - unfold rb_hash_select. cbn [with_block]. eapply runs_eq; [apply new_run|].
    set (h0 := mkHash _ CFDictionaryCreateMutable None false false false).
    eapply runs_bind.
    + unfold runs. rewrite (foreach_unfold _ _ h _ _ (kept _ _ _ _ H)).
      apply (select_loop b p (add_hash w h0) _ h0); [apply added|by split_and!; auto|apply cf_create|done].
    + intros ? w' (d & Hc & Hd). apply runs_ret. split; [done|]. exists d. split; [|done]. by apply changed_added in Hc.
  - unfold rb_hash_reject. eapply runs_eq; [by apply dup_run|].
    eapply runs_mono; [apply (delete_if_runs p _ _ _ _ (dup_of h)); [apply added| |done]|].
    + destruct Hm as (_ & _ & Ht). by split_and!.
    + intros r w' [-> (d & Hc & Hd)]. split; [done|]. exists d. split; [by apply changed_added in Hc|].
      rewrite Hd. cbn [dict dup_of]. by rewrite cf_copy.
Qed.

(** ** Merging *)

Lemma to_hash_run w l : to_hash (Hash l) w = (Ok l, w).
Proof. done. Qed.

Lemma update_runs f b w l l2 h h2 : hashes w !! l = Some h → hashes w !! l2 = Some h2 → modifiable h → merging_block f b →
  runs (rb_hash_update l (Hash l2) None) w (λ r w', r = Hash l ∧ ∃ d, changed w w' l (with_dict d h) ∧ view d = view (dict h2) ∪ view (dict h)) ∧
  runs (rb_hash_update l (Hash l2) (Some b)) w (λ r w', r = Hash l ∧ ∃ d, changed w w' l (with_dict d h) ∧
    ∀ c, view d !! c = merged f c (view (dict h) !! c) (view (dict h2) !! c)).
Proof.
  intros H H2 Hm Hb. unfold rb_hash_update.
  split; (eapply runs_eq; [apply to_hash_run|]); (eapply runs_bind; [|intros ? w' E; apply runs_ret; split; [done|exact E]]);
    unfold runs; rewrite (foreach_unfold _ _ _ _ _ H2).
  - by apply aset_snapshot.
  - by apply update_block_loop.
Qed.

Lemma clear_run w l h : hashes w !! l = Some h → modifiable h →
  rb_hash_clear l w = (Ok (Hash l), set_hash w l (with_dict (CFDictionaryRemoveAllValues (dict h)) h)).
Proof.
  intros H Hm. unfold rb_hash_clear. rewrite (bind_run _ _ _ _ _ (modify_check_run _ _ _ H Hm)), (bind_run _ _ _ _ _ (get_dict_run _ _ _ H)).
  by rewrite (bind_run _ _ _ _ _ (put_dict_run _ _ _ _ H)).
Qed.

Lemma replace_runs w l l2 h h2 : hashes w !! l = Some h → hashes w !! l2 = Some h2 → modifiable h →
  runs (rb_hash_replace l (Hash l2)) w (λ r w', r = Hash l ∧ ∃ d, view d = view (dict h2) ∧
    changed w w' l (with_struct (match hstruct h2 with Some s => Some s | None => hstruct h end) (with_dict d h))).
Proof.
  intros H H2 Hm. unfold rb_hash_replace. eapply runs_eq; [by eapply modify_check_run|]. eapply runs_eq; [apply to_hash_run|].
  case_bool_decide as E.
  { subst l2. simplify_eq. apply runs_ret. split; [done|]. exists (dict h). split; [done|]. unfold changed. symmetry.
    apply list_insert_id. rewrite H. destruct h as [d [s|] fr ta im]; done. }
  eapply runs_eq; [by apply clear_run|]. set (h0 := with_dict (CFDictionaryRemoveAllValues (dict h)) h).
  assert (hashes (set_hash w l h0) !! l = Some h0) as H0 by (by eapply set_hash_lookup).
  assert (hashes (set_hash w l h0) !! l2 = Some h2) as H20 by (cbn; by rewrite list_lookup_insert_ne).
  eapply (runs_bind _ _ _ (λ _ w', ∃ d, changed w w' l (with_dict d h) ∧ view d = view (dict h2))).
  { unfold runs. rewrite (foreach_unfold _ _ _ _ _ H20). eapply runs_mono; [by apply (aset_snapshot (set_hash w l h0) l h0)|].
    intros ? w' (d & Hc & Hv). exists d. split.
    - unfold changed in *. rewrite Hc. cbn. by rewrite list_insert_insert_eq.
    - rewrite Hv. cbn [dict h0 with_dict]. rewrite cf_remove_all. by rewrite (right_id_L ∅ (∪)). }
  intros ? w' (d & Hc & Hv).
  assert (hashes w' !! l = Some (with_dict d h)) as H' by (rewrite Hc; apply list_lookup_insert_eq; by eapply lookup_lt_Some).
  assert (hashes w' !! l2 = Some h2) as H2' by (rewrite Hc; by rewrite list_lookup_insert_ne).
  eapply runs_eq; [by apply get_struct_run|]. destruct (hstruct h2) as [[v p]|].
  - eapply runs_eq; [by apply set_struct_run|]. apply runs_ret. split; [done|]. exists d. split; [done|].
    unfold changed in *. cbn. rewrite Hc. by rewrite list_insert_insert_eq.
  - eapply runs_eq; [done|]. apply runs_ret. split; [done|]. exists d. split; [done|]. unfold changed in *. rewrite Hc. by destruct h.
Qed.

(** [update] adds the bindings of the other hash to the receiver, which win over its own;
    with a block, the block decides for the keys of both; [merge] does so in a new hash with the default of the
    receiver, and leaves both hashes as they were; [replace] gives the receiver exactly the bindings of the other
    hash, and its default if it has one, but keeps the old default otherwise.  All hold also if the two
    are the same hash. *)
Theorem hash_merge_correct f b w l l2 h h2 :
  hashes w !! l = Some h → hashes w !! l2 = Some h2 → modifiable h → merging_block f b →
  runs (rb_hash_update l (Hash l2) None) w (λ r w', r = Hash l ∧ ∃ d, changed w w' l (with_dict d h) ∧ view d = view (dict h2) ∪ view (dict h)) ∧
  runs (rb_hash_update l (Hash l2) (Some b)) w (λ r w', r = Hash l ∧ ∃ d, changed w w' l (with_dict d h) ∧
    ∀ c, view d !! c = merged f c (view (dict h) !! c) (view (dict h2) !! c)) ∧
  runs (rb_hash_merge l (Hash l2) None) w (λ r w', r = Hash (length (hashes w)) ∧ ∃ d,
    hashes w' = hashes w ++ [with_dict d (dup_of h)] ∧ view d = view (dict h2) ∪ view (dict h)) ∧
  runs (rb_hash_merge l (Hash l2) (Some b)) w (λ r w', r = Hash (length (hashes w)) ∧ ∃ d,
    hashes w' = hashes w ++ [with_dict d (dup_of h)] ∧ ∀ c, view d !! c = merged f c (view (dict h) !! c) (view (dict h2) !! c)) ∧
  runs (rb_hash_replace l (Hash l2)) w (λ r w', r = Hash l ∧ ∃ d, view d = view (dict h2) ∧
    changed w w' l (with_struct (match hstruct h2 with Some s => Some s | None => hstruct h end) (with_dict d h))).
Proof.
  intros H H2 Hm Hb. destruct (update_runs f b w l l2 h h2 H H2 Hm Hb) as [U1 U2].
  assert (modifiable (dup_of h)) as Hm' by (destruct Hm as (_ & _ & Ht); by split_and!).
  destruct (update_runs f b (add_hash w (dup_of h)) (length (hashes w)) l2 (dup_of h) h2 (added _ _) (kept _ _ _ _ H2) Hm' Hb) as [D1 D2].
  split_and!; [done|done| | |by apply replace_runs].
  - unfold rb_hash_merge. eapply runs_eq; [by apply dup_run|]. eapply runs_mono; [apply D1|].
    intros r w' [-> (d & Hc & Hv)]. split; [done|]. exists d. split; [by apply changed_added in Hc|]. rewrite Hv. cbn [dict dup_of]. by rewrite cf_copy.
  - unfold rb_hash_merge. eapply runs_eq; [by apply dup_run|]. eapply runs_mono; [apply D2|].
    intros r w' [-> (d & Hc & Hv)]. split; [done|]. exists d. split; [by apply changed_added in Hc|]. intros c. rewrite Hv. cbn [dict dup_of]. by rewrite cf_copy.
Qed.

(** ** Searching and inverting *)

Lemma search_loop {S} (test : VALUE * VALUE → bool) (found : VALUE * VALUE → S) func kvs acc w :
  (∀ k v a, func k v a = if test (k, v) then mret (ST_STOP, found (k, v)) else mret (ST_CONTINUE, a)) →
  foreach_loop func kvs acc w = (Ok (from_option found acc (List.find test kvs)), w).
Proof.
  intros Hf. induction kvs as [|[k v] kvs IH]; [done|]. cbn [foreach_loop List.find]. rewrite Hf.
  destruct (test (k, v)); [done|]. by rewrite (bind_run _ _ _ (ST_CONTINUE, acc) w) by done.
Qed.

Lemma collect_loop (item : VALUE * VALUE → VALUE) func kvs acc w :
  (∀ k v a, func k v a = mret (ST_CONTINUE, a ++ [item (k, v)])) →
  foreach_loop func kvs acc w = (Ok (acc ++ (item <$> kvs)), w).
Proof.
  intros Hf. revert acc. induction kvs as [|[k v] kvs IH]; intros acc; [cbn; by rewrite app_nil_r|]. cbn [foreach_loop]. rewrite Hf.
  rewrite (bind_run _ _ _ (ST_CONTINUE, acc ++ [item (k, v)]) w) by done. rewrite IH. by rewrite <- app_assoc.
Qed.

(** [to_a], [keys] and [values] list the bindings in one order, in which [key], [assoc] and [rassoc]
    find the first that is equal; [invert] makes a new hash that maps each
    value of the receiver to one of its keys and has no other bindings; if no two values are equal as keys,
    inversion loses nothing. *)
Theorem hash_invert_search w l h v :
  hashes w !! l = Some h →
  let kvs := CFDictionaryGetKeysAndValues (dict h) in
  rb_hash_to_a l w = (Ok ((λ kv, Ary [kv.1; kv.2]) <$> kvs), w) ∧
  rb_hash_keys l w = (Ok kvs.*1, w) ∧ rb_hash_values l w = (Ok kvs.*2, w) ∧
  rb_hash_key l v w = (Ok (from_option fst Qnil (List.find (λ kv, rb_equal kv.2 v) kvs)), w) ∧
  rb_hash_assoc l v w = (Ok (from_option (λ kv, Ary [kv.1; kv.2]) Qnil (List.find (λ kv, rb_equal v kv.1) kvs)), w) ∧
  rb_hash_rassoc l v w = (Ok (from_option (λ kv, Ary [kv.1; kv.2]) Qnil (List.find (λ kv, rb_equal v kv.2) kvs)), w) ∧
  runs (rb_hash_invert l) w (λ r w', r = Hash (length (hashes w)) ∧ ∃ d,
    hashes w' = hashes w ++ [mkHash _ d None false false false] ∧
    (∀ c x, view (dict h) !! c = Some x → is_Some (view d !! key_of x)) ∧
    (∀ c k, view d !! c = Some k → ∃ x, view (dict h) !! key_of k = Some x ∧ key_of x = c) ∧
    ((∀ c1 c2 x1 x2, view (dict h) !! c1 = Some x1 → view (dict h) !! c2 = Some x2 → key_of x1 = key_of x2 → c1 = c2) →
      ∀ c x, view (dict h) !! c = Some x → ∃ k, view d !! key_of x = Some k ∧ key_of k = c)).
Proof.
  intros H kvs. unfold rb_hash_to_a, rb_hash_keys, rb_hash_values, rb_hash_key, rb_hash_assoc, rb_hash_rassoc.
  rewrite !(foreach_unfold _ _ _ _ _ H). split_and!.
  1: by apply (collect_loop (λ kv, Ary [kv.1; kv.2])).
  1: by apply (collect_loop fst).
  1: by apply (collect_loop snd).
  1: by apply (search_loop (λ kv, rb_equal kv.2 v) fst).
  1: by apply (search_loop (λ kv, rb_equal v kv.1) (λ kv, Ary [kv.1; kv.2])).
  1: by apply (search_loop (λ kv, rb_equal v kv.2) (λ kv, Ary [kv.1; kv.2])).
  unfold rb_hash_invert. eapply runs_eq; [apply new_run|]. set (h0 := mkHash _ CFDictionaryCreateMutable None false false false).
  eapply runs_bind.
  { unfold runs. rewrite (foreach_unfold _ _ h _ _ (kept _ _ _ _ H)).
    apply (aset_loop (add_hash w h0) (length (hashes w)) h0 (λ _ v, v) (λ k _, k)); [apply added|by split_and!; auto|done]. }
  intros ? w' (d & Hc & Hv). apply runs_ret. split; [done|]. exists d. split; [by apply changed_added in Hc|]. fold kvs in Hv.
  assert (∀ c x, view (dict h) !! c = Some x → is_Some (view d !! key_of x)) as V1.
  { intros c x (k & <- & Hk)%view_entry. rewrite Hv. apply put_all_dom. rewrite <- list_fmap_compose. apply list_elem_of_fmap. by exists (k, x). }
  assert (∀ c k, view d !! c = Some k → ∃ x, view (dict h) !! key_of k = Some x ∧ key_of x = c) as V2.
  { intros c k. rewrite Hv. intros [([k' x] & E & Hk)%list_elem_of_fmap|[E _]]%put_all_lookup.
    - cbn in E. injection E as -> ->. exists x. split; [|done]. apply view_entry. by exists k'.
    - cbn [dict h0] in E. by rewrite cf_create, lookup_empty in E. }
  split_and!; [done|done|]. intros Hinj c x Hx. destruct (V1 _ _ Hx) as [k Hk]. exists k. split; [done|].
  destruct (V2 _ _ Hk) as (x' & Hx' & E). by eapply Hinj.
Qed.

(** ** Frozen hashes *)

Lemma keys_run w l h : hashes w !! l = Some h → rb_hash_keys l w = (Ok (CFDictionaryGetKeysAndValues (dict h)).*1, w).
Proof. intros H. unfold rb_hash_keys. rewrite (foreach_unfold _ _ _ _ _ H). by apply (collect_loop fst). Qed.

Lemma shift_run w l h k v kvs : hashes w !! l = Some h → CFDictionaryGetKeysAndValues (dict h) = (k, v) :: kvs →
  rb_hash_shift l None w = (rb_hash_delete l k None;; mret (Ary [k; v])) w.
Proof.
  intros H E. unfold rb_hash_shift. rewrite (bind_run _ _ _ _ _ (keys_run _ _ _ H)), E. cbn [fmap list_fmap fst].
  rewrite (bind_run _ _ _ v w); [done|]. apply (aref_present _ _ h); [done|]. apply (keyed_split _ [] k v kvs). exact E.
Qed.

Lemma view_nil d : view d = ∅ ↔ CFDictionaryGetKeysAndValues d = [].
Proof.
  split.
  - intros E. pose proof (view_size d) as H. rewrite E, map_size_empty in H. destruct (CFDictionaryGetKeysAndValues d); [done|]. unfold zlen in H. cbn in H. lia.
  - intros E. unfold view. by rewrite E.
Qed.

(** A frozen or immutable hash refuses every change with RuntimeError and stays as it
    was, as do all others: stores, deletions, clearing, rehashing, defaults, replacement even by
    itself, [delete_if] and [reject!], [shift] and [update] as long as they have something to do.
    [shift] of an empty and [update] by an empty hash do not look.  A copy can be changed,
    and [clone] is frozen if the receiver is. *)
Theorem hash_frozen w l h k v b l2 h2 :
  hashes w !! l = Some h → frozen h = true ∨ immutable h = true → hashes w !! l2 = Some h2 →
  rb_hash_aset l k v w = (Err (Raise RuntimeError), w) ∧
  rb_hash_delete l k None w = (Err (Raise RuntimeError), w) ∧
  rb_hash_clear l w = (Err (Raise RuntimeError), w) ∧
  rb_hash_rehash l w = (Err (Raise RuntimeError), w) ∧
  rb_hash_set_default l v w = (Err (Raise RuntimeError), w) ∧
  rb_hash_replace l v w = (Err (Raise RuntimeError), w) ∧
  rb_hash_delete_if l "delete_if" (Some b) w = (Err (Raise RuntimeError), w) ∧
  rb_hash_reject_bang l (Some b) w = (Err (Raise RuntimeError), w) ∧
  (view (dict h) ≠ ∅ → rb_hash_shift l None w = (Err (Raise RuntimeError), w)) ∧
  (view (dict h) = ∅ → hstruct h = None → rb_hash_shift l None w = (Ok Qnil, w)) ∧
  rb_hash_update l (Hash l2) None w = (if decide (view (dict h2) = ∅) then Ok (Hash l) else Err (Raise RuntimeError), w) ∧
  (tainted h = false → rb_hash_dup l w = (Ok (length (hashes w)), add_hash w (dup_of h)) ∧ modifiable (dup_of h)) ∧
  runs (rb_hash_clone l) w (λ c w', c = length (hashes w) ∧ ∃ h', hashes w' = hashes w ++ [h'] ∧
    dict h' = dict (dup_of h) ∧ frozen h' = frozen h).
Proof.
  intros H Hf H2. assert (∀ A (m : cmd (world U) A), (rb_hash_modify_check l;; m) w = (Err (Raise RuntimeError), w)) as Hc by (intros; by apply (checked_frozen _ _ h)).
  split_and!.
  1-7: unfold rb_hash_aset, rb_hash_delete, rb_hash_clear, rb_hash_rehash, rb_hash_set_default, rb_hash_replace, rb_hash_delete_if; apply Hc.
  - unfold rb_hash_reject_bang. cbn [with_block]. rewrite (bind_run _ _ _ _ _ (get_dict_run _ _ _ H)). apply bind_err, Hc.
  - rewrite view_nil. intros E. destruct (CFDictionaryGetKeysAndValues (dict h)) as [|[k' v'] kvs] eqn:Ek; [done|].
    rewrite (shift_run _ _ _ _ _ _ H Ek). apply bind_err, Hc.
  - rewrite view_nil. intros E Es. unfold rb_hash_shift. rewrite (bind_run _ _ _ _ _ (keys_run _ _ _ H)), E. cbn.
    by rewrite (bind_run _ _ _ _ _ (get_struct_run _ _ _ H)), Es.
  - unfold rb_hash_update. rewrite (bind_run _ _ _ _ _ (to_hash_run w l2)).
    assert (rb_hash_foreach l2 (rb_hash_update_i l) () w = (if decide (view (dict h2) = ∅) then Ok () else Err (Raise RuntimeError), w)) as E.
    { rewrite (foreach_unfold _ _ _ _ _ H2). case_decide as Hv; rewrite view_nil in Hv; [by rewrite Hv|].
      destruct (CFDictionaryGetKeysAndValues (dict h2)) as [|[k' v'] kvs]; [done|]. cbn [foreach_loop]. do 2 apply bind_err. apply Hc. }
    case_decide; [by rewrite (bind_run _ _ _ _ _ E)|by rewrite (bind_err _ _ _ _ _ E)].
  - intros Ht. split; [by apply dup_run|]. split_and!; [done|done|by left].
  - unfold rb_hash_clone. eapply runs_eq; [by apply dup_run|]. eapply runs_eq; [by apply get_hash_run, kept|].
    destruct (frozen h) eqn:Ef.
    + unfold OBJ_FREEZE. eapply runs_eq; [rewrite (bind_run _ _ _ _ _ (get_hash_run _ _ _ (added w (dup_of h)))); reflexivity|]. apply runs_ret. split; [done|].
      exists (mkHash _ (dict (dup_of h)) (hstruct (dup_of h)) true (tainted (dup_of h)) (immutable (dup_of h))).
      split; [|by split]. cbn. by rewrite insert_app_r_alt, Nat.sub_diag.
    + eapply runs_eq; [done|]. apply runs_ret. split; [done|]. exists (dup_of h). by split_and!.
Qed.
End theorems.

(** ** An instance

    Association lists as dictionaries; keys are compared by structure. *)

#[local] Fixpoint code (v : VALUE) : list Z :=
  match v with
  | Qnil => [0]
  | Qfalse => [1]
  | Qtrue => [2]
  | Num n => [3; n]
  | Obj i => [4; i]
  | Proc i => [5; i]
  | Ary vs => 6 :: zlen vs :: (fix go vs := match vs with [] => [] | v :: vs => code v ++ go vs end) vs
  | Enumerator l sel => [7; Z.of_nat l; zlen (String.list_byte_of_string sel)]
  | Hash l => [8; Z.of_nat l]
  | RSet l => [9; Z.of_nat l]
  end.

#[global] Instance list_keys : CFKeys := {| key_of := code |}.

(** The list with the later bindings of a key dropped. *)
Fixpoint distinct (d : list (VALUE * VALUE)) : list (VALUE * VALUE) :=
  match d with
  | [] => []
  | (k, v) :: d => (k, v) :: filter (λ kv, key_of kv.1 ≠ key_of k) (distinct d)
  end.

Definition list_get (d : list (VALUE * VALUE)) (k : VALUE) : option VALUE :=
  snd <$> List.find (λ kv, bool_decide (key_of kv.1 = key_of k)) (distinct d).

Definition list_remove (d : list (VALUE * VALUE)) (k : VALUE) : list (VALUE * VALUE) :=
  filter (λ kv, key_of kv.1 ≠ key_of k) (distinct d).

Definition list_map (d : list (VALUE * VALUE)) : gmap cfkey VALUE := list_to_map (keyed (distinct d)).

#[global] Instance list_dictionary : CFMutableDictionary := {|
  cfdict := list (VALUE * VALUE);
  CFDictionaryCreateMutable := [];
  CFDictionaryCreateMutableCopy d := d;
  CFDictionaryGetCount d := zlen (distinct d);
  CFDictionaryGetKeysAndValues := distinct;
  CFDictionaryGetValueIfPresent := list_get;
  CFDictionaryContainsKey d k := bool_decide (is_Some (list_get d k));
  CFDictionaryContainsValue d v := existsb (λ kv, bool_decide (key_of kv.2 = key_of v)) (distinct d);
  CFDictionarySetValue d k v := (k, v) :: list_remove d k;
  CFDictionaryRemoveValue := list_remove;
  CFDictionaryRemoveAllValues _ := [];
  CFEqual d1 d2 := bool_decide (key_of <$> list_map d1 = key_of <$> list_map d2);
|}.

Lemma keyed_remove (l : list (VALUE * VALUE)) k :
  (list_to_map (keyed (filter (λ kv, key_of kv.1 ≠ key_of k) l)) : gmap cfkey VALUE) = delete (key_of k) (list_to_map (keyed l)).
Proof.
  induction l as [|[k' v'] l IH]; [cbn; by rewrite delete_empty|].
  rewrite filter_cons. cbn [fst]. change (keyed ((k', v') :: l)) with ((key_of k', v') :: keyed l). rewrite list_to_map_cons.
  case_decide as E.
  - rewrite delete_insert_ne by done. rewrite <- IH. done.
  - by rewrite IH, <- E, delete_insert_eq.
Qed.

Lemma distinct_nodup d : NoDup (keyed (distinct d)).*1.
Proof.
  assert (∀ l k, NoDup (keyed l).*1 → NoDup (keyed (filter (λ kv, key_of kv.1 ≠ key_of k) l)).*1 ∧
    key_of k ∉ (keyed (filter (λ kv, key_of kv.1 ≠ key_of k) l)).*1) as G.
  { intros l k Hl. unfold keyed in *. rewrite <- !list_fmap_compose in *. split.
    - eapply sublist_NoDup; [exact Hl|]. apply fmap_sublist, sublist_filter.
    - intros ([k' v'] & E & [Hk _]%list_elem_of_filter)%list_elem_of_fmap. cbn in *. done. }
  induction d as [|[k v] d IH]; [constructor|]. destruct (G _ k IH) as [G1 G2]. cbn. by constructor.
Qed.

Lemma distinct_id d : NoDup (keyed d).*1 → distinct d = d.
Proof.
  induction d as [|[k v] d IH]; [done|]. change (keyed ((k, v) :: d)) with ((key_of k, v) :: keyed d). rewrite fmap_cons.
  intros [Hk Hn]%NoDup_cons. cbn [distinct]. rewrite IH by done. f_equal.
  assert (∀ x, x ∈ d → key_of x.1 ≠ key_of k) as Hd.
  { intros [k' v'] Hx E. apply Hk. cbn [fst] in *. rewrite <- E. apply list_elem_of_fmap. exists (key_of k', v'). split; [done|]. by apply (keyed_elem k' v' d). }
  clear -Hd. induction d as [|x d IH]; [done|]. rewrite filter_cons_True by (apply Hd, list_elem_of_here). f_equal. apply IH.
  intros y Hy. by apply Hd, list_elem_of_further.
Qed.

Lemma list_get_map d k : list_get d k = list_map d !! key_of k.
Proof.
  unfold list_get, list_map. induction (distinct d) as [|[k' v'] l IH]; [done|]. cbn [List.find].
  change (keyed ((k', v') :: l)) with ((key_of k', v') :: keyed l). rewrite list_to_map_cons. cbn [fst]. case_bool_decide as E.
  - by rewrite E, lookup_insert_eq.
  - by rewrite lookup_insert_ne.
Qed.

Lemma list_remove_map d k : list_map (list_remove d k) = delete (key_of k) (list_map d).
Proof.
  unfold list_map. rewrite distinct_id; [apply keyed_remove|].
  pose proof (distinct_nodup d) as H. unfold keyed in *. rewrite <- !list_fmap_compose in *.
  eapply sublist_NoDup; [exact H|]. apply fmap_sublist, sublist_filter.
Qed.

#[global] Instance list_dictionary_laws : CFDictionaryLaws.
Proof.
  split.
  - apply distinct_nodup.
  - done.
  - apply list_get_map.
  - intros d k. cbn. apply bool_decide_ext. by rewrite list_get_map.
  - intros d v. cbn [CFDictionaryContainsValue list_dictionary]. rewrite existsb_exists. split.
    + intros ([k x] & Hin%list_elem_of_In & E%bool_decide_eq_true). exists (key_of k), x. split; [|done].
      apply elem_of_list_to_map; [apply distinct_nodup|by apply keyed_elem].
    + intros (c & x & Hx & E). apply elem_of_list_to_map in Hx; [|apply distinct_nodup].
      destruct (keyed_inv _ _ _ Hx) as (k & _ & Hk). exists (k, x). split; [by apply list_elem_of_In|]. by apply bool_decide_eq_true.
  - done.
  - done.
  - intros d k v. change (list_map ((k, v) :: list_remove d k) = <[key_of k := v]> (list_map d)).
    transitivity (<[key_of k := v]> (delete (key_of k) (list_map (list_remove d k)))).
    { unfold list_map at 1. cbn [distinct]. unfold list_map. rewrite <- keyed_remove. done. }
    rewrite list_remove_map, delete_delete_eq. apply insert_delete_eq.
  - apply list_remove_map.
  - done.
  - intros d1 d2. apply bool_decide_eq_true.
Qed.

(** ** Witnesses

    A program that keeps the arguments of the calls of its blocks. *)

#[local] Instance ex_runtime : HashRuntime (list (list VALUE)) := {|
  rb_equal v1 v2 := bool_decide (key_of v1 = key_of v2);
  rb_eql v1 v2 := bool_decide (key_of v1 = key_of v2);
  rb_safe_level := 0;
  call_yield _ _ := mret Qnil;
  to_hash_method _ := None;
  to_ary_method _ := None;
|}.

Definition ex_hash (kvs : list (VALUE * VALUE)) (fr : bool) : hash := mkHash _ kvs None fr false false.

Definition ex_world : world (list (list VALUE)) :=
  mkWorld _ _ [ex_hash [(Num 1, Num 10); (Num 2, Num 20)] false; ex_hash [(Num 2, Num 21); (Num 3, Num 30)] false; ex_hash [(Num 2, Obj 7)] true] None [].

Definition ex_ops : list hash_op :=
  [OpAset (Num 1) (Num 10); OpAref (Num 1); OpAref (Num 2); OpSize; OpFetch (Num 2) None; OpFreeze; OpDelete (Num 1); OpHasKey (Num 1)].

Lemma hash_trace_refines_witness :
  ∃ l w1, rb_hash_new2 [Obj 9] None ex_world = (Ok l, w1) ∧
    (run_ops l ex_ops w1).1 = [Ok (Num 10); Ok (Num 10); Ok (Obj 9); Ok (Num 1); Err (Raise KeyError); Ok Qnil; Err (Raise RuntimeError); Ok Qtrue].
Proof.
  destruct (hash_trace_refines ex_world (Obj 9) ex_ops) as (l & w1 & E & H & _). exists l, w1. split; [exact E|].
  rewrite H. vm_compute. reflexivity.
Defined.

(** Empties the first hash and breaks. *)
Definition ex_breaker : block (U := list (list VALUE)) := λ args w,
  (Ok Qnil, mkWorld _ _ (<[0%nat := ex_hash [] false]> (hashes w)) (Some Qnil) (user w ++ [args])).

Lemma hash_each_snapshot_witness :
  runs (rb_hash_each_pair 0 (Some ex_breaker)) ex_world (λ r w', r = Hash 0 ∧ user w' = [[Ary [Num 1; Num 10]]; [Ary [Num 2; Num 20]]]).
Proof.
  assert (logging_block user ex_breaker) as Hb by (intros args w; by eexists _, _).
  destruct (hash_each_snapshot user ex_breaker ex_world 0 (ex_hash [(Num 1, Num 10); (Num 2, Num 20)] false) eq_refl Hb) as (_ & _ & H & _).
  exact H.
Defined.

Definition ex_test (c : @cfkey list_keys) (v : VALUE) : bool := bool_decide (c = key_of (Num 2)).
Definition ex_tester : block (U := list (list VALUE)) := λ args,
  match args with [k; v] => mret (bool_value (ex_test (code k) v)) | _ => mret Qnil end.

Lemma hash_filters_correct_witness :
  runs (rb_hash_select 0 (Some ex_tester)) ex_world (λ r w', r = Hash 3 ∧ ∃ d, hashes w' = hashes ex_world ++ [ex_hash d false] ∧
    view d = keep ex_test (view (D := list_dictionary) [(Num 1, Num 10); (Num 2, Num 20)])).
Proof.
  assert (testing_block ex_test ex_tester) as Hb.
  { intros k v w. exists (bool_value (ex_test (code k) v)), w. split; [done|]. split; [done|]. unfold key_of, list_keys. by destruct (ex_test (code k) v). }
  destruct (hash_filters_correct ex_test ex_tester ex_world 0 (ex_hash [(Num 1, Num 10); (Num 2, Num 20)] false) eq_refl) as (_ & _ & H & _); [by split_and!; auto|done|].
  exact H.
Defined.

Definition ex_old (c : @cfkey list_keys) (o n : VALUE) : VALUE := o.
Definition ex_keeper : block (U := list (list VALUE)) := λ args, match args with [_; o; _] => mret o | _ => mret Qnil end.

Lemma hash_merge_correct_witness :
  runs (rb_hash_merge 0 (Hash 1) (Some ex_keeper)) ex_world (λ r w', r = Hash 3 ∧ ∃ d, hashes w' = hashes ex_world ++ [ex_hash d false] ∧
    view d !! [3; 1] = Some (Num 10) ∧ view d !! [3; 2] = Some (Num 20) ∧ view d !! [3; 3] = Some (Num 30)).
Proof.
  assert (merging_block ex_old ex_keeper) as Hb by (intros k o n w; by eexists _, _).
  destruct (hash_merge_correct ex_old ex_keeper ex_world 0 1 (ex_hash [(Num 1, Num 10); (Num 2, Num 20)] false) (ex_hash [(Num 2, Num 21); (Num 3, Num 30)] false) eq_refl eq_refl)
    as (_ & _ & _ & H & _); [by split_and!; auto|done|].
  destruct H as (r & w' & E & -> & d & Hd & Hv). eexists _, _. split; [exact E|]. split; [done|]. exists d. split; [exact Hd|].
  rewrite !Hv. split_and!; vm_compute; reflexivity.
Defined.

Lemma hash_invert_search_witness :
  rb_hash_key 0 (Num 20) ex_world = (Ok (Num 2), ex_world) ∧ rb_hash_rassoc 0 (Num 5) ex_world = (Ok Qnil, ex_world).
Proof.
  destruct (hash_invert_search ex_world 0 (ex_hash [(Num 1, Num 10); (Num 2, Num 20)] false) (Num 20) eq_refl) as (_ & _ & _ & H1 & _).
  destruct (hash_invert_search ex_world 0 (ex_hash [(Num 1, Num 10); (Num 2, Num 20)] false) (Num 5) eq_refl) as (_ & _ & _ & _ & _ & H2 & _).
  exact (conj H1 H2).
Defined.

Lemma hash_frozen_witness :
  rb_hash_aset 2 (Num 5) Qtrue ex_world = (Err (Raise RuntimeError), ex_world) ∧
  rb_hash_shift 2 None ex_world = (Err (Raise RuntimeError), ex_world).
Proof.
  destruct (hash_frozen ex_world 2 (ex_hash [(Num 2, Obj 7)] true) (Num 5) Qtrue ex_breaker 0 (ex_hash [(Num 1, Num 10); (Num 2, Num 20)] false) eq_refl (or_introl eq_refl) eq_refl)
    as (H & _ & _ & _ & _ & _ & _ & _ & Hs & _).
  split; [exact H|]. apply Hs. intros E%view_nil. discriminate E.
Defined.
