(* ===== verification/RubySet.v ===== *)
(** * set.c: sets

    A set of MacRuby is a CFMutableSet with the flags of the object.  The sets of CoreFoundation are
    an interface ([CFMutableSet]), and so are the [each] methods of other collections
    ([SetRuntime]).  [CFSetApplyFunction] calls a function on each value; what happens if the function
    changes the set meanwhile is undefined: each set counts its changes ([changes]), and
    the model faults when the count differs after a call. *)

From stdpp Require Import strings.
From S2P Require Import Prelude Value.
#[global] Open Scope Z_scope.

Class CFMutableSet := {
  cfset : Type;
  CFSetCreateMutable : cfset;
  CFSetCreateMutableCopy : cfset → cfset;
  CFSetGetCount : cfset → Z;
  CFSetGetValues : cfset → list VALUE;
  CFSetContainsValue : cfset → VALUE → bool;
  CFSetAddValue : cfset → VALUE → cfset;
  CFSetRemoveValue : cfset → VALUE → cfset;
  CFSetRemoveAllValues : cfset → cfset;
  CFSetEqual : cfset → cfset → bool;
}.

Record rset `{CFMutableSet} := mkSet {
  elts : cfset;
  changes : nat;
  set_frozen : bool;
  set_tainted : bool;
  set_immutable : bool;
}.

(** [outside] is the rest of the program. *)
Record sworld `{CFMutableSet} {U : Type} := mkSWorld {
  sets : list rset;
  outside : U;
}.
Arguments sworld {_} U.

(** [call_each v f] calls the method [each] of a value that is not a set with a block
    that runs [f].  [contains_object v x] is what [CFSetContainsValue] does with an object [v] that is not a set: it passes the
    question on to the object, which for an array is answered by [containsObject:]. *)
Class SetRuntime `{CFMutableSet} (U : Type) := {
  set_safe_level : Z;
  call_each : VALUE → (VALUE → cmd (sworld U) VALUE) → cmd (sworld U) VALUE;
  contains_object : VALUE → VALUE → cmd (sworld U) bool;
}.

Section set.
Context `{D : CFMutableSet} {U : Type} {RT : SetRuntime U}.
Local Notation M := (cmd (sworld U)).

Definition sblock : Type := VALUE → M VALUE.

Definition get_set (l : nat) : M rset := λ w,
  match sets w !! l with
  | Some s => (Ok s, w)
  | None => (Err BadPointer, w)
  end.

Definition put_set (l : nat) (s : rset) : M () := λ w, (Ok (), mkSWorld _ U (<[l := s]> (sets w)) (outside w)).
Definition new_set (s : rset) : M nat := λ w, (Ok (length (sets w)), mkSWorld _ U (sets w ++ [s]) (outside w)).

(** The calls that change a set. *)
Definition change (l : nat) (f : cfset → cfset) : M () :=
  s ← get_set l;
  put_set l (mkSet _ (f (elts s)) (S (changes s)) (set_frozen s) (set_tainted s) (set_immutable s)).
Definition add_value (l : nat) (v : VALUE) : M () := change l (λ e, CFSetAddValue e v).
Definition remove_value (l : nat) (v : VALUE) : M () := change l (λ e, CFSetRemoveValue e v).

Definition contains (l : nat) (v : VALUE) : M bool := s ← get_set l; mret (CFSetContainsValue (elts s) v).

Fixpoint apply_loop (l n : nat) (vs : list VALUE) (f : VALUE → M ()) : M () :=
  match vs with
  | [] => mret ()
  | v :: vs =>
      f v;;
      s ← get_set l;
      if bool_decide (changes s = n) then apply_loop l n vs f else fail BadPointer
  end.

Definition CFSetApplyFunction (l : nat) (f : VALUE → M ()) : M () :=
  s ← get_set l;
  apply_loop l (changes s) (CFSetGetValues (elts s)) f.

(** [CFSetContainsValue(other, v)] for an argument that is not checked to be a set. *)
Definition other_contains (other v : VALUE) : M bool :=
  match other with RSet l => contains l v | _ => contains_object other v end.

(** [each] of an array or another collection. *)
Fixpoint each_value (vs : list VALUE) (f : VALUE → M VALUE) : M VALUE :=
  match vs with
  | [] => mret Qnil
  | v :: vs => f v;; each_value vs f
  end.
Definition rb_block_call_each (v : VALUE) (f : VALUE → M VALUE) : M VALUE :=
  match v with
  | Ary vs => each_value vs f
  | _ => call_each v f
  end.

(** ** Operations *)

Definition rb_set_modify_check (l : nat) : M () :=
  s ← get_set l;
  if set_immutable s || set_frozen s then rb_raise RuntimeError else
  if set_tainted s && (4 <=? set_safe_level) then rb_raise SecurityError else
  mret ().

Definition set_alloc : M nat := new_set (mkSet _ CFSetCreateMutable 0 false false false).
Definition rb_set_new : M nat := set_alloc.

Definition rb_set_dup (l : nat) : M nat :=
  s ← get_set l;
  new_set (mkSet _ (CFSetCreateMutableCopy (elts s)) 0 false (set_tainted s) false).

Definition rb_set_clone (l : nat) : M nat :=
  clone ← rb_set_dup l;
  s ← get_set l;
  c ← get_set clone;
  (if set_frozen s then put_set clone (mkSet _ (elts c) (changes c) true (set_tainted c) (set_immutable c)) else mret ());;
  mret clone.

Fixpoint create_values (l : nat) (args : list VALUE) : M () :=
  match args with
  | [] => mret ()
  | v :: args => add_value l v;; create_values l args
  end.

Definition rb_set_s_create (args : list VALUE) : M nat :=
  l ← set_alloc;
  create_values l args;;
  mret l.

Definition rb_set_size (l : nat) : M VALUE := s ← get_set l; mret (Num (CFSetGetCount (elts s))).
Definition rb_set_empty_q (l : nat) : M VALUE := s ← get_set l; mret (if CFSetGetCount (elts s) =? 0 then Qtrue else Qnil).
Definition rb_set_include (l : nat) (v : VALUE) : M VALUE := b ← contains l v; mret (bool_value b).

Definition rb_set_intersect_callback (other : VALUE) (new : nat) (v : VALUE) : M () :=
  b ← other_contains other v;
  if b : bool then add_value new v else mret ().

Definition rb_set_intersect (l : nat) (other : VALUE) : M nat :=
  rb_set_modify_check l;;
  new ← rb_set_new;
  CFSetApplyFunction l (rb_set_intersect_callback other new);;
  mret new.

Definition rb_set_union_callback (l : nat) (v : VALUE) : M () :=
  b ← contains l v;
  if b : bool then mret () else add_value l v.

Definition merge_i (l : nat) (v : VALUE) : M VALUE :=
  b ← contains l v;
  (if b : bool then mret () else add_value l v);;
  mret Qnil.

Definition rb_set_merge (l : nat) (other : VALUE) : M nat :=
  rb_set_modify_check l;;
  match other with
  | RSet o => CFSetApplyFunction o (rb_set_union_callback l);; mret l
  | _ => rb_block_call_each other (merge_i l);; mret l
  end.

Definition rb_set_union (l : nat) (other : VALUE) : M nat :=
  new ← rb_set_dup l;
  rb_set_merge new other.

Definition rb_set_subtract_callback (other : VALUE) (new : nat) (v : VALUE) : M () :=
  b ← other_contains other v;
  if b : bool then remove_value new v else mret ().

Definition rb_set_subtract (l : nat) (other : VALUE) : M nat :=
  new ← rb_set_dup l;
  CFSetApplyFunction l (rb_set_subtract_callback other new);;
  mret new.

Definition rb_set_add (l : nat) (v : VALUE) : M VALUE :=
  rb_set_modify_check l;;
  add_value l v;;
  mret (RSet l).

Definition rb_set_add2 (l : nat) (v : VALUE) : M VALUE :=
  rb_set_modify_check l;;
  b ← contains l v;
  if b : bool then mret Qnil else add_value l v;; mret (RSet l).

Definition rb_set_clear (l : nat) : M VALUE :=
  rb_set_modify_check l;;
  change l CFSetRemoveAllValues;;
  mret (RSet l).

Definition rb_set_delete (l : nat) (v : VALUE) : M VALUE :=
  rb_set_modify_check l;;
  remove_value l v;;
  mret (RSet l).

Definition rb_set_delete2 (l : nat) (v : VALUE) : M VALUE :=
  rb_set_modify_check l;;
  b ← contains l v;
  if b : bool then remove_value l v;; mret (RSet l) else mret Qnil.

(** [*acted] is a cell of the caller: the callback returns what it stores there. *)
Definition rb_set_delete_if_callback (l : nat) (b : sblock) (v : VALUE) (acted : bool) : M bool :=
  r ← b v;
  match r with
  | Qtrue => rb_set_delete l v;; mret true
  | _ => mret acted
  end.

Fixpoint set_delete_if_loop (l new n : nat) (b : sblock) (vs : list VALUE) (acted : bool) : M bool :=
  match vs with
  | [] => mret acted
  | v :: vs =>
      acted ← rb_set_delete_if_callback l b v acted;
      s ← get_set new;
      if bool_decide (changes s = n) then set_delete_if_loop l new n b vs acted else fail BadPointer
  end.

Definition delete_if_apply (l : nat) (b : sblock) : M bool :=
  rb_set_modify_check l;;
  new ← rb_set_dup l;
  s ← get_set new;
  set_delete_if_loop l new (changes s) b (CFSetGetValues (elts s)) false.

Definition rb_set_delete_if (l : nat) (b : sblock) : M VALUE :=
  delete_if_apply l b;;
  mret (RSet l).

Definition rb_set_reject_bang (l : nat) (b : sblock) : M VALUE :=
  acted ← delete_if_apply l b;
  mret (if acted : bool then RSet l else Qnil).

Definition rb_set_each (l : nat) (blk : option sblock) : M VALUE :=
  match blk with
  | None => mret (Enumerator l "each"%string)
  | Some b => CFSetApplyFunction l (λ v, b v;; mret ());; mret Qnil
  end.

Definition rb_set_to_a (l : nat) : M (list VALUE) := s ← get_set l; mret (CFSetGetValues (elts s)).

Definition rb_set_equal (l : nat) (other : VALUE) : M bool :=
  match other with
  | RSet o => s ← get_set l; s2 ← get_set o; mret (CFSetEqual (elts s) (elts s2))
  | _ => mret false
  end.

(** [blk] is the block of [Set.new], called on each value first. *)
Definition initialize_i (l : nat) (blk : option sblock) (v : VALUE) : M VALUE :=
  v ← (match blk with Some b => b v | None => mret v end);
  rb_set_add l v;;
  mret Qnil.

Definition rb_set_initialize (l : nat) (args : list VALUE) (blk : option sblock) : M VALUE :=
  match args with
  | [] => mret (RSet l)
  | [v] => (if NIL_P v then mret Qnil else
            match v with
            | RSet o => CFSetApplyFunction o (λ v, initialize_i l blk v;; mret ());; mret Qnil
            | _ => rb_block_call_each v (initialize_i l blk)
            end);; mret (RSet l)
  | _ => rb_raise ArgumentError
  end.
End set.
