(* ===== verification/RubySetThm.v ===== *)
(** * set.c: the theorems

    What the sets of CoreFoundation promise ([CFSetLaws]), and that the methods of set.c compute
    the operations on finite sets of keys. *)

From stdpp Require Import strings.
From S2P Require Import Prelude Value RubySet.
#[global] Open Scope Z_scope.

Section members.
Context `{D : CFMutableSet} `{K : CFKeys}.
Definition members (e : cfset) : gset cfkey := list_to_set (key_of <$> CFSetGetValues e).
End members.

Class CFSetLaws `{D : CFMutableSet} `{K : CFKeys} : Prop := {
  cs_nodup e : NoDup (key_of <$> CFSetGetValues e);
  cs_count e : CFSetGetCount e = zlen (CFSetGetValues e);
  cs_contains e v : CFSetContainsValue e v = bool_decide (key_of v ∈ members e);
  cs_create : members CFSetCreateMutable = ∅;
  cs_copy e : members (CFSetCreateMutableCopy e) = members e;
  cs_add e v : members (CFSetAddValue e v) = members e ∪ {[key_of v]};
  cs_remove e v : members (CFSetRemoveValue e v) = members e ∖ {[key_of v]};
  cs_remove_all e : members (CFSetRemoveAllValues e) = ∅;
  cs_equal e1 e2 : CFSetEqual e1 e2 = true ↔ members e1 = members e2;
}.

Section theorems.
Context `{L : CFSetLaws} {U : Type} {RT : SetRuntime U}.
Implicit Types (w : sworld U) (s t : rset) (l o : nat) (v : VALUE).

Definition smodifiable s : Prop := set_immutable s = false ∧ set_frozen s = false ∧ (set_tainted s = false ∨ set_safe_level < 4).

(** [s] with other elements. *)
Definition same_flags s s' : Prop :=
  set_frozen s' = set_frozen s ∧ set_tainted s' = set_tainted s ∧ set_immutable s' = set_immutable s.

Lemma smodifiable_flags s s' : same_flags s s' → smodifiable s → smodifiable s'.
Proof. unfold smodifiable. by intros (-> & -> & ->). Qed.

Definition put w l s : sworld U := mkSWorld _ U (<[l := s]> (sets w)) (outside w).

Lemma get_set_run w l s : sets w !! l = Some s → get_set l w = (Ok s, w).
Proof. unfold get_set. by intros ->. Qed.

Lemma contains_run w l s v : sets w !! l = Some s → contains l v w = (Ok (bool_decide (key_of v ∈ members (elts s))), w).
Proof. intros H. unfold contains. by rewrite (bind_run _ _ _ _ _ (get_set_run _ _ _ H)), cs_contains. Qed.

Lemma scheck_run w l s : sets w !! l = Some s → smodifiable s → rb_set_modify_check l w = (Ok (), w).
Proof.
  intros H (Hi & Hf & Ht). unfold rb_set_modify_check. rewrite (bind_run _ _ _ _ _ (get_set_run _ _ _ H)), Hi, Hf. cbn [orb].
  destruct Ht as [->|Ht]; [done|]. by rewrite (proj2 (Z.leb_gt _ _)), andb_false_r.
Qed.

Lemma scheck_frozen w l s : sets w !! l = Some s → set_frozen s = true ∨ set_immutable s = true →
  rb_set_modify_check l w = (Err (Raise RuntimeError), w).
Proof.
  intros H Hf. unfold rb_set_modify_check. rewrite (bind_run _ _ _ _ _ (get_set_run _ _ _ H)).
  by destruct Hf as [->| ->]; rewrite ?orb_true_r.
Qed.

(** A command that changes the set at [l] to one with the members [m]. *)
Definition becomes w l s (m : gset cfkey) w' : Prop :=
  ∃ s', sets w' = <[l := s']> (sets w) ∧ members (elts s') = m ∧ same_flags s s'.

Lemma add_run w l s v : sets w !! l = Some s →
  runs (add_value l v) w (λ _ w', becomes w l s (members (elts s) ∪ {[key_of v]}) w').
Proof.
  intros H. unfold add_value, change. eapply runs_eq; [by apply get_set_run|]. eexists _, _. split; [done|].
  eexists. split; [done|]. cbn. split; [apply cs_add|done].
Qed.

Lemma remove_run w l s v : sets w !! l = Some s →
  runs (remove_value l v) w (λ _ w', becomes w l s (members (elts s) ∖ {[key_of v]}) w').
Proof.
  intros H. unfold remove_value, change. eapply runs_eq; [by apply get_set_run|]. eexists _, _. split; [done|].
  eexists. split; [done|]. cbn. split; [apply cs_remove|done].
Qed.

Lemma becomes_id w l s : sets w !! l = Some s → becomes w l s (members (elts s)) w.
Proof. intros H. exists s. by rewrite list_insert_id. Qed.

Lemma becomes_lookup w l s m w' : sets w !! l = Some s → becomes w l s m w' →
  ∃ s', sets w' !! l = Some s' ∧ members (elts s') = m ∧ same_flags s s'.
Proof. intros H (s' & E & Hm & Hf). exists s'. rewrite E. split; [|done]. apply list_lookup_insert_eq. by eapply lookup_lt_Some. Qed.

Lemma becomes_other w l s m w' o : becomes w l s m w' → o ≠ l → sets w' !! o = sets w !! o.
Proof. intros (s' & -> & _) Hne. by rewrite list_lookup_insert_ne. Qed.

Lemma becomes_trans w l s m w1 s1 m2 w2 : becomes w l s m w1 → sets w1 !! l = Some s1 → same_flags s s1 → becomes w1 l s1 m2 w2 → becomes w l s m2 w2.
Proof.
  intros (s' & E & _) H1 Hf (s2 & E2 & Hm & Hf2). exists s2. rewrite E2, E, list_insert_insert_eq. split_and!; [done|done|].
  unfold same_flags in *. intuition congruence.
Qed.

(** ** Enumeration *)

Lemma apply_inv (f : VALUE → cmd (sworld U) ()) (I : list VALUE → sworld U → Prop) w l s :
  sets w !! l = Some s → I [] w →
  (∀ pre v post w', CFSetGetValues (elts s) = pre ++ v :: post → I pre w' →
     runs (f v) w' (λ _ w2, I (pre ++ [v]) w2 ∧ ∃ s2, sets w2 !! l = Some s2 ∧ changes s2 = changes s)) →
  runs (CFSetApplyFunction l f) w (λ _ w', I (CFSetGetValues (elts s)) w').
Proof.
  intros H HI Hf. unfold CFSetApplyFunction. eapply runs_eq; [by apply get_set_run|].
  assert (∀ post pre w', CFSetGetValues (elts s) = pre ++ post → I pre w' →
    runs (apply_loop l (changes s) post f) w' (λ _ w', I (CFSetGetValues (elts s)) w')) as G.
  { induction post as [|v post IH]; intros pre w' E HI'.
    - rewrite app_nil_r in E. rewrite E in *. by apply runs_ret.
    - cbn [apply_loop]. eapply runs_bind; [by eapply Hf|]. intros [] w2 [HI2 (s2 & Hs2 & Hc)].
      eapply runs_eq; [by apply get_set_run|]. rewrite bool_decide_true by done.
      apply (IH (pre ++ [v])); [by rewrite <- app_assoc|done]. }
  by apply (G _ []).
Qed.

Definition seen (vs : list VALUE) : gset cfkey := list_to_set (key_of <$> vs).

Lemma seen_app vs v : seen (vs ++ [v]) = seen vs ∪ {[key_of v]}.
Proof. unfold seen. rewrite fmap_app, list_to_set_app_L. cbn. by rewrite (right_id_L ∅ (∪)). Qed.

Lemma seen_elem e pre v post : CFSetGetValues e = pre ++ v :: post → key_of v ∈ members e.
Proof. intros E. unfold members. rewrite E, elem_of_list_to_set, fmap_app. cbn. set_solver. Qed.

(** ** Copies and results *)

Definition appended w s' w' : Prop := sets w' = sets w ++ [s'].

Lemma sdup_run w l s : sets w !! l = Some s →
  rb_set_dup l w = (Ok (length (sets w)), mkSWorld _ U (sets w ++ [mkSet _ (CFSetCreateMutableCopy (elts s)) 0 false (set_tainted s) false]) (outside w)).
Proof. intros H. unfold rb_set_dup. by rewrite (bind_run _ _ _ _ _ (get_set_run _ _ _ H)). Qed.

Lemma becomes_appended w w1 w2 s1 m : sets w1 = sets w ++ [s1] → becomes w1 (length (sets w)) s1 m w2 →
  ∃ s2, sets w2 = sets w ++ [s2] ∧ members (elts s2) = m ∧ same_flags s1 s2.
Proof. intros E (s2 & E2 & Hm & Hf). exists s2. rewrite E2, E, insert_app_r_alt, Nat.sub_diag by done. done. Qed.

(** Union into the set at [l] of the values of the set at [o], possibly the same. *)
Lemma merge_set_runs w l o s t : sets w !! l = Some s → sets w !! o = Some t → smodifiable s →
  runs (rb_set_merge l (RSet o)) w (λ r w', r = l ∧ becomes w l s (members (elts s) ∪ members (elts t)) w').
Proof.
  intros H Ho Hm. unfold rb_set_merge. eapply runs_eq; [by eapply scheck_run|].
  eapply (runs_bind _ _ _ (λ _ w', becomes w l s (members (elts s) ∪ members (elts t)) w')); [|intros [] w' E; by apply runs_ret].
  eapply runs_mono.
  { apply (apply_inv _ (λ pre w', becomes w l s (members (elts s) ∪ seen pre) w' ∧ (l = o → sets w' = sets w)) w o t Ho).
    - split; [|done]. unfold seen. cbn. rewrite (right_id_L ∅ (∪)). by apply becomes_id.
    - intros pre v post w' E [HI Hsame]. destruct (becomes_lookup _ _ _ _ _ H HI) as (s1 & H1 & Hm1 & Hf1).
      unfold rb_set_union_callback. eapply runs_eq; [by apply contains_run|]. rewrite Hm1, seen_app.
      case_bool_decide as Hin.
      + apply runs_ret. assert (members (elts s) ∪ (seen pre ∪ {[key_of v]}) = members (elts s) ∪ seen pre) as -> by set_solver.
        split; [done|]. destruct (decide (o = l)) as [->|Hne]; [rewrite (Hsame eq_refl); by exists t|].
        exists t. by rewrite (becomes_other _ _ _ _ _ _ HI Hne).
      + destruct (decide (o = l)) as [->|Hne].
        { simplify_eq. exfalso. apply Hin. apply elem_of_union_l. by eapply seen_elem. }
        eapply runs_mono; [by apply add_run|]. intros [] w2 H2. split.
        * split; [|done]. rewrite Hm1 in H2. rewrite assoc_L by apply _. by eapply becomes_trans.
        * exists t. by rewrite (becomes_other _ _ _ _ _ _ H2 Hne), (becomes_other _ _ _ _ _ _ HI Hne). }
  intros [] w' [HI _]. exact HI.
Qed.

Lemma merge_ary_runs w l s vs : sets w !! l = Some s → smodifiable s →
  runs (rb_set_merge l (Ary vs)) w (λ r w', r = l ∧ becomes w l s (members (elts s) ∪ seen vs) w').
Proof.
  intros H Hm. unfold rb_set_merge. eapply runs_eq; [by eapply scheck_run|]. cbn [rb_block_call_each].
  eapply (runs_bind _ _ _ (λ _ w', becomes w l s (members (elts s) ∪ seen vs) w')); [|intros ? w' E; by apply runs_ret].
  clear Hm. assert (∀ post w' m, becomes w l s m w' → runs (each_value post (merge_i l)) w' (λ _ w', becomes w l s (m ∪ seen post) w')) as G.
  { induction post as [|v post IH]; intros w' m HI.
    - apply runs_ret. unfold seen. cbn. by rewrite (right_id_L ∅ (∪)).
    - destruct (becomes_lookup _ _ _ _ _ H HI) as (s1 & H1 & Hm1 & Hf1). cbn [each_value]. unfold merge_i at 1.
      eapply (runs_bind _ _ _ (λ _ w2, becomes w l s (m ∪ {[key_of v]}) w2)).
      + eapply runs_eq; [by apply contains_run|]. rewrite Hm1. case_bool_decide as Hin.
        * eapply runs_eq; [done|]. apply runs_ret. assert (m ∪ {[key_of v]} = m) as -> by set_solver. done.
        * eapply runs_bind; [by apply add_run|]. intros [] w2 H2. apply runs_ret. rewrite Hm1 in H2. by eapply becomes_trans.
      + intros ? w2 H2. eapply runs_mono; [by apply IH|]. intros ? w3. unfold seen. cbn. by rewrite assoc_L by apply _. }
  eapply runs_mono; [by apply (G vs w (members (elts s))), becomes_id|done].
Qed.

Lemma before_new w l s (s0 : rset) : sets w !! l = Some s → (sets w ++ [s0]) !! l = Some s ∧ l ≠ length (sets w).
Proof. intros H. split; [by apply lookup_app_l_Some|]. apply lookup_lt_Some in H. lia. Qed.

(** [other] is a set with the keys [m], or an object that says of every value whether its key is in [m]. *)
Definition has_keys w (other : VALUE) (m : gset cfkey) : Prop :=
  match other with
  | RSet o => ∃ t, sets w !! o = Some t ∧ m = members (elts t)
  | _ => ∀ v w', contains_object other v w' = (Ok (bool_decide (key_of v ∈ m)), w')
  end.

(** A loop over the set at [l] that changes only the new set [n] by a step on its members. *)
Lemma into_new_runs w l s s0 other mo (step : bool → cfkey → gset cfkey → gset cfkey) (hit : VALUE → cmd (sworld U) ()) (goal : list VALUE → gset cfkey) :
  let n := length (sets w) in
  let w1 := mkSWorld _ U (sets w ++ [s0]) (outside w) in
  sets w !! l = Some s → has_keys w other mo →
  goal [] = members (elts s0) →
  (∀ pre v post, CFSetGetValues (elts s) = pre ++ v :: post → goal (pre ++ [v]) = step (bool_decide (key_of v ∈ mo)) (key_of v) (goal pre)) →
  (∀ c m, step false c m = m) →
  (∀ v w' s', sets w' !! n = Some s' → runs (hit v) w' (λ _ w2, becomes w' n s' (step true (key_of v) (members (elts s'))) w2)) →
  runs (CFSetApplyFunction l (λ v, b ← other_contains other v; if b : bool then hit v else mret ())) w1
    (λ _ w', ∃ s', appended w s' w' ∧ members (elts s') = goal (CFSetGetValues (elts s))).
Proof.
  intros n w1 H0 Ho Hg Hstep Hfalse Hhit. destruct (before_new w l s s0 H0) as [H Hln].
  assert (sets w1 !! n = Some s0) as Hn by (cbn; by rewrite lookup_app_r, Nat.sub_diag).
  assert (∀ m w', becomes w1 n s0 m w' → ∀ v, other_contains other v w' = (Ok (bool_decide (key_of v ∈ mo)), w')) as Hask.
  { intros m w' HI v. destruct other as [| | |n0|i0|i0|vs0|r0 s1|h0|o]; try apply Ho. destruct Ho as (t & Ht & ->). destruct (before_new w o t s0 Ht) as [Ht' Hne].
    apply contains_run. by rewrite (becomes_other _ _ _ _ _ _ HI Hne). }
  eapply runs_mono.
  - apply (apply_inv _ (λ pre w', becomes w1 n s0 (goal pre) w') w1 l s H); [rewrite Hg; by apply becomes_id|].
    intros pre v post w' E HI. destruct (becomes_lookup _ _ _ _ _ Hn HI) as (s1 & H1 & Hm1 & Hf1).
    eapply runs_eq; [by eapply Hask|]. rewrite (Hstep _ _ _ E). case_bool_decide.
    + eapply runs_mono; [by apply Hhit|]. intros [] w2 Hw2. rewrite Hm1 in Hw2. split; [by eapply becomes_trans|].
      exists s. by rewrite (becomes_other _ _ _ _ _ _ Hw2 Hln), (becomes_other _ _ _ _ _ _ HI Hln).
    + apply runs_ret. rewrite Hfalse. split; [done|]. exists s. by rewrite (becomes_other _ _ _ _ _ _ HI Hln).
  - intros [] w' Hb. destruct (becomes_appended w w1 w' s0 _ eq_refl Hb) as (s2 & E & Hm2 & _). by exists s2.
Qed.

Lemma intersect_runs w l other mo s : sets w !! l = Some s → has_keys w other mo → smodifiable s →
  runs (rb_set_intersect l other) w (λ r w', r = length (sets w) ∧ ∃ s', appended w s' w' ∧ members (elts s') = members (elts s) ∩ mo).
Proof.
  intros H Ho Hm. unfold rb_set_intersect. eapply runs_eq; [by eapply scheck_run|].
  set (s0 := mkSet _ CFSetCreateMutable 0 false false false). eapply (runs_eq _ _ _ (length (sets w)) (mkSWorld _ U (sets w ++ [s0]) (outside w))); [done|].
  eapply runs_bind.
  - apply (into_new_runs w l s s0 other mo (λ b c m, if b then m ∪ {[c]} else m) (add_value (length (sets w))) (λ vs, seen vs ∩ mo)
      H Ho); [cbn; rewrite cs_create; set_solver| |done|].
    + intros pre v post _. rewrite seen_app. case_bool_decide; set_solver.
    + intros v w' s' Hs'. by apply add_run.
  - intros [] w' Hb. by apply runs_ret.
Qed.

Lemma subtract_runs w l other mo s : sets w !! l = Some s → has_keys w other mo →
  runs (rb_set_subtract l other) w (λ r w', r = length (sets w) ∧ ∃ s', appended w s' w' ∧ members (elts s') = members (elts s) ∖ mo).
Proof.
  intros H Ho. unfold rb_set_subtract. eapply runs_eq; [by apply sdup_run|].
  set (s0 := mkSet _ (CFSetCreateMutableCopy (elts s)) 0 false (set_tainted s) false).
  eapply runs_bind.
  - apply (into_new_runs w l s s0 other mo (λ b c m, if b then m ∖ {[c]} else m) (remove_value (length (sets w)))
      (λ vs, members (elts s) ∖ (seen vs ∩ mo)) H Ho); [cbn; rewrite cs_copy; set_solver| |done|].
    + intros pre v post _. rewrite seen_app. apply set_eq. intros c.
      case_bool_decide; rewrite ?elem_of_difference, !elem_of_intersection, elem_of_union, elem_of_singleton; destruct (decide (c = key_of v)) as [->|]; tauto.
    + intros v w' s' Hs'. by apply remove_run.
  - intros [] w' (s2 & E & Hm2). apply runs_ret. split; [done|]. exists s2.
    split; [done|]. rewrite Hm2. change (seen (CFSetGetValues (elts s))) with (members (elts s)). set_solver.
Qed.

(** An empty set asks nothing of the argument. *)
Lemma empty_apply w l s f : sets w !! l = Some s → members (elts s) = ∅ → CFSetApplyFunction l f w = (Ok (), w).
Proof.
  intros H He. unfold CFSetApplyFunction. rewrite (bind_run _ _ _ _ _ (get_set_run _ _ _ H)).
  destruct (CFSetGetValues (elts s)) as [|v vs] eqn:Ev; [done|]. assert (key_of v ∈ members (elts s)) as Hv by by eapply (seen_elem _ []). set_solver.
Qed.

Lemma intersect_empty_runs w l s other : sets w !! l = Some s → smodifiable s → members (elts s) = ∅ →
  runs (rb_set_intersect l other) w (λ r w', r = length (sets w) ∧ ∃ s', appended w s' w' ∧ members (elts s') = ∅).
Proof.
  intros H Hm He. unfold rb_set_intersect. eapply runs_eq; [by eapply scheck_run|].
  set (s0 := mkSet _ CFSetCreateMutable 0 false false false). set (w1 := mkSWorld _ U (sets w ++ [s0]) (outside w)).
  eapply (runs_eq _ _ _ (length (sets w)) w1); [done|]. eapply runs_eq; [apply (empty_apply w1 l s); [by apply before_new|done]|].
  apply runs_ret. split; [done|]. exists s0. split; [done|]. apply cs_create.
Qed.

(** C31: [&] and [-] compute in a new set the intersection and the difference of the receiver with the keys of the argument, which is a
    set, possibly the receiver itself, or any object that answers whether it has a value, such as an array; an empty receiver does not ask.  [|] and [merge] compute the union with a
    set, [|] in a new set and [merge] in the receiver, and [merge] also that with an array.  The sets that are not the result stay as they
    were.  [&] refuses a frozen receiver although it only reads it. *)
Theorem set_algebra_correct w l o s t vs other mo :
  sets w !! l = Some s → sets w !! o = Some t → smodifiable s → has_keys w other mo →
  runs (rb_set_intersect l other) w (λ r w', r = length (sets w) ∧ ∃ s', appended w s' w' ∧ members (elts s') = members (elts s) ∩ mo) ∧
  runs (rb_set_subtract l other) w (λ r w', r = length (sets w) ∧ ∃ s', appended w s' w' ∧ members (elts s') = members (elts s) ∖ mo) ∧
  runs (rb_set_union l (RSet o)) w (λ r w', r = length (sets w) ∧ ∃ s', appended w s' w' ∧ members (elts s') = members (elts s) ∪ members (elts t)) ∧
  runs (rb_set_merge l (RSet o)) w (λ r w', r = l ∧ becomes w l s (members (elts s) ∪ members (elts t)) w') ∧
  runs (rb_set_merge l (Ary vs)) w (λ r w', r = l ∧ becomes w l s (members (elts s) ∪ seen vs) w') ∧
  (∀ any, members (elts s) = ∅ →
     runs (rb_set_intersect l any) w (λ r w', r = length (sets w) ∧ ∃ s', appended w s' w' ∧ members (elts s') = ∅)) ∧
  (∀ f any w2, sets w2 !! f = Some (mkSet _ (elts s) 0 true false false) → rb_set_intersect f any w2 = (Err (Raise RuntimeError), w2)).
Proof.
  intros H Ho Hm Hk. split_and!; [by apply intersect_runs|by apply subtract_runs| |by apply merge_set_runs|by apply merge_ary_runs| |].
  - unfold rb_set_union. eapply runs_eq; [by apply sdup_run|].
    set (s0 := mkSet _ (CFSetCreateMutableCopy (elts s)) 0 false (set_tainted s) false). set (w1 := mkSWorld _ U (sets w ++ [s0]) (outside w)).
    assert (sets w1 !! length (sets w) = Some s0) as H0 by (cbn; by rewrite lookup_app_r, Nat.sub_diag).
    eapply runs_mono; [apply (merge_set_runs w1 (length (sets w)) o s0 t H0); [by apply before_new|]|].
    + destruct Hm as (_ & _ & Ht). by split_and!.
    + intros r w' [-> Hb]. split; [done|]. destruct (becomes_appended w w1 w' s0 _ eq_refl Hb) as (s2 & E & Hm2 & _). exists s2. split; [done|].
      rewrite Hm2. cbn. by rewrite cs_copy.
  - intros any He. by eapply intersect_empty_runs.
  - intros f any w2 Hf. unfold rb_set_intersect. eapply bind_err, scheck_frozen; [done|by left].
Qed.

(** ** Filters *)

(** A block that leaves the sets alone; [p] holds where it returns the object [true]. *)
Definition true_block (p : cfkey → bool) (b : sblock) : Prop :=
  ∀ v w, runs (b v) w (λ r w', sets w' = sets w ∧ (r = Qtrue ↔ p (key_of v) = true)).

Definition passing (p : cfkey → bool) (m : gset cfkey) : gset cfkey := filter (λ c, p c = true) m.

Lemma delete_run w l s v : sets w !! l = Some s → smodifiable s →
  runs (rb_set_delete l v) w (λ r w', r = RSet l ∧ becomes w l s (members (elts s) ∖ {[key_of v]}) w').
Proof.
  intros H Hm. unfold rb_set_delete. eapply runs_eq; [by eapply scheck_run|].
  eapply runs_bind; [by apply remove_run|]. intros [] w' E. by apply runs_ret.
Qed.

Lemma callback_runs p b w l s v acted : sets w !! l = Some s → smodifiable s → true_block p b →
  runs (rb_set_delete_if_callback l b v acted) w (λ r w', r = p (key_of v) || acted ∧
    becomes w l s (if p (key_of v) then members (elts s) ∖ {[key_of v]} else members (elts s)) w').
Proof.
  intros H Hm Hb. unfold rb_set_delete_if_callback. eapply runs_bind; [apply Hb|]. intros r w1 [Hs Hr].
  destruct (p (key_of v)) eqn:Ep.
  - rewrite (proj2 Hr eq_refl). eapply runs_bind; [apply delete_run; [by rewrite Hs|done]|].
    intros ? w' [_ (s' & E & Hm' & Hf)]. apply runs_ret. split; [done|]. exists s'. by rewrite E, Hs.
  - assert (becomes w l s (members (elts s)) w1) as Hw1 by (exists s; rewrite Hs; by rewrite list_insert_id).
    destruct r; try (by apply runs_ret). discriminate (proj1 Hr eq_refl).
Qed.

Lemma delete_if_loop_runs p b w1 l n s c vs acted : sets w1 !! l = Some s → smodifiable s → l ≠ n → sets w1 !! n = Some c → true_block p b →
  runs (set_delete_if_loop l n (changes c) b vs acted) w1 (λ r w', r = existsb (λ v, p (key_of v)) vs || acted ∧
    becomes w1 l s (members (elts s) ∖ passing p (seen vs)) w').
Proof.
  intros H Hm Hne Hn Hb. revert w1 s acted H Hm Hn. induction vs as [|v vs IH]; intros w1 s acted H Hm Hn.
  - apply runs_ret. split; [done|]. 
    assert (members (elts s) ∖ passing p (seen []) = members (elts s)) as -> by (unfold passing, seen; cbn; set_solver). by apply becomes_id.
  - cbn [set_delete_if_loop existsb]. eapply runs_bind; [by apply callback_runs|]. intros r w2 [-> Hw2]. cbn beta in Hw2.
    eapply runs_eq; [apply (get_set_run _ _ c); by rewrite (becomes_other _ _ _ _ _ _ Hw2) by done|]. rewrite bool_decide_true by done.
    destruct (becomes_lookup _ _ _ _ _ H Hw2) as (s2 & H2' & Hm2 & Hf2).
    eapply runs_mono; [apply (IH w2 s2); [done|by eapply smodifiable_flags|by rewrite (becomes_other _ _ _ _ _ _ Hw2) by done]|].
    intros r w3 [-> Hw3]. split; [by destruct (p (key_of v)), (existsb _ vs)|]. rewrite Hm2 in Hw3.
    assert (members (elts s) ∖ passing p (seen (v :: vs)) =
      (if p (key_of v) then members (elts s) ∖ {[key_of v]} else members (elts s)) ∖ passing p (seen vs)) as ->; [|by eapply becomes_trans].
    apply set_eq. intros x. unfold passing, seen. cbn. rewrite !elem_of_difference, !elem_of_filter, elem_of_union, elem_of_singleton.
    destruct (p (key_of v)) eqn:Ep; rewrite ?elem_of_difference, ?elem_of_singleton; destruct (decide (x = key_of v)) as [->|]; rewrite ?Ep; intuition congruence.
Qed.

Lemma delete_if_apply_runs p b w l s : sets w !! l = Some s → smodifiable s → true_block p b →
  runs (delete_if_apply l b) w (λ r w', (r = true ↔ passing p (members (elts s)) ≠ ∅) ∧ ∃ s' c, sets w' = <[l := s']> (sets w) ++ [c] ∧
    members (elts s') = members (elts s) ∖ passing p (members (elts s)) ∧ same_flags s s').
Proof.
  intros H Hm Hb. unfold delete_if_apply. eapply runs_eq; [by eapply scheck_run|]. eapply runs_eq; [by apply sdup_run|].
  set (s0 := mkSet _ (CFSetCreateMutableCopy (elts s)) 0 false (set_tainted s) false). set (w1 := mkSWorld _ U (sets w ++ [s0]) (outside w)).
  assert (sets w1 !! length (sets w) = Some s0) as H0 by (cbn; by rewrite lookup_app_r, Nat.sub_diag).
  destruct (before_new w l s s0 H) as [H' Hl].
  eapply runs_eq; [by apply get_set_run|]. eapply runs_mono; [by apply (delete_if_loop_runs p b w1 l (length (sets w)) s s0)|].
  intros r w' [-> (s' & E & Hm' & Hf)]. change (seen (CFSetGetValues (elts s0))) with (members (CFSetCreateMutableCopy (elts s))) in Hm'.
  rewrite cs_copy in Hm'. split; [|exists s', s0; split; [|done]].
  - rewrite orb_false_r, existsb_exists. rewrite <- (cs_copy (elts s)). split.
    + intros (v & Hv%list_elem_of_In & Hp) Hemp. assert (key_of v ∈ passing p (members (CFSetCreateMutableCopy (elts s)))) as Hin; [|by rewrite Hemp in Hin].
      apply elem_of_filter. split; [done|]. apply elem_of_list_to_set, list_elem_of_fmap. by exists v.
    + intros [c (Hp & Hc)%elem_of_filter]%set_choose_L. apply elem_of_list_to_set, list_elem_of_fmap in Hc as (v & -> & Hv).
      exists v. split; [by apply list_elem_of_In|done].
  - rewrite E. cbn. by rewrite insert_app_l by (by eapply lookup_lt_Some).
Qed.

(** [delete_if] and [reject!] remove exactly the elements for which the block returns the object [true], by
    deleting from the set while they enumerate a copy of it, and leave every other set as it was; other true values do not count.  [reject!] returns nil
    exactly if nothing was removed.  Deleting from the set that [each] enumerates is an error of the program. *)
Theorem set_delete_if_correct p b w l s :
  sets w !! l = Some s → smodifiable s → true_block p b →
  runs (rb_set_delete_if l b) w (λ r w', r = RSet l ∧ ∃ s' c, sets w' = <[l := s']> (sets w) ++ [c] ∧
    members (elts s') = members (elts s) ∖ passing p (members (elts s)) ∧ same_flags s s') ∧
  runs (rb_set_reject_bang l b) w (λ r w', r = (if decide (passing p (members (elts s)) = ∅) then Qnil else RSet l) ∧ ∃ s' c,
    sets w' = <[l := s']> (sets w) ++ [c] ∧ members (elts s') = members (elts s) ∖ passing p (members (elts s)) ∧ same_flags s s') ∧
  (members (elts s) ≠ ∅ → ∃ w', rb_set_each l (Some (rb_set_delete l)) w = (Err BadPointer, w')).
Proof.
  intros H Hm Hb. pose proof (delete_if_apply_runs p b w l s H Hm Hb) as Ha. split_and!.
  - unfold rb_set_delete_if. eapply runs_bind; [exact Ha|]. intros r w' [_ E]. by apply runs_ret.
  - unfold rb_set_reject_bang. eapply runs_bind; [exact Ha|]. intros r w' [Hr E]. apply runs_ret. split; [|done].
    case_decide; destruct r; naive_solver.
  - intros Hne. destruct (CFSetGetValues (elts s)) as [|v vs] eqn:Ev; [by destruct Hne; unfold members; rewrite Ev|].
    set (s1 := mkSet _ (CFSetRemoveValue (elts s) v) (S (changes s)) (set_frozen s) (set_tainted s) (set_immutable s)).
    exists (put w l s1). unfold rb_set_each, CFSetApplyFunction. apply bind_err.
    rewrite (bind_run _ _ _ _ _ (get_set_run _ _ _ H)), Ev. cbn [apply_loop]. rewrite (bind_run _ _ _ () (put w l s1)).
    + rewrite (bind_run _ _ _ s1 (put w l s1)); [rewrite bool_decide_false by (cbn; lia); done|].
      apply get_set_run. cbn. apply list_lookup_insert_eq. by eapply lookup_lt_Some.
    + unfold rb_set_delete. rewrite (bind_run _ _ _ (RSet l) (put w l s1)); [done|]. rewrite (bind_run _ _ _ _ _ (scheck_run _ _ _ H Hm)).
      unfold remove_value, change. rewrite (bind_run _ _ _ () (put w l s1)); [done|]. by rewrite (bind_run _ _ _ _ _ (get_set_run _ _ _ H)).
Qed.

(** ** Sequences of operations *)

Inductive set_op := SAdd (v : VALUE) | SAddQ (v : VALUE) | SDelete (v : VALUE) | SDeleteQ (v : VALUE) | SInclude (v : VALUE) | SSize | SEmptyQ | SClear.

Definition run_set_op l (x : set_op) : cmd (sworld U) VALUE :=
  match x with
  | SAdd v => rb_set_add l v
  | SAddQ v => rb_set_add2 l v
  | SDelete v => rb_set_delete l v
  | SDeleteQ v => rb_set_delete2 l v
  | SInclude v => rb_set_include l v
  | SSize => rb_set_size l
  | SEmptyQ => rb_set_empty_q l
  | SClear => rb_set_clear l
  end.

(** The contract: a finite set; [add?] and [delete?] tell whether they changed it. *)
Definition spec_set_op l (x : set_op) (m : gset cfkey) : VALUE * gset cfkey :=
  match x with
  | SAdd v => (RSet l, m ∪ {[key_of v]})
  | SAddQ v => (if decide (key_of v ∈ m) then Qnil else RSet l, m ∪ {[key_of v]})
  | SDelete v => (RSet l, m ∖ {[key_of v]})
  | SDeleteQ v => (if decide (key_of v ∈ m) then RSet l else Qnil, m ∖ {[key_of v]})
  | SInclude v => (bool_value (bool_decide (key_of v ∈ m)), m)
  | SSize => (Num (Z.of_nat (size m)), m)
  | SEmptyQ => (if decide (m = ∅) then Qtrue else Qnil, m)
  | SClear => (RSet l, ∅)
  end.

Fixpoint run_set_ops l (xs : list set_op) : cmd (sworld U) (list VALUE) :=
  match xs with
  | [] => mret []
  | x :: xs => r ← run_set_op l x; rs ← run_set_ops l xs; mret (r :: rs)
  end.

Fixpoint spec_set_ops l (xs : list set_op) (m : gset cfkey) : list VALUE * gset cfkey :=
  match xs with
  | [] => ([], m)
  | x :: xs => let '(r, m) := spec_set_op l x m in let '(rs, m) := spec_set_ops l xs m in (r :: rs, m)
  end.

Lemma count_members e : CFSetGetCount e = Z.of_nat (size (members e)).
Proof. rewrite cs_count. unfold members, zlen. rewrite size_list_to_set by apply cs_nodup. by rewrite length_fmap. Qed.

Lemma set_op_runs w l s x : sets w !! l = Some s → smodifiable s →
  runs (run_set_op l x) w (λ r w', r = (spec_set_op l x (members (elts s))).1 ∧ becomes w l s (spec_set_op l x (members (elts s))).2 w').
Proof.
  intros H Hm. destruct x; cbn [run_set_op spec_set_op fst snd].
  - unfold rb_set_add. eapply runs_eq; [by eapply scheck_run|]. eapply runs_bind; [by apply add_run|]. intros [] w' E. by apply runs_ret.
  - unfold rb_set_add2. eapply runs_eq; [by eapply scheck_run|]. eapply runs_eq; [by apply contains_run|]. case_bool_decide as Hin.
    + apply runs_ret. rewrite decide_True by done. split; [done|]. assert (members (elts s) ∪ {[key_of v]} = members (elts s)) as -> by set_solver. by apply becomes_id.
    + rewrite decide_False by done. eapply runs_bind; [by apply add_run|]. intros [] w' E. by apply runs_ret.
  - by apply delete_run.
  - unfold rb_set_delete2. eapply runs_eq; [by eapply scheck_run|]. eapply runs_eq; [by apply contains_run|]. case_bool_decide as Hin.
    + rewrite decide_True by done. eapply runs_bind; [by apply remove_run|]. intros [] w' E. by apply runs_ret.
    + apply runs_ret. rewrite decide_False by done. split; [done|]. assert (members (elts s) ∖ {[key_of v]} = members (elts s)) as -> by set_solver. by apply becomes_id.
  - unfold rb_set_include. eapply runs_eq; [by apply contains_run|]. apply runs_ret. split; [done|]. by apply becomes_id.
  - unfold rb_set_size. eapply runs_eq; [by apply get_set_run|]. apply runs_ret. rewrite count_members. split; [done|]. by apply becomes_id.
  - unfold rb_set_empty_q. eapply runs_eq; [by apply get_set_run|]. apply runs_ret. rewrite count_members. split; [|by apply becomes_id].
    case_decide as Hd.
    + by rewrite Hd, size_empty.
    + rewrite (proj2 (Z.eqb_neq _ _)); [done|]. intros E. apply Hd, leibniz_equiv, size_empty_inv. lia.
  - unfold rb_set_clear. eapply runs_eq; [by eapply scheck_run|]. unfold change.
    eapply runs_eq; [rewrite (bind_run _ _ _ _ _ (get_set_run _ _ _ H)); reflexivity|]. apply runs_ret. split; [done|].
    eexists. split; [done|]. cbn. split; [apply cs_remove_all|done].
Qed.

(** C30: sequences of [add], [add?], [delete], [delete?], [include?], [size], [empty?] and [clear] on a
    set that may be changed compute those of a finite set, and change no other set; [empty?] of a set with
    elements answers nil, as the code has it, and not false. *)
Theorem set_trace_refines w l s xs :
  sets w !! l = Some s → smodifiable s →
  runs (run_set_ops l xs) w (λ rs w', rs = (spec_set_ops l xs (members (elts s))).1 ∧ becomes w l s (spec_set_ops l xs (members (elts s))).2 w').
Proof.
  intros H Hm. revert w s H Hm. induction xs as [|x xs IH]; intros w s H Hm.
  - apply runs_ret. split; [done|]. by apply becomes_id.
  - cbn [run_set_ops spec_set_ops]. eapply runs_bind; [by apply (set_op_runs w l s)|]. intros r w1 [-> Hb].
    destruct (becomes_lookup _ _ _ _ _ H Hb) as (s1 & H1' & Hm1 & Hf1). destruct (spec_set_op l x (members (elts s))) as [r m] eqn:Ex. cbn [fst snd] in *.
    eapply runs_bind; [apply (IH w1 s1 H1'); by eapply smodifiable_flags|]. intros rs w2 [-> Hb2]. apply runs_ret. rewrite Hm1 in *.
    destruct (spec_set_ops l xs m) as [rs m2]. cbn [fst snd] in *. split; [done|]. by eapply becomes_trans.
Qed.
End theorems.

(** ** An instance

    Lists as sets; values are compared by structure. *)

#[local] Definition scode (v : VALUE) : Z :=
  match v with Qnil => 0 | Qfalse => 1 | Qtrue => 2 | Num n => 2 * n + 3 | RSet l => - 8 * Z.of_nat l - 2 | _ => -4 end.

#[global] Instance code_keys : CFKeys := {| key_of := scode |}.

(** The list with the later values of a key dropped. *)
Fixpoint firsts (e : list VALUE) : list VALUE :=
  match e with
  | [] => []
  | v :: e => v :: filter (λ x, scode x ≠ scode v) (firsts e)
  end.

Definition key_set (e : list VALUE) : gset Z := list_to_set (scode <$> e).

#[global] Instance list_set : CFMutableSet := {|
  cfset := list VALUE;
  CFSetCreateMutable := [];
  CFSetCreateMutableCopy e := e;
  CFSetGetCount e := zlen (firsts e);
  CFSetGetValues := firsts;
  CFSetContainsValue e v := bool_decide (scode v ∈ key_set (firsts e));
  CFSetAddValue e v := v :: e;
  CFSetRemoveValue e v := filter (λ x, scode x ≠ scode v) (firsts e);
  CFSetRemoveAllValues _ := [];
  CFSetEqual e1 e2 := bool_decide (key_set (firsts e1) = key_set (firsts e2));
|}.

Lemma key_set_filter (e : list VALUE) v : key_set (filter (λ x, scode x ≠ scode v) e) = key_set e ∖ {[scode v]}.
Proof.
  apply set_eq. intros c. unfold key_set. rewrite elem_of_difference, !elem_of_list_to_set, !list_elem_of_fmap, elem_of_singleton. split.
  - intros (x & -> & [Hx Hin]%list_elem_of_filter). eauto.
  - intros [(x & -> & Hin) Hx]. exists x. split; [done|]. by apply list_elem_of_filter.
Qed.

Lemma firsts_key_set e : key_set (firsts e) = key_set e.
Proof.
  induction e as [|v e IH]; [done|]. unfold key_set at 1 2. cbn [firsts]. rewrite !fmap_cons, !list_to_set_cons.
  fold (key_set e) (key_set (filter (λ x, scode x ≠ scode v) (firsts e))). rewrite key_set_filter, IH.
  apply set_eq. intros c. rewrite !elem_of_union, elem_of_difference, elem_of_singleton. destruct (decide (c = scode v)); tauto.
Qed.

Lemma firsts_nodup e : NoDup (scode <$> firsts e).
Proof.
  induction e as [|v e IH]; [constructor|]. cbn [firsts]. rewrite fmap_cons. constructor.
  - intros (x & E & [Hx _]%list_elem_of_filter)%list_elem_of_fmap. by apply Hx.
  - eapply sublist_NoDup; [exact IH|]. apply fmap_sublist, sublist_filter.
Qed.

#[global] Instance list_set_laws : CFSetLaws.
Proof.
  split.
  - apply firsts_nodup.
  - done.
  - done.
  - done.
  - done.
  - intros e v. change (key_set (firsts (v :: e)) = key_set (firsts e) ∪ {[scode v]}). rewrite !firsts_key_set.
    unfold key_set. rewrite fmap_cons, list_to_set_cons. by rewrite (comm_L (∪)).
  - intros e v. change (key_set (firsts (filter (λ x, scode x ≠ scode v) (firsts e))) = key_set (firsts e) ∖ {[scode v]}).
    rewrite firsts_key_set. apply key_set_filter.
  - done.
  - intros e1 e2. apply bool_decide_eq_true.
Qed.

(** ** Witnesses *)

(** Arrays answer [containsObject:] by the keys of their values; other objects are not asked. *)
#[local] Instance ex_set_runtime : SetRuntime () := {|
  set_safe_level := 0;
  call_each _ _ := mret Qnil;
  contains_object other v := match other with Ary vs => mret (bool_decide (scode v ∈ key_set vs)) | _ => fail BadPointer end;
|}.

Definition ex_set (vs : list VALUE) : rset := mkSet _ vs 0 false false false.
Definition ex_sets : sworld () := mkSWorld _ () [ex_set [Num 1; Num 2]; ex_set [Num 2; Num 3]] ().

Lemma ex_set_modifiable vs : smodifiable (U := ()) (ex_set vs).
Proof. by split_and!; auto. Defined.

(** The set 1, 2 and the array 2, 3. *)
Lemma set_algebra_correct_witness :
  runs (rb_set_intersect 0 (Ary [Num 2; Num 3])) ex_sets (λ r w', r = 2%nat ∧ ∃ s', appended ex_sets s' w' ∧ members (elts s') = {[scode (Num 2)]}).
Proof.
  destruct (set_algebra_correct ex_sets 0 1 (ex_set [Num 1; Num 2]) (ex_set [Num 2; Num 3]) [] (Ary [Num 2; Num 3]) (key_set [Num 2; Num 3] : gset (@cfkey code_keys)) eq_refl eq_refl (ex_set_modifiable _)) as (H & _).
  { intros v w'. reflexivity. }
  destruct H as (r & w' & E & -> & s' & Ha & Hm). exists 2%nat, w'. split; [exact E|]. split; [done|]. exists s'. split; [done|]. rewrite Hm.
  apply (bool_decide_eq_true (_ = _)). vm_compute. reflexivity.
Defined.

Definition ex_odd (c : @cfkey code_keys) : bool := bool_decide (c = scode (Num 1)).
Definition ex_odd_block : sblock (U := ()) := λ v, mret (if ex_odd (scode v) then Qtrue else Num 0).

Lemma set_delete_if_correct_witness :
  runs (rb_set_delete_if 0 ex_odd_block) ex_sets (λ r w', r = RSet 0 ∧ ∃ s' c, sets w' = [s'; ex_set [Num 2; Num 3]; c] ∧ members (elts s') = {[scode (Num 2)]}).
Proof.
  assert (true_block ex_odd ex_odd_block) as Hb.
  { intros v w. exists (if ex_odd (scode v) then Qtrue else Num 0), w. split; [done|]. split; [done|]. unfold key_of, code_keys. by destruct (ex_odd (scode v)). }
  destruct (set_delete_if_correct ex_odd ex_odd_block ex_sets 0 (ex_set [Num 1; Num 2]) eq_refl (ex_set_modifiable _) Hb) as (H & _).
  destruct H as (r & w' & E & -> & s' & c & Hs & Hm & _). exists (RSet 0), w'. split; [exact E|]. split; [done|]. exists s', c. split; [exact Hs|]. rewrite Hm.
  apply (bool_decide_eq_true (_ = _)). vm_compute. reflexivity.
Defined.

Lemma set_trace_refines_witness :
  runs (run_set_ops 0 [SAddQ (Num 2); SAddQ (Num 5); SDelete (Num 1); SInclude (Num 1); SSize; SEmptyQ]) ex_sets
    (λ rs _, rs = [Qnil; RSet 0; RSet 0; Qfalse; Num 2; Qnil]).
Proof.
  destruct (set_trace_refines ex_sets 0 (ex_set [Num 1; Num 2]) [SAddQ (Num 2); SAddQ (Num 5); SDelete (Num 1); SInclude (Num 1); SSize; SEmptyQ] eq_refl (ex_set_modifiable _))
    as (rs & w' & E & Hr & _).
  exists rs, w'. split; [exact E|]. rewrite Hr. vm_compute. reflexivity.
Defined.
