(* ===== verification/Qsort.v ===== *)
(** * util.c: the quicksort [ruby_qsort]

    The array lies in a memory of bytes and the pointers of the code are addresses in it.  [mmswap_] and
    [mmrot3_] exchange elements by words or by bytes, as [mmprepare] chooses from the address of the array and
    the size of an element; the comparison is a parameter of the code, on the bytes of two
    elements. *)

From S2P Require Import Prelude.

(** ** Exchanging blocks of memory *)

Section mm.
Implicit Types (mem : list Z) (a b c n : Z).

(** Read and write of [n] bytes. *)
Definition ld mem a n : res (list Z) :=
  if (0 <=? a) && (0 <=? n) && (a + n <=? zlen mem) then Ok (take (Z.to_nat n) (drop (Z.to_nat a) mem)) else Err OutOfBounds.

Definition st mem a (bs : list Z) : res (list Z) :=
  if (0 <=? a) && (a + zlen bs <=? zlen mem) then Ok (take (Z.to_nat a) mem ++ bs ++ drop (Z.to_nat a + length bs) mem) else Err OutOfBounds.

(** [s = A[0]; A[0] = B[0]; B[0] = s], for an [int] or a [char] of [n] bytes. *)
Definition xchg n a b mem : res (list Z) :=
  s ← ld mem a n;
  t ← ld mem b n;
  mem ← st mem a t;
  st mem b s.

(** [s = A[0]; A[0] = B[0]; B[0] = C[0]; C[0] = s]. *)
Definition rot n a b c mem : res (list Z) :=
  s ← ld mem a n;
  t ← ld mem b n;
  mem ← st mem a t;
  u ← ld mem c n;
  mem ← st mem b u;
  st mem c s.

Record mmarg := mkArg { mmkind : Z; msize : Z; high : Z; low : Z }.

Definition mmprepare (base size : Z) : mmarg :=
  mkArg (if Z.land base 3 =? 0 then if 16 <=? size then 1 else 0 else -1) size (Z.land size (-16)) (Z.land size 12).

(** [k] words from the offset [o] of two blocks, one after the other. *)
Fixpoint xchg_words (k : nat) (o a b : Z) mem : res (list Z) :=
  match k with
  | O => Ok mem
  | S k => mem ← xchg 4 (a + o) (b + o) mem; xchg_words k (o + 4) a b mem
  end.

(** [do { ... a += 16; b += 16; } while (a < t)] *)
Definition mmswap_high (arg : mmarg) a b mem : res (Z * Z * list Z) :=
  let t := a + high arg in
  iter (Z.to_nat (high arg)) (λ '(a, b, mem),
    mem ← xchg_words 4 0 a b mem;
    if a + 16 <? t then Ok (inl (a + 16, b + 16, mem)) else Ok (inr (a + 16, b + 16, mem))) (a, b, mem).

(** [do {s = *a; *a++ = *b; *b++ = s;} while (a < t)] *)
Definition mmswap_bytes (arg : mmarg) a b mem : res (list Z) :=
  let t := a + msize arg in
  iter (Z.to_nat (msize arg)) (λ '(a, b, mem),
    mem ← xchg 1 a b mem;
    if a + 1 <? t then Ok (inl (a + 1, b + 1, mem)) else Ok (inr mem)) (a, b, mem).

Definition mmswap_ (arg : mmarg) a b mem : res (list Z) :=
  if a =? b then Ok mem else
  if 0 <=? mmkind arg then
    '(a, b, mem) ← (if 0 <? mmkind arg then mmswap_high arg a b mem else Ok (a, b, mem));
    if low arg =? 0 then Ok mem else
    mem ← xchg 4 a b mem;
    if low arg <? 8 then Ok mem else
    mem ← xchg 4 (a + 4) (b + 4) mem;
    if low arg =? 12 then xchg 4 (a + 8) (b + 8) mem else Ok mem
  else mmswap_bytes arg a b mem.

(** The same for three blocks. *)
Fixpoint rot_words (k : nat) (o a b c : Z) mem : res (list Z) :=
  match k with
  | O => Ok mem
  | S k => mem ← rot 4 (a + o) (b + o) (c + o) mem; rot_words k (o + 4) a b c mem
  end.

Definition mmrot3_high (arg : mmarg) a b c mem : res (Z * Z * Z * list Z) :=
  let t := a + high arg in
  iter (Z.to_nat (high arg)) (λ '(a, b, c, mem),
    mem ← rot_words 4 0 a b c mem;
    if a + 16 <? t then Ok (inl (a + 16, b + 16, c + 16, mem)) else Ok (inr (a + 16, b + 16, c + 16, mem))) (a, b, c, mem).

Definition mmrot3_bytes (arg : mmarg) a b c mem : res (list Z) :=
  let t := a + msize arg in
  iter (Z.to_nat (msize arg)) (λ '(a, b, c, mem),
    mem ← rot 1 a b c mem;
    if a + 1 <? t then Ok (inl (a + 1, b + 1, c + 1, mem)) else Ok (inr mem)) (a, b, c, mem).

Definition mmrot3_ (arg : mmarg) a b c mem : res (list Z) :=
  if 0 <=? mmkind arg then
    '(a, b, c, mem) ← (if 0 <? mmkind arg then mmrot3_high arg a b c mem else Ok (a, b, c, mem));
    if low arg =? 0 then Ok mem else
    mem ← rot 4 a b c mem;
    if low arg <? 8 then Ok mem else
    mem ← rot 4 (a + 4) (b + 4) (c + 4) mem;
    if low arg =? 12 then rot 4 (a + 8) (b + 8) (c + 8) mem else Ok mem
  else mmrot3_bytes arg a b c mem.
End mm.

(** ** The sort *)

(** Where the classification of the left, middle and right element goes. *)
Inductive target :=
  | Nxt                (* the region is sorted *)
  | LoopA (m : Z)      (* left <= median < right *)
  | LoopB (m : Z).     (* left < median <= right *)

(** The state of the outer loop; [arr] is the memory. *)
Record qstate (A : Type) := mkQ { arr : list A; stack : list (Z * Z); left : Z; right : Z; chklim : Z }.
Arguments mkQ {A} _ _ _ _ _.
Arguments arr {A} _.
Arguments stack {A} _.
Arguments left {A} _.
Arguments right {A} _.
Arguments chklim {A} _.

Section control.
Context {A : Type}.
Implicit Types (a : list A) (l r L R : Z) (stack : list (Z * Z)).

(** [stack_node stack[32]] *)
Definition stack_size : nat := 32.

Definition PUSH (ll rr : Z) stack : res (list (Z * Z)) :=
  if (length stack <? stack_size)%nat then Ok ((ll, rr) :: stack) else Err OutOfBounds.

(** [nxt: if (stack == top) return; POP(L,R);] *)
Definition nxt a stack (chk : Z) : qstate A + list A :=
  match stack with
  | [] => inr a
  | (L, R) :: stack => inl (mkQ a stack L R chk)
  end.

(** [fin:], which side is sorted next. *)
Definition fin a stack L R l r (eq_l eq_r : bool) (chk : Z) : res (qstate A + list A) :=
  if negb eq_l then
    if negb eq_r then
      if l - L <? R - r then stack ← PUSH r R stack; Ok (inl (mkQ a stack L l chk))
      else stack ← PUSH L l stack; Ok (inl (mkQ a stack r R chk))
    else Ok (inl (mkQ a stack L l chk))
  else if negb eq_r then Ok (inl (mkQ a stack r R chk))
  else Ok (nxt a stack chk).
End control.

(** The array of [nel] elements of [size] bytes is at [base]; a pointer is an address.  The comparison is a function of
    the bytes of two elements. *)
Section qsort.
Context (cmp : list Z → list Z → Z) (base nel size : Z).
Implicit Types (mem : list Z) (l r m L R : Z).

Definition mmswap l r mem : res (list Z) := mmswap_ (mmprepare base size) l r mem.
Definition mmrot3 l m r mem : res (list Z) := mmrot3_ (mmprepare base size) l m r mem.

(** [( *cmp)(l, r, d)] *)
Definition compare mem l r : res Z :=
  x ← ld mem l size;
  y ← ld mem r size;
  Ok (cmp x y).

Definition med3 mem p q r : res Z :=
  t ← compare mem p q;
  if t <? 0 then
    t ← compare mem q r;
    if t <? 0 then Ok q else
    t ← compare mem p r;
    Ok (if t <? 0 then r else p)
  else
    t ← compare mem q r;
    if 0 <? t then Ok q else
    t ← compare mem p r;
    Ok (if t <? 0 then p else r).

(** The median point: the middle, or a median of three or of three medians.  [t] is an [int]. *)
Definition choose_median mem L R : res Z :=
  t ← (if size =? 0 then Err DivByZero else Ok (Z.quot (R - L + size) size));
  let t := s32 t in
  let m := L + s32 (size * Z.shiftr t 1) in
  if t <? 60 then Ok m else
  if 200 <=? t then
    let t := s32 (size * Z.shiftr t 3) in
    m1 ← med3 mem (L + t) (L + t + t) (L + t + t + t);
    m3 ← med3 mem (m + t) (m + t + t) (m + t + t + t);
    med3 mem m1 m m3
  else
    let t := s32 (size * Z.shiftr t 2) in
    med3 mem (L + t) m (m + t).

(** [for (p=l; p<r; p+=size) if (cmp(p,p+size) > 0) goto fail;], with the sign of the
    comparison as an argument: [true] if no pair is out of order. *)
Definition check_order mem (sign : Z) L R : res bool :=
  iter (S (Z.to_nat nel)) (λ p,
    if p <? R then
      t ← compare mem p (p + size);
      if 0 <? sign * t then Ok (inr false) else Ok (inl (p + size))
    else Ok (inr true)) L.

(** [while (l<r) {mmswap(l,r); l+=size; r-=size;}] *)
Definition reverse_region L R mem : res (list Z) :=
  iter (S (Z.to_nat nel)) (λ '(mem, l, r),
    if l <? r then mem ← mmswap l r mem; Ok (inl (mem, l + size, r - size)) else Ok (inr mem)) (mem, L, R).

(** Case 5-5-5: the three are equal; look for an element that is not. *)
Definition all_equal L R m mem : res (list Z * target) :=
  iter (S (Z.to_nat nel)) (λ l,
    let l := l + size in
    if l =? R then Ok (inr (mem, Nxt)) else
    if l =? m then Ok (inl l) else
    t ← compare mem l m;
    if 0 <? t then mem ← mmswap l R mem; Ok (inr (mem, LoopA m)) else
    if t <? 0 then mem ← mmswap L l mem; Ok (inr (mem, LoopB m)) else
    Ok (inl l)) L.

(** The second component is [chklim]. *)
Definition classify (chklim L R m : Z) mem : res (list Z * Z * target) :=
  let l := L in let r := R in
  t ← compare mem l m;
  if t <? 0 then
    t ← compare mem m r;
    if t <? 0 then
      if negb (chklim =? 0) && (chklim <=? nel) then
        ok ← check_order mem 1 l r;
        Ok (mem, 0, if ok : bool then Nxt else LoopA m)
      else Ok (mem, chklim, LoopA m)
    else if 0 <? t then
      t ← compare mem l r;
      if t <=? 0 then mem ← mmswap m r mem; Ok (mem, chklim, LoopA m)
      else mem ← mmrot3 r m l mem; Ok (mem, chklim, LoopA m)
    else Ok (mem, chklim, LoopB m)
  else if 0 <? t then
    t ← compare mem m r;
    if 0 <? t then
      if negb (chklim =? 0) && (chklim <=? nel) then
        ok ← check_order mem (-1) l r;
        if ok : bool then mem ← reverse_region l r mem; Ok (mem, 0, Nxt)
        else mem ← mmswap l r mem; Ok (mem, 0, LoopA m)
      else mem ← mmswap l r mem; Ok (mem, chklim, LoopA m)
    else if t <? 0 then
      t ← compare mem l r;
      if t <=? 0 then mem ← mmswap l m mem; Ok (mem, chklim, LoopB m)
      else mem ← mmrot3 l m r mem; Ok (mem, chklim, LoopA m)
    else mem ← mmswap l r mem; Ok (mem, chklim, LoopA m)
  else
    t ← compare mem m r;
    if t <? 0 then Ok (mem, chklim, LoopA m) else
    if 0 <? t then mem ← mmswap l r mem; Ok (mem, chklim, LoopB m) else
    '(mem, tgt) ← all_equal L R m mem;
    Ok (mem, chklim, tgt).

(** *** Splitting *)

(** The first inner loop of [loopA]: [l] moves up to an element greater than the median.  The result says
    whether there was one. *)
Definition scanA_up mem r m l eq_l : res (Z * bool * bool) :=
  iter (S (Z.to_nat nel)) (λ '(l, eq_l),
    let l := l + size in
    if l =? r then Ok (inr (l, eq_l, false)) else
    if l =? m then Ok (inl (l, eq_l)) else
    t ← compare mem l m;
    if 0 <? t then Ok (inr (l, eq_l, true)) else
    Ok (inl (l, if t <? 0 then false else eq_l))) (l, eq_l).

(** The second: [r] moves down to an element not greater than the median. *)
Definition scanA_down mem l r m eq_l : res (Z * Z * bool * bool) :=
  iter (S (Z.to_nat nel)) (λ r,
    let r := r - size in
    if l =? r then Ok (inr (r, m, eq_l, false)) else
    if r =? m then Ok (inr (r, l, eq_l, true)) else
    t ← compare mem r m;
    if t <? 0 then Ok (inr (r, m, false, true)) else
    if t =? 0 then Ok (inr (r, m, eq_l, true)) else
    Ok (inl r)) r.

(** [l -= size; if (l != m) mmswap(m,l); l -= size; goto fin;] *)
Definition finA l m mem : res (Z * list Z) :=
  let l := l - size in
  mem ← (if l =? m then Ok mem else mmswap m l mem);
  Ok (l - size, mem).

Definition loopA L R m mem : res (list Z * Z * Z * bool * bool) :=
  iter (S (Z.to_nat nel)) (λ '(mem, l, r, m, eq_l, eq_r),
    '(l, eq_l, found) ← scanA_up mem r m l eq_l;
    if negb found then '(l, mem) ← finA l m mem; Ok (inr (mem, l, r, eq_l, eq_r)) else
    '(r, m, eq_l, found) ← scanA_down mem l r m eq_l;
    if negb found then '(l, mem) ← finA l m mem; Ok (inr (mem, l, r, eq_l, false)) else
    mem ← mmswap l r mem;
    Ok (inl (mem, l, r, m, eq_l, false))) (mem, L, R, m, true, true).

Definition scanB_down mem l m r eq_r : res (Z * bool * bool) :=
  iter (S (Z.to_nat nel)) (λ '(r, eq_r),
    let r := r - size in
    if l =? r then Ok (inr (r, eq_r, false)) else
    if r =? m then Ok (inl (r, eq_r)) else
    t ← compare mem r m;
    if t <? 0 then Ok (inr (r, eq_r, true)) else
    Ok (inl (r, if 0 <? t then false else eq_r))) (r, eq_r).

Definition scanB_up mem l r m eq_r : res (Z * Z * bool * bool) :=
  iter (S (Z.to_nat nel)) (λ l,
    let l := l + size in
    if l =? r then Ok (inr (l, m, eq_r, false)) else
    if l =? m then Ok (inr (l, r, eq_r, true)) else
    t ← compare mem l m;
    if 0 <? t then Ok (inr (l, m, false, true)) else
    if t =? 0 then Ok (inr (l, m, eq_r, true)) else
    Ok (inl l)) l.

Definition finB r m mem : res (Z * list Z) :=
  let r := r + size in
  mem ← (if r =? m then Ok mem else mmswap r m mem);
  Ok (r + size, mem).

Definition loopB L R m mem : res (list Z * Z * Z * bool * bool) :=
  iter (S (Z.to_nat nel)) (λ '(mem, l, r, m, eq_l, eq_r),
    '(r, eq_r, found) ← scanB_down mem l m r eq_r;
    if negb found then '(r, mem) ← finB r m mem; Ok (inr (mem, l, r, eq_l, eq_r)) else
    '(l, m, eq_r, found) ← scanB_up mem l r m eq_r;
    if negb found then '(r, mem) ← finB r m mem; Ok (inr (mem, l, r, false, eq_r)) else
    mem ← mmswap l r mem;
    Ok (inl (mem, l, r, m, false, eq_r))) (mem, L, R, m, true, true).

(** *** The main loop *)

(** One turn of the outer loop, on the region from [left] to [right]. *)
Definition qsort_step (q : qstate Z) : res (qstate Z + list Z) :=
  let mem := arr q in let L := left q in let R := right q in
  if L + size =? R then
    t ← compare mem L R;
    mem ← (if 0 <? t then mmswap L R mem else Ok mem);
    Ok (nxt mem (stack q) (chklim q))
  else
    m ← choose_median mem L R;
    '(mem, chk, tgt) ← classify (chklim q) L R m mem;
    match tgt with
    | Nxt => Ok (nxt mem (stack q) chk)
    | LoopA m => '(mem, l, r, eq_l, eq_r) ← loopA L R m mem; fin mem (stack q) L R l r eq_l eq_r chk
    | LoopB m => '(mem, l, r, eq_l, eq_r) ← loopB L R m mem; fin mem (stack q) L R l r eq_l eq_r chk
    end.

(** The product [size*(nel-1)] is one of two [int]s; here it wraps around.  A turn takes at least one element out of the regions that are
    left. *)
Definition ruby_qsort mem : res (list Z) :=
  let R := base + s32 (size * (nel - 1)) in
  if nel <=? 1 then Ok mem else iter (S (Z.to_nat nel)) qsort_step (mkQ mem [] base R 63).
End qsort.
