(* ===== verification/QsortElem.v ===== *)
(** * util.c: the quicksort on a list of elements

    The sort of Qsort.v with the elements of the array as a list: a pointer is the index of an element, and an exchange
    moves whole elements.  QsortMem.v proves that the sort in memory does
    what this one does. *)

From S2P Require Import Prelude Qsort.

Section qsort.
Context {A : Type} (cmp : A → A → Z).
Implicit Types (a : list A) (l r m L R : Z).

Definition eswap l r a : res (list A) :=
  if l =? r then Ok a else
  x ← aload a l;
  y ← aload a r;
  a ← astore a l y;
  astore a r x.

Definition erot3 l m r a : res (list A) :=
  x ← aload a l;
  y ← aload a m;
  a ← astore a l y;
  z ← aload a r;
  a ← astore a m z;
  astore a r x.

Definition ecompare a l r : res Z :=
  x ← aload a l;
  y ← aload a r;
  Ok (cmp x y).

Definition emed3 a p q r : res Z :=
  t ← ecompare a p q;
  if t <? 0 then
    t ← ecompare a q r;
    if t <? 0 then Ok q else
    t ← ecompare a p r;
    Ok (if t <? 0 then r else p)
  else
    t ← ecompare a q r;
    if 0 <? t then Ok q else
    t ← ecompare a p r;
    Ok (if t <? 0 then p else r).

(** The median point: the middle, or a median of three or of three medians. *)
Definition emedian a L R : res Z :=
  let t := R - L + 1 in
  let m := L + Z.shiftr t 1 in
  if t <? 60 then Ok m else
  if 200 <=? t then
    let t := Z.shiftr t 3 in
    m1 ← emed3 a (L + t) (L + t + t) (L + t + t + t);
    m3 ← emed3 a (m + t) (m + t + t) (m + t + t + t);
    emed3 a m1 m m3
  else
    let t := Z.shiftr t 2 in
    emed3 a (L + t) m (m + t).

(** [for (p=l; p<r; p+=size) if (cmp(p,p+size) > 0) goto fail;], with the sign of the
    comparison as an argument: [true] if no pair is out of order. *)
Definition echeck_order a (sign : Z) L R : res bool :=
  iter (S (length a)) (λ p,
    if p <? R then
      t ← ecompare a p (p + 1);
      if 0 <? sign * t then Ok (inr false) else Ok (inl (p + 1))
    else Ok (inr true)) L.

(** [while (l<r) {eswap(l,r); l+=size; r-=size;}] *)
Definition ereverse L R a : res (list A) :=
  iter (S (length a)) (λ '(a, l, r),
    if l <? r then a ← eswap l r a; Ok (inl (a, l + 1, r - 1)) else Ok (inr a)) (a, L, R).

(** Case 5-5-5: the three are equal; look for an element that is not. *)
Definition eall_equal L R m a : res (list A * target) :=
  iter (S (length a)) (λ l,
    let l := l + 1 in
    if l =? R then Ok (inr (a, Nxt)) else
    if l =? m then Ok (inl l) else
    t ← ecompare a l m;
    if 0 <? t then a ← eswap l R a; Ok (inr (a, LoopA m)) else
    if t <? 0 then a ← eswap L l a; Ok (inr (a, LoopB m)) else
    Ok (inl l)) L.

(** The second component is [chklim]. *)
Definition eclassify (nel chklim L R m : Z) a : res (list A * Z * target) :=
  let l := L in let r := R in
  t ← ecompare a l m;
  if t <? 0 then
    t ← ecompare a m r;
    if t <? 0 then
      if negb (chklim =? 0) && (chklim <=? nel) then
        ok ← echeck_order a 1 l r;
        Ok (a, 0, if ok : bool then Nxt else LoopA m)
      else Ok (a, chklim, LoopA m)
    else if 0 <? t then
      t ← ecompare a l r;
      if t <=? 0 then a ← eswap m r a; Ok (a, chklim, LoopA m)
      else a ← erot3 r m l a; Ok (a, chklim, LoopA m)
    else Ok (a, chklim, LoopB m)
  else if 0 <? t then
    t ← ecompare a m r;
    if 0 <? t then
      if negb (chklim =? 0) && (chklim <=? nel) then
        ok ← echeck_order a (-1) l r;
        if ok : bool then a ← ereverse l r a; Ok (a, 0, Nxt)
        else a ← eswap l r a; Ok (a, 0, LoopA m)
      else a ← eswap l r a; Ok (a, chklim, LoopA m)
    else if t <? 0 then
      t ← ecompare a l r;
      if t <=? 0 then a ← eswap l m a; Ok (a, chklim, LoopB m)
      else a ← erot3 l m r a; Ok (a, chklim, LoopA m)
    else a ← eswap l r a; Ok (a, chklim, LoopA m)
  else
    t ← ecompare a m r;
    if t <? 0 then Ok (a, chklim, LoopA m) else
    if 0 <? t then a ← eswap l r a; Ok (a, chklim, LoopB m) else
    '(a, tgt) ← eall_equal L R m a;
    Ok (a, chklim, tgt).

(** *** Splitting *)

(** The first inner loop of [eloopA]: [l] moves up to an element greater than the median.  The result says
    whether there was one. *)
Definition escanA_up a r m l eq_l : res (Z * bool * bool) :=
  iter (S (length a)) (λ '(l, eq_l),
    let l := l + 1 in
    if l =? r then Ok (inr (l, eq_l, false)) else
    if l =? m then Ok (inl (l, eq_l)) else
    t ← ecompare a l m;
    if 0 <? t then Ok (inr (l, eq_l, true)) else
    Ok (inl (l, if t <? 0 then false else eq_l))) (l, eq_l).

(** The second: [r] moves down to an element not greater than the median. *)
Definition escanA_down a l r m eq_l : res (Z * Z * bool * bool) :=
  iter (S (length a)) (λ r,
    let r := r - 1 in
    if l =? r then Ok (inr (r, m, eq_l, false)) else
    if r =? m then Ok (inr (r, l, eq_l, true)) else
    t ← ecompare a r m;
    if t <? 0 then Ok (inr (r, m, false, true)) else
    if t =? 0 then Ok (inr (r, m, eq_l, true)) else
    Ok (inl r)) r.

(** [l -= size; if (l != m) eswap(m,l); l -= size; goto fin;] *)
Definition efinA l m a : res (Z * list A) :=
  let l := l - 1 in
  a ← (if l =? m then Ok a else eswap m l a);
  Ok (l - 1, a).

Definition eloopA L R m a : res (list A * Z * Z * bool * bool) :=
  iter (S (length a)) (λ '(a, l, r, m, eq_l, eq_r),
    '(l, eq_l, found) ← escanA_up a r m l eq_l;
    if negb found then '(l, a) ← efinA l m a; Ok (inr (a, l, r, eq_l, eq_r)) else
    '(r, m, eq_l, found) ← escanA_down a l r m eq_l;
    if negb found then '(l, a) ← efinA l m a; Ok (inr (a, l, r, eq_l, false)) else
    a ← eswap l r a;
    Ok (inl (a, l, r, m, eq_l, false))) (a, L, R, m, true, true).

Definition escanB_down a l m r eq_r : res (Z * bool * bool) :=
  iter (S (length a)) (λ '(r, eq_r),
    let r := r - 1 in
    if l =? r then Ok (inr (r, eq_r, false)) else
    if r =? m then Ok (inl (r, eq_r)) else
    t ← ecompare a r m;
    if t <? 0 then Ok (inr (r, eq_r, true)) else
    Ok (inl (r, if 0 <? t then false else eq_r))) (r, eq_r).

Definition escanB_up a l r m eq_r : res (Z * Z * bool * bool) :=
  iter (S (length a)) (λ l,
    let l := l + 1 in
    if l =? r then Ok (inr (l, m, eq_r, false)) else
    if l =? m then Ok (inr (l, r, eq_r, true)) else
    t ← ecompare a l m;
    if 0 <? t then Ok (inr (l, m, false, true)) else
    if t =? 0 then Ok (inr (l, m, eq_r, true)) else
    Ok (inl l)) l.

Definition efinB r m a : res (Z * list A) :=
  let r := r + 1 in
  a ← (if r =? m then Ok a else eswap r m a);
  Ok (r + 1, a).

Definition eloopB L R m a : res (list A * Z * Z * bool * bool) :=
  iter (S (length a)) (λ '(a, l, r, m, eq_l, eq_r),
    '(r, eq_r, found) ← escanB_down a l m r eq_r;
    if negb found then '(r, a) ← efinB r m a; Ok (inr (a, l, r, eq_l, eq_r)) else
    '(l, m, eq_r, found) ← escanB_up a l r m eq_r;
    if negb found then '(r, a) ← efinB r m a; Ok (inr (a, l, r, false, eq_r)) else
    a ← eswap l r a;
    Ok (inl (a, l, r, m, false, eq_r))) (a, L, R, m, true, true).

(** *** The main loop *)

(** One turn of the outer loop, on the region from [left] to [right]. *)
Definition eqsort_step (nel : Z) (q : qstate A) : res (qstate A + list A) :=
  let a := arr q in let L := left q in let R := right q in
  if L + 1 =? R then
    t ← ecompare a L R;
    a ← (if 0 <? t then eswap L R a else Ok a);
    Ok (nxt a (stack q) (chklim q))
  else
    m ← emedian a L R;
    '(a, chk, tgt) ← eclassify nel (chklim q) L R m a;
    match tgt with
    | Nxt => Ok (nxt a (stack q) chk)
    | LoopA m => '(a, l, r, eq_l, eq_r) ← eloopA L R m a; fin a (stack q) L R l r eq_l eq_r chk
    | LoopB m => '(a, l, r, eq_l, eq_r) ← eloopB L R m a; fin a (stack q) L R l r eq_l eq_r chk
    end.

(** A turn takes at least one element out of the regions that are left. *)
Definition eqsort a : res (list A) :=
  let nel := zlen a in
  if nel <=? 1 then Ok a else iter (S (length a)) (eqsort_step nel) (mkQ a [] 0 (nel - 1) 63).
End qsort.
