(* ===== verification/QsortSpec.v ===== *)
(** What the quicksort relies on: rearrangements of a region and comparisons, then the two ways of splitting a region. *)

(** * util.c: arrays that are sorted in place

    Elements by index, exchanges as rearrangements of a region, and the laws of a comparison. *)

From S2P Require Import Prelude Qsort QsortElem.

(** What a sorted result needs of a comparison: a total preorder.  Without it the sort is still safe. *)
Class CmpLaws {A} (cmp : A → A → Z) : Prop := {
  cmp_flip x y : 0 < cmp x y ↔ cmp y x < 0;
  cmp_trans x y z : cmp x y ≤ 0 → cmp y z ≤ 0 → cmp x z ≤ 0;
}.

Section order.
Context {A : Type} {cmp : A → A → Z} {C : CmpLaws cmp}.

Lemma cmp_eq x y : cmp x y = 0 → cmp y x = 0.
Proof. intros H. pose proof (cmp_flip x y). pose proof (cmp_flip y x). lia. Qed.

Lemma cmp_ge x y : 0 ≤ cmp x y → cmp y x ≤ 0.
Proof. intros H. pose proof (cmp_flip x y). pose proof (cmp_flip y x). lia. Qed.

Lemma cmp_refl x : cmp x x = 0.
Proof. pose proof (cmp_flip x x). lia. Qed.

Lemma cmp_lt_le x y z : cmp x y < 0 → cmp y z ≤ 0 → cmp x z < 0.
Proof.
  intros H1 H2. destruct (decide (cmp x z < 0)) as [|H]; [done|]. exfalso.
  assert (cmp y x ≤ 0) by (eapply cmp_trans; [exact H2|]; apply cmp_ge; lia). pose proof (cmp_flip y x). lia.
Qed.

Lemma cmp_le_lt x y z : cmp x y ≤ 0 → cmp y z < 0 → cmp x z < 0.
Proof.
  intros H1 H2. destruct (decide (cmp x z < 0)) as [|H]; [done|]. exfalso.
  assert (cmp z y ≤ 0) by (eapply cmp_trans; [|exact H1]; apply cmp_ge; lia). pose proof (cmp_flip z y). lia.
Qed.
End order.

Section arrays.
Context {A : Type} `{!Inhabited A} (cmp : A → A → Z).
Implicit Types (a b : list A) (i j k L R : Z).

(** The element at an index, anything outside of the array. *)
Definition elt a i : A := default inhabitant (zlookup a i).

Lemma elt_lookup a i : 0 ≤ i < zlen a → zlookup a i = Some (elt a i).
Proof. intros H. unfold elt. by destruct (zlookup_is_Some a i H) as [x ->]. Qed.

Lemma aload_elt a i : 0 ≤ i < zlen a → aload a i = Ok (elt a i).
Proof. intros H. unfold aload. by rewrite elt_lookup. Qed.

Lemma compare_elt a i j : 0 ≤ i < zlen a → 0 ≤ j < zlen a → ecompare cmp a i j = Ok (cmp (elt a i) (elt a j)).
Proof. intros Hi Hj. unfold ecompare. rewrite aload_elt by done. cbn [mbind res_bind]. by rewrite aload_elt. Qed.

Lemma elt_insert a i j x : 0 ≤ i < zlen a → elt (<[Z.to_nat i := x]> a) j = if decide (j = i) then x else elt a j.
Proof. intros Hi. unfold elt. rewrite zlookup_insert by done. by repeat case_decide. Qed.

(** ** Rearrangements of a region *)

Definition rearr L R a b : Prop :=
  zlen b = zlen a ∧ b ≡ₚ a ∧ (∀ i, ¬ L ≤ i ≤ R → elt b i = elt a i) ∧
  (∀ j, L ≤ j ≤ R → ∃ j', L ≤ j' ≤ R ∧ elt b j = elt a j').

Lemma rearr_refl L R a : rearr L R a a.
Proof. split_and!; [done|done|done|]. intros j Hj. by exists j. Qed.

Lemma rearr_trans L R a b c : rearr L R a b → rearr L R b c → rearr L R a c.
Proof.
  intros (Z1 & P1 & O1 & I1) (Z2 & P2 & O2 & I2). split_and!; [lia|by rewrite P2| |].
  - intros i Hi. by rewrite O2, O1.
  - intros j Hj. destruct (I2 j Hj) as (j' & Hj' & ->). by apply I1.
Qed.

Lemma perm_insert a i x y : 0 ≤ i < zlen a → elt a i = x → x :: <[Z.to_nat i := y]> a ≡ₚ y :: a.
Proof.
  intros Hi Hx. unfold zlen in Hi. assert (a !! Z.to_nat i = Some x) as Hl.
  { rewrite <- zlookup_nonneg by lia. rewrite elt_lookup by (unfold zlen; lia). by rewrite Hx. }
  rewrite insert_take_drop by lia. rewrite <- (take_drop_middle a (Z.to_nat i) x Hl) at 3.
  rewrite <- !Permutation_middle. by rewrite Permutation_swap.
Qed.

Lemma mmswap_spec L R i j a : 0 ≤ L → R < zlen a → L ≤ i ≤ R → L ≤ j ≤ R →
  ∃ b, eswap i j a = Ok b ∧ rearr L R a b ∧
    (∀ k, elt b k = if decide (k = i) then elt a j else if decide (k = j) then elt a i else elt a k).
Proof.
  intros HL HR Hi Hj. unfold eswap. destruct (Z.eqb_spec i j) as [->|Hne].
  { exists a. split; [done|]. split; [apply rearr_refl|]. intros k. by repeat case_decide; subst. }
  rewrite !aload_elt by lia. cbn [mbind res_bind]. rewrite astore_ok by lia. cbn [mbind res_bind].
  rewrite astore_ok by (rewrite zlen_insert; lia). eexists. split; [done|].
  set (a1 := <[Z.to_nat i := elt a j]> a). set (b := <[Z.to_nat j := elt a i]> a1).
  assert (∀ k, elt b k = if decide (k = i) then elt a j else if decide (k = j) then elt a i else elt a k) as Hb.
  { intros k. unfold b, a1. rewrite !elt_insert by (rewrite ?zlen_insert; lia). repeat case_decide; subst; done. }
  split; [|exact Hb]. split_and!.
  - unfold b, a1. by rewrite !zlen_insert.
  - apply (Permutation_cons_inv (a := elt a j)). unfold b.
    rewrite (perm_insert a1 j (elt a j) (elt a i)); [|unfold a1; rewrite zlen_insert; lia|unfold a1; rewrite elt_insert by lia; by case_decide].
    unfold a1. by apply perm_insert; [lia|].
  - intros k Hk. rewrite Hb. by repeat case_decide; subst; try lia.
  - intros k Hk. rewrite Hb. repeat case_decide; eauto.
Qed.

Lemma mmrot3_spec L R i j k a : 0 ≤ L → R < zlen a → L ≤ i ≤ R → L ≤ j ≤ R → L ≤ k ≤ R → i ≠ j → j ≠ k → i ≠ k →
  ∃ b, erot3 i j k a = Ok b ∧ rearr L R a b ∧
    (∀ x, elt b x = if decide (x = i) then elt a j else if decide (x = j) then elt a k else if decide (x = k) then elt a i else elt a x).
Proof.
  intros HL HR Hi Hj Hk Hij Hjk Hik. unfold erot3. rewrite !aload_elt by lia. cbn [mbind res_bind]. rewrite astore_ok by lia. cbn [mbind res_bind].
  set (a1 := <[Z.to_nat i := elt a j]> a). assert (zlen a1 = zlen a) as Z1 by apply zlen_insert.
  rewrite aload_elt by lia. cbn [mbind res_bind]. rewrite astore_ok by lia. cbn [mbind res_bind].
  assert (elt a1 k = elt a k) as -> by (unfold a1; rewrite elt_insert by lia; by case_decide).
  set (a2 := <[Z.to_nat j := elt a k]> a1). assert (zlen a2 = zlen a) as Z2 by (unfold a2; by rewrite zlen_insert).
  rewrite astore_ok by lia. eexists. split; [done|]. set (b := <[Z.to_nat k := elt a i]> a2).
  assert (∀ x, elt b x = if decide (x = i) then elt a j else if decide (x = j) then elt a k else if decide (x = k) then elt a i else elt a x) as Hb.
  { intros x. unfold b, a2, a1. rewrite !elt_insert by (rewrite ?zlen_insert; lia). repeat case_decide; subst; done. }
  split; [|exact Hb]. split_and!.
  - unfold b. by rewrite zlen_insert.
  - apply (Permutation_cons_inv (a := elt a k)). unfold b. rewrite (perm_insert a2 k (elt a k) (elt a i));
      [|lia|unfold a2, a1; rewrite !elt_insert by (rewrite ?zlen_insert; lia); by repeat case_decide].
    apply (Permutation_cons_inv (a := elt a j)). etrans; [apply Permutation_swap|]. unfold a2.
    rewrite (perm_insert a1 j (elt a j) (elt a k)); [|lia|unfold a1; rewrite elt_insert by lia; by case_decide].
    etrans; [apply Permutation_swap|]. etrans; [|apply Permutation_swap]. constructor. unfold a1. by apply perm_insert; [lia|].
  - intros x Hx. rewrite Hb. by repeat case_decide; subst; try lia.
  - intros x Hx. rewrite Hb. repeat case_decide; eauto.
Qed.

(** ** Order on a region *)

Definition sorted_on a L R : Prop := ∀ i j, L ≤ i → i < j → j ≤ R → cmp (elt a i) (elt a j) ≤ 0.

Lemma sorted_on_single a L R : R ≤ L → sorted_on a L R.
Proof. intros H i j. lia. Qed.
End arrays.

(** * util.c: splitting a region

    The two loops that split a region around its median, for any comparison; the order of the
    parts if the comparison is lawful. *)

Section split.
Context {A : Type} `{!Inhabited A} (cmp : A → A → Z).
Implicit Types (a b : list A) (i j k l r m L R : Z).
Local Notation elt := (@elt A _).

(** What a split returns: the median is at [l + 1], and the parts left and right of it
    are marked as done or have at least two elements. *)
Definition split_post L R a0 (res : list A * Z * Z * bool * bool) : Prop :=
  let '(a, l, r, eq_l, eq_r) := res in
  rearr L R a0 a ∧ L ≤ l ∧ r = l + 2 ∧ r ≤ R ∧ (eq_l = false → L < l) ∧ (eq_r = false → r < R) ∧
  (CmpLaws cmp → (∀ i, L ≤ i ≤ l → cmp (elt a i) (elt a (l + 1)) ≤ 0) ∧ (∀ i, r ≤ i ≤ R → cmp (elt a (l + 1)) (elt a i) ≤ 0) ∧
    (eq_l = true → sorted_on cmp a L l) ∧ (eq_r = true → sorted_on cmp a r R)).

(** ** Splitting type A *)

Lemma scanA_up_spec a L R l r m eq_l : 0 ≤ L → R < zlen a → L ≤ l < r → r ≤ R → L < m < r →
  returns (escanA_up cmp a r m l eq_l) (λ '(l', eq', found), l < l' ≤ r ∧
    (found = false → l' = r) ∧ (found = true → l' < r ∧ l' ≠ m ∧ 0 < cmp (elt a l') (elt a m)) ∧
    (∀ i, l < i < l' → i = m ∨ cmp (elt a i) (elt a m) ≤ 0) ∧
    (eq' = true → eq_l = true ∧ ∀ i, l < i < l' → i = m ∨ cmp (elt a i) (elt a m) = 0) ∧
    (eq' = false → eq_l = false ∨ ∃ i, l < i < l' ∧ i ≠ m)).
Proof.
  intros HL HR Hl Hr Hm. unfold escanA_up.
  apply (iter_inv (λ '(x, e), l ≤ x < r ∧ (∀ i, l < i ≤ x → i = m ∨ cmp (elt a i) (elt a m) ≤ 0) ∧
    (e = true → eq_l = true ∧ ∀ i, l < i ≤ x → i = m ∨ cmp (elt a i) (elt a m) = 0) ∧
    (e = false → eq_l = false ∨ ∃ i, l < i ≤ x ∧ i ≠ m)) (λ '(x, _), Z.to_nat (r - x))).
  - split_and!; [lia|lia|intros i; lia|intros ->; split; [done|intros i; lia]|by left].
  - unfold zlen in *. lia.
  - intros [x e] (Hx & Hle & Het & Hef). destruct (Z.eqb_spec (x + 1) r) as [E|E].
    { apply returns_ret. split_and!; [lia|lia|done|done|intros i Hi; apply Hle; lia|intros He; destruct (Het He) as [? H]; split; [done|intros i Hi; apply H; lia]|].
      intros He. destruct (Hef He) as [|(i & Hi & Hne)]; [by left|right; exists i; split; [lia|done]]. }
    assert (∀ (P : Z → Prop), (∀ i, l < i ≤ x → i = m ∨ P i) → (x + 1 = m ∨ P (x + 1)) → ∀ i, l < i ≤ x + 1 → i = m ∨ P i) as Hext.
    { intros P H1 H2 i Hi. destruct (decide (i = x + 1)) as [->|]; [done|apply H1; lia]. }
    destruct (Z.eqb_spec (x + 1) m) as [Em|Em].
    { apply returns_ret. split; [|lia]. split_and!; [lia|lia|apply (Hext (λ i, cmp (elt a i) (elt a m) ≤ 0)); auto| |].
      - intros He. destruct (Het He) as [? H]. split; [done|]. apply (Hext (λ i, cmp (elt a i) (elt a m) = 0)); auto.
      - intros He. destruct (Hef He) as [|(i & Hi & Hne)]; [by left|right; exists i; split; [lia|done]]. }
    rewrite compare_elt by lia. cbn [mbind res_bind]. destruct (Z.ltb_spec 0 (cmp (elt a (x + 1)) (elt a m))) as [Ht|Ht].
    { apply returns_ret. split_and!; [lia|lia|done|intros _; split_and!; [lia|done|done]|intros i Hi; apply Hle; lia|intros He; destruct (Het He) as [? H]; split; [done|intros i Hi; apply H; lia]|].
      intros He. destruct (Hef He) as [|(i & Hi & Hne)]; [by left|right; exists i; split; [lia|done]]. }
    apply returns_ret. split; [|lia]. split_and!; [lia|lia|apply (Hext (λ i, cmp (elt a i) (elt a m) ≤ 0)); auto| |].
    + destruct (Z.ltb_spec (cmp (elt a (x + 1)) (elt a m)) 0); [done|]. intros He. destruct (Het He) as [? Heq]. split; [done|].
      apply (Hext (λ i, cmp (elt a i) (elt a m) = 0)); [done|right; lia].
    + destruct (Z.ltb_spec (cmp (elt a (x + 1)) (elt a m)) 0); [intros _; right; exists (x + 1); split; [lia|done]|].
      intros He. destruct (Hef He) as [|(i & Hi & Hne)]; [by left|right; exists i; split; [lia|done]].
Qed.

Lemma scanA_down_spec a L R l r m eq_l : 0 ≤ L → R < zlen a → L ≤ l < r → r ≤ R → L < m < r →
  returns (escanA_down cmp a l r m eq_l) (λ '(r', m', eq', found), l ≤ r' < r ∧
    (∀ i, r' < i < r → i ≠ m ∧ 0 < cmp (elt a i) (elt a m)) ∧
    (found = false → r' = l ∧ m' = m ∧ eq' = eq_l) ∧
    (found = true → l < r' ∧ (r' = m ∧ m' = l ∧ eq' = eq_l ∨
      r' ≠ m ∧ m' = m ∧ (cmp (elt a r') (elt a m) < 0 ∧ eq' = false ∨ cmp (elt a r') (elt a m) = 0 ∧ eq' = eq_l)))).
Proof.
  intros HL HR Hl Hr Hm. unfold escanA_down.
  apply (iter_inv (λ x, l < x ≤ r ∧ (∀ i, x ≤ i < r → i ≠ m ∧ 0 < cmp (elt a i) (elt a m))) (λ x, Z.to_nat (x - l))).
  - split; [lia|intros i; lia].
  - unfold zlen in *. lia.
  - intros x [Hx Hgt].
    assert (∀ i, x - 1 < i < r → i ≠ m ∧ 0 < cmp (elt a i) (elt a m)) as Hgt' by (intros i Hi; apply Hgt; lia).
    destruct (Z.eqb_spec l (x - 1)) as [E|E]; [apply returns_ret; by split_and!; [lia|lia|done|done|done]|].
    destruct (Z.eqb_spec (x - 1) m) as [Em|Em]; [apply returns_ret; split_and!; [lia|lia|done|done|intros _; split; [lia|by left]]|].
    rewrite compare_elt by lia. cbn [mbind res_bind].
    destruct (Z.ltb_spec (cmp (elt a (x - 1)) (elt a m)) 0) as [Ht|Ht].
    { apply returns_ret. split_and!; [lia|lia|done|done|intros _; split; [lia|right; split_and!; auto]]. }
    destruct (Z.eqb_spec (cmp (elt a (x - 1)) (elt a m)) 0) as [Ht0|Ht0].
    { apply returns_ret. split_and!; [lia|lia|done|done|intros _; split; [lia|right; split_and!; auto]]. }
    apply returns_ret. split; [|lia]. split; [lia|]. intros i Hi. destruct (decide (i = x - 1)) as [->|]; [split; [done|lia]|apply Hgt; lia].
Qed.

(** The median is put between the parts. *)
Lemma finA_spec L R a l m : 0 ≤ L → R < zlen a → L < m < l → l ≤ R + 1 →
  ∃ b, efinA l m a = Ok (l - 2, b) ∧ rearr L R a b ∧
    (∀ i, elt b i = if decide (i = m) then elt a (l - 1) else if decide (i = l - 1) then elt a m else elt a i).
Proof.
  intros HL HR Hm Hl. unfold efinA. destruct (Z.eqb_spec (l - 1) m) as [E|E].
  - exists a. cbn [mbind res_bind]. rewrite <- E. split; [do 2 f_equal; lia|]. split; [apply rearr_refl|].
    intros i. by repeat case_decide; subst.
  - destruct (mmswap_spec L R m (l - 1) a) as (b & -> & Hb & He); [lia..|]. cbn [mbind res_bind]. exists b. split; [do 2 f_equal; lia|done].
Qed.

Lemma finishA L R a0 a x m e er : 0 ≤ L → R < zlen a0 → rearr L R a0 a → L < m < x → x ≤ R →
  (e = false → ∃ i, L < i < x ∧ i ≠ m) → (er = true → x = R) → (er = false → x < R) →
  (CmpLaws cmp → (∀ i, L ≤ i < x → cmp (elt a i) (elt a m) ≤ 0) ∧ (∀ i, x ≤ i ≤ R → cmp (elt a m) (elt a i) < 0) ∧
    (e = true → ∀ i, L < i < x → cmp (elt a i) (elt a m) = 0)) →
  ∃ b, efinA x m a = Ok (x - 2, b) ∧ split_post L R a0 (b, x - 2, x, e, er).
Proof.
  intros HL HR Hre Hm Hx He Hert Herf Hlaw. pose proof Hre as (Hz & _).
  destruct (finA_spec L R a x m) as (b & -> & Hb & Hbe); [lia..|]. exists b. split; [done|].
  split_and!; [by eapply rearr_trans|lia|lia|lia| |done|].
  { intros Ee. destruct (He Ee) as (i & Hi & Hne). lia. }
  intros C. destruct (Hlaw C) as (Hle & Hlt & Heq).
  assert (∀ i, L ≤ i ≤ x - 2 → ∃ j, L ≤ j < x ∧ elt b i = elt a j ∧ (L < i → L < j)) as Hleft.
  { intros i Hi. rewrite Hbe. case_decide; [exists (x - 1); split_and!; [lia|lia|done|lia]|].
    case_decide; [lia|]. exists i. split_and!; [lia|lia|done|lia]. }
  replace (x - 2 + 1) with (x - 1) by lia.
  assert (elt b (x - 1) = elt a m) as ->.
  { rewrite Hbe. destruct (decide (x - 1 = m)) as [<-|]; [done|]. by rewrite decide_True. }
  split_and!.
  - intros i Hi. destruct (Hleft i Hi) as (j & Hj & -> & _). by apply Hle.
  - intros i Hi. rewrite Hbe, decide_False, decide_False by lia. apply Z.lt_le_incl. by apply Hlt.
  - intros Ee i j Hi Hij Hj. destruct (Hleft i ltac:(lia)) as (i' & Hi' & -> & _). destruct (Hleft j ltac:(lia)) as (j' & Hj' & -> & HLj).
    apply (cmp_trans _ (elt a m)); [by apply Hle|]. rewrite (cmp_eq (elt a j') (elt a m)); [done|]. apply Heq; [done|]. lia.
  - intros Ee. apply sorted_on_single. rewrite (Hert Ee). lia.
Qed.

Definition invA L R a0 (q : list A * Z * Z * Z * bool * bool) : Prop :=
  let '(a, l, r, m, eq_l, eq_r) := q in
  rearr L R a0 a ∧ (L ≤ l < r ∧ r ≤ R ∧ L < m < r) ∧ (eq_r = true → r = R) ∧ (eq_r = false → r < R) ∧
  (eq_l = false → ∃ i, L < i ≤ l ∧ i ≠ m) ∧
  (CmpLaws cmp → (∀ i, L ≤ i ≤ l → cmp (elt a i) (elt a m) ≤ 0) ∧ (∀ i, r ≤ i ≤ R → cmp (elt a m) (elt a i) < 0) ∧
    (eq_l = true → ∀ i, L < i ≤ l → cmp (elt a i) (elt a m) = 0)).

Lemma loopA_step L R a0 a l r m eq_l eq_r : 0 ≤ L → R < zlen a0 → invA L R a0 (a, l, r, m, eq_l, eq_r) →
  returns ('(l, eq_l, found) ← escanA_up cmp a r m l eq_l;
    if negb found then '(l, a) ← efinA l m a; Ok (inr (a, l, r, eq_l, eq_r)) else
    '(r, m, eq_l, found) ← escanA_down cmp a l r m eq_l;
    if negb found then '(l, a) ← efinA l m a; Ok (inr (a, l, r, eq_l, false)) else
    a ← eswap l r a;
    Ok (inl (a, l, r, m, eq_l, false)))
  (λ x, match x with
        | inl (a', l', r', m', e', er') => invA L R a0 (a', l', r', m', e', er') ∧ r' - l' < r - l
        | inr y => split_post L R a0 y
        end).
Proof.
  intros HL HR (Hre & (Hl & Hr & Hm) & Hert & Herf & Hef & Hlaw). pose proof Hre as (Hz & _).
  eapply returns_bind_mono; [apply (scanA_up_spec a L R l r m eq_l); lia|].
  intros [[l1 e1] found] (Hl1 & Hnf & Hf & Hle1 & Het1 & Hef1).
  assert (e1 = false → ∃ i, L < i < l1 ∧ i ≠ m) as Hef1'.
  { intros E. destruct (Hef1 E) as [E'|(i & Hi & Hne)]; [destruct (Hef E') as (i & Hi & Hne)|]; exists i; split; lia || done. }
  assert (CmpLaws cmp → (∀ i, L ≤ i < l1 → cmp (elt a i) (elt a m) ≤ 0) ∧ (e1 = true → ∀ i, L < i < l1 → cmp (elt a i) (elt a m) = 0)) as Hlaw1.
  { intros C. destruct (Hlaw C) as (Hle & _ & Heq). split.
    - intros i Hi. destruct (decide (i ≤ l)); [apply Hle; lia|]. destruct (Hle1 i ltac:(lia)) as [->|]; [|done]. rewrite cmp_refl. lia.
    - intros E i Hi. destruct (Het1 E) as [E' H1]. destruct (decide (i ≤ l)); [apply Heq; [done|lia]|].
      destruct (H1 i ltac:(lia)) as [->|]; [|done]. apply cmp_refl. }
  destruct found; cbn [negb].
  - destruct (Hf eq_refl) as (Hl1r & Hl1m & Hgt). clear Hf Hnf.
    eapply returns_bind_mono; [apply (scanA_down_spec a L R l1 r m e1); lia|].
    intros [[[r1 m1] e2] found] (Hr1 & Hgt1 & Hnf & Hf).
    assert (CmpLaws cmp → ∀ i, r1 < i ≤ R → cmp (elt a m) (elt a i) < 0) as Hright.
    { intros C i Hi. destruct (Hlaw C) as (_ & Hlt & _). destruct (decide (r ≤ i)); [apply Hlt; lia|].
      apply cmp_flip. apply Hgt1. lia. }
    destruct found; cbn [negb].
    + destruct (Hf eq_refl) as [Hlr Hcase]. clear Hf Hnf. destruct (mmswap_spec L R l1 r1 a) as (b & -> & Hb & Hbe); [lia..|].
      cbn [mbind res_bind]. apply returns_ret. split; [|lia].
      assert (elt b m1 = elt a m ∧ L < m1 < r1 ∧ (e2 = false → ∃ i, L < i ≤ l1 ∧ i ≠ m1) ∧
        (CmpLaws cmp → cmp (elt a r1) (elt a m) ≤ 0 ∧ (e2 = true → e1 = true ∧ cmp (elt a r1) (elt a m) = 0))) as (Hm1 & Hm1r & He2 & Hlr1).
      { destruct Hcase as [(-> & -> & ->)|(Hrm & -> & Hc)].
        - rewrite Hbe, decide_True by done. split_and!; [done|lia|lia| |].
          + intros E. destruct (Hef1' E) as (i & Hi & Hne). exists i. split; lia.
          + intros C. rewrite cmp_refl. split; [lia|done].
        - assert (m < r1) by (destruct (decide (m < r1)); [done|]; destruct (Hgt1 m ltac:(lia)); done).
          rewrite Hbe, decide_False, decide_False by lia. split_and!; [done|lia|lia| |].
          + destruct Hc as [[_ ->]|[_ ->]]; [intros _; exists l1; split; [lia|done]|].
            intros E. destruct (Hef1' E) as (i & Hi & Hne). exists i. split; [lia|done].
          + intros _. destruct Hc as [[? ->]|[? ->]]; (split; [lia|done]). }
      split_and!; [by eapply rearr_trans|lia|lia|lia|lia|lia|done|lia|done|].
      intros C. destruct (Hlaw1 C) as [Hle' Heq']. destruct (Hlr1 C) as [Hr1le Hr1eq]. rewrite Hm1. split_and!.
      * intros i Hi. rewrite Hbe. destruct (decide (i = l1)); [done|]. rewrite decide_False by lia. apply Hle'. lia.
      * intros i Hi. rewrite Hbe, decide_False by lia. destruct (decide (i = r1)); [by apply cmp_flip|]. apply Hright; [done|lia].
      * intros E i Hi. destruct (Hr1eq E) as [E1 Hr1e]. rewrite Hbe. destruct (decide (i = l1)); [done|]. rewrite decide_False by lia. apply Heq'; [done|lia].
    + destruct (Hnf eq_refl) as (-> & -> & ->).
      assert (m < l1) by (destruct (decide (m < l1)); [done|]; destruct (Hgt1 m ltac:(lia)); done).
      destruct (finishA L R a0 a l1 m e1 false) as (b & -> & Hpost); [lia|lia|done|lia|lia|done|done|lia| |].
      { intros C. destruct (Hlaw1 C) as [Hle' Heq']. split_and!; [done| |done].
        intros i Hi. destruct (decide (i = l1)) as [->|]; [by apply cmp_flip|]. apply Hright; [done|lia]. }
      cbn [mbind res_bind]. by apply returns_ret.
  - rewrite (Hnf eq_refl) in *. destruct (finishA L R a0 a r m e1 eq_r) as (b & -> & Hpost); [lia|lia|done|lia|lia|done|done|done| |].
    { intros C. destruct (Hlaw1 C) as [Hle' Heq']. destruct (Hlaw C) as (_ & Hlt & _). done. }
    cbn [mbind res_bind]. by apply returns_ret.
Qed.

Lemma loopA_spec L R a m : 0 ≤ L → R < zlen a → L < m < R →
  (CmpLaws cmp → cmp (elt a L) (elt a m) ≤ 0 ∧ cmp (elt a m) (elt a R) < 0) →
  returns (eloopA cmp L R m a) (split_post L R a).
Proof.
  intros HL HR Hm Hlaw. unfold eloopA.
  apply (iter_inv (invA L R a) (λ '(_, l, r, _, _, _), Z.to_nat (r - l))).
  - split_and!; [apply rearr_refl|lia..|done|done|done|]. intros C. destruct (Hlaw C) as [H1 H2].
    split_and!; [intros i Hi; by replace i with L by lia|intros i Hi; by replace i with R by lia|intros _ i; lia].
  - unfold zlen in *. lia.
  - intros [[[[[a1 l] r] m1] e] er] Hinv. eapply returns_mono; [by apply (loopA_step L R a)|].
    intros [[[[[[a2 l2] r2] m2] e2] er2]|y]; [|done]. intros [Hinv2 Hlt]. split; [done|]. destruct Hinv as (_ & (? & ? & ?) & _). lia.
Qed.

(** ** Splitting type B, the mirror image *)

Lemma scanB_down_spec a L R l r m eq_r : 0 ≤ L → R < zlen a → L ≤ l < r → r ≤ R → l < m < R →
  returns (escanB_down cmp a l m r eq_r) (λ '(r', eq', found), l ≤ r' < r ∧
    (found = false → r' = l) ∧ (found = true → l < r' ∧ r' ≠ m ∧ cmp (elt a r') (elt a m) < 0) ∧
    (∀ i, r' < i < r → i = m ∨ 0 ≤ cmp (elt a i) (elt a m)) ∧
    (eq' = true → eq_r = true ∧ ∀ i, r' < i < r → i = m ∨ cmp (elt a i) (elt a m) = 0) ∧
    (eq' = false → eq_r = false ∨ ∃ i, r' < i < r ∧ i ≠ m)).
Proof.
  intros HL HR Hl Hr Hm. unfold escanB_down.
  apply (iter_inv (λ '(x, e), l < x ≤ r ∧ (∀ i, x ≤ i < r → i = m ∨ 0 ≤ cmp (elt a i) (elt a m)) ∧
    (e = true → eq_r = true ∧ ∀ i, x ≤ i < r → i = m ∨ cmp (elt a i) (elt a m) = 0) ∧
    (e = false → eq_r = false ∨ ∃ i, x ≤ i < r ∧ i ≠ m)) (λ '(x, _), Z.to_nat (x - l))).
  - split_and!; [lia|lia|intros i; lia|intros ->; split; [done|intros i; lia]|by left].
  - unfold zlen in *. lia.
  - intros [x e] (Hx & Hge & Het & Hef). destruct (Z.eqb_spec l (x - 1)) as [E|E].
    { apply returns_ret. split_and!; [lia|lia|done|done|intros i Hi; apply Hge; lia|intros He; destruct (Het He) as [? H]; split; [done|intros i Hi; apply H; lia]|].
      intros He. destruct (Hef He) as [|(i & Hi & Hne)]; [by left|right; exists i; split; [lia|done]]. }
    assert (∀ (P : Z → Prop), (∀ i, x ≤ i < r → i = m ∨ P i) → (x - 1 = m ∨ P (x - 1)) → ∀ i, x - 1 ≤ i < r → i = m ∨ P i) as Hext.
    { intros P H1 H2 i Hi. destruct (decide (i = x - 1)) as [->|]; [done|apply H1; lia]. }
    destruct (Z.eqb_spec (x - 1) m) as [Em|Em].
    { apply returns_ret. split; [|lia]. split_and!; [lia|lia|apply (Hext (λ i, 0 ≤ cmp (elt a i) (elt a m))); auto| |].
      - intros He. destruct (Het He) as [? H]. split; [done|]. apply (Hext (λ i, cmp (elt a i) (elt a m) = 0)); auto.
      - intros He. destruct (Hef He) as [|(i & Hi & Hne)]; [by left|right; exists i; split; [lia|done]]. }
    rewrite compare_elt by lia. cbn [mbind res_bind]. destruct (Z.ltb_spec (cmp (elt a (x - 1)) (elt a m)) 0) as [Ht|Ht].
    { apply returns_ret. split_and!; [lia|lia|done|intros _; split_and!; [lia|done|done]|intros i Hi; apply Hge; lia|intros He; destruct (Het He) as [? H]; split; [done|intros i Hi; apply H; lia]|].
      intros He. destruct (Hef He) as [|(i & Hi & Hne)]; [by left|right; exists i; split; [lia|done]]. }
    apply returns_ret. split; [|lia]. split_and!; [lia|lia|apply (Hext (λ i, 0 ≤ cmp (elt a i) (elt a m))); auto| |].
    + destruct (Z.ltb_spec 0 (cmp (elt a (x - 1)) (elt a m))); [done|]. intros He. destruct (Het He) as [? Heq]. split; [done|].
      apply (Hext (λ i, cmp (elt a i) (elt a m) = 0)); [done|right; lia].
    + destruct (Z.ltb_spec 0 (cmp (elt a (x - 1)) (elt a m))); [intros _; right; exists (x - 1); split; [lia|done]|].
      intros He. destruct (Hef He) as [|(i & Hi & Hne)]; [by left|right; exists i; split; [lia|done]].
Qed.

Lemma scanB_up_spec a L R l r m eq_r : 0 ≤ L → R < zlen a → L ≤ l < r → r ≤ R → l < m < R →
  returns (escanB_up cmp a l r m eq_r) (λ '(l', m', eq', found), l < l' ≤ r ∧
    (∀ i, l < i < l' → i ≠ m ∧ cmp (elt a i) (elt a m) < 0) ∧
    (found = false → l' = r ∧ m' = m ∧ eq' = eq_r) ∧
    (found = true → l' < r ∧ (l' = m ∧ m' = r ∧ eq' = eq_r ∨
      l' ≠ m ∧ m' = m ∧ (0 < cmp (elt a l') (elt a m) ∧ eq' = false ∨ cmp (elt a l') (elt a m) = 0 ∧ eq' = eq_r)))).
Proof.
  intros HL HR Hl Hr Hm. unfold escanB_up.
  apply (iter_inv (λ x, l ≤ x < r ∧ (∀ i, l < i ≤ x → i ≠ m ∧ cmp (elt a i) (elt a m) < 0)) (λ x, Z.to_nat (r - x))).
  - split; [lia|intros i; lia].
  - unfold zlen in *. lia.
  - intros x [Hx Hlt].
    assert (∀ i, l < i < x + 1 → i ≠ m ∧ cmp (elt a i) (elt a m) < 0) as Hlt' by (intros i Hi; apply Hlt; lia).
    destruct (Z.eqb_spec (x + 1) r) as [E|E]; [apply returns_ret; by split_and!; [lia|lia|done|done|done]|].
    destruct (Z.eqb_spec (x + 1) m) as [Em|Em]; [apply returns_ret; split_and!; [lia|lia|done|done|intros _; split; [lia|by left]]|].
    rewrite compare_elt by lia. cbn [mbind res_bind].
    destruct (Z.ltb_spec 0 (cmp (elt a (x + 1)) (elt a m))) as [Ht|Ht].
    { apply returns_ret. split_and!; [lia|lia|done|done|intros _; split; [lia|right; split_and!; auto]]. }
    destruct (Z.eqb_spec (cmp (elt a (x + 1)) (elt a m)) 0) as [Ht0|Ht0].
    { apply returns_ret. split_and!; [lia|lia|done|done|intros _; split; [lia|right; split_and!; auto]]. }
    apply returns_ret. split; [|lia]. split; [lia|]. intros i Hi. destruct (decide (i = x + 1)) as [->|]; [split; [done|lia]|apply Hlt; lia].
Qed.

Lemma finB_spec L R a r m : 0 ≤ L → R < zlen a → r < m < R → L - 1 ≤ r →
  ∃ b, efinB r m a = Ok (r + 2, b) ∧ rearr L R a b ∧
    (∀ i, elt b i = if decide (i = r + 1) then elt a m else if decide (i = m) then elt a (r + 1) else elt a i).
Proof.
  intros HL HR Hm Hr. unfold efinB. destruct (Z.eqb_spec (r + 1) m) as [E|E].
  - exists a. cbn [mbind res_bind]. rewrite <- E. split; [do 2 f_equal; lia|]. split; [apply rearr_refl|].
    intros i. by repeat case_decide; subst.
  - destruct (mmswap_spec L R (r + 1) m a) as (b & -> & Hb & He); [lia..|]. cbn [mbind res_bind]. exists b. split; [do 2 f_equal; lia|done].
Qed.

Lemma finishB L R a0 a x m e er : 0 ≤ L → R < zlen a0 → rearr L R a0 a → x < m < R → L ≤ x →
  (er = false → ∃ i, x < i < R ∧ i ≠ m) → (e = true → x = L) → (e = false → L < x) →
  (CmpLaws cmp → (∀ i, x < i ≤ R → cmp (elt a m) (elt a i) ≤ 0) ∧ (∀ i, L ≤ i ≤ x → cmp (elt a i) (elt a m) < 0) ∧
    (er = true → ∀ i, x < i < R → cmp (elt a m) (elt a i) = 0)) →
  ∃ b, efinB x m a = Ok (x + 2, b) ∧ split_post L R a0 (b, x, x + 2, e, er).
Proof.
  intros HL HR Hre Hm Hx He Hert Herf Hlaw. pose proof Hre as (Hz & _).
  destruct (finB_spec L R a x m) as (b & -> & Hb & Hbe); [lia..|]. exists b. split; [done|].
  split_and!; [by eapply rearr_trans|lia|lia|lia|done| |].
  { intros Ee. destruct (He Ee) as (i & Hi & Hne). lia. }
  intros C. destruct (Hlaw C) as (Hge & Hlt & Heq).
  assert (∀ i, x + 2 ≤ i ≤ R → ∃ j, x < j ≤ R ∧ elt b i = elt a j ∧ (i < R → j < R)) as Hright.
  { intros i Hi. rewrite Hbe. case_decide; [lia|]. case_decide; [exists (x + 1); split_and!; [lia|lia|done|lia]|].
    exists i. split_and!; [lia|lia|done|lia]. }
  assert (elt b (x + 1) = elt a m) as -> by (rewrite Hbe; by rewrite decide_True).
  split_and!.
  - intros i Hi. rewrite Hbe, decide_False, decide_False by lia. apply Z.lt_le_incl. by apply Hlt.
  - intros i Hi. destruct (Hright i Hi) as (j & Hj & -> & _). by apply Hge.
  - intros Ee. apply sorted_on_single. rewrite (Hert Ee). lia.
  - intros Ee i j Hi Hij Hj. destruct (Hright i ltac:(lia)) as (i' & Hi' & -> & HRi). destruct (Hright j ltac:(lia)) as (j' & Hj' & -> & _).
    apply (cmp_trans _ (elt a m)); [|by apply Hge]. rewrite (cmp_eq (elt a m) (elt a i')); [done|]. apply Heq; [done|]. lia.
Qed.

Definition invB L R a0 (q : list A * Z * Z * Z * bool * bool) : Prop :=
  let '(a, l, r, m, eq_l, eq_r) := q in
  rearr L R a0 a ∧ (L ≤ l < r ∧ r ≤ R ∧ l < m < R) ∧ (eq_l = true → l = L) ∧ (eq_l = false → L < l) ∧
  (eq_r = false → ∃ i, r ≤ i < R ∧ i ≠ m) ∧
  (CmpLaws cmp → (∀ i, r ≤ i ≤ R → cmp (elt a m) (elt a i) ≤ 0) ∧ (∀ i, L ≤ i ≤ l → cmp (elt a i) (elt a m) < 0) ∧
    (eq_r = true → ∀ i, r ≤ i < R → cmp (elt a m) (elt a i) = 0)).

Lemma loopB_step L R a0 a l r m eq_l eq_r : 0 ≤ L → R < zlen a0 → invB L R a0 (a, l, r, m, eq_l, eq_r) →
  returns ('(r, eq_r, found) ← escanB_down cmp a l m r eq_r;
    if negb found then '(r, a) ← efinB r m a; Ok (inr (a, l, r, eq_l, eq_r)) else
    '(l, m, eq_r, found) ← escanB_up cmp a l r m eq_r;
    if negb found then '(r, a) ← efinB r m a; Ok (inr (a, l, r, false, eq_r)) else
    a ← eswap l r a;
    Ok (inl (a, l, r, m, false, eq_r)))
  (λ x, match x with
        | inl (a', l', r', m', e', er') => invB L R a0 (a', l', r', m', e', er') ∧ r' - l' < r - l
        | inr y => split_post L R a0 y
        end).
Proof.
  intros HL HR (Hre & (Hl & Hr & Hm) & Hert & Herf & Hef & Hlaw). pose proof Hre as (Hz & _).
  eapply returns_bind_mono; [apply (scanB_down_spec a L R l r m eq_r); lia|].
  intros [[r1 e1] found] (Hr1 & Hnf & Hf & Hge1 & Het1 & Hef1).
  assert (e1 = false → ∃ i, r1 < i < R ∧ i ≠ m) as Hef1'.
  { intros E. destruct (Hef1 E) as [E'|(i & Hi & Hne)]; [destruct (Hef E') as (i & Hi & Hne)|]; exists i; split; lia || done. }
  assert (CmpLaws cmp → (∀ i, r1 < i ≤ R → cmp (elt a m) (elt a i) ≤ 0) ∧ (e1 = true → ∀ i, r1 < i < R → cmp (elt a m) (elt a i) = 0)) as Hlaw1.
  { intros C. destruct (Hlaw C) as (Hge & _ & Heq). split.
    - intros i Hi. destruct (decide (r ≤ i)); [apply Hge; lia|]. destruct (Hge1 i ltac:(lia)) as [->|]; [rewrite cmp_refl; lia|by apply cmp_ge].
    - intros E i Hi. destruct (Het1 E) as [E' H1]. destruct (decide (r ≤ i)); [apply Heq; [done|lia]|].
      destruct (H1 i ltac:(lia)) as [->|]; [apply cmp_refl|by apply cmp_eq]. }
  destruct found; cbn [negb].
  - destruct (Hf eq_refl) as (Hr1l & Hr1m & Hlt0). clear Hf Hnf.
    eapply returns_bind_mono; [apply (scanB_up_spec a L R l r1 m e1); lia|].
    intros [[[l1 m1] e2] found] (Hl1 & Hlt1 & Hnf & Hf).
    assert (CmpLaws cmp → ∀ i, L ≤ i < l1 → cmp (elt a i) (elt a m) < 0) as Hleft.
    { intros C i Hi. destruct (Hlaw C) as (_ & Hlt & _). destruct (decide (i ≤ l)); [apply Hlt; lia|]. apply Hlt1. lia. }
    destruct found; cbn [negb].
    + destruct (Hf eq_refl) as [Hlr Hcase]. clear Hf Hnf. destruct (mmswap_spec L R l1 r1 a) as (b & -> & Hb & Hbe); [lia..|].
      cbn [mbind res_bind]. apply returns_ret. split; [|lia].
      assert (elt b m1 = elt a m ∧ l1 < m1 < R ∧ (e2 = false → ∃ i, r1 ≤ i < R ∧ i ≠ m1) ∧
        (CmpLaws cmp → cmp (elt a m) (elt a l1) ≤ 0 ∧ (e2 = true → e1 = true ∧ cmp (elt a m) (elt a l1) = 0))) as (Hm1 & Hm1r & He2 & Hlr1).
      { destruct Hcase as [(-> & -> & ->)|(Hrm & -> & Hc)].
        - rewrite Hbe, decide_False, decide_True by lia. split_and!; [done|lia|lia| |].
          + intros E. destruct (Hef1' E) as (i & Hi & Hne). exists i. split; lia.
          + intros C. rewrite cmp_refl. split; [lia|done].
        - assert (l1 < m) by (destruct (decide (l1 < m)); [done|]; destruct (Hlt1 m ltac:(lia)); done).
          rewrite Hbe, decide_False, decide_False by lia. split_and!; [done|lia|lia| |].
          + destruct Hc as [[_ ->]|[_ ->]]; [intros _; exists r1; split; [lia|done]|].
            intros E. destruct (Hef1' E) as (i & Hi & Hne). exists i. split; [lia|done].
          + intros C. destruct Hc as [[? ->]|[? ->]]; (split; [apply cmp_ge; lia|]); [done|]. intros ->. split; [done|by apply cmp_eq]. }
      split_and!; [by eapply rearr_trans|lia|lia|lia|lia|lia|done|lia|done|].
      intros C. destruct (Hlaw1 C) as [Hge' Heq']. destruct (Hlr1 C) as [Hr1le Hr1eq]. rewrite Hm1. split_and!.
      * intros i Hi. rewrite Hbe, decide_False by lia. destruct (decide (i = r1)); [done|]. apply Hge'. lia.
      * intros i Hi. rewrite Hbe. destruct (decide (i = l1)); [done|]. rewrite decide_False by lia. apply Hleft; [done|lia].
      * intros E i Hi. destruct (Hr1eq E) as [E1 Hr1e]. rewrite Hbe, decide_False by lia. destruct (decide (i = r1)); [done|]. apply Heq'; [done|lia].
    + destruct (Hnf eq_refl) as (-> & -> & ->).
      assert (r1 < m) by (destruct (decide (r1 < m)); [done|]; destruct (Hlt1 m ltac:(lia)); done).
      destruct (finishB L R a0 a r1 m false e1) as (b & -> & Hpost); [lia|lia|done|lia|lia|done|done|lia| |].
      { intros C. destruct (Hlaw1 C) as [Hge' Heq']. split_and!; [done| |done].
        intros i Hi. destruct (decide (i = r1)) as [->|]; [done|]. apply Hleft; [done|lia]. }
      cbn [mbind res_bind]. by apply returns_ret.
  - rewrite (Hnf eq_refl) in *. destruct (finishB L R a0 a l m eq_l e1) as (b & -> & Hpost); [lia|lia|done|lia|lia|done|done|done| |].
    { intros C. destruct (Hlaw1 C) as [Hge' Heq']. destruct (Hlaw C) as (_ & Hlt & _). done. }
    cbn [mbind res_bind]. by apply returns_ret.
Qed.

Lemma loopB_spec L R a m : 0 ≤ L → R < zlen a → L < m < R →
  (CmpLaws cmp → cmp (elt a L) (elt a m) < 0 ∧ cmp (elt a m) (elt a R) ≤ 0) →
  returns (eloopB cmp L R m a) (split_post L R a).
Proof.
  intros HL HR Hm Hlaw. unfold eloopB.
  apply (iter_inv (invB L R a) (λ '(_, l, r, _, _, _), Z.to_nat (r - l))).
  - split_and!; [apply rearr_refl|lia..|done|done|done|]. intros C. destruct (Hlaw C) as [H1 H2].
    split_and!; [intros i Hi; by replace i with R by lia|intros i Hi; by replace i with L by lia|intros _ i; lia].
  - unfold zlen in *. lia.
  - intros [[[[[a1 l] r] m1] e] er] Hinv. eapply returns_mono; [by apply (loopB_step L R a)|].
    intros [[[[[[a2 l2] r2] m2] e2] er2]|y]; [|done]. intros [Hinv2 Hlt]. split; [done|]. destruct Hinv as (_ & (? & ? & ?) & _). lia.
Qed.
End split.
