(* ===== verification/QsortMem.v ===== *)
(** * util.c: the quicksort in memory

    [mmswap_] and [mmrot3_] move blocks of the size of an element, by words of four bytes or by bytes.  The sort
    in memory does what the sort of a list of elements (QsortElem.v) does: a simulation, function by function. *)

From S2P Require Import Prelude Qsort QsortElem QsortSpec.

Section mem.
Implicit Types (mem : list Z) (a b c n k : Z) (mv : list (Z * Z)).

(** The blocks of [n] bytes at the sources of [mv] are at its destinations; all else is
    as before. *)
Definition moved n mv mem mem' : Prop :=
  zlen mem' = zlen mem ∧
  (∀ d s i, (d, s) ∈ mv → 0 ≤ i < n → zlookup mem' (d + i) = zlookup mem (s + i)) ∧
  (∀ j, (∀ d s, (d, s) ∈ mv → ¬ d ≤ j < d + n) → zlookup mem' j = zlookup mem j).

(** The blocks of [n] bytes at the addresses of [mv] lie in memory and apart from each other, and every source is a
    destination. *)
Definition blocks_ok n mv mem : Prop :=
  (∀ d s, (d, s) ∈ mv → 0 ≤ d ∧ d + n ≤ zlen mem ∧ ∃ s', (s, s') ∈ mv) ∧
  (∀ d s d' s', (d, s) ∈ mv → (d', s') ∈ mv → d = d' ∨ d + n ≤ d' ∨ d' + n ≤ d).

Definition shift k mv : list (Z * Z) := prod_map (Z.add k) (Z.add k) <$> mv.

Lemma shift_elem k mv d s : (d, s) ∈ shift k mv ↔ (d - k, s - k) ∈ mv.
Proof.
  unfold shift. rewrite list_elem_of_fmap. split.
  - intros ([d' s'] & E & H). cbn in E. injection E as -> ->. by replace (k + d' - k, k + s' - k) with (d', s') by (f_equal; lia).
  - intros H. exists (d - k, s - k). split; [cbn; f_equal; lia|done].
Qed.

Lemma moved_0 mv mem : moved 0 mv mem mem.
Proof. split_and!; [done|intros; lia|done]. Qed.

Lemma moved_app k n mv mem mem1 mem2 : 0 ≤ k → 0 ≤ n → blocks_ok (k + n) mv mem →
  moved k mv mem mem1 → moved n (shift k mv) mem1 mem2 → moved (k + n) mv mem mem2.
Proof.
  intros Hk Hn [Hin Hap] (Z1 & M1 & O1) (Z2 & M2 & O2). split_and!; [lia| |].
  - intros d s i Hds Hi. destruct (Hin d s Hds) as (_ & _ & s' & Hs').
    assert (∀ x y d' y', (x, y) ∈ mv → (d', y') ∈ mv → x = d' ∨ x + (k + n) ≤ d' ∨ d' + (k + n) ≤ x) as Hap' by eauto.
    destruct (decide (i < k)).
    + rewrite O2; [by apply M1; [|lia]|]. intros d' y' Hd'%shift_elem. pose proof (Hap' _ _ _ _ Hds Hd'). lia.
    + replace (d + i) with (d + k + (i - k)) by lia.
      rewrite (M2 _ (s + k)); [|apply shift_elem; by replace (d + k - k, s + k - k) with (d, s) by (f_equal; lia)|lia].
      replace (s + k + (i - k)) with (s + i) by lia. rewrite O1; [done|]. intros d' y' Hd'. pose proof (Hap' _ _ _ _ Hs' Hd'). lia.
  - intros j Hj. rewrite O2; [apply O1|].
    + intros d s Hds. specialize (Hj d s Hds). lia.
    + intros d s Hds%shift_elem. specialize (Hj _ _ Hds). lia.
Qed.

Lemma blocks_sub k n n' mv mem mem1 : 0 ≤ k → 0 ≤ n' → k + n' ≤ n → zlen mem1 = zlen mem → blocks_ok n mv mem → blocks_ok n' (shift k mv) mem1.
Proof.
  intros Hk Hn' Hn Hz [Hin Hap]. split.
  - intros d s Hds%shift_elem. destruct (Hin _ _ Hds) as (H1 & H2 & s' & Hs'). split_and!; [lia|lia|]. exists (s' + k). apply shift_elem.
    by replace (s' + k - k) with s' by lia.
  - intros d s d' s' H1%shift_elem H2%shift_elem. pose proof (Hap _ _ _ _ H1 H2). lia.
Qed.

(** ** One word or byte *)

Lemma ld_ok mem a n : 0 ≤ a → 0 ≤ n → a + n ≤ zlen mem →
  ∃ bs, ld mem a n = Ok bs ∧ zlen bs = n ∧ ∀ i, 0 ≤ i < n → zlookup bs i = zlookup mem (a + i).
Proof.
  intros Ha Hn Hm. unfold ld. rewrite (proj2 (Z.leb_le 0 a)), (proj2 (Z.leb_le 0 n)), (proj2 (Z.leb_le (a + n) _)) by lia. eexists. split; [done|]. split.
  - unfold zlen in *. rewrite length_take, length_drop. lia.
  - intros i Hi. rewrite zlookup_take, zlookup_drop by lia. repeat case_decide; try lia; f_equal; lia.
Qed.

Lemma st_ok mem a bs : 0 ≤ a → a + zlen bs ≤ zlen mem →
  ∃ mem', st mem a bs = Ok mem' ∧ zlen mem' = zlen mem ∧
    ∀ j, zlookup mem' j = if decide (a ≤ j < a + zlen bs) then zlookup bs (j - a) else zlookup mem j.
Proof.
  intros Ha Hm. unfold st. rewrite (proj2 (Z.leb_le 0 a)), (proj2 (Z.leb_le _ _)) by lia. eexists. split; [done|]. split.
  - unfold zlen in *. rewrite !length_app, length_take, length_drop. lia.
  - intros j. unfold zlen in *. destruct (decide (j < 0)).
    { rewrite decide_False by lia. unfold zlookup. by rewrite (proj2 (Z.leb_gt _ _)) by lia. }
    rewrite !zlookup_nonneg by lia. case_decide.
    + rewrite lookup_app_r by (rewrite length_take; lia). rewrite lookup_app_l by (rewrite length_take; lia).
      rewrite zlookup_nonneg by lia. f_equal. rewrite length_take. lia.
    + destruct (decide (j < a)).
      * rewrite lookup_app_l by (rewrite length_take; lia). rewrite zlookup_nonneg by lia. apply lookup_take_lt. lia.
      * rewrite lookup_app_r by (rewrite length_take; lia). rewrite lookup_app_r by (rewrite length_take; lia).
        rewrite lookup_drop, zlookup_nonneg by lia. f_equal. rewrite length_take. lia.
Qed.

Lemma xchg_spec mem n a b : 0 ≤ n → blocks_ok n [(a, b); (b, a)] mem → a ≠ b →
  returns (xchg n a b mem) (moved n [(a, b); (b, a)] mem).
Proof.
  intros Hn [Hin Hap] Hne. destruct (Hin a b) as (Ha1 & Ha2 & _); [set_solver|]. destruct (Hin b a) as (Hb1 & Hb2 & _); [set_solver|].
  destruct (Hap a b b a) as [|Hd]; [set_solver|set_solver|done|].
  unfold xchg. destruct (ld_ok mem a n) as (s & -> & Zs & Hs); [lia..|]. cbn [mbind res_bind].
  destruct (ld_ok mem b n) as (t & -> & Zt & Ht); [lia..|]. cbn [mbind res_bind].
  destruct (st_ok mem a t) as (m1 & -> & Z1 & H1); [lia..|]. cbn [mbind res_bind].
  destruct (st_ok m1 b s) as (m2 & -> & Z2 & H2); [lia..|]. apply returns_ret. split_and!; [lia| |].
  - intros d x i [[= -> ->]|[[= -> ->]|[]%elem_of_nil]%elem_of_cons]%elem_of_cons Hi; rewrite H2, ?H1.
    + rewrite decide_False, decide_True by lia. rewrite Ht by lia. f_equal. lia.
    + rewrite decide_True by lia. rewrite Hs by lia. f_equal. lia.
  - intros j Hj. rewrite H2, H1. pose proof (Hj a b ltac:(set_solver)). pose proof (Hj b a ltac:(set_solver)).
    by rewrite !decide_False by lia.
Qed.

Lemma rot_spec mem n a b c : 0 ≤ n → blocks_ok n [(a, b); (b, c); (c, a)] mem → a ≠ b → b ≠ c → a ≠ c →
  returns (rot n a b c mem) (moved n [(a, b); (b, c); (c, a)] mem).
Proof.
  intros Hn [Hin Hap] Hab Hbc Hac. destruct (Hin a b) as (Ha1 & Ha2 & _); [set_solver|]. destruct (Hin b c) as (Hb1 & Hb2 & _); [set_solver|].
  destruct (Hin c a) as (Hc1 & Hc2 & _); [set_solver|].
  destruct (Hap a b b c) as [|Hd1]; [set_solver|set_solver|done|]. destruct (Hap b c c a) as [|Hd2]; [set_solver|set_solver|done|].
  destruct (Hap a b c a) as [|Hd3]; [set_solver|set_solver|done|].
  unfold rot. destruct (ld_ok mem a n) as (s & -> & Zs & Hs); [lia..|]. cbn [mbind res_bind].
  destruct (ld_ok mem b n) as (t & -> & Zt & Ht); [lia..|]. cbn [mbind res_bind].
  destruct (st_ok mem a t) as (m1 & -> & Z1 & H1); [lia..|]. cbn [mbind res_bind].
  destruct (ld_ok m1 c n) as (u & -> & Zu & Hu); [lia..|]. cbn [mbind res_bind].
  destruct (st_ok m1 b u) as (m2 & -> & Z2 & H2); [lia..|]. cbn [mbind res_bind].
  destruct (st_ok m2 c s) as (m3 & -> & Z3 & H3); [lia..|]. apply returns_ret. split_and!; [lia| |].
  - intros d x i [[= -> ->]|[[= -> ->]|[[= -> ->]|[]%elem_of_nil]%elem_of_cons]%elem_of_cons]%elem_of_cons Hi; rewrite H3, ?H2, ?H1.
    + rewrite decide_False, decide_False, decide_True by lia. rewrite Ht by lia. f_equal. lia.
    + rewrite decide_False, decide_True by lia. rewrite Hu, H1, decide_False by lia. f_equal. lia.
    + rewrite decide_True by lia. rewrite Hs by lia. f_equal. lia.
  - intros j Hj. rewrite H3, H2, H1. pose proof (Hj a b ltac:(set_solver)). pose proof (Hj b c ltac:(set_solver)). pose proof (Hj c a ltac:(set_solver)).
    by rewrite !decide_False by lia.
Qed.

(** ** Whole elements *)

Lemma mmprepare_aligned base size : base mod 4 = 0 → 0 < size → size mod 4 = 0 →
  mmprepare base size = mkArg (if 16 <=? size then 1 else 0) size (16 * (size / 16)) (size mod 16).
Proof.
  intros Hb H0 Hs. unfold mmprepare.
  assert (Z.land base 3 = 0) as -> by (change 3 with (Z.ones 2); by rewrite Z.land_ones).
  assert (Z.land size (-16) = 16 * (size / 16)) as ->.
  { change (-16) with (Z.lnot (Z.ones 4)). rewrite <- Z.ldiff_land, Z.ldiff_ones_r by lia. rewrite Z.shiftl_mul_pow2, Z.shiftr_div_pow2 by lia. change (2 ^ 4) with 16. lia. }
  assert (Z.land size 12 = size mod 16) as ->; [|done].
  change 12 with (Z.land (Z.ones 4) 12) at 1. rewrite Z.land_assoc, Z.land_ones by lia. change (2 ^ 4) with 16.
  pose proof (Z.mod_pos_bound size 16 ltac:(lia)) as Hr. assert (size mod 16 mod 4 = 0) as Hr4.
  { rewrite <- Hs. symmetry. apply Znumtheory.Zmod_div_mod; [lia|lia|]. by exists 4. }
  assert (size mod 16 = 0 ∨ size mod 16 = 4 ∨ size mod 16 = 8 ∨ size mod 16 = 12) as Hc.
  { pose proof (Z.div_mod (size mod 16) 4 ltac:(lia)). lia. }
  by destruct Hc as [->|[->|[->| ->]]].
Qed.

Lemma mmprepare_unaligned base size : base mod 4 ≠ 0 → mmkind (mmprepare base size) = -1 ∧ msize (mmprepare base size) = size.
Proof.
  intros Hb. unfold mmprepare. assert (Z.land base 3 ≠ 0) by (change 3 with (Z.ones 2); by rewrite Z.land_ones).
  by rewrite (proj2 (Z.eqb_neq _ _)).
Qed.

Section swap.
Context (size a b : Z) (mem : list Z).
Hypothesis Hok : blocks_ok size [(a, b); (b, a)] mem.
Hypothesis Hne : a ≠ b.
Local Notation mv := [(a, b); (b, a)].

Lemma xchg_at o n mem1 : 0 ≤ o → 0 ≤ n → o + n ≤ size → moved o mv mem mem1 →
  returns (xchg n (a + o) (b + o) mem1) (moved (o + n) mv mem).
Proof.
  intros Ho Hn Hs Hm. pose proof Hm as (Hz & _).
  assert (shift o mv = [(a + o, b + o); (b + o, a + o)]) as Hsh by (unfold shift; cbn; by rewrite !(Z.add_comm o)).
  eapply returns_mono; [apply xchg_spec; [done|rewrite <- Hsh; by eapply blocks_sub|lia]|].
  intros mem2 Hm2. eapply moved_app; [done|done| |exact Hm|by rewrite Hsh].
  destruct Hok as [Hin Hap]. split.
  - intros d s Hds. destruct (Hin d s Hds) as (? & ? & ?). split_and!; [done|lia|done].
  - intros d s d' s' H1 H2. pose proof (Hap _ _ _ _ H1 H2). lia.
Qed.

Lemma xchg_words_at (k : nat) o a' b' o' mem1 : a' + o' = a + o → b' + o' = b + o → 0 ≤ o → o + 4 * Z.of_nat k ≤ size → moved o mv mem mem1 →
  returns (xchg_words k o' a' b' mem1) (moved (o + 4 * Z.of_nat k) mv mem).
Proof.
  revert o o' mem1. induction k as [|k IH]; intros o o' mem1 Ea Eb Ho Hs Hm; cbn [xchg_words].
  - apply returns_ret. by replace (o + 4 * Z.of_nat 0) with o by lia.
  - rewrite Ea, Eb. eapply returns_bind_mono; [apply xchg_at; [lia..|done]|]. intros mem2 Hm2.
    replace (o + 4 * Z.of_nat (S k)) with (o + 4 + 4 * Z.of_nat k) by lia. apply (IH (o + 4) (o' + 4)); [lia..|done].
Qed.

Lemma mmswap_high_at kind lo : 16 ≤ size →
  returns (mmswap_high (mkArg kind size (16 * (size / 16)) lo) a b mem) (λ '(a', b', mem'),
    a' = a + 16 * (size / 16) ∧ b' = b + 16 * (size / 16) ∧ moved (16 * (size / 16)) mv mem mem').
Proof.
  intros H16. pose proof (Z.div_mod size 16 ltac:(lia)). pose proof (Z.mod_pos_bound size 16 ltac:(lia)). set (q := size / 16) in *.
  unfold mmswap_high. cbn [high].
  apply (iter_inv (λ '(a', b', mem'), ∃ k : Z, 0 ≤ k < q ∧ a' = a + 16 * k ∧ b' = b + 16 * k ∧ moved (16 * k) mv mem mem')
    (λ '(a', _, _), Z.to_nat (16 * q - (a' - a) - 1))).
  - exists 0. split_and!; [lia..|apply moved_0].
  - lia.
  - intros [[a' b'] mem'] (k & Hk & -> & -> & Hm). eapply returns_bind_mono; [apply (xchg_words_at 4 (16 * k)); [lia..|done]|].
    intros mem2 Hm2. replace (16 * k + 4 * Z.of_nat 4) with (16 * (k + 1)) in Hm2 by lia.
    destruct (Z.ltb_spec (a + 16 * k + 16) (a + 16 * q)); apply returns_ret.
    + split; [|lia]. exists (k + 1). split_and!; [lia..|done].
    + replace q with (k + 1) by lia. split_and!; [lia|lia|done].
Qed.

Lemma mmswap_bytes_at arg : 0 < size → msize arg = size → returns (mmswap_bytes arg a b mem) (moved size mv mem).
Proof.
  intros H0 Hs. unfold mmswap_bytes. rewrite Hs.
  apply (iter_inv (λ '(a', b', mem'), ∃ k : Z, 0 ≤ k < size ∧ a' = a + k ∧ b' = b + k ∧ moved k mv mem mem')
    (λ '(a', _, _), Z.to_nat (size - (a' - a) - 1))).
  - exists 0. split_and!; [lia..|apply moved_0].
  - lia.
  - intros [[a' b'] mem'] (k & Hk & -> & -> & Hm). eapply returns_bind_mono; [apply xchg_at; [lia..|done]|].
    intros mem2 Hm2. destruct (Z.ltb_spec (a + k + 1) (a + size)); apply returns_ret.
    + split; [|lia]. exists (k + 1). split_and!; [lia..|done].
    + by replace size with (k + 1) by lia.
Qed.

Lemma mmswap_at base : 0 < size → base mod 4 ≠ 0 ∨ size mod 4 = 0 → returns (mmswap_ (mmprepare base size) a b mem) (moved size mv mem).
Proof.
  intros H0 Hal. unfold mmswap_. rewrite (proj2 (Z.eqb_neq a b)) by done. destruct (decide (base mod 4 = 0)) as [Hb|Hb].
  2: { destruct (mmprepare_unaligned base size Hb) as [-> Hs]. by apply mmswap_bytes_at. }
  destruct Hal as [|H4]; [done|]. rewrite mmprepare_aligned by done. cbn [mmkind low].
  pose proof (Z.div_mod size 16 ltac:(lia)) as Hdm. pose proof (Z.mod_pos_bound size 16 ltac:(lia)) as Hmod.
  assert (size mod 16 = 0 ∨ size mod 16 = 4 ∨ size mod 16 = 8 ∨ size mod 16 = 12) as Hc.
  { pose proof (Z.div_mod size 4 ltac:(lia)). lia. }
  rewrite (proj2 (Z.leb_le _ _)) by (destruct (16 <=? size); lia).
  eapply (returns_bind_mono _ _ (λ '(a', b', mem'), a' = a + 16 * (size / 16) ∧ b' = b + 16 * (size / 16) ∧ moved (16 * (size / 16)) mv mem mem')).
  { destruct (Z.leb_spec 16 size); cbn [Z.ltb Z.compare].
    - by apply mmswap_high_at.
    - apply returns_ret. replace (size / 16) with 0 by (symmetry; apply Z.div_small; lia). split_and!; [lia|lia|apply moved_0]. }
  intros [[a' b'] mem'] (-> & -> & Hm). set (h := 16 * (size / 16)) in *.
  destruct Hc as [E|[E|[E|E]]]; rewrite E in *; cbn [Z.eqb Z.ltb Z.compare Pos.compare Pos.compare_cont Pos.eqb].
  - apply returns_ret. by replace size with h by lia.
  - eapply returns_bind_mono; [apply xchg_at; [lia..|done]|]. intros m1 H1. apply returns_ret. by replace size with (h + 4) by lia.
  - eapply returns_bind_mono; [apply xchg_at; [lia..|done]|]. intros m1 H1. rewrite <- !Z.add_assoc.
    eapply returns_bind_mono; [apply xchg_at; [lia..|done]|]. intros m2 H2. apply returns_ret. by replace size with (h + 4 + 4) by lia.
  - eapply returns_bind_mono; [apply xchg_at; [lia..|done]|]. intros m1 H1. rewrite <- !Z.add_assoc.
    eapply returns_bind_mono; [apply xchg_at; [lia..|done]|]. intros m2 H2. replace (h + 4 + 4) with (h + 8) in H2 by lia.
    eapply returns_mono; [apply xchg_at; [..|exact H2]; lia|]. intros m3 H3. by replace size with (h + 8 + 4) by lia.
Qed.
End swap.

Section rot3.
Context (size a b c : Z) (mem : list Z).
Hypothesis Hok : blocks_ok size [(a, b); (b, c); (c, a)] mem.
Hypothesis Hne : a ≠ b ∧ b ≠ c ∧ a ≠ c.
Local Notation mv := [(a, b); (b, c); (c, a)].

Lemma rot_at o n mem1 : 0 ≤ o → 0 ≤ n → o + n ≤ size → moved o mv mem mem1 →
  returns (rot n (a + o) (b + o) (c + o) mem1) (moved (o + n) mv mem).
Proof.
  intros Ho Hn Hs Hm. pose proof Hm as (Hz & _).
  assert (shift o mv = [(a + o, b + o); (b + o, c + o); (c + o, a + o)]) as Hsh by (unfold shift; cbn; by rewrite !(Z.add_comm o)).
  eapply returns_mono; [apply rot_spec; [done|rewrite <- Hsh; by eapply blocks_sub|lia..]|].
  intros mem2 Hm2. eapply moved_app; [done|done| |exact Hm|by rewrite Hsh].
  destruct Hok as [Hin Hap]. split.
  - intros d s Hds. destruct (Hin d s Hds) as (? & ? & ?). split_and!; [done|lia|done].
  - intros d s d' s' H1 H2. pose proof (Hap _ _ _ _ H1 H2). lia.
Qed.

Lemma rot_words_at (k : nat) o a' b' c' o' mem1 : a' + o' = a + o → b' + o' = b + o → c' + o' = c + o → 0 ≤ o → o + 4 * Z.of_nat k ≤ size → moved o mv mem mem1 →
  returns (rot_words k o' a' b' c' mem1) (moved (o + 4 * Z.of_nat k) mv mem).
Proof.
  revert o o' mem1. induction k as [|k IH]; intros o o' mem1 Ea Eb Ec Ho Hs Hm; cbn [rot_words].
  - apply returns_ret. by replace (o + 4 * Z.of_nat 0) with o by lia.
  - rewrite Ea, Eb, Ec. eapply returns_bind_mono; [apply rot_at; [lia..|done]|]. intros mem2 Hm2.
    replace (o + 4 * Z.of_nat (S k)) with (o + 4 + 4 * Z.of_nat k) by lia. apply (IH (o + 4) (o' + 4)); [lia..|done].
Qed.

Lemma mmrot3_high_at kind lo : 16 ≤ size →
  returns (mmrot3_high (mkArg kind size (16 * (size / 16)) lo) a b c mem) (λ '(a', b', c', mem'),
    a' = a + 16 * (size / 16) ∧ b' = b + 16 * (size / 16) ∧ c' = c + 16 * (size / 16) ∧ moved (16 * (size / 16)) mv mem mem').
Proof.
  intros H16. pose proof (Z.div_mod size 16 ltac:(lia)). pose proof (Z.mod_pos_bound size 16 ltac:(lia)). set (q := size / 16) in *.
  unfold mmrot3_high. cbn [high].
  apply (iter_inv (λ '(a', b', c', mem'), ∃ k : Z, 0 ≤ k < q ∧ a' = a + 16 * k ∧ b' = b + 16 * k ∧ c' = c + 16 * k ∧ moved (16 * k) mv mem mem')
    (λ '(a', _, _, _), Z.to_nat (16 * q - (a' - a) - 1))).
  - exists 0. split_and!; [lia..|apply moved_0].
  - lia.
  - intros [[[a' b'] c'] mem'] (k & Hk & -> & -> & -> & Hm). eapply returns_bind_mono; [apply (rot_words_at 4 (16 * k)); [lia..|done]|].
    intros mem2 Hm2. replace (16 * k + 4 * Z.of_nat 4) with (16 * (k + 1)) in Hm2 by lia.
    destruct (Z.ltb_spec (a + 16 * k + 16) (a + 16 * q)); apply returns_ret.
    + split; [|lia]. exists (k + 1). split_and!; [lia..|done].
    + replace q with (k + 1) by lia. split_and!; [lia|lia|lia|done].
Qed.

Lemma mmrot3_bytes_at arg : 0 < size → msize arg = size → returns (mmrot3_bytes arg a b c mem) (moved size mv mem).
Proof.
  intros H0 Hs. unfold mmrot3_bytes. rewrite Hs.
  apply (iter_inv (λ '(a', b', c', mem'), ∃ k : Z, 0 ≤ k < size ∧ a' = a + k ∧ b' = b + k ∧ c' = c + k ∧ moved k mv mem mem')
    (λ '(a', _, _, _), Z.to_nat (size - (a' - a) - 1))).
  - exists 0. split_and!; [lia..|apply moved_0].
  - lia.
  - intros [[[a' b'] c'] mem'] (k & Hk & -> & -> & -> & Hm). eapply returns_bind_mono; [apply rot_at; [lia..|done]|].
    intros mem2 Hm2. destruct (Z.ltb_spec (a + k + 1) (a + size)); apply returns_ret.
    + split; [|lia]. exists (k + 1). split_and!; [lia..|done].
    + by replace size with (k + 1) by lia.
Qed.

Lemma mmrot3_at base : 0 < size → base mod 4 ≠ 0 ∨ size mod 4 = 0 → returns (mmrot3_ (mmprepare base size) a b c mem) (moved size mv mem).
Proof.
  intros H0 Hal. unfold mmrot3_. destruct (decide (base mod 4 = 0)) as [Hb|Hb].
  2: { destruct (mmprepare_unaligned base size Hb) as [-> Hs]. by apply mmrot3_bytes_at. }
  destruct Hal as [|H4]; [done|]. rewrite mmprepare_aligned by done. cbn [mmkind low].
  pose proof (Z.div_mod size 16 ltac:(lia)) as Hdm. pose proof (Z.mod_pos_bound size 16 ltac:(lia)) as Hmod.
  assert (size mod 16 = 0 ∨ size mod 16 = 4 ∨ size mod 16 = 8 ∨ size mod 16 = 12) as Hc.
  { pose proof (Z.div_mod size 4 ltac:(lia)). lia. }
  rewrite (proj2 (Z.leb_le _ _)) by (destruct (16 <=? size); lia).
  eapply (returns_bind_mono _ _ (λ '(a', b', c', mem'), a' = a + 16 * (size / 16) ∧ b' = b + 16 * (size / 16) ∧ c' = c + 16 * (size / 16) ∧ moved (16 * (size / 16)) mv mem mem')).
  { destruct (Z.leb_spec 16 size); cbn [Z.ltb Z.compare].
    - by apply mmrot3_high_at.
    - apply returns_ret. replace (size / 16) with 0 by (symmetry; apply Z.div_small; lia). split_and!; [lia|lia|lia|apply moved_0]. }
  intros [[[a' b'] c'] mem'] (-> & -> & -> & Hm). set (h := 16 * (size / 16)) in *.
  destruct Hc as [E|[E|[E|E]]]; rewrite E in *; cbn [Z.eqb Z.ltb Z.compare Pos.compare Pos.compare_cont Pos.eqb].
  - apply returns_ret. by replace size with h by lia.
  - eapply returns_bind_mono; [apply rot_at; [lia..|done]|]. intros m1 H1. apply returns_ret. by replace size with (h + 4) by lia.
  - eapply returns_bind_mono; [apply rot_at; [lia..|done]|]. intros m1 H1. rewrite <- !Z.add_assoc.
    eapply returns_bind_mono; [apply rot_at; [lia..|done]|]. intros m2 H2. apply returns_ret. by replace size with (h + 4 + 4) by lia.
  - eapply returns_bind_mono; [apply rot_at; [lia..|done]|]. intros m1 H1. rewrite <- !Z.add_assoc.
    eapply returns_bind_mono; [apply rot_at; [lia..|done]|]. intros m2 H2. replace (h + 4 + 4) with (h + 8) in H2 by lia.
    eapply returns_mono; [apply rot_at; [..|exact H2]; lia|]. intros m3 H3. by replace size with (h + 8 + 4) by lia.
Qed.
End rot3.
End mem.

(** [mmswap_] exchanges two elements in memory and [mmrot3_] rotates three, for elements of any size, if the
    array is not aligned to words or their size is a multiple of four bytes; they touch
    no other byte.  Otherwise they do not: of aligned elements of six bytes they move four, of elements of two bytes none. *)
Theorem mm_moves_blocks base size a b c mem :
  0 < size → base mod 4 ≠ 0 ∨ size mod 4 = 0 →
  (a ≠ b → blocks_ok size [(a, b); (b, a)] mem → returns (mmswap_ (mmprepare base size) a b mem) (moved size [(a, b); (b, a)] mem)) ∧
  (a ≠ b ∧ b ≠ c ∧ a ≠ c → blocks_ok size [(a, b); (b, c); (c, a)] mem →
    returns (mmrot3_ (mmprepare base size) a b c mem) (moved size [(a, b); (b, c); (c, a)] mem)) ∧
  mmswap_ (mmprepare 0 6) 0 6 [1; 2; 3; 4; 5; 6; 11; 12; 13; 14; 15; 16] = Ok [11; 12; 13; 14; 5; 6; 1; 2; 3; 4; 15; 16] ∧
  mmswap_ (mmprepare 0 2) 0 2 [1; 2; 3; 4] = Ok [1; 2; 3; 4].
Proof.
  intros H0 Hal. split_and!; [|intros Hne Hok; by apply mmrot3_at|vm_compute; reflexivity|vm_compute; reflexivity].
  intros Hne Hok. by apply mmswap_at.
Qed.

Lemma mm_moves_blocks_witness :
  returns (mmswap_ (mmprepare 1 2) 1 4 [9; 1; 2; 9; 3; 4]) (moved 2 [(1, 4); (4, 1)] [9; 1; 2; 9; 3; 4]).
Proof.
  destruct (mm_moves_blocks 1 2 1 4 0 [9; 1; 2; 9; 3; 4]) as (H & _); [lia|left; vm_compute; discriminate|].
  apply H; [lia|]. split.
  - intros d s [[= -> ->]|[[= -> ->]|[]%elem_of_nil]%elem_of_cons]%elem_of_cons; (split_and!; [lia|vm_compute; discriminate|]); [exists 1|exists 4]; set_solver.
  - intros d s d' s' [[= -> ->]|[[= -> ->]|[]%elem_of_nil]%elem_of_cons]%elem_of_cons [[= -> ->]|[[= -> ->]|[]%elem_of_nil]%elem_of_cons]%elem_of_cons; lia.
Defined.

(** ** Simulation

    [sim R x y]: what the computation [y] on elements returns, the computation [x] in memory returns, up to [R]. *)

Definition sim {A B} (R : A → B → Prop) (x : res A) (y : res B) : Prop := ∀ b, y = Ok b → returns x (λ a, R a b).

Definition sum_rel {A B C D} (R : A → B → Prop) (Q : C → D → Prop) (x : A + C) (y : B + D) : Prop :=
  match x, y with inl a, inl b => R a b | inr c, inr d => Q c d | _, _ => False end.

Lemma sim_ret {A B} (R : A → B → Prop) a b : R a b → sim R (Ok a) (Ok b).
Proof. intros H b' [= <-]. by apply returns_ret. Qed.

Lemma sim_bind {A B C D} (R : A → B → Prop) (Q : C → D → Prop) x y f g :
  sim R x y → (∀ a b, R a b → sim Q (f a) (g b)) → sim Q (x ≫= f) (y ≫= g).
Proof.
  intros Hx Hf d (b & Hy & Hg)%bind_ok. eapply returns_bind_mono; [by apply Hx|]. intros a Ha. exact (Hf a b Ha d Hg).
Qed.

Lemma sim_if {A B} (R : A → B → Prop) (c c' : bool) x1 x2 y1 y2 :
  c = c' → sim R x1 y1 → sim R x2 y2 → sim R (if c then x1 else x2) (if c' then y1 else y2).
Proof. intros -> H1 H2. by destruct c'. Qed.

Lemma sim_returns {A B} (R : A → B → Prop) (P : B → Prop) x y : sim R x y → returns y P → returns x (λ a, ∃ b, R a b ∧ P b).
Proof. intros Hs (b & Hy & Hb). eapply returns_mono; [by apply Hs|]. intros a Ha. by exists b. Qed.

Lemma sim_iter {A B S T} (R : S → T → Prop) (Q : A → B → Prop) n f g s t :
  R s t → (∀ s t, R s t → sim (sum_rel R Q) (f s) (g t)) → sim Q (iter n f s) (iter n g t).
Proof.
  intros Hst Hf. revert s t Hst. induction n as [|n IH]; intros s t Hst; [by intros ?|]. cbn [iter].
  eapply (sim_bind (sum_rel R Q)); [by apply Hf|]. intros [s'|a] [t'|b] H; try (by destruct H); [by apply IH|by apply sim_ret].
Qed.
(** With an invariant of the computation on elements. *)
Lemma sim_iter_inv {A B S T} (R : S → T → Prop) (Q : A → B → Prop) (P : T → Prop) n f g s t :
  R s t → P t → (∀ s t, R s t → P t → sim (sum_rel R Q) (f s) (g t)) →
  (∀ t, P t → returns (g t) (λ r, match r with inl t' => P t' | inr _ => True end)) → sim Q (iter n f s) (iter n g t).
Proof.
  intros Hst Ht Hf Hg. revert s t Hst Ht. induction n as [|n IH]; intros s t Hst Ht; [by intros ?|]. cbn [iter].
  intros b (r & Er & Hb)%bind_ok. destruct (Hg t Ht) as (r' & Er' & Hr'). rewrite Er in Er'. injection Er' as <-.
  eapply returns_bind_mono; [by eapply Hf|]. intros [s'|x] H; destruct r as [t'|y]; try (by destruct H); [by eapply IH|].
  injection Hb as <-. by apply returns_ret.
Qed.

(** ** The array in memory *)

(** The elements of an array. *)
Definition elements (base nel size : Z) (mem : list Z) : list (list Z) :=
  (λ i, take (Z.to_nat size) (drop (Z.to_nat (base + size * i)) mem)) <$> seqZ 0 nel.

Section array.
Context (cmp : list Z → list Z → Z) (base nel size : Z) (mem0 : list Z).
Hypothesis Hbase : 0 ≤ base.
Hypothesis Hsize : 0 < size.
Hypothesis Hal : base mod 4 ≠ 0 ∨ size mod 4 = 0.
Hypothesis Hnel : 0 ≤ nel < 2 ^ 31.
Hypothesis Hint : size * (nel - 1) < 2 ^ 31.
Hypothesis Hroom : base + size * nel ≤ zlen mem0.
Implicit Types (mem : list Z) (a b : list (list Z)) (i j k l r m L R : Z).
Local Notation elt := (@elt (list Z) _).

Definition loc i : Z := base + size * i.

Lemma loc_succ i : loc i + size = loc (i + 1).
Proof. unfold loc. lia. Qed.
Lemma loc_pred i : loc i - size = loc (i - 1).
Proof. unfold loc. lia. Qed.
Lemma loc_eqb i j : (loc i =? loc j) = (i =? j).
Proof. unfold loc. destruct (Z.eqb_spec i j) as [->|]; [apply Z.eqb_refl|]. apply Z.eqb_neq. nia. Qed.
Lemma loc_ltb i j : (loc i <? loc j) = (i <? j).
Proof. unfold loc. cmp_spec; nia. Qed.
Lemma loc_ltb_sub i j k l : (loc i - loc j <? loc k - loc l) = (i - j <? k - l).
Proof. unfold loc. cmp_spec; nia. Qed.

(** [mem] holds the elements [a], and is as before outside of the array. *)
Definition rep mem a : Prop :=
  zlen mem = zlen mem0 ∧ zlen a = nel ∧
  (∀ i, 0 ≤ i < nel → zlen (elt a i) = size ∧ ∀ k, 0 ≤ k < size → zlookup mem (loc i + k) = zlookup (elt a i) k) ∧
  (∀ j, ¬ base ≤ j < base + size * nel → zlookup mem j = zlookup mem0 j).

Lemma loc_in i k : 0 ≤ i < nel → 0 ≤ k < size → base ≤ loc i + k < base + size * nel.
Proof. unfold loc. nia. Qed.

Lemma ld_rep mem a i : rep mem a → 0 ≤ i < nel → ld mem (loc i) size = Ok (elt a i).
Proof.
  intros (Hz & Ha & He & _) Hi. destruct (He i Hi) as [Hs Hk]. pose proof (loc_in i 0 Hi ltac:(lia)). pose proof (loc_in i (size - 1) Hi ltac:(lia)).
  destruct (ld_ok mem (loc i) size) as (bs & -> & Hb & Hl); [lia..|]. f_equal. apply zlist_eq; [lia|]. intros k Hk'.
  rewrite Hl, Hk by lia. done.
Qed.

Lemma rep_zlen mem a : rep mem a → zlen a = nel.
Proof. by intros (_ & ? & _). Qed.

Lemma rep_fuel mem a : rep mem a → length a = Z.to_nat nel.
Proof. intros H%rep_zlen. unfold zlen in H. lia. Qed.

Lemma rep_elements mem a : rep mem a → elements base nel size mem = a.
Proof.
  intros H. pose proof H as (Hz & Ha & He & _). apply zlist_eq.
  - unfold elements, zlen in *. rewrite length_fmap, length_seqZ. lia.
  - intros i Hi. assert (0 ≤ i < nel) as Hi' by (unfold elements, zlen in Hi; rewrite length_fmap, length_seqZ in Hi; lia).
    rewrite (elt_lookup a) by lia. unfold elements. rewrite zlookup_nonneg by lia. rewrite list_lookup_fmap, lookup_seqZ_lt by lia. cbn. f_equal.
    pose proof (ld_rep mem a i H Hi') as Hld. unfold ld, loc in Hld. replace (0 + Z.of_nat (Z.to_nat i)) with i by lia.
    by destruct (_ && _); simplify_eq.
Qed.

Lemma loc_apart i j : i = j ∨ loc i + size ≤ loc j ∨ loc j + size ≤ loc i.
Proof. unfold loc. nia. Qed.

Lemma rep_moved mem a mem' a' ps : rep mem a → (∀ d s, (d, s) ∈ ps → 0 ≤ d < nel ∧ 0 ≤ s < nel) →
  moved size (prod_map loc loc <$> ps) mem mem' → zlen a' = nel →
  (∀ k, 0 ≤ k < nel → (∃ s, (k, s) ∈ ps ∧ elt a' k = elt a s) ∨ (∀ s, (k, s) ∉ ps) ∧ elt a' k = elt a k) → rep mem' a'.
Proof.
  intros (Hz & Ha & He & Ho) Hps (Mz & M & Mo) Ha' Hk. split_and!; [lia|done| |].
  - intros i Hi. destruct (Hk i Hi) as [(s & Hs & ->)|[Hn ->]].
    + destruct (Hps i s Hs) as [_ Hs']. destruct (He s Hs') as [Hes Hk']. split; [done|]. intros k Hk0.
      rewrite (M _ (loc s)); [by apply Hk'| |done]. apply list_elem_of_fmap. by exists (i, s).
    + destruct (He i Hi) as [Hes Hk']. split; [done|]. intros k Hk0. rewrite Mo; [by apply Hk'|].
      intros d s ([d' s'] & [= -> ->] & Hds)%list_elem_of_fmap. cbn. destruct (loc_apart d' i) as [->|]; [by apply Hn in Hds|lia].
  - intros j Hj. rewrite <- Ho by done. apply Mo. intros d s ([d' s'] & [= -> ->] & Hds)%list_elem_of_fmap Hjd. cbn in Hjd. apply Hj.
    destruct (Hps _ _ Hds) as [Hd _]. pose proof (loc_in d' (j - loc d') Hd ltac:(lia)). lia.
Qed.

Lemma rep_blocks mem a ps : rep mem a → (∀ d s, (d, s) ∈ ps → 0 ≤ d < nel ∧ ∃ s', (s, s') ∈ ps) → blocks_ok size (prod_map loc loc <$> ps) mem.
Proof.
  intros (Hz & _) Hps. split.
  - intros d s ([d' s'] & [= -> ->] & Hds)%list_elem_of_fmap. cbn. destruct (Hps _ _ Hds) as [Hd [s2 Hs2]].
    pose proof (loc_in d' 0 Hd ltac:(lia)). pose proof (loc_in d' (size - 1) Hd ltac:(lia)). split_and!; [lia|lia|].
    exists (loc s2). apply list_elem_of_fmap. by exists (s', s2).
  - intros d s d2 s2 ([d' s'] & [= -> ->] & Hds)%list_elem_of_fmap ([d2' s2'] & [= -> ->] & Hds2)%list_elem_of_fmap. cbn.
    destruct (loc_apart d' d2') as [->|]; auto.
Qed.

(** ** The operations on elements *)

Lemma aload_inside a i x : aload a i = Ok x → 0 ≤ i < zlen a ∧ x = elt a i.
Proof.
  intros H%of_option_ok. pose proof (zlookup_Some_range _ _ _ H) as Hi. split; [done|]. rewrite elt_lookup in H by done. by simplify_eq.
Qed.

Lemma astore_range a i x b : astore a i x = Ok b → 0 ≤ i < zlen a.
Proof. unfold astore. destruct (_ && _) eqn:E; [|done]. intros _. apply andb_prop in E as [?%Z.leb_le ?%Z.ltb_lt]. done. Qed.

Lemma sim_compare mem a l r : rep mem a → sim eq (compare cmp size mem (loc l) (loc r)) (ecompare cmp a l r).
Proof.
  intros H b. unfold ecompare. intros (x & [Hl ->]%aload_inside & (y & [Hr ->]%aload_inside & [= <-])%bind_ok)%bind_ok.
  rewrite (rep_zlen _ _ H) in Hl, Hr. unfold compare. rewrite !(ld_rep _ _ _ H) by done. by apply returns_ret.
Qed.

Lemma sim_swap mem a l r : rep mem a → sim rep (mmswap base size (loc l) (loc r) mem) (eswap l r a).
Proof.
  intros H b Hb. destruct (decide (l = r)) as [->|Hne].
  { unfold eswap in Hb. rewrite Z.eqb_refl in Hb. injection Hb as <-. unfold mmswap, mmswap_. rewrite Z.eqb_refl. by apply returns_ret. }
  pose proof (rep_zlen _ _ H) as Ha. assert (0 ≤ l < nel ∧ 0 ≤ r < nel) as [Hl Hr].
  { unfold eswap in Hb. rewrite (proj2 (Z.eqb_neq l r)) in Hb by done. apply bind_ok in Hb as (x & [Hl _]%aload_inside & (y & [Hr _]%aload_inside & _)%bind_ok). lia. }
  destruct (mmswap_spec 0 (nel - 1) l r a) as (b' & Hb' & Hre & Hbe); [lia..|]. rewrite Hb in Hb'. injection Hb' as <-.
  unfold mmswap. eapply returns_mono.
  - apply (mmswap_at size (loc l) (loc r) mem); [|unfold loc; nia|done|done]. apply (rep_blocks mem a [(l, r); (r, l)] H).
    intros d s [[= -> ->]|[[= -> ->]|[]%elem_of_nil]%elem_of_cons]%elem_of_cons; (split; [lia|]); [exists l|exists r]; set_solver.
  - intros mem' Hm. eapply (rep_moved mem a mem' b [(l, r); (r, l)]); [done| |exact Hm|by destruct Hre as [-> _]|].
    + intros d s [[= -> ->]|[[= -> ->]|[]%elem_of_nil]%elem_of_cons]%elem_of_cons; lia.
    + intros k Hk. rewrite Hbe. destruct (decide (k = l)) as [->|]; [left; exists r; set_solver|]. destruct (decide (k = r)) as [->|]; [left; exists l; set_solver|].
      right. split; [|done]. intros s [[= -> ->]|[[= -> ->]|[]%elem_of_nil]%elem_of_cons]%elem_of_cons; done.
Qed.

Lemma sim_rot3 mem a l m r : 0 ≤ l < nel → 0 ≤ m < nel → 0 ≤ r < nel → l ≠ m ∧ m ≠ r ∧ l ≠ r →
  rep mem a → sim rep (mmrot3 base size (loc l) (loc m) (loc r) mem) (erot3 l m r a).
Proof.
  intros Hl Hm Hr (N1 & N2 & N3) H b Hb. pose proof (rep_zlen _ _ H) as Ha.
  destruct (mmrot3_spec 0 (nel - 1) l m r a) as (b' & Hb' & Hre & Hbe); [lia..|]. rewrite Hb in Hb'. injection Hb' as <-.
  unfold mmrot3. eapply returns_mono.
  - apply (mmrot3_at size (loc l) (loc m) (loc r) mem); [|unfold loc; nia|done|done]. apply (rep_blocks mem a [(l, m); (m, r); (r, l)] H).
    intros d s [[= -> ->]|[[= -> ->]|[[= -> ->]|[]%elem_of_nil]%elem_of_cons]%elem_of_cons]%elem_of_cons; (split; [lia|]); [exists r|exists l|exists m]; set_solver.
  - intros mem' Hmv. eapply (rep_moved mem a mem' b [(l, m); (m, r); (r, l)]); [done| |exact Hmv|by destruct Hre as [-> _]|].
    + intros d s [[= -> ->]|[[= -> ->]|[[= -> ->]|[]%elem_of_nil]%elem_of_cons]%elem_of_cons]%elem_of_cons; lia.
    + intros k Hk. rewrite Hbe. destruct (decide (k = l)) as [->|]; [left; exists m; set_solver|]. destruct (decide (k = m)) as [->|]; [left; exists r; set_solver|].
      destruct (decide (k = r)) as [->|]; [left; exists l; set_solver|].
      right. split; [|done]. intros s [[= -> ->]|[[= -> ->]|[[= -> ->]|[]%elem_of_nil]%elem_of_cons]%elem_of_cons]%elem_of_cons; done.
Qed.

(** ** The functions of the sort *)

(** A step of both computations: a comparison, an exchange, a test of pointers, a result. *)
Local Ltac sim_step :=
  rewrite ?loc_succ, ?loc_pred;
  match goal with
  | |- sim _ (compare _ _ _ (loc _) (loc _) ≫= _) _ => eapply sim_bind; [by apply sim_compare|]; intros ? ? <-
  | |- sim _ (mmswap _ _ (loc _) (loc _) _ ≫= _) _ => eapply sim_bind; [by apply sim_swap|]; intros ? ? ?
  | |- sim _ (if _ then _ else _) (if _ then _ else _) => apply sim_if; [by rewrite ?loc_eqb, ?loc_ltb| |]
  | |- sim _ (Ok (if ?c then _ else _)) _ => destruct c
  | |- sim _ (Ok _) (Ok _) => apply sim_ret; cbn [sum_rel]
  end.

Definition at_loc l i : Prop := l = loc i.

Lemma sim_med3 mem a p q r : rep mem a → sim at_loc (med3 cmp size mem (loc p) (loc q) (loc r)) (emed3 cmp a p q r).
Proof. intros H. unfold med3, emed3. repeat sim_step; done. Qed.

Lemma sim_median mem a L R : rep mem a → 0 ≤ L → L < R → R < nel → sim at_loc (choose_median cmp size mem (loc L) (loc R)) (emedian cmp a L R).
Proof.
  intros H HL HLR HR. unfold choose_median, emedian. rewrite (proj2 (Z.eqb_neq size 0)) by lia. cbn [mbind res_bind].
  assert (Z.quot (loc R - loc L + size) size = R - L + 1) as -> by (unfold loc; replace (base + size * R - (base + size * L) + size) with ((R - L + 1) * size) by lia; by apply Z.quot_mul; lia).
  rewrite s32_small by lia. set (t := R - L + 1).
  assert (∀ k, 0 < k → s32 (size * Z.shiftr t k) = size * Z.shiftr t k ∧ 0 ≤ Z.shiftr t k) as Hs.
  { intros k Hk. rewrite Z.shiftr_div_pow2 by lia. assert (2 ^ 1 ≤ 2 ^ k) by (apply Z.pow_le_mono_r; lia).
    assert (0 ≤ t / 2 ^ k ≤ t - 1) as Ht.
    { split; [apply Z.div_pos; lia|]. pose proof (Z.div_le_compat_l t 2 (2 ^ k) ltac:(lia) ltac:(lia)). pose proof (Z.div_lt t 2 ltac:(lia) ltac:(lia)). lia. }
    split; [|lia]. apply s32_small. assert (t - 1 ≤ nel - 1) by lia. nia. }
  destruct (Hs 1 ltac:(lia)) as [-> _]. destruct (Hs 2 ltac:(lia)) as [-> _]. destruct (Hs 3 ltac:(lia)) as [-> _].
  assert (∀ i k, loc i + size * k = loc (i + k)) as Hloc by (intros; unfold loc; lia). cbv zeta.
  rewrite !Hloc.
  apply sim_if; [done|by apply sim_ret|]. apply sim_if; [done| |by apply sim_med3].
  eapply sim_bind; [by apply sim_med3|]. intros ? m1 ->. eapply sim_bind; [by apply sim_med3|]. intros ? m3 ->. by apply sim_med3.
Qed.

Lemma sim_check_order mem a sign L R : rep mem a → sim eq (check_order cmp nel size mem sign (loc L) (loc R)) (echeck_order cmp a sign L R).
Proof.
  intros H. unfold check_order, echeck_order. rewrite (rep_fuel _ _ H). apply (sim_iter at_loc); [done|]. intros ? p ->. repeat sim_step; done.
Qed.

Lemma sim_reverse mem a L R : rep mem a → sim rep (reverse_region base nel size (loc L) (loc R) mem) (ereverse L R a).
Proof.
  intros H. unfold reverse_region, ereverse. rewrite (rep_fuel _ _ H).
  apply (sim_iter (λ '(mem, l, r) '(a, i, j), rep mem a ∧ l = loc i ∧ r = loc j)); [done|].
  intros [[mem' ?] ?] [[a' l] r] (H' & -> & ->). repeat sim_step; done.
Qed.

(** A target of the classification. *)
Definition rep_target (t t' : target) : Prop :=
  match t, t' with
  | Nxt, Nxt => True
  | LoopA m, LoopA m' | LoopB m, LoopB m' => m = loc m'
  | _, _ => False
  end.

Lemma sim_all_equal L R m mem a : rep mem a →
  sim (λ '(mem, t) '(a, t'), rep mem a ∧ rep_target t t') (all_equal cmp base nel size (loc L) (loc R) (loc m) mem) (eall_equal cmp L R m a).
Proof.
  intros H. unfold all_equal, eall_equal. rewrite (rep_fuel _ _ H). apply (sim_iter at_loc); [done|]. intros ? l ->. cbv zeta.
  repeat sim_step; done.
Qed.

Lemma sim_classify chk L R m mem a : rep mem a → 0 ≤ L → L < m < R → R < nel →
  sim (λ '(mem, c, t) '(a, c', t'), rep mem a ∧ c = c' ∧ rep_target t t')
    (classify cmp base nel size chk (loc L) (loc R) (loc m) mem) (eclassify cmp nel chk L R m a).
Proof.
  intros H HL Hm HR. unfold classify, eclassify. cbv zeta.
  repeat match goal with
  | |- sim _ (check_order _ _ _ _ _ _ _ ≫= _) _ => eapply sim_bind; [by apply sim_check_order|]; intros ? [] ->
  | |- sim _ (reverse_region _ _ _ _ _ _ ≫= _) _ => eapply sim_bind; [by apply sim_reverse|]; intros ? ? ?
  | |- sim _ (mmrot3 _ _ _ _ _ _ ≫= _) _ => eapply sim_bind; [apply sim_rot3; [lia..|done]|]; intros ? ? ?
  | |- sim _ (all_equal _ _ _ _ _ _ _ _ ≫= _) _ => eapply sim_bind; [by apply sim_all_equal|]; intros [? ?] [? ?] [? ?]
  | _ => sim_step
  end; done.
Qed.

(** A pointer and a flag, or two pointers, with the flag that says how the scan ended. *)
Definition rep_scan1 : Z * bool * bool → Z * bool * bool → Prop := λ '(l, e, f) '(i, e', f'), l = loc i ∧ e = e' ∧ f = f'.
Definition rep_scan2 : Z * Z * bool * bool → Z * Z * bool * bool → Prop := λ '(l, m, e, f) '(i, j, e', f'), l = loc i ∧ m = loc j ∧ e = e' ∧ f = f'.

Lemma sim_scanA_up mem a r m l e : rep mem a → sim rep_scan1 (scanA_up cmp nel size mem (loc r) (loc m) (loc l) e) (escanA_up cmp a r m l e).
Proof.
  intros H. unfold scanA_up, escanA_up. rewrite (rep_fuel _ _ H). apply (sim_iter (λ '(l, e) '(i, e'), l = loc i ∧ e = e')); [done|].
  intros [? ?] [i e'] [-> ->]. cbv zeta. repeat sim_step; done.
Qed.

Lemma sim_scanA_down mem a l r m e : rep mem a → sim rep_scan2 (scanA_down cmp nel size mem (loc l) (loc r) (loc m) e) (escanA_down cmp a l r m e).
Proof.
  intros H. unfold scanA_down, escanA_down. rewrite (rep_fuel _ _ H). apply (sim_iter at_loc); [done|].
  intros ? i ->. cbv zeta. repeat sim_step; done.
Qed.

Lemma sim_scanB_down mem a l m r e : rep mem a → sim rep_scan1 (scanB_down cmp nel size mem (loc l) (loc m) (loc r) e) (escanB_down cmp a l m r e).
Proof.
  intros H. unfold scanB_down, escanB_down. rewrite (rep_fuel _ _ H). apply (sim_iter (λ '(l, e) '(i, e'), l = loc i ∧ e = e')); [done|].
  intros [? ?] [i e'] [-> ->]. cbv zeta. repeat sim_step; done.
Qed.

Lemma sim_scanB_up mem a l r m e : rep mem a → sim rep_scan2 (scanB_up cmp nel size mem (loc l) (loc r) (loc m) e) (escanB_up cmp a l r m e).
Proof.
  intros H. unfold scanB_up, escanB_up. rewrite (rep_fuel _ _ H). apply (sim_iter at_loc); [done|].
  intros ? i ->. cbv zeta. repeat sim_step; done.
Qed.

Definition rep_fin : Z * list Z → Z * list (list Z) → Prop := λ '(l, mem) '(i, a), l = loc i ∧ rep mem a.

Lemma sim_finA l m mem a : rep mem a → sim rep_fin (finA base size (loc l) (loc m) mem) (efinA l m a).
Proof.
  intros H. unfold finA, efinA. cbv zeta. rewrite loc_pred. eapply (sim_bind rep); [|intros; by sim_step].
  apply sim_if; [by rewrite loc_eqb|by apply sim_ret|by apply sim_swap].
Qed.

Lemma sim_finB r m mem a : rep mem a → sim rep_fin (finB base size (loc r) (loc m) mem) (efinB r m a).
Proof.
  intros H. unfold finB, efinB. cbv zeta. rewrite loc_succ. eapply (sim_bind rep); [|intros; by sim_step].
  apply sim_if; [by rewrite loc_eqb|by apply sim_ret|by apply sim_swap].
Qed.

Definition rep_split : list Z * Z * Z * bool * bool → list (list Z) * Z * Z * bool * bool → Prop :=
  λ '(mem, l, r, el, er) '(a, i, j, el', er'), rep mem a ∧ l = loc i ∧ r = loc j ∧ el = el' ∧ er = er'.

Local Ltac sim_loop :=
  repeat match goal with
  | |- sim _ (scanA_up _ _ _ _ _ _ _ _ ≫= _) _ => eapply sim_bind; [by apply sim_scanA_up|]; intros [[? ?] ?] [[? ?] ?] (-> & -> & ->)
  | |- sim _ (scanB_down _ _ _ _ _ _ _ _ ≫= _) _ => eapply sim_bind; [by apply sim_scanB_down|]; intros [[? ?] ?] [[? ?] ?] (-> & -> & ->)
  | |- sim _ (scanA_down _ _ _ _ _ _ _ _ ≫= _) _ => eapply sim_bind; [by apply sim_scanA_down|]; intros [[[? ?] ?] ?] [[[? ?] ?] ?] (-> & -> & -> & ->)
  | |- sim _ (scanB_up _ _ _ _ _ _ _ _ ≫= _) _ => eapply sim_bind; [by apply sim_scanB_up|]; intros [[[? ?] ?] ?] [[[? ?] ?] ?] (-> & -> & -> & ->)
  | |- sim _ (finA _ _ _ _ _ ≫= _) _ => eapply sim_bind; [by apply sim_finA|]; intros [? ?] [? ?] [-> ?]
  | |- sim _ (finB _ _ _ _ _ ≫= _) _ => eapply sim_bind; [by apply sim_finB|]; intros [? ?] [? ?] [-> ?]
  | _ => sim_step
  end.

Lemma sim_loopA L R m mem a : rep mem a → sim rep_split (loopA cmp base nel size (loc L) (loc R) (loc m) mem) (eloopA cmp L R m a).
Proof.
  intros H. unfold loopA, eloopA. rewrite (rep_fuel _ _ H).
  apply (sim_iter (λ '(mem, l, r, m, el, er) '(a, i, j, k, el', er'), rep mem a ∧ l = loc i ∧ r = loc j ∧ m = loc k ∧ el = el' ∧ er = er')); [done|].
  intros [[[[[mem' ?] ?] ?] ?] ?] [[[[[a' i] j] k] el] er] (H' & -> & -> & -> & -> & ->). sim_loop; done.
Qed.

Lemma sim_loopB L R m mem a : rep mem a → sim rep_split (loopB cmp base nel size (loc L) (loc R) (loc m) mem) (eloopB cmp L R m a).
Proof.
  intros H. unfold loopB, eloopB. rewrite (rep_fuel _ _ H).
  apply (sim_iter (λ '(mem, l, r, m, el, er) '(a, i, j, k, el', er'), rep mem a ∧ l = loc i ∧ r = loc j ∧ m = loc k ∧ el = el' ∧ er = er')); [done|].
  intros [[[[[mem' ?] ?] ?] ?] ?] [[[[[a' i] j] k] el] er] (H' & -> & -> & -> & -> & ->). sim_loop; done.
Qed.

(** ** The main loop *)

Definition rep_stack : list (Z * Z) → list (Z * Z) := fmap (prod_map loc loc).

Definition rep_state (q : qstate Z) (q' : qstate (list Z)) : Prop :=
  rep (arr q) (arr q') ∧ stack q = rep_stack (stack q') ∧ left q = loc (left q') ∧ right q = loc (right q') ∧ chklim q = chklim q'.

Lemma sim_nxt mem a st chk : rep mem a → sum_rel rep_state rep (nxt mem (rep_stack st) chk) (nxt a st chk).
Proof. intros H. by destruct st as [|[L R] st]. Qed.

Lemma sim_PUSH l r st : sim (λ s s', s = rep_stack s') (PUSH (loc l) (loc r) (rep_stack st)) (PUSH l r st).
Proof. unfold PUSH, rep_stack. rewrite length_fmap. apply sim_if; [done|by apply sim_ret|by intros ?]. Qed.

Lemma sim_fin mem a st L R l r el er chk : rep mem a →
  sim (sum_rel rep_state rep) (fin mem (rep_stack st) (loc L) (loc R) (loc l) (loc r) el er chk) (fin a st L R l r el er chk).
Proof.
  intros H. unfold fin. destruct el, er; cbn [negb]; try (by apply sim_ret).
  - by apply sim_ret, sim_nxt.
  - apply sim_if; [apply loc_ltb_sub| |]; (eapply sim_bind; [apply sim_PUSH|]; intros ? ? ->; by apply sim_ret).
Qed.

Lemma sim_qsort_step q q' : rep_state q q' → 0 ≤ left q' → left q' < right q' → right q' < nel →
  (∀ m, emedian cmp (arr q') (left q') (right q') = Ok m → left q' + 1 ≠ right q' → left q' < m < right q') →
  sim (sum_rel rep_state rep) (qsort_step cmp base nel size q) (eqsort_step cmp nel q').
Proof.
  destruct q as [mem st L R chk], q' as [a st' L' R' chk']. intros (H & Hst & HL & HR & Hchk) H0 HLR HR' Hmed. cbn [arr stack left right chklim] in *. subst.
  unfold qsort_step, eqsort_step. cbn [arr stack left right chklim]. rewrite loc_succ, loc_eqb. destruct (Z.eqb_spec (L' + 1) R') as [E|E].
  - sim_step. eapply (sim_bind rep); [apply sim_if; [done|by apply sim_swap|by apply sim_ret]|]. intros. by apply sim_ret, sim_nxt.
  - destruct (emedian cmp a L' R') as [m|] eqn:Em; [|by intros ?]. pose proof (sim_median mem a L' R' H H0 HLR HR' m Em) as (? & -> & ->). cbn [mbind res_bind].
    eapply sim_bind; [apply sim_classify; auto|]. intros [[mem1 c] t] [[a1 c'] t'] (H1 & -> & Ht).
    destruct t as [|m1|m1], t' as [|m1'|m1']; try done; cbn [rep_target] in Ht; subst.
    + by apply sim_ret, sim_nxt.
    + eapply sim_bind; [by apply sim_loopA|]. intros [[[[? ?] ?] ?] ?] [[[[? ?] ?] ?] ?] (? & -> & -> & -> & ->). by apply sim_fin.
    + eapply sim_bind; [by apply sim_loopB|]. intros [[[[? ?] ?] ?] ?] [[[[? ?] ?] ?] ?] (? & -> & -> & -> & ->). by apply sim_fin.
Qed.

Lemma rep_init : rep mem0 (elements base nel size mem0).
Proof.
  split_and!; [done|unfold elements, zlen; rewrite length_fmap, length_seqZ; lia| |done]. intros i Hi. pose proof (loc_in i 0 Hi ltac:(lia)). pose proof (loc_in i (size - 1) Hi ltac:(lia)).
  destruct (ld_ok mem0 (loc i) size) as (bs & Hld & Hb & Hl); [lia..|].
  assert (elt (elements base nel size mem0) i = bs) as ->; [|split; [done|intros; by rewrite Hl]].
  unfold QsortSpec.elt, elements. rewrite zlookup_nonneg by lia. rewrite list_lookup_fmap, lookup_seqZ_lt by lia. cbn. unfold ld, loc in Hld.
  replace (0 + Z.of_nat (Z.to_nat i)) with i by lia. by destruct (_ && _); simplify_eq.
Qed.
End array.
