(* ===== verification/QsortThm.v ===== *)
(** * util.c: [ruby_qsort] is correct

    The choice of the median, the classification of a region, and the invariant of the main loop: elements that
    are out of order lie in one region that is still to be sorted.  Then the sort in memory, by the simulation. *)

From Stdlib Require Import Sorted.
From S2P Require Import Prelude Qsort QsortElem QsortSpec QsortMem.

Section qsort_thm.
Context {A : Type} `{!Inhabited A} (cmp : A → A → Z).
Implicit Types (a b : list A) (i j k l r m L R : Z).
Local Notation elt := (@elt A _).

(** ** The median *)

Lemma med3_spec a p q r : 0 ≤ p < zlen a → 0 ≤ q < zlen a → 0 ≤ r < zlen a →
  returns (emed3 cmp a p q r) (λ x, x = p ∨ x = q ∨ x = r).
Proof.
  intros Hp Hq Hr. unfold emed3. rewrite !compare_elt by done. cbn [mbind res_bind].
  cmp_spec; rewrite ?compare_elt by done; cbn [mbind res_bind]; cmp_spec; apply returns_ret; auto.
Qed.

Lemma choose_median_spec a L R : 0 ≤ L → R < zlen a → L + 2 ≤ R →
  returns (emedian cmp a L R) (λ m, L < m < R).
Proof.
  intros HL HR Hlen. unfold emedian. rewrite !Z.shiftr_div_pow2 by lia. change (2 ^ 1) with 2. change (2 ^ 2) with 4. change (2 ^ 3) with 8.
  pose proof (Z.div_mod (R - L + 1) 2 ltac:(lia)). pose proof (Z.mod_pos_bound (R - L + 1) 2 ltac:(lia)).
  pose proof (Z.div_mod (R - L + 1) 4 ltac:(lia)). pose proof (Z.mod_pos_bound (R - L + 1) 4 ltac:(lia)).
  pose proof (Z.div_mod (R - L + 1) 8 ltac:(lia)). pose proof (Z.mod_pos_bound (R - L + 1) 8 ltac:(lia)).
  destruct (Z.ltb_spec (R - L + 1) 60); [apply returns_ret; lia|]. destruct (Z.leb_spec 200 (R - L + 1)).
  - eapply returns_bind_mono; [apply med3_spec; lia|]. intros m1 Hm1. cbn beta in Hm1.
    eapply returns_bind_mono; [apply med3_spec; lia|]. intros m3 Hm3. cbn beta in Hm3.
    eapply returns_mono; [apply med3_spec; lia|]. intros m Hm. cbn beta in Hm. lia.
  - eapply returns_mono; [apply med3_spec; lia|]. intros m Hm. cbn beta in Hm. lia.
Qed.

(** ** Regions in order *)

Lemma sorted_adjacent a L R : CmpLaws cmp → (∀ p, L ≤ p < R → cmp (elt a p) (elt a (p + 1)) ≤ 0) → sorted_on cmp a L R.
Proof.
  intros C H i j Hi Hij Hj. remember (Z.to_nat (j - i - 1)) as n eqn:En. revert j Hij Hj En.
  induction n as [|n IH]; intros j Hij Hj En.
  - replace j with (i + 1) by lia. apply H. lia.
  - apply (cmp_trans _ (elt a (j - 1))); [apply IH; lia|]. replace j with (j - 1 + 1) at 2 by lia. apply H. lia.
Qed.

Lemma check_order_spec a sign L R : 0 ≤ L → R < zlen a → L ≤ R →
  returns (echeck_order cmp a sign L R) (λ ok, ok = true → ∀ p, L ≤ p < R → sign * cmp (elt a p) (elt a (p + 1)) ≤ 0).
Proof.
  intros HL HR Hlen. unfold echeck_order.
  apply (iter_inv (λ x, L ≤ x ≤ R ∧ ∀ p, L ≤ p < x → sign * cmp (elt a p) (elt a (p + 1)) ≤ 0) (λ x, Z.to_nat (R - x))).
  - split; [lia|intros p; lia].
  - unfold zlen in *. lia.
  - intros x [Hx Hp]. destruct (Z.ltb_spec x R).
    + rewrite compare_elt by lia. cbn [mbind res_bind]. destruct (Z.ltb_spec 0 (sign * cmp (elt a x) (elt a (x + 1)))); [by apply returns_ret|].
      apply returns_ret. split; [|lia]. split; [lia|]. intros p Hp'. destruct (decide (p = x)) as [->|]; [done|apply Hp; lia].
    + apply returns_ret. intros _ p Hp'. apply Hp. lia.
Qed.

Lemma reverse_region_spec a L R : 0 ≤ L → R < zlen a → L ≤ R →
  returns (ereverse L R a) (λ b, rearr L R a b ∧ ∀ i, L ≤ i ≤ R → elt b i = elt a (L + R - i)).
Proof.
  intros HL HR Hlen. unfold ereverse.
  apply (iter_inv (λ '(b, l, r), rearr L R a b ∧ L ≤ l ∧ r = L + R - l ∧ l ≤ r + 1 ∧
    ∀ i, L ≤ i ≤ R → elt b i = if decide (l ≤ i ≤ r) then elt a i else elt a (L + R - i)) (λ '(_, l, r), Z.to_nat (r + 1 - l))).
  - split_and!; [apply rearr_refl|lia|lia|lia|]. intros i Hi. by rewrite decide_True.
  - unfold zlen in *. lia.
  - intros [[b l] r] (Hre & Hl & Hr & Hlr & Hb). destruct (Z.ltb_spec l r).
    + pose proof Hre as (Hz & _). destruct (mmswap_spec L R l r b) as (c & -> & Hc & Hce); [lia..|]. cbn [mbind res_bind].
      apply returns_ret. split; [|lia]. split_and!; [by eapply rearr_trans|lia|lia|lia|]. intros i Hi. rewrite Hce.
      destruct (decide (i = l)) as [->|]; [rewrite decide_False by lia; rewrite Hb, decide_True by lia; f_equal; lia|].
      destruct (decide (i = r)) as [Ei|]; [rewrite decide_False by lia; rewrite Hb, decide_True by lia; f_equal; lia|].
      rewrite Hb by done. repeat case_decide; done || lia.
    + apply returns_ret. split; [done|]. intros i Hi. rewrite Hb by done. case_decide; [f_equal; lia|done].
Qed.

(** ** Classification *)

Definition target_post L R a b (tgt : target) : Prop :=
  rearr L R a b ∧
  match tgt with
  | Nxt => CmpLaws cmp → sorted_on cmp b L R
  | LoopA m => L < m < R ∧ (CmpLaws cmp → cmp (elt b L) (elt b m) ≤ 0 ∧ cmp (elt b m) (elt b R) < 0)
  | LoopB m => L < m < R ∧ (CmpLaws cmp → cmp (elt b L) (elt b m) < 0 ∧ cmp (elt b m) (elt b R) ≤ 0)
  end.

Lemma all_equal_spec L R m a : 0 ≤ L → R < zlen a → L < m < R →
  cmp (elt a L) (elt a m) = 0 → cmp (elt a m) (elt a R) = 0 →
  returns (eall_equal cmp L R m a) (λ '(b, tgt), target_post L R a b tgt).
Proof.
  intros HL HR Hm E1 E2. unfold eall_equal.
  apply (iter_inv (λ x, L ≤ x < R ∧ ∀ i, L ≤ i ≤ x → i = m ∨ cmp (elt a i) (elt a m) = 0) (λ x, Z.to_nat (R - x))).
  - split; [lia|]. intros i Hi. right. by replace i with L by lia.
  - unfold zlen in *. lia.
  - intros x [Hx Heq]. destruct (Z.eqb_spec (x + 1) R) as [E|E].
    { apply returns_ret. split; [apply rearr_refl|]. intros C.
      assert (∀ i, L ≤ i ≤ R → cmp (elt a i) (elt a m) = 0) as H.
      { intros i Hi. destruct (decide (i = R)) as [->|]; [by apply cmp_eq|]. destruct (Heq i ltac:(lia)) as [->|]; [apply cmp_refl|done]. }
      intros i j Hi Hij Hj. apply (cmp_trans _ (elt a m)); [rewrite H by lia; done|]. rewrite (cmp_eq (elt a j)); [done|]. apply H. lia. }
    destruct (Z.eqb_spec (x + 1) m) as [Em|Em].
    { apply returns_ret. split; [|lia]. split; [lia|]. intros i Hi. destruct (decide (i = x + 1)) as [->|]; [by left|apply Heq; lia]. }
    rewrite compare_elt by lia. cbn [mbind res_bind]. destruct (Z.ltb_spec 0 (cmp (elt a (x + 1)) (elt a m))) as [Ht|Ht].
    { destruct (mmswap_spec L R (x + 1) R a) as (b & -> & Hb & Hbe); [lia..|]. cbn [mbind res_bind]. apply returns_ret.
      split; [done|]. split; [lia|]. intros C. rewrite !Hbe. repeat (rewrite decide_False by lia). rewrite (decide_True (P := R = R)) by done.
      split; [lia|]. by apply cmp_flip. }
    destruct (Z.ltb_spec (cmp (elt a (x + 1)) (elt a m)) 0) as [Ht'|Ht'].
    { destruct (mmswap_spec L R L (x + 1) a) as (b & -> & Hb & Hbe); [lia..|]. cbn [mbind res_bind]. apply returns_ret.
      split; [done|]. split; [lia|]. intros C. rewrite !Hbe. rewrite (decide_True (P := L = L)) by done. repeat (rewrite decide_False by lia).
      split; [done|lia]. }
    apply returns_ret. split; [|lia]. split; [lia|]. intros i Hi. destruct (decide (i = x + 1)) as [->|]; [right; lia|apply Heq; lia].
Qed.

(** Reads the elements after an exchange. *)
Local Ltac read_elts H :=
  rewrite !H; repeat match goal with |- context [decide (?x = ?y)] => destruct (decide (x = y)); [try (exfalso; lia)|try (exfalso; lia)] end.

Lemma swapped_post L R m i j a (tgt : target) : 0 ≤ L → R < zlen a → L ≤ i ≤ R → L ≤ j ≤ R →
  (∀ b, (∀ k, elt b k = if decide (k = i) then elt a j else if decide (k = j) then elt a i else elt a k) → rearr L R a b → target_post L R a b tgt) →
  ∀ chk : Z, returns (a ← eswap i j a; Ok (a, chk, tgt)) (λ '(b, _, t), target_post L R a b t).
Proof.
  intros HL HR Hi Hj H chk. destruct (mmswap_spec L R i j a HL HR Hi Hj) as (b & -> & Hb & Hbe). cbn [mbind res_bind].
  apply returns_ret. by apply H.
Qed.

Lemma rotated_post L R m i j k a (tgt : target) : 0 ≤ L → R < zlen a → L ≤ i ≤ R → L ≤ j ≤ R → L ≤ k ≤ R → i ≠ j → j ≠ k → i ≠ k →
  (∀ b, (∀ x, elt b x = if decide (x = i) then elt a j else if decide (x = j) then elt a k else if decide (x = k) then elt a i else elt a x) →
     rearr L R a b → target_post L R a b tgt) →
  ∀ chk : Z, returns (a ← erot3 i j k a; Ok (a, chk, tgt)) (λ '(b, _, t), target_post L R a b t).
Proof.
  intros HL HR Hi Hj Hk N1 N2 N3 H chk. destruct (mmrot3_spec L R i j k a HL HR Hi Hj Hk N1 N2 N3) as (b & -> & Hb & Hbe). cbn [mbind res_bind].
  apply returns_ret. by apply H.
Qed.

Lemma classify_spec nel chk L R m a : 0 ≤ L → R < zlen a → L < m < R →
  returns (eclassify cmp nel chk L R m a) (λ '(b, _, tgt), target_post L R a b tgt).
Proof.
  intros HL HR Hm. unfold eclassify. rewrite !compare_elt by lia. cbn [mbind res_bind].
  destruct (Z.ltb_spec (cmp (elt a L) (elt a m)) 0) as [H1|H1].
  { destruct (Z.ltb_spec (cmp (elt a m) (elt a R)) 0) as [H2|H2].
    { assert (target_post L R a a (LoopA m)) as HA by (split; [apply rearr_refl|]; split; [lia|]; intros C; lia).
      destruct (_ && _); [|by apply returns_ret].
      eapply returns_bind_mono; [apply check_order_spec; lia|]. intros [] Hok; apply returns_ret; [|done].
      split; [apply rearr_refl|]. intros C. apply sorted_adjacent; [done|]. intros p Hp. specialize (Hok eq_refl p Hp). lia. }
    destruct (Z.ltb_spec 0 (cmp (elt a m) (elt a R))) as [H3|H3].
    - destruct (Z.leb_spec (cmp (elt a L) (elt a R)) 0) as [H4|H4].
      + apply (swapped_post L R m); [lia..|]. intros b Hbe Hb. split; [done|]. split; [lia|]. intros C. read_elts Hbe. split; [lia|]. by apply cmp_flip.
      + apply (rotated_post L R m); [lia..|]. intros b Hbe Hb. split; [done|]. split; [lia|]. intros C. read_elts Hbe.
        split; [apply cmp_ge; lia|done].
    - apply returns_ret. split; [apply rearr_refl|]. split; [lia|]. intros C. lia. }
  destruct (Z.ltb_spec 0 (cmp (elt a L) (elt a m))) as [H1'|H1'].
  { destruct (Z.ltb_spec 0 (cmp (elt a m) (elt a R))) as [H2|H2].
    { assert (∀ b, (∀ k, elt b k = if decide (k = L) then elt a R else if decide (k = R) then elt a L else elt a k) → rearr L R a b → target_post L R a b (LoopA m)) as HA.
      { intros b Hbe Hb. split; [done|]. split; [lia|]. intros C. read_elts Hbe. split; [apply cmp_ge; lia|by apply cmp_flip]. }
      destruct (_ && _); [|apply (swapped_post L R m); [lia..|done]].
      eapply returns_bind_mono; [apply check_order_spec; lia|]. intros [] Hok; [|apply (swapped_post L R m); [lia..|done]].
      eapply returns_bind_mono; [apply reverse_region_spec; lia|]. intros b [Hb Hbe]. apply returns_ret. split; [done|]. intros C.
      apply sorted_adjacent; [done|]. intros p Hp. rewrite !Hbe by lia. apply cmp_ge.
      specialize (Hok eq_refl (L + R - (p + 1)) ltac:(lia)). replace (L + R - (p + 1) + 1) with (L + R - p) in Hok by lia. lia. }
    destruct (Z.ltb_spec (cmp (elt a m) (elt a R)) 0) as [H3|H3].
    - destruct (Z.leb_spec (cmp (elt a L) (elt a R)) 0) as [H4|H4].
      + apply (swapped_post L R m); [lia..|]. intros b Hbe Hb. split; [done|]. split; [lia|]. intros C. read_elts Hbe. split; [by apply cmp_flip|done].
      + apply (rotated_post L R m); [lia..|]. intros b Hbe Hb. split; [done|]. split; [lia|]. intros C. read_elts Hbe.
        split; [lia|by apply cmp_flip].
    - apply (swapped_post L R m); [lia..|]. intros b Hbe Hb. split; [done|]. split; [lia|]. intros C. read_elts Hbe. split; [|by apply cmp_flip].
      apply cmp_ge. lia. }
  destruct (Z.ltb_spec (cmp (elt a m) (elt a R)) 0) as [H2|H2].
  { apply returns_ret. split; [apply rearr_refl|]. split; [lia|]. intros C. lia. }
  destruct (Z.ltb_spec 0 (cmp (elt a m) (elt a R))) as [H3|H3].
  { apply (swapped_post L R m); [lia..|]. intros b Hbe Hb. split; [done|]. split; [lia|]. intros C. read_elts Hbe. split; [by apply cmp_flip|].
    apply cmp_ge. lia. }
  eapply returns_bind_mono; [apply all_equal_spec; lia|]. intros [b tgt] Hp. by apply returns_ret.
Qed.

(** ** The main loop *)

Definition in_region i (rg : Z * Z) : Prop := rg.1 ≤ i ≤ rg.2.
Definition apart (rg rg' : Z * Z) : Prop := rg.2 < rg'.1 ∨ rg'.2 < rg.1.
Definition region_ok (n : Z) (rg : Z * Z) : Prop := 0 ≤ rg.1 ∧ rg.1 < rg.2 ∧ rg.2 < n.

Fixpoint regions_ok (n : Z) (rgs : list (Z * Z)) : Prop :=
  match rgs with
  | [] => True
  | rg :: rgs => region_ok n rg ∧ Forall (apart rg) rgs ∧ regions_ok n rgs
  end.

(** A region below [k] others on the stack has at most [n / 2^k] elements. *)
Fixpoint depth_ok (n : Z) (rgs : list (Z * Z)) : Prop :=
  match rgs with
  | [] => True
  | rg :: rgs => (rg.2 - rg.1 + 1) * 2 ^ Z.of_nat (length rgs) ≤ n ∧ depth_ok n rgs
  end.

Fixpoint total (rgs : list (Z * Z)) : Z :=
  match rgs with
  | [] => 0
  | rg :: rgs => rg.2 - rg.1 + 1 + total rgs
  end.

(** Elements that are out of order are in the same region. *)
Definition ordered_but a (rgs : list (Z * Z)) : Prop :=
  CmpLaws cmp → ∀ i j, 0 ≤ i → i < j → j < zlen a →
    cmp (elt a i) (elt a j) ≤ 0 ∨ ∃ rg, rg ∈ rgs ∧ in_region i rg ∧ in_region j rg.

Lemma replace_region L R a b rgs new : ordered_but a ((L, R) :: rgs) → rearr L R a b → Forall (apart (L, R)) rgs → 0 ≤ L → R < zlen a →
  (CmpLaws cmp → ∀ i j, L ≤ i → i < j → j ≤ R → cmp (elt b i) (elt b j) ≤ 0 ∨ ∃ rg, rg ∈ new ∧ in_region i rg ∧ in_region j rg) →
  ordered_but b (new ++ rgs).
Proof.
  intros Ha (Hz & _ & Hout & Hin) Hap HL HR Hnew C i j Hi Hij Hj. rewrite Hz in Hj.
  assert (∀ k rg, rg ∈ rgs → in_region k rg → ¬ L ≤ k ≤ R) as Hrg.
  { intros k rg Hm Hk Hk'. rewrite Forall_forall in Hap. specialize (Hap rg Hm). unfold apart, in_region in *. cbn in *. lia. }
  assert (∀ i' j', 0 ≤ i' → i' < j' → j' < zlen a → ¬ (L ≤ i' ≤ R ∧ L ≤ j' ≤ R) → cmp (elt a i') (elt a j') ≤ 0 ∨
    (∃ rg, rg ∈ rgs ∧ in_region i' rg ∧ in_region j' rg)) as Hold.
  { intros i' j' Hi' Hij' Hj' Hn. destruct (Ha C i' j' Hi' Hij' Hj') as [|(rg & [->|Hm]%elem_of_cons & H1 & H2)]; [by left|by destruct Hn|right; eauto]. }
  destruct (decide (L ≤ i ≤ R)) as [Ii|Oi], (decide (L ≤ j ≤ R)) as [Ij|Oj].
  - destruct (Hnew C i j ltac:(lia) Hij ltac:(lia)) as [|(rg & Hm & H1 & H2)]; [by left|]. right. exists rg. split; [set_solver|done].
  - destruct (Hin i Ii) as (i' & Hi' & ->). rewrite Hout by done. destruct (Hold i' j) as [|(rg & Hm & H1 & _)]; [lia..|by left|]. by destruct (Hrg i' rg Hm H1).
  - destruct (Hin j Ij) as (j' & Hj' & ->). rewrite Hout by done. destruct (Hold i j') as [|(rg & Hm & _ & H2)]; [lia..|by left|]. by destruct (Hrg j' rg Hm H2).
  - rewrite !Hout by done. destruct (Hold i j) as [|(rg & Hm & H1 & H2)]; [lia..|by left|]. right. exists rg. split; [set_solver|done].
Qed.

Definition qinv a0 (q : qstate A) : Prop :=
  arr q ≡ₚ a0 ∧ regions_ok (zlen a0) ((left q, right q) :: stack q) ∧ depth_ok (zlen a0) ((left q, right q) :: stack q) ∧
  ordered_but (arr q) ((left q, right q) :: stack q).

Definition outcome a0 (t : Z) (x : qstate A + list A) : Prop :=
  match x with
  | inl q => qinv a0 q ∧ total ((left q, right q) :: stack q) < t
  | inr b => b ≡ₚ a0 ∧ (CmpLaws cmp → sorted_on cmp b 0 (zlen a0 - 1))
  end.

Lemma perm_zlen a b : a ≡ₚ b → zlen a = zlen b.
Proof. intros H. unfold zlen. by rewrite (Permutation_length H). Qed.

Lemma nxt_spec a0 b st chk t : b ≡ₚ a0 → regions_ok (zlen a0) st → depth_ok (zlen a0) st → ordered_but b st → total st < t →
  outcome a0 t (nxt b st chk).
Proof.
  intros Hp Hr Hd Ho Ht. destruct st as [|[L R] st]; cbn [nxt].
  - split; [done|]. intros C i j Hi Hij Hj. destruct (Ho C i j) as [|(rg & []%elem_of_nil & _)]; [lia|lia|rewrite (perm_zlen _ _ Hp); lia|done].
  - split; [|done]. done.
Qed.

(** There is room on the stack. *)
Lemma PUSH_ok n L R st ll rr : n < 2 ^ 31 → L + 1 < R → depth_ok n ((L, R) :: st) → PUSH ll rr st = Ok ((ll, rr) :: st).
Proof.
  intros Hn Hlen [Hd _]. unfold PUSH, stack_size. cbn [fst snd] in Hd. destruct (Nat.ltb_spec (length st) 32); [done|].
  assert (2 ^ 32 ≤ 2 ^ Z.of_nat (length st)) by (apply Z.pow_le_mono_r; lia). nia.
Qed.

Lemma apart_sub L R L' R' rgs : Forall (apart (L, R)) rgs → L ≤ L' → R' ≤ R → Forall (apart (L', R')) rgs.
Proof. intros H HL HR. eapply Forall_impl; [exact H|]. intros rg. unfold apart. cbn. lia. Qed.

Lemma depth_sub n c c' (k : nat) : 0 ≤ c' ≤ c → c * 2 ^ Z.of_nat k ≤ n → c' * 2 ^ Z.of_nat k ≤ n.
Proof. intros Hc H. assert (0 < 2 ^ Z.of_nat k) by (apply Z.pow_pos_nonneg; lia). nia. Qed.

Lemma depth_half n c c' (k : nat) : 0 ≤ c' → 2 * c' ≤ c → c * 2 ^ Z.of_nat k ≤ n → c' * 2 ^ Z.of_nat (S k) ≤ n.
Proof. intros H0 Hc H. rewrite Nat2Z.inj_succ, Z.pow_succ_r by lia. assert (0 < 2 ^ Z.of_nat k) by (apply Z.pow_pos_nonneg; lia). nia. Qed.

Lemma qinv_intro a0 b st L R chk : b ≡ₚ a0 → region_ok (zlen a0) (L, R) → Forall (apart (L, R)) st → regions_ok (zlen a0) st →
  (R - L + 1) * 2 ^ Z.of_nat (length st) ≤ zlen a0 → depth_ok (zlen a0) st → ordered_but b ((L, R) :: st) → qinv a0 (mkQ b st L R chk).
Proof. done. Qed.

Lemma fin_spec a0 a st L R chk b l r eq_l eq_r :
  zlen a0 < 2 ^ 31 → a ≡ₚ a0 → regions_ok (zlen a0) ((L, R) :: st) → depth_ok (zlen a0) ((L, R) :: st) → ordered_but a ((L, R) :: st) →
  split_post cmp L R a (b, l, r, eq_l, eq_r) →
  returns (fin b st L R l r eq_l eq_r chk) (outcome a0 (total ((L, R) :: st))).
Proof.
  intros Hn Hp ((H0 & HLR & HR) & Hap & Hst) Hd Ho (Hre & Hl & -> & Hr & Hel & Her & Hlaw). cbn [fst snd] in *. pose proof (perm_zlen _ _ Hp) as Hz.
  pose proof Hd as [Hd1 Hd2]. cbn [fst snd] in Hd1. assert (b ≡ₚ a0) as Hpb by (destruct Hre as (_ & Hb & _); by rewrite Hb).
  assert (∀ new, (eq_l = false → (L, l) ∈ new) → (eq_r = false → (l + 2, R) ∈ new) → ordered_but b (new ++ st)) as Hord.
  { intros new Nl Nr. eapply replace_region; [exact Ho|done|done|lia|lia|]. intros C i j Hi Hij Hj. destruct (Hlaw C) as (Hleft & Hright & Sl & Sr).
    destruct (decide (i ≤ l)) as [Ii|Ii].
    - destruct (decide (j ≤ l)); [|left; destruct (decide (j = l + 1)) as [->|]; [by apply Hleft|]].
      + destruct eq_l; [left; apply Sl; auto|]. right. exists (L, l). split; [auto|]. unfold in_region. cbn. lia.
      + apply (cmp_trans _ (elt b (l + 1))); [apply Hleft|apply Hright]; lia.
    - destruct (decide (i = l + 1)) as [->|]; [left; apply Hright; lia|].
      destruct eq_r; [left; apply Sr; auto; lia|]. right. exists (l + 2, R). split; [auto|]. unfold in_region. cbn. lia. }
  assert (region_ok (zlen a0) (L, l) ∧ Forall (apart (L, l)) st ∨ eq_l = true) as Rl.
  { destruct eq_l; [by right|left]. specialize (Hel eq_refl). split; [split_and!; cbn; lia|by eapply apart_sub; [exact Hap|lia..]]. }
  assert (region_ok (zlen a0) (l + 2, R) ∧ Forall (apart (l + 2, R)) st ∨ eq_r = true) as Rr.
  { destruct eq_r; [by right|left]. specialize (Her eq_refl). split; [split_and!; cbn; lia|by eapply apart_sub; [exact Hap|lia..]]. }
  unfold fin. destruct eq_l; cbn [negb].
  - destruct eq_r; cbn [negb].
    + apply returns_ret. apply nxt_spec; [done|done|done|by apply (Hord [])|cbn; lia].
    + destruct Rr as [[Rr1 Rr2]|]; [|done]. apply returns_ret. split; [|cbn; lia]. apply qinv_intro; [done|done|done|done| |done|].
      * eapply depth_sub; [|exact Hd1]. lia.
      * apply (Hord [(l + 2, R)]); [done|]. intros _. apply list_elem_of_here.
  - destruct Rl as [[Rl1 Rl2]|]; [|done]. specialize (Hel eq_refl). destruct eq_r; cbn [negb].
    + apply returns_ret. split; [|cbn; lia]. apply qinv_intro; [done|done|done|done| |done|].
      * eapply depth_sub; [|exact Hd1]. lia.
      * apply (Hord [(L, l)]); [|done]. intros _. apply list_elem_of_here.
    + destruct Rr as [[Rr1 Rr2]|]; [|done]. specialize (Her eq_refl). destruct (Z.ltb_spec (l - L) (R - (l + 2))).
      all: rewrite (PUSH_ok (zlen a0) L R) by (done || lia); cbn [mbind res_bind]; apply returns_ret; (split; [|cbn; lia]).
      all: apply qinv_intro; [done|done|constructor; [unfold apart; cbn; lia|done]|by split_and!|eapply depth_half; [| |exact Hd1]; lia| |].
      1, 3: split; [cbn [fst snd]; eapply depth_sub; [|exact Hd1]; lia|done].
      * apply (Hord [(L, l); (l + 2, R)]); intros _; set_solver.
      * apply (Hord [(l + 2, R); (L, l)]); intros _; set_solver.
Qed.

Lemma step_spec a0 q : zlen a0 < 2 ^ 31 → qinv a0 q →
  returns (eqsort_step cmp (zlen a0) q) (outcome a0 (total ((left q, right q) :: stack q))).
Proof.
  destruct q as [a st L R chk]. intros Hn (Hp & Hrg & Hd & Ho). cbn [arr stack left right] in *. pose proof (perm_zlen _ _ Hp) as Hz.
  pose proof Hrg as ((H0 & HLR & HR) & Hap & Hst). pose proof Hd as [_ Hd']. cbn [fst snd] in *.
  assert (∀ b, rearr L R a b → (CmpLaws cmp → sorted_on cmp b L R) → ∀ chk, outcome a0 (total ((L, R) :: st)) (nxt b st chk)) as Hnxt.
  { intros b Hre Hs chk'. apply nxt_spec; [destruct Hre as (_ & Hb & _); by rewrite Hb|done|done| |cbn; lia].
    apply (replace_region L R a b st []); [done|done|done|lia|lia|]. intros C i j Hi Hij Hj. left. by apply (Hs C). }
  unfold eqsort_step. cbn [arr stack left right chklim]. destruct (Z.eqb_spec (L + 1) R) as [E|E].
  - rewrite compare_elt by lia. cbn [mbind res_bind]. destruct (Z.ltb_spec 0 (cmp (elt a L) (elt a R))) as [Ht|Ht].
    + destruct (mmswap_spec L R L R a) as (b & -> & Hb & Hbe); [lia..|]. cbn [mbind res_bind]. apply returns_ret, Hnxt; [done|].
      intros C i j Hi Hij Hj. replace i with L by lia. replace j with R by lia. rewrite !Hbe.
      rewrite (decide_True (P := L = L)), (decide_False (P := R = L)), (decide_True (P := R = R)) by lia. apply cmp_ge. lia.
    + cbn [mbind res_bind]. apply returns_ret, Hnxt; [apply rearr_refl|]. intros C i j Hi Hij Hj. replace i with L by lia. by replace j with R by lia.
  - eapply returns_bind_mono; [apply choose_median_spec; lia|]. intros m Hm. cbn beta in Hm.
    eapply returns_bind_mono; [apply (classify_spec _ _ L R m a); lia|]. intros [[b chk'] tgt] [Hb Htgt].
    assert (b ≡ₚ a0) as Hpb by (destruct Hb as (_ & Hb & _); by rewrite Hb).
    assert (zlen b = zlen a0) as Hzb by by apply perm_zlen.
    assert (ordered_but b ((L, R) :: st)) as Hob.
    { apply (replace_region L R a b st [(L, R)]); [done|done|done|lia|lia|]. intros C i j Hi Hij Hj. right. exists (L, R).
      split; [apply list_elem_of_here|]. unfold in_region. cbn. lia. }
    destruct tgt as [|m'|m']; [by apply returns_ret, Hnxt| |]; destruct Htgt as [Hm' Hlaw].
    + eapply returns_bind_mono; [apply loopA_spec; [lia|lia|done|done]|]. intros [[[[c l] r] el] er] Hpost. by eapply fin_spec.
    + eapply returns_bind_mono; [apply loopB_spec; [lia|lia|done|done]|]. intros [[[[c l] r] el] er] Hpost. by eapply fin_spec.
Qed.

Lemma qinv_init a : 1 < zlen a → qinv a (mkQ a [] 0 (zlen a - 1) 63).
Proof.
  intros Hn. apply qinv_intro; [done|split_and!; cbn; lia|constructor|done|cbn; lia|done|].
  intros C i j Hi Hij Hj. right. exists (0, zlen a - 1). split; [apply list_elem_of_here|]. unfold in_region. cbn. lia.
Qed.

Lemma eqsort_spec a : zlen a < 2 ^ 31 →
  returns (eqsort cmp a) (λ b, b ≡ₚ a ∧ (CmpLaws cmp → sorted_on cmp b 0 (zlen a - 1))).
Proof.
  intros Hn. unfold eqsort. destruct (Z.leb_spec (zlen a) 1).
  { apply returns_ret. split; [done|]. intros _. apply sorted_on_single. lia. }
  apply (iter_inv (qinv a) (λ q, Z.to_nat (total ((left q, right q) :: stack q)))).
  - by apply qinv_init.
  - cbn. unfold zlen. lia.
  - intros q Hq. eapply returns_mono; [by apply step_spec|]. intros [q'|b]; [|done]. intros [Hq' Hlt]. split; [done|].
    assert (0 ≤ total ((left q', right q') :: stack q')); [|lia]. destruct Hq' as (_ & Hrg & _). revert Hrg. generalize ((left q', right q') :: stack q').
    induction l as [|rg rgs IH]; cbn; [lia|]. intros ((? & ? & ?) & _ & ?%IH). lia.
Qed.

Lemma sorted_on_strongly a : sorted_on cmp a 0 (zlen a - 1) → StronglySorted (λ x y, cmp x y ≤ 0) a.
Proof.
  induction a as [|x a IH]; intros H; [constructor|].
  assert (∀ i, 0 ≤ i → elt (x :: a) (i + 1) = elt a i) as Hs.
  { intros i Hi. unfold QsortSpec.elt. rewrite zlookup_cons. rewrite decide_False by lia. do 2 f_equal. lia. }
  constructor.
  - apply IH. intros i j Hi Hij Hj. rewrite <- !Hs by lia. apply H; rewrite ?zlen_cons; lia.
  - apply Forall_forall. intros y (n & Hn)%list_elem_of_lookup_1. pose proof (lookup_lt_Some _ _ _ Hn).
    specialize (H 0 (Z.of_nat n + 1) ltac:(lia) ltac:(lia) ltac:(rewrite zlen_cons; unfold zlen; lia)). rewrite Hs in H by lia.
    unfold QsortSpec.elt in H. rewrite zlookup_nat, Hn in H. exact H.
Qed.
End qsort_thm.

(** ** The sort in memory *)

(** What the sort asks of an array: its elements are of a size that [mmprepare] deals with and lie in memory, and the
    offset of the last is an [int]. *)
Record array_ok (base nel size : Z) (mem : list Z) : Prop := mkArray {
  array_base : 0 ≤ base;
  array_size : 0 < size;
  array_words : base mod 4 ≠ 0 ∨ size mod 4 = 0;
  array_nel : 0 ≤ nel < 2 ^ 31;
  array_int : size * (nel - 1) < 2 ^ 31;
  array_room : base + size * nel ≤ zlen mem }.

(** [mem'] is [mem] with other bytes in the array. *)
Definition same_outside base nel size (mem mem' : list Z) : Prop :=
  zlen mem' = zlen mem ∧ ∀ j, ¬ base ≤ j < base + size * nel → zlookup mem' j = zlookup mem j.

Lemma zlen_elements base nel size mem : 0 ≤ nel → zlen (elements base nel size mem) = nel.
Proof. intros. unfold elements, zlen. rewrite length_fmap, length_seqZ. lia. Qed.

Lemma sim_qsort cmp base nel size mem : array_ok base nel size mem →
  sim (rep base nel size mem) (ruby_qsort cmp base nel size mem) (eqsort cmp (elements base nel size mem)).
Proof.
  intros [H0 Hs Hw Hn Hi Hr]. unfold ruby_qsort, eqsort. rewrite zlen_elements by lia. set (a := elements base nel size mem).
  assert (zlen a = nel) as Ha by (apply zlen_elements; lia).
  destruct (Z.leb_spec nel 1); [apply sim_ret; by apply rep_init|]. rewrite s32_small by nia.
  replace (length a) with (Z.to_nat nel) by (unfold zlen in Ha; lia).
  apply (sim_iter_inv (rep_state base nel size mem) _ (qinv cmp a)).
  - split_and!; [by apply rep_init|done|unfold loc; cbn; lia|unfold loc; cbn; lia|done].
  - rewrite <- Ha. apply qinv_init. lia.
  - intros q q' Hq (Hp & (Hrg & _) & _). pose proof (perm_zlen _ _ Hp) as Hz. rewrite Ha in *. destruct Hrg as (Hl & Hlr & Hrt). cbn [fst snd] in *.
    apply sim_qsort_step; auto. intros m Em Hne.
    destruct (choose_median_spec cmp (arr q') (left q') (right q')) as (m' & Em' & Hm'); [lia..|]. rewrite Em in Em'. by injection Em' as <-.
  - intros q Hq. rewrite <- Ha. eapply returns_mono; [by apply step_spec; [lia|]|]. intros [q'|b]; [by intros [? _]|done].
Qed.

Lemma qsort_spec cmp base nel size mem : array_ok base nel size mem →
  returns (ruby_qsort cmp base nel size mem) (λ mem', same_outside base nel size mem mem' ∧
    elements base nel size mem' ≡ₚ elements base nel size mem ∧
    (CmpLaws cmp → StronglySorted (λ x y, cmp x y ≤ 0) (elements base nel size mem'))).
Proof.
  intros Hok. pose proof Hok as [H0 Hs Hw Hn Hi Hr]. eapply returns_mono.
  - eapply sim_returns; [by apply sim_qsort|]. apply eqsort_spec. rewrite zlen_elements; lia.
  - intros mem' (b & Hrep & Hp & Hsort). pose proof Hrep as (Hz & Hb & _ & Ho). rewrite (rep_elements base nel size mem) with (a := b) by done.
    split_and!; [by split|done|]. intros C. apply sorted_on_strongly. rewrite Hb. rewrite zlen_elements in Hsort by lia. by apply Hsort.
Qed.

(** C8: [ruby_qsort] is safe whatever the comparison does.  Of an array in memory whose elements the word-wise exchange can move (the array is
    not aligned to four bytes or the size of an element is a multiple of four) and whose size in bytes, less one element, is
    an [int]: for every comparison of two elements, consistent or not, the sort terminates, its stack of 32 regions is enough, no byte outside of the array changes,
    and the elements are a permutation of what they were. *)
Theorem qsort_safe cmp base nel size mem : array_ok base nel size mem →
  returns (ruby_qsort cmp base nel size mem) (λ mem', same_outside base nel size mem mem' ∧
    elements base nel size mem' ≡ₚ elements base nel size mem).
Proof. intros Hok. eapply returns_mono; [by apply qsort_spec|]. by intros mem' (Ho & Hp & _). Qed.

(** C7: [ruby_qsort] sorts in memory: under the same conditions on the array, if the comparison is a total preorder, the elements are those of
    the array in ascending order, and no other byte has changed. *)
Theorem qsort_sorts cmp base nel size mem : CmpLaws cmp → array_ok base nel size mem →
  returns (ruby_qsort cmp base nel size mem) (λ mem', same_outside base nel size mem mem' ∧
    elements base nel size mem' ≡ₚ elements base nel size mem ∧ StronglySorted (λ x y, cmp x y ≤ 0) (elements base nel size mem')).
Proof. intros C Hok. eapply returns_mono; [by apply qsort_spec|]. intros mem' (Ho & Hp & Hs). auto. Qed.

(** The conditions are needed: aligned elements of two bytes stay where they are, of six bytes a part moves. *)
Example qsort_needs_words :
  ruby_qsort (λ x y, hd 0 x - hd 0 y) 0 2 2 [7; 8; 1; 2] = Ok [7; 8; 1; 2] ∧
  ruby_qsort (λ x y, hd 0 x - hd 0 y) 0 2 6 [7; 7; 7; 7; 7; 7; 1; 1; 1; 1; 1; 1] = Ok [1; 1; 1; 1; 7; 7; 7; 7; 7; 7; 1; 1] ∧
  ruby_qsort (λ x y, hd 0 x - hd 0 y) 1 2 2 [0; 7; 8; 1; 2] = Ok [0; 1; 2; 7; 8].
Proof. by vm_compute. Qed.

(** ** Witnesses *)

Definition first_byte (x y : list Z) : Z := hd 0 x - hd 0 y.

#[global] Instance first_byte_laws : CmpLaws first_byte.
Proof. unfold first_byte. split; intros; lia. Qed.

(** A comparison that always says that its first argument is the greater one. *)
Lemma qsort_safe_witness :
  returns (ruby_qsort (λ _ _, 1) 1 5 1 [9; 3; 1; 2; 3; 0; 9]) (λ mem', same_outside 1 5 1 [9; 3; 1; 2; 3; 0; 9] mem' ∧
    elements 1 5 1 mem' ≡ₚ [[3]; [1]; [2]; [3]; [0]]).
Proof. apply (qsort_safe (λ _ _, 1) 1 5 1 [9; 3; 1; 2; 3; 0; 9]). split; vm_compute; (done || by left). Defined.

Lemma qsort_sorts_witness :
  ruby_qsort first_byte 4 3 4 [9; 9; 9; 9; 3; 1; 2; 3; 0; 4; 4; 4; 2; 5; 5; 5; 9] = Ok [9; 9; 9; 9; 0; 4; 4; 4; 2; 5; 5; 5; 3; 1; 2; 3; 9] ∧
  StronglySorted (λ x y, first_byte x y ≤ 0) [[0; 4; 4; 4]; [2; 5; 5; 5]; [3; 1; 2; 3]].
Proof.
  destruct (qsort_sorts first_byte 4 3 4 [9; 9; 9; 9; 3; 1; 2; 3; 0; 4; 4; 4; 2; 5; 5; 5; 9] first_byte_laws) as (b & E & _ & _ & Hs);
    [split; vm_compute; (done || by right)|].
  vm_compute in E. injection E as <-. split; [vm_compute; reflexivity|exact Hs].
Defined.
