(* ===== verification/Time.v ===== *)
(** * time.c: points in time

    A [Time] is a number of seconds and nanoseconds since the Epoch, with the broken-down
    time of the time zone it was last shown in.  This file models the allocation and
    normalisation of times, their construction from numbers and from calendar fields
    ([time_arg], [make_time_t], [search_time_t]), the methods that read and compare them,
    their arithmetic, and their form in marshalled data.

    [time_t] and [long] are 64 bits wide and [int] 32; the configuration is that of
    config.h.in ([NEGATIVE_TIME_T], [HAVE_TIMEGM], [HAVE_MKTIME], [HAVE_TM_ZONE],
    [HAVE_STRUCT_TM_TM_GMTOFF]).  The C library's conversions, its doubles, and the methods
    of objects that are not of the interpreter's own numeric classes are parameters. *)

From stdpp Require Import strings gmap.
From S2P Require Import Prelude Util St Big BigStr Numeric.
#[global] Open Scope Z_scope.

(** ** The C library *)

(** [struct tm] *)
Record tm := mk_tm {
  tm_sec : Z; tm_min : Z; tm_hour : Z; tm_mday : Z; tm_mon : Z; tm_year : Z;
  tm_wday : Z; tm_yday : Z; tm_isdst : Z; tm_gmtoff : Z; tm_zone : list Z
}.

(** A conversion from [time_t] yields NULL if the year does not fit; one to [time_t] yields
    the time, or -1, and leaves the fields it was given in normal form. *)
Class CTime := {
  gmtime : Z → option tm;
  localtime : Z → option tm;
  timegm : tm → Z * tm;
  mktime : tm → Z * tm;
  rb_safe_level : Z
}.

(** [double], with the constants the code uses; [modf] yields the fraction and the integral
    part. *)
Class CDouble := {
  dbl : Type;
  dbl_of_int : Z → dbl;
  dbl_1e9 : dbl;
  dbl_1em9 : dbl;
  dbl_half : dbl;
  dbl_ltb : dbl → dbl → bool;
  dbl_eqb : dbl → dbl → bool;
  dbl_neg : dbl → dbl;
  dbl_add : dbl → dbl → dbl;
  dbl_sub : dbl → dbl → dbl;
  dbl_mul : dbl → dbl → dbl;
  modf : dbl → dbl * dbl;
  dbl_to_long : dbl → Z;
  dbl_to_ulong : dbl → Z
}.

(** ** Time objects *)

(** Instance variables of objects other than [Object]s are kept in a dictionary that
    is made when the first one is set. *)
Inductive ivar := IvStr (s : list Z) | IvObj (id : Z).
Definition ivar_dict : Type := option (gmap string ivar).

(** [struct time_object], with the flags and the instance variables of the object it is in *)
Record time_object := mk_time {
  tv_sec : Z; tv_nsec : Z;
  t_tm : tm;
  gmt : Z;
  tm_got : Z;
  frozen : bool; tainted : bool;
  ivars : ivar_dict
}.

Definition zero_tm : tm := mk_tm 0 0 0 0 0 0 0 0 0 0 [].

Definition time_s_alloc : time_object := mk_time 0 0 zero_tm 0 0 false false None.

Definition set_ts (t : time_object) (sec nsec : Z) : time_object :=
  mk_time sec nsec (t_tm t) (gmt t) (tm_got t) (frozen t) (tainted t) (ivars t).
Definition set_gmt (t : time_object) (g : Z) : time_object :=
  mk_time (tv_sec t) (tv_nsec t) (t_tm t) g (tm_got t) (frozen t) (tainted t) (ivars t).
Definition set_tm (t : time_object) (x : tm) (g : Z) : time_object :=
  mk_time (tv_sec t) (tv_nsec t) x g 1 (frozen t) (tainted t) (ivars t).

(** ** Normalisation *)

Definition NDIV (x y : Z) : Z := - Z.quot (- (x + 1)) y - 1.
Definition NMOD (x y : Z) : Z := y - Z.rem (- (x + 1)) y - 1.

Definition time_overflow_p (sec nsec : Z) : res (Z * Z) :=
  '(sec, nsec) ←
    (if 1000000000 <=? nsec then
       let tmp := s64 (sec + Z.quot nsec 1000000000) in
       let nsec := Z.rem nsec 1000000000 in
       if (0 <? sec) && (tmp <? 0) then Err (Raise RangeError) else Ok (tmp, nsec)
     else Ok (sec, nsec));
  if nsec <? 0 then
    let tmp := s64 (sec + NDIV nsec 1000000000) in
    let nsec := NMOD nsec 1000000000 in
    if (sec <? 0) && (0 <? tmp) then Err (Raise RangeError) else Ok (tmp, nsec)
  else Ok (sec, nsec).

Definition time_new_internal (sec nsec : Z) : res time_object :=
  '(sec, nsec) ← time_overflow_p sec nsec;
  Ok (set_ts time_s_alloc sec nsec).

Definition rb_time_new (sec usec : Z) : res time_object := time_new_internal sec (s64 (usec * 1000)).
Definition rb_time_nano_new (sec nsec : Z) : res time_object := time_new_internal sec nsec.

(** ** The calendar *)

Definition leap_year_p (y : Z) : bool :=
  ((Z.rem y 4 =? 0) && negb (Z.rem y 100 =? 0)) || (Z.rem y 400 =? 0).

Definition DIV (n d : Z) : Z := if n <? 0 then NDIV n d else Z.quot n d.

Definition common_year_yday_offset : list Z :=
  [-1;
   -1 + 31;
   -1 + 31 + 28;
   -1 + 31 + 28 + 31;
   -1 + 31 + 28 + 31 + 30;
   -1 + 31 + 28 + 31 + 30 + 31;
   -1 + 31 + 28 + 31 + 30 + 31 + 30;
   -1 + 31 + 28 + 31 + 30 + 31 + 30 + 31;
   -1 + 31 + 28 + 31 + 30 + 31 + 30 + 31 + 31;
   -1 + 31 + 28 + 31 + 30 + 31 + 30 + 31 + 31 + 30;
   -1 + 31 + 28 + 31 + 30 + 31 + 30 + 31 + 31 + 30 + 31;
   -1 + 31 + 28 + 31 + 30 + 31 + 30 + 31 + 31 + 30 + 31 + 30].
Definition leap_year_yday_offset : list Z :=
  [-1;
   -1 + 31;
   -1 + 31 + 29;
   -1 + 31 + 29 + 31;
   -1 + 31 + 29 + 31 + 30;
   -1 + 31 + 29 + 31 + 30 + 31;
   -1 + 31 + 29 + 31 + 30 + 31 + 30;
   -1 + 31 + 29 + 31 + 30 + 31 + 30 + 31;
   -1 + 31 + 29 + 31 + 30 + 31 + 30 + 31 + 31;
   -1 + 31 + 29 + 31 + 30 + 31 + 30 + 31 + 31 + 30;
   -1 + 31 + 29 + 31 + 30 + 31 + 30 + 31 + 31 + 30 + 31;
   -1 + 31 + 29 + 31 + 30 + 31 + 30 + 31 + 31 + 30 + 31 + 30].

Definition timegm_noleapsecond (t : tm) : res Z :=
  let year := tm_year t in
  off ← aload (if leap_year_p (year + 1900) then leap_year_yday_offset else common_year_yday_offset) (tm_mon t);
  let yday := s32 (tm_mday t + off) in
  let secs := s32 (s32 (tm_sec t + s32 (tm_min t * 60)) + s32 (tm_hour t * 3600)) in
  let days := yday + (year - 70) * 365 + DIV (year - 69) 4 - DIV (year - 1) 100 + DIV (year + 299) 400 in
  Ok (s64 (secs + s64 (days * 86400))).

Definition tmcmp (a b : tm) : Z :=
  if negb (tm_year a =? tm_year b) then (if tm_year a <? tm_year b then -1 else 1)
  else if negb (tm_mon a =? tm_mon b) then (if tm_mon a <? tm_mon b then -1 else 1)
  else if negb (tm_mday a =? tm_mday b) then (if tm_mday a <? tm_mday b then -1 else 1)
  else if negb (tm_hour a =? tm_hour b) then (if tm_hour a <? tm_hour b then -1 else 1)
  else if negb (tm_min a =? tm_min b) then (if tm_min a <? tm_min b then -1 else 1)
  else if negb (tm_sec a =? tm_sec b) then (if tm_sec a <? tm_sec b then -1 else 1)
  else 0.

(** ** The search for a time

    [2 ^ n] steps of a loop. *)
Fixpoint iter_pow {S A} (n : nat) (step : S → res (S + A)) (s : S) : res (S + A) :=
  match n with
  | O => step s
  | Datatypes.S n =>
      r ← iter_pow n step s;
      match r with inl s => iter_pow n step s | inr a => Ok (inr a) end
  end.

(** The variables of the loop of [search_time_t]. *)
Record search := mk_search {
  guess : Z; guess_lo : Z; guess_hi : Z; tm_lo : tm; tm_hi : tm; have_guess : bool
}.

Section search.
Context `{C : CTime}.

(** [(utc_p ? gmtime : localtime)] *)
Definition to_tm (utc_p : bool) : Z → option tm := if utc_p then gmtime else localtime.

(** The coefficients of the interpolation and its error. *)
Definition coefficients (tptr lo hi : tm) : Z * Z * Z :=
  let range := 366 * 24 * 60 * 60 in
  let a := s32 (tm_year hi - tm_year tptr) in
  let b := s32 (tm_year tptr - tm_year lo) in
  if 46000 / 12 <? s32 (a + b) then (a, b, range) else
  let range := 31 * 24 * 60 * 60 in
  let a := s32 (s32 (a * 12) + s32 (tm_mon hi - tm_mon tptr)) in
  let b := s32 (s32 (b * 12) + s32 (tm_mon tptr - tm_mon lo)) in
  if 46000 / 31 <? s32 (a + b) then (a, b, range) else
  let range := 24 * 60 * 60 in
  let a := s32 (s32 (a * 31) + s32 (tm_mday hi - tm_mday tptr)) in
  let b := s32 (s32 (b * 31) + s32 (tm_mday tptr - tm_mday lo)) in
  if 46000 / 24 <? s32 (a + b) then (a, b, range) else
  let range := 60 * 60 in
  let a := s32 (s32 (a * 24) + s32 (tm_hour hi - tm_hour tptr)) in
  let b := s32 (s32 (b * 24) + s32 (tm_hour tptr - tm_hour lo)) in
  if 46000 / 60 <? s32 (a + b) then (a, b, range) else
  let range := 60 in
  let a := s32 (s32 (a * 60) + s32 (tm_min hi - tm_min tptr)) in
  let b := s32 (s32 (b * 60) + s32 (tm_min tptr - tm_min lo)) in
  if 46000 / 60 <? s32 (a + b) then (a, b, range) else
  let range := 1 in
  let a := s32 (s32 (a * 60) + s32 (tm_sec hi - tm_sec tptr)) in
  let b := s32 (s32 (b * 60) + s32 (tm_sec tptr - tm_sec lo)) in
  (a, b, range).

(** Division of a [long] by an [int]: division by zero, and by -1 of the least [long], are
    undefined. *)
Definition quot_long (x d : Z) : res Z :=
  if (d =? 0) || ((d =? -1) && (x =? LONG_MIN)) then Err DivByZero else Ok (Z.quot x d).
Definition rem_long (x d : Z) : res Z :=
  if (d =? 0) || ((d =? -1) && (x =? LONG_MIN)) then Err DivByZero else Ok (Z.rem x d).

(** The guess by interpolation, and [range] *)
Definition interpolate (tptr : tm) (s : search) : res (Z * Z) :=
  let '(a, b, range) := coefficients tptr (tm_lo s) (tm_hi s) in
  let a := if a <=? 0 then 1 else a in
  let b := if b <=? 0 then 1 else b in
  let d := s32 (a + b) in
  q1 ← quot_long (guess_lo s) d;
  r1 ← rem_long (guess_lo s) d;
  x1 ← quot_long (s64 (r1 * a)) d;
  q2 ← quot_long (guess_hi s) d;
  r2 ← rem_long (guess_hi s) d;
  x2 ← quot_long (s64 (r2 * b)) d;
  Ok (s64 (s64 (s64 (s64 (q1 * a) + x1) + s64 (q2 * b)) + x2), range).

(** An invalid guess is replaced by one of binary search. *)
Definition bisect (lo hi g range : Z) : Z * Z :=
  if (g <=? lo) || (hi <=? g) then
    let g := Z.quot lo 2 + Z.quot hi 2 in
    let g := if g <=? lo then lo + 1 else if hi <=? g then hi - 1 else g in
    (g, 0)
  else (g, range).

(** What follows a hit of [localtime], which may not be monotonic: another result is looked
    for two hours before or after. *)
Definition other_result (tptr : tm) (find_dst : bool) (g : Z) : res Z :=
  let g2 := if find_dst then s64 (g - 2 * 60 * 60) else s64 (g + 2 * 60 * 60) in
  match localtime g2 with
  | None => Ok g
  | Some t =>
      let differ :=
        if find_dst then negb (tm_hour tptr =? Z.rem (s32 (tm_hour t + 2)) 24)
        else negb (Z.rem (s32 (tm_hour tptr + 2)) 24 =? tm_hour t) in
      if differ || negb (tm_min tptr =? tm_min t) || negb (tm_sec tptr =? tm_sec t) then
        let g2 := s64 (g2 - s32 (s32 (s32 (s32 (tm_hour t - tm_hour tptr) * 60 * 60) +
                                    s32 ((tm_min t - tm_min tptr) * 60)) + (tm_sec t - tm_sec tptr))) in
        let g2 :=
          if negb (tm_mday tptr =? tm_mday t) then
            (if find_dst then s64 (g2 + 24 * 60 * 60) else s64 (g2 - 24 * 60 * 60))
          else g2 in
        if negb (g =? g2) then
          match localtime g2 with
          | None => Err BadPointer
          | Some t =>
              if tmcmp tptr t =? 0 then
                Ok (if find_dst then (if g <? g2 then g else g2) else (if g <? g2 then g2 else g))
              else Ok g
          end
        else Ok g
      else Ok g
  end.

(** Leaving the loop: a result, or the bounds it ended with *)
Inductive found := Hit (t : Z) | Gap (lo hi : Z) (tm_lo tm_hi : tm).

Definition search_step (tptr : tm) (utc_p find_dst : bool) (s : search) : res (search + found) :=
  if negb (guess_lo s + 1 <? guess_hi s) then
    Ok (inr (Gap (guess_lo s) (guess_hi s) (tm_lo s) (tm_hi s)))
  else
  '(g, range) ← (if have_guess s then Ok (guess s, 0) else interpolate tptr s);
  let '(g, range) := bisect (guess_lo s) (guess_hi s) g range in
  t ← of_option (Raise ArgumentError) (to_tm utc_p g);
  let d := tmcmp tptr t in
  if d <? 0 then
    let hi := g in
    let '(g, have) :=
      if negb (range =? 0) then
        let g := s64 (g - range) in (g, (guess_lo s <? g) && (g <? hi))
      else (g, false) in
    Ok (inl (mk_search g (guess_lo s) hi (tm_lo s) t have))
  else if 0 <? d then
    let lo := g in
    let '(g, have) :=
      if negb (range =? 0) then
        let g := s64 (g + range) in (g, (lo <? g) && (g <? guess_hi s))
      else (g, false) in
    Ok (inl (mk_search g lo (guess_hi s) t (tm_hi s) have))
  else
    r ← (if negb utc_p then other_result tptr find_dst g else Ok g);
    Ok (inr (Hit r)).

(** The argument has no [time_t]: extrapolation from the bounds. *)
Definition outerpolate (tptr tm0 : tm) (g : Z) : Z :=
  s64 (s64 (s64 (s64 (g + s32 ((tm_mday tptr - tm_mday tm0) * 24 * 60 * 60)) +
                 s32 ((tm_hour tptr - tm_hour tm0) * 60 * 60)) +
            s32 ((tm_min tptr - tm_min tm0) * 60)) +
       s32 (tm_sec tptr - tm_sec tm0)).

(** The first two guesses: a hit, or tighter bounds *)
Definition first_guesses (tptr : tm) (utc_p : bool) (lo hi g : Z) : Z * Z + Z :=
  match to_tm utc_p g with
  | None => inl (lo, hi)
  | Some t =>
      let d := tmcmp tptr t in
      if d =? 0 then inr g else
      let '(lo, hi, g) :=
        if d <? 0 then (lo, g, s64 (g - 24 * 60 * 60)) else (g, hi, s64 (g + 24 * 60 * 60)) in
      if (lo <? g) && (g <? hi) then
        match to_tm utc_p g with
        | None => inl (lo, hi)
        | Some t =>
            let d := tmcmp tptr t in
            if d =? 0 then inr g else if d <? 0 then inl (lo, g) else inl (g, hi)
        end
      else inl (lo, hi)
  end.

Definition search_time_t (tptr : tm) (utc_p : bool) : res Z :=
  let find_dst := 0 <? tm_isdst tptr in
  g ← timegm_noleapsecond tptr;
  match first_guesses tptr utc_p LONG_MIN LONG_MAX g with
  | inr t => Ok t
  | inl (lo, hi) =>
      tlo ← of_option (Raise ArgumentError) (to_tm utc_p lo);
      let d := tmcmp tptr tlo in
      if d <? 0 then Err (Raise ArgumentError) else
      if d =? 0 then Ok lo else
      thi ← of_option (Raise ArgumentError) (to_tm utc_p hi);
      let d := tmcmp tptr thi in
      if 0 <? d then Err (Raise ArgumentError) else
      if d =? 0 then Ok hi else
      r ← iter_pow 64 (search_step tptr utc_p find_dst) (mk_search g lo hi tlo thi false);
      match r with
      | inl _ => Err NoFuel
      | inr (Hit t) => Ok t
      | inr (Gap lo hi tlo thi) =>
          if (tm_year tlo =? tm_year tptr) && (tm_mon tlo =? tm_mon tptr) then Ok (outerpolate tptr tlo lo)
          else if (tm_year thi =? tm_year tptr) && (tm_mon thi =? tm_mon tptr) then Ok (outerpolate tptr thi hi)
          else Err (Raise ArgumentError)
      end
  end.

(** The comparison of the fields in [make_time_t] *)
Definition same_fields (a b : tm) : bool :=
  (tm_year a =? tm_year b) && (tm_mon a =? tm_mon b) && (tm_mday a =? tm_mday b) &&
  (tm_hour a =? tm_hour b) && (tm_min a =? tm_min b) && (tm_sec a =? tm_sec b).

Definition make_time_t (tptr : tm) (utc_p : bool) : res Z :=
  let '(t, buf) := (if utc_p then timegm else mktime) tptr in
  if negb (t =? -1) then Ok t else
  match to_tm utc_p t with
  | Some tmp => if same_fields tptr tmp then Ok t else search_time_t buf utc_p
  | None => search_time_t buf utc_p
  end.
End search.

(** ** Arguments

    The values the methods of [Time] are given. *)
Inductive arg `{CDouble} :=
  | ANil
  | ABool (b : bool)
  | AInt (n : num)
  | AFlo (d : dbl)
  | AStr (s : list Z)
  | ATime (t : time_object)
  | AObj (id : Z).

(** Methods and conversions of values: whether a value responds to [divmod]; the first two
    entries of [divmod(1)], if that is an array; the product with an integer; the
    string of an object with [to_str]; [NUM2LONG] of a value that is not an integer;
    [NUM2DBL]. *)
Class TimeRuntime `{CDouble} := {
  responds_divmod : arg → bool;
  divmod_1 : arg → res (option (arg * arg));
  mul : arg → Z → res arg;
  obj_to_str : Z → option (list Z);
  other2long : arg → res Z;
  rb_num2dbl : arg → res dbl
}.

Record timespec := mk_timespec { ts_sec : Z; ts_nsec : Z }.

(** The characters of a string up to its first NUL. *)
Fixpoint c_str (s : list Z) : list Z :=
  match s with [] => [] | c :: s => if c =? 0 then [] else c :: c_str s end.

(** "jan", "feb", ... *)
Definition months : list (list Z) :=
  [[106; 97; 110]; [102; 101; 98]; [109; 97; 114]; [97; 112; 114]; [109; 97; 121]; [106; 117; 110];
   [106; 117; 108]; [97; 117; 103]; [115; 101; 112]; [111; 99; 116]; [110; 111; 118]; [100; 101; 99]].

Section args.
Context `{J : Junk} `{C : CTime} `{D : CDouble} `{R : !TimeRuntime}.

Definition NIL_P (v : arg) : bool := match v with ANil => true | _ => false end.
Definition RTEST (v : arg) : bool := match v with ANil | ABool false => false | _ => true end.

Definition NUM2LONG (v : arg) : res Z :=
  match v with AInt n => rb_num2long n | _ => other2long v end.

(** [t.tv_sec < 0] in an interval *)
Definition interval_check (interval : bool) (sec : Z) : res unit :=
  check (negb (interval && (sec <? 0))) (Raise ArgumentError).

Definition time_timespec (v : arg) (interval : bool) : res timespec :=
  match v with
  | AInt n =>
      sec ← rb_num2long n;
      _ ← interval_check interval sec;
      Ok (mk_timespec sec 0)
  | AFlo x =>
      if interval && dbl_ltb x (dbl_of_int 0) then Err (Raise ArgumentError) else
      let '(d, f) := modf x in
      let sec := dbl_to_long f in
      if negb (dbl_eqb f (dbl_of_int sec)) then Err (Raise RangeError) else
      Ok (mk_timespec sec (dbl_to_long (dbl_add (dbl_mul d dbl_1e9) dbl_half)))
  | _ =>
      if responds_divmod v then
        ary ← divmod_1 v;
        match ary with
        | None => Err (Raise TypeError)
        | Some (i, f) =>
            sec ← NUM2LONG i;
            _ ← interval_check interval sec;
            f ← mul f 1000000000;
            nsec ← NUM2LONG f;
            Ok (mk_timespec sec nsec)
        end
      else Err (Raise TypeError)
  end.

(** [struct timeval], as the seconds and the microseconds *)
Definition time_timeval (v : arg) (interval : bool) : res (Z * Z) :=
  ts ← time_timespec v interval;
  Ok (ts_sec ts, Z.quot (ts_nsec ts) 1000).

Definition rb_time_interval (v : arg) : res (Z * Z) := time_timeval v true.

Definition rb_time_timeval (v : arg) : res (Z * Z) :=
  match v with
  | ATime t => Ok (tv_sec t, Z.quot (tv_nsec t) 1000)
  | _ => time_timeval v false
  end.

Definition rb_time_timespec (v : arg) : res timespec :=
  match v with
  | ATime t => Ok (mk_timespec (tv_sec t) (tv_nsec t))
  | _ => time_timespec v false
  end.

Definition time_s_at (argv : list arg) : res time_object :=
  '(ts, time) ←
    match argv with
    | [time] => ts ← rb_time_timespec time; Ok (ts, time)
    | [time; t] =>
        sec ← NUM2LONG time;
        usec ← mul t 1000;
        nsec ← NUM2LONG usec;
        Ok (mk_timespec sec nsec, time)
    | _ => Err (Raise ArgumentError)
    end;
  t ← time_new_internal (ts_sec ts) (ts_nsec ts);
  Ok (match time with ATime t0 => set_gmt t (gmt t0) | _ => t end).

(** ** Calendar arguments *)

Definition rb_str_to_inum (s : list Z) (base : Z) (badcheck : bool) : res num :=
  rb_cstr_to_inum (Some (c_str s)) base badcheck.

Definition obj2long (v : arg) : res Z :=
  match v with
  | AStr s => n ← rb_str_to_inum s 10 false; rb_num2long n
  | _ => NUM2LONG v
  end.

(** The seconds and the nanoseconds *)
Definition obj2nsec (v : arg) : res (Z * Z) :=
  match v with
  | AStr s => n ← rb_str_to_inum s 10 false; sec ← rb_num2long n; Ok (sec, 0)
  | _ => ts ← time_timespec v true; Ok (ts_sec ts, ts_nsec ts)
  end.

Definition obj2long1000 (v : arg) : res Z :=
  match v with
  | AStr s => n ← rb_str_to_inum s 10 false; x ← rb_num2long n; Ok (s64 (x * 1000))
  | _ => v ← mul v 1000; NUM2LONG v
  end.

Definition rb_check_string_type (v : arg) : option (list Z) :=
  match v with AStr s => Some s | AObj id => obj_to_str id | _ => None end.

(** The loop over the month names, from the [i]th one. *)
Fixpoint find_month (i : Z) (names : list (list Z)) (s : list Z) : Z :=
  match names with
  | [] => -1
  | m :: names =>
      if (zlen s =? 3) && (st_strcasecmp m (c_str s) =? 0) then i else find_month (i + 1) names s
  end.

Definition arg_mon (v : arg) : res Z :=
  if NIL_P v then Ok 0 else
  match rb_check_string_type v with
  | Some s =>
      let mon := find_month 0 months s in
      if mon =? -1 then
        let c := peek s in
        if (48 <=? c) && (c <=? 57) then m ← obj2long (AStr s); Ok (s32 (s64 (m - 1))) else Ok mon
      else Ok mon
  | None => m ← obj2long v; Ok (s32 (s64 (m - 1)))
  end.

Definition arg_or (v : arg) (dflt : Z) : res Z :=
  if NIL_P v then Ok dflt else n ← obj2long v; Ok (s32 n).

(** The values [v[0]] to [v[6]], [tm_wday] and [tm_isdst] *)
Definition scan_time_args (argv : list arg) : res (list arg * Z * Z) :=
  if zlen argv =? 10 then
    match argv with
    | [a0; a1; a2; a3; a4; a5; _; _; a8; _] =>
        Ok ([a5; a4; a3; a2; a1; a0; ANil], 0, if RTEST a8 then 1 else 0)
    | _ => Err OutOfBounds
    end
  else
    if (1 <=? zlen argv) && (zlen argv <=? 8) then
      Ok ((λ i : nat, default ANil (argv !! i)) <$> seq 0 7, -1, -1)
    else Err (Raise ArgumentError).

(** The test of the fields; [year] is the [long] that [tm_year] was assigned from. *)
Definition tm_valid (t : tm) (year : Z) : bool :=
  negb (negb (tm_year t =? year)
    || (tm_mon t <? 0) || (11 <? tm_mon t)
    || (tm_mday t <? 1) || (31 <? tm_mday t)
    || (tm_hour t <? 0) || (24 <? tm_hour t)
    || ((tm_hour t =? 24) && ((0 <? tm_min t) || (0 <? tm_sec t)))
    || (tm_min t <? 0) || (59 <? tm_min t)
    || (tm_sec t <? 0) || (60 <? tm_sec t)).

(** The fields and the nanoseconds *)
Definition time_arg (argv : list arg) : res (tm * Z) :=
  '(v, wday, isdst) ← scan_time_args argv;
  match v with
  | [v0; v1; v2; v3; v4; v5; v6] =>
      year ← obj2long v0;
      let year :=
        if (0 <=? year) && (year <? 39) then year + 100
        else if (69 <=? year) && (year <? 139) then year
        else s64 (year - 1900) in
      mon ← arg_mon v1;
      mday ← arg_or v2 1;
      hour ← arg_or v3 0;
      min ← arg_or v4 0;
      '(sec, nsec) ←
        (if negb (NIL_P v6) && (zlen argv =? 7) then
           sec ← arg_or v5 0;
           nsec ← obj2long1000 v6;
           Ok (sec, nsec)
         else if NIL_P v5 then Ok (0, 0)
         else '(sec, nsec) ← obj2nsec v5; Ok (s32 sec, nsec));
      let t := mk_tm sec min hour mday mon (s32 year) wday 0 isdst 0 [] in
      _ ← check (tm_valid t year) (Raise ArgumentError);
      Ok (t, nsec)
  | _ => Err OutOfBounds
  end.

(** ** Methods *)

Definition time_modify (t : time_object) : res unit :=
  if frozen t then Err (Raise RuntimeError) else
  if negb (tainted t) && (4 <=? rb_safe_level) then Err (Raise SecurityError) else Ok ().

Definition time_to_i (t : time_object) : res num := rb_int2inum (tv_sec t).
Definition time_usec (t : time_object) : res num := rb_int2inum (Z.quot (tv_nsec t) 1000).
Definition time_nsec (t : time_object) : res num := rb_int2inum (tv_nsec t).

(** [nil] is [None]. *)
Definition time_cmp (t1 : time_object) (time2 : arg) : option Z :=
  match time2 with
  | ATime t2 =>
      Some (if tv_sec t1 =? tv_sec t2 then
              if tv_nsec t1 =? tv_nsec t2 then 0
              else if tv_nsec t2 <? tv_nsec t1 then 1 else -1
            else if tv_sec t2 <? tv_sec t1 then 1 else -1)
  | _ => None
  end.

Definition time_eql (t1 : time_object) (time2 : arg) : bool :=
  match time2 with
  | ATime t2 => (tv_sec t1 =? tv_sec t2) && (tv_nsec t1 =? tv_nsec t2)
  | _ => false
  end.

Definition time_utc_p (t : time_object) : bool := negb (gmt t =? 0).

Definition time_hash (t : time_object) : num := LONG2FIX (Z.lxor (tv_sec t) (tv_nsec t)).

(** [same]: the copy and the original are one object. *)
Definition time_init_copy (same : bool) (copy : time_object) (time : arg) : res time_object :=
  if same then Ok copy else
  _ ← time_modify copy;
  match time with
  | ATime t => Ok (mk_time (tv_sec t) (tv_nsec t) (t_tm t) (gmt t) (tm_got t) (frozen copy) (tainted copy) (ivars copy))
  | _ => Err (Raise TypeError)
  end.

Definition time_dup (t : time_object) : res time_object := time_init_copy false time_s_alloc (ATime t).

Definition time_localtime (t : time_object) : res time_object :=
  if (gmt t =? 0) && negb (tm_got t =? 0) then Ok t else
  _ ← (if gmt t =? 0 then Ok () else time_modify t);
  x ← of_option (Raise ArgumentError) (localtime (tv_sec t));
  Ok (set_tm t x 0).

Definition time_gmtime (t : time_object) : res time_object :=
  if negb (gmt t =? 0) && negb (tm_got t =? 0) then Ok t else
  _ ← (if negb (gmt t =? 0) then Ok () else time_modify t);
  x ← of_option (Raise ArgumentError) (gmtime (tv_sec t));
  Ok (set_tm t x 1).

Definition time_getlocaltime (t : time_object) : res time_object := t ← time_dup t; time_localtime t.
Definition time_getgmtime (t : time_object) : res time_object := t ← time_dup t; time_gmtime t.

Definition time_get_tm (t : time_object) (g : Z) : res time_object :=
  if negb (g =? 0) then time_gmtime t else time_localtime t.

(** [if (tobj->tm_got == 0) time_get_tm(time, tobj->gmt);], with which every reader begins *)
Definition got_tm (t : time_object) : res time_object :=
  if tm_got t =? 0 then time_get_tm t (gmt t) else Ok t.

(** The readers: the value and the object, whose broken-down time may have been filled in *)
Definition time_sec (t : time_object) : res (Z * time_object) := t ← got_tm t; Ok (tm_sec (t_tm t), t).
Definition time_min (t : time_object) : res (Z * time_object) := t ← got_tm t; Ok (tm_min (t_tm t), t).
Definition time_hour (t : time_object) : res (Z * time_object) := t ← got_tm t; Ok (tm_hour (t_tm t), t).
Definition time_mday (t : time_object) : res (Z * time_object) := t ← got_tm t; Ok (tm_mday (t_tm t), t).
Definition time_mon (t : time_object) : res (Z * time_object) := t ← got_tm t; Ok (s32 (tm_mon (t_tm t) + 1), t).
Definition time_year (t : time_object) : res (num * time_object) :=
  t ← got_tm t; y ← rb_int2inum (tm_year (t_tm t) + 1900); Ok (y, t).
Definition time_wday (t : time_object) : res (Z * time_object) := t ← got_tm t; Ok (tm_wday (t_tm t), t).
Definition wday_p (n : Z) (t : time_object) : res (bool * time_object) :=
  t ← got_tm t; Ok (tm_wday (t_tm t) =? n, t).
Definition time_sunday : time_object → res (bool * time_object) := wday_p 0.
Definition time_monday : time_object → res (bool * time_object) := wday_p 1.
Definition time_tuesday : time_object → res (bool * time_object) := wday_p 2.
Definition time_wednesday : time_object → res (bool * time_object) := wday_p 3.
Definition time_thursday : time_object → res (bool * time_object) := wday_p 4.
Definition time_friday : time_object → res (bool * time_object) := wday_p 5.
Definition time_saturday : time_object → res (bool * time_object) := wday_p 6.
Definition time_yday (t : time_object) : res (Z * time_object) := t ← got_tm t; Ok (s32 (tm_yday (t_tm t) + 1), t).
Definition time_isdst (t : time_object) : res (bool * time_object) :=
  t ← got_tm t; Ok (negb (tm_isdst (t_tm t) =? 0), t).

(** "UTC" *)
Definition utc_zone : list Z := [85; 84; 67].
Definition time_zone (t : time_object) : res (list Z * time_object) :=
  t ← got_tm t;
  Ok (if gmt t =? 1 then utc_zone else tm_zone (t_tm t), t).

Definition time_utc_offset (t : time_object) : res (num * time_object) :=
  t ← got_tm t;
  if gmt t =? 1 then Ok (Fixnum 0, t)
  else off ← rb_int2inum (s32 (tm_gmtoff (t_tm t))); Ok (off, t).

Definition time_to_a (t : time_object) : res (list arg * time_object) :=
  t ← got_tm t;
  let x := t_tm t in
  year ← rb_int2inum (tm_year x + 1900);
  '(zone, t) ← time_zone t;
  Ok ([AInt (Fixnum (tm_sec x)); AInt (Fixnum (tm_min x)); AInt (Fixnum (tm_hour x));
       AInt (Fixnum (tm_mday x)); AInt (Fixnum (s32 (tm_mon x + 1))); AInt year;
       AInt (Fixnum (tm_wday x)); AInt (Fixnum (s32 (tm_yday x + 1)));
       ABool (negb (tm_isdst x =? 0)); AStr zone], t).

Definition time_utc_or_local (argv : list arg) (utc_p : bool) : res time_object :=
  '(x, nsec) ← time_arg argv;
  sec ← make_time_t x utc_p;
  t ← time_new_internal sec nsec;
  if utc_p then time_gmtime t else time_localtime t.

Definition time_s_mkutc (argv : list arg) : res time_object := time_utc_or_local argv true.
Definition time_s_mktime (argv : list arg) : res time_object := time_utc_or_local argv false.

(** ** Arithmetic *)

(** The part of [time_add] after the offset is split: [sec_off] is unsigned. *)
Definition time_add_off (t : time_object) (sec_off nsec_off sign : Z) : res time_object :=
  '(sec, nsec) ←
    (if sign <? 0 then
       let sec := s64 (u64 (tv_sec t) - sec_off) in
       let nsec := s64 (tv_nsec t - nsec_off) in
       if tv_sec t <? sec then Err (Raise RangeError) else Ok (sec, nsec)
     else
       let sec := s64 (u64 (tv_sec t) + sec_off) in
       let nsec := s64 (tv_nsec t + nsec_off) in
       if sec <? tv_sec t then Err (Raise RangeError) else Ok (sec, nsec));
  result ← rb_time_nano_new sec nsec;
  Ok (if negb (gmt t =? 0) then set_gmt result 1 else result).

Definition time_add (t : time_object) (offset : arg) (sign : Z) : res time_object :=
  v ← rb_num2dbl offset;
  let '(v, sign) := if dbl_ltb v (dbl_of_int 0) then (dbl_neg v, - sign) else (v, sign) in
  let '(d, f) := modf v in
  let sec_off := dbl_to_ulong f in
  if negb (dbl_eqb f (dbl_of_int sec_off)) then Err (Raise RangeError) else
  let nsec_off := dbl_to_long (dbl_add (dbl_mul d dbl_1e9) dbl_half) in
  time_add_off t sec_off nsec_off sign.

Definition time_plus (t1 : time_object) (time2 : arg) : res arg :=
  match time2 with
  | ATime _ => Err (Raise TypeError)
  | _ => ATime <$> time_add t1 time2 1
  end.

Definition time_minus (t1 : time_object) (time2 : arg) : res arg :=
  match time2 with
  | ATime t2 =>
      let f :=
        if tv_sec t1 <? tv_sec t2 then dbl_neg (dbl_of_int (u64 (tv_sec t2 - tv_sec t1)))
        else dbl_of_int (u64 (tv_sec t1 - tv_sec t2)) in
      Ok (AFlo (dbl_add f (dbl_mul (dbl_sub (dbl_of_int (tv_nsec t1)) (dbl_of_int (tv_nsec t2))) dbl_1em9)))
  | _ => ATime <$> time_add t1 time2 (-1)
  end.

Definition time_succ (t : time_object) : res time_object :=
  t' ← rb_time_nano_new (s64 (tv_sec t + 1)) (tv_nsec t);
  Ok (set_gmt t' (gmt t)).

Definition rb_time_succ (t : time_object) : res time_object := time_succ t.

(** ** Marshalling *)

(** A string, whether it is a ByteString, and its instance variables *)
Record dump := mk_dump { d_bytes : list Z; d_bytestring : bool; d_ivars : ivar_dict }.

(** [rb_str_new(buf, sizeof buf)]: [str_new] looks for the end of the text with [strlen], which reads beyond a buffer
    that has no NUL; a buffer with a NUL is longer than its text and makes a ByteString. *)
Definition rb_str_new_buf (buf : list Z) : res (list Z * bool) :=
  if existsb (Z.eqb 0) buf then Ok (buf, true) else Err OutOfBounds.

(** The dictionary of [clone] after [rb_copy_generic_ivar(clone, obj)] *)
Definition rb_copy_generic_ivar (clone obj : ivar_dict) : ivar_dict :=
  match obj with None => clone | Some d => Some d end.

Definition set_ivar (d : ivar_dict) (id : string) (v : ivar) : ivar_dict := Some (<[id := v]> (default ∅ d)).
Definition attr_get (d : ivar_dict) (id : string) : option ivar := d ≫= (.!! id).
Definition id_submicro : string := "submicro".

(** [for (i=0; i<4; i++) { buf[i] = p & 0xff; p = RSHIFT(p, 8); }] *)
Fixpoint low_bytes (n : nat) (p : Z) : list Z :=
  match n with O => [] | Datatypes.S n => Z.land p 255 :: low_bytes n (Z.shiftr p 8) end.

(** The packed digits below the microsecond *)
Definition submicro_bytes (nsec : Z) : list Z :=
  let b1 := Z.land (Z.shiftl (Z.rem nsec 10) 4) 255 in
  let nsec := Z.quot nsec 10 in
  let b0 := Z.land (Z.rem nsec 10) 255 in
  let nsec := Z.quot nsec 10 in
  let b0 := Z.land (Z.lor b0 (Z.shiftl (Z.rem nsec 10) 4)) 255 in
  if b1 =? 0 then [b0] else [b0; b1].

(** [rb_str_new((char * )buf, len)]: for one character there is no [strlen]. *)
Definition submicro_str (nsec : Z) : res (list Z) :=
  let bs := submicro_bytes nsec in
  if zlen bs =? 1 then Ok bs else '(bs, _) ← rb_str_new_buf bs; Ok bs.

(** The words [p] and [s]; [<<] is on [int], except for the first bit. *)
Definition dump_p (x : tm) (g : Z) : Z :=
  u64 (Z.lor (Z.lor (Z.lor (Z.lor (Z.lor (Z.shiftl 1 31) (s32 (Z.shiftl g 30))) (s32 (Z.shiftl (tm_year x) 14)))
    (s32 (Z.shiftl (tm_mon x) 10))) (s32 (Z.shiftl (tm_mday x) 5))) (tm_hour x)).
Definition dump_s (x : tm) (nsec : Z) : Z :=
  u64 (Z.lor (Z.lor (s32 (Z.shiftl (tm_min x) 26)) (s32 (Z.shiftl (tm_sec x) 20))) (Z.quot nsec 1000)).

Definition time_mdump (t : time_object) : res dump :=
  x ← of_option BadPointer (gmtime (tv_sec t));
  if negb (Z.land (tm_year x) 65535 =? tm_year x) then Err (Raise ArgumentError) else
  let p := dump_p x (gmt t) in
  let s := dump_s x (tv_nsec t) in
  let nsec := Z.rem (tv_nsec t) 1000 in
  '(str, byt) ← rb_str_new_buf (low_bytes 4 p ++ low_bytes 4 s);
  let iv := rb_copy_generic_ivar None (ivars t) in
  iv ← (if negb (nsec =? 0) then
          sub ← submicro_str nsec;
          if 4 <=? rb_safe_level then Err (Raise SecurityError)
          else Ok (set_ivar iv id_submicro (IvStr sub))
        else Ok iv);
  Ok (mk_dump str byt iv).

Definition time_dump (t : time_object) (argv : list arg) : res dump :=
  if zlen argv <=? 1 then time_mdump t else Err (Raise ArgumentError).

(** [p |= buf[i] << (8 * i)]: the shift is on [int], whose sign extends into the word. *)
Fixpoint or_bytes (i : Z) (bs : list Z) (p : Z) : Z :=
  match bs with
  | [] => p
  | b :: bs => or_bytes (i + 1) bs (Z.lor p (u64 (s32 (Z.shiftl b (8 * i)))))
  end.

(** The nanoseconds with the digits of [submicro] *)
Definition add_submicro (nsec : Z) (submicro : option ivar) : res Z :=
  match submicro with
  | None => Ok nsec
  | Some (IvObj _) => Err (Raise TypeError)
  | Some (IvStr ptr) =>
      match ptr with
      | [] => Ok nsec
      | b0 :: rest =>
          let digit := Z.shiftr b0 4 in
          if 10 <=? digit then Ok nsec else
          let nsec := nsec + digit * 100 in
          let digit := Z.land b0 15 in
          if 10 <=? digit then Ok nsec else
          let nsec := nsec + digit * 10 in
          match rest with
          | [] => Ok nsec
          | b1 :: _ =>
              let digit := Z.shiftr b1 4 in
              if 10 <=? digit then Ok nsec else Ok (nsec + digit)
          end
      end
  end.

(** The fields in the words [p] and [s]; the code leaves [tm_wday], [tm_yday], [tm_gmtoff]
    and [tm_zone] unset. *)
Definition load_tm (p s : Z) : tm :=
  mk_tm (Z.land (Z.shiftr s 20) 63) (Z.land (Z.shiftr s 26) 63) (Z.land p 31) (Z.land (Z.shiftr p 5) 31)
    (Z.land (Z.shiftr p 10) 15) (Z.land (Z.shiftr p 14) 65535) 0 0 0 0 [].

Definition time_mload (t : time_object) (str : dump) : res time_object :=
  _ ← time_modify t;
  let submicro := attr_get (d_ivars str) id_submicro in
  let iv := rb_copy_generic_ivar (ivars t) (d_ivars str) in
  _ ← check (d_bytestring str) AssertFailed;
  let buf := d_bytes str in
  if negb (zlen buf =? 8) && negb (zlen buf =? 9) then Err (Raise TypeError) else
  let p := or_bytes 0 (take 4 buf) 0 in
  let s := or_bytes 0 (take 4 (drop 4 buf)) 0 in
  '(g, sec, nsec) ←
    (if Z.land p (Z.shiftl 1 31) =? 0 then
       let usec := s64 s in
       Ok (0, s64 p, s64 (usec * 1000))
     else
       let p := Z.land p (u64 (Z.lnot (Z.shiftl 1 31))) in
       let g := Z.land (Z.shiftr p 30) 1 in
       sec ← make_time_t (load_tm p s) true;
       let usec := Z.land s 1048575 in
       nsec ← add_submicro (usec * 1000) submicro;
       Ok (g, sec, nsec));
  '(sec, nsec) ← time_overflow_p sec nsec;
  Ok (mk_time sec nsec (t_tm t) g 0 (frozen t) (tainted t) iv).

Definition time_load (str : dump) : res time_object := time_mload time_s_alloc str.
End args.
