(* ===== verification/TimeSearch.v ===== *)
(** The calendar, then the search for a time in it. *)

(** * The Gregorian calendar

    What [timegm_noleapsecond] and [tmcmp] compute, against a calendar defined by counting
    days year by year and month by month; what the C library promises of [gmtime] and
    [timegm]. *)

From S2P Require Import Prelude St Util Big BigStr Numeric Time.

(** ** The reference calendar *)

Definition leap (y : Z) : bool := ((y mod 4 =? 0) && negb (y mod 100 =? 0)) || (y mod 400 =? 0).
Definition year_days (y : Z) : Z := if leap y then 366 else 365.

Definition month_lengths (y : Z) : list Z :=
  [31; if leap y then 29 else 28; 31; 30; 31; 30; 31; 31; 30; 31; 30; 31].
Definition month_days (y m : Z) : Z := default 0 (zlookup (month_lengths y) m).

(** Days in the [n] years from [y] on *)
Fixpoint sum_years (n : nat) (y : Z) : Z :=
  match n with O => 0 | S n => year_days y + sum_years n (y + 1) end.

(** Days from the first of January 1970 to the first of January of [y] *)
Definition days_to_year (y : Z) : Z :=
  if 1970 <=? y then sum_years (Z.to_nat (y - 1970)) 1970 else - sum_years (Z.to_nat (1970 - y)) y.
Definition days_to_month (y m : Z) : Z := foldr Z.add 0 (take (Z.to_nat m) (month_lengths y)).

(** Seconds since the Epoch of broken-down Universal Time; fields beyond the end of their
    unit count into the next one. *)
Definition month_start (y m : Z) : Z := (days_to_year y + days_to_month y m - 1) * 86400.
Definition epoch (t : tm) : Z :=
  month_start (tm_year t + 1900) (tm_mon t) + tm_mday t * 86400 + tm_hour t * 3600 + tm_min t * 60 + tm_sec t.

(** A date of the calendar and a time of day, with a year that fits [tm_year] *)
Definition in_calendar (t : tm) : Prop :=
  - 2 ^ 31 ≤ tm_year t < 2 ^ 31 ∧ 0 ≤ tm_mon t < 12 ∧
  1 ≤ tm_mday t ≤ month_days (tm_year t + 1900) (tm_mon t) ∧
  0 ≤ tm_hour t < 24 ∧ 0 ≤ tm_min t < 60 ∧ 0 ≤ tm_sec t < 60.

(** The fields [time_arg] lets pass *)
Definition in_range (t : tm) : Prop :=
  - 2 ^ 31 ≤ tm_year t < 2 ^ 31 ∧ 0 ≤ tm_mon t < 12 ∧ 1 ≤ tm_mday t ≤ 31 ∧
  0 ≤ tm_hour t ≤ 24 ∧ (tm_hour t = 24 → tm_min t = 0 ∧ tm_sec t = 0) ∧
  0 ≤ tm_min t < 60 ∧ 0 ≤ tm_sec t ≤ 60.

#[global] Instance in_calendar_dec t : Decision (in_calendar t).
Proof. unfold in_calendar. apply _. Defined.
#[global] Instance in_range_dec t : Decision (in_range t).
Proof. unfold in_range. apply _. Defined.

(** ** The C library's promises

    [gmtime] converts seconds since the Epoch to the calendar, and fails only if the year
    does not fit.  [timegm] converts back, and counts fields past their end into
    the next unit. *)
Class CTimeLaws `{CTime} : Prop := {
  gmtime_sound : ∀ t x, gmtime t = Some x → in_calendar x ∧ epoch x = t;
  gmtime_total : ∀ x, in_calendar x → is_Some (gmtime (epoch x));
  gmtime_convex : ∀ t1 t t2, t1 ≤ t ≤ t2 → is_Some (gmtime t1) → is_Some (gmtime t2) → is_Some (gmtime t);
  timegm_value : ∀ x, in_range x → tm_year x < 2 ^ 31 - 1 → (timegm x).1 = epoch x
}.

(** ** Years *)

Lemma leap_year_p_leap y : leap_year_p y = leap y.
Proof.
  unfold leap_year_p, leap.
  assert (∀ d, d ≠ 0 → (Z.rem y d =? 0) = (y mod d =? 0)) as H.
  { intros d Hd. apply Bool.eq_iff_eq_true. rewrite !Z.eqb_eq.
    rewrite Z.rem_divide by done. by rewrite Z.mod_divide. }
  by rewrite !H.
Qed.

(** The number of leap days that the formula of POSIX counts *)
Definition year_formula (y : Z) : Z :=
  365 * (y - 1970) + (y - 1969) / 4 - (y - 1901) / 100 + (y - 1601) / 400.

Lemma year_formula_succ y : year_formula (y + 1) = year_formula y + year_days y.
Proof.
  unfold year_formula, year_days, leap.
  destruct (Z.eqb_spec (y mod 4) 0); destruct (Z.eqb_spec (y mod 100) 0); destruct (Z.eqb_spec (y mod 400) 0);
    cbn [andb orb negb]; Z.to_euclidean_division_equations; lia.
Qed.

Lemma sum_years_formula n y : sum_years n y = year_formula (y + Z.of_nat n) - year_formula y.
Proof.
  revert y. induction n as [|n IH]; intros y; cbn [sum_years]; [rewrite Z.add_0_r; lia|].
  rewrite IH, year_formula_succ. replace (y + 1 + Z.of_nat n) with (y + Z.of_nat (S n)) by lia. lia.
Qed.

Lemma days_to_year_formula y : days_to_year y = year_formula y.
Proof.
  unfold days_to_year. destruct (Z.leb_spec 1970 y); rewrite sum_years_formula, Z2Nat.id by lia.
  - replace (1970 + (y - 1970)) with y by lia. change (year_formula 1970) with 0. lia.
  - replace (y + (1970 - y)) with 1970 by lia. change (year_formula 1970) with 0. lia.
Qed.

Lemma days_to_year_succ y : days_to_year (y + 1) = days_to_year y + year_days y.
Proof. rewrite !days_to_year_formula. apply year_formula_succ. Qed.

Lemma year_formula_mono y y' : y ≤ y' → year_formula y ≤ year_formula y'.
Proof. intros. unfold year_formula. Z.to_euclidean_division_equations. lia. Qed.

Lemma days_to_year_lt y y' : y < y' → days_to_year y + year_days y ≤ days_to_year y'.
Proof. intros. rewrite <-days_to_year_succ, !days_to_year_formula. apply year_formula_mono. lia. Qed.

Lemma NDIV_div x y : 0 < y → x < 0 → NDIV x y = x / y.
Proof.
  intros. unfold NDIV. rewrite Z.quot_div_nonneg by lia.
  assert (x / y = - ((- (x + 1)) / y) - 1); [|lia].
  symmetry. apply Z.div_unique with (y - 1 - (- (x + 1)) mod y).
  - left. pose proof (Z.mod_pos_bound (- (x + 1)) y). lia.
  - pose proof (Z.div_mod (- (x + 1)) y). nia.
Qed.

Lemma NMOD_mod x y : 0 < y → x < 0 → NMOD x y = x mod y.
Proof.
  intros. unfold NMOD. rewrite Z.rem_mod_nonneg by lia.
  apply Z.mod_unique with (- ((- (x + 1)) / y) - 1).
  - left. pose proof (Z.mod_pos_bound (- (x + 1)) y). lia.
  - pose proof (Z.div_mod (- (x + 1)) y). nia.
Qed.

Lemma DIV_div n d : 0 < d → DIV n d = n / d.
Proof.
  intros. unfold DIV. destruct (Z.ltb_spec n 0); [by apply NDIV_div|].
  apply Z.quot_div_nonneg; lia.
Qed.

(** ** Months *)

(** A month is one of the twelve. *)
Lemma month_cases (P : Z → Prop) m :
  0 ≤ m < 12 → P 0 → P 1 → P 2 → P 3 → P 4 → P 5 → P 6 → P 7 → P 8 → P 9 → P 10 → P 11 → P m.
Proof.
  intros. assert (m = 0 ∨ m = 1 ∨ m = 2 ∨ m = 3 ∨ m = 4 ∨ m = 5 ∨ m = 6 ∨ m = 7 ∨ m = 8 ∨ m = 9 ∨ m = 10 ∨ m = 11) by lia.
  naive_solver.
Qed.

Ltac all_months m y :=
  pattern m; apply month_cases; [lia|..];
  unfold days_to_month, month_days, month_lengths, year_days; destruct (leap y); vm_compute; try done.

Lemma days_to_month_succ y m : 0 ≤ m < 12 → days_to_month y (m + 1) = days_to_month y m + month_days y m.
Proof. intros. all_months m y. Qed.

Lemma days_to_month_total y : days_to_month y 12 = year_days y.
Proof. unfold days_to_month, month_lengths, year_days. by destruct (leap y). Qed.

Lemma month_days_range y m : 0 ≤ m < 12 → 28 ≤ month_days y m ≤ 31.
Proof. intros. all_months m y. Qed.

Lemma days_to_month_nonneg y m : 0 ≤ days_to_month y m.
Proof.
  unfold days_to_month, month_lengths. generalize (Z.to_nat m) as n. intros n.
  destruct (leap y); do 12 (destruct n as [|n]; [by vm_compute|]); by destruct n.
Qed.

Lemma days_to_month_le y m k : 0 ≤ m → 0 ≤ k → m + k ≤ 12 → days_to_month y m ≤ days_to_month y (m + k).
Proof.
  intros Hm Hk. revert k Hk. apply (natlike_ind (λ k, m + k ≤ 12 → _ ≤ days_to_month y (m + k))).
  - rewrite Z.add_0_r. lia.
  - intros j Hj IH Hle. replace (m + Z.succ j) with (m + j + 1) by lia.
    rewrite days_to_month_succ by lia. pose proof (month_days_range y (m + j)). lia.
Qed.

Lemma days_to_month_lt y m m' : 0 ≤ m < m' → m' ≤ 12 → days_to_month y m + month_days y m ≤ days_to_month y m'.
Proof.
  intros. rewrite <-days_to_month_succ by lia. replace m' with (m + 1 + (m' - m - 1)) by lia.
  apply days_to_month_le; lia.
Qed.

Lemma days_to_month_bound y m : 0 ≤ m < 12 → days_to_month y m + month_days y m ≤ year_days y.
Proof. intros. rewrite <-days_to_month_total. apply days_to_month_lt; lia. Qed.

(** ** [timegm_noleapsecond] *)

Lemma yday_offset y m : 0 ≤ m < 12 →
  aload (if leap_year_p y then leap_year_yday_offset else common_year_yday_offset) m = Ok (days_to_month y m - 1).
Proof. intros. rewrite leap_year_p_leap. all_months m y. Qed.

Lemma year_formula_bound y : - 2 ^ 32 ≤ y ≤ 2 ^ 32 → - 2 ^ 42 ≤ year_formula y ≤ 2 ^ 42.
Proof. intros. unfold year_formula. Z.to_euclidean_division_equations. lia. Qed.

Lemma year_days_bound y : 365 ≤ year_days y ≤ 366.
Proof. unfold year_days. destruct (leap y); lia. Qed.

Lemma timegm_noleapsecond_spec t : in_range t → timegm_noleapsecond t = Ok (epoch t).
Proof.
  intros (Hy & Hm & Hd & Hh & _ & Hmi & Hs). unfold timegm_noleapsecond, epoch, month_start.
  rewrite yday_offset by lia. cbn [mbind res_bind]. f_equal.
  rewrite days_to_year_formula, !DIV_div by lia.
  pose proof (days_to_month_nonneg (tm_year t + 1900) (tm_mon t)).
  pose proof (days_to_month_bound (tm_year t + 1900) (tm_mon t) Hm).
  pose proof (month_days_range (tm_year t + 1900) (tm_mon t) Hm).
  pose proof (year_days_bound (tm_year t + 1900)).
  pose proof (year_formula_bound (tm_year t + 1900)) as Hb.
  generalize dependent (days_to_month (tm_year t + 1900) (tm_mon t)). intros dm Hdm0 Hdm.
  rewrite !(s32_small (_ * _)), (s32_small (tm_sec t + _)), !(s32_small (_ + _)) by lia.
  replace (tm_mday t + (dm - 1) + (tm_year t - 70) * 365 + (tm_year t - 69) / 4 - (tm_year t - 1) / 100 + (tm_year t + 299) / 400)
    with (tm_mday t + (dm - 1) + year_formula (tm_year t + 1900)).
  - rewrite (s64_small (_ * 86400)), s64_small by lia. lia.
  - unfold year_formula. replace (tm_year t + 1900 - 1969) with (tm_year t - 69) by lia.
    replace (tm_year t + 1900 - 1901) with (tm_year t - 1) by lia.
    replace (tm_year t + 1900 - 1601) with (tm_year t + 299) by lia. lia.
Qed.

Lemma epoch_bound t : in_range t → - 2 ^ 60 < epoch t < 2 ^ 60.
Proof.
  intros (Hy & Hm & Hd & Hh & _ & Hmi & Hs). unfold epoch, month_start. rewrite days_to_year_formula.
  pose proof (days_to_month_nonneg (tm_year t + 1900) (tm_mon t)).
  pose proof (days_to_month_bound (tm_year t + 1900) (tm_mon t) Hm).
  pose proof (month_days_range (tm_year t + 1900) (tm_mon t) Hm).
  pose proof (year_days_bound (tm_year t + 1900)).
  pose proof (year_formula_bound (tm_year t + 1900)). lia.
Qed.

Lemma in_calendar_in_range t : in_calendar t → in_range t.
Proof.
  intros (Hy & Hm & Hd & Hh & Hmi & Hs). pose proof (month_days_range (tm_year t + 1900) (tm_mon t) Hm).
  unfold in_range. split_and!; lia.
Qed.

(** ** The order of broken-down times *)

(** Seconds since the start of the month *)
Definition in_month (t : tm) : Z := tm_mday t * 86400 + tm_hour t * 3600 + tm_min t * 60 + tm_sec t.

Definition same_time (a b : tm) : Prop :=
  tm_year a = tm_year b ∧ tm_mon a = tm_mon b ∧ tm_mday a = tm_mday b ∧
  tm_hour a = tm_hour b ∧ tm_min a = tm_min b ∧ tm_sec a = tm_sec b.

(** The lexicographic order of the fields *)
Definition tm_lt (a b : tm) : Prop :=
  tm_year a < tm_year b ∨ tm_year a = tm_year b ∧
  (tm_mon a < tm_mon b ∨ tm_mon a = tm_mon b ∧
  (tm_mday a < tm_mday b ∨ tm_mday a = tm_mday b ∧
  (tm_hour a < tm_hour b ∨ tm_hour a = tm_hour b ∧
  (tm_min a < tm_min b ∨ tm_min a = tm_min b ∧ tm_sec a < tm_sec b)))).

Lemma tmcmp_spec a b :
  (tmcmp a b = -1 ∧ tm_lt a b) ∨ (tmcmp a b = 0 ∧ same_time a b) ∨ (tmcmp a b = 1 ∧ tm_lt b a).
Proof.
  unfold tmcmp, tm_lt, same_time.
  repeat match goal with |- context [?x =? ?y] => destruct (Z.eqb_spec x y); cbn [negb] end;
  repeat match goal with |- context [?x <? ?y] => destruct (Z.ltb_spec x y) end; lia.
Qed.

Lemma same_time_epoch a b : same_time a b → epoch a = epoch b.
Proof. unfold same_time, epoch. intros. destruct_and!. congruence. Qed.

Lemma same_time_sym a b : same_time a b → same_time b a.
Proof. unfold same_time. naive_solver. Qed.

Lemma same_time_lt a b c : same_time a b → tm_lt a c → tm_lt b c.
Proof. unfold same_time, tm_lt. intros. lia. Qed.

Lemma tm_lt_trans a b c : tm_lt a b → tm_lt b c → tm_lt a c.
Proof. unfold tm_lt. lia. Qed.

Lemma tm_lt_irrefl a b : tm_lt a b → tm_lt b a → False.
Proof. unfold tm_lt. lia. Qed.

Lemma month_start_le y m y' m' :
  0 ≤ m < 12 → 0 ≤ m' < 12 → y < y' ∨ y = y' ∧ m < m' →
  month_start y m + month_days y m * 86400 ≤ month_start y' m'.
Proof.
  intros Hm Hm' H. unfold month_start. destruct H as [H|[-> H]].
  - pose proof (days_to_year_lt y y' H). pose proof (days_to_month_bound y m Hm).
    pose proof (days_to_month_nonneg y' m'). lia.
  - pose proof (days_to_month_lt y' m m'). lia.
Qed.


(** Only the earlier time need be in normal form. *)
Lemma epoch_lt a b : in_calendar a → in_range b → tm_lt a b → epoch a < epoch b.
Proof.
  intros (_ & Hm & Hd & Hh & Hmi & Hs) (_ & Hm' & Hd' & Hh' & _ & Hmi' & Hs') Hlt. unfold epoch.
  assert (H : (tm_year a < tm_year b ∨ tm_year a = tm_year b ∧ tm_mon a < tm_mon b) ∨
    (tm_year a = tm_year b ∧ tm_mon a = tm_mon b)) by (unfold tm_lt in Hlt; lia).
  destruct H as [H|[Ey Em]].
  - pose proof (month_start_le (tm_year a + 1900) (tm_mon a) (tm_year b + 1900) (tm_mon b)). lia.
  - rewrite Ey, Em. unfold tm_lt in Hlt. lia.
Qed.

(** A time with a leap second or hour 24 is at most a day later than the calendar times
    that follow it. *)
Lemma epoch_lt_day a b :
  in_range a → tm_mday a ≤ month_days (tm_year a + 1900) (tm_mon a) → in_calendar b → tm_lt a b →
  epoch a - 86400 < epoch b.
Proof.
  intros (_ & Hm & Hd & Hh & H24 & Hmi & Hs) Hmd (_ & Hm' & Hd' & Hh' & Hmi' & Hs') Hlt. unfold epoch.
  assert (H : (tm_year a < tm_year b ∨ tm_year a = tm_year b ∧ tm_mon a < tm_mon b) ∨
    (tm_year a = tm_year b ∧ tm_mon a = tm_mon b)) by (unfold tm_lt in Hlt; lia).
  destruct H as [H|[Ey Em]].
  - pose proof (month_start_le (tm_year a + 1900) (tm_mon a) (tm_year b + 1900) (tm_mon b)). lia.
  - rewrite Ey, Em. unfold tm_lt in Hlt. lia.
Qed.

Lemma epoch_inj a b : in_calendar a → in_calendar b → epoch a = epoch b → same_time a b.
Proof.
  intros Ha Hb E. destruct (tmcmp_spec a b) as [[_ H]|[[_ H]|[_ H]]]; [|done|].
  - apply epoch_lt in H; auto using in_calendar_in_range. lia.
  - apply epoch_lt in H; auto using in_calendar_in_range. lia.
Qed.

Lemma same_time_calendar a b : same_time a b → in_calendar a → in_calendar b.
Proof. unfold same_time, in_calendar. intros. destruct_and!. by repeat split; try congruence; lia. Qed.

(** * The search for a time

    [search_time_t] ends, divides by nothing that is zero, and finds the time whose
    conversion has the fields asked for. *)

(** ** [2 ^ n] steps of a loop *)

Lemma iter_pow_inv {S A} (P : S → Prop) (m : S → Z) (Q : A → Prop) n step s :
  (∀ s, P s → 0 ≤ m s) →
  (∀ s, P s → returns (step s) (λ r, match r with inl s' => P s' ∧ m s' < m s | inr a => Q a end)) →
  P s →
  returns (iter_pow n step s) (λ r, match r with inl s' => P s' ∧ m s' ≤ m s - 2 ^ Z.of_nat n | inr a => Q a end).
Proof.
  intros Hm Hstep. revert s. induction n as [|n IH]; intros s Hs; cbn [iter_pow].
  - eapply returns_mono; [by apply Hstep|]. intros [s'|a]; [|done]. change (2 ^ Z.of_nat 0) with 1. naive_solver lia.
  - eapply returns_bind_mono; [by apply IH|]. intros [s'|a] H; [|by apply returns_ret].
    destruct H as [Hs' Hle]. eapply returns_mono; [by apply IH|]. intros [s''|a]; [|done].
    intros [? ?]. split; [done|]. rewrite Nat2Z.inj_succ, Z.pow_succ_r by lia. lia.
Qed.

Lemma iter_pow_ends {S A} (P : S → Prop) (m : S → Z) (Q : A → Prop) n step s :
  (∀ s, P s → 0 ≤ m s) →
  (∀ s, P s → returns (step s) (λ r, match r with inl s' => P s' ∧ m s' < m s | inr a => Q a end)) →
  P s → m s < 2 ^ Z.of_nat n →
  returns (iter_pow n step s) (λ r, ∃ a, r = inr a ∧ Q a).
Proof.
  intros Hm Hstep Hs Hn. eapply returns_mono; [by apply (iter_pow_inv P m Q)|].
  intros [s'|a]; [|by eauto]. intros [H ?]. pose proof (Hm _ H). lia.
Qed.

(** ** Guesses *)

Section search_spec.
Context `{C : CTime}.
Implicit Types tptr : tm.

Lemma coefficients_range tptr (lo hi : tm) :
  let '(a, b, _) := coefficients tptr lo hi in - 2 ^ 31 ≤ a < 2 ^ 31 ∧ - 2 ^ 31 ≤ b < 2 ^ 31.
Proof.
  unfold coefficients.
  repeat match goal with |- context [if ?c then _ else _] => destruct c; [split; apply s32_range|] end.
  split; apply s32_range.
Qed.

Lemma quot_long_ok x d : d ≠ 0 → d ≠ -1 → quot_long x d = Ok (Z.quot x d).
Proof. intros. unfold quot_long. by rewrite !(proj2 (Z.eqb_neq _ _)) by done. Qed.
Lemma rem_long_ok x d : d ≠ 0 → d ≠ -1 → rem_long x d = Ok (Z.rem x d).
Proof. intros. unfold rem_long. by rewrite !(proj2 (Z.eqb_neq _ _)) by done. Qed.

(** The divisor of the interpolation is never 0 or -1. *)
Lemma interpolate_ok tptr s : ∃ gr, interpolate tptr s = Ok gr.
Proof.
  unfold interpolate. pose proof (coefficients_range tptr (tm_lo s) (tm_hi s)) as H.
  destruct (coefficients _ _ _) as [[a b] range]. destruct H as [Ha Hb].
  set (a' := if a <=? 0 then 1 else a). set (b' := if b <=? 0 then 1 else b).
  assert (1 ≤ a' < 2 ^ 31) by (subst a'; destruct (Z.leb_spec a 0); lia).
  assert (1 ≤ b' < 2 ^ 31) by (subst b'; destruct (Z.leb_spec b 0); lia).
  assert (s32 (a' + b') ≠ 0 ∧ s32 (a' + b') ≠ -1) as [Hd0 Hd1].
  { unfold s32. clearbody a' b'. Z.to_euclidean_division_equations. lia. }
  rewrite !quot_long_ok, !rem_long_ok by done. cbn [mbind res_bind].
  rewrite !quot_long_ok by done. cbn [mbind res_bind]. eauto.
Qed.

Lemma bisect_inside (lo hi g range : Z) : lo + 1 < hi → lo < (bisect lo hi g range).1 < hi.
Proof.
  intros. unfold bisect. destruct (Z.leb_spec g lo), (Z.leb_spec hi g); cbn [orb fst]; try lia.
  all: repeat case_match; cmp_spec; lia.
Qed.

(** ** The loop *)

(** The times between the bounds are converted. *)
Definition converts (utc_p : bool) (l h : Z) : Prop := ∀ t, l ≤ t ≤ h → is_Some (to_tm utc_p t).

Definition bracketed (utc_p : bool) (tptr : tm) (l h : Z) (tl th : tm) : Prop :=
  LONG_MIN ≤ l ∧ l < h ∧ h ≤ LONG_MAX ∧
  to_tm utc_p l = Some tl ∧ to_tm utc_p h = Some th ∧ tm_lt tl tptr ∧ tm_lt tptr th.

Definition search_inv (utc_p : bool) (tptr : tm) (l h : Z) (s : search) : Prop :=
  l ≤ guess_lo s ∧ guess_hi s ≤ h ∧
  bracketed utc_p tptr (guess_lo s) (guess_hi s) (tm_lo s) (tm_hi s).

(** What the loop ends with in Universal Time: a time with the fields asked for, or two
    adjacent times around them *)
Definition search_found (tptr : tm) (l h : Z) (r : found) : Prop :=
  match r with
  | Hit t => l ≤ t ≤ h ∧ ∃ x, gmtime t = Some x ∧ same_time tptr x
  | Gap lo hi tl th => l ≤ lo ∧ hi ≤ h ∧ hi = lo + 1 ∧ bracketed true tptr lo hi tl th
  end.

Lemma search_step_ok tptr find_dst l h s :
  converts true l h → search_inv true tptr l h s →
  returns (search_step tptr true find_dst s) (λ r,
    match r with
    | inl s' => search_inv true tptr l h s' ∧ guess_hi s' - guess_lo s' < guess_hi s - guess_lo s
    | inr a => search_found tptr l h a
    end).
Proof.
  intros Hconv (Hl & Hh & Hbr). pose proof Hbr as (? & ? & ? & Elo & Ehi & Hlo & Hhi).
  unfold search_step. destruct (Z.ltb_spec (guess_lo s + 1) (guess_hi s)); cbn [negb].
  2: { apply returns_ret. cbn. split_and!; [done|done|lia|done]. }
  assert (∃ gr, (if have_guess s then Ok (guess s, 0) else interpolate tptr s) = Ok gr) as [[g range] ->].
  { destruct (have_guess s); [eauto|apply interpolate_ok]. }
  cbn [mbind res_bind]. pose proof (bisect_inside (guess_lo s) (guess_hi s) g range) as Hg.
  destruct (bisect _ _ _ _) as [g' range']. cbn [fst] in Hg. clear g range.
  destruct (Hconv g') as [x Ex]; [lia|]. rewrite Ex. cbn [of_option mbind res_bind].
  destruct (tmcmp_spec tptr x) as [[-> H']|[[-> H']|[-> H']]]; cbn [Z.ltb Z.compare].
  - destruct (if negb (range' =? 0) then _ else _) as [g'' have]. apply returns_ret.
    unfold search_inv, bracketed. cbn. split_and!; [lia|lia|lia|lia|lia|done|done|done|done|lia].
  - cbn [negb mbind res_bind]. apply returns_ret. cbn. split; [lia|]. eauto.
  - destruct (if negb (range' =? 0) then _ else _) as [g'' have]. apply returns_ret.
    unfold search_inv, bracketed. cbn. split_and!; [lia|lia|lia|lia|lia|done|done|done|done|lia].
Qed.

Lemma time_search_loop tptr find_dst g l h tl th :
  converts true l h → bracketed true tptr l h tl th →
  returns (iter_pow 64 (search_step tptr true find_dst) (mk_search g l h tl th false)) (λ r,
    ∃ a, r = inr a ∧ search_found tptr l h a).
Proof.
  intros Hconv Hbr. pose proof Hbr as (? & ? & ? & _).
  apply (iter_pow_ends (search_inv true tptr l h) (λ s, guess_hi s - guess_lo s)).
  - intros s (? & ? & ? & ? & _). lia.
  - intros s Hs. by apply search_step_ok.
  - by split_and!; cbn.
  - cbn. unfold LONG_MIN, LONG_MAX in *. lia.
Qed.

(** ** From the first two guesses on *)

Lemma tmcmp_lt a b : tm_lt a b → tmcmp a b = -1.
Proof.
  intros H. destruct (tmcmp_spec a b) as [[-> _]|[[_ H']|[_ H']]]; [done|exfalso..].
  - unfold same_time, tm_lt in *. lia.
  - by eapply tm_lt_irrefl.
Qed.
Lemma tmcmp_gt a b : tm_lt b a → tmcmp a b = 1.
Proof.
  intros H. destruct (tmcmp_spec a b) as [[_ H']|[[_ H']|[-> _]]]; [exfalso..|done].
  - by eapply tm_lt_irrefl.
  - unfold same_time, tm_lt in *. lia.
Qed.
Lemma tmcmp_eq a b : same_time a b → tmcmp a b = 0.
Proof.
  intros H. destruct (tmcmp_spec a b) as [[_ H']|[[-> _]|[_ H']]]; [exfalso|done|exfalso].
  - unfold same_time, tm_lt in *. lia.
  - unfold same_time, tm_lt in *. lia.
Qed.

(** How the search ends once two bounds are known *)
Definition search_result tptr (r : found) : res Z :=
  match r with
  | Hit t => Ok t
  | Gap lo hi tlo thi =>
      if (tm_year tlo =? tm_year tptr) && (tm_mon tlo =? tm_mon tptr) then Ok (outerpolate tptr tlo lo)
      else if (tm_year thi =? tm_year tptr) && (tm_mon thi =? tm_mon tptr) then Ok (outerpolate tptr thi hi)
      else Err (Raise ArgumentError)
  end.

Lemma search_bracketed tptr l h tl th :
  in_range tptr →
  first_guesses tptr true LONG_MIN LONG_MAX (epoch tptr) = inl (l, h) →
  converts true l h → bracketed true tptr l h tl th →
  ∃ r, search_found tptr l h r ∧ search_time_t tptr true = search_result tptr r.
Proof.
  intros Hr Hg Hconv Hbr. pose proof Hbr as (_ & _ & _ & El & Eh & Hl & Hh).
  destruct (time_search_loop tptr (0 <? tm_isdst tptr) (epoch tptr) l h tl th Hconv Hbr) as (r' & E & r & -> & Hf).
  exists r. split; [done|]. unfold search_time_t.
  rewrite timegm_noleapsecond_spec by done. cbn [mbind res_bind]. rewrite Hg, El. cbn [of_option mbind res_bind].
  rewrite (tmcmp_gt _ _ Hl). cbn [Z.ltb Z.eqb Z.compare]. rewrite Eh. cbn [of_option mbind res_bind].
  rewrite (tmcmp_lt _ _ Hh). cbn [Z.ltb Z.eqb Z.compare]. rewrite E. by destruct r.
Qed.

(** The first guess is late, and the second one a day earlier is early. *)
Lemma first_guesses_late tptr x0 x1 :
  in_range tptr → gmtime (epoch tptr) = Some x0 → gmtime (epoch tptr - 86400) = Some x1 →
  tm_lt tptr x0 → tm_lt x1 tptr →
  first_guesses tptr true LONG_MIN LONG_MAX (epoch tptr) = inl (epoch tptr - 86400, epoch tptr).
Proof.
  intros Hr E0 E1 H0 H1. pose proof (epoch_bound _ Hr) as Hb. unfold first_guesses, to_tm. rewrite E0.
  rewrite (tmcmp_lt _ _ H0). cbn [Z.ltb Z.eqb Z.compare].
  change (24 * 60 * 60) with 86400. rewrite s64_small by lia.
  rewrite !(proj2 (Z.ltb_lt _ _)) by (unfold LONG_MIN; lia). cbn [andb]. rewrite E1.
  by rewrite (tmcmp_gt _ _ H1).
Qed.

(** The first guess is early, and the second one a day later is late. *)
Lemma first_guesses_early tptr x0 x1 :
  in_range tptr → gmtime (epoch tptr) = Some x0 → gmtime (epoch tptr + 86400) = Some x1 →
  tm_lt x0 tptr → tm_lt tptr x1 →
  first_guesses tptr true LONG_MIN LONG_MAX (epoch tptr) = inl (epoch tptr, epoch tptr + 86400).
Proof.
  intros Hr E0 E1 H0 H1. pose proof (epoch_bound _ Hr) as Hb. unfold first_guesses, to_tm. rewrite E0.
  rewrite (tmcmp_gt _ _ H0). cbn [Z.ltb Z.eqb Z.compare].
  change (24 * 60 * 60) with 86400. rewrite s64_small by lia.
  rewrite !(proj2 (Z.ltb_lt _ _)) by (unfold LONG_MAX; lia). cbn [andb]. rewrite E1.
  by rewrite (tmcmp_lt _ _ H1).
Qed.

(** ** Any increasing conversion *)

Definition increasing (f : Z → option tm) : Prop :=
  ∀ t1 t2 a b, t1 < t2 → f t1 = Some a → f t2 = Some b → tm_lt a b.

Lemma increasing_inj f t1 t2 a b x :
  increasing f → f t1 = Some a → f t2 = Some b → same_time x a → same_time x b → t1 = t2.
Proof.
  intros Hf E1 E2 Ha Hb. destruct (Z.lt_trichotomy t1 t2) as [H|[H|H]]; [|done|].
  - pose proof (Hf _ _ _ _ H E1 E2). unfold same_time, tm_lt in *. lia.
  - pose proof (Hf _ _ _ _ H E2 E1). unfold same_time, tm_lt in *. lia.
Qed.

Lemma increasing_lt f t1 t2 a b x :
  increasing f → f t1 = Some a → f t2 = Some b → same_time x b → tm_lt a x → t1 < t2.
Proof.
  intros Hf E1 E2 Hb Ha. destruct (Z.lt_trichotomy t1 t2) as [H|[->|H]]; [done|..].
  - simplify_eq. unfold same_time, tm_lt in *. lia.
  - pose proof (Hf _ _ _ _ H E2 E1). unfold same_time, tm_lt in *. lia.
Qed.

Lemma increasing_gt f t1 t2 a b x :
  increasing f → f t1 = Some a → f t2 = Some b → same_time x b → tm_lt x a → t2 < t1.
Proof.
  intros Hf E1 E2 Hb Ha. destruct (Z.lt_trichotomy t1 t2) as [H|[->|H]]; [..|done].
  - pose proof (Hf _ _ _ _ H E1 E2). unfold same_time, tm_lt in *. lia.
  - simplify_eq. unfold same_time, tm_lt in *. lia.
Qed.

(** A hit is the time looked for; a gap cannot contain it. *)
Lemma search_result_hit tptr l h t y r :
  increasing gmtime → gmtime t = Some y → same_time tptr y →
  search_found tptr l h r → search_result tptr r = Ok t.
Proof.
  intros Hinc Et Hty Hf. destruct r as [t'|lo hi tl th]; cbn in Hf |- *.
  - destruct Hf as (_ & x & Ex & Hx). f_equal. by eapply increasing_inj.
  - destruct Hf as (_ & _ & Ehi & _ & _ & _ & El & Eh & Hl & Hh). exfalso.
    pose proof (increasing_lt _ _ _ _ _ _ Hinc El Et Hty Hl).
    pose proof (increasing_gt _ _ _ _ _ _ Hinc Eh Et Hty Hh). lia.
Qed.

Lemma search_time_t_increasing tptr t y :
  increasing gmtime → in_range tptr → converts true (epoch tptr - 86400) (epoch tptr + 86400) →
  gmtime t = Some y → same_time tptr y → epoch tptr - 86400 < t < epoch tptr + 86400 →
  search_time_t tptr true = Ok t.
Proof.
  intros Hinc Hr Hconv Et Hty Ht. pose proof (epoch_bound _ Hr) as Hb.
  destruct (Hconv (epoch tptr)) as [x0 E0]; [lia|]. cbn in E0.
  destruct (tmcmp_spec tptr x0) as [[Hc H0]|[[Hc H0]|[Hc H0]]].
  - destruct (Hconv (epoch tptr - 86400)) as [x1 E1]; [lia|]. cbn in E1.
    assert (tm_lt x1 tptr) as H1.
    { pose proof (Hinc (epoch tptr - 86400) t x1 y). unfold same_time, tm_lt in *. intuition lia. }
    edestruct (search_bracketed tptr (epoch tptr - 86400) (epoch tptr) x1 x0) as (r & Hf & ->); [done|..].
    + by eapply first_guesses_late.
    + intros t' ?. apply Hconv. lia.
    + unfold bracketed. split_and!; [unfold LONG_MIN; lia|lia|unfold LONG_MAX; lia|done..].
    + by eapply search_result_hit.
  - unfold search_time_t. rewrite timegm_noleapsecond_spec by done. cbn [mbind res_bind].
    unfold first_guesses, to_tm. rewrite E0, Hc. cbn. f_equal. by eapply increasing_inj.
  - destruct (Hconv (epoch tptr + 86400)) as [x1 E1]; [lia|]. cbn in E1.
    assert (tm_lt tptr x1) as H1.
    { pose proof (Hinc t (epoch tptr + 86400) y x1). unfold same_time, tm_lt in *. intuition lia. }
    edestruct (search_bracketed tptr (epoch tptr) (epoch tptr + 86400) x0 x1) as (r & Hf & ->); [done|..].
    + by eapply first_guesses_early.
    + intros t' ?. apply Hconv. lia.
    + unfold bracketed. split_and!; [unfold LONG_MIN; lia|lia|unfold LONG_MAX; lia|done..].
    + by eapply search_result_hit.
Qed.

(** ** The calendar of the C library *)

Context `{L : !CTimeLaws}.

Lemma gmtime_calendar x : in_calendar x → ∃ y, gmtime (epoch x) = Some y ∧ same_time x y ∧ in_calendar y.
Proof.
  intros Hx. destruct (gmtime_total x Hx) as [y Ey]. exists y. destruct (gmtime_sound _ _ Ey) as [Hy E].
  split_and!; [done| |done]. by apply epoch_inj.
Qed.

Lemma search_time_t_calendar x : in_calendar x → search_time_t x true = Ok (epoch x).
Proof.
  intros Hx. destruct (gmtime_calendar x Hx) as (y & Ey & Hs & _).
  unfold search_time_t. rewrite timegm_noleapsecond_spec by auto using in_calendar_in_range.
  cbn [mbind res_bind]. unfold first_guesses, to_tm. rewrite Ey, (tmcmp_eq _ _ Hs). done.
Qed.

(** The first second of a month *)
Definition first_second (x : tm) : tm := mk_tm 0 0 0 1 (tm_mon x) (tm_year x) 0 0 0 0 [].
(** The first and the last second of a year *)
Definition year_start (y : Z) : tm := mk_tm 0 0 0 1 0 y 0 0 0 0 [].
Definition year_end (y : Z) : tm := mk_tm 59 59 23 31 11 y 0 0 0 0 [].

Lemma first_second_calendar x : in_range x → in_calendar (first_second x).
Proof.
  intros (Hy & Hm & _). pose proof (month_days_range (tm_year x + 1900) (tm_mon x) Hm).
  unfold in_calendar. cbn [first_second tm_year tm_mon tm_mday tm_hour tm_min tm_sec]. split_and!; lia.
Qed.

Lemma year_start_calendar y : - 2 ^ 31 ≤ y < 2 ^ 31 → in_calendar (year_start y).
Proof. intros. unfold in_calendar. cbn [year_start tm_year tm_mon tm_mday tm_hour tm_min tm_sec].
  assert (month_days (y + 1900) 0 = 31) as -> by done. split_and!; lia. Qed.
Lemma year_end_calendar y : - 2 ^ 31 ≤ y < 2 ^ 31 → in_calendar (year_end y).
Proof. intros. unfold in_calendar. cbn [year_end tm_year tm_mon tm_mday tm_hour tm_min tm_sec].
  assert (month_days (y + 1900) 11 = 31) as -> by done. split_and!; lia. Qed.

(** A year that is not the first or the last one has times around it. *)
Definition inner_year (x : tm) : Prop := - 2 ^ 31 < tm_year x < 2 ^ 31 - 1.

Lemma converts_around x : in_range x → inner_year x → converts true (epoch x - 86400) (epoch x + 86400).
Proof.
  intros Hr Hi t Ht. pose proof Hr as (Hy & Hm & Hd & Hh & _ & Hmi & Hs). unfold inner_year in Hi.
  assert (epoch (year_start (tm_year x - 1)) ≤ epoch x - 86400) as Hlo.
  { unfold epoch, month_start. cbn [tm_year tm_mon tm_mday tm_hour tm_min tm_sec year_start].
    pose proof (days_to_year_lt (tm_year x - 1 + 1900) (tm_year x + 1900)).
    pose proof (year_days_bound (tm_year x - 1 + 1900)). pose proof (days_to_month_nonneg (tm_year x + 1900) (tm_mon x)).
    assert (days_to_month (tm_year x - 1 + 1900) 0 = 0) as -> by done. lia. }
  assert (epoch x + 86400 ≤ epoch (year_end (tm_year x + 1))) as Hhi.
  { unfold epoch. cbn [tm_year tm_mon tm_mday tm_hour tm_min tm_sec year_end].
    pose proof (month_start_le (tm_year x + 1900) (tm_mon x) (tm_year x + 1 + 1900) 0).
    pose proof (month_days_range (tm_year x + 1900) (tm_mon x) Hm).
    assert (month_start (tm_year x + 1 + 1900) 0 + 86400 * 31 ≤ month_start (tm_year x + 1 + 1900) 11); [|lia].
    unfold month_start. pose proof (days_to_month_lt (tm_year x + 1 + 1900) 0 11).
    assert (month_days (tm_year x + 1 + 1900) 0 = 31) by done. lia. }
  apply (gmtime_convex (epoch (year_start (tm_year x - 1))) t (epoch (year_end (tm_year x + 1)))).
  - lia.
  - apply gmtime_total, year_start_calendar. lia.
  - apply gmtime_total, year_end_calendar. lia.
Qed.

(** A gap around fields that are not a calendar time lies in their month. *)
Lemma gap_month x l h tl th :
  in_range x → ¬ in_calendar x → bracketed true x l h tl th → h = l + 1 →
  tm_year tl = tm_year x ∧ tm_mon tl = tm_mon x.
Proof.
  intros Hr Hn (_ & _ & _ & El & Eh & Hl & Hh) E.
  destruct (gmtime_sound _ _ El) as [Hcl Hel]. destruct (gmtime_sound _ _ Eh) as [Hch Heh].
  pose proof (first_second_calendar x Hr) as Hf. pose proof Hr as (_ & _ & Hd & Hh' & _ & Hmi & Hs).
  assert (¬ tm_lt tl (first_second x)) as Hno.
  { intros H. assert (epoch tl < epoch (first_second x)) by auto using epoch_lt, in_calendar_in_range.
    assert (epoch (first_second x) < epoch th); [|lia].
    apply epoch_lt; auto using in_calendar_in_range. clear - Hh Hd Hh' Hmi Hs.
    unfold tm_lt in *. cbn. lia. }
  clear - Hno Hl. unfold tm_lt in *. cbn in Hno. lia.
Qed.

Lemma outerpolate_epoch x y g : in_range x → in_calendar y → epoch y = g →
  tm_year y = tm_year x → tm_mon y = tm_mon x → outerpolate x y g = epoch x.
Proof.
  intros Hr Hc <- Ey Em. pose proof (epoch_bound _ Hr). pose proof (epoch_bound _ (in_calendar_in_range _ Hc)).
  apply in_calendar_in_range in Hc. destruct Hr as (_ & _ & Hd & Hh & _ & Hmi & Hs), Hc as (_ & _ & Hd' & Hh' & _ & Hmi' & Hs').
  unfold outerpolate. rewrite !(s32_small _) by lia.
  rewrite (s64_small (epoch y + _)), (s64_small (epoch y + _ + _)), (s64_small (epoch y + _ + _ + _)), s64_small by lia.
  unfold epoch. rewrite Ey, Em. lia.
Qed.

(** A leap second, or hour 24, is found by extrapolation. *)
Lemma search_time_t_past_end x :
  in_range x → ¬ in_calendar x → inner_year x → tm_mday x ≤ month_days (tm_year x + 1900) (tm_mon x) →
  search_time_t x true = Ok (epoch x).
Proof.
  intros Hr Hn Hi Hd. pose proof (converts_around x Hr Hi) as Hconv. pose proof (epoch_bound _ Hr) as Hb.
  destruct (Hconv (epoch x)) as [x0 E0]; [lia|]. destruct (Hconv (epoch x - 86400)) as [x1 E1]; [lia|]. cbn in E0, E1.
  destruct (gmtime_sound _ _ E0) as [Hc0 He0]. destruct (gmtime_sound _ _ E1) as [Hc1 He1].
  assert (∀ y, in_calendar y → tmcmp x y = 0 → False) as Hne.
  { intros y Hy H0. destruct (tmcmp_spec x y) as [[? _]|[[_ H]|[? _]]]; [lia| |lia].
    by eapply Hn, same_time_calendar; [apply same_time_sym|]. }
  assert (tm_lt x x0) as H0.
  { destruct (tmcmp_spec x x0) as [[_ H]|[[H _]|[_ H]]]; [done|by destruct (Hne x0)|].
    apply epoch_lt in H; [lia|done..]. }
  assert (tm_lt x1 x) as H1.
  { destruct (tmcmp_spec x x1) as [[_ H]|[[H _]|[_ H]]]; [|by destruct (Hne x1)|done].
    apply epoch_lt_day in H; [lia|done..]. }
  edestruct (search_bracketed x (epoch x - 86400) (epoch x) x1 x0) as (r & Hf & ->); [done|..].
  - by eapply first_guesses_late.
  - intros t' ?. apply Hconv. lia.
  - unfold bracketed. split_and!; [unfold LONG_MIN; lia|lia|unfold LONG_MAX; lia|done..].
  - destruct r as [t|l h tl th]; cbn in Hf |- *.
    + destruct Hf as (_ & y & Ey & Hs). destruct (Hne y); [by eapply gmtime_sound|by apply tmcmp_eq].
    + destruct Hf as (_ & _ & Eh & Hbr). destruct (gap_month x l h tl th) as [Ey Em]; [done..|].
      rewrite Ey, Em, !Z.eqb_refl. cbn. f_equal. destruct Hbr as (_ & _ & _ & El & _).
      destruct (gmtime_sound _ _ El). by apply outerpolate_epoch.
Qed.

(** Every date the constructors accept, if the month has that day *)
Lemma search_time_t_spec x :
  in_range x → inner_year x → tm_mday x ≤ month_days (tm_year x + 1900) (tm_mon x) →
  search_time_t x true = Ok (epoch x).
Proof.
  intros. destruct (decide (in_calendar x)); [by apply search_time_t_calendar|by apply search_time_t_past_end].
Qed.

(** ** [make_time_t] *)

Lemma same_fields_spec a b : same_fields a b = true ↔ same_time a b.
Proof. unfold same_fields, same_time. rewrite !andb_true_iff, !Z.eqb_eq. tauto. Qed.

(** The only fields in range that denote the second before the Epoch *)
Lemma epoch_m1 x : in_range x → epoch x = -1 → in_calendar x.
Proof.
  intros Hr E. destruct (decide (in_calendar x)) as [|Hn]; [done|]. exfalso.
  pose proof Hr as (Hy & Hm & Hd & Hh & H24 & Hmi & Hs).
  assert (tm_sec x = 59 ∧ tm_min x = 59 ∧ tm_hour x = 23) as (E1 & E2 & E3).
  { unfold epoch, month_start in E. generalize dependent (days_to_year (tm_year x + 1900)).
    generalize (days_to_month (tm_year x + 1900) (tm_mon x)). intros. lia. }
  unfold epoch in E. unfold in_calendar in Hn.
  assert (tm_year x = 69 ∧ tm_mon x = 11) as [Ey Em].
  { pose proof (month_days_range (tm_year x + 1900) (tm_mon x) Hm) as Hmd.
    pose proof (month_start_le (tm_year x + 1900) (tm_mon x) 1969 11 Hm).
    pose proof (month_start_le 1969 11 (tm_year x + 1900) (tm_mon x)).
    assert (month_start 1969 11 = - 32 * 86400) as Hms by done.
    assert (month_days 1969 11 = 31) as Hmd' by done.
    assert (¬ (1969 < tm_year x + 1900 ∨ 1969 = tm_year x + 1900 ∧ 11 < tm_mon x)) by lia.
    destruct (decide (tm_year x = 69 ∧ tm_mon x = 11)); [done|].
    assert (month_start (tm_year x + 1900) (tm_mon x) + month_days (tm_year x + 1900) (tm_mon x) * 86400 ≤ - 32 * 86400) by lia.
    lia. }
  rewrite Ey, Em in *. assert (month_days (69 + 1900) 11 = 31) as Hmd by done. apply Hn. rewrite Hmd. lia.
Qed.

Lemma make_time_t_utc x : in_range x → inner_year x → make_time_t x true = Ok (epoch x).
Proof.
  intros Hr Hi. unfold make_time_t. pose proof (timegm_value x Hr) as Ht.
  destruct (timegm x) as [t buf]. cbn [fst] in Ht. rewrite Ht by apply Hi.
  destruct (Z.eqb_spec (epoch x) (-1)) as [E|E]; cbn [negb]; [|done].
  destruct (gmtime_calendar x) as (y & Ey & Hs & _); [by apply epoch_m1|].
  cbn [to_tm]. rewrite Ey. by rewrite (proj2 (same_fields_spec x y) Hs).
Qed.
End search_spec.
