(* ===== verification/TimeOps.v ===== *)
(** Operations on times: normalisation, arithmetic and construction, then the marshalled form. *)

(** * Normalisation, arithmetic and construction of times *)

From stdpp Require Import strings gmap.
From S2P Require Import Prelude St Util Big BigStr Numeric Time TimeSearch.
#[global] Open Scope Z_scope.

(** ** Time objects as numbers of nanoseconds *)

Definition NS : Z := 1000000000.
Definition total (t : time_object) : Z := tv_sec t * NS + tv_nsec t.

(** The invariant of time objects: the seconds are a [time_t], the nanoseconds less
    than a second, the flag of Universal Time 0 or 1 *)
Definition time_ok (t : time_object) : Prop :=
  LONG_MIN ≤ tv_sec t ≤ LONG_MAX ∧ 0 ≤ tv_nsec t < NS ∧ (gmt t = 0 ∨ gmt t = 1).

Lemma total_div t : 0 ≤ tv_nsec t < NS → total t / NS = tv_sec t ∧ total t mod NS = tv_nsec t.
Proof.
  intros H. unfold total. assert (NS ≠ 0) by done.
  rewrite Z.div_add_l, Z.div_small by done. rewrite (Z.add_comm (_ * _) (tv_nsec t)), Z.mod_add, Z.mod_small by done. lia.
Qed.

Lemma total_inj t u : time_ok t → time_ok u → total t = total u → tv_sec t = tv_sec u ∧ tv_nsec t = tv_nsec u.
Proof.
  intros (_ & Ht & _) (_ & Hu & _) E. destruct (total_div t Ht) as [<- <-]. destruct (total_div u Hu) as [<- <-]. by rewrite E.
Qed.

Lemma time_overflow_p_spec sec nsec :
  LONG_MIN ≤ sec ≤ LONG_MAX → LONG_MIN ≤ nsec ≤ LONG_MAX →
  time_overflow_p sec nsec =
    if decide (LONG_MIN ≤ sec + nsec / NS ≤ LONG_MAX) then Ok (sec + nsec / NS, nsec mod NS)
    else Err (Raise RangeError).
Proof.
  unfold LONG_MIN, LONG_MAX, NS. intros Hs Hn. unfold time_overflow_p.
  destruct (Z.leb_spec 1000000000 nsec).
  - rewrite Z.quot_div_nonneg, Z.rem_mod_nonneg by lia.
    pose proof (Z.div_mod nsec 1000000000). pose proof (Z.mod_pos_bound nsec 1000000000).
    assert (0 ≤ nsec / 1000000000 < 2 ^ 60) by (Z.to_euclidean_division_equations; lia).
    generalize dependent (nsec / 1000000000). intros q Hq Hqr.
    destruct (decide _) as [Hd|Hd].
    + rewrite s64_small by lia. rewrite (proj2 (andb_false_iff _ _)) by (rewrite !Z.ltb_ge; lia).
      cbn [mbind res_bind]. by rewrite (proj2 (Z.ltb_ge _ _)) by lia.
    + assert (s64 (sec + q) = sec + q - 2 ^ 64) as -> by (unfold s64; Z.to_euclidean_division_equations; lia).
      by rewrite !(proj2 (Z.ltb_lt _ _)) by lia.
  - cbn [mbind res_bind]. destruct (Z.ltb_spec nsec 0).
    + rewrite NDIV_div, NMOD_mod by lia.
      assert (- 2 ^ 60 < nsec / 1000000000 < 0) by (Z.to_euclidean_division_equations; lia).
      generalize dependent (nsec / 1000000000). intros q Hq. destruct (decide _) as [Hd|Hd].
      * rewrite s64_small by lia. by rewrite (proj2 (andb_false_iff _ _)) by (rewrite !Z.ltb_ge; lia).
      * assert (s64 (sec + q) = sec + q + 2 ^ 64) as -> by (unfold s64; Z.to_euclidean_division_equations; lia).
        by rewrite !(proj2 (Z.ltb_lt _ _)) by lia.
    + rewrite Z.div_small, Z.mod_small, Z.add_0_r by lia. by rewrite decide_True by lia.
Qed.

(** A new time has the value it is made of, if its seconds fit. *)
Lemma time_new_spec sec nsec :
  LONG_MIN ≤ sec ≤ LONG_MAX → LONG_MIN ≤ nsec ≤ LONG_MAX →
  if decide (LONG_MIN ≤ (sec * NS + nsec) / NS ≤ LONG_MAX)
  then returns (time_new_internal sec nsec) (λ t, total t = sec * NS + nsec ∧ time_ok t ∧ gmt t = 0 ∧
         tv_sec t = sec + nsec / NS ∧ tv_nsec t = nsec mod NS ∧ tm_got t = 0 ∧ frozen t = false ∧ tainted t = false)
  else time_new_internal sec nsec = Err (Raise RangeError).
Proof.
  intros Hs Hn. assert (NS ≠ 0) as HNS by done. rewrite Z.div_add_l by done.
  unfold time_new_internal. rewrite time_overflow_p_spec by done. destruct (decide _) as [Hd|Hd]; [|done].
  cbn [mbind res_bind]. apply returns_ret. unfold time_ok, total. cbn.
  pose proof (Z.div_mod nsec NS HNS). pose proof (Z.mod_pos_bound nsec NS). assert (0 < NS) by done. split_and!; lia.
Qed.

(** ** Addition *)

(** The offset of [time_add]: the sign is negative for a subtraction. *)
Definition add_total (t : time_object) (sec_off nsec_off sign : Z) : Z :=
  if sign <? 0 then total t - (sec_off * NS + nsec_off) else total t + (sec_off * NS + nsec_off).

(** A new time with the flag of [t] *)
Lemma time_new_gmt t sec nsec :
  gmt t = 0 ∨ gmt t = 1 → LONG_MIN ≤ sec ≤ LONG_MAX → LONG_MIN ≤ nsec ≤ LONG_MAX →
  let m := result ← time_new_internal sec nsec; Ok (if negb (gmt t =? 0) then set_gmt result 1 else result) in
  if decide (LONG_MIN ≤ (sec * NS + nsec) / NS ≤ LONG_MAX)
  then returns m (λ t', total t' = sec * NS + nsec ∧ time_ok t' ∧ gmt t' = gmt t)
  else m = Err (Raise RangeError).
Proof.
  intros Hg Hsec Hnsec m. unfold m. pose proof (time_new_spec sec nsec Hsec Hnsec) as H. destruct (decide _).
  - eapply returns_bind_mono; [apply H|]. intros u (Eu & Hu & Hgu0 & _). apply returns_ret.
    unfold time_ok in *. destruct Hg as [-> | ->]; cbn; intuition.
  - by rewrite H.
Qed.

(** The unsigned sum and difference, read as a [time_t] *)
Lemma s64_sub x o : LONG_MIN ≤ x ≤ LONG_MAX → 0 ≤ o < 2 ^ 64 →
  s64 (u64 x - o) = if x - o <? LONG_MIN then x - o + 2 ^ 64 else x - o.
Proof. unfold s64, u64, LONG_MIN, LONG_MAX. intros. case_match; Z.to_euclidean_division_equations; lia. Qed.
Lemma s64_add x o : LONG_MIN ≤ x ≤ LONG_MAX → 0 ≤ o < 2 ^ 64 →
  s64 (u64 x + o) = if LONG_MAX <? x + o then x + o - 2 ^ 64 else x + o.
Proof. unfold s64, u64, LONG_MIN, LONG_MAX. intros. case_match; Z.to_euclidean_division_equations; lia. Qed.

Lemma time_add_off_spec t sec_off nsec_off sign :
  time_ok t → 0 ≤ sec_off < 2 ^ 64 → 0 ≤ nsec_off ≤ NS →
  let n := add_total t sec_off nsec_off sign in
  if decide (LONG_MIN ≤ n / NS ≤ LONG_MAX)
  then returns (time_add_off t sec_off nsec_off sign) (λ t', total t' = n ∧ time_ok t' ∧ gmt t' = gmt t)
  else time_add_off t sec_off nsec_off sign = Err (Raise RangeError).
Proof.
  intros (Hs & Hn & Hg) Ho Hno n. unfold n, add_total, total, time_add_off, rb_time_nano_new.
  pose proof (time_new_gmt t) as Hnew. rewrite s64_sub, s64_add by done.
  unfold LONG_MIN, LONG_MAX, NS in *. destruct (Z.ltb_spec sign 0).
  - rewrite (s64_small (tv_nsec t - _)) by lia.
    replace (_ * _ + tv_nsec t - _) with ((tv_sec t - sec_off) * 1000000000 + (tv_nsec t - nsec_off)) by lia.
    destruct (Z.ltb_spec (tv_sec t - sec_off) (- 2 ^ 63)).
    + rewrite (proj2 (Z.ltb_lt _ _)) by lia. rewrite decide_False; [done|]. rewrite Z.div_add_l by lia.
      assert ((tv_nsec t - nsec_off) / 1000000000 ≤ 0) by (Z.to_euclidean_division_equations; lia). lia.
    + rewrite (proj2 (Z.ltb_ge _ _)) by lia. cbn [mbind res_bind]. apply Hnew; [done|lia..].
  - rewrite (s64_small (tv_nsec t + _)) by lia.
    replace (_ * _ + tv_nsec t + _) with ((tv_sec t + sec_off) * 1000000000 + (tv_nsec t + nsec_off)) by lia.
    destruct (Z.ltb_spec (2 ^ 63 - 1) (tv_sec t + sec_off)).
    + rewrite (proj2 (Z.ltb_lt _ _)) by lia. rewrite decide_False; [done|]. rewrite Z.div_add_l by lia.
      assert (0 ≤ (tv_nsec t + nsec_off) / 1000000000) by (Z.to_euclidean_division_equations; lia). lia.
    + rewrite (proj2 (Z.ltb_ge _ _)) by lia. cbn [mbind res_bind]. apply Hnew; [done|lia..].
Qed.

(** ** Doubles

    What IEEE 754 promises of the integers a double represents exactly. *)
Class CDoubleLaws `{TimeRuntime} : Prop := {
  num2dbl_int : ∀ n, - 2 ^ 53 ≤ n ≤ 2 ^ 53 → rb_num2dbl (AInt (Fixnum n)) = Ok (dbl_of_int n);
  dbl_ltb_int : ∀ n m, - 2 ^ 53 ≤ n ≤ 2 ^ 53 → - 2 ^ 53 ≤ m ≤ 2 ^ 53 → dbl_ltb (dbl_of_int n) (dbl_of_int m) = (n <? m);
  dbl_eqb_int : ∀ n m, - 2 ^ 53 ≤ n ≤ 2 ^ 53 → - 2 ^ 53 ≤ m ≤ 2 ^ 53 → dbl_eqb (dbl_of_int n) (dbl_of_int m) = (n =? m);
  dbl_neg_int : ∀ n, 0 < n ≤ 2 ^ 53 → dbl_neg (dbl_of_int (- n)) = dbl_of_int n;
  modf_int : ∀ n, 0 ≤ n ≤ 2 ^ 53 → modf (dbl_of_int n) = (dbl_of_int 0, dbl_of_int n);
  dbl_to_ulong_int : ∀ n, 0 ≤ n ≤ 2 ^ 53 → dbl_to_ulong (dbl_of_int n) = n;
  dbl_frac_0 : dbl_to_long (dbl_add (dbl_mul (dbl_of_int 0) dbl_1e9) dbl_half) = 0
}.

(** An argument that is a fixnum *)
Notation Int n := (AInt (Fixnum n)).

Section time_ops.
Context `{J : Junk} `{C : CTime} `{D : CDouble} `{R : !TimeRuntime}.

Lemma time_add_int `{!CDoubleLaws} t n sign : - 2 ^ 53 ≤ n ≤ 2 ^ 53 →
  time_add t (AInt (Fixnum n)) sign = time_add_off t (Z.abs n) 0 (if n <? 0 then - sign else sign).
Proof.
  intros Hn. unfold time_add. rewrite num2dbl_int by done. cbn [mbind res_bind].
  rewrite dbl_ltb_int by lia. destruct (Z.ltb_spec n 0).
  - replace n with (- (- n)) at 1 by lia. rewrite dbl_neg_int by lia. rewrite modf_int by lia.
    rewrite dbl_to_ulong_int, dbl_eqb_int, Z.eqb_refl, dbl_frac_0 by lia. by replace (Z.abs n) with (- n) by lia.
  - rewrite modf_int by lia. rewrite dbl_to_ulong_int, dbl_eqb_int, Z.eqb_refl, dbl_frac_0 by lia.
    by replace (Z.abs n) with n by lia.
Qed.

(** Adding or subtracting an integer is exact, or out of range. *)
Lemma time_add_int_spec `{!CDoubleLaws} t n (sign : bool) :
  time_ok t → - 2 ^ 53 ≤ n ≤ 2 ^ 53 →
  let m := if sign then tv_sec t + n else tv_sec t - n in
  let r := time_add t (AInt (Fixnum n)) (if sign then 1 else -1) in
  if decide (LONG_MIN ≤ m ≤ LONG_MAX)
  then returns r (λ t', tv_sec t' = m ∧ tv_nsec t' = tv_nsec t ∧ gmt t' = gmt t ∧ time_ok t')
  else r = Err (Raise RangeError).
Proof.
  intros Ht Hn m r. unfold r. rewrite time_add_int by done.
  pose proof (time_add_off_spec t (Z.abs n) 0 (if n <? 0 then - (if sign then 1 else -1) else if sign then 1 else -1) Ht) as Ha.
  cbv zeta in Ha. pose proof Ht as (_ & Hns & _).
  assert (add_total t (Z.abs n) 0 (if n <? 0 then - (if sign then 1 else -1) else if sign then 1 else -1) = m * NS + tv_nsec t) as E.
  { unfold add_total, total, m, NS. destruct (Z.ltb_spec n 0), sign; cmp_spec; lia. }
  rewrite E, Z.div_add_l, Z.div_small, Z.add_0_r in Ha by done. specialize (Ha ltac:(lia) ltac:(unfold NS; lia)).
  destruct (decide _); [|done]. eapply returns_mono; [apply Ha|]. intros t' (Et & Hok & Hg). pose proof Hok as (_ & Hns' & _).
  destruct (total_div t' Hns') as [E1 E2]. rewrite Et in E1, E2.
  rewrite Z.div_add_l, Z.div_small in E1 by done. rewrite Z.add_comm, Z.mod_add, Z.mod_small in E2 by done.
  split_and!; [lia|lia|done|done].
Qed.

(** ** Comparison *)

Lemma time_cmp_spec t u : time_ok t → time_ok u →
  time_cmp t (ATime u) = Some (match total t ?= total u with Lt => -1 | Eq => 0 | Gt => 1 end) ∧
  (time_eql t (ATime u) = true ↔ total t = total u).
Proof.
  intros (_ & Ht & _) (_ & Hu & _). unfold time_cmp, time_eql, total, NS in *. split.
  - f_equal. destruct (Z.eqb_spec (tv_sec t) (tv_sec u)) as [E|E].
    + rewrite E. destruct (Z.eqb_spec (tv_nsec t) (tv_nsec u)) as [->|]; [by rewrite Z.compare_refl|].
      destruct (Z.ltb_spec (tv_nsec u) (tv_nsec t)), (Z.compare_spec (tv_sec u * 1000000000 + tv_nsec t) (tv_sec u * 1000000000 + tv_nsec u)); lia.
    + destruct (Z.ltb_spec (tv_sec u) (tv_sec t)), (Z.compare_spec (tv_sec t * 1000000000 + tv_nsec t) (tv_sec u * 1000000000 + tv_nsec u)); lia.
  - rewrite andb_true_iff, !Z.eqb_eq. lia.
Qed.

(** ** Calendar arguments *)

(** [tm_year] of a year that was given as an argument *)
Definition arg_year (y : Z) : Z :=
  if (0 <=? y) && (y <? 39) then y + 100 else if (69 <=? y) && (y <? 139) then y else y - 1900.

Definition small (n : Z) : Prop := - 2 ^ 31 < n < 2 ^ 31.

(** The fields of six integers *)
Definition arg_tm (y m d h mi s wday isdst : Z) : tm := mk_tm s mi h d (m - 1) (arg_year y) wday 0 isdst 0 [].

Lemma tm_valid_spec t : - 2 ^ 31 ≤ tm_year t < 2 ^ 31 → tm_valid t (tm_year t) = bool_decide (in_range t).
Proof.
  intros Hy. apply Bool.eq_iff_eq_true. rewrite bool_decide_eq_true. unfold tm_valid, in_range.
  rewrite negb_true_iff, !orb_false_iff, negb_false_iff, Z.eqb_eq, !Z.ltb_ge, andb_false_iff, orb_false_iff, Z.eqb_neq, !Z.ltb_ge. lia.
Qed.

Lemma arg_mon_int m : small m → arg_mon (Int m) = Ok (m - 1).
Proof. intros Hm. unfold small in Hm. cbn. f_equal. rewrite s64_small, s32_small by lia. done. Qed.

Lemma arg_or_int n d : small n → arg_or (Int n) d = Ok n.
Proof. intros Hn. unfold small in Hn. cbn. by rewrite s32_small by lia. Qed.

(** [time_arg] of six integers, after the arguments are put in order *)
Lemma time_arg_ints argv y m d h mi s wday isdst :
  scan_time_args argv = Ok ([Int y; Int m; Int d; Int h; Int mi; Int s; ANil], wday, isdst) →
  small (y - 1900) → small y → small m → small d → small h → small mi → small s →
  let x := arg_tm y m d h mi s wday isdst in
  time_arg argv = if decide (in_range x) then Ok (x, 0) else Err (Raise ArgumentError).
Proof.
  intros Hscan Hy' Hy Hm Hd Hh Hmi Hs x. unfold time_arg. rewrite Hscan. cbn [mbind res_bind].
  change (obj2long (Int y)) with (Ok y : res Z). cbn [mbind res_bind].
  rewrite arg_mon_int, !arg_or_int by done. cbn [mbind res_bind NIL_P negb andb].
  assert (∀ r, (if (0 <=? y) && (y <? 39) then y + 100 else if (69 <=? y) && (y <? 139) then y else s64 (y - 1900)) = r → r = arg_year y) as Hyear.
  { intros r <-. unfold arg_year. repeat case_match; [done..|]. apply s64_small. unfold small in *. lia. }
  erewrite (Hyear _ eq_refl). assert (small (arg_year y)) as Hay.
  { unfold arg_year, small in *. repeat case_match; rewrite ?andb_true_iff, ?Z.leb_le, ?Z.ltb_lt in *; lia. }
  unfold obj2nsec, time_timespec, rb_num2long. cbn [mbind res_bind]. unfold interval_check. cbn [andb].
  unfold small in *. destruct (Z.ltb_spec s 0); cbn [negb check mbind res_bind].
  { rewrite decide_False; [done|]. unfold x, in_range, arg_tm. cbn [tm_sec tm_min tm_hour tm_mday tm_mon tm_year]. lia. }
  cbn [ts_sec ts_nsec]. rewrite !s32_small by lia.
  fold x. pose proof (tm_valid_spec x) as Hv. change (tm_year x) with (arg_year y) in Hv. fold (arg_tm y m d h mi s wday isdst). fold x.
  rewrite Hv by lia. by case_bool_decide; destruct (decide _).
Qed.

(** ** Universal Time *)

Context `{L : !CTimeLaws}.

(** A time in Universal Time of the second [e], with its fields *)
Definition utc_time (e nsec : Z) (t : time_object) : Prop :=
  tv_sec t = e ∧ tv_nsec t = nsec ∧ time_ok t ∧ gmt t = 1 ∧ tm_got t = 1 ∧
  gmtime e = Some (t_tm t) ∧ in_calendar (t_tm t) ∧ epoch (t_tm t) = e.

Lemma time_gmtime_spec t x :
  time_ok t → gmt t = 0 → frozen t = false → tainted t = true ∨ rb_safe_level < 4 → gmtime (tv_sec t) = Some x →
  returns (time_gmtime t) (utc_time (tv_sec t) (tv_nsec t)).
Proof.
  intros Ht Hg Hfr Hsafe Hx. unfold time_gmtime. rewrite Hg. cbn [Z.eqb negb andb]. unfold time_modify. rewrite Hfr.
  assert (negb (tainted t) && (4 <=? rb_safe_level) = false) as ->.
  { destruct Hsafe as [->|?]; [done|]. rewrite (proj2 (Z.leb_gt _ _)) by done. apply andb_false_r. }
  cbn [mbind res_bind]. rewrite Hx. cbn [of_option mbind res_bind]. apply returns_ret.
  destruct (gmtime_sound _ _ Hx). unfold utc_time, time_ok in *. cbn. intuition.
Qed.

Lemma time_utc_spec argv x nsec :
  time_arg argv = Ok (x, nsec) → in_range x → inner_year x → 0 ≤ nsec < NS → rb_safe_level < 4 →
  returns (time_utc_or_local argv true) (utc_time (epoch x) nsec).
Proof.
  intros Harg Hr Hi Hn Hsafe. pose proof (epoch_bound _ Hr) as Hb. unfold time_utc_or_local. rewrite Harg. cbn [mbind res_bind].
  rewrite make_time_t_utc by done. cbn [mbind res_bind].
  pose proof (time_new_spec (epoch x) nsec) as H. rewrite Z.div_add_l, Z.div_small, Z.mod_small, Z.add_0_r in H by done.
  unfold LONG_MIN, LONG_MAX, NS in H, Hn. rewrite decide_True in H by lia.
  eapply returns_bind_mono; [apply H; lia|]. intros t (_ & Ht & Hg & Es & En & _ & Hfr & Hta).
  destruct (converts_around x Hr Hi (epoch x)) as [y Hy]; [lia|]. rewrite <-Es in Hy. rewrite <-Es, <-En.
  by apply (time_gmtime_spec t y); auto.
Qed.

(** The fields of the result are those that were given, for a time of the calendar. *)
Lemma utc_time_fields x nsec t : in_calendar x → utc_time (epoch x) nsec t → same_time x (t_tm t).
Proof. intros Hx (_ & _ & _ & _ & _ & _ & Hc & He). by apply epoch_inj. Qed.

(** Six integers *)
Lemma scan_time_args_ints y m d h mi s :
  scan_time_args [Int y; Int m; Int d; Int h; Int mi; Int s] = Ok ([Int y; Int m; Int d; Int h; Int mi; Int s; ANil], -1, -1).
Proof. done. Qed.

(** ** [to_a] *)

(** The years that [time_arg] does not take for abbreviations *)
Definition plain_year (y : Z) : Prop := ¬ (0 ≤ y < 39) ∧ ¬ (69 ≤ y < 139).

Lemma arg_year_plain y : plain_year y → arg_year y = y - 1900.
Proof.
  intros [H1 H2]. unfold arg_year. repeat case_match; rewrite ?andb_true_iff, ?Z.leb_le, ?Z.ltb_lt in *; lia.
Qed.

Lemma int2inum_small n : small n → rb_int2inum n = Ok (Fixnum n).
Proof.
  intros Hn. unfold small in Hn. unfold rb_int2inum, FIXABLE, POSFIXABLE, NEGFIXABLE.
  change FIXNUM_MAX with (2 ^ 61 - 1). change FIXNUM_MIN with (- 2 ^ 61).
  by rewrite (proj2 (Z.ltb_lt _ _)), (proj2 (Z.leb_le _ _)) by lia.
Qed.

Lemma to_a_spec e nsec t :
  utc_time e nsec t → small (tm_year (t_tm t) + 1900) → small (tm_year (t_tm t)) → plain_year (tm_year (t_tm t) + 1900) →
  rb_safe_level < 4 →
  returns (time_to_a t) (λ '(a, t'), t' = t ∧ zlen a = 10 ∧ returns (time_s_mkutc a) (utc_time e 0)).
Proof.
  intros (_ & _ & _ & Hg & Hgot & _ & Hc & He) Hy' Hy Hp Hsafe. unfold time_to_a, time_zone, got_tm. rewrite Hgot.
  cbn [Z.eqb mbind res_bind]. rewrite int2inum_small by done. cbn [mbind res_bind]. rewrite Hgot, Hg. cbn [Z.eqb mbind res_bind].
  apply returns_ret. split_and!; [done|done|]. pose proof Hc as (_ & Hm & Hd & Hh & Hmi & Hs).
  pose proof (month_days_range (tm_year (t_tm t) + 1900) (tm_mon (t_tm t)) Hm).
  set (x := t_tm t) in *. rewrite (s32_small (tm_mon x + 1)) by lia.
  set (argv := [_; _; _; _; _; _; _; _; _; _]).
  assert (time_arg argv = Ok (arg_tm (tm_year x + 1900) (tm_mon x + 1) (tm_mday x) (tm_hour x) (tm_min x) (tm_sec x) 0 (if negb (tm_isdst x =? 0) then 1 else 0), 0)) as E.
  { rewrite (time_arg_ints argv (tm_year x + 1900) (tm_mon x + 1) (tm_mday x) (tm_hour x) (tm_min x) (tm_sec x) 0 (if negb (tm_isdst x =? 0) then 1 else 0));
      [|subst argv; unfold scan_time_args; cbn; by destruct (tm_isdst x =? 0)|unfold small in *; lia..].
    rewrite decide_True; [done|]. apply in_calendar_in_range. revert Hc. apply same_time_calendar.
    unfold same_time, arg_tm. cbn. rewrite arg_year_plain by done. lia. }
  set (x' := arg_tm _ _ _ _ _ _ _ _) in E.
  assert (same_time x x') as Hx.
  { unfold same_time, x', arg_tm. cbn. rewrite arg_year_plain by done. lia. }
  rewrite <-He, (same_time_epoch _ _ Hx). apply time_utc_spec; [done|..|unfold NS; lia|done].
  - apply in_calendar_in_range. by eapply same_time_calendar.
  - unfold inner_year, small in *. destruct Hx as [<- _]. lia.
Qed.
End time_ops.

(** * Marshalled times

    The fields of a time packed into two words of 32 bits, the digits below the microsecond,
    and how they are read back. *)

(** ** Words and bytes *)

Lemma land_mod_byte x : Z.land x 255 = x mod 2 ^ 8.
Proof. change 255 with (Z.ones 8). by apply Z.land_ones. Qed.

Lemma low_bytes_4 p :
  low_bytes 4 p = [p mod 2 ^ 8; (p / 2 ^ 8) mod 2 ^ 8; (p / 2 ^ 16) mod 2 ^ 8; (p / 2 ^ 24) mod 2 ^ 8].
Proof.
  cbn [low_bytes]. rewrite !land_mod_byte, !Z.shiftr_shiftr, !Z.shiftr_div_pow2 by lia. done.
Qed.

(** The low half of the word that is read is the low half of the one written. *)
Lemma or_bytes_low p : or_bytes 0 (low_bytes 4 p) 0 mod 2 ^ 32 = p mod 2 ^ 32.
Proof.
  rewrite low_bytes_4. cbn [or_bytes]. rewrite !Z.shiftl_mul_pow2 by lia.
  set (b0 := p mod 2 ^ 8). set (b1 := (p / 2 ^ 8) mod 2 ^ 8). set (b2 := (p / 2 ^ 16) mod 2 ^ 8). set (b3 := (p / 2 ^ 24) mod 2 ^ 8).
  assert (p mod 2 ^ 32 = b0 + b1 * 2 ^ 8 + b2 * 2 ^ 16 + b3 * 2 ^ 24) as ->
    by (subst b0 b1 b2 b3; Z.to_euclidean_division_equations; lia).
  assert (0 ≤ b0 < 2 ^ 8 ∧ 0 ≤ b1 < 2 ^ 8 ∧ 0 ≤ b2 < 2 ^ 8 ∧ 0 ≤ b3 < 2 ^ 8) as (H0 & H1 & H2 & H3)
    by (subst b0 b1 b2 b3; split_and!; apply Z.mod_pos_bound; lia).
  clearbody b0 b1 b2 b3. clear p.
  change (2 ^ (8 * 0)) with 1. change (8 * (0 + 1)) with 8. change (8 * (0 + 1 + 1)) with 16. change (8 * (0 + 1 + 1 + 1)) with 24.
  rewrite !(s32_small (b0 * _)), !(s32_small (b1 * _)), !(s32_small (b2 * _)), !(u64_small (b0 * _)), !(u64_small (b1 * _)), !(u64_small (b2 * _)) by lia.
  assert (u64 (s32 (b3 * 2 ^ 24)) = (if b3 <? 128 then b3 else b3 + 2 ^ 40 - 2 ^ 8) * 2 ^ 24) as ->.
  { unfold u64, s32. destruct (Z.ltb_spec b3 128); Z.to_euclidean_division_equations; lia. }
  rewrite Z.lor_0_l, Z.mul_1_r. rewrite (Z.lor_comm b0), lor_add, (Z.lor_comm _ (b2 * _)), lor_add, (Z.lor_comm _ (_ * 2 ^ 24)), lor_add by lia.
  destruct (Z.ltb_spec b3 128); symmetry; eapply Z.mod_unique.
  - left. lia.
  - instantiate (1 := 0). lia.
  - left. lia.
  - instantiate (1 := 2 ^ 32 - 1). lia.
Qed.

(** A field of [n] bits at [k] in the low half of a word *)
Lemma field_low w v k n : 0 ≤ k → 0 ≤ n → k + n ≤ 32 → w mod 2 ^ 32 = v mod 2 ^ 32 →
  (w / 2 ^ k) mod 2 ^ n = (v / 2 ^ k) mod 2 ^ n.
Proof.
  intros Hk Hn Hkn E. rewrite <-!Z.land_ones, <-!Z.shiftr_div_pow2 by lia.
  rewrite <-!Z.land_ones in E by lia. apply Z.bits_inj'. intros i Hi.
  rewrite !Z.land_spec, !Z.shiftr_spec, !Z.testbit_ones_nonneg by lia.
  destruct (Z.ltb_spec i n); [|by rewrite !andb_false_r]. rewrite !andb_true_r.
  assert (Z.testbit (Z.land w (Z.ones 32)) (i + k) = Z.testbit (Z.land v (Z.ones 32)) (i + k)) as H' by (by rewrite E).
  rewrite !Z.land_spec, !Z.testbit_ones_nonneg in H' by lia. rewrite (proj2 (Z.ltb_lt _ _)) in H' by lia.
  by rewrite !andb_true_r in H'.
Qed.

(** The mask of [n] bits after a shift by [k], also when the bit above the fields is cleared first *)
Lemma land_field w k n m : 0 ≤ k → 0 ≤ n → m = Z.ones n → Z.land (Z.shiftr w k) m = (w / 2 ^ k) mod 2 ^ n.
Proof. intros ? ? ->. by rewrite Z.land_ones, Z.shiftr_div_pow2. Qed.

Lemma land_cleared w k m : 0 ≤ k → Z.land (Z.shiftr (u64 (Z.lnot (Z.shiftl 1 31))) k) m = m →
  Z.land (Z.shiftr (Z.land w (u64 (Z.lnot (Z.shiftl 1 31)))) k) m = Z.land (Z.shiftr w k) m.
Proof. intros Hk E. by rewrite Z.shiftr_land, <-Z.land_assoc, E. Qed.

(** ** The words of a time *)

(** The fields that fit the words *)
Definition packable (x : tm) : Prop := 0 ≤ tm_year x < 2 ^ 16.

Lemma dump_p_value x g : in_calendar x → packable x → g = 0 ∨ g = 1 →
  dump_p x g = 2 ^ 31 + g * 2 ^ 30 + tm_year x * 2 ^ 14 + tm_mon x * 2 ^ 10 + tm_mday x * 2 ^ 5 + tm_hour x.
Proof.
  intros Hc%in_calendar_in_range Hp Hg. destruct Hc as (_ & Hm & Hd & Hh & _). unfold packable in Hp. unfold dump_p.
  rewrite !Z.shiftl_mul_pow2 by lia. rewrite !s32_small by lia.
  change (1 * 2 ^ 31) with (2 * 2 ^ 30). 
  replace (g * 2 ^ 30) with (0 + g * 2 ^ 30) by lia.
  assert (Z.lor (2 * 2 ^ 30) (0 + g * 2 ^ 30) = (2 + g) * 2 ^ 30) as -> by (destruct Hg as [-> | ->]; done).
  rewrite (lor_add (2 + g)) by lia.
  replace ((2 + g) * 2 ^ 30 + tm_year x * 2 ^ 14) with (((2 + g) * 2 ^ 16 + tm_year x) * 2 ^ 14) by lia. rewrite lor_add by lia.
  replace (_ * 2 ^ 14 + tm_mon x * 2 ^ 10) with ((((2 + g) * 2 ^ 16 + tm_year x) * 2 ^ 4 + tm_mon x) * 2 ^ 10) by lia. rewrite lor_add by lia.
  replace (_ * 2 ^ 10 + tm_mday x * 2 ^ 5) with (((((2 + g) * 2 ^ 16 + tm_year x) * 2 ^ 4 + tm_mon x) * 2 ^ 5 + tm_mday x) * 2 ^ 5) by lia.
  rewrite lor_add by lia. rewrite u64_small by lia. lia.
Qed.

Lemma dump_s_value x nsec : in_calendar x → 0 ≤ nsec < NS →
  dump_s x nsec mod 2 ^ 32 = tm_min x * 2 ^ 26 + tm_sec x * 2 ^ 20 + nsec / 1000.
Proof.
  intros (_ & _ & _ & _ & Hmi & Hs) Hn. unfold NS in Hn. unfold dump_s. rewrite !Z.shiftl_mul_pow2 by lia. rewrite Z.quot_div_nonneg by lia.
  assert (0 ≤ nsec / 1000 < 2 ^ 20) as Hu by (Z.to_euclidean_division_equations; lia).
  generalize dependent (nsec / 1000). intros u Hu. rewrite (s32_small (tm_sec x * _)) by lia.
  assert (s32 (tm_min x * 2 ^ 26) = (if tm_min x <? 32 then tm_min x else tm_min x - 64) * 2 ^ 26) as ->.
  { unfold s32. destruct (Z.ltb_spec (tm_min x) 32); Z.to_euclidean_division_equations; lia. }
  rewrite lor_add by lia. set (q := if tm_min x <? 32 then _ else _).
  replace (q * 2 ^ 26 + tm_sec x * 2 ^ 20) with ((q * 2 ^ 6 + tm_sec x) * 2 ^ 20) by lia. rewrite lor_add by lia.
  unfold u64, q. destruct (Z.ltb_spec (tm_min x) 32); Z.to_euclidean_division_equations; lia.
Qed.

(** The fields that are read from a word whose low half is [p] *)
Lemma load_tm_fields w v x g nsec :
  in_calendar x → packable x → g = 0 ∨ g = 1 → 0 ≤ nsec < NS →
  w mod 2 ^ 32 = dump_p x g mod 2 ^ 32 → v mod 2 ^ 32 = dump_s x nsec mod 2 ^ 32 →
  let p := Z.land w (u64 (Z.lnot (Z.shiftl 1 31))) in
  same_time (load_tm p v) x ∧ Z.land (Z.shiftr p 30) 1 = g ∧ Z.land v 1048575 = nsec / 1000 ∧
  (Z.land w (Z.shiftl 1 31) =? 0) = false.
Proof.
  intros Hc Hp Hg Hn Ew Ev p. pose proof Hc as (_ & _ & _ & _ & Hmi & Hs).
  pose proof (in_calendar_in_range _ Hc) as (_ & Hm & Hd & Hh & _). unfold packable in Hp.
  pose proof (dump_s_value x nsec Hc Hn) as Es. rewrite Es in Ev. pose proof (dump_p_value x g Hc Hp Hg) as Ep.
  assert (0 ≤ nsec / 1000 < 2 ^ 20) as Hu by (unfold NS in Hn; Z.to_euclidean_division_equations; lia).
  assert (∀ k n m, 0 ≤ k → 0 ≤ n → k + n ≤ 32 → m = Z.ones n → Z.land (Z.shiftr w k) m = (dump_p x g / 2 ^ k) mod 2 ^ n) as Hw.
  { intros. rewrite (land_field w k n) by done. by apply field_low. }
  assert (∀ k n m, 0 ≤ k → 0 ≤ n → k + n ≤ 32 → m = Z.ones n → Z.land (Z.shiftr v k) m = (v mod 2 ^ 32 / 2 ^ k) mod 2 ^ n) as Hv.
  { intros. rewrite (land_field v k n) by done. apply field_low; try done. by rewrite Z.mod_mod. }
  clear Hc. unfold same_time, load_tm, p. cbn [tm_year tm_mon tm_mday tm_hour tm_min tm_sec].
  rewrite !land_cleared by done.
  rewrite (Hw 14 16), (Hw 10 4), (Hw 5 5), (Hw 30 1), (Hv 26 6), (Hv 20 6) by done.
  replace (Z.land (Z.land w (u64 (Z.lnot (Z.shiftl 1 31)))) 31) with (Z.land (Z.shiftr w 0) 31)
    by (by rewrite Z.shiftr_0_r, <-Z.land_assoc).
  replace (Z.land v 1048575) with (Z.land (Z.shiftr v 0) 1048575) by (by rewrite Z.shiftr_0_r).
  rewrite (Hw 0 5), (Hv 0 20) by done. rewrite Ep, Ev.
  split_and!; try (Z.to_euclidean_division_equations; lia).
  apply Z.eqb_neq. intros E0. assert (Z.testbit w 31 = false) as Hb.
  { assert (Z.testbit (Z.land w (Z.shiftl 1 31)) 31 = false) as H' by (by rewrite E0, Z.bits_0).
    rewrite Z.land_spec in H'. by rewrite andb_true_r in H'. }
  pose proof (Z.testbit_spec' w 31 ltac:(lia)) as H'. rewrite Hb in H'. change 2 with (2 ^ 1) in H' at 2.
  rewrite (field_low w (dump_p x g) 31 1) in H' by done. rewrite Ep in H'. cbn [Z.b2z] in H'.
  Z.to_euclidean_division_equations. lia.
Qed.

(** ** Digits below the microsecond *)

Lemma add_submicro_shift n s : add_submicro n s = (λ k, n + k) <$> add_submicro 0 s.
Proof. unfold add_submicro. repeat (case_match; simpl; try done); f_equal; lia. Qed.

Lemma submicro_bytes_all : forallb (λ r, bool_decide (add_submicro 0 (Some (IvStr (submicro_bytes (Z.of_nat r)))) = Ok (Z.of_nat r))) (seq 0 1000) = true.
Proof. by vm_compute. Qed.

Lemma add_submicro_bytes n r : 0 ≤ r < 1000 → add_submicro n (Some (IvStr (submicro_bytes r))) = Ok (n + r).
Proof.
  intros Hr. rewrite add_submicro_shift. pose proof submicro_bytes_all as H. rewrite forallb_forall in H.
  specialize (H (Z.to_nat r)). rewrite in_seq, bool_decide_eq_true, Z2Nat.id in H by lia. by rewrite H by lia.
Qed.

(** ** The round trip *)

Section dump.
Context `{C : CTime} `{L : !CTimeLaws}.

(** The instance variable of an earlier load is not mistaken for digits of this time. *)
Definition no_stale (t : time_object) : Prop :=
  attr_get (ivars t) id_submicro = None ∨ tv_nsec t mod 1000 ≠ 0.

(** The buffer of the dump, and whether it has a NUL; the digits below the microsecond, and whether they leave one. *)
Definition dump_buf (t : time_object) (x : tm) : list Z := low_bytes 4 (dump_p x (gmt t)) ++ low_bytes 4 (dump_s x (tv_nsec t)).
Definition has_nul (bs : list Z) : bool := existsb (Z.eqb 0) bs.
Definition few_digits (n : Z) : bool := (n mod 10 =? 0) || (n <? 10).

Lemma submicro_str_all : forallb (λ r, bool_decide (submicro_str (Z.of_nat r) =
  if few_digits (Z.of_nat r) then Ok (submicro_bytes (Z.of_nat r)) else Err OutOfBounds)) (seq 0 1000) = true.
Proof. by vm_compute. Qed.

Lemma submicro_str_eq r : 0 ≤ r < 1000 →
  submicro_str r = if few_digits r then Ok (submicro_bytes r) else Err OutOfBounds.
Proof.
  intros Hr. pose proof submicro_str_all as H. rewrite forallb_forall in H. specialize (H (Z.to_nat r)).
  rewrite in_seq, bool_decide_eq_true, Z2Nat.id in H by lia. by apply H; lia.
Qed.

(** A dump of microseconds that are a multiple of 256, whole seconds among them, has a NUL. *)
Lemma dump_nul t x : in_calendar x → 0 ≤ tv_nsec t < NS → tv_nsec t / 1000 mod 256 = 0 → has_nul (dump_buf t x) = true.
Proof.
  intros Hc Hn E. unfold has_nul, dump_buf. rewrite existsb_app. apply orb_true_iff. right. cbn [low_bytes existsb].
  pose proof (dump_s_value x (tv_nsec t) Hc Hn) as Es. pose proof (field_low (dump_s x (tv_nsec t)) (dump_s x (tv_nsec t)) 0 8) as Hf.
  assert (Z.land (dump_s x (tv_nsec t)) 255 = 0) as ->; [|done].
  change 255 with (Z.ones 8). rewrite Z.land_ones by lia.
  assert (dump_s x (tv_nsec t) mod 2 ^ 8 = dump_s x (tv_nsec t) mod 2 ^ 32 mod 2 ^ 8) as -> by (Z.to_euclidean_division_equations; lia).
  rewrite Es. Z.to_euclidean_division_equations; lia.
Qed.

(** The digits that are read are those of this time. *)
Lemma dump_submicro t iv : no_stale t → 0 ≤ tv_nsec t →
  (if negb (Z.rem (tv_nsec t) 1000 =? 0) then
     sub ← submicro_str (Z.rem (tv_nsec t) 1000);
     if 4 <=? rb_safe_level then Err (Raise SecurityError)
     else Ok (set_ivar (rb_copy_generic_ivar None (ivars t)) id_submicro (IvStr sub))
   else Ok (rb_copy_generic_ivar None (ivars t))) = Ok iv →
  ∀ n, add_submicro n (attr_get iv id_submicro) = Ok (n + tv_nsec t mod 1000).
Proof.
  intros Hst Hn E n. rewrite Z.rem_mod_nonneg in E by lia. pose proof (Z.mod_pos_bound (tv_nsec t) 1000 ltac:(lia)) as Hb.
  destruct (Z.eqb_spec (tv_nsec t mod 1000) 0) as [E0|E0]; cbn [negb] in E.
  - destruct Hst as [Hst|]; [|done]. injection E as <-. rewrite E0. destruct (ivars t); cbn [rb_copy_generic_ivar]; [rewrite Hst|]; cbn; f_equal; lia.
  - rewrite submicro_str_eq in E by done. destruct (few_digits _); [|done]. cbn [mbind res_bind] in E.
    destruct (4 <=? rb_safe_level); [done|]. injection E as <-. unfold attr_get, set_ivar. cbn. rewrite lookup_insert_eq.
    by apply add_submicro_bytes.
Qed.

Lemma time_load_dump t x :
  time_ok t → rb_safe_level < 4 → no_stale t → gmtime (tv_sec t) = Some x → packable x →
  if has_nul (dump_buf t x) && few_digits (tv_nsec t mod 1000) then
    returns (time_mdump t) (λ d, zlen (d_bytes d) = 8 ∧
      returns (time_load d) (λ t', tv_sec t' = tv_sec t ∧ tv_nsec t' = tv_nsec t ∧ gmt t' = gmt t ∧ time_ok t' ∧ tm_got t' = 0))
  else time_mdump t = Err OutOfBounds.
Proof.
  intros Ht Hsafe Hst Hx Hp. pose proof Ht as (Hs & Hn & Hg). destruct (gmtime_sound _ _ Hx) as [Hc He].
  unfold time_mdump. rewrite Hx. cbn [of_option mbind res_bind]. unfold packable in Hp.
  assert (Z.land (tm_year x) 65535 = tm_year x) as ->.
  { change 65535 with (Z.ones 16). rewrite Z.land_ones by lia. apply Z.mod_small. lia. }
  rewrite Z.eqb_refl. cbn [negb]. fold (dump_buf t x). unfold rb_str_new_buf. fold (has_nul (dump_buf t x)).
  destruct (has_nul (dump_buf t x)); [|done]. cbn [mbind res_bind andb].
  match goal with |- context [iv ← ?m; _] => destruct m as [iv|e] eqn:Eiv end.
  2: { revert Eiv. rewrite Z.rem_mod_nonneg by lia. destruct (negb _); [|done]. rewrite submicro_str_eq by (apply Z.mod_pos_bound; lia).
    destruct (few_digits _); [|by intros [= <-]]. cbn [mbind res_bind]. by destruct (Z.leb_spec 4 rb_safe_level); [lia|]. }
  assert (few_digits (tv_nsec t mod 1000) = true) as ->.
  { revert Eiv. rewrite Z.rem_mod_nonneg by lia. destruct (Z.eqb_spec (tv_nsec t mod 1000) 0) as [->|]; [done|]. cbn [negb].
    rewrite submicro_str_eq by (apply Z.mod_pos_bound; lia). by destruct (few_digits _). }
  cbn [mbind res_bind]. apply returns_ret. split; [done|].
  unfold time_load, time_mload, time_modify. cbn [frozen tainted time_s_alloc negb andb d_bytes d_bytestring d_ivars].
  rewrite (proj2 (Z.leb_gt _ _)) by done. cbn [mbind res_bind check].
  change (zlen (dump_buf t x)) with 8. cbn [Z.eqb Pos.eqb negb andb].
  change (take 4 (dump_buf t x)) with (low_bytes 4 (dump_p x (gmt t))).
  change (take 4 (drop 4 (dump_buf t x))) with (low_bytes 4 (dump_s x (tv_nsec t))).
  destruct (load_tm_fields (or_bytes 0 (low_bytes 4 (dump_p x (gmt t))) 0) (or_bytes 0 (low_bytes 4 (dump_s x (tv_nsec t))) 0) x (gmt t) (tv_nsec t))
    as (Hf & Hgb & Hus & ->); [done|done|done|done|apply or_bytes_low..|].
  assert (in_calendar (load_tm (Z.land (or_bytes 0 (low_bytes 4 (dump_p x (gmt t))) 0) (u64 (Z.lnot (Z.shiftl 1 31)))) (or_bytes 0 (low_bytes 4 (dump_s x (tv_nsec t))) 0))) as Hcl
    by (by eapply same_time_calendar; [apply same_time_sym|]).
  rewrite make_time_t_utc; [|by apply in_calendar_in_range|unfold inner_year; destruct Hf as [-> _]; lia].
  rewrite (same_time_epoch _ _ Hf), He, Hgb, Hus. cbn [mbind res_bind].
  rewrite (dump_submicro t iv Hst ltac:(lia) Eiv). cbn [mbind res_bind].
  replace (tv_nsec t / 1000 * 1000 + tv_nsec t mod 1000) with (tv_nsec t) by (Z.to_euclidean_division_equations; lia).
  rewrite time_overflow_p_spec by (unfold LONG_MIN, LONG_MAX, NS in *; lia).
  rewrite Z.div_small, Z.mod_small, Z.add_0_r by done. rewrite decide_True by done. cbn [mbind res_bind].
  apply returns_ret. by unfold time_ok.
Qed.
End dump.
