(* ===== verification/TimeThm.v ===== *)
(** The theorems about times, after a C library that keeps the promises they rely on. *)

(** * A C library for times

    Executable conversions between seconds and the calendar that keep the promises of
    [CTimeLaws], and exact rationals for doubles. *)

From Stdlib Require Import QArith.
From stdpp Require Import strings gmap.
From S2P Require Import Prelude St Util Big BigVal BigStr BigThm Numeric Time TimeSearch TimeOps.
#[global] Open Scope Z_scope.

(** ** The calendar date of a second *)

(** The year is near the quotient by the mean length of a year. *)
Definition year_of_days (days : Z) : Z :=
  let y := days * 400 / 146097 + 1970 in
  if days <? year_formula y then y - 1 else if year_formula (y + 1) <=? days then y + 1 else y.

Fixpoint month_of_yday (ls : list Z) (m yday : Z) : Z * Z :=
  match ls with
  | [] => (m, yday)
  | l :: ls => if yday <? l then (m, yday) else month_of_yday ls (m + 1) (yday - l)
  end.

Definition civil (t : Z) : tm :=
  let days := t / 86400 in
  let sod := t mod 86400 in
  let y := year_of_days days in
  let yday := days - year_formula y in
  let '(m, mday) := month_of_yday (month_lengths y) 0 yday in
  mk_tm (sod mod 60) (sod / 60 mod 60) (sod / 3600) (mday + 1) m (y - 1900) ((days + 4) mod 7) yday 0 0 utc_zone.

Definition ref_gmtime (t : Z) : option tm :=
  let x := civil t in
  if decide (- 2 ^ 31 ≤ tm_year x < 2 ^ 31) then Some x else None.

(** Universal Time and a zone one hour to the east *)
Definition ref_ctime : CTime := {|
  gmtime := ref_gmtime;
  localtime := λ t, ref_gmtime (t + 3600);
  timegm := λ x, (epoch x, x);
  mktime := λ x, (epoch x - 3600, x);
  rb_safe_level := 0
|}.

(** ** Correctness *)

Lemma year_of_days_spec d : year_formula (year_of_days d) ≤ d < year_formula (year_of_days d + 1).
Proof.
  unfold year_of_days. set (y := d * 400 / 146097 + 1970).
  assert (d * 400 - 146097 < (y - 1970) * 146097 ≤ d * 400) by (subst y; Z.to_euclidean_division_equations; lia).
  clearbody y. unfold year_formula.
  repeat case_match; rewrite ?Z.ltb_lt, ?Z.ltb_ge, ?Z.leb_le, ?Z.leb_gt in *; Z.to_euclidean_division_equations; lia.
Qed.

Lemma year_formula_unique y y' d :
  year_formula y ≤ d < year_formula (y + 1) → year_formula y' ≤ d < year_formula (y' + 1) → y = y'.
Proof.
  intros H H'. destruct (Z.lt_trichotomy y y') as [Hl|[Hl|Hl]]; [|done|].
  - pose proof (year_formula_mono (y + 1) y'). lia.
  - pose proof (year_formula_mono (y' + 1) y). lia.
Qed.

Lemma month_of_yday_spec ls m yday :
  (0 < length ls)%nat → 0 ≤ yday < foldr Z.add 0 ls →
  let '(m', mday) := month_of_yday ls m yday in
  m ≤ m' < m + zlen ls ∧ yday = foldr Z.add 0 (take (Z.to_nat (m' - m)) ls) + mday ∧
  0 ≤ mday < default 0 (zlookup ls (m' - m)).
Proof.
  revert m yday. induction ls as [|l ls IH]; intros m yday Hl Hy; cbn [length month_of_yday foldr] in *; [lia|].
  destruct (Z.ltb_spec yday l) as [Hlt|Hge].
  - rewrite Z.sub_diag, zlen_cons. pose proof (zlen_nonneg ls). change (default 0 (zlookup (l :: ls) 0)) with l.
    change (take (Z.to_nat 0) (l :: ls)) with (@nil Z). cbn [foldr]. lia.
  - assert (0 < length ls)%nat by (destruct ls; cbn in *; lia).
    specialize (IH (m + 1) (yday - l) ltac:(done) ltac:(lia)). destruct (month_of_yday ls (m + 1) (yday - l)) as [m' mday].
    destruct IH as (Hm & Hs & Hd). rewrite zlen_cons.
    replace (Z.to_nat (m' - m)) with (Datatypes.S (Z.to_nat (m' - (m + 1)))) by lia. cbn [take foldr].
    rewrite zlookup_cons. destruct (decide (m' - m = 0)); [lia|]. replace (m' - m - 1) with (m' - (m + 1)) by lia. lia.
Qed.

Lemma sum_month_lengths y : foldr Z.add 0 (month_lengths y) = year_days y.
Proof. unfold month_lengths, year_days. by destruct (leap y). Qed.

(** All of [in_calendar] but the range of the year *)
Lemma civil_spec t :
  let x := civil t in
  year_formula (tm_year x + 1900) ≤ t / 86400 < year_formula (tm_year x + 1900 + 1) ∧
  (- 2 ^ 31 ≤ tm_year x < 2 ^ 31 → in_calendar x) ∧ epoch x = t.
Proof.
  intros x. pose proof (year_of_days_spec (t / 86400)) as Hy. unfold x, civil.
  set (y := year_of_days (t / 86400)) in *. rewrite year_formula_succ in Hy.
  pose proof (month_of_yday_spec (month_lengths y) 0 (t / 86400 - year_formula y)) as H.
  rewrite sum_month_lengths in H. specialize (H ltac:(cbn; lia) ltac:(lia)).
  destruct (month_of_yday _ _ _) as [m mday]. rewrite Z.sub_0_r in H. destruct H as (Hm & Hs & Hd).
  change (0 + zlen (month_lengths y)) with 12 in Hm. fold (month_days y m) in Hd. fold (days_to_month y m) in Hs.
  cbn [tm_year]. replace (y - 1900 + 1900) with y by lia. rewrite year_formula_succ.
  assert (t mod 86400 = t mod 86400 / 3600 * 3600 + t mod 86400 / 60 mod 60 * 60 + t mod 86400 mod 60) as Hsod
    by (Z.to_euclidean_division_equations; lia).
  split_and!; [lia|lia| |].
  - intros Hr. unfold in_calendar. cbn [tm_year tm_mon tm_mday tm_hour tm_min tm_sec].
    replace (y - 1900 + 1900) with y by lia. split_and!; try lia; Z.to_euclidean_division_equations; lia.
  - unfold epoch, month_start. cbn [tm_year tm_mon tm_mday tm_hour tm_min tm_sec].
    replace (y - 1900 + 1900) with y by lia. rewrite days_to_year_formula.
    pose proof (Z.div_mod t 86400). lia.
Qed.

Lemma civil_year t x : in_calendar x → epoch x = t → tm_year (civil t) = tm_year x.
Proof.
  intros Hx <-. destruct (civil_spec (epoch x)) as (Hy & _).
  assert (tm_year (civil (epoch x)) + 1900 = tm_year x + 1900); [|lia]. eapply year_formula_unique; [done|].
  destruct Hx as (_ & Hm & Hd & Hh & Hmi & Hs). rewrite year_formula_succ, <-days_to_year_formula.
  pose proof (days_to_month_bound (tm_year x + 1900) (tm_mon x) Hm). pose proof (days_to_month_nonneg (tm_year x + 1900) (tm_mon x)).
  assert (epoch x / 86400 = days_to_year (tm_year x + 1900) + days_to_month (tm_year x + 1900) (tm_mon x) + tm_mday x - 1) as ->; [|lia].
  unfold epoch, month_start. symmetry. apply Z.div_unique with (tm_hour x * 3600 + tm_min x * 60 + tm_sec x); lia.
Qed.

Lemma civil_year_mono t t' : t ≤ t' → tm_year (civil t) ≤ tm_year (civil t').
Proof.
  intros Ht. destruct (civil_spec t) as (Hy & _), (civil_spec t') as (Hy' & _).
  destruct (decide (tm_year (civil t) ≤ tm_year (civil t'))); [done|].
  pose proof (year_formula_mono (tm_year (civil t') + 1900 + 1) (tm_year (civil t) + 1900)).
  pose proof (Z.div_le_mono t t' 86400). lia.
Qed.

Lemma ref_gmtime_some t : is_Some (ref_gmtime t) ↔ - 2 ^ 31 ≤ tm_year (civil t) < 2 ^ 31.
Proof. unfold ref_gmtime. destruct (decide _); by split; try done; intros []. Qed.

Lemma ref_ctime_laws : @CTimeLaws ref_ctime.
Proof.
  split; cbn.
  - intros t x. unfold ref_gmtime. destruct (decide _); [|done]. intros [= <-]. destruct (civil_spec t) as (_ & H & ?). auto.
  - intros x Hx. apply ref_gmtime_some. rewrite (civil_year _ x) by done. by destruct Hx.
  - intros t1 t t2 Ht. rewrite !ref_gmtime_some. pose proof (civil_year_mono t1 t). pose proof (civil_year_mono t t2). lia.
  - done.
Qed.

(** ** Rationals for doubles *)

Definition Q_trunc (q : Q) : Z := Z.quot (Qnum q) (Zpos (Qden q)).

Definition ref_double : CDouble := {|
  dbl := Q;
  dbl_of_int := inject_Z;
  dbl_1e9 := 1000000000 # 1;
  dbl_1em9 := 1 # 1000000000;
  dbl_half := 1 # 2;
  dbl_ltb := λ a b, negb (Qle_bool b a);
  dbl_eqb := Qeq_bool;
  dbl_neg := Qopp;
  dbl_add := Qplus;
  dbl_sub := Qminus;
  dbl_mul := Qmult;
  modf := λ q, (Qred (q - inject_Z (Q_trunc q)), inject_Z (Q_trunc q));
  dbl_to_long := Q_trunc;
  dbl_to_ulong := Q_trunc
|}.

(** Objects other than numbers respond to nothing. *)
Definition ref_runtime : @TimeRuntime ref_double := {|
  responds_divmod := λ _, false;
  divmod_1 := λ _, Ok None;
  mul := λ v k, match v with AInt (Fixnum n) => Ok (AInt (Fixnum (n * k))) | _ => Err (Raise TypeError) end;
  obj_to_str := λ _, None;
  other2long := λ _, Err (Raise TypeError);
  rb_num2dbl := λ v, match v with AInt (Fixnum n) => Ok (@dbl_of_int ref_double n) | AFlo d => Ok d | _ => Err (Raise TypeError) end
|}.

Lemma ref_double_laws : @CDoubleLaws ref_double ref_runtime.
Proof.
  assert (∀ n, Q_trunc (inject_Z n) = n) as Ht by (intros n; apply Z.quot_1_r).
  split; cbn; intros.
  - done.
  - unfold Qle_bool. cbn. rewrite !Z.mul_1_r. destruct (Z.ltb_spec n m), (Z.leb_spec m n); lia || done.
  - unfold Qeq_bool. cbn. rewrite !Z.mul_1_r. by destruct (Z.eqb_spec n m), (Zeq_bool n m) eqn:E; try done; apply Zeq_is_eq_bool in E || apply Zeq_bool_neq in E.
  - unfold Qopp, inject_Z. cbn. by rewrite Z.opp_involutive.
  - rewrite Ht. f_equal. unfold Qminus, Qplus, Qopp, inject_Z. cbn.
    by replace (n * 1 + - n * 1) with 0 by lia.
  - apply Ht.
  - done.
Qed.

(** * Theorems about time.c *)

Section time_thm.
Context `{J : Junk} `{C : CTime} `{D : CDouble} `{R : !TimeRuntime}.

(** ** Calendars *)

(** C32: [Time.utc] of six integers below 2^31 in size, by way of [time_arg], [make_time_t], [time_overflow_p] and
    [time_gmtime], over a C library that converts to and from the Gregorian calendar: fields in the
    documented ranges give the time whose number of seconds is that of a calendar
    that counts days year by year and month by month, in Universal Time, and reading the
    fields of a date of the calendar back gives that date; other fields raise [ArgumentError].  The years 0 to 38 stand for
    2000 to 2038 and 69 to 138 for 1969 to 2038 ([arg_year]); the first and the last year whose number fits an [int] are left out. *)
Theorem time_utc_correct `{L : !CTimeLaws} y m d h mi s :
  small y → small (y - 1900) → small m → small d → small h → small mi → small s → rb_safe_level < 4 →
  let argv := [Int y; Int m; Int d; Int h; Int mi; Int s] in
  let x := arg_tm y m d h mi s (-1) (-1) in
  inner_year x →
  (in_range x → returns (time_s_mkutc argv) (λ t, utc_time (epoch x) 0 t ∧ (in_calendar x → same_time x (t_tm t)))) ∧
  (¬ in_range x → time_s_mkutc argv = Err (Raise ArgumentError)).
Proof.
  intros Hy Hy' Hm Hd Hh Hmi Hs Hsafe argv x Hi.
  assert (time_arg argv = if decide (in_range x) then Ok (x, 0) else Err (Raise ArgumentError)) as E
    by (by apply time_arg_ints).
  split; intros Hr.
  - rewrite decide_True in E by done. eapply returns_mono; [by apply (time_utc_spec argv x 0)|].
    intros t Ht. split; [done|]. intros Hc. by eapply utc_time_fields.
  - rewrite decide_False in E by done. unfold time_s_mkutc, time_utc_or_local. by rewrite E.
Qed.


(** The array of a time in Universal Time, given to [Time.utc], makes the time again, without its
    nanoseconds, unless the year is one that stands for another. *)
Theorem to_a_utc_roundtrip `{L : !CTimeLaws} e nsec t :
  utc_time e nsec t → small (tm_year (t_tm t) + 1900) → small (tm_year (t_tm t)) → plain_year (tm_year (t_tm t) + 1900) →
  rb_safe_level < 4 →
  returns (time_to_a t) (λ '(a, t'), t' = t ∧ zlen a = 10 ∧ returns (time_s_mkutc a) (utc_time e 0)).
Proof. apply to_a_spec. Qed.

(** ** Marshalling *)

(** C34: A time whose year is from 1900 to 67435, that carries no digits of an earlier load unless it has digits of its own, and at a safe level below 4, is dumped
    as 8 bytes with the digits below the microsecond in an instance variable; loading them gives a time with the same seconds,
    nanoseconds and flag of Universal Time, by way of [make_time_t] and [time_overflow_p], although
    the words are packed and unpacked with shifts of [int]s that overflow into the sign.  This holds exactly if one of the 8 bytes is NUL, as
    with whole seconds, and the packed digits are one byte or begin with NUL: otherwise [strlen] reads beyond the buffer of the dump. *)
Theorem time_dump_load `{L : !CTimeLaws} t x :
  time_ok t → rb_safe_level < 4 → no_stale t → gmtime (tv_sec t) = Some x → 0 ≤ tm_year x < 2 ^ 16 →
  (if has_nul (dump_buf t x) && few_digits (tv_nsec t mod 1000) then
     returns (time_dump t []) (λ d, zlen (d_bytes d) = 8 ∧
       returns (time_load d) (λ t', tv_sec t' = tv_sec t ∧ tv_nsec t' = tv_nsec t ∧ gmt t' = gmt t ∧ time_ok t' ∧ tm_got t' = 0))
   else time_dump t [] = Err OutOfBounds) ∧
  (tv_nsec t / 1000 mod 256 = 0 → has_nul (dump_buf t x) = true).
Proof.
  intros Ht Hs Hst Hx Hy. split; [by apply time_load_dump|]. destruct (gmtime_sound _ _ Hx) as [Hc _]. by apply dump_nul; [|apply Ht].
Qed.

(** ** Arithmetic *)

(** C35: [Time#+] and [Time#-] of an offset split into seconds and nanoseconds, and of an integer of at most 2^53 in size, which
    a double represents, are exact to the nanosecond and keep the flag of Universal Time; they
    raise [RangeError] exactly if the seconds of the result are no [time_t], although the sum is
    computed modulo [2^64].  [<=>] and [eql?] compare the nanoseconds since the Epoch.  How a Float is split, and the rounding of larger integers to
    a double, are not covered. *)
Theorem time_arithmetic_exact `{L : !CDoubleLaws} t u n sec_off nsec_off sign :
  time_ok t → time_ok u → - 2 ^ 53 ≤ n ≤ 2 ^ 53 → 0 ≤ sec_off < 2 ^ 64 → 0 ≤ nsec_off ≤ NS →
  (let v := add_total t sec_off nsec_off sign in
   if decide (LONG_MIN ≤ v / NS ≤ LONG_MAX)
   then returns (time_add_off t sec_off nsec_off sign) (λ t', total t' = v ∧ time_ok t' ∧ gmt t' = gmt t)
   else time_add_off t sec_off nsec_off sign = Err (Raise RangeError)) ∧
  (if decide (LONG_MIN ≤ tv_sec t + n ≤ LONG_MAX)
   then returns (time_plus t (Int n)) (λ v, ∃ t', v = ATime t' ∧ total t' = total t + n * NS ∧ time_ok t' ∧
          returns (time_minus t' (Int n)) (λ v, ∃ t'', v = ATime t'' ∧ time_eql t (ATime t'') = true ∧ gmt t'' = gmt t))
   else time_plus t (Int n) = Err (Raise RangeError)) ∧
  time_cmp t (ATime u) = Some (match total t ?= total u with Lt => -1 | Eq => 0 | Gt => 1 end) ∧
  (time_eql t (ATime u) = true ↔ total t = total u).
Proof.
  intros Ht Hu Hn Ho Hno. split; [by apply time_add_off_spec|]. split; [|by apply time_cmp_spec].
  pose proof (time_add_int_spec t n true Ht Hn) as Ha. cbv zeta iota in Ha. unfold time_plus. destruct (decide _); [|by rewrite Ha].
  destruct Ha as (t' & -> & Es & En & Hg & Ht'). cbn. apply returns_ret. exists t'. split_and!; [done| |done|].
  { unfold total. rewrite Es, En. unfold NS. lia. }
  pose proof (time_add_int_spec t' n false Ht' Hn) as Hb. cbv zeta iota in Hb. pose proof Ht as (Hs & _).
  rewrite decide_True in Hb by lia. destruct Hb as (t'' & E & Es' & En' & Hg' & Ht''). unfold time_minus. rewrite E. cbn.
  apply returns_ret. exists t''. split_and!; [done| |congruence].
  apply (time_cmp_spec t t''); [done|done|]. unfold total. rewrite Es', En', Es, En. lia.
Qed.

(** The invariant of times holds of every time the operations make. *)
Theorem time_ok_preserved t v sec nsec sign t' :
  (LONG_MIN ≤ sec ≤ LONG_MAX → LONG_MIN ≤ nsec ≤ LONG_MAX → time_new_internal sec nsec = Ok t' → time_ok t') ∧
  (time_ok t → time_add t v sign = Ok t' → time_ok t') ∧
  (time_ok t → time_succ t = Ok t' → time_ok t') ∧
  (time_ok t → time_gmtime t = Ok t' → time_ok t') ∧
  (time_ok t → time_localtime t = Ok t' → time_ok t') ∧
  (time_ok t → time_dup t = Ok t' → time_ok t').
Proof.
  assert (∀ sec nsec u, LONG_MIN ≤ sec ≤ LONG_MAX → LONG_MIN ≤ nsec ≤ LONG_MAX → time_new_internal sec nsec = Ok u → time_ok u ∧ gmt u = 0) as Hnew.
  { intros sec' nsec' u Hs Hn E. pose proof (time_new_spec sec' nsec' Hs Hn) as H. destruct (decide _); [|congruence].
    destruct H as (u' & E' & _ & Hok & Hg & _). rewrite E in E'. by simplify_eq. }
  assert (∀ z, LONG_MIN ≤ s64 z ≤ LONG_MAX) as Hs64 by (intros z; pose proof (s64_range z); unfold LONG_MIN, LONG_MAX; lia).
  split_and!.
  - intros Hs Hn E. by destruct (Hnew sec nsec t' Hs Hn E).
  - intros Ht E. assert (∀ o n sg, time_add_off t o n sg = Ok t' → time_ok t') as Hoff.
    { intros o no sg E'. unfold time_add_off in E'. apply bind_ok in E' as ([s n] & Es & E').
      apply bind_ok in E' as (r & Er & E'). simplify_eq.
      assert (LONG_MIN ≤ s ≤ LONG_MAX ∧ LONG_MIN ≤ n ≤ LONG_MAX) as [Hs Hn] by (repeat case_match; simplify_eq; auto).
      destruct (Hnew s n r Hs Hn Er) as [(? & ? & ?) Hg]. unfold time_ok. destruct (negb _); cbn; auto. }
    unfold time_add in E. apply bind_ok in E as (w & _ & E). repeat case_match; try done; by eapply Hoff.
  - intros Ht E. unfold time_succ in E. apply bind_ok in E as (r & Er & E). simplify_eq. pose proof Ht as (_ & Hn & Hg).
    eapply Hnew in Er as [(? & ? & _) _]; [done..|unfold LONG_MIN, LONG_MAX, NS in *; lia].
  - intros (? & ? & ?) E. unfold time_gmtime in E. case_match; [by simplify_eq|].
    apply bind_ok in E as (_ & _ & E). apply bind_ok in E as (x & _ & E). simplify_eq. by unfold time_ok; cbn; auto.
  - intros (? & ? & ?) E. unfold time_localtime in E. case_match; [by simplify_eq|].
    apply bind_ok in E as (_ & _ & E). apply bind_ok in E as (x & _ & E). simplify_eq. by unfold time_ok; cbn; auto.
  - intros (? & ? & ?) E. unfold time_dup, time_init_copy in E. apply bind_ok in E as (_ & _ & E). by simplify_eq.
Qed.
End time_thm.

(** ** Witnesses *)

#[local] Existing Instances ref_ctime ref_double ref_runtime ref_ctime_laws ref_double_laws.

(** 2005-12-31 23:59:60 *)
Definition ex_leap : tm := mk_tm 60 59 23 31 11 105 0 0 0 0 [].

Lemma time_utc_correct_witness :
  returns (time_s_mkutc (J := ex_junk) [Int 2000; Int 2; Int 29; Int 20; Int 15; Int 1]) (λ t,
    utc_time (epoch (arg_tm 2000 2 29 20 15 1 (-1) (-1))) 0 t ∧ same_time (arg_tm 2000 2 29 20 15 1 (-1) (-1)) (t_tm t)) ∧
  epoch (arg_tm 2000 2 29 20 15 1 (-1) (-1)) = 951855301 ∧
  time_s_mkutc (J := ex_junk) [Int 2000; Int 13; Int 1; Int 0; Int 0; Int 0] = Err (Raise ArgumentError).
Proof.
  destruct (time_utc_correct (J := ex_junk) 2000 2 29 20 15 1) as [H _];
    [by (done || (unfold small; lia))..|by unfold inner_year; cbn; lia|].
  destruct (time_utc_correct (J := ex_junk) 2000 13 1 0 0 0) as [_ H'];
    [by (done || (unfold small; lia))..|by unfold inner_year; cbn; lia|].
  split_and!.
  - eapply returns_mono; [apply H; apply (bool_decide_unpack _); by vm_compute|].
    intros t [Ht Hs]. split; [done|]. apply Hs. apply (bool_decide_unpack _). by vm_compute.
  - by vm_compute.
  - apply H'. apply (bool_decide_unpack _). by vm_compute.
Defined.

(** A clock that counts 25 leap seconds before 2005 *)
Definition leap_ctime : CTime := {|
  gmtime := λ t, ref_gmtime (t - 25);
  localtime := λ t, ref_gmtime (t - 25);
  timegm := λ x, (-1, x);
  mktime := λ x, (-1, x);
  rb_safe_level := 0
|}.


(** The 1st of January 2010 and 123456789 nanoseconds, in Universal Time *)
Definition ex_time : time_object := mk_time 1262304000 123456789 zero_tm 1 0 false false None.

(** Microseconds that are a multiple of 256 and one digit below them *)
Definition ex_time_nul : time_object := mk_time 1262304000 256000500 zero_tm 1 0 false false None.

Lemma time_dump_load_witness :
  returns (time_dump ex_time_nul []) (λ d, zlen (d_bytes d) = 8 ∧
    returns (time_load d) (λ t', tv_sec t' = 1262304000 ∧ tv_nsec t' = 256000500 ∧ gmt t' = 1 ∧ time_ok t' ∧ tm_got t' = 0)) ∧
  time_dump ex_time [] = Err OutOfBounds.
Proof.
  assert (∀ t, time_ok t → no_stale t → tv_sec t = 1262304000 → _) as H
    by (intros t Ht Hst E; apply (time_dump_load t (civil 1262304000) Ht ltac:(done) Hst ltac:(rewrite E; by vm_compute) ltac:(split; by vm_compute))).
  split.
  - destruct (H ex_time_nul) as [H1 _]; [by unfold time_ok; cbn; unfold NS, LONG_MIN, LONG_MAX; lia|by left|done|].
    exact H1.
  - destruct (H ex_time) as [H1 _]; [by unfold time_ok; cbn; unfold NS, LONG_MIN, LONG_MAX; lia|by left|done|].
    exact H1.
Defined.

Lemma time_arithmetic_exact_witness :
  returns (time_plus ex_time (Int 86400)) (λ v, ∃ t', v = ATime t' ∧ total t' = total ex_time + 86400 * NS) ∧
  time_plus (mk_time LONG_MAX 0 zero_tm 0 0 false false None) (Int 1) = Err (Raise RangeError).
Proof.
  split.
  - destruct (time_arithmetic_exact ex_time ex_time 86400 0 0 1) as (_ & H & _);
      [by unfold time_ok; cbn; unfold NS, LONG_MIN, LONG_MAX; lia..|lia|lia|unfold NS; lia|].
    rewrite decide_True in H by (cbn; unfold LONG_MIN, LONG_MAX; lia).
    eapply returns_mono; [apply H|]. intros v (t' & E & Ht & _). by exists t'.
  - destruct (time_arithmetic_exact (mk_time LONG_MAX 0 zero_tm 0 0 false false None) ex_time 1 0 0 1) as (_ & H & _);
      [by unfold time_ok; cbn; unfold NS, LONG_MIN, LONG_MAX; lia..|lia|lia|unfold NS; lia|].
    rewrite decide_False in H by (cbn; unfold LONG_MIN, LONG_MAX; lia). done.
Defined.

(** ** Behaviour at the edges *)

(** The year is the only field whose [long] is compared with the [int] it is stored in: month
    4294967297 is accepted and means January. *)
Theorem time_arg_month_wraps :
  time_arg (J := ex_junk) [Int 2000; Int (2 ^ 32 + 1)] = time_arg (J := ex_junk) [Int 2000; Int 1] ∧
  is_Some (match time_arg (J := ex_junk) [Int 2000; Int (2 ^ 32 + 1)] with Ok r => Some r | Err _ => None end).
Proof. split; [by vm_compute|]. vm_compute. by eexists. Qed.

(** The documentation says that the elements of [to_a] can be passed to [Time.utc]: the year 100 is
    taken for 2000. *)
Theorem to_a_year_100 :
  let t := mk_time (-59011459200) 0 zero_tm 1 0 false false None in
  match time_to_a (J := ex_junk) t with
  | Ok (a, _) =>
      a !! 5%nat = Some (Int 100) ∧
      match time_s_mkutc (J := ex_junk) a with Ok u => tv_sec u = 946684800 | Err _ => False end
  | Err _ => False
  end.
Proof. by vm_compute. Qed.

(** A time past the years of the C library cannot be dumped: the result of [gmtime] is not tested. *)
Theorem time_dump_null : time_mdump (mk_time LONG_MAX 0 zero_tm 0 0 false false None) = Err BadPointer.
Proof. by vm_compute. Qed.

(** [succ] does not test the sum, as [+] does: after the last second comes the first. *)
Theorem time_succ_wraps :
  returns (time_succ (mk_time LONG_MAX 0 zero_tm 0 0 false false None)) (λ t, tv_sec t = LONG_MIN) ∧
  time_plus (mk_time LONG_MAX 0 zero_tm 0 0 false false None) (Int 1) = Err (Raise RangeError).
Proof. split; [eexists; split; by vm_compute|by vm_compute]. Qed.

(** The digits that a load leaves in the instance variables are dumped again with a time that
    has none, so that the premise of the round trip is needed. *)
Theorem time_dump_stale :
  let t := mk_time 0 0 zero_tm 0 0 false false (Some {[ id_submicro := IvStr [80] ]}) in
  match time_mdump t with
  | Ok d => match time_load d with Ok t' => tv_nsec t' = 500 | Err _ => False end
  | Err _ => False
  end.
Proof. by vm_compute. Qed.
