(* ===== verification/CFString.v ===== *)
(** * Strings of CoreFoundation

    The functions of CoreFoundation and of the C library that string.c calls, as an interface; what is
    documented of them, stated through the characters of a string; and a string that is a list of
    characters, which keeps these promises. *)

From S2P Require Import Prelude.

Record CFRange := CFRangeMake { location : Z; rlength : Z }.

(** [CFMutableStringRef], [CFCharacterSetRef] and the classes of characters of the C library. A character
    is a [UniChar] of 16 bits. *)
Class CFStrings := {
  cfstring : Type;
  CFStringCreateMutable : cfstring;
  CFStringCreateMutableCopy : cfstring → cfstring;
  CFStringCreateWithSubstring : cfstring → CFRange → cfstring;
  CFStringGetLength : cfstring → Z;
  CFStringGetCharacterAtIndex : cfstring → Z → Z;
  CFStringGetCharacters : cfstring → CFRange → list Z;
  CFStringAppend : cfstring → cfstring → cfstring;
  CFStringAppendCharacters : cfstring → list Z → cfstring;
  CFStringAppendCString : cfstring → list Z → cfstring;
  CFStringInsert : cfstring → Z → cfstring → cfstring;
  CFStringDelete : cfstring → CFRange → cfstring;
  CFStringReplace : cfstring → CFRange → cfstring → cfstring;
  CFStringReplaceAll : cfstring → cfstring → cfstring;
  CFStringPad : cfstring → option cfstring → Z → Z → cfstring;
  CFStringTrimWhitespace : cfstring → cfstring;
  CFStringFindWithOptions : cfstring → cfstring → CFRange → bool → option CFRange;
  CFStringFindCharacterFromSet : cfstring → (Z → bool) → CFRange → option CFRange;
  CFStringHasPrefix : cfstring → cfstring → bool;
  CFStringHasSuffix : cfstring → cfstring → bool;
  CFStringCompare : cfstring → cfstring → Z;
  CFEqual : cfstring → cfstring → bool;
  (** the bytes of the string in UTF-8, without the terminating NUL; [None] if there is no such form *)
  CFStringGetCString : cfstring → option (list Z);
  (** [kCFCharacterSetWhitespaceAndNewline] *)
  whitespace : Z → bool;
  iswdigit : Z → bool;
  iswalpha : Z → bool;
  islower : Z → bool;
  iswascii : Z → bool;
  iswlower : Z → bool;
  iswupper : Z → bool;
  towupper : Z → Z;
  towlower : Z → Z
}.

Definition slice {A} (b n : Z) (l : list A) : list A := take (Z.to_nat n) (drop (Z.to_nat b) l).

(** The first and the last position at which [sub] occurs *)
Fixpoint index_of (sub l : list Z) : option Z :=
  if bool_decide (sub `prefix_of` l) then Some 0 else
  match l with [] => None | _ :: l => Z.succ <$> index_of sub l end.
Fixpoint last_index_of (sub l : list Z) : option Z :=
  match l with
  | [] => if bool_decide (sub = []) then Some 0 else None
  | _ :: l' =>
      match last_index_of sub l' with
      | Some i => Some (i + 1)
      | None => if bool_decide (sub `prefix_of` l) then Some 0 else None
      end
  end.

(** The first position of a character of a set *)
Fixpoint index_where (f : Z → bool) (l : list Z) : option Z :=
  match l with [] => None | c :: l => if f c then Some 0 else Z.succ <$> index_where f l end.

(** [n] characters of [pad], repeated, from its [i]th one on *)
Definition repeated (pad : list Z) (i n : Z) : list Z :=
  (λ j : nat, default 0 (zlookup pad ((i + Z.of_nat j) mod zlen pad))) <$> seq 0 (Z.to_nat n).

(** Lexicographic comparison *)
Fixpoint compare_chars (a b : list Z) : Z :=
  match a, b with
  | [], [] => 0
  | [], _ :: _ => -1
  | _ :: _, [] => 1
  | x :: a, y :: b => if x <? y then -1 else if y <? x then 1 else compare_chars a b
  end.

Fixpoint drop_while {A} (f : A → bool) (l : list A) : list A :=
  match l with [] => [] | c :: l' => if f c then drop_while f l' else l end.
Definition trim_r {A} (f : A → bool) (l : list A) : list A := reverse (drop_while f (reverse l)).

(** ** What CoreFoundation promises *)

Section laws.
Context `{F : CFStrings}.

(** The characters of a string *)
Definition chars (s : cfstring) : list Z := CFStringGetCharacters s (CFRangeMake 0 (CFStringGetLength s)).

Definition in_bounds (s : cfstring) (r : CFRange) : bool :=
  (0 <=? location r) && (0 <=? rlength r) && (location r + rlength r <=? CFStringGetLength s).

Definition ascii (c : Z) : Prop := 0 ≤ c < 128.
Definition ascii_str (s : cfstring) : Prop := Forall ascii (chars s).

(** The range of a match in [chars s], from its position in a part of it *)
Definition match_range (r : CFRange) (n : Z) (o : option Z) : option CFRange :=
  (λ i, CFRangeMake (location r + i) n) <$> o.
End laws.

(** Searching, comparing and converting are specified for ASCII, where a character has one form only;
    the result of a range outside of a string is not specified. *)
Class CFStringLaws `{CFStrings} : Prop := {
  cf_length s : CFStringGetLength s = zlen (chars s);
  cf_create : chars CFStringCreateMutable = [];
  cf_copy s : chars (CFStringCreateMutableCopy s) = chars s;
  cf_substring s r : in_bounds s r = true → chars (CFStringCreateWithSubstring s r) = slice (location r) (rlength r) (chars s);
  cf_characters s r : in_bounds s r = true → CFStringGetCharacters s r = slice (location r) (rlength r) (chars s);
  cf_character_at s i : 0 ≤ i < CFStringGetLength s → zlookup (chars s) i = Some (CFStringGetCharacterAtIndex s i);
  cf_append s t : chars (CFStringAppend s t) = chars s ++ chars t;
  cf_append_chars s l : chars (CFStringAppendCharacters s l) = chars s ++ l;
  cf_append_cstring s l : Forall ascii l → chars (CFStringAppendCString s l) = chars s ++ l;
  cf_insert s i t : 0 ≤ i ≤ CFStringGetLength s →
    chars (CFStringInsert s i t) = slice 0 i (chars s) ++ chars t ++ drop (Z.to_nat i) (chars s);
  cf_delete s r : in_bounds s r = true →
    chars (CFStringDelete s r) = slice 0 (location r) (chars s) ++ drop (Z.to_nat (location r + rlength r)) (chars s);
  cf_replace s r t : in_bounds s r = true →
    chars (CFStringReplace s r t) =
      slice 0 (location r) (chars s) ++ chars t ++ drop (Z.to_nat (location r + rlength r)) (chars s);
  cf_replace_all s t : chars (CFStringReplaceAll s t) = chars t;
  cf_pad_cut s pad n i : 0 ≤ n ≤ CFStringGetLength s → chars (CFStringPad s pad n i) = slice 0 n (chars s);
  cf_pad s pad n i : CFStringGetLength s < n → 0 ≤ i < CFStringGetLength pad →
    chars (CFStringPad s (Some pad) n i) = chars s ++ repeated (chars pad) i (n - CFStringGetLength s);
  cf_trim s : ascii_str s → chars (CFStringTrimWhitespace s) = trim_r whitespace (drop_while whitespace (chars s));
  cf_find s t r : ascii_str s → ascii_str t → chars t ≠ [] → in_bounds s r = true →
    CFStringFindWithOptions s t r false =
      match_range r (CFStringGetLength t) (index_of (chars t) (slice (location r) (rlength r) (chars s)));
  cf_find_last s t r : ascii_str s → ascii_str t → chars t ≠ [] → in_bounds s r = true →
    CFStringFindWithOptions s t r true =
      match_range r (CFStringGetLength t) (last_index_of (chars t) (slice (location r) (rlength r) (chars s)));
  cf_find_set s f r : ascii_str s → in_bounds s r = true →
    CFStringFindCharacterFromSet s f r = match_range r 1 (index_where f (slice (location r) (rlength r) (chars s)));
  cf_prefix s t : ascii_str s → ascii_str t → chars t ≠ [] → CFStringHasPrefix s t = bool_decide (chars t `prefix_of` chars s);
  cf_suffix s t : ascii_str s → ascii_str t → chars t ≠ [] → CFStringHasSuffix s t = bool_decide (chars t `suffix_of` chars s);
  cf_compare s t : ascii_str s → ascii_str t → CFStringCompare s t = compare_chars (chars s) (chars t);
  cf_equal s t : ascii_str s → ascii_str t → CFEqual s t = bool_decide (chars s = chars t);
  cf_cstring s : ascii_str s → CFStringGetCString s = Some (chars s);
  cf_iswdigit c : ascii c → iswdigit c = (48 <=? c) && (c <=? 57);
  cf_iswalpha c : ascii c → iswalpha c = ((65 <=? c) && (c <=? 90)) || ((97 <=? c) && (c <=? 122));
  cf_islower c : ascii c → islower c = (97 <=? c) && (c <=? 122);
  cf_iswascii c : iswascii c = (0 <=? c) && (c <? 128);
  cf_iswlower c : ascii c → iswlower c = (97 <=? c) && (c <=? 122);
  cf_iswupper c : ascii c → iswupper c = (65 <=? c) && (c <=? 90);
  cf_towupper c : ascii c → towupper c = if (97 <=? c) && (c <=? 122) then c - 32 else c;
  cf_towlower c : ascii c → towlower c = if (65 <=? c) && (c <=? 90) then c + 32 else c;
  cf_whitespace c : ascii c → whitespace c = ((9 <=? c) && (c <=? 13)) || (c =? 32)
}.

(** ** Strings as lists *)

Definition list_strings : CFStrings := {|
  cfstring := list Z;
  CFStringCreateMutable := [];
  CFStringCreateMutableCopy := λ s, s;
  CFStringCreateWithSubstring := λ s r, slice (location r) (rlength r) s;
  CFStringGetLength := zlen;
  CFStringGetCharacterAtIndex := λ s i, default 0 (zlookup s i);
  CFStringGetCharacters := λ s r, slice (location r) (rlength r) s;
  CFStringAppend := app;
  CFStringAppendCharacters := app;
  CFStringAppendCString := app;
  CFStringInsert := λ s i t, slice 0 i s ++ t ++ drop (Z.to_nat i) s;
  CFStringDelete := λ s r, slice 0 (location r) s ++ drop (Z.to_nat (location r + rlength r)) s;
  CFStringReplace := λ s r t, slice 0 (location r) s ++ t ++ drop (Z.to_nat (location r + rlength r)) s;
  CFStringReplaceAll := λ _ t, t;
  CFStringPad := λ s pad n i, if n <=? zlen s then slice 0 n s else s ++ repeated (default [] pad) i (n - zlen s);
  CFStringTrimWhitespace := λ s, trim_r (λ c, ((9 <=? c) && (c <=? 13)) || (c =? 32)) (drop_while (λ c, ((9 <=? c) && (c <=? 13)) || (c =? 32)) s);
  CFStringFindWithOptions := λ s t r back,
    match_range r (zlen t) ((if back : bool then last_index_of else index_of) t (slice (location r) (rlength r) s));
  CFStringFindCharacterFromSet := λ s f r, match_range r 1 (index_where f (slice (location r) (rlength r) s));
  CFStringHasPrefix := λ s t, bool_decide (t `prefix_of` s);
  CFStringHasSuffix := λ s t, bool_decide (t `suffix_of` s);
  CFStringCompare := compare_chars;
  CFEqual := λ s t, bool_decide (s = t);
  CFStringGetCString := Some;
  whitespace := λ c, ((9 <=? c) && (c <=? 13)) || (c =? 32);
  iswdigit := λ c, (48 <=? c) && (c <=? 57);
  iswalpha := λ c, ((65 <=? c) && (c <=? 90)) || ((97 <=? c) && (c <=? 122));
  islower := λ c, (97 <=? c) && (c <=? 122);
  iswascii := λ c, (0 <=? c) && (c <? 128);
  iswlower := λ c, (97 <=? c) && (c <=? 122);
  iswupper := λ c, (65 <=? c) && (c <=? 90);
  towupper := λ c, if (97 <=? c) && (c <=? 122) then c - 32 else c;
  towlower := λ c, if (65 <=? c) && (c <=? 90) then c + 32 else c
|}.

Lemma slice_all {A} (l : list A) : slice 0 (zlen l) l = l.
Proof. unfold slice. rewrite to_nat_zlen. cbn. by rewrite take_ge. Qed.

Lemma list_chars s : chars (F := list_strings) s = s.
Proof. apply slice_all. Qed.

Lemma list_strings_laws : @CFStringLaws list_strings.
Proof.
  split; intros; rewrite ?list_chars; cbn in *; try done.
  - destruct (zlookup s i) eqn:E; [done|]. apply zlookup_None in E. lia.
  - by rewrite (proj2 (Z.leb_le _ _)) by lia.
  - by rewrite (proj2 (Z.leb_gt _ _)) by lia.
Qed.
