(* ===== verification/Str.v ===== *)
(** * string.c: strings

    The methods of String over the strings of CoreFoundation ([CFStrings]): copies, parts and
    assignments to parts, searching, successors, case, trimming, padding, splitting and lines.

    A string is its content with the flags of the object.  A method that changes its receiver returns
    the new state of the receiver.  Where the documentation of CoreFoundation asks for a
    range within the string, the model checks it ([OutOfBounds]).  Byte strings (ByteString) and regular
    expressions are not modelled here. *)

From S2P Require Import Prelude RArray Util Big BigStr Numeric CFString.

Section strings.
Context `{J : Junk} `{F : CFStrings}.

Record rstr := mk_str { content : cfstring; s_frozen : bool; s_immutable : bool; s_tainted : bool }.

Definition fresh_str (c : cfstring) : rstr := mk_str c false false false.
Definition set_content (s : rstr) (c : cfstring) : rstr := mk_str c (s_frozen s) (s_immutable s) (s_tainted s).
Definition taint_if (b : bool) (s : rstr) : rstr := if b then mk_str (content s) (s_frozen s) (s_immutable s) true else s.

(** ** CoreFoundation with its preconditions *)

Definition cf_in (c : cfstring) (r : CFRange) : res unit := check (in_bounds c r) OutOfBounds.
Definition cf_char (c : cfstring) (i : Z) : res Z :=
  _ ← cf_in c (CFRangeMake i 1); Ok (CFStringGetCharacterAtIndex c i).
Definition cf_get (c : cfstring) (r : CFRange) : res (list Z) := _ ← cf_in c r; Ok (CFStringGetCharacters c r).
Definition cf_sub (c : cfstring) (r : CFRange) : res cfstring := _ ← cf_in c r; Ok (CFStringCreateWithSubstring c r).
Definition cf_del (c : cfstring) (r : CFRange) : res cfstring := _ ← cf_in c r; Ok (CFStringDelete c r).
Definition cf_repl (c : cfstring) (r : CFRange) (t : cfstring) : res cfstring := _ ← cf_in c r; Ok (CFStringReplace c r t).
Definition cf_ins (c : cfstring) (i : Z) (t : cfstring) : res cfstring :=
  _ ← cf_in c (CFRangeMake i 0); Ok (CFStringInsert c i t).
Definition cf_search (c t : cfstring) (r : CFRange) (back : bool) : res (option CFRange) :=
  _ ← cf_in c r; Ok (CFStringFindWithOptions c t r back).

Definition RSTRING_LEN (s : rstr) : Z := CFStringGetLength (content s).

(** [rb_str_cstr]: the empty string has a pointer of its own. *)
Definition RSTRING_PTR (s : rstr) : option (list Z) :=
  if RSTRING_LEN s =? 0 then Some [] else CFStringGetCString (content s).

(** ** Objects *)

(** [rb_str_modify]; the second argument is [rb_safe_level()]. *)
Definition str_modifiable (s : rstr) (safe_level : Z) : res unit :=
  if s_frozen s || s_immutable s then Err (Raise RuntimeError) else
  if s_tainted s && (4 <=? safe_level) then Err (Raise SecurityError) else Ok ().

Context (safe_level : Z).
Definition rb_str_modify (s : rstr) : res unit := str_modifiable s safe_level.

Definition rb_str_new_empty : rstr := fresh_str CFStringCreateMutable.
Definition rb_str_dup (s : rstr) : rstr := taint_if (s_tainted s) (fresh_str (CFStringCreateMutableCopy (content s))).
Definition rb_str_new3 (s : rstr) : rstr := rb_str_dup s.
Definition rb_str_clone (s : rstr) : rstr :=
  let c := rb_str_dup s in mk_str (content c) (s_frozen s) (s_immutable c) (s_tainted c).
Definition rb_str_length (s : rstr) : Z := RSTRING_LEN s.
Definition rb_str_empty (s : rstr) : bool := RSTRING_LEN s =? 0.

Definition rb_str_buf_append0 (s t : rstr) : rstr := set_content s (CFStringAppend (content s) (content t)).
Definition rb_str_append (s t : rstr) : res rstr := _ ← rb_str_modify s; Ok (rb_str_buf_append0 s t).

(** [<<] of a fixnum, which is a C string of one [char] *)
Definition rb_str_concat_fix (s : rstr) (n : Z) : res rstr :=
  c ← rb_fix2int (Fixnum n);
  _ ← rb_str_modify s;
  let b := Z.land c 255 in
  Ok (set_content s (CFStringAppendCString (content s) (if b =? 0 then [] else [b]))).

Definition rb_str_plus (s t : rstr) : rstr :=
  taint_if (s_tainted s || s_tainted t) (rb_str_buf_append0 (rb_str_buf_append0 rb_str_new_empty s) t).

Definition rb_str_times (s : rstr) (len : Z) : res rstr :=
  let n := RSTRING_LEN s in
  if len <? 0 then Err (Raise ArgumentError) else
  if negb (len =? 0) && (LONG_MAX / len <? n) then Err (Raise ArgumentError) else
  let s2 := rb_str_new3 s in
  Ok (taint_if (s_tainted s) (set_content s2 (CFStringPad (content s2) (Some (content s)) (len * n) 0))).

Definition rb_str_replace (same : bool) (s t : rstr) : res rstr :=
  _ ← rb_str_modify s;
  if same then Ok s else
  Ok (taint_if (s_tainted t) (set_content s (CFStringReplaceAll (content s) (content t)))).
Definition rb_str_shared_replace (s t : rstr) : res rstr :=
  _ ← rb_str_modify s; Ok (set_content s (CFStringReplaceAll (content s) (content t))).

Definition rb_str_clear (s : rstr) : res rstr :=
  _ ← rb_str_modify s;
  c ← cf_del (content s) (CFRangeMake 0 (RSTRING_LEN s));
  Ok (set_content s c).

(** [CFSTR(" ")] is the argument [space]. *)
Definition rb_str_resize (space : cfstring) (s : rstr) (len : Z) : res rstr :=
  if len <? 0 then Err (Raise ArgumentError) else
  _ ← rb_str_modify s;
  if negb (RSTRING_LEN s =? len) then Ok (set_content s (CFStringPad (content s) (Some space) len 0)) else Ok s.

(** ** Parts *)

Definition rb_str_subseq (s : rstr) (beg len : Z) : res (option rstr) :=
  let n := RSTRING_LEN s in
  let beg := if beg <? 0 then beg + n else beg in
  if (n <? beg) || (beg <? 0) then Ok None else
  let len := if n <? s64 (beg + len) then n - beg else len in
  if len =? 1 then
    c ← cf_char (content s) beg;
    Ok (Some (fresh_str (CFStringAppendCharacters CFStringCreateMutable [c])))
  else
    buffer ← cf_get (content s) (CFRangeMake beg len);
    Ok (Some (fresh_str (CFStringAppendCharacters CFStringCreateMutable buffer))).
Definition rb_str_substr (s : rstr) (beg len : Z) : res (option rstr) := rb_str_subseq s beg len.
Definition rb_str_chr (s : rstr) : res (option rstr) := rb_str_substr s 0 1.

Definition rb_str_splice_0 (s : rstr) (beg len : Z) (val : rstr) : res rstr :=
  _ ← rb_str_modify s;
  c ← cf_repl (content s) (CFRangeMake beg len) (content val);
  Ok (set_content s c).

Definition rb_str_splice (s : rstr) (beg len : Z) (val : rstr) : res rstr :=
  if len <? 0 then Err (Raise IndexError) else
  _ ← rb_str_modify s;
  let slen := RSTRING_LEN s in
  if slen <? beg then Err (Raise IndexError) else
  beg ← (if beg <? 0 then
           if slen <? s64 (- beg) then Err (Raise IndexError) else Ok (beg + slen)
         else Ok beg);
  let len := if (slen <? len) || (slen <? s64 (beg + len)) then slen - beg else len in
  s ← rb_str_splice_0 s beg len val;
  Ok (taint_if (s_tainted val) s).
Definition rb_str_update (s : rstr) (beg len : Z) (val : rstr) : res rstr := rb_str_splice s beg len val.

Definition rb_str_index (s sub : rstr) (offset : Z) : res Z :=
  o ← cf_search (content s) (content sub) (CFRangeMake offset (RSTRING_LEN s - offset)) false;
  Ok (match o with Some r => location r | None => -1 end).

(** An index: an integer, an offset and a length, a string, or a range of integers *)
Inductive index := IInt (i : Z) | ISlice (b n : Z) | IStr (t : rstr) | IRange (b e : Z) (excl : bool).

Definition rb_str_aref (s : rstr) (i : index) : res (option rstr) :=
  match i with
  | IInt i =>
      t ← rb_str_substr s i 1;
      Ok (match t with Some t => if RSTRING_LEN t =? 0 then None else Some t | None => None end)
  | ISlice b n => rb_str_substr s b n
  | IStr t => i ← rb_str_index s t 0; Ok (if negb (i =? -1) then Some (rb_str_dup t) else None)
  | IRange b e excl =>
      o ← rb_range_beg_len b e excl (RSTRING_LEN s) 0;
      match o with None => Ok None | Some (beg, len) => rb_str_substr s beg len end
  end.

Definition rb_str_aset (s : rstr) (i : index) (val : rstr) : res rstr :=
  match i with
  | IInt i => rb_str_splice s i 1 val
  | ISlice b n => rb_str_splice s b n val
  | IStr t =>
      beg ← rb_str_index s t 0;
      if beg <? 0 then Err (Raise IndexError) else rb_str_splice s beg (RSTRING_LEN t) val
  | IRange b e excl =>
      o ← rb_range_beg_len b e excl (RSTRING_LEN s) 2;
      match o with None => Err (Raise TypeError) | Some (beg, len) => rb_str_splice s beg len val end
  end.

Definition rb_str_insert (s : rstr) (pos : Z) (t : rstr) : res rstr :=
  if pos =? -1 then rb_str_append s t else
  rb_str_splice s (if pos <? 0 then pos + 1 else pos) 0 t.

Definition rb_str_slice_bang (s : rstr) (i : index) : res (option rstr * rstr) :=
  _ ← rb_str_modify s;
  r ← rb_str_aref s i;
  match r with
  | None => Ok (None, s)
  | Some t => s ← rb_str_aset s i rb_str_new_empty; Ok (Some t, s)
  end.

(** ** Searching *)

Definition rb_str_index_m (s sub : rstr) (pos : Z) : res (option Z) :=
  let pos := if pos <? 0 then pos + RSTRING_LEN s else pos in
  if pos <? 0 then Ok None else
  i ← rb_str_index s sub pos;
  Ok (if i =? -1 then None else Some i).

Definition rb_str_rindex (s sub : rstr) (pos : Z) : res Z :=
  let sublen := RSTRING_LEN sub in
  let strlen := RSTRING_LEN s in
  if (sublen =? 0) && (strlen =? 0) then Ok 0 else
  let pos := if pos <=? sublen then (if strlen <? sublen then strlen else sublen) else pos in
  o ← cf_search (content s) (content sub) (CFRangeMake 0 (pos + 1)) true;
  Ok (match o with Some r => location r | None => -1 end).

(** The position is the length of the string if it is not given. *)
Definition rb_str_rindex_m (s sub : rstr) (vpos : option Z) : res (option Z) :=
  let len := RSTRING_LEN s in
  let pos := match vpos with None => len | Some pos => if pos <? 0 then pos + len else pos end in
  if pos <? 0 then Ok None else
  let pos := if len <? pos then len else pos in
  i ← rb_str_rindex s sub pos;
  Ok (if 0 <=? i then Some i else None).

Definition rb_str_include (s sub : rstr) : res bool := i ← rb_str_index s sub 0; Ok (negb (i =? -1)).

Definition rb_str_partition (s sep : rstr) : res (option rstr * rstr * option rstr) :=
  pos ← rb_str_index s sep 0;
  if pos <? 0 then Ok (Some s, rb_str_new_empty, Some rb_str_new_empty) else
  let seplen := RSTRING_LEN sep in
  h ← rb_str_subseq s 0 pos;
  t ← rb_str_subseq s (pos + seplen) (RSTRING_LEN s - pos - seplen);
  Ok (h, sep, t).

Definition rb_str_rpartition (s sep : rstr) : res (option rstr * rstr * option rstr) :=
  pos ← rb_str_rindex s sep (RSTRING_LEN s);
  if pos <? 0 then Ok (Some rb_str_new_empty, rb_str_new_empty, Some s) else
  let seplen := RSTRING_LEN sep in
  h ← rb_str_substr s 0 pos;
  t ← rb_str_substr s (pos + seplen) seplen;
  Ok (h, sep, t).

(** Arguments that are not strings are [None]. *)
Definition rb_str_start_with (s : rstr) (argv : list (option rstr)) : bool :=
  existsb (λ a, match a with Some t => CFStringHasPrefix (content s) (content t) | None => false end) argv.
Definition rb_str_end_with (s : rstr) (argv : list (option rstr)) : bool :=
  existsb (λ a, match a with Some t => CFStringHasSuffix (content s) (content t) | None => false end) argv.

Definition rb_str_ord (s : rstr) : res Z :=
  if RSTRING_LEN s =? 0 then Err (Raise ArgumentError) else cf_char (content s) 0.
End strings.

(** * string.c: successors, case, ends, padding, lines and fields *)

Section edit.
Context `{J : Junk} `{F : CFStrings} (safe_level : Z).
Notation rb_str_modify := (rb_str_modify safe_level).

Definition u16 (x : Z) : Z := x mod 2 ^ 16.

(** ** Successors *)

(** The loop of [rb_str_succ], for the characters below [i]: the buffer, [modified] and [carry] *)
Fixpoint succ_loop (i : nat) (buf : list Z) (modified : bool) (carry : Z) : res (list Z * bool * Z) :=
  match i with
  | O => Ok (buf, modified, carry)
  | S i =>
      c ← aload buf (Z.of_nat i);
      if iswdigit c then
        if negb (c =? 57) then buf ← astore buf (Z.of_nat i) (u16 (c + 1)); Ok (buf, true, 0)
        else buf ← astore buf (Z.of_nat i) 48; succ_loop i buf true 49
      else if iswalpha c then
        let lower := islower c in
        let e := if lower then 122 else 90 in
        if negb (c =? e) then buf ← astore buf (Z.of_nat i) (u16 (c + 1)); Ok (buf, true, 0)
        else
          let a := if lower then 97 else 65 in
          buf ← astore buf (Z.of_nat i) a; succ_loop i buf true a
      else succ_loop i buf modified carry
  end.

Definition rb_str_succ (orig : rstr) : res rstr :=
  let len := RSTRING_LEN orig in
  if len =? 0 then Ok orig else
  buf ← cf_get (content orig) (CFRangeMake 0 len);
  '(buf, modified, carry) ← succ_loop (Z.to_nat len) buf false 0;
  buf ← (if negb modified then
           c ← aload buf (len - 1);
           astore buf (len - 1) (u16 (c + 1))
         else if negb (carry =? 0) then Ok (carry :: buf)
         else Ok buf);
  Ok (fresh_str (CFStringAppendCharacters CFStringCreateMutable buf)).

Definition rb_str_succ_bang (s : rstr) : res rstr :=
  t ← rb_str_succ s; rb_str_shared_replace safe_level s t.

(** A block that has a state; the flag says that it was left with [break]. *)
Section upto.
Context {B : Type} (yield : B → rstr → res (B * bool)).

(** The characters from [c] to [e] *)
Fixpoint upto_chars (fuel : nat) (c e : Z) (excl : bool) (b : B) : res B :=
  match fuel with
  | O => Err NoFuel
  | S fuel =>
      '(b, broken) ← yield b (fresh_str (CFStringAppendCharacters CFStringCreateMutable [c]));
      if broken : bool then Ok b else
      if negb excl && (c =? e) then Ok b else
      let c := u16 (c + 1) in
      if excl && (c =? e) then Ok b else upto_chars fuel c e excl b
  end.

Fixpoint upto_loop (fuel : nat) (current end_ after_end : rstr) (excl : bool) (b : B) : res B :=
  match fuel with
  | O => Err NoFuel
  | S fuel =>
      if CFEqual (content current) (content after_end) then Ok b else
      '(b, broken) ← yield b current;
      if broken : bool then Ok b else
      if negb excl && CFEqual (content current) (content end_) then Ok b else
      current ← rb_str_succ current;
      if excl && CFEqual (content current) (content end_) then Ok b else
      if (RSTRING_LEN end_ <? RSTRING_LEN current) || (RSTRING_LEN current =? 0) then Ok b else
      upto_loop fuel current end_ after_end excl b
  end.

Definition rb_str_upto (fuel : nat) (beg end_ : rstr) (excl : bool) (b : B) : res B :=
  if (RSTRING_LEN beg =? 1) && (RSTRING_LEN end_ =? 1) then
    c ← cf_char (content beg) 0;
    e ← cf_char (content end_) 0;
    if (e <? c) || (excl && (c =? e)) then Ok b else upto_chars (Z.to_nat (2 ^ 16)) c e excl b
  else
    let n := CFStringCompare (content beg) (content end_) in
    if (0 <? n) || (excl && (n =? 0)) then Ok b else
    after_end ← rb_str_succ end_;
    upto_loop fuel beg end_ after_end excl b.
End upto.

(** ** Reversal and case *)

(** [while (beg < end) { c = *beg; *beg++ = *end; *end-- = c; }] *)
Fixpoint swap_loop (fuel : nat) (b e : Z) (buf : list Z) : res (list Z) :=
  match fuel with
  | O => Err NoFuel
  | S fuel =>
      if b <? e then
        x ← aload buf b;
        y ← aload buf e;
        buf ← astore buf b y;
        buf ← astore buf e x;
        swap_loop fuel (b + 1) (e - 1) buf
      else Ok buf
  end.

(** The result, which for a string of one character is a copy, and the receiver.  The loops on a buffer of
    CoreFoundation itself, if there is one, exchange the same characters in place. *)
Definition rb_str_reverse_bang (s : rstr) : res (rstr * rstr) :=
  _ ← rb_str_modify s;
  let n := RSTRING_LEN s in
  if n <=? 1 then Ok (rb_str_dup s, s) else
  buffer ← cf_get (content s) (CFRangeMake 0 n);
  buffer ← swap_loop (Z.to_nat n) 0 (n - 1) buffer;
  let s := set_content s (CFStringReplaceAll (content s) (CFStringAppendCharacters CFStringCreateMutable buffer)) in
  Ok (s, s).
Definition rb_str_reverse (s : rstr) : res rstr :=
  '(_, obj) ← rb_str_reverse_bang (rb_str_dup s); Ok obj.

(** A method with [!] returns [nil] if nothing changed: the flag is [true] if it returns the receiver. *)
Definition rb_str_capitalize_bang (s : rstr) : res (bool * rstr) :=
  _ ← rb_str_modify s;
  let n := RSTRING_LEN s in
  if n =? 0 then Ok (false, s) else
  buffer ← cf_get (content s) (CFRangeMake 0 n);
  c0 ← aload buffer 0;
  '(buffer, changed) ←
    (if iswascii c0 && iswlower c0 then buffer ← astore buffer 0 (towupper c0); Ok (buffer, true) else Ok (buffer, false));
  '(buffer, changed) ←
    for_range 1 n (λ i '(buffer, changed),
      c0 ← aload buffer 0;
      c ← aload buffer i;
      if iswascii c0 && iswupper c then buffer ← astore buffer i (towlower c); Ok (buffer, true)
      else Ok (buffer, changed)) (buffer, changed);
  if negb changed then Ok (false, s) else
  Ok (true, set_content s (CFStringReplaceAll (content s) (CFStringAppendCharacters CFStringCreateMutable buffer))).

Definition rb_str_swapcase_bang (s : rstr) : res (bool * rstr) :=
  _ ← rb_str_modify s;
  let n := RSTRING_LEN s in
  if n =? 0 then Ok (false, s) else
  buffer ← cf_get (content s) (CFRangeMake 0 n);
  '(buffer, changed) ←
    for_range 0 n (λ i '(buffer, changed),
      c ← aload buffer i;
      if negb (iswascii c) then Ok (buffer, changed) else
      if iswlower c then buffer ← astore buffer i (towupper c); Ok (buffer, true) else
      if iswupper c then buffer ← astore buffer i (towlower c); Ok (buffer, true) else
      Ok (buffer, changed)) (buffer, false);
  if negb changed then Ok (false, s) else
  c ← cf_del (content s) (CFRangeMake 0 n);
  Ok (true, set_content s (CFStringAppendCharacters c buffer)).

(** A method without [!] works on a copy. *)
Definition on_copy (m : rstr → res (bool * rstr)) (s : rstr) : res rstr := '(_, t) ← m (rb_str_new3 s); Ok t.
Definition rb_str_capitalize : rstr → res rstr := on_copy rb_str_capitalize_bang.
Definition rb_str_swapcase : rstr → res rstr := on_copy rb_str_swapcase_bang.

(** ** Ends *)

Definition rb_str_chop_bang (s : rstr) : res (bool * rstr) :=
  let n := RSTRING_LEN s in
  if n =? 0 then Ok (false, s) else
  _ ← rb_str_modify s;
  p ← of_option BadPointer (RSTRING_PTR s);
  crlf ← (if 2 <=? n then
            c1 ← aload (p ++ [0]) (n - 1);
            if c1 =? 10 then c2 ← aload (p ++ [0]) (n - 2); Ok (c2 =? 13) else Ok false
          else Ok false);
  let r := if crlf : bool then CFRangeMake (n - 2) 2 else CFRangeMake (n - 1) 1 in
  c ← cf_del (content s) r;
  Ok (true, set_content s c).
Definition rb_str_chop : rstr → res rstr := on_copy rb_str_chop_bang.

(** The separator: [nil] is [None]; [default] says that it is the object [rb_default_rs]. *)
Definition rb_str_chomp_bang (s : rstr) (rs : option rstr) (default : bool) : res (bool * rstr) :=
  _ ← rb_str_modify s;
  match rs with
  | None => Ok (false, s)
  | Some rs =>
      let len := RSTRING_LEN s in
      if len =? 0 then Ok (false, s) else
      let rslen := RSTRING_LEN rs in
      newline ← (if default || (rslen =? 0) then Ok true
                 else if rslen =? 1 then c ← cf_char (content rs) 0; Ok (c =? 10) else Ok false);
      r ← (if newline : bool then
             c ← cf_char (content s) (len - 1);
             '(loc, n, c) ←
               (if c =? 10 then c ← cf_char (content s) (len - 1 - 1); Ok (len - 1, 1, c) else Ok (len, 0, c));
             Ok (if (c =? 13) && ((0 <? rslen) || negb (loc =? len)) then CFRangeMake (loc - 1) (n + 1)
                 else CFRangeMake loc n)
           else
             o ← cf_search (content s) (content rs) (CFRangeMake (len - rslen) rslen) false;
             Ok (match o with Some r => r | None => CFRangeMake len 0 end));
      if (rlength r =? 0) || (len <? location r + rlength r) then Ok (false, s) else
      c ← cf_del (content s) r;
      Ok (true, set_content s c)
  end.
Definition rb_str_chomp (s : rstr) (rs : option rstr) (default : bool) : res rstr :=
  on_copy (λ s, rb_str_chomp_bang s rs default) s.

(** The loops that look for the end of the white space: the index at which they stop *)
Fixpoint scan_down (i : nat) (buf : list Z) : res Z :=
  match i with
  | O => Ok (-1)
  | S i => c ← aload buf (Z.of_nat i); if negb (whitespace c) then Ok (Z.of_nat i) else scan_down i buf
  end.
Fixpoint scan_up (fuel : nat) (i n : Z) (buf : list Z) : res Z :=
  match fuel with
  | O => Err NoFuel
  | S fuel =>
      if i <? n then c ← aload buf i; if negb (whitespace c) then Ok i else scan_up fuel (i + 1) n buf else Ok i
  end.

(** The second loop reads the buffer after the end was cut off, but only below the cut. *)
Definition rb_str_strip_bang2 (s : rstr) (direction : Z) : res (bool * rstr) :=
  _ ← rb_str_modify s;
  let orig_n := RSTRING_LEN s in
  if orig_n =? 0 then Ok (false, s) else
  buf ← cf_get (content s) (CFRangeMake 0 orig_n);
  '(c, n) ←
    (if 0 <=? direction then
       i ← scan_down (Z.to_nat orig_n) buf;
       if i <? orig_n - 1 then
         let k := orig_n - i - 1 in
         c ← cf_del (content s) (CFRangeMake (i + 1) k);
         Ok (c, orig_n - k)
       else Ok (content s, orig_n)
     else Ok (content s, orig_n));
  c ←
    (if direction <=? 0 then
       i ← scan_up (Z.to_nat n + 1) 0 n buf;
       if 0 <? i then cf_del c (CFRangeMake 0 i) else Ok c
     else Ok c);
  Ok (negb (orig_n =? n), set_content s c).
Definition rb_str_lstrip_bang (s : rstr) : res (bool * rstr) := rb_str_strip_bang2 s (-1).
Definition rb_str_rstrip_bang (s : rstr) : res (bool * rstr) := rb_str_strip_bang2 s 1.
Definition rb_str_strip_bang (s : rstr) : res (bool * rstr) := rb_str_strip_bang2 s 0.
Definition rb_str_lstrip : rstr → res rstr := on_copy rb_str_lstrip_bang.
Definition rb_str_rstrip : rstr → res rstr := on_copy rb_str_rstrip_bang.
Definition rb_str_strip : rstr → res rstr := on_copy rb_str_strip_bang.

(** ** Padding *)

Fixpoint rb_str_justify0 (fuel : nat) (c pad : cfstring) (width padwidth index : Z) : res cfstring :=
  match fuel with
  | O => Err NoFuel
  | S fuel =>
      pad ← (if width <? padwidth then cf_sub pad (CFRangeMake 0 width) else Ok pad);
      c ← cf_ins c index pad;
      let width := width - padwidth in
      let index := index + padwidth in
      if 0 <? width then rb_str_justify0 fuel c pad width padwidth index else Ok c
  end.

Inductive jflag := JLeft | JRight | JCenter.

(** The pad string is a space if it is not given: [space].  [ceil(width / 2.0)] and [floor(width / 2.0)]
    are computed on integers, which doubles represent up to 2^53. *)
Definition rb_str_justify (space : cfstring) (s : rstr) (width : Z) (pad : option rstr) (j : jflag) : res rstr :=
  let '(pad, padwidth) :=
    match pad with None => (fresh_str space, 1) | Some pad => (pad, RSTRING_LEN pad) end in
  if padwidth =? 0 then Err (Raise ArgumentError) else
  let n := RSTRING_LEN s in
  let s := rb_str_new3 s in
  if (width <? 0) || (width <=? n) then Ok s else
  let width := width - n in
  let fuel := Z.to_nat (width + 1) in
  c ←
    match j with
    | JCenter =>
        c ← rb_str_justify0 fuel (content s) (content pad) ((width + 1) / 2) padwidth n;
        rb_str_justify0 fuel c (content pad) (width / 2) padwidth 0
    | JLeft => rb_str_justify0 fuel (content s) (content pad) width padwidth n
    | JRight => rb_str_justify0 fuel (content s) (content pad) width padwidth 0
    end;
  Ok (taint_if (s_tainted pad) (set_content s c)).
Definition rb_str_ljust (space : cfstring) (s : rstr) (w : Z) (pad : option rstr) : res rstr := rb_str_justify space s w pad JLeft.
Definition rb_str_rjust (space : cfstring) (s : rstr) (w : Z) (pad : option rstr) : res rstr := rb_str_justify space s w pad JRight.
Definition rb_str_center (space : cfstring) (s : rstr) (w : Z) (pad : option rstr) : res rstr := rb_str_justify space s w pad JCenter.

(** ** Checksum *)

(** [bits >= sizeof(long)*CHAR_BIT] compares as unsigned. *)
Definition rb_str_sum (s : rstr) (bits : Z) : res num :=
  p ← of_option BadPointer (RSTRING_PTR s);
  let len := RSTRING_LEN s in
  if 64 <=? u64 bits then
    sum ← for_range 0 len (λ i sum, c ← aload (p ++ [0]) i; int_plus sum (Fixnum c)) (Fixnum 0);
    if negb (bits =? 0) then
      m ← int_lshift (Fixnum 1) (Fixnum bits);
      m ← int_minus m (Fixnum 1);
      int_and sum m
    else Ok sum
  else
    sum ← for_range 0 len (λ i sum, c ← aload (p ++ [0]) i; Ok (u64 (sum + c))) 0;
    rb_int2inum (s64 (if negb (bits =? 0) then Z.land sum (Z.shiftl 1 bits - 1) else sum)).
End edit.

(** * string.c: characters, lines and fields *)

Section lines.
Context `{J : Junk} `{F : CFStrings}.

(** A block that has a state; the flag says that it was left with [break]. *)
Section each.
Context {B : Type} (yield : B → rstr → res (B * bool)).

(** The loop over the characters from the [i]th one on *)
Fixpoint each_char_loop (buf : list Z) (b : B) : res B :=
  match buf with
  | [] => Ok b
  | c :: buf =>
      '(b, broken) ← yield b (fresh_str (CFStringAppendCharacters CFStringCreateMutable [c]));
      if broken : bool then Ok b else each_char_loop buf b
  end.
Definition rb_str_each_char (s : rstr) (b : B) : res B :=
  buf ← cf_get (content s) (CFRangeMake 0 (RSTRING_LEN s));
  each_char_loop buf b.

(** [YIELD_SUBSTR] *)
Definition yield_substr (s : rstr) (r : CFRange) (b : B) : res (B * bool) :=
  c ← cf_sub (content s) r;
  yield b (taint_if (s_tainted s) (fresh_str (CFStringCreateMutableCopy c))).

(** The loop of [each_line]: the range of the line that is pending and where the search goes on;
    the result says whether the block was left. *)
Fixpoint each_line_loop (fuel : nat) (s rs : rstr) (zero_sep : bool) (sub : CFRange) (loc : Z) (b : B)
    : res (B * bool * CFRange * Z) :=
  match fuel with
  | O => Err NoFuel
  | S fuel =>
      let n := RSTRING_LEN s in
      o ← cf_search (content s) (content rs) (CFRangeMake loc (n - loc)) false;
      match o with
      | None => Ok (b, false, sub, loc)
      | Some r =>
          let loc' := location r + rlength r in
          if zero_sep && (0 <? rlength sub) && (location sub + rlength sub =? location r) then
            each_line_loop fuel s rs zero_sep (CFRangeMake (location sub) (rlength sub + rlength r)) loc' b
          else
            '(b, broken) ← (if 0 <? rlength sub then yield_substr s sub b else Ok (b, false));
            if broken : bool then Ok (b, true, sub, loc) else
            each_line_loop fuel s rs zero_sep (CFRangeMake loc (location r - loc + rlength r)) loc' b
      end
  end.

(** The separator: [None] is [nil]; the empty one is replaced by [default_rs]. *)
Definition rb_str_each_line (default_rs s : rstr) (rs : option rstr) (b : B) : res B :=
  match rs with
  | None => '(b, _) ← yield b s; Ok b
  | Some rs =>
      let zero_sep := RSTRING_LEN rs =? 0 in
      let rs := if zero_sep then default_rs else rs in
      let n := RSTRING_LEN s in
      '(b, broken, sub, loc) ← each_line_loop (Z.to_nat n + 1) s rs zero_sep (CFRangeMake 0 0) 0 b;
      if broken : bool then Ok b else
      '(b, broken) ← (if negb (rlength sub =? 0) then yield_substr s sub b else Ok (b, false));
      if broken : bool then Ok b else
      if loc <? n then '(b, _) ← yield_substr s (CFRangeMake loc (n - loc)) b; Ok b else Ok b
  end.
End each.

(** ** [split] *)

(** One search: the separator string, or white space *)
Definition split_find (s : rstr) (spat : option rstr) (loc : Z) : res (option CFRange) :=
  let r := CFRangeMake loc (RSTRING_LEN s - loc) in
  match spat with
  | Some spat => cf_search (content s) (content spat) r false
  | None => _ ← cf_in (content s) r; Ok (CFStringFindCharacterFromSet (content s) whitespace r)
  end.

(** The field before a match *)
Definition split_field (s : rstr) (awk : bool) (loc len : Z) (result : list rstr) : res (list rstr) :=
  if negb awk || (0 <? len) then
    o ← rb_str_subseq s loc len;
    t ← of_option BadPointer o;
    if awk then
      let t := set_content t (CFStringTrimWhitespace (content t)) in
      Ok (if 0 <? RSTRING_LEN t then result ++ [t] else result)
    else Ok (result ++ [t])
  else Ok result.

(** The loop; [limit] is [None] for [nil], otherwise the value of [lim]. *)
Fixpoint split_loop (fuel : nat) (s : rstr) (spat : option rstr) (awk : bool) (limit : option Z) (loc : Z) (result : list rstr)
    : res (Z * list rstr) :=
  match fuel with
  | O => Err NoFuel
  | S fuel =>
      o ← split_find s spat loc;
      match o with
      | None => Ok (loc, result)
      | Some r =>
          result ← split_field s awk loc (location r - loc) result;
          let loc := location r + rlength r in
          match limit with
          | None => split_loop fuel s spat awk None loc result
          | Some lim =>
              let lim := lim - 1 in
              if 1 <? lim then split_loop fuel s spat awk (Some lim) loc result else Ok (loc, result)
          end
      end
  end.

(** [while (RARRAY_LEN(result) > 0 && RSTRING_LEN(last) == 0) rb_ary_pop(result);] *)
Definition pop_empty (result : list rstr) : list rstr := trim_r (λ t, RSTRING_LEN t =? 0) result.

(** The pattern: [None] is [nil]; [fs] is the field separator [$;]. *)
Definition rb_str_split_m (fs : option rstr) (str : rstr) (spat : option rstr) (limit : option Z) : res (list rstr) :=
  let clen := RSTRING_LEN str in
  lim ← match limit with None => Ok 0 | Some l => rb_num2int (Fixnum l) end;
  if lim =? 1 then Ok (if clen =? 0 then [] else [str]) else
  let limited := 0 <? lim in
  let spat := match spat with None => fs | Some p => Some p end in
  awk ← match spat with
        | None => Ok true
        | Some p => if RSTRING_LEN p =? 1 then c ← cf_char (content p) 0; Ok (c =? 32) else Ok false
        end;
  '(beg, result) ← split_loop (Z.to_nat clen + 1) str spat awk (if limited then Some lim else None) 0 [];
  result ←
    (if (0 <? clen) && (limited || (beg <? clen) || (lim <? 0)) then
       if clen =? beg then Ok (result ++ [rb_str_new_empty])
       else o ← rb_str_subseq str beg (clen - beg); t ← of_option BadPointer o; Ok (result ++ [t])
     else Ok result);
  Ok (if negb limited && (lim =? 0) then pop_empty result else result).
End lines.
