(* ===== verification/StrSet.v ===== *)
(** * string.c: sets of characters

    [str_charset_find] reads the arguments of [count], [delete], [squeeze] and [tr] into a set of
    characters and calls a function on the runs of characters of the set, which may change the string
    and where the search goes on. *)

From S2P Require Import Prelude Util Big BigStr Numeric RArray CFString Str.

(** [CFMutableCharacterSetRef] *)
Class CFCharacterSets `{F : CFStrings} := {
  cfcharset : Type;
  CFCharacterSetCreateMutable : cfcharset;
  CFCharacterSetAddCharactersInRange : cfcharset → CFRange → cfcharset;
  CFCharacterSetAddCharactersInString : cfcharset → cfstring → cfcharset;
  CFCharacterSetInvert : cfcharset → cfcharset;
  CFCharacterSetIntersect : cfcharset → cfcharset → cfcharset;
  CFCharacterSetIsCharacterMember : cfcharset → Z → bool;
  (** from bytes in UTF-8; NULL if they are not *)
  CFStringCreateWithBytes : list Z → option cfstring
}.

Section sets.
Context `{J : Junk} `{F : CFStrings} `{S : !CFCharacterSets} (safe_level : Z).

(** ** Reading a set *)

(** The bytes of a C string before its NUL *)
Fixpoint before_nul (s : list Z) : list Z :=
  match s with [] => [] | c :: s => if c =? 0 then [] else c :: before_nul s end.

Definition schar (c : Z) : Z := if c <? 128 then c else c - 256.

(** [strchr(sptr + b, '-')], as an index; a search that starts behind the NUL reads outside of the string. *)
Definition strchr_dash (sptr : list Z) (b : Z) : res (option Z) :=
  if zlen sptr <? b then Err OutOfBounds else
  Ok ((λ i, b + i) <$> index_where (λ c, c =? 45) (drop (Z.to_nat b) sptr)).

Definition add_bytes (subset : cfcharset) (bs : list Z) : res cfcharset :=
  t ← of_option AssertFailed (CFStringCreateWithBytes bs);
  Ok (CFCharacterSetAddCharactersInString subset t).

Definition add_range (subset : cfcharset) (a z : Z) : res cfcharset :=
  _ ← check ((0 <=? a) && (0 <=? z - a + 1)) OutOfBounds;
  Ok (CFCharacterSetAddCharactersInRange subset (CFRangeMake a (z - a + 1))).

(** [while (p != NULL)]: the position [b] behind what was read, and the set *)
Fixpoint parse_ranges (fuel : nat) (sptr : list Z) (b : Z) (p : option Z) (subset : cfcharset) : res (Z * cfcharset) :=
  match fuel, p with
  | _, None => Ok (b, subset)
  | O, _ => Err NoFuel
  | Datatypes.S fuel, Some p =>
      subset ←
        (if b <? p then
           before ← aload (sptr ++ [0]) (p - 1);
           after ← aload (sptr ++ [0]) (p + 1);
           subset ← (if negb (before =? 92) && negb (after =? 0) then add_range subset (schar before) (schar after) else Ok subset);
           add_bytes subset (slice b (p - b) sptr)
         else Ok subset);
      if p =? b then Ok (b, subset) else
      let b := p + 2 in
      p ← strchr_dash sptr b;
      parse_ranges fuel sptr b p subset
  end.

(** The set of one argument *)
Definition parse_charset (s : rstr) : res cfcharset :=
  ptr ← of_option BadPointer (RSTRING_PTR s);
  let sptr := before_nul ptr in
  c0 ← aload (sptr ++ [0]) 0;
  let exclude := c0 =? 94 in
  p ← (if exclude then Ok None else strchr_dash sptr 0);
  if exclude || negb (bool_decide (p = None)) then
    let b := if exclude then 1 else 0 in
    p ← match p with None => strchr_dash sptr b | Some _ => Ok p end;
    '(b, subset) ← parse_ranges (Datatypes.S (length sptr)) sptr b p CFCharacterSetCreateMutable;
    let e := zlen sptr - 1 in
    subset ← (if b <=? e then add_bytes subset (slice b (e - b + 1) sptr) else Ok subset);
    Ok (if exclude then CFCharacterSetInvert subset else subset)
  else Ok (CFCharacterSetAddCharactersInString CFCharacterSetCreateMutable (content s)).

(** The intersection of the sets of the arguments *)
Fixpoint parse_charsets (acc : option cfcharset) (args : list rstr) : res (option cfcharset) :=
  match args with
  | [] => Ok acc
  | s :: args =>
      subset ← parse_charset s;
      parse_charsets (Some (match acc with None => subset | Some c => CFCharacterSetIntersect c subset end)) args
  end.

(** ** The search *)

Section find.
Context {X : Type}.

(** The function that is called: the range to search, the run, the string, the character and the
    context; it returns the new range, string and context. *)
Definition callback : Type := CFRange → CFRange → cfstring → Z → X → res (CFRange * cfstring * X).

(** The variables of the loops *)
Record scan := mk_scan {
  search_range : CFRange; result_range : CFRange; previous_char : Z; str : cfstring; ctx : X
}.

Definition search_end (s : scan) : Z := location (search_range s) + rlength (search_range s).

(** The loop over the characters from [i] on; the flag is [mutated]. *)
Fixpoint scan_loop (fuel : nat) (cb : callback) (charset : cfcharset) (squeeze_mode : bool) (buf : list Z) (n i : Z) (s : scan)
    : res (scan * bool) :=
  match fuel with
  | O => Err NoFuel
  | Datatypes.S fuel =>
      if negb (i <? search_end s) then Ok (s, false) else
      c ← aload buf i;
      if negb (CFCharacterSetIsCharacterMember charset c) then scan_loop fuel cb charset squeeze_mode buf n (i + 1) s else
      let r := result_range s in
      if rlength r =? 0 then
        scan_loop fuel cb charset squeeze_mode buf n (i + 1) (mk_scan (search_range s) (CFRangeMake i 1) c (str s) (ctx s))
      else if (location r + rlength r =? i) && (negb squeeze_mode || (previous_char s =? c)) then
        scan_loop fuel cb charset squeeze_mode buf n (i + 1)
          (mk_scan (search_range s) (CFRangeMake (location r) (rlength r + 1)) (previous_char s) (str s) (ctx s))
      else
        '(sr, t, x) ← cb (search_range s) r (str s) (previous_char s) (ctx s);
        let e := location sr + rlength sr in
        if e <? n then Ok (mk_scan sr (CFRangeMake (i - (n - e)) 1) c t x, true)
        else scan_loop fuel cb charset squeeze_mode buf n (i + 1) (mk_scan sr (CFRangeMake i 1) c t x)
  end.

(** The loop that starts again after the string was changed; [buf] are the characters of the string
    when the search, or the search after the last change, began. *)
Fixpoint find_loop (fuel : nat) (cb : callback) (charset : cfcharset) (squeeze_mode : bool) (buf : list Z) (n : Z) (s : scan) : res scan :=
  match fuel with
  | O => Err NoFuel
  | Datatypes.S fuel =>
      '(buf, n) ←
        (if search_end s <? n then
           buf ← cf_get (str s) (CFRangeMake 0 (search_end s)); Ok (buf, search_end s)
         else Ok (buf, n));
      let s := mk_scan (search_range s) (CFRangeMake (location (result_range s)) 0) (previous_char s) (str s) (ctx s) in
      '(s, mutated) ← scan_loop (Datatypes.S (length buf)) cb charset squeeze_mode buf n (location (search_range s)) s;
      if mutated : bool then
        (if negb (rlength (search_range s) =? 0) && negb (rlength (result_range s) =? 0)
         then find_loop fuel cb charset squeeze_mode buf n s else Ok s)
      else
        if negb (rlength (result_range s) =? 0) then
          '(sr, t, x) ← cb (search_range s) (result_range s) (str s) (previous_char s) (ctx s);
          Ok (mk_scan sr (CFRangeMake (location (result_range s)) 0) 0 t x)
        else Ok s
  end.

Definition str_charset_find (c : cfstring) (charsets : list rstr) (squeeze_mode : bool) (cb : callback) (x : X) : res (cfstring * X) :=
  if bool_decide (charsets = []) then Ok (c, x) else
  let n := CFStringGetLength c in
  if n =? 0 then Ok (c, x) else
  o ← parse_charsets None charsets;
  charset ← of_option BadPointer o;
  buf ← cf_get c (CFRangeMake 0 n);
  s ← find_loop (Datatypes.S (Z.to_nat n)) cb charset squeeze_mode buf n (mk_scan (CFRangeMake 0 n) (CFRangeMake 0 0) 0 c x);
  Ok (str s, ctx s).
End find.

(** ** [delete], [squeeze] and [count] *)

Definition rb_str_delete_bang_cb : callback (X := bool) := λ sr r t _ _,
  t ← cf_del t r;
  Ok (CFRangeMake (location r) (rlength sr - (rlength r + (location r - location sr))), t, true).

Definition rb_str_delete_bang (s : rstr) (argv : list rstr) : res (bool * rstr) :=
  if zlen argv <? 1 then Err (Raise ArgumentError) else
  _ ← rb_str_modify safe_level s;
  '(c, changed) ← str_charset_find (content s) argv false rb_str_delete_bang_cb false;
  Ok (changed, set_content s c).

Definition rb_str_squeeze_bang_cb : callback (X := bool) := λ sr r t _ changed,
  if 1 <? rlength r then
    t ← cf_del t (CFRangeMake (location r) (rlength r - 1));
    Ok (CFRangeMake (location r + 1) (rlength sr - (rlength r + (location r - location sr))), t, true)
  else Ok (sr, t, changed).

(** [CFSTR("a-z")] is the argument [all_chars]. *)
Definition rb_str_squeeze_bang (all_chars : cfstring) (s : rstr) (argv : list rstr) : res (bool * rstr) :=
  let argv := if zlen argv =? 0 then [fresh_str all_chars] else argv in
  _ ← rb_str_modify safe_level s;
  '(c, changed) ← str_charset_find (content s) argv true rb_str_squeeze_bang_cb false;
  Ok (changed, set_content s c).

Definition rb_str_count_cb : callback (X := Z) := λ sr r t _ count, Ok (sr, t, s32 (count + rlength r)).

Definition rb_str_count (s : rstr) (argv : list rstr) : res Z :=
  if zlen argv <? 1 then Err (Raise ArgumentError) else
  '(_, count) ← str_charset_find (content s) argv false rb_str_count_cb 0;
  Ok count.

(** ** [tr] *)

(** [struct tr_trans_cb_ctx]; [opt] is made when it is first used. *)
Record tr_trans_cb_ctx := mk_tr {
  orepl : rstr; tr_src : list Z; tr_repl : list Z; sflag : bool; changed : bool; opt : option cfstring
}.
Definition set_changed (x : tr_trans_cb_ctx) : tr_trans_cb_ctx := mk_tr (orepl x) (tr_src x) (tr_repl x) (sflag x) true (opt x).
Definition set_opt (x : tr_trans_cb_ctx) (o : cfstring) : tr_trans_cb_ctx :=
  mk_tr (orepl x) (tr_src x) (tr_repl x) (sflag x) (changed x) (Some o).

Definition trans_replace (t : cfstring) (r : CFRange) (substr : cfstring) (sr : CFRange) (sflag : bool) : res (CFRange * cfstring) :=
  _ ← check (location r + rlength r <=? CFStringGetLength t) AssertFailed;
  if negb sflag then
    t ← for_range (location r) (location r + rlength r) (λ n t, cf_repl t (CFRangeMake n 1) substr) t;
    Ok (sr, t)
  else
    t ← cf_repl t r substr;
    Ok (CFRangeMake (location r + 1) (CFStringGetLength t - (location r + 1)), t).

(** The string of one byte of [repl], kept in [opt] *)
Definition use_opt (x : tr_trans_cb_ctx) (i : Z) : res (cfstring * tr_trans_cb_ctx) :=
  match opt x with
  | Some o => Ok (o, x)
  | None =>
      b ← aload (tr_repl x ++ [0]) i;
      o ← of_option BadPointer (CFStringCreateWithBytes [b]);
      Ok (o, set_opt x o)
  end.

(** [src] or [repl] is a single range, or has no range at all. *)
Definition tr_range (l : list Z) : res (option (Z * Z)) :=
  match l with
  | [b; m; e] => if m =? 45 then Ok (Some (schar b, schar e)) else
      if (b =? 94) || bool_decide (45 ∈ l) then Err (Raise RuntimeError) else Ok None
  | _ => if (default 0 (head l) =? 94) || bool_decide (45 ∈ l) then Err (Raise RuntimeError) else Ok None
  end.

(** The substitute of a character, when both strings are longer than one *)
Definition tr_substr (character : Z) (x : tr_trans_cb_ctx) : res (cfstring * tr_trans_cb_ctx) :=
  s_range ← tr_range (tr_src x);
  r_range ← tr_range (tr_repl x);
  delta ←
    match s_range with
    | Some (sb, se) => _ ← check ((sb <=? character) && (character <=? se)) AssertFailed; Ok (character - sb)
    | None => of_option AssertFailed (index_where (λ c, schar c =? schar (Z.land character 255)) (tr_src x ++ [0]))
    end;
  let repl_len := zlen (tr_repl x) in
  let beyond := match r_range with Some (rb, re) => re - rb <? delta | None => repl_len <? delta end in
  if beyond : bool then use_opt x (repl_len - 1)
  else
    r ← match r_range with Some (rb, _) => Ok (Z.land (rb + delta) 255) | None => aload (tr_repl x ++ [0]) delta end;
    t ← of_option BadPointer (CFStringCreateWithBytes [r]);
    Ok (t, x).

Definition rb_str_trans_cb : callback (X := tr_trans_cb_ctx) := λ sr r t character x,
  let repl_len := zlen (tr_repl x) in
  if repl_len =? 0 then
    t ← cf_del t r;
    Ok (CFRangeMake (location r) (rlength sr - (rlength r + (location r - location sr))), t, set_changed x)
  else
    '(substr, x) ←
      (if repl_len =? 1 then Ok (content (orepl x), x)
       else if zlen (tr_src x) =? 1 then use_opt x 0
       else tr_substr character x);
    '(sr, t) ← trans_replace t r substr sr (sflag x);
    Ok (sr, t, set_changed x).

Definition tr_trans (s src repl : rstr) (sflag : bool) : res (bool * rstr) :=
  if RSTRING_LEN s =? 0 then Ok (false, s) else
  _ ← rb_str_modify safe_level s;
  psrc ← of_option AssertFailed (RSTRING_PTR src);
  prepl ← of_option AssertFailed (RSTRING_PTR repl);
  let x := mk_tr repl (before_nul psrc) (before_nul prepl) sflag false None in
  '(c, x) ← str_charset_find (content s) [src] (1 <? zlen (tr_repl x)) rb_str_trans_cb x;
  Ok (changed x, set_content s c).

Definition rb_str_tr_bang (s src repl : rstr) : res (bool * rstr) := tr_trans s src repl false.
Definition rb_str_tr_s_bang (s src repl : rstr) : res (bool * rstr) := tr_trans s src repl true.
Definition rb_str_tr (s src repl : rstr) : res rstr := '(_, t) ← rb_str_tr_bang (rb_str_new3 s) src repl; Ok t.
Definition rb_str_tr_s (s src repl : rstr) : res rstr := '(_, t) ← rb_str_tr_s_bang (rb_str_new3 s) src repl; Ok t.
Definition rb_str_delete (s : rstr) (argv : list rstr) : res rstr := '(_, t) ← rb_str_delete_bang (rb_str_new3 s) argv; Ok t.
Definition rb_str_squeeze (all_chars : cfstring) (s : rstr) (argv : list rstr) : res rstr :=
  '(_, t) ← rb_str_squeeze_bang all_chars (rb_str_new3 s) argv; Ok t.
End sets.
