(* ===== verification/StrSpec.v ===== *)
(** * Strings as lists of characters

    The calls of CoreFoundation with their preconditions, and the methods that copy, take, replace and
    find parts, in terms of the characters of a string. *)

From S2P Require Import Prelude Util Big BigStr Numeric RArray CFString Str.

(** ** Slices *)

Section slices.
Context {A : Type}.
Implicit Types l : list A.

Lemma slice_take n l : slice 0 n l = take (Z.to_nat n) l.
Proof. done. Qed.

Lemma zlen_slice b n l : 0 ≤ b → 0 ≤ n → b + n ≤ zlen l → zlen (slice b n l) = n.
Proof. intros. unfold slice, zlen in *. rewrite length_take, length_drop. lia. Qed.

Lemma slice_rest b l : 0 ≤ b ≤ zlen l → slice b (zlen l - b) l = drop (Z.to_nat b) l.
Proof. intros. unfold slice, zlen in *. apply take_ge. rewrite length_drop. lia. Qed.

Lemma slice_nil b n : slice b n (@nil A) = [].
Proof. unfold slice. by rewrite drop_nil, take_nil. Qed.

Lemma slice_0 b l : slice b 0 l = [].
Proof. done. Qed.

Lemma zlookup_slice b n l i : 0 ≤ b → 0 ≤ i < n → zlookup (slice b n l) i = zlookup l (b + i).
Proof. intros. unfold slice. rewrite zlookup_take, zlookup_drop by lia. done. Qed.

Lemma slice_1 b l x : zlookup l b = Some x → slice b 1 l = [x].
Proof.
  intros H. pose proof (zlookup_Some_range _ _ _ H). rewrite zlookup_nonneg in H by lia. unfold slice.
  rewrite (drop_S l x) by done. done.
Qed.

(** A list is what is before, in and after a slice. *)
Lemma slice_split b n l : 0 ≤ b → 0 ≤ n → slice 0 b l ++ slice b n l ++ drop (Z.to_nat (b + n)) l = l.
Proof.
  intros. unfold slice. cbn [drop]. replace (Z.to_nat (b + n)) with (Z.to_nat b + Z.to_nat n)%nat by lia.
  change (drop (Z.to_nat 0) l) with l. rewrite <-drop_drop, take_drop. apply take_drop.
Qed.
End slices.

(** ** Trimming *)

Section trimming.
Context {A : Type} (p : A → bool).

Lemma trim_r_snoc l x : p x = true → trim_r p (l ++ [x]) = trim_r p l.
Proof. intros H. unfold trim_r. rewrite reverse_snoc. cbn. by rewrite H. Qed.

Lemma trim_r_keep l x : p x = false → trim_r p (l ++ [x]) = l ++ [x].
Proof. intros H. unfold trim_r. rewrite reverse_snoc. cbn [drop_while]. by rewrite H, reverse_cons, reverse_involutive. Qed.

Lemma trim_r_prefix l : ∃ k, l = trim_r p l ++ k.
Proof.
  induction l as [|x l [k IH]] using rev_ind; [by exists []|]. destruct (p x) eqn:E.
  - rewrite trim_r_snoc by done. exists (k ++ [x]). by rewrite app_assoc, <-IH.
  - exists []. by rewrite trim_r_keep, app_nil_r.
Qed.

Lemma drop_while_suffix l : ∃ k, l = k ++ drop_while p l.
Proof. induction l as [|x l [k IH]]; [by exists []|]. cbn. destruct (p x); [|by exists []]. exists (x :: k). cbn. by rewrite <-IH. Qed.
End trimming.

Section str_spec.
Context `{F : CFStrings} `{L : !CFStringLaws} (safe_level : Z).
Implicit Types s t : rstr.

Definition schars (s : rstr) : list Z := chars (content s).
Definition ascii_of (s : rstr) : Prop := ascii_str (content s).

(** The block that keeps the characters of what it is given *)
Definition collect (acc : list (list Z)) (s : rstr) : res (list (list Z) * bool) := Ok (acc ++ [schars s], false).

(** A string that can be changed *)
Definition writable (s : rstr) : Prop :=
  s_frozen s = false ∧ s_immutable s = false ∧ (s_tainted s = true → safe_level < 4).

Lemma len_schars s : RSTRING_LEN s = zlen (schars s).
Proof. apply cf_length. Qed.

Lemma in_bounds_true c b n : 0 ≤ b → 0 ≤ n → b + n ≤ zlen (chars c) → in_bounds c (CFRangeMake b n) = true.
Proof. intros. unfold in_bounds. cbn. rewrite cf_length, !(proj2 (Z.leb_le _ _)) by lia. done. Qed.

Lemma in_bounds_false c b n : b < 0 ∨ n < 0 ∨ zlen (chars c) < b + n → in_bounds c (CFRangeMake b n) = false.
Proof.
  intros H. unfold in_bounds. cbn. rewrite cf_length.
  destruct (Z.leb_spec 0 b), (Z.leb_spec 0 n), (Z.leb_spec (b + n) (zlen (chars c))); done || lia.
Qed.

Lemma cf_in_ok c b n : 0 ≤ b → 0 ≤ n → b + n ≤ zlen (chars c) → cf_in c (CFRangeMake b n) = Ok ().
Proof. intros. unfold cf_in. by rewrite in_bounds_true. Qed.

Lemma cf_get_ok c b n : 0 ≤ b → 0 ≤ n → b + n ≤ zlen (chars c) → cf_get c (CFRangeMake b n) = Ok (slice b n (chars c)).
Proof. intros. unfold cf_get. rewrite cf_in_ok by done. cbn [mbind res_bind]. by rewrite cf_characters by by apply in_bounds_true. Qed.

Lemma cf_get_fault c b n : b < 0 ∨ n < 0 ∨ zlen (chars c) < b + n → cf_get c (CFRangeMake b n) = Err OutOfBounds.
Proof. intros. unfold cf_get, cf_in. by rewrite in_bounds_false. Qed.

Lemma cf_char_ok c i x : zlookup (chars c) i = Some x → cf_char c i = Ok x.
Proof.
  intros H. pose proof (zlookup_Some_range _ _ _ H). unfold cf_char. rewrite cf_in_ok by lia. cbn [mbind res_bind].
  rewrite cf_character_at in H by (rewrite cf_length; lia). by injection H as ->.
Qed.

Lemma cf_char_fault c i : ¬ (0 ≤ i < zlen (chars c)) → cf_char c i = Err OutOfBounds.
Proof. intros. unfold cf_char, cf_in. rewrite in_bounds_false by lia. done. Qed.

Lemma cf_sub_ok c b n : 0 ≤ b → 0 ≤ n → b + n ≤ zlen (chars c) →
  returns (cf_sub c (CFRangeMake b n)) (λ u, chars u = slice b n (chars c)).
Proof. intros. unfold cf_sub. rewrite cf_in_ok by done. apply returns_ret. by rewrite cf_substring by by apply in_bounds_true. Qed.

Lemma cf_del_ok c b n : 0 ≤ b → 0 ≤ n → b + n ≤ zlen (chars c) →
  returns (cf_del c (CFRangeMake b n)) (λ u, chars u = take (Z.to_nat b) (chars c) ++ drop (Z.to_nat (b + n)) (chars c)).
Proof. intros. unfold cf_del. rewrite cf_in_ok by done. apply returns_ret. by rewrite cf_delete by by apply in_bounds_true. Qed.

Lemma cf_repl_ok c b n v : 0 ≤ b → 0 ≤ n → b + n ≤ zlen (chars c) →
  returns (cf_repl c (CFRangeMake b n) v) (λ u, chars u = take (Z.to_nat b) (chars c) ++ chars v ++ drop (Z.to_nat (b + n)) (chars c)).
Proof. intros. unfold cf_repl. rewrite cf_in_ok by done. apply returns_ret. by rewrite cf_replace by by apply in_bounds_true. Qed.

Lemma cf_ins_ok c i v : 0 ≤ i ≤ zlen (chars c) →
  returns (cf_ins c i v) (λ u, chars u = take (Z.to_nat i) (chars c) ++ chars v ++ drop (Z.to_nat i) (chars c)).
Proof. intros. unfold cf_ins. rewrite cf_in_ok by lia. apply returns_ret. by rewrite cf_insert by (rewrite cf_length; lia). Qed.

Lemma cf_search_ok c d b n back : ascii_str c → ascii_str d → chars d ≠ [] → 0 ≤ b → 0 ≤ n → b + n ≤ zlen (chars c) →
  cf_search c d (CFRangeMake b n) back =
    Ok ((λ i, CFRangeMake (b + i) (zlen (chars d))) <$> (if back then last_index_of else index_of) (chars d) (slice b n (chars c))).
Proof.
  intros. unfold cf_search. rewrite cf_in_ok by done. cbn [mbind res_bind]. f_equal.
  destruct back; [rewrite cf_find_last|rewrite cf_find]; try done; try (by apply in_bounds_true); by rewrite cf_length.
Qed.

(** ** Objects *)

Lemma modify_ok s : writable s → rb_str_modify safe_level s = Ok ().
Proof.
  intros (Hf & Hi & Ht). unfold rb_str_modify, str_modifiable. rewrite Hf, Hi. cbn [orb].
  destruct (s_tainted s); cbn [andb]; [|done]. by rewrite (proj2 (Z.leb_gt _ _)) by auto.
Qed.

Lemma modify_frozen s : s_frozen s = true → rb_str_modify safe_level s = Err (Raise RuntimeError).
Proof. intros H. unfold rb_str_modify, str_modifiable. by rewrite H. Qed.

Lemma schars_taint b s : schars (taint_if b s) = schars s.
Proof. by destruct b. Qed.

Lemma schars_dup s : schars (rb_str_dup s) = schars s.
Proof. unfold rb_str_dup. rewrite schars_taint. apply cf_copy. Qed.

Lemma writable_dup s : (s_tainted s = true → safe_level < 4) → writable (rb_str_dup s).
Proof. unfold writable, rb_str_dup, taint_if. by destruct (s_tainted s). Qed.

Lemma schars_fresh_chars l : schars (fresh_str (CFStringAppendCharacters CFStringCreateMutable l)) = l.
Proof. unfold schars. cbn. by rewrite cf_append_chars, cf_create. Qed.

Lemma schars_empty : schars rb_str_new_empty = [].
Proof. apply cf_create. Qed.

Lemma schars_plus s t : schars (rb_str_plus s t) = schars s ++ schars t.
Proof. unfold rb_str_plus. rewrite schars_taint. unfold schars. cbn. by rewrite !cf_append, cf_create. Qed.

Lemma append_spec s t : writable s → returns (rb_str_append safe_level s t) (λ s', schars s' = schars s ++ schars t ∧ writable s').
Proof.
  intros Hw. unfold rb_str_append. rewrite modify_ok by done. apply returns_ret. split; [|done]. unfold schars. cbn. apply cf_append.
Qed.

(** ** Parts *)

(** The beginning of a part, from the end if it is negative *)
Definition norm_beg (l : list Z) (b : Z) : Z := if b <? 0 then b + zlen l else b.
Definition norm_len (l : list Z) (b n : Z) : Z := Z.min n (zlen l - b).

Lemma subseq_spec s b n : zlen (schars s) < 2 ^ 62 → - 2 ^ 62 ≤ b < 2 ^ 62 → 0 ≤ n < 2 ^ 62 →
  let l := schars s in let b' := norm_beg l b in
  returns (rb_str_subseq s b n) (λ o,
    if decide (0 ≤ b' ≤ zlen l) then ∃ t, o = Some t ∧ schars t = slice b' (norm_len l b' n) l ∧ s_tainted t = false else o = None).
Proof.
  intros Hl Hb Hn l b'. unfold rb_str_subseq. rewrite len_schars. fold l. fold l in Hl. fold (norm_beg l b). fold b'.
  assert (- 2 ^ 63 ≤ b' < 2 ^ 63) as Hb' by (unfold b', norm_beg; pose proof (zlen_nonneg l); destruct (Z.ltb_spec b 0); lia).
  clearbody b'. destruct (decide (0 ≤ b' ≤ zlen l)) as [Hin|Hout].
  2: { destruct (Z.ltb_spec (zlen l) b'), (Z.ltb_spec b' 0); cbn [orb]; try (by apply returns_ret); lia. }
  rewrite (proj2 (Z.ltb_ge (zlen l) b')), (proj2 (Z.ltb_ge b' 0)) by lia. cbn [orb]. rewrite s64_small by lia.
  assert ((if zlen l <? b' + n then zlen l - b' else n) = norm_len l b' n) as ->.
  { unfold norm_len. destruct (Z.ltb_spec (zlen l) (b' + n)); lia. }
  set (m := norm_len l b' n). assert (0 ≤ m ∧ b' + m ≤ zlen l) as [Hm0 Hm] by (unfold m, norm_len; lia).
  destruct (Z.eqb_spec m 1) as [E|E].
  - destruct (zlookup_is_Some l b') as [x Hx]; [lia|]. rewrite (cf_char_ok _ _ x) by done. cbn [mbind res_bind]. apply returns_ret.
    eexists. split_and!; [done| |done]. rewrite schars_fresh_chars, E. by rewrite (slice_1 _ _ x).
  - rewrite cf_get_ok; [|lia|lia|done]. cbn [mbind res_bind]. apply returns_ret. eexists. split_and!; [done| |done]. apply schars_fresh_chars.
Qed.

(** A negative length reads outside of the string, if the position is inside. *)
Lemma subseq_negative s b n : zlen (schars s) < 2 ^ 62 → - 2 ^ 62 ≤ b < 2 ^ 62 → - 2 ^ 62 ≤ n < 0 →
  rb_str_subseq s b n = if decide (0 ≤ norm_beg (schars s) b ≤ zlen (schars s)) then Err OutOfBounds else Ok None.
Proof.
  intros Hl Hb Hn. unfold rb_str_subseq. rewrite len_schars. fold (norm_beg (schars s) b).
  assert (norm_beg (schars s) b < 2 ^ 62) as Hb' by (unfold norm_beg; destruct (Z.ltb_spec b 0); lia).
  revert Hb'. generalize (norm_beg (schars s) b). intros b' Hb'. destruct (decide _) as [Hin|Hout].
  2: { destruct (Z.ltb_spec (zlen (schars s)) b'), (Z.ltb_spec b' 0); cbn [orb]; try done; lia. }
  rewrite (proj2 (Z.ltb_ge (zlen _) b')), (proj2 (Z.ltb_ge b' 0)) by lia. cbn [orb]. rewrite s64_small by lia.
  rewrite (proj2 (Z.ltb_ge _ (b' + n))), (proj2 (Z.eqb_neq n 1)) by lia. rewrite cf_get_fault by lia. done.
Qed.

Lemma splice_negative s b n v : n < 0 → rb_str_splice safe_level s b n v = Err (Raise IndexError).
Proof. intros Hn. unfold rb_str_splice. by rewrite (proj2 (Z.ltb_lt n 0)). Qed.

Lemma splice_spec s b n v : zlen (schars s) < 2 ^ 62 → - 2 ^ 62 ≤ b < 2 ^ 62 → 0 ≤ n < 2 ^ 62 → writable s →
  let l := schars s in let b' := norm_beg l b in
  if decide (0 ≤ b' ≤ zlen l) then
    returns (rb_str_splice safe_level s b n v) (λ s',
      schars s' = take (Z.to_nat b') l ++ schars v ++ drop (Z.to_nat (b' + norm_len l b' n)) l ∧
      s_frozen s' = false ∧ s_immutable s' = false ∧ s_tainted s' = s_tainted s || s_tainted v)
  else rb_str_splice safe_level s b n v = Err (Raise IndexError).
Proof.
  intros Hl Hb Hn Hw l b'. fold l in Hl. unfold rb_str_splice. rewrite (proj2 (Z.ltb_ge n 0)) by lia.
  rewrite (modify_ok s Hw). cbn [mbind res_bind]. rewrite len_schars. fold l.
  assert ((if zlen l <? b then Err (Raise IndexError) else if b <? 0 then if zlen l <? s64 (- b) then Err (Raise IndexError) else Ok (b + zlen l) else Ok b) =
    if decide (0 ≤ b' ≤ zlen l) then Ok b' else Err (Raise IndexError : fault)) as E.
  { rewrite s64_small by lia. unfold b', norm_beg. pose proof (zlen_nonneg l).
    destruct (Z.ltb_spec b 0), (Z.ltb_spec (zlen l) b), (decide _); try lia; try done.
    - by rewrite (proj2 (Z.ltb_ge _ _)) by lia.
    - by rewrite (proj2 (Z.ltb_lt _ _)) by lia. }
  destruct (zlen l <? b).
  { destruct (decide _); [done|]. done. }
  rewrite E. destruct (decide (0 ≤ b' ≤ zlen l)); [|done]. cbn [mbind res_bind]. rewrite s64_small by lia.
  assert ((if (zlen l <? n) || (zlen l <? b' + n) then zlen l - b' else n) = norm_len l b' n) as ->.
  { unfold norm_len. destruct (Z.ltb_spec (zlen l) n), (Z.ltb_spec (zlen l) (b' + n)); cbn [orb]; lia. }
  unfold rb_str_splice_0. rewrite (modify_ok s Hw). cbn [mbind res_bind].
  destruct (cf_repl_ok (content s) b' (norm_len l b' n) (content v)) as (c & -> & Hc); [lia|unfold norm_len; lia|change (chars (content s)) with l; unfold norm_len; lia|].
  cbn [mbind res_bind]. apply returns_ret. rewrite schars_taint. split; [apply Hc|]. destruct Hw as (Hfr & Him & _).
  unfold taint_if. destruct (s_tainted v); cbn; by rewrite ?orb_true_r, ?orb_false_r.
Qed.

(** What [slice!] takes away, [insert] puts back. *)
Lemma slice_insert s b n : zlen (schars s) < 2 ^ 62 → 0 ≤ b ≤ zlen (schars s) → 0 ≤ n < 2 ^ 62 → writable s →
  let l := schars s in let m := norm_len l b n in
  returns (rb_str_slice_bang safe_level s (ISlice b n)) (λ '(o, s'), ∃ t, o = Some t ∧ schars t = slice b m l ∧
    schars s' = take (Z.to_nat b) l ++ drop (Z.to_nat (b + m)) l ∧
    returns (rb_str_insert safe_level s' b t) (λ s'', schars s'' = l)).
Proof.
  intros Hl Hb Hn Hw l m. assert (0 ≤ m ≤ zlen l - b) as Hm by (unfold m, norm_len; fold l in Hb; lia).
  unfold rb_str_slice_bang. rewrite (modify_ok s Hw). cbn [mbind res_bind rb_str_aref]. unfold rb_str_substr.
  assert (∀ k, norm_beg k b = b) as Hnb by (intros; unfold norm_beg; by rewrite (proj2 (Z.ltb_ge _ _)) by lia).
  eapply returns_bind_mono; [apply subseq_spec; lia|]. cbv zeta. rewrite Hnb. intros o Ho. rewrite decide_True in Ho by done. destruct Ho as (t & -> & Et & Htt).
  cbn [rb_str_aset]. pose proof (splice_spec s b n rb_str_new_empty Hl ltac:(lia) Hn Hw) as Hsp. cbv zeta in Hsp. rewrite Hnb, decide_True in Hsp by done.
  eapply returns_bind_mono; [apply Hsp|]. intros s' (Es' & Hf & Hi & Hta). apply returns_ret. exists t. rewrite schars_empty in Es'. cbn [app] in Es'. fold l in Es', Et. fold m in Es', Et.
  assert (zlen (schars s') = zlen l - m) as Hz by (rewrite Es', zlen_app, zlen_take, zlen_drop by lia; lia).
  split_and!; [done|done|done|]. fold l in Hl, Hb. unfold rb_str_insert. rewrite (proj2 (Z.eqb_neq b (-1))), (proj2 (Z.ltb_ge b 0)) by lia.
  pose proof (splice_spec s' b 0 t) as Hsp'. cbv zeta in Hsp'. rewrite Hnb, decide_True in Hsp' by lia.
  eapply returns_mono; [apply Hsp'|].
  - lia.
  - lia.
  - lia.
  - split_and!; [done|done|]. rewrite Hta. destruct Hw as (_ & _ & Ht). cbn. by rewrite orb_false_r.
  - intros s'' [-> _]. replace (b + norm_len (schars s') b 0) with b by (unfold norm_len; lia). rewrite Es', Et.
    etransitivity; [|apply (slice_split b m l); lia]. rewrite slice_take.
    assert (length (take (Z.to_nat b) l) = Z.to_nat b) as Hlt by (rewrite length_take; unfold zlen in *; lia).
    rewrite take_app_le, take_ge by lia. rewrite drop_app_le, drop_ge by lia. done.
Qed.

(** ** Searching *)

Lemma index_spec s t off : ascii_of s → ascii_of t → schars t ≠ [] → 0 ≤ off ≤ zlen (schars s) →
  rb_str_index s t off = Ok (match index_of (schars t) (drop (Z.to_nat off) (schars s)) with Some i => off + i | None => -1 end).
Proof.
  intros Hs Ht Hne Hoff. unfold rb_str_index. rewrite len_schars.
  rewrite cf_search_ok; [|done|done|done|lia|lia|unfold schars in *; lia]. cbn [mbind res_bind].
  rewrite slice_rest by done. by destruct (index_of _ _).
Qed.

(** Searching from behind the end asks for a negative range. *)
Lemma index_beyond s t off : zlen (schars s) < off → rb_str_index s t off = Err OutOfBounds.
Proof. intros. unfold rb_str_index, cf_search, cf_in. rewrite len_schars, in_bounds_false by lia. done. Qed.
End str_spec.

(** ** The first occurrence *)

Lemma index_of_Some sub l i : index_of sub l = Some i →
  0 ≤ i ∧ i + zlen sub ≤ zlen l ∧ slice i (zlen sub) l = sub ∧ ∀ j, 0 ≤ j < i → ¬ sub `prefix_of` drop (Z.to_nat j) l.
Proof.
  assert (∀ l : list Z, sub `prefix_of` l → 0 + zlen sub ≤ zlen l ∧ slice 0 (zlen sub) l = sub) as Hpre.
  { intros l' [k ->]. rewrite zlen_app. pose proof (zlen_nonneg k). split; [lia|].
    rewrite slice_take, to_nat_zlen. apply take_app_length. }
  revert i. induction l as [|c l IH]; intros i; cbn [index_of]; case_bool_decide as Hp.
  - intros [= <-]. destruct (Hpre _ Hp). split_and!; [lia|lia|done|lia].
  - done.
  - intros [= <-]. destruct (Hpre _ Hp). split_and!; [lia|lia|done|lia].
  - destruct (index_of sub l) as [k|] eqn:E; [|done]. intros [= <-]. destruct (IH k eq_refl) as (H0 & H1 & H2 & H3).
    rewrite zlen_cons. split_and!; [lia|lia| |].
    + unfold slice in *. replace (Z.to_nat (Z.succ k)) with (S (Z.to_nat k)) by lia. done.
    + intros j Hj. destruct (decide (j = 0)) as [->|]; [done|].
      replace (Z.to_nat j) with (S (Z.to_nat (j - 1))) by lia. cbn [drop]. apply H3. lia.
Qed.

Lemma index_of_None sub l : index_of sub l = None → ∀ k, ¬ sub `prefix_of` drop k l.
Proof.
  induction l as [|c l IH]; cbn [index_of]; case_bool_decide as Hp; try done.
  - intros _ k. by rewrite drop_nil.
  - destruct (index_of sub l) eqn:E; [done|]. intros _ [|k]; [done|]. by apply IH.
Qed.

Lemma index_of_split sub l i : index_of sub l = Some i →
  l = take (Z.to_nat i) l ++ sub ++ drop (Z.to_nat (i + zlen sub)) l.
Proof.
  intros H. destruct (index_of_Some _ _ _ H) as (H0 & H1 & H2 & _). pose proof (zlen_nonneg sub).
  rewrite <-(slice_split i (zlen sub) l) at 1 by lia. by rewrite H2.
Qed.
