(* ===== verification/StrSetSpec.v ===== *)
(** The pass over the runs of a set, then what it computes for each way of replacing a run. *)

(** * Runs of characters

    What [str_charset_find] does with a callback that replaces a run by something no longer: the string
    is cut into runs of characters of the set, and the runs are replaced from left to right. *)

From S2P Require Import Prelude RArray Util Big BigStr Numeric CFString Str StrSet StrSpec.

(** ** The reference: one pass over a list *)

Section runs.
Context {V : Type} (m : Z → bool) (sq : bool) (g : list Z → list Z) (upd : V → list Z → V).

Definition flush (run : list Z) (v : V) : list Z * V :=
  match run with [] => ([], v) | _ => (g run, upd v run) end.

(** [run] is the run that was read last; in squeeze mode a run has one character only. *)
Fixpoint tr_runs (run l : list Z) (v : V) : list Z * V :=
  match l with
  | [] => flush run v
  | c :: l =>
      if m c then
        if bool_decide (run = []) then tr_runs [c] l v
        else if negb sq || bool_decide (head run = Some c) then tr_runs (run ++ [c]) l v
        else let '(o, v) := tr_runs [c] l (upd v run) in (g run ++ o, v)
      else
        let '(a, v) := flush run v in
        let '(o, v) := tr_runs [] l v in (a ++ c :: o, v)
  end.

Lemma tr_runs_mid run mid rest v : mid ≠ [] → Forall (λ c, m c = false) mid →
  tr_runs run (mid ++ rest) v =
    let '(a, v) := flush run v in let '(o, v) := tr_runs [] rest v in (a ++ mid ++ o, v).
Proof.
  intros Hne H. revert run v Hne. induction H as [|c mid Hc H IH]; intros run v Hne; [done|]. cbn [app tr_runs]. rewrite Hc.
  destruct (flush run v) as [a v'] eqn:E. destruct mid as [|d mid].
  - cbn [app]. by destruct (tr_runs [] rest v').
  - rewrite IH by done. cbn [flush]. destruct (tr_runs [] rest v') as [o v'']. done.
Qed.
End runs.

Section find_spec.
Context `{J : Junk} `{F : CFStrings} `{L : !CFStringLaws} `{S : !CFCharacterSets}.
Context {X V : Type} (cb : callback (X := X)) (charset : cfcharset) (sq : bool).
Context (g : list Z → list Z) (view : X → V) (upd : V → list Z → V) (inv : X → Prop).

Notation mem := (CFCharacterSetIsCharacterMember charset).
Notation runs := (tr_runs mem sq g upd).

(** The callback replaces the run and says where the rest of the string is. *)
Definition replaces (run : list Z) : Prop := ∀ sr t p x A B,
  chars t = A ++ run ++ B → head run = Some p → inv x →
  location sr + rlength sr = zlen (chars t) → 0 ≤ location sr ≤ zlen A →
  zlen (g run) ≤ zlen run ∧
  returns (cb sr (CFRangeMake (zlen A) (zlen run)) t p x) (λ '(sr', t', x'),
    chars t' = A ++ g run ++ B ∧ view x' = upd (view x) run ∧ inv x' ∧
    location sr' + rlength sr' = zlen (chars t') ∧ 0 ≤ location sr' ≤ zlen A + zlen (g run) ∧
    (zlen (g run) < zlen run → location sr' = zlen A + zlen (g run))).

(** The runs that occur: characters of the set, in squeeze mode all the same *)
Definition good_run (run : list Z) : Prop :=
  Forall (λ c, mem c = true) run ∧ (sq = true → ∀ c, c ∈ run → head run = Some c).

Context (Hcb : ∀ run, run ≠ [] → good_run run → replaces run).

(** The state of the loop at [i]: what is done, the current run, and the other characters since *)
Definition scan_inv (buf : list Z) (n i : Z) (s : scan (X := X)) (W : list Z * V) (pre run mid : list Z) : Prop :=
  chars (str s) = pre ++ run ++ mid ++ drop (Z.to_nat i) buf ∧ zlen buf = n ∧ search_end s = n ∧
  0 ≤ i ≤ n ∧ zlen pre + zlen run + zlen mid = i ∧ inv (ctx s) ∧
  Forall (λ c, mem c = false) mid ∧ good_run run ∧ rlength (result_range s) = zlen run ∧
  (run = [] → mid = []) ∧ (run ≠ [] → location (result_range s) = zlen pre ∧ head run = Some (previous_char s)) ∧
  0 ≤ location (search_range s) ≤ zlen pre ∧
  W = (let '(o, v) := runs run (mid ++ drop (Z.to_nat i) buf) (view (ctx s)) in (pre ++ o, v)).

(** The state after a change: the search goes on behind what is done. *)
Definition restart (s : scan (X := X)) (W : list Z * V) (pre rest : list Z) : Prop :=
  chars (str s) = pre ++ rest ∧ location (search_range s) = zlen pre ∧ search_end s = zlen (chars (str s)) ∧ inv (ctx s) ∧
  W = (let '(o, v) := runs [] rest (view (ctx s)) in (pre ++ o, v)).

Lemma scan_length buf n i s W pre run mid : scan_inv buf n i s W pre run mid → zlen (chars (str s)) = n.
Proof.
  intros (E & Hn & _ & Hi & Hl & _). rewrite E, !zlen_app, zlen_drop by lia. lia.
Qed.

Definition scan_post (n : Z) (buf : list Z) (W : list Z * V) (r : scan (X := X) * bool) : Prop :=
  let '(s, mutated) := r in
  if mutated then ∃ pre rest, restart s W pre rest ∧ rest ≠ [] ∧ search_end s < n ∧ rlength (result_range s) = 1
  else ∃ pre run mid, scan_inv buf n n s W pre run mid.

(** A run ends at a character of the set that does not continue it. *)
Lemma scan_flush buf n i s W pre run mid c :
  scan_inv buf n i s W pre run mid → run ≠ [] → zlookup buf i = Some c → mem c = true →
  (mid = [] → sq = true ∧ head run ≠ Some c) →
  returns (cb (search_range s) (result_range s) (str s) (previous_char s) (ctx s)) (λ '(sr, t, x),
    let e := location sr + rlength sr in
    let s1 := mk_scan sr (CFRangeMake (i - (n - e)) 1) c t x in
    let s2 := mk_scan sr (CFRangeMake i 1) c t x in
    if e <? n then scan_post n buf W (s1, true) else scan_inv buf n (i + 1) s2 W (pre ++ g run ++ mid) [c] []).
Proof.
  intros Hinv Hrun Hc Hm Hmid. pose proof (scan_length _ _ _ _ _ _ _ _ Hinv) as Hlen.
  destruct Hinv as (E & Hn & Hend & Hi & Hl & Hix & Hfm & Hgr & Hrl & _ & Hr & Hsr & HW). destruct (Hr Hrun) as [Hloc Hhd].
  pose proof (zlookup_Some_range _ _ _ Hc) as Hic. unfold search_end in Hend.
  assert (drop (Z.to_nat i) buf = c :: drop (Z.to_nat (i + 1)) buf) as Hd.
  { rewrite zlookup_nonneg in Hc by lia. rewrite (drop_S _ _ _ Hc). by replace (Z.to_nat (i + 1)) with (Datatypes.S (Z.to_nat i)) by lia. }
  destruct (Hcb run Hrun Hgr (search_range s) (str s) (previous_char s) (ctx s) pre (mid ++ drop (Z.to_nat i) buf)) as [Hg Hret]; [done|done|done|lia|done|].
  assert (result_range s = CFRangeMake (zlen pre) (zlen run)) as -> by (destruct (result_range s); cbn in *; congruence).
  eapply returns_mono; [apply Hret|]. intros [[sr t] x] (Et & Hv & Hix' & Hend' & Hloc' & Hshrink). cbv zeta.
  assert (W = let '(o, v) := runs [] (mid ++ drop (Z.to_nat i) buf) (view x) in ((pre ++ g run) ++ o, v)) as HW'.
  { rewrite HW, Hv, Hd. destruct mid as [|d mid].
    - destruct (Hmid eq_refl) as [Esq Hne]. cbn [app tr_runs]. rewrite Hm.
      assert (negb sq || bool_decide (head run = Some c) = false) as -> by (rewrite Esq; by rewrite bool_decide_eq_false_2).
      rewrite (bool_decide_eq_false_2 (run = [])), (bool_decide_eq_true_2 ([] = [])) by done.
      destruct (tr_runs _ _ _ _ [c] _ _) as [o v]. by rewrite <-app_assoc.
    - rewrite !tr_runs_mid by done. destruct run as [|r0 run]; [done|]. cbn [flush].
      destruct (runs [] _ _) as [o v]. by rewrite <-!app_assoc. }
  assert (zlen (chars t) = n - (zlen run - zlen (g run))) as Ht by (rewrite Et, <-Hlen, E, !zlen_app; lia).
  rewrite Hend', Ht. destruct (Z.ltb_spec (n - (zlen run - zlen (g run))) n) as [Hs|Hs].
  - exists (pre ++ g run), (mid ++ drop (Z.to_nat i) buf). split_and!.
    + unfold restart. cbn. rewrite zlen_app, <-app_assoc. split_and!; [done|lia|unfold search_end; cbn; lia|done|done].
    + rewrite Hd. by destruct mid.
    + unfold search_end. cbn. lia.
    + done.
  - unfold scan_inv. cbn. rewrite !zlen_app. split_and!; try lia; try done.
    + rewrite Et, Hd, <-!app_assoc. done.
    + unfold search_end. cbn. lia.
    + rewrite zlen_cons, !zlen_nil. lia.
    + by constructor; [rewrite Forall_singleton|intros _ c' ->%list_elem_of_singleton].
    + intros _. split; [lia|done].
    + pose proof (zlen_nonneg mid). lia.
    + rewrite HW'. destruct mid as [|d mid].
      * cbn [app]. rewrite Hd. cbn [tr_runs]. rewrite Hm, bool_decide_eq_true_2 by done.
        destruct (runs [c] _ _) as [o v]. by rewrite app_nil_r.
      * rewrite tr_runs_mid by done. cbn [flush]. rewrite Hd. cbn [tr_runs]. rewrite Hm, bool_decide_eq_true_2 by done.
        destruct (runs [c] _ _) as [o v]. by rewrite <-!app_assoc.
Qed.

Lemma scan_loop_spec fuel buf n i s W pre run mid :
  scan_inv buf n i s W pre run mid → n - i < Z.of_nat fuel →
  returns (scan_loop fuel cb charset sq buf n i s) (scan_post n buf W).
Proof.
  revert i s pre run mid. induction fuel as [|fuel IH]; intros i s pre run mid Hinv Hf.
  { destruct Hinv as (_ & _ & _ & Hi & _). lia. }
  cbn [scan_loop]. pose proof Hinv as (E & Hn & Hend & Hi & Hl & Hix & Hfm & Hgr & Hrl & Hre & Hr & Hsr & HW).
  rewrite Hend. destruct (Z.ltb_spec i n) as [Hlt|Hge]; cbn [negb].
  2: { apply returns_ret. exists pre, run, mid. assert (i = n) as <- by lia. done. }
  destruct (zlookup_is_Some buf i) as [c Hc]; [lia|]. rewrite (proj2 (aload_ok _ _ _) Hc). cbn [mbind res_bind].
  assert (drop (Z.to_nat i) buf = c :: drop (Z.to_nat (i + 1)) buf) as Hd.
  { rewrite zlookup_nonneg in Hc by lia. rewrite (drop_S _ _ _ Hc). by replace (Z.to_nat (i + 1)) with (Datatypes.S (Z.to_nat i)) by lia. }
  rewrite Hrl. destruct (mem c) eqn:Hm; cbn [negb].
  2: { (* not in the set *)
    destruct run as [|r0 run].
    - rewrite (Hre eq_refl) in *. cbn [app] in *. eapply (IH (i + 1) s (pre ++ [c]) [] []); [|lia].
      unfold scan_inv. rewrite zlen_app, zlen_cons, !zlen_nil in *. split_and!; try done; try lia.
      + by rewrite E, Hd, <-app_assoc.
      + rewrite HW, Hd. cbn [app tr_runs flush]. rewrite Hm.
        destruct (tr_runs _ _ _ _ [] (drop (Z.to_nat (i + 1)) buf) (view (ctx s))) as [o v]. by rewrite <-app_assoc.
    - eapply (IH (i + 1) s pre (r0 :: run) (mid ++ [c])); [|lia].
      unfold scan_inv. rewrite zlen_app, !zlen_cons, !zlen_nil in *. split_and!; try done; try lia.
      + rewrite E, Hd, <-!app_assoc. done.
      + apply Forall_app. split; [done|]. by apply Forall_singleton.
      + rewrite HW, Hd, <-app_assoc. done. }
  destruct (Z.eqb_spec (zlen run) 0) as [E0|E0].
  { (* the first run *)
    assert (run = []) as -> by (destruct run; [done|]; rewrite zlen_cons in E0; pose proof (zlen_nonneg run); lia).
    rewrite (Hre eq_refl) in *. cbn [app] in *. eapply (IH (i + 1) _ pre [c] []); [|lia].
    unfold scan_inv. cbn. rewrite zlen_cons, !zlen_nil in *. split_and!; try done; try lia.
    - by rewrite E, Hd.
    - by constructor; [rewrite Forall_singleton|intros _ c' ->%list_elem_of_singleton].
    - intros _. split; [lia|done].
    - rewrite HW, Hd. cbn [tr_runs]. by rewrite Hm, bool_decide_eq_true_2. }
  assert (run ≠ []) as Hrun by (by intros ->). destruct (Hr Hrun) as [Hloc Hhd]. rewrite Hloc.
  destruct ((zlen pre + zlen run =? i) && (negb sq || (previous_char s =? c))) eqn:Ec.
  - (* the run goes on *)
    apply andb_true_iff in Ec as [Ei%Z.eqb_eq Hsq].
    assert (mid = []) as -> by (destruct mid; [done|]; rewrite zlen_cons in Hl; pose proof (zlen_nonneg mid); lia).
    cbn [app] in *. eapply (IH (i + 1) _ pre (run ++ [c]) []); [|lia].
    assert (negb sq || bool_decide (head run = Some c) = true) as Hsq'.
    { rewrite Hhd. apply orb_true_iff in Hsq as [->| ->%Z.eqb_eq]; [done|]. by rewrite bool_decide_eq_true_2, orb_true_r. }
    unfold scan_inv. cbn. rewrite zlen_app, zlen_cons, !zlen_nil in *. split_and!; try done; try lia.
    + by rewrite E, Hd, <-app_assoc.
    + destruct Hgr as [Hg1 Hg2]. split; [apply Forall_app; split; [done|]; by apply Forall_singleton|].
      intros Es c' [Hin| ->%list_elem_of_singleton]%elem_of_app; (replace (head (run ++ [c])) with (head run) by by destruct run); [by apply Hg2|].
      rewrite Es in Hsq'. cbn in Hsq'. by apply bool_decide_eq_true in Hsq'.
    + intros _. split; [done|]. destruct run; done.
    + rewrite HW, Hd. cbn [tr_runs]. rewrite Hm, (bool_decide_eq_false_2 (run = [])), Hsq' by done. done.
  - (* the run ends *)
    eapply returns_bind_mono.
    { eapply (scan_flush buf n i s W pre run mid c); [done|done|done|done|].
      intros ->. rewrite zlen_nil, Z.add_0_r in Hl. rewrite Hl, Z.eqb_refl in Ec. cbn in Ec. destruct sq; cbn in Ec; [|done].
      split; [done|]. rewrite Hhd. intros [= E1]. by rewrite E1, Z.eqb_refl in Ec. }
    intros [[sr t] x] H. cbv zeta in H. destruct (_ <? n); [by apply returns_ret|]. by eapply IH; [|lia].
Qed.

(** ** The loop that starts again *)

Lemma find_loop_spec fuel buf n s W pre rest :
  restart s W pre rest → search_end s < n ∨ search_end s = n ∧ buf = chars (str s) →
  search_end s < Z.of_nat fuel →
  returns (find_loop fuel cb charset sq buf n s) (λ s', chars (str s') = W.1 ∧ view (ctx s') = W.2 ∧ inv (ctx s')).
Proof.
  revert buf n s pre rest. induction fuel as [|fuel IH]; intros buf n s pre rest (E & Hloc & Hend & Hix & HW) Hn Hf.
  { rewrite Hend in Hf. pose proof (zlen_nonneg (chars (str s))). lia. }
  cbn [find_loop].
  assert ((if search_end s <? n then buf ← cf_get (str s) (CFRangeMake 0 (search_end s)); Ok (buf, search_end s) else Ok (buf, n)) =
    Ok (chars (str s), search_end s)) as ->.
  { destruct (Z.ltb_spec (search_end s) n).
    - rewrite cf_get_ok by (pose proof (zlen_nonneg (chars (str s))); lia). cbn [mbind res_bind]. rewrite Hend. by rewrite slice_all.
    - destruct Hn as [|[<- ->]]; [lia|done]. }
  cbn [mbind res_bind]. set (s0 := mk_scan _ _ _ _ _).
  assert (scan_inv (chars (str s)) (search_end s) (zlen pre) s0 W pre [] []) as Hinv.
  { unfold scan_inv, s0. cbn. rewrite !zlen_nil. pose proof (zlen_nonneg pre). pose proof (zlen_nonneg rest).
    assert (drop (Z.to_nat (zlen pre)) (chars (str s)) = rest) as Hdr by (rewrite E, to_nat_zlen; apply drop_app_length).
    rewrite Hdr, Hend. split_and!; try done; try lia.
    - by rewrite E, zlen_app; lia.
    - split; [done|]. by intros _ c ?%elem_of_nil. }
  replace (location (search_range s0)) with (zlen pre) by done. eapply returns_bind_mono.
  { eapply (scan_loop_spec _ _ _ _ _ _ _ _ _ Hinv). rewrite Hend. unfold zlen. pose proof (zlen_nonneg pre). lia. }
  intros [s' mutated] H. destruct mutated.
  - destruct H as (pre' & rest' & Hre & Hne & Hlt & Hrl). rewrite Hrl.
    pose proof Hre as (E' & Hloc' & Hend' & _). assert (0 < zlen rest') by (destruct rest'; [done|]; rewrite zlen_cons; pose proof (zlen_nonneg rest'); lia).
    rewrite (proj2 (Z.eqb_neq (rlength (search_range s')) 0)).
    + cbn [negb andb Z.eqb]. eapply (IH _ _ _ _ _ Hre); [by left|lia].
    + unfold search_end in Hend'. rewrite E', zlen_app in Hend'. lia.
  - destruct H as (pre' & run & mid & Hi). pose proof (scan_length _ _ _ _ _ _ _ _ Hi) as Hlen.
    destruct Hi as (E' & Hbl & Hend' & _ & Hl & Hix' & Hfm & Hgr & Hrl & Hre & Hr & Hsr & HW').
    rewrite drop_ge in E', HW' by (unfold zlen in *; lia). rewrite !app_nil_r in *. rewrite Hrl.
    destruct (Z.eqb_spec (zlen run) 0) as [E0|E0]; cbn [negb].
    + assert (run = []) as -> by (destruct run; [done|]; rewrite zlen_cons in E0; pose proof (zlen_nonneg run); lia).
      rewrite (Hre eq_refl) in *. apply returns_ret. rewrite HW', E'. cbn. split_and!; [by rewrite ?app_nil_r|done|done].
    + assert (run ≠ []) as Hrun by (by intros ->). destruct (Hr Hrun) as [Hloc' Hhd].
      destruct (Hcb run Hrun Hgr (search_range s') (str s') (previous_char s') (ctx s') pre' mid) as [_ Hret]; [done|done|done|by rewrite Hlen, <-Hend'|done|].
      assert (result_range s' = CFRangeMake (zlen pre') (zlen run)) as -> by (destruct (result_range s'); cbn in *; congruence).
      eapply returns_bind_mono; [apply Hret|]. intros [[sr t] x] (Et & Hv & Hx & _). apply returns_ret. cbn. rewrite HW', Et, Hv.
      destruct mid as [|d mid]; [destruct run; by rewrite ?app_nil_r|].
      rewrite <-(app_nil_r (d :: mid)), tr_runs_mid by done. destruct run; [done|]. cbn [flush tr_runs fst snd]. by rewrite !app_nil_r.
Qed.

Lemma str_charset_find_spec c args x : args ≠ [] → parse_charsets None args = Ok (Some charset) → inv x →
  returns (str_charset_find c args sq cb x) (λ '(c', x'),
    let W := runs [] (chars c) (view x) in chars c' = W.1 ∧ view x' = W.2 ∧ inv x').
Proof.
  intros Hargs Hp Hx. unfold str_charset_find. rewrite bool_decide_eq_false_2 by done. rewrite cf_length.
  destruct (Z.eqb_spec (zlen (chars c)) 0) as [E0|E0].
  { apply returns_ret. assert (chars c = []) as -> by (destruct (chars c); [done|]; rewrite zlen_cons in E0; pose proof (zlen_nonneg l); lia). done. }
  rewrite Hp. cbn [mbind res_bind of_option]. pose proof (zlen_nonneg (chars c)).
  rewrite cf_get_ok by lia. cbn [mbind res_bind]. rewrite slice_all. eapply returns_bind_mono.
  { apply (find_loop_spec _ _ _ _ (runs [] (chars c) (view x)) [] (chars c)).
    - unfold restart, search_end. cbn. split_and!; [done|done|lia|done|]. by destruct (tr_runs _ _ _ _ _ _ _).
    - right. unfold search_end. cbn. split; [lia|done].
    - unfold search_end. cbn. lia. }
  intros s' H'. by apply returns_ret.
Qed.
End find_spec.

(** * References for the methods on sets of characters

    What the pass over the runs computes for each way of replacing a run: deletion, squeezing, counting and
    translation, as functions on lists. *)

(** The list without the characters that follow one of the same kind: in squeeze mode the same character,
    else any character of the set *)
Fixpoint collapse (m : Z → bool) (sq : bool) (prev : option Z) (l : list Z) : list Z :=
  match l with
  | [] => []
  | c :: l =>
      if m c && (match prev with Some p => negb sq || (p =? c) | None => false end) then collapse m sq prev l
      else c :: collapse m sq (if m c then Some c else None) l
  end.

(** A function on the characters of a set *)
Definition on_set (m : Z → bool) (f : Z → Z) (c : Z) : Z := if m c then f c else c.

Lemma s32_add_l x y : s32 (s32 x + y) = s32 (x + y).
Proof.
  unfold s32. f_equal. replace ((x + 2 ^ 31) mod 2 ^ 32 - 2 ^ 31 + y + 2 ^ 31) with ((x + 2 ^ 31) mod 2 ^ 32 + y) by lia.
  rewrite Zplus_mod_idemp_l. f_equal. lia.
Qed.

Section references.
Context (m : Z → bool) (sq : bool).

(** *** The changes of the context *)

Lemma runs_changed g run l v :
  (tr_runs m sq g (λ _ _, true) run l v).2 = v || negb (bool_decide (run = [])) || existsb m l.
Proof.
  revert run v. induction l as [|c l IH]; intros run v; cbn [tr_runs existsb].
  { destruct run; cbn; [by rewrite !orb_false_r|by rewrite !orb_true_r]. }
  destruct (m c); cbn [orb].
  - destruct (decide (run = [])) as [->|Hr]; [rewrite bool_decide_eq_true_2 by done|rewrite bool_decide_eq_false_2 by done].
    + rewrite IH. by rewrite !orb_true_r.
    + destruct (negb sq || _); [rewrite IH, bool_decide_eq_false_2 by (by destruct run); by rewrite !orb_true_r|].
      specialize (IH [c] true). destruct (tr_runs _ _ _ _ [c] l true). cbn in *. by rewrite IH, !orb_true_r.
  - destruct run as [|r0 run]; cbn [flush].
    + specialize (IH [] v). destruct (tr_runs _ _ _ _ [] l v). cbn in *. by rewrite IH.
    + specialize (IH [] true). destruct (tr_runs _ _ _ _ [] l true). cbn in *. by rewrite IH, orb_true_r.
Qed.

Lemma runs_count run l v : 
  (tr_runs m sq id (λ v run, s32 (v + zlen run)) run l (s32 v)) = (run ++ l, s32 (v + zlen run + zlen (filter (λ c, m c = true) l))).
Proof.
  revert run v. induction l as [|c l IH]; intros run v; cbn [tr_runs].
  { destruct run as [|r0 run]; cbn [flush]; rewrite !app_nil_r, filter_nil, zlen_nil, !Z.add_0_r; [done|]. by rewrite s32_add_l. }
  rewrite filter_cons. destruct (m c) eqn:Hm.
  - rewrite decide_True by done. rewrite zlen_cons. destruct (decide (run = [])) as [->|Hr].
    + rewrite bool_decide_eq_true_2 by done. rewrite IH, zlen_cons, !zlen_nil. f_equal; first [done|f_equal; lia].
    + rewrite bool_decide_eq_false_2 by done. destruct (negb sq || _).
      * rewrite IH, zlen_app, zlen_cons, zlen_nil, <-app_assoc. f_equal; first [done|f_equal; lia].
      * rewrite s32_add_l, IH, zlen_cons, !zlen_nil. unfold id. f_equal; first [done|f_equal; lia].
  - rewrite decide_False by done. destruct run as [|r0 run]; cbn [flush].
    + rewrite IH, !zlen_nil. done.
    + rewrite s32_add_l, IH, zlen_nil. unfold id. f_equal; first [done|f_equal; lia].
Qed.

(** *** The result *)

Lemma runs_delete {V} (upd : V → list Z → V) run l v : (tr_runs m sq (λ _, []) upd run l v).1 = filter (λ c, m c = false) l.
Proof.
  revert run v. induction l as [|c l IH]; intros run v; cbn [tr_runs]; [by destruct run|].
  rewrite filter_cons. destruct (m c) eqn:Hm.
  - rewrite decide_False by done. destruct (bool_decide (run = [])); [apply IH|].
    destruct (negb sq || _); [apply IH|]. specialize (IH [c] (upd v run)). by destruct (tr_runs _ _ _ _ [c] l _).
  - rewrite decide_True by done. destruct (flush _ _ run v) as [a v'] eqn:Ef. assert (a = []) as -> by (destruct run; by injection Ef as <- _).
    specialize (IH [] v'). destruct (tr_runs _ _ _ _ [] l v'). cbn in *. by rewrite IH.
Qed.

Lemma runs_map {V} f (upd : V → list Z → V) run l v : Forall (λ c, m c = true) run →
  (tr_runs m sq (fmap f) upd run l v).1 = (f <$> run) ++ (on_set m f <$> l).
Proof.
  revert run v. induction l as [|c l IH]; intros run v Hr; cbn [tr_runs fmap list_fmap].
  { rewrite app_nil_r. by destruct run. }
  unfold on_set at 1. destruct (m c) eqn:Hm.
  - assert (Forall (λ c, m c = true) [c]) as Hc by by apply Forall_singleton. case_bool_decide as Hn.
    + by rewrite IH, Hn.
    + destruct (negb sq || _); [rewrite IH by (by apply Forall_app); by rewrite fmap_app, <-app_assoc|].
      specialize (IH [c] (upd v run) Hc). destruct (tr_runs _ _ _ _ [c] l _). cbn in *. by rewrite IH.
  - destruct (flush _ _ run v) as [a v'] eqn:Ef. assert (a = f <$> run) as -> by (destruct run; by injection Ef as <- _).
    specialize (IH [] v' (Forall_nil_2 _)). destruct (tr_runs _ _ _ _ [] l v'). cbn in *. by rewrite IH.
Qed.

Lemma runs_collapse {V} f (upd : V → list Z → V) run l v : Forall (λ c, m c = true) run →
  (tr_runs m sq (λ run, take 1 (f <$> run)) upd run l v).1 = take 1 (f <$> run) ++ (on_set m f <$> collapse m sq (head run) l).
Proof.
  revert run v. induction l as [|c l IH]; intros run v Hr; cbn [tr_runs collapse].
  { rewrite app_nil_r. by destruct run. }
  destruct (m c) eqn:Hm; cbn [andb].
  - assert (Forall (λ c, m c = true) [c]) as Hc by by apply Forall_singleton.
    destruct run as [|r0 run]; [rewrite bool_decide_eq_true_2 by done|rewrite bool_decide_eq_false_2 by done]; cbn [head].
    + rewrite IH by done. cbn. unfold on_set. by rewrite Hm.
    + replace (bool_decide (Some r0 = Some c)) with (r0 =? c).
      2: { destruct (Z.eqb_spec r0 c); [by rewrite bool_decide_eq_true_2 by congruence|by rewrite bool_decide_eq_false_2 by congruence]. }
      destruct (negb sq || (r0 =? c)); [rewrite IH by (by apply Forall_app); done|].
      specialize (IH [c] (upd v (r0 :: run)) Hc). destruct (tr_runs _ _ _ _ [c] l _). cbn in *. rewrite IH. unfold on_set at 2. by rewrite Hm.
  - destruct (flush _ _ run v) as [a v'] eqn:Ef. assert (a = take 1 (f <$> run)) as -> by (destruct run; by injection Ef as <- _).
    specialize (IH [] v' (Forall_nil_2 _)). destruct (tr_runs _ _ _ _ [] l v'). cbn in *. rewrite IH. unfold on_set at 2. by rewrite Hm.
Qed.

(** A squeeze says that it changed the string exactly if the string is shorter. *)
Lemma runs_squeezed f run l v :
  let W := tr_runs m sq (λ run, take 1 (f <$> run)) (λ v run, v || (1 <? zlen run)) run l v in
  W.2 = v || (zlen W.1 <? zlen run + zlen l) ∧ zlen W.1 ≤ zlen run + zlen l.
Proof.
  assert (∀ a b c : Z, 1 ≤ a → b ≤ c → (1 <? a) || (b <? c) = (1 + b <? a + c)) as Hb.
  { intros a b c ??. destruct (Z.ltb_spec 1 a), (Z.ltb_spec b c), (Z.ltb_spec (1 + b) (a + c)); done || lia. }
  revert run v. induction l as [|c l IH]; intros run v; cbv zeta; cbn [tr_runs].
  { rewrite zlen_nil. destruct run as [|r0 run]; cbn [flush fst snd]; [by rewrite !zlen_nil, orb_false_r|].
    cbn. rewrite !zlen_cons, take_0, zlen_nil. pose proof (zlen_nonneg run). split; [|lia]. do 2 f_equal. lia. }
  rewrite zlen_cons. destruct (m c).
  - case_bool_decide as Hn.
    + rewrite Hn, zlen_nil. specialize (IH [c] v). rewrite zlen_cons, zlen_nil in IH. exact IH.
    + assert (1 ≤ zlen run ∧ zlen (take 1 (f <$> run)) = 1) as [Hr Ht].
      { destruct run as [|r0 run]; [done|]. cbn. rewrite !zlen_cons, take_0, zlen_nil. pose proof (zlen_nonneg run). lia. }
      destruct (negb sq || _).
      * specialize (IH (run ++ [c]) v). rewrite zlen_app, zlen_cons, zlen_nil in IH. by replace (zlen run + (1 + zlen l)) with (zlen run + (1 + 0) + zlen l) by lia.
      * specialize (IH [c] (v || (1 <? zlen run))). destruct (tr_runs _ _ _ _ [c] l _) as [o v']. cbn [fst snd] in *.
        rewrite zlen_cons, zlen_nil in IH. destruct IH as [-> Ho]. rewrite zlen_app, Ht. split; [|lia].
        rewrite <-orb_assoc, Hb by lia. do 2 f_equal; lia.
  - destruct run as [|r0 run]; cbn [flush].
    + specialize (IH [] v). destruct (tr_runs _ _ _ _ [] l v) as [o v']. cbn [fst snd app] in *. rewrite !zlen_nil, zlen_cons in *.
      destruct IH as [-> Ho]. split; [|lia]. f_equal. destruct (Z.ltb_spec (zlen o) (0 + zlen l)), (Z.ltb_spec ((1 + zlen o)) (0 + (1 + zlen l))); done || lia.
    + specialize (IH [] (v || (1 <? zlen (r0 :: run)))). destruct (tr_runs _ _ _ _ [] l _) as [o v']. cbn [fst snd] in *.
      destruct IH as [-> Ho]. cbn [fmap list_fmap take]. rewrite !zlen_app, !zlen_cons, !zlen_nil in *. pose proof (zlen_nonneg run). split; [|lia].
      rewrite <-orb_assoc, Hb by lia. f_equal.
      destruct (Z.ltb_spec (1 + zlen o) ((1 + zlen run) + (0 + zlen l))), (Z.ltb_spec ((1 + 0) + (1 + zlen o)) ((1 + zlen run) + (1 + zlen l))); done || lia.
Qed.
End references.
