(* ===== verification/StrParse.v ===== *)
(** * Sets of characters, as they are written

    What the argument of [count], [delete], [squeeze] and [tr] denotes: characters and ranges, negated by a
    leading caret; and that [parse_charset] reads this set. *)

From S2P Require Import Prelude Util Big BigStr Numeric RArray CFString Str StrSpec StrSet.

(** ** What CoreFoundation promises of sets *)

Class CFCharacterSetLaws `{F : CFStrings, S : !CFCharacterSets} : Prop := {
  cs_create c : CFCharacterSetIsCharacterMember CFCharacterSetCreateMutable c = false;
  cs_range s a n c : 0 ≤ a → 0 ≤ n →
    CFCharacterSetIsCharacterMember (CFCharacterSetAddCharactersInRange s (CFRangeMake a n)) c =
      CFCharacterSetIsCharacterMember s c || ((a <=? c) && (c <? a + n));
  cs_string s t c : ascii_str t →
    CFCharacterSetIsCharacterMember (CFCharacterSetAddCharactersInString s t) c =
      CFCharacterSetIsCharacterMember s c || bool_decide (c ∈ chars t);
  cs_invert s c : CFCharacterSetIsCharacterMember (CFCharacterSetInvert s) c = negb (CFCharacterSetIsCharacterMember s c);
  cs_intersect s t c : CFCharacterSetIsCharacterMember (CFCharacterSetIntersect s t) c =
    CFCharacterSetIsCharacterMember s c && CFCharacterSetIsCharacterMember t c;
  cs_bytes l : Forall ascii l → ∃ t, CFStringCreateWithBytes l = Some t ∧ chars t = l
}.

(** Sets as predicates, for strings as lists *)
Definition list_sets : CFCharacterSets (F := list_strings) := {|
  cfcharset := Z → bool;
  CFCharacterSetCreateMutable := λ _, false;
  CFCharacterSetAddCharactersInRange := λ s r c, s c || ((location r <=? c) && (c <? location r + rlength r));
  CFCharacterSetAddCharactersInString := λ s t c, s c || bool_decide (c ∈ chars t);
  CFCharacterSetInvert := λ s c, negb (s c);
  CFCharacterSetIntersect := λ s t c, s c && t c;
  CFCharacterSetIsCharacterMember := λ s c, s c;
  CFStringCreateWithBytes := λ l, Some (CFStringAppendCharacters CFStringCreateMutable l)
|}.

Lemma list_sets_laws : CFCharacterSetLaws (F := list_strings) (S := list_sets).
Proof.
  split; intros; try done. exists l. split; [done|]. apply list_chars.
Qed.

(** ** The language of sets *)

(** Characters, then a range [a-z], and so on; characters at the end *)
Record charspec := CharSpec { cs_exclude : bool; cs_blocks : list (list Z * Z * Z); cs_tail : list Z }.

Definition block_bytes (b : list Z * Z * Z) : list Z := let '(ss, a, z) := b in ss ++ [a; 45; z].
Definition spec_bytes (sp : charspec) : list Z :=
  (if cs_exclude sp then [94] else []) ++ (cs_blocks sp ≫= block_bytes) ++ cs_tail sp.

Definition in_block (b : list Z * Z * Z) (c : Z) : bool := let '(ss, a, z) := b in bool_decide (c ∈ ss) || ((a <=? c) && (c <=? z)).
Definition in_blocks (bs : list (list Z * Z * Z)) (c : Z) : bool := existsb (λ b, in_block b c) bs.
Definition in_spec (sp : charspec) (c : Z) : bool :=
  xorb (cs_exclude sp) (in_blocks (cs_blocks sp) c || bool_decide (c ∈ cs_tail sp)).

(** A character that stands for itself; the beginning of a range, which is not escaped; a range *)
Definition plain (c : Z) : bool := (0 <? c) && (c <? 128) && negb (c =? 45).
Definition good_block (b : list Z * Z * Z) : bool :=
  let '(ss, a, z) := b in forallb plain ss && plain a && negb (a =? 92) && (a <=? z) && (z <? 128).
Definition good_spec (sp : charspec) : bool :=
  forallb good_block (cs_blocks sp) && forallb plain (cs_tail sp) &&
  (cs_exclude sp || negb (bool_decide (head (spec_bytes sp) = Some 94))).

(** ** Bytes of a specification *)

Lemma plain_iff c : plain c = true ↔ 0 < c < 128 ∧ c ≠ 45.
Proof. unfold plain. rewrite !andb_true_iff, negb_true_iff, !Z.ltb_lt, Z.eqb_neq. lia. Qed.

Lemma good_block_iff ss a z : good_block (ss, a, z) = true ↔
  forallb plain ss = true ∧ (0 < a < 128 ∧ a ≠ 45) ∧ a ≠ 92 ∧ a ≤ z < 128.
Proof. unfold good_block. rewrite !andb_true_iff, negb_true_iff, Z.ltb_lt, Z.leb_le, Z.eqb_neq, plain_iff. tauto. Qed.

Lemma forallb_plain l : forallb plain l = true ↔ Forall (λ c, 0 < c < 128 ∧ c ≠ 45) l.
Proof. induction l; cbn [forallb]; [done|]. by rewrite andb_true_iff, plain_iff, Forall_cons, IHl. Qed.

Definition byte_ok (c : Z) : Prop := 0 < c < 128.

Lemma plain_bytes l : forallb plain l = true → Forall byte_ok l.
Proof. rewrite forallb_plain. intros H. eapply Forall_impl; [exact H|]. unfold byte_ok. naive_solver. Qed.

Lemma blocks_bytes bs : forallb good_block bs = true → Forall byte_ok (bs ≫= block_bytes).
Proof.
  induction bs as [|[[ss a] z] bs IH]; [done|]. cbn [forallb]. rewrite andb_true_iff, good_block_iff. intros [(Hs & Ha & _ & Hz) Hbs].
  rewrite bind_cons. cbn [block_bytes]. rewrite !Forall_app, !Forall_cons, Forall_nil. unfold byte_ok in *.
  split; [split; [by apply plain_bytes|lia]|]. by apply IH.
Qed.

Lemma before_nul_ok l : Forall byte_ok l → before_nul l = l.
Proof. induction 1 as [|c l Hc H IH]; [done|]. cbn. unfold byte_ok in Hc. rewrite (proj2 (Z.eqb_neq _ _)) by lia. by rewrite IH. Qed.

Lemma byte_ascii l : Forall byte_ok l → Forall ascii l.
Proof. intros H. eapply Forall_impl; [exact H|]. unfold byte_ok, ascii. lia. Qed.

Lemma schar_ascii c : 0 ≤ c < 128 → schar c = c.
Proof. intros. unfold schar. by rewrite (proj2 (Z.ltb_lt _ _)) by lia. Qed.

Lemma index_where_app f l k : Forall (λ c, f c = false) l → index_where f (l ++ k) = (λ i, zlen l + i) <$> index_where f k.
Proof.
  induction 1 as [|c l Hc H IH]; cbn [app index_where].
  - destruct (index_where f k); [|done]. cbn. by rewrite zlen_nil.
  - rewrite Hc, IH. destruct (index_where f k); [|done]. cbn. rewrite zlen_cons. f_equal. lia.
Qed.

Lemma no_dash l : forallb plain l = true → Forall (λ c, (c =? 45) = false) l.
Proof. rewrite forallb_plain. intros H. eapply Forall_impl; [exact H|]. intros c [_ ?]. by apply Z.eqb_neq. Qed.

Lemma no_dash_index l : forallb plain l = true → index_where (λ c, c =? 45) l = None.
Proof. intros H. rewrite <-(app_nil_r l), index_where_app by by apply no_dash. done. Qed.

Lemma strchr_ok pre l : strchr_dash (pre ++ l) (zlen pre) = Ok ((λ i, zlen pre + i) <$> index_where (λ c, c =? 45) l).
Proof.
  unfold strchr_dash. rewrite zlen_app. pose proof (zlen_nonneg l). rewrite (proj2 (Z.ltb_ge _ _)) by lia.
  by rewrite to_nat_zlen, drop_app_length.
Qed.

Lemma bool_decide_elem_of_app_a (l : list Z) (a c : Z) : bool_decide (c ∈ l ++ [a]) = bool_decide (c ∈ l) || (c =? a).
Proof.
  destruct (Z.eqb_spec c a) as [->|Hne].
  - rewrite orb_true_r. apply bool_decide_eq_true_2. set_solver.
  - rewrite orb_false_r. apply bool_decide_ext. set_solver.
Qed.

(** ** Reading *)

Section parse.
Context `{J : Junk} `{F : CFStrings} `{L : !CFStringLaws} `{S : !CFCharacterSets} `{SL : !CFCharacterSetLaws}.

Notation mem := CFCharacterSetIsCharacterMember.

Lemma add_bytes_ok s l : Forall ascii l → ∃ s', add_bytes s l = Ok s' ∧ ∀ c, mem s' c = mem s c || bool_decide (c ∈ l).
Proof.
  intros H. destruct (cs_bytes l H) as (t & E & Et). exists (CFCharacterSetAddCharactersInString s t).
  unfold add_bytes. rewrite E. split; [done|]. intros c. rewrite cs_string by (unfold ascii_str; by rewrite Et). by rewrite Et.
Qed.

(** One block: the range, and the characters before it *)
Lemma parse_block fuel pre ss a z rest subset : good_block (ss, a, z) = true →
  let sptr := pre ++ (ss ++ [a; 45; z]) ++ rest in
  let b := zlen (pre ++ ss ++ [a; 45; z]) in
  ∃ subset', (∀ c, mem subset' c = mem subset c || in_block (ss, a, z) c) ∧
    parse_ranges (Datatypes.S fuel) sptr (zlen pre) (Some (zlen pre + zlen ss + 1)) subset =
      parse_ranges fuel sptr b ((λ i, b + i) <$> index_where (λ c, c =? 45) rest) subset'.
Proof.
  intros (Hs & Ha & Ha' & Hz)%good_block_iff sptr b. cbn [parse_ranges]. pose proof (zlen_nonneg ss) as Hss. pose proof (zlen_nonneg pre) as Hpre.
  rewrite (proj2 (Z.ltb_lt (zlen pre) (zlen pre + zlen ss + 1))) by lia.
  assert (∀ i x, zlookup [a; 45; z] i = Some x → aload (sptr ++ [0]) (zlen pre + zlen ss + i) = Ok x) as Hat.
  { intros i x Hi. pose proof (zlookup_Some_range _ _ _ Hi) as [Hi0 Hi1]. apply aload_ok. unfold sptr. rewrite <-!app_assoc.
    rewrite zlookup_app_r by lia. rewrite zlookup_app_r by lia. replace (_ - zlen pre - zlen ss) with i by lia.
    by rewrite zlookup_app_l. }
  replace (zlen pre + zlen ss + 1 - 1) with (zlen pre + zlen ss + 0) by lia. rewrite (Hat 0 a) by done. cbn [mbind res_bind].
  replace (zlen pre + zlen ss + 1 + 1) with (zlen pre + zlen ss + 2) by lia. rewrite (Hat 2 z) by done. cbn [mbind res_bind].
  rewrite (proj2 (Z.eqb_neq a 92)), (proj2 (Z.eqb_neq z 0)) by lia. cbn [negb andb]. rewrite !schar_ascii by lia.
  unfold add_range. rewrite !(proj2 (Z.leb_le _ _)) by lia. cbn [andb check mbind res_bind].
  assert (slice (zlen pre) (zlen pre + zlen ss + 1 - zlen pre) sptr = ss ++ [a]) as ->.
  { unfold slice, sptr. rewrite to_nat_zlen, drop_app_length. replace (Z.to_nat _) with (length (ss ++ [a])) by (rewrite length_app; cbn; unfold zlen in *; lia).
    replace ((ss ++ [a; 45; z]) ++ rest) with ((ss ++ [a]) ++ 45 :: z :: rest) by (by rewrite <-!app_assoc). apply take_app_length. }
  destruct (add_bytes_ok (CFCharacterSetAddCharactersInRange subset (CFRangeMake a (z - a + 1))) (ss ++ [a])) as (s' & -> & Hs').
  { apply Forall_app. split; [by apply byte_ascii, plain_bytes|]. apply Forall_singleton. unfold ascii. lia. }
  cbn [mbind res_bind]. rewrite (proj2 (Z.eqb_neq (zlen pre + zlen ss + 1) (zlen pre))) by lia.
  exists s'. split.
  - intros c. rewrite Hs', cs_range by lia. unfold in_block. rewrite bool_decide_elem_of_app_a, <-orb_assoc. f_equal.
    replace (c <? a + (z - a + 1)) with (c <=? z) by (destruct (Z.leb_spec c z), (Z.ltb_spec c (a + (z - a + 1))); done || lia).
    destruct (Z.eqb_spec c a) as [->|]; [|by rewrite orb_false_r, orb_comm].
    rewrite !(proj2 (Z.leb_le _ _)) by lia. by rewrite !orb_true_r.
  - assert (zlen pre + zlen ss + 1 + 2 = b) as -> by (unfold b; rewrite !zlen_app, !zlen_cons, zlen_nil; lia).
    assert (strchr_dash sptr b = Ok ((λ i, b + i) <$> index_where (λ c, c =? 45) rest)) as -> by (unfold sptr, b; rewrite app_assoc; apply strchr_ok).
    done.
Qed.

Lemma parse_blocks fuel bs pre tail subset : forallb good_block bs = true →
  let sptr := pre ++ (bs ≫= block_bytes) ++ tail in
  let b := zlen (pre ++ (bs ≫= block_bytes)) in
  ∃ subset', (∀ c, mem subset' c = mem subset c || in_blocks bs c) ∧
    parse_ranges (length bs + fuel) sptr (zlen pre) ((λ i, zlen pre + i) <$> index_where (λ c, c =? 45) ((bs ≫= block_bytes) ++ tail)) subset =
      parse_ranges fuel sptr b ((λ i, b + i) <$> index_where (λ c, c =? 45) tail) subset'.
Proof.
  revert pre subset. induction bs as [|[[ss a] z] bs IH]; intros pre subset Hg; cbv zeta.
  { exists subset. cbn. split; [intros; by rewrite orb_false_r|]. by rewrite app_nil_r. }
  cbn [forallb] in Hg. apply andb_true_iff in Hg as [Hb Hg]. rewrite bind_cons. cbn [block_bytes length Nat.add].
  pose proof Hb as (Hs & Ha & _)%good_block_iff.
  destruct (parse_block (length bs + fuel) pre ss a z ((bs ≫= block_bytes) ++ tail) subset Hb) as (s1 & H1 & E1). cbv zeta in E1.
  destruct (IH (pre ++ ss ++ [a; 45; z]) s1 Hg) as (s2 & H2 & E2). cbv zeta in E2.
  exists s2. split.
  { intros c. rewrite H2, H1. unfold in_blocks. cbn [existsb]. by rewrite orb_assoc. }
  assert (((λ i, zlen pre + i) <$> index_where (λ c, c =? 45) (((ss ++ [a; 45; z]) ++ (bs ≫= block_bytes)) ++ tail)) =
    Some (zlen pre + zlen ss + 1)) as ->.
  { replace (((ss ++ [a; 45; z]) ++ (bs ≫= block_bytes)) ++ tail) with ((ss ++ [a]) ++ 45 :: z :: (bs ≫= block_bytes) ++ tail)
      by (by rewrite <-!app_assoc).
    rewrite index_where_app; [cbn; rewrite zlen_app, zlen_cons, zlen_nil; f_equal; lia|].
    apply Forall_app. split; [by apply no_dash|]. apply Forall_singleton, Z.eqb_neq. lia. }
  rewrite <-!app_assoc in *. by rewrite E1, E2.
Qed.

Lemma block_count bs : (length bs ≤ length (bs ≫= block_bytes))%nat.
Proof. induction bs as [|[[ss a] z] bs IH]; [done|]. rewrite bind_cons. cbn [block_bytes]. rewrite !length_app. cbn. lia. Qed.

(** The blocks, and the characters at the end *)
Lemma parse_rest P bs tail : forallb good_block bs = true → forallb plain tail = true →
  let sptr := P ++ (bs ≫= block_bytes) ++ tail in
  ∃ b subset set, parse_ranges (Datatypes.S (length sptr)) sptr (zlen P)
      ((λ i, zlen P + i) <$> index_where (λ c, c =? 45) ((bs ≫= block_bytes) ++ tail)) CFCharacterSetCreateMutable = Ok (b, subset) ∧
    (if b <=? zlen sptr - 1 then add_bytes subset (slice b (zlen sptr - 1 - b + 1) sptr) else Ok subset) = Ok set ∧
    ∀ c, mem set c = in_blocks bs c || bool_decide (c ∈ tail).
Proof.
  intros Hb Ht sptr.
  pose proof (block_count bs) as Hlen.
  destruct (parse_blocks (Datatypes.S (length sptr) - length bs) bs P tail CFCharacterSetCreateMutable Hb) as (subset & Hm & E). cbv zeta in E.
  fold sptr in E. replace (length bs + _)%nat with (Datatypes.S (length sptr)) in E by (unfold sptr; rewrite !length_app; lia).
  rewrite (no_dash_index tail Ht) in E. exists (zlen (P ++ (bs ≫= block_bytes))), subset.
  assert (zlen sptr = zlen (P ++ (bs ≫= block_bytes)) + zlen tail) as El by (unfold sptr; by rewrite app_assoc, zlen_app).
  assert (drop (Z.to_nat (zlen (P ++ (bs ≫= block_bytes)))) sptr = tail) as Ed by (unfold sptr; rewrite app_assoc, to_nat_zlen; apply drop_app_length).
  rewrite E. destruct (Z.leb_spec (zlen (P ++ (bs ≫= block_bytes))) (zlen sptr - 1)) as [Hle|Hgt].
  - replace (zlen sptr - 1 - zlen (P ++ (bs ≫= block_bytes)) + 1) with (zlen sptr - zlen (P ++ (bs ≫= block_bytes))) by lia.
    rewrite slice_rest, Ed by (pose proof (zlen_nonneg (P ++ (bs ≫= block_bytes))); lia).
    destruct (add_bytes_ok subset tail) as (set & E' & Hs); [by apply byte_ascii, plain_bytes|].
    exists set. split_and!; [by destruct (_ - _)%nat|done|]. intros c. by rewrite Hs, Hm, cs_create.
  - assert (tail = []) as -> by (destruct tail; [done|]; rewrite zlen_cons in El; pose proof (zlen_nonneg tail); lia).
    exists subset. split_and!; [by destruct (_ - _)%nat|done|]. intros c. rewrite Hm, cs_create. cbn. by rewrite orb_false_r.
Qed.

Lemma rstring_ptr s : ascii_of s → RSTRING_PTR s = Some (schars s).
Proof.
  intros Hs. unfold RSTRING_PTR, RSTRING_LEN. rewrite cf_length. fold (schars s). destruct (Z.eqb_spec (zlen (schars s)) 0) as [E|E].
  - destruct (schars s); [done|]. rewrite zlen_cons in E. pose proof (zlen_nonneg l). lia.
  - by rewrite cf_cstring.
Qed.

Lemma spec_bytes_ok sp : good_spec sp = true → Forall byte_ok (spec_bytes sp).
Proof.
  unfold good_spec, spec_bytes. rewrite !andb_true_iff. intros [[Hb Ht] _]. rewrite !Forall_app.
  split_and!; [|by apply blocks_bytes|by apply plain_bytes]. destruct (cs_exclude sp); [|done]. by apply Forall_singleton.
Qed.

(** The set of an argument *)
Lemma parse_charset_ok s sp : good_spec sp = true → schars s = spec_bytes sp →
  ∃ set, parse_charset s = Ok set ∧ ∀ c, mem set c = in_spec sp c.
Proof.
  intros Hg E. pose proof (spec_bytes_ok sp Hg) as Hok.
  assert (ascii_of s) as Ha by (unfold ascii_of, ascii_str; change (Forall ascii (schars s)); rewrite E; by apply byte_ascii).
  unfold good_spec in Hg. apply andb_true_iff in Hg as [[Hb Ht]%andb_true_iff Hx].
  unfold parse_charset. rewrite (rstring_ptr s Ha). cbn [of_option mbind res_bind]. rewrite E, (before_nul_ok _ Hok).
  destruct sp as [x bs tail]. unfold in_spec, spec_bytes in *. cbn [cs_exclude cs_blocks cs_tail] in *. destruct x.
  - rewrite (proj2 (aload_ok _ _ 94)) by done. cbn [mbind res_bind Z.eqb Pos.eqb orb]. change 1 with (zlen [94]) at 2.
    rewrite strchr_ok. cbn [mbind res_bind]. destruct (parse_rest [94] bs tail Hb Ht) as (b & subset & set & E1 & E2 & Hm).
    change (zlen [94]) with 1 in *. rewrite E1. cbn [mbind res_bind]. rewrite E2. cbn [mbind res_bind].
    exists (CFCharacterSetInvert set). split; [done|]. intros c. rewrite cs_invert, Hm. by destruct (_ || _).
  - cbn [app orb negb] in *. apply negb_true_iff, bool_decide_eq_false in Hx. set (l := (bs ≫= block_bytes) ++ tail) in *.
    assert (∃ c0, aload (l ++ [0]) 0 = Ok c0 ∧ (c0 =? 94) = false) as (c0 & -> & E0).
    { destruct l as [|c0 l']; [by exists 0|]. exists c0. split; [done|]. apply Z.eqb_neq. by intros ->. }
    cbn [mbind res_bind]. rewrite E0, (strchr_ok [] l : strchr_dash l 0 = _).
    cbn [mbind res_bind orb]. destruct (parse_rest [] bs tail Hb Ht) as (b & subset & set & E1 & E2 & Hm).
    cbn [app] in E1, E2. fold l in E1, E2. change (zlen (@nil Z)) with 0 in *.
    destruct (index_where (λ c, c =? 45) l) as [i|] eqn:Ei; cbn [fmap option_fmap option_map] in *.
    + rewrite bool_decide_eq_false_2 by done. cbn [negb mbind res_bind]. rewrite E1. cbn [mbind res_bind]. rewrite E2.
      cbn [mbind res_bind]. exists set. split; [done|]. intros c. rewrite Hm. by destruct (_ || _).
    + rewrite bool_decide_eq_true_2 by done. cbn [negb]. eexists. split; [done|]. intros c. rewrite cs_string, cs_create by done.
      cbn [orb]. fold (schars s). rewrite E. destruct bs as [|[[ss a] z] bs]; [by destruct (bool_decide _)|].
      exfalso. cbn [forallb] in Hb. apply andb_true_iff in Hb as [(Hs' & Ha' & _)%good_block_iff _].
      unfold l in Ei. rewrite bind_cons in Ei. cbn [block_bytes] in Ei. rewrite <-!app_assoc, index_where_app in Ei by by apply no_dash.
      cbn in Ei. rewrite (proj2 (Z.eqb_neq a 45)) in Ei by lia. done.
Qed.

(** All the arguments: a character is in the set if it is in the set of each of them. *)
Definition denote (args : list rstr) (sps : list charspec) : Prop :=
  Forall2 (λ s sp, good_spec sp = true ∧ schars s = spec_bytes sp) args sps.

Lemma parse_charsets_more args sps acc : denote args sps →
  ∃ set, parse_charsets (Some acc) args = Ok (Some set) ∧ ∀ c, mem set c = mem acc c && forallb (λ sp, in_spec sp c) sps.
Proof.
  intros H. revert acc. induction H as [|s sp args sps [Hg E] H IH]; intros acc; cbn [parse_charsets forallb].
  { exists acc. split; [done|]. intros. by rewrite andb_true_r. }
  destruct (parse_charset_ok s sp Hg E) as (set & -> & Hs). cbn [mbind res_bind].
  destruct (IH (CFCharacterSetIntersect acc set)) as (set' & -> & Hs'). exists set'. split; [done|].
  intros c. by rewrite Hs', cs_intersect, Hs, andb_assoc.
Qed.

Lemma parse_charsets_ok args sps : denote args sps → args ≠ [] →
  ∃ set, parse_charsets None args = Ok (Some set) ∧ ∀ c, mem set c = forallb (λ sp, in_spec sp c) sps.
Proof.
  intros H Hne. destruct H as [|s sp args sps [Hg E] H]; [done|]. cbn [parse_charsets forallb].
  destruct (parse_charset_ok s sp Hg E) as (set & -> & Hs). cbn [mbind res_bind].
  destruct (parse_charsets_more args sps set H) as (set' & -> & Hs'). exists set'. split; [done|]. intros c. by rewrite Hs', Hs.
Qed.

(** A dash at the end: the search for the next one begins behind the NUL. *)
Lemma parse_ranges_dash_end fuel P tail c subset : forallb plain (tail ++ [c]) = true →
  parse_ranges (Datatypes.S fuel) (P ++ tail ++ [c; 45]) (zlen P) (Some (zlen P + (zlen (tail ++ [c]) + 0))) subset = Err OutOfBounds.
Proof.
  intros Ht. cbn [parse_ranges]. set (sptr := P ++ tail ++ [c; 45]). pose proof (zlen_nonneg tail) as H1. pose proof (zlen_nonneg P) as H2.
  rewrite zlen_app, zlen_cons, zlen_nil. rewrite (proj2 (Z.ltb_lt _ _)) by lia.
  assert (∀ i x, zlookup [c; 45; 0] i = Some x → aload (sptr ++ [0]) (zlen P + zlen tail + i) = Ok x) as Hat.
  { intros i x Hi. pose proof (zlookup_Some_range _ _ _ Hi) as [Hi0 Hi1]. apply aload_ok. unfold sptr. rewrite <-!app_assoc.
    rewrite zlookup_app_r by lia. rewrite zlookup_app_r by lia. by replace (_ - zlen P - zlen tail) with i by lia. }
  replace (zlen P + _ - 1) with (zlen P + zlen tail + 0) by lia. rewrite (Hat 0 c) by done. cbn [mbind res_bind].
  replace (zlen P + _ + 1) with (zlen P + zlen tail + 2) by lia. rewrite (Hat 2 0) by done. cbn [mbind res_bind Z.eqb negb].
  rewrite andb_false_r. cbn [mbind res_bind].
  destruct (add_bytes_ok subset (slice (zlen P) (zlen P + (zlen tail + (1 + 0) + 0) - zlen P) sptr)) as (s' & E & _).
  { replace sptr with (P ++ (tail ++ [c]) ++ [45]) by (unfold sptr; by rewrite <-!app_assoc).
    unfold slice. rewrite to_nat_zlen, drop_app_length. replace (Z.to_nat _) with (length (tail ++ [c])) by (rewrite length_app; cbn; unfold zlen in *; lia).
    rewrite take_app_length. by apply byte_ascii, plain_bytes. }
  replace (zlen tail + Z.succ 0) with (zlen tail + (1 + 0)) by lia. rewrite E. cbn [mbind res_bind].
  rewrite (proj2 (Z.eqb_neq _ _)) by lia. unfold strchr_dash.
  rewrite (proj2 (Z.ltb_lt _ _)); [done|]. unfold sptr. rewrite !zlen_app, !zlen_cons, zlen_nil. lia.
Qed.

Lemma parse_charset_dash_end s bs tail c : forallb good_block bs = true → forallb plain (tail ++ [c]) = true →
  head ((bs ≫= block_bytes) ++ tail ++ [c]) ≠ Some 94 →
  schars s = (bs ≫= block_bytes) ++ tail ++ [c; 45] → parse_charset s = Err OutOfBounds.
Proof.
  intros Hb Ht Hx E. pose proof Ht as Hok%plain_bytes. apply Forall_app in Hok as [Hk1 Hk2].
  assert (Forall byte_ok (schars s)) as Hok.
  { rewrite E, !Forall_app. split_and!; [by apply blocks_bytes|done|]. apply Forall_cons. split; [by rewrite Forall_singleton in Hk2|]. apply Forall_singleton. unfold byte_ok. lia. }
  unfold parse_charset. rewrite rstring_ptr by by apply byte_ascii. cbn [of_option mbind res_bind]. rewrite before_nul_ok by done.
  assert (∃ c0, aload (schars s ++ [0]) 0 = Ok c0 ∧ (c0 =? 94) = false) as (c0 & -> & E0).
  { rewrite E. replace ((bs ≫= block_bytes) ++ tail ++ [c; 45]) with (((bs ≫= block_bytes) ++ tail ++ [c]) ++ [45]) by (by rewrite <-!app_assoc).
    destruct ((bs ≫= block_bytes) ++ tail ++ [c]) as [|c0 l']; [by exists 45|]. exists c0. split; [done|]. apply Z.eqb_neq. by intros ->. }
  cbn [mbind res_bind]. rewrite E0, (strchr_ok [] (schars s) : strchr_dash (schars s) 0 = _). cbn [mbind res_bind orb]. change (zlen (@nil Z)) with 0.
  destruct (parse_blocks (Datatypes.S (length (schars s)) - length bs) bs [] (tail ++ [c; 45]) CFCharacterSetCreateMutable Hb) as (subset & _ & Eb).
  cbn [app] in Eb. change (zlen (@nil Z)) with 0 in Eb. rewrite <-E in Eb.
  assert (length bs + 1 ≤ length (schars s))%nat as Hlen.
  { rewrite E. clear. rewrite !length_app. cbn. pose proof (block_count bs). lia. }
  replace (length bs + _)%nat with (Datatypes.S (length (schars s))) in Eb by lia.
  assert (index_where (λ c, c =? 45) (tail ++ [c; 45]) = Some (zlen (tail ++ [c]) + 0)) as Ei.
  { replace (tail ++ [c; 45]) with ((tail ++ [c]) ++ [45]) by (by rewrite <-app_assoc). by rewrite index_where_app by by apply no_dash. }
  rewrite Ei in Eb. replace (Datatypes.S (length (schars s)) - length bs)%nat with (Datatypes.S (length (schars s) - length bs)) in Eb by lia.
  rewrite E in Eb at 5. cbn [fmap option_fmap option_map] in Eb. rewrite parse_ranges_dash_end in Eb by done.
  destruct (index_where (λ c, c =? 45) (schars s)) as [i|] eqn:Ej; cbn [fmap option_fmap option_map bool_decide negb] in *.
  - rewrite bool_decide_eq_false_2 by done. cbn [negb mbind res_bind]. by rewrite Eb.
  - by destruct (Datatypes.S (length (schars s))).
Qed.
End parse.
