(* ===== verification/StrSetOps.v ===== *)
(** * Methods on sets of characters

    [delete], [squeeze], [count], [tr] and [tr_s] on the characters of a string. *)

From S2P Require Import Prelude RArray Util Big BigStr Numeric CFString Str StrSet StrSpec StrSetSpec StrParse.

Section set_methods.
Context `{J : Junk} `{F : CFStrings} `{L : !CFStringLaws} `{S : !CFCharacterSets} `{SL : !CFCharacterSetLaws} (safe_level : Z).

Notation mem := CFCharacterSetIsCharacterMember.

(** ** The callbacks *)

Lemma take_pre {A} (l k : list A) : take (Z.to_nat (zlen l)) (l ++ k) = l.
Proof. rewrite to_nat_zlen. apply take_app_length. Qed.

Lemma drop_pre {A} (l k r : list A) : drop (Z.to_nat (zlen l + zlen k)) (l ++ k ++ r) = r.
Proof. rewrite app_assoc, <-zlen_app, to_nat_zlen. apply drop_app_length. Qed.

Lemma cf_delete_run t A run B : chars t = A ++ run ++ B →
  returns (cf_del t (CFRangeMake (zlen A) (zlen run))) (λ t', chars t' = A ++ B).
Proof.
  intros E. pose proof (zlen_nonneg A). pose proof (zlen_nonneg run). pose proof (zlen_nonneg B).
  eapply returns_mono; [apply cf_del_ok; [done|done|rewrite E, !zlen_app; lia]|].
  intros t' ->. by rewrite E, take_pre, drop_pre.
Qed.

Lemma replace_run t A run B u : chars t = A ++ run ++ B →
  returns (cf_repl t (CFRangeMake (zlen A) (zlen run)) u) (λ t', chars t' = A ++ chars u ++ B).
Proof.
  intros E. pose proof (zlen_nonneg A). pose proof (zlen_nonneg run). pose proof (zlen_nonneg B).
  eapply returns_mono; [apply cf_repl_ok; [done|done|rewrite E, !zlen_app; lia]|].
  intros t' ->. by rewrite E, take_pre, drop_pre.
Qed.

Lemma delete_replaces run : replaces rb_str_delete_bang_cb (λ _, []) id (λ _ _, true) (λ _, True) run.
Proof.
  intros sr t p x A B E Hhd _ Hend Hloc. rewrite zlen_nil. pose proof (zlen_nonneg run). split; [lia|].
  unfold rb_str_delete_bang_cb. eapply returns_bind_mono; [by apply cf_delete_run|]. intros t' Et. apply returns_ret. cbn [location rlength].
  rewrite Et. rewrite E in Hend. rewrite !zlen_app in *. pose proof (zlen_nonneg A). split_and!; try done; lia.
Qed.

Lemma squeeze_replaces charset run : good_run charset true run →
  replaces rb_str_squeeze_bang_cb (λ run, take 1 (id <$> run)) id (λ v run, v || (1 <? zlen run)) (λ _, True) run.
Proof.
  intros [_ Hs] sr t p x A B E Hhd _ Hend Hloc. destruct run as [|c run]; [done|]. injection Hhd as ->.
  assert (∃ init, p :: run = init ++ [p] ∧ zlen init = zlen (p :: run) - 1) as (init & Ei & Hi).
  { destruct (exists_last (l := p :: run)) as (init & q & Eq); [done|]. exists init.
    assert (Some p = Some q) as [= ->] by (apply Hs; [done|]; rewrite Eq; set_solver). split; [done|]. rewrite Eq, zlen_app, zlen_cons, zlen_nil. lia. }
  cbn [fmap list_fmap take]. change (id p) with p. change [p] with ([] ++ [p]) in *. rewrite take_0 in *. pose proof (zlen_nonneg run) as Hr.
  rewrite !zlen_cons, zlen_nil in *. split; [lia|]. unfold rb_str_squeeze_bang_cb. cbn [location rlength]. pose proof (zlen_nonneg A). pose proof (zlen_nonneg B).
  destruct (Z.ltb_spec 1 (1 + zlen run)) as [Hlt|Hge].
  - rewrite Ei in E. rewrite <-Hi. rewrite <-app_assoc in E. eapply returns_bind_mono; [by apply cf_delete_run|]. intros t' Et. apply returns_ret. cbn [location rlength].
    rewrite Et. rewrite E in Hend. rewrite !zlen_app in *. cbn [app] in *. rewrite !zlen_cons, ?zlen_nil in *. rewrite orb_true_r. split_and!; try done; try lia.
  - apply returns_ret. assert (run = []) as -> by (destruct run; [done|]; rewrite zlen_cons in Hge; pose proof (zlen_nonneg run); lia).
    rewrite orb_false_r, zlen_nil in *. split_and!; try done; lia.
Qed.

Lemma count_replaces run : replaces rb_str_count_cb id id (λ v run, s32 (v + zlen run)) (λ _, True) run.
Proof.
  intros sr t p x A B E Hhd _ Hend Hloc. split; [done|]. apply returns_ret. cbn [rlength]. pose proof (zlen_nonneg run). unfold id. split_and!; try done; lia.
Qed.

(** ** [delete], [squeeze] and [count] *)

(** The characters that all the arguments denote *)
Definition selects (sps : list charspec) (c : Z) : bool := forallb (λ sp, in_spec sp c) sps.

Lemma tr_runs_ext {V} m m' sq g (upd : V → list Z → V) run l v : (∀ c, m c = m' c) → tr_runs m sq g upd run l v = tr_runs m' sq g upd run l v.
Proof. intros H. revert run v. induction l as [|c l IH]; intros run v; cbn [tr_runs]; [done|]. rewrite <-H. destruct (m c); repeat case_match; rewrite ?IH in *; congruence. Qed.

(** The search for the set of the arguments *)
Lemma charset_find_ok {X V} (cb : callback (X := X)) sq g (view : X → V) upd inv c args sps x :
  denote args sps → args ≠ [] → inv x →
  (∀ charset run, (∀ c, mem charset c = selects sps c) → run ≠ [] → good_run charset sq run → replaces cb g view upd inv run) →
  returns (str_charset_find c args sq cb x) (λ '(c', x'),
    let W := tr_runs (selects sps) sq g upd [] (chars c) (view x) in chars c' = W.1 ∧ view x' = W.2 ∧ inv x').
Proof.
  intros Hd Hne Hx Hcb. destruct (parse_charsets_ok args sps Hd Hne) as (set & Hp & Hm).
  eapply returns_mono; [apply (str_charset_find_spec cb set sq g view upd inv); [intros; by eapply Hcb|done|done|done]|].
  intros [c' x']. by rewrite (tr_runs_ext _ (selects sps)).
Qed.

Lemma delete_spec s args sps : writable safe_level s → denote args sps → args ≠ [] →
  returns (rb_str_delete_bang safe_level s args) (λ '(changed, s'),
    schars s' = filter (λ c, selects sps c = false) (schars s) ∧ changed = existsb (selects sps) (schars s)).
Proof.
  intros Hw Hd Hne. unfold rb_str_delete_bang. rewrite (proj2 (Z.ltb_ge _ _)) by (destruct args; [done|]; rewrite zlen_cons; pose proof (zlen_nonneg args); lia).
  rewrite (modify_ok _ _ Hw). cbn [mbind res_bind]. eapply returns_bind_mono.
  { apply (charset_find_ok rb_str_delete_bang_cb false (λ _, []) id (λ _ _, true) (λ _, True) _ _ sps); [done|done|done|]. intros. apply delete_replaces. }
  intros [c b] (Ec & Eb & _). apply returns_ret. rewrite runs_delete in Ec. rewrite runs_changed in Eb. done.
Qed.

Lemma squeeze_bang_spec all s args sps : writable safe_level s → denote args sps → args ≠ [] →
  returns (rb_str_squeeze_bang safe_level all s args) (λ '(changed, s'),
    schars s' = collapse (selects sps) true None (schars s) ∧ changed = (zlen (schars s') <? zlen (schars s))).
Proof.
  intros Hw Hd Hne. unfold rb_str_squeeze_bang. rewrite (proj2 (Z.eqb_neq (zlen args) 0)) by (destruct args; [done|]; rewrite zlen_cons; pose proof (zlen_nonneg args); lia).
  rewrite (modify_ok _ _ Hw). cbn [mbind res_bind]. eapply returns_bind_mono.
  { apply (charset_find_ok rb_str_squeeze_bang_cb true (λ run, take 1 (id <$> run)) id (λ v run, v || (1 <? zlen run)) (λ _, True) _ _ sps); [done|done|done|].
    intros set run _ _. apply squeeze_replaces. }
  intros [c b] (Ec & Eb & _). apply returns_ret. change (schars (set_content s c)) with (chars c). fold (schars s) in *.
  destruct (runs_squeezed (selects sps) true id [] (schars s) false) as [Hq _]. cbv zeta in Hq. change (id false) with false in *. change (id b) with b in Eb. rewrite Eb, Hq, <-Ec.
  rewrite runs_collapse in Ec by done. split; [|done]. rewrite Ec. cbn [head fmap list_fmap take app].
  etransitivity; [|apply list_fmap_id]. apply list_fmap_ext. intros ? c' _. unfold on_set. by destruct (selects sps c').
Qed.

Lemma count_spec s args sps : denote args sps → args ≠ [] →
  rb_str_count s args = Ok (s32 (zlen (filter (λ c, selects sps c = true) (schars s)))).
Proof.
  intros Hd Hne. apply returns_eq. unfold rb_str_count. rewrite (proj2 (Z.ltb_ge _ _)) by (destruct args; [done|]; rewrite zlen_cons; pose proof (zlen_nonneg args); lia).
  eapply returns_bind_mono.
  { apply (charset_find_ok rb_str_count_cb false id id (λ v run, s32 (v + zlen run)) (λ _, True) _ _ sps); [done|done|done|]. intros. apply count_replaces. }
  intros [c n] (_ & En & _). apply returns_ret. change (id 0) with (s32 0) in En. rewrite runs_count in En. rewrite zlen_nil in En. exact En.
Qed.
End set_methods.

(** * Translation of characters

    [tr] and [tr_s]: the table that two lists or ranges of characters define, and the string in which the
    characters are translated. *)

(** ** The table *)

(** A list of characters, or one range *)
Inductive trspec := TList (l : list Z) | TRange (a z : Z).

Definition tr_bytes (t : trspec) : list Z := match t with TList l => l | TRange a z => [a; 45; z] end.
Definition tr_charspec (t : trspec) : charspec :=
  match t with TList l => CharSpec false [] l | TRange a z => CharSpec false [([], a, z)] [] end.
Definition good_tr (t : trspec) : bool := good_spec (tr_charspec t).

(** The place of a character, and the character at a place: behind a list is the NUL that ends it, and behind
    that its last character *)
Definition tr_delta (t : trspec) (c : Z) : Z :=
  match t with TList l => default 0 (index_where (λ d, d =? c) l) | TRange a _ => c - a end.
Definition tr_pick (t : trspec) (d : Z) : Z :=
  match t with
  | TList l => if zlen l <? d then List.last l 0 else default 0 (zlookup (l ++ [0]) d)
  | TRange a z => if z - a <? d then z else a + d
  end.
Definition tr_char (src repl : trspec) (c : Z) : Z :=
  if (zlen (tr_bytes repl) =? 1) || (zlen (tr_bytes src) =? 1) then default 0 (head (tr_bytes repl))
  else tr_pick repl (tr_delta src c).

(** The characters that [src] denotes *)
Definition tr_mem (src : trspec) (c : Z) : bool :=
  match src with TList l => bool_decide (c ∈ l) | TRange a z => (a <=? c) && (c <=? z) end.

Lemma tr_bytes_spec t : spec_bytes (tr_charspec t) = tr_bytes t.
Proof. by destruct t. Qed.

Lemma tr_mem_spec t c : selects [tr_charspec t] c = tr_mem t c.
Proof. unfold selects, in_spec. cbn. rewrite andb_true_r. destruct t; cbn; [by destruct (bool_decide _)|]. rewrite !orb_false_r. by destruct (_ && _). Qed.

Lemma good_tr_bytes t : good_tr t = true → Forall byte_ok (tr_bytes t).
Proof. intros H. rewrite <-tr_bytes_spec. by apply spec_bytes_ok. Qed.

Lemma tr_mem_ascii t c : good_tr t = true → tr_mem t c = true → byte_ok c.
Proof.
  intros Hg. pose proof (good_tr_bytes t Hg) as Hb. destruct t as [l|a z]; cbn in *.
  - intros Hc%bool_decide_eq_true. by eapply Forall_forall in Hb.
  - rewrite !Forall_cons in Hb. destruct Hb as (Ha & _ & Hz & _). unfold byte_ok in *. rewrite andb_true_iff, !Z.leb_le. lia.
Qed.

(** What [tr] makes of its arguments *)
Lemma tr_range_ok t : good_tr t = true →
  tr_range (tr_bytes t) = Ok (match t with TList _ => None | TRange a z => Some (a, z) end).
Proof.
  intros Hg. pose proof (good_tr_bytes t Hg) as Hb. destruct t as [l|a z]; cbn [tr_bytes] in *.
  - unfold good_tr, good_spec in Hg. cbn in Hg. apply andb_true_iff in Hg as [Hp Hx]. apply negb_true_iff, bool_decide_eq_false in Hx.
    unfold spec_bytes in Hx. cbn in Hx.
    assert ((default 0 (head l) =? 94) || bool_decide (45 ∈ l) = false) as Hn.
    { apply orb_false_iff. split.
      - destruct l; [done|]. cbn in *. apply Z.eqb_neq. congruence.
      - apply bool_decide_eq_false. intros Hin. apply forallb_plain in Hp. eapply Forall_forall in Hp; [|exact Hin]. cbn in Hp. lia. }
    unfold tr_range. destruct l as [|b [|m [|e [|]]]]; rewrite ?Hn; try done. destruct (Z.eqb_spec m 45) as [->|]; [|by cbn in Hn; rewrite Hn].
    apply forallb_plain in Hp. rewrite !Forall_cons in Hp. lia.
  - cbn. rewrite !Forall_cons in Hb. unfold byte_ok in Hb. by rewrite !schar_ascii by lia.
Qed.

Lemma index_where_elem (l k : list Z) c : c ∈ l → index_where (λ d, d =? c) (l ++ k) = index_where (λ d, d =? c) l ∧
  ∃ i, index_where (λ d, d =? c) l = Some i ∧ 0 ≤ i < zlen l.
Proof.
  induction l as [|d l IH]; [by intros ?%elem_of_nil|]. cbn [app index_where]. rewrite zlen_cons. pose proof (zlen_nonneg l). destruct (Z.eqb_spec d c) as [->|Hd].
  - intros _. split; [done|]. exists 0. split; [done|lia].
  - intros Hin. destruct IH as [-> (i & -> & Hi)]; [set_solver|]. split; [done|]. exists (Z.succ i). split; [done|lia].
Qed.

Lemma delta_ok src c : good_tr src = true → tr_mem src c = true → 0 ≤ tr_delta src c ∧
  match src with
  | TList l => index_where (λ d, schar d =? schar (Z.land c 255)) (l ++ [0]) = Some (tr_delta src c)
  | TRange a z => (a <=? c) && (c <=? z) = true
  end.
Proof.
  intros Hsrc Hm. pose proof (tr_mem_ascii _ _ Hsrc Hm) as Hc. pose proof (good_tr_bytes _ Hsrc) as Hb. destruct src as [l|a z]; cbn in *.
  - apply bool_decide_eq_true in Hm. change 255 with (Z.ones 8). unfold byte_ok in Hc. rewrite Z.land_ones, Z.mod_small, schar_ascii by lia.
    destruct (index_where_elem l [0] c Hm) as (E & i & Ei & Hi). rewrite Ei in *. cbn. split; [lia|]. rewrite <-E.
    assert (∀ k, Forall ascii k → index_where (λ d, schar d =? c) k = index_where (λ d, d =? c) k) as ->; [|done|].
    + induction 1 as [|d k Hd Hk IH]; [done|]. cbn. unfold ascii in Hd. by rewrite schar_ascii, IH by lia.
    + apply Forall_app. split; [by apply byte_ascii|by apply Forall_singleton].
  - apply andb_true_iff in Hm as [Ha Hz]. rewrite Ha, Hz. apply Z.leb_le in Ha. split; [lia|done].
Qed.
Section translate.
Context `{J : Junk} `{F : CFStrings} `{L : !CFStringLaws} `{S : !CFCharacterSets} `{SL : !CFCharacterSetLaws} (safe_level : Z).
Context (src repl : trspec) (fl : bool) (Hsrc : good_tr src = true) (Hrepl : good_tr repl = true) (Hne : tr_bytes repl ≠ []).

Notation rlen := (zlen (tr_bytes repl)).
Notation slen := (zlen (tr_bytes src)).
Notation f := (tr_char src repl).

(** The character that [opt] holds *)
Definition tr_opt : Z := if slen =? 1 then default 0 (head (tr_bytes repl)) else List.last (tr_bytes repl) 0.

Definition tr_inv (x : tr_trans_cb_ctx) : Prop :=
  tr_src x = tr_bytes src ∧ tr_repl x = tr_bytes repl ∧ schars (orepl x) = tr_bytes repl ∧ sflag x = fl ∧
  ∀ o, opt x = Some o → chars o = [tr_opt].

(** A substitute, which leaves the context consistent *)
Definition substitutes (d : Z) (x : tr_trans_cb_ctx) (r : cfstring * tr_trans_cb_ctx) : Prop :=
  chars r.1 = [d] ∧ tr_inv r.2 ∧ changed r.2 = changed x.

Lemma one_byte b : 0 ≤ b < 128 → returns (of_option BadPointer (CFStringCreateWithBytes [b])) (λ t, chars t = [b]).
Proof. intros Hb. destruct (cs_bytes [b]) as (t & -> & E); [by apply Forall_singleton|]. by apply returns_ret. Qed.

Lemma use_opt_ok x i : tr_inv x → zlookup (tr_bytes repl) i = Some tr_opt → returns (use_opt x i) (substitutes tr_opt x).
Proof.
  intros (E1 & E2 & E3 & E4 & Eo) Hi. unfold use_opt. destruct (opt x) as [o|] eqn:E.
  { apply returns_ret. split_and!; [by apply Eo| |done]. unfold tr_inv. cbn. by rewrite E. }
  rewrite E2, (proj2 (aload_ok _ _ tr_opt)); [|pose proof (zlookup_Some_range _ _ _ Hi); by rewrite zlookup_app_l by lia]. cbn [mbind res_bind].
  eapply returns_bind_mono; [apply one_byte|].
  { pose proof (good_tr_bytes repl Hrepl) as Hb. pose proof (zlookup_Some_range _ _ _ Hi). rewrite zlookup_nonneg in Hi by lia.
    eapply Forall_lookup_1 in Hb; [|exact Hi]. unfold byte_ok in Hb. lia. }
  intros t Et. apply returns_ret. split_and!; [done| |done]. unfold tr_inv. cbn. split_and!; try done. by intros o [= <-].
Qed.

Lemma tr_last : zlookup (tr_bytes repl) (rlen - 1) = Some (List.last (tr_bytes repl) 0).
Proof.
  destruct (exists_last Hne) as (l & a & ->). rewrite last_last, zlen_app, zlen_cons, zlen_nil, zlookup_app_r by lia.
  by replace (_ - zlen l) with 0 by lia.
Qed.

End translate.

Section substitutes.
Context `{J : Junk} `{F : CFStrings} `{L : !CFStringLaws} `{S : !CFCharacterSets} `{SL : !CFCharacterSetLaws}.

Lemma tr_substr_ok src repl fl c x : good_tr src = true → good_tr repl = true → tr_bytes repl ≠ [] → zlen (tr_bytes src) ≠ 1 →
  tr_inv src repl fl x → tr_mem src c = true →
  returns (tr_substr c x) (substitutes src repl fl (tr_pick repl (tr_delta src c)) x).
Proof.
  intros Hs Hr Hne H1 Hinv Hm. pose proof Hinv as (E1 & E2 & _). destruct (delta_ok src c Hs Hm) as [Hd0 Hd].
  pose proof (good_tr_bytes _ Hr) as Hb. pose proof (use_opt_ok src repl fl Hr x (zlen (tr_bytes repl) - 1) Hinv) as Hopt.
  unfold tr_opt in Hopt. rewrite (proj2 (Z.eqb_neq _ _)) in Hopt by done. specialize (Hopt (tr_last repl Hne)).
  assert (∀ d, 0 ≤ d < 128 → returns (of_option BadPointer (CFStringCreateWithBytes [d]) ≫= λ t, Ok (t, x)) (substitutes src repl fl d x)) as Hbyte.
  { intros d Hd'. eapply returns_bind_mono; [by apply one_byte|]. intros t Et. apply returns_ret. done. }
  unfold tr_substr. rewrite E1, E2, !tr_range_ok by done. cbn [mbind res_bind].
  assert (match match src with TList _ => None | TRange a z => Some (a, z) end with
    | Some (sb, se) => _ ← check ((sb <=? c) && (c <=? se)) AssertFailed; Ok (c - sb)
    | None => of_option AssertFailed (index_where (λ d, schar d =? schar (Z.land c 255)) (tr_bytes src ++ [0]))
    end = Ok (tr_delta src c)) as ->.
  { destruct src as [l|a z]; cbn [tr_bytes]; by rewrite Hd. }
  cbn [mbind res_bind]. set (d := tr_delta src c) in *. clearbody d. clear Hd.
  destruct repl as [l|a z]; cbn [tr_bytes tr_pick] in *.
  - destruct (Z.ltb_spec (zlen l) d); [exact Hopt|].
    destruct (zlookup_is_Some (l ++ [0]) d) as [r Er]; [rewrite zlen_app, zlen_cons, zlen_nil; lia|].
    rewrite (proj2 (aload_ok _ _ _) Er), Er. cbn [mbind res_bind default]. apply Hbyte.
    assert (Forall ascii (l ++ [0])) as Ha by (apply Forall_app; split; [by apply byte_ascii|by apply Forall_singleton]).
    rewrite zlookup_nonneg in Er by lia. eapply Forall_lookup_1 in Ha; [|exact Er]. done.
  - destruct (Z.ltb_spec (z - a) d); [exact Hopt|]. rewrite !Forall_cons in Hb. unfold byte_ok in Hb.
    cbn [mbind res_bind]. change 255 with (Z.ones 8). rewrite Z.land_ones, Z.mod_small by lia. apply Hbyte. lia.
Qed.

(** One character after the other *)
Lemma replace_chars t A run B u d : chars t = A ++ run ++ B → chars u = [d] →
  returns (for_range (zlen A) (zlen A + zlen run) (λ n t, cf_repl t (CFRangeMake n 1) u) t)
    (λ t', chars t' = A ++ replicate (length run) d ++ B).
Proof.
  intros E Eu. pose proof (zlen_nonneg run). eapply returns_mono.
  { apply (for_range_inv (λ i t', chars t' = A ++ replicate (Z.to_nat (i - zlen A)) d ++ drop (Z.to_nat (i - zlen A)) run ++ B)); [lia| |].
    - by rewrite Z.sub_diag.
    - intros j t' Hj Et. destruct (zlookup_is_Some run (j - zlen A)) as [c Hc]; [lia|]. rewrite zlookup_nonneg in Hc by lia.
      rewrite (drop_S _ _ _ Hc), app_assoc in Et.
      assert (zlen (A ++ replicate (Z.to_nat (j - zlen A)) d) = j) as Ej by (rewrite zlen_app, zlen_replicate; lia).
      rewrite <-Ej at 1. change 1 with (zlen [c]) at 1. eapply returns_mono; [apply (replace_run _ _ [c] _ _ Et)|].
      intros t'' ->. rewrite Eu. replace (Z.to_nat (j + 1 - zlen A)) with (Datatypes.S (Z.to_nat (j - zlen A))) by lia.
      rewrite replicate_S_end, <-!app_assoc. done. }
  cbn beta. intros t' ->. replace (zlen A + zlen run - zlen A) with (zlen run) by lia. rewrite to_nat_zlen, drop_all. done.
Qed.
End substitutes.

(** ** The methods *)

Section tr_methods.
Context `{J : Junk} `{F : CFStrings} `{L : !CFStringLaws} `{S : !CFCharacterSets} `{SL : !CFCharacterSetLaws} (safe_level : Z).

(** What becomes of a run *)
Definition tr_run (src repl : trspec) (fl : bool) (run : list Z) : list Z :=
  if fl then take 1 (tr_char src repl <$> run) else tr_char src repl <$> run.

Lemma tr_same src repl sq charset p run : good_run charset sq (p :: run) → (sq = true ∨ zlen (tr_bytes repl) = 1) →
  tr_char src repl <$> p :: run = replicate (length (p :: run)) (tr_char src repl p).
Proof.
  intros [_ Hs] Hor. rewrite <-const_fmap with (l := p :: run) (f := λ _, tr_char src repl p) by done. apply list_fmap_ext. intros i c Hc. apply list_elem_of_lookup_2 in Hc.
  destruct Hor as [Hsq|H1]; [by injection (Hs Hsq c Hc) as ->|]. unfold tr_char. by rewrite H1.
Qed.

Lemma tr_substitute src repl fl c x : good_tr src = true → good_tr repl = true → tr_bytes repl ≠ [] →
  tr_inv src repl fl x → tr_mem src c = true →
  returns (if zlen (tr_repl x) =? 1 then Ok (content (orepl x), x) else if zlen (tr_src x) =? 1 then use_opt x 0 else tr_substr c x)
    (substitutes src repl fl (tr_char src repl c) x).
Proof.
  intros Hs Hr Hne Hinv Hm. pose proof Hinv as (E1 & E2 & E3 & _). rewrite E1, E2. unfold tr_char.
  destruct (Z.eqb_spec (zlen (tr_bytes repl)) 1) as [H1|H1]; cbn [orb].
  - apply returns_ret. split_and!; [|done|done]. cbn. change (chars (content (orepl x))) with (schars (orepl x)). rewrite E3.
    destruct (tr_bytes repl) as [|d [|e l]]; [done|done|]. rewrite !zlen_cons in H1. pose proof (zlen_nonneg l). lia.
  - destruct (Z.eqb_spec (zlen (tr_bytes src)) 1) as [H2|H2].
    + pose proof (use_opt_ok src repl fl Hr x 0 Hinv) as Ho. unfold tr_opt in Ho. rewrite H2 in Ho. apply Ho. by destruct (tr_bytes repl).
    + by apply tr_substr_ok.
Qed.

Lemma trans_replace_ok t A run B u d sr fl : chars t = A ++ run ++ B → run ≠ [] → chars u = [d] →
  returns (trans_replace t (CFRangeMake (zlen A) (zlen run)) u sr fl) (λ '(sr', t'),
    chars t' = A ++ (if fl then [d] else replicate (length run) d) ++ B ∧
    sr' = if fl then CFRangeMake (zlen A + 1) (zlen B) else sr).
Proof.
  intros E Hrun Eu. unfold trans_replace. cbn [location rlength]. pose proof (zlen_nonneg B).
  rewrite cf_length, E, !zlen_app, (proj2 (Z.leb_le _ _)) by lia. cbn [check mbind res_bind]. destruct fl; cbn [negb].
  - eapply returns_bind_mono; [by apply replace_run|]. intros t' Et. apply returns_ret. rewrite Eu in Et. split; [done|].
    rewrite cf_length, Et, !zlen_app, zlen_cons, zlen_nil. f_equal. lia.
  - eapply returns_bind_mono; [by apply replace_chars|]. intros t' Et. by apply returns_ret.
Qed.

Lemma trans_replaces src repl fl charset run : good_tr src = true → good_tr repl = true → tr_bytes repl ≠ [] →
  (∀ c, CFCharacterSetIsCharacterMember charset c = selects [tr_charspec src] c) → run ≠ [] →
  good_run charset (1 <? zlen (tr_bytes repl)) run →
  replaces rb_str_trans_cb (tr_run src repl fl) changed (λ _ _, true) (tr_inv src repl fl) run.
Proof.
  intros Hs Hr Hne Hset Hrun Hg sr t p x A B E Hhd Hinv Hend Hloc. destruct run as [|c run]; [done|]. injection Hhd as ->.
  pose proof Hg as [Hmem _]. apply Forall_cons in Hmem as [Hmem _]. rewrite Hset, tr_mem_spec in Hmem.
  pose proof (zlen_nonneg A) as HA. pose proof (zlen_nonneg B) as HB. pose proof (zlen_nonneg run) as HR. pose proof Hinv as (_ & E2 & _).
  assert (0 < zlen (tr_bytes repl)) as H0 by (destruct (tr_bytes repl); [done|]; rewrite zlen_cons; pose proof (zlen_nonneg l); lia).
  assert (zlen (tr_run src repl fl (p :: run)) = if fl then 1 else 1 + zlen run) as Hlen.
  { unfold tr_run. destruct fl; [|unfold zlen; rewrite length_fmap; cbn; lia]. cbn. by rewrite take_0, zlen_cons, zlen_nil. }
  rewrite Hlen, zlen_cons. split; [destruct fl; lia|]. unfold rb_str_trans_cb. rewrite E2, (proj2 (Z.eqb_neq _ _)) by lia. rewrite <-E2.
  eapply returns_bind_mono; [by apply (tr_substitute src repl fl p x)|]. intros [u x1] (Eu & Hinv1 & Ech). cbn [fst snd] in *.
  pose proof Hinv1 as (_ & _ & _ & Efl & _). rewrite Efl, <-(zlen_cons p).
  eapply returns_bind_mono; [by apply (trans_replace_ok t A (p :: run) B u)|]. intros [sr' t'] [Et Esr]. apply returns_ret.
  assert (chars t' = A ++ tr_run src repl fl (p :: run) ++ B) as Et'.
  { rewrite Et. unfold tr_run. rewrite (tr_same src repl _ _ _ _ Hg); [by destruct fl|]. destruct (Z.ltb_spec 1 (zlen (tr_bytes repl))); [by left|right; lia]. }
  rewrite Et' in *. rewrite E in Hend. rewrite !zlen_app, Hlen, zlen_cons in *. split_and!; try done.
  - by rewrite Esr; destruct fl; cbn; lia.
  - rewrite Esr; destruct fl; cbn; lia.
  - rewrite Esr; destruct fl; cbn; lia.
  - rewrite Esr; destruct fl; cbn; lia.
Qed.

Lemma trans_deletes run x0 : tr_repl x0 = [] →
  replaces rb_str_trans_cb (λ _, []) changed (λ _ _, true) (λ x, tr_repl x = []) run.
Proof.
  intros _ sr t p x A B E Hhd Hx Hend Hloc. rewrite zlen_nil. pose proof (zlen_nonneg run). split; [lia|].
  unfold rb_str_trans_cb. rewrite Hx. cbn [zlen length Z.eqb Z.of_nat]. eapply returns_bind_mono; [by apply cf_delete_run|]. intros t' Et. apply returns_ret. cbn [location rlength].
  rewrite Et. rewrite E in Hend. rewrite !zlen_app in *. pose proof (zlen_nonneg A). split_and!; try done; lia.
Qed.

(** The string in which the characters of [src] are translated; [tr_s] keeps one of a run, [tr] with nothing
    to translate into deletes. *)
Definition tr_string (src repl : trspec) (fl : bool) (l : list Z) : list Z :=
  if bool_decide (tr_bytes repl = []) then filter (λ c, tr_mem src c = false) l
  else on_set (tr_mem src) (tr_char src repl) <$> (if fl then collapse (tr_mem src) (1 <? zlen (tr_bytes repl)) None l else l).

Lemma tr_trans_spec s usrc urepl src repl fl : writable safe_level s → good_tr src = true → good_tr repl = true →
  schars usrc = tr_bytes src → schars urepl = tr_bytes repl →
  returns (tr_trans safe_level s usrc urepl fl) (λ '(ch, s'),
    schars s' = tr_string src repl fl (schars s) ∧ ch = existsb (tr_mem src) (schars s)).
Proof.
  intros Hw Hs Hr E1 E2. unfold tr_trans. rewrite len_schars. destruct (Z.eqb_spec (zlen (schars s)) 0) as [E0|E0].
  { apply returns_ret. assert (schars s = []) as -> by (destruct (schars s); [done|]; rewrite zlen_cons in E0; pose proof (zlen_nonneg l); lia).
    unfold tr_string. split; [|done]. by destruct (bool_decide _), fl. }
  rewrite (modify_ok _ _ Hw). cbn [mbind res_bind].
  assert (∀ u t, good_tr t = true → schars u = tr_bytes t → RSTRING_PTR u = Some (tr_bytes t)) as Hptr.
  { intros u t Ht Eu. rewrite rstring_ptr, Eu; [done|]. unfold ascii_of, ascii_str. change (Forall ascii (schars u)). rewrite Eu. by apply byte_ascii, good_tr_bytes. }
  rewrite (Hptr usrc src Hs E1), (Hptr urepl repl Hr E2). cbn [of_option mbind res_bind tr_repl].
  rewrite !before_nul_ok by by apply good_tr_bytes. set (x := mk_tr _ _ _ _ _ _).
  assert (denote [usrc] [tr_charspec src]) as Hden by (constructor; [split; [done|by rewrite tr_bytes_spec]|constructor]).
  unfold tr_string. case_bool_decide as Hne.
  - eapply returns_bind_mono.
    { apply (charset_find_ok rb_str_trans_cb _ (λ _, []) changed (λ _ _, true) (λ x, tr_repl x = []) _ _ [tr_charspec src]); [done|done|done|].
      intros. by apply (trans_deletes run x). }
    intros [c x'] (Ec & Ex & _). apply returns_ret. rewrite (tr_runs_ext _ (tr_mem src)) in Ec, Ex by apply tr_mem_spec.
    rewrite runs_delete in Ec. rewrite runs_changed in Ex. done.
  - eapply returns_bind_mono.
    { apply (charset_find_ok rb_str_trans_cb (1 <? zlen (tr_bytes repl)) (tr_run src repl fl) changed (λ _ _, true) (tr_inv src repl fl) _ _ [tr_charspec src]); [done|done|done|].
      intros. by eapply trans_replaces. }
    intros [c x'] (Ec & Ex & _). apply returns_ret. rewrite (tr_runs_ext _ (tr_mem src)) in Ec, Ex by apply tr_mem_spec.
    rewrite runs_changed in Ex. split; [|done]. unfold tr_run in Ec. destruct fl.
    + by rewrite runs_collapse in Ec.
    + by rewrite runs_map in Ec.
Qed.
End tr_methods.
