(* ===== verification/StrOps.v ===== *)
(** Successors and counting; fields and lines; copies, reversal, padding and trimming. *)

(** * Successors

    A string over an alphabet (the digits, or the letters of one case) is a number, digits in base 10 and
    letters in base 26 without a zero; [succ] adds one, and [upto] counts. *)

From S2P Require Import Prelude RArray Util Big BigStr Numeric CFString Str StrSpec.

(** ** Numerals *)

Inductive alphabet := Digits | Lower | Upper.

Definition first (a : alphabet) : Z := match a with Digits => 48 | Lower => 97 | Upper => 65 end.
Definition last_char (a : alphabet) : Z := match a with Digits => 57 | Lower => 122 | Upper => 90 end.
Definition base (a : alphabet) : Z := last_char a - first a + 1.
(** The value of the first character, and the character of value one *)
Definition low (a : alphabet) : Z := match a with Digits => 0 | _ => 1 end.
Definition one (a : alphabet) : Z := first a + 1 - low a.

Definition letter (a : alphabet) (c : Z) : Prop := first a ≤ c ≤ last_char a.
Definition numeral (a : alphabet) (l : list Z) : Prop := l ≠ [] ∧ Forall (letter a) l.

Definition digit_value (a : alphabet) (c : Z) : Z := c - first a + low a.
Definition value (a : alphabet) (l : list Z) : Z := foldl (λ v c, v * base a + digit_value a c) 0 l.

Section numerals.
Context (a : alphabet).

Lemma value_snoc l c : value a (l ++ [c]) = value a l * base a + digit_value a c.
Proof. unfold value. by rewrite foldl_snoc. Qed.

Lemma value_acc l v : foldl (λ v c, v * base a + digit_value a c) v l = v * base a ^ zlen l + value a l.
Proof.
  revert v. induction l as [|c l IH] using rev_ind; intros v; [unfold value; cbn; rewrite zlen_nil; lia|].
  rewrite foldl_snoc, IH, value_snoc, zlen_app, zlen_cons, zlen_nil, Z.add_0_r, Z.pow_add_r; [lia|apply zlen_nonneg|lia].
Qed.

Lemma value_cons c l : value a (c :: l) = digit_value a c * base a ^ zlen l + value a l.
Proof. unfold value at 1. cbn [foldl]. rewrite value_acc. lia. Qed.

Lemma value_one c : value a [c] = digit_value a c.
Proof. done. Qed.

(** Numerals of one length are ordered as their values. *)
Lemma value_bounds l : Forall (letter a) l → 
  low a * (base a ^ zlen l - 1) ≤ (base a - 1) * value a l ∧ 
  (base a - 1) * value a l ≤ (base a - 1 + low a) * (base a ^ zlen l - 1).
Proof.
  induction 1 as [|c l Hc H IH]; [unfold value; cbn; rewrite zlen_nil; lia|].
  rewrite value_cons, zlen_cons, Z.pow_add_r by (try apply zlen_nonneg; lia). rewrite Z.pow_1_r.
  assert (0 < base a ^ zlen l) as Hp by (apply Z.pow_pos_nonneg; [by destruct a|apply zlen_nonneg]).
  set (p := base a ^ zlen l) in *. assert (low a ≤ digit_value a c ≤ base a - 1 + low a) by (unfold digit_value, base, letter in *; lia).
  assert (0 < base a - 1) by (by destruct a). set (bb := base a) in *. set (dv := digit_value a c) in *. nia.
Qed.
End numerals.

Lemma value_compare a l k : Forall (letter a) l → Forall (letter a) k → length l = length k →
  compare_chars l k = if value a l <? value a k then -1 else if value a k <? value a l then 1 else 0.
Proof.
  intros Hl. revert k. induction Hl as [|c l Hc Hl IH]; intros k Hk Hlen; destruct Hk as [|d k Hd Hk]; try done.
  injection Hlen as Hlen. cbn [compare_chars]. rewrite !value_cons, <-(f_equal Z.of_nat Hlen : zlen l = zlen k).
  assert (0 < base a ^ zlen l) as Hp by (apply Z.pow_pos_nonneg; [by destruct a|apply zlen_nonneg]).
  pose proof (value_bounds a l Hl) as [Hl1 Hl2]. pose proof (value_bounds a k Hk) as [Hk1 Hk2].
  rewrite <-(f_equal Z.of_nat Hlen : zlen l = zlen k) in *. unfold digit_value. set (p := base a ^ zlen l) in *.
  assert (0 < base a - 1) as Hbase by (by destruct a). assert (- (p - 1) ≤ value a l - value a k ≤ p - 1) as Hdiff by nia.
  rewrite IH by done. destruct (Z.ltb_spec c d) as [Hcd|Hcd].
  { rewrite (proj2 (Z.ltb_lt _ _)); [done|]. nia. }
  destruct (Z.ltb_spec d c) as [Hdc|Hdc].
  { rewrite (proj2 (Z.ltb_ge _ _)), (proj2 (Z.ltb_lt _ _)); [done|nia|nia]. }
  assert (c = d) as -> by lia.
  destruct (Z.ltb_spec (value a l) (value a k)), (Z.ltb_spec (value a k) (value a l));
    rewrite ?(proj2 (Z.ltb_lt (_ + value a l) _)), ?(proj2 (Z.ltb_ge (_ + value a l) _)), ?(proj2 (Z.ltb_lt (_ + value a k) _)), ?(proj2 (Z.ltb_ge (_ + value a k) _)) by lia; try done; lia.
Qed.

Lemma compare_chars_0 l k : compare_chars l k = 0 ↔ l = k.
Proof.
  split; [|intros ->; induction k; cbn [compare_chars]; rewrite ?Z.ltb_irrefl; done].
  revert k. induction l as [|c l IH]; intros [|d k]; cbn [compare_chars]; try done.
  destruct (Z.ltb_spec c d), (Z.ltb_spec d c); try done. intros ?%IH. f_equal; [lia|done].
Qed.

(** Numerals of one length with one value are equal. *)
Lemma value_inj a l k : Forall (letter a) l → Forall (letter a) k → length l = length k → value a l = value a k → l = k.
Proof. intros Hl Hk Hlen E. apply compare_chars_0. rewrite (value_compare a) by done. by rewrite E, Z.ltb_irrefl. Qed.

(** ** [succ] *)

Section succ.
Context `{J : Junk} `{F : CFStrings} `{L : !CFStringLaws} (safe_level : Z) (a : alphabet).

Lemma letter_ascii c : letter a c → ascii c.
Proof. unfold letter, ascii. destruct a; cbn; lia. Qed.

Lemma numeral_ascii l : Forall (letter a) l → Forall ascii l.
Proof. intros H. eapply Forall_impl; [exact H|]. apply letter_ascii. Qed.

(** One character of the loop *)
Lemma succ_step i buf md cy c : letter a c → aload buf (Z.of_nat i) = Ok c →
  succ_loop (S i) buf md cy =
    if c =? last_char a then buf ← astore buf (Z.of_nat i) (first a); succ_loop i buf true (one a)
    else buf ← astore buf (Z.of_nat i) (c + 1); Ok (buf, true, 0).
Proof.
  intros Hc Hload. pose proof (letter_ascii c Hc) as Hasc. cbn [succ_loop]. rewrite Hload. cbn [mbind res_bind].
  rewrite cf_iswdigit, cf_iswalpha, cf_islower by done. unfold u16. rewrite (Z.mod_small (c + 1)) by (unfold ascii in Hasc; lia).
  unfold letter in Hc. destruct a; cbn [first last_char one low] in *.
  - rewrite !(proj2 (Z.leb_le _ _)) by lia. cbn [andb]. by destruct (c =? 57).
  - rewrite (proj2 (Z.leb_gt c 57)), (proj2 (Z.leb_le 97 c)), (proj2 (Z.leb_le c 122)) by lia. rewrite andb_false_r, orb_true_r. cbn [andb]. by destruct (c =? 122).
  - rewrite (proj2 (Z.leb_gt c 57)), (proj2 (Z.leb_le 65 c)), (proj2 (Z.leb_le c 90)), (proj2 (Z.leb_gt 97 c)) by lia. rewrite andb_false_r. cbn [andb orb]. by destruct (c =? 90).
Qed.

Lemma astore_mid (l : list Z) c t x : astore (l ++ c :: t) (Z.of_nat (length l)) x = Ok (l ++ x :: t).
Proof.
  rewrite astore_ok by (unfold zlen; rewrite length_app; cbn; lia). rewrite Nat2Z.id. f_equal.
  rewrite insert_app_r_alt by done. by rewrite Nat.sub_diag.
Qed.

(** The loop adds one, or leaves a carry. *)
Lemma succ_loop_spec l t md cy : Forall (letter a) l → (l = [] → md = true ∧ cy = one a) →
  ∃ l' cy', succ_loop (length l) (l ++ t) md cy = Ok (l' ++ t, true, cy') ∧ length l' = length l ∧ Forall (letter a) l' ∧
    (cy' = 0 ∧ value a l' = value a l + 1 ∨
     cy' = one a ∧ value a l' + base a ^ zlen l = value a l + 1 ∧ Forall (λ c, c = last_char a) l).
Proof.
  intros Hl. revert t md cy. induction l as [|c l IH] using rev_ind; intros t md cy Hnil.
  { destruct (Hnil eq_refl) as [-> ->]. exists [], (one a). split_and!; [done|done|done|]. right. split_and!; [done|done|constructor]. }
  apply Forall_app in Hl as [Hl Hc]. rewrite Forall_singleton in Hc. rewrite <-app_assoc, length_app. cbn [length app].
  replace (length l + 1)%nat with (S (length l)) by lia. rewrite (succ_step _ _ _ _ c Hc).
  2: { apply aload_ok. rewrite zlookup_app_r by (unfold zlen; lia). by replace (_ - zlen l) with 0 by (unfold zlen; lia). }
  rewrite !astore_mid. cbn [mbind res_bind]. destruct (Z.eqb_spec c (last_char a)) as [->|Hne].
  - destruct (IH Hl (first a :: t) true (one a)) as (l' & cy' & E & Hlen & Hl' & Hv); [done|].
    exists (l' ++ [first a]), cy'. rewrite E, <-app_assoc, length_app. split_and!; [done|cbn; lia| |].
    { apply Forall_app. split; [done|]. apply Forall_singleton. unfold letter. by destruct a. }
    rewrite !value_snoc. destruct Hv as [[-> Hv]|(-> & Hv & Hall)]; [left|right].
    + split; [done|]. rewrite Hv. unfold digit_value, base. lia.
    + split_and!; [done| |by apply Forall_app; split; [|apply Forall_singleton]].
      rewrite zlen_app, zlen_cons, zlen_nil, Z.pow_add_r by (try apply zlen_nonneg; lia).
      replace (base a ^ (1 + 0)) with (base a) by (symmetry; apply Z.pow_1_r). unfold digit_value, base in *. nia.
  - exists (l ++ [c + 1]), 0. rewrite <-app_assoc, length_app. split_and!; [done|cbn; lia| |].
    { apply Forall_app. split; [done|]. apply Forall_singleton. unfold letter in *. lia. }
    left. split; [done|]. rewrite !value_snoc. unfold digit_value. lia.
Qed.

(** The successor of a numeral: the next value, in as many characters if there is one *)
Lemma succ_spec s : numeral a (schars s) →
  returns (rb_str_succ s) (λ r, numeral a (schars r) ∧ value a (schars r) = value a (schars s) + 1 ∧
    (length (schars r) = length (schars s) ∨
     length (schars r) = S (length (schars s)) ∧ Forall (λ c, c = last_char a) (schars s))).
Proof.
  intros [Hne Hl]. unfold rb_str_succ. rewrite len_schars. set (l := schars s) in *.
  assert (0 < zlen l) by (destruct l; [done|]; rewrite zlen_cons; pose proof (zlen_nonneg l); lia).
  rewrite (proj2 (Z.eqb_neq _ _)), cf_get_ok by (unfold l, schars in *; lia). cbn [mbind res_bind].
  change (chars (content s)) with l. rewrite slice_all, to_nat_zlen.
  destruct (succ_loop_spec l [] false 0 Hl) as (l' & cy & E & Hlen & Hl' & Hv); [done|]. rewrite !app_nil_r in E. rewrite E. cbn [mbind res_bind negb].
  destruct Hv as [[-> Hv]|(-> & Hv & Hall)].
  - cbn [Z.eqb negb mbind res_bind]. apply returns_ret. rewrite schars_fresh_chars. split_and!; [|done|by left].
    split; [|done]. by destruct l, l'.
  - rewrite (proj2 (Z.eqb_neq (one a) 0)) by (by destruct a). cbn [negb mbind res_bind]. apply returns_ret. rewrite schars_fresh_chars.
    split_and!; [split; [done|constructor; [unfold letter; by destruct a|done]]| |right; cbn; split; [lia|done]].
    rewrite value_cons, (f_equal Z.of_nat Hlen : zlen l' = zlen l). unfold digit_value, one. lia.
Qed.
End succ.

(** ** [upto] *)

Lemma value_all_last a l : Forall (λ c, c = last_char a) l → (base a - 1) * value a l = (base a - 1 + low a) * (base a ^ zlen l - 1).
Proof.
  induction 1 as [|c l Hc H IH]; [unfold value; cbn; rewrite zlen_nil; lia|].
  rewrite value_cons, zlen_cons, Z.pow_add_r by (try apply zlen_nonneg; lia). rewrite Z.pow_1_r, Hc. unfold digit_value, base in *. nia.
Qed.

Section upto.
Context `{J : Junk} `{F : CFStrings} `{L : !CFStringLaws} (a : alphabet).

(** Strings over the alphabet of one length whose values are [n] numbers from [v] on *)
Definition counts (w : nat) (v n : Z) (new : list (list Z)) : Prop :=
  value a <$> new = seqZ v n ∧ Forall (λ l, length l = w ∧ Forall (letter a) l) new.

Lemma counts_one w l : length l = w → Forall (letter a) l → counts w (value a l) 1 [l].
Proof. intros Hw Hl. split; [done|]. by apply Forall_singleton. Qed.

Lemma counts_cons w l n new : length l = w → Forall (letter a) l → 0 ≤ n → counts w (value a l + 1) n new → counts w (value a l) (n + 1) (l :: new).
Proof.
  intros Hw Hl Hn [Hv Hf]. split; [|by constructor]. cbn. rewrite Hv. replace (n + 1) with (Z.succ n) by lia. rewrite <-Z.add_1_r. 
  rewrite (seqZ_cons (value a l)) by lia. f_equal. rewrite Z.add_1_r. f_equal; lia.
Qed.

Lemma equal_values s t : Forall (letter a) (schars s) → Forall (letter a) (schars t) →
  (length (schars s) = length (schars t) ∨ value a (schars s) ≠ value a (schars t)) →
  CFEqual (content s) (content t) = (value a (schars s) =? value a (schars t)).
Proof.
  intros Hs Ht Hor. rewrite cf_equal by (by apply (numeral_ascii a)). destruct (Z.eqb_spec (value a (schars s)) (value a (schars t))) as [E|E].
  - apply bool_decide_eq_true_2. destruct Hor as [Hlen|]; [by apply (value_inj a)|done].
  - apply bool_decide_eq_false_2. intros Ec. apply E. unfold schars. by rewrite Ec.
Qed.

Lemma upto_loop_spec fuel cur end_ after w (excl : bool) acc :
  numeral a (schars cur) → numeral a (schars end_) → length (schars cur) = w → length (schars end_) = w →
  numeral a (schars after) → value a (schars after) = value a (schars end_) + 1 →
  (if excl then value a (schars cur) < value a (schars end_) else value a (schars cur) ≤ value a (schars end_)) →
  value a (schars end_) - value a (schars cur) < Z.of_nat fuel →
  returns (upto_loop collect fuel cur end_ after excl acc) (λ acc', ∃ new, acc' = acc ++ new ∧
    counts w (value a (schars cur)) (value a (schars end_) - value a (schars cur) + (if excl then 0 else 1)) new).
Proof.
  intros Hcur [_ Hend] Hw Hwe [_ Hafter] Eafter. revert cur acc Hcur Hw. induction fuel as [|fuel IH]; intros cur acc [Hne Hcur] Hw Hle Hf.
  { destruct excl; lia. }
  cbn [upto_loop]. rewrite equal_values by (done || right; destruct excl; lia).
  rewrite (proj2 (Z.eqb_neq _ _)) by (destruct excl; lia). cbn [collect mbind res_bind].
  rewrite (equal_values cur end_) by (done || left; lia).
  destruct (Z.eqb_spec (value a (schars cur)) (value a (schars end_))) as [E|E].
  { destruct excl; [lia|]. cbn [negb andb]. apply returns_ret. exists [schars cur]. split; [done|]. rewrite E, Z.sub_diag, <-E. by apply counts_one. }
  rewrite andb_false_r. eapply returns_bind_mono; [apply (succ_spec a); by split|]. intros r ([Hner Hr] & Ev & Hlen).
  assert (length (schars r) = w) as Hwr.
  { destruct Hlen as [->|[_ Hall]]; [done|]. exfalso. apply value_all_last in Hall. pose proof (value_bounds a _ Hend) as [_ Hb].
    replace (zlen (schars end_)) with (zlen (schars cur)) in Hb by (unfold zlen; lia). assert (0 < base a - 1) by (by destruct a). destruct excl; nia. }
  rewrite (equal_values r end_) by (done || left; lia). rewrite !len_schars. unfold zlen. rewrite Hwr, Hwe, Z.ltb_irrefl.
  assert (w ≠ 0%nat) as Hw0 by (intros ->; by destruct (schars cur)). rewrite (proj2 (Z.eqb_neq (Z.of_nat w) 0)) by lia. cbn [orb].
  destruct (Z.eqb_spec (value a (schars r)) (value a (schars end_))) as [Er|Er].
  - destruct excl; cbn [andb].
    + apply returns_ret. exists [schars cur]. split; [done|]. replace (_ - _ + 0) with 1 by lia. by apply counts_one.
    + eapply returns_mono; [apply IH; [done|done|lia|lia]|]. intros acc' (new & -> & Hc). exists (schars cur :: new). split; [by rewrite <-app_assoc|].
      replace (_ - value a (schars cur) + 1) with (value a (schars end_) - value a (schars r) + 1 + 1) by lia. apply counts_cons; [done|done|lia|]. by rewrite <-Ev.
  - rewrite andb_false_r. eapply returns_mono; [apply IH; [done|done|destruct excl; lia|lia]|].
    intros acc' (new & -> & Hc). exists (schars cur :: new). split; [by rewrite <-app_assoc|].
    replace (_ - value a (schars cur) + _) with (value a (schars end_) - value a (schars r) + (if excl then 0 else 1) + 1) by lia.
    apply counts_cons; [done|done|destruct excl; lia|]. by rewrite <-Ev.
Qed.

Lemma upto_chars_spec fuel c e (excl : bool) acc : 0 ≤ c → e < 2 ^ 16 → (if excl then c < e else c ≤ e) → e - c < Z.of_nat fuel →
  upto_chars collect fuel c e excl acc = Ok (acc ++ ((λ x, [x]) <$> seqZ c (e - c + (if excl then 0 else 1)))).
Proof.
  intros Hc He. revert c acc Hc. induction fuel as [|fuel IH]; intros c acc Hc Hle Hf; [destruct excl; lia|].
  cbn [upto_chars collect mbind res_bind]. rewrite schars_fresh_chars. destruct (Z.eqb_spec c e) as [->|Hne].
  { destruct excl; [lia|]. cbn [negb andb]. by rewrite Z.sub_diag. }
  rewrite andb_false_r. unfold u16. rewrite Z.mod_small by (destruct excl; lia).
  assert (0 < e - c) as Hpos by (destruct excl; lia). rewrite (seqZ_cons c) by (destruct excl; lia). cbn [fmap list_fmap].
  replace (Z.succ c) with (c + 1) by lia. replace (Z.pred (e - c + _)) with (e - (c + 1) + (if excl then 0 else 1)) by lia.
  destruct (Z.eqb_spec (c + 1) e) as [E|E].
  - destruct excl; cbn [andb].
    + by replace (e - (c + 1) + 0) with 0 by lia.
    + rewrite IH by lia. by rewrite <-app_assoc.
  - rewrite andb_false_r, IH by (destruct excl; lia). by rewrite <-app_assoc.
Qed.

Lemma upto_spec fuel beg end_ (excl : bool) w :
  numeral a (schars beg) → numeral a (schars end_) → length (schars beg) = w → length (schars end_) = w →
  value a (schars end_) - value a (schars beg) < Z.of_nat fuel →
  returns (rb_str_upto collect fuel beg end_ excl [])
    (counts w (value a (schars beg)) (value a (schars end_) - value a (schars beg) + (if excl then 0 else 1))).
Proof.
  intros Hb He Hwb Hwe Hf. pose proof Hb as [Hbne Hbl]. pose proof He as [_ Hel]. unfold rb_str_upto. rewrite !len_schars.
  replace (zlen (schars beg)) with (Z.of_nat w) by (unfold zlen; lia). replace (zlen (schars end_)) with (Z.of_nat w) by (unfold zlen; lia). rewrite andb_diag.
  assert (∀ v n, n ≤ 0 → counts w v n []) as Hnil by (intros v n Hn; split; [cbn; unfold seqZ; by replace (Z.to_nat n) with 0%nat by lia|done]).
  destruct (Z.eqb_spec (Z.of_nat w) 1) as [E1|E1].
  - destruct (schars beg) as [|c [|]] eqn:Eb; [done| |cbn in Hwb; lia]. destruct (schars end_) as [|e [|]] eqn:Ee; [cbn in Hwe; lia| |cbn in Hwe; lia].
    rewrite (cf_char_ok (content beg) 0 c) by (change (chars (content beg)) with (schars beg); by rewrite Eb).
    rewrite (cf_char_ok (content end_) 0 e) by (change (chars (content end_)) with (schars end_); by rewrite Ee). cbn [mbind res_bind].
    rewrite Forall_singleton in Hbl, Hel. pose proof (letter_ascii a c Hbl) as Hc. pose proof (letter_ascii a e Hel) as He'. unfold ascii in Hc, He'.
    assert (value a [e] - value a [c] = e - c) as -> by (rewrite !value_one; unfold digit_value; lia).
    destruct (Z.ltb_spec e c); [cbn [orb]; apply returns_ret, Hnil; destruct excl; lia|]. cbn [orb].
    destruct (excl && (c =? e)) eqn:Ex; [apply andb_true_iff in Ex as [-> ->%Z.eqb_eq]; apply returns_ret, Hnil; lia|].
    rewrite upto_chars_spec; [|lia|lia|destruct excl; [cbn in Ex; apply Z.eqb_neq in Ex; lia|lia]|lia].
    apply returns_ret. split.
    + cbn [app]. rewrite <-list_fmap_compose. replace (value a [c]) with (low a - first a + c) by (rewrite value_one; unfold digit_value; lia).
      rewrite <-fmap_add_seqZ. apply list_fmap_ext. intros ? x _. unfold compose. rewrite value_one. unfold digit_value. lia.
    + apply Forall_fmap, Forall_forall. intros x Hx%elem_of_seqZ. cbn. split; [cbn in Hwb; lia|]. apply Forall_singleton. unfold letter in *. destruct excl; lia.
  - rewrite cf_compare by (by apply (numeral_ascii a)). change (chars (content beg)) with (schars beg). change (chars (content end_)) with (schars end_).
    rewrite (value_compare a) by (done || lia). set (vb := value a (schars beg)) in *. set (ve := value a (schars end_)) in *.
    destruct (Z.ltb_spec vb ve) as [Hlt|Hge]; [|destruct (Z.ltb_spec ve vb) as [Hgt|Heq]].
    2: { cbn [Z.ltb Z.compare orb]. apply returns_ret, Hnil. destruct excl; lia. }
    all: cbn [Z.ltb Z.compare orb Z.eqb]; rewrite ?andb_false_r, ?andb_true_r.
    + eapply returns_bind_mono; [by apply (succ_spec a)|]. intros after (Hna & Eva & _).
      eapply returns_mono; [apply (upto_loop_spec _ _ _ _ w); try done; fold ve vb; destruct excl; lia|]. intros acc (new & -> & Hc). exact Hc.
    + destruct excl; [apply returns_ret, Hnil; lia|]. eapply returns_bind_mono; [by apply (succ_spec a)|]. intros after (Hna & Eva & _).
      eapply returns_mono; [apply (upto_loop_spec _ _ _ _ w); try done; fold ve vb; lia|]. intros acc (new & -> & Hc). exact Hc.
Qed.
End upto.

(** * Fields and lines

    [split] cuts a string at a separator, so that the fields joined with it are the string; [each_line] cuts it
    behind the separators. *)

(** ** Lists with a separator between them *)

Fixpoint join (sep : list Z) (fs : list (list Z)) : list Z :=
  match fs with
  | [] => []
  | f :: fs => match fs with [] => f | _ => f ++ sep ++ join sep fs end
  end.

Lemma join_snoc sep fs f : join sep (fs ++ [f]) = (fs ≫= λ g, g ++ sep) ++ f.
Proof.
  induction fs as [|g fs IH]; [done|]. cbn [app join]. rewrite bind_cons, <-!app_assoc, <-IH. destruct fs; done.
Qed.

Definition free (sep f : list Z) : Prop := index_of sep f = None.

(** The text before the first occurrence has none. *)
Lemma free_before sep l i : sep ≠ [] → index_of sep l = Some i → free sep (take (Z.to_nat i) l).
Proof.
  intros Hne H. destruct (index_of_Some _ _ _ H) as (H0 & H1 & _ & Hmin). unfold free. destruct (index_of sep (take (Z.to_nat i) l)) as [j|] eqn:E; [|done].
  destruct (index_of_Some _ _ _ E) as (Hj0 & Hj1 & Hj2 & _). exfalso.
  assert (0 < zlen sep) by (destruct sep; [done|]; rewrite zlen_cons; pose proof (zlen_nonneg sep); lia).
  assert (zlen (take (Z.to_nat i) l) ≤ i) by (unfold zlen; rewrite length_take; lia).
  apply (Hmin j); [lia|]. rewrite <-Hj2. unfold slice. 
  transitivity (drop (Z.to_nat j) (take (Z.to_nat i) l)); [apply prefix_take|].
  rewrite <-(take_drop (Z.to_nat i) l) at 2. rewrite drop_app_le by (rewrite length_take; unfold zlen in *; lia). by eexists.
Qed.

Lemma fmap_drop_while {A B} (g : A → B) p q l : (∀ x, p (g x) = q x) → g <$> drop_while q l = drop_while p (g <$> l).
Proof. intros H. induction l as [|x l IH]; [done|]. cbn. rewrite H. by destruct (q x). Qed.

Lemma fmap_trim_r {A B} (g : A → B) p q l : (∀ x, p (g x) = q x) → g <$> trim_r q l = trim_r p (g <$> l).
Proof. intros H. unfold trim_r. by rewrite fmap_reverse, (fmap_drop_while g p q), fmap_reverse. Qed.

Definition is_nil (f : list Z) : bool := bool_decide (f = []).

(** Up to the end of the first occurrence *)
Lemma slice_match (sep l : list Z) loc i : 0 ≤ loc → index_of sep (drop (Z.to_nat loc) l) = Some i →
  slice loc (i + zlen sep) l = slice loc i l ++ sep.
Proof.
  intros Hl Hi. destruct (index_of_Some _ _ _ Hi) as (H0 & H1 & H2 & _). pose proof (zlen_nonneg sep). unfold slice in *.
  rewrite <-H2 at 2. rewrite Z2Nat.inj_add by lia. set (k := drop (Z.to_nat loc) l). symmetry. apply take_take_drop.
Qed.

Section split.
Context `{J : Junk} `{F : CFStrings} `{L : !CFStringLaws}.

(** One field of a separator *)
Lemma split_field_spec s loc n result : zlen (schars s) < 2 ^ 62 → 0 ≤ loc → 0 ≤ n → loc + n ≤ zlen (schars s) →
  returns (split_field s false loc n result) (λ r, schars <$> r = (schars <$> result) ++ [slice loc n (schars s)]).
Proof.
  intros Hl H0 Hn H. unfold split_field. cbn [negb orb]. eapply returns_bind_mono; [apply subseq_spec; lia|].
  intros o Ho. unfold norm_beg, norm_len in Ho. rewrite (proj2 (Z.ltb_ge _ _)) in Ho by lia. rewrite decide_True in Ho by lia.
  destruct Ho as (t & -> & Et & _). cbn [of_option mbind res_bind]. apply returns_ret. rewrite fmap_app. cbn. rewrite Et. by rewrite Z.min_l by lia.
Qed.

(** The fields before [loc], each with a separator behind it, and the rest *)
Definition split_inv (sep l : list Z) (loc : Z) (fs : list (list Z)) : Prop :=
  l = (fs ≫= λ g, g ++ sep) ++ drop (Z.to_nat loc) l ∧ 0 ≤ loc ≤ zlen l ∧ Forall (free sep) fs.

Lemma split_inv_step sep l loc fs i : sep ≠ [] → split_inv sep l loc fs → index_of sep (drop (Z.to_nat loc) l) = Some i →
  0 ≤ i ∧ loc + i + zlen sep ≤ zlen l ∧ split_inv sep l (loc + i + zlen sep) (fs ++ [slice loc i l]).
Proof.
  intros Hne (E & Hloc & Hf) Hi. destruct (index_of_Some _ _ _ Hi) as (H0 & H1 & _ & _). pose proof (zlen_nonneg sep) as Hs.
  assert (zlen (drop (Z.to_nat loc) l) = zlen l - loc) as Hd by (rewrite zlen_drop; lia).
  split_and!; [done|lia|]. split_and!; [|lia|lia|].
  - rewrite bind_app, bind_cons. cbn [mbind list_bind]. rewrite app_nil_r. unfold slice. rewrite <-!app_assoc.
    rewrite E at 1. f_equal. rewrite (index_of_split _ _ _ Hi) at 1. do 2 f_equal. rewrite drop_drop. f_equal. lia.
  - apply Forall_app. split; [done|]. apply Forall_singleton. by apply free_before.
Qed.

Lemma split_find_spec s sep loc : ascii_of s → ascii_of sep → schars sep ≠ [] → 0 ≤ loc ≤ zlen (schars s) →
  split_find s (Some sep) loc = Ok ((λ i, CFRangeMake (loc + i) (zlen (schars sep))) <$> index_of (schars sep) (drop (Z.to_nat loc) (schars s))).
Proof.
  intros Hs Ht Hne Hloc. unfold split_find. rewrite len_schars, cf_search_ok; [|done|done|done|lia|lia|unfold schars in *; lia].
  by rewrite slice_rest.
Qed.

Definition split_post (sep l : list Z) (limit : option Z) (n : Z) (p : Z * list rstr) : Prop :=
  split_inv sep l p.1 (schars <$> p.2) ∧
  match limit with
  | None => free sep (drop (Z.to_nat p.1) l)
  | Some lim => zlen p.2 ≤ n + (lim - 1) ∧ (zlen p.2 < n + (lim - 1) → free sep (drop (Z.to_nat p.1) l))
  end.

(** The fields that a limit allows: at most [lim], which contain no separator except the last of [lim] fields *)
Definition limited_fields (sep : list Z) (lim : Z) (fields : list (list Z)) : Prop :=
  zlen fields ≤ lim ∧ (zlen fields < lim → Forall (free sep) fields) ∧ ∀ fs x, fields = fs ++ [x] → Forall (free sep) fs.

Lemma limited_fields_snoc sep lim fs x : zlen fs ≤ lim - 1 → Forall (free sep) fs → (zlen fs < lim - 1 → free sep x) →
  limited_fields sep lim (fs ++ [x]).
Proof.
  intros Hl Hf Hx. split_and!.
  - rewrite zlen_app, zlen_cons, zlen_nil. lia.
  - rewrite zlen_app, zlen_cons, zlen_nil. intros. apply Forall_app. split; [done|]. apply Forall_singleton, Hx. lia.
  - by intros fs' y [<- _]%app_inj_tail.
Qed.

(** With a limit, the loop stops one field earlier. *)
Lemma split_loop_spec fuel s sep limit loc result : ascii_of s → ascii_of sep → schars sep ≠ [] → zlen (schars s) < 2 ^ 62 →
  split_inv (schars sep) (schars s) loc (schars <$> result) → (∀ lim, limit = Some lim → 1 < lim) → zlen (schars s) - loc < Z.of_nat fuel →
  returns (split_loop fuel s (Some sep) false limit loc result) (split_post (schars sep) (schars s) limit (zlen result)).
Proof.
  intros Hs Ht Hne Hlen. revert limit loc result. induction fuel as [|fuel IH]; intros limit loc result Hinv Hlim Hf.
  { destruct Hinv as (_ & Hloc & _). lia. }
  pose proof Hinv as (_ & Hloc & _). cbn [split_loop]. rewrite split_find_spec by done. cbn [mbind res_bind].
  destruct (index_of _ _) as [i|] eqn:Ei; cbn [fmap option_fmap option_map].
  2: { apply returns_ret. split; [done|]. destruct limit as [lim|]; [|done]. pose proof (Hlim lim eq_refl). cbn [fst snd]. split; [lia|]. intros _. exact Ei. }
  destruct (split_inv_step _ _ _ _ _ Hne Hinv Ei) as (H0 & H1 & Hinv'). cbn [location rlength].
  assert (0 < zlen (schars sep)) by (destruct (schars sep); [done|]; rewrite zlen_cons; pose proof (zlen_nonneg l); lia).
  eapply returns_bind_mono; [apply split_field_spec; lia|]. intros r Hr. replace (loc + i - loc) with i in Hr by lia. rewrite <-Hr in Hinv'.
  assert (zlen r = zlen result + 1) as Hzr.
  { apply (f_equal length) in Hr. rewrite length_app, !length_fmap in Hr. cbn in Hr. unfold zlen. lia. }
  destruct limit as [lim|].
  - pose proof (Hlim lim eq_refl). destruct (Z.ltb_spec 1 (lim - 1)) as [Hgt|Hle].
    + eapply returns_mono; [apply IH; [done|by intros ? [= <-]|lia]|]. intros p [Hp [Hb Hfree]]. split; [done|]. split; [lia|]. intros. apply Hfree. lia.
    + apply returns_ret. split; [done|]. cbn [fst snd]. split; lia.
  - eapply returns_mono; [apply IH; [done|done|lia]|]. intros p Hp. exact Hp.
Qed.

(** What is left at the end is the last field. *)
Lemma split_last sep l loc fs : split_inv sep l loc fs → join sep (fs ++ [drop (Z.to_nat loc) l]) = l.
Proof. intros (E & _ & _). by rewrite join_snoc, <-E. Qed.

Lemma pop_empty_spec r : schars <$> pop_empty r = trim_r is_nil (schars <$> r).
Proof.
  apply fmap_trim_r. intros t. rewrite len_schars. unfold is_nil. destruct (schars t) as [|c l]; [done|].
  rewrite zlen_cons. pose proof (zlen_nonneg l). rewrite (proj2 (Z.eqb_neq _ _)) by lia. done.
Qed.

Lemma int_ok l : - 2 ^ 31 ≤ l < 2 ^ 31 → rb_num2int (Fixnum l) = Ok l.
Proof.
  intros. unfold rb_num2int, check_int. cbn [rb_num2long mbind res_bind]. change INT_MIN with (- 2 ^ 31). change INT_MAX with (2 ^ 31 - 1).
  rewrite (proj2 (Z.ltb_ge _ _)), (proj2 (Z.ltb_ge _ _)) by lia. done.
Qed.

Lemma awk_ok sep : schars sep ≠ [32] →
  (if RSTRING_LEN sep =? 1 then c ← cf_char (content sep) 0; Ok (c =? 32) else Ok false) = Ok false.
Proof.
  intros H. rewrite len_schars. destruct (Z.eqb_spec (zlen (schars sep)) 1) as [E|E]; [|done].
  destruct (schars sep) as [|c [|d l]] eqn:Es; [done| |rewrite !zlen_cons in E; pose proof (zlen_nonneg l); lia].
  rewrite (cf_char_ok _ 0 c) by (change (chars (content sep)) with (schars sep); by rewrite Es). cbn. f_equal. apply Z.eqb_neq. congruence.
Qed.

(** The end of [split]: the last field *)
Lemma split_rest s sep beg result : zlen (schars s) < 2 ^ 62 → split_inv sep (schars s) beg (schars <$> result) →
  returns (if RSTRING_LEN s =? beg then Ok (result ++ [rb_str_new_empty])
    else o ← rb_str_subseq s beg (RSTRING_LEN s - beg); t ← of_option BadPointer o; Ok (result ++ [t]))
    (λ r, schars <$> r = (schars <$> result) ++ [drop (Z.to_nat beg) (schars s)]).
Proof.
  intros Hlen (_ & Hb & _). rewrite len_schars. destruct (Z.eqb_spec (zlen (schars s)) beg) as [E|E].
  - apply returns_ret. rewrite fmap_app. cbn. rewrite schars_empty, drop_ge by (unfold zlen in *; lia). done.
  - eapply returns_bind_mono; [apply subseq_spec; lia|]. intros o Ho. unfold norm_beg, norm_len in Ho.
    rewrite (proj2 (Z.ltb_ge _ _)) in Ho by lia. rewrite decide_True in Ho by lia. destruct Ho as (t & -> & Et & _).
    cbn [of_option mbind res_bind]. apply returns_ret. rewrite fmap_app. cbn. rewrite Et, Z.min_l, slice_rest by lia. done.
Qed.

Lemma split_spec fs s sep limit : ascii_of s → ascii_of sep → schars sep ≠ [] → schars sep ≠ [32] → zlen (schars s) < 2 ^ 62 →
  (∀ l, limit = Some l → - 2 ^ 31 ≤ l < 2 ^ 31) →
  let lim := default 0 limit in
  returns (rb_str_split_m fs s (Some sep) limit) (λ r, ∃ fields,
    join (schars sep) fields = schars s ∧ (lim ≤ 0 → Forall (free (schars sep)) fields) ∧ (0 < lim → limited_fields (schars sep) lim fields) ∧
    schars <$> r = if lim =? 0 then trim_r is_nil fields else fields).
Proof.
  intros Hs Ht Hne Hsp Hlen Hlim lim. unfold rb_str_split_m.
  assert (match limit with None => Ok 0 | Some l => rb_num2int (Fixnum l) end = Ok lim) as ->.
  { destruct limit as [l|]; [|done]. by apply int_ok, Hlim. }
  cbn [mbind res_bind]. rewrite len_schars. pose proof (zlen_nonneg (schars s)) as Hpos.
  assert (zlen (schars s) = 0 → schars s = []) as Hnil by (destruct (schars s); [done|]; rewrite zlen_cons; pose proof (zlen_nonneg l); lia).
  destruct (Z.eqb_spec lim 1) as [E1|E1].
  { rewrite E1. apply returns_ret. destruct (Z.eqb_spec (zlen (schars s)) 0) as [E0|E0].
    - exists []. split_and!; [by rewrite Hnil|done| |done]. intros _. split_and!; [done|by constructor|]. by intros [] ? [=].
    - exists [schars s]. split_and!; [done|intros; lia| |done]. intros _. apply (limited_fields_snoc _ 1 []); [done|constructor|]. rewrite zlen_nil. lia. }
  rewrite awk_ok by done. cbn [mbind res_bind]. eapply returns_bind_mono.
  { apply split_loop_spec; [done|done|done|done| | |].
    - split; [done|]. split; [lia|constructor].
    - intros l. destruct (Z.ltb_spec 0 lim); [|done]. intros [= <-]. lia.
    - lia. }
  intros [beg result] [Hinv Hpost]. cbn [fst snd] in *. pose proof Hinv as (_ & Hbeg & Hfree).
  destruct (Z.ltb_spec 0 (zlen (schars s))) as [Hpos'|Hz]; cbn [andb].
  2: { cbn [mbind res_bind]. apply returns_ret. assert (result = []) as ->.
       { destruct result as [|r result]; [done|]. exfalso. destruct Hinv as (E & _). rewrite (Hnil ltac:(lia)) in E. cbn in E. by destruct (schars r), (schars sep). }
       exists []. rewrite Hnil by lia. split_and!; [done|done| |by destruct (negb _ && _), (lim =? 0)].
       intros Hgt. split_and!; [rewrite zlen_nil; lia|by constructor|]. by intros [] ? [=]. }
  assert (∀ r, schars <$> r = (schars <$> result) ++ [drop (Z.to_nat beg) (schars s)] → ∃ fields,
    join (schars sep) fields = schars s ∧ (lim ≤ 0 → Forall (free (schars sep)) fields) ∧ (0 < lim → limited_fields (schars sep) lim fields) ∧
    schars <$> (if negb (0 <? lim) && (lim =? 0) then pop_empty r else r) = if lim =? 0 then trim_r is_nil fields else fields) as Hfin.
  { intros r Hr. exists ((schars <$> result) ++ [drop (Z.to_nat beg) (schars s)]). split_and!.
    - by apply split_last.
    - intros Hle. rewrite (proj2 (Z.ltb_ge _ _)) in Hpost by lia. apply Forall_app. split; [done|]. by apply Forall_singleton.
    - intros Hgt. rewrite (proj2 (Z.ltb_lt _ _)) in Hpost by lia. destruct Hpost as [Hb Hrest]. change (zlen (@nil rstr)) with 0 in *.
      apply limited_fields_snoc; [|done|]; unfold zlen in *; rewrite length_fmap; [lia|]. intros. apply Hrest. lia.
    - rewrite <-Hr. destruct (Z.eqb_spec lim 0) as [->|]; [apply pop_empty_spec|]. by rewrite andb_false_r. }
  destruct ((0 <? lim) || (beg <? zlen (schars s)) || (lim <? 0)) eqn:Ec.
  - eapply returns_bind_mono; [rewrite <-len_schars; by eapply split_rest|]. intros r Hr. apply returns_ret. by apply Hfin.
  - cbn [mbind res_bind]. apply orb_false_iff in Ec as [[Ec1%Z.ltb_ge Ec2%Z.ltb_ge]%orb_false_iff Ec3%Z.ltb_ge].
    apply returns_ret. assert (lim = 0) as E0 by lia. destruct (Hfin (result ++ [rb_str_new_empty])) as (fields & Hj & Hf & Hb & Hr).
    { rewrite fmap_app. cbn. rewrite schars_empty, drop_ge by (unfold zlen in *; lia). done. }
    exists fields. split_and!; [done|done|done|]. rewrite <-Hr. rewrite E0. cbn [Z.ltb Z.compare Z.eqb negb andb]. unfold pop_empty.
    rewrite trim_r_snoc; [done|]. by rewrite len_schars, schars_empty.
Qed.

(** ** [each_line] *)

(** The lines: the fields with the separator behind them, and the rest if there is any *)
Definition lines_of (sep : list Z) (fs : list (list Z)) (rest : list Z) : list (list Z) :=
  ((λ f, f ++ sep) <$> fs) ++ (if is_nil rest then [] else [rest]).

Lemma yield_substr_ok s loc n acc : 0 ≤ loc → 0 ≤ n → loc + n ≤ zlen (schars s) →
  yield_substr collect s (CFRangeMake loc n) acc = Ok (acc ++ [slice loc n (schars s)], false).
Proof.
  intros. unfold yield_substr. destruct (cf_sub_ok (content s) loc n) as (c & -> & Ec); [done|done|done|]. cbn [mbind res_bind].
  unfold collect. rewrite schars_taint. unfold schars at 1. cbn. by rewrite cf_copy, Ec.
Qed.

(** The line that is pending is the last one of [fs]. *)
Definition line_inv (sep l : list Z) (fs : list (list Z)) (sub : CFRange) (loc : Z) (acc : list (list Z)) : Prop :=
  split_inv sep l loc fs ∧ 0 ≤ location sub ∧ 0 ≤ rlength sub ∧ location sub + rlength sub ≤ zlen l ∧
  acc ++ (if 0 <? rlength sub then [slice (location sub) (rlength sub) l] else []) = ((λ f, f ++ sep) <$> fs).

Lemma each_line_loop_spec fuel s sep fs sub loc acc : ascii_of s → ascii_of sep → schars sep ≠ [] →
  line_inv (schars sep) (schars s) fs sub loc acc → zlen (schars s) - loc < Z.of_nat fuel →
  returns (each_line_loop collect fuel s sep false sub loc acc) (λ '(acc, broken, sub, loc), broken = false ∧
    ∃ fs, line_inv (schars sep) (schars s) fs sub loc acc ∧ free (schars sep) (drop (Z.to_nat loc) (schars s))).
Proof.
  intros Hs Ht Hne. revert fs sub loc acc. induction fuel as [|fuel IH]; intros fs sub loc acc Hinv Hf.
  { destruct Hinv as ((_ & Hloc & _) & _). lia. }
  pose proof Hinv as (Hsp & Hb0 & Hb1 & Hb2 & Eacc). pose proof Hsp as (_ & Hloc & _). cbn [each_line_loop]. rewrite len_schars.
  rewrite cf_search_ok; [|done|done|done|lia|lia|unfold schars in *; lia]. cbn [mbind res_bind]. change (chars (content s)) with (schars s). change (chars (content sep)) with (schars sep).
  rewrite slice_rest by done. destruct (index_of _ _) as [i|] eqn:Ei; cbn [fmap option_fmap option_map].
  2: { apply returns_ret. split; [done|]. by exists fs. }
  destruct (split_inv_step _ _ _ _ _ Hne Hsp Ei) as (H0 & H1 & Hsp'). cbn [location rlength andb].
  assert (0 < zlen (schars sep)) by (destruct (schars sep); [done|]; rewrite zlen_cons; pose proof (zlen_nonneg l); lia).
  assert ((if 0 <? rlength sub then yield_substr collect s sub acc else Ok (acc, false)) = Ok (acc ++ (if 0 <? rlength sub then [slice (location sub) (rlength sub) (schars s)] else []), false)) as ->.
  { destruct (0 <? rlength sub); [|by rewrite app_nil_r]. destruct sub as [b n]. cbn in *. by apply yield_substr_ok. }
  cbn [mbind res_bind]. eapply IH; [|lia]. unfold line_inv. cbn [location rlength]. split_and!; [exact Hsp'|lia|lia|lia|].
  replace (loc + i - loc + zlen (schars sep)) with (i + zlen (schars sep)) by lia. rewrite (proj2 (Z.ltb_lt 0 (i + zlen (schars sep)))) by lia.
  rewrite Eacc, fmap_app. cbn. do 2 f_equal. apply slice_match; [lia|exact Ei].
Qed.

Lemma each_line_spec rs s sep : ascii_of s → ascii_of sep → schars sep ≠ [] →
  returns (rb_str_each_line collect rs s (Some sep) []) (λ acc, ∃ fs rest,
    acc = lines_of (schars sep) fs rest ∧ schars s = (fs ≫= λ f, f ++ schars sep) ++ rest ∧
    Forall (free (schars sep)) fs ∧ free (schars sep) rest).
Proof.
  intros Hs Ht Hne. unfold rb_str_each_line. rewrite !len_schars. pose proof (zlen_nonneg (schars s)).
  rewrite (proj2 (Z.eqb_neq (zlen (schars sep)) 0)) by (destruct (schars sep); [done|]; rewrite zlen_cons; pose proof (zlen_nonneg l); lia).
  eapply returns_bind_mono.
  { apply (each_line_loop_spec _ s sep []); [done|done|done| |lia]. unfold line_inv, split_inv. cbn. split_and!; try done; lia. }
  intros [[[acc broken] sub] loc] (-> & fs & ((E & Hloc & Hfs) & Hb0 & Hb1 & Hb2 & Eacc) & Hfree).
  assert ((if negb (rlength sub =? 0) then yield_substr collect s sub acc else Ok (acc, false)) = Ok ((λ f, f ++ schars sep) <$> fs, false)) as ->.
  { rewrite <-Eacc. destruct sub as [b n]. cbn [location rlength] in *. destruct (Z.eqb_spec n 0) as [->|Hn0]; cbn [negb].
    - by rewrite Z.ltb_irrefl, app_nil_r.
    - rewrite (proj2 (Z.ltb_lt 0 n)) by lia. by apply yield_substr_ok. }
  cbn [mbind res_bind]. assert (∀ acc, acc = lines_of (schars sep) fs (drop (Z.to_nat loc) (schars s)) →
    ∃ fs rest, acc = lines_of (schars sep) fs rest ∧ schars s = (fs ≫= λ f, f ++ schars sep) ++ rest ∧ Forall (free (schars sep)) fs ∧ free (schars sep) rest) as Hfin.
  { intros acc' ->. by exists fs, (drop (Z.to_nat loc) (schars s)). }
  unfold lines_of in Hfin at 1. destruct (Z.ltb_spec loc (zlen (schars s))) as [Hlt|Hge].
  - rewrite yield_substr_ok by lia. cbn [mbind res_bind]. apply returns_ret, Hfin. rewrite slice_rest by lia.
    unfold is_nil. rewrite bool_decide_eq_false_2; [done|]. intros Hnil%(f_equal length). rewrite length_drop in Hnil. cbn in Hnil. unfold zlen in *. lia.
  - apply returns_ret, Hfin. rewrite drop_ge by (unfold zlen in *; lia). by rewrite app_nil_r.
Qed.
End split.

(** * Copies, reversal, padding and trimming *)

(** ** Repetition *)

Lemma zlen_repeated pad i n : 0 ≤ n → zlen (repeated pad i n) = n.
Proof. intros. unfold repeated, zlen. rewrite length_fmap, length_seq. lia. Qed.

Lemma zlookup_repeated pad i n j : 0 ≤ j < n → zlookup (repeated pad i n) j = Some (default 0 (zlookup pad ((i + j) mod zlen pad))).
Proof.
  intros Hj. rewrite zlookup_nonneg by lia. unfold repeated. rewrite list_lookup_fmap, lookup_seq_lt by lia. cbn. by replace (0 + Z.to_nat j)%nat with (Z.to_nat j) by lia; rewrite Z2Nat.id by lia.
Qed.

(** The pad string as often as it fits, and a part of it *)
Lemma repeated_short pad n : 0 ≤ n ≤ zlen pad → repeated pad 0 n = slice 0 n pad.
Proof.
  intros Hn. apply zlist_eq; [rewrite zlen_repeated, zlen_slice by lia; done|]. rewrite zlen_repeated by lia. intros i Hi.
  rewrite zlookup_repeated, zlookup_slice, Z.mod_small by lia. destruct (zlookup_is_Some pad (0 + i)) as [x ->]; [lia|]. done.
Qed.

Lemma repeated_cons pad n : 0 < zlen pad → zlen pad ≤ n → repeated pad 0 n = pad ++ repeated pad 0 (n - zlen pad).
Proof.
  intros Hp Hn. apply zlist_eq; [rewrite zlen_app, !zlen_repeated by lia; lia|]. rewrite zlen_repeated by lia. intros i Hi.
  rewrite zlookup_repeated by lia. destruct (decide (i < zlen pad)).
  - rewrite zlookup_app_l, Z.mod_small by lia. change (0 + i) with i. destruct (zlookup_is_Some pad i) as [x E]; [lia|]. by rewrite E.
  - rewrite zlookup_app_r, zlookup_repeated by lia. do 3 f_equal. replace (0 + i) with (0 + (i - zlen pad) + 1 * zlen pad) by lia. by rewrite Z_mod_plus_full.
Qed.

Lemma repeated_times pad k : repeated pad 0 (Z.of_nat k * zlen pad) = mjoin (replicate k pad).
Proof.
  destruct (decide (zlen pad = 0)) as [E|E].
  { assert (pad = []) as -> by (destruct pad; [done|]; rewrite zlen_cons in E; pose proof (zlen_nonneg pad); lia). rewrite zlen_nil, Z.mul_0_r. induction k; [done|]. done. }
  pose proof (zlen_nonneg pad). induction k as [|k IH]; [done|]. rewrite repeated_cons by nia. change (mjoin (replicate (S k) pad)) with (pad ++ mjoin (replicate k pad)). rewrite <-IH. do 2 f_equal. lia.
Qed.

Section ends.
Context `{J : Junk} `{F : CFStrings} `{L : !CFStringLaws} (safe_level : Z).

Lemma times_spec s n : 0 ≤ n ≤ LONG_MAX → zlen (schars s) ≤ LONG_MAX →
  if n * zlen (schars s) <=? LONG_MAX then returns (rb_str_times s n) (λ r, schars r = mjoin (replicate (Z.to_nat n) (schars s)))
  else rb_str_times s n = Err (Raise ArgumentError).
Proof.
  intros Hn Hl. unfold rb_str_times. rewrite len_schars. rewrite (proj2 (Z.ltb_ge n 0)) by lia. set (l := schars s) in *. pose proof (zlen_nonneg l) as Hp.
  assert (negb (n =? 0) && (LONG_MAX / n <? zlen l) = negb (n * zlen l <=? LONG_MAX)) as ->.
  { destruct (Z.eqb_spec n 0) as [->|Hn0]; cbn [negb andb]; [by rewrite Z.mul_0_l|].
    destruct (Z.leb_spec (n * zlen l) LONG_MAX), (Z.ltb_spec (LONG_MAX / n) (zlen l)); cbn [negb]; try done; exfalso.
    - pose proof (Z.div_le_lower_bound LONG_MAX n (zlen l)). lia.
    - pose proof (Z.mul_div_le LONG_MAX n ltac:(lia)). pose proof (Z.mul_succ_div_gt LONG_MAX n ltac:(lia)). nia. }
  destruct (Z.leb_spec (n * zlen l) LONG_MAX) as [Hle|Hgt]; cbn [negb]; [|done].
  apply returns_ret. rewrite schars_taint. unfold schars at 1. cbn [content set_content]. 
  assert (chars (content (rb_str_new3 s)) = l) as Ec by apply schars_dup.
  destruct (decide (n * zlen l ≤ zlen l)) as [Hcut|Hpad].
  - rewrite cf_pad_cut by (rewrite cf_length, Ec; nia). rewrite Ec.
    destruct (decide (n = 0)) as [->|Hn0]; [done|]. destruct (decide (zlen l = 0)) as [E0|E0].
    + assert (l = []) as -> by (destruct l; [done|]; rewrite zlen_cons in E0; pose proof (zlen_nonneg l); lia). rewrite slice_nil. clear. induction (Z.to_nat n); done.
    + assert (n = 1) as -> by nia. rewrite Z.mul_1_l, slice_all. change (mjoin (replicate (Z.to_nat 1) l)) with (l ++ []). by rewrite app_nil_r.
  - assert (0 < zlen l) by nia. rewrite cf_pad by (rewrite cf_length, ?Ec; change (chars (content s)) with l; nia). rewrite cf_length, Ec. change (chars (content s)) with l.
    rewrite <-repeated_times, Z2Nat.id by lia. rewrite (repeated_cons l (n * zlen l)) by nia. done.
Qed.

(** ** Reversal *)

Lemma swap_loop_spec fuel A M B : zlen M ≤ 2 * Z.of_nat fuel - 1 →
  swap_loop fuel (zlen A) (zlen A + zlen M - 1) (A ++ M ++ B) = Ok (A ++ reverse M ++ B).
Proof.
  revert A M B. induction fuel as [|fuel IH]; intros A M B Hf; [pose proof (zlen_nonneg M); lia|]. cbn [swap_loop].
  destruct (Z.ltb_spec (zlen A) (zlen A + zlen M - 1)) as [Hlt|Hge].
  - destruct M as [|x M]; [rewrite zlen_nil in Hlt; lia|]. destruct M as [|y M _] using rev_ind; [rewrite zlen_cons, zlen_nil in Hlt; lia|].
    rewrite zlen_cons, zlen_app, zlen_cons, zlen_nil in *. pose proof (zlen_nonneg M) as HM. pose proof (zlen_nonneg A) as HA. pose proof (zlen_nonneg B) as HB.
    set (e := zlen A + (1 + (zlen M + (1 + 0))) - 1). set (buf := A ++ (x :: M ++ [y]) ++ B).
    assert (∀ u v, A ++ (u :: M ++ [v]) ++ B = (A ++ u :: M) ++ v :: B) as Hsp by (intros; cbn; by rewrite <-!app_assoc).
    assert (zlen (A ++ x :: M) = e) as He by (unfold e; rewrite zlen_app, zlen_cons; lia).
    rewrite (proj2 (aload_ok buf (zlen A) x)) by (unfold buf; rewrite zlookup_app_r by lia; by rewrite Z.sub_diag). cbn [mbind res_bind].
    rewrite (proj2 (aload_ok buf e y)) by (unfold buf; rewrite Hsp, zlookup_app_r by lia; by rewrite He, Z.sub_diag). cbn [mbind res_bind].
    rewrite astore_ok by (unfold buf; rewrite !zlen_app, zlen_cons, zlen_app, zlen_cons, zlen_nil; lia). cbn [mbind res_bind].
    assert (<[Z.to_nat (zlen A) := y]> buf = A ++ (y :: M ++ [y]) ++ B) as -> by (unfold buf; rewrite to_nat_zlen, insert_app_r_alt by done; by rewrite Nat.sub_diag).
    rewrite astore_ok by (unfold e; rewrite !zlen_app, zlen_cons, zlen_app, zlen_cons, zlen_nil; lia). cbn [mbind res_bind].
    assert (<[Z.to_nat e := x]> (A ++ (y :: M ++ [y]) ++ B) = (A ++ [y]) ++ M ++ x :: B) as ->.
    { rewrite Hsp, <-He, to_nat_zlen, insert_app_r_alt by (rewrite !length_app; cbn; lia). rewrite !length_app. cbn [length]. rewrite Nat.sub_diag. cbn. by rewrite <-!app_assoc. }
    replace (zlen A + 1) with (zlen (A ++ [y])) by (rewrite zlen_app, zlen_cons, zlen_nil; lia).
    replace (e - 1) with (zlen (A ++ [y]) + zlen M - 1) by (unfold e; rewrite zlen_app, zlen_cons, zlen_nil; lia).
    rewrite IH by lia. rewrite reverse_cons, reverse_snoc. cbn. by rewrite <-!app_assoc.
  - do 2 f_equal. destruct M as [|x [|y M]]; [done|done|]. rewrite !zlen_cons in Hge. pose proof (zlen_nonneg M). lia.
Qed.

Lemma reverse_spec s : (s_tainted s = true → safe_level < 4) → returns (rb_str_reverse safe_level s) (λ r, schars r = reverse (schars s)).
Proof.
  intros Ht. unfold rb_str_reverse. rewrite <-(schars_dup s). pose proof (writable_dup safe_level s Ht) as Hw. set (d := rb_str_dup s) in *. clearbody d.
  unfold rb_str_reverse_bang. rewrite (modify_ok _ _ Hw). cbn [mbind res_bind]. rewrite len_schars. destruct (Z.leb_spec (zlen (schars d)) 1) as [H1|H1].
  - cbn [mbind res_bind]. apply returns_ret. destruct (schars d) as [|x [|y l]]; [done|done|]. rewrite !zlen_cons in H1. pose proof (zlen_nonneg l). lia.
  - rewrite cf_get_ok by (unfold schars in *; lia). cbn [mbind res_bind]. change (chars (content d)) with (schars d). rewrite slice_all.
    pose proof (swap_loop_spec (Z.to_nat (zlen (schars d))) [] (schars d) []) as E. rewrite !app_nil_r in E. cbn [app] in E.
    change (zlen (@nil Z) + zlen (schars d) - 1) with (zlen (schars d) - 1) in E. change (zlen (@nil Z)) with 0 in E. rewrite E by lia.
    cbn [mbind res_bind]. apply returns_ret. unfold schars at 1. cbn. by rewrite cf_replace_all, cf_append_chars, cf_create.
Qed.

(** ** Padding *)

Lemma insert_at c A B v : chars c = A ++ B → returns (cf_ins c (zlen A) v) (λ u, chars u = A ++ chars v ++ B).
Proof.
  intros E. eapply returns_mono; [apply cf_ins_ok; rewrite E, zlen_app; pose proof (zlen_nonneg A); pose proof (zlen_nonneg B); lia|].
  intros u ->. by rewrite E, to_nat_zlen, take_app_length, drop_app_length.
Qed.

Lemma justify0_spec fuel c pad width A B : chars c = A ++ B → chars pad ≠ [] → 0 ≤ width < Z.of_nat fuel →
  returns (rb_str_justify0 fuel c pad width (zlen (chars pad)) (zlen A)) (λ u, chars u = A ++ repeated (chars pad) 0 width ++ B).
Proof.
  intros E Hne. assert (0 < zlen (chars pad)) as Hp by (destruct (chars pad); [done|]; rewrite zlen_cons; pose proof (zlen_nonneg l); lia).
  revert c width A E. induction fuel as [|fuel IH]; intros c width A E Hw; [lia|]. cbn [rb_str_justify0].
  destruct (Z.ltb_spec width (zlen (chars pad))) as [Hlt|Hge].
  - eapply returns_bind_mono; [apply cf_sub_ok; lia|]. intros v Hv. eapply returns_bind_mono; [by apply insert_at|]. intros u Hu.
    rewrite (proj2 (Z.ltb_ge _ _)) by lia. apply returns_ret. rewrite Hu, Hv. by rewrite repeated_short by lia.
  - cbn [mbind res_bind]. eapply returns_bind_mono; [by apply insert_at|]. intros u Hu. rewrite repeated_cons by lia.
    destruct (Z.ltb_spec 0 (width - zlen (chars pad))) as [H0|H0].
    + rewrite <-zlen_app. eapply returns_mono; [apply (IH u (width - zlen (chars pad)) (A ++ chars pad)); [by rewrite Hu, <-app_assoc|lia]|].
      intros u' ->. by rewrite <-!app_assoc.
    + apply returns_ret. rewrite Hu. replace (width - zlen (chars pad)) with 0 by lia. cbn. by rewrite app_nil_r.
Qed.

(** How much is added on each side *)
Definition padding (j : jflag) (n : Z) : Z * Z := match j with JLeft => (0, n) | JRight => (n, 0) | JCenter => (n / 2, (n + 1) / 2) end.

Lemma justify_spec space s width pad j : schars pad ≠ [] →
  let l := schars s in let n := Z.max 0 (width - zlen l) in
  returns (rb_str_justify space s width (Some pad) j) (λ r,
    schars r = repeated (schars pad) 0 (padding j n).1 ++ l ++ repeated (schars pad) 0 (padding j n).2 ∧ zlen (schars r) = Z.max width (zlen l)).
Proof.
  intros Hne l n. pose proof (zlen_nonneg l) as Hl. unfold rb_str_justify. rewrite !len_schars. fold l.
  rewrite (proj2 (Z.eqb_neq (zlen (schars pad)) 0)) by (destruct (schars pad); [done|]; rewrite zlen_cons; pose proof (zlen_nonneg l0); lia).
  assert ((width <? 0) || (width <=? zlen l) = (width <=? zlen l)) as ->.
  { destruct (Z.ltb_spec width 0), (Z.leb_spec width (zlen l)); done || lia. }
  assert (schars (rb_str_new3 s) = l) as Ec by apply schars_dup. destruct (Z.leb_spec width (zlen l)) as [Hle|Hgt].
  { apply returns_ret. unfold n. replace (Z.max 0 (width - zlen l)) with 0 by lia. rewrite Ec. destruct j; cbn; rewrite app_nil_r; split; [done|lia|done|lia|done|lia]. }
  unfold n. replace (Z.max 0 (width - zlen l)) with (width - zlen l) by lia. clear n. set (n := width - zlen l) in *. assert (0 < n) as Hn by lia.
  assert (∀ c A B w, chars c = A ++ B → 0 ≤ w ≤ n → returns (rb_str_justify0 (Z.to_nat (n + 1)) c (content pad) w (zlen (schars pad)) (zlen A))
    (λ u, chars u = A ++ repeated (schars pad) 0 w ++ B)) as Hj by (intros c A B w Hc Hw; apply justify0_spec; [done|done|lia]).
  pose proof (Z.div_mod n 2 ltac:(lia)) as D1. pose proof (Z.div_mod (n + 1) 2 ltac:(lia)) as D2. pose proof (Z.mod_pos_bound n 2 ltac:(lia)). pose proof (Z.mod_pos_bound (n + 1) 2 ltac:(lia)).
  eapply returns_bind_mono with (P := λ u, chars u = repeated (schars pad) 0 (padding j n).1 ++ l ++ repeated (schars pad) 0 (padding j n).2).
  - change (schars (rb_str_new3 s)) with (chars (content (rb_str_new3 s))) in Ec. destruct j; cbn [padding fst snd].
    + eapply returns_mono; [apply (Hj _ l []); [by rewrite app_nil_r|lia]|]. intros u ->. by rewrite app_nil_r.
    + change 0 with (zlen (@nil Z)) at 1. eapply returns_mono; [apply (Hj _ [] l); [done|lia]|]. intros u ->. cbn. by rewrite app_nil_r.
    + eapply returns_bind_mono; [apply (Hj _ l []); [by rewrite app_nil_r|lia]|]. intros u Hu. rewrite app_nil_r in Hu.
      change 0 with (zlen (@nil Z)) at 1. eapply returns_mono; [apply (Hj _ [] _ _ Hu); lia|]. intros v ->. done.
  - intros u Hu. apply returns_ret. rewrite schars_taint. unfold schars at 1 4. cbn [content set_content]. rewrite Hu. split; [done|].
    rewrite !zlen_app. destruct j; cbn [padding fst snd]; rewrite !zlen_repeated by lia; lia.
Qed.

(** ** Trimming *)

Lemma scan_down_spec l t : scan_down (length l) (l ++ t) = Ok (zlen (trim_r whitespace l) - 1).
Proof.
  revert t. induction l as [|x l IH] using rev_ind; intros t; [done|]. rewrite length_app, Nat.add_1_r. cbn [scan_down].
  rewrite <-app_assoc, (proj2 (aload_ok _ _ x)) by (rewrite zlookup_app_r by (unfold zlen; lia); by replace (_ - zlen l) with 0 by (unfold zlen; lia)).
  cbn [mbind res_bind]. destruct (whitespace x) eqn:E; cbn [negb].
  - rewrite trim_r_snoc by done. apply IH.
  - rewrite trim_r_keep, zlen_app, zlen_cons, zlen_nil by done. f_equal. unfold zlen. lia.
Qed.

Lemma scan_up_spec fuel pre k t : zlen k < Z.of_nat fuel →
  scan_up fuel (zlen pre) (zlen pre + zlen k) (pre ++ k ++ t) = Ok (zlen pre + zlen k - zlen (drop_while whitespace k)).
Proof.
  revert pre k. induction fuel as [|fuel IH]; intros pre k Hf; [pose proof (zlen_nonneg k); lia|]. cbn [scan_up]. destruct k as [|x k].
  - rewrite !zlen_nil, Z.add_0_r, Z.ltb_irrefl. f_equal. cbn [drop_while]. rewrite ?zlen_nil. lia.
  - rewrite !zlen_cons in *. pose proof (zlen_nonneg k). rewrite (proj2 (Z.ltb_lt _ _)) by lia.
    rewrite (proj2 (aload_ok _ _ x)) by (rewrite zlookup_app_r by lia; by rewrite Z.sub_diag). cbn [mbind res_bind drop_while].
    destruct (whitespace x); cbn [negb].
    + specialize (IH (pre ++ [x]) k). rewrite zlen_app, zlen_cons, zlen_nil, <-app_assoc in IH. cbn [app] in *.
      replace (zlen pre + 1) with (zlen pre + (1 + 0)) by lia. replace (zlen pre + (1 + zlen k)) with (zlen pre + (1 + 0) + zlen k) by lia. apply IH. lia.
    + rewrite zlen_cons. f_equal. lia.
Qed.

(** [direction] is negative for the left end, positive for the right end and zero for both; the flag looks at the
    right end only. *)
Definition strip_r (direction : Z) (l : list Z) : list Z := if 0 <=? direction then trim_r whitespace l else l.
Definition strip_l (direction : Z) (l : list Z) : list Z := if direction <=? 0 then drop_while whitespace l else l.

Lemma strip_cut s k n : schars s = trim_r whitespace (schars s) ++ k → n = zlen (trim_r whitespace (schars s)) →
  returns (if n - 1 <? zlen (schars s) - 1 then
     c ← cf_del (content s) (CFRangeMake (n - 1 + 1) (zlen (schars s) - (n - 1) - 1)); Ok (c, zlen (schars s) - (zlen (schars s) - (n - 1) - 1))
   else Ok (content s, zlen (schars s))) (λ '(c, m), chars c = trim_r whitespace (schars s) ∧ m = n).
Proof.
  intros Ek En. set (R := trim_r whitespace (schars s)) in *. assert (zlen (schars s) = n + zlen k) as Hz by (rewrite Ek at 1; rewrite zlen_app, En; done).
  pose proof (zlen_nonneg k). destruct (Z.ltb_spec (n - 1) (zlen (schars s) - 1)) as [Hlt|Hge].
  - pose proof (zlen_nonneg R). eapply returns_bind_mono; [apply cf_del_ok; [lia|lia|change (chars (content s)) with (schars s); lia]|].
    intros c Hc. apply returns_ret. split; [|lia]. rewrite Hc. change (chars (content s)) with (schars s). rewrite (drop_ge (schars s)) by (unfold zlen in *; lia).
    rewrite app_nil_r. replace (n - 1 + 1) with (zlen R) by lia. rewrite Ek at 1. rewrite to_nat_zlen. apply take_app_length.
  - apply returns_ret. assert (k = []) as E by (destruct k; [done|]; rewrite zlen_cons in *; pose proof (zlen_nonneg k); lia). rewrite E, app_nil_r in Ek. split; [done|]. rewrite E, zlen_nil in Hz. lia.
Qed.

Lemma strip_spec s direction : writable safe_level s →
  returns (rb_str_strip_bang2 safe_level s direction) (λ '(flag, s'),
    schars s' = strip_l direction (strip_r direction (schars s)) ∧ flag = negb (bool_decide (strip_r direction (schars s) = schars s))).
Proof.
  intros Hw. unfold rb_str_strip_bang2. rewrite (modify_ok _ _ Hw). cbn [mbind res_bind]. rewrite len_schars. pose proof (zlen_nonneg (schars s)) as Hp.
  destruct (Z.eqb_spec (zlen (schars s)) 0) as [E0|E0].
  { apply returns_ret. assert (schars s = []) as -> by (destruct (schars s); [done|]; rewrite zlen_cons in E0; pose proof (zlen_nonneg l); lia).
    unfold strip_l, strip_r. by destruct (0 <=? direction), (direction <=? 0). }
  rewrite cf_get_ok by (unfold schars in *; lia). cbn [mbind res_bind]. change (chars (content s)) with (schars s). rewrite slice_all.
  destruct (trim_r_prefix whitespace (schars s)) as [k Ek].
  eapply returns_bind_mono with (P := λ '(c, m), chars c = strip_r direction (schars s) ∧ m = zlen (strip_r direction (schars s)) ∧ ∃ k, schars s = strip_r direction (schars s) ++ k).
  { unfold strip_r. destruct (0 <=? direction); [|apply returns_ret; split_and!; [done|done|exists []; by rewrite app_nil_r]].
    pose proof (scan_down_spec (schars s) []) as Hd. rewrite app_nil_r in Hd. rewrite to_nat_zlen, Hd. cbn [mbind res_bind].
    eapply returns_mono; [by apply (strip_cut s k)|]. intros [c m] [-> ->]. split_and!; [done|done|by exists k]. }
  intros [c m] (Hc & -> & k' & Ek'). set (R := strip_r direction (schars s)) in *.
  assert (negb (zlen (schars s) =? zlen R) = negb (bool_decide (R = schars s))) as Hflag.
  { f_equal. destruct (Z.eqb_spec (zlen (schars s)) (zlen R)) as [E|E].
    - symmetry. apply bool_decide_eq_true_2. rewrite Ek' in E at 1. rewrite zlen_app in E. destruct k' as [|x k']; [by rewrite Ek', app_nil_r|].
      rewrite zlen_cons in E. pose proof (zlen_nonneg k'). lia.
    - symmetry. apply bool_decide_eq_false_2. congruence. }
  rewrite Hflag. unfold strip_l. destruct (direction <=? 0); [|cbn [mbind res_bind]; apply returns_ret; by split].
  pose proof (scan_up_spec (Z.to_nat (zlen R) + 1) [] R k') as Hu. cbn [app] in Hu. change (zlen (@nil Z)) with 0 in Hu. rewrite !Z.add_0_l, <-Ek' in Hu.
  rewrite Hu by (pose proof (zlen_nonneg R); lia). cbn [mbind res_bind]. destruct (drop_while_suffix whitespace R) as [h Eh].
  assert (zlen R - zlen (drop_while whitespace R) = zlen h) as -> by (rewrite Eh at 1; rewrite zlen_app; lia).
  destruct (Z.ltb_spec 0 (zlen h)) as [Hh|Hh].
  - eapply returns_bind_mono; [apply cf_del_ok; [lia|lia|rewrite Hc, Eh, zlen_app; pose proof (zlen_nonneg (drop_while whitespace R)); lia]|].
    intros c' Hc'. apply returns_ret. split; [|done]. unfold schars at 1. cbn [content set_content]. cbn beta in Hc'. rewrite Hc', Hc, Z.add_0_l, to_nat_zlen. rewrite Eh at 2. apply drop_app_length.
  - cbn [mbind res_bind]. apply returns_ret. split; [|done]. unfold schars at 1. cbn [content set_content]. rewrite Hc.
    destruct h; [done|]. rewrite zlen_cons in Hh. pose proof (zlen_nonneg h). lia.
Qed.
End ends.
