(* ===== verification/StrText.v ===== *)
(** * Searching, case and checksums

    [index], [include?] and [partition] in terms of the first occurrence; [swapcase], [chop] and [sum]. *)

From S2P Require Import Prelude Util Big BigVal BigAdd BigStr BigThm Numeric NumericSpec RArray CFString Str StrSpec StrParse StrOps.

(** The other case of an ASCII letter *)
Definition lower (c : Z) : bool := (97 <=? c) && (c <=? 122).
Definition upper (c : Z) : bool := (65 <=? c) && (c <=? 90).
Definition swapped (c : Z) : Z := if lower c then c - 32 else if upper c then c + 32 else c.

Lemma swapped_ascii c : ascii c → ascii (swapped c).
Proof. unfold ascii, swapped, lower, upper. repeat case_match; rewrite ?andb_true_iff, ?Z.leb_le in *; lia. Qed.

Lemma swapped_twice c : swapped (swapped c) = c.
Proof.
  assert (lower c = true → lower (c - 32) = false ∧ upper (c - 32) = true) as H1.
  { unfold lower, upper. rewrite !andb_true_iff, !andb_false_iff, !Z.leb_le, !Z.leb_gt. lia. }
  assert (upper c = true → lower (c + 32) = true) as H2 by (unfold lower, upper; rewrite !andb_true_iff, !Z.leb_le; lia).
  unfold swapped. destruct (lower c) eqn:E1; [destruct (H1 eq_refl) as [-> ->]; lia|]. destruct (upper c) eqn:E2; [rewrite (H2 eq_refl); lia|]. by rewrite E1, E2.
Qed.

Section text.
Context `{J : Junk} `{F : CFStrings} `{L : !CFStringLaws} (safe_level : Z).

(** ** Searching *)

Lemma index_m_spec s sub pos : ascii_of s → ascii_of sub → schars sub ≠ [] → pos ≤ zlen (schars s) →
  let l := schars s in let b := norm_beg l pos in
  rb_str_index_m s sub pos = Ok (if b <? 0 then None else (λ i, b + i) <$> index_of (schars sub) (drop (Z.to_nat b) l)).
Proof.
  intros Hs Ht Hne Hpos l b. fold l in Hpos. pose proof (zlen_nonneg l) as Hl.
  assert (b ≤ zlen l) as Hbl by (unfold b, norm_beg; destruct (Z.ltb_spec pos 0); lia). unfold rb_str_index_m. rewrite len_schars. fold l. fold (norm_beg l pos). fold b. destruct (Z.ltb_spec b 0) as [Hb|Hb]; [done|].
  rewrite index_spec; [|done|done|done|fold l; lia]. cbn [mbind res_bind]. f_equal. fold l.
  destruct (index_of (schars sub) (drop (Z.to_nat b) l)) as [i|] eqn:E; [|done]. destruct (index_of_Some _ _ _ E) as (H0 & _).
  rewrite (proj2 (Z.eqb_neq _ _)) by lia. done.
Qed.

Lemma include_spec s sub : ascii_of s → ascii_of sub → schars sub ≠ [] →
  ∃ b, rb_str_include s sub = Ok b ∧ (b = true ↔ ∃ k1 k2, schars s = k1 ++ schars sub ++ k2).
Proof.
  intros Hs Ht Hne. unfold rb_str_include. rewrite index_spec by (done || pose proof (zlen_nonneg (schars s)); lia). cbn [mbind res_bind].
  change (drop (Z.to_nat 0) (schars s)) with (schars s). destruct (index_of (schars sub) (schars s)) as [i|] eqn:E.
  - destruct (index_of_Some _ _ _ E) as (H0 & _). exists true. rewrite (proj2 (Z.eqb_neq _ _)) by lia. split; [done|]. split; [|done]. intros _.
    eexists _, _. by apply index_of_split.
  - exists false. split; [done|]. split; [done|]. intros (k1 & k2 & Ek). exfalso. apply (index_of_None _ _ E (length k1)).
    rewrite Ek, drop_app_length. by exists k2.
Qed.

(** The part before the first occurrence, the separator, and the rest *)
Lemma partition_spec s sep : ascii_of s → ascii_of sep → schars sep ≠ [] → zlen (schars s) < 2 ^ 62 →
  returns (rb_str_partition s sep) (λ '(h, m, t), ∃ h' t', h = Some h' ∧ t = Some t' ∧
    schars h' ++ schars m ++ schars t' = schars s ∧ free (schars sep) (schars h') ∧
    schars m = if index_of (schars sep) (schars s) then schars sep else []).
Proof.
  intros Hs Ht Hne Hl. unfold rb_str_partition. pose proof (zlen_nonneg (schars s)) as Hz. rewrite index_spec by (done || lia). cbn [mbind res_bind].
  change (drop (Z.to_nat 0) (schars s)) with (schars s). destruct (index_of (schars sep) (schars s)) as [i|] eqn:E.
  2: { apply returns_ret. exists s, rb_str_new_empty. rewrite schars_empty, !app_nil_r. done. }
  destruct (index_of_Some _ _ _ E) as (H0 & H1 & _). pose proof (zlen_nonneg (schars sep)). rewrite Z.add_0_l, (proj2 (Z.ltb_ge _ _)), !len_schars by lia.
  eapply returns_bind_mono; [apply subseq_spec; lia|]. intros o Ho. unfold norm_beg, norm_len in Ho. cbn [Z.ltb Z.compare] in Ho. rewrite decide_True in Ho by lia.
  destruct Ho as (h & -> & Eh & _). eapply returns_bind_mono; [apply subseq_spec; lia|]. intros o Ho. unfold norm_beg, norm_len in Ho.
  rewrite (proj2 (Z.ltb_ge _ _)) in Ho by lia. rewrite decide_True in Ho by lia. destruct Ho as (t & -> & Et & _). apply returns_ret. exists h, t.
  rewrite Z.min_l in Eh, Et by lia. replace (zlen (schars s) - i - zlen (schars sep)) with (zlen (schars s) - (i + zlen (schars sep))) in Et by lia.
  rewrite slice_rest in Et by lia. rewrite Eh, Et, slice_take. split_and!; [done|done| |by apply free_before|done]. symmetry. by apply index_of_split.
Qed.

(** ** Case *)

Lemma swapcase_loop l n : Forall ascii l → n = zlen l →
  for_range 0 n (λ i '(buffer, changed),
      c ← aload buffer i;
      if negb (iswascii c) then Ok (buffer, changed) else
      if iswlower c then buffer ← astore buffer i (towupper c); Ok (buffer, true) else
      if iswupper c then buffer ← astore buffer i (towlower c); Ok (buffer, true) else
      Ok (buffer, changed)) (l, false) = Ok (swapped <$> l, existsb (λ c, lower c || upper c) l).
Proof.
  intros Ha ->. apply returns_eq. eapply returns_mono.
  - apply (for_range_inv (λ i '(buf, ch), buf = (swapped <$> take (Z.to_nat i) l) ++ drop (Z.to_nat i) l ∧ ch = existsb (λ c, lower c || upper c) (take (Z.to_nat i) l)));
      [apply zlen_nonneg|done|].
    intros j [buf ch] Hj [-> ->]. destruct (zlookup_is_Some l j) as [c Hc]; [lia|]. rewrite zlookup_nonneg in Hc by lia.
    assert (ascii c) as Hac by (by eapply Forall_lookup_1). rewrite (drop_S _ _ _ Hc). replace (Z.to_nat (j + 1)) with (S (Z.to_nat j)) by lia.
    rewrite (take_S_r _ _ _ Hc), fmap_app, existsb_app. cbn [fmap list_fmap existsb]. rewrite orb_false_r.
    set (p := swapped <$> take (Z.to_nat j) l). assert (length p = Z.to_nat j) as Hp by (unfold p; rewrite length_fmap, length_take; unfold zlen in *; lia).
    rewrite (proj2 (aload_ok _ _ c)) by (rewrite zlookup_app_r by (unfold zlen; lia); by replace (j - zlen p) with 0 by (unfold zlen; lia)).
    cbn [mbind res_bind]. assert (∀ x, astore (p ++ c :: drop (S (Z.to_nat j)) l) j x = Ok ((p ++ [x]) ++ drop (S (Z.to_nat j)) l)) as Hst.
    { intros x. pose proof (astore_mid p c (drop (S (Z.to_nat j)) l) x) as E. rewrite Hp, Z2Nat.id in E by lia. rewrite E. by rewrite <-app_assoc. }
    rewrite cf_iswascii. unfold ascii in Hac. rewrite (proj2 (Z.leb_le 0 c)), (proj2 (Z.ltb_lt c 128)) by lia. cbn [andb negb].
    rewrite cf_iswlower, cf_iswupper, cf_towupper, cf_towlower by done. fold (lower c) (upper c). unfold swapped at 1. destruct (lower c); [|destruct (upper c)]; cbn [orb].
    + rewrite Hst. cbn [mbind res_bind]. apply returns_ret. by rewrite orb_true_r.
    + rewrite Hst. cbn [mbind res_bind]. apply returns_ret. by rewrite orb_true_r.
    + apply returns_ret. rewrite <-app_assoc, orb_false_r. done.
  - intros [buf ch] [-> ->]. rewrite to_nat_zlen, take_ge, drop_ge, app_nil_r by lia. done.
Qed.

Lemma swapcase_spec s : writable safe_level s → ascii_of s →
  returns (rb_str_swapcase_bang safe_level s) (λ '(changed, s'),
    schars s' = swapped <$> schars s ∧ changed = existsb (λ c, lower c || upper c) (schars s)).
Proof.
  intros Hw Ha. unfold rb_str_swapcase_bang. rewrite (modify_ok _ _ Hw). cbn [mbind res_bind]. rewrite len_schars. pose proof (zlen_nonneg (schars s)).
  destruct (Z.eqb_spec (zlen (schars s)) 0) as [E0|E0].
  { apply returns_ret. assert (schars s = []) as -> by (destruct (schars s); [done|]; rewrite zlen_cons in E0; pose proof (zlen_nonneg l); lia). done. }
  rewrite cf_get_ok by (unfold schars in *; lia). cbn [mbind res_bind]. change (chars (content s)) with (schars s). rewrite slice_all, swapcase_loop by done. cbn [mbind res_bind].
  destruct (existsb _ _) eqn:Ex; cbn [negb].
  - destruct (cf_del_ok (content s) 0 (zlen (schars s))) as (c & -> & Hc); [done|done|unfold schars in *; lia|]. cbn [mbind res_bind]. apply returns_ret. split; [|done].
    unfold schars at 1. cbn [content set_content]. rewrite cf_append_chars, Hc. change (chars (content s)) with (schars s). rewrite Z.add_0_l, to_nat_zlen, drop_all. done.
  - apply returns_ret. split; [|done]. rewrite <-(list_fmap_id (schars s)) at 1. apply list_fmap_ext. intros i c Hc. unfold swapped, id.
    assert (lower c || upper c = false) as [-> ->]%orb_false_iff; [|done].
    destruct (lower c || upper c) eqn:Ec; [|done]. rewrite <-Ex. symmetry. apply existsb_exists. exists c. split; [|done]. apply list_elem_of_In. by eapply list_elem_of_lookup_2.
Qed.

(** ** The last character *)

(** Without the last character, or the line end of two characters *)
Definition chopped (l : list Z) : list Z :=
  match reverse l with
  | c :: d :: r => reverse (if (c =? 10) && (d =? 13) then r else d :: r)
  | _ => []
  end.

Lemma chop_spec s : writable safe_level s → ascii_of s →
  returns (rb_str_chop_bang safe_level s) (λ '(flag, s'), schars s' = chopped (schars s) ∧ flag = negb (bool_decide (schars s = []))).
Proof.
  intros Hw Ha. unfold rb_str_chop_bang. rewrite len_schars. unfold chopped. destruct (schars s) as [|c l _] eqn:E using rev_ind.
  { apply returns_ret. by rewrite E. }
  pose proof (zlen_nonneg l) as Hl. rewrite zlen_app, zlen_cons, zlen_nil, (proj2 (Z.eqb_neq _ _)) by lia. rewrite (modify_ok _ _ Hw). cbn [mbind res_bind].
  rewrite rstring_ptr, E by done. cbn [of_option mbind res_bind]. rewrite bool_decide_eq_false_2 by (by destruct l). cbn [negb].
  assert (∀ m, 0 ≤ m ≤ zlen l → returns (c0 ← cf_del (content s) (CFRangeMake m (zlen l + (1 + 0) - m)); Ok (true, set_content s c0))
    (λ '(flag, s'), schars s' = take (Z.to_nat m) l ∧ flag = true)) as Hdel.
  { intros m Hm. eapply returns_bind_mono; [apply cf_del_ok; [lia|lia|]|].
    - change (chars (content s)) with (schars s). rewrite E, zlen_app, zlen_cons, zlen_nil. lia.
    - intros u Hu. apply returns_ret. split; [|done]. unfold schars at 1. cbn [content set_content]. rewrite Hu. change (chars (content s)) with (schars s).
      rewrite E, (drop_ge (l ++ [c])), app_nil_r, take_app_le by (rewrite ?length_app; cbn; unfold zlen in *; lia). done. }
  rewrite reverse_snoc. destruct l as [|d l _] using rev_ind.
  - cbn [zlen length Z.of_nat Z.add Z.leb Z.compare mbind res_bind]. apply (Hdel 0). rewrite zlen_nil. lia.
  - rewrite reverse_snoc. rewrite zlen_app, zlen_cons, zlen_nil in *. pose proof (zlen_nonneg l). set (n := zlen l + (1 + 0) + (1 + 0)) in *. rewrite (proj2 (Z.leb_le 2 n)) by lia.
    rewrite (proj2 (aload_ok _ (n - 1) c)); [|rewrite <-app_assoc, zlookup_app_r, zlen_app, zlen_cons, zlen_nil by (rewrite zlen_app, zlen_cons, zlen_nil; lia); by replace (n - 1 - _) with 0 by lia].
    cbn [mbind res_bind]. rewrite (proj2 (aload_ok _ (n - 2) d)); [|rewrite <-!app_assoc, zlookup_app_r by lia; by replace (n - 2 - _) with 0 by lia].
    destruct (Z.eqb_spec c 10) as [->|Hc]; cbn [andb mbind res_bind]; [destruct (Z.eqb_spec d 13) as [->|Hd]|].
    + eapply returns_mono; [replace (CFRangeMake (n - 2) 2) with (CFRangeMake (zlen l) (n - zlen l)) by (f_equal; lia); apply Hdel; lia|].
      intros [flag s'] [-> ->]. by rewrite to_nat_zlen, take_app_length, reverse_involutive.
    + eapply returns_mono; [replace (CFRangeMake (n - 1) 1) with (CFRangeMake (zlen l + 1) (n - (zlen l + 1))) by (f_equal; lia); apply Hdel; lia|].
      intros [flag s'] [-> ->]. rewrite take_ge by (rewrite length_app; cbn; unfold zlen; lia). by rewrite reverse_cons, reverse_involutive.
    + eapply returns_mono; [replace (CFRangeMake (n - 1) 1) with (CFRangeMake (zlen l + 1) (n - (zlen l + 1))) by (f_equal; lia); apply Hdel; lia|].
      intros [flag s'] [-> ->]. rewrite take_ge by (rewrite length_app; cbn; unfold zlen; lia). by rewrite reverse_cons, reverse_involutive.
Qed.

(** Without the line end, "\n", "\r\n" or "\r" *)
Definition chomped (l : list Z) : list Z :=
  match reverse l with
  | c :: r =>
      if c =? 10 then match r with d :: r' => reverse (if d =? 13 then r' else r) | [] => [] end
      else if c =? 13 then reverse r else l
  | [] => []
  end.

(** Deleting from [m] to the end *)
Lemma cut_spec s m : 0 ≤ m ≤ zlen (schars s) →
  returns (c ← cf_del (content s) (CFRangeMake m (zlen (schars s) - m)); Ok (true, set_content s c))
    (λ '(flag, s'), schars s' = take (Z.to_nat m) (schars s) ∧ flag = true).
Proof.
  intros Hm. eapply returns_bind_mono; [apply cf_del_ok; [lia|lia|unfold schars in *; lia]|]. intros u Hu. apply returns_ret. split; [|done].
  unfold schars at 1. cbn [content set_content]. rewrite Hu. change (chars (content s)) with (schars s).
  rewrite (drop_ge (schars s)) by (unfold zlen in *; lia). apply app_nil_r.
Qed.

(** The default separator; a string that is one newline is read before its beginning. *)
Lemma chomp_spec s rs : writable safe_level s → schars rs = [10] → schars s ≠ [10] →
  returns (rb_str_chomp_bang safe_level s (Some rs) true) (λ '(flag, s'),
    schars s' = chomped (schars s) ∧ flag = negb (bool_decide (chomped (schars s) = schars s))).
Proof.
  intros Hw Hrs Hn. unfold rb_str_chomp_bang. rewrite (modify_ok _ _ Hw). cbn [mbind res_bind]. rewrite !len_schars, Hrs. unfold chomped.
  destruct (schars s) as [|c l _] eqn:E using rev_ind.
  { apply returns_ret. by rewrite E. }
  pose proof (zlen_nonneg l) as Hl. assert (zlen (l ++ [c]) = zlen l + 1) as Hz by (rewrite zlen_app, zlen_cons, zlen_nil; lia).
  rewrite Hz, (proj2 (Z.eqb_neq _ _)), reverse_snoc by lia. cbn [orb mbind res_bind]. change (0 <? zlen [10]) with true.
  assert (∀ i x, zlookup (l ++ [c]) i = Some x → cf_char (content s) i = Ok x) as Hat
    by (intros i x Hx; apply cf_char_ok; change (chars (content s)) with (schars s); by rewrite E).
  rewrite (Hat (zlen l + 1 - 1) c) by (rewrite zlookup_app_r by lia; by replace (_ - zlen l) with 0 by lia). cbn [mbind res_bind].
  assert (∀ m, 0 ≤ m ≤ zlen l → ∀ r, r = CFRangeMake m (zlen l + 1 - m) → ∀ k, k = take (Z.to_nat m) l →
    returns (if (rlength r =? 0) || (zlen l + 1 <? location r + rlength r) then Ok (false, s) else c ← cf_del (content s) r; Ok (true, set_content s c))
      (λ '(flag, s'), schars s' = k ∧ flag = negb (bool_decide (k = l ++ [c])))) as Hdel.
  { intros m Hm r -> k ->. cbn [rlength location]. rewrite (proj2 (Z.eqb_neq _ _)), (proj2 (Z.ltb_ge _ _)) by lia. cbn [orb]. rewrite <-Hz, <-E.
    eapply returns_mono; [apply cut_spec; rewrite E, Hz; lia|]. intros [flag s'] [-> ->]. rewrite E, take_app_le by (unfold zlen in *; lia). split; [done|].
    rewrite bool_decide_eq_false_2; [done|]. intros Hbad%(f_equal zlen). rewrite Hz in Hbad. unfold zlen in *. rewrite length_take in Hbad. lia. }
  destruct (Z.eqb_spec c 10) as [->|Hc].
  - destruct l as [|d l _] using rev_ind; [done|]. rewrite zlen_app, zlen_cons, zlen_nil in *. pose proof (zlen_nonneg l).
    rewrite (Hat (zlen l + (1 + 0) + 1 - 1 - 1) d) by (rewrite <-app_assoc, zlookup_app_r by lia; by replace (_ - zlen l) with 0 by lia). cbn [mbind res_bind].
    cbn [orb]. rewrite andb_true_r, reverse_snoc. destruct (Z.eqb_spec d 13) as [->|Hd].
    + apply (Hdel (zlen l)); [lia|f_equal; lia|]. by rewrite reverse_involutive, to_nat_zlen, take_app_length.
    + apply (Hdel (zlen l + 1)); [lia|f_equal; lia|]. rewrite reverse_cons, reverse_involutive, take_ge; [done|]. rewrite length_app. cbn. unfold zlen. lia.
  - cbn [mbind res_bind orb]. rewrite andb_true_r. destruct (Z.eqb_spec c 13) as [->|Hd].
    + apply (Hdel (zlen l)); [lia|f_equal; lia|]. by rewrite reverse_involutive, to_nat_zlen, take_ge.
    + cbn [rlength Z.eqb orb]. apply returns_ret. by rewrite bool_decide_eq_true_2.
Qed.

(** ** Checksum *)

Definition sum_list_Z (l : list Z) : Z := foldr Z.add 0 l.

Lemma sum_spec s bits : ascii_of s → 1 ≤ bits ≤ 63 →
  computes (rb_str_sum s bits) (sum_list_Z (schars s) mod 2 ^ bits).
Proof.
  intros Ha Hb. unfold rb_str_sum. rewrite rstring_ptr by done. cbn [of_option mbind res_bind]. rewrite len_schars.
  unfold u64. rewrite Z.mod_small, (proj2 (Z.leb_gt _ _)) by lia. set (l := schars s).
  assert (for_range 0 (zlen l) (λ i sum, c ← aload (l ++ [0]) i; Ok ((sum + c) mod 2 ^ 64)) 0 = Ok (sum_list_Z l mod 2 ^ 64)) as ->.
  { apply returns_eq. eapply returns_mono.
    - apply (for_range_inv (λ i sum, sum = sum_list_Z (take (Z.to_nat i) l) mod 2 ^ 64)); [apply zlen_nonneg|done|].
      intros j sum Hj ->. destruct (zlookup_is_Some l j) as [c Hc]; [lia|]. rewrite (proj2 (aload_ok _ _ c)) by (by rewrite zlookup_app_l by lia).
      cbn [mbind res_bind]. apply returns_ret. rewrite zlookup_nonneg in Hc by lia. replace (Z.to_nat (j + 1)) with (S (Z.to_nat j)) by lia.
      rewrite (take_S_r _ _ _ Hc). unfold sum_list_Z. rewrite foldr_app. cbn [foldr]. rewrite Zplus_mod_idemp_l. f_equal. clear. induction (take (Z.to_nat j) l); cbn; lia.
    - intros sum ->. by rewrite to_nat_zlen, take_ge by lia. }
  cbn [mbind res_bind]. rewrite (proj2 (Z.eqb_neq bits 0)) by lia. cbn [negb]. rewrite Z.shiftl_1_l, Z.sub_1_r, <-Z.ones_equiv, Z.land_ones by lia.
  assert (0 < 2 ^ bits) as Hpos by (apply Z.pow_pos_nonneg; lia). assert (2 ^ bits ≤ 2 ^ 63) by (apply Z.pow_le_mono_r; lia).
  rewrite Z.mod_mod_divide by (exists (2 ^ (64 - bits)); rewrite <-Z.pow_add_r by lia; f_equal; lia).
  apply s64_fix. pose proof (Z.mod_pos_bound (sum_list_Z l) (2 ^ bits) Hpos). lia.
Qed.
End text.
