(* ===== verification/StrThm.v ===== *)
(** * Theorems about strings

    The methods of string.c against lists of characters, over any strings of CoreFoundation that keep its
    promises, with examples over strings that are lists. *)

From S2P Require Import Prelude Util Big BigStr BigThm Numeric NumericSpec RArray CFString Str StrSpec StrSet StrSetSpec StrParse StrSetOps StrOps StrText.

Section theorems.
Context `{J : Junk} `{F : CFStrings} `{L : !CFStringLaws} `{S : !CFCharacterSets} `{SL : !CFCharacterSetLaws} (safe_level : Z).

(** C36: [delete!], [squeeze!] and [count] with arguments that are sets of characters: each argument denotes its
    characters and ranges, or their complement behind a caret, also if nothing follows the caret, and a character counts if all of them denote it.
    [delete!] removes these characters, [squeeze!] keeps one of each run of the same one, [count] is their number
    as a C int; [delete!] and [squeeze!] return nil exactly if nothing changed. *)
Theorem charset_methods_correct s args sps all : writable safe_level s → denote args sps → args ≠ [] →
  returns (rb_str_delete_bang safe_level s args) (λ '(changed, s'),
    schars s' = filter (λ c, selects sps c = false) (schars s) ∧ changed = existsb (selects sps) (schars s)) ∧
  returns (rb_str_squeeze_bang safe_level all s args) (λ '(changed, s'),
    schars s' = collapse (selects sps) true None (schars s) ∧ changed = (zlen (schars s') <? zlen (schars s))) ∧
  rb_str_count s args = Ok (s32 (zlen (filter (λ c, selects sps c = true) (schars s)))).
Proof. intros Hw Hd Hne. split_and!; [by apply delete_spec|by apply squeeze_bang_spec|by apply count_spec]. Qed.


(** C38: [upto] between two strings over one alphabet (digits, small or capital letters) and of one length gives the
    block, one after the other, the strings of this length over the alphabet whose values are all the numbers
    from the first to the last, which is left out if it is excluded; with as much fuel as there are numbers it
    ends, and if the first is larger it gives none. *)
Theorem upto_counts a fuel beg end_ (excl : bool) w :
  numeral a (schars beg) → numeral a (schars end_) → length (schars beg) = w → length (schars end_) = w →
  value a (schars end_) - value a (schars beg) < Z.of_nat fuel →
  returns (rb_str_upto collect fuel beg end_ excl [])
    (counts a w (value a (schars beg)) (value a (schars end_) - value a (schars beg) + (if excl then 0 else 1))).
Proof. apply upto_spec. Qed.

(** C39: The fields of [split] with a separator string, neither empty nor a single space, joined with it, are the
    string.  Without a positive limit no field contains the separator; without a limit (or with 0) the empty
    fields at the end are dropped, with a negative one they are all kept.  With a positive limit there are at most
    as many fields; if there are fewer, none contains the separator, and otherwise none but the last does.  The
    lines of [each_line] are such fields with the separator behind them and the rest.  The strings are ASCII. *)
Theorem split_join_roundtrip fs rs s sep limit : ascii_of s → ascii_of sep → schars sep ≠ [] → schars sep ≠ [32] →
  zlen (schars s) < 2 ^ 62 → (∀ l, limit = Some l → - 2 ^ 31 ≤ l < 2 ^ 31) →
  let lim := default 0 limit in
  returns (rb_str_split_m fs s (Some sep) limit) (λ r, ∃ fields,
    join (schars sep) fields = schars s ∧ (lim ≤ 0 → Forall (free (schars sep)) fields) ∧ (0 < lim → limited_fields (schars sep) lim fields) ∧
    schars <$> r = if lim =? 0 then trim_r is_nil fields else fields) ∧
  returns (rb_str_each_line collect rs s (Some sep) []) (λ acc, ∃ fs rest,
    acc = lines_of (schars sep) fs rest ∧ schars s = (fs ≫= λ f, f ++ schars sep) ++ rest ∧
    Forall (free (schars sep)) fs ∧ free (schars sep) rest).
Proof. intros. split; [by apply split_spec|by apply each_line_spec]. Qed.

(** C40: A part of a string from a position, counted from the end if it is negative, is cut off at the end of
    the string and nil if the position is outside; assigning to it replaces these characters or raises IndexError;
    and what [slice!] takes away, [insert] puts back.  A negative length raises IndexError if it is assigned to;
    reading it, at a position inside, is not caught and leaves the range of the string.  The part read is never
    tainted, also if the string is; the string assigned to becomes tainted if the other is. *)
Theorem str_parts_correct s b n v : zlen (schars s) < 2 ^ 62 → - 2 ^ 62 ≤ b < 2 ^ 62 → - 2 ^ 62 ≤ n < 2 ^ 62 → writable safe_level s →
  let l := schars s in let b' := norm_beg l b in
  (if decide (0 ≤ b' ≤ zlen l) then
     if decide (0 ≤ n) then
       returns (rb_str_subseq s b n) (λ o, ∃ t, o = Some t ∧ schars t = slice b' (norm_len l b' n) l ∧ s_tainted t = false)
     else rb_str_subseq s b n = Err OutOfBounds
   else rb_str_subseq s b n = Ok None) ∧
  (if decide (0 ≤ b' ≤ zlen l ∧ 0 ≤ n) then
     returns (rb_str_splice safe_level s b n v) (λ s',
       schars s' = take (Z.to_nat b') l ++ schars v ++ drop (Z.to_nat (b' + norm_len l b' n)) l ∧
       s_frozen s' = false ∧ s_immutable s' = false ∧ s_tainted s' = s_tainted s || s_tainted v)
   else rb_str_splice safe_level s b n v = Err (Raise IndexError)) ∧
  (0 ≤ b ≤ zlen l → 0 ≤ n → returns (rb_str_slice_bang safe_level s (ISlice b n)) (λ '(o, s'), ∃ t, o = Some t ∧
     schars t = slice b (norm_len l b n) l ∧ schars s' = take (Z.to_nat b) l ++ drop (Z.to_nat (b + norm_len l b n)) l ∧
     returns (rb_str_insert safe_level s' b t) (λ s'', schars s'' = l))).
Proof.
  intros Hl Hb Hn Hw l b'. split_and!; [| |intros; apply slice_insert; (done || lia)].
  - destruct (decide (0 ≤ n)) as [H0|H0].
    + pose proof (subseq_spec s b n Hl Hb ltac:(lia)) as H. cbv zeta in H. fold l in H. fold b' in H. destruct (decide _); [exact H|]. destruct H as (? & E & ->). exact E.
    + rewrite subseq_negative by lia. fold l. fold b'. by destruct (decide _).
  - destruct (decide (0 ≤ n)) as [H0|H0].
    + pose proof (splice_spec safe_level s b n v Hl Hb ltac:(lia) Hw) as H. cbv zeta in H. fold l in H. fold b' in H.
      destruct (decide (0 ≤ b' ≤ zlen l)), (decide _); try done; naive_solver.
    + rewrite decide_False by naive_solver. apply splice_negative. lia.
Qed.

(** ** Further methods *)

(** The successor of a string over an alphabet has the next value, in one more character only behind the last
    string of its length. *)
Theorem succ_next_value a s : numeral a (schars s) →
  returns (rb_str_succ s) (λ r, numeral a (schars r) ∧ value a (schars r) = value a (schars s) + 1 ∧
    (length (schars r) = length (schars s) ∨
     length (schars r) = Datatypes.S (length (schars s)) ∧ Forall (λ c, c = last_char a) (schars s))).
Proof. apply succ_spec. Qed.

(** Copies: [*] and [reverse] *)
Theorem times_reverse_correct s n : 0 ≤ n ≤ LONG_MAX → zlen (schars s) ≤ LONG_MAX → (s_tainted s = true → safe_level < 4) →
  (if n * zlen (schars s) <=? LONG_MAX then returns (rb_str_times s n) (λ r, schars r = mjoin (replicate (Z.to_nat n) (schars s)))
   else rb_str_times s n = Err (Raise ArgumentError)) ∧
  returns (rb_str_reverse safe_level s) (λ r, schars r = reverse (schars s)).
Proof. intros. split; [by apply times_spec|by apply reverse_spec]. Qed.

(** [ljust], [rjust] and [center]: the pad string, repeated and cut off, on one side or on both, until the string
    has the width *)
Theorem justify_correct space s width pad j : schars pad ≠ [] →
  let l := schars s in let n := Z.max 0 (width - zlen l) in
  returns (rb_str_justify space s width (Some pad) j) (λ r,
    schars r = repeated (schars pad) 0 (padding j n).1 ++ l ++ repeated (schars pad) 0 (padding j n).2 ∧ zlen (schars r) = Z.max width (zlen l)).
Proof. apply justify_spec. Qed.

(** [strip!], [lstrip!] and [rstrip!] remove the white space at the ends; whether they return nil depends on the
    right end only, against the documentation. *)
Theorem strip_correct s : writable safe_level s →
  returns (rb_str_strip_bang safe_level s) (λ '(flag, s'),
    schars s' = drop_while whitespace (trim_r whitespace (schars s)) ∧ flag = negb (bool_decide (trim_r whitespace (schars s) = schars s))) ∧
  returns (rb_str_lstrip_bang safe_level s) (λ '(flag, s'), schars s' = drop_while whitespace (schars s) ∧ flag = false) ∧
  returns (rb_str_rstrip_bang safe_level s) (λ '(flag, s'),
    schars s' = trim_r whitespace (schars s) ∧ flag = negb (bool_decide (trim_r whitespace (schars s) = schars s))).
Proof.
  intros Hw. split_and!; eapply returns_mono; try (by apply strip_spec); intros [flag s']; [done| |done].
  unfold strip_l, strip_r. cbn. intros [-> ->]. by rewrite bool_decide_eq_true_2.
Qed.

(** [index] finds the first occurrence from a position on, counted from the end if it is negative; [include?] says
    whether there is one, and [partition] cuts the string at the first one. *)
Theorem search_correct s sub pos : ascii_of s → ascii_of sub → schars sub ≠ [] → pos ≤ zlen (schars s) → zlen (schars s) < 2 ^ 62 →
  let l := schars s in let b := norm_beg l pos in
  rb_str_index_m s sub pos = Ok (if b <? 0 then None else (λ i, b + i) <$> index_of (schars sub) (drop (Z.to_nat b) l)) ∧
  (∃ b, rb_str_include s sub = Ok b ∧ (b = true ↔ ∃ k1 k2, schars s = k1 ++ schars sub ++ k2)) ∧
  returns (rb_str_partition s sub) (λ '(h, m, t), ∃ h' t', h = Some h' ∧ t = Some t' ∧
    schars h' ++ schars m ++ schars t' = schars s ∧ free (schars sub) (schars h') ∧
    schars m = if index_of (schars sub) (schars s) then schars sub else []).
Proof. intros. split_and!; [by apply index_m_spec|by apply include_spec|by apply partition_spec]. Qed.

(** [swapcase!] exchanges the case of the letters of ASCII, so that twice is nothing, and returns nil exactly if
    there are none. *)
Theorem swapcase_correct s : writable safe_level s → ascii_of s →
  returns (rb_str_swapcase_bang safe_level s) (λ '(changed, s'),
    schars s' = swapped <$> schars s ∧ changed = existsb (λ c, lower c || upper c) (schars s)) ∧
  swapped <$> (swapped <$> schars s) = schars s.
Proof.
  intros Hw Ha. split; [by apply swapcase_spec|]. rewrite <-list_fmap_compose. etransitivity; [|apply list_fmap_id].
  apply list_fmap_ext. intros i c _. apply swapped_twice.
Qed.

(** [chop!] and [chomp!] take away the last character and the line end, two characters if it is "\r\n"; [sum] is
    the sum of the bytes modulo a power of two. *)
Theorem chop_chomp_sum_correct s rs bits : writable safe_level s → ascii_of s → schars rs = [10] → schars s ≠ [10] → 1 ≤ bits ≤ 63 →
  returns (rb_str_chop_bang safe_level s) (λ '(flag, s'), schars s' = chopped (schars s) ∧ flag = negb (bool_decide (schars s = []))) ∧
  returns (rb_str_chomp_bang safe_level s (Some rs) true) (λ '(flag, s'),
    schars s' = chomped (schars s) ∧ flag = negb (bool_decide (chomped (schars s) = schars s))) ∧
  computes (rb_str_sum s bits) (sum_list_Z (schars s) mod 2 ^ bits).
Proof. intros. split_and!; [by apply chop_spec|by apply chomp_spec|by apply sum_spec]. Qed.

(** Where ranges are not tested: a negative length, a search from behind the end, and a set that ends with a dash *)
Theorem str_unchecked_ranges s t b n sargs bs tail c :
  zlen (schars s) < 2 ^ 62 → 0 ≤ b ≤ zlen (schars s) → - 2 ^ 62 ≤ n < 0 →
  forallb good_block bs = true → forallb plain (tail ++ [c]) = true → head ((bs ≫= block_bytes) ++ tail ++ [c]) ≠ Some 94 →
  schars sargs = (bs ≫= block_bytes) ++ tail ++ [c; 45] →
  rb_str_subseq s b n = Err OutOfBounds ∧ rb_str_index s t (zlen (schars s) + 1) = Err OutOfBounds ∧ parse_charset sargs = Err OutOfBounds.
Proof.
  intros Hl Hb Hn Hbs Ht Hx E. split_and!; [|apply index_beyond; lia|by eapply parse_charset_dash_end].
  rewrite subseq_negative by lia. unfold norm_beg. by rewrite (proj2 (Z.ltb_ge _ _)), decide_True by lia.
Qed.
End theorems.

(** ** Examples *)

Section examples.
#[local] Existing Instance ex_junk.
#[local] Existing Instance list_strings.
#[local] Existing Instance list_strings_laws.
#[local] Existing Instance list_sets.
#[local] Existing Instance list_sets_laws.

Definition lstr (l : list Z) : rstr := fresh_str (F := list_strings) l.

Lemma lstr_schars l : schars (lstr l) = l.
Proof. apply list_chars. Qed.

Lemma lstr_writable l : writable 0 (lstr l).
Proof. done. Qed.

Lemma lstr_ascii l : forallb (λ c, (0 <=? c) && (c <? 128)) l = true → ascii_of (lstr l).
Proof.
  intros H. unfold ascii_of, ascii_str. change (Forall ascii (schars (lstr l))). rewrite lstr_schars. induction l as [|c l IH]; [done|].
  cbn in H. apply andb_true_iff in H as [H1 H2]. constructor; [unfold ascii; lia|by apply IH].
Qed.

(** "hello" and the set "l-o" *)
Lemma charset_methods_correct_witness :
  returns (rb_str_delete_bang 0 (lstr [104; 101; 108; 108; 111]) [lstr [108; 45; 111]]) (λ '(changed, s'),
    schars s' = [104; 101] ∧ changed = true) ∧
  rb_str_count (lstr [104; 101; 108; 108; 111]) [lstr [108; 45; 111]] = Ok 3.
Proof.
  destruct (charset_methods_correct 0 (lstr [104; 101; 108; 108; 111]) [lstr [108; 45; 111]] [CharSpec false [([], 108, 111)] []] []) as (H1 & _ & H3).
  - apply lstr_writable.
  - constructor; [split; [done|apply lstr_schars]|constructor].
  - done.
  - split; [|exact H3]. eapply returns_mono; [exact H1|]. intros [ch s'] [-> ->]. rewrite lstr_schars. split; by vm_compute.
Defined.


(** From "08" to "11" *)
Lemma upto_counts_witness :
  returns (rb_str_upto collect 5 (lstr [48; 56]) (lstr [49; 49]) false []) (λ acc, value Digits <$> acc = [8; 9; 10; 11]).
Proof.
  eapply returns_mono; [apply (upto_counts Digits 5 (lstr [48; 56]) (lstr [49; 49]) false 2)|]; rewrite ?lstr_schars; try done.
  - split; [done|]. repeat constructor; by cbv.
  - split; [done|]. repeat constructor; by cbv.
  - intros acc [-> _]. by vm_compute.
Defined.

(** "a,b,c" and ",", without a limit and with two fields *)
Lemma split_join_roundtrip_witness :
  returns (rb_str_split_m None (lstr [97; 44; 98; 44; 99]) (Some (lstr [44])) None) (λ r, ∃ fields,
    join [44] fields = [97; 44; 98; 44; 99] ∧ Forall (free [44]) fields ∧ schars <$> r = trim_r is_nil fields) ∧
  returns (rb_str_split_m None (lstr [97; 44; 98; 44; 99]) (Some (lstr [44])) (Some 2)) (λ r,
    join [44] (schars <$> r) = [97; 44; 98; 44; 99] ∧ limited_fields [44] 2 (schars <$> r)).
Proof.
  split.
  - destruct (split_join_roundtrip None (lstr [10]) (lstr [97; 44; 98; 44; 99]) (lstr [44]) None) as [H _]; rewrite ?lstr_schars; try done.
    + by apply lstr_ascii.
    + by apply lstr_ascii.
    + eapply returns_mono; [exact H|]. rewrite !lstr_schars. intros r (fields & H1 & H2 & _ & H4). exists fields. split_and!; [done|by apply H2|done].
  - destruct (split_join_roundtrip None (lstr [10]) (lstr [97; 44; 98; 44; 99]) (lstr [44]) (Some 2)) as [H _]; rewrite ?lstr_schars; try done.
    + by apply lstr_ascii.
    + by apply lstr_ascii.
    + by intros l [= <-].
    + eapply returns_mono; [exact H|]. rewrite !lstr_schars. intros r (fields & H1 & _ & H3 & H4). cbn in H4. rewrite H4. split; [done|by apply H3].
Defined.

(** "hello"[1, 3] *)
Lemma str_parts_correct_witness :
  returns (rb_str_subseq (lstr [104; 101; 108; 108; 111]) (-4) 3) (λ o, ∃ t, o = Some t ∧ schars t = [101; 108; 108]).
Proof.
  destruct (str_parts_correct 0 (lstr [104; 101; 108; 108; 111]) (-4) 3 (lstr [])) as [H _]; rewrite ?lstr_schars; try done.
  revert H. rewrite lstr_schars, decide_True, decide_True by by cbv. intros H. eapply returns_mono; [exact H|]. intros o (t & -> & Et & _).
  exists t. split; [done|]. rewrite Et. by vm_compute.
Defined.

(** ** Behaviour against the documentation *)

Definition text {A} (f : A → list Z) (r : res A) : option (list Z) := match r with Ok a => Some (f a) | Err _ => None end.

(** "abc".tr('abc', 'xy') is "xy" and a NUL: the test for the end of the list is one too late. *)
Theorem tr_writes_nul : text schars (rb_str_tr 0 (lstr [97; 98; 99]) (lstr [97; 98; 99]) (lstr [120; 121])) = Some [120; 121; 0].
Proof. by vm_compute. Qed.

(** [squeeze] without arguments squeezes small letters only. *)
Theorem squeeze_default_letters :
  text schars (rb_str_squeeze (S := list_sets) 0 [97; 45; 122] (lstr [97; 97; 65; 65; 33; 33]) []) = Some [97; 65; 65; 33; 33].
Proof. by vm_compute. Qed.

(** "ahe".rindex("he", 0) finds the match behind the position; without a position the range that is searched is
    longer than the string. *)
Theorem rindex_positions :
  rb_str_rindex_m (lstr [97; 104; 101]) (lstr [104; 101]) (Some 0) = Ok (Some 1) ∧
  rb_str_rindex_m (lstr [97; 104; 101]) (lstr [104; 101]) None = Err OutOfBounds.
Proof. split; by vm_compute. Qed.

(** [lstrip!] returns nil although it removed a space. *)
Theorem lstrip_bang_nil : match rb_str_lstrip_bang 0 (lstr [32; 97]) with Ok (flag, s) => flag = false ∧ schars s = [97] | Err _ => False end.
Proof. by vm_compute. Qed.

(** "\n".chomp! reads the character before the first, and a separator longer than the string a negative range. *)
Theorem chomp_bang_faults :
  rb_str_chomp_bang 0 (lstr [10]) (Some (lstr [10])) true = Err OutOfBounds ∧
  rb_str_chomp_bang 0 (lstr [97]) (Some (lstr [97; 98])) false = Err OutOfBounds.
Proof. split; by vm_compute. Qed.

(** "a\tb c".split(' ') cuts at the space only. *)
Theorem split_space_only :
  match rb_str_split_m None (lstr [97; 9; 98; 32; 99]) (Some (lstr [32])) None with
  | Ok r => schars <$> r = [[97; 9; 98]; [99]] | Err _ => False end.
Proof. by vm_compute. Qed.

(** "abcd" << 256 appends nothing, and << 353 a single byte. *)
Theorem concat_fixnum_byte :
  text schars (rb_str_concat_fix 0 (lstr [97]) 256) = Some [97] ∧ text schars (rb_str_concat_fix 0 (lstr [97]) 353) = Some [97; 97].
Proof. split; by vm_compute. Qed.
End examples.
